(* ===== verification/_CoqProject ===== *)
-Q . S2P
Prelude.v
Float64.v
Limiter.v
Circuit.v
Window.v
CircuitSlow.v
CircuitRatio.v
CircuitPort.v
Quota.v
Snapshots.v
Admission.v
Cache.v
Flight.v
Retry.v
Router.v
Upstream.v
Auth.v
AuthCache.v
Affinity.v
Recovery.v
RelayPlan.v
Stream.v
Text.v
Protocol.v
Tee.v
Tokens.v
Wires.v
Relay.v
RelayProps.v
Pipeline.v
Governance.v
Inference.v
Gateway.v
Serving.v
Slots.v
GatewayProps.v
Metrics.v
Exposition.v
Logger.v
LoggerProps.v
Config.v
Redis.v
RedisLedger.v
RedisProps.v
RedisLimiter.v
RedisLimiterProps.v
RedisGateway.v
Admin.v
AdminProps.v
Insights.v
InsightsProps.v
Reports.v
ReportsProps.v
Identities.v
IdentitiesProps.v
Startup.v
StartupProps.v
Published.v
Mock.v
MockProps.v
