(* ===== verification/Prelude.v ===== *)
(** * Breakwater: a verification library of the LLM gateway

    Breakwater stands between clients and LLM providers.  A request enters a
    chain of stages (authentication, model authorisation, concurrency, rate
    limit, quota, cache), reaches the inference endpoint, is routed to a list
    of candidate upstreams and executed by the relay, which retries and fails
    over; its reply is rendered in the client's wire format, and what it
    consumed is settled on the way back.  The library translates these parts
    from the Go sources into definitions that compute, and proves what makes
    them correct.

    ** The parts, their files and the code

    - [Prelude], [Float64]: Go's [int64], [time], [float64]; sums over maps.
    - [Limiter]: [Memory] is internal/limiter/memory.go (token buckets in
      float64), [Concurrency] concurrency.go (the slot gate).
    - [Circuit], [Window], [CircuitSlow], [CircuitRatio], [CircuitPort]:
      internal/circuit: the shared state machine (machine.go), the three
      strategies (breaker.go, slow.go, ratio.go), nop.go and prober.go.  The
      class [Breaker] is the port of circuit.go, [BreakerLaws] what its
      clients rely on, every strategy an instance.
    - [Quota]: [Ledger] is internal/quota/memory.go, [Sweeper] sweeper.go,
      [Reconcile] reconcile.go; [Snapshots] is quota/pgsnapshot.go, an
      instance of [SnapshotStore], and the rounds of a reconciler on it.
    - [Admission], [Cache], [Flight]: internal/cache: the admission sketch,
      the store, eligibility, and the goroutines inside [Flight.Do] as a step
      relation.
    - [Retry]: internal/retry: budget, classifier, the attempt loop.
    - [Router]: internal/router: traffic switches, latency tracker, the
      candidate list, over any [Breaker].
    - [Upstream]: internal/upstream: the credential ring, the model map, the
      OpenAI adapter.
    - [Auth], [AuthCache]: internal/auth: tier limits, the static identity
      set, the key cache (linked list in a heap).
    - [Affinity]: internal/affinity, the prompt-prefix index.
    - [Recovery]: cmd/breakwater/recovery.go and the hooks of serve.go
      between switch, rings and probes.
    - [RelayPlan], [Stream], [Protocol], [Relay], [RelayProps]: the failover
      plan, the stream pumps and SSE, the canonical wire, one attempt and one
      request of internal/relay.
    - [Wires]: the translated wires of internal/protocol (anthropic.go,
      responses.go) and the dispatch of wire.go: ingest, rendering, and the
      stream transcoders, instances of the class [StreamTranscoder].
    - [Metrics], [Exposition]: internal/obs/metrics.go, the registry and its
      recorders, and the text of a scrape.
    - [Logger], [LoggerProps]: obs/logger.go, the access log: the bounded
      queue, its writer goroutine and [Close] as a step relation.
    - [Config]: internal/config, what [Load] reads and refuses.
    - [Text]: whitespace, boolean words and decimal integers of the standard
      library.
    - [Redis], [RedisLedger], [RedisProps], [RedisGateway]: quota/redis.go and
      its Lua scripts over a Redis server that is a parameter with the
      documented commands as laws ([Documented]); the calls of several
      gateways interleave at their exchanges with the server, which may be
      lost.  [RedisGateway] is the instance of [LedgerPort] and
      [LedgerLaws].
    - [RedisLimiter], [RedisLimiterProps]: limiter/redis.go with its scripts
      tokenbucket.lua and refund.lua, over the same server.
    - [Tee]: internal/httpserver/tee.go.
    - [Tokens], [Pipeline]: internal/pipeline: token estimates, the carrier,
      every stage as a function on the state of one request.
    - [Governance]: the stages of limiter, quota and cache middleware.go and
      the chain of serve.go, over the classes [Limiter] and [LedgerPort]
      (the ports of limiter.go and quota.go); [LedgerLaws] is what a request
      relies on, and [Gateway] shows that the in-process ledger keeps it.
    - [Inference]: internal/server/inference.go.
    - [Gateway], [Serving], [Slots], [GatewayProps]: the composition; the
      contract of a layer of the chain is carried from the endpoint outwards.

    - [Admin], [AdminProps]: the management surface, server/admin.go and
      identityadmin.go, with the sources adminassembly.go gives it.
    - [Startup], [StartupProps], [Published]: how cmd/breakwater assembles a
      gateway from a configuration (serve.go, governance.go, obsassembly.go):
      names shared across components, the control plane, the breakers with
      their gauge and hooks, the seeding of balances, readiness, the routing
      table of server/server.go with probes and discovery, and the lifecycle
      of [Serve].

    - [Insights], [InsightsProps]: internal/insights/pgstore.go, the batched
      writer of the assessment records, its goroutine and its close, and the
      fan-out of obsassembly.go; [Reports], [ReportsProps]:
      insights/report.go and the meaning of its SQL over the rows.
    - [Identities], [IdentitiesProps]: auth/pg.go and pgadmin.go over the
      schema of deploy/schema.sql: statements with their sessions,
      transactions and row locks, the store's methods as programs of
      statements, run alone or interleaved; an instance of [AdminStore].
    - [Mock], [MockProps]: internal/mockllm, the fault-injecting upstream of
      the experiments: directives, routing, responses and the event stream.

    State is a [Record] per Go struct, one [Definition] per function or
    method.  Mutation is explicit state passing; a mutex makes an operation
    one step.  Shared objects that alias (the list cells of the key cache,
    the calls of a flight) live in a heap of addresses.  The rest of the
    world is an argument: clock readings, random draws, the order of a range
    over a map, the replies of upstreams, writes that fail, decoders of the
    standard library.  Theorems quantify over all of it.

    ** What is shown

    - The whole request ([GatewayProps]): it ends, what it takes is given
      back in order ([request_accounted]); its tenant pays what it consumed
      and only for a success ([request_pays_consumption]); the client gets
      one reply and the log one line under its status and code
      ([one_coded_reply]); who is turned away, with what, and that nothing
      moved ([front_door_verdict]).
    - The relay ([RelayProps]): one response per execution over upstreams
      that answer with final statuses, balanced and ordered effects on
      bulkhead and breaker, the attempts walk the failover plan.  A status
      net/http refuses to write panics in [Execute], as in the code.
    - Each component: invariants of its state over any run of its operations,
      conservation (the ledger), exclusiveness (half-open probes, flights,
      slots), refinement of an abstract model (switches, the key cache, the
      slow-call window, the failover list), functional correctness of each
      decision, bounds (rates, waits, estimates), liveness (leases drain,
      abandoned probes are reclaimed), termination of the loops, round trips
      of the stream encoding.
    - The wires ([Wires]): the event stream a translated client sees as a
      function of the upstream payloads, the requests ingest accepts, and
      that no relayed reply carries a document label.
    - The metrics: the recorders are well typed, no recording is lost to the
      leaf cap, concurrent observations keep a histogram consistent, and a
      scrape parses back to the leaves whatever the label values are.
    - The Redis ledger: it refines the in-process ledger under any
      interleaving, keeps the identity the reconciler checks, and stays sound
      when exchanges are lost.
    - The Redis limiter: buckets stay within their capacity, a request is
      decided by both dimensions together and charged in both or in neither,
      to the exact strings the script writes.
    - The access log: every record is written, dropped and counted, or still
      queued, and while its goroutine runs the queue is drained.
    - The management surface: nothing is read or changed without the token,
      and what each endpoint does to switches, identities and balances.  The
      documented requests ([asks]) and those the dispatch takes for them
      ([takes]) are stated apart: they differ at an identifier that is the
      name of an action.
    - The assessment records: each is in one place (an unacknowledged copy is
      also counted as dropped), and a report loses no row of its window, at
      the microseconds PostgreSQL keeps.
    - The identity database: the store implements the directory of users and
      keys, lost connections included, and concurrent issuance keeps the
      ceiling of active keys.
    - The assembly: a valid configuration assembles, the names the parts
      agree on, a restart never resets a balance, every resource opened is
      released or left to the goroutine that closes it, the breaker gauge
      shows the state of its breaker.
    - The snapshots: the drifts reported over any number of rounds of one
      epoch add up to the gap between the first and the last stored snapshot,
      but for the intervals whose insert was applied and never answered.
    - The mock upstream: the gateway's pump settles what the mock states, and
      returns the read error of a stream whose connection was killed.
    - The configuration: [Load] against its declarative description, for a
      lease horizon that is derived or set beside a bounded request, and the
      horizon of a lease against the longest request.

    ** Bounds and fuel

    Recursion that is not structural carries fuel equal to an obvious bound,
    and a theorem says the fuel is enough: the attempt loop runs at most
    MaxAttempts attempts, the eviction loops one turn per element, the line
    readers one turn per byte, the whitespace trims one per byte.  [float64]
    is a rational rounded to 53 bits (no infinities or subnormals).

    ** Not modelled

    Other requests act only through the state a request finds and through the
    arguments: the chain is not interleaved step by step, so the balance of a
    ledger is compared across one request.  What a look at a fallback model
    moves in the breaker or the affinity index is not threaded on.  The log
    line leaves out its instants and the route.  The wording of most errors,
    log text and the JSON codec are left to the standard library: decoders
    and encoders are arguments.  The gateway's metrics are recorded by the
    components outside their models.  Out of scope: the timeouts and the
    sockets of net/http, the options of the Redis and PostgreSQL clients, the
    version handler, flags and tickers.  The isolation of PostgreSQL is that of
    the statements the store sends (committed rows, own rows, row locks), and
    a statement whose reply is lost has been applied or not before the next
    one runs. *)
From stdpp Require Import base numbers gmap strings list.

(** ** Machine integers and time

    Go's [int64], [time.Duration] (nanoseconds in an [int64]) and
    [time.Time].  An instant is the number of nanoseconds since Go's zero
    [Time], as an unbounded integer: [Time] has a range far wider than
    [int64] nanoseconds, so only differences saturate. *)
Module GoInt.
Local Open Scope Z_scope.

Definition min_int64 : Z := - 2 ^ 63.
Definition max_int64 : Z := 2 ^ 63 - 1.

(** Two's-complement wrap-around of an [int64] result. *)
Definition wrap64 (z : Z) : Z := (z + 2 ^ 63) mod 2 ^ 64 - 2 ^ 63.

Definition in_int64 (z : Z) : Prop := min_int64 <= z <= max_int64.

Lemma wrap64_id (z : Z) : in_int64 z -> wrap64 z = z.
Proof.
  unfold in_int64, wrap64, min_int64, max_int64. intros H.
  rewrite Z.mod_small; lia.
Qed.

Lemma wrap64_range (z : Z) : in_int64 (wrap64 z).
Proof.
  unfold in_int64, wrap64, min_int64, max_int64.
  pose proof (Z.mod_pos_bound (z + 2 ^ 63) (2 ^ 64)). lia.
Qed.

(** Intermediate wrap-arounds do not change a final one. *)
Lemma wrap64_eqm (a b : Z) : a mod 2 ^ 64 = b mod 2 ^ 64 -> wrap64 a = wrap64 b.
Proof.
  intros H. unfold wrap64. f_equal.
  rewrite <- (Zplus_mod_idemp_l a), <- (Zplus_mod_idemp_l b). by rewrite H.
Qed.

Lemma wrap64_mod (a : Z) : wrap64 a mod 2 ^ 64 = a mod 2 ^ 64.
Proof.
  unfold wrap64. rewrite Zminus_mod_idemp_l. f_equal. lia.
Qed.

Lemma wrap64_sub (a b : Z) : wrap64 (wrap64 a - wrap64 b) = wrap64 (a - b).
Proof.
  apply wrap64_eqm. rewrite Zminus_mod, !wrap64_mod. by rewrite <- Zminus_mod.
Qed.
End GoInt.

Module GoTime.
Import GoInt.
Local Open Scope Z_scope.

Definition nanosecond : Z := 1.
Definition millisecond : Z := 1000000.
Definition second : Z := 1000000000.
Definition minute : Z := 60 * second.

(** [Time.Sub]: the difference saturates at the [Duration] bounds. *)
Definition sub (t u : Z) : Z := Z.max min_int64 (Z.min max_int64 (t - u)).
Definition add (t d : Z) : Z := t + d.
Definition after (t u : Z) : bool := u <? t.
Definition before (t u : Z) : bool := t <? u.
Definition is_zero (t : Z) : bool := t =? 0.

Lemma sub_exact (t u : Z) : in_int64 (t - u) -> sub t u = t - u.
Proof. unfold in_int64, sub. lia. Qed.

Lemma sub_ge (t u d : Z) : d <= max_int64 -> d <= t - u -> d <= sub t u.
Proof. unfold sub, min_int64. lia. Qed.

Lemma sub_lt (t u d : Z) : min_int64 < d -> t - u < d -> sub t u < d.
Proof. unfold sub. lia. Qed.
End GoTime.

(** ** Strings *)
Lemma string_app_length (s t : string) :
  String.length (s +:+ t) = (String.length s + String.length t)%nat.
Proof. induction s as [|c s IH]; simpl; [done|by rewrite IH]. Qed.

Lemma string_app_assoc (a b c : string) : (a +:+ b) +:+ c = a +:+ (b +:+ c).
Proof. induction a as [|x a IH]; [done|]. exact (f_equal (String x) IH). Qed.

Lemma string_app_nil (a : string) : a +:+ ""%string = a.
Proof. induction a as [|x a IH]; [done|]. exact (f_equal (String x) IH). Qed.

(** Appending the same suffix is injective. *)
Lemma string_app_inj_r (t s1 s2 : string) : s1 +:+ t = s2 +:+ t -> s1 = s2.
Proof.
  revert s2. induction s1 as [|c s1 IH]; intros [|c' s2]; simpl; intros E.
  - done.
  - apply (f_equal String.length) in E. simpl in E. rewrite ?string_app_length in E. simpl in E. exfalso. lia.
  - apply (f_equal String.length) in E. simpl in E. rewrite ?string_app_length in E. simpl in E. exfalso. lia.
  - injection E as -> E. by rewrite (IH s2 E).
Qed.

(** ** Sums over finite maps *)
Module MapSum.
Section map_sum.
Local Open Scope Z_scope.
Context `{Countable K} {V : Type}.
Implicit Types (f : K -> V -> Z) (m : gmap K V).

Definition map_sum f m : Z := map_fold (fun k v acc => f k v + acc) 0 m.

Lemma map_sum_empty f : map_sum f ∅ = 0.
Proof. apply map_fold_empty. Qed.

Lemma map_sum_insert_new f m k v :
  m !! k = None -> map_sum f (<[k := v]> m) = f k v + map_sum f m.
Proof. intros Hk. unfold map_sum. rewrite map_fold_insert_L; [done| |done]. intros; lia. Qed.

Lemma map_sum_delete f m k v :
  m !! k = Some v -> map_sum f m = f k v + map_sum f (delete k m).
Proof.
  intros Hk. rewrite <- (insert_delete_id m k v Hk) at 1.
  apply map_sum_insert_new, lookup_delete_eq.
Qed.

Lemma map_sum_insert f m k v :
  map_sum f (<[k := v]> m) = f k v + map_sum f m - from_option (f k) 0 (m !! k).
Proof.
  destruct (m !! k) as [w|] eqn:E; simpl.
  - rewrite (map_sum_delete f m k w E), <- insert_delete_eq.
    rewrite map_sum_insert_new by apply lookup_delete_eq. lia.
  - rewrite map_sum_insert_new by done. lia.
Qed.

Lemma map_sum_ext f g m :
  (forall k v, m !! k = Some v -> f k v = g k v) -> map_sum f m = map_sum g m.
Proof.
  induction m as [|k v m Hk IH] using map_ind; intros Hfg; [by rewrite !map_sum_empty|].
  rewrite !map_sum_insert_new by done. rewrite (Hfg k v) by apply lookup_insert_eq.
  rewrite IH; [done|]. intros k' v' Hk'. apply Hfg.
  rewrite lookup_insert_ne; [done|]. congruence.
Qed.

Lemma map_sum_nonneg f m :
  (forall k v, m !! k = Some v -> 0 <= f k v) -> 0 <= map_sum f m.
Proof.
  induction m as [|k v m Hk IH] using map_ind; intros Hf; [by rewrite map_sum_empty|].
  rewrite map_sum_insert_new by done. pose proof (Hf k v (lookup_insert_eq _ _ _)).
  assert (0 <= map_sum f m); [|lia]. apply IH. intros k' v' Hk'. apply (Hf k').
  rewrite lookup_insert_ne; [done|]. congruence.
Qed.

(** One entry is at most the sum of non-negative entries. *)
Lemma map_sum_ge f m k v :
  (forall k v, m !! k = Some v -> 0 <= f k v) -> m !! k = Some v -> f k v <= map_sum f m.
Proof.
  intros Hf Hk. rewrite (map_sum_delete f m k v Hk).
  assert (0 <= map_sum f (delete k m)); [|lia]. apply map_sum_nonneg.
  intros k' v' [_ Hk']%lookup_delete_Some. eauto.
Qed.

Lemma map_sum_add f g m : map_sum (fun k v => f k v + g k v) m = map_sum f m + map_sum g m.
Proof.
  induction m as [|k v m Hk IH] using map_ind; [by rewrite !map_sum_empty|].
  rewrite !map_sum_insert_new by done. lia.
Qed.
End map_sum.

Local Open Scope Z_scope.
Lemma map_sum_omap `{Countable K} {V W : Type} (f : K -> W -> Z) (g : V -> option W) (m : gmap K V) :
  map_sum f (omap g m) = map_sum (fun k v => from_option (f k) 0 (g v)) m.
Proof.
  induction m as [|k v m Hk IH] using map_ind.
  { by rewrite omap_empty, !map_sum_empty. }
  rewrite (map_sum_insert_new _ m) by done. destruct (g v) as [w|] eqn:Hg.
  - rewrite (omap_insert_Some g m k v w Hg), map_sum_insert_new by (by rewrite lookup_omap, Hk). by rewrite IH.
  - rewrite (omap_insert_None g m k v Hg), delete_id by (by rewrite lookup_omap, Hk). by rewrite IH.
Qed.
End MapSum.

(** ** Lists filtered by a boolean test *)
Module ListFacts.
Section filter_bool.
Context {A : Type}.
Implicit Types (f g : A -> bool) (l : list A).

Lemma filter_bool_cons f x l :
  filter (fun y => f y = true) (x :: l)
  = if f x then x :: filter (fun y => f y = true) l else filter (fun y => f y = true) l.
Proof.
  destruct (f x) eqn:E; [by rewrite filter_cons_True|].
  rewrite filter_cons_False; [done|by rewrite E].
Qed.

Lemma filter_bool_ext f g l :
  (forall x, x ∈ l -> f x = g x) ->
  filter (fun x => f x = true) l = filter (fun x => g x = true) l.
Proof.
  induction l as [|x l IH]; intros Hfg; [done|]. rewrite !filter_bool_cons.
  rewrite (Hfg x) by set_solver. rewrite IH by set_solver. done.
Qed.

Lemma filter_bool_nil f l :
  filter (fun x => f x = true) l = [] <-> forall x, x ∈ l -> f x = false.
Proof.
  induction l as [|x l IH]; [by split; [intros _ y ?%elem_of_nil|]|].
  rewrite filter_bool_cons. destruct (f x) eqn:E.
  - split; [done|]. intros H. specialize (H x ltac:(set_solver)). congruence.
  - rewrite IH. split.
    + intros H y [->|Hy]%elem_of_cons; auto.
    + intros H y Hy. apply H. set_solver.
Qed.
End filter_bool.
End ListFacts.
