(* ===== verification/Float64.v ===== *)
(** * Float64: Go's [float64] arithmetic

    The gateway's token buckets, breaker windows and latency averages
    compute with [float64].  A finite [float64] is a rational, so the model
    carries rationals and rounds every operation: [rnd] is IEEE 754
    round-to-nearest, ties to even, at 53 significant bits, and [fadd],
    [fsub], [fmul] and [fdiv] round the exact result, as the hardware does.

    Not modelled: the exponent limits of binary64 (overflow to infinity,
    subnormals), [NaN], and the fused multiply-add some architectures use;
    the quantities the gateway computes stay far inside the normal range. *)
From Stdlib Require Import QArith Qround Qpower ZArith Lia Lqa.

Local Open Scope Q_scope.

Definition prec : Z := 53.

(** Nearest integer, ties to even. *)
Definition nearest_even (q : Q) : Z :=
  let f := Qfloor q in
  match Qcompare (q - inject_Z f) (1 # 2) with
  | Lt => f
  | Gt => f + 1
  | Eq => if Z.even f then f else f + 1
  end%Z.

(** [floor (log2 q)] for positive [q]. *)
Definition exponent (q : Q) : Z :=
  let l := (Z.log2 (Qnum q) - Z.log2 (Zpos (Qden q)))%Z in
  if Qle_bool (Qpower 2 l) q then l else (l - 1)%Z.

(** The weight of the last significant bit of a positive [q]. *)
Definition ulp (q : Q) : Q := Qpower 2 (exponent q - (prec - 1)).

Definition rnd_pos (q : Q) : Q := inject_Z (nearest_even (q / ulp q)) * ulp q.

Definition rnd (q : Q) : Q :=
  Qred match Qcompare q 0 with
       | Eq => 0
       | Gt => rnd_pos q
       | Lt => - rnd_pos (- q)
       end.

Definition fof_int (z : Z) : Q := rnd (inject_Z z).
Definition fadd (x y : Q) : Q := rnd (x + y).
Definition fsub (x y : Q) : Q := rnd (x - y).
Definition fmul (x y : Q) : Q := rnd (x * y).
Definition fdiv (x y : Q) : Q := rnd (x / y).
Definition fmin (x y : Q) : Q := if Qle_bool x y then x else y.
Definition fmax (x y : Q) : Q := if Qle_bool x y then y else x.

(** Conversion to an integer truncates toward zero. *)
Definition to_int (q : Q) : Z := Z.quot (Qnum q) (Zpos (Qden q)).

(** ** Nearest integer *)
Lemma floor_bounds (q : Q) : inject_Z (Qfloor q) <= q < inject_Z (Qfloor q) + 1.
Proof.
  split; [apply Qfloor_le|]. pose proof (Qlt_floor q) as H.
  rewrite inject_Z_plus in H. exact H.
Qed.

Lemma nearest_even_cases (q : Q) :
  (nearest_even q = Qfloor q /\ q - inject_Z (Qfloor q) <= 1 # 2) \/
  (nearest_even q = (Qfloor q + 1)%Z /\ 1 # 2 <= q - inject_Z (Qfloor q)).
Proof.
  unfold nearest_even. destruct (Qcompare_spec (q - inject_Z (Qfloor q)) (1 # 2)) as [H|H|H].
  - destruct (Z.even _); [left|right]; (split; [reflexivity|lra]).
  - left. split; [reflexivity|lra].
  - right. split; [reflexivity|lra].
Qed.

Lemma nearest_even_error (q : Q) :
  inject_Z (nearest_even q) - (1 # 2) <= q <= inject_Z (nearest_even q) + (1 # 2).
Proof.
  pose proof (floor_bounds q).
  destruct (nearest_even_cases q) as [[-> ?]|[-> ?]]; rewrite ?inject_Z_plus;
    change (inject_Z 1) with 1; lra.
Qed.

Lemma nearest_even_mono (x y : Q) : x <= y -> (nearest_even x <= nearest_even y)%Z.
Proof.
  intros Hxy. pose proof (Qfloor_resp_le x y Hxy) as Hf.
  destruct (Z.eq_dec (Qfloor x) (Qfloor y)) as [E|E].
  - unfold nearest_even. rewrite E.
    destruct (Qcompare_spec (x - inject_Z (Qfloor y)) (1 # 2)),
      (Qcompare_spec (y - inject_Z (Qfloor y)) (1 # 2));
      try destruct (Z.even (Qfloor y)); try lia; exfalso; lra.
  - destruct (nearest_even_cases x) as [[-> _]|[-> _]],
      (nearest_even_cases y) as [[-> _]|[-> _]]; lia.
Qed.

Lemma nearest_even_int (z : Z) : nearest_even (inject_Z z) = z.
Proof.
  unfold nearest_even. rewrite Qfloor_Z.
  destruct (Qcompare_spec (inject_Z z - inject_Z z) (1 # 2)); try reflexivity; exfalso; lra.
Qed.

#[export] Instance nearest_even_proper : Proper (Qeq ==> eq) nearest_even.
Proof.
  intros x y E. apply Z.le_antisymm; apply nearest_even_mono; rewrite E; apply Qle_refl.
Qed.

(** ** Powers of two and the binade of a positive rational *)
Lemma Qeq_refl_eq (x y : Q) : x = y -> x == y.
Proof. now intros ->. Qed.

Lemma pow2_pos (k : Z) : 0 < Qpower 2 k.
Proof. apply Qpower_0_lt. reflexivity. Qed.

Lemma pow2_add (j k : Z) : Qpower 2 (j + k) == Qpower 2 j * Qpower 2 k.
Proof. apply Qpower_plus. discriminate. Qed.

Lemma pow2_mono (j k : Z) : (j <= k)%Z -> Qpower 2 j <= Qpower 2 k.
Proof. intros. apply Qpower_le_compat_l; [assumption|discriminate]. Qed.

Lemma pow2_mono_inv (j k : Z) : Qpower 2 j < Qpower 2 k -> (j < k)%Z.
Proof. intros. apply (Qpower_lt_compat_l_inv 2); [assumption|reflexivity]. Qed.

Lemma pow2_int (k : Z) : (0 <= k)%Z -> inject_Z (2 ^ k) == Qpower 2 k.
Proof. intros. now apply Zpower_Qpower. Qed.

Lemma log2_binade (z : Z) : (0 < z)%Z ->
  Qpower 2 (Z.log2 z) <= inject_Z z < Qpower 2 (Z.log2 z + 1).
Proof.
  intros H. pose proof (Z.log2_spec z H) as [H1 H2]. pose proof (Z.log2_nonneg z).
  rewrite <- !pow2_int by lia. unfold Z.succ in H2. split.
  - now rewrite <- Zle_Qle.
  - now rewrite <- Zlt_Qlt.
Qed.

Lemma exponent_spec (q : Q) : 0 < q ->
  Qpower 2 (exponent q) <= q < Qpower 2 (exponent q + 1).
Proof.
  intros Hq. destruct q as [n d]. unfold exponent; simpl Qnum; simpl Qden.
  assert (0 < n)%Z as Hn by (unfold Qlt in Hq; simpl in Hq; lia).
  pose proof (log2_binade n Hn) as [N1 N2].
  pose proof (log2_binade (Zpos d) ltac:(lia)) as [D1 D2].
  set (ln := Z.log2 n) in *. set (ld := Z.log2 (Zpos d)) in *.
  assert (n # d == inject_Z n / inject_Z (Zpos d)) as E by apply Qmake_Qdiv.
  assert (0 < inject_Z (Zpos d)) as Hd by reflexivity.
  pose proof (pow2_pos ld). pose proof (pow2_pos (ln - ld)).
  assert (n # d < Qpower 2 (ln - ld + 1)) as Hup.
  { rewrite E. apply Qlt_shift_div_r; [assumption|].
    apply Qlt_le_trans with (1 := N2).
    replace (ln + 1)%Z with ((ln - ld + 1) + ld)%Z by lia. rewrite pow2_add.
    apply Qmult_le_l; [apply pow2_pos|assumption]. }
  assert (Qpower 2 (ln - ld - 1) <= n # d) as Hlo.
  { rewrite E. apply Qle_shift_div_l; [assumption|].
    apply Qle_trans with (2 := N1).
    replace ln with ((ln - ld - 1) + (ld + 1))%Z at 2 by lia. rewrite pow2_add.
    apply Qmult_le_l; [apply pow2_pos|]. now apply Qlt_le_weak. }
  destruct (Qle_bool _ _) eqn:B.
  - rewrite Qle_bool_iff in B. now split.
  - split; [assumption|]. replace (ln - ld - 1 + 1)%Z with (ln - ld)%Z by lia.
    apply Qnot_le_lt. intros Hle. apply Qle_bool_iff in Hle. congruence.
Qed.

Lemma exponent_unique (q : Q) (e : Z) :
  Qpower 2 e <= q < Qpower 2 (e + 1) -> exponent q = e.
Proof.
  intros [H1 H2]. assert (0 < q) as Hq by (pose proof (pow2_pos e); lra).
  pose proof (exponent_spec q Hq) as [E1 E2].
  assert (Qpower 2 e < Qpower 2 (exponent q + 1)) as A%pow2_mono_inv by lra.
  assert (Qpower 2 (exponent q) < Qpower 2 (e + 1)) as B%pow2_mono_inv by lra.
  lia.
Qed.

Lemma exponent_mono (x y : Q) : 0 < x -> x <= y -> (exponent x <= exponent y)%Z.
Proof.
  intros Hx Hxy. pose proof (exponent_spec x Hx). pose proof (exponent_spec y ltac:(lra)).
  assert (Qpower 2 (exponent x) < Qpower 2 (exponent y + 1)) as A%pow2_mono_inv by lra.
  lia.
Qed.


(** ** Rounding a positive rational *)
Lemma ulp_pos (q : Q) : 0 < ulp q.
Proof. apply pow2_pos. Qed.

(** The significand lies between 2^52 and 2^53. *)
Lemma scaled_bounds (q : Q) : 0 < q ->
  inject_Z (2 ^ (prec - 1)) <= q / ulp q < inject_Z (2 ^ prec).
Proof.
  intros Hq. pose proof (exponent_spec q Hq) as [H1 H2]. pose proof (ulp_pos q) as Hu.
  rewrite !pow2_int by (unfold prec; lia). split.
  - apply Qle_shift_div_l; [assumption|]. unfold ulp. rewrite <- pow2_add.
    replace (prec - 1 + (exponent q - (prec - 1)))%Z with (exponent q) by lia. assumption.
  - apply Qlt_shift_div_r; [assumption|]. unfold ulp. rewrite <- pow2_add.
    replace (prec + (exponent q - (prec - 1)))%Z with (exponent q + 1)%Z by lia. assumption.
Qed.

Lemma significand_bounds (q : Q) : 0 < q ->
  (2 ^ (prec - 1) <= nearest_even (q / ulp q) <= 2 ^ prec)%Z.
Proof.
  intros Hq. pose proof (scaled_bounds q Hq) as [H1 H2]. split.
  - rewrite <- (nearest_even_int (2 ^ (prec - 1))). now apply nearest_even_mono.
  - rewrite <- (nearest_even_int (2 ^ prec)). apply nearest_even_mono. now apply Qlt_le_weak.
Qed.

(** Rounding stays inside the closed binade. *)
Lemma rnd_pos_binade (q : Q) : 0 < q ->
  Qpower 2 (exponent q) <= rnd_pos q <= Qpower 2 (exponent q + 1).
Proof.
  intros Hq. pose proof (significand_bounds q Hq) as [H1 H2]. unfold rnd_pos.
  rewrite Zle_Qle in H1, H2. pose proof (ulp_pos q) as Hu.
  rewrite pow2_int in H1, H2 by (unfold prec; lia).
  split.
  - apply Qle_trans with (Qpower 2 (prec - 1) * ulp q).
    + unfold ulp. rewrite <- pow2_add.
      replace (prec - 1 + (exponent q - (prec - 1)))%Z with (exponent q) by lia.
      apply Qle_refl.
    + apply Qmult_le_compat_r; [assumption|lra].
  - apply Qle_trans with (Qpower 2 prec * ulp q).
    + apply Qmult_le_compat_r; [assumption|lra].
    + unfold ulp. rewrite <- pow2_add.
      replace (prec + (exponent q - (prec - 1)))%Z with (exponent q + 1)%Z by lia.
      apply Qle_refl.
Qed.

Lemma rnd_pos_pos (q : Q) : 0 < q -> 0 < rnd_pos q.
Proof.
  intros Hq. pose proof (rnd_pos_binade q Hq). pose proof (pow2_pos (exponent q)). lra.
Qed.

Lemma rnd_pos_mono (x y : Q) : 0 < x -> x <= y -> rnd_pos x <= rnd_pos y.
Proof.
  intros Hx Hxy. pose proof (exponent_mono x y Hx Hxy) as He.
  destruct (Z.eq_dec (exponent x) (exponent y)) as [E|E].
  - unfold rnd_pos, ulp. rewrite E. pose proof (pow2_pos (exponent y - (prec - 1))).
    apply Qmult_le_compat_r; [|lra]. rewrite <- Zle_Qle. apply nearest_even_mono.
    unfold Qdiv. apply Qmult_le_compat_r; [assumption|].
    apply Qlt_le_weak. now apply Qinv_lt_0_compat.
  - pose proof (rnd_pos_binade x Hx). pose proof (rnd_pos_binade y ltac:(lra)).
    pose proof (pow2_mono (exponent x + 1) (exponent y) ltac:(lia)). lra.
Qed.

(** A value with at most 53 significant bits is its own rounding. *)
Lemma rnd_pos_exact (m k : Z) : (0 < m < 2 ^ prec)%Z ->
  rnd_pos (inject_Z m * Qpower 2 k) == inject_Z m * Qpower 2 k.
Proof.
  intros Hm. set (q := inject_Z m * Qpower 2 k).
  pose proof (log2_binade m ltac:(lia)) as [L1 L2].
  assert (exponent q = Z.log2 m + k)%Z as E.
  { apply exponent_unique. unfold q. pose proof (pow2_pos k).
    replace (Z.log2 m + k + 1)%Z with ((Z.log2 m + 1) + k)%Z by lia.
    rewrite !pow2_add with (k := k). split.
    - apply Qmult_le_compat_r; [assumption|lra].
    - now apply Qmult_lt_r. }
  assert (Z.log2 m < prec)%Z as Hl by (apply Z.log2_lt_pow2; lia).
  assert (q / ulp q == inject_Z (m * 2 ^ (prec - 1 - Z.log2 m))) as Hs.
  { unfold ulp. rewrite E. unfold q. rewrite inject_Z_mult, pow2_int by lia.
    pose proof (pow2_pos (Z.log2 m + k - (prec - 1))).
    assert (Qpower 2 k == Qpower 2 (prec - 1 - Z.log2 m)
              * Qpower 2 (Z.log2 m + k - (prec - 1))) as E2.
    { rewrite <- pow2_add. apply Qeq_refl_eq. f_equal. lia. }
    rewrite E2. field. lra. }
  unfold rnd_pos. rewrite Hs, nearest_even_int, <- Hs. pose proof (ulp_pos q). field. lra.
Qed.

(** ** Rounding any rational *)
Lemma rnd_of_pos (q : Q) : 0 < q -> rnd q == rnd_pos q.
Proof.
  intros H. unfold rnd. rewrite Qred_correct.
  destruct (Qcompare_spec q 0); try reflexivity; exfalso; lra.
Qed.

Lemma rnd_of_neg (q : Q) : q < 0 -> rnd q == - rnd_pos (- q).
Proof.
  intros H. unfold rnd. rewrite Qred_correct.
  destruct (Qcompare_spec q 0); try reflexivity; exfalso; lra.
Qed.

Lemma rnd_of_zero (q : Q) : q == 0 -> rnd q == 0.
Proof.
  intros H. unfold rnd. rewrite Qred_correct.
  destruct (Qcompare_spec q 0); try reflexivity; exfalso; lra.
Qed.

Lemma Q_sign (q : Q) : q < 0 \/ q == 0 \/ 0 < q.
Proof. destruct (Q_dec q 0) as [[?|?]|?]; auto. Qed.

(** Rounding is monotone. *)
Lemma rnd_mono (x y : Q) : x <= y -> rnd x <= rnd y.
Proof.
  intros Hxy.
  destruct (Q_sign x) as [Hx|[Hx|Hx]], (Q_sign y) as [Hy|[Hy|Hy]]; try (exfalso; lra);
    rewrite ?(rnd_of_neg x), ?(rnd_of_zero x), ?(rnd_of_pos x),
      ?(rnd_of_neg y), ?(rnd_of_zero y), ?(rnd_of_pos y) by assumption;
    try (pose proof (rnd_pos_pos (- x) ltac:(lra))); try (pose proof (rnd_pos_pos y ltac:(lra)));
    try lra.
  - pose proof (rnd_pos_mono (- y) (- x) ltac:(lra) ltac:(lra)). lra.
  - now apply rnd_pos_mono.
Qed.

Lemma rnd_red (q : Q) : Qred (rnd q) = rnd q.
Proof. unfold rnd. apply Qred_complete, Qred_correct. Qed.

#[export] Instance rnd_proper : Proper (Qeq ==> eq) rnd.
Proof.
  intros x y E. rewrite <- (rnd_red x), <- (rnd_red y). apply Qred_complete.
  apply Qle_antisym; apply rnd_mono; rewrite E; apply Qle_refl.
Qed.

#[export] Instance rnd_proper_Qeq : Proper (Qeq ==> Qeq) rnd.
Proof. intros x y E. now rewrite (rnd_proper x y E). Qed.

Lemma rnd_0 : rnd 0 = 0.
Proof. reflexivity. Qed.

Lemma rnd_nonneg (q : Q) : 0 <= q -> 0 <= rnd q.
Proof. intros H. rewrite <- rnd_0. now apply rnd_mono. Qed.

Lemma rnd_opp (q : Q) : rnd (- q) == - rnd q.
Proof.
  destruct (Q_sign q) as [H|[H|H]].
  - rewrite (rnd_of_neg q H), (rnd_of_pos (- q)) by lra. lra.
  - rewrite (rnd_of_zero q H), (rnd_of_zero (- q)) by lra. reflexivity.
  - rewrite (rnd_of_pos q H), (rnd_of_neg (- q)) by lra.
    assert (- - q == q) as E by lra. apply Qopp_comp.
    rewrite <- (rnd_of_pos q H), <- (rnd_of_pos (- - q)) by lra. now rewrite E.
Qed.

Lemma rnd_exact (m k : Z) : (Z.abs m < 2 ^ prec)%Z ->
  rnd (inject_Z m * Qpower 2 k) == inject_Z m * Qpower 2 k.
Proof.
  intros Hm. pose proof (pow2_pos k) as Hk. destruct (Z.lt_trichotomy m 0) as [H|[->|H]].
  - assert (inject_Z m * Qpower 2 k == - (inject_Z (- m) * Qpower 2 k)) as E.
    { rewrite inject_Z_opp. ring. }
    rewrite E, rnd_opp, rnd_of_pos.
    + rewrite rnd_pos_exact by lia. reflexivity.
    + apply Qmult_lt_0_compat; [|assumption]. change 0 with (inject_Z 0).
      rewrite <- Zlt_Qlt. lia.
  - assert (inject_Z 0 * Qpower 2 k == 0) as E by (change (inject_Z 0) with 0; ring).
    rewrite E. apply rnd_of_zero. reflexivity.
  - rewrite rnd_of_pos; [apply rnd_pos_exact; lia|].
    apply Qmult_lt_0_compat; [|assumption]. change 0 with (inject_Z 0).
    now rewrite <- Zlt_Qlt.
Qed.

(** Integers up to 2^53 in magnitude are represented exactly. *)
Lemma rnd_int (z : Z) : (Z.abs z <= 2 ^ prec)%Z -> rnd (inject_Z z) == inject_Z z.
Proof.
  intros Hz. destruct (Z.eq_dec (Z.abs z) (2 ^ prec)) as [E|E].
  - assert (inject_Z z == inject_Z (Z.sgn z) * Qpower 2 prec) as ->.
    { rewrite <- pow2_int, <- inject_Z_mult by (unfold prec; lia). f_equiv. lia. }
    apply rnd_exact. unfold prec in *. lia.
  - assert (inject_Z z == inject_Z z * Qpower 2 0) as -> by (simpl; ring).
    apply rnd_exact. lia.
Qed.

Lemma rnd_pos_idem (q : Q) : 0 < q -> rnd (rnd_pos q) == rnd_pos q.
Proof.
  intros Hq. pose proof (significand_bounds q Hq) as [H1 H2].
  unfold rnd_pos, ulp at 2 4. set (s := nearest_even _) in *.
  destruct (Z.eq_dec s (2 ^ prec)) as [E|E].
  - assert (inject_Z s * Qpower 2 (exponent q - (prec - 1))
      == inject_Z 1 * Qpower 2 (prec + (exponent q - (prec - 1)))) as ->.
    { rewrite E, pow2_int, pow2_add by (unfold prec; lia). ring. }
    apply rnd_exact. unfold prec. lia.
  - apply rnd_exact. unfold prec in *. lia.
Qed.

(** A rounded value is a float: rounding it again changes nothing. *)
Lemma rnd_idem (q : Q) : rnd (rnd q) = rnd q.
Proof.
  rewrite <- (rnd_red q) at 2. rewrite <- (rnd_red (rnd q)). apply Qred_complete.
  destruct (Q_sign q) as [H|[H|H]].
  - rewrite (rnd_of_neg q H), rnd_opp, rnd_pos_idem by lra. reflexivity.
  - rewrite (rnd_of_zero q H). reflexivity.
  - rewrite (rnd_of_pos q H). now apply rnd_pos_idem.
Qed.

(** The relative error is at most half a unit in the last place, 2^-53. *)
Lemma rnd_error (q : Q) : 0 <= q ->
  q - q * Qpower 2 (- prec) <= rnd q <= q + q * Qpower 2 (- prec).
Proof.
  intros Hq. destruct (Q_sign q) as [H|[H|H]]; [lra| |].
  - rewrite (rnd_of_zero q H), H. lra.
  - rewrite (rnd_of_pos q H). pose proof (exponent_spec q H) as [H1 _].
    pose proof (ulp_pos q) as Hu. pose proof (nearest_even_error (q / ulp q)) as [E1 E2].
    assert (q == q / ulp q * ulp q) as Eq by (field; lra).
    assert (ulp q * (1 # 2) <= q * Qpower 2 (- prec)) as Hhalf.
    { assert (ulp q * (1 # 2) == Qpower 2 (exponent q) * Qpower 2 (- prec)) as ->.
      { unfold ulp. change (1 # 2) with (Qpower 2 (-1)). rewrite <- !pow2_add.
        apply Qeq_refl_eq. f_equal. lia. }
      apply Qmult_le_compat_r; [assumption|]. apply Qlt_le_weak, pow2_pos. }
    unfold rnd_pos. set (s := inject_Z (nearest_even (q / ulp q))) in *.
    set (t := q / ulp q) in *. split; nra.
Qed.

(** ** Derived facts on the float operations *)
Definition is_float (x : Q) : Prop := rnd x = x.

Lemma rnd_is_float (q : Q) : is_float (rnd q).
Proof. apply rnd_idem. Qed.

Lemma fof_int_float (z : Z) : is_float (fof_int z).
Proof. apply rnd_idem. Qed.

Lemma fof_int_mono (x y : Z) : (x <= y)%Z -> fof_int x <= fof_int y.
Proof. intros. apply rnd_mono. now rewrite <- Zle_Qle. Qed.

Lemma fof_int_exact (z : Z) : (Z.abs z <= 2 ^ prec)%Z -> fof_int z == inject_Z z.
Proof. apply rnd_int. Qed.

Lemma fof_int_nonneg (z : Z) : (0 <= z)%Z -> 0 <= fof_int z.
Proof. intros. apply rnd_nonneg. change 0 with (inject_Z 0). now rewrite <- Zle_Qle. Qed.

Lemma fmin_cases (x y : Q) : (fmin x y = x /\ x <= y) \/ (fmin x y = y /\ y <= x).
Proof.
  unfold fmin. destruct (Qle_bool x y) eqn:E.
  - left. split; [reflexivity|now apply Qle_bool_iff].
  - right. split; [reflexivity|]. apply Qlt_le_weak, Qnot_le_lt.
    intros H%Qle_bool_iff. congruence.
Qed.

Lemma fmax_cases (x y : Q) : (fmax x y = y /\ x <= y) \/ (fmax x y = x /\ y <= x).
Proof.
  unfold fmax. destruct (Qle_bool x y) eqn:E.
  - left. split; [reflexivity|now apply Qle_bool_iff].
  - right. split; [reflexivity|]. apply Qlt_le_weak, Qnot_le_lt.
    intros H%Qle_bool_iff. congruence.
Qed.

Lemma fsub_nonneg (x y : Q) : y <= x -> 0 <= fsub x y.
Proof. intros. apply rnd_nonneg. lra. Qed.

Lemma fsub_le (x y : Q) : is_float x -> 0 <= y -> fsub x y <= x.
Proof. unfold is_float, fsub. intros Hx Hy. rewrite <- Hx at 2. apply rnd_mono. lra. Qed.

Lemma fadd_ge (x y : Q) : is_float x -> 0 <= y -> x <= fadd x y.
Proof. unfold is_float, fadd. intros Hx Hy. rewrite <- Hx at 1. apply rnd_mono. lra. Qed.

Lemma float_le_rnd (x q : Q) : is_float x -> x <= q -> x <= rnd q.
Proof. unfold is_float. intros Hx Hq. rewrite <- Hx. now apply rnd_mono. Qed.

Lemma rnd_le_float (q x : Q) : is_float x -> q <= x -> rnd q <= x.
Proof. unfold is_float. intros Hx Hq. rewrite <- Hx. now apply rnd_mono. Qed.

Lemma fmul_nonneg (x y : Q) : 0 <= x -> 0 <= y -> 0 <= fmul x y.
Proof. intros. apply rnd_nonneg. nra. Qed.

Lemma fdiv_nonneg (x y : Q) : 0 <= x -> 0 < y -> 0 <= fdiv x y.
Proof.
  intros Hx Hy. apply rnd_nonneg. apply Qle_shift_div_l; [assumption|]. lra.
Qed.

Lemma to_int_floor (q : Q) : 0 <= q -> to_int q = Qfloor q.
Proof.
  intros H. destruct q as [n d]. unfold to_int, Qfloor; simpl.
  apply Z.quot_div_nonneg; [|lia]. unfold Qle in H; simpl in H. lia.
Qed.

(** With no lower exponent limit a positive value never rounds to zero. *)
Lemma rnd_pos_strict (q : Q) : 0 < q -> 0 < rnd q.
Proof. intros H. rewrite (rnd_of_pos q H). now apply rnd_pos_pos. Qed.

Lemma fsub_pos (x y : Q) : y < x -> 0 < fsub x y.
Proof. intros H. apply rnd_pos_strict. lra. Qed.
