(* ===== verification/Limiter.v ===== *)
(** * Limiter: token buckets and the concurrency gate

    Models [src/internal/limiter/limiter.go] (limits and decisions),
    [memory.go] (the in-process token buckets, their refill, refund and idle
    sweep), [concurrency.go] (the per-tenant in-flight gate) and the
    Retry-After arithmetic of [middleware.go].  Token counts are [float64]
    values, computed by the rounded operations of [Float64]. *)
From Stdlib Require Import QArith Qround Qpower Lqa.
From stdpp Require Import base gmap strings list.
From S2P Require Import Prelude Float64.
Import GoInt GoTime.

Local Open Scope Z_scope.

(** ** The token buckets (memory.go) *)
Module Memory.
Record Limits := mkLimits { RPM : Z; TPM : Z }.
Record Decision := mkDecision { Allowed : bool; RetryAfter : Z }.

Record bucket := mkBucket { tokens : Q; last : Z }.

Record Memory := mkMemory {
  rpm : gmap string bucket;
  tpm : gmap string bucket;
  sweptAt : Z
}.

Definition NewMemory : Memory := mkMemory ∅ ∅ 0.

Definition bucketIdleTTL : Z := 120 * second.

(** [Duration.Seconds]: whole seconds plus the nanosecond remainder. *)
Definition Seconds (d : Z) : Q :=
  fadd (fof_int (Z.quot d second))
       (fdiv (fof_int (Z.rem d second)) (fof_int second)).

(** Tokens per second. *)
Definition rate (capacity : Z) : Q := fdiv (fof_int capacity) 60.

(** The refilled bucket; the caller writes it back through the pointer. *)
Definition refillOne (buckets : gmap string bucket) (key : string)
    (capacity now : Z) : bucket :=
  match buckets !! key with
  | None => mkBucket (fof_int capacity) now
  | Some b =>
      if decide (capacity > 0) then
        mkBucket (fmin (fof_int capacity)
                    (fadd (tokens b) (fmul (Seconds (sub now (last b))) (rate capacity))))
                 now
      else mkBucket (tokens b) now
  end.

Definition rpmKey (tenantID : string) : string := tenantID +:+ ":rpm".
Definition tpmKey (tenantID : string) : string := tenantID +:+ ":tpm".

Definition refilled (m : Memory) (tenantID : string) (limits : Limits) (now : Z)
    : bucket * bucket :=
  (refillOne (rpm m) (rpmKey tenantID) (RPM limits) now,
   refillOne (tpm m) (tpmKey tenantID) (TPM limits) now).

Definition sweepIdleBuckets (buckets : gmap string bucket) (cutoff : Z)
    : gmap string bucket :=
  filter (fun kb => after (last kb.2) cutoff = true) buckets.

Definition sweepLocked (now : Z) (m : Memory) : Memory :=
  let cutoff := add now (- bucketIdleTTL) in
  mkMemory (sweepIdleBuckets (rpm m) cutoff) (sweepIdleBuckets (tpm m) cutoff) (sweptAt m).

Definition sweepIfDue (now : Z) (m : Memory) : Memory :=
  if is_zero (sweptAt m) || negb (after (sweptAt m) now)
     || after (sweptAt m) (add now bucketIdleTTL)
  then
    let m := sweepLocked now m in
    mkMemory (rpm m) (tpm m) (add now bucketIdleTTL)
  else m.

(** [math.MaxInt64 / float64(time.Second)], a constant expression. *)
Definition maxDurationSeconds : Q := rnd (max_int64 # 1000000000).

Definition deficitWait (deficit : Q) (capacity : Z) : Z :=
  if (capacity <=? 0) || Qle_bool deficit 0 then 0
  else
    let seconds := fdiv deficit (rate capacity) in
    if Qle_bool maxDurationSeconds seconds then max_int64
    else
      let wait := to_int (fmul seconds (fof_int second)) in
      if decide (wait < millisecond) then millisecond else wait.

(** [Allow] past the idle sweep. *)
Definition allowLocked (now : Z) (tenantID : string) (limits : Limits) (want : Z)
    (m : Memory) : Memory * Decision :=
  let '(r, t) := refilled m tenantID limits now in
  let write r t :=
    mkMemory (<[rpmKey tenantID := r]> (rpm m)) (<[tpmKey tenantID := t]> (tpm m))
             (sweptAt m) in
  let rpmOK := (RPM limits <=? 0) || Qle_bool 1 (tokens r) in
  let tpmOK := (TPM limits <=? 0) || Qle_bool (fof_int want) (tokens t) in
  if rpmOK && tpmOK then
    let r := if decide (RPM limits > 0)
             then mkBucket (fsub (tokens r) 1) (last r) else r in
    let t := if decide (TPM limits > 0)
             then mkBucket (fsub (tokens t) (fof_int want)) (last t) else t in
    (write r t, mkDecision true 0)
  else
    let wait := if rpmOK then 0 else deficitWait (fsub 1 (tokens r)) (RPM limits) in
    let wait :=
      if tpmOK then wait
      else
        let tpmWait := deficitWait (fsub (fof_int want) (tokens t)) (TPM limits) in
        if decide (tpmWait > wait) then tpmWait else wait in
    (write r t, mkDecision false wait).

Definition Allow (now : Z) (tenantID : string) (limits : Limits) (want : Z)
    (m : Memory) : Memory * Decision :=
  allowLocked now tenantID limits want (sweepIfDue now m).

Definition Refund (now : Z) (tenantID : string) (limits : Limits) (back : Z)
    (m : Memory) : Memory :=
  if decide (back <= 0 \/ TPM limits <= 0) then m
  else
    let '(r, t) := refilled m tenantID limits now in
    let t := mkBucket (fmin (fadd (tokens t) (fof_int back)) (fof_int (TPM limits)))
                      (last t) in
    mkMemory (<[rpmKey tenantID := r]> (rpm m)) (<[tpmKey tenantID := t]> (tpm m))
             (sweptAt m).

(** The Retry-After header value of the middleware (middleware.go). *)
Definition retryAfterSeconds (retryAfter : Z) : Z :=
  let seconds := Z.quot retryAfter second in
  let seconds := if decide (Z.rem retryAfter second > 0) then wrap64 (seconds + 1)
                 else seconds in
  if decide (seconds < 1) then 1 else seconds.
End Memory.

(** ** The concurrency gate (concurrency.go)

    [Acquire] returns a closure that captures the tenant and its own
    [released] flag: the model keeps the closures in a heap. *)
Module Concurrency.
Record closure := mkClosure { c_tenant : string; c_released : bool }.

Record Gate := mkGate {
  inFlight : gmap string Z;
  closures : gmap nat closure;
  next : nat
}.

Definition NewConcurrency : Gate := mkGate ∅ ∅ 0.

Definition InFlight (c : Gate) (tenantID : string) : Z :=
  default 0 (inFlight c !! tenantID).

(** [Some None] is the no-op release function of a disabled ceiling. *)
Definition Acquire (tenantID : string) (limit : Z) (c : Gate)
    : Gate * option (option nat) :=
  if decide (limit <= 0) then (c, Some None)
  else if decide (InFlight c tenantID >= limit) then (c, None)
  else
    (mkGate (<[tenantID := wrap64 (InFlight c tenantID + 1)]> (inFlight c))
            (<[next c := mkClosure tenantID false]> (closures c)) (S (next c)),
     Some (Some (next c))).

Definition release (id : nat) (c : Gate) : Gate :=
  match closures c !! id with
  | None => c
  | Some cl =>
      if c_released cl then c
      else
        let t := c_tenant cl in
        let v := wrap64 (InFlight c t - 1) in
        mkGate (if decide (v > 0) then <[t := v]> (inFlight c) else delete t (inFlight c))
               (<[id := mkClosure t true]> (closures c)) (next c)
  end.
End Concurrency.

(** ** Specification vocabulary *)
Module LimiterSpec.
Import Memory.

(** A bucket the limiter can hold at [now]: a non-negative float, touched
    in the past. *)
Definition bucket_ok (now : Z) (b : bucket) : Prop :=
  is_float (tokens b) /\ (0 <= tokens b)%Q /\ last b <= now.

Definition mem_ok (now : Z) (m : Memory) : Prop :=
  map_Forall (fun _ => bucket_ok now) (rpm m) /\
  map_Forall (fun _ => bucket_ok now) (tpm m).

Definition limits_ok (l : Limits) : Prop := 0 <= RPM l /\ 0 <= TPM l.

(** What a bucket affords the dimension: a zero ceiling always passes. *)
Definition affords (capacity : Z) (b : bucket) (cost : Q) : Prop :=
  capacity <= 0 \/ (cost <= tokens b)%Q.

(** A sequence of [Allow] calls of one tenant, counting the admissions. *)
Fixpoint admitted (tenantID : string) (limits : Limits) (m : Memory)
    (calls : list (Z * Z)) : Z :=
  match calls with
  | [] => 0
  | (now, want) :: calls =>
      let '(m, d) := Allow now tenantID limits want m in
      (if Allowed d then 1 else 0) + admitted tenantID limits m calls
  end.

(** The clock readings never go backwards. *)
Fixpoint ordered (t : Z) (calls : list (Z * Z)) : Prop :=
  match calls with
  | [] => True
  | (now, _) :: calls => t <= now /\ ordered now calls
  end.

Fixpoint finish (t : Z) (calls : list (Z * Z)) : Z :=
  match calls with
  | [] => t
  | (now, _) :: calls => finish now calls
  end.

(** Half a unit in the last place of one: the relative rounding error. *)
Definition eps : Q := 1 # 9007199254740992.
End LimiterSpec.

Module LimiterFacts.
Import Memory LimiterSpec.

Lemma eps_pow : (Qpower 2 (- prec) == eps)%Q.
Proof. reflexivity. Qed.

Lemma rnd_upper (q : Q) : (0 <= q)%Q -> (rnd q <= q + q * eps)%Q.
Proof. intros H. pose proof (rnd_error q H) as [_ E]. by rewrite eps_pow in E. Qed.

Lemma rnd_lower (q : Q) : (0 <= q)%Q -> (q - q * eps <= rnd q)%Q.
Proof. intros H. pose proof (rnd_error q H) as [E _]. by rewrite eps_pow in E. Qed.

Lemma fof_second : (fof_int second == inject_Z second)%Q.
Proof. by apply fof_int_exact. Qed.

Lemma Seconds_nonneg (d : Z) : 0 <= d -> (0 <= Seconds d)%Q.
Proof.
  intros Hd. unfold Seconds, fadd. apply rnd_nonneg.
  pose proof (Z.quot_pos d second Hd ltac:(done)).
  pose proof (Z.rem_nonneg d second ltac:(done) Hd).
  pose proof (fof_int_nonneg (Z.quot d second) ltac:(done)).
  pose proof (fdiv_nonneg (fof_int (Z.rem d second)) (fof_int second)
                ltac:(by apply fof_int_nonneg) ltac:(by vm_compute)).
  lra.
Qed.

Lemma Seconds_ge (k d : Z) : 0 <= k -> k * second <= d -> (fof_int k <= Seconds d)%Q.
Proof.
  intros Hk Hd. unfold second in *.
  assert (k <= Z.quot d second) as Hq.
  { rewrite Z.quot_div_nonneg; unfold second; [|lia..]. apply Z.div_le_lower_bound; lia. }
  apply Qle_trans with (fof_int (Z.quot d second)); [by apply fof_int_mono|].
  unfold Seconds. apply fadd_ge; [apply fof_int_float|].
  apply fdiv_nonneg; [|by vm_compute]. apply fof_int_nonneg.
  apply Z.rem_nonneg; unfold second; lia.
Qed.

(** Exact seconds of a duration. *)
Definition exact_seconds (d : Z) : Q := (inject_Z d / inject_Z second)%Q.

Lemma Seconds_upper (d : Z) : 0 <= d <= max_int64 ->
  (Seconds d <= exact_seconds d * (1 + eps) * (1 + eps))%Q.
Proof.
  intros Hd. unfold max_int64 in Hd.
  pose proof (Z.quot_rem' d second) as Hqr.
  pose proof (Z.rem_bound_pos d second ltac:(lia) ltac:(done)) as Hr.
  assert (0 <= Z.quot d second <= 2 ^ prec) as Hq.
  { split; [apply Z.quot_pos; [lia|done]|].
    unfold second in *. rewrite Z.quot_div_nonneg by lia.
    apply Z.div_le_upper_bound; unfold prec; lia. }
  unfold Seconds, fadd, fdiv.
  rewrite (fof_int_exact (Z.quot d second)), (fof_int_exact (Z.rem d second)), fof_second
    by (unfold prec, second in *; lia).
  set (q := Z.quot d second) in *. set (r := Z.rem d second) in *.
  assert (0 <= inject_Z q)%Q by (change 0%Q with (inject_Z 0); rewrite <- Zle_Qle; lia).
  assert (0 <= inject_Z r / inject_Z second)%Q as Hrn.
  { apply Qle_shift_div_l; [done|]. rewrite Qmult_0_l. change 0%Q with (inject_Z 0).
    rewrite <- Zle_Qle. lia. }
  pose proof (rnd_upper _ Hrn) as H1. pose proof (rnd_nonneg _ Hrn) as H1'.
  set (x := rnd (inject_Z r / inject_Z second)) in *.
  pose proof (rnd_upper (inject_Z q + x) ltac:(lra)) as H2.
  assert (exact_seconds d == inject_Z q + inject_Z r / inject_Z second)%Q as ->.
  { unfold exact_seconds. rewrite Hqr, inject_Z_plus, inject_Z_mult. field. done. }
  set (y := (inject_Z r / inject_Z second)%Q) in *. set (z := inject_Z q) in *.
  unfold eps in *. lra.
Qed.

(** *** Refill *)
Lemma capacity_pos (capacity : Z) : capacity > 0 -> (1 <= fof_int capacity)%Q.
Proof.
  intros H. change 1%Q with (inject_Z 1). rewrite <- (fof_int_exact 1) by done.
  apply fof_int_mono. lia.
Qed.

Lemma rate_nonneg (capacity : Z) : 0 <= capacity -> (0 <= rate capacity)%Q.
Proof. intros H. apply fdiv_nonneg; [by apply fof_int_nonneg|done]. Qed.

Lemma refillOne_ok (now0 now : Z) (bs : gmap string bucket) (key : string) (capacity : Z) :
  map_Forall (fun _ => bucket_ok now0) bs -> now0 <= now -> 0 <= capacity ->
  bucket_ok now (refillOne bs key capacity now).
Proof.
  intros Hbs Hnow Hc. unfold refillOne. destruct (bs !! key) as [b|] eqn:E.
  - destruct (Hbs _ _ E) as (Hf & Hn & Hl). case_decide; [|by split_and!].
    split_and!; simpl; [| |lia].
    + destruct (fmin_cases (fof_int capacity)
        (fadd (tokens b) (fmul (Seconds (sub now (last b))) (rate capacity)))) as [[-> _]|[-> _]];
        apply rnd_is_float.
    + assert (0 <= sub now (last b)) by (unfold sub, max_int64; lia).
      pose proof (fmul_nonneg _ _ (Seconds_nonneg _ ltac:(done)) (rate_nonneg capacity Hc)).
      pose proof (fof_int_nonneg capacity Hc).
      destruct (fmin_cases (fof_int capacity)
        (fadd (tokens b) (fmul (Seconds (sub now (last b))) (rate capacity)))) as [[-> _]|[-> _]];
        [done|]. apply rnd_nonneg. lra.
  - split_and!; simpl; [apply fof_int_float|by apply fof_int_nonneg|lia].
Qed.

Lemma refillOne_le (bs : gmap string bucket) (key : string) (capacity now : Z) :
  capacity > 0 -> (tokens (refillOne bs key capacity now) <= fof_int capacity)%Q.
Proof.
  intros Hc. unfold refillOne. destruct (bs !! key); [|apply Qle_refl].
  rewrite decide_True by done. simpl.
  match goal with |- (fmin ?x ?y <= _)%Q => destruct (fmin_cases x y) as [[-> ?]|[-> ?]] end;
    [apply Qle_refl|done].
Qed.

(** After a full idle horizon a bucket stands at exactly its capacity,
    whatever it held: the refill of the horizon covers two capacities, which
    absorbs the rounding of the rate. *)
Lemma refill_after_horizon (b : bucket) (capacity now : Z) :
  capacity > 0 -> (0 <= tokens b)%Q -> bucketIdleTTL <= now - last b ->
  fmin (fof_int capacity)
    (fadd (tokens b) (fmul (Seconds (sub now (last b))) (rate capacity))) = fof_int capacity.
Proof.
  intros Hc Ht Hidle. unfold fmin. set (C := fof_int capacity).
  assert (0 <= C)%Q as HC by (apply fof_int_nonneg; lia).
  enough (C <= fadd (tokens b) (fmul (Seconds (sub now (last b))) (rate capacity)))%Q as H
    by (apply Qle_bool_iff in H; by rewrite H).
  assert (120 <= Seconds (sub now (last b)))%Q as HS.
  { change 120%Q with (inject_Z 120). rewrite <- (fof_int_exact 120) by done.
    apply Seconds_ge; [done|]. apply sub_ge; [done|exact Hidle]. }
  assert (0 <= C / 60)%Q as Hd by (apply Qle_shift_div_l; [done|lra]).
  assert (C * (120 # 61) <= 120 * rate capacity)%Q as Hr.
  { pose proof (rnd_lower _ Hd) as Hlow. change (rnd (C / 60)) with (rate capacity) in Hlow.
    assert (C / 60 == C * (1 # 60))%Q as E by (field; done). rewrite E in Hlow.
    unfold eps in Hlow. lra. }
  set (S := Seconds _) in *.
  assert (120 * rate capacity <= S * rate capacity)%Q
    by (apply Qmult_le_compat_r; [done|apply rate_nonneg; lia]).
  assert (C <= fmul S (rate capacity))%Q as Hm.
  { apply float_le_rnd; [apply fof_int_float|lra]. }
  apply Qle_trans with (1 := Hm). apply float_le_rnd; [apply rnd_is_float|lra].
Qed.

(** *** The sweep *)
Lemma refillOne_sweep (now0 now : Z) (bs : gmap string bucket) (key : string) (capacity : Z) :
  map_Forall (fun _ => bucket_ok now0) bs -> capacity > 0 ->
  refillOne (sweepIdleBuckets bs (add now (- bucketIdleTTL))) key capacity now
  = refillOne bs key capacity now.
Proof.
  intros Hbs Hc. unfold refillOne, sweepIdleBuckets. rewrite map_lookup_filter.
  destruct (bs !! key) as [b|] eqn:E; simpl; [|done].
  destruct (after (last b) (add now (- bucketIdleTTL))) eqn:A.
  - by rewrite option_guard_True.
  - rewrite option_guard_False by done. rewrite decide_True by done.
    destruct (Hbs _ _ E) as (_ & Hn & _).
    rewrite refill_after_horizon; [done..|]. unfold after, add in A. lia.
Qed.

Lemma sweep_Forall (P : bucket -> Prop) (bs : gmap string bucket) (cutoff : Z) :
  map_Forall (fun _ => P) bs -> map_Forall (fun _ => P) (sweepIdleBuckets bs cutoff).
Proof.
  intros H k b [Hk _]%map_lookup_filter_Some. by apply (H k).
Qed.

Lemma sweepIfDue_cases (now : Z) (m : Memory) :
  exists s, sweepIfDue now m = mkMemory (rpm m) (tpm m) s \/
    sweepIfDue now m = mkMemory (sweepIdleBuckets (rpm m) (add now (- bucketIdleTTL)))
                                (sweepIdleBuckets (tpm m) (add now (- bucketIdleTTL))) s.
Proof.
  unfold sweepIfDue, sweepLocked. destruct (_ || _); simpl; [by eauto|].
  exists (sweptAt m). left. by destruct m.
Qed.

Lemma sweepIfDue_ok (now0 now : Z) (m : Memory) :
  mem_ok now0 m -> mem_ok now0 (sweepIfDue now m).
Proof.
  intros [H1 H2]. destruct (sweepIfDue_cases now m) as [s [->| ->]];
    [done|]. split; simpl; by apply sweep_Forall.
Qed.

(** The rate-limited dimensions read the same refilled buckets whether or
    not the sweep ran. *)
Lemma sweepIfDue_refilled (now0 now : Z) (m : Memory) (id : string) (l : Limits) :
  mem_ok now0 m ->
  (RPM l > 0 -> (refilled (sweepIfDue now m) id l now).1 = (refilled m id l now).1) /\
  (TPM l > 0 -> (refilled (sweepIfDue now m) id l now).2 = (refilled m id l now).2).
Proof.
  intros [H1 H2]. destruct (sweepIfDue_cases now m) as [s [->| ->]]; [done|].
  split; intros; simpl; by eapply refillOne_sweep.
Qed.
End LimiterFacts.

Module LimiterSteps.
Import Memory LimiterSpec LimiterFacts.

Lemma refillOne_last (bs : gmap string bucket) (key : string) (capacity now : Z) :
  last (refillOne bs key capacity now) = now.
Proof. unfold refillOne. destruct (bs !! key); [case_decide|]; done. Qed.

(** One call's refill adds at most the elapsed share of the capacity, up to
    the rounding of the five operations involved. *)
Lemma refill_upper (b : bucket) (capacity now : Z) :
  bucket_ok now b -> capacity > 0 -> (tokens b <= fof_int capacity)%Q ->
  (fmin (fof_int capacity)
     (fadd (tokens b) (fmul (Seconds (sub now (last b))) (rate capacity)))
   <= tokens b + exact_seconds (now - last b) * (fof_int capacity / 60) * (1 + 5 * eps)
      + 2 * eps * fof_int capacity)%Q.
Proof.
  intros (Hf & Hn & Hl) Hc HC. set (C := fof_int capacity) in *.
  assert (0 <= sub now (last b) <= max_int64) as Hd by (unfold sub, min_int64, max_int64; lia).
  pose proof (Seconds_upper _ Hd) as HS. pose proof (Seconds_nonneg _ (proj1 Hd)) as HS0.
  assert (exact_seconds (sub now (last b)) <= exact_seconds (now - last b))%Q as Hex.
  { unfold exact_seconds, Qdiv. apply Qmult_le_compat_r; [|done].
    rewrite <- Zle_Qle. unfold sub, min_int64 in *. lia. }
  assert (0 <= exact_seconds (sub now (last b)))%Q as Hex0.
  { unfold exact_seconds. apply Qle_shift_div_l; [done|]. rewrite Qmult_0_l.
    change 0%Q with (inject_Z 0). rewrite <- Zle_Qle. lia. }
  assert (0 <= C)%Q as HC0 by (apply fof_int_nonneg; lia).
  assert (0 <= C / 60)%Q as Hc60 by (apply Qle_shift_div_l; [done|lra]).
  pose proof (rnd_upper _ Hc60) as Hr. change (rnd (C / 60)) with (rate capacity) in Hr.
  pose proof (rate_nonneg capacity ltac:(lia)) as Hr0.
  set (D := exact_seconds (now - last b)) in *. set (R := (C / 60)%Q) in *.
  set (S := Seconds _) in *. set (d := exact_seconds (sub _ _)) in *.
  assert (S * rate capacity <= D * R * ((1 + eps) * (1 + eps) * (1 + eps)))%Q as Hp.
  { apply Qle_trans with (D * (1 + eps) * (1 + eps) * (R * (1 + eps)))%Q; [|unfold eps; nra].
    apply Qle_trans with (S * (R * (1 + eps)))%Q.
    - rewrite !(Qmult_comm S). apply Qmult_le_compat_r; [lra|done].
    - apply Qmult_le_compat_r; [unfold eps in *; lra|unfold eps in *; lra]. }
  assert (0 <= D * R)%Q as HDR by (apply Qmult_le_0_compat; lra).
  assert (0 <= S * rate capacity)%Q as Hp0 by (apply Qmult_le_0_compat; done).
  pose proof (rnd_upper _ Hp0) as Hmul. pose proof (rnd_nonneg _ Hp0) as Hmul0.
  fold (fmul S (rate capacity)) in Hmul, Hmul0.
  set (p := fmul S (rate capacity)) in *.
  assert (p <= D * R * (1 + 5 * eps))%Q as Hp5.
  { apply Qle_trans with (1 := Hmul).
    apply Qle_trans with (D * R * ((1 + eps) * (1 + eps) * (1 + eps)) * (1 + eps))%Q;
      [unfold eps in *; lra|]. unfold eps. lra. }
  assert (tokens b + p <= tokens b + D * R * (1 + 5 * eps))%Q as Hbound by lra.
  pose proof (rnd_upper (tokens b + p) ltac:(lra)) as Hadd.
  fold (fadd (tokens b) p) in Hadd.
  destruct (fmin_cases C (fadd (tokens b) p)) as [[-> Hm]|[-> Hm]].
  - destruct (Qlt_le_dec (2 * C) (tokens b + p)); unfold eps in *; lra.
  - destruct (Qlt_le_dec (2 * C) (tokens b + p)); unfold eps in *; lra.
Qed.

(** The tenant's request bucket after one call: refilled, and one token
    poorer exactly when the call was admitted. *)
Lemma Allow_rpm (now0 now want : Z) (id : string) (l : Limits) (m : Memory) :
  mem_ok now0 m -> RPM l > 0 ->
  let r := refillOne (rpm m) (rpmKey id) (RPM l) now in
  let '(m', d) := Allow now id l want m in
  (Allowed d = true -> (1 <= tokens r)%Q) /\
  rpm m' !! rpmKey id
  = Some (if Allowed d then mkBucket (fsub (tokens r) 1) now else r).
Proof.
  intros Hok Hrpm. destruct (sweepIfDue_refilled now0 now m id l Hok) as [Hr _].
  specialize (Hr Hrpm). unfold Allow, allowLocked.
  destruct (refilled (sweepIfDue now m) id l now) as [r t] eqn:E. simpl in Hr. subst r.
  set (r := refillOne (rpm m) (rpmKey id) (RPM l) now).
  replace (RPM l <=? 0) with false by lia. simpl.
  destruct (Qle_bool 1 (tokens r)) eqn:E1; simpl.
  - apply Qle_bool_iff in E1.
    destruct ((TPM l <=? 0) || _); simpl; rewrite lookup_insert_eq; [|done].
    split; [done|]. rewrite decide_True by done. do 2 f_equal. apply refillOne_last.
  - rewrite lookup_insert_eq. done.
Qed.

Lemma bucket_ok_mono (now now' : Z) (b : bucket) :
  now <= now' -> bucket_ok now b -> bucket_ok now' b.
Proof. intros ? (? & ? & ?). split_and!; [done..|lia]. Qed.

Lemma mem_ok_mono (now now' : Z) (m : Memory) :
  now <= now' -> mem_ok now m -> mem_ok now' m.
Proof. intros ? [H1 H2]. split; intros k b Hk; eauto using bucket_ok_mono. Qed.

Lemma deduct_ok (now : Z) (b : bucket) (cost : Q) :
  bucket_ok now b -> (cost <= tokens b)%Q ->
  bucket_ok now (mkBucket (fsub (tokens b) cost) (last b)).
Proof.
  intros (? & ? & ?) Hc. split_and!; simpl; [apply rnd_is_float|by apply fsub_nonneg|done].
Qed.

Lemma Allow_ok (now0 now want : Z) (id : string) (l : Limits) (m : Memory) :
  limits_ok l -> now0 <= now -> mem_ok now0 m -> mem_ok now (Allow now id l want m).1.
Proof.
  intros [Hr Ht] Hnow Hok. pose proof (sweepIfDue_ok now0 now m Hok) as Hs.
  unfold Allow, allowLocked. set (m1 := sweepIfDue now m) in *. simpl.
  assert (bucket_ok now (refillOne (rpm m1) (rpmKey id) (RPM l) now)) as Hbr
    by (by apply (refillOne_ok now0); [apply Hs|..]).
  assert (bucket_ok now (refillOne (tpm m1) (tpmKey id) (TPM l) now)) as Hbt
    by (by apply (refillOne_ok now0); [apply Hs|..]).
  destruct (mem_ok_mono now0 now m1 Hnow Hs) as [H1 H2].
  set (r := refillOne (rpm m1) _ _ _) in *. set (t := refillOne (tpm m1) _ _ _) in *.
  destruct (((RPM l <=? 0) || Qle_bool 1 (tokens r))
            && ((TPM l <=? 0) || Qle_bool (fof_int want) (tokens t))) eqn:E; simpl.
  - apply andb_true_iff in E as [E1 E2]. apply orb_true_iff in E1, E2.
    rewrite !Qle_bool_iff in *. split; simpl; apply map_Forall_insert_2; try done.
    + case_decide; [|done]. apply deduct_ok; [done|]. destruct E1; [lia|done].
    + case_decide; [|done]. apply deduct_ok; [done|]. destruct E2; [lia|done].
  - split; simpl; by apply map_Forall_insert_2.
Qed.

(** The potential argument: a call's admission is paid for by the level of
    the request bucket it found. *)
Definition level (m : Memory) (id : string) (l : Limits) (now : Z) : Q :=
  tokens (refillOne (rpm m) (rpmKey id) (RPM l) now).

Lemma level_step (now0 now now' want : Z) (id : string) (l : Limits) (m : Memory) :
  limits_ok l -> RPM l > 0 -> now0 <= now -> now <= now' -> mem_ok now0 m ->
  let '(m', d) := Allow now id l want m in
  (level m' id l now' + inject_Z (if Allowed d then 1 else 0)
   <= level m id l now
      + exact_seconds (now' - now) * (fof_int (RPM l) / 60) * (1 + 5 * eps)
      + 3 * eps * fof_int (RPM l))%Q.
Proof.
  intros Hl Hrpm Hnow Hnow' Hok.
  pose proof (Allow_rpm now0 now want id l m Hok Hrpm) as HA.
  pose proof (refillOne_le (rpm m) (rpmKey id) (RPM l) now Hrpm) as HrC.
  assert (bucket_ok now (refillOne (rpm m) (rpmKey id) (RPM l) now)) as Hr.
  { apply (refillOne_ok now0); [apply Hok|done|lia]. }
  unfold level. set (r := refillOne (rpm m) (rpmKey id) (RPM l) now) in *.
  destruct (Allow now id l want m) as [m' d]. destruct HA as [Hafford Hb].
  unfold refillOne. rewrite Hb, decide_True by done.
  set (b := if Allowed d then mkBucket (fsub (tokens r) 1) now else r) in *.
  set (C := fof_int (RPM l)) in *.
  assert (0 <= C)%Q as HC0 by (apply fof_int_nonneg; lia).
  assert (last b = now) as Hlast
    by (unfold b; destruct (Allowed d); [done|apply refillOne_last]).
  assert (bucket_ok now b /\ tokens b + inject_Z (if Allowed d then 1 else 0)
    <= tokens r + eps * C /\ tokens b <= C)%Q as (Hbok & Hpay & HbC).
  { unfold b. destruct (Allowed d).
    - specialize (Hafford eq_refl). split_and!.
      + replace now with (last r) at 2 by apply refillOne_last. by apply deduct_ok.
      + simpl. pose proof (rnd_upper (tokens r - 1) ltac:(lra)) as H.
        fold (fsub (tokens r) 1) in H. change (inject_Z 1) with 1%Q. unfold eps in *. lra.
      + simpl. apply Qle_trans with (2 := HrC). apply fsub_le; [apply Hr|done].
    - split_and!; [done| |done]. change (inject_Z 0) with 0%Q. unfold eps. lra. }
  pose proof (refill_upper b (RPM l) now' (bucket_ok_mono now now' b Hnow' Hbok) Hrpm HbC) as Hup.
  rewrite Hlast in Hup |- *. simpl. fold C in Hup. unfold eps in *. lra.
Qed.
End LimiterSteps.

Module DeficitFacts.
Import Memory LimiterSpec LimiterFacts.

(** The largest float below [maxDurationSeconds]. *)
Definition below_max : Q := (maxDurationSeconds - (1 # 524288))%Q.

(** A float below the saturation point is a whole number of units in the
    last place below it. *)
Lemma float_below_max (x : Q) :
  is_float x -> (x < maxDurationSeconds)%Q -> (x <= below_max)%Q.
Proof.
  intros Hf Hx. destruct (Qlt_le_dec x (Qpower 2 33)) as [H|H].
  - apply Qle_trans with (Qpower 2 33); [by apply Qlt_le_weak|]. by vm_compute.
  - assert (exponent x = 33) as He.
    { apply exponent_unique. split; [done|]. apply Qlt_trans with (1 := Hx). by vm_compute. }
    assert (0 < x)%Q as Hpos by (apply Qlt_le_trans with (2 := H); by vm_compute).
    assert (x == inject_Z (nearest_even (x / ulp x)) * (1 # 524288))%Q as E.
    { unfold is_float in Hf. rewrite <- Hf at 1. rewrite (rnd_of_pos x Hpos). unfold rnd_pos, ulp at 2.
      rewrite He. reflexivity. }
    set (k := nearest_even _) in *.
    assert (maxDurationSeconds == inject_Z 4835703278458517 * (1 # 524288))%Q as EM
      by (by vm_compute).
    unfold below_max. rewrite EM, E in *.
    assert (inject_Z k < inject_Z 4835703278458517)%Q as Hk by lra.
    rewrite <- Zlt_Qlt in Hk. assert (k + 1 <= 4835703278458517) as Hk1 by lia.
    rewrite Zle_Qle, inject_Z_plus in Hk1. change (inject_Z 1) with 1%Q in Hk1. lra.
Qed.

Lemma deficitWait_range (deficit : Q) (capacity : Z) :
  0 <= deficitWait deficit capacity <= max_int64 /\
  (capacity > 0 -> (0 < deficit)%Q -> millisecond <= deficitWait deficit capacity).
Proof.
  unfold deficitWait. destruct ((capacity <=? 0) || Qle_bool deficit 0) eqn:E.
  { split; [done|]. intros Hc Hd. exfalso. apply orb_true_iff in E as [E|E]; [lia|].
    apply Qle_bool_iff in E. lra. }
  apply orb_false_iff in E as [E1 E2].
  assert (0 < deficit)%Q as Hd.
  { apply Qnot_le_lt. intros H%Qle_bool_iff. congruence. }
  destruct (Qle_bool maxDurationSeconds _) eqn:EM.
  { unfold max_int64, millisecond. split; intros; lia. }
  assert (fdiv deficit (rate capacity) < maxDurationSeconds)%Q as Hlt.
  { apply Qnot_le_lt. intros H%Qle_bool_iff. congruence. }
  assert (0 <= fdiv deficit (rate capacity))%Q as Hs0.
  { apply rnd_nonneg. unfold Qdiv. apply Qmult_le_0_compat; [lra|].
    apply Qinv_le_0_compat, rate_nonneg. lia. }
  apply float_below_max in Hlt; [|apply rnd_is_float].
  set (s := fdiv _ _) in *.
  assert (0 <= fmul s (fof_int second))%Q as Hm0 by (by apply fmul_nonneg).
  assert (fmul s (fof_int second) <= inject_Z max_int64)%Q as Hm.
  { apply Qle_trans with (rnd (below_max * fof_int second)).
    - apply rnd_mono. apply Qmult_le_compat_r; done.
    - by vm_compute. }
  assert (0 <= to_int (fmul s (fof_int second)) <= max_int64) as Hw.
  { rewrite to_int_floor by done. pose proof (Qfloor_le (fmul s (fof_int second))).
    pose proof (Qlt_floor (fmul s (fof_int second))) as Hf. split.
    - assert (0 < inject_Z (Qfloor (fmul s (fof_int second)) + 1))%Q as H0 by lra.
      change 0%Q with (inject_Z 0) in H0. rewrite <- Zlt_Qlt in H0. lia.
    - rewrite Zle_Qle. lra. }
  case_decide; unfold millisecond, max_int64 in *; split; intros; lia.
Qed.
End DeficitFacts.

(** ** The concurrency gate counts its open closures *)
Module ConcurrencyFacts.
Import Concurrency.

Definition holds (t : string) (cl : closure) : Prop :=
  c_tenant cl = t /\ c_released cl = false.
#[local] Instance holds_dec (t : string) (cl : closure) : Decision (holds t cl).
Proof. unfold holds. apply _. Defined.

(** The closures of a tenant that were handed out and not yet released. *)
Definition open (c : Gate) (t : string) : gmap nat closure :=
  filter (fun icl => holds t icl.2) (closures c).

Record gate_ok (c : Gate) : Prop := {
  go_count : forall t, InFlight c t = Z.of_nat (size (open c t));
  go_live : forall t v, inFlight c !! t = Some v -> 0 < v;
  go_fresh : forall i cl, closures c !! i = Some cl -> (i < next c)%nat
}.

Inductive step (c : Gate) : Gate -> Prop :=
  | step_acquire t limit : limit <= max_int64 -> step c (Acquire t limit c).1
  | step_release i : step c (release i c).

Lemma open_insert (c : Gate) (t : string) (i : nat) (cl : closure) :
  closures c !! i = None ->
  size (filter (fun icl => holds t icl.2) (<[i := cl]> (closures c)))
  = ((if decide (holds t cl) then 1 else 0) + size (open c t))%nat.
Proof.
  intros Hi. unfold open. case_decide as Hh.
  - rewrite map_filter_insert_True by done. rewrite map_size_insert_None; [done|].
    apply map_lookup_filter_None. by left.
  - rewrite map_filter_insert_False by done. by rewrite delete_id.
Qed.

Lemma open_release (c : Gate) (t : string) (i : nat) (cl : closure) :
  closures c !! i = Some cl -> c_released cl = false ->
  size (filter (fun icl => holds t icl.2)
          (<[i := mkClosure (c_tenant cl) true]> (closures c)))
  = (size (open c t) - (if decide (c_tenant cl = t) then 1 else 0))%nat.
Proof.
  intros Hi Hr. unfold open. rewrite map_filter_insert_False by (by intros [_ ?]).
  rewrite map_filter_delete, map_size_delete.
  case_decide as Ht.
  - rewrite (proj2 (map_lookup_filter_Some _ _ i cl)) by (by split). lia.
  - replace (filter _ (closures c) !! i) with (@None closure); [simpl; lia|]. symmetry.
    apply map_lookup_filter_None. right. intros cl' ? [? ?]. simplify_eq/=.
Qed.

Lemma Acquire_ok (t : string) (limit : Z) (c : Gate) :
  limit <= max_int64 -> gate_ok c -> gate_ok (Acquire t limit c).1.
Proof.
  intros Hmax [Hcnt Hlive Hfresh]. unfold Acquire.
  case_decide; [done|]. case_decide as Hlim; [done|]. simpl.
  pose proof (Hcnt t) as Ht.
  assert (wrap64 (InFlight c t + 1) = InFlight c t + 1) as Hw
    by (apply wrap64_id; unfold in_int64, min_int64; lia).
  assert (closures c !! next c = None) as Hnone.
  { destruct (closures c !! next c) as [cl|] eqn:E; [|done]. apply Hfresh in E. lia. }
  rewrite Hw. split; simpl.
  - intros t'. unfold open; simpl. rewrite open_insert by done.
    unfold InFlight at 1; simpl. rewrite lookup_insert.
    case_decide as Htt; simpl; case_decide as Hh.
    + subst t'. lia.
    + destruct Hh. by split.
    + destruct Hh as [Hh _]. done.
    + apply Hcnt.
  - intros t' v [[<- <-]|[? Hv]]%lookup_insert_Some; [lia|by eapply Hlive].
  - intros i cl [[<- <-]|[? Hi]]%lookup_insert_Some; [lia|]. apply Hfresh in Hi. lia.
Qed.

Lemma release_ok (i : nat) (c : Gate) :
  (forall t, InFlight c t <= max_int64) -> gate_ok c -> gate_ok (release i c).
Proof.
  intros Hmax [Hcnt Hlive Hfresh]. unfold release.
  destruct (closures c !! i) as [cl|] eqn:Hi; [|done].
  destruct (c_released cl) eqn:Hr; [done|].
  set (t := c_tenant cl). pose proof (Hcnt t) as Ht. pose proof (Hmax t).
  assert (wrap64 (InFlight c t - 1) = InFlight c t - 1) as Hw
    by (apply wrap64_id; unfold in_int64, min_int64, max_int64 in *; lia).
  assert (0 < InFlight c t) as Hpos.
  { rewrite Ht. enough (size (open c t) <> 0%nat) by lia. intros E%map_size_empty_inv.
    assert (open c t !! i = Some cl) as Ho by (by apply map_lookup_filter_Some).
    by rewrite E in Ho. }
  rewrite Hw. split; simpl.
  - intros t'. unfold open; simpl. pose proof (open_release c t' i cl Hi Hr) as Ho. fold t in Ho. rewrite Ho.
    specialize (Hcnt t'). unfold InFlight in *; simpl.
    destruct (decide (default 0 (inFlight c !! t) - 1 > 0)) as [Hv|Hv];
      destruct (decide (t = t')) as [Htt|Htt].
    + subst t'. rewrite lookup_insert_eq. simpl. lia.
    + rewrite lookup_insert_ne by done. lia.
    + subst t'. rewrite lookup_delete_eq. simpl. lia.
    + rewrite lookup_delete_ne by done. lia.
  - intros t' v. case_decide.
    + intros [[<- <-]|[? Hv]]%lookup_insert_Some; [lia|by eapply Hlive].
    + intros [? Hv]%lookup_delete_Some. by eapply Hlive.
  - intros j cl' [[<- <-]|[? Hj]]%lookup_insert_Some; [by eapply Hfresh|by eapply Hfresh].
Qed.
End ConcurrencyFacts.

(** ** The properties of the limiter *)
Module LimiterProps.
Import Memory LimiterSpec LimiterFacts LimiterSteps DeficitFacts.

Lemma admitted_cons (id : string) (l : Limits) (m : Memory) (now want : Z)
    (calls : list (Z * Z)) :
  admitted id l m ((now, want) :: calls)
  = (if Allowed (Allow now id l want m).2 then 1 else 0)
    + admitted id l (Allow now id l want m).1 calls.
Proof. simpl. by destruct (Allow now id l want m). Qed.

(** Refilling is the cost of a call at its own instant; the level never
    exceeds the ceiling. *)
Lemma admitted_level (id : string) (l : Limits) (calls : list (Z * Z)) :
  forall m now0 now want,
  limits_ok l -> RPM l > 0 -> mem_ok now0 m -> now0 <= now -> ordered now calls ->
  (inject_Z (admitted id l m ((now, want) :: calls))
   <= level m id l now
      + exact_seconds (finish now calls - now) * (fof_int (RPM l) / 60) * (1 + 5 * eps)
      + 3 * eps * fof_int (RPM l) * inject_Z (Z.of_nat (S (length calls))))%Q.
Proof.
  induction calls as [|[now' want'] calls IH]; intros m now0 now want Hl Hrpm Hok Hnow Hord.
  - pose proof (level_step now0 now now want id l m Hl Hrpm Hnow ltac:(lia) Hok) as Hs.
    pose proof (Allow_ok now0 now want id l m Hl Hnow Hok) as Hok'.
    rewrite admitted_cons. destruct (Allow now id l want m) as [m' d]. simpl in Hok'.
    cbn [admitted finish length snd fst].
    assert (0 <= level m' id l now)%Q as H0.
    { destruct Hok' as [H1 _]. destruct Hl.
      by apply (refillOne_ok now now (rpm m') (rpmKey id) (RPM l) H1). }
    rewrite Z.add_0_r. change (inject_Z (Z.of_nat 1)) with 1%Q. unfold eps in *. lra.
  - destruct Hord as [Hnow' Hord].
    pose proof (level_step now0 now now' want id l m Hl Hrpm Hnow Hnow' Hok) as Hs.
    pose proof (Allow_ok now0 now want id l m Hl Hnow Hok) as Hok'.
    rewrite admitted_cons. destruct (Allow now id l want m) as [m' d].
    simpl in Hok'. cbn [finish length snd fst].
    specialize (IH m' now now' want' Hl Hrpm Hok' Hnow' Hord).
    rewrite inject_Z_plus.
    assert (exact_seconds (finish now' calls - now)
      == exact_seconds (finish now' calls - now') + exact_seconds (now' - now))%Q as ->.
    { unfold exact_seconds.
      replace (finish now' calls - now) with ((finish now' calls - now') + (now' - now)) by lia.
      rewrite inject_Z_plus. field. done. }
    assert (inject_Z (Z.of_nat (S (S (length calls))))
      == inject_Z (Z.of_nat (S (length calls))) + 1)%Q as ->.
    { rewrite (Nat2Z.inj_succ (S _)). unfold Z.succ. rewrite inject_Z_plus. reflexivity. }
    set (N := inject_Z (Z.of_nat (S (length calls)))) in *.
    set (T := exact_seconds (finish now' calls - now')) in *.
    set (A := inject_Z (admitted id l m' ((now', want') :: calls))) in *.
    set (a := inject_Z (if Allowed d then 1 else 0)) in *.
    set (K := (fof_int (RPM l) / 60)%Q) in *.
    set (C := fof_int (RPM l)) in *. set (dt := exact_seconds (now' - now)) in *.
    rewrite !Qmult_plus_distr_l, !Qmult_plus_distr_r. 
    unfold eps in *. lra.
Qed.

(** C14. The rate limit.  Over any run of calls of one tenant, at
    non-decreasing clock readings and whatever the limiter held before, the
    number of admitted requests is at most the ceiling plus the elapsed
    share of it (one ceiling per 60 seconds) - up to the [float64] rounding,
    bounded explicitly: five units of relative error on the refill and three
    units of the capacity per call. *)
Theorem rpm_rate_bound (id : string) (l : Limits) (m : Memory) (t0 now want : Z)
    (calls : list (Z * Z)) :
  limits_ok l -> RPM l > 0 -> mem_ok t0 m -> t0 <= now -> ordered now calls ->
  let C := fof_int (RPM l) in
  (inject_Z (admitted id l m ((now, want) :: calls))
   <= C + exact_seconds (finish now calls - now) * (C / 60) * (1 + 5 * eps)
      + 3 * eps * C * inject_Z (Z.of_nat (S (length calls))))%Q.
Proof.
  intros Hl Hrpm Hok Hnow Hord C.
  pose proof (admitted_level id l calls m t0 now want Hl Hrpm Hok Hnow Hord) as H.
  pose proof (refillOne_le (rpm m) (rpmKey id) (RPM l) now Hrpm) as HC.
  fold (level m id l now) in HC. fold C in HC, H. lra.
Qed.

Lemma rpm_key_ne (a b : string) : a <> b -> rpmKey a <> rpmKey b.
Proof. intros H E. by apply string_app_inj_r in E. Qed.
Lemma tpm_key_ne (a b : string) : a <> b -> tpmKey a <> tpmKey b.
Proof. intros H E. by apply string_app_inj_r in E. Qed.

Lemma refillOne_insert_ne (bs : gmap string bucket) (k k' : string) (b : bucket)
    (capacity now : Z) :
  k <> k' -> refillOne (<[k := b]> bs) k' capacity now = refillOne bs k' capacity now.
Proof. intros. unfold refillOne. by rewrite lookup_insert_ne. Qed.

(** The decision.  A call is admitted exactly when every enabled
    dimension affords it after the refill; an admission deducts from both
    buckets, a denial from neither, and no other tenant's bucket moves. *)
Theorem allow_all_or_nothing (now0 now want : Z) (id : string) (l : Limits) (m : Memory) :
  mem_ok now0 m -> limits_ok l ->
  let '(r, t) := refilled m id l now in
  let '(m', d) := Allow now id l want m in
  (Allowed d = true <-> affords (RPM l) r 1 /\ affords (TPM l) t (fof_int want)) /\
  (RPM l > 0 -> rpm m' !! rpmKey id
     = Some (if Allowed d then mkBucket (fsub (tokens r) 1) now else r)) /\
  (TPM l > 0 -> tpm m' !! tpmKey id
     = Some (if Allowed d then mkBucket (fsub (tokens t) (fof_int want)) now else t)) /\
  (forall id' l' , id' <> id -> RPM l' > 0 -> TPM l' > 0 ->
     refilled m' id' l' now = refilled m id' l' now).
Proof.
  intros Hok Hl. pose proof (sweepIfDue_ok now0 now m Hok) as Hok1.
  assert (forall id' l', id' <> id -> RPM l' > 0 -> TPM l' > 0 ->
    refilled (sweepIfDue now m) id' l' now = refilled m id' l' now) as Hother.
  { intros id' l' _ H1 H2. destruct (sweepIfDue_refilled now0 now m id' l' Hok) as [Hr' Ht'].
    specialize (Hr' H1). specialize (Ht' H2). unfold refilled in *. simpl in *. congruence. }
  destruct (sweepIfDue_refilled now0 now m id l Hok) as [Hr Ht].
  unfold Allow, allowLocked, refilled in *. simpl in *.
  set (m1 := sweepIfDue now m) in *.
  set (r1 := refillOne (rpm m1) _ _ _) in *. set (t1 := refillOne (tpm m1) _ _ _) in *.
  set (r := refillOne (rpm m) _ _ _) in *. set (t := refillOne (tpm m) _ _ _) in *.
  assert (((RPM l <=? 0) || Qle_bool 1 (tokens r1)) = true <-> affords (RPM l) r 1) as HR.
  { unfold affords. rewrite orb_true_iff, Qle_bool_iff, Z.leb_le.
    destruct (Z_le_gt_dec (RPM l) 0) as [|H]; [tauto|]. rewrite (Hr H). tauto. }
  assert (((TPM l <=? 0) || Qle_bool (fof_int want) (tokens t1)) = true
          <-> affords (TPM l) t (fof_int want)) as HT.
  { unfold affords. rewrite orb_true_iff, Qle_bool_iff, Z.leb_le.
    destruct (Z_le_gt_dec (TPM l) 0) as [|H]; [tauto|]. rewrite (Ht H). tauto. }
  assert (last r1 = now /\ last t1 = now) as [Hlr Hlt] by (split; apply refillOne_last).
  destruct ((RPM l <=? 0) || Qle_bool 1 (tokens r1)) eqn:E1;
    destruct ((TPM l <=? 0) || Qle_bool (fof_int want) (tokens t1)) eqn:E2; simpl;
    (split; [naive_solver|]); rewrite !lookup_insert_eq;
    (split; [|split]).
  all: try (intros H; rewrite ?decide_True by done; rewrite ?Hlr, ?Hlt;
            rewrite <- ?(Hr H), <- ?(Ht H); reflexivity).
  all: intros id' l' Hne H1 H2; rewrite <- (Hother id' l' Hne H1 H2); f_equal;
    apply refillOne_insert_ne; auto using rpm_key_ne, tpm_key_ne.
Qed.

Definition decision_of (now : Z) (id : string) (l : Limits) (want : Z) (m : Memory)
    : Decision := (allowLocked now id l want m).2.

(** Dropping idle buckets is invisible.  On any memory the limiter can
    hold, the idle sweep changes no decision (admission and wait alike) of
    any tenant under any limits, although it does drop every bucket
    untouched for the horizon. *)
Theorem sweep_invisible (now0 now want : Z) (id : string) (l : Limits) (m : Memory) :
  mem_ok now0 m -> limits_ok l ->
  decision_of now id l want (sweepLocked now m) = decision_of now id l want m /\
  (Allow now id l want m).2 = decision_of now id l want m /\
  (forall k b, rpm (sweepLocked now m) !! k = Some b -> now - last b < bucketIdleTTL) /\
  (forall k b, tpm (sweepLocked now m) !! k = Some b -> now - last b < bucketIdleTTL).
Proof.
  intros Hok Hl.
  assert (forall m', mem_ok now0 m' ->
    (RPM l > 0 -> (refilled m' id l now).1 = (refilled m id l now).1) ->
    (TPM l > 0 -> (refilled m' id l now).2 = (refilled m id l now).2) ->
    decision_of now id l want m' = decision_of now id l want m) as Hsame.
  { intros m' _ Hr Ht. unfold decision_of, allowLocked.
    destruct (refilled m' id l now) as [r' t'], (refilled m id l now) as [r t].
    simpl in Hr, Ht.
    destruct (Z.leb_spec (RPM l) 0); [|rewrite Hr by lia];
      (destruct (Z.leb_spec (TPM l) 0); [|rewrite Ht by lia]); simpl;
      repeat case_match; done. }
  pose proof Hok as [H1 H2]. split_and!.
  - apply Hsame.
    + split; simpl; by apply sweep_Forall.
    + intros; simpl. by eapply refillOne_sweep.
    + intros; simpl. by eapply refillOne_sweep.
  - destruct (sweepIfDue_refilled now0 now m id l Hok). apply Hsame; [|done..].
    by apply sweepIfDue_ok.
  - intros k b [_ Hb]%map_lookup_filter_Some. simpl in Hb. unfold after, add in Hb. lia.
  - intros k b [_ Hb]%map_lookup_filter_Some. simpl in Hb. unfold after, add in Hb. lia.
Qed.
(** Buckets stay in bounds.  [Allow] and [Refund] keep every bucket a
    non-negative float touched in the past; the tenant's enabled buckets end
    at or below their ceilings, and a refund never lowers the token bucket
    and returns nothing beyond the ceiling. *)
Theorem buckets_stay_in_bounds (now0 now want back : Z) (id : string) (l : Limits)
    (m : Memory) :
  mem_ok now0 m -> now0 <= now -> limits_ok l -> RPM l > 0 -> TPM l > 0 ->
  0 <= want -> 0 < back ->
  mem_ok now (Allow now id l want m).1 /\
  mem_ok now (Refund now id l back m) /\
  (forall b, rpm (Allow now id l want m).1 !! rpmKey id = Some b ->
     (tokens b <= fof_int (RPM l))%Q) /\
  (exists b, tpm (Refund now id l back m) !! tpmKey id = Some b /\
     (tokens (refilled m id l now).2 <= tokens b)%Q /\
     (tokens b <= fof_int (TPM l))%Q).
Proof.
  intros Hok Hnow Hl Hr Ht Hwant Hback.
  assert (bucket_ok now (refillOne (rpm m) (rpmKey id) (RPM l) now)) as Hbr
    by (apply (refillOne_ok now0); [apply Hok|done|lia]).
  assert (bucket_ok now (refillOne (tpm m) (tpmKey id) (TPM l) now)) as Hbt
    by (apply (refillOne_ok now0); [apply Hok|done|lia]).
  pose proof (refillOne_le (tpm m) (tpmKey id) (TPM l) now Ht) as Htle.
  unfold Refund. rewrite decide_False by lia. simpl.
  set (r := refillOne (rpm m) _ _ _) in *. set (t := refillOne (tpm m) _ _ _) in *.
  destruct Hbt as (Hf & H0 & Hlast).
  pose proof (fof_int_nonneg back ltac:(lia)) as Hb0.
  pose proof (fadd_ge _ _ Hf Hb0) as Hadd.
  assert (tokens t <= fmin (fadd (tokens t) (fof_int back)) (fof_int (TPM l)) <= fof_int (TPM l)
    /\ is_float (fmin (fadd (tokens t) (fof_int back)) (fof_int (TPM l))))%Q as ([Hlo Hhi] & Hff).
  { destruct (fmin_cases (fadd (tokens t) (fof_int back)) (fof_int (TPM l))) as [[-> ?]|[-> ?]].
    - split; [lra|apply rnd_is_float].
    - split; [lra|apply rnd_is_float]. }
  split_and!.
  - by apply (Allow_ok now0).
  - destruct (mem_ok_mono now0 now m Hnow Hok). split; simpl; apply map_Forall_insert_2;
      try done. split_and!; simpl; [done|lra|done].
  - intros b Hb. pose proof (Allow_rpm now0 now want id l m Hok Hr) as HA.
    pose proof (refillOne_le (rpm m) (rpmKey id) (RPM l) now Hr) as Hle.
    destruct (Allow now id l want m) as [m' d]. destruct HA as [_ HA].
    simpl in Hb. rewrite HA in Hb. injection Hb as <-. destruct (Allowed d); [|done]. simpl.
    apply Qle_trans with (2 := Hle). apply fsub_le; [apply Hbr|done].
  - eexists. rewrite lookup_insert_eq. simpl. done.
Qed.

(** The advertised wait.  A denial of a tenant with enabled ceilings
    carries a wait between one millisecond and the largest [Duration] -
    never zero, never an overflowed negative - and the Retry-After header is
    its exact ceiling in whole seconds. *)
Theorem retry_after_honest (now0 now want : Z) (id : string) (l : Limits) (m : Memory) :
  mem_ok now0 m -> now0 <= now -> limits_ok l -> 0 <= want <= 2 ^ 53 ->
  let d := (Allow now id l want m).2 in
  Allowed d = false ->
  millisecond <= RetryAfter d <= max_int64 /\
  let s := retryAfterSeconds (RetryAfter d) in
  1 <= s /\ (s - 1) * second < RetryAfter d <= s * second.
Proof.
  intros Hok Hnow Hl Hwant d Hd.
  assert (millisecond <= RetryAfter d <= max_int64) as Hrange.
  { unfold d, Allow, allowLocked, refilled in *. cbv zeta in *.
    set (m1 := sweepIfDue now m) in *.
    set (r := refillOne (rpm m1) _ _ _) in *. set (t := refillOne (tpm m1) _ _ _) in *.
    pose proof (sweepIfDue_ok now0 now m Hok) as [Hs1 Hs2]. destruct Hl as [Hl1 Hl2].
    assert (bucket_ok now r) as Hbr by (by eapply (refillOne_ok now0)).
    assert (bucket_ok now t) as Hbt by (by eapply (refillOne_ok now0)).
    assert (forall capacity b cost, 0 <= capacity -> bucket_ok now b ->
      (capacity <=? 0) || Qle_bool cost (tokens b) = false ->
      millisecond <= deficitWait (fsub cost (tokens b)) capacity) as Hw.
    { intros capacity b cost Hc _ E. apply orb_false_iff in E as [E1 E2].
      assert (tokens b < cost)%Q as Hlt
        by (apply Qnot_le_lt; intros H%Qle_bool_iff; congruence).
      apply deficitWait_range; [lia|].
      apply fsub_pos, Hlt. }
    pose proof (deficitWait_range (fsub 1 (tokens r)) (RPM l)) as [Hr1 _].
    pose proof (deficitWait_range (fsub (fof_int want) (tokens t)) (TPM l)) as [Ht1 _].
    destruct ((RPM l <=? 0) || Qle_bool 1 (tokens r)) eqn:E1;
      destruct ((TPM l <=? 0) || Qle_bool (fof_int want) (tokens t)) eqn:E2;
      cbn [andb snd Allowed RetryAfter] in *; [discriminate|..].
    - pose proof (Hw _ _ _ Hl2 Hbt E2). unfold millisecond in *.
      case_decide; lia.
    - pose proof (Hw _ _ _ Hl1 Hbr E1). lia.
    - pose proof (Hw _ _ _ Hl1 Hbr E1).
      pose proof (Hw _ _ _ Hl2 Hbt E2). case_decide; lia. }
  split; [done|]. clear Hd. unfold retryAfterSeconds, millisecond in *. revert Hrange.
  generalize (RetryAfter d). intros w Hw. unfold second.
  rewrite Z.quot_div_nonneg, Z.rem_mod_nonneg by lia.
  pose proof (Z.div_mod w 1000000000 ltac:(lia)).
  pose proof (Z.mod_pos_bound w 1000000000 ltac:(lia)).
  assert (wrap64 (w / 1000000000 + 1) = w / 1000000000 + 1) as ->.
  { apply wrap64_id. unfold in_int64, min_int64, max_int64 in *. lia. }
  repeat case_decide; lia.
Qed.

(** The in-memory bucket of a disabled ceiling starts empty.  A tenant
    served while its request ceiling was disabled is denied its first
    request at the instant the ceiling is enabled, although a tenant the
    limiter never saw starts with a full bucket. *)
Theorem enabled_ceiling_starts_empty (now want capacity : Z) (id : string) (l : Limits) :
  RPM l = 0 -> TPM l = 0 -> 0 < capacity ->
  let l' := mkLimits capacity 0 in
  Allowed (Allow now id l' want (Allow now id l want NewMemory).1).2 = false /\
  Allowed (Allow now id l' want NewMemory).2 = true.
Proof.
  intros Hr Ht Hc l'. destruct l as [r t]; simpl in Hr, Ht; subst r t.
  assert (exists s, (Allow now id (mkLimits 0 0) want NewMemory).1
    = mkMemory {[rpmKey id := mkBucket 0 now]} {[tpmKey id := mkBucket 0 now]} s) as [s ->].
  { unfold Allow, allowLocked, sweepIfDue, sweepLocked, refilled, refillOne; simpl.
    unfold sweepIdleBuckets. rewrite map_filter_empty. simpl. eauto. }
  split.
  - set (m := mkMemory _ _ s).
    assert (mem_ok now m) as Hok.
    { split; (apply map_Forall_insert_2; [|apply map_Forall_empty]);
        (split; [done|split; [done|simpl; lia]]). }
    destruct (sweepIfDue_refilled now now m id l' Hok) as [Hrf _].
    specialize (Hrf ltac:(simpl; lia)).
    unfold Allow, allowLocked.
    destruct (refilled (sweepIfDue now m) id l' now) as [r t].
    simpl in Hrf. subst r. unfold refillOne, m, l'; simpl. rewrite lookup_singleton_eq.
    rewrite decide_True by lia. simpl. rewrite sub_exact by (unfold in_int64, min_int64, max_int64; lia).
    rewrite Z.sub_diag. change (Seconds 0) with 0%Q.
    assert (fmul 0 (rate capacity) = 0%Q) as -> by
      (unfold fmul; transitivity (rnd 0); [apply rnd_proper; ring|apply rnd_0]).
    change (fadd 0 0) with 0%Q.
    replace (capacity <=? 0) with false by lia.
    pose proof (capacity_pos capacity ltac:(lia)) as HC.
    destruct (fmin_cases (fof_int capacity) 0) as [[-> H]|[-> H]]; [lra|done].
  - assert (forall k c, refillOne ∅ k c now = mkBucket (fof_int c) now) as He
      by (intros; unfold refillOne; by rewrite lookup_empty).
    assert (exists s', sweepIfDue now NewMemory = mkMemory ∅ ∅ s') as [s' Hs'].
    { unfold sweepIfDue, sweepLocked, sweepIdleBuckets. simpl.
      rewrite map_filter_empty. eauto. }
    unfold Allow. rewrite Hs'. unfold allowLocked, refilled, l'. cbn [rpm tpm RPM TPM].
    rewrite !He. cbn [tokens].
    pose proof (capacity_pos capacity ltac:(lia)) as HC. apply Qle_bool_iff in HC.
    rewrite HC. by rewrite orb_true_r.
Qed.
End LimiterProps.

Module ConcurrencyProps.
Import Concurrency ConcurrencyFacts.

Definition bounded (c : Gate) : Prop := forall t, InFlight c t <= max_int64.

Lemma step_preserves (c c' : Gate) : step c c' -> gate_ok c /\ bounded c -> gate_ok c' /\ bounded c'.
Proof.
  intros Hstep [Hok Hb]. destruct Hstep as [t limit Hl|i].
  - split; [by apply Acquire_ok|]. intros t'. unfold Acquire.
    case_decide; [apply Hb|]. case_decide as Hlim; [apply Hb|]. simpl.
    pose proof (go_count c Hok t). unfold InFlight at 1; simpl.
    rewrite lookup_insert. case_decide; simpl; [|apply Hb].
    rewrite wrap64_id; unfold in_int64, min_int64 in *; lia.
  - split; [by apply release_ok|]. intros t'. pose proof (release_ok i c Hb Hok) as Hok'.
    rewrite (go_count _ Hok' t'). unfold release in *.
    destruct (closures c !! i) as [cl|] eqn:Hi; [|rewrite <- (go_count c Hok); apply Hb].
    destruct (c_released cl) eqn:Hr; [rewrite <- (go_count c Hok); apply Hb|].
    unfold open; simpl. rewrite (open_release c t' i cl Hi Hr).
    pose proof (Hb t') as H. rewrite (go_count c Hok t') in H. lia.
Qed.

Lemma reachable_ok (c : Gate) : rtc step NewConcurrency c -> gate_ok c /\ bounded c.
Proof.
  intros Hr. assert (gate_ok NewConcurrency /\ bounded NewConcurrency) as H0.
  { split; [split|]; simpl.
    - intros t. unfold open; simpl. rewrite map_filter_empty. reflexivity.
    - intros t v. by rewrite lookup_empty.
    - intros i cl. by rewrite lookup_empty.
    - by intros t. }
  induction Hr as [|x y z Hs _ IH]; [done|]. eauto using step_preserves.
Qed.

(** The concurrency gate.  After any interleaving of acquires and
    releases, a tenant's count is exactly the number of its outstanding
    release functions and no entry stays at zero; an acquire succeeds exactly
    when the ceiling is disabled or not reached, never takes the count past
    the ceiling, and calling a release function again changes nothing. *)
Theorem concurrency_gate_counts (c : Gate) (t : string) (limit : Z) :
  rtc step NewConcurrency c -> limit <= max_int64 ->
  InFlight c t = Z.of_nat (size (open c t)) /\
  (forall v, inFlight c !! t = Some v -> 0 < v) /\
  (is_Some (Acquire t limit c).2 <-> limit <= 0 \/ InFlight c t < limit) /\
  (0 < limit -> is_Some (Acquire t limit c).2 ->
     InFlight (Acquire t limit c).1 t = InFlight c t + 1 /\
     InFlight c t + 1 <= limit) /\
  (forall i, release i (release i c) = release i c).
Proof.
  intros Hr Hl. destruct (reachable_ok c Hr) as [Hok Hb].
  pose proof (go_count c Hok t) as Hcnt. split_and!.
  - done.
  - intros v. apply (go_live c Hok).
  - unfold Acquire. repeat case_decide; simpl; split; intros; eauto; try lia.
    by destruct H.
  - intros Hpos. unfold Acquire. rewrite decide_False by lia.
    case_decide; simpl; [by intros []|]. intros _.
    unfold InFlight at 1; simpl. rewrite lookup_insert_eq. simpl.
    rewrite wrap64_id; [lia|]. unfold in_int64, min_int64 in *. lia.
  - intros i. unfold release at 2 3. destruct (closures c !! i) as [cl|] eqn:Hi.
    + destruct (c_released cl) eqn:Hrel; unfold release; simpl.
      * by rewrite Hi, Hrel.
      * by rewrite lookup_insert_eq.
    + unfold release. by rewrite Hi.
Qed.

Definition one_held : Gate := (Acquire "a" 1 NewConcurrency).1.

Lemma concurrency_gate_counts_witness :
  (Acquire "a" 1 one_held).2 = None /\ (Acquire "a" 1 (release 0 one_held)).2 <> None.
Proof.
  destruct (concurrency_gate_counts one_held "a" 1) as (_ & _ & H & _);
    [eapply rtc_l; [by apply (step_acquire _ "a" 1)|constructor]|done|].
  split; [|by vm_compute].
  destruct (Acquire "a" 1 one_held).2; [|done]. destruct (proj1 H); [eauto|done|done].
Defined.
End ConcurrencyProps.

Module LimiterWitnesses.
Import Memory LimiterSpec LimiterFacts LimiterProps.

Definition free : Limits := mkLimits 2 1000.

Lemma new_ok (t : Z) : mem_ok t NewMemory.
Proof. split; apply map_Forall_empty. Defined.

Lemma free_ok : limits_ok free.
Proof. by split. Defined.

(** Three requests at one instant against a ceiling of two. *)
Lemma rpm_rate_bound_witness :
  admitted "t" free NewMemory [(second, 1); (second, 1); (second, 1)] = 2 /\
  (inject_Z 2 <= 2 + exact_seconds 0 * (2 / 60) * (1 + 5 * eps) + 3 * eps * 2 * inject_Z 3)%Q.
Proof.
  split; [vm_compute; reflexivity|].
  pose proof (rpm_rate_bound "t" free NewMemory 0 second 1 [(second, 1); (second, 1)]
    free_ok ltac:(done) (new_ok 0) ltac:(done) ltac:(by repeat split)) as H.
  vm_compute. vm_compute in H. exact H.
Defined.

Lemma allow_all_or_nothing_witness :
  Allowed (Allow second "t" free 1001 NewMemory).2 = false.
Proof.
  pose proof (allow_all_or_nothing 0 second 1001 "t" free NewMemory (new_ok 0) free_ok) as H.
  destruct (Allow second "t" free 1001 NewMemory) as [m' d] eqn:E; simpl in *.
  destruct H as (H & _). destruct (Allowed d); [|done].
  destruct (proj1 H eq_refl) as [_ [H1|H1]]; [done|]. exfalso. revert H1. vm_compute. congruence.
Defined.

Lemma sweep_invisible_witness :
  (Allow second "t" free 1 NewMemory).2 = decision_of second "t" free 1 NewMemory.
Proof.
  destruct (sweep_invisible 0 second 1 "t" free NewMemory (new_ok 0) free_ok) as (_ & H & _).
  exact H.
Defined.

Lemma buckets_stay_in_bounds_witness :
  mem_ok second (Allow second "t" free 1 NewMemory).1.
Proof.
  destruct (buckets_stay_in_bounds 0 second 1 1 "t" free NewMemory (new_ok 0)
              ltac:(done) free_ok ltac:(done) ltac:(done) ltac:(done) ltac:(done)) as (H & _).
  exact H.
Defined.

Lemma retry_after_honest_witness :
  retryAfterSeconds (RetryAfter (Allow second "t" free 1001 NewMemory).2) = 1.
Proof.
  destruct (retry_after_honest 0 second 1001 "t" free NewMemory (new_ok 0)
              ltac:(done) free_ok ltac:(done)) as (_ & _ & _).
  { vm_compute. reflexivity. }
  vm_compute. reflexivity.
Defined.

Lemma enabled_ceiling_starts_empty_witness :
  Allowed (Allow second "t" (mkLimits 60 0) 0
             (Allow second "t" (mkLimits 0 0) 0 NewMemory).1).2 = false.
Proof.
  destruct (enabled_ceiling_starts_empty second 0 60 "t" (mkLimits 0 0)) as [H _];
    [done..|exact H].
Defined.
End LimiterWitnesses.
