(* ===== verification/Circuit.v ===== *)
(** * Circuit: the three-state breaker skeleton and the consecutive registry

    Models [src/internal/circuit/circuit.go] (states, outcomes),
    [machine.go] (the positional skeleton: [enter], [allow], [observe],
    [reclaim]) and [breaker.go] (the consecutive-failure [Registry]).

    Permissions are heap objects: the code hands out a pointer whose
    [reported] flag survives the call and whose probe grant is compared by
    pointer identity, so the model keeps a heap of permissions and gives
    every probe grant the address it was allocated at.  The clock is an
    argument of each operation; [Report] takes two readings, its own [now]
    and the later one [enter] performs when it stamps [openedAt]. *)
From stdpp Require Import base gmap strings list.
From S2P Require Import Prelude.
Import GoInt GoTime.

Local Open Scope Z_scope.

Inductive State : Set := StateClosed | StateOpen | StateHalfOpen.

Inductive Outcome : Set :=
  | OutcomeSuccess
  | OutcomeClientFault
  | OutcomeServerFault
  | OutcomeSlow
  | OutcomeGatewayTerminated.

#[export] Instance State_eq_dec : EqDecision State.
Proof. solve_decision. Defined.
#[export] Instance Outcome_eq_dec : EqDecision Outcome.
Proof. solve_decision. Defined.

(** ** The shared positional skeleton (machine.go) *)
Module Machine.
(** [probeGrant] is compared by address in the code; [pg_ptr] is that address. *)
Record probeGrant := ProbeGrant { pg_ptr : nat; deadline : Z }.

Record machine := mkMachine {
  id : string;
  name : State;
  openedAt : Z;
  probe : option probeGrant
}.

Record governor := Governor { cooldown : Z; probeTimeout : Z }.

(** One call of the [onTransition] observer. *)
Definition transition : Type := string * State * State.

Definition set_name (n : State) (m : machine) : machine :=
  mkMachine (id m) n (openedAt m) (probe m).
Definition set_openedAt (t : Z) (m : machine) : machine :=
  mkMachine (id m) (name m) t (probe m).
Definition set_probe (p : option probeGrant) (m : machine) : machine :=
  mkMachine (id m) (name m) (openedAt m) p.

(** [enter]: the machine [m] with the strategy's evidence [ev] beside it;
    [clock] is the reading [enter] takes when it enters open. *)
Definition enter {E : Type} (clock : Z) (m : machine) (ev : E) (to : State)
    (onClosed : option (E -> E)) : machine * E * list transition :=
  let from := name m in
  if decide (from = to) then (m, ev, [])
  else
    let m := set_name to m in
    let m := if decide (to = StateOpen) then set_openedAt clock m else m in
    let '(m, ev) :=
      if decide (to = StateClosed)
      then (set_probe None m, match onClosed with Some f => f ev | None => ev end)
      else (m, ev) in
    (m, ev, [(id m, from, to)]).

(** [reclaim]: the final assignment overrides the stamp [enter] wrote. *)
Definition reclaim (clock : Z) (m : machine) (now : Z) : machine * list transition :=
  let m := set_probe None m in
  let '(m, _, tr) := enter clock m tt StateOpen None in
  (set_openedAt now m, tr).

(** [allow]: [None] is a denial, [Some grant] an admission with the grant
    handed to [admit] ([None] outside half-open); [ptr] is the address a
    freshly allocated grant receives. *)
Definition allow (g : governor) (now : Z) (ptr : nat) (m : machine)
    : machine * option (option probeGrant) * list transition :=
  match name m with
  | StateClosed => (m, Some None, [])
  | StateOpen =>
      if decide (sub now (openedAt m) < cooldown g) then (m, None, [])
      else
        let '(m, _, tr) := enter now m tt StateHalfOpen None in
        let grant := ProbeGrant ptr (add now (probeTimeout g)) in
        (set_probe (Some grant) m, Some (Some grant), tr)
  | StateHalfOpen =>
      match probe m with
      | Some pr =>
          if after now (deadline pr)
          then let '(m, tr) := reclaim now m now in (m, None, tr)
          else (m, None, [])
      | None =>
          let grant := ProbeGrant ptr (add now (probeTimeout g)) in
          (set_probe (Some grant) m, Some (Some grant), [])
      end
  end.

Definition observe (g : governor) (now : Z) (m : machine)
    : machine * State * list transition :=
  match name m with
  | StateOpen =>
      if decide (sub now (openedAt m) >= cooldown g)
      then let '(m, _, tr) := enter now m tt StateHalfOpen None in
           (m, StateHalfOpen, tr)
      else (m, name m, [])
  | StateHalfOpen =>
      match probe m with
      | Some pr =>
          if after now (deadline pr)
          then let '(m, tr) := reclaim now m now in (m, name m, tr)
          else (m, name m, [])
      | None => (m, name m, [])
      end
  | StateClosed => (m, name m, [])
  end.

(** The positional invariant: a probe is only ever outstanding in
    half-open. *)
Definition mwf (m : machine) : Prop :=
  name m <> StateHalfOpen -> probe m = None.

(** The moves the observer may report; closed is left only towards open
    and half-open is entered only from open. *)
Definition legal (from to : State) : bool :=
  match from, to with
  | StateClosed, StateOpen
  | StateOpen, StateHalfOpen
  | StateHalfOpen, StateOpen
  | StateHalfOpen, StateClosed
  | StateOpen, StateClosed => true
  | _, _ => false
  end.

(** [chain a l b]: the reported moves lead from [a] to [b], each legal. *)
Fixpoint chain (a : State) (l : list transition) (b : State) : Prop :=
  match l with
  | [] => a = b
  | (_, x, y) :: l => a = x /\ legal x y = true /\ chain y l b
  end.

Definition log_of (u : string) (l : list transition) : list transition :=
  filter (fun t => t.1.1 = u) l.
End Machine.

(** ** The consecutive-failure registry (breaker.go) *)
Module Consecutive.
Import Machine.

Record Config := mkConfig {
  cfg_FailThreshold : Z;
  cfg_Cooldown : Z;
  cfg_ProbeTimeout : Z
}.

Definition defaultFailThreshold : Z := 5.
Definition defaultCooldown : Z := 30 * second.
Definition defaultProbeTimeout : Z := 5 * second.

Record state := mkState { mach : machine; failures : Z }.

(** [granted]: the state pointer is the upstream key, because states are
    never removed from the registry's map. *)
Record granted := Granted {
  g_s : string;
  g_grant : option probeGrant;
  g_reported : bool
}.

Record Registry := mkRegistry {
  gov : governor;
  failThreshold : Z;
  byUpstream : gmap string state;
  perms : gmap nat granted;
  next : nat;
  observed : list transition
}.

Definition NewRegistry (cfg : Config) : Registry :=
  let thr := if decide (cfg_FailThreshold cfg <= 0)
             then defaultFailThreshold else cfg_FailThreshold cfg in
  let cd := if decide (cfg_Cooldown cfg <= 0)
            then defaultCooldown else cfg_Cooldown cfg in
  let pt := if decide (cfg_ProbeTimeout cfg <= 0)
            then defaultProbeTimeout else cfg_ProbeTimeout cfg in
  mkRegistry (Governor cd pt) thr ∅ ∅ 0 [].

Definition newState (u : string) : state :=
  mkState (mkMachine u StateClosed 0 None) 0.

(** The per-upstream state [stateOf] returns; the caller's write-back
    puts a created one into the map. *)
Definition stateOf (b : Registry) (u : string) : state :=
  default (newState u) (byUpstream b !! u).

Definition put (b : Registry) (u : string) (s : state)
    (tr : list transition) : Registry :=
  mkRegistry (gov b) (failThreshold b) (<[u := s]> (byUpstream b))
    (perms b) (next b) (observed b ++ tr).

Definition Allow (now : Z) (u : string) (b : Registry) : Registry * option nat :=
  let s := stateOf b u in
  let '(m, grant, tr) := allow (gov b) now (next b) (mach s) in
  let b' := put b u (mkState m (failures s)) tr in
  match grant with
  | None => (b', None)
  | Some gr =>
      (mkRegistry (gov b') (failThreshold b') (byUpstream b')
         (<[next b := Granted u gr false]> (perms b')) (S (next b)) (observed b'),
       Some (next b))
  end.

Definition StateOf (now : Z) (u : string) (b : Registry) : Registry * State :=
  let s := stateOf b u in
  let '(m, st, tr) := observe (gov b) now (mach s) in
  (put b u (mkState m (failures s)) tr, st).

Definition Reset (clock : Z) (u : string) (b : Registry) : Registry :=
  let s := stateOf b u in
  let '(m, f, tr) := enter clock (set_probe None (mach s)) 0 StateClosed None in
  put b u (mkState m f) tr.

(** The pointer comparison [s.probe != g.grant] guarded by [s.probe == nil]. *)
Definition owns_probe (m : machine) (grant : option probeGrant) : option probeGrant :=
  match probe m, grant with
  | Some pr, Some gr => if decide (pg_ptr pr = pg_ptr gr) then Some pr else None
  | _, _ => None
  end.

(** The state change of [Report], past the exactly-once guard. *)
Definition report_state (thr now clock : Z) (grant : option probeGrant)
    (outcome : Outcome) (s : state) : state * list transition :=
  let m := mach s in
  match name m with
  | StateClosed =>
      match outcome with
      | OutcomeSuccess | OutcomeClientFault | OutcomeSlow => (mkState m 0, [])
      | OutcomeServerFault =>
          let f := wrap64 (failures s + 1) in
          if decide (f >= thr)
          then let '(m, f, tr) := enter clock m f StateOpen None in (mkState m f, tr)
          else (mkState m f, [])
      | OutcomeGatewayTerminated => (s, [])
      end
  | StateHalfOpen =>
      match owns_probe m grant with
      | None => (s, [])
      | Some pr =>
          if decide (outcome = OutcomeGatewayTerminated) then
            let '(m, tr) := reclaim clock m now in (mkState m (failures s), tr)
          else if after now (deadline pr) then
            let '(m, tr) := reclaim clock m now in (mkState m (failures s), tr)
          else
            let m := set_probe None m in
            match outcome with
            | OutcomeSuccess | OutcomeClientFault | OutcomeSlow =>
                let '(m, f, tr) :=
                  enter clock m (failures s) StateClosed (Some (fun _ => 0)) in
                (mkState m f, tr)
            | OutcomeServerFault =>
                let '(m, f, tr) := enter clock m (failures s) StateOpen None in
                (mkState m f, tr)
            | OutcomeGatewayTerminated => (mkState m (failures s), [])
            end
      end
  | StateOpen => (s, [])
  end.

Definition Report (now clock : Z) (p : nat) (outcome : Outcome) (b : Registry)
    : Registry :=
  match perms b !! p with
  | None => b
  | Some g =>
      if g_reported g then b
      else
        let g' := Granted (g_s g) (g_grant g) true in
        let '(s, tr) :=
          report_state (failThreshold b) now clock (g_grant g) outcome
            (stateOf b (g_s g)) in
        let b' := put b (g_s g) s tr in
        mkRegistry (gov b') (failThreshold b') (byUpstream b')
          (<[p := g']> (perms b')) (next b') (observed b')
  end.
End Consecutive.

(** ** Reachable registries *)
Module ConsecutiveSpec.
Import Machine Consecutive.

Inductive step (b : Registry) : Registry -> Prop :=
  | step_allow now u : step b (Allow now u b).1
  | step_stateof now u : step b (StateOf now u b).1
  | step_reset clock u : step b (Reset clock u b)
  | step_report now clock p o : step b (Report now clock p o b).

Definition reachable (cfg : Config) : Registry -> Prop :=
  rtc step (NewRegistry cfg).

(** The permission [p] owns the outstanding probe of [u]. *)
Definition owns (b : Registry) (u : string) (g : probeGrant) (p : nat) : Prop :=
  exists prm, perms b !! p = Some prm /\ g_s prm = u /\
    g_grant prm = Some g /\ g_reported prm = false.

Record wf_state (thr : Z) (u : string) (s : state) : Prop := {
  wfs_id : id (mach s) = u;
  wfs_probe : mwf (mach s);
  wfs_failures : 0 <= failures s <= thr;
  wfs_closed : name (mach s) = StateClosed -> failures s < thr
}.

Record reg_wf (b : Registry) : Prop := {
  wf_threshold : 0 < failThreshold b <= max_int64;
  wf_cooldown : 0 < cooldown (gov b);
  wf_timeout : 0 < probeTimeout (gov b);
  wf_states : forall u s, byUpstream b !! u = Some s -> wf_state (failThreshold b) u s;
  wf_owner : forall u s g, byUpstream b !! u = Some s ->
    probe (mach s) = Some g -> owns b u g (pg_ptr g);
  wf_perms : forall p prm, perms b !! p = Some prm ->
    (p < next b)%nat /\ is_Some (byUpstream b !! g_s prm) /\
    (forall g, g_grant prm = Some g -> pg_ptr g = p);
  wf_log : forall u, chain StateClosed (log_of u (observed b)) (name (mach (stateOf b u)))
}.

(** *** One exchange and runs of exchanges *)
Definition exchange (u : string) (b : Registry) (call : Z * Outcome) : Registry :=
  match Allow call.1 u b with
  | (b', Some p) => Report call.1 call.1 p call.2 b'
  | (b', None) => b'
  end.

Definition run (u : string) : Registry -> list (Z * Outcome) -> Registry :=
  foldl (exchange u).

Definition healthy (o : Outcome) : bool :=
  match o with
  | OutcomeSuccess | OutcomeClientFault | OutcomeSlow => true
  | _ => false
  end.

(** A run of outcomes contains [thr] consecutive server faults: a segment
    without a healthy answer that holds [thr] of them.  Calls the gateway
    cut itself neither count nor interrupt. *)
Definition faults (os : list Outcome) : nat :=
  length (filter (fun o => o = OutcomeServerFault) os).

Definition consecutive_faults (thr : nat) (os : list Outcome) : Prop :=
  exists pre seg post, os = pre ++ seg ++ post /\
    Forall (fun o => healthy o = false) seg /\ faults seg = thr.
End ConsecutiveSpec.

Module MachineFacts.
Import Machine.

Lemma chain_app (a b c : State) (l1 l2 : list transition) :
  chain a l1 b -> chain b l2 c -> chain a (l1 ++ l2) c.
Proof.
  revert a. induction l1 as [|[[u x] y] l1 IH]; intros a; simpl.
  - by intros ->.
  - intros (-> & ? & ?) ?. naive_solver.
Qed.

Lemma log_of_app (u : string) (l1 l2 : list transition) :
  log_of u (l1 ++ l2) = log_of u l1 ++ log_of u l2.
Proof. apply filter_app. Qed.

(** What every machine operation guarantees about its result and the moves
    it reported. *)
Record moved (m m' : machine) (tr : list transition) : Prop := {
  mv_id : id m' = id m;
  mv_wf : mwf m';
  mv_chain : chain (name m) tr (name m');
  mv_ids : Forall (fun t => t.1.1 = id m) tr
}.

Lemma moved_refl (m : machine) : mwf m -> moved m m [].
Proof. intros H. by split; simpl. Qed.

Ltac solve_moved :=
  split; unfold mwf in *; simpl in *;
  repeat (case_decide; simplify_eq/=); try naive_solver.

Lemma observe_moved (g : governor) (now : Z) (m : machine) :
  mwf m -> let '(m', st, tr) := observe g now m in moved m m' tr /\ st = name m'.
Proof.
  intros Hwf. destruct m as [i [] t pr]; unfold observe, reclaim, enter; simpl.
  - split; [by apply moved_refl|done].
  - case_decide; simpl; (split; [|done]); solve_moved.
  - destruct pr as [pr|]; [destruct (after now (deadline pr))|];
      simpl; (split; [|done]); solve_moved.
Qed.

Lemma allow_moved (g : governor) (now : Z) (ptr : nat) (m : machine) :
  mwf m -> let '(m', _, tr) := allow g now ptr m in moved m m' tr.
Proof.
  intros Hwf. destruct m as [i [] t pr]; unfold allow, reclaim, enter; simpl.
  - by apply moved_refl.
  - case_decide; simpl; solve_moved.
  - destruct pr as [pr|]; [destruct (after now (deadline pr))|]; simpl; solve_moved.
Qed.

(** The probe an operation leaves outstanding is either the one that was
    outstanding before or the grant it has just handed out. *)
Lemma allow_probe (g : governor) (now : Z) (ptr : nat) (m : machine) :
  let '(m', grant, _) := allow g now ptr m in
  match grant with
  | Some (Some gr) => probe m' = Some gr /\ pg_ptr gr = ptr
  | _ => forall gr, probe m' = Some gr -> probe m = Some gr
  end.
Proof.
  destruct m as [i [] t pr]; unfold allow, reclaim, enter; simpl; try done.
  - case_decide; simpl; done.
  - destruct pr as [pr|]; [destruct (after now (deadline pr))|]; simpl; done.
Qed.

Lemma observe_probe (g : governor) (now : Z) (m : machine) (gr : probeGrant) :
  probe (observe g now m).1.1 = Some gr -> probe m = Some gr.
Proof.
  destruct m as [i [] t pr]; unfold observe, reclaim, enter; simpl; try done.
  - case_decide; simpl; done.
  - destruct pr as [pr|]; [destruct (after now (deadline pr))|]; simpl; done.
Qed.
End MachineFacts.

Module ConsecutiveFacts.
Import Machine MachineFacts Consecutive ConsecutiveSpec.

Lemma stateOf_lookup (b : Registry) (u : string) (s : state) :
  byUpstream b !! u = Some s -> stateOf b u = s.
Proof. unfold stateOf. by intros ->. Qed.

Lemma stateOf_wf (b : Registry) (u : string) :
  reg_wf b -> wf_state (failThreshold b) u (stateOf b u).
Proof.
  intros Hb. unfold stateOf. destruct (byUpstream b !! u) as [s|] eqn:E; simpl.
  - by apply (wf_states b Hb).
  - pose proof (wf_threshold b Hb). split; simpl; [done|by intros ?|lia|lia].
Qed.

Lemma stateOf_probe (b : Registry) (u : string) (g : probeGrant) :
  reg_wf b -> probe (mach (stateOf b u)) = Some g -> owns b u g (pg_ptr g).
Proof.
  intros Hb. unfold stateOf. destruct (byUpstream b !! u) as [s|] eqn:E; simpl; [|done].
  by apply (wf_owner b Hb).
Qed.

Lemma stateOf_put (b : Registry) (u v : string) (s : state) (tr : list transition) :
  stateOf (put b u s tr) v = if decide (u = v) then s else stateOf b v.
Proof.
  unfold stateOf, put; simpl. rewrite lookup_insert. by case_decide.
Qed.

Lemma log_of_self (u : string) (tr : list transition) :
  Forall (fun t => t.1.1 = u) tr -> log_of u tr = tr.
Proof. induction 1; unfold log_of in *; [done|]. rewrite filter_cons_True; by f_equal. Qed.

Lemma log_of_other (u v : string) (tr : list transition) :
  Forall (fun t => t.1.1 = u) tr -> u <> v -> log_of v tr = [].
Proof.
  induction 1; unfold log_of in *; intros; [done|].
  rewrite filter_cons_False; [by auto|]. congruence.
Qed.

(** Every operation writes one upstream's state, logs the moves of its
    machine and touches at most that upstream's permissions. *)
Lemma update_wf (b : Registry) (u : string) (s : state) (tr : list transition)
    (ps : gmap nat granted) (n : nat) :
  reg_wf b ->
  wf_state (failThreshold b) u s ->
  moved (mach (stateOf b u)) (mach s) tr ->
  (forall g, probe (mach s) = Some g ->
     exists prm, ps !! pg_ptr g = Some prm /\ g_s prm = u /\
       g_grant prm = Some g /\ g_reported prm = false) ->
  (forall p prm, perms b !! p = Some prm -> g_s prm <> u -> ps !! p = Some prm) ->
  (forall p prm, ps !! p = Some prm ->
     (p < n)%nat /\ (g_s prm = u \/ is_Some (byUpstream b !! g_s prm)) /\
     (forall g, g_grant prm = Some g -> pg_ptr g = p)) ->
  reg_wf (mkRegistry (gov b) (failThreshold b) (<[u := s]> (byUpstream b))
            ps n (observed b ++ tr)).
Proof.
  intros Hb Hs Hmv Hpr Hold Hps. pose proof (stateOf_wf b u Hb) as Hs0.
  split; simpl; try apply Hb.
  - intros v t [[<- <-]|[? Ht]]%lookup_insert_Some; [done|by apply (wf_states b Hb)].
  - intros v t g [[<- <-]|[? Ht]]%lookup_insert_Some Hg; [by apply Hpr|].
    destruct (wf_owner b Hb v t g Ht Hg) as (prm & Hp & ? & ? & ?).
    exists prm. split_and!; try done. apply Hold; [done|congruence].
  - intros p prm Hp. destruct (Hps p prm Hp) as (? & Hin & ?). split_and!; try done.
    rewrite lookup_insert_is_Some. destruct (decide (u = g_s prm)); [by left|right].
    split; [done|]. by destruct Hin.
  - intros v. rewrite log_of_app. destruct Hmv as [Hid _ Hch Hall].
    rewrite (wfs_id _ _ _ Hs0) in Hall.
    unfold stateOf; simpl. rewrite lookup_insert. case_decide as Huv.
    + subst v. rewrite (log_of_self u tr) by done.
      eapply chain_app; [apply (wf_log b Hb)|done].
    + rewrite (log_of_other u v tr) by done. rewrite app_nil_r. apply (wf_log b Hb).
Qed.

(** *** The operations preserve well-formedness *)
Lemma Allow_wf (now : Z) (u : string) (b : Registry) :
  reg_wf b -> reg_wf (Allow now u b).1.
Proof.
  intros Hb. pose proof (stateOf_wf b u Hb) as [Hid Hpr Hf Hc]. unfold Allow.
  pose proof (allow_moved (gov b) now (next b) (mach (stateOf b u)) Hpr) as Hmv.
  pose proof (allow_probe (gov b) now (next b) (mach (stateOf b u))) as Hgr.
  destruct (allow _ _ _ _) as [[m grant] tr] eqn:E.
  assert (name m = StateClosed -> name (mach (stateOf b u)) = StateClosed) as Hclosed.
  { clear -E. destruct (stateOf b u) as [[i [] t pr] f]; simpl in *; try done;
      unfold allow, reclaim, enter in E; simpl in E; repeat case_match; simplify_eq/=; done. }
  assert (wf_state (failThreshold b) u (mkState m (failures (stateOf b u)))) as Hs.
  { split; simpl; [destruct Hmv; congruence|by destruct Hmv|done|auto]. }
  assert (forall p prm, perms b !! p = Some prm -> (p < S (next b))%nat /\
     (g_s prm = u \/ is_Some (byUpstream b !! g_s prm)) /\
     (forall g, g_grant prm = Some g -> pg_ptr g = p)) as Hps.
  { intros p prm Hp. destruct (wf_perms b Hb p prm Hp) as (? & ? & ?). split_and!; auto. }
  assert (perms b !! next b = None) as Hfresh.
  { destruct (perms b !! next b) as [prm|] eqn:F; [|done].
    destruct (wf_perms b Hb _ _ F). lia. }
  destruct grant as [gr|]; simpl.
  - apply update_wf; simpl; try done.
    + intros g Hg. destruct gr as [gr|].
      * destruct Hgr as [? Hptr]. simplify_eq. rewrite Hptr, lookup_insert_eq. eauto.
      * destruct (stateOf_probe b u g Hb (Hgr g Hg)) as (prm & Hp & ?).
        exists prm. rewrite lookup_insert_ne; [done|congruence].
    + intros p prm Hp _. rewrite lookup_insert_ne; [done|congruence].
    + intros p prm [[<- <-]|[? Hp]]%lookup_insert_Some; [|by apply Hps]. simpl.
      split_and!; [lia|by left|]. intros g ->. by destruct Hgr.
  - apply update_wf; simpl; try done.
    + intros g Hg. by apply stateOf_probe; [|apply Hgr].
    + intros p prm Hp. destruct (wf_perms b Hb p prm Hp) as (? & ? & ?). auto.
Qed.

Lemma StateOf_wf (now : Z) (u : string) (b : Registry) :
  reg_wf b -> reg_wf (StateOf now u b).1.
Proof.
  intros Hb. pose proof (stateOf_wf b u Hb) as [Hid Hpr Hf Hc]. unfold StateOf.
  pose proof (observe_moved (gov b) now (mach (stateOf b u)) Hpr) as Hmv.
  pose proof (observe_probe (gov b) now (mach (stateOf b u))) as Hgr.
  destruct (observe _ _ _) as [[m st] tr] eqn:E. destruct Hmv as [Hmv _].
  apply update_wf; simpl in *; try done.
  - split; simpl; [destruct Hmv; congruence|by destruct Hmv|done|].
    intros Hm. apply Hc. clear -E Hm.
    destruct (stateOf b u) as [[i [] t pr] f]; simpl in *; try done;
      unfold observe, reclaim, enter in E; simpl in E; repeat case_match; simplify_eq/=; done.
  - intros g Hg. by apply stateOf_probe; [|apply Hgr].
  - intros p prm Hp. destruct (wf_perms b Hb p prm Hp) as (? & ? & ?). auto.
Qed.

Lemma Reset_wf (clock : Z) (u : string) (b : Registry) :
  reg_wf b -> reg_wf (Reset clock u b).
Proof.
  intros Hb. pose proof (stateOf_wf b u Hb) as [Hid Hpr Hf Hc].
  pose proof (wf_threshold b Hb) as Hthr. unfold Reset.
  destruct (enter _ _ _ _ _) as [[m f] tr] eqn:E.
  assert (moved (mach (stateOf b u)) m tr /\ f = 0 /\ probe m = None) as (Hmv & -> & Hnone).
  { clear -E Hpr. destruct (stateOf b u) as [[i [] t pr] f0]; unfold enter in E;
      simpl in *; simplify_eq/=; (split; [|done]); split; unfold mwf in *; simpl; auto;
      repeat constructor. }
  apply update_wf; simpl; try done.
  - split; simpl; [destruct Hmv; congruence|by destruct Hmv|lia|lia].
  - intros g. by rewrite Hnone.
  - intros p prm Hp. destruct (wf_perms b Hb p prm Hp) as (? & ? & ?). auto.
Qed.

Lemma report_state_moved (thr now clock : Z) (u : string) (gr : option probeGrant)
    (o : Outcome) (s s' : state) (tr : list transition) :
  0 < thr <= max_int64 -> wf_state thr u s ->
  report_state thr now clock gr o s = (s', tr) ->
  moved (mach s) (mach s') tr /\ wf_state thr u s' /\
  (forall g, probe (mach s') = Some g ->
     probe (mach s) = Some g /\ owns_probe (mach s) gr = None).
Proof.
  intros Hthr [Hid Hpr Hf Hc] E.
  destruct s as [[i n t pr] f]; unfold report_state, owns_probe in *; simpl in *.
  assert (n = StateClosed -> wrap64 (f + 1) = f + 1) as Hw.
  { intros ->. apply wrap64_id. unfold in_int64, min_int64. specialize (Hc eq_refl). lia. }
  assert (n <> StateHalfOpen -> pr = None) as Hnone by exact Hpr.
  unfold reclaim, enter in E; simpl in E.
  destruct n; [rewrite Hw in E by done; rewrite (Hnone ltac:(done)) in *
              |rewrite (Hnone ltac:(done)) in *|clear Hw Hnone];
    repeat case_match; simplify_eq/=;
    (split; [split|split; [split|]]); unfold mwf; simpl;
    first [done | lia | by repeat constructor | naive_solver | intros; try specialize (Hc eq_refl); lia].
Qed.
Lemma owns_probe_Some (m : machine) (gr : option probeGrant) (g : probeGrant) :
  owns_probe m gr = Some g ->
  exists g', gr = Some g' /\ probe m = Some g /\ pg_ptr g = pg_ptr g'.
Proof. unfold owns_probe. intros. repeat case_match; simplify_eq. eauto. Qed.

Lemma Report_wf (now clock : Z) (p : nat) (o : Outcome) (b : Registry) :
  reg_wf b -> reg_wf (Report now clock p o b).
Proof.
  intros Hb. unfold Report. destruct (perms b !! p) as [prm|] eqn:Hp; [|done].
  destruct (g_reported prm) eqn:Hrep; [done|].
  destruct (report_state _ _ _ _ _ _) as [s tr] eqn:E. simpl.
  destruct (wf_perms b Hb p prm Hp) as (Hlt & Hin & Hptr).
  destruct (report_state_moved _ _ _ (g_s prm) _ _ _ _ _
              (wf_threshold b Hb) (stateOf_wf b _ Hb) E) as (Hmv & Hs & Hpr).
  apply update_wf; try done.
  - intros g Hg. destruct (Hpr g Hg) as [Hg0 Hown].
    destruct (stateOf_probe b _ g Hb Hg0) as (prm' & Hp' & ? & Hgr & ?).
    exists prm'. split_and!; try done. rewrite lookup_insert_ne; [done|].
    intros ->. simplify_eq. unfold owns_probe in Hown.
    by rewrite Hg0, Hgr, decide_True in Hown.
  - intros q prm' Hq Hne. rewrite lookup_insert_ne; [done|congruence].
  - intros q prm' [[<- <-]|[? Hq]]%lookup_insert_Some; simpl.
    + split_and!; [done|by left|done].
    + destruct (wf_perms b Hb q prm' Hq) as (? & ? & ?). auto.
Qed.

Lemma step_wf (b b' : Registry) : step b b' -> reg_wf b -> reg_wf b'.
Proof.
  destruct 1; intros;
    [by apply Allow_wf|by apply StateOf_wf|by apply Reset_wf|by apply Report_wf].
Qed.

Lemma NewRegistry_wf (cfg : Config) :
  cfg_FailThreshold cfg <= max_int64 -> reg_wf (NewRegistry cfg).
Proof.
  intros Hcfg. unfold NewRegistry, defaultFailThreshold, defaultCooldown,
    defaultProbeTimeout, second, max_int64 in *.
  split; simpl; unfold max_int64; try (case_decide; lia); done.
Qed.

Lemma reachable_wf (cfg : Config) (b : Registry) :
  cfg_FailThreshold cfg <= max_int64 -> reachable cfg b -> reg_wf b.
Proof.
  intros Hcfg Hr. apply NewRegistry_wf in Hcfg.
  induction Hr as [|x y z Hs _ IH]; [done|]. eauto using step_wf.
Qed.

(** *** Single operations by position *)
Lemma Allow_denied_id (now : Z) (u : string) (b : Registry) (s : state) :
  byUpstream b !! u = Some s ->
  allow (gov b) now (next b) (mach s) = (mach s, None, []) ->
  Allow now u b = (b, None).
Proof.
  intros Hs Ha. unfold Allow. rewrite (stateOf_lookup b u s Hs), Ha. unfold put.
  destruct s as [m f]; simpl. rewrite insert_id by done. rewrite app_nil_r.
  by destruct b.
Qed.

Lemma exchange_closed (u : string) (b : Registry) (t : Z) (o : Outcome) :
  name (mach (stateOf b u)) = StateClosed ->
  let b' := exchange u b (t, o) in
  gov b' = gov b /\ failThreshold b' = failThreshold b /\
  stateOf b' u = (report_state (failThreshold b) t t None o (stateOf b u)).1.
Proof.
  intros Hc. unfold exchange, Allow, allow; simpl. rewrite Hc. unfold Report; simpl.
  rewrite lookup_insert_eq; simpl.
  replace (stateOf _ u) with (stateOf b u) by
    (unfold stateOf; simpl; rewrite lookup_insert_eq; simpl; by destruct (default _ _)).
  destruct (report_state _ _ _ _ _ _) as [s tr]; simpl.
  unfold stateOf; simpl. by rewrite lookup_insert_eq.
Qed.

Lemma exchange_open (u : string) (b : Registry) (t : Z) (o : Outcome) :
  name (mach (stateOf b u)) = StateOpen ->
  sub t (openedAt (mach (stateOf b u))) < cooldown (gov b) ->
  let b' := exchange u b (t, o) in
  gov b' = gov b /\ failThreshold b' = failThreshold b /\ stateOf b' u = stateOf b u.
Proof.
  intros Ho Ht. unfold exchange, Allow, allow; simpl. rewrite Ho.
  rewrite decide_True by done. simpl. unfold stateOf; simpl. rewrite lookup_insert_eq.
  simpl. split_and!; try done. by destruct (default _ _).
Qed.
End ConsecutiveFacts.

(** ** Runs of consecutive faults *)
Module FaultRuns.
Import Consecutive ConsecutiveSpec.

Lemma faults_app (l1 l2 : list Outcome) : faults (l1 ++ l2) = (faults l1 + faults l2)%nat.
Proof. unfold faults. by rewrite filter_app, length_app. Qed.

Lemma segment_snoc (thr : nat) (os : list Outcome) (o : Outcome) :
  (0 < thr)%nat ->
  consecutive_faults thr (os ++ [o]) <->
  consecutive_faults thr os \/
  exists pre seg, os = pre ++ seg /\
    Forall (fun o => healthy o = false) (seg ++ [o]) /\ faults (seg ++ [o]) = thr.
Proof.
  intros Hthr. unfold consecutive_faults. split.
  - intros (pre & seg & post & E & Hseg & Hn).
    destruct post as [|x post _] using rev_ind.
    + rewrite app_nil_r in E.
      destruct seg as [|x seg _] using rev_ind; [unfold faults in Hn; simpl in Hn; lia|].
      rewrite app_assoc in E. apply app_inj_tail in E as [-> ->]. right. eauto.
    + rewrite !app_assoc in E. apply app_inj_tail in E as [-> _]. left.
      exists pre, seg, post. by rewrite app_assoc.
  - intros [(pre & seg & post & -> & Hseg & Hn)|(pre & seg & -> & Hseg & Hn)].
    + exists pre, seg, (post ++ [o]). by rewrite !app_assoc.
    + exists pre, (seg ++ [o]), []. by rewrite app_nil_r, !app_assoc.
Qed.

(** [trailing os n]: [n] faults since the last healthy answer. *)
Definition trailing (os : list Outcome) (n : nat) : Prop :=
  (exists pre seg, os = pre ++ seg /\ Forall (fun o => healthy o = false) seg /\
     faults seg = n) /\
  (forall pre seg, os = pre ++ seg -> Forall (fun o => healthy o = false) seg ->
     (faults seg <= n)%nat).

Lemma trailing_nil : trailing [] 0.
Proof.
  split; [by exists [], []|]. intros pre seg E _. symmetry in E.
  by apply app_eq_nil in E as [_ ->].
Qed.

Lemma trailing_healthy (os : list Outcome) (o : Outcome) :
  healthy o = true -> trailing (os ++ [o]) 0.
Proof.
  intros Ho. split; [exists (os ++ [o]), []; by rewrite app_nil_r|].
  intros pre seg E Hseg. destruct seg as [|x seg _] using rev_ind; [done|].
  rewrite app_assoc in E. apply app_inj_tail in E as [_ <-].
  rewrite Forall_app, Forall_singleton in Hseg. destruct Hseg; congruence.
Qed.

Lemma trailing_unhealthy (os : list Outcome) (o : Outcome) (n : nat) :
  healthy o = false -> trailing os n -> trailing (os ++ [o]) (n + faults [o]).
Proof.
  intros Ho [(pre & seg & -> & Hseg & Hn) Hmax]. split.
  - exists pre, (seg ++ [o]). rewrite app_assoc, faults_app, Forall_app, Forall_singleton.
    by rewrite Hn.
  - intros pre' seg' E Hseg'.
    destruct seg' as [|x seg' _] using rev_ind; [unfold faults; simpl; lia|].
    rewrite app_assoc in E. apply app_inj_tail in E as [E <-].
    rewrite faults_app. rewrite Forall_app in Hseg'. destruct Hseg' as [Hs _].
    specialize (Hmax pre' seg' E Hs). lia.
Qed.

Lemma segment_iff_trailing (thr n : nat) (os : list Outcome) (o : Outcome) :
  (0 < thr)%nat -> ~ consecutive_faults thr os -> trailing os n -> (n < thr)%nat ->
  consecutive_faults thr (os ++ [o]) <->
  healthy o = false /\ (thr <= n + faults [o])%nat.
Proof.
  intros Hthr Hno Htr Hlt. rewrite segment_snoc by done. split.
  - intros [?|(pre & seg & -> & Hseg & Hn)]; [done|].
    rewrite Forall_app, Forall_singleton in Hseg. destruct Hseg as [Hs Ho].
    split; [done|]. destruct Htr as [_ Hmax]. specialize (Hmax pre seg eq_refl Hs).
    rewrite faults_app in Hn. lia.
  - intros [Ho Hge]. right. destruct Htr as [(pre & seg & -> & Hs & Hn) _].
    exists pre, seg. rewrite Forall_app, Forall_singleton, faults_app.
    split_and!; try done.
    assert (faults [o] <= 1)%nat by (destruct o; unfold faults; simpl; lia).
    lia.
Qed.
End FaultRuns.

Module ConsecutiveRun.
Import Machine Consecutive ConsecutiveSpec ConsecutiveFacts FaultRuns.

(** The abstract state of a run inside one cooldown window: closed with
    the trailing fault count, or open since some instant of the window. *)
Definition tracks (t0 : Z) (b0 b : Registry) (u : string) (os : list Outcome) : Prop :=
  let thr := Z.to_nat (failThreshold b0) in
  gov b = gov b0 /\ failThreshold b = failThreshold b0 /\
  ((name (mach (stateOf b u)) = StateClosed /\ ~ consecutive_faults thr os /\
    exists n, trailing os n /\ (n < thr)%nat /\ failures (stateOf b u) = Z.of_nat n) \/
   (name (mach (stateOf b u)) = StateOpen /\ t0 <= openedAt (mach (stateOf b u)) /\
    consecutive_faults thr os)).

Lemma report_closed (thr t : Z) (o : Outcome) (s : state) :
  0 < thr <= max_int64 -> name (mach s) = StateClosed -> 0 <= failures s < thr ->
  let s' := (report_state thr t t None o s).1 in
  let f := if healthy o then 0 else failures s + Z.of_nat (faults [o]) in
  if decide (thr <= f)
  then name (mach s') = StateOpen /\ openedAt (mach s') = t
  else name (mach s') = StateClosed /\ failures s' = f.
Proof.
  intros Hthr Hc Hf. destruct s as [[i n ot pr] f]; simpl in *; subst n.
  assert (wrap64 (f + 1) = f + 1) as Hw
    by (apply wrap64_id; unfold in_int64, min_int64; lia).
  unfold report_state, faults; simpl.
  destruct o; simpl; try (rewrite decide_False by lia; simpl; (split; [done|lia])).
  rewrite Hw. case_decide.
  - rewrite decide_True by lia. done.
  - rewrite decide_False by lia. done.
Qed.

Lemma tracks_step (t0 t : Z) (b0 b : Registry) (u : string) (os : list Outcome) (o : Outcome) :
  reg_wf b0 -> min_int64 < cooldown (gov b0) -> t0 <= t < t0 + cooldown (gov b0) ->
  tracks t0 b0 b u os -> tracks t0 b0 (exchange u b (t, o)) u (os ++ [o]).
Proof.
  intros Hb0 Hcd Ht (Hg & Hthr & Hcase). pose proof (wf_threshold b0 Hb0) as Hpos.
  destruct Hcase as [(Hc & Hno & n & Htr & Hn & Hf)|(Ho & Hat & Hyes)].
  - destruct (exchange_closed u b t o Hc) as (Hg' & Hthr' & Hst).
    pose proof (report_closed (failThreshold b) t o (stateOf b u)) as Hrep.
    rewrite <- Hst in Hrep. rewrite Hthr, Hf in Hrep.
    specialize (Hrep Hpos Hc ltac:(lia)). cbv zeta in Hrep.
    unfold tracks. rewrite Hg', Hthr'. split_and!; [done..|].
    rewrite (segment_iff_trailing _ n) by (done || lia).
    destruct (healthy o) eqn:Hh.
    + rewrite decide_False in Hrep by lia. destruct Hrep as [? ?]. left.
      split_and!; [done|by intros []|]. exists 0%nat.
      split_and!; [by apply trailing_healthy|lia|done].
    + case_decide; destruct Hrep as [Hnm Hval].
      * right. split_and!; [done|lia|done|lia].
      * left. split_and!; [done|lia|]. exists (n + faults [o])%nat.
        split_and!; [by apply trailing_unhealthy|lia|lia].
  - destruct (exchange_open u b t o Ho) as (Hg' & Hthr' & Hst).
    { rewrite Hg. apply sub_lt; lia. }
    unfold tracks. rewrite Hg', Hthr', Hst. split_and!; [done..|]. right.
    split_and!; [done..|]. apply segment_snoc; [lia|]. by left.
Qed.

Lemma tracks_run (t0 : Z) (b0 b : Registry) (u : string) (os0 : list Outcome)
    (calls : list (Z * Outcome)) :
  reg_wf b0 -> min_int64 < cooldown (gov b0) ->
  Forall (fun c => t0 <= c.1 < t0 + cooldown (gov b0)) calls ->
  tracks t0 b0 b u os0 -> tracks t0 b0 (run u b calls) u (os0 ++ calls.*2).
Proof.
  intros Hb0 Hcd. revert b os0.
  induction calls as [|[t o] calls IH]; intros b os0 Hall Htr.
  - by rewrite app_nil_r.
  - inv Hall. rewrite fmap_cons, cons_middle, app_assoc.
    apply (IH (exchange u b (t, o))); [done|]. by apply tracks_step.
Qed.
End ConsecutiveRun.

(** ** The properties of the consecutive breaker *)
Module ConsecutiveProps.
Import Machine Consecutive ConsecutiveSpec ConsecutiveFacts FaultRuns ConsecutiveRun.

(** C11. Whatever sequence of [Allow], [StateOf], [Reset] and [Report] calls
    the gateway makes, at whatever clock readings: a half-open breaker with
    an outstanding probe has exactly one permission able to report it, and
    until the probe's deadline every other call is denied without touching
    the registry. *)
Theorem half_open_exclusive (cfg : Config) (b : Registry) (u : string)
    (s : state) (g : probeGrant) :
  cfg_FailThreshold cfg <= max_int64 ->
  reachable cfg b ->
  byUpstream b !! u = Some s -> probe (mach s) = Some g ->
  name (mach s) = StateHalfOpen /\
  (exists p, owns b u g p /\ forall q, owns b u g q -> q = p) /\
  (forall now, now <= deadline g -> Allow now u b = (b, None)).
Proof.
  intros Hcfg Hr Hs Hg. pose proof (reachable_wf cfg b Hcfg Hr) as Hb.
  destruct (wf_states b Hb u s Hs) as [_ Hwf _ _].
  assert (name (mach s) = StateHalfOpen) as Hh.
  { destruct (decide (name (mach s) = StateHalfOpen)) as [|Hne]; [done|].
    rewrite (Hwf Hne) in Hg. done. }
  split_and!; [done| |].
  - exists (pg_ptr g). split; [by eapply wf_owner|].
    intros q (prm & Hq & _ & Hgr & _). symmetry. by apply (wf_perms b Hb q prm Hq).
  - intros now Hnow. apply (Allow_denied_id _ _ _ s); [done|].
    unfold allow. rewrite Hh, Hg. unfold after.
    by replace (deadline g <? now) with false by lia.
Qed.

(** The trip rule.  Starting from a closed breaker with a clean count,
    any sequence of granted-and-reported calls inside one cooldown window
    leaves the breaker open exactly when the outcomes contain
    [failThreshold] consecutive server faults (gateway cuts neither count
    nor interrupt), and closed otherwise. *)
Theorem trips_iff_consecutive_faults (b : Registry) (u : string) (t0 : Z)
    (calls : list (Z * Outcome)) :
  reg_wf b ->
  name (mach (stateOf b u)) = StateClosed -> failures (stateOf b u) = 0 ->
  Forall (fun c => t0 <= c.1 < t0 + cooldown (gov b)) calls ->
  let s' := stateOf (run u b calls) u in
  (name (mach s') = StateOpen <->
     consecutive_faults (Z.to_nat (failThreshold b)) calls.*2) /\
  (name (mach s') = StateClosed <->
     ~ consecutive_faults (Z.to_nat (failThreshold b)) calls.*2).
Proof.
  intros Hb Hc Hf Hall. pose proof (wf_threshold b Hb). pose proof (wf_cooldown b Hb).
  assert (tracks t0 b b u []) as Htr0.
  { split_and!; [done..|]. left. split_and!; [done| |].
    - intros (pre & seg & post & E & _ & Hn). symmetry in E.
      apply app_eq_nil in E as [_ E]. apply app_eq_nil in E as [-> _].
      unfold faults in Hn; simpl in Hn. lia.
    - exists 0%nat. split_and!; [apply trailing_nil|lia|done]. }
  destruct (tracks_run t0 b b u [] calls Hb ltac:(unfold min_int64; lia) Hall Htr0)
    as (_ & _ & [(Hn & Hno & _)|(Hn & _ & Hyes)]); cbv zeta; rewrite Hn; naive_solver.
Qed.
(** The probe's verdict.  Once the cooldown of an open breaker has
    elapsed the next call is admitted as the probe; a healthy answer inside
    the probe window closes the breaker with a clean count, a server fault
    re-opens it stamped at the report, and a gateway cut or a report past
    the deadline re-opens it stamped at the observation, whatever the
    outcome says. *)
Theorem probe_verdict (b : Registry) (u : string) (t t' clock : Z) (o : Outcome) :
  reg_wf b ->
  name (mach (stateOf b u)) = StateOpen ->
  cooldown (gov b) <= max_int64 ->
  cooldown (gov b) <= t - openedAt (mach (stateOf b u)) ->
  exists b1 p, Allow t u b = (b1, Some p) /\
    name (mach (stateOf b1 u)) = StateHalfOpen /\
    let s := stateOf (Report t' clock p o b1) u in
    let late := (t + probeTimeout (gov b) < t') in
    probe (mach s) = None /\
    (healthy o = true -> ~ late -> name (mach s) = StateClosed /\ failures s = 0) /\
    (o = OutcomeServerFault -> ~ late ->
       name (mach s) = StateOpen /\ openedAt (mach s) = clock) /\
    (o = OutcomeGatewayTerminated \/ late ->
       name (mach s) = StateOpen /\ openedAt (mach s) = t').
Proof.
  intros Hb Ho Hmax Hcd.
  unfold Allow, allow. rewrite Ho, decide_False
    by (pose proof (sub_ge t _ _ Hmax Hcd); lia).
  destruct (stateOf b u) as [[i n ot pr] f] eqn:Hst; simpl in Ho; subst n.
  simpl. eexists _, _. split; [reflexivity|].
  unfold Report; simpl. rewrite lookup_insert_eq; simpl.
  unfold stateOf; simpl. rewrite lookup_insert_eq; simpl. split; [done|].
  unfold report_state, owns_probe; simpl. rewrite decide_True by done.
  unfold after, add.
  destruct o; simpl; destruct (Z.ltb_spec (t + probeTimeout (gov b)) t'); simpl;
    rewrite lookup_insert_eq; simpl; (split_and!; [done|..]); intros; naive_solver lia.
Qed.

(** An abandoned probe costs the slot its timeout and nothing more: any
    read after the deadline re-opens the breaker, the late holder's report
    is then absorbed, and one cooldown later a new probe is admitted. *)
Theorem abandoned_probe_reclaimed (b : Registry) (u : string) (s : state)
    (g : probeGrant) (now : Z) :
  reg_wf b -> cooldown (gov b) <= max_int64 ->
  byUpstream b !! u = Some s -> probe (mach s) = Some g -> deadline g < now ->
  exists b', StateOf now u b = (b', StateOpen) /\
    openedAt (mach (stateOf b' u)) = now /\
    (forall t clock o, stateOf (Report t clock (pg_ptr g) o b') u = stateOf b' u) /\
    (forall t, t < now + cooldown (gov b) -> (Allow t u b').2 = None) /\
    (forall t, now + cooldown (gov b) <= t -> is_Some (Allow t u b').2).
Proof.
  intros Hb Hmax Hs Hg Hlate. pose proof (wf_cooldown b Hb) as Hcd.
  destruct (wf_states b Hb u s Hs) as [_ Hwf _ _].
  destruct (wf_owner b Hb u s g Hs Hg) as (prm & Hp & Hu & Hgr & Hrep).
  destruct s as [[i n ot pr] f]; simpl in *; subst pr.
  assert (n = StateHalfOpen) as -> by (destruct n; [by specialize (Hwf ltac:(done))..|done]).
  unfold StateOf. rewrite (stateOf_lookup b u _ Hs). unfold observe; simpl.
  unfold after. replace (deadline g <? now) with true by lia. simpl.
  eexists. split; [reflexivity|].
  assert (forall tr ps nx ob, stateOf (mkRegistry (gov b) (failThreshold b)
    (<[u := mkState (mkMachine i StateOpen now None) f]> (byUpstream b)) ps nx (ob ++ tr)) u
    = mkState (mkMachine i StateOpen now None) f) as Hst
    by (intros; unfold stateOf; simpl; by rewrite lookup_insert_eq).
  unfold put; simpl. split_and!.
  - by rewrite Hst.
  - intros t clock o. unfold Report; simpl. rewrite Hp, Hrep, Hu. rewrite Hst. simpl.
    unfold stateOf; simpl. by rewrite lookup_insert_eq.
  - intros t Ht. unfold Allow. rewrite Hst. unfold allow; simpl.
    rewrite decide_True by (apply sub_lt; unfold min_int64; lia). done.
  - intros t Ht. unfold Allow. rewrite Hst. unfold allow; simpl.
    rewrite decide_False by (pose proof (sub_ge t now _ Hmax); lia). simpl. eauto.
Qed.

(** The transition observer is told the truth: in every reachable
    registry the moves reported for an upstream start at closed, follow one
    another, are all legal moves of the three-state machine (half-open is
    entered only from open, closed never moves to half-open) and end at the
    position the registry holds. *)
Theorem observed_moves_lead_to_state (cfg : Config) (b : Registry) (u : string) :
  cfg_FailThreshold cfg <= max_int64 -> reachable cfg b ->
  chain StateClosed (log_of u (observed b)) (name (mach (stateOf b u))) /\
  0 <= failures (stateOf b u) <= failThreshold b.
Proof.
  intros Hcfg Hr. pose proof (reachable_wf cfg b Hcfg Hr) as Hb.
  split; [apply (wf_log b Hb)|]. apply (stateOf_wf b u Hb).
Qed.

(** *** Witnesses: a threshold of two, a ten second cooldown *)
Definition cfg2 : Config := mkConfig 2 (10 * second) (5 * second).
Definition fault (t : Z) : Z * Outcome := (t, OutcomeServerFault).
Definition tripped : Registry := run "a" (NewRegistry cfg2) [fault 1; fault 2].
Definition probing : Registry := (Allow (11 * second) "a" tripped).1.

Lemma reachable_exchange (cfg : Config) (u : string) (b : Registry) (c : Z * Outcome) :
  reachable cfg b -> reachable cfg (exchange u b c).
Proof.
  intros Hr. unfold exchange. pose proof (step_allow b c.1 u) as Hs.
  destruct (Allow c.1 u b) as [b' [p|]]; simpl in Hs; [|by eapply rtc_r].
  eapply rtc_r; [by eapply rtc_r|]. apply step_report.
Qed.

Lemma reachable_probing : reachable cfg2 probing.
Proof.
  eapply rtc_r; [|apply step_allow]. unfold tripped, run; simpl.
  do 2 apply reachable_exchange. constructor.
Qed.

Lemma probing_wf : reg_wf probing.
Proof. apply (reachable_wf cfg2); [done|apply reachable_probing]. Qed.

Lemma tripped_wf : reg_wf tripped.
Proof.
  apply (reachable_wf cfg2); [done|]. unfold tripped, run; simpl.
  do 2 apply reachable_exchange. constructor.
Qed.

Definition probing_state : state :=
  mkState (mkMachine "a" StateHalfOpen 2 (Some (ProbeGrant 2 (16 * second)))) 2.

Lemma half_open_exclusive_witness :
  exists p, owns probing "a" (ProbeGrant 2 (16 * second)) p.
Proof.
  destruct (half_open_exclusive cfg2 probing "a" probing_state
              (ProbeGrant 2 (16 * second))) as (_ & (p & Hp & _) & _);
    [done|apply reachable_probing|vm_compute; reflexivity|reflexivity|by exists p].
Defined.

Lemma trips_iff_consecutive_faults_witness :
  name (mach (stateOf (run "a" (NewRegistry cfg2) [fault 1; fault 2]) "a")) = StateOpen.
Proof.
  destruct (trips_iff_consecutive_faults (NewRegistry cfg2) "a" 0 [fault 1; fault 2])
    as [[_ H] _];
    [by apply NewRegistry_wf|reflexivity|reflexivity|repeat constructor; simpl; lia|].
  apply H. exists [], [OutcomeServerFault; OutcomeServerFault], [].
  split_and!; [reflexivity|by repeat constructor|reflexivity].
Defined.

Lemma probe_verdict_witness :
  exists b1 p, Allow (11 * second) "a" tripped = (b1, Some p) /\
    name (mach (stateOf (Report (12 * second) (12 * second) p OutcomeSuccess b1) "a"))
    = StateClosed.
Proof.
  destruct (probe_verdict tripped "a" (11 * second) (12 * second) (12 * second)
              OutcomeSuccess) as (b1 & p & HA & _ & _ & Hok & _);
    [apply tripped_wf|reflexivity|vm_compute; discriminate|vm_compute; discriminate|].
  exists b1, p. split; [done|]. apply Hok; [done|vm_compute; intros ?; done].
Defined.

Lemma abandoned_probe_reclaimed_witness :
  exists b', StateOf (17 * second) "a" probing = (b', StateOpen).
Proof.
  destruct (abandoned_probe_reclaimed probing "a" probing_state
              (ProbeGrant 2 (16 * second)) (17 * second)) as (b' & Hb & _);
    [apply probing_wf|vm_compute; discriminate|vm_compute; reflexivity|reflexivity
    |reflexivity|by exists b'].
Defined.

Lemma observed_moves_lead_to_state_witness :
  chain StateClosed [("a"%string, StateClosed, StateOpen); ("a"%string, StateOpen, StateHalfOpen)]
    StateHalfOpen.
Proof.
  destruct (observed_moves_lead_to_state cfg2 probing "a") as [H _];
    [done|apply reachable_probing|exact H].
Defined.
End ConsecutiveProps.
