(* ===== verification/Window.v ===== *)
(** * Window: the rolling window both windowed breakers keep

    [src/internal/circuit/slow.go] ([record], [share]) and [ratio.go]
    ([roll], [history]) keep the same ring: forty buckets of 250 ms, an
    offset and the start of the newest bucket.  The ring is modelled once,
    over an arbitrary bucket type, and both files instantiate it.

    The abstract specification is a log of events stamped with the ring's
    ticks: [repr] says every bucket holds exactly its tick's events, and a
    live read returns the buckets of the last forty ticks, oldest first. *)
From Stdlib Require Import ZArith Lia.
From stdpp Require Import base list numbers.
From S2P Require Import Prelude.
Import GoInt GoTime.

Local Open Scope Z_scope.

(** Replace every [a mod n] of the goal and context by its quotient equation. *)
Ltac nat_mods :=
  repeat match goal with
  | |- context [(?a mod ?n)%nat] =>
      let q := fresh "q" in let r := fresh "r" in
      pose proof (Nat.div_mod_eq a n);
      pose proof (Nat.mod_upper_bound a n ltac:(lia));
      set (r := (a mod n)%nat) in *; set (q := (a / n)%nat) in *; clearbody q r
  | H : context [(?a mod ?n)%nat] |- _ =>
      let q := fresh "q" in let r := fresh "r" in
      pose proof (Nat.div_mod_eq a n);
      pose proof (Nat.mod_upper_bound a n ltac:(lia));
      set (r := (a mod n)%nat) in *; set (q := (a / n)%nat) in *; clearbody q r
  end.

Definition nbuckets : nat := 40.
Definition bucketSpan : Z := 250 * millisecond.

Record ring (B : Type) := mkRing {
  buckets : list B;
  offset : nat;
  lastWrite : Z
}.
Arguments mkRing {B}.
Arguments buckets {B}.
Arguments offset {B}.
Arguments lastWrite {B}.

Section Ring.
Context {B : Type} (empty : B).

Definition new_ring (now : Z) : ring B := mkRing (replicate nbuckets empty) 0 now.

(** [for i := 1; i <= span; i++ { buckets[(offset+i)%n] = empty }] *)
Definition clear (bs : list B) (off span : nat) : list B :=
  foldl (fun bs i => <[(off + i) mod nbuckets := empty]> bs)%nat bs (seq 1 span).

(** Advance the ring to [now]. *)
Definition roll (now : Z) (r : ring B) : ring B :=
  let elapsed := sub now (lastWrite r) in
  if decide (elapsed <= 0) then r
  else
    let span := Z.quot elapsed bucketSpan in
    let span := if decide (span > Z.of_nat nbuckets) then Z.of_nat nbuckets else span in
    mkRing (clear (buckets r) (offset r) (Z.to_nat span))
           ((offset r + Z.to_nat span) mod nbuckets)
           (add (lastWrite r) (span * bucketSpan)).

(** The current bucket is updated in place. *)
Definition bump (f : B -> B) (r : ring B) : ring B :=
  mkRing (alter f (offset r) (buckets r)) (offset r) (lastWrite r).

(** The live buckets of a read at [now], oldest first. *)
Definition live (now : Z) (r : ring B) : list B :=
  let span := Z.quot (sub now (lastWrite r)) bucketSpan in
  let span := if decide (span < 0) then 0 else span in
  let diff := Z.of_nat nbuckets - span in
  if decide (diff <= 0) then []
  else
    let start := ((offset r + Z.to_nat span + 1) mod nbuckets)%nat in
    (fun i => default empty (buckets r !! ((start + i) mod nbuckets)%nat))
      <$> seq 0 (Z.to_nat diff).

(** ** The specification: a log of events stamped with ticks *)
Context {E : Type} (apply : E -> B -> B).

Definition bucket_of (log : list (Z * E)) (k : Z) : B :=
  foldr (fun te b => if decide (te.1 = k) then apply te.2 b else b) empty log.

Definition slot (off j : nat) : nat := ((off + nbuckets - j) mod nbuckets)%nat.

(** The ring whose newest bucket is tick [T], counted from [base]. *)
Record repr (base : Z) (r : ring B) (T : Z) (log : list (Z * E)) : Prop := {
  rp_length : length (buckets r) = nbuckets;
  rp_offset : (offset r < nbuckets)%nat;
  rp_write : lastWrite r = base + T * bucketSpan;
  rp_past : Forall (fun te => te.1 <= T) log;
  rp_bucket : forall j, (j < nbuckets)%nat ->
    buckets r !! slot (offset r) j = Some (bucket_of log (T - Z.of_nat j))
}.

Definition tick (base now : Z) : Z := (now - base) / bucketSpan.

(** *** Lemmas *)
Lemma clear_length (bs : list B) (off span : nat) :
  length (clear bs off span) = length bs.
Proof.
  unfold clear. induction span as [|span IH]; [done|].
  rewrite seq_S, foldl_app. simpl. by rewrite length_insert.
Qed.

Lemma clear_snoc (bs : list B) (off span : nat) :
  clear bs off (S span) = <[((off + S span) mod nbuckets)%nat := empty]> (clear bs off span).
Proof. unfold clear. by rewrite seq_S, foldl_app. Qed.

Lemma clear_hit (bs : list B) (off span i : nat) :
  length bs = nbuckets -> (1 <= i <= span)%nat ->
  clear bs off span !! ((off + i) mod nbuckets)%nat = Some empty.
Proof.
  intros Hlen. induction span as [|span IH]; intros Hi; [lia|]. rewrite clear_snoc.
  destruct (decide ((off + S span) mod nbuckets = (off + i) mod nbuckets)%nat) as [->|Hne].
  - apply list_lookup_insert_eq. rewrite clear_length, Hlen. by apply Nat.mod_upper_bound.
  - rewrite list_lookup_insert_ne by done. apply IH.
    assert (i <> S span) by (by intros ->). lia.
Qed.

Lemma clear_miss (bs : list B) (off span k : nat) :
  (forall i, (1 <= i <= span)%nat -> ((off + i) mod nbuckets)%nat <> k) ->
  clear bs off span !! k = bs !! k.
Proof.
  induction span as [|span IH]; intros Hi; [done|]. rewrite clear_snoc.
  rewrite list_lookup_insert_ne by (apply Hi; lia). apply IH. intros. apply Hi. lia.
Qed.

Lemma slot_lt (off j : nat) : (slot off j < nbuckets)%nat.
Proof. by apply Nat.mod_upper_bound. Qed.

(** Moving the cursor by [s] slots renames slot [j] to [j - s]; the slots it
    passes are the cleared ones. *)
Lemma slot_moved_new (off s j : nat) :
  (off < nbuckets)%nat -> (s <= nbuckets)%nat -> (j < s)%nat -> (j < nbuckets)%nat ->
  slot ((off + s) mod nbuckets) j = ((off + (s - j)) mod nbuckets)%nat.
Proof. unfold slot, nbuckets. intros. nat_mods; lia. Qed.

Lemma slot_moved_old (off s j : nat) :
  (off < nbuckets)%nat -> (s <= j)%nat -> (j < nbuckets)%nat ->
  slot ((off + s) mod nbuckets) j = slot off (j - s).
Proof. unfold slot, nbuckets. intros. nat_mods; lia. Qed.

Lemma slot_not_cleared (off s j i : nat) :
  (off < nbuckets)%nat -> (s <= j)%nat -> (j < nbuckets)%nat -> (1 <= i <= s)%nat ->
  ((off + i) mod nbuckets)%nat <> slot off (j - s).
Proof. unfold slot, nbuckets. intros. nat_mods; lia. Qed.

Lemma slot_inj (off i j : nat) :
  (off < nbuckets)%nat -> (i < nbuckets)%nat -> (j < nbuckets)%nat ->
  slot off i = slot off j -> i = j.
Proof. unfold slot, nbuckets. intros. nat_mods; lia. Qed.

Lemma slot_zero (off : nat) : (off < nbuckets)%nat -> slot off 0 = off.
Proof. unfold slot, nbuckets. intros. nat_mods; lia. Qed.

Lemma slot_read (off s i : nat) :
  (off < nbuckets)%nat -> (s + i < nbuckets)%nat ->
  (((off + s + 1) mod nbuckets + i) mod nbuckets)%nat = slot off (nbuckets - 1 - s - i).
Proof. unfold slot, nbuckets. intros. nat_mods; lia. Qed.

Lemma bucket_of_cons (log : list (Z * E)) (t k : Z) (e : E) :
  bucket_of ((t, e) :: log) k
  = if decide (t = k) then apply e (bucket_of log k) else bucket_of log k.
Proof. done. Qed.

Lemma bucket_of_future (log : list (Z * E)) (T k : Z) :
  Forall (fun te => te.1 <= T) log -> T < k -> bucket_of log k = empty.
Proof.
  intros Hall Hk. induction Hall as [|te log Hte _ IH]; [done|].
  simpl. rewrite decide_False by lia. done.
Qed.

Lemma span_nonneg : 0 < bucketSpan.
Proof. done. Qed.

Lemma new_ring_repr (now : Z) : repr now (new_ring now) 0 [].
Proof.
  split; cbn [new_ring buckets offset lastWrite];
    [apply length_replicate|unfold nbuckets; lia|lia|constructor|].
  intros j Hj. apply lookup_replicate_2, slot_lt.
Qed.

(** Exact elapsed time inside the window: the saturating difference is the
    true one and truncation is the floor. *)
Lemma elapsed_ticks (base T now : Z) :
  base + T * bucketSpan <= now -> now - (base + T * bucketSpan) <= max_int64 ->
  Z.quot (sub now (base + T * bucketSpan)) bucketSpan = tick base now - T /\
  0 <= tick base now - T.
Proof.
  intros Hle Hmax. rewrite sub_exact by (unfold in_int64, min_int64; lia).
  unfold tick. rewrite Z.quot_div_nonneg by (done || lia).
  replace (now - (base + T * bucketSpan)) with (now - base + (- T) * bucketSpan) by lia.
  rewrite Z.div_add by done. split; [lia|].
  assert (T <= (now - base) / bucketSpan); [|lia].
  apply Z.div_le_lower_bound; [done|lia].
Qed.

Lemma roll_repr (base now T : Z) (r : ring B) (log : list (Z * E)) :
  repr base r T log -> lastWrite r <= now -> now - lastWrite r <= max_int64 ->
  tick base now - T <= Z.of_nat nbuckets ->
  repr base (roll now r) (tick base now) log.
Proof.
  intros [Hlen Hoff Hw Hpast Hb] Hle Hmax Hgap. rewrite Hw in Hle, Hmax.
  destruct (elapsed_ticks base T now Hle Hmax) as [Hq Hpos].
  unfold roll. rewrite Hw. set (s := tick base now - T) in *.
  assert (sub now (base + T * bucketSpan) = now - (base + T * bucketSpan)) as Hs
    by (apply sub_exact; unfold in_int64, min_int64; lia).
  case_decide as He.
  - assert (tick base now = T) as ->; [|by split].
    unfold tick. replace (now - base) with (T * bucketSpan) by lia.
    by rewrite Z.div_mul.
  - rewrite Hq, decide_False by lia.
    assert (Z.to_nat s <= nbuckets)%nat as Hsn by lia.
    split; cbn [buckets offset lastWrite].
    + by rewrite clear_length.
    + by apply Nat.mod_upper_bound.
    + unfold add. lia.
    + eapply Forall_impl; [|exact Hpast]. simpl. lia.
    + intros j Hj. destruct (decide (j < Z.to_nat s)%nat) as [Hnew|Hold].
      * rewrite slot_moved_new by done. rewrite clear_hit by (done || lia).
        rewrite (bucket_of_future log T) by (done || lia). done.
      * rewrite slot_moved_old by (done || lia).
        rewrite clear_miss by (intros; apply slot_not_cleared; (done || lia)).
        rewrite Hb by lia. do 2 f_equal. lia.
Qed.

Lemma bump_repr (base T : Z) (r : ring B) (log : list (Z * E)) (e : E) :
  repr base r T log -> repr base (bump (apply e) r) T ((T, e) :: log).
Proof.
  intros [Hlen Hoff Hw Hpast Hb]. split; cbn [bump buckets offset lastWrite].
  - by rewrite length_alter.
  - done.
  - done.
  - constructor; [simpl; lia|done].
  - intros j Hj. destruct (decide (j = 0%nat)) as [->|Hj0].
    + pose proof (Hb 0%nat Hj) as H0. rewrite slot_zero in H0 |- * by done.
      rewrite list_lookup_alter_eq, H0, bucket_of_cons. cbn [fmap option_fmap option_map].
      by rewrite decide_True by lia.
    + rewrite list_lookup_alter_ne.
      * rewrite Hb by done. rewrite bucket_of_cons. by rewrite decide_False by lia.
      * rewrite <- (slot_zero (offset r) Hoff) at 1. intros Heq.
        apply slot_inj in Heq; (done || lia).
Qed.

(** A read returns the buckets of the ticks from [tick now - 39] to the
    newest written one, oldest first. *)
Definition window_ticks (now_tick T : Z) : list Z :=
  seqZ (now_tick - Z.of_nat nbuckets + 1) (T + Z.of_nat nbuckets - now_tick).

Lemma live_repr (base now T : Z) (r : ring B) (log : list (Z * E)) :
  repr base r T log -> lastWrite r <= now -> now - lastWrite r <= max_int64 ->
  live now r = bucket_of log <$> window_ticks (tick base now) T.
Proof.
  intros [Hlen Hoff Hw Hpast Hb] Hle Hmax. rewrite Hw in Hle, Hmax.
  destruct (elapsed_ticks base T now Hle Hmax) as [Hq Hpos].
  unfold live, window_ticks. rewrite Hw, Hq, (decide_False (P := tick base now - T < 0)) by lia.
  case_decide as Hd.
  - rewrite seqZ_nil by lia. done.
  - unfold seqZ. rewrite <- list_fmap_compose.
    replace (Z.to_nat (T + Z.of_nat nbuckets - tick base now))
      with (Z.to_nat (Z.of_nat nbuckets - (tick base now - T))) by lia.
    apply list_fmap_ext. intros k i Hi. apply lookup_seq in Hi as [-> Hi].
    unfold compose. rewrite Nat.add_0_l, slot_read by (done || lia).
    rewrite Hb by (unfold nbuckets in *; lia). simpl. f_equal.
    unfold nbuckets in *. lia.
Qed.

(** *** The stale cursor

    [roll] advances the start of the newest bucket by at most the forty
    buckets it clears: after a longer idle gap the cursor is left behind,
    and a read at the same instant finds the whole window expired. *)
Lemma roll_behind (now : Z) (r : ring B) :
  let window := Z.of_nat nbuckets * bucketSpan in
  window <= now - lastWrite r ->
  lastWrite (roll now r) = lastWrite r + window.
Proof.
  intros window Hgap. unfold roll.
  assert (window <= sub now (lastWrite r)) as Hs by (by apply sub_ge).
  rewrite decide_False by (unfold window, bucketSpan, nbuckets, millisecond in *; lia).
  assert (Z.of_nat nbuckets <= Z.quot (sub now (lastWrite r)) bucketSpan).
  { rewrite Z.quot_div_nonneg by (done || (unfold window, bucketSpan, nbuckets, millisecond in *; lia)).
    apply Z.div_le_lower_bound; [done|]. unfold window in Hs. lia. }
  simpl. unfold add, window. case_decide; [done|].
  replace (Z.quot (sub now (lastWrite r)) bucketSpan) with (Z.of_nat nbuckets) by lia. done.
Qed.

Lemma live_behind (now : Z) (r : ring B) :
  Z.of_nat nbuckets * bucketSpan <= now - lastWrite r -> live now r = [].
Proof.
  intros Hgap. unfold live.
  pose proof (sub_ge now (lastWrite r) (Z.of_nat nbuckets * bucketSpan) ltac:(done) Hgap) as Hs.
  assert (Z.of_nat nbuckets <= Z.quot (sub now (lastWrite r)) bucketSpan).
  { rewrite Z.quot_div_nonneg by (done || (unfold bucketSpan, nbuckets, millisecond in *; lia)).
    apply Z.div_le_lower_bound; [done|]. lia. }
  rewrite (decide_False (P := _ < 0)) by lia. by rewrite decide_True by lia.
Qed.
End Ring.
