(* ===== verification/CircuitSlow.v ===== *)
(** * CircuitSlow: the slow-call-share registry

    Models [src/internal/circuit/slow.go]: the machine of [Circuit] opened by
    the share of slow completions in the rolling window of [Window].  As in
    [Circuit], permissions live in a heap and probe grants carry their
    address.  [clock] is the reading [stateOf] takes when it creates an
    upstream's state; [now] is the operation's own reading. *)
From Stdlib Require Import QArith Lqa.
From stdpp Require Import base gmap strings list.
From S2P Require Import Prelude Float64 Circuit Window.
Import GoInt GoTime Machine.

Local Open Scope Z_scope.

Module Slow.
Record slowBucket := mkSlowBucket { total : Z; slow : Z }.
Definition no_completions : slowBucket := mkSlowBucket 0 0.

Definition slowMinSamples : Z := 10.
Definition defaultSlowRatio : Q := 1 # 2.

Record slowState := mkSlowState { mach : machine; window : ring slowBucket }.

Record slowPermission := mkSlowPermission {
  p_st : string;
  p_grant : option probeGrant;
  p_reported : bool
}.

Record SlowRegistry := mkSlowRegistry {
  gov : governor;
  slowRatio : Q;
  byUpstream : gmap string slowState;
  perms : gmap nat slowPermission;
  next : nat;
  observed : list transition
}.

(** [cooldown] and [probeTimeout] fall back to the shared defaults, the
    ratio to one half outside (0, 1]. *)
Definition NewSlowRegistry (cd pt : Z) (ratio : Q) : SlowRegistry :=
  let ratio := if Qle_bool ratio 0 || negb (Qle_bool ratio 1)
               then defaultSlowRatio else ratio in
  let cd := if decide (cd <= 0) then Consecutive.defaultCooldown else cd in
  let pt := if decide (pt <= 0) then Consecutive.defaultProbeTimeout else pt in
  mkSlowRegistry (Governor cd pt) ratio ∅ ∅ 0 [].

Definition stateOf (clock : Z) (u : string) (s : SlowRegistry) : slowState :=
  default (mkSlowState (mkMachine u StateClosed 0 None) (new_ring no_completions clock))
          (byUpstream s !! u).

Definition put (s : SlowRegistry) (u : string) (st : slowState)
    (tr : list transition) : SlowRegistry :=
  mkSlowRegistry (gov s) (slowRatio s) (<[u := st]> (byUpstream s)) (perms s) (next s)
    (observed s ++ tr).

Definition clearWindow (st : slowState) : slowState :=
  mkSlowState (mach st)
    (mkRing (replicate nbuckets no_completions) (offset (window st)) (lastWrite (window st))).

(** One completion into the current bucket. *)
Definition complete (is_slow : bool) (b : slowBucket) : slowBucket :=
  mkSlowBucket (total b + 1) (if is_slow then slow b + 1 else slow b).

Definition record (now : Z) (is_slow : bool) (st : slowState) : slowState :=
  mkSlowState (mach st) (bump (complete is_slow) (roll no_completions now (window st))).

Definition share (now : Z) (st : slowState) : Z * Z :=
  foldl (fun acc b => (acc.1 + total b, acc.2 + slow b)) (0, 0)
    (live no_completions now (window st)).

Definition Allow (clock now : Z) (u : string) (s : SlowRegistry)
    : SlowRegistry * option nat :=
  let st := stateOf clock u s in
  let '(m, grant, tr) := allow (gov s) now (next s) (mach st) in
  let s' := put s u (mkSlowState m (window st)) tr in
  match grant with
  | None => (s', None)
  | Some gr =>
      (mkSlowRegistry (gov s') (slowRatio s') (byUpstream s')
         (<[next s := mkSlowPermission u gr false]> (perms s')) (S (next s)) (observed s'),
       Some (next s))
  end.

Definition StateOf (clock now : Z) (u : string) (s : SlowRegistry)
    : SlowRegistry * State :=
  let st := stateOf clock u s in
  let '(m, state, tr) := observe (gov s) now (mach st) in
  (put s u (mkSlowState m (window st)) tr, state).

(** [enter] runs [clearWindow] only on a real move; [Reset] clears again. *)
Definition Reset (clock now : Z) (u : string) (s : SlowRegistry) : SlowRegistry :=
  let st := stateOf clock u s in
  let '(m, st, tr) := enter now (mach st) st StateClosed (Some clearWindow) in
  let w := window (clearWindow st) in
  put s u (mkSlowState m (mkRing (buckets w) (offset w) now)) tr.

Definition opens (ratio : Q) (counts : Z * Z) : bool :=
  if decide (fst counts >= slowMinSamples)
  then Qle_bool ratio (fdiv (fof_int (snd counts)) (fof_int (fst counts)))
  else false.

Definition report_state (ratio : Q) (now clock : Z) (grant : option probeGrant)
    (outcome : Outcome) (st : slowState) : slowState * list transition :=
  let m := mach st in
  match name m with
  | StateClosed =>
      match outcome with
      | OutcomeGatewayTerminated => (st, [])
      | _ =>
          let is_slow := bool_decide (outcome = OutcomeSlow \/ outcome = OutcomeServerFault) in
          let st := record now is_slow st in
          if opens ratio (share now st)
          then let '(m, w, tr) := enter clock m (window st) StateOpen None in
               (mkSlowState m w, tr)
          else (st, [])
      end
  | StateHalfOpen =>
      match Consecutive.owns_probe m grant with
      | None => (st, [])
      | Some pr =>
          if decide (outcome = OutcomeGatewayTerminated) then
            let '(m, tr) := reclaim clock m now in (mkSlowState m (window st), tr)
          else if after now (deadline pr) && negb (bool_decide (outcome = OutcomeServerFault))
          then let '(m, tr) := reclaim clock m now in (mkSlowState m (window st), tr)
          else
            let m := set_probe None m in
            if decide (outcome = OutcomeServerFault)
            then let '(m, _, tr) := enter clock m tt StateOpen None in
                 (mkSlowState m (window st), tr)
            else let '(m, st, tr) := enter clock m st StateClosed (Some clearWindow) in
                 (mkSlowState m (window st), tr)
      end
  | StateOpen => (st, [])
  end.

Definition Report (now clock : Z) (p : nat) (outcome : Outcome) (s : SlowRegistry)
    : SlowRegistry :=
  match perms s !! p with
  | None => s
  | Some perm =>
      if p_reported perm then s
      else
        let '(st, tr) :=
          report_state (slowRatio s) now clock (p_grant perm) outcome
            (stateOf now (p_st perm) s) in
        let s' := put s (p_st perm) st tr in
        mkSlowRegistry (gov s') (slowRatio s') (byUpstream s')
          (<[p := mkSlowPermission (p_st perm) (p_grant perm) true]> (perms s'))
          (next s') (observed s')
  end.

(** ** The reference: the log of completions *)

(** Completions of the last forty ticks, and the slow ones among them. *)
Definition in_window (now_tick : Z) (te : Z * bool) : Prop :=
  now_tick - Z.of_nat nbuckets < te.1 <= now_tick.
#[export] Instance in_window_dec (k : Z) (te : Z * bool) : Decision (in_window k te).
Proof. unfold in_window. apply _. Defined.

Definition completions (now_tick : Z) (log : list (Z * bool)) : Z :=
  Z.of_nat (length (filter (in_window now_tick) log)).
Definition slow_completions (now_tick : Z) (log : list (Z * bool)) : Z :=
  Z.of_nat (length (filter (fun te => in_window now_tick te /\ te.2 = true) log)).

(** The outcomes of a closed breaker reported at one instant. *)
Definition report_all (ratio : Q) (now : Z) (os : list Outcome) (st : slowState)
    : slowState :=
  foldl (fun st o => (report_state ratio now now None o st).1) st os.
End Slow.

Module SlowFacts.
Import Slow.

Lemma foldl_counts (bs : list slowBucket) (a b : Z) :
  foldl (fun acc b => (acc.1 + total b, acc.2 + slow b)) (a, b) bs
  = (a + foldr Z.add 0 (total <$> bs), b + foldr Z.add 0 (slow <$> bs)).
Proof.
  revert a b. induction bs as [|x bs IH]; intros a b; [simpl; f_equal; lia|].
  cbn [foldl fst snd]. rewrite IH, !fmap_cons. cbn [foldr]. f_equal; lia.
Qed.

(** Counting a log through its buckets. *)
Section Count.
Context (f : slowBucket -> Z) (P : Z * bool -> Prop) `{!forall te, Decision (P te)}.
Context (f_empty : f no_completions = 0).
Context (f_step : forall t e b,
  f (complete e b) = f b + (if decide (P (t, e)) then 1 else 0)).

#[local] Abbreviation bucket := (bucket_of no_completions complete).

Lemma f_bucket_cons (log : list (Z * bool)) (t k : Z) (e : bool) :
  f (bucket ((t, e) :: log) k)
  = f (bucket log k) + (if decide (t = k /\ P (t, e)) then 1 else 0).
Proof.
  rewrite bucket_of_cons. destruct (decide (t = k)) as [->|Hne].
  - rewrite (f_step k). repeat case_decide; try lia; naive_solver.
  - rewrite decide_False by naive_solver. lia.
Qed.

Lemma sum_zero (l : list Z) : foldr Z.add 0 ((fun _ => 0) <$> l) = 0.
Proof. induction l as [|x l IH]; [done|]. rewrite fmap_cons. exact IH. Qed.

Lemma sum_seqZ_indicator (a n t : Z) :
  foldr Z.add 0 ((fun k => if decide (t = k) then 1 else 0) <$> seqZ a n)
  = if decide (a <= t < a + n) then 1 else 0.
Proof.
  destruct (Z_le_gt_dec n 0) as [Hn|Hn].
  { rewrite seqZ_nil by lia. simpl. case_decide; lia. }
  remember (Z.to_nat n) as len eqn:E. revert a n Hn E.
  induction len as [|len IH]; intros a n Hn E; [lia|].
  rewrite seqZ_cons by lia. rewrite fmap_cons. cbn [foldr].
  destruct (decide (Z.pred n <= 0)).
  - rewrite seqZ_nil by lia. simpl. repeat case_decide; lia.
  - rewrite IH by lia. repeat case_decide; lia.
Qed.

Lemma sum_seqZ_indicator_and (a n t : Z) (Q : Prop) `{!Decision Q} :
  foldr Z.add 0 ((fun k => if decide (t = k /\ Q) then 1 else 0) <$> seqZ a n)
  = if decide (a <= t < a + n /\ Q) then 1 else 0.
Proof.
  destruct (decide Q) as [HQ|HQ].
  - rewrite (list_fmap_ext _ (fun k => if decide (t = k) then 1 else 0))
      by (intros; apply decide_ext; tauto).
    rewrite sum_seqZ_indicator. apply decide_ext. tauto.
  - rewrite decide_False by tauto.
    rewrite (list_fmap_ext _ (fun _ => 0)) by (intros; by rewrite decide_False by tauto).
    apply sum_zero.
Qed.

Lemma sum_fmap_add (g h : Z -> Z) (l : list Z) :
  foldr Z.add 0 ((fun k => g k + h k) <$> l)
  = foldr Z.add 0 (g <$> l) + foldr Z.add 0 (h <$> l).
Proof. induction l as [|x l IH]; [done|]. rewrite !fmap_cons. cbn [foldr]. rewrite IH. lia. Qed.

Lemma sum_buckets (log : list (Z * bool)) (now_tick T : Z) :
  T <= now_tick -> Forall (fun te => te.1 <= T) log ->
  foldr Z.add 0 (f <$> (bucket log <$> window_ticks now_tick T))
  = Z.of_nat (length (filter (fun te => in_window now_tick te /\ P te) log)).
Proof.
  intros HT Hpast. rewrite <- list_fmap_compose. induction Hpast as [|[t e] log Ht _ IH].
  - rewrite (list_fmap_ext _ (fun _ => 0)) by (intros; apply f_empty). apply sum_zero.
  - assert (foldr Z.add 0 (f ∘ bucket ((t, e) :: log) <$> window_ticks now_tick T)
      = foldr Z.add 0 (f ∘ bucket log <$> window_ticks now_tick T)
        + (if decide (in_window now_tick (t, e) /\ P (t, e)) then 1 else 0)) as ->.
    { rewrite (list_fmap_ext _ (fun k => f (bucket log k)
        + (if decide (t = k /\ P (t, e)) then 1 else 0)))
        by (intros; apply f_bucket_cons).
      rewrite sum_fmap_add. f_equal. unfold window_ticks. rewrite sum_seqZ_indicator_and.
      apply decide_ext. unfold in_window; simpl in *.
      split; (intros [? ?]; split; [lia|done]). }
    rewrite IH. rewrite filter_cons. case_decide; simpl; lia.
Qed.
End Count.

Lemma share_log (base now T : Z) (st : slowState) (log : list (Z * bool)) :
  repr no_completions complete base (window st) T log ->
  lastWrite (window st) <= now -> now - lastWrite (window st) <= max_int64 ->
  share now st = (completions (tick base now) log, slow_completions (tick base now) log).
Proof.
  intros Hr Hle Hmax. unfold share. rewrite foldl_counts.
  rewrite (live_repr _ _ base now T _ log Hr Hle Hmax).
  assert (T <= tick base now) as HT.
  { rewrite (rp_write _ _ _ _ _ _ Hr) in Hle, Hmax.
    pose proof (elapsed_ticks base T now Hle Hmax). lia. }
  pose proof (rp_past _ _ _ _ _ _ Hr) as Hpast.
  rewrite (sum_buckets total (fun _ => True)) 
    by (first [done | intros; simpl; repeat case_decide; (done || lia)]).
  rewrite (sum_buckets slow (fun te => te.2 = true))
    by (first [done | intros ? [] ?; simpl; repeat case_decide; (done || lia)]).
  unfold completions, slow_completions. rewrite !Z.add_0_l. f_equal.
  do 2 f_equal. apply list_filter_iff. naive_solver.
Qed.
End SlowFacts.

Module SlowProps.
Import Slow SlowFacts.

Definition window_span : Z := Z.of_nat nbuckets * bucketSpan.

(** Whether an outcome is evidence of slowness. *)
Definition slow_evidence (o : Outcome) : bool :=
  bool_decide (o = OutcomeSlow \/ o = OutcomeServerFault).

(** The slow-call trip rule, against the log of completions.  While the
    ring is not left more than its ten-second span behind, it represents the
    log of reported completions exactly; a report on a closed breaker
    appends its completion and opens the breaker exactly when the last forty
    ticks hold at least ten completions whose slow share reaches the ratio,
    and a gateway cut changes nothing. *)
Theorem slow_trip_rule (ratio : Q) (base now clock T : Z) (gr : option probeGrant)
    (o : Outcome) (st : slowState) (log : list (Z * bool)) :
  name (mach st) = StateClosed ->
  repr no_completions complete base (window st) T log ->
  lastWrite (window st) <= now -> now - lastWrite (window st) <= max_int64 ->
  tick base now - T <= Z.of_nat nbuckets ->
  let st' := (report_state ratio now clock gr o st).1 in
  (o = OutcomeGatewayTerminated -> st' = st) /\
  (o <> OutcomeGatewayTerminated ->
     let k := tick base now in
     let log' := (k, slow_evidence o) :: log in
     repr no_completions complete base (window st') k log' /\
     (name (mach st') = StateOpen <->
        10 <= completions k log' /\
        (ratio <= fdiv (fof_int (slow_completions k log')) (fof_int (completions k log')))%Q) /\
     (name (mach st') = StateOpen \/ name (mach st') = StateClosed)).
Proof.
  intros Hc Hr Hle Hmax Hgap st'. unfold st', report_state. rewrite Hc.
  split; [by intros ->|]. intros Ho. cbv zeta. set (k := tick base now).
  set (log' := (k, slow_evidence o) :: log).
  pose proof (roll_repr _ _ base now T _ log Hr Hle Hmax Hgap) as Hroll.
  pose proof (bump_repr _ _ base k _ log (slow_evidence o) Hroll) as Hb.
  fold log' in Hb. set (st1 := record now (slow_evidence o) st).
  assert (share now st1 = (completions k log', slow_completions k log')) as Hs.
  { apply (share_log base now k); [exact Hb| |];
      pose proof (rp_write _ _ _ _ _ _ Hb) as Hw; simpl in Hw |- *; rewrite Hw;
      unfold k, tick; pose proof (Z.mod_pos_bound (now - base) bucketSpan ltac:(done));
      pose proof (Z.div_mod (now - base) bucketSpan ltac:(done));
      unfold bucketSpan, millisecond, max_int64 in *; lia. }
  assert (opens ratio (share now st1) = true <->
    10 <= completions k log' /\
    (ratio <= fdiv (fof_int (slow_completions k log')) (fof_int (completions k log')))%Q) as Hopen.
  { rewrite Hs. unfold opens, slowMinSamples; cbn [fst snd].
    case_decide; rewrite ?Qle_bool_iff; intuition (lia || done). }
  unfold slow_evidence in st1, Hopen. fold st1.
  assert (name (mach st1) = StateClosed) as Hc1 by done.
  destruct o; try done; fold st1; destruct (opens ratio (share now st1)) eqn:E;
    unfold enter; simpl; rewrite ?Hc; simpl; (split; [exact Hb|]);
    (split; [|auto]); rewrite <- Hopen; split; done.
Qed.

Lemma blind_step (ratio : Q) (now : Z) (o : Outcome) (st : slowState) :
  name (mach st) = StateClosed -> 2 * window_span <= now - lastWrite (window st) ->
  let st' := (report_state ratio now now None o st).1 in
  name (mach st') = StateClosed /\
  (lastWrite (window st') = lastWrite (window st) \/
   lastWrite (window st') = lastWrite (window st) + window_span).
Proof.
  intros Hc Hgap st'. unfold st', report_state. rewrite Hc.
  set (e := bool_decide _). set (st1 := record now e st).
  assert (lastWrite (window st1) = lastWrite (window st) + window_span) as Hw.
  { apply (roll_behind no_completions now (window st)).
    unfold window_span, bucketSpan, nbuckets, millisecond in *. lia. }
  assert (opens ratio (share now st1) = false) as E.
  { unfold share. rewrite live_behind; [done|]. rewrite Hw. unfold window_span in *. lia. }
  destruct o; fold st1; rewrite ?E; auto.
Qed.

(** The window is blind after an idle gap (the behaviour contradicts
    the contract that the breaker opens on the slow share of the window).
    The ring's cursor advances at most ten seconds per report, so on a
    closed breaker whose window was last written more than [n + 1] windows
    ago, none of the next [n] reports can open it - not even if all of them
    are server faults at the present instant. *)
Theorem slow_idle_blind (ratio : Q) (now : Z) (os : list Outcome) (st : slowState) :
  name (mach st) = StateClosed ->
  (Z.of_nat (length os) + 1) * window_span <= now - lastWrite (window st) ->
  name (mach (report_all ratio now os st)) = StateClosed.
Proof.
  revert st. induction os as [|o os IH]; intros st Hc Hgap; [done|].
  simpl length in Hgap. unfold report_all; simpl.
  destruct (blind_step ratio now o st Hc) as [Hc' Hw];
    [unfold window_span, bucketSpan, nbuckets, millisecond in *; lia|].
  apply IH; [done|].
  destruct Hw as [-> | ->]; unfold window_span, bucketSpan, nbuckets, millisecond in *; lia.
Qed.

Definition closed_at (t : Z) : slowState :=
  mkSlowState (mkMachine "a" StateClosed 0 None) (new_ring no_completions t).

(** An hour of silence, then three hundred server faults at once. *)
Lemma slow_idle_blind_witness :
  name (mach (report_all (1 # 2) (3600 * second) (replicate 300 OutcomeServerFault)
                (closed_at 0))) = StateClosed.
Proof.
  apply (slow_idle_blind (1 # 2) (3600 * second) (replicate 300 OutcomeServerFault)
           (closed_at 0)); [reflexivity|].
  rewrite length_replicate. vm_compute. discriminate.
Defined.

(** Ten faults at one instant in a fresh window do open it. *)
Lemma slow_trip_rule_witness :
  name (mach (report_all (1 # 2) second (replicate 10 OutcomeServerFault)
                (closed_at second))) = StateOpen /\
  (report_state (1 # 2) second second None OutcomeGatewayTerminated (closed_at second)).1
  = closed_at second.
Proof.
  split; [vm_compute; reflexivity|].
  destruct (slow_trip_rule (1 # 2) second second second 0 None OutcomeGatewayTerminated
              (closed_at second) []) as [H _];
    [reflexivity|apply new_ring_repr|simpl; lia|simpl; vm_compute; discriminate
    |vm_compute; discriminate|].
  by apply H.
Defined.
End SlowProps.
