(* ===== verification/CircuitRatio.v ===== *)
(** * CircuitRatio: the accept-ratio guard

    Models [src/internal/circuit/ratio.go]: the deny probability computed in
    [float64] from the rolling window of [Window], the forced pass, and the
    permissions that report into the window.  The uniform sampler is an
    argument: each [Allow] takes the draw it would read. *)
From Stdlib Require Import QArith Lqa.
From stdpp Require Import base gmap strings list.
From S2P Require Import Prelude Float64 Circuit Window.
Import GoInt GoTime.

Local Open Scope Z_scope.

Module Ratio.
Record ratioBucket := mkRatioBucket { success : Z; failure : Z; drop : Z }.
Definition no_events : ratioBucket := mkRatioBucket 0 0 0.

(** The constants, as the [float64] values the code computes with;
    [ratioK - ratioMinK] is one constant expression. *)
Definition ratioK : Q := 3 # 2.
Definition ratioMinK : Q := rnd (11 # 10).
Definition ratioKRange : Q := rnd (2 # 5).
Definition ratioProtection : Z := 5.
Definition ratioForcePass : Z := second.
Definition ratioBuckets : Z := Z.of_nat nbuckets.

Record ratioState := mkRatioState { window : ring ratioBucket; lastPass : Z }.

Record ratioHistory := mkHistory {
  total : Z;
  accepts : Z;
  failingBuckets : Z;
  workingBuckets : Z
}.

Record ratioPermission := mkRatioPermission { p_s : string; p_reported : bool }.

Record RatioRegistry := mkRatioRegistry {
  byUpstream : gmap string ratioState;
  perms : gmap nat ratioPermission;
  next : nat;
  denials : list string
}.

Definition NewRatioRegistry : RatioRegistry := mkRatioRegistry ∅ ∅ 0 [].

Definition stateOf (u : string) (now : Z) (r : RatioRegistry) : ratioState :=
  default (mkRatioState (new_ring no_events now) 0) (byUpstream r !! u).

(** One bucket's contribution, in the order the loop walks. *)
Definition observe_bucket (h : ratioHistory) (b : ratioBucket) : ratioHistory :=
  let total := total h + (success b + failure b + drop b) in
  let accepts := accepts h + success b in
  let working := if decide (failure b > 0) then 0
                 else if decide (success b > 0) then workingBuckets h + 1
                 else workingBuckets h in
  let failing := if decide (success b > 0) then 0
                 else if decide (failure b > 0) then failingBuckets h + 1
                 else failingBuckets h in
  mkHistory total accepts failing working.

Definition history (now : Z) (s : ratioState) : ratioHistory :=
  foldl observe_bucket (mkHistory 0 0 0 0) (live no_events now (window s)).

Definition events (ds df dd : Z) (b : ratioBucket) : ratioBucket :=
  mkRatioBucket (success b + ds) (failure b + df) (drop b + dd).

Definition add (now ds df dd : Z) (s : ratioState) : ratioState :=
  mkRatioState (bump (events ds df dd) (roll no_events now (window s))) (lastPass s).

Definition weight (h : ratioHistory) : Q :=
  fsub ratioK (fmul ratioKRange (fdiv (fof_int (failingBuckets h)) 40)).

Definition dropRatio (h : ratioHistory) : Q :=
  let weightedAccepts := fmul (fmax (weight h) ratioMinK) (fof_int (accepts h)) in
  fdiv (fsub (fof_int (total h - ratioProtection)) weightedAccepts)
       (fof_int (total h + 1)).

Definition dilution (h : ratioHistory) : Q :=
  fdiv (fof_int (ratioBuckets - workingBuckets h)) 40.

(** The decision of one [Allow] and the state it leaves: [None] denies. *)
Definition decide_call (now : Z) (draw : Q) (s : ratioState) : ratioState * bool :=
  let h := history now s in
  if Qle_bool (dropRatio h) 0 then (s, true)
  else if negb (is_zero (lastPass s))
          && bool_decide (sub now (lastPass s) >= ratioForcePass)
  then (mkRatioState (window s) now, true)
  else if negb (Qle_bool (fmul (dropRatio h) (dilution h)) draw)
  then (add now 0 0 1 s, false)
  else (mkRatioState (window s) now, true).

Definition Allow (now : Z) (draw : Q) (u : string) (r : RatioRegistry)
    : RatioRegistry * option nat :=
  let '(s, admitted) := decide_call now draw (stateOf u now r) in
  let m := <[u := s]> (byUpstream r) in
  if admitted
  then (mkRatioRegistry m (<[next r := mkRatioPermission u false]> (perms r)) (S (next r))
          (denials r), Some (next r))
  else (mkRatioRegistry m (perms r) (next r) (denials r ++ [u]), None).

Definition StateOf (u : string) (r : RatioRegistry) : State := StateClosed.

Definition Reset (now : Z) (u : string) (r : RatioRegistry) : RatioRegistry :=
  mkRatioRegistry
    (<[u := mkRatioState (new_ring no_events now) 0]> (byUpstream r))
    (perms r) (next r) (denials r).

Definition report_state (now : Z) (outcome : Outcome) (s : ratioState) : ratioState :=
  match outcome with
  | OutcomeSuccess | OutcomeClientFault | OutcomeSlow => add now 1 0 0 s
  | OutcomeServerFault => add now 0 1 0 s
  | OutcomeGatewayTerminated => s
  end.

Definition Report (now : Z) (p : nat) (outcome : Outcome) (r : RatioRegistry)
    : RatioRegistry :=
  match perms r !! p with
  | None => r
  | Some perm =>
      if p_reported perm then r
      else
        let u := p_s perm in
        mkRatioRegistry (<[u := report_state now outcome (stateOf u now r)]> (byUpstream r))
          (<[p := mkRatioPermission u true]> (perms r)) (next r) (denials r)
  end.
End Ratio.

Module RatioFacts.
Import Ratio.

(** The windows a run of the program can produce count events. *)
Definition counts (b : ratioBucket) : Prop := 0 <= success b /\ 0 <= failure b /\ 0 <= drop b.

Lemma observe_history (bs : list ratioBucket) (h : ratioHistory) :
  Forall counts bs -> 0 <= accepts h <= total h -> 0 <= failingBuckets h ->
  0 <= workingBuckets h ->
  let h' := foldl observe_bucket h bs in
  0 <= accepts h' <= total h' /\
  0 <= failingBuckets h' <= failingBuckets h + Z.of_nat (length bs) /\
  0 <= workingBuckets h' <= workingBuckets h + Z.of_nat (length bs).
Proof.
  intros Hall. revert h. induction Hall as [|b bs (Hs & Hf & Hd) _ IH]; intros h Ha Hfb Hwb.
  - simpl. lia.
  - cbn [foldl length]. set (h1 := observe_bucket h b) in *.
    assert (0 <= accepts h1 <= total h1 /\ 0 <= failingBuckets h1 <= failingBuckets h + 1 /\
      0 <= workingBuckets h1 <= workingBuckets h + 1) as (H1 & H2 & H3).
    { unfold h1, observe_bucket. cbn [accepts total failingBuckets workingBuckets].
      repeat case_decide; lia. }
    specialize (IH h1 H1 (proj1 H2) (proj1 H3)). cbv zeta in IH |- *. lia.
Qed.

Lemma live_length {B} (e : B) (now : Z) (r : ring B) :
  Z.of_nat (length (live e now r)) <= ratioBuckets.
Proof.
  unfold live, ratioBuckets. case_match; [simpl; lia|].
  rewrite length_fmap, length_seq. repeat case_decide; lia.
Qed.

Definition state_ok (s : ratioState) : Prop := Forall counts (buckets (window s)).

Lemma live_counts (now : Z) (s : ratioState) :
  state_ok s -> Forall counts (live no_events now (window s)).
Proof.
  intros Hok. unfold live. case_match; [constructor|].
  apply Forall_fmap, Forall_forall. intros i _. unfold compose.
  destruct (buckets (window s) !! _) as [b|] eqn:E; [|by vm_compute].
  by apply (Forall_lookup_1 _ _ _ _ Hok E).
Qed.

Lemma history_ok (now : Z) (s : ratioState) :
  state_ok s ->
  let h := history now s in
  0 <= accepts h <= total h /\ 0 <= failingBuckets h <= 40 /\ 0 <= workingBuckets h <= 40.
Proof.
  intros Hok. pose proof (live_counts now s Hok) as Hc.
  pose proof (live_length no_events now (window s)) as Hl.
  pose proof (observe_history _ (mkHistory 0 0 0 0) Hc) as H. simpl in H.
  unfold history. unfold ratioBuckets, nbuckets in Hl. cbv zeta.
  destruct H as (? & ? & ?); [lia..|]. lia.
Qed.
End RatioFacts.

Module RatioProps.
Import Ratio RatioFacts.

Lemma dilution_le (h : ratioHistory) :
  0 <= workingBuckets h <= 40 -> (0 <= dilution h <= 1)%Q.
Proof.
  intros Hw. unfold dilution, fdiv, ratioBuckets, nbuckets.
  change (Z.of_nat 40) with 40. rewrite fof_int_exact by (unfold prec; lia). set (n := 40 - workingBuckets h).
  assert (0 <= inject_Z n <= 40)%Q as [H0 H1].
  { change 0%Q with (inject_Z 0). change 40%Q with (inject_Z 40).
    rewrite <- !Zle_Qle. lia. }
  split.
  - apply rnd_nonneg. apply Qle_shift_div_l; [done|lra].
  - apply rnd_le_float; [done|]. apply Qle_shift_div_r; [done|lra].
Qed.

Lemma min_weight (h : ratioHistory) : (1 <= fmax (weight h) ratioMinK)%Q.
Proof.
  assert (1 <= ratioMinK)%Q as H1 by (by vm_compute).
  destruct (fmax_cases (weight h) ratioMinK) as [[-> ?]|[-> ?]]; lra.
Qed.

Lemma accepts_weighed (now : Z) (s : ratioState) :
  state_ok s -> total (history now s) <= 2 ^ 50 ->
  (inject_Z (accepts (history now s)) <=
   fmul (fmax (weight (history now s)) ratioMinK) (fof_int (accepts (history now s))))%Q.
Proof.
  intros Hok Hbig. destruct (history_ok now s Hok) as (Ha & _ & _).
  pose proof (min_weight (history now s)) as Hm.
  set (w := fmax (weight (history now s)) ratioMinK) in *.
  pose proof (fof_int_exact (accepts (history now s)) ltac:(unfold prec; lia)) as EA.
  assert (0 <= inject_Z (accepts (history now s)))%Q as Ha0
    by (change 0%Q with (inject_Z 0); rewrite <- Zle_Qle; lia).
  apply Qle_trans with (fof_int (accepts (history now s))); [rewrite EA; apply Qle_refl|].
  apply float_le_rnd; [apply fof_int_float|]. rewrite EA. nra.
Qed.

Lemma inject_Z_pos (x : Z) : 0 < x -> (0 < inject_Z x)%Q.
Proof. intros H. change 0%Q with (inject_Z 0). by rewrite <- Zlt_Qlt. Qed.

(** The drop ratio stays a representable step below one. *)
Lemma dropRatio_below_one (now : Z) (s : ratioState) :
  state_ok s -> total (history now s) <= 2 ^ 50 ->
  (dropRatio (history now s) <= 1 - (1 # 1125899906842624))%Q.
Proof.
  intros Hok Hbig. pose proof (accepts_weighed now s Hok Hbig) as Hwa.
  destruct (history_ok now s Hok) as (Ha & _ & _). set (h := history now s) in *.
  pose proof (fof_int_exact (total h + 1) ltac:(unfold prec; lia)) as ET.
  pose proof (fof_int_exact (total h - ratioProtection)
                ltac:(unfold ratioProtection, prec; lia)) as EP.
  assert (0 <= inject_Z (accepts h))%Q as Ha0
    by (change 0%Q with (inject_Z 0); rewrite <- Zle_Qle; lia).
  pose proof (inject_Z_pos (total h + 1) ltac:(lia)) as Ht0.
  apply rnd_le_float; [by vm_compute|]. rewrite ET. apply Qle_shift_div_r; [done|].
  apply Qle_trans with (inject_Z (total h - ratioProtection)).
  - apply Qle_trans with (fof_int (total h - ratioProtection)); [|lra].
    apply fsub_le; [apply fof_int_float|]. lra.
  - assert (inject_Z (total h) <= 1125899906842624)%Q as HbigQ
      by (change 1125899906842624%Q with (inject_Z (2 ^ 50)); by rewrite <- Zle_Qle).
    assert (inject_Z (total h - ratioProtection) == inject_Z (total h) - 5)%Q as ->.
    { unfold ratioProtection, Zminus, Qminus. by rewrite inject_Z_plus. }
    assert (inject_Z (total h + 1) == inject_Z (total h) + 1)%Q as E1
      by (by rewrite inject_Z_plus).
    rewrite E1 in *. lra.
Qed.

(** Too little traffic, or nothing but accepts: nothing to drop. *)
Lemma dropRatio_nonpos (now : Z) (s : ratioState) :
  state_ok s -> total (history now s) <= 2 ^ 50 ->
  total (history now s) <= ratioProtection \/
    accepts (history now s) = total (history now s) ->
  (dropRatio (history now s) <= 0)%Q.
Proof.
  intros Hok Hbig Hcase. pose proof (accepts_weighed now s Hok Hbig) as Hwa.
  destruct (history_ok now s Hok) as (Ha & _ & _). set (h := history now s) in *.
  pose proof (fof_int_exact (total h + 1) ltac:(unfold prec; lia)) as ET.
  pose proof (fof_int_exact (total h - ratioProtection)
                ltac:(unfold ratioProtection, prec; lia)) as EP.
  pose proof (inject_Z_pos (total h + 1) ltac:(lia)) as Ht0.
  apply rnd_le_float; [done|]. rewrite ET. apply Qle_shift_div_r; [done|].
  set (w := fmax (weight h) ratioMinK) in *.
  assert (fsub (fof_int (total h - ratioProtection)) (fmul w (fof_int (accepts h))) <= 0)%Q;
    [|lra].
  apply rnd_le_float; [done|]. rewrite EP.
  assert (inject_Z (total h - ratioProtection) <= inject_Z (accepts h))%Q as Hle.
  { rewrite <- Zle_Qle. unfold ratioProtection in *. lia. }
  lra.
Qed.

(** What the guard never denies.  Whatever the draw: a window of five
    or fewer events, a window of healthy answers only, and any call one
    second or more after the last admission the guard made while denying;
    and it never denies with certainty, because the deny ratio of a window
    of up to 2^50 events stays below one. *)
Theorem ratio_guard_admits (now : Z) (draw : Q) (s : ratioState) :
  state_ok s -> total (history now s) <= 2 ^ 50 ->
  let h := history now s in
  let admitted := (decide_call now draw s).2 in
  (total h <= ratioProtection \/ accepts h = total h -> admitted = true) /\
  (lastPass s <> 0 -> sub now (lastPass s) >= ratioForcePass -> admitted = true) /\
  (dropRatio h <= 1 - (1 # 1125899906842624))%Q /\
  ((1 - (1 # 1125899906842624) <= draw)%Q -> admitted = true).
Proof.
  intros Hok Hbig h admitted. destruct (history_ok now s Hok) as (_ & _ & Hw).
  pose proof (dropRatio_below_one now s Hok Hbig) as Hdrop.
  pose proof (dropRatio_nonpos now s Hok Hbig) as Hz.
  fold h in Hw, Hdrop, Hz. unfold admitted, decide_call. fold h. split_and!.
  - intros Hcase%Hz%Qle_bool_iff. by rewrite Hcase.
  - intros Hnz Hpass. destruct (Qle_bool (dropRatio h) 0); [done|].
    replace (is_zero (lastPass s)) with false by (unfold is_zero; lia).
    by rewrite bool_decide_true.
  - done.
  - intros Hdraw. destruct (Qle_bool (dropRatio h) 0) eqn:E; [done|].
    destruct (negb (is_zero (lastPass s)) && _); [done|].
    assert (fmul (dropRatio h) (dilution h) <= draw)%Q as Hd%Qle_bool_iff; [|by rewrite Hd].
    apply Qle_trans with (2 := Hdraw). apply rnd_le_float; [by vm_compute|].
    destruct (dilution_le h Hw). apply Qle_trans with (2 := Hdrop).
    assert (0 < dropRatio h)%Q as Hpos.
    { apply Qnot_le_lt. intros Hle%Qle_bool_iff. congruence. }
    nra.
Qed.

(** The recovery guarantee is not armed by denials (the contract says
    one call per interval gets through however saturated the window is).  A
    denial leaves the forced-pass cursor where it was: on an upstream that
    was never admitted while denying, every call whose draw falls below the
    diluted ratio is denied, no matter how long ago the last admission was,
    and the cursor is still unarmed afterwards. *)
Theorem ratio_denial_never_arms_pass (now : Z) (draw : Q) (s : ratioState) :
  lastPass s = 0 ->
  (0 < dropRatio (history now s))%Q ->
  (draw < fmul (dropRatio (history now s)) (dilution (history now s)))%Q ->
  (decide_call now draw s).2 = false /\ lastPass (decide_call now draw s).1 = 0.
Proof.
  intros Hz Hpos Hdraw. unfold decide_call. rewrite Hz.
  destruct (Qle_bool (dropRatio _) 0) eqn:E; [apply Qle_bool_iff in E; lra|].
  cbn [is_zero Z.eqb negb andb].
  destruct (Qle_bool (fmul _ _) draw) eqn:E2; [apply Qle_bool_iff in E2; lra|].
  simpl. done.
Qed.

(** The admissions of a run of draws of zero, one call every [gap]. *)
Fixpoint admissions (n : nat) (now gap : Z) (s : ratioState) : nat :=
  match n with
  | O => 0
  | S n =>
      let '(s', ok) := decide_call now 0 s in
      ((if ok then 1 else 0) + admissions n (now + gap) gap s')%nat
  end.

(** Thirty faults, then five seconds of calls every 250 ms: none passes. *)
Lemma ratio_denial_never_arms_pass_witness :
  let s := Nat.iter 30 (report_state second OutcomeServerFault)
             (mkRatioState (new_ring no_events second) 0) in
  (decide_call second 0 s).2 = false /\ admissions 20 second (250 * millisecond) s = 0%nat.
Proof.
  intros s. split; [|vm_compute; reflexivity].
  destruct (ratio_denial_never_arms_pass second 0 s) as [H _];
    [vm_compute; reflexivity|vm_compute; reflexivity|vm_compute; reflexivity|exact H].
Defined.

Lemma ratio_guard_admits_witness :
  (decide_call second 0 (mkRatioState (new_ring no_events second) 0)).2 = true.
Proof.
  destruct (ratio_guard_admits second 0 (mkRatioState (new_ring no_events second) 0))
    as [H _]; [|vm_compute; discriminate|].
  - unfold state_ok; simpl. repeat (constructor; [vm_compute; repeat split; discriminate|]).
    constructor.
  - apply H. left. vm_compute. discriminate.
Defined.

(** The guard's window is blind after an idle gap, like the slow-call
    window: with the last write more than [n + 1] windows ago, the window
    still reads empty after [n] reports at the present instant, so the guard
    admits whatever they said. *)
Theorem ratio_idle_blind (now : Z) (draw : Q) (os : list Outcome) (s : ratioState) :
  (Z.of_nat (length os) + 1) * (Z.of_nat nbuckets * bucketSpan)
    <= now - lastWrite (window s) ->
  let s' := foldl (fun s o => report_state now o s) s os in
  history now s' = mkHistory 0 0 0 0 /\ (decide_call now draw s').2 = true.
Proof.
  intros Hgap s'.
  assert (Z.of_nat nbuckets * bucketSpan <= now - lastWrite (window s')) as Hb.
  { unfold s'. clear s'. revert s Hgap. induction os as [|o os IH]; intros s Hgap;
      simpl length in Hgap; [simpl; lia|].
    simpl. apply IH.
    assert (lastWrite (window (report_state now o s)) = lastWrite (window s) \/
      lastWrite (window (report_state now o s))
      = lastWrite (window s) + Z.of_nat nbuckets * bucketSpan) as [-> | ->].
    { destruct o; simpl; auto; right; apply roll_behind;
        unfold bucketSpan, nbuckets, millisecond in *; lia. }
    all: unfold bucketSpan, nbuckets, millisecond in *; lia. }
  assert (history now s' = mkHistory 0 0 0 0) as Hh.
  { unfold history. by rewrite (live_behind no_events now (window s') Hb). }
  split; [done|]. unfold decide_call. by rewrite Hh.
Qed.

Lemma ratio_idle_blind_witness :
  history (3600 * second)
    (foldl (fun s o => report_state (3600 * second) o s)
       (mkRatioState (new_ring no_events 0) 0) (replicate 300 OutcomeServerFault))
  = mkHistory 0 0 0 0.
Proof.
  apply (ratio_idle_blind (3600 * second) 0 (replicate 300 OutcomeServerFault)).
  rewrite length_replicate. vm_compute. discriminate.
Defined.
End RatioProps.
