(* ===== verification/CircuitPort.v ===== *)
(** * CircuitPort: the breaker port, its four implementations, its prober

    The [Breaker] interface of [src/internal/circuit/circuit.go] as a type
    class: the operations every strategy offers and the laws a caller relies
    on.  [breaker.go], [slow.go], [ratio.go] and [nop.go] are its instances;
    [ActiveProbe] of [prober.go] is a client proved against the interface. *)
From Stdlib Require Import QArith.
From stdpp Require Import base gmap strings list.
From S2P Require Import Prelude Float64 Circuit Window CircuitSlow CircuitRatio.
Import GoInt GoTime.

Local Open Scope Z_scope.

(** What an operation reads from outside: the clock (twice, because [enter]
    reads it again) and the uniform sampler. *)
Record env := mkEnv { now : Z; clock : Z; draw : Q }.

Class Breaker (B : Type) := {
  breaker_inv : B -> Prop;
  Allow : env -> string -> B -> B * option nat;
  StateOf : env -> string -> B -> B * State;
  Reset : env -> string -> B -> B;
  Report : env -> nat -> Outcome -> B -> B
}.

Class BreakerLaws (B : Type) `{!Breaker B} : Prop := {
  Allow_inv e u b : breaker_inv b -> breaker_inv (Allow e u b).1;
  StateOf_inv e u b : breaker_inv b -> breaker_inv (StateOf e u b).1;
  Reset_inv e u b : breaker_inv b -> breaker_inv (Reset e u b);
  Report_inv e p o b : breaker_inv b -> breaker_inv (Report e p o b);
  (** An operator reset reads closed and lets the next call through. *)
  Reset_closed e e' u b : breaker_inv b -> (StateOf e' u (Reset e u b)).2 = StateClosed;
  Reset_admits e e' u b : breaker_inv b -> is_Some (Allow e' u (Reset e u b)).2;
  (** Reading one upstream's state changes no other upstream's. *)
  StateOf_isolated e e' u v b : u <> v -> (StateOf e' u (StateOf e v b).1).2 = (StateOf e' u b).2;
  (** Double reports are absorbed. *)
  Report_once e e' p o o' b : Report e' p o' (Report e p o b) = Report e p o b
}.

(** ** The consecutive registry *)
#[export] Instance consecutive_breaker : Breaker Consecutive.Registry := {
  breaker_inv := ConsecutiveSpec.reg_wf;
  Allow e := Consecutive.Allow (now e);
  StateOf e := Consecutive.StateOf (now e);
  Reset e := Consecutive.Reset (clock e);
  Report e := Consecutive.Report (now e) (clock e)
}.

Module ConsecutiveLaws.
Import Machine Consecutive ConsecutiveSpec ConsecutiveFacts.

Lemma consecutive_Reset_stateOf (t : Z) (u : string) (b : Registry) :
  name (mach (Consecutive.stateOf (Consecutive.Reset t u b) u)) = StateClosed.
Proof.
  unfold Consecutive.Reset, enter.
  destruct (Consecutive.stateOf b u) as [[i n ot pr] f]; simpl.
  destruct n; simpl; rewrite stateOf_put, decide_True by done; done.
Qed.

Lemma consecutive_StateOf_isolated (t t' : Z) (u v : string) (b : Registry) :
  u <> v -> (Consecutive.StateOf t' u (Consecutive.StateOf t v b).1).2 = (Consecutive.StateOf t' u b).2.
Proof.
  intros Hne. unfold Consecutive.StateOf at 2.
  destruct (observe (gov b) t (mach (Consecutive.stateOf b v))) as [[m st] tr]. cbn [fst].
  unfold Consecutive.StateOf. rewrite stateOf_put, decide_False by done.
  cbn [put gov]. by destruct (observe _ _ _) as [[? ?] ?].
Qed.

Lemma consecutive_Report_absorbed (t c t' c' : Z) (p : nat) (o o' : Outcome) (b : Registry) :
  Consecutive.Report t' c' p o' (Consecutive.Report t c p o b)
  = Consecutive.Report t c p o b.
Proof.
  unfold Consecutive.Report. destruct (perms b !! p) as [g|] eqn:Hp; [|by rewrite Hp].
  destruct (g_reported g) eqn:Hg; [by rewrite Hp, Hg|].
  destruct (report_state _ _ _ _ _ _) as [s tr]; simpl. by rewrite lookup_insert_eq.
Qed.
End ConsecutiveLaws.

#[export] Instance consecutive_laws : BreakerLaws Consecutive.Registry.
Proof.
  split; simpl.
  - intros e u b. apply ConsecutiveFacts.Allow_wf.
  - intros e u b. apply ConsecutiveFacts.StateOf_wf.
  - intros e u b. apply ConsecutiveFacts.Reset_wf.
  - intros e p o b. apply ConsecutiveFacts.Report_wf.
  - intros e e' u b _. unfold Consecutive.StateOf.
    pose proof (ConsecutiveLaws.consecutive_Reset_stateOf (clock e) u b) as H.
    unfold Machine.observe. by rewrite H.
  - intros e e' u b _. unfold Consecutive.Allow.
    pose proof (ConsecutiveLaws.consecutive_Reset_stateOf (clock e) u b) as H.
    unfold Machine.allow. rewrite H. simpl. eauto.
  - intros e e' u v b. apply ConsecutiveLaws.consecutive_StateOf_isolated.
  - intros e e' p o o' b. apply ConsecutiveLaws.consecutive_Report_absorbed.
Qed.

(** ** The slow-call registry *)
#[export] Instance slow_breaker : Breaker Slow.SlowRegistry := {
  breaker_inv _ := True;
  Allow e := Slow.Allow (clock e) (now e);
  StateOf e := Slow.StateOf (clock e) (now e);
  Reset e := Slow.Reset (clock e) (now e);
  Report e := Slow.Report (now e) (clock e)
}.

Module SlowLaws.
Import Machine Slow.

Lemma slow_Reset_stateOf (c t c' : Z) (u : string) (s : SlowRegistry) :
  name (mach (stateOf c' u (Slow.Reset c t u s))) = StateClosed.
Proof.
  unfold Slow.Reset, enter. destruct (stateOf c u s) as [[i n ot pr] w]; simpl.
  destruct n; simpl; unfold stateOf; simpl; by rewrite lookup_insert_eq.
Qed.

Lemma slow_StateOf_isolated (c t c' t' : Z) (u v : string) (s : SlowRegistry) :
  u <> v -> (Slow.StateOf c' t' u (Slow.StateOf c t v s).1).2 = (Slow.StateOf c' t' u s).2.
Proof.
  intros Hne. unfold Slow.StateOf at 2.
  destruct (observe (gov s) t (mach (stateOf c v s))) as [[m st] tr]. cbn [fst].
  unfold Slow.StateOf, stateOf; cbn [put byUpstream gov]. rewrite lookup_insert_ne by done.
  by destruct (observe _ _ _) as [[? ?] ?].
Qed.

Lemma slow_Report_absorbed (t c t' c' : Z) (p : nat) (o o' : Outcome) (s : SlowRegistry) :
  Slow.Report t' c' p o' (Slow.Report t c p o s) = Slow.Report t c p o s.
Proof.
  unfold Slow.Report. destruct (perms s !! p) as [g|] eqn:Hp; [|by rewrite Hp].
  destruct (p_reported g) eqn:Hg; [by rewrite Hp, Hg|].
  destruct (report_state _ _ _ _ _ _) as [st tr]; simpl. by rewrite lookup_insert_eq.
Qed.
End SlowLaws.

#[export] Instance slow_laws : BreakerLaws Slow.SlowRegistry.
Proof.
  split; simpl; try done.
  - intros e e' u b _. unfold Slow.StateOf, Machine.observe.
    by rewrite SlowLaws.slow_Reset_stateOf.
  - intros e e' u b _. unfold Slow.Allow, Machine.allow.
    rewrite SlowLaws.slow_Reset_stateOf. simpl. eauto.
  - intros e e' u v b. apply SlowLaws.slow_StateOf_isolated.
  - intros e e' p o o' b. apply SlowLaws.slow_Report_absorbed.
Qed.

(** ** The ratio guard *)
#[export] Instance ratio_breaker : Breaker Ratio.RatioRegistry := {
  breaker_inv _ := True;
  Allow e := Ratio.Allow (now e) (draw e);
  StateOf e u r := (r, Ratio.StateOf u r);
  Reset e := Ratio.Reset (now e);
  Report e := Ratio.Report (now e)
}.

Module RatioLaws.
Import Ratio.

(** An empty window holds no events, wherever its cursor stands. *)
Lemma history_new_ring (t t' lp : Z) :
  history t' (mkRatioState (new_ring no_events t) lp) = mkHistory 0 0 0 0.
Proof.
  unfold history, live. cbn [window]. case_match; [done|].
  set (f := fun i : nat => _). set (l := seq _ _).
  assert (forall i, f i = no_events) as Hf.
  { intros i. unfold f, new_ring. cbn [buckets offset].
    destruct (replicate nbuckets no_events !! _) as [b|] eqn:E; [|done].
    by apply lookup_replicate in E as [-> _]. }
  clearbody f l. induction l as [|i l IH]; [done|]. rewrite fmap_cons, Hf. exact IH.
Qed.

Lemma ratio_Report_absorbed (t t' : Z) (p : nat) (o o' : Outcome) (r : RatioRegistry) :
  Ratio.Report t' p o' (Ratio.Report t p o r) = Ratio.Report t p o r.
Proof.
  unfold Ratio.Report. destruct (perms r !! p) as [g|] eqn:Hp; [|by rewrite Hp].
  destruct (p_reported g) eqn:Hg; [by rewrite Hp, Hg|].
  simpl. by rewrite lookup_insert_eq.
Qed.
End RatioLaws.

#[export] Instance ratio_laws : BreakerLaws Ratio.RatioRegistry.
Proof.
  split; cbn [breaker_inv Allow StateOf Reset Report ratio_breaker];
    try (intros; exact I).
  - intros e e' u b _. reflexivity.
  - intros e e' u b _. unfold Ratio.Allow, Ratio.stateOf, Ratio.Reset.
    cbn [Ratio.byUpstream]. rewrite lookup_insert_eq. cbn [from_option id].
    unfold Ratio.decide_call. rewrite RatioLaws.history_new_ring.
    cbv zeta. replace (Qle_bool (Ratio.dropRatio (Ratio.mkHistory 0 0 0 0)) 0%Q) with true
      by (vm_compute; reflexivity). cbn. eauto.
  - done.
  - intros e e' p o o' b. apply RatioLaws.ratio_Report_absorbed.
Qed.

(** ** The nop breaker (nop.go) *)
Record NopBreaker := mkNop {}.

Definition nop_Allow (u : string) (b : NopBreaker) : NopBreaker * option nat := (b, Some 0%nat).
Definition nop_StateOf (u : string) (b : NopBreaker) : NopBreaker * State := (b, StateClosed).
Definition nop_Reset (u : string) (b : NopBreaker) : NopBreaker := b.
Definition nop_Report (p : nat) (o : Outcome) (b : NopBreaker) : NopBreaker := b.

#[export] Instance nop_breaker : Breaker NopBreaker := {
  breaker_inv _ := True;
  Allow _ := nop_Allow;
  StateOf _ := nop_StateOf;
  Reset _ := nop_Reset;
  Report _ := nop_Report
}.

#[export] Instance nop_laws : BreakerLaws NopBreaker.
Proof. split; simpl; try done. Qed.

(** ** The active prober (prober.go), a client of the port *)
Section ActiveProbe.
Context {B : Type} `{!Breaker B}.

(** What the health check returned: nil, [context.Canceled], or another
    error. *)
Inductive probe_result := ProbeOk | ProbeCanceled | ProbeFailed.

(** [caller_done] is [ctx.Err() != nil] once the check returned. *)
Definition probe_outcome (perr : probe_result) (caller_done : bool) : Outcome :=
  match perr with
  | ProbeOk => OutcomeSuccess
  | ProbeCanceled => if caller_done then OutcomeClientFault else OutcomeServerFault
  | ProbeFailed => OutcomeServerFault
  end.

(** [e] is read by [Allow], [e'] by [Report] after the check ran. *)
Definition ActiveProbe (e e' : env) (u : string) (perr : probe_result)
    (caller_done : bool) (b : B) : B * bool * option probe_result :=
  match Allow e u b with
  | (b, None) => (b, false, None)
  | (b, Some p) => (Report e' p (probe_outcome perr caller_done) b, true, Some perr)
  end.
End ActiveProbe.

Section PortProps.
Context {B : Type} `{!Breaker B} `{!BreakerLaws B}.

(** The port's contract, for every strategy: an operator reset reads
    closed at any later instant and whatever the sampler draws, the health
    probe that follows it is granted and runs, its verdict is reported
    exactly once - a second report of the same permission changes nothing -
    and the implementation's invariant survives. *)
Theorem reset_restores_traffic (e e1 e2 e3 : env) (u : string) (b : B)
    (perr : probe_result) (caller_done : bool) (o : Outcome) :
  breaker_inv b ->
  let b0 := Reset e u b in
  let '(b', ran, err) := ActiveProbe e1 e2 u perr caller_done b0 in
  (StateOf e1 u b0).2 = StateClosed /\ ran = true /\ err = Some perr /\
  breaker_inv b' /\
  exists p b1, Allow e1 u b0 = (b1, Some p) /\
    b' = Report e2 p (probe_outcome perr caller_done) b1 /\ Report e3 p o b' = b'.
Proof.
  intros Hb b0. pose proof (Reset_inv e u b Hb) as Hb0.
  pose proof (Reset_admits e e1 u b Hb) as [p Hp]. fold b0 in Hp, Hb0.
  pose proof (Allow_inv e1 u b0 Hb0) as Hb1.
  unfold ActiveProbe. destruct (Allow e1 u b0) as [b1 o1]. simpl in Hp, Hb1. subst o1.
  split_and!; [by apply Reset_closed|done|done|by apply Report_inv|].
  exists p, b1. split_and!; [done|done|]. apply Report_once.
Qed.
End PortProps.

Definition env_at (t : Z) : env := mkEnv t t 0%Q.

Lemma reset_restores_traffic_witness :
  (StateOf (env_at 3) "a" (Reset (env_at 3) "a" ConsecutiveProps.tripped)).2 = StateClosed.
Proof.
  pose proof (reset_restores_traffic (env_at 3) (env_at 3) (env_at 4) (env_at 5) "a"
    ConsecutiveProps.tripped ProbeOk false OutcomeServerFault ConsecutiveProps.tripped_wf) as H.
  cbv zeta in H. destruct (ActiveProbe _ _ _ _ _ _) as [[b' ran] err] in H.
  exact (proj1 H).
Defined.
