(* ===== verification/Quota.v ===== *)
(** * The quota ledger (internal/quota: quota.go, memory.go, sweeper.go, reconcile.go)

    [Ledger] is the in-process ledger: balances and leases as finite maps,
    one definition per method, the clock reading and the fresh lease id as
    arguments.  A Go map is ranged over in an unspecified order, so
    [SweepOnce] takes the order of the walk.  [LedgerSpec] is the ghost
    accounting (held, spent, injected) the conservation theorem is stated
    with; [Sweeper] is the background loop, one element of its input per
    tick; [Reconcile] is the snapshot protocol over an abstract snapshot
    source and store. *)
From stdpp Require Import base gmap strings list numbers sorting.
From S2P Require Import Prelude.
Import GoInt GoTime MapSum.
Local Open Scope Z_scope.

Module Ledger.
Inductive LeaseState := LeaseStateReserved | LeaseStateSettled | LeaseStateExpired
  | LeaseStateCancelled.

#[export] Instance LeaseState_eq_dec : EqDecision LeaseState.
Proof. solve_decision. Defined.

Record Lease := mkLease {
  ID : string; TenantID : string; Amount : Z; lstate : LeaseState; CreatedAt : Z
}.

(** A stored lease with its audit time, zero while RESERVED. *)
Record memLease := mkMemLease { lease : Lease; terminalAt : Z }.

Inductive quota_error := ErrInsufficientBalance | ErrUnknownTenant
  | ErrUnknownLease (id : string).

Record Memory := mkMemory {
  balances : gmap string Z; leases : gmap string memLease; leaseTTL : Z
}.

Definition defaultLeaseTTL : Z := 10 * minute.
Definition leaseAuditTTL : Z := 60 * minute.
Definition scanBatch : Z := 8192.

Definition NewMemory : Memory := mkMemory ∅ ∅ defaultLeaseTTL.

Definition WithLeaseTTL (d : Z) (m : Memory) : Memory :=
  if decide (0 < d) then mkMemory (balances m) (leases m) d else m.

Definition SetBalance (tenantID : string) (balance : Z) (m : Memory) : Memory :=
  mkMemory (<[tenantID := balance]> (balances m)) (leases m) (leaseTTL m).

Definition EnsureBalance (tenantID : string) (initial : Z) (m : Memory) : bool * Memory :=
  match balances m !! tenantID with
  | Some _ => (false, m)
  | None => (true, mkMemory (<[tenantID := initial]> (balances m)) (leases m) (leaseTTL m))
  end.

(** [newID] is the value [newLeaseID] draws, [now] the clock reading. *)
Definition Reserve (now : Z) (newID tenantID : string) (amount : Z) (m : Memory)
  : (Lease + quota_error) * Memory :=
  match balances m !! tenantID with
  | None => (inr ErrUnknownTenant, m)
  | Some balance =>
      if decide (balance < amount) then (inr ErrInsufficientBalance, m)
      else
        let l := mkLease newID tenantID amount LeaseStateReserved now in
        (inl l, mkMemory (<[tenantID := wrap64 (balance - amount)]> (balances m))
                  (<[newID := mkMemLease l 0]> (leases m)) (leaseTTL m))
  end.

(** [m.balances[tenant] += amount]: a missing entry reads as zero. *)
Definition balance_of (m : Memory) (tenantID : string) : Z :=
  default 0 (balances m !! tenantID).

Definition credit (tenantID : string) (amount : Z) (m : Memory) : Memory :=
  mkMemory (<[tenantID := wrap64 (balance_of m tenantID + amount)]> (balances m))
    (leases m) (leaseTTL m).

(** The lease record moved to the terminal state [st] at time [at_]. *)
Definition terminate (st : LeaseState) (at_ : Z) (l : memLease) : memLease :=
  let x := lease l in
  mkMemLease (mkLease (ID x) (TenantID x) (Amount x) st (CreatedAt x)) at_.

Definition put_lease (id : string) (l : memLease) (m : Memory) : Memory :=
  mkMemory (balances m) (<[id := l]> (leases m)) (leaseTTL m).

Definition Settle (now : Z) (leaseID : string) (usedTokens : Z) (m : Memory)
  : option quota_error * Memory :=
  match leases m !! leaseID with
  | None => (Some (ErrUnknownLease leaseID), m)
  | Some l =>
      if decide (lstate (lease l) <> LeaseStateReserved) then (None, m)
      else
        let used := Z.max usedTokens 0 in
        let refund := wrap64 (Amount (lease l) - used) in
        let m1 := if decide (0 < refund) then credit (TenantID (lease l)) refund m else m in
        (None, put_lease leaseID (terminate LeaseStateSettled now l) m1)
  end.

Definition Cancel (now : Z) (leaseID : string) (m : Memory) : option quota_error * Memory :=
  match leases m !! leaseID with
  | None => (Some (ErrUnknownLease leaseID), m)
  | Some l =>
      if decide (lstate (lease l) <> LeaseStateReserved) then (None, m)
      else
        (None, put_lease leaseID (terminate LeaseStateCancelled now l)
                 (credit (TenantID (lease l)) (Amount (lease l)) m))
  end.

Definition Balance (tenantID : string) (m : Memory) : Z + quota_error :=
  match balances m !! tenantID with
  | None => inr ErrUnknownTenant
  | Some balance => inl balance
  end.

(** The loop body of [SweepOnce] at the lease [l] stored under [id]. *)
Definition sweep_lease (reservedCutoff terminalCutoff now limit : Z) (id : string) (l : memLease)
    (expired : Z) (m : Memory) : Z * Memory :=
  if decide (lstate (lease l) <> LeaseStateReserved) then
    if before (terminalAt l) terminalCutoff
    then (expired, mkMemory (balances m) (delete id (leases m)) (leaseTTL m))
    else (expired, m)
  else if bool_decide (limit <= expired) || negb (before (CreatedAt (lease l)) reservedCutoff)
  then (expired, m)
  else (expired + 1,
        put_lease id (terminate LeaseStateExpired now l)
          (credit (TenantID (lease l)) (Amount (lease l)) m)).

(** The walk of [SweepOnce] over the leases in the order of the range. *)
Fixpoint sweep_walk (reservedCutoff terminalCutoff now limit : Z) (order : list string)
    (scanned expired : Z) (m : Memory) : Z * Memory :=
  match order with
  | [] => (expired, m)
  | id :: rest =>
      if decide (scanBatch <= scanned) then (expired, m)
      else
        match leases m !! id with
        | None => sweep_walk reservedCutoff terminalCutoff now limit rest (scanned + 1) expired m
        | Some l =>
            let (expired', m') := sweep_lease reservedCutoff terminalCutoff now limit id l expired m in
            sweep_walk reservedCutoff terminalCutoff now limit rest (scanned + 1) expired' m'
        end
  end.

Definition SweepOnce (order : list string) (now limit : Z) (m : Memory) : Z * Memory :=
  sweep_walk (add now (- leaseTTL m)) (add now (- leaseAuditTTL)) now limit order 0 0 m.
End Ledger.

(** ** Ghost accounting *)
Module LedgerSpec.
Import Ledger.

Definition reserved (l : memLease) : bool := bool_decide (lstate (lease l) = LeaseStateReserved).

(** What the lease still holds of [tenant]'s budget. *)
Definition hold (tenant : string) (_ : string) (l : memLease) : Z :=
  if reserved l && bool_decide (TenantID (lease l) = tenant) then Amount (lease l) else 0.

Definition held (m : Memory) (tenant : string) : Z := map_sum (hold tenant) (leases m).

(** Every tenant's balance is non-negative and, with what its live leases
    hold, fits an [int64]; reservations are non-negative. *)
Record ledger_wf (m : Memory) : Prop := {
  lw_balance tenant : 0 <= balance_of m tenant;
  lw_total tenant : balance_of m tenant + held m tenant <= max_int64;
  lw_amount id l : leases m !! id = Some l -> 0 <= Amount (lease l)
}.

Inductive event :=
  | EReserve (now : Z) (newID tenantID : string) (amount : Z)
  | ESettle (now : Z) (leaseID : string) (used : Z)
  | ECancel (now : Z) (leaseID : string)
  | ESweep (order : list string) (now limit : Z)
  | ESetBalance (tenantID : string) (balance : Z)
  | EEnsureBalance (tenantID : string) (initial : Z).

Definition apply_event (e : event) (m : Memory) : Memory :=
  match e with
  | EReserve now id t a => (Reserve now id t a m).2
  | ESettle now id u => (Settle now id u m).2
  | ECancel now id => (Cancel now id m).2
  | ESweep order now limit => (SweepOnce order now limit m).2
  | ESetBalance t b => SetBalance t b m
  | EEnsureBalance t b => (EnsureBalance t b m).2
  end.

(** The caller's side: lease ids are fresh, reservations non-negative,
    provisioned balances fit beside what is held. *)
Definition legal (e : event) (m : Memory) : Prop :=
  match e with
  | EReserve _ id _ a => leases m !! id = None /\ 0 <= a
  | ESettle _ _ u => in_int64 u
  | ECancel _ _ | ESweep _ _ _ => True
  | ESetBalance t b | EEnsureBalance t b => 0 <= b /\ b + held m t <= max_int64
  end.

(** Tokens [e] takes out of [tenant]'s account for good: a settlement
    charges the reported usage, clamped to the reservation. *)
Definition spent (e : event) (m : Memory) (tenant : string) : Z :=
  match e with
  | ESettle _ id u =>
      match leases m !! id with
      | Some l => Z.min (hold tenant id l) (Z.max u 0)
      | None => 0
      end
  | _ => 0
  end.

(** Tokens the admin surface adds (or, by a correction, removes). *)
Definition injected (e : event) (m : Memory) (tenant : string) : Z :=
  match e with
  | ESetBalance t b => if decide (t = tenant) then b - balance_of m tenant else 0
  | EEnsureBalance t b =>
      if decide (t = tenant)
      then match balances m !! t with Some _ => 0 | None => b end else 0
  | _ => 0
  end.

Fixpoint run (es : list event) (m : Memory) : Memory :=
  match es with [] => m | e :: es => run es (apply_event e m) end.

Fixpoint legal_run (es : list event) (m : Memory) : Prop :=
  match es with [] => True | e :: es => legal e m /\ legal_run es (apply_event e m) end.

Fixpoint total (f : event -> Memory -> string -> Z) (es : list event) (m : Memory)
    (tenant : string) : Z :=
  match es with [] => 0 | e :: es => f e m tenant + total f es (apply_event e m) tenant end.

(** The lease lifecycle of quota.go: terminal states are final. *)
Definition lifecycle (a b : LeaseState) : Prop := a = b \/ a = LeaseStateReserved.

(** What the sweep at [now] may reclaim, and what it may purge. *)
Definition overdue (m : Memory) (now : Z) (l : memLease) : bool :=
  reserved l && before (CreatedAt (lease l)) (add now (- leaseTTL m)).
Definition stale (now : Z) (l : memLease) : bool :=
  negb (reserved l) && before (terminalAt l) (add now (- leaseAuditTTL)).

Definition due (m : Memory) (now : Z) (id : string) : bool :=
  from_option (overdue m now) false (leases m !! id).

(** The ids one sweep reclaims: the first [limit] overdue ones among the
    first [scanBatch] of the walk. *)
Definition visited (order : list string) : list string := take (Z.to_nat scanBatch) order.
Definition reclaimed (m : Memory) (now limit : Z) (order : list string) : list string :=
  take (Z.to_nat limit) (filter (fun id => due m now id = true) order).

(** What becomes of the record at [id]. *)
Definition swept (m : Memory) (now : Z) (vis rec : list string) (id : string) : option memLease :=
  match leases m !! id with
  | None => None
  | Some l =>
      if decide (id ∈ rec) then Some (terminate LeaseStateExpired now l)
      else if decide (id ∈ vis) then if stale now l then None else Some l
      else Some l
  end.

Definition refunds (m : Memory) (tenant : string) (ids : list string) : Z :=
  foldr (fun id acc => from_option (hold tenant id) 0 (leases m !! id) + acc) 0 ids.
End LedgerSpec.

(** ** The background reclaim loop: one element of [ticks] per tick, with
    the clock reading and the order of the walk. *)
Module Sweeper.
Import Ledger.

Definition sweepBatch : Z := 1000.

(** One tick: the ledger after it and the count given to [onExpired]. *)
Definition sweeper_tick (now : Z) (order : list string) (m : Memory) : option Z * Memory :=
  let (expired, m') := SweepOnce order now sweepBatch m in
  (if decide (0 < expired) then Some expired else None, m').

Fixpoint StartSweeper (ticks : list (Z * list string)) (m : Memory) : list Z * Memory :=
  match ticks with
  | [] => ([], m)
  | (now, order) :: ticks =>
      let (seen, m1) := sweeper_tick now order m in
      let (rest, m2) := StartSweeper ticks m1 in
      (from_option (fun n => [n]) [] seen ++ rest, m2)
  end.
End Sweeper.

Module LedgerFacts.
(** The batch sizes stay folded: as unary numbers they are thousands of
    constructors. *)
#[local] Opaque Ledger.scanBatch Sweeper.sweepBatch Z.to_nat.
Import Ledger LedgerSpec.

Lemma hold_nonneg (m : Memory) (t id : string) (l : memLease) :
  ledger_wf m -> leases m !! id = Some l -> 0 <= hold t id l.
Proof.
  intros Hwf Hl. pose proof (lw_amount m Hwf id l Hl). unfold hold. case_match; lia.
Qed.

Lemma held_ge (m : Memory) (t id : string) (l : memLease) :
  ledger_wf m -> leases m !! id = Some l -> hold t id l <= held m t.
Proof.
  intros Hwf Hl. apply (map_sum_ge (hold t) (leases m) id l); [|done].
  intros k v Hk. by apply (hold_nonneg m).
Qed.

Lemma held_nonneg (m : Memory) (t : string) : ledger_wf m -> 0 <= held m t.
Proof. intros Hwf. apply map_sum_nonneg. intros k v Hk. by apply (hold_nonneg m). Qed.

Lemma balance_of_credit (m : Memory) (t u : string) (r : Z) :
  balance_of (credit t r m) u =
    if decide (t = u) then wrap64 (balance_of m t + r) else balance_of m u.
Proof.
  unfold balance_of, credit; cbn [balances]. rewrite lookup_insert. by case_decide.
Qed.

(** [hold] of a reserved lease is its amount, of a terminal one nothing. *)
Lemma hold_reserved (t id : string) (l : memLease) :
  lstate (lease l) = LeaseStateReserved ->
  hold t id l = if decide (TenantID (lease l) = t) then Amount (lease l) else 0.
Proof.
  intros H. unfold hold, reserved. rewrite H, bool_decide_true by done. simpl.
  by repeat (case_decide || case_bool_decide).
Qed.

Lemma hold_terminal (t id : string) (l : memLease) :
  lstate (lease l) <> LeaseStateReserved -> hold t id l = 0.
Proof. intros H. unfold hold, reserved. by rewrite bool_decide_false. Qed.

Lemma hold_terminate (t id : string) (st : LeaseState) (at_ : Z) (l : memLease) :
  st <> LeaseStateReserved -> hold t id (terminate st at_ l) = 0.
Proof. intros H. by apply hold_terminal. Qed.

Lemma held_put (m : Memory) (t id : string) (l : memLease) :
  held (put_lease id l m) t
  = hold t id l + held m t - from_option (hold t id) 0 (leases m !! id).
Proof. apply map_sum_insert. Qed.

Lemma held_credit (m : Memory) (t u : string) (r : Z) : held (credit t r m) u = held m u.
Proof. done. Qed.

(** The common shape of Settle, Cancel and the sweep's expiry: a live lease
    becomes terminal and [r] of its amount goes back to the balance. *)
Definition finish (st : LeaseState) (at_ r : Z) (id : string) (l : memLease) (m : Memory) : Memory :=
  put_lease id (terminate st at_ l) (credit (TenantID (lease l)) r m).

Lemma finish_balance (st : LeaseState) (at_ r : Z) (id : string) (l : memLease) (m : Memory) (t : string) :
  ledger_wf m -> leases m !! id = Some l -> lstate (lease l) = LeaseStateReserved ->
  0 <= r <= Amount (lease l) ->
  balance_of (finish st at_ r id l m) t
  = balance_of m t + if decide (TenantID (lease l) = t) then r else 0.
Proof.
  intros Hwf Hl Hres Hr. unfold finish.
  change (balance_of (put_lease id (terminate st at_ l) ?x) t) with (balance_of x t).
  rewrite balance_of_credit. case_decide as Ht; [|lia]. subst t. apply wrap64_id.
  pose proof (held_ge m (TenantID (lease l)) id l Hwf Hl) as Hge.
  rewrite hold_reserved, decide_True in Hge by done.
  pose proof (lw_balance m Hwf (TenantID (lease l))). pose proof (lw_total m Hwf (TenantID (lease l))).
  unfold in_int64, min_int64, max_int64 in *. lia.
Qed.

Lemma finish_conserves (st : LeaseState) (at_ r : Z) (id : string) (l : memLease) (m : Memory) :
  ledger_wf m -> leases m !! id = Some l -> lstate (lease l) = LeaseStateReserved ->
  st <> LeaseStateReserved -> 0 <= r <= Amount (lease l) ->
  let m' := finish st at_ r id l m in
  ledger_wf m' /\
  forall t, balance_of m' t + held m' t
    = balance_of m t + held m t - (if decide (TenantID (lease l) = t) then Amount (lease l) - r else 0).
Proof.
  intros Hwf Hl Hres Hst Hr m'.
  pose proof (fun t => finish_balance st at_ r id l m t Hwf Hl Hres Hr) as Hb.
  assert (forall t, held m' t = held m t - if decide (TenantID (lease l) = t) then Amount (lease l) else 0) as Hh.
  { intros t. unfold m', finish. rewrite held_put, hold_terminate, held_credit by done.
    cbn [credit leases]. rewrite Hl. cbn [from_option]. rewrite hold_reserved by done. lia. }
  fold m' in Hb. split; [|intros t; rewrite Hb, Hh; case_decide; lia].
  split.
  - intros t. rewrite Hb. pose proof (lw_balance m Hwf t). case_decide; lia.
  - intros t. rewrite Hb, Hh. pose proof (lw_total m Hwf t). case_decide; lia.
  - intros id' l'. unfold m', finish, put_lease, credit; cbn [leases]. rewrite lookup_insert.
    case_decide; [intros [= <-]; simpl; lia|]. apply (lw_amount m Hwf).
Qed.

Lemma purge_conserves (id : string) (l : memLease) (m : Memory) :
  ledger_wf m -> leases m !! id = Some l -> lstate (lease l) <> LeaseStateReserved ->
  let m' := mkMemory (balances m) (delete id (leases m)) (leaseTTL m) in
  ledger_wf m' /\ forall t, balance_of m' t = balance_of m t /\ held m' t = held m t.
Proof.
  intros Hwf Hl Ht m'. assert (forall t, held m' t = held m t) as Hh.
  { intros t. unfold held. rewrite (map_sum_delete (hold t) (leases m) id l Hl).
    rewrite hold_terminal by done. done. }
  split; [|done]. split.
  - apply (lw_balance m Hwf).
  - intros t. rewrite Hh. apply (lw_total m Hwf).
  - intros id' l' H. cbn in H. apply lookup_delete_Some in H as [_ H]. by apply (lw_amount m Hwf id').
Qed.

Lemma sweep_lease_conserves rc tc now limit id l expired (m : Memory) :
  ledger_wf m -> leases m !! id = Some l ->
  let m' := (sweep_lease rc tc now limit id l expired m).2 in
  ledger_wf m' /\ forall t, balance_of m' t + held m' t = balance_of m t + held m t.
Proof.
  intros Hwf Hl. unfold sweep_lease. case_decide as Hst.
  - destruct (before (terminalAt l) tc); [|done].
    destruct (purge_conserves id l m Hwf Hl Hst) as [Hwf' Hpt]. split; [done|].
    intros t. cbn [snd]. by destruct (Hpt t) as [-> ->].
  - destruct (_ || _); [done|]. pose proof (lw_amount m Hwf id l Hl) as Ha.
    destruct (finish_conserves LeaseStateExpired now (Amount (lease l)) id l m) as [Hwf' Hpt];
      [done..|lia|].
    split; [done|]. intros t. cbn [snd]. fold (finish LeaseStateExpired now (Amount (lease l)) id l m).
    rewrite Hpt. case_decide; lia.
Qed.

Lemma sweep_walk_conserves rc tc now limit order scanned expired (m : Memory) :
  ledger_wf m ->
  let m' := (sweep_walk rc tc now limit order scanned expired m).2 in
  ledger_wf m' /\ forall t, balance_of m' t + held m' t = balance_of m t + held m t.
Proof.
  revert scanned expired m. induction order as [|id order IH]; intros scanned expired m Hwf; simpl;
    [done|].
  case_decide; [done|]. destruct (leases m !! id) as [l|] eqn:Hl; [|by apply IH].
  pose proof (sweep_lease_conserves rc tc now limit id l expired m Hwf Hl) as [Hwf' Hc].
  destruct (sweep_lease rc tc now limit id l expired m) as [e1 m1]; cbn [snd] in *.
  destruct (IH (scanned + 1) e1 m1 Hwf') as [Hw Ht]. split; [done|].
  intros t. by rewrite Ht, Hc.
Qed.

Lemma settle_refund (a u : Z) :
  0 <= a <= max_int64 -> in_int64 u -> wrap64 (a - Z.max u 0) = a - Z.max u 0.
Proof. intros Ha Hu. apply wrap64_id. unfold in_int64, min_int64, max_int64 in *. lia. Qed.

(** The refund of a settlement, whichever way the code computes it. *)
Lemma settle_is_finish (now u : Z) (id : string) (l : memLease) (m : Memory) :
  ledger_wf m -> leases m !! id = Some l -> lstate (lease l) = LeaseStateReserved ->
  in_int64 u ->
  exists m', Settle now id u m = (None, m') /\ leases m' = <[id := terminate LeaseStateSettled now l]> (leases m)
    /\ leaseTTL m' = leaseTTL m
    /\ forall t, balance_of m' t
         = balance_of (finish LeaseStateSettled now (Z.max 0 (Amount (lease l) - Z.max u 0)) id l m) t.
Proof.
  intros Hwf Hl Hres Hu. pose proof (lw_amount m Hwf id l Hl) as Ha.
  assert (Amount (lease l) <= max_int64) as Ha'.
  { pose proof (held_ge m (TenantID (lease l)) id l Hwf Hl) as Hge.
    rewrite hold_reserved, decide_True in Hge by done.
    pose proof (lw_balance m Hwf (TenantID (lease l))). pose proof (lw_total m Hwf (TenantID (lease l))). lia. }
  unfold Settle. rewrite Hl, decide_False by (rewrite Hres; auto).
  rewrite settle_refund by (done || lia).
  eexists. split_and!; [done| | |]; try (case_decide; done).
  intros t. unfold finish.
  repeat change (balance_of (put_lease ?a ?b ?c) t) with (balance_of c t).
  case_decide; [by rewrite (Z.max_r 0 (Amount (lease l) - Z.max u 0)) by lia|].
  rewrite balance_of_credit, (Z.max_l 0 (Amount (lease l) - Z.max u 0)) by lia. case_decide; [|done]. subst.
  rewrite Z.add_0_r, wrap64_id; [done|].
  pose proof (lw_balance m Hwf (TenantID (lease l))). pose proof (lw_total m Hwf (TenantID (lease l))).
  pose proof (held_nonneg m (TenantID (lease l)) Hwf). unfold in_int64, min_int64. lia.
Qed.

(** Two ledgers with the same leases and the same readable balances. *)
Lemma ledger_wf_same (m m' : Memory) :
  leases m' = leases m -> (forall t, balance_of m' t = balance_of m t) ->
  (ledger_wf m <-> ledger_wf m') /\ (forall t, held m' t = held m t).
Proof.
  intros Hl Hb. assert (forall t, held m' t = held m t) as Hh by (intros t; unfold held; by rewrite Hl).
  split; [|done]. split; intros [H1 H2 H3]; split;
    try (intros t; specialize (H1 t); specialize (H2 t); rewrite ?Hb, ?Hh in *; lia);
    intros id l; rewrite ?Hl in *; apply H3.
Qed.

Lemma set_conserves (t : string) (b : Z) (m : Memory) :
  ledger_wf m -> 0 <= b /\ b + held m t <= max_int64 ->
  let m' := SetBalance t b m in
  ledger_wf m' /\ forall u, balance_of m' u + held m' u
    = balance_of m u + held m u + (if decide (t = u) then b - balance_of m u else 0).
Proof.
  intros Hwf [Hb0 Hb1] m'.
  assert (forall u, balance_of m' u = if decide (t = u) then b else balance_of m u) as Hb.
  { intros u. unfold m', SetBalance, balance_of; cbn [balances].
    rewrite lookup_insert. by case_decide. }
  assert (forall u, held m' u = held m u) as Hh by done.
  split; [split|].
  - intros u. rewrite Hb. pose proof (lw_balance m Hwf u). case_decide; lia.
  - intros u. rewrite Hb, Hh. pose proof (lw_total m Hwf u). case_decide; subst; lia.
  - apply (lw_amount m Hwf).
  - intros u. rewrite Hb, Hh. case_decide; lia.
Qed.

Lemma reserve_conserves (now a : Z) (id t : string) (m : Memory) :
  ledger_wf m -> leases m !! id = None -> 0 <= a ->
  let m' := (Reserve now id t a m).2 in
  ledger_wf m' /\ forall u, balance_of m' u + held m' u = balance_of m u + held m u.
Proof.
  intros Hwf Hid Ha. unfold Reserve.
  destruct (balances m !! t) as [b|] eqn:Hb; [|done]. case_decide as Hba; [done|]. cbn [snd].
  set (l := mkMemLease (mkLease id t a LeaseStateReserved now) 0). set (m' := mkMemory _ _ _).
  pose proof (lw_balance m Hwf t) as Hb0. pose proof (lw_total m Hwf t) as Hb1.
  pose proof (held_nonneg m t Hwf) as Hh0.
  assert (balance_of m t = b) as Hbt by (unfold balance_of; by rewrite Hb).
  rewrite Hbt in Hb0, Hb1.
  assert (forall u, balance_of m' u = balance_of m u - if decide (t = u) then a else 0) as Hbal.
  { intros u. unfold m', balance_of at 1; cbn [balances]. rewrite lookup_insert.
    case_decide; [|fold (balance_of m u); lia]. subst u. cbn. rewrite wrap64_id, Hbt; [done|].
    unfold in_int64, min_int64, max_int64 in *. lia. }
  assert (forall u, held m' u = held m u + if decide (t = u) then a else 0) as Hheld.
  { intros u. unfold m', held; cbn [leases]. rewrite map_sum_insert, Hid. cbn [from_option].
    rewrite hold_reserved by done. unfold l; cbn [lease TenantID Amount]. lia. }
  split; [split|].
  - intros u. rewrite Hbal. pose proof (lw_balance m Hwf u). case_decide; subst; lia.
  - intros u. rewrite Hbal, Hheld. pose proof (lw_total m Hwf u). case_decide; lia.
  - intros id' l'. unfold m'; cbn [leases]. rewrite lookup_insert.
    case_decide; [intros [= <-]; done|]. apply (lw_amount m Hwf).
  - intros u. rewrite Hbal, Hheld. case_decide; lia.
Qed.

Lemma settle_conserves (now u : Z) (id : string) (m : Memory) :
  ledger_wf m -> in_int64 u ->
  let m' := (Settle now id u m).2 in
  ledger_wf m' /\ forall t, balance_of m' t + held m' t
    = balance_of m t + held m t - spent (ESettle now id u) m t.
Proof.
  intros Hwf Hu. simpl. destruct (leases m !! id) as [l|] eqn:Hl.
  2:{ unfold Settle. rewrite Hl. split; [done|]. intros t. simpl. lia. }
  destruct (decide (lstate (lease l) = LeaseStateReserved)) as [Hres|Hres].
  - destruct (settle_is_finish now u id l m Hwf Hl Hres Hu) as (m' & -> & Hl' & _ & Hb'). cbn [snd].
    pose proof (lw_amount m Hwf id l Hl) as Ha.
    destruct (finish_conserves LeaseStateSettled now (Z.max 0 (Amount (lease l) - Z.max u 0)) id l m)
      as [Hwf' Hc]; [done..|lia|].
    destruct (ledger_wf_same (finish LeaseStateSettled now (Z.max 0 (Amount (lease l) - Z.max u 0)) id l m)
      m') as [Hiff Hh]; [by rewrite Hl'|done|].
    split; [by apply Hiff|]. intros t. rewrite Hb', Hh, Hc, hold_reserved by done.
    case_decide; lia.
  - unfold Settle. rewrite Hl, decide_True by done. cbn [snd]. split; [done|].
    intros t. rewrite hold_terminal by done. lia.
Qed.

Lemma cancel_conserves (now : Z) (id : string) (m : Memory) :
  ledger_wf m ->
  let m' := (Cancel now id m).2 in
  ledger_wf m' /\ forall t, balance_of m' t + held m' t = balance_of m t + held m t.
Proof.
  intros Hwf. unfold Cancel. destruct (leases m !! id) as [l|] eqn:Hl; [|done].
  case_decide as Hres; [done|]. cbn [snd].
  pose proof (lw_amount m Hwf id l Hl) as Ha.
  destruct (finish_conserves LeaseStateCancelled now (Amount (lease l)) id l m)
    as [Hwf' Hc]; [done..|lia|].
  split; [done|]. intros t. fold (finish LeaseStateCancelled now (Amount (lease l)) id l m).
  rewrite Hc. case_decide; lia.
Qed.

Lemma event_conserves (e : event) (m : Memory) :
  ledger_wf m -> legal e m ->
  let m' := apply_event e m in
  ledger_wf m' /\ forall t, balance_of m' t + held m' t
    = balance_of m t + held m t + injected e m t - spent e m t.
Proof.
  intros Hwf He. destruct e as [now id t a|now id u|now id|order now limit|t b|t b];
    cbn [apply_event legal injected] in *.
  - destruct He as [Hid Ha]. destruct (reserve_conserves now a id t m Hwf Hid Ha) as [H1 H2].
    split; [done|]. intros u. rewrite H2. simpl. lia.
  - destruct (settle_conserves now u id m Hwf He) as [H1 H2]. split; [done|].
    intros t. rewrite H2. lia.
  - destruct (cancel_conserves now id m Hwf) as [H1 H2]. split; [done|].
    intros t. rewrite H2. simpl. lia.
  - destruct (sweep_walk_conserves (add now (- leaseTTL m)) (add now (- leaseAuditTTL)) now limit
      order 0 0 m Hwf) as [H1 H2]. split; [done|]. intros t. unfold SweepOnce. rewrite H2. simpl. lia.
  - destruct (set_conserves t b m Hwf He) as [H1 H2]. split; [done|].
    intros u. rewrite H2. simpl. lia.
  - unfold EnsureBalance. destruct (balances m !! t) as [b'|] eqn:Hb; cbn [snd].
    + split; [done|]. intros u. simpl. case_decide; lia.
    + destruct (set_conserves t b m Hwf He) as [H1 H2]. split; [done|]. intros u.
      change (mkMemory _ _ _) with (SetBalance t b m). rewrite H2. simpl. case_decide; [|lia].
      subst u. unfold balance_of. rewrite Hb. simpl. lia.
Qed.

(** *** The sweep against its specification *)
Lemma due_terminal (m0 m : Memory) (now : Z) (id : string) (l : memLease) :
  leases m0 !! id = Some l -> lstate (lease l) <> LeaseStateReserved -> due m0 now id = false.
Proof. intros Hl Ht. unfold due, overdue, reserved. by rewrite Hl; simpl; rewrite bool_decide_false. Qed.

Lemma due_reserved (m0 : Memory) (now : Z) (id : string) (l : memLease) :
  leases m0 !! id = Some l -> lstate (lease l) = LeaseStateReserved ->
  due m0 now id = before (CreatedAt (lease l)) (add now (- leaseTTL m0)).
Proof. intros Hl Ht. unfold due, overdue, reserved. by rewrite Hl; simpl; rewrite bool_decide_true. Qed.

(** What the walk leaves at [id], when [order] is still to be visited. *)
Definition walk_lookup (m0 m : Memory) (now : Z) (order vis rec : list string) (id : string)
    : option memLease :=
  if decide (id ∈ order) then swept m0 now vis rec id else leases m !! id.

Lemma walk_lookup_step (m0 m m1 : Memory) (now : Z) (id : string) (order vis rec rec' : list string) :
  id ∉ order -> (forall i, i <> id -> leases m1 !! i = leases m !! i) ->
  (forall i, i <> id -> i ∈ rec <-> i ∈ rec') ->
  leases m1 !! id = swept m0 now (id :: vis) rec' id ->
  forall i, walk_lookup m0 m1 now order vis rec i
            = walk_lookup m0 m now (id :: order) (id :: vis) rec' i.
Proof.
  intros Hid Hoth Hrec Hat i. unfold walk_lookup. destruct (decide (i = id)) as [->|Hne].
  - rewrite decide_False by done. rewrite (decide_True (P := id ∈ id :: order)) by set_solver. done.
  - rewrite Hoth by done. specialize (Hrec i Hne).
    destruct (decide (i ∈ order)) as [Hi|Hi].
    + rewrite (decide_True (P := i ∈ id :: order)) by set_solver. unfold swept.
      destruct (leases m0 !! i); [|done]. repeat case_decide; set_solver.
    + by rewrite (decide_False (P := i ∈ id :: order)) by set_solver.
Qed.

Lemma filter_due_cons (m0 : Memory) (now : Z) (id : string) (ids : list string) :
  filter (fun i => due m0 now i = true) (id :: ids)
  = if due m0 now id then id :: filter (fun i => due m0 now i = true) ids
    else filter (fun i => due m0 now i = true) ids.
Proof.
  destruct (due m0 now id) eqn:E; [by rewrite filter_cons_True|].
  rewrite filter_cons_False; [done|by rewrite E].
Qed.

Lemma reclaimed_sub (m0 : Memory) (now n : Z) (ids : list string) (i : string) :
  i ∈ reclaimed m0 now n ids -> i ∈ ids.
Proof.
  intros H. unfold reclaimed in H. eapply elem_of_subseteq in H;
    [|apply subseteq_take]. by apply list_elem_of_filter in H as [_ H].
Qed.

Lemma refunds_app_hd (m0 : Memory) (t id : string) (l : memLease) (ids : list string) :
  leases m0 !! id = Some l -> refunds m0 t (id :: ids) = hold t id l + refunds m0 t ids.
Proof. intros Hl. simpl. by rewrite Hl. Qed.

(** One iteration: what it counts, leaves at [id] and pays back. *)
Lemma sweep_lease_spec (m0 : Memory) (now limit e : Z) (id : string) (l : memLease) (m : Memory) :
  ledger_wf m -> leases m !! id = Some l ->
  let r := sweep_lease (add now (- leaseTTL m0)) (add now (- leaseAuditTTL)) now limit id l e m in
  let hit := overdue m0 now l && bool_decide (e < limit) in
  ledger_wf r.2 /\ r.1 = e + Z.b2z hit /\
  (forall i, i <> id -> leases r.2 !! i = leases m !! i) /\
  leases r.2 !! id = (if hit then Some (terminate LeaseStateExpired now l)
                      else if stale now l then None else Some l) /\
  (forall t, balance_of r.2 t = balance_of m t + if hit then hold t id l else 0).
Proof.
  intros Hwf Hl r hit.
  pose proof (sweep_lease_conserves (add now (- leaseTTL m0)) (add now (- leaseAuditTTL)) now limit
    id l e m Hwf Hl) as [Hwf' _]. fold r in Hwf'. split; [done|]. clear Hwf'.
  unfold r, hit, sweep_lease, overdue, stale, reserved. clear r hit. case_decide as Hst.
  - rewrite bool_decide_false by done. simpl.
    destruct (before (terminalAt l) _); cbn [fst snd leases].
    + split_and!; [lia|intros; by apply lookup_delete_ne|apply lookup_delete_eq|]. intros t. unfold balance_of. cbn [balances]. lia.
    + split_and!; [lia|done|done|]. intros; lia.
  - rewrite (bool_decide_true (lstate (lease l) = LeaseStateReserved)) by done. rewrite andb_true_l.
    replace (bool_decide (limit <= e)) with (negb (bool_decide (e < limit)))
      by (repeat case_bool_decide; (done || lia)).
    rewrite <- negb_andb, andb_comm.
    destruct (_ && bool_decide (e < limit)); cbn [negb fst snd Z.b2z].
    + pose proof (lw_amount m Hwf id l Hl) as Ha.
      fold (finish LeaseStateExpired now (Amount (lease l)) id l m).
      split_and!; [lia|intros; by apply lookup_insert_ne|apply lookup_insert_eq|].
      intros t. rewrite finish_balance by (done || lia). by rewrite hold_reserved.
    + split_and!; [lia|done|done|]. intros; lia.
Qed.

Lemma reclaimed_cons (m0 : Memory) (now n : Z) (id : string) (l : memLease) (ids : list string) :
  leases m0 !! id = Some l ->
  let hit := overdue m0 now l && bool_decide (0 < n) in
  reclaimed m0 now n (id :: ids)
  = if hit then id :: reclaimed m0 now (n - 1) ids else reclaimed m0 now n ids.
Proof.
  intros Hl hit. unfold hit, reclaimed. rewrite filter_due_cons. unfold due at 1. rewrite Hl. simpl.
  destruct (overdue m0 now l); [|done]. simpl. case_bool_decide.
  - by replace (Z.to_nat n) with (S (Z.to_nat (n - 1))) by lia.
  - by rewrite Z2Nat.nonpos by lia.
Qed.

Lemma sweep_walk_spec (m0 : Memory) (now limit : Z) (order : list string) : forall s e m,
  NoDup order -> ledger_wf m ->
  (forall id, id ∈ order -> exists l, leases m !! id = Some l /\ leases m0 !! id = Some l) ->
  let vis := take (Z.to_nat (scanBatch - s)) order in
  let rec := reclaimed m0 now (limit - e) vis in
  let r := sweep_walk (add now (- leaseTTL m0)) (add now (- leaseAuditTTL)) now limit order s e m in
  r.1 = e + Z.of_nat (length rec) /\
  (forall id, leases r.2 !! id = walk_lookup m0 m now order vis rec id) /\
  (forall t, balance_of r.2 t = balance_of m t + refunds m0 t rec).
Proof.
  induction order as [|id order IH]; intros s e m Hnd Hwf Hin vis rec r.
  { unfold r, rec, vis. rewrite take_nil. unfold reclaimed. rewrite filter_nil, take_nil. simpl.
    split_and!; [lia|done|intros; lia]. }
  unfold r; cbn [sweep_walk]. case_decide as Hs.
  { unfold rec, vis. rewrite Z2Nat.nonpos by lia. unfold reclaimed. rewrite take_0, filter_nil, take_nil.
    cbn [fst snd length refunds foldr]. split_and!; [lia| |intros; lia].
    intros i. unfold walk_lookup. case_decide as Hi; [|done]. destruct (Hin i Hi) as (l & -> & Hl).
    unfold swept. by rewrite Hl, !decide_False by set_solver. }
  assert (vis = id :: take (Z.to_nat (scanBatch - (s + 1))) order) as Hvis.
  { unfold vis. by replace (Z.to_nat (scanBatch - s)) with (S (Z.to_nat (scanBatch - (s + 1)))) by lia. }
  set (vis1 := take (Z.to_nat (scanBatch - (s + 1))) order) in *.
  apply NoDup_cons in Hnd as [Hid Hnd]. destruct (Hin id) as (l & Hl & Hl0); [set_solver|].
  assert (forall n, id ∉ reclaimed m0 now n vis1) as Hidr.
  { intros n Hx%reclaimed_sub. apply Hid. revert Hx. apply subseteq_take. }
  pose proof (sweep_lease_spec m0 now limit e id l m Hwf Hl) as (Hwf1 & He1 & Hoth & Hat & Hbal).
  pose proof (reclaimed_cons m0 now (limit - e) id l vis1 Hl0) as Hrec. rewrite <- Hvis in Hrec. fold rec in Hrec.
  replace (bool_decide (0 < limit - e)) with (bool_decide (e < limit)) in Hrec
    by (repeat case_bool_decide; (done || lia)).
  rewrite Hl. destruct (sweep_lease _ _ now limit id l e m) as [e1 m1]; cbn [fst snd] in *. subst e1.
  destruct (IH (s + 1) (e + Z.b2z (overdue m0 now l && bool_decide (e < limit))) m1)
    as (H1 & H2 & H3); [done|done|intros i Hi; rewrite Hoth by set_solver; apply Hin; set_solver|].
  fold vis1 in H1, H2, H3. rewrite Hvis.
  destruct (overdue m0 now l && bool_decide (e < limit)); cbn [Z.b2z] in *;
    rewrite ?Z.add_0_r in *; rewrite Hrec; try replace (limit - e - 1) with (limit - (e + 1)) by lia.
  - split_and!; [rewrite H1; cbn [length]; lia| |].
    + intros i. rewrite H2. apply walk_lookup_step; [done|done|set_solver|].
      unfold swept. by rewrite Hl0, decide_True by set_solver.
    + intros t. rewrite H3, (refunds_app_hd m0 t id l), Hbal by done. lia.
  - split_and!; [done| |intros t; rewrite H3, Hbal; lia].
    intros i. rewrite H2. apply walk_lookup_step; [done|done|done|].
    unfold swept. by rewrite Hl0, decide_False, decide_True by set_solver.
Qed.

Definition lease_ids (m : Memory) : list string := (map_to_list (leases m)).*1.

(** [order] is an order in which a range may walk the lease map. *)
Definition walk_order (order : list string) (m : Memory) : Prop := order ≡ₚ lease_ids m.

Lemma walk_order_spec (order : list string) (m : Memory) :
  walk_order order m ->
  NoDup order /\ length order = size (leases m) /\
  forall id, id ∈ order <-> exists l, leases m !! id = Some l.
Proof.
  unfold walk_order, lease_ids. intros Ho. split_and!.
  - rewrite Ho. apply NoDup_fst_map_to_list.
  - rewrite Ho. by rewrite length_fmap, length_map_to_list.
  - intros id. rewrite Ho, list_elem_of_fmap. split.
    + intros ([k l] & -> & H%elem_of_map_to_list). eauto.
    + intros [l Hl]. exists (id, l). by rewrite elem_of_map_to_list.
Qed.

Lemma sweep_once_spec (order : list string) (now limit : Z) (m : Memory) :
  ledger_wf m -> walk_order order m ->
  let vis := visited order in
  let rec := reclaimed m now limit vis in
  let r := SweepOnce order now limit m in
  r.1 = Z.of_nat (length rec) /\
  (forall id, leases r.2 !! id = swept m now vis rec id) /\
  (forall t, balance_of r.2 t = balance_of m t + refunds m t rec).
Proof.
  intros Hwf Hord. destruct (walk_order_spec order m Hord) as (Hnd & _ & Hin).
  destruct (sweep_walk_spec m now limit order 0 0 m) as (H1 & H2 & H3); [done|done| |].
  { intros id Hi. apply Hin in Hi as [l Hl]. eauto. }
  rewrite !Z.sub_0_r in H1, H2, H3. split_and!; [done| |done].
  intros id. unfold SweepOnce. rewrite H2. unfold walk_lookup. case_decide as Hi; [done|].
  unfold swept. destruct (leases m !! id) as [l|] eqn:Hl; [|done]. exfalso. apply Hi, Hin. eauto.
Qed.

(** *** Draining a backlog over several ticks *)
Definition live_leases (m : Memory) : Z := map_sum (fun _ l => Z.b2z (reserved l)) (leases m).

Lemma live_leases_nonneg (m : Memory) : 0 <= live_leases m.
Proof. apply map_sum_nonneg. intros k v _. destruct (reserved v); simpl; lia. Qed.

Lemma sweep_lease_live rc tc now limit id l e (m : Memory) :
  leases m !! id = Some l ->
  let r := sweep_lease rc tc now limit id l e m in
  live_leases r.2 + r.1 = live_leases m + e /\ e <= r.1 /\
  (size (leases r.2) <= size (leases m))%nat /\ leaseTTL r.2 = leaseTTL m.
Proof.
  intros Hl. unfold sweep_lease, live_leases. case_decide as Hst.
  - destruct (before _ _); cbn [fst snd leases leaseTTL]; [|split_and!; (done || lia)].
    rewrite (map_sum_delete _ (leases m) id l Hl), map_size_delete_Some by eauto.
    unfold reserved at 2. rewrite (bool_decide_false (lstate (lease l) = _)) by done. split_and!; (done || (simpl; lia)).
  - destruct (_ || _); cbn [fst snd leases leaseTTL put_lease credit]; [split_and!; (done || lia)|].
    rewrite map_sum_insert, Hl, map_size_insert_Some by eauto. cbn [from_option].
    unfold reserved at 1 3. rewrite (bool_decide_true (lstate (lease l) = _)) by done.
    split_and!; (done || (simpl; lia)).
Qed.

Lemma sweep_walk_live rc tc now limit order : forall s e (m : Memory),
  let r := sweep_walk rc tc now limit order s e m in
  live_leases r.2 + r.1 = live_leases m + e /\ e <= r.1 /\
  (size (leases r.2) <= size (leases m))%nat /\ leaseTTL r.2 = leaseTTL m.
Proof.
  induction order as [|id order IH]; intros s e m; simpl; [split_and!; (done || lia)|].
  case_decide; [split_and!; (done || lia)|]. destruct (leases m !! id) as [l|] eqn:Hl; [|apply IH].
  destruct (sweep_lease_live rc tc now limit id l e m Hl) as (H1 & H2 & H3 & H4).
  destruct (sweep_lease rc tc now limit id l e m) as [e1 m1]; cbn [fst snd] in *.
  destruct (IH (s + 1) e1 m1) as (G1 & G2 & G3 & G4). split_and!; [lia|lia|lia|congruence].
Qed.

(** One tick: either the overdue lease is gone, or the batch was full. *)
Lemma tick_progress (now : Z) (order : list string) (m : Memory) (id : string) (l : memLease) :
  ledger_wf m -> walk_order order m -> (size (leases m) <= Z.to_nat scanBatch)%nat ->
  let r := SweepOnce order now Sweeper.sweepBatch m in
  leases r.2 !! id = Some l -> reserved l = true ->
  leases m !! id = Some l /\ (overdue m now l = true -> r.1 = Sweeper.sweepBatch).
Proof.
  intros Hwf Hord Hsize r Hl Hres. destruct (walk_order_spec order m Hord) as (_ & Hlen & Hin).
  destruct (sweep_once_spec order now Sweeper.sweepBatch m Hwf Hord) as (Hc & Hlk & _).
  fold r in Hc, Hlk. rewrite Hlk in Hl. unfold swept in Hl.
  destruct (leases m !! id) as [l0|] eqn:Hl0; [|done].
  case_decide as Hrec; [injection Hl as <-; done|].
  assert (l0 = l) as -> by (repeat case_match; congruence). split; [done|]. intros Hover.
  rewrite Hc. unfold visited, reclaimed in *. rewrite (take_ge order) in * by lia.
  assert (id ∈ filter (fun i => due m now i = true) order) as Hdue.
  { apply list_elem_of_filter. split; [|apply Hin; eauto]. unfold due. by rewrite Hl0. }
  set (overdues := filter (fun i => due m now i = true) order) in *. rewrite length_take.
  destruct (decide (length overdues <= Z.to_nat Sweeper.sweepBatch)%nat) as [Hn|Hn].
  - exfalso. apply Hrec. by rewrite take_ge.
  - rewrite Nat.min_l by lia. rewrite Z2Nat.id; [done|by vm_compute].
Qed.

(** Each tick walks the leases it finds, in some order. *)
Fixpoint ticks_ok (ticks : list (Z * list string)) (m : Memory) : Prop :=
  match ticks with
  | [] => True
  | (now, order) :: ticks =>
      walk_order order m /\ ticks_ok ticks (Sweeper.sweeper_tick now order m).2
  end.

Lemma sweeper_tick_ledger (now : Z) (order : list string) (m : Memory) :
  (Sweeper.sweeper_tick now order m).2 = (SweepOnce order now Sweeper.sweepBatch m).2 /\
  foldr Z.add 0 (from_option (fun n => [n]) [] (Sweeper.sweeper_tick now order m).1)
  = Z.max 0 (SweepOnce order now Sweeper.sweepBatch m).1.
Proof.
  unfold Sweeper.sweeper_tick. destruct (SweepOnce order now Sweeper.sweepBatch m) as [n m'].
  split; [done|]. cbn [fst]. case_decide; cbn [from_option foldr]; lia.
Qed.

Lemma foldr_add_app (xs ys : list Z) : foldr Z.add 0 (xs ++ ys) = foldr Z.add 0 xs + foldr Z.add 0 ys.
Proof. induction xs as [|x xs IH]; simpl; [done|]. rewrite IH. lia. Qed.

(** Over the ticks the observed counts add up to the leases reclaimed, and a
    lease that stays RESERVED although overdue keeps every batch full. *)
Lemma ticks_progress (ticks : list (Z * list string)) : forall m,
  ledger_wf m -> ticks_ok ticks m -> (size (leases m) <= Z.to_nat scanBatch)%nat ->
  let r := Sweeper.StartSweeper ticks m in
  live_leases r.2 + foldr Z.add 0 r.1 = live_leases m /\
  forall id l, leases r.2 !! id = Some l -> reserved l = true ->
    leases m !! id = Some l /\
    (Forall (fun t => overdue m t.1 l = true) ticks ->
     live_leases r.2 + Sweeper.sweepBatch * Z.of_nat (length ticks) <= live_leases m).
Proof.
  induction ticks as [|[now order] ticks IH]; intros m Hwf Hok Hsize; simpl.
  { split; [lia|]. intros id l Hl Hr. split; [done|]. intros _. lia. }
  destruct Hok as [Hord Hok]. destruct (sweeper_tick_ledger now order m) as [Em Es].
  pose proof (sweep_walk_live (add now (- leaseTTL m)) (add now (- leaseAuditTTL)) now Sweeper.sweepBatch
    order 0 0 m) as (L1 & L2 & L3 & L4).
  pose proof (sweep_walk_conserves (add now (- leaseTTL m)) (add now (- leaseAuditTTL)) now
    Sweeper.sweepBatch order 0 0 m Hwf) as [Hwf1 _].
  fold (SweepOnce order now Sweeper.sweepBatch m) in L1, L2, L3, L4, Hwf1.
  pose proof (fun id l => tick_progress now order m id l Hwf Hord Hsize) as Htick.
  destruct (Sweeper.sweeper_tick now order m) as [seen m1]; cbn [fst snd] in *. subst m1.
  destruct (SweepOnce order now Sweeper.sweepBatch m) as [n m1]; cbn [fst snd] in *.
  destruct (IH m1 Hwf1 Hok ltac:(lia)) as [G1 G2].
  destruct (Sweeper.StartSweeper ticks m1) as [rest m2]; cbn [fst snd] in *.
  split; [rewrite foldr_add_app, Es; lia|]. intros id l Hl Hr.
  destruct (G2 id l Hl Hr) as [Hl1 G3]. destruct (Htick id l Hl1 Hr) as [Hl0 Hfull].
  split; [done|]. intros [Ho Hos]%Forall_cons. cbn [fst] in Ho. rewrite (Hfull Ho) in L1.
  assert (Forall (fun t => overdue m1 t.1 l = true) ticks) as Hos1
    by (eapply Forall_impl; [exact Hos|]; intros [t o]; unfold overdue; by rewrite L4).
  specialize (G3 Hos1). lia.
Qed.

(** *** Terminal leases *)
Definition is_reserve_of (id : string) (e : event) : Prop :=
  match e with EReserve _ i _ _ => i = id | _ => False end.

(** The record a run may leave at [id] where it found [l]: the same
    reservation, moved along the lifecycle or purged. *)
Definition descends (l : memLease) (r : option memLease) : Prop :=
  match r with
  | None => True
  | Some l' =>
      ID (lease l') = ID (lease l) /\ TenantID (lease l') = TenantID (lease l) /\
      Amount (lease l') = Amount (lease l) /\ CreatedAt (lease l') = CreatedAt (lease l) /\
      (lstate (lease l) <> LeaseStateReserved -> l' = l)
  end.

Lemma descends_refl (l : memLease) : descends l (Some l).
Proof. done. Qed.

Lemma descends_terminate (l : memLease) (st : LeaseState) (at_ : Z) :
  lstate (lease l) = LeaseStateReserved -> descends l (Some (terminate st at_ l)).
Proof. intros H. simpl. split_and!; [done..|]. by intros []. Qed.

Lemma sweep_walk_none rc tc now limit order : forall s e (m : Memory) id,
  leases m !! id = None ->
  leases (sweep_walk rc tc now limit order s e m).2 !! id = None.
Proof.
  induction order as [|k order IH]; intros s e m id Hid; simpl; [done|].
  case_decide; [done|]. destruct (leases m !! k) as [lk|] eqn:Hk; [|by apply IH].
  assert (id <> k) as Hne by congruence. unfold sweep_lease.
  repeat case_match; simplify_eq; apply IH; cbn [leases put_lease credit];
    rewrite ?lookup_delete_ne, ?lookup_insert_ne by done; done.
Qed.

Lemma sweep_walk_descends rc tc now limit order : forall s e (m : Memory) id l,
  leases m !! id = Some l ->
  descends l (leases (sweep_walk rc tc now limit order s e m).2 !! id).
Proof.
  induction order as [|k order IH]; intros s e m id l Hid; simpl; [by rewrite Hid|].
  case_decide; [by cbn [snd]; rewrite Hid|]. destruct (leases m !! k) as [lk|] eqn:Hk; [|by apply IH].
  unfold sweep_lease. destruct (decide (k = id)) as [->|Hne].
  - assert (lk = l) as -> by congruence. case_decide as Hst.
    + destruct (before _ _); [|by apply IH]. rewrite sweep_walk_none; [done|apply lookup_delete_eq].
    + destruct (_ || _); [by apply IH|].
      pose proof (IH (s + 1) (e + 1) (put_lease id (terminate LeaseStateExpired now l)
        (credit (TenantID (lease l)) (Amount (lease l)) m)) id (terminate LeaseStateExpired now l)
        (lookup_insert_eq _ _ _)) as Hd.
      revert Hd. unfold descends. case_match; [|done]. simpl. intros (? & ? & ? & ? & ?). by split_and!.
  - repeat case_match; simplify_eq; apply IH; cbn [leases put_lease credit];
      rewrite ?lookup_delete_ne, ?lookup_insert_ne by done; done.
Qed.

Lemma event_descends (e : event) (m : Memory) (id : string) (l : memLease) :
  leases m !! id = Some l -> ~ is_reserve_of id e ->
  descends l (leases (apply_event e m) !! id).
Proof.
  intros Hl He. destruct e as [now i t a|now i u|now i|order now limit|t b|t b]; cbn [apply_event].
  - assert (i <> id) as Hne by (by intros ->). unfold Reserve.
    destruct (balances m !! t); [case_decide|]; cbn [snd leases];
      rewrite ?lookup_insert_ne by done; by rewrite Hl.
  - unfold Settle. destruct (leases m !! i) as [li|] eqn:Hi; [|cbn [snd]; by rewrite Hl].
    case_decide as Hst; [by cbn [snd]; rewrite Hl|]. cbn [snd]. destruct (decide (i = id)) as [->|Hne].
    + assert (li = l) as -> by congruence. cbn [put_lease leases]. rewrite lookup_insert_eq.
      by apply descends_terminate.
    + cbn [put_lease leases]. rewrite lookup_insert_ne by done.
      case_decide; cbn [credit leases]; rewrite Hl; done.
  - unfold Cancel. destruct (leases m !! i) as [li|] eqn:Hi; [|cbn [snd]; by rewrite Hl].
    case_decide as Hst; [by cbn [snd]; rewrite Hl|]. cbn [snd put_lease credit leases].
    destruct (decide (i = id)) as [->|Hne].
    + assert (li = l) as -> by congruence. rewrite lookup_insert_eq. by apply descends_terminate.
    + by rewrite lookup_insert_ne, Hl.
  - by apply sweep_walk_descends.
  - cbn [SetBalance leases]. by rewrite Hl.
  - unfold EnsureBalance. case_match; simpl; by rewrite Hl.
Qed.

Lemma event_none (e : event) (m : Memory) (id : string) :
  leases m !! id = None -> ~ is_reserve_of id e -> leases (apply_event e m) !! id = None.
Proof.
  intros Hl He. destruct e as [now i t a|now i u|now i|order now limit|t b|t b]; cbn [apply_event].
  - assert (i <> id) as Hne by (by intros ->). unfold Reserve.
    destruct (balances m !! t); [case_decide|]; cbn [snd leases];
      rewrite ?lookup_insert_ne by done; done.
  - unfold Settle. destruct (leases m !! i) as [li|] eqn:Hi; [|done]. assert (i <> id) by congruence.
    repeat case_decide; cbn [snd put_lease credit leases]; rewrite ?lookup_insert_ne by done; done.
  - unfold Cancel. destruct (leases m !! i) as [li|] eqn:Hi; [|done]. assert (i <> id) by congruence.
    case_decide; cbn [snd put_lease credit leases]; rewrite ?lookup_insert_ne by done; done.
  - by apply sweep_walk_none.
  - done.
  - unfold EnsureBalance. by case_match.
Qed.

Lemma run_none (es : list event) : forall m id,
  leases m !! id = None -> Forall (fun e => ~ is_reserve_of id e) es -> leases (run es m) !! id = None.
Proof.
  induction es as [|e es IH]; intros m id Hl Hes; simpl; [done|].
  apply Forall_cons in Hes as [He Hes]. apply IH; [by apply event_none|done].
Qed.

Lemma descends_trans (l l1 : memLease) (r : option memLease) :
  descends l (Some l1) -> descends l1 r -> descends l r.
Proof.
  destruct r as [l2|]; [|done]. unfold descends.
  intros (? & ? & ? & ? & G1) (? & ? & ? & ? & G2). split_and!; try congruence.
  intros Ht. specialize (G1 Ht). subst l1. by apply G2.
Qed.

Lemma run_descends (es : list event) : forall m id l,
  leases m !! id = Some l -> Forall (fun e => ~ is_reserve_of id e) es ->
  descends l (leases (run es m) !! id).
Proof.
  induction es as [|e es IH]; intros m id l Hl Hes; simpl; [by rewrite Hl|].
  apply Forall_cons in Hes as [He Hes]. pose proof (event_descends e m id l Hl He) as Hd.
  destruct (leases (apply_event e m) !! id) as [l1|] eqn:Hl1.
  - apply (descends_trans l l1); [done|by apply IH].
  - by rewrite run_none.
Qed.
End LedgerFacts.

Module LedgerProps.
Import Ledger LedgerSpec LedgerFacts.

(** C7. Conservation: over any legal run of reservations, settlements,
    cancellations, sweeps (in any order of the walk) and provisioning, each
    tenant's balance plus what its live leases hold changes by exactly the
    provisioned amounts minus the clamped usage settled, and no balance
    ever goes negative or overflows. *)
Theorem ledger_conserves (es : list event) (m : Memory) :
  ledger_wf m -> legal_run es m ->
  let m' := run es m in
  ledger_wf m' /\ forall t, balance_of m' t + held m' t
    = balance_of m t + held m t + total injected es m t - total spent es m t.
Proof.
  revert m. induction es as [|e es IH]; intros m Hwf Hleg; simpl.
  - split; [done|]. intros t. lia.
  - destruct Hleg as [He Hes]. destruct (event_conserves e m Hwf He) as [Hwf1 H1].
    destruct (IH _ Hwf1 Hes) as [Hwf2 H2]. split; [done|]. intros t. rewrite H2, H1. lia.
Qed.

Lemma ledger_conserves_witness :
  let es := [EEnsureBalance "acme" 100; EReserve 1 "a" "acme" 30; EReserve 2 "b" "acme" 50;
             ESettle 3 "a" 12; ESweep ["b"; "a"] (11 * minute) 1000; ESettle (12 * minute) "b" 50] in
  balance_of (run es NewMemory) "acme" = 88 /\ ledger_wf (run es NewMemory).
Proof.
  set (es := [EEnsureBalance "acme" 100; EReserve 1 "a" "acme" 30; EReserve 2 "b" "acme" 50;
             ESettle 3 "a" 12; ESweep ["b"; "a"] (11 * minute) 1000; ESettle (12 * minute) "b" 50]).
  split; [by vm_compute|].
  apply (ledger_conserves es NewMemory).
  - split; [done| |by intros]. intros t. by vm_compute.
  - vm_compute. repeat split; congruence.
Defined.

(** One sweep pass is exactly its specification, whatever the order of
    the walk: it reclaims the first [limit] overdue reservations among the
    first [scanBatch] leases walked, marks exactly those EXPIRED at the
    sweep time, refunds exactly their amounts, purges exactly the visited
    terminal records past the audit window, leaves every other record as
    it was and reports the number of reclaims, never more than [limit]. *)
Theorem sweep_reclaims (order : list string) (now limit : Z) (m : Memory) :
  ledger_wf m -> walk_order order m ->
  let rec := reclaimed m now limit (visited order) in
  let r := SweepOnce order now limit m in
  r.1 = Z.of_nat (length rec) /\ r.1 <= Z.max limit 0 /\ NoDup rec /\
  (forall id l, leases m !! id = Some l ->
     (id ∈ rec -> overdue m now l = true) /\
     leases r.2 !! id =
       (if decide (id ∈ rec) then Some (terminate LeaseStateExpired now l)
        else if decide (id ∈ visited order) then if stale now l then None else Some l
        else Some l)) /\
  (forall id, leases m !! id = None -> leases r.2 !! id = None) /\
  (forall t, balance_of r.2 t = balance_of m t + refunds m t rec).
Proof.
  intros Hwf Hord rec r. destruct (walk_order_spec order m Hord) as (Hnd & _ & _).
  destruct (sweep_once_spec order now limit m Hwf Hord) as (H1 & H2 & H3).
  fold rec r in H1, H2, H3. split_and!.
  - done.
  - rewrite H1. unfold rec, reclaimed. rewrite length_take. lia.
  - unfold rec, reclaimed, visited. apply sublist_NoDup with order; [done|].
    etrans; [apply sublist_take|]. etrans; [apply sublist_filter|apply sublist_take].
  - intros id l Hl. split.
    + intros Hid. unfold rec, reclaimed in Hid. apply subseteq_take in Hid.
      apply list_elem_of_filter in Hid as [Hd _]. unfold due in Hd. by rewrite Hl in Hd.
    + rewrite H2. unfold swept. by rewrite Hl.
  - intros id Hl. rewrite H2. unfold swept. by rewrite Hl.
  - done.
Qed.

(** The background sweeper drains a backlog: with at most [scanBatch]
    leases stored and no more live ones than [sweepBatch] per tick, every
    reservation overdue at the first tick has been reclaimed after the
    last, and the counts handed to the observer add up to the number of
    reservations reclaimed. *)
Theorem sweeper_drains (ticks : list (Z * list string)) (m : Memory) (id : string) (l : memLease) (now0 : Z) :
  ledger_wf m -> ticks_ok ticks m -> (size (leases m) <= Z.to_nat scanBatch)%nat ->
  Forall (fun t => now0 <= t.1) ticks ->
  live_leases m <= Sweeper.sweepBatch * Z.of_nat (length ticks) ->
  leases m !! id = Some l -> overdue m now0 l = true ->
  let r := Sweeper.StartSweeper ticks m in
  (forall l', leases r.2 !! id = Some l' -> reserved l' = false) /\
  foldr Z.add 0 r.1 = live_leases m - live_leases r.2.
Proof.
  intros Hwf Hok Hsize Hnow Hlive Hl Hover r.
  destruct (ticks_progress ticks m Hwf Hok Hsize) as [H1 H2]. fold r in H1, H2.
  split; [|lia]. intros l' Hl'. apply not_true_iff_false. intros Hr.
  destruct (H2 id l' Hl' Hr) as [Hl0 H3]. assert (l' = l) as -> by congruence.
  assert (Forall (fun t => overdue m t.1 l = true) ticks) as Hall.
  { eapply Forall_impl; [exact Hnow|]. intros [t o] Ht. revert Hover. unfold overdue, before, add.
    cbn [fst] in *. destruct (reserved l); simpl; [|done]. lia. }
  specialize (H3 Hall).
  assert (1 <= live_leases r.2); [|lia].
  pose proof (map_sum_ge (fun _ l => Z.b2z (reserved l)) (leases r.2) id l) as Hge.
  cbv beta in Hge. rewrite Hr in Hge. apply Hge; [|done]. intros k v _. destruct (reserved v); simpl; lia.
Qed.

(** Terminal leases are final: settling or cancelling one is a no-op
    that reports no error, and over any run whose reservations use other
    ids the record keeps its identity, tenant and amount, moves only from
    RESERVED to a terminal state, and once terminal is only ever purged
    whole - so at most one settlement, cancellation or expiry of a lease
    moves money. *)
Theorem terminal_leases_final (es : list event) (m : Memory) (id : string) (l : memLease) :
  leases m !! id = Some l -> Forall (fun e => ~ is_reserve_of id e) es ->
  descends l (leases (run es m) !! id) /\
  (lstate (lease l) <> LeaseStateReserved ->
   forall now used, Settle now id used m = (None, m) /\ Cancel now id m = (None, m)).
Proof.
  intros Hl Hes. split; [by apply run_descends|].
  intros Ht now used. unfold Settle, Cancel. by rewrite Hl, !decide_True.
Qed.

End LedgerProps.

Module LedgerWitnesses.
Import Ledger LedgerSpec LedgerFacts LedgerProps.

(** A ledger with two live leases of acme and a settled one. *)
Definition sample : Memory :=
  run [EEnsureBalance "acme" 100; EReserve 1 "a" "acme" 30; EReserve 2 "b" "acme" 50;
       EReserve 3 "c" "acme" 5; ESettle 4 "c" 5] NewMemory.

Lemma NewMemory_wf : ledger_wf NewMemory.
Proof. split; [done| |by intros]. intros t. by vm_compute. Qed.

Lemma sample_wf : ledger_wf sample.
Proof.
  unfold sample. cbn [run].
  repeat (eapply event_conserves; [|vm_compute; repeat split; congruence]).
  apply NewMemory_wf.
Qed.

Lemma sample_order : walk_order ["c"; "b"; "a"] sample.
Proof.
  apply NoDup_Permutation.
  - apply (bool_decide_unpack _). by vm_compute.
  - apply NoDup_fst_map_to_list.
  - replace (lease_ids sample) with ["c"; "a"; "b"] by (by vm_compute). set_solver.
Qed.

Lemma sweep_reclaims_witness :
  (SweepOnce ["c"; "b"; "a"] (2 * 60 * minute) 1 sample).1 = 1 /\
  balance_of (SweepOnce ["c"; "b"; "a"] (2 * 60 * minute) 1 sample).2 "acme" = 65.
Proof.
  pose proof (sweep_reclaims ["c"; "b"; "a"] (2 * 60 * minute) 1 sample sample_wf) as H.
  destruct (H sample_order) as (H1 & _ & _ & _ & _ & H6). rewrite H1, H6. by vm_compute.
Defined.

Lemma sweeper_drains_witness :
  match leases (Sweeper.StartSweeper [(60 * minute, ["c"; "b"; "a"])] sample).2 !! "a" with
  | Some l' => reserved l' = false
  | None => True
  end.
Proof.
  destruct (leases (Sweeper.StartSweeper [(60 * minute, ["c"; "b"; "a"])] sample).2 !! "a") as [l'|] eqn:Hl;
    [|exact I]. revert l' Hl.
  apply (sweeper_drains [(60 * minute, ["c"; "b"; "a"])] sample "a"
    (mkMemLease (mkLease "a" "acme" 30 LeaseStateReserved 1) 0) (20 * minute)).
  - apply sample_wf.
  - split; [apply sample_order|done].
  - replace (size (leases sample)) with 3%nat by (by vm_compute). unfold scanBatch. lia.
  - apply Forall_singleton; by vm_compute.
  - by vm_compute.
  - by vm_compute.
  - by vm_compute.
Defined.

Lemma terminal_leases_final_witness :
  Settle 9 "c" 0 sample = (None, sample) /\ Cancel 9 "c" sample = (None, sample).
Proof.
  apply (terminal_leases_final [ESettle 5 "c" 1; ECancel 6 "a"] sample "c"
    (mkMemLease (mkLease "c" "acme" 5 LeaseStateSettled 3) 4)).
  - by vm_compute.
  - repeat (apply Forall_cons; split; [by intros []|]); by apply Forall_nil.
  - done.
Defined.
End LedgerWitnesses.

(** ** The reconciliation protocol

    The snapshot source and store are the ports [SnapshotSource] and
    [SnapshotStore]; a call can fail, and what a store promises is in
    [SnapshotStoreLaws]. *)
Module Reconcile.

Record Snapshot := mkSnapshot {
  sTenantID : string; sBalance : Z; sConsumed : Z; sRefunded : Z; sDebited : Z;
  sEpoch : Z; sTakenAt : Z
}.

Record TenantDrift := mkTenantDrift { dTenantID : string; Drift : Z }.

Class SnapshotStore (S E : Type) := {
  Latest : S -> string -> option Snapshot + E;
  Append : S -> Snapshot -> S * option E
}.

(** An append that reports an error may have stored the snapshot all the
    same, so it returns the store behind it either way.  Storing a snapshot
    of one tenant changes nothing for another one: what [Latest] reads of
    it, and whether its own append fails. *)
Class SnapshotStoreLaws (S E : Type) `{SnapshotStore S E} := {
  latest_append (s : S) (snap : Snapshot) (t : string) :
    sTenantID snap <> t -> Latest (Append s snap).1 t = Latest s t;
  append_append (s : S) (snap snap' : Snapshot) :
    sTenantID snap <> sTenantID snap' -> (Append (Append s snap).1 snap').2 = (Append s snap').2
}.

Definition debitedDelta (prev snap : Snapshot) : Z := wrap64 (sDebited snap - sDebited prev).
Definition refundedDelta (prev snap : Snapshot) : Z := wrap64 (sRefunded snap - sRefunded prev).
Definition balanceDrop (prev snap : Snapshot) : Z := wrap64 (sBalance prev - sBalance snap).

Definition drift_of (prev snap : Snapshot) : Z :=
  wrap64 (wrap64 (debitedDelta prev snap - refundedDelta prev snap) - balanceDrop prev snap).

(** The named results of [ReconcileOnce], with the per-tenant failures. *)
Record round {E : Type} := mkRound {
  checked : Z; drifted : Z; drifts : list TenantDrift; failures : list (string * E)
}.
Arguments round : clear implicits.

Section reconciler.
Context {S E : Type} `{SnapshotStore S E}.
(** [TenantSnapshot] of the source at this round; [None] is a tenant without
    a ledger. *)
Variable TenantSnapshot : string -> Z -> option Snapshot + E.

Definition fail_tenant (t : string) (e : E) (r : round E) : round E :=
  mkRound E (checked r) (drifted r) (drifts r) (failures r ++ [(t, e)]).

(** The loop body for one tenant. *)
Definition reconcile_tenant (takenAt : Z) (tenantID : string) (s : S) (r : round E) : S * round E :=
  match TenantSnapshot tenantID takenAt with
  | inr e => (s, fail_tenant tenantID e r)
  | inl None => (s, r)
  | inl (Some snap) =>
      match Latest s tenantID with
      | inr e => (s, fail_tenant tenantID e r)
      | inl prev =>
          match Append s snap with
          | (s', Some e) => (s', fail_tenant tenantID e r)
          | (s', None) =>
              match prev with
              | None => (s', r)
              | Some prev =>
                  if negb (sEpoch prev =? sEpoch snap) then (s', r)
                  else
                    let drift := drift_of prev snap in
                    if negb (drift =? 0)
                    then (s', mkRound E (checked r + 1) (drifted r + 1)
                                (drifts r ++ [mkTenantDrift tenantID drift]) (failures r))
                    else (s', mkRound E (checked r + 1) (drifted r) (drifts r) (failures r))
              end
          end
      end
  end.

Fixpoint reconcile_loop (takenAt : Z) (tenants : list string) (s : S) (r : round E) : S * round E :=
  match tenants with
  | [] => (s, r)
  | t :: tenants => let (s', r') := reconcile_tenant takenAt t s r in reconcile_loop takenAt tenants s' r'
  end.

Definition ReconcileOnce (takenAt : Z) (tenants : list string) (s : S) : S * round E :=
  reconcile_loop takenAt tenants s (mkRound E 0 0 [] []).

(** *** The verdict on one tenant, from the store before the round *)
Inductive verdict := Skipped | Failed (e : E) | Checked (drift : Z).

Definition tenant_verdict (takenAt : Z) (s : S) (t : string) : verdict :=
  match TenantSnapshot t takenAt with
  | inr e => Failed e
  | inl None => Skipped
  | inl (Some snap) =>
      match Latest s t, (Append s snap).2 with
      | inr e, _ => Failed e
      | inl _, Some e => Failed e
      | inl None, None => Skipped
      | inl (Some prev), None =>
          if sEpoch prev =? sEpoch snap then Checked (drift_of prev snap) else Skipped
      end
  end.

(** What a verdict contributes to the round's report. *)
Definition failure_of (t : string) (v : verdict) : list (string * E) :=
  match v with Failed e => [(t, e)] | _ => [] end.
Definition drifts_of (t : string) (v : verdict) : list TenantDrift :=
  match v with Checked d => if d =? 0 then [] else [mkTenantDrift t d] | _ => [] end.
Definition checked_of (v : verdict) : Z :=
  match v with Checked _ => 1 | _ => 0 end.

Definition add_verdict (t : string) (v : verdict) (r : round E) : round E :=
  mkRound E (checked r + checked_of v) (drifted r + Z.of_nat (length (drifts_of t v)))
    (drifts r ++ drifts_of t v) (failures r ++ failure_of t v).

Context `{!SnapshotStoreLaws S E}.
Hypothesis source_own : forall t now snap, TenantSnapshot t now = inl (Some snap) -> sTenantID snap = t.

Lemma drift_of_exact (prev snap : Snapshot) :
  drift_of prev snap = wrap64 ((sDebited snap - sDebited prev) - (sRefunded snap - sRefunded prev)
                               - (sBalance prev - sBalance snap)).
Proof.
  unfold drift_of, debitedDelta, refundedDelta, balanceDrop.
  by rewrite (wrap64_sub (sDebited snap - sDebited prev)), wrap64_sub.
Qed.

Lemma reconcile_tenant_verdict (takenAt : Z) (t : string) (s : S) (r : round E) :
  (reconcile_tenant takenAt t s r).2 = add_verdict t (tenant_verdict takenAt s t) r.
Proof.
  unfold reconcile_tenant, tenant_verdict, add_verdict, fail_tenant.
  destruct r as [c d ds fs]; cbn [checked drifted drifts failures].
  repeat case_match; simplify_eq; cbn in *; simplify_eq;
    rewrite ?app_nil_r, ?Z.add_0_r; try done;
    repeat case_match; cbn; rewrite ?app_nil_r, ?Z.add_0_r; try done; congruence.
Qed.

(** Visiting one tenant does not change the verdict on another. *)
Lemma verdict_stable (takenAt : Z) (t u : string) (s : S) (r : round E) :
  t <> u ->
  tenant_verdict takenAt (reconcile_tenant takenAt t s r).1 u = tenant_verdict takenAt s u.
Proof.
  intros Hne. unfold reconcile_tenant.
  destruct (TenantSnapshot t takenAt) as [[snap|]|e] eqn:Ht; [|done..].
  destruct (Latest s t) as [prev|e]; [|done].
  pose proof (source_own _ _ _ Ht) as Hown.
  assert (tenant_verdict takenAt (Append s snap).1 u = tenant_verdict takenAt s u) as Hv.
  { unfold tenant_verdict. destruct (TenantSnapshot u takenAt) as [[snap'|]|e] eqn:Hu; [|done..].
    pose proof (source_own _ _ _ Hu) as Hown'.
    by rewrite (latest_append s snap u), (append_append s snap snap') by congruence. }
  destruct (Append s snap) as [s' [e|]]; [done|].
  destruct prev as [prev|]; [|done]. by repeat case_match.
Qed.

(** The report of a round with the given verdicts. *)
Definition report (v : string -> verdict) (tenants : list string) : round E :=
  mkRound E (foldr Z.add 0 (map (fun t => checked_of (v t)) tenants))
    (Z.of_nat (length (concat (map (fun t => drifts_of t (v t)) tenants))))
    (concat (map (fun t => drifts_of t (v t)) tenants))
    (concat (map (fun t => failure_of t (v t)) tenants)).

Lemma report_ext (v w : string -> verdict) (tenants : list string) :
  (forall t, t ∈ tenants -> v t = w t) -> report v tenants = report w tenants.
Proof.
  intros Heq. unfold report.
  assert (forall (A : Type) (f : string -> verdict -> A),
    map (fun t => f t (v t)) tenants = map (fun t => f t (w t)) tenants) as Hmap.
  { intros A f. apply map_ext_in. intros t Ht%list_elem_of_In. by rewrite Heq. }
  by rewrite (Hmap _ (fun _ => checked_of)), (Hmap _ drifts_of), (Hmap _ failure_of).
Qed.

Definition add_report (r r' : round E) : round E :=
  mkRound E (checked r + checked r') (drifted r + drifted r') (drifts r ++ drifts r')
    (failures r ++ failures r').

Lemma add_verdict_report (t : string) (v : string -> verdict) (r : round E) (tenants : list string) :
  add_report (add_verdict t (v t) r) (report v tenants) = add_report r (report v (t :: tenants)).
Proof.
  unfold add_report, add_verdict, report; cbn [checked drifted drifts failures map concat foldr].
  rewrite length_app, <- !app_assoc. f_equal; lia.
Qed.

Lemma reconcile_loop_verdicts (takenAt : Z) (tenants : list string) : forall s r,
  NoDup tenants ->
  (reconcile_loop takenAt tenants s r).2 = add_report r (report (tenant_verdict takenAt s) tenants).
Proof.
  induction tenants as [|t tenants IH]; intros s r Hnd; simpl.
  { destruct r. unfold add_report, report; simpl. by rewrite !app_nil_r, !Z.add_0_r. }
  apply NoDup_cons in Hnd as [Ht Hnd].
  pose proof (reconcile_tenant_verdict takenAt t s r) as Hr.
  pose proof (fun u => verdict_stable takenAt t u s r) as Hs.
  destruct (reconcile_tenant takenAt t s r) as [s' r']; cbn [fst snd] in *.
  rewrite IH by done. subst r'. rewrite <- add_verdict_report. f_equal.
  apply report_ext. intros u Hu. apply Hs. by intros ->.
Qed.

End reconciler.
End Reconcile.

Module ReconcileProps.
Import Reconcile.

Lemma elem_of_concat_map {A B : Type} (f : A -> list B) (xs : list A) (y : B) :
  y ∈ concat (map f xs) <-> exists x, x ∈ xs /\ y ∈ f x.
Proof.
  rewrite list_elem_of_In, in_concat. split.
  - intros (l & (x & <- & Hx)%in_map_iff & Hy). exists x. by rewrite !list_elem_of_In.
  - intros (x & Hx & Hy). exists (f x). split; [|by apply list_elem_of_In].
    apply in_map_iff. exists x. split; [done|by apply list_elem_of_In].
Qed.

(** A reconcile round judges every tenant on its own: whatever fails for
    one tenant, the report is the list of the per-tenant verdicts taken
    against the store before the round; a drift is reported exactly for the
    tenants whose previous and current snapshots share an epoch and break
    the balance identity, with the (64-bit) size of the gap. *)
Theorem reconcile_isolates {S E : Type} `{SnapshotStoreLaws S E}
    (TenantSnapshot : string -> Z -> option Snapshot + E) (takenAt : Z)
    (tenants : list string) (s : S) :
  (forall t now snap, TenantSnapshot t now = inl (Some snap) -> sTenantID snap = t) ->
  NoDup tenants ->
  let r := (ReconcileOnce TenantSnapshot takenAt tenants s).2 in
  let v := tenant_verdict TenantSnapshot takenAt s in
  r = report v tenants /\
  (forall t e, (t, e) ∈ failures r <-> t ∈ tenants /\ v t = Failed e) /\
  (forall t d, mkTenantDrift t d ∈ drifts r <->
     t ∈ tenants /\ d <> 0 /\ exists prev snap,
       TenantSnapshot t takenAt = inl (Some snap) /\ Latest s t = inl (Some prev) /\
       (Append s snap).2 = None /\ sEpoch prev = sEpoch snap /\
       d = wrap64 ((sDebited snap - sDebited prev) - (sRefunded snap - sRefunded prev)
                   - (sBalance prev - sBalance snap))).
Proof.
  intros Hown Hnd r v. assert (r = report v tenants) as Hr.
  { unfold r, ReconcileOnce. rewrite (reconcile_loop_verdicts TenantSnapshot Hown) by done. fold v.
    unfold add_report; cbn. by rewrite Z.add_0_l. }
  split; [done|]. rewrite Hr. cbn [report drifts failures]. split.
  - intros t e. rewrite elem_of_concat_map. split.
    + intros (x & Hx & He). destruct (v x) as [|e'|] eqn:Hv; cbn [failure_of] in He;
        [by apply elem_of_nil in He| |by apply elem_of_nil in He].
      apply list_elem_of_singleton in He. by injection He as -> ->.
    + intros [Ht Hv]. exists t. split; [done|]. rewrite Hv. cbn. set_solver.
  - intros t d. rewrite elem_of_concat_map. split.
    + intros (x & Hx & Hd). destruct (v x) as [| |d'] eqn:Hv; cbn [drifts_of] in Hd;
        [by apply elem_of_nil in Hd..|].
      destruct (d' =? 0) eqn:Hz; [by apply elem_of_nil in Hd|].
      apply list_elem_of_singleton in Hd. injection Hd as <- <-. split; [done|]. split; [lia|].
      revert Hv. unfold v, tenant_verdict. repeat case_match; try discriminate.
      intros [= <-]. rewrite drift_of_exact. do 2 eexists. split_and!; (done || lia).
    + intros (Ht & Hd & prev & snap & H1 & H2 & H3 & H4 & H5). exists t. split; [done|].
      unfold v, tenant_verdict. rewrite H1, H2, H3, H4, Z.eqb_refl, drift_of_exact, <- H5.
      cbn [drifts_of]. rewrite (proj2 (Z.eqb_neq _ _)) by done. set_solver.
Qed.

(** A map store that loses writes for one tenant. *)
#[local] Instance map_store : SnapshotStore (gmap string Snapshot) string := {
  Latest s t := inl (s !! t);
  Append s snap :=
    if decide (sTenantID snap = "down") then (s, Some "timeout")
    else (<[sTenantID snap := snap]> s, None)
}.

#[local] Instance map_store_laws : SnapshotStoreLaws (gmap string Snapshot) string.
Proof.
  split.
  - intros s snap t Hne. simpl in *. case_decide; [done|]. cbn. by rewrite lookup_insert_ne.
  - intros s snap snap' Hne. simpl in *. by repeat case_decide.
Qed.

Lemma reconcile_isolates_witness :
  let snap t b d := mkSnapshot t b 0 0 d 1 0 in
  let live t (_ : Z) : option Snapshot + string := inl (Some (snap t 90 15)) in
  let s : gmap string Snapshot := {[ "acme" := snap "acme" 100 5; "down" := snap "down" 100 5;
                                     "beta" := snap "beta" 100 6 ]} in
  let r := (ReconcileOnce live 7 ["down"; "acme"; "beta"] s).2 in
  failures r = [("down", "timeout")] /\ drifts r = [mkTenantDrift "beta" (-1)] /\ checked r = 2.
Proof.
  intros snap live s r.
  destruct (reconcile_isolates live 7 ["down"; "acme"; "beta"] s) as [H _].
  - by intros t now sn [= <-].
  - apply (bool_decide_unpack _). by vm_compute.
  - unfold r. rewrite H. by vm_compute.
Defined.
End ReconcileProps.
