(* ===== verification/Snapshots.v ===== *)
(** * The stored ledger snapshots (internal/quota/pgsnapshot.go)

    The table of snapshots, the two statements of the store on it as an
    instance of the port the reconciler asks for, and what rounds over it
    check in the long run.  The driver and the precision of a timestamp
    column are arguments. *)
From stdpp Require Import base numbers gmap strings list.
From S2P Require Import Prelude Quota.
Import GoInt.
Local Open Scope Z_scope.

(** ** The table (deploy/schema.sql) *)
Module SnapshotTable.
Import Reconcile.

(** A row: the columns of a snapshot behind the number of the sequence. *)
Record row := mkRow { id : Z; entry : Snapshot }.
Record table := mkTable { rows : list row; nextval : Z }.

Definition of_tenant (tenantID : string) (t : table) : list row := filter (fun r => sTenantID (entry r) = tenantID) (rows t).

(** ORDER BY id DESC LIMIT 1: the numbers are a primary key. *)
Fixpoint newest (rs : list row) : option row :=
  match rs with
  | [] => None
  | r :: rs => match newest rs with Some b => if id r <? id b then Some b else Some r | None => Some r end
  end.

(** Every row was numbered by the sequence. *)
Definition numbered (t : table) : Prop := Forall (fun r => id r < nextval t) (rows t).
End SnapshotTable.

(** ** The store *)
Module PGSnapshots.
Import Reconcile SnapshotTable.

(** The two statements, by tenant. *)
Inductive statement := SelectLatest (tenantID : string) | InsertSnapshot (tenantID : string).
Inductive failure := LatestFailed | AppendFailed.

(** What becomes of a statement, settled by the time the next one runs: a
    failing one was not applied, or was applied and its reply lost. *)
Inductive fate := Answered | NotApplied | ReplyLost.

Section store.
(** What a TIMESTAMPTZ column keeps of an instant. *)
Variable stored : Z -> Z.

(** The database of a round: its table, and what becomes of the
    statements. *)
Record PGSnapshotStore := mkStore { snapshots : table; fate_of : statement -> fate }.

Definition kept (snap : Snapshot) : Snapshot :=
  mkSnapshot (sTenantID snap) (sBalance snap) (sConsumed snap) (sRefunded snap) (sDebited snap) (sEpoch snap) (stored (sTakenAt snap)).

(** A scanned row carries the tenant that was asked for. *)
Definition scan (tenantID : string) (r : row) : Snapshot :=
  let s := entry r in mkSnapshot tenantID (sBalance s) (sConsumed s) (sRefunded s) (sDebited s) (sEpoch s) (sTakenAt s).

Definition latest (s : PGSnapshotStore) (tenantID : string) : option Snapshot + failure :=
  match fate_of s (SelectLatest tenantID) with
  | Answered => inl (scan tenantID <$> newest (of_tenant tenantID (snapshots s)))
  | _ => inr LatestFailed
  end.

(** The committed insert. *)
Definition insert (snap : Snapshot) (t : table) : table :=
  mkTable (rows t ++ [mkRow (nextval t) (kept snap)]) (nextval t + 1).

Definition append (s : PGSnapshotStore) (snap : Snapshot) : PGSnapshotStore * option failure :=
  match fate_of s (InsertSnapshot (sTenantID snap)) with
  | Answered => (mkStore (insert snap (snapshots s)) (fate_of s), None)
  | NotApplied => (s, Some AppendFailed)
  | ReplyLost => (mkStore (insert snap (snapshots s)) (fate_of s), Some AppendFailed)
  end.

#[export] Instance pg_snapshot_store : SnapshotStore PGSnapshotStore failure := { Latest := latest; Append := append }.

Lemma newest_app_other (rs : list row) (r : row) tenantID :
  sTenantID (entry r) <> tenantID -> filter (fun r => sTenantID (entry r) = tenantID) (rs ++ [r]) = filter (fun r => sTenantID (entry r) = tenantID) rs.
Proof. intros H. rewrite filter_app, filter_cons_False by done. by rewrite filter_nil, app_nil_r. Qed.

Lemma newest_last (rs : list row) (r : row) : Forall (fun x => id x < id r) rs -> newest (rs ++ [r]) = Some r.
Proof. induction 1 as [|x rs Hx _ IH]; [done|]. cbn. rewrite IH. destruct (Z.ltb_spec (id x) (id r)); [done|lia]. Qed.

#[export] Instance pg_snapshot_laws : SnapshotStoreLaws PGSnapshotStore failure.
Proof.
  split.
  - intros s snap t Hne. cbn. unfold append, latest. destruct (fate_of s (InsertSnapshot _)); [|done|]; cbn [fst fate_of snapshots];
      (destruct (fate_of s _); [|done..]); unfold of_tenant, insert; cbn [rows]; by rewrite newest_app_other.
  - intros s snap snap' Hne. cbn. unfold append. destruct (fate_of s (InsertSnapshot (sTenantID snap))); cbn; by destruct (fate_of s _).
Qed.

Lemma insert_numbered snap t : numbered t -> numbered (insert snap t).
Proof.
  unfold numbered, insert. cbn. intros H. apply Forall_app. split; [|constructor; [cbn; lia|done]].
  apply (Forall_impl _ _ _ H). intros r Hr. lia.
Qed.

(** The insert is what the next query reads, whatever the instants say. *)
Lemma newest_insert snap t : numbered t -> newest (of_tenant (sTenantID snap) (insert snap t)) = Some (mkRow (nextval t) (kept snap)).
Proof.
  intros Hn. unfold of_tenant, insert. cbn [rows]. rewrite filter_app, filter_cons_True, filter_nil by done. apply newest_last.
  apply Forall_forall. intros r (_ & Hr)%list_elem_of_filter. revert r Hr. by apply Forall_forall.
Qed.
End store.
End PGSnapshots.

(** ** Rounds over one database *)
Module Rounds.
Import Reconcile SnapshotTable PGSnapshots.

(** One round: its instant, what the ledgers read, what becomes of the
    statements. *)
Record roundEnv := mkRoundEnv {
  at_ : Z; source : string -> Z -> option Snapshot + failure; fails : statement -> fate
}.

Section rounds.
Variable stored : Z -> Z.
Local Existing Instance pg_snapshot_store.
Variable tenants : list string.

(** The rounds of a reconciler one after the other; a gateway that restarts
    in between goes on with the same table. *)
Fixpoint rounds (t : table) (envs : list roundEnv) : table * list (round failure) :=
  match envs with
  | [] => (t, [])
  | e :: envs =>
      let (s, r) := ReconcileOnce (S := PGSnapshotStore) (H := pg_snapshot_store stored) (source e) (at_ e) tenants (mkStore t (fails e)) in
      let (t', rs) := rounds (snapshots s) envs in (t', r :: rs)
  end.

(** The latest stored snapshot of a tenant. *)
Definition last_of (tenantID : string) (t : table) : option Snapshot := scan tenantID <$> newest (of_tenant tenantID t).

(** The gap over the intervals no round compares: those that end with a
    snapshot whose insert was applied and never answered. *)
Definition gap (before after : option Snapshot) : Z :=
  match before, after with Some p, Some q => drift_of p q | _, _ => 0 end.

Fixpoint unseen (tenantID : string) (t : table) (envs : list roundEnv) : Z :=
  match envs with
  | [] => 0
  | e :: envs =>
      let t' := (rounds t [e]).1 in
      match fails e (InsertSnapshot tenantID) with ReplyLost => gap (last_of tenantID t) (last_of tenantID t') | _ => 0 end +
      unseen tenantID t' envs
  end.
End rounds.

(** The drift reports of a tenant. *)
Definition reported (tenantID : string) (ds : list TenantDrift) : Z :=
  foldr (fun d a => if String.eqb (dTenantID d) tenantID then Drift d + a else a) 0 ds.
Definition total (tenantID : string) (rs : list (round failure)) : Z := foldr (fun r a => reported tenantID (drifts r) + a) 0 rs.
End Rounds.

Module RoundsProps.
Import Reconcile SnapshotTable PGSnapshots Rounds.

(** The side of the identity a snapshot states. *)
Definition standing (s : Snapshot) : Z := sDebited s - sRefunded s + sBalance s.

Lemma drift_of_standing p q : drift_of p q = wrap64 (standing q - standing p).
Proof. rewrite drift_of_exact. f_equal. unfold standing. lia. Qed.

(** Drifts add up over the snapshots in between. *)
Lemma drift_of_chain p q r z : wrap64 z = drift_of q r -> wrap64 (drift_of p q + z) = drift_of p r.
Proof.
  rewrite !drift_of_standing. intros H. apply wrap64_eqm.
  rewrite Z.add_mod, wrap64_mod, <- (wrap64_mod z), H, wrap64_mod, <- Z.add_mod by done. f_equal. lia.
Qed.

Lemma reported_app t ds es : reported t (ds ++ es) = reported t ds + reported t es.
Proof. unfold reported. induction ds as [|d ds IH]; [done|]. cbn. rewrite IH. destruct (String.eqb _ _); lia. Qed.

Definition drift_in {E} (v : @verdict E) : Z := match v with Checked d => d | _ => 0 end.

Lemma reported_verdict {E} t u (v : @verdict E) : reported t (drifts_of u v) = if String.eqb u t then drift_in v else 0.
Proof.
  destruct v as [| |d]; cbn; [by destruct (String.eqb _ _)..|]. destruct (Z.eqb_spec d 0) as [->|]; cbn; destruct (String.eqb _ _); lia.
Qed.

(** The report of a round holds the drift of a tenant once. *)
Lemma reported_report {E} t (v : string -> @verdict E) us : NoDup us ->
  reported t (concat (map (fun u => drifts_of u (v u)) us)) = if decide (t ∈ us) then drift_in (v t) else 0.
Proof.
  induction 1 as [|u us Hu _ IH]; [done|]. cbn [map concat]. rewrite reported_app, IH, reported_verdict.
  destruct (String.eqb_spec u t) as [->|Hne].
  - rewrite (decide_True (P := t ∈ t :: us)) by left. rewrite decide_False by done. lia.
  - destruct (decide (t ∈ us)) as [H|H]; [rewrite decide_True by (by right)|rewrite decide_False by (by intros [->|?]%elem_of_cons)]; lia.
Qed.

Section round.
Variable stored : Z -> Z.
Local Existing Instance pg_snapshot_store.
Local Existing Instance pg_snapshot_laws.
Variable src : string -> Z -> option Snapshot + failure.
Hypothesis own : forall t now snap, src t now = inl (Some snap) -> sTenantID snap = t.

Local Abbreviation visit := (reconcile_tenant (S := PGSnapshotStore) (H := pg_snapshot_store stored) src).
Local Abbreviation verdict_on := (tenant_verdict (S := PGSnapshotStore) (H := pg_snapshot_store stored) src).

(** The snapshot a visit stores. *)
Definition stores (now : Z) (fl : statement -> fate) (t : string) : option Snapshot :=
  match src t now with
  | inl (Some snap) =>
      match fl (SelectLatest t), fl (InsertSnapshot t) with Answered, (Answered | ReplyLost) => Some snap | _, _ => None end
  | _ => None
  end.

Lemma stores_own now fl t snap : stores now fl t = Some snap -> sTenantID snap = t.
Proof. unfold stores. destruct (src t now) as [[s|]|e] eqn:Hs; [|done..]. repeat case_match; try done; intros [= <-]; by apply (own _ _ _ Hs). Qed.

Lemma visit_store now t s r :
  (visit now t s r).1 = match stores now (fate_of s) t with Some snap => mkStore (insert stored snap (snapshots s)) (fate_of s) | None => s end.
Proof.
  unfold reconcile_tenant, stores. destruct (src t now) as [[snap|]|e] eqn:Hs; [|done..]. cbn. unfold latest, append. rewrite (own _ _ _ Hs).
  destruct (fate_of s (SelectLatest t)); [|done..]. destruct (fate_of s (InsertSnapshot t)); [|done..]. by repeat case_match.
Qed.

Lemma last_insert_other snap t tab : sTenantID snap <> t -> last_of t (insert stored snap tab) = last_of t tab.
Proof. intros H. unfold last_of, of_tenant, insert. cbn [rows]. by rewrite newest_app_other. Qed.

Lemma last_insert snap tab : numbered tab -> last_of (sTenantID snap) (insert stored snap tab) = Some (kept stored snap).
Proof. intros H. unfold last_of. by rewrite newest_insert. Qed.

(** The table behind the visits of a round. *)
Lemma loop_store now us s r t : NoDup us -> numbered (snapshots s) ->
  let s' := (reconcile_loop (H := pg_snapshot_store stored) src now us s r).1 in
  numbered (snapshots s') /\
  last_of t (snapshots s') = match stores now (fate_of s) t with
                             | Some snap => if decide (t ∈ us) then Some (kept stored snap) else last_of t (snapshots s)
                             | None => last_of t (snapshots s)
                             end.
Proof.
  intros Hnd. revert s r. induction Hnd as [|u us Hu _ IH]; intros s r Hn; cbn [reconcile_loop]; [by split; [|destruct (stores _ _ _)]|].
  pose proof (visit_store now u s r) as Hv. destruct (visit now u s r) as [s1 r1]. cbn [fst] in Hv.
  assert (Hd : fate_of s1 = fate_of s) by (subst s1; by destruct (stores _ _ _)).
  assert (Hn1 : numbered (snapshots s1)) by (subst s1; destruct (stores _ _ _); [by apply insert_numbered|done]).
  destruct (IH s1 r1 Hn1) as [Hn' ->]. split; [done|]. rewrite Hd. destruct (decide (u = t)) as [->|Hne].
  - destruct (stores now (fate_of s) t) as [snap|] eqn:E; [|by subst s1].
    rewrite (decide_False (P := t ∈ us)) by done. rewrite decide_True by left. subst s1.
    rewrite <- (stores_own _ _ _ _ E). by apply last_insert.
  - assert (Hl : last_of t (snapshots s1) = last_of t (snapshots s)).
    { subst s1. destruct (stores now (fate_of s) u) as [snap|] eqn:E; [|done]. cbn [snapshots]. apply last_insert_other.
      by rewrite (stores_own _ _ _ _ E). }
    rewrite Hl. destruct (stores _ _ t); [|done]. destruct (decide (t ∈ us)) as [H|H];
      [by rewrite decide_True by (by right)|by rewrite decide_False by (by intros [->|?]%elem_of_cons)].
Qed.

(** The drift of a tenant in its verdict: nothing where the insert is not
    answered. *)
Definition compared (now : Z) (fl : statement -> fate) (t : string) (p : Snapshot) : Z :=
  match fl (InsertSnapshot t), stores now fl t with Answered, Some snap => drift_of p snap | _, _ => 0 end.

Lemma verdict_drift now t s p : last_of t (snapshots s) = Some p ->
  (forall snap, src t now = inl (Some snap) -> sEpoch snap = sEpoch p) ->
  drift_in (verdict_on now s t) = compared now (fate_of s) t p.
Proof.
  intros Hl He. unfold tenant_verdict, compared, stores. destruct (src t now) as [[snap|]|e] eqn:Hs; [|by destruct (fate_of s _)..].
  cbn. unfold latest, append. rewrite (own _ _ _ Hs). unfold last_of in Hl. rewrite Hl.
  destruct (fate_of s (SelectLatest t)), (fate_of s (InsertSnapshot t)); try done. cbn. by rewrite (He _ eq_refl), Z.eqb_refl.
Qed.

(** One round: what is stored for a tenant, and what is reported of it. *)
Lemma round_step now us s t p : NoDup us -> t ∈ us -> numbered (snapshots s) -> last_of t (snapshots s) = Some p ->
  (forall snap, src t now = inl (Some snap) -> sEpoch snap = sEpoch p) ->
  let (s', r) := ReconcileOnce (H := pg_snapshot_store stored) src now us s in
  numbered (snapshots s') /\ exists q, last_of t (snapshots s') = Some q /\ sEpoch q = sEpoch p /\
  reported t (drifts r) = match fate_of s (InsertSnapshot t) with ReplyLost => 0 | _ => drift_of p q end.
Proof.
  intros Hnd Ht Hn Hl He. unfold ReconcileOnce. pose proof (loop_store now us s (mkRound failure 0 0 [] []) t Hnd Hn) as [Hn' Hl'].
  pose proof (reconcile_loop_verdicts (S := PGSnapshotStore) (SnapshotStoreLaws0 := pg_snapshot_laws stored) src own now us s (mkRound failure 0 0 [] []) Hnd) as Hr.
  destruct (reconcile_loop _ _ _ _ _) as [s' r]. cbn [fst snd] in *. split; [done|].
  assert (Hd : reported t (drifts r) = drift_in (verdict_on now s t)).
  { rewrite Hr. cbn [add_report drifts report app]. rewrite reported_report by done. by rewrite decide_True. }
  rewrite (verdict_drift now t s p Hl He) in Hd. unfold compared in Hd. destruct (stores now (fate_of s) t) as [snap|] eqn:E.
  - exists (kept stored snap). rewrite decide_True in Hl' by done. rewrite Hd. unfold stores in E.
    split_and!; [done| |repeat case_match; simplify_eq; try done].
    destruct (src t now) as [[s1|]|e] eqn:Hs; [|done..]. repeat case_match; try done; injection E as <-; change (sEpoch s1 = sEpoch p); by apply He.
  - exists p. rewrite Hd, drift_of_standing, Z.sub_diag. split_and!; [congruence|done|by destruct (fate_of s _)].
Qed.
End round.

(** C34. Over any number of reconcile rounds on the snapshot table, within one
    epoch of a tenant, restarts in between and statements that fail applied
    or not included, what is reported as the drift of the tenant and the gap
    over the intervals no round compares add up to the gap between its first
    and its last stored snapshot, in 64 bits and whatever the clock says.
    An interval is not compared only where its insert was applied and the
    reply lost; without such an insert the reports alone add up to the gap:
    an interval a round could not store is covered by the next one that
    can. *)
Theorem drift_conserved stored us t envs tab p :
  NoDup us -> t ∈ us -> numbered tab -> last_of t tab = Some p ->
  Forall (fun e => (forall u now snap, source e u now = inl (Some snap) -> sTenantID snap = u) /\
                   (forall snap, source e t (at_ e) = inl (Some snap) -> sEpoch snap = sEpoch p)) envs ->
  let (tab', rs) := rounds stored us tab envs in
  numbered tab' /\ exists q, last_of t tab' = Some q /\ sEpoch q = sEpoch p /\
  wrap64 (total t rs + unseen stored us t tab envs) = drift_of p q /\
  (Forall (fun e => fails e (InsertSnapshot t) <> ReplyLost) envs -> wrap64 (total t rs) = drift_of p q).
Proof.
  intros Hnd Ht Hn Hl Henvs. revert tab p Hn Hl Henvs. induction envs as [|e envs IH]; intros tab p Hn Hl Henvs; cbn [rounds unseen].
  { split; [done|]. exists p. rewrite drift_of_standing, Z.sub_diag. by split_and!. }
  apply Forall_cons in Henvs as [[Hown He] Henvs].
  pose proof (round_step stored (source e) Hown (at_ e) us (mkStore tab (fails e)) t p Hnd Ht Hn Hl He) as Hr.
  destruct (ReconcileOnce _ _ _ _) as [s r]. cbn [fst fate_of] in *. destruct Hr as (Hn1 & q & Hq & Heq & Hrep).
  specialize (IH _ q Hn1 Hq). rewrite Heq in IH. specialize (IH Henvs). destruct (rounds _ _ _ _) as [tab' rs].
  destruct IH as (Hn' & q' & Hq' & Heq' & Htot & Hall). split; [done|]. exists q'. cbn [total foldr]. fold (total t rs).
  rewrite Hrep, Hl, Hq. cbn [gap]. split_and!; [done|congruence| |].
  - rewrite <- (drift_of_chain p q q' _ Htot). f_equal. destruct (fails e _); lia.
  - intros [Hlost Hno]%Forall_cons. rewrite <- (drift_of_chain p q q' _ (Hall Hno)). by destruct (fails e _).
Qed.

(** *** Rounds of one tenant *)
Definition reading (balance debited : Z) (u : string) (now : Z) : option Snapshot + failure :=
  inl (Some (mkSnapshot u balance 0 0 debited 1 now)).
Definition to_the_nanosecond (t : Z) : Z := t.
Definition all_up (_ : statement) : fate := Answered.
Definition insert_is (f : fate) (q : statement) : fate := match q with InsertSnapshot _ => f | SelectLatest _ => Answered end.
Definition first_reading : Snapshot := mkSnapshot "acme" 100 0 0 5 1 0.
Definition one_row : table := mkTable [mkRow 1 first_reading] 2.

(** A round that stores nothing between two that do, on a clock that runs
    backwards: the balance fell by five less than was debited. *)
Definition three_rounds : list roundEnv :=
  [mkRoundEnv 100 (reading 90 15) all_up; mkRoundEnv 60 (reading 70 30) (insert_is NotApplied); mkRoundEnv 50 (reading 70 40) all_up].

Lemma drift_conserved_witness : exists tab' rs q,
  rounds to_the_nanosecond ["acme"%string] one_row three_rounds = (tab', rs) /\ last_of "acme" tab' = Some q /\ sDebited q = 40 /\
  wrap64 (total "acme" rs) = 5.
Proof.
  pose proof (drift_conserved to_the_nanosecond ["acme"%string] "acme" three_rounds one_row first_reading) as H.
  destruct (rounds to_the_nanosecond ["acme"%string] one_row three_rounds) as [tab' rs] eqn:E. destruct H as (_ & q & Hq & _ & _ & Ht).
  - repeat constructor; set_solver.
  - set_solver.
  - repeat constructor.
  - reflexivity.
  - repeat (constructor; [split; [by intros u now snap [= <-]|by intros snap [= <-]]|]). constructor.
  - exists tab', rs, q. vm_compute in E. injection E as <- <-. cbn in Hq. injection Hq as <-. split_and!; [done..|].
    rewrite Ht by (by repeat constructor). reflexivity.
Defined.

(** An insert whose reply is lost leaves its row behind, so that the next
    round compares against a snapshot that was itself never compared: the
    two rounds report nothing of a gap of five. *)
Example unanswered_insert_hides_drift :
  let envs := [mkRoundEnv 100 (reading 90 20) (insert_is ReplyLost); mkRoundEnv 200 (reading 80 30) all_up] in
  let (tab', rs) := rounds to_the_nanosecond ["acme"%string] one_row envs in
  total "acme" rs = 0 /\ unseen to_the_nanosecond ["acme"%string] "acme" one_row envs = 5 /\
  drift_of first_reading <$> last_of "acme" tab' = Some 5.
Proof. by vm_compute. Qed.
End RoundsProps.
