(* ===== verification/Admission.v ===== *)
(** * The cache's admission gate (internal/cache/admission.go)

    A four-row count-min sketch of packed 4-bit counters behind a bloom
    filter ("doorkeeper").  Byte arrays are lists of integers in [0, 255],
    [uint64] arithmetic wraps at 2^64; [hash] is the process-seeded
    [maphash] of a key and is an argument wherever it is used.  Array reads
    out of range would panic in Go: here they read zero, and [gate_wf] with
    [slot_bound] and [doorBit_bound] shows that no access is ever out of
    range. *)
From stdpp Require Import base numbers sets gmap list.
From S2P Require Import Prelude.
Local Open Scope Z_scope.

Module Admission.
Definition sketchRows : nat := 4.
Definition nibblemask : Z := 119.
Definition maxNibble : Z := 15.
Definition doorBitsPerKey : Z := 10.
Definition doorProbeCount : nat := 7.
Definition estimateDoorBoo : Z := 1.
Definition maxTrackedKeys : Z := Z.shiftl 1 21.

Definition u64 (z : Z) : Z := z mod 2 ^ 64.
Definition u8 (z : Z) : Z := z mod 2 ^ 8.

(** Reading and writing one byte of an array. *)
Definition byte_at (l : list Z) (i : Z) : Z := default 0 (l !! Z.to_nat i).
Definition set_byte (l : list Z) (i v : Z) : list Z := <[Z.to_nat i := v]> l.

Record admission := mkAdmission {
  rows : list (list Z); seeds : list Z; mask : Z;
  door : list Z; doorM : Z; incrs : Z; resetAt : Z
}.

(** [for width < trackedKeys { width <<= 1 }] *)
Fixpoint width_loop (fuel : nat) (width trackedKeys : Z) : Z :=
  match fuel with
  | O => width
  | S fuel => if width <? trackedKeys then width_loop fuel (Z.shiftl width 1) trackedKeys else width
  end.

Definition admissionWidth (trackedKeys : Z) : Z :=
  let trackedKeys := if maxTrackedKeys <? trackedKeys then maxTrackedKeys else trackedKeys in
  let trackedKeys := if trackedKeys <? 1 then 1 else trackedKeys in
  width_loop 22 1 trackedKeys.

Definition golden : Z := 11400714819323198485.

Definition newAdmission (trackedKeys : Z) : admission :=
  let width := admissionWidth trackedKeys in
  mkAdmission
    (replicate sketchRows (replicate (Z.to_nat ((width + 1) / 2)) 0))
    (map (fun i => u64 (u64 (Z.of_nat i * golden) + 1)) (seq 0 sketchRows))
    (u64 (width - 1))
    (replicate (Z.to_nat ((doorBitsPerKey * width + 7) / 8)) 0)
    (u64 (doorBitsPerKey * width - 1))
    0 width.

Definition slot (a : admission) (h : Z) (row : nat) : Z :=
  let x := u64 (Z.lxor h (default 0 (seeds a !! row)) * golden) in
  Z.land (Z.lxor x (Z.shiftr x 31)) (mask a).

Definition nibble (idx : Z) (row : list Z) : Z :=
  Z.land (Z.shiftr (byte_at row (Z.shiftr idx 1)) (Z.land idx 1 * 4)) 15.

(** The loop body of [sketchIncrement] on one row. *)
Definition increment_row (idx : Z) (row : list Z) : list Z :=
  let cell := byte_at row (Z.shiftr idx 1) in
  let shift := Z.land idx 1 * 4 in
  let v := Z.land (Z.shiftr cell shift) 15 in
  if v <? maxNibble then set_byte row (Z.shiftr idx 1) (u8 (cell + Z.shiftl 1 shift)) else row.

Definition with_rows (r : list (list Z)) (a : admission) : admission :=
  mkAdmission r (seeds a) (mask a) (door a) (doorM a) (incrs a) (resetAt a).
Definition with_door (d : list Z) (a : admission) : admission :=
  mkAdmission (rows a) (seeds a) (mask a) d (doorM a) (incrs a) (resetAt a).
Definition with_incrs (n : Z) (a : admission) : admission :=
  mkAdmission (rows a) (seeds a) (mask a) (door a) (doorM a) n (resetAt a).

Definition sketchIncrement (h : Z) (a : admission) : admission :=
  with_rows (imap (fun i row => increment_row (slot a h i) row) (rows a)) a.

Definition sketchHalve (a : admission) : admission :=
  with_rows (map (map (fun b => Z.land (Z.shiftr b 1) nibblemask)) (rows a)) a.

Definition doorBit (a : admission) (h probe : Z) : Z :=
  Z.land (u64 (h + u64 (probe * Z.lor (Z.shiftr h 32) 1))) (doorM a).

(** [a.door[bit>>3] & (1<<(bit&7)) == 0], and setting the bit. *)
Definition door_clear (d : list Z) (bit : Z) : bool :=
  Z.land (byte_at d (Z.shiftr bit 3)) (Z.shiftl 1 (Z.land bit 7)) =? 0.
Definition door_set (d : list Z) (bit : Z) : list Z :=
  set_byte d (Z.shiftr bit 3) (Z.lor (byte_at d (Z.shiftr bit 3)) (Z.shiftl 1 (Z.land bit 7))).

Definition probes (a : admission) (h : Z) : list Z :=
  map (fun i => doorBit a h (Z.of_nat i)) (seq 0 doorProbeCount).

Definition doorHas (h : Z) (a : admission) : bool :=
  forallb (fun bit => negb (door_clear (door a) bit)) (probes a h).

Definition doorAdd (h : Z) (a : admission) : bool * admission :=
  if doorHas h a then (true, a)
  else (false, with_door (foldl door_set (door a) (probes a h)) a).

Definition doorReset (a : admission) : admission := with_door (map (fun _ => 0) (door a)) a.

Definition record (h : Z) (a : admission) : admission :=
  let (present, a) := doorAdd h a in
  let a := if present then sketchIncrement h a else a in
  let a := with_incrs (incrs a + 1) a in
  if resetAt a <=? incrs a then sketchHalve (doorReset (with_incrs 0 a)) else a.

Definition estimate (h : Z) (a : admission) : Z :=
  let floor := foldl (fun floor v => if v <? floor then v else floor) maxNibble
                 (imap (fun i row => nibble (slot a h i) row) (rows a)) in
  if doorHas h a then u8 (floor + estimateDoorBoo) else floor.
End Admission.

(** ** Well-formed gates *)
Module AdmissionSpec.
Import Admission.

Definition is_byte (b : Z) : Prop := 0 <= b < 256.

(** The gate of width [2 ^ k]: every row and the door have the length the
    index computations assume. *)
Record gate_wf (k : Z) (a : admission) : Prop := {
  gw_k : 0 <= k <= 21;
  gw_rows : length (rows a) = sketchRows;
  gw_row row : row ∈ rows a ->
    length row = Z.to_nat ((2 ^ k + 1) / 2) /\ Forall is_byte row;
  gw_mask : mask a = 2 ^ k - 1;
  gw_door : length (door a) = Z.to_nat ((doorBitsPerKey * 2 ^ k + 7) / 8);
  gw_bytes : Forall is_byte (door a);
  gw_doorM : doorM a = doorBitsPerKey * 2 ^ k - 1;
  gw_incrs : 0 <= incrs a < resetAt a;
  gw_reset : resetAt a = 2 ^ k
}.

(** [record] over a list of reads, oldest first. *)
Definition record_all (hs : list Z) (a : admission) : admission :=
  foldl (fun a h => record h a) a hs.

Definition reads (h : Z) (hs : list Z) : Z :=
  Z.of_nat (length (filter (fun x => x = h) hs)).
End AdmissionSpec.

Module AdmissionFacts.
Import Admission AdmissionSpec.

(** *** Bit arithmetic *)
Lemma land_1 (x : Z) : Z.land x 1 = x mod 2.
Proof. change 1 with (Z.ones 1). rewrite Z.land_ones by lia. done. Qed.

Lemma land_7 (x : Z) : Z.land x 7 = x mod 8.
Proof. change 7 with (Z.ones 3). rewrite Z.land_ones by lia. done. Qed.

Lemma land_15 (x : Z) : Z.land x 15 = x mod 16.
Proof. change 15 with (Z.ones 4). rewrite Z.land_ones by lia. done. Qed.

Lemma land_mask (x k : Z) : 0 <= k -> Z.land x (2 ^ k - 1) = x mod 2 ^ k.
Proof. intros Hk. rewrite <- Z.land_ones by done. by rewrite Z.ones_equiv, Z.sub_1_r. Qed.

Lemma shiftr_1 (x : Z) : Z.shiftr x 1 = x / 2.
Proof. by rewrite Z.shiftr_div_pow2. Qed.

Lemma shiftr_3 (x : Z) : Z.shiftr x 3 = x / 8.
Proof. by rewrite Z.shiftr_div_pow2. Qed.

Lemma zpow2_pos (k : Z) : 0 <= k -> 0 < 2 ^ k.
Proof. intros. by apply Z.pow_pos_nonneg. Qed.

Lemma byte_at_byte (l : list Z) (i : Z) : Forall is_byte l -> is_byte (byte_at l i).
Proof.
  intros Hl. unfold byte_at. destruct (l !! Z.to_nat i) as [b|] eqn:E; simpl; [|unfold is_byte; lia].
  by eapply Forall_lookup_1.
Qed.

Lemma byte_at_set (l : list Z) (i j v : Z) :
  0 <= i < Z.of_nat (length l) -> 0 <= j ->
  byte_at (set_byte l i v) j = if i =? j then v else byte_at l j.
Proof.
  intros Hi Hj. unfold byte_at, set_byte. destruct (Z.eqb_spec i j) as [->|Hne].
  - by rewrite list_lookup_insert_eq by lia.
  - by rewrite list_lookup_insert_ne by lia.
Qed.

Lemma set_byte_length (l : list Z) (i v : Z) : length (set_byte l i v) = length l.
Proof. apply length_insert. Qed.

Lemma set_byte_bytes (l : list Z) (i v : Z) :
  Forall is_byte l -> is_byte v -> Forall is_byte (set_byte l i v).
Proof. intros. by apply Forall_insert. Qed.

(** *** Indices stay in range *)
Lemma slot_bound (k : Z) (a : admission) (h : Z) (i : nat) :
  gate_wf k a -> 0 <= slot a h i < 2 ^ k.
Proof.
  intros Hwf. unfold slot. rewrite (gw_mask k a Hwf), land_mask by apply Hwf.
  apply Z.mod_pos_bound, zpow2_pos, Hwf.
Qed.

(** The counter of a slot lives inside its row. *)
Lemma slot_byte (k idx : Z) (row : list Z) :
  0 <= k -> 0 <= idx < 2 ^ k -> length row = Z.to_nat ((2 ^ k + 1) / 2) ->
  0 <= idx / 2 < Z.of_nat (length row).
Proof.
  intros Hk Hi ->. pose proof (zpow2_pos k Hk).
  rewrite Z2Nat.id by (apply Z.div_pos; lia). split; [apply Z.div_pos; lia|].
  apply Z.div_lt_upper_bound; [lia|].
  pose proof (Z.div_mod (2 ^ k + 1) 2). pose proof (Z.mod_pos_bound (2 ^ k + 1) 2). lia.
Qed.

(** [doorM] is not a power of two less one: its bits [k+1] and [k+2] are
    clear. *)
Lemma doorM_high (k : Z) : 0 <= k -> (doorBitsPerKey * 2 ^ k - 1) / 2 ^ k = 9.
Proof.
  intros Hk. pose proof (zpow2_pos k Hk). unfold doorBitsPerKey.
  symmetry. apply (Z.div_unique _ _ _ (2 ^ k - 1)); lia.
Qed.

Lemma land_9 (x : Z) : Z.land x 9 ∈ [0; 1; 8; 9].
Proof.
  assert (Z.land x 9 = Z.land (x mod 16) 9) as ->.
  { rewrite <- land_15, <- Z.land_assoc. done. }
  pose proof (Z.mod_pos_bound x 16 ltac:(lia)) as H.
  assert (Forall (fun n => Z.land (Z.of_nat n) 9 ∈ [0; 1; 8; 9]) (seq 0 16)) as Hall
    by (apply (bool_decide_unpack _); by vm_compute).
  rewrite Forall_forall in Hall.
  specialize (Hall (Z.to_nat (x mod 16))). rewrite Z2Nat.id in Hall by lia. apply Hall, elem_of_seq. lia.
Qed.

Lemma doorBit_high (k : Z) (a : admission) (h p : Z) :
  gate_wf k a -> doorBit a h p / 2 ^ k ∈ [0; 1; 8; 9].
Proof.
  intros Hwf. pose proof (gw_k k a Hwf). unfold doorBit.
  rewrite <- Z.shiftr_div_pow2, Z.shiftr_land by lia.
  rewrite (Z.shiftr_div_pow2 (doorM a)) by lia.
  rewrite (gw_doorM k a Hwf), doorM_high by lia. apply land_9.
Qed.

Lemma doorBit_bound (k : Z) (a : admission) (h p : Z) :
  gate_wf k a -> 0 <= doorBit a h p < doorBitsPerKey * 2 ^ k.
Proof.
  intros Hwf. pose proof (gw_k k a Hwf). pose proof (zpow2_pos k ltac:(lia)) as Hp.
  pose proof (doorBit_high k a h p Hwf) as Hh.
  assert (0 <= doorBit a h p) as H0.
  { unfold doorBit. apply Z.land_nonneg. left. apply Z.mod_pos_bound. lia. }
  split; [done|]. pose proof (Z.div_mod (doorBit a h p) (2 ^ k) ltac:(lia)) as Hdm.
  pose proof (Z.mod_pos_bound (doorBit a h p) (2 ^ k) Hp). unfold doorBitsPerKey.
  set_unfold in Hh. nia.
Qed.

Lemma door_byte (k bit : Z) (d : list Z) :
  0 <= k -> 0 <= bit < doorBitsPerKey * 2 ^ k ->
  length d = Z.to_nat ((doorBitsPerKey * 2 ^ k + 7) / 8) -> 0 <= bit / 8 < Z.of_nat (length d).
Proof.
  intros Hk Hb ->. pose proof (zpow2_pos k Hk). unfold doorBitsPerKey in *.
  rewrite Z2Nat.id by (apply Z.div_pos; lia). split; [apply Z.div_pos; lia|].
  apply Z.div_lt_upper_bound; [lia|].
  pose proof (Z.div_mod (10 * 2 ^ k + 7) 8). pose proof (Z.mod_pos_bound (10 * 2 ^ k + 7) 8). lia.
Qed.

(** *** Counters *)
Lemma nibble_arith (idx : Z) (row : list Z) :
  nibble idx row = (byte_at row (idx / 2) / 2 ^ (idx mod 2 * 4)) mod 16.
Proof.
  unfold nibble. rewrite land_15, land_1, shiftr_1, Z.shiftr_div_pow2; [done|].
  pose proof (Z.mod_pos_bound idx 2). lia.
Qed.

Lemma nibble_range (idx : Z) (row : list Z) : 0 <= nibble idx row <= 15.
Proof. rewrite nibble_arith. pose proof (Z.mod_pos_bound (byte_at row (idx / 2) / 2 ^ (idx mod 2 * 4)) 16). lia. Qed.

Definition bump_ok (n : nat) : bool :=
  forallb (fun '(s, t) =>
    let b := Z.of_nat n in
    implb ((b / 2 ^ (s * 4)) mod 16 <? 15)
      ((u8 (b + 2 ^ (s * 4)) / 2 ^ (t * 4)) mod 16
       =? if s =? t then (b / 2 ^ (s * 4)) mod 16 + 1 else (b / 2 ^ (t * 4)) mod 16))
    [(0, 0); (0, 1); (1, 0); (1, 1)].

(** Bumping one counter of a byte leaves the other counter alone. *)
Lemma bump_cell (b s t : Z) :
  is_byte b -> (s = 0 \/ s = 1) -> (t = 0 \/ t = 1) -> (b / 2 ^ (s * 4)) mod 16 < 15 ->
  (u8 (b + 2 ^ (s * 4)) / 2 ^ (t * 4)) mod 16
  = if s =? t then (b / 2 ^ (s * 4)) mod 16 + 1 else (b / 2 ^ (t * 4)) mod 16.
Proof.
  intros Hb Hs Ht Hv. assert (forallb bump_ok (seq 0 256) = true) as Hall by (by vm_compute).
  rewrite forallb_forall in Hall. specialize (Hall (Z.to_nat b)).
  unfold bump_ok, is_byte in *. rewrite Z2Nat.id in Hall by lia.
  rewrite in_seq, forallb_forall in Hall. specialize (Hall ltac:(lia) (s, t)). cbn beta iota in Hall.
  rewrite (proj2 (Z.ltb_lt _ _) Hv) in Hall. apply Z.eqb_eq, Hall.
  destruct Hs as [->| ->], Ht as [->| ->]; simpl; auto.
Qed.

Lemma mod2_cases (x : Z) : x mod 2 = 0 \/ x mod 2 = 1.
Proof. pose proof (Z.mod_pos_bound x 2). lia. Qed.

Lemma increment_row_nibble (idx j : Z) (row : list Z) :
  0 <= idx / 2 < Z.of_nat (length row) -> 0 <= j -> Forall is_byte row ->
  nibble j (increment_row idx row)
  = if idx =? j then Z.min 15 (nibble j row + 1) else nibble j row.
Proof.
  intros Hi Hj Hb. pose proof (nibble_range idx row) as Hr. unfold increment_row.
  fold (nibble idx row). unfold maxNibble. rewrite shiftr_1.
  destruct (Z.ltb_spec (nibble idx row) 15) as [Hlt|Hge].
  2:{ destruct (Z.eqb_spec idx j) as [->|]; lia. }
  rewrite (nibble_arith j), byte_at_set by (try apply Z.div_pos; lia).
  rewrite land_1, Z.shiftl_1_l. rewrite (nibble_arith idx) in Hlt.
  destruct (Z.eqb_spec (idx / 2) (j / 2)) as [Heq|Hne].
  - rewrite bump_cell; [|by apply byte_at_byte|apply mod2_cases|apply mod2_cases|done].
    pose proof (Z.div_mod idx 2). pose proof (Z.div_mod j 2).
    destruct (Z.eqb_spec (idx mod 2) (j mod 2)), (Z.eqb_spec idx j); try lia.
    + subst j. rewrite nibble_arith. lia.
    + by rewrite nibble_arith, Heq.
  - destruct (Z.eqb_spec idx j) as [->|]; [done|]. by rewrite nibble_arith.
Qed.

Lemma increment_row_wf (idx : Z) (row : list Z) :
  Forall is_byte row ->
  length (increment_row idx row) = length row /\ Forall is_byte (increment_row idx row).
Proof.
  intros Hb. unfold increment_row. case_match; [|done]. rewrite set_byte_length. split; [done|].
  apply set_byte_bytes; [done|]. unfold is_byte, u8. apply Z.mod_pos_bound. lia.
Qed.

Lemma halve_row_wf (row : list Z) :
  Forall is_byte row ->
  Forall is_byte (map (fun b => Z.land (Z.shiftr b 1) nibblemask) row).
Proof.
  intros Hb. apply Forall_fmap. eapply Forall_impl; [exact Hb|]. intros b Hb0. cbn.
  unfold is_byte in *. rewrite shiftr_1. split; [apply Z.land_nonneg; right; done|].
  assert (Z.land (b / 2) nibblemask = Z.land (b / 2) nibblemask mod 2 ^ 8) as ->.
  { rewrite <- Z.land_ones by lia. by rewrite <- Z.land_assoc. }
  apply Z.mod_pos_bound. lia.
Qed.

(** *** Door bits *)
Lemma door_clear_testbit (d : list Z) (bit : Z) :
  door_clear d bit = negb (Z.testbit (byte_at d (bit / 8)) (bit mod 8)).
Proof.
  unfold door_clear. rewrite shiftr_3, land_7, Z.shiftl_1_l.
  pose proof (Z.mod_pos_bound bit 8 ltac:(lia)) as Hr.
  set (b := byte_at d (bit / 8)). set (r := bit mod 8) in *.
  assert (Z.land b (2 ^ r) = if Z.testbit b r then 2 ^ r else 0) as ->.
  { apply Z.bits_inj'. intros n Hn. rewrite Z.land_spec, Z.pow2_bits_eqb by lia.
    destruct (Z.eqb_spec r n) as [<-|Hne].
    - destruct (Z.testbit b r); rewrite ?Z.pow2_bits_true, ?Z.bits_0 by lia; done.
    - rewrite andb_false_r. destruct (Z.testbit b r); rewrite ?Z.pow2_bits_false, ?Z.bits_0 by lia; done. }
  pose proof (zpow2_pos r ltac:(lia)). destruct (Z.testbit b r); simpl; lia.
Qed.

Lemma door_set_bits (d : list Z) (bit bit' : Z) :
  0 <= bit / 8 < Z.of_nat (length d) -> 0 <= bit' ->
  door_clear (door_set d bit) bit' = door_clear d bit' && negb (bit =? bit').
Proof.
  intros Hi Hb'. rewrite !door_clear_testbit. unfold door_set.
  rewrite shiftr_3, land_7, Z.shiftl_1_l.
  rewrite byte_at_set by (try apply Z.div_pos; lia).
  pose proof (Z.mod_pos_bound bit 8 ltac:(lia)). pose proof (Z.mod_pos_bound bit' 8 ltac:(lia)).
  pose proof (Z.div_mod bit 8). pose proof (Z.div_mod bit' 8).
  destruct (Z.eqb_spec (bit / 8) (bit' / 8)) as [Heq|Hne].
  - rewrite Z.lor_spec, Z.pow2_bits_eqb, negb_orb, Heq by lia. f_equal. f_equal.
    destruct (Z.eqb_spec (bit mod 8) (bit' mod 8)), (Z.eqb_spec bit bit'); try done; lia.
  - destruct (Z.eqb_spec bit bit') as [->|]; [done|]. by rewrite andb_true_r.
Qed.

Lemma door_set_wf (d : list Z) (bit : Z) :
  Forall is_byte d -> length (door_set d bit) = length d /\ Forall is_byte (door_set d bit).
Proof.
  intros Hd. unfold door_set. rewrite set_byte_length. split; [done|].
  apply set_byte_bytes; [done|]. rewrite land_7, Z.shiftl_1_l.
  pose proof (byte_at_byte d (Z.shiftr bit 3) Hd) as Hb. set (b := byte_at d _) in *.
  pose proof (Z.mod_pos_bound bit 8 ltac:(lia)) as Hr. unfold is_byte in *.
  split; [apply Z.lor_nonneg; split; [lia|apply Z.pow_nonneg; lia]|].
  assert (b = b mod 2 ^ 8) as Eb by (rewrite Z.mod_small; lia).
  assert (2 ^ (bit mod 8) = 2 ^ (bit mod 8) mod 2 ^ 8) as Er.
  { symmetry. apply Z.mod_small. split; [apply Z.pow_nonneg; lia|apply Z.pow_lt_mono_r; lia]. }
  rewrite Eb, Er, <- !Z.land_ones, <- Z.land_lor_distr_l, Z.land_ones by lia.
  apply Z.mod_pos_bound. lia.
Qed.

(** *** Geometry *)
Lemma width_loop_spec (fuel : nat) : forall j n,
  0 <= j -> n <= 2 ^ (j + Z.of_nat fuel) ->
  exists k, j <= k /\ width_loop fuel (2 ^ j) n = 2 ^ k /\ n <= 2 ^ k /\ (k = j \/ 2 ^ (k - 1) < n).
Proof.
  induction fuel as [|fuel IH]; intros j n Hj Hn; cbn [width_loop].
  - exists j. rewrite Z.add_0_r in Hn. split_and!; auto; lia.
  - destruct (Z.ltb_spec (2 ^ j) n) as [Hlt|Hge]; [|exists j; split_and!; auto; lia].
    rewrite Z.shiftl_mul_pow2 by lia. change (2 ^ 1) with 2.
    replace (2 ^ j * 2) with (2 ^ (j + 1)) by (rewrite Z.pow_add_r by lia; lia).
    destruct (IH (j + 1) n) as (k & H1 & H2 & H3 & H4); [lia|by replace (j + 1 + Z.of_nat fuel) with (j + Z.of_nat (S fuel)) by lia|].
    exists k. split_and!; [lia|done|done|]. right. destruct H4 as [->|]; [|done].
    by replace (j + 1 - 1) with j by lia.
Qed.

Definition clamp_budget (trackedKeys : Z) : Z := Z.max 1 (Z.min maxTrackedKeys trackedKeys).

Lemma admissionWidth_spec (n : Z) :
  exists k, 0 <= k <= 21 /\ admissionWidth n = 2 ^ k /\ clamp_budget n <= 2 ^ k /\
    (2 ^ (k - 1) < clamp_budget n \/ k = 0).
Proof.
  unfold admissionWidth.
  replace (if (if maxTrackedKeys <? n then maxTrackedKeys else n) <? 1 then 1
           else if maxTrackedKeys <? n then maxTrackedKeys else n) with (clamp_budget n)
    by (unfold clamp_budget; change maxTrackedKeys with 2097152;
        destruct (Z.ltb_spec 2097152 n); [|destruct (Z.ltb_spec n 1)]; simpl; lia).
  assert (1 <= clamp_budget n <= 2 ^ 21) as Hc
    by (unfold clamp_budget; change maxTrackedKeys with (2 ^ 21); lia).
  destruct (width_loop_spec 22 0 (clamp_budget n)) as (k & H1 & H2 & H3 & H4);
    [lia|change (2 ^ (0 + Z.of_nat 22)) with (2 * 2 ^ 21); lia|].
  exists k. split_and!; [lia| |exact H2|done|tauto].
  destruct H4 as [->|H4]; [lia|].
  assert (2 ^ (k - 1) < 2 ^ 21) as H5 by lia. apply Z.pow_lt_mono_r_iff in H5; lia.
Qed.

Lemma Forall_replicate_byte (n : nat) : Forall is_byte (replicate n 0).
Proof. apply Forall_replicate. unfold is_byte. lia. Qed.

Lemma newAdmission_wf (n : Z) :
  exists k, gate_wf k (newAdmission n) /\ clamp_budget n <= 2 ^ k.
Proof.
  destruct (admissionWidth_spec n) as (k & Hk & Hw & Hc & _). exists k. split; [|done].
  pose proof (zpow2_pos k ltac:(lia)) as Hp.
  assert (2 ^ k <= 2 ^ 21) as Hle by (apply Z.pow_le_mono_r; lia).
  unfold newAdmission. rewrite Hw. split; cbn [rows mask door doorM incrs resetAt].
  - lia.
  - apply length_replicate.
  - intros row [-> _]%elem_of_replicate. rewrite length_replicate.
    split; [done|apply Forall_replicate_byte].
  - unfold u64. rewrite Z.mod_small; lia.
  - by rewrite length_replicate.
  - apply Forall_replicate_byte.
  - unfold u64, doorBitsPerKey. rewrite Z.mod_small; lia.
  - lia.
  - done.
Qed.

(** *** Recording preserves the geometry *)
Lemma with_rows_wf (k : Z) (a : admission) (r : list (list Z)) :
  gate_wf k a -> length r = length (rows a) ->
  (forall row, row ∈ r -> length row = Z.to_nat ((2 ^ k + 1) / 2) /\ Forall is_byte row) ->
  gate_wf k (with_rows r a).
Proof. intros [] Hlen Hr. by split; simpl; rewrite ?Hlen. Qed.

Lemma with_door_wf (k : Z) (a : admission) (d : list Z) :
  gate_wf k a -> length d = length (door a) -> Forall is_byte d -> gate_wf k (with_door d a).
Proof. intros [] Hlen Hd. by split; simpl; rewrite ?Hlen. Qed.

Lemma with_incrs_wf (k : Z) (a : admission) (n : Z) :
  gate_wf k a -> 0 <= n < resetAt a -> gate_wf k (with_incrs n a).
Proof. intros [] Hn. by split. Qed.

Lemma sketchIncrement_wf (k h : Z) (a : admission) : gate_wf k a -> gate_wf k (sketchIncrement h a).
Proof.
  intros Hwf. apply with_rows_wf; [done|apply length_imap|].
  intros row (i & r & -> & Hr)%elem_of_lookup_imap_1.
  destruct (gw_row k a Hwf r ltac:(by eapply list_elem_of_lookup_2)) as [Hl Hb].
  destruct (increment_row_wf (slot a h i) r Hb) as [Hl' Hb']. by rewrite Hl'.
Qed.

Lemma sketchHalve_wf (k : Z) (a : admission) : gate_wf k a -> gate_wf k (sketchHalve a).
Proof.
  intros Hwf. apply with_rows_wf; [done|apply length_map|].
  intros row (r & -> & Hr)%list_elem_of_fmap.
  destruct (gw_row k a Hwf r Hr) as [Hl Hb]. split; [by rewrite length_map|by apply halve_row_wf].
Qed.

Lemma probe_bound (k : Z) (a : admission) (h : Z) :
  gate_wf k a -> Forall (fun bit => 0 <= bit < doorBitsPerKey * 2 ^ k) (probes a h).
Proof. intros Hwf. apply Forall_fmap, Forall_true. intros i. by apply doorBit_bound. Qed.

Lemma door_sets (k : Z) (bits : list Z) : forall d,
  0 <= k -> Forall (fun bit => 0 <= bit < doorBitsPerKey * 2 ^ k) bits ->
  length d = Z.to_nat ((doorBitsPerKey * 2 ^ k + 7) / 8) -> Forall is_byte d ->
  let d' := foldl door_set d bits in
  length d' = length d /\ Forall is_byte d' /\
  forall bit, 0 <= bit -> door_clear d' bit = door_clear d bit && forallb (fun x => negb (x =? bit)) bits.
Proof.
  induction bits as [|x bits IH]; intros d Hk Hbits Hlen Hd; cbn [foldl forallb].
  - split_and!; [done..|]. intros. by rewrite andb_true_r.
  - apply Forall_cons in Hbits as [Hx Hbits]. destruct (door_set_wf d x Hd) as [Hl1 Hd1].
    destruct (IH (door_set d x)) as (G1 & G2 & G3); [done..|by rewrite Hl1|done|].
    split_and!; [by rewrite G1|done|]. intros bit Hbit.
    rewrite G3, door_set_bits by (try done; by apply (door_byte k)). by rewrite andb_assoc.
Qed.

Lemma doorAdd_wf (k h : Z) (a : admission) : gate_wf k a -> gate_wf k (doorAdd h a).2.
Proof.
  intros Hwf. unfold doorAdd. destruct (doorHas h a); [done|]. cbn [snd].
  destruct (door_sets k (probes a h) (door a)) as (H1 & H2 & _);
    [apply (gw_k k a Hwf)|by apply probe_bound|apply (gw_door k a Hwf)|apply (gw_bytes k a Hwf)|].
  by apply with_door_wf.
Qed.

Lemma doorReset_wf (k : Z) (a : admission) : gate_wf k a -> gate_wf k (doorReset a).
Proof.
  intros Hwf. apply with_door_wf; [done|apply length_map|].
  apply Forall_fmap, Forall_true. intros x. unfold is_byte, compose. lia.
Qed.

Lemma record_wf (k h : Z) (a : admission) : gate_wf k a -> gate_wf k (record h a).
Proof.
  intros Hwf. unfold record. pose proof (doorAdd_wf k h a Hwf) as Hwf1.
  destruct (doorAdd h a) as [present a1]; cbn [snd] in Hwf1.
  set (a2 := if present then sketchIncrement h a1 else a1).
  assert (gate_wf k a2) as Hwf2 by (unfold a2; destruct present; [by apply sketchIncrement_wf|done]).
  clearbody a2. pose proof (gw_incrs k a2 Hwf2).
  cbn [with_incrs resetAt incrs]. destruct (Z.leb_spec (resetAt a2) (incrs a2 + 1)).
  - apply sketchHalve_wf, doorReset_wf. apply (with_incrs_wf k a2); [done|lia].
  - apply with_incrs_wf; [done|lia].
Qed.

(** *** Counting reads

    [covers n h a]: the gate has seen at least [n] reads of [h] since its
    last reset - the door knows [h], and all but one read are in the
    sketch. *)
Definition covers (n h : Z) (a : admission) : Prop :=
  (1 <= n -> doorHas h a = true) /\
  forall i row, rows a !! i = Some row -> Z.min 15 (n - 1) <= nibble (slot a h i) row.

Lemma sketchIncrement_nibble (k h h' : Z) (a : admission) (i : nat) (row : list Z) :
  gate_wf k a -> rows (sketchIncrement h' a) !! i = Some row ->
  exists row0, rows a !! i = Some row0 /\
    nibble (slot a h i) row
    = if slot a h' i =? slot a h i then Z.min 15 (nibble (slot a h i) row0 + 1)
      else nibble (slot a h i) row0.
Proof.
  intros Hwf Hrow. cbn [sketchIncrement with_rows rows] in Hrow.
  rewrite list_lookup_imap in Hrow. destruct (rows a !! i) as [row0|] eqn:Hr0; [|done].
  cbn in Hrow. injection Hrow as <-. exists row0. split; [done|].
  destruct (gw_row k a Hwf row0 (list_elem_of_lookup_2 _ _ _ Hr0)) as [Hl Hb].
  rewrite increment_row_nibble; [done| | |done].
  - apply (slot_byte k); [apply (gw_k k a Hwf)|by apply slot_bound|done].
  - by apply (slot_bound k).
Qed.

Lemma doorHas_door (k h : Z) (a : admission) (d : list Z) :
  gate_wf k a ->
  (forall bit, 0 <= bit -> door_clear (door a) bit = false -> door_clear d bit = false) ->
  doorHas h a = true -> doorHas h (with_door d a) = true.
Proof.
  intros Hwf Hmono. unfold doorHas. rewrite !forallb_forall. intros H bit Hbit.
  specialize (H bit Hbit). apply negb_true_iff in H. apply negb_true_iff. cbn [with_door door].
  apply Hmono; [|done]. pose proof (probe_bound k a h Hwf) as Hp. rewrite Forall_forall in Hp.
  apply Hp. by apply list_elem_of_In.
Qed.

(** After [doorAdd h'] the door still knows what it knew, and knows [h']. *)
Lemma doorAdd_has (k h h' : Z) (a : admission) :
  gate_wf k a -> doorHas h a = true \/ h = h' -> doorHas h (doorAdd h' a).2 = true.
Proof.
  intros Hwf Hh. unfold doorAdd. destruct (doorHas h' a) eqn:E; cbn [snd].
  - by destruct Hh as [| ->].
  - destruct (door_sets k (probes a h') (door a)) as (_ & _ & Hd);
      [apply (gw_k k a Hwf)|by apply probe_bound|apply (gw_door k a Hwf)|apply (gw_bytes k a Hwf)|].
    destruct Hh as [Hh|<-].
    + apply (doorHas_door k); [done| |done]. intros bit Hbit Hc. by rewrite Hd, Hc.
    + unfold doorHas. apply forallb_forall. intros bit Hbit. apply negb_true_iff.
      change (probes (with_door _ a) h) with (probes a h) in Hbit. cbn [with_door door].
      pose proof (probe_bound k a h Hwf) as Hp. rewrite Forall_forall in Hp.
      rewrite Hd by (by apply Hp, list_elem_of_In). apply andb_false_iff. right.
      apply not_true_iff_false. rewrite forallb_forall. intros Hall. specialize (Hall bit Hbit).
      by rewrite Z.eqb_refl in Hall.
Qed.

Lemma record_covers (k n h h' : Z) (a : admission) :
  gate_wf k a -> incrs a + 1 < resetAt a -> 0 <= n -> covers n h a ->
  covers (n + if decide (h' = h) then 1 else 0) h (record h' a) /\
  incrs (record h' a) = incrs a + 1 /\ resetAt (record h' a) = resetAt a.
Proof.
  intros Hwf Hinc Hn [Hdoor Hrows]. unfold record.
  pose proof (doorAdd_has k h h' a Hwf) as Hhas. pose proof (doorAdd_wf k h' a Hwf) as Hwf1.
  assert (forall i, slot (doorAdd h' a).2 h i = slot a h i) as Hslot
    by (intros i; unfold doorAdd; by destruct (doorHas h' a)).
  assert (rows (doorAdd h' a).2 = rows a) as Hrs by (unfold doorAdd; by destruct (doorHas h' a)).
  assert (incrs (doorAdd h' a).2 = incrs a /\ resetAt (doorAdd h' a).2 = resetAt a) as [Hi1 Hi2]
    by (unfold doorAdd; by destruct (doorHas h' a)).
  assert ((doorAdd h' a).1 = doorHas h' a) as Hpres by (unfold doorAdd; by destruct (doorHas h' a)).
  destruct (doorAdd h' a) as [present a1]; cbn [fst snd] in *. subst present.
  cbn [with_incrs resetAt incrs].
  assert (forall b : bool, resetAt (if b then sketchIncrement h' a1 else a1) = resetAt a /\
    incrs (if b then sketchIncrement h' a1 else a1) = incrs a) as Hif by (by intros []).
  destruct (Hif (doorHas h' a)) as [Hr Hi]. rewrite Hr, Hi.
  rewrite (proj2 (Z.leb_gt _ _)) by lia. split; [|by cbn [with_incrs incrs resetAt]; rewrite ?Hi, ?Hr].
  split.
  - intros Hn1. assert (doorHas h a1 = true) as Hd.
    { apply Hhas. destruct (decide (h' = h)) as [->|Hne]; [by right|left]. apply Hdoor. lia. }
    by destruct (doorHas h' a).
  - intros i row Hrow. cbn [with_incrs rows] in Hrow.
    change (slot (with_incrs (incrs a + 1) (if doorHas h' a then sketchIncrement h' a1 else a1)) h i)
      with (slot (if doorHas h' a then sketchIncrement h' a1 else a1) h i).
    destruct (doorHas h' a) eqn:Hp.
    + destruct (sketchIncrement_nibble k h h' a1 i row Hwf1 Hrow) as (row0 & Hr0 & Heq).
      change (slot (sketchIncrement h' a1) h i) with (slot a1 h i). rewrite Heq, Hslot.
      rewrite Hrs in Hr0. specialize (Hrows i row0 Hr0).
      destruct (decide (h' = h)) as [->|Hne]; [rewrite Hslot, Z.eqb_refl; lia|].
      pose proof (nibble_range (slot a h i) row0). clear - H Hrows Hn. destruct (slot a1 h' i =? slot a h i); lia.
    + rewrite Hslot, Hrs in *. specialize (Hrows i row Hrow). pose proof (nibble_range (slot a h i) row).
      destruct (decide (h' = h)) as [->|Hne]; [|lia].
      assert (n = 0); [|lia]. destruct (decide (1 <= n)); [|lia].
      rewrite Hdoor in Hp by done. done.
Qed.

Lemma record_all_covers (k h : Z) (hs : list Z) : forall n a,
  gate_wf k a -> incrs a + Z.of_nat (length hs) < resetAt a -> 0 <= n -> covers n h a ->
  gate_wf k (record_all hs a) /\ covers (n + reads h hs) h (record_all hs a).
Proof.
  induction hs as [|x hs IH]; intros n a Hwf Hinc Hn Hc; cbn [record_all foldl].
  - split; [done|]. unfold reads. rewrite filter_nil. by rewrite Z.add_0_r.
  - cbn [length] in Hinc.
    destruct (record_covers k n h x a) as (H1 & H2 & H3); [done|lia|done|done|].
    destruct (IH (n + if decide (x = h) then 1 else 0) (record x a)) as [G1 G2];
      [by apply record_wf|rewrite H2, H3; lia|case_decide; lia|done|].
    split; [done|]. revert G2. unfold reads. rewrite filter_cons. intros G2.
    destruct (decide (x = h)); cbn [length];
      match goal with |- covers ?m _ _ => match type of G2 with covers ?m' _ _ =>
        replace m with m' by lia end end; done.
Qed.

(** *** The estimate *)
Lemma foldl_floor_bounds (vs : list Z) (lo : Z) : forall acc,
  lo <= acc -> Forall (fun v => lo <= v) vs ->
  lo <= foldl (fun floor v => if v <? floor then v else floor) acc vs <= acc.
Proof.
  induction vs as [|v vs IH]; intros acc Hacc Hvs; cbn [foldl]; [lia|].
  apply Forall_cons in Hvs as [Hv Hvs]. destruct (Z.ltb_spec v acc).
  - specialize (IH v Hv Hvs). lia.
  - by apply IH.
Qed.

Lemma estimate_bounds (n h : Z) (a : admission) :
  0 <= n -> covers n h a -> Z.min 16 n <= estimate h a <= 16.
Proof.
  intros Hn [Hdoor Hrows]. unfold estimate.
  assert (Forall (fun v => Z.max 0 (Z.min 15 (n - 1)) <= v) (imap (fun i row => nibble (slot a h i) row) (rows a))) as Hall.
  { apply Forall_forall. intros v (i & row & -> & Hrow)%elem_of_lookup_imap_1.
    specialize (Hrows i row Hrow). pose proof (nibble_range (slot a h i) row). lia. }
  pose proof (foldl_floor_bounds _ (Z.max 0 (Z.min 15 (n - 1))) maxNibble ltac:(unfold maxNibble; lia) Hall) as Hf.
  set (floor := foldl _ _ _) in *. unfold maxNibble in Hf.
  destruct (doorHas h a).
  - unfold u8, estimateDoorBoo. rewrite Z.mod_small by lia. lia.
  - assert (n = 0); [|lia]. destruct (decide (1 <= n)); [|lia]. by specialize (Hdoor ltac:(done)).
Qed.

Lemma reads_nonneg (h : Z) (hs : list Z) : 0 <= reads h hs.
Proof. unfold reads. lia. Qed.

Lemma doorAdd_incrs (x : Z) (a : admission) :
  incrs (doorAdd x a).2 = incrs a /\ resetAt (doorAdd x a).2 = resetAt a.
Proof. unfold doorAdd. by destruct (doorHas x a). Qed.
End AdmissionFacts.

Module AdmissionProps.
Import Admission AdmissionSpec AdmissionFacts.

(** *** Ageing *)
Lemma halve_byte (b : Z) (s : Z) :
  is_byte b -> (s = 0 \/ s = 1) ->
  (Z.land (Z.shiftr b 1) nibblemask / 2 ^ (s * 4)) mod 16 = ((b / 2 ^ (s * 4)) mod 16) / 2.
Proof.
  intros Hb Hs.
  assert (Forall (fun n : nat => Forall (fun s => (Z.land (Z.shiftr (Z.of_nat n) 1) nibblemask / 2 ^ (s * 4)) mod 16
    = ((Z.of_nat n / 2 ^ (s * 4)) mod 16) / 2) [0; 1]) (seq 0 256)) as Hall
    by (apply (bool_decide_unpack _); by vm_compute).
  rewrite Forall_forall in Hall. unfold is_byte in Hb.
  specialize (Hall (Z.to_nat b) ltac:(apply elem_of_seq; lia)). rewrite Z2Nat.id in Hall by lia.
  rewrite Forall_forall in Hall. apply Hall. destruct Hs as [-> | ->]; set_solver.
Qed.

Lemma halve_nibble (idx : Z) (row : list Z) :
  Forall is_byte row ->
  nibble idx (map (fun b => Z.land (Z.shiftr b 1) nibblemask) row) = nibble idx row / 2.
Proof.
  intros Hb. rewrite !nibble_arith.
  rewrite <- halve_byte by (apply byte_at_byte || apply mod2_cases; done). f_equal. f_equal.
  unfold byte_at. rewrite list_lookup_fmap. by destruct (row !! Z.to_nat (idx / 2)).
Qed.

(** The door forgets everything. *)
Lemma doorReset_has (h : Z) (a : admission) : doorHas h (doorReset a) = false.
Proof.
  unfold doorHas, probes, doorProbeCount. cbn [seq map forallb].
  assert (forall bit, door_clear (door (doorReset a)) bit = true) as Hc.
  { intros bit. unfold door_clear, byte_at. cbn [doorReset with_door door].
    rewrite list_lookup_fmap. by destruct (door a !! _). }
  by rewrite Hc.
Qed.

Lemma imap_map_ext {A B C : Type} (f : nat -> B -> C) (g : A -> B) (xs : list A) :
  imap f (map g xs) = imap (fun i x => f i (g x)) xs.
Proof. apply imap_fmap. Qed.

Lemma foldl_min_half (vs : list Z) : forall acc acc',
  acc' = acc / 2 ->
  foldl (fun floor v => if v <? floor then v else floor) acc' (map (fun v => v / 2) vs)
  = foldl (fun floor v => if v <? floor then v else floor) acc vs / 2.
Proof.
  induction vs as [|v vs IH]; intros acc acc' ->; cbn [map foldl]; [done|].
  apply IH. destruct (Z.ltb_spec v acc), (Z.ltb_spec (v / 2) (acc / 2)); try done.
  - assert (v / 2 <= acc / 2) by (apply Z.div_le_mono; lia). lia.
  - assert (acc / 2 <= v / 2) by (apply Z.div_le_mono; lia). lia.
Qed.

Definition floor_of (h : Z) (a : admission) : Z :=
  foldl (fun floor v => if v <? floor then v else floor) maxNibble
    (imap (fun i row => nibble (slot a h i) row) (rows a)).

Lemma floor_le (h : Z) (a : admission) : floor_of h a <= maxNibble.
Proof.
  apply (foldl_floor_bounds _ 0); [done|]. apply Forall_forall.
  intros v (i & row & -> & _)%elem_of_lookup_imap_1. apply nibble_range.
Qed.

Lemma halve_estimate (k h : Z) (a : admission) :
  gate_wf k a -> estimate h (sketchHalve (doorReset a)) = floor_of h a / 2.
Proof.
  intros Hwf. unfold estimate. change (doorHas h (sketchHalve (doorReset a))) with (doorHas h (doorReset a)).
  rewrite doorReset_has. cbn [sketchHalve with_rows rows doorReset with_door].
  rewrite imap_map_ext.
  assert (imap (fun i row => nibble (slot (sketchHalve (doorReset a)) h i)
            (map (fun b => Z.land (Z.shiftr b 1) nibblemask) row)) (rows a)
    = map (fun v => v / 2) (imap (fun i row => nibble (slot a h i) row) (rows a))) as Hmap.
  { rewrite fmap_imap. apply imap_ext. intros i row Hrow. unfold compose.
    apply halve_nibble. apply (gw_row k a Hwf row). by eapply list_elem_of_lookup_2. }
  cbn [sketchHalve with_rows rows doorReset with_door] in Hmap. rewrite Hmap. unfold floor_of.
  assert (Forall (fun v => 0 <= v <= 15) (imap (fun i row => nibble (slot a h i) row) (rows a))) as Hall.
  { apply Forall_forall. intros v (i & row & -> & _)%elem_of_lookup_imap_1. apply nibble_range. }
  assert (length (imap (fun i row => nibble (slot a h i) row) (rows a)) = sketchRows) as Hlen
    by (rewrite length_imap; apply (gw_rows k a Hwf)).
  revert Hall Hlen. generalize (imap (fun i row => nibble (slot a h i) row) (rows a)).
  intros [|v vs] Hall Hlen; [done|].
  apply Forall_cons in Hall as [Hv _]. cbn [map foldl]. unfold maxNibble.
  assert (v / 2 <= 7) by (change 7 with (15 / 2); apply Z.div_le_mono; lia).
  rewrite (proj2 (Z.ltb_lt (v / 2) 15)) by lia. apply foldl_min_half.
  destruct (Z.ltb_spec v 15); f_equal; lia.
Qed.

(** The gate never indexes out of range: a gate built for any budget,
    fed any reads, keeps its geometry - a power-of-two width covering the
    clamped budget and at most [maxTrackedKeys] - and every counter and
    door probe of every hash falls inside its array. *)
Theorem admission_in_bounds (trackedKeys : Z) (hs : list Z) :
  let a := record_all hs (newAdmission trackedKeys) in
  exists k, gate_wf k a /\ clamp_budget trackedKeys <= 2 ^ k <= maxTrackedKeys /\
  forall h,
    (forall i row, rows a !! i = Some row -> 0 <= Z.shiftr (slot a h i) 1 < Z.of_nat (length row)) /\
    (forall p, 0 <= Z.shiftr (doorBit a h p) 3 < Z.of_nat (length (door a))).
Proof.
  intros a. destruct (newAdmission_wf trackedKeys) as (k & Hwf0 & Hc). exists k.
  assert (gate_wf k a) as Hwf.
  { unfold a. clear Hc a. revert Hwf0. generalize (newAdmission trackedKeys).
    induction hs as [|x hs IH]; intros a Ha; cbn [record_all foldl]; [done|].
    by apply IH, record_wf. }
  pose proof (gw_k k a Hwf) as Hk. split; [done|]. split.
  { split; [done|]. change maxTrackedKeys with (2 ^ 21). apply Z.pow_le_mono_r; lia. }
  intros h. split.
  - intros i row Hrow. rewrite shiftr_1. apply (slot_byte k); [lia|by apply slot_bound|].
    apply (gw_row k a Hwf row). by eapply list_elem_of_lookup_2.
  - intros p. rewrite shiftr_3. apply (door_byte k); [lia|by apply doorBit_bound|apply (gw_door k a Hwf)].
Qed.

(** Between two ageing steps the gate never under-counts: the estimate
    of a key is at least the number of its reads (up to the saturation at
    16) and at most 16; the ageing step leaves at most half of the
    counters' minimum and forgets the doorkeeper. *)
Theorem estimate_never_under (k : Z) (a : admission) (hs : list Z) :
  gate_wf k a ->
  (incrs a + Z.of_nat (length hs) < resetAt a ->
   forall h, Z.min 16 (reads h hs) <= estimate h (record_all hs a) <= 16) /\
  (forall h x, incrs a + 1 = resetAt a ->
     exists a', incrs (record x a) = 0 /\ record x a = sketchHalve (doorReset a') /\
       estimate h (record x a) = floor_of h a' / 2).
Proof.
  intros Hwf. split.
  - intros Hinc h. pose proof (reads_nonneg h hs) as Hr.
    destruct (record_all_covers k h hs 0 a) as [_ Hc]; [done|done|done| |].
    { split; [done|]. intros i row _. pose proof (nibble_range (slot a h i) row). lia. }
    by apply estimate_bounds in Hc.
  - intros h x Hinc. pose proof (doorAdd_wf k x a Hwf) as Hwf1.
    pose proof (doorAdd_incrs x a) as [Hi Hr]. unfold record.
    destruct (doorAdd x a) as [present a1]; cbn [snd] in *.
    set (a2 := if present then sketchIncrement x a1 else a1).
    assert (gate_wf k a2) as Hwf2 by (unfold a2; destruct present; [by apply sketchIncrement_wf|done]).
    assert (incrs a2 = incrs a /\ resetAt a2 = resetAt a) as [Hi2 Hr2]
      by (unfold a2; by destruct present).
    cbn [with_incrs resetAt incrs]. rewrite (proj2 (Z.leb_le _ _)) by lia.
    exists (with_incrs 0 a2). split_and!; [done|done|]. apply (halve_estimate k).
    apply with_incrs_wf; [done|]. pose proof (gw_incrs k a2 Hwf2). lia.
Qed.

Lemma estimate_never_under_witness :
  2 <= estimate 77 (record_all [77; 12; 77] (newAdmission 8)) <= 16.
Proof.
  destruct (estimate_never_under 3 (newAdmission 8) [77; 12; 77]) as [H _].
  - destruct (newAdmission_wf 8) as (k & Hwf & _).
    assert (k = 3) as ->; [|done]. pose proof (gw_reset k _ Hwf) as Hr.
    change (resetAt (newAdmission 8)) with (2 ^ 3) in Hr. pose proof (gw_k k _ Hwf).
    apply Z.pow_inj_r in Hr; lia.
  - apply (H ltac:(by vm_compute) 77).
Defined.

(** The doorkeeper reaches only four tenths of its bits: [doorM] is ten
    times the width less one, which is no mask, so every probe of every
    hash lands in one of four width-sized blocks out of ten. *)
Theorem doorkeeper_positions (trackedKeys h p : Z) :
  let a := newAdmission trackedKeys in
  exists k, resetAt a = 2 ^ k /\ Z.of_nat (length (door a)) * 8 >= 10 * 2 ^ k /\
    doorBit a h p / 2 ^ k ∈ [0; 1; 8; 9] /\ 0 <= doorBit a h p < 10 * 2 ^ k.
Proof.
  intros a. destruct (newAdmission_wf trackedKeys) as (k & Hwf & _). exists k.
  split_and!; [apply (gw_reset k _ Hwf)| |by apply doorBit_high|apply (doorBit_bound k a h p Hwf)..].
  change (gate_wf k a) in Hwf. rewrite (gw_door k a Hwf). unfold doorBitsPerKey. pose proof (gw_k k _ Hwf).
  pose proof (zpow2_pos k ltac:(lia)). rewrite Z2Nat.id by (apply Z.div_pos; lia).
  pose proof (Z.div_mod (10 * 2 ^ k + 7) 8). pose proof (Z.mod_pos_bound (10 * 2 ^ k + 7) 8). lia.
Qed.
End AdmissionProps.
