(* ===== verification/Cache.v ===== *)
(** * The response cache (internal/cache: cache.go, memory.go, eligibility.go)

    [Store] is the in-process cache in front of the admission gate of
    Admission.v: a Go map as a finite map, the clock, the random draw of the
    jitter and the order of the range over the residents as arguments.
    Entries are values: the private copies of [Get] and [Set] are what
    value semantics gives. *)
From Stdlib Require Import QArith Qround Lqa.
From stdpp Require Import base gmap strings list numbers.
From S2P Require Import Prelude Float64 Admission.
Import GoInt GoTime MapSum.
Local Open Scope Z_scope.

Module Store.
Import Admission.Admission.

(** [http.Header]: values per canonical name. *)
Abbreviation header := (gmap string (list string)).

Record Entry := mkEntry { Status : Z; Header : header; Body : string }.

Record memoryEntry := mkMemoryEntry { entry : Entry; expires : Z }.

Record Memory := mkMemory {
  entries : gmap string memoryEntry; max_ : Z; sweepAt : Z; gate : admission
}.

Definition sweepInterval : Z := second.
Definition admissionKeysPerEntry : Z := 8.

(** The float64 nearest to 0.1. *)
Definition jitterFraction : Q := 3602879701896397 # 36028797018963968.

Definition trackedKeyBudget (capacity : Z) : Z :=
  if maxTrackedKeys / admissionKeysPerEntry <? capacity then maxTrackedKeys
  else capacity * admissionKeysPerEntry.

(** [NewMemory] with the capacity option, which ignores values below one. *)
Definition NewMemory (capacity : option Z) : Memory :=
  let cap := match capacity with Some n => if 1 <=? n then n else 1024 | None => 1024 end in
  mkMemory ∅ cap 0 (newAdmission (trackedKeyBudget cap)).

Section memory.
(** The gate's key hash. *)
Variable hash : string -> Z.

Definition with_entries (es : gmap string memoryEntry) (m : Memory) : Memory :=
  mkMemory es (max_ m) (sweepAt m) (gate m).

Definition Get (now : Z) (key : string) (m : Memory) : option Entry * Memory :=
  let m' := mkMemory (entries m) (max_ m) (sweepAt m) (record (hash key) (gate m)) in
  match entries m !! key with
  | None => (None, m')
  | Some me => if negb (before now (expires me)) then (None, m') else (Some (entry me), m')
  end.

(** The stored TTL of a base TTL and a draw [u] of [rand.Float64]. *)
Definition jittered_ttl (u : Q) (baseTTL : Z) : Z :=
  let jitter := fadd 1 (fmul (fsub (fmul 2 u) 1) jitterFraction) in
  let scaled := fmul (fof_int baseTTL) jitter in
  if Qle_bool (fof_int max_int64) scaled then max_int64
  else let ttl := to_int scaled in if ttl <? millisecond then millisecond else ttl.

Definition sweepLocked (now : Z) (m : Memory) : Memory :=
  with_entries (filter (fun kv => before now (expires kv.2) = true) (entries m)) m.

(** The least-read of the first [sample] residents of the walk. *)
Fixpoint pick_victim (m : Memory) (order : list string) (sample : nat) (victim : string)
    (victimEstimate : Z) : string * Z :=
  match sample, order with
  | O, _ | _, [] => (victim, victimEstimate)
  | S sample, candidate :: order =>
      let est := estimate (hash candidate) (gate m) in
      if (victimEstimate <? 0) || (est <? victimEstimate)
      then pick_victim m order sample candidate est
      else pick_victim m order sample victim victimEstimate
  end.

Definition admitLocked (order : list string) (key : string) (m : Memory) : bool * Memory :=
  let incoming := estimate (hash key) (gate m) in
  let (victim, victimEstimate) := pick_victim m order 5 "" (-1) in
  if incoming <? victimEstimate then (false, m)
  else (true, with_entries (delete victim (entries m)) m).

(** [order] is the order of the range over the residents after the sweep. *)
Definition Set_ (now : Z) (u : Q) (order : list string) (key : string) (e : Entry) (baseTTL : Z)
    (m : Memory) : Memory :=
  if baseTTL <=? 0 then m
  else
    let ttl := jittered_ttl u baseTTL in
    let m1 :=
      if is_zero (sweepAt m) || negb (after (sweepAt m) now)
      then let s := sweepLocked now m in
           mkMemory (entries s) (max_ s) (add now sweepInterval) (gate s)
      else m in
    let full := match entries m1 !! key with
                | Some _ => false
                | None => max_ m1 <=? Z.of_nat (size (entries m1))
                end in
    let (admitted, m2) := if full then admitLocked order key m1 else (true, m1) in
    if admitted
    then with_entries (<[key := mkMemoryEntry e (add now ttl)]> (entries m2)) m2
    else m2.
End memory.
End Store.

(** The sampling parameters [Eligible] looks at; a pointer is an option. *)
Module Eligibility.
Record sampling := mkSampling { Temperature : option Q; TopP : option Q; N : option Z }.

Definition Eligible (req : sampling) : bool :=
  match Temperature req with
  | None => false
  | Some t =>
      if negb (Qeq_bool t 0) then false
      else if match TopP req with Some p => negb (Qeq_bool p 1) | None => false end then false
      else if match N req with Some n => negb (n =? 1) | None => false end then false
      else true
  end.
End Eligibility.

Module StoreSpec.
Import Admission.Admission Store.

Inductive event :=
  | EGet (now : Z) (key : string)
  | ESet (now : Z) (u : Q) (order : list string) (key : string) (e : Entry) (baseTTL : Z).

Definition apply_event (hash : string -> Z) (ev : event) (m : Memory) : Memory :=
  match ev with
  | EGet now key => (Get hash now key m).2
  | ESet now u order key e ttl => Set_ hash now u order key e ttl m
  end.

Definition run (hash : string -> Z) (evs : list event) (m : Memory) : Memory :=
  foldl (fun m ev => apply_event hash ev m) m evs.

(** What the last write of [key] with a positive TTL stored, and until when;
    the newest event is the last of the list. *)
Fixpoint last_set (key : string) (evs : list event) : option (Entry * Z) :=
  match evs with
  | [] => None
  | ev :: evs =>
      match last_set key evs with
      | Some r => Some r
      | None =>
          match ev with
          | ESet now u _ k e ttl =>
              if bool_decide (k = key) && (0 <? ttl) then Some (e, add now (jittered_ttl u ttl)) else None
          | EGet _ _ => None
          end
      end
  end.

(** The store right before the admission decision of a Set at [now]. *)
Definition after_sweep (now : Z) (m : Memory) : Memory :=
  if is_zero (sweepAt m) || negb (after (sweepAt m) now)
  then mkMemory (entries (sweepLocked now m)) (max_ m) (add now sweepInterval) (gate m)
  else m.

(** [order] ranges over the residents. *)
Definition ranges (order : list string) (m : Memory) : Prop :=
  forall k, k ∈ order <-> exists me, entries m !! k = Some me.

Definition full (m : Memory) : Prop := max_ m <= Z.of_nat (size (entries m)).
End StoreSpec.

Module StoreFacts.
Import Admission.Admission Store StoreSpec.

Section facts.
Variable hash : string -> Z.

(** [Set_] in terms of [after_sweep]. *)
Lemma Set_unfold (now : Z) (u : Q) (order : list string) (key : string) (e : Entry) (ttl : Z) (m : Memory) :
  0 < ttl ->
  Set_ hash now u order key e ttl m =
    let m1 := after_sweep now m in
    let put es := with_entries (<[key := mkMemoryEntry e (add now (jittered_ttl u ttl))]> es) m1 in
    if decide (entries m1 !! key = None /\ full m1)
    then let (victim, est) := pick_victim hash m1 order 5 "" (-1) in
         if estimate (hash key) (gate m1) <? est then m1 else put (delete victim (entries m1))
    else put (entries m1).
Proof.
  intros Httl. unfold Set_. rewrite (proj2 (Z.leb_gt _ _)) by done.
  change (if is_zero (sweepAt m) || negb (after (sweepAt m) now) then _ else m) with (after_sweep now m).
  set (m1 := after_sweep now m). cbv zeta. unfold admitLocked, full.
  destruct (entries m1 !! key) as [me|] eqn:Hk.
  - rewrite decide_False by (by intros []). done.
  - destruct (Z.leb_spec (max_ m1) (Z.of_nat (size (entries m1)))).
    + rewrite decide_True by done. destruct (pick_victim hash m1 order 5 "" (-1)) as [v est].
      by destruct (estimate (hash key) (gate m1) <? est).
    + rewrite decide_False by lia. done.
Qed.

Lemma after_sweep_lookup (now : Z) (m : Memory) (k : string) (me : memoryEntry) :
  entries (after_sweep now m) !! k = Some me -> entries m !! k = Some me.
Proof.
  unfold after_sweep. destruct (is_zero (sweepAt m) || negb (after (sweepAt m) now)); [|done].
  cbn [entries sweepLocked with_entries].
  intros Hf. by apply map_lookup_filter_Some in Hf as [? _].
Qed.

(** *** The invariant behind "a hit is the last write" *)
Definition honest (evs : list event) (m : Memory) : Prop :=
  forall k me, entries m !! k = Some me -> last_set k evs = Some (entry me, expires me).

Lemma last_set_app (k : string) (evs : list event) (ev : event) :
  last_set k (evs ++ [ev]) =
    match last_set k [ev] with Some r => Some r | None => last_set k evs end.
Proof.
  induction evs as [|x evs IH]; cbn [app]; [by destruct (last_set k [ev])|].
  cbn [last_set] in *. rewrite IH. by destruct ev; repeat case_match.
Qed.

Lemma last_set_other (now : Z) (u : Q) (order : list string) (key : string) (e : Entry) (ttl : Z)
    (k : string) :
  k <> key -> last_set k [ESet now u order key e ttl] = None.
Proof. intros Hne. cbn. by rewrite bool_decide_false. Qed.

Lemma step_honest (evs : list event) (ev : event) (m : Memory) :
  honest evs m -> honest (evs ++ [ev]) (apply_event hash ev m).
Proof.
  intros Hh k me. rewrite last_set_app. destruct ev as [now key|now u order key e ttl].
  { cbn [apply_event]. unfold Get. intros H. cbn [last_set]. apply Hh. by repeat case_match. }
  cbn [apply_event]. destruct (Z.leb_spec ttl 0) as [Hle|Hpos].
  { unfold Set_. rewrite (proj2 (Z.leb_le _ _)) by done. intros H. cbn [last_set].
    rewrite (proj2 (Z.ltb_ge 0 ttl)) by done. rewrite andb_false_r. by apply Hh. }
  rewrite Set_unfold by done. cbv zeta. set (m1 := after_sweep now m).
  assert (forall es, (forall k' me', es !! k' = Some me' -> entries m1 !! k' = Some me') ->
    entries (with_entries (<[key := mkMemoryEntry e (add now (jittered_ttl u ttl))]> es) m1) !! k = Some me ->
    match last_set k [ESet now u order key e ttl] with Some r => Some r | None => last_set k evs end
      = Some (entry me, expires me)) as Hput.
  { intros es Hes. cbn [with_entries entries]. rewrite lookup_insert. case_decide as Hk.
    - intros [= <-]. subst k. cbn [last_set]. rewrite bool_decide_true by done.
      by rewrite (proj2 (Z.ltb_lt 0 ttl)).
    - intros H. rewrite last_set_other by done. by eapply Hh, after_sweep_lookup, Hes. }
  case_decide as Hd; [|by apply Hput].
  destruct (pick_victim hash m1 order 5 "" (-1)) as [victim est].
  destruct (estimate (hash key) (gate m1) <? est).
  - intros H. destruct (decide (k = key)) as [->|Hne]; [by destruct Hd; simplify_eq|].
    rewrite last_set_other by done. by eapply Hh, after_sweep_lookup.
  - apply Hput. by intros k' me' [_ H]%lookup_delete_Some.
Qed.

Lemma run_honest (evs : list event) : forall past m,
  honest past m -> honest (past ++ evs) (run hash evs m).
Proof.
  induction evs as [|ev evs IH]; intros past m Hh; [by rewrite app_nil_r|].
  cbn [run foldl]. replace (past ++ ev :: evs) with ((past ++ [ev]) ++ evs) by (by rewrite <- app_assoc).
  by apply IH, step_honest.
Qed.

(** *** The victim *)
Lemma pick_victim_spec (m : Memory) (order : list string) : forall n v est,
  0 <= est -> est = estimate (hash v) (gate m) ->
  (forall k, 0 <= estimate (hash k) (gate m)) ->
  let r := pick_victim hash m order n v est in
  r.1 ∈ v :: take n order /\ r.2 = estimate (hash r.1) (gate m) /\
  forall k, k ∈ v :: take n order -> r.2 <= estimate (hash k) (gate m).
Proof.
  induction order as [|c order IH]; intros n v est H0 Hest Hpos.
  { assert (pick_victim hash m [] n v est = (v, est)) as -> by (by destruct n).
    rewrite take_nil. cbn [fst snd]. split_and!; [set_solver|done|].
    intros k ->%list_elem_of_singleton. lia. }
  destruct n as [|n]; cbn [pick_victim take].
  { cbn [fst snd]. split_and!; [set_solver|done|]. intros k ->%list_elem_of_singleton. lia. }
  rewrite (proj2 (Z.ltb_ge est 0)) by done. rewrite orb_false_l.
  destruct (Z.ltb_spec (estimate (hash c) (gate m)) est) as [Hlt|Hge].
  - destruct (IH n c _ (Hpos c) eq_refl Hpos) as (H1 & H2 & H3). split_and!; [set_solver|done|].
    intros k [->|Hk]%elem_of_cons; [|by apply H3]. specialize (H3 c ltac:(set_solver)). lia.
  - destruct (IH n v est H0 Hest Hpos) as (H1 & H2 & H3). split_and!; [set_solver|done|].
    intros k Hk. rewrite !elem_of_cons in Hk. destruct Hk as [->|[->|Hk]].
    + apply H3. set_solver.
    + specialize (H3 v ltac:(set_solver)). lia.
    + apply H3. set_solver.
Qed.

Lemma pick_victim_first (m : Memory) (c : string) (order : list string) :
  pick_victim hash m (c :: order) 5 "" (-1) = pick_victim hash m order 4 c (estimate (hash c) (gate m)).
Proof. done. Qed.

Lemma estimate_nonneg (k : Z) (h : Z) (a : admission) :
  AdmissionSpec.gate_wf k a -> 0 <= estimate h a.
Proof.
  intros Hwf. destruct (AdmissionFacts.estimate_bounds 0 h a) as [H _]; [done| |lia].
  split; [done|]. intros i row _. pose proof (AdmissionFacts.nibble_range (slot a h i) row). lia.
Qed.
End facts.

Lemma after_sweep_size (now : Z) (m : Memory) :
  (size (entries (after_sweep now m)) <= size (entries m))%nat.
Proof.
  unfold after_sweep. destruct (is_zero (sweepAt m) || negb (after (sweepAt m) now)); [|done].
  cbn [entries sweepLocked with_entries]. apply map_size_filter.
Qed.

Lemma map_size_pos (es : gmap string memoryEntry) (k : string) (me : memoryEntry) :
  es !! k = Some me -> (0 < size es)%nat.
Proof.
  intros Hk. destruct (decide (size es = 0%nat)) as [Hz|]; [|lia].
  apply map_size_empty_inv in Hz. by simplify_map_eq.
Qed.

(** A full store has a resident to walk to. *)
Lemma full_order (m : Memory) (order : list string) :
  ranges order m -> full m -> 1 <= max_ m -> exists c rest, order = c :: rest.
Proof.
  intros Hr Hf Hm. destruct order as [|c rest]; [|eauto]. exfalso.
  assert (entries m = ∅) as He.
  { apply map_empty. intros k. destruct (entries m !! k) eqn:Hk; [|done].
    assert (k ∈ []) as Hk' by (apply Hr; eauto). by apply elem_of_nil in Hk'. }
  unfold full in Hf. rewrite He, map_size_empty in Hf. lia.
Qed.

Lemma insert_size (es : gmap string memoryEntry) (k : string) (me : memoryEntry) :
  size (<[k := me]> es) = (match es !! k with Some _ => size es | None => S (size es) end)%nat.
Proof. rewrite map_size_insert. by destruct (es !! k). Qed.
End StoreFacts.

Module StoreProps.
Import Admission.Admission Store StoreSpec StoreFacts.

(** The cache never lies: whatever sequence of reads and writes ran, with
    whatever clocks, jitter draws, hash function and map orders, a hit
    returns exactly the entry of the last write of that key with a positive
    TTL, and only before that write's expiry. *)
Theorem cache_hit_is_last_set (hash : string -> Z) (evs : list event) (capacity : option Z)
    (now : Z) (key : string) (e : Entry) :
  (Get hash now key (run hash evs (NewMemory capacity))).1 = Some e ->
  exists expiry, last_set key evs = Some (e, expiry) /\ now < expiry.
Proof.
  assert (honest evs (run hash evs (NewMemory capacity))) as Hh
    by (apply (run_honest hash evs []); by intros k me).
  unfold Get. destruct (entries _ !! key) as [me|] eqn:Hk; [|done].
  unfold before. destruct (Z.ltb_spec now (expires me)); [|done].
  cbn [negb fst]. intros [= <-]. eauto.
Qed.

Lemma cache_hit_is_last_set_witness :
  exists expiry, last_set "k"
    [ESet 5 0 [] "k" (mkEntry 200 ∅ "old") (60 * second); EGet 6 "k";
     ESet 7 0 ["k"] "k" (mkEntry 200 ∅ "new") (60 * second); EGet 8 "z"]
    = Some (mkEntry 200 ∅ "new", expiry) /\ 9 < expiry.
Proof.
  apply (cache_hit_is_last_set (fun s => Z.of_nat (String.length s)) _ (Some 1)). by vm_compute.
Defined.

(** Capacity and eviction: a write leaves at most [max] entries, evicts
    at most one resident, and under pressure exactly as the gate decides -
    the victim is a least-read one of the first five residents of the walk,
    it leaves only for a newcomer read at least as often, and otherwise the
    newcomer is dropped and nothing moves. *)
Theorem set_respects_capacity (hash : string -> Z) (now : Z) (u : Q) (order : list string)
    (key : string) (e : Entry) (ttl k : Z) (m : Memory) :
  AdmissionSpec.gate_wf k (gate m) -> 1 <= max_ m ->
  Z.of_nat (size (entries m)) <= max_ m -> ranges order (after_sweep now m) -> 0 < ttl ->
  let m1 := after_sweep now m in
  let m' := Set_ hash now u order key e ttl m in
  let est k := estimate (hash k) (gate m) in
  let pressure := entries m1 !! key = None /\ full m1 in
  Z.of_nat (size (entries m')) <= max_ m' /\
  (size (entries m1) <= size (entries m'))%nat /\
  (entries m' !! key = Some (mkMemoryEntry e (add now (jittered_ttl u ttl))) \/
   pressure /\ entries m' = entries m1 /\ forall c, c ∈ take 5 order -> est key < est c) /\
  (forall k', k' <> key ->
     entries m' !! k' = entries m1 !! k' \/
     pressure /\ k' ∈ take 5 order /\ entries m' !! k' = None /\ est k' <= est key /\
     forall c, c ∈ take 5 order -> est k' <= est c).
Proof.
  intros Hgate Hmax Hsize Hord Httl m1 m' est pressure.
  assert (max_ m1 = max_ m /\ gate m1 = gate m) as [Hm1 Hg1]
    by (unfold m1, after_sweep; by case_match).
  pose proof (after_sweep_size now m) as Hsz. fold m1 in Hsz.
  unfold m'. rewrite Set_unfold by done. cbv zeta. fold m1. rewrite Hg1. fold (est key).
  destruct (decide (entries m1 !! key = None /\ full m1)) as [Hp|Hnp].
  - destruct Hp as [Hk Hfull]. pose proof (full_order m1 order Hord Hfull ltac:(lia)) as (c & rest & ->).
    rewrite pick_victim_first.
    destruct (pick_victim_spec hash m1 rest 4 c (estimate (hash c) (gate m1))) as (Hv & He & Hmin);
      [rewrite Hg1; by eapply estimate_nonneg|done|intros; rewrite Hg1; by eapply estimate_nonneg|].
    change (c :: take 4 rest) with (take 5 (c :: rest)) in *.
    destruct (pick_victim hash m1 rest 4 c _) as [v ev]; cbn [fst snd] in *. subst ev.
    rewrite Hg1 in *. fold (est v) in *.
    assert (forall x, x ∈ take 5 (c :: rest) -> est v <= est x) as Hmin'
      by (intros x Hx; by apply Hmin).
    assert (exists me, entries m1 !! v = Some me) as [mv Hmv]
      by (apply Hord; revert Hv; apply subseteq_take).
    destruct (Z.ltb_spec (est key) (est v)) as [Hlt|Hge].
    + split_and!; [lia|done| |by left]. right. split_and!; [done..|].
      intros x Hx. specialize (Hmin' x Hx). lia.
    + assert (key <> v) as Hne by congruence. cbn [with_entries entries max_].
      rewrite map_size_insert_None by (by rewrite lookup_delete_ne).
      rewrite map_size_delete_Some by eauto.
      assert (0 < size (entries m1))%nat by (by eapply map_size_pos).
      split_and!; [lia|lia|left; apply lookup_insert_eq|]. intros k' Hk'.
      rewrite lookup_insert_ne by done. destruct (decide (k' = v)) as [->|]; [|left; by rewrite lookup_delete_ne].
      right. rewrite lookup_delete_eq. split_and!; done.
  - cbn [with_entries entries max_]. pose proof (insert_size (entries m1) key
      (mkMemoryEntry e (add now (jittered_ttl u ttl)))) as Hins.
    assert (Z.of_nat (size (<[key := mkMemoryEntry e (add now (jittered_ttl u ttl))]> (entries m1)))
      <= max_ m1) by (unfold full in Hnp; destruct (entries m1 !! key); [lia|];
                      destruct (decide (max_ m1 <= Z.of_nat (size (entries m1)))); [tauto|lia]).
    split_and!; [done|destruct (entries m1 !! key); lia|left; apply lookup_insert_eq|].
    intros k' Hk'. left. by rewrite lookup_insert_ne.
Qed.

(** A full store of one entry under a hash that ranks keys by length. *)
Definition crowded : Memory :=
  mkMemory {["hot" := mkMemoryEntry (mkEntry 200 ∅ "h") (60 * second)]} 1 second
    (record 3 (record 3 (newAdmission 8))).

Lemma crowded_gate : exists k, AdmissionSpec.gate_wf k (gate crowded).
Proof.
  destruct (AdmissionFacts.newAdmission_wf 8) as (k & Hwf & _). exists k.
  by apply AdmissionFacts.record_wf, AdmissionFacts.record_wf.
Qed.

Lemma set_respects_capacity_witness :
  Z.of_nat (size (entries (Set_ (fun s => Z.of_nat (String.length s)) 5 0 ["hot"] "cold" (mkEntry 200 ∅ "c")
    second crowded))) <= 1.
Proof.
  destruct crowded_gate as [k Hk].
  apply (set_respects_capacity (fun s => Z.of_nat (String.length s)) 5 0 ["hot"] "cold"
    (mkEntry 200 ∅ "c") second k crowded Hk); [done|done| |done].
  intros x. change (after_sweep 5 crowded) with crowded. cbn [crowded entries]. split.
  - intros ->%list_elem_of_singleton. eauto using lookup_singleton_eq.
  - intros [me [<- _]%lookup_singleton_Some]. set_solver.
Defined.

(** *** Jitter *)
Local Open Scope Q_scope.

Lemma Qfloor_frac (n : Z) (d : positive) : Qfloor (n # d) = (n / Zpos d)%Z.
Proof. done. Qed.

Lemma jitter_range (u : Q) : 0 <= u -> u <= 1 ->
  fsub 1 jitterFraction <= fadd 1 (fmul (fsub (fmul 2 u) 1) jitterFraction) <= fadd 1 jitterFraction.
Proof.
  intros H0 H1. assert (0 <= fmul 2 u <= 2) as [A1 A2].
  { split; [apply fmul_nonneg; [discriminate|done]|]. apply rnd_le_float; [done|]. lra. }
  assert (-1 <= fsub (fmul 2 u) 1 <= 1) as [B1 B2].
  { split; [apply float_le_rnd; [done|lra]|apply rnd_le_float; [done|lra]]. }
  assert (- jitterFraction <= fmul (fsub (fmul 2 u) 1) jitterFraction <= jitterFraction) as [C1 C2].
  { assert (0 < jitterFraction) by done.
    split; [apply float_le_rnd; [done|]|apply rnd_le_float; [done|]]; nra. }
  split; apply rnd_mono; lra.
Qed.

Lemma jitter_bounds (u : Q) : 0 <= u -> u <= 1 ->
  (8999999 # 10000000) <= fadd 1 (fmul (fsub (fmul 2 u) 1) jitterFraction) <= (11000001 # 10000000).
Proof.
  intros H0 H1. destruct (jitter_range u H0 H1) as [A B].
  assert ((8999999 # 10000000) <= fsub 1 jitterFraction) by (by apply Qle_bool_iff; vm_compute).
  assert (fadd 1 jitterFraction <= (11000001 # 10000000)) by (by apply Qle_bool_iff; vm_compute).
  split; lra.
Qed.

Lemma scaled_range (b : Z) (j : Q) :
  (0 <= b)%Z -> (8999999 # 10000000) <= j <= (11000001 # 10000000) ->
  inject_Z b * (899999 # 1000000) <= fmul (fof_int b) j <= inject_Z b * (1100001 # 1000000).
Proof.
  intros Hb [Hj1 Hj2]. assert (0 <= inject_Z b) as HB
    by (change 0 with (inject_Z 0); by rewrite <- Zle_Qle).
  pose proof (rnd_error (inject_Z b) HB) as [F1 F2]. fold (fof_int b) in F1, F2.
  pose proof (fof_int_nonneg b Hb) as F0.
  assert (0 <= fof_int b * j) as Hq by nra.
  pose proof (rnd_error (fof_int b * j) Hq) as [G1 G2]. unfold fmul.
  change (Qpower 2 (- prec)) with (1 # 9007199254740992) in *.
  assert (fof_int b * j <= fof_int b * (11000001 # 10000000)) by nra.
  assert (fof_int b * (8999999 # 10000000) <= fof_int b * j) by nra.
  split; lra.
Qed.

Local Open Scope Z_scope.

(** The stored TTL of a positive base TTL is a positive duration of at
    least a millisecond, never wraps past the largest [Duration], and stays
    within ten percent (and one part in a million) of the base. *)
Theorem jittered_ttl_bounds (u : Q) (baseTTL : Z) :
  (0 <= u)%Q -> (u <= 1)%Q -> 0 < baseTTL <= max_int64 ->
  let ttl := jittered_ttl u baseTTL in
  millisecond <= ttl <= max_int64 /\
  baseTTL * 899999 / 1000000 <= ttl <= Z.max millisecond (baseTTL * 1100001 / 1000000).
Proof.
  intros H0 H1 [Hb Hb'] ttl. pose proof (jitter_bounds u H0 H1) as Hj.
  unfold ttl, jittered_ttl. set (j := fadd 1 _) in *. clearbody j. clear ttl.
  destruct (scaled_range baseTTL j ltac:(lia) Hj) as [S1 S2]. cbv zeta.
  set (sc := fmul (fof_int baseTTL) j) in *. clearbody sc.
  assert (fof_int max_int64 == inject_Z (2 ^ 63))%Q as Hmax by (by vm_compute).
  assert (inject_Z (baseTTL * 1100001) == inject_Z baseTTL * 1100001)%Q as E1
    by (by rewrite inject_Z_mult).
  destruct (Qle_bool (fof_int max_int64) sc) eqn:Hsat.
  - apply Qle_bool_iff in Hsat. rewrite Hmax in Hsat.
    assert (2 ^ 63 * 1000000 <= baseTTL * 1100001) as Hbig.
    { rewrite Zle_Qle, inject_Z_mult, E1. change (inject_Z 1000000) with 1000000%Q. lra. }
    split; [unfold millisecond, max_int64; lia|]. split.
    + apply Z.div_le_upper_bound; unfold max_int64 in *; lia.
    + apply Z.le_trans with (2 := Z.le_max_r _ _). apply Z.div_le_lower_bound; unfold max_int64; lia.
  - assert (sc < inject_Z (2 ^ 63))%Q as Hlt.
    { rewrite <- Hmax. apply Qnot_le_lt. intros Hle%Qle_bool_iff. congruence. }
    assert (0 <= sc)%Q as Hsc.
    { apply Qle_trans with (2 := S1). apply Qmult_le_0_compat; [|done].
      change 0%Q with (inject_Z 0). rewrite <- Zle_Qle. lia. }
    rewrite to_int_floor by done.
    assert (Qfloor sc < 2 ^ 63) as Hf.
    { rewrite Zlt_Qlt. apply Qle_lt_trans with sc; [apply Qfloor_le|done]. }
    assert (baseTTL * 899999 / 1000000 <= Qfloor sc) as L1.
    { rewrite <- (Qfloor_frac (baseTTL * 899999) 1000000). apply Qfloor_resp_le.
      apply Qle_trans with (2 := S1). unfold Qle; simpl. lia. }
    assert (Qfloor sc <= baseTTL * 1100001 / 1000000) as L2.
    { rewrite <- (Qfloor_frac (baseTTL * 1100001) 1000000). apply Qfloor_resp_le.
      apply Qle_trans with (1 := S2). unfold Qle; simpl. lia. }
    destruct (Z.ltb_spec (Qfloor sc) millisecond); unfold max_int64; split; unfold millisecond in *; lia.
Qed.

Lemma jittered_ttl_bounds_witness :
  millisecond <= jittered_ttl (1 # 2) minute <= max_int64.
Proof. apply (jittered_ttl_bounds (1 # 2) minute); (discriminate || (by vm_compute)). Defined.
End StoreProps.
