(* ===== verification/Flight.v ===== *)
(** * In-flight deduplication (internal/cache/singleflight.go)

    A step relation over the goroutines inside [Flight.Do].  The registry
    [calls] and the heap of [call] records are the shared state; a caller's
    program counter says where in [Do] it is.  A step is one critical
    section, channel operation or publication, so every interleaving of the
    callers is a run; [fn] may return any value, return an error or panic. *)
From stdpp Require Import base gmap strings list numbers.
From S2P Require Import Prelude.
Import MapSum.
Local Open Scope Z_scope.

Module Flight.
Section flight.
Context {V E : Type}.

(** What a flight publishes: the value and error of [fn], or the error that
    stands for its panic. *)
Inductive outcome := Fetched (r : V + E) | FetchPanicked.

Record call := mkCall { done_ : bool; result : option outcome; waiters : Z }.

Inductive pc :=
  | Fetching (key : string) (f : nat)                    (* inside fn *)
  | Publishing (key : string) (f : nat) (o : outcome)    (* result written, before the delete *)
  | Closing (key : string) (f : nat) (o : outcome)       (* deleted, before close(done) *)
  | Waiting (key : string) (f : nat)                     (* in call.wait *)
  | Returned (f : nat) (o : outcome) (owner : bool)
  | Raised (f : nat)                                     (* the panic re-raised *)
  | GaveUp (f : nat).                                    (* ctx.Err() *)

Record state := mkState {
  calls : gmap string nat; heap : gmap nat call; callers : gmap nat pc
}.

Definition NewFlight : state := mkState ∅ ∅ ∅.

Definition set_caller (c : nat) (p : pc) (s : state) : state :=
  mkState (calls s) (heap s) (<[c := p]> (callers s)).

Definition set_call (f : nat) (k : call) (s : state) : state :=
  mkState (calls s) (<[f := k]> (heap s)) (callers s).

(** Entering [Do]: attach to the flight of the key, or start one with the
    fresh record [f]. *)
Definition enter (c : nat) (key : string) (f : nat) (s : state) : state :=
  match calls s !! key with
  | Some existing =>
      match heap s !! existing with
      | Some k =>
          set_caller c (Waiting key existing)
            (set_call existing (mkCall (done_ k) (result k) (waiters k + 1)) s)
      | None => s
      end
  | None =>
      mkState (<[key := f]> (calls s)) (<[f := mkCall false None 0]> (heap s))
        (<[c := Fetching key f]> (callers s))
  end.

(** [fn] ended: the outcome is written to the call. *)
Definition publish (c : nat) (o : outcome) (s : state) : state :=
  match callers s !! c with
  | Some (Fetching key f) =>
      match heap s !! f with
      | Some k => set_caller c (Publishing key f o) (set_call f (mkCall (done_ k) (Some o) (waiters k)) s)
      | None => s
      end
  | _ => s
  end.

(** The delete from the registry, under its lock. *)
Definition unregister (c : nat) (s : state) : state :=
  match callers s !! c with
  | Some (Publishing key f o) =>
      mkState (delete key (calls s)) (heap s) (<[c := Closing key f o]> (callers s))
  | _ => s
  end.

(** [close(c.done)] and the holder's way out. *)
Definition finish (c : nat) (s : state) : state :=
  match callers s !! c with
  | Some (Closing key f o) =>
      match heap s !! f with
      | Some k =>
          set_caller c (match o with Fetched _ => Returned f o true | FetchPanicked => Raised f end)
            (set_call f (mkCall true (result k) (waiters k)) s)
      | None => s
      end
  | _ => s
  end.

(** The two arms of [wait]'s select; the deferred decrement runs in both. *)
Definition leave (c : nat) (f : nat) (p : pc) (s : state) : state :=
  match heap s !! f with
  | Some k => set_caller c p (set_call f (mkCall (done_ k) (result k) (waiters k - 1)) s)
  | None => s
  end.

Definition receive (c : nat) (s : state) : state :=
  match callers s !! c with
  | Some (Waiting key f) =>
      match heap s !! f with
      | Some (mkCall true (Some o) _) => leave c f (Returned f o false) s
      | _ => s
      end
  | _ => s
  end.

Definition abandon (c : nat) (s : state) : state :=
  match callers s !! c with
  | Some (Waiting key f) => leave c f (GaveUp f) s
  | _ => s
  end.

Inductive step : state -> state -> Prop :=
  | step_enter c key f s :
      callers s !! c = None -> heap s !! f = None -> step s (enter c key f s)
  | step_publish c o s : step s (publish c o s)
  | step_unregister c s : step s (unregister c s)
  | step_finish c s : step s (finish c s)
  | step_receive c s : step s (receive c s)
  | step_abandon c s : step s (abandon c s).

Definition reachable (s : state) : Prop := rtc step NewFlight s.

(** A caller is running the flight [f] of [key], at any stage. *)
Definition runs (key : string) (f : nat) (p : pc) : Prop :=
  match p with
  | Fetching k g | Publishing k g _ | Closing k g _ => k = key /\ g = f
  | _ => False
  end.

(** [f] is still in the registry. *)
Definition registered_run (p : pc) : option (string * nat) :=
  match p with Fetching k f | Publishing k f _ => Some (k, f) | _ => None end.

Definition waits (f : nat) (_ : nat) (p : pc) : Z :=
  match p with Waiting _ g => if decide (g = f) then 1 else 0 | _ => 0 end.
End flight.
Arguments outcome : clear implicits.
Arguments pc : clear implicits.
Arguments call : clear implicits.
Arguments state : clear implicits.
End Flight.

Module FlightFacts.
Import Flight.
Section facts.
Context {V E : Type}.
Implicit Types (s : state V E) (p : pc V E) (k : call V E).

(** What a caller's program counter says about the shared state. *)
Definition pc_ok s p : Prop :=
  match p with
  | Fetching key f => calls s !! key = Some f /\ exists w, heap s !! f = Some (mkCall false None w)
  | Publishing key f o => calls s !! key = Some f /\ exists w, heap s !! f = Some (mkCall false (Some o) w)
  | Closing key f o =>
      (forall key', calls s !! key' <> Some f) /\ exists w, heap s !! f = Some (mkCall false (Some o) w)
  | Waiting _ f => exists k, heap s !! f = Some k
  | Returned f o _ => exists w, heap s !! f = Some (mkCall true (Some o) w)
  | Raised f => exists w, heap s !! f = Some (mkCall true (Some FetchPanicked) w)
  | GaveUp f => exists k, heap s !! f = Some k
  end.

Definition waiting_on s (f : nat) : Z := map_sum (waits f) (callers s).

Record inv s : Prop := {
  inv_pc c p : callers s !! c = Some p -> pc_ok s p;
  inv_unique c c' p p' key key' f :
    callers s !! c = Some p -> callers s !! c' = Some p' -> runs key f p -> runs key' f p' -> c = c';
  inv_open f k : heap s !! f = Some k -> done_ k = false ->
    exists c p key, callers s !! c = Some p /\ runs key f p;
  inv_registered key f : calls s !! key = Some f ->
    exists c p, callers s !! c = Some p /\ registered_run p = Some (key, f);
  inv_result f k : heap s !! f = Some k -> done_ k = true -> exists o, result k = Some o;
  inv_waiters f k : heap s !! f = Some k -> waiters k = waiting_on s f;
  inv_fresh f : heap s !! f = None -> waiting_on s f = 0
}.

(** *** Bookkeeping lemmas *)
Lemma registered_runs p key f : registered_run p = Some (key, f) -> runs key f p.
Proof. destruct p; simpl; intros [= -> ->]; done. Qed.

Lemma waiting_on_set s c p0 p f :
  callers s !! c = Some p0 ->
  map_sum (waits f) (<[c := p]> (callers s)) = waiting_on s f + waits f c p - waits f c p0.
Proof. intros Hc. rewrite map_sum_insert, Hc. simpl. unfold waiting_on. lia. Qed.

Lemma waiting_on_new s c p f :
  callers s !! c = None ->
  map_sum (waits f) (<[c := p]> (callers s)) = waiting_on s f + waits f c p.
Proof. intros Hc. rewrite map_sum_insert_new by done. unfold waiting_on. lia. Qed.

(** A change of a call's waiter count and of a caller that runs no flight
    before or after is invisible to everybody else. *)
Lemma pc_ok_waiters s s' f k w p :
  calls s' = calls s -> heap s !! f = Some k ->
  heap s' = <[f := mkCall (done_ k) (result k) w]> (heap s) ->
  pc_ok s p -> pc_ok s' p.
Proof.
  intros Hcalls Hk Hheap. destruct p; simpl; rewrite ?Hcalls, ?Hheap;
    setoid_rewrite lookup_insert; intros Hok; repeat case_decide; subst; naive_solver.
Qed.

Lemma inv_move s s' (c : nat) (p0 : option (pc V E)) p (f : nat) k (w : Z) :
  inv s -> heap s !! f = Some k ->
  callers s !! c = p0 -> callers s' = <[c := p]> (callers s) -> calls s' = calls s ->
  heap s' = <[f := mkCall (done_ k) (result k) w]> (heap s) ->
  (forall key g, ~ runs key g p) ->
  (forall q key g, p0 = Some q -> ~ runs key g q) ->
  pc_ok s' p -> w = waiting_on s' f ->
  (forall g, g <> f -> waiting_on s' g = waiting_on s g) ->
  inv s'.
Proof.
  intros Hinv Hk Hc Hcs Hcalls Hheap Hnp Hnq Hp Hw Hg. split.
  - intros c' p'. rewrite Hcs, lookup_insert. case_decide as Hcc; [by intros [= <-]|].
    intros Hp'. apply (pc_ok_waiters s s' f k w); [done..|by apply (inv_pc s Hinv c')].
  - intros c1 c2 p1 p2 k1 k2 g. rewrite Hcs, !lookup_insert. repeat case_decide; intros.
    all: simplify_eq; try (exfalso; naive_solver).
    by eapply (inv_unique s Hinv c1 c2).
  - intros g k'. rewrite Hheap, lookup_insert. intros Hg' Hd.
    assert (exists k0, heap s !! g = Some k0 /\ done_ k0 = false) as (k0 & Hk0 & Hd0).
    { case_decide; simplify_eq; eauto. }
    destruct (inv_open s Hinv g k0 Hk0 Hd0) as (c' & p' & key & Hc' & Hr). exists c', p', key.
    split; [|done]. rewrite Hcs, lookup_insert_ne; [done|]. intros ->. apply (Hnq p' key g); [congruence|done].
  - intros key g. rewrite Hcalls. intros Hcall.
    destruct (inv_registered s Hinv key g Hcall) as (c' & p' & Hc' & Hr). exists c', p'.
    split; [|done]. rewrite Hcs, lookup_insert_ne; [done|]. intros ->.
    apply (Hnq p' key g); [congruence|by apply registered_runs].
  - intros g k'. rewrite Hheap, lookup_insert. case_decide; [subst g; intros [= <-]; exact (inv_result s Hinv f k Hk)|].
    exact (inv_result s Hinv g k').
  - intros g k'. rewrite Hheap, lookup_insert. case_decide as Hfg.
    + intros [= <-]. by subst.
    + intros Hk'. rewrite Hg by done. by apply (inv_waiters s Hinv).
  - intros g. rewrite Hheap, lookup_insert. case_decide as Hfg; [done|]. intros Hk'.
    rewrite Hg by done. by apply (inv_fresh s Hinv).
Qed.

(** *** Each step keeps the invariant *)
Lemma inv_leave s c key f p :
  inv s -> callers s !! c = Some (Waiting key f) ->
  (forall key g, ~ runs key g p) -> (forall g, waits g c p = 0) ->
  pc_ok (leave c f p s) p -> inv (leave c f p s).
Proof.
  intros Hinv Hc Hnp Hw0 Hp. destruct (inv_pc s Hinv c _ Hc) as [k Hk].
  revert Hp. unfold leave. rewrite Hk. intros Hp.
  assert (forall g, waiting_on (set_caller c p (set_call f (mkCall (done_ k) (result k) (waiters k - 1)) s)) g
    = waiting_on s g - if decide (g = f) then 1 else 0) as Hw.
  { intros g. unfold waiting_on at 1. cbn [set_caller set_call callers].
    rewrite (waiting_on_set s c (Waiting key f)), Hw0 by done. cbn [waits].
    repeat case_decide; subst; lia. }
  eapply (inv_move s _ c _ p f k (waiters k - 1) Hinv Hk Hc); try done.
  - intros q key' g [= <-] [].
  - rewrite Hw, decide_True by done. by rewrite (inv_waiters s Hinv f k Hk).
  - intros g Hg. rewrite Hw, decide_False by done. lia.
Qed.

Lemma inv_enter s c key f :
  inv s -> callers s !! c = None -> heap s !! f = None -> inv (enter c key f s).
Proof.
  intros Hinv Hc Hf. unfold enter. destruct (calls s !! key) as [g|] eqn:Hcall.
  - destruct (heap s !! g) as [k|] eqn:Hk; [|done].
    assert (forall x, waiting_on (set_caller c (Waiting key g) (set_call g (mkCall (done_ k) (result k) (waiters k + 1)) s)) x
      = waiting_on s x + if decide (x = g) then 1 else 0) as Hw.
    { intros x. unfold waiting_on at 1. cbn [set_caller set_call callers].
      rewrite waiting_on_new by done. cbn [waits]. by repeat case_decide. }
    eapply (inv_move s _ c _ (Waiting key g) g k (waiters k + 1) Hinv Hk Hc); try done.
    + intros key' x [].
    + cbn. rewrite lookup_insert_eq. eauto.
    + rewrite Hw, decide_True by done. by rewrite (inv_waiters s Hinv g k Hk).
    + intros x Hx. rewrite Hw, decide_False by done. lia.
  - set (s' := mkState _ _ _).
    assert (forall x, waiting_on s' x = waiting_on s x) as Hw.
    { intros x. unfold waiting_on at 1. cbn [s' callers].
      rewrite waiting_on_new by done. cbn [waits]. lia. }
    assert (forall c' p key' g, callers s !! c' = Some p -> runs key' g p -> g <> f) as Hnf.
    { intros c' p key' g Hp Hr ->. pose proof (inv_pc s Hinv c' p Hp) as Hok.
      destruct p; simpl in Hr, Hok; try done; destruct Hr as [-> ->]; naive_solver. }
    split; cbn [s' calls heap callers].
    + intros c' p. rewrite lookup_insert. case_decide as Hcc.
      * intros [= <-]. simpl. rewrite !lookup_insert_eq. eauto.
      * intros Hp. pose proof (inv_pc s Hinv c' p Hp) as Hok.
        assert (forall g, (exists k, heap s !! g = Some k) -> <[f := mkCall false None 0]> (heap s) !! g = heap s !! g) as Hh.
        { intros g [k Hk]. apply lookup_insert_ne. congruence. }
        assert (forall key' g, calls s !! key' = Some g -> <[key := f]> (calls s) !! key' = Some g) as Hcs.
        { intros key' g Hg. rewrite lookup_insert_ne by congruence. done. }
        destruct p as [k1 g|k1 g o|k1 g o|k1 g|g o ow|g|g]; simpl in *.
        1,2: destruct Hok as [Hok1 [w Hok2]]; rewrite Hh by eauto; eauto.
        2,3,4,5: destruct Hok as [w Hok]; rewrite Hh by eauto; eauto.
        destruct Hok as [Hok1 [w Hok2]]. rewrite Hh by eauto. split; [|eauto].
        intros key'. rewrite lookup_insert. case_decide; [congruence|apply Hok1].
    + intros c1 c2 p1 p2 k1 k2 g. rewrite !lookup_insert.
      repeat case_decide; intros H1 H2 R1 R2; simplify_eq; simpl in *; try done.
      * destruct R1 as [-> ->]. by destruct (Hnf c2 p2 k2 g H2 R2).
      * destruct R2 as [-> ->]. by destruct (Hnf c1 p1 k1 g H1 R1).
      * by eapply (inv_unique s Hinv c1 c2).
    + intros g k. rewrite lookup_insert. case_decide as Hfg.
      * intros _ _. exists c, (Fetching key f), key. rewrite lookup_insert_eq. by subst.
      * intros Hk Hd. destruct (inv_open s Hinv g k Hk Hd) as (c' & p & key' & Hp & Hr).
        exists c', p, key'. rewrite lookup_insert_ne by congruence. done.
    + intros key' g. rewrite lookup_insert. case_decide as Hkk.
      * intros [= <-]. exists c, (Fetching key f). rewrite lookup_insert_eq. by subst.
      * intros Hg. destruct (inv_registered s Hinv key' g Hg) as (c' & p & Hp & Hr).
        exists c', p. rewrite lookup_insert_ne by congruence. done.
    + intros g k. rewrite lookup_insert. case_decide; [by intros [= <-]|exact (inv_result s Hinv g k)].
    + intros g k. rewrite Hw, lookup_insert. case_decide as Hfg.
      * intros [= <-]. subst. by rewrite (inv_fresh s Hinv).
      * apply (inv_waiters s Hinv).
    + intros g. rewrite Hw, lookup_insert. case_decide; [done|apply (inv_fresh s Hinv)].
Qed.

Lemma runs_waits p key f c g : runs key f p -> waits g c p = 0.
Proof. by destruct p. Qed.

Lemma runs_heap s c p key f :
  inv s -> callers s !! c = Some p -> runs key f p ->
  exists k, heap s !! f = Some k /\ done_ k = false.
Proof.
  intros Hinv Hc Hr. pose proof (inv_pc s Hinv c p Hc) as Hok.
  destruct p; simpl in Hr, Hok; try done; destruct Hr as [-> ->];
    destruct Hok as (_ & w & Hok); eauto.
Qed.

Lemma runs_key s c p key key' f :
  inv s -> callers s !! c = Some p -> runs key f p -> calls s !! key' = Some f -> key' = key.
Proof.
  intros Hinv Hc Hr Hcall. destruct (inv_registered s Hinv key' f Hcall) as (c' & p' & Hc' & Hr').
  apply registered_runs in Hr'. assert (c' = c) as -> by (by eapply (inv_unique s Hinv)).
  assert (p' = p) as -> by congruence. destruct p; simpl in *; naive_solver.
Qed.

(** The holder moves on: only its own flight's record and registration
    change, and nobody else runs that flight. *)
Lemma inv_holder s s' c p p' key f k k' :
  inv s -> callers s !! c = Some p -> runs key f p -> heap s !! f = Some k ->
  callers s' = <[c := p']> (callers s) -> heap s' = <[f := k']> (heap s) ->
  waiters k' = waiters k -> (forall g, waits g c p' = 0) ->
  (forall key' g, runs key' g p' -> g = f) ->
  (done_ k' = false -> exists key', runs key' f p') ->
  (done_ k' = true -> exists o, result k' = Some o) ->
  pc_ok s' p' ->
  (forall key' g, calls s !! key' = Some g -> g <> f -> calls s' !! key' = Some g) ->
  (forall key' g, calls s' !! key' = Some g ->
     calls s !! key' = Some g /\ (g = f -> registered_run p' = Some (key', f))) ->
  inv s'.
Proof.
  intros Hinv Hc Hr Hk Hcs Hheap Hwk Hw' Hr' Hopen Hres Hok Hkeep Hsub.
  destruct (runs_heap s c p key f Hinv Hc Hr) as (k0 & Hk0 & Hd). assert (k0 = k) as -> by congruence.
  assert (forall g, waiting_on s' g = waiting_on s g) as Hw.
  { intros g. unfold waiting_on at 1. rewrite Hcs, (waiting_on_set s c p) by done.
    rewrite Hw', (runs_waits p key f) by done. lia. }
  assert (forall c2 p2 key2, callers s !! c2 = Some p2 -> c2 <> c -> ~ runs key2 f p2) as Hnr.
  { intros c2 p2 key2 Hc2 Hne Hr2. apply Hne. by eapply (inv_unique s Hinv c2 c). }
  split.
  - intros c2 p2. rewrite Hcs, lookup_insert. case_decide as Hcc; [by intros [= <-]|].
    intros Hc2. pose proof (inv_pc s Hinv c2 p2 Hc2) as Hok2.
    pose proof (fun key2 => Hnr c2 p2 key2 Hc2 ltac:(congruence)) as Hn2.
    destruct p2 as [k2 g|k2 g o|k2 g o|k2 g|g o ow|g|g]; cbn [pc_ok runs] in *; rewrite ?Hheap.
    1,2: assert (g <> f) by (intros ->; by apply (Hn2 k2)); rewrite lookup_insert_ne by done; naive_solver.
    + assert (g <> f) by (intros ->; by apply (Hn2 k2)). rewrite lookup_insert_ne by done.
      destruct Hok2 as [Hn Hh]. split; [|done]. intros key' [Hk' _]%Hsub. by apply (Hn key').
    + rewrite lookup_insert. case_decide; eauto.
    + destruct Hok2 as [w Hg]. assert (g <> f) by (intros ->; simplify_eq; done).
      rewrite lookup_insert_ne by done. eauto.
    + destruct Hok2 as [w Hg]. assert (g <> f) by (intros ->; simplify_eq; done).
      rewrite lookup_insert_ne by done. eauto.
    + rewrite lookup_insert. case_decide; eauto.
  - intros c1 c2 p1 p2 k1 k2 g. rewrite Hcs, !lookup_insert.
    repeat case_decide; intros H1 H2 R1 R2; simplify_eq; [done| | |by eapply (inv_unique s Hinv c1 c2)].
    + pose proof (Hr' _ _ R1) as ->. by destruct (Hnr c2 p2 k2 H2 ltac:(congruence)).
    + pose proof (Hr' _ _ R2) as ->. by destruct (Hnr c1 p1 k1 H1 ltac:(congruence)).
  - intros g kg. rewrite Hheap, lookup_insert. case_decide as Hfg.
    + intros [= <-] Hd'. destruct (Hopen Hd') as [key' Hrk]. exists c, p', key'.
      rewrite Hcs, lookup_insert_eq. by subst.
    + intros Hkg Hdg. destruct (inv_open s Hinv g kg Hkg Hdg) as (c2 & p2 & key2 & Hc2 & Hr2).
      exists c2, p2, key2. rewrite Hcs, lookup_insert_ne; [done|]. intros ->.
      assert (p2 = p) as -> by congruence. apply Hfg. destruct p; simpl in *; naive_solver.
  - intros key' g Hg. destruct (Hsub key' g Hg) as [Hg0 Hgf].
    destruct (decide (g = f)) as [->|Hne].
    + exists c, p'. rewrite Hcs, lookup_insert_eq. auto.
    + destruct (inv_registered s Hinv key' g Hg0) as (c2 & p2 & Hc2 & Hr2). exists c2, p2.
      rewrite Hcs, lookup_insert_ne; [done|]. intros ->. assert (p2 = p) as -> by congruence.
      apply registered_runs in Hr2. apply Hne. destruct p; simpl in *; naive_solver.
  - intros g kg. rewrite Hheap, lookup_insert. case_decide; [by intros [= <-]|exact (inv_result s Hinv g kg)].
  - intros g kg. rewrite Hheap, Hw, lookup_insert. case_decide as Hfg; [|apply (inv_waiters s Hinv)].
    intros [= <-]. subst g. rewrite Hwk. by apply (inv_waiters s Hinv).
  - intros g. rewrite Hheap, Hw, lookup_insert. case_decide; [done|apply (inv_fresh s Hinv)].
Qed.

Lemma inv_publish s c o : inv s -> inv (publish c o s).
Proof.
  intros Hinv. unfold publish. destruct (callers s !! c) as [p|] eqn:Hc; [|done].
  destruct p as [key f| | | | | |]; try done.
  destruct (heap s !! f) as [k|] eqn:Hk; [|done]. pose proof (inv_pc s Hinv c _ Hc) as [Hcall [w Hf]].
  eapply (inv_holder s _ c _ (Publishing key f o) key f k _ Hinv Hc); try done; cbn.
  - by intros key' g [_ <-].
  - intros _. by exists key.
  - eauto.
  - rewrite lookup_insert_eq. simplify_eq. eauto.
  - intros key' g Hg. split; [done|]. intros ->.
    by rewrite (runs_key s c (Fetching key f) key key' f).
Qed.

Lemma inv_unregister s c : inv s -> inv (unregister c s).
Proof.
  intros Hinv. unfold unregister. destruct (callers s !! c) as [p|] eqn:Hc; [|done].
  destruct p as [|key f o| | | | |]; try done.
  pose proof (inv_pc s Hinv c _ Hc) as [Hcall [w Hf]].
  eapply (inv_holder s _ c _ (Closing key f o) key f _ (mkCall false (Some o) w) Hinv Hc); try done; cbn.
  - by rewrite insert_id.
  - by intros key' g [_ <-].
  - intros _. by exists key.
  - split; [|eauto]. intros key' [Hne Hk']%lookup_delete_Some. apply Hne.
    symmetry. by eapply (runs_key s c (Publishing key f o)).
  - intros key' g Hg Hne. rewrite lookup_delete_ne; [done|]. intros ->. congruence.
  - intros key' g [Hne Hg]%lookup_delete_Some. split; [done|]. intros ->. destruct Hne.
    symmetry. by eapply (runs_key s c (Publishing key f o)).
Qed.

Lemma inv_finish s c : inv s -> inv (finish c s).
Proof.
  intros Hinv. unfold finish. destruct (callers s !! c) as [p|] eqn:Hc; [|done].
  destruct p as [| |key f o| | | |]; try done.
  destruct (heap s !! f) as [k|] eqn:Hk; [|done]. pose proof (inv_pc s Hinv c _ Hc) as [Hcall [w Hf]].
  simplify_eq.
  eapply (inv_holder s _ c _ (match o with Fetched _ => Returned f o true | FetchPanicked => Raised f end)
    key f _ _ Hinv Hc); try done; cbn.
  - intros g. by destruct o.
  - by destruct o.
  - eauto.
  - destruct o; cbn; rewrite lookup_insert_eq; eauto.
  - intros key' g Hg. split; [done|]. intros ->. by destruct (Hcall key').
Qed.

Lemma inv_step s s' : inv s -> step s s' -> inv s'.
Proof.
  intros Hinv Hstep. destruct Hstep as [c key f s Hc Hf|c o s|c s|c s|c s|c s].
  - by apply inv_enter.
  - by apply inv_publish.
  - by apply inv_unregister.
  - by apply inv_finish.
  - unfold receive. destruct (callers s !! c) as [[| | |key f| | |]|] eqn:Hc; try done.
    destruct (heap s !! f) as [[[] [o|] w]|] eqn:Hf; try done.
    eapply inv_leave; [done|done|by intros ? ? []|done|].
    unfold leave. rewrite Hf. cbn. rewrite lookup_insert_eq. eauto.
  - unfold abandon. destruct (callers s !! c) as [[| | |key f| | |]|] eqn:Hc; try done.
    destruct (inv_pc s Hinv c _ Hc) as [k Hk].
    eapply inv_leave; [done|done|by intros ? ? []|done|].
    unfold leave. rewrite Hk. cbn. rewrite lookup_insert_eq. eauto.
Qed.

Lemma inv_init : inv NewFlight.
Proof.
  by split.
Qed.

Lemma inv_reachable s : reachable s -> inv s.
Proof.
  unfold reachable. intros H. assert (forall s0, inv s0 -> rtc step s0 s -> inv s) as Hgen.
  { intros s0 H0 Hrtc. induction Hrtc; [done|]. eauto using inv_step. }
  by eapply Hgen; [apply inv_init|].
Qed.
End facts.
End FlightFacts.

Module FlightProps.
Import Flight FlightFacts.

Section props.
Context {V E : Type}.
Implicit Types (s : state V E).

(** Running the holder to its end and letting a waiter receive. *)
Definition drain (c holder : nat) (o : outcome V E) s : state V E :=
  receive c (finish holder (unregister holder (publish holder o s))).

Lemma drain_delivers s c holder key key' f o :
  inv s -> callers s !! c = Some (Waiting key f) -> callers s !! holder = Some (Fetching key' f) ->
  callers (drain c holder o s) !! c = Some (Returned f o false).
Proof.
  intros Hinv Hc Hh. assert (c <> holder) as Hne by congruence.
  destruct (inv_pc s Hinv holder _ Hh) as [_ [w Hf]]. unfold drain.
  assert (publish holder o s = set_caller holder (Publishing key' f o) (set_call f (mkCall false (Some o) w) s)) as ->
    by (unfold publish; by rewrite Hh, Hf).
  unfold unregister; cbn [set_caller set_call callers calls heap]. rewrite lookup_insert_eq.
  unfold finish; cbn [callers calls heap]. rewrite !lookup_insert_eq.
  unfold receive; cbn [set_caller set_call callers calls heap].
  rewrite !lookup_insert_ne, Hc by done. rewrite !lookup_insert_eq. cbn [result waiters].
  unfold leave; cbn [set_caller set_call callers calls heap]. rewrite lookup_insert_eq.
  cbn [set_caller set_call callers]. by rewrite lookup_insert_eq.
Qed.

Lemma drain_steps s c holder o : rtc step s (drain c holder o s).
Proof.
  eapply rtc_l; [apply (step_publish holder o)|]. eapply rtc_l; [apply (step_unregister holder)|].
  eapply rtc_l; [apply (step_finish holder)|]. apply rtc_once. apply (step_receive c).
Qed.

(** C12. Deduplication under every interleaving of the callers, of fetches
    that succeed, fail or panic, and of waiters that give up: at most one
    fetch of a key runs at a time, everybody who returns from one flight
    returns the same outcome, the waiter
    count is the number of callers waiting, and no waiter is stranded - its
    flight is done with a result, or a holder is still on its way and
    delivers whatever its fetch produces. *)
Theorem singleflight_exclusive s :
  reachable s ->
  (forall c c' key f f', callers s !! c = Some (Fetching key f) ->
     callers s !! c' = Some (Fetching key f') -> c = c') /\
  (forall c c' f o o' w w', callers s !! c = Some (Returned f o w) ->
     callers s !! c' = Some (Returned f o' w') -> o = o') /\
  (forall f k, heap s !! f = Some k -> waiters k = map_sum (waits f) (callers s)) /\
  (forall c key f, callers s !! c = Some (Waiting key f) ->
     (exists o, callers (receive c s) !! c = Some (Returned f o false)) \/
     exists holder p key', callers s !! holder = Some p /\ runs key' f p) /\
  (forall c holder key key' f o, callers s !! c = Some (Waiting key f) ->
     callers s !! holder = Some (Fetching key' f) ->
     rtc step s (drain c holder o s) /\
     callers (drain c holder o s) !! c = Some (Returned f o false)).
Proof.
  intros Hs%inv_reachable. split_and!.
  - intros c c' key f f' Hc Hc'. destruct (inv_pc s Hs c _ Hc) as [H1 _].
    destruct (inv_pc s Hs c' _ Hc') as [H2 _]. assert (f' = f) as -> by congruence.
    by eapply (inv_unique s Hs c c').
  - intros c c' f o o' w w' Hc Hc'. destruct (inv_pc s Hs c _ Hc) as [? H1].
    destruct (inv_pc s Hs c' _ Hc') as [? H2]. congruence.
  - apply (inv_waiters s Hs).
  - intros c key f Hc. destruct (inv_pc s Hs c _ Hc) as [k Hk].
    destruct k as [[] r w].
    + left. destruct (inv_result s Hs f _ Hk eq_refl) as [o Ho]. simpl in Ho. subst r. exists o.
      unfold receive. rewrite Hc, Hk. unfold leave. rewrite Hk. cbn [set_caller callers].
      by rewrite lookup_insert_eq.
    + right. destruct (inv_open s Hs f _ Hk eq_refl) as (h & p & key' & Hh & Hr). eauto.
  - intros c holder key key' f o Hc Hh. split; [apply drain_steps|by eapply drain_delivers].
Qed.
End props.

Lemma singleflight_exclusive_witness :
  let s := enter 2%nat "k" 8%nat (enter 1%nat "k" 7%nat NewFlight) : state nat string in
  callers (drain 2%nat 1%nat (Fetched (inl 5%nat)) s) !! 2%nat
  = Some (Returned 7%nat (Fetched (inl 5%nat)) false).
Proof.
  intros s. assert (reachable s) as Hs.
  { eapply rtc_l; [by apply (step_enter 1 "k" 7)|].
    apply rtc_once. by apply (step_enter 2 "k" 8). }
  destruct (singleflight_exclusive s Hs) as (_ & _ & _ & _ & H).
  by apply (H 2%nat 1%nat "k" "k" 7%nat (Fetched (inl 5%nat))).
Defined.
End FlightProps.
