(* ===== verification/Retry.v ===== *)
(** * The retry protocol (internal/retry: retry.go, classifier.go, loop.go)

    Error chains are trees of wrapped errors, searched depth first as
    [errors.Is] and [errors.As] do.  [Execute] is a function of the loop's
    environment - what each attempt returns, whether the overall context
    has ended, the random draws, what other requests do to the shared
    budget - and yields the final error together with the trace of what the
    loop did.  Its fuel is the attempt cap, which [execute_contract] shows
    is always enough. *)
From Stdlib Require Import QArith.
From stdpp Require Import base strings list numbers.
From S2P Require Import Prelude Float64.
Import GoInt GoTime.
Local Open Scope Z_scope.

Module Errors.
(** The error values the loop tells apart; [Sentinel] is an error variable
    of another package, [Transport] any other error, [Wrap e1 e2] is
    [fmt.Errorf("%w: %w", e1, e2)], and a [StatusError] carries the identity
    of the object beside its fields. *)
Inductive goerr :=
  | Canceled | DeadlineExceeded | ErrCommitted | ErrBudgetExhausted
  | StatusError (obj : nat) (StatusCode RetryAfter : Z)
  | Transport (what : string)
  | Sentinel (name : string)
  | Wrap (e1 e2 : goerr).

#[export] Instance goerr_eq_dec : EqDecision goerr.
Proof. solve_decision. Defined.

(** [errors.Is(err, target)] for the sentinel targets. *)
Fixpoint Is (err target : goerr) : bool :=
  bool_decide (err = target) ||
  match err with Wrap e1 e2 => Is e1 target || Is e2 target | _ => false end.

(** [errors.As(err, &status)]: the first status error of the tree. *)
Fixpoint As_status (err : goerr) : option (nat * Z * Z) :=
  match err with
  | StatusError obj code after => Some (obj, code, after)
  | Wrap e1 e2 => match As_status e1 with Some s => Some s | None => As_status e2 end
  | _ => None
  end.
End Errors.

Module Budget.
(** [percent] 0 selects the static cap; [inflightTotal] is read at every
    admission and is an argument of [cap]. *)
Record Budget := mkBudget { inFlight : Z; max_ : Z; percent : Z; minInFlight : Z }.

Definition NewBudget (maxInFlight : Z) : Budget :=
  mkBudget 0 (if maxInFlight <? 0 then 0 else maxInFlight) 0 0.

Definition NewShareBudget (percent minInFlight : Z) (has_source : bool) : option Budget :=
  if negb has_source then None
  else if (percent <=? 0) || (100 <? percent) then None
  else if minInFlight <? 1 then None
  else Some (mkBudget 0 0 percent minInFlight).

Definition cap (inflightTotal : Z) (b : Budget) : Z :=
  if percent b =? 0 then max_ b
  else Z.max (minInFlight b) (wrap64 (Z.quot (wrap64 (percent b * inflightTotal)) 100)).

Definition set_in_flight (n : Z) (b : Budget) : Budget :=
  mkBudget n (max_ b) (percent b) (minInFlight b).

Definition Acquire (inflightTotal : Z) (b : Budget) : bool * Budget :=
  if cap inflightTotal b <=? inFlight b then (false, b)
  else (true, set_in_flight (inFlight b + 1) b).

Definition Release (b : Budget) : Budget :=
  if 0 <? inFlight b then set_in_flight (inFlight b - 1) b else b.
End Budget.

Module Classifier.
Import Errors.

(** [StripRetryAfter] mutates the status error it finds; the result is the
    tree with that object's hint cleared. *)
Fixpoint clear_hint (obj : nat) (err : goerr) : goerr :=
  match err with
  | StatusError o code after => if bool_decide (o = obj) then StatusError o code 0 else err
  | Wrap e1 e2 => Wrap (clear_hint obj e1) (clear_hint obj e2)
  | _ => err
  end.

Definition StripRetryAfter (err : goerr) : goerr :=
  match As_status err with
  | Some (obj, _, after) => if 0 <? after then clear_hint obj err else err
  | None => err
  end.

Definition retryAfterCap : Z := 60 * second.

Definition cappedRetryAfter (d : Z) : Z := if d <=? 0 then 0 else Z.min d retryAfterCap.

(** A parsed float64. *)
Inductive float := NaN | PInf | NInf | Finite (q : Q).

(** [parse_int], [parse_float] and [parse_time] are the standard parsers of
    the trimmed header value; converting a float outside the [int64] range
    is left to the machine ([convert]). *)
Section parse.
Variable parse_int : string -> option Z.
Variable parse_float : string -> option float.
Variable parse_time : string -> option Z.
Variable convert : float -> Z.

Definition above_cap (f : float) : bool :=
  match f with
  | PInf => true | NaN | NInf => false
  | Finite q => negb (Qle_bool q 60)
  end.

(** [raw] is the trimmed value. *)
Definition ParseRetryAfter (raw : string) (now : Z) : Z :=
  if String.eqb raw "" then 0
  else match parse_int raw with
  | Some secs =>
      if Z.quot retryAfterCap second <? secs then retryAfterCap
      else cappedRetryAfter (wrap64 (secs * second))
  | None =>
      match parse_float raw with
      | Some frac =>
          match frac with
          | NaN => 0
          | _ =>
              if above_cap frac then retryAfterCap
              else cappedRetryAfter
                (match frac with
                 | Finite q => convert (Finite (fmul q (fof_int second)))
                 | f => convert f
                 end)
          end
      | None =>
          match parse_time raw with
          | Some t => cappedRetryAfter (sub t now)
          | None => 0
          end
      end
  end.
End parse.

Definition DelayHint (err : goerr) : Z :=
  match As_status err with Some (_, _, after) => after | None => 0 end.

Definition Retryable (err : option goerr) : bool :=
  match err with
  | None => false
  | Some err =>
      if Is err Canceled then false
      else if Is err DeadlineExceeded then true
      else match As_status err with
      | Some (_, code, _) => (code =? 429) || (500 <=? code)
      | None => true
      end
  end.
End Classifier.

Module Loop.
Import Errors Budget Classifier.

Record Policy := mkPolicy {
  MaxAttempts : Z; AttemptTimeout : Z; OverallDeadline : Z;
  BackoffInitial : Z; BackoffMax : Z
}.

Definition maxAttempts (policy : Policy) : Z :=
  if MaxAttempts policy <? 1 then 1 else MaxAttempts policy.

Definition backoffCeiling (policy : Policy) (attempt : Z) : Z :=
  let shift := attempt - 1 in
  let shift := if shift <? 0 then 0 else shift in
  let shift := if 16 <? shift then 16 else shift in
  let ceiling := BackoffMax policy in
  let exp := BackoffInitial policy in
  let exp :=
    if 0 <? exp then
      if Z.shiftr max_int64 shift <? exp then max_int64 else wrap64 (Z.shiftl exp shift)
    else exp in
  if (0 <? exp) && ((ceiling =? 0) || (exp <? ceiling)) then exp else ceiling.

(** [rand.Int64N(n)] is [draw mod n] for an arbitrary draw. *)
Definition int64n (draw n : Z) : Z := draw mod n.

Definition backoffDelay (draw : Z) (policy : Policy) (attempt : Z) : Z :=
  let ceiling := backoffCeiling policy attempt in
  if ceiling <=? 0 then 0 else int64n draw ceiling.

Definition jitteredHint (draw hint : Z) : Z :=
  let spread := Z.quot hint 2 in
  if spread <=? 0 then hint else wrap64 (hint + int64n draw spread).

(** How an attempt ends: it returns, or it panics through the loop. *)
Inductive attempt_end := Ended (err : option goerr) | AttemptPanicked.

(** What surrounds the loop.  [run n] is what attempt [n] does, [overall n]
    is [overall.Err()] after it, [slept n d] what the backoff sleep of [d]
    returns, [draw n] the random draw, [traffic n] the in-flight total read
    by the [n]-th admission, and [others n] and [during n] what other
    requests do to the shared budget before that admission and while the
    attempt runs. *)
Record environment := mkEnv {
  run : Z -> attempt_end; overall : Z -> option goerr;
  slept : Z -> Z -> option goerr; draw : Z -> Z; traffic : Z -> Z;
  others : Z -> Budget -> Budget; during : Z -> Budget -> Budget
}.

Inductive action :=
  | Acquired (ok : bool) | Ran (attempt : Z) | Released
  | OnRetry (attempt : Z) (err : goerr) (delay : Z) | Slept (delay : Z).

Inductive verdict := Returned (err : option goerr) | Panicked.

Section loop.
Variable policy : Policy.
(** The classifier: [DefaultClassifier] unless the caller brings one, whose
    answer may depend on what the attempts so far did ([retryable n] is its
    answer after attempt [n]); [delayHint] is absent for a classifier without that method. *)
Variable retryable : Z -> option goerr -> bool.
Variable delayHint : option (goerr -> Z).
Variable env : environment.

Definition retry_delay (attempt : Z) (err : goerr) : Z :=
  let delay := backoffDelay (draw env attempt) policy attempt in
  match delayHint with
  | Some dh => if 0 <? dh err then jitteredHint (draw env attempt) (dh err) else delay
  | None => delay
  end.

(** The error of a context that ended, with the attempt's error kept. *)
Definition with_last (ctxErr : goerr) (lastErr : option goerr) : goerr :=
  match lastErr with Some e => Wrap ctxErr e | None => ctxErr end.

(** One turn of the loop past the attempt: stop with a verdict, or the
    actions before the next attempt. *)
Definition after_attempt (attempt : Z) (ended : attempt_end) : (verdict * list action) + list action :=
  match ended with
  | AttemptPanicked => inl (Panicked, [])
  | Ended None => inl (Returned None, [])
  | Ended (Some err) =>
      if Is err ErrCommitted then inl (Returned (Some err), [])
      else match overall env attempt with
      | Some overallErr => inl (Returned (Some (with_last overallErr (Some err))), [])
      | None =>
          if (maxAttempts policy <=? attempt) || negb (retryable attempt (Some err))
          then inl (Returned (Some err), [])
          else
            let delay := retry_delay attempt err in
            let acts := [OnRetry attempt err delay; Slept delay] in
            match slept env attempt delay with
            | Some ctxErr => inl (Returned (Some (with_last ctxErr (Some err))), acts)
            | None => inr acts
            end
      end
  end.

Definition last_error (ended : attempt_end) : option goerr :=
  match ended with Ended e => e | AttemptPanicked => None end.

(** The loop from [attempt] on; the budget is absent when nil. *)
Fixpoint attempts (fuel : nat) (attempt : Z) (lastErr : option goerr) (b : option Budget)
  : option (verdict * option Budget * list action) :=
  match fuel with
  | O => None
  | S fuel =>
      let gate :=
        match b with
        | Some b =>
            if 1 <? attempt then
              let (ok, b') := Acquire (traffic env attempt) (others env attempt b) in
              (ok, Some b', [Acquired ok])
            else (true, Some b, [])
        | None => (true, None, [])
        end in
      let '(ok, b1, acts1) := gate in
      if negb ok
      then Some (Returned (Some (with_last ErrBudgetExhausted lastErr)), b1, acts1)
      else
        let ended := run env attempt in
        let held := match b1 with Some _ => 1 <? attempt | None => false end in
        let b2 := option_map (during env attempt) b1 in
        let b3 := if held then option_map Release b2 else b2 in
        let acts2 := acts1 ++ Ran attempt :: (if held then [Released] else []) in
        match after_attempt attempt ended with
        | inl (v, acts3) => Some (v, b3, acts2 ++ acts3)
        | inr acts3 =>
            match attempts fuel (attempt + 1) (last_error ended) b3 with
            | Some (v, b4, acts4) => Some (v, b4, acts2 ++ acts3 ++ acts4)
            | None => None
            end
        end
  end.

Definition Execute (b : option Budget) : option (verdict * option Budget * list action) :=
  attempts (Z.to_nat (maxAttempts policy)) 1 None b.
End loop.
End Loop.

Module LoopSpec.
Import Errors Budget Classifier Loop.

(** The attempts of a trace, in order. *)
Definition runs (tr : list action) : list Z :=
  omap (fun a => match a with Ran n => Some n | _ => None end) tr.

(** Reading a trace with a budget: a slot is taken only when none is held,
    every attempt but the first runs holding one, and it is given back
    before anything else happens.  The state is whether a slot is held. *)
Definition slot_step (held : option bool) (a : action) : option bool :=
  match held, a with
  | Some false, Acquired ok => Some ok
  | Some true, Released => Some false
  | Some h, Ran n => if bool_decide (h = (1 <? n)) then Some h else None
  | Some false, OnRetry _ _ _ | Some false, Slept _ => Some false
  | _, _ => None
  end.

Definition slot_discipline (tr : list action) (h : bool) : option bool :=
  foldl slot_step (Some h) tr.

(** Attempt [n] failed in a way that lets the loop go on. *)
Definition goes_on (retryable : Z -> option goerr -> bool) (env : environment) (n : Z) : Prop :=
  exists err, run env n = Ended (Some err) /\ Is err ErrCommitted = false /\
    overall env n = None /\ retryable n (Some err) = true.

(** The errors the loop itself puts in front of an attempt's. *)
Definition loop_error (env : environment) (c : goerr) : Prop :=
  c = ErrBudgetExhausted \/ (exists n, overall env n = Some c) \/ (exists n d, slept env n d = Some c).

(** The error [e] still carries [err]: it is [err], or the loop's own error
    wrapped around it. *)
Definition carries (env : environment) (e err : goerr) : Prop :=
  e = err \/ exists c, e = Wrap c err /\ loop_error env c.

(** No other request touches the budget. *)
Definition quiet (env : environment) : Prop :=
  (forall n b, others env n b = b) /\ (forall n b, during env n b = b).
End LoopSpec.

Module LoopFacts.
Import Errors Budget Classifier Loop LoopSpec.

Lemma slot_discipline_app (tr1 tr2 : list action) (h h' : bool) :
  slot_discipline tr1 h = Some h' -> slot_discipline (tr1 ++ tr2) h = slot_discipline tr2 h'.
Proof. unfold slot_discipline. rewrite foldl_app. by intros ->. Qed.

Lemma runs_app (tr1 tr2 : list action) : runs (tr1 ++ tr2) = runs tr1 ++ runs tr2.
Proof. apply omap_app. Qed.

Lemma Acquire_Release (total : Z) (b b' : Budget) :
  0 <= inFlight b -> Acquire total b = (true, b') -> Release b' = b.
Proof.
  unfold Acquire, Release. intros Hb. case_match; [done|]. intros [= <-].
  destruct b as [n m p q]; cbn in *. destruct (Z.ltb_spec 0 (n + 1)); [|lia].
  unfold set_in_flight; cbn. f_equal. lia.
Qed.

Lemma jitteredHint_bounds (draw hint : Z) :
  0 <= hint <= 2 ^ 62 -> hint <= jitteredHint draw hint <= hint + hint / 2.
Proof.
  intros Hh. unfold jitteredHint, int64n. rewrite Z.quot_div_nonneg by lia.
  pose proof (Z.div_mod hint 2 ltac:(lia)). pose proof (Z.mod_pos_bound hint 2 ltac:(lia)).
  destruct (Z.leb_spec (hint / 2) 0) as [|Hp]; [lia|].
  pose proof (Z.mod_pos_bound draw _ Hp). rewrite wrap64_id; [lia|].
  unfold in_int64, min_int64, max_int64. lia.
Qed.

Section facts.
Variable policy : Policy.
Variable retryable : Z -> option goerr -> bool.
Variable delayHint : option (goerr -> Z).
Variable env : environment.

Abbreviation after := (after_attempt policy retryable delayHint env).

(** The two ways past an attempt. *)
Lemma after_next (n : Z) (acts : list action) :
  after n (run env n) = inr acts ->
  goes_on retryable env n /\ n < maxAttempts policy /\
  (exists err, run env n = Ended (Some err)) /\
  runs acts = [] /\ slot_discipline acts false = Some false.
Proof.
  unfold after_attempt. destruct (run env n) as [[err|]|] eqn:Hrun; try done.
  destruct (Is err ErrCommitted) eqn:Hc; [done|].
  destruct (overall env n) eqn:Ho; [done|].
  destruct ((maxAttempts policy <=? n) || negb (retryable n (Some err))) eqn:Hr; [done|].
  apply orb_false_iff in Hr as [Hn%Z.leb_gt Hr%negb_false_iff].
  destruct (slept _ _ _); [done|]. intros [= <-].
  split_and!; [by exists err|done|eauto|done|done].
Qed.

Lemma after_stop (n : Z) (v : verdict) (acts : list action) :
  after n (run env n) = inl (v, acts) ->
  runs acts = [] /\ slot_discipline acts false = Some false /\
  match v with
  | Returned None => run env n = Ended None
  | Returned (Some e) => exists err, run env n = Ended (Some err) /\ carries env e err /\
      (Is err ErrCommitted = true -> e = err)
  | Panicked => run env n = AttemptPanicked
  end.
Proof.
  unfold after_attempt. destruct (run env n) as [[err|]|] eqn:Hrun.
  2,3: intros [= <- <-]; split_and!; done.
  destruct (Is err ErrCommitted) eqn:Hc.
  { intros [= <- <-]. split_and!; [done..|]. exists err. unfold carries. auto. }
  destruct (overall env n) as [o|] eqn:Ho.
  { intros [= <- <-]. split_and!; [done..|]. exists err. split_and!; [done|right; exists o; split; [done|unfold loop_error; eauto 6]|congruence]. }
  destruct ((maxAttempts policy <=? n) || negb (retryable n (Some err))) eqn:Hr.
  { intros [= <- <-]. split_and!; [done..|]. exists err. unfold carries. auto. }
  destruct (slept _ _ _) as [o|] eqn:Hs; [|done]. intros [= <- <-].
  split_and!; [done..|]. exists err. split_and!; [done|right; exists o; split; [done|unfold loop_error; eauto 6]|congruence].
Qed.

(** What a run of the loop from attempt [n] promises. *)
Record contract (n : Z) (lastErr : option goerr) (b : option Budget)
    (v : verdict) (b' : option Budget) (tr : list action) (k : Z) : Prop := {
  ct_range : n - 1 <= k <= Z.max n (maxAttempts policy);
  ct_first : n = 1 -> 1 <= k;
  ct_runs : runs tr = seqZ n (k - n + 1);
  ct_goes_on : forall i, n <= i < k -> goes_on retryable env i;
  ct_slots : b <> None -> slot_discipline tr false = Some false;
  ct_verdict : match v with
    | Returned None => n <= k /\ run env k = Ended None
    | Returned (Some e) =>
        n <= k /\ (exists err, run env k = Ended (Some err) /\ carries env e err /\
                    (Is err ErrCommitted = true -> e = err))
        \/ k = n - 1 /\ e = with_last ErrBudgetExhausted lastErr
    | Panicked => n <= k /\ run env k = AttemptPanicked
    end;
  ct_budget : quiet env -> (forall b0, b = Some b0 -> 0 <= inFlight b0) -> b' = b
}.

(** The admission of attempt [n] and its own actions. *)
Definition gate (n : Z) (b : option Budget) : bool * option Budget * list action :=
  match b with
  | Some b =>
      if 1 <? n then
        let (ok, b') := Acquire (traffic env n) (others env n b) in (ok, Some b', [Acquired ok])
      else (true, Some b, [])
  | None => (true, None, [])
  end.

Definition held (n : Z) (b : option Budget) : bool :=
  match b with Some _ => 1 <? n | None => false end.

Definition settled (n : Z) (b : option Budget) : option Budget :=
  if held n b then option_map Release (option_map (during env n) b) else option_map (during env n) b.

Lemma gate_denied (n : Z) (b b1 : option Budget) (acts : list action) :
  gate n b = (false, b1, acts) ->
  acts = [Acquired false] /\ 1 < n /\ (quiet env -> b1 = b).
Proof.
  unfold gate. destruct b as [b|]; [|done]. destruct (Z.ltb_spec 1 n) as [Hn|]; [|done].
  unfold Acquire. destruct (cap _ _ <=? _); [|done]. intros [= <- <-]. split_and!; [done..|].
  intros [Hq _]. by rewrite Hq.
Qed.

Lemma gate_open (n : Z) (b b1 : option Budget) (acts : list action) :
  gate n b = (true, b1, acts) ->
  let acts2 := acts ++ Ran n :: (if held n b1 then [Released] else []) in
  runs acts2 = [n] /\ (b <> None -> slot_discipline acts2 false = Some false) /\
  (quiet env -> (forall b0, b = Some b0 -> 0 <= inFlight b0) -> settled n b1 = b) /\
  (b1 <> None <-> b <> None).
Proof.
  unfold gate, settled, held. destruct b as [b|].
  - destruct (Z.ltb_spec 1 n) as [Hn|Hn].
    + destruct (Acquire (traffic env n) (others env n b)) as [ok b'] eqn:Ha.
      intros [= -> <- <-]. cbn [app]. split_and!; [done| | |done].
      * intros _. unfold slot_discipline. cbn [foldl slot_step].
        rewrite (proj2 (Z.ltb_lt 1 n)) by done. by rewrite bool_decide_true.
      * intros [Hq1 Hq2] Hb. cbn [option_map]. f_equal. rewrite Hq2.
        rewrite Hq1 in Ha. by eapply Acquire_Release; [apply Hb|].
    + intros [= <- <-]. cbn [app]. split_and!; [done| | |done].
      * intros _. unfold slot_discipline. cbn [foldl slot_step].
        rewrite (proj2 (Z.ltb_ge 1 n)) by done. by rewrite bool_decide_true.
      * intros [Hq1 Hq2] Hb. cbn [option_map]. by rewrite Hq2.
  - intros [= <- <-]. by split_and!.
Qed.

Lemma attempts_unfold (fuel : nat) (n : Z) (lastErr : option goerr) (b : option Budget) :
  attempts policy retryable delayHint env (S fuel) n lastErr b =
    let '(ok, b1, acts1) := gate n b in
    if negb ok then Some (Returned (Some (with_last ErrBudgetExhausted lastErr)), b1, acts1)
    else
      let acts2 := acts1 ++ Ran n :: (if held n b1 then [Released] else []) in
      match after n (run env n) with
      | inl (v, acts3) => Some (v, settled n b1, acts2 ++ acts3)
      | inr acts3 =>
          match attempts policy retryable delayHint env fuel (n + 1) (last_error (run env n)) (settled n b1) with
          | Some (v, b4, acts4) => Some (v, b4, acts2 ++ acts3 ++ acts4)
          | None => None
          end
      end.
Proof. done. Qed.

Lemma settled_some (n : Z) (b : option Budget) : settled n b <> None <-> b <> None.
Proof. unfold settled. destruct b; [|done]. by case_match. Qed.

(** Denied at the gate: the trace is that one refused admission. *)
Lemma contract_denied (n : Z) (lastErr : option goerr) (b b1 : option Budget) (acts : list action) :
  1 <= n -> gate n b = (false, b1, acts) ->
  contract n lastErr b (Returned (Some (with_last ErrBudgetExhausted lastErr))) b1 acts (n - 1).
Proof.
  intros Hn Hg. destruct (gate_denied n b b1 acts Hg) as (-> & H1 & Hq).
  split; [lia|lia| | |done|by right|by intros H _; apply Hq].
  - by replace (n - 1 - n + 1) with 0 by lia.
  - intros i Hi. lia.
Qed.

(** Stopped after attempt [n]. *)
Lemma contract_stop (n : Z) (lastErr : option goerr) (b b1 : option Budget)
    (acts1 acts3 : list action) (v : verdict) :
  1 <= n -> gate n b = (true, b1, acts1) -> after n (run env n) = inl (v, acts3) ->
  contract n lastErr b v (settled n b1)
    ((acts1 ++ Ran n :: (if held n b1 then [Released] else [])) ++ acts3) n.
Proof.
  intros Hn Hg Ha. destruct (gate_open n b b1 acts1 Hg) as (Hr & Hs & Hb & _).
  destruct (after_stop n v acts3 Ha) as (Hr3 & Hs3 & Hv). split.
  - lia.
  - lia.
  - rewrite runs_app, Hr, Hr3. by replace (n - n + 1) with 1 by lia.
  - intros i Hi. lia.
  - intros Hbn. by rewrite (slot_discipline_app _ _ _ _ (Hs Hbn)).
  - destruct v as [[e|]|]; [|by split..]. left. split; [lia|done].
  - done.
Qed.

(** Going on to attempt [n + 1]. *)
Lemma contract_next (n : Z) (lastErr : option goerr) (b b1 b2 : option Budget)
    (acts1 acts3 tr : list action) (v : verdict) (k : Z) :
  1 <= n -> gate n b = (true, b1, acts1) -> after n (run env n) = inr acts3 ->
  contract (n + 1) (last_error (run env n)) (settled n b1) v b2 tr k ->
  contract n lastErr b v b2
    ((acts1 ++ Ran n :: (if held n b1 then [Released] else [])) ++ acts3 ++ tr) k.
Proof.
  intros Hn Hg Ha [C1 _ C3 C4 C5 C6 C7]. destruct (gate_open n b b1 acts1 Hg) as (Hr & Hs & Hb & Hsome).
  destruct (after_next n acts3 Ha) as (Hgo & Hlt & [err Herr] & Hr3 & Hs3). split.
  - lia.
  - lia.
  - rewrite runs_app, Hr, runs_app, Hr3, C3. cbn [app].
    replace (k - n + 1) with (Z.succ (k - (n + 1) + 1)) by lia.
    rewrite (seqZ_cons n (Z.succ _)) by lia. f_equal. f_equal; lia.
  - intros i Hi. destruct (decide (i = n)) as [->|]; [done|]. apply C4. lia.
  - intros Hbn. rewrite (slot_discipline_app _ _ _ _ (Hs Hbn)), (slot_discipline_app _ _ _ _ Hs3).
    apply C5. by rewrite settled_some, Hsome.
  - destruct v as [[e|]|].
    + left. destruct C6 as [[Hk C6]|[-> ->]]; [split; [lia|done]|].
      split; [lia|]. replace (n + 1 - 1) with n by lia. exists err. split; [done|].
      rewrite Herr. cbn [last_error with_last]. split; [right; eexists; split; [done|by left]|].
      destruct Hgo as (err' & Hrun & Hc & _). assert (err' = err) as -> by congruence. by rewrite Hc.
    + split; [lia|apply C6].
    + split; [lia|apply C6].
  - intros Hq Hb0. rewrite C7; [by apply Hb|done|]. by rewrite Hb.
Qed.

Lemma attempts_contract (fuel : nat) : forall n lastErr b,
  1 <= n -> maxAttempts policy - n < Z.of_nat fuel -> n <= maxAttempts policy ->
  exists v b' tr k,
    attempts policy retryable delayHint env fuel n lastErr b = Some (v, b', tr) /\
    contract n lastErr b v b' tr k.
Proof.
  induction fuel as [|fuel IH]; intros n lastErr b Hn Hfuel Hmax; [lia|].
  rewrite attempts_unfold. destruct (gate n b) as [[ok b1] acts1] eqn:Hg.
  destruct ok; cbn [negb]; [|do 4 eexists; split; [done|by apply contract_denied]].
  destruct (after n (run env n)) as [[v acts3]|acts3] eqn:Ha.
  - do 4 eexists. split; [done|]. by apply contract_stop.
  - destruct (after_next n acts3 Ha) as (_ & Hlt & _).
    destruct (IH (n + 1) (last_error (run env n)) (settled n b1)) as (v & b2 & tr & k & He & Hct);
      [lia..|]. rewrite He. do 4 eexists. split; [done|]. by eapply contract_next.
Qed.

(** The end of the loop, seen from its caller. *)
Lemma loop_ends (b : option Budget) :
  exists v b' tr k, Execute policy retryable delayHint env b = Some (v, b', tr) /\
    1 <= k <= maxAttempts policy /\ runs tr = seqZ 1 k /\ (forall i, 1 <= i < k -> goes_on retryable env i) /\
    match v with
    | Returned None => run env k = Ended None
    | Returned (Some e) => exists err, run env k = Ended (Some err) /\ carries env e err /\
        (Is err ErrCommitted = true -> e = err)
    | Panicked => run env k = AttemptPanicked
    end.
Proof.
  assert (1 <= maxAttempts policy) as Hmax
    by (unfold maxAttempts; destruct (Z.ltb_spec (MaxAttempts policy) 1); lia).
  destruct (attempts_contract (Z.to_nat (maxAttempts policy)) 1 None b)
    as (v & b' & tr & k & He & [C1 C2 C3 C4 C5 C6 C7]); [lia..|].
  specialize (C2 eq_refl). exists v, b', tr, k. split_and!; [done|lia|lia| |done|].
  - rewrite C3. f_equal. lia.
  - destruct v as [[e|]|]; [|by destruct C6|by destruct C6]. destruct C6 as [[_ C6]|[Hk _]]; [done|lia].
Qed.
End facts.
End LoopFacts.

Module RetryProps.
Import Errors Budget Classifier Loop LoopSpec LoopFacts.

(** C13. The attempt loop always returns, for every behaviour of the attempts,
    the clock, the draws and the other requests on the budget: it runs
    attempts 1 to k within the cap, every attempt but the last failed
    retryably with nothing committed and the context alive, each retry holds
    exactly one budget slot and gives it back (a panic included), a
    committed failure comes back untouched, any other failure is still
    carried by the returned error, and a budget nobody else touched is left
    as it was found. *)
Theorem execute_contract (policy : Policy) (retryable : Z -> option goerr -> bool)
    (delayHint : option (goerr -> Z)) (env : environment) (b : option Budget) :
  exists v b' tr k,
    Execute policy retryable delayHint env b = Some (v, b', tr) /\
    1 <= k <= maxAttempts policy /\ runs tr = seqZ 1 k /\
    (forall i, 1 <= i < k -> goes_on retryable env i) /\
    (b <> None -> slot_discipline tr false = Some false) /\
    match v with
    | Returned None => run env k = Ended None
    | Returned (Some e) => exists err, run env k = Ended (Some err) /\ carries env e err /\
        (Is err ErrCommitted = true -> e = err)
    | Panicked => run env k = AttemptPanicked
    end /\
    (quiet env -> (forall b0, b = Some b0 -> 0 <= inFlight b0) -> b' = b).
Proof.
  assert (1 <= maxAttempts policy) as Hmax
    by (unfold maxAttempts; destruct (Z.ltb_spec (MaxAttempts policy) 1); lia).
  destruct (attempts_contract policy retryable delayHint env (Z.to_nat (maxAttempts policy)) 1 None b)
    as (v & b' & tr & k & He & [C1 C2 C3 C4 C5 C6 C7]); [lia..|].
  specialize (C2 eq_refl). exists v, b', tr, k. split_and!; [done|lia|lia| |done|done| |done].
  - rewrite C3. f_equal. lia.
  - destruct v as [[e|]|]; [|by destruct C6|by destruct C6]. destruct C6 as [[_ C6]|[Hk _]]; [done|lia].
Qed.

(** The cap of the exponential in closed form. *)
Definition exponential (policy : Policy) (attempt : Z) : Z :=
  Z.min max_int64 (BackoffInitial policy * 2 ^ Z.min 16 (Z.max 0 (attempt - 1))).

Lemma ceiling_exact (policy : Policy) (attempt : Z) :
  0 <= BackoffInitial policy -> 0 <= BackoffMax policy ->
  backoffCeiling policy attempt =
    (if BackoffInitial policy =? 0 then BackoffMax policy
     else if BackoffMax policy =? 0 then exponential policy attempt
     else Z.min (BackoffMax policy) (exponential policy attempt)).
Proof.
  intros Hi0 Hm0. unfold backoffCeiling, exponential.
  assert ((if 16 <? (if attempt - 1 <? 0 then 0 else attempt - 1) then 16
           else if attempt - 1 <? 0 then 0 else attempt - 1)
          = Z.min 16 (Z.max 0 (attempt - 1))) as ->.
  { destruct (Z.ltb_spec (attempt - 1) 0); [simpl; lia|].
    destruct (Z.ltb_spec 16 (attempt - 1)); lia. }
  set (s := Z.min 16 (Z.max 0 (attempt - 1))). assert (0 <= s <= 16) as Hs by lia.
  assert (0 < 2 ^ s) as Hp by (apply Z.pow_pos_nonneg; lia).
  assert (2 ^ s <= 2 ^ 16) as Hp16 by (apply Z.pow_le_mono_r; lia).
  set (i := BackoffInitial policy) in *. set (m := BackoffMax policy) in *.
  rewrite Z.shiftr_div_pow2, Z.shiftl_mul_pow2 by lia.
  destruct (Z.eqb_spec i 0) as [->|Hi1]; [done|].
  rewrite (proj2 (Z.ltb_lt 0 i)) by lia.
  pose proof (Z.div_mod max_int64 (2 ^ s) ltac:(lia)) as Hdm.
  pose proof (Z.mod_pos_bound max_int64 (2 ^ s) Hp) as Hmod.
  assert ((if max_int64 / 2 ^ s <? i then max_int64 else wrap64 (i * 2 ^ s))
          = Z.min max_int64 (i * 2 ^ s)) as ->.
  { destruct (Z.ltb_spec (max_int64 / 2 ^ s) i).
    - rewrite Z.min_l; [done|]. nia.
    - assert (i * 2 ^ s <= max_int64) by nia. rewrite Z.min_r by done.
      apply wrap64_id. unfold in_int64, min_int64. nia. }
  assert (0 < Z.min max_int64 (i * 2 ^ s)) as He by (apply Z.min_glb_lt; [done|nia]).
  rewrite (proj2 (Z.ltb_lt 0 _)) by done. rewrite andb_true_l.
  destruct (Z.eqb_spec m 0) as [|Hm1]; [done|]. rewrite orb_false_l.
  destruct (Z.ltb_spec (Z.min max_int64 (i * 2 ^ s)) m); lia.
Qed.

Lemma ceiling_nonneg (policy : Policy) (attempt : Z) :
  0 <= BackoffInitial policy -> 0 <= BackoffMax policy -> 0 <= backoffCeiling policy attempt.
Proof.
  intros Hi0 Hm0. rewrite ceiling_exact by done. unfold exponential.
  assert (0 < 2 ^ Z.min 16 (Z.max 0 (attempt - 1))) by (apply Z.pow_pos_nonneg; lia).
  assert (0 <= Z.min max_int64 (BackoffInitial policy * 2 ^ Z.min 16 (Z.max 0 (attempt - 1))))
    by (apply Z.min_glb; [done|nia]).
  destruct (_ =? 0); [done|]. destruct (_ =? 0); lia.
Qed.

(** The backoff ceiling never wraps: it is the initial delay doubled per
    retry (at most sixteen times, saturating at the largest duration),
    limited by a non-zero maximum; a zero maximum means no limit, a zero
    initial delay the maximum itself.  The delay drawn is below the ceiling,
    and a Retry-After wait is spread over half of itself, never below it. *)
Theorem backoff_bounds (policy : Policy) (attempt draw hint : Z) :
  0 <= BackoffInitial policy -> 0 <= BackoffMax policy -> 0 <= hint <= retryAfterCap ->
  backoffCeiling policy attempt =
    (if BackoffInitial policy =? 0 then BackoffMax policy
     else if BackoffMax policy =? 0 then exponential policy attempt
     else Z.min (BackoffMax policy) (exponential policy attempt)) /\
  0 <= backoffDelay draw policy attempt <= backoffCeiling policy attempt /\
  (0 < backoffCeiling policy attempt -> backoffDelay draw policy attempt < backoffCeiling policy attempt) /\
  hint <= jitteredHint draw hint <= hint + hint / 2.
Proof.
  intros Hi0 Hm0 Hh.
  pose proof (ceiling_nonneg policy attempt Hi0 Hm0) as Hc0.
  split; [by apply ceiling_exact|]. unfold backoffDelay, int64n.
  split_and!.
  - destruct (Z.leb_spec (backoffCeiling policy attempt) 0); [done|apply Z.mod_pos_bound; lia].
  - destruct (Z.leb_spec (backoffCeiling policy attempt) 0) as [|Hp]; [lia|].
    pose proof (Z.mod_pos_bound draw _ Hp). lia.
  - intros Hp. rewrite (proj2 (Z.leb_gt _ 0)) by done. by apply Z.mod_pos_bound.
  - apply jitteredHint_bounds. unfold retryAfterCap, second in *. lia.
  - apply jitteredHint_bounds. unfold retryAfterCap, second in *. lia.
Qed.

Lemma backoff_bounds_witness :
  backoffCeiling (mkPolicy 3 0 0 (100 * millisecond) 0) 4 = 800 * millisecond.
Proof.
  destruct (backoff_bounds (mkPolicy 3 0 0 (100 * millisecond) 0) 4 5 second) as [H _];
    [by vm_compute..|]. rewrite H. by vm_compute.
Defined.

(** A Retry-After hint is never negative and never above a minute,
    whatever the header says; but a negative count of seconds beyond the
    range of a Duration wraps, and is read as a full-minute wait instead of
    as no hint. *)
Theorem retry_after_capped (parse_int : string -> option Z) (parse_float : string -> option float)
    (parse_time : string -> option Z) (convert : float -> Z) (raw : string) (now : Z) :
  let hint := ParseRetryAfter parse_int parse_float parse_time convert raw now in
  0 <= hint <= retryAfterCap /\
  (forall secs, raw <> "" -> parse_int raw = Some secs ->
     (0 <= secs -> hint = Z.min (secs * second) retryAfterCap) /\
     (Z.quot min_int64 second <= secs <= 0 -> hint = 0) /\
     (secs = - 10 ^ 10 -> hint = retryAfterCap)).
Proof.
  assert (forall d, 0 <= cappedRetryAfter d <= retryAfterCap) as Hcap.
  { intros d. unfold cappedRetryAfter. destruct (Z.leb_spec d 0); [done|].
    unfold retryAfterCap, second. lia. }
  intros hint. split.
  - unfold hint, ParseRetryAfter. destruct (raw =? "")%string; [done|].
    destruct (parse_int raw); [case_match; [done|apply Hcap]|].
    destruct (parse_float raw) as [f|].
    + destruct f; try done; case_match; done || apply Hcap.
    + destruct (parse_time raw); [apply Hcap|done].
  - intros secs Hraw Hp. unfold hint, ParseRetryAfter.
    rewrite (proj2 (String.eqb_neq raw "")) by done. rewrite Hp.
    change (Z.quot retryAfterCap second) with 60. unfold cappedRetryAfter.
    change retryAfterCap with (60 * 1000000000). unfold second. split_and!.
    + intros Hs. destruct (Z.ltb_spec 60 secs); [lia|].
      rewrite wrap64_id by (unfold in_int64, min_int64, max_int64; lia).
      destruct (Z.leb_spec (secs * 1000000000) 0); lia.
    + intros [Hlo Hhi]. rewrite (proj2 (Z.ltb_ge 60 secs)) by lia.
      change (Z.quot min_int64 1000000000) with (-9223372036) in Hlo.
      rewrite wrap64_id by (unfold in_int64, min_int64, max_int64; lia).
      by rewrite (proj2 (Z.leb_le _ 0)) by lia.
    + intros ->. by vm_compute.
Qed.

(** The static retry budget is never exceeded: from any reachable count,
    any interleaving of admissions and releases by all requests keeps the
    in-flight retries between zero and the maximum. *)
Theorem static_budget_respected (maxInFlight total : Z) (ops : list bool) :
  let b := foldl (fun b (acquire : bool) => if acquire then (Acquire total b).2 else Release b)
             (NewBudget maxInFlight) ops in
  max_ b = Z.max 0 maxInFlight /\ percent b = 0 /\ 0 <= inFlight b <= max_ b.
Proof.
  assert (forall ops b, percent b = 0 -> 0 <= inFlight b <= max_ b ->
    let b' := foldl (fun b (acquire : bool) => if acquire then (Acquire total b).2 else Release b) b ops in
    max_ b' = max_ b /\ percent b' = 0 /\ 0 <= inFlight b' <= max_ b') as Hgen.
  { clear ops. induction ops as [|op ops IH]; intros b Hp Hb; cbn [foldl]; [done|].
    assert (forall b1, max_ b1 = max_ b -> percent b1 = 0 -> 0 <= inFlight b1 <= max_ b1 ->
      let b' := foldl (fun b (acquire : bool) => if acquire then (Acquire total b).2 else Release b) b1 ops in
      max_ b' = max_ b /\ percent b' = 0 /\ 0 <= inFlight b' <= max_ b') as Hstep.
    { intros b1 <- Hp1 Hb1. by apply IH. }
    apply Hstep; destruct op; unfold Acquire, Release, cap; rewrite ?Hp; cbn [Z.eqb];
      repeat match goal with |- context [?x <=? ?y] => destruct (Z.leb_spec x y)
        | |- context [?x <? ?y] => destruct (Z.ltb_spec x y) end; cbn; try done; lia. }
  intros b. assert (max_ (NewBudget maxInFlight) = Z.max 0 maxInFlight) as Hm
    by (unfold NewBudget; cbn; destruct (Z.ltb_spec maxInFlight 0); lia).
  rewrite <- Hm. apply (Hgen ops (NewBudget maxInFlight)); [done|]. rewrite Hm. cbn. lia.
Qed.

Lemma retry_after_capped_witness :
  ParseRetryAfter (fun _ => Some (- 10 ^ 10)) (fun _ => None) (fun _ => None) (fun _ => 0)
    "-10000000000" 0 = retryAfterCap.
Proof.
  destruct (retry_after_capped (fun _ => Some (- 10 ^ 10)) (fun _ => None) (fun _ => None) (fun _ => 0)
    "-10000000000" 0) as [_ H].
  by apply (H (- 10 ^ 10)).
Defined.
End RetryProps.
