(* ===== verification/Router.v ===== *)
(** * Candidate selection (internal/router: priority.go, control.go, tracker.go)

    [Switch] is the operator's traffic control, [Tracker] the latency
    scores, [Priority] the candidate list over them and over any breaker of
    the port of CircuitPort.v.  An upstream instance is a type [U] with an
    identifier; a Go map used as a set is a [gset]. *)
From Stdlib Require Import QArith.
From stdpp Require Import base numbers gmap strings sorting list.
From S2P Require Import Prelude Float64 Circuit CircuitPort.
Import GoTime ListFacts.
Local Open Scope Z_scope.

(** ** Runtime traffic switches (control.go) *)
Module Switch.
Record autoDisable := mkAutoDisable { reason : string; since : Z }.

(** The maps to [true] are sets; [enables] are the calls of the
    [onUpstreamEnable] callback, newest last. *)
Record Switch := mkSwitch {
  disabledModels : gset string; disabledUpstreams : gset string;
  autoDisabled : gmap string autoDisable;
  knownModels : gset string; knownUpstreams : gset string;
  wildcardModels : bool; enables : list string
}.

Inductive switch_error := ErrUnknownModel (model : string) | ErrUnknownUpstream (id : string).

Definition NewSwitch (models upstreams : list string) (wildcard : bool) : Switch :=
  mkSwitch ∅ ∅ ∅ (list_to_set models) (list_to_set upstreams) wildcard [].

Definition SetModel (model : string) (enabled : bool) (s : Switch) : option switch_error * Switch :=
  if bool_decide (model ∉ knownModels s) && negb (wildcardModels s)
  then (Some (ErrUnknownModel model), s)
  else
    (None, mkSwitch
      (if enabled then disabledModels s ∖ {[model]} else {[model]} ∪ disabledModels s)
      (disabledUpstreams s) (autoDisabled s) (knownModels s) (knownUpstreams s)
      (wildcardModels s) (enables s)).

Definition SetUpstream (id : string) (enabled : bool) (s : Switch) : option switch_error * Switch :=
  if decide (id ∉ knownUpstreams s) then (Some (ErrUnknownUpstream id), s)
  else
    (None, mkSwitch (disabledModels s)
      (if enabled then disabledUpstreams s ∖ {[id]} else {[id]} ∪ disabledUpstreams s)
      (delete id (autoDisabled s)) (knownModels s) (knownUpstreams s)
      (wildcardModels s) (if enabled then enables s ++ [id] else enables s)).

Definition AutoDisableUpstream (now : Z) (id why : string) (s : Switch)
  : (bool + switch_error) * Switch :=
  if decide (id ∉ knownUpstreams s) then (inr (ErrUnknownUpstream id), s)
  else if decide (id ∈ disabledUpstreams s) then (inl false, s)
  else match autoDisabled s !! id with
  | Some _ => (inl false, s)
  | None =>
      (inl true, mkSwitch (disabledModels s) (disabledUpstreams s)
        (<[id := mkAutoDisable why now]> (autoDisabled s)) (knownModels s) (knownUpstreams s)
        (wildcardModels s) (enables s))
  end.

Definition AutoEnableUpstream (id : string) (s : Switch) : option switch_error * Switch :=
  if decide (id ∉ knownUpstreams s) then (Some (ErrUnknownUpstream id), s)
  else
    (None, mkSwitch (disabledModels s) (disabledUpstreams s) (delete id (autoDisabled s))
      (knownModels s) (knownUpstreams s) (wildcardModels s) (enables s ++ [id])).

Definition ModelEnabled (model : string) (s : Switch) : bool :=
  negb (bool_decide (model ∈ disabledModels s)).

Definition UpstreamEnabled (id : string) (s : Switch) : bool :=
  negb (bool_decide (id ∈ disabledUpstreams s)) &&
  negb (bool_decide (is_Some (autoDisabled s !! id))).

(** The keys of [autoDisabled], sorted ([sort.Strings]). *)
Definition AutoDisabledIDs (s : Switch) : list string :=
  merge_sort String.le (elements (dom (autoDisabled s))).

(** The admin view: models, upstreams, auto disables. *)
Record SwitchView := mkView {
  vModels : gmap string bool; vUpstreams : gmap string bool; vAuto : gmap string autoDisable
}.

Definition View (s : Switch) : SwitchView :=
  mkView
    (set_to_map (fun m => (m, negb (bool_decide (m ∈ disabledModels s)))) (knownModels s)
     ∪ gset_to_gmap false (disabledModels s ∖ knownModels s))
    (set_to_map (fun u => (u, if bool_decide (is_Some (autoDisabled s !! u)) then false
                              else negb (bool_decide (u ∈ disabledUpstreams s)))) (knownUpstreams s))
    (filter (fun kv => kv.1 ∈ knownUpstreams s) (autoDisabled s)).
End Switch.

(** ** Latency scores (tracker.go) *)
Module Tracker.
Record trackEntry := mkTrack { ewmaMS : Q; failures : Z }.

Abbreviation Tracker := (gmap string trackEntry).

Definition ewmaAlpha : Q := 1 # 4.
Definition failurePenaltyMS : Z := 1000.

(** [latency.Milliseconds()] truncates the duration. *)
Definition Record_ (id : string) (latency : Z) (failed : bool) (t : Tracker) : Tracker :=
  let e := default (mkTrack 0 0) (t !! id) in
  if failed then <[id := mkTrack (ewmaMS e) (failures e + 1)]> t
  else
    let ms := fof_int (Z.quot latency millisecond) in
    if Qeq_bool (ewmaMS e) 0 then <[id := mkTrack ms 0]> t
    else <[id := mkTrack (fadd (fmul ewmaAlpha ms) (fmul (1 - ewmaAlpha) (ewmaMS e))) 0]> t.

Definition Score (id : string) (t : Tracker) : Q :=
  match t !! id with
  | None => 0
  | Some e => fadd (ewmaMS e) (fmul (fof_int (failures e)) (fof_int failurePenaltyMS))
  end.
End Tracker.

(** ** The candidate list (priority.go) *)
Module Priority.
Import Switch Tracker.

Inductive Strategy := StrategyStatic | StrategyLatency.

Definition ParseStrategy (s : string) : option Strategy :=
  if (String.eqb s "" || String.eqb s "static")%string then Some StrategyStatic
  else if String.eqb s "latency" then Some StrategyLatency else None.

Definition wildcardModel : string := "*".

(** The float64 nearest to 0.1. *)
Definition latencyTieBuffer : Q := 3602879701896397 # 36028797018963968.

Section priority.
Context {U : Type} (uid : U -> string).
Context {B : Type} `{!Breaker B}.

Record entry := mkEntry { models : gset string; upstream : U }.

Record Priority := mkPriority {
  entries : list entry; control : option Switch; strategy : Strategy; tracker : option Tracker
}.

Record Binding := mkBinding { Models : list string; Upstream : option U }.

(** The entries of [NewPriority]; a binding without upstream or models is
    refused. *)
Fixpoint NewPriority (bindings : list Binding) : option (list entry) :=
  match bindings with
  | [] => Some []
  | b :: bindings =>
      match Upstream b, Models b with
      | None, _ | _, [] => None
      | Some u, ms =>
          match NewPriority bindings with
          | Some es => Some (mkEntry (list_to_set ms) u :: es)
          | None => None
          end
      end
  end.

Inductive route_error := ErrDisabled | ErrUnavailable | NoUpstream (model : string).

Definition serves (model : string) (e : entry) : bool :=
  bool_decide (model ∈ models e) || bool_decide (wildcardModel ∈ models e).

(** The loop over the entries: the candidates, the number of bound entries
    and the breaker, whose reads may move a state machine. *)
Fixpoint collect (p : Priority) (e : env) (model : string) (es : list entry) (br : option B)
    (candidates : list U) (bound : nat) : list U * nat * option B :=
  match es with
  | [] => (candidates, bound, br)
  | x :: es =>
      if negb (serves model x) then collect p e model es br candidates bound
      else if match control p with Some s => negb (UpstreamEnabled (uid (upstream x)) s) | None => false end
      then collect p e model es br candidates (S bound)
      else match br with
      | None => collect p e model es br (candidates ++ [upstream x]) (S bound)
      | Some b =>
          let (b', st) := StateOf e (uid (upstream x)) b in
          if decide (st = StateOpen) then collect p e model es (Some b') candidates (S bound)
          else collect p e model es (Some b') (candidates ++ [upstream x]) (S bound)
      end
  end.

(** [sort.SliceStable] by score: insertion behind equal scores. *)
Fixpoint insert_scored (x : U * Q) (l : list (U * Q)) : list (U * Q) :=
  match l with
  | [] => [x]
  | y :: l => if Qle_bool y.2 x.2 then y :: insert_scored x l else x :: y :: l
  end.
Definition sort_scored (l : list (U * Q)) : list (U * Q) :=
  foldl (fun acc x => insert_scored x acc) [] l.

(** [tieCut] on the tail of the ascending scores. *)
Fixpoint tie_loop (limit : Q) (scores : list Q) : nat :=
  match scores with
  | s :: scores => if Qle_bool s limit then S (tie_loop limit scores) else O
  | [] => O
  end.
Definition tieCut (sorted : list Q) : nat :=
  match sorted with
  | [] => 1
  | best :: rest => S (tie_loop (fadd best (fmul best latencyTieBuffer)) rest)
  end.

Definition swap_first (j : nat) (l : list U) : list U :=
  match l !! 0%nat, l !! j with
  | Some a, Some b => <[j := a]> (<[0%nat := b]> l)
  | _, _ => l
  end.

(** [pick cut] is the draw of [pickTied]. *)
Definition order_latency (t : Tracker) (pick : nat -> nat) (candidates : list U) : list U :=
  let scored := sort_scored (map (fun c => (c, Score (uid c) t)) candidates) in
  let candidates := map fst scored in
  let cut := tieCut (map snd scored) in
  if (1 <? cut)%nat
  then let j := pick cut in if (j =? 0)%nat then candidates else swap_first j candidates
  else candidates.

Definition Candidates (p : Priority) (e : env) (pick : nat -> nat) (model : string) (br : option B)
  : (list U + route_error) * option B :=
  if match control p with Some s => negb (ModelEnabled model s) | None => false end
  then (inr ErrDisabled, br)
  else
    let '(candidates, bound, br') := collect p e model (entries p) br [] 0 in
    match candidates with
    | [] => (inr (if (0 <? bound)%nat then ErrUnavailable else NoUpstream model), br')
    | _ =>
        match strategy p, tracker p with
        | StrategyLatency, Some t => (inl (order_latency t pick candidates), br')
        | _, _ => (inl candidates, br')
        end
    end.
End priority.
End Priority.

Module RouterSpec.
Import Switch Tracker Priority.

(** *** One upstream's position, seen through the switch *)
Inductive status := Enabled | Manual | Auto (a : autoDisable).

Definition status_of (id : string) (s : Switch) : status :=
  if decide (id ∈ disabledUpstreams s) then Manual
  else match autoDisabled s !! id with Some a => Auto a | None => Enabled end.

Inductive op :=
  | OSetUpstream (id : string) (enabled : bool)
  | OAutoDisable (now : Z) (id why : string)
  | OAutoEnable (id : string)
  | OSetModel (model : string) (enabled : bool).

Definition apply_op (o : op) (s : Switch) : Switch :=
  match o with
  | OSetUpstream id b => (SetUpstream id b s).2
  | OAutoDisable now id why => (AutoDisableUpstream now id why s).2
  | OAutoEnable id => (AutoEnableUpstream id s).2
  | OSetModel m b => (SetModel m b s).2
  end.

(** The three-position machine of one configured upstream. *)
Definition next_status (id : string) (o : op) (st : status) : status :=
  match o with
  | OSetUpstream i b => if decide (i = id) then if b then Enabled else Manual else st
  | OAutoDisable now i why =>
      if decide (i = id)
      then match st with Enabled => Auto (mkAutoDisable why now) | st => st end else st
  | OAutoEnable i =>
      if decide (i = id) then match st with Auto _ => Enabled | st => st end else st
  | OSetModel _ _ => st
  end.

(** The two positions of one model. *)
Definition next_model (model : string) (o : op) (enabled : bool) : bool :=
  match o with
  | OSetModel m b => if decide (m = model) then b else enabled
  | _ => enabled
  end.

Record switch_wf (s : Switch) : Prop := {
  sw_disjoint id : id ∈ disabledUpstreams s -> autoDisabled s !! id = None;
  sw_known id : id ∈ disabledUpstreams s \/ is_Some (autoDisabled s !! id) -> id ∈ knownUpstreams s
}.

(** *** The eligible candidates of a model *)
Section spec.
Context {U : Type} (uid : U -> string).
Context {B : Type} `{!Breaker B}.

Definition eligible (p : @Priority U) (e : env) (br : option B) (x : @entry U) : bool :=
  match control p with Some s => UpstreamEnabled (uid (upstream x)) s | None => true end &&
  match br with
  | Some b => negb (bool_decide ((StateOf e (uid (upstream x)) b).2 = StateOpen))
  | None => true
  end.

Definition eligible_candidates (p : @Priority U) (e : env) (model : string) (br : option B) : list U :=
  map upstream (filter (fun x => serves model x && eligible p e br x = true) (entries p)).

Definition model_disabled (p : @Priority U) (model : string) : bool :=
  match control p with Some s => negb (ModelEnabled model s) | None => false end.

Definition ascending (t : Tracker) : list U -> Prop :=
  Sorted (fun a b => (Score (uid a) t <= Score (uid b) t)%Q).
End spec.
End RouterSpec.

Module RouterFacts.
Import Switch Tracker Priority RouterSpec.

(** *** The switch *)
Lemma apply_op_known (o : op) (s : Switch) : knownUpstreams (apply_op o s) = knownUpstreams s.
Proof.
  destruct o; cbn; unfold SetUpstream, AutoDisableUpstream, AutoEnableUpstream, SetModel;
    by repeat case_match.
Qed.

Lemma apply_op_status (o : op) (s : Switch) (id : string) :
  switch_wf s -> id ∈ knownUpstreams s ->
  status_of id (apply_op o s) = next_status id o (status_of id s).
Proof.
  intros Hwf Hid. unfold status_of.
  destruct o as [i b|now i why|i|m b]; cbn [apply_op next_status].
  - unfold SetUpstream. destruct (decide (i = id)) as [->|Hne].
    + destruct (decide (id ∉ knownUpstreams s)) as [Hn|_]; [done|]. cbn [snd disabledUpstreams autoDisabled].
      rewrite lookup_delete_eq. destruct b; repeat case_decide; set_solver.
    + destruct (decide (i ∉ knownUpstreams s)); [done|]. cbn [snd disabledUpstreams autoDisabled].
      rewrite lookup_delete_ne by done. destruct b; repeat case_decide; set_solver.
  - unfold AutoDisableUpstream. destruct (decide (i = id)) as [->|Hne].
    + destruct (decide (id ∉ knownUpstreams s)) as [Hn|_]; [done|].
      destruct (decide (id ∈ disabledUpstreams s)) as [Hd|Hd]; cbn [snd].
      * by rewrite decide_True.
      * destruct (autoDisabled s !! id) eqn:Ha; cbn [snd disabledUpstreams autoDisabled];
          rewrite decide_False by done; [by rewrite Ha|by rewrite lookup_insert_eq].
    + destruct (decide (i ∉ knownUpstreams s)); [done|].
      destruct (decide (i ∈ disabledUpstreams s)); [done|].
      destruct (autoDisabled s !! i); cbn [snd disabledUpstreams autoDisabled];
        rewrite ?lookup_insert_ne by done; done.
  - unfold AutoEnableUpstream. destruct (decide (i = id)) as [->|Hne].
    + destruct (decide (id ∉ knownUpstreams s)) as [Hn|_]; [done|]. cbn [snd disabledUpstreams autoDisabled].
      rewrite lookup_delete_eq. case_decide; [done|]. by destruct (autoDisabled s !! id).
    + destruct (decide (i ∉ knownUpstreams s)); [done|]. cbn [snd disabledUpstreams autoDisabled].
      by rewrite lookup_delete_ne.
  - unfold SetModel. by destruct (_ && _).
Qed.

Lemma apply_op_wf (o : op) (s : Switch) : switch_wf s -> switch_wf (apply_op o s).
Proof.
  intros [Hd Hk]. destruct o as [i b|now i why|i|m b]; cbn [apply_op].
  - unfold SetUpstream. case_decide as Hi; [by split|].
    split; cbn [snd disabledUpstreams autoDisabled knownUpstreams]; intros id.
    + destruct (decide (i = id)) as [->|Hne]; [by rewrite lookup_delete_eq|].
      rewrite lookup_delete_ne by done. intros H. apply Hd. destruct b; set_solver.
    + destruct (decide (i = id)) as [->|Hne]; [intros _; tauto|].
      rewrite lookup_delete_ne by done. intros H. apply Hk. destruct b; set_solver.
  - unfold AutoDisableUpstream. repeat case_decide; try by split.
    destruct (autoDisabled s !! i) eqn:Ha; [by split|].
    split; cbn [snd disabledUpstreams autoDisabled knownUpstreams]; intros id.
    + intros Hid. rewrite lookup_insert_ne by (by intros ->). by apply Hd.
    + destruct (decide (i = id)) as [->|Hne]; [intros _; tauto|].
      rewrite lookup_insert_ne by done. apply Hk.
  - unfold AutoEnableUpstream. case_decide; [by split|].
    split; cbn [snd disabledUpstreams autoDisabled knownUpstreams]; intros id.
    + intros Hid. apply lookup_delete_None. auto.
    + intros [Hx|[a [_ Hx]%lookup_delete_Some]]; apply Hk; [by left|right; eauto].
  - unfold SetModel. by destruct (_ && _).
Qed.

Lemma run_ops (ops : list op) : forall s id,
  switch_wf s -> id ∈ knownUpstreams s ->
  switch_wf (foldl (fun s o => apply_op o s) s ops) /\
  knownUpstreams (foldl (fun s o => apply_op o s) s ops) = knownUpstreams s /\
  status_of id (foldl (fun s o => apply_op o s) s ops)
  = foldl (fun st o => next_status id o st) (status_of id s) ops.
Proof.
  induction ops as [|o ops IH]; intros s id Hwf Hid; cbn [foldl]; [done|].
  destruct (IH (apply_op o s) id) as (H1 & H2 & H3);
    [by apply apply_op_wf|by rewrite apply_op_known|].
  by rewrite H2, H3, apply_op_known, apply_op_status.
Qed.

Lemma UpstreamEnabled_status (id : string) (s : Switch) :
  UpstreamEnabled id s = true <-> status_of id s = Enabled.
Proof.
  unfold UpstreamEnabled, status_of. destruct (decide (id ∈ disabledUpstreams s)) as [Hd|Hd].
  - by rewrite bool_decide_true.
  - rewrite (bool_decide_false (id ∈ _)) by done.
    destruct (autoDisabled s !! id) eqn:Ha; [rewrite bool_decide_true by eauto; done|].
    rewrite bool_decide_false by (by intros [? ?]). done.
Qed.


Lemma apply_op_models (o : op) (s : Switch) (m : string) :
  m ∈ knownModels s \/ wildcardModels s = true ->
  ModelEnabled m (apply_op o s) = next_model m o (ModelEnabled m s) /\
  knownModels (apply_op o s) = knownModels s /\ wildcardModels (apply_op o s) = wildcardModels s.
Proof.
  intros Hm. destruct o as [i b|now i why|i|m' b]; cbn [apply_op next_model].
  - unfold SetUpstream. by case_decide.
  - unfold AutoDisableUpstream. repeat case_decide; try done. by destruct (autoDisabled s !! i).
  - unfold AutoEnableUpstream. by case_decide.
  - unfold SetModel, ModelEnabled. destruct (decide (m' = m)) as [->|Hne].
    + replace (bool_decide (m ∉ knownModels s) && negb (wildcardModels s)) with false
        by (destruct Hm as [Hm| ->]; [by rewrite bool_decide_false by tauto|by rewrite andb_false_r]).
      cbn [snd disabledModels]. split; [|done].
      destruct b; [rewrite bool_decide_false|rewrite bool_decide_true]; set_solver.
    + destruct (_ && _); [done|]. split; [|done]. cbn [snd disabledModels]. f_equal.
      apply bool_decide_ext. destruct b; set_solver.
Qed.

Lemma run_models (ops : list op) : forall s m,
  m ∈ knownModels s \/ wildcardModels s = true ->
  ModelEnabled m (foldl (fun s o => apply_op o s) s ops)
  = foldl (fun b o => next_model m o b) (ModelEnabled m s) ops.
Proof.
  induction ops as [|o ops IH]; intros s m Hm; cbn [foldl]; [done|].
  destruct (apply_op_models o s m Hm) as (H1 & H2 & H3).
  by rewrite IH, H1 by (by rewrite H2, H3).
Qed.

(** *** What the accessors show of a position *)
Lemma vUpstreams_status (s : Switch) (id : string) :
  id ∈ knownUpstreams s -> vUpstreams (View s) !! id = Some (UpstreamEnabled id s).
Proof.
  intros Hid. cbn [View vUpstreams]. apply lookup_set_to_map; [by intros x y _ _ Hxy|].
  exists id. split; [done|]. unfold UpstreamEnabled. f_equal.
  destruct (bool_decide (is_Some (autoDisabled s !! id))); cbn; [by rewrite andb_false_r|by rewrite andb_true_r].
Qed.

Lemma vAuto_status (s : Switch) (id : string) :
  switch_wf s -> id ∈ knownUpstreams s ->
  vAuto (View s) !! id = match status_of id s with Auto a => Some a | _ => None end.
Proof.
  intros Hwf Hid. cbn [View vAuto]. unfold status_of.
  destruct (decide (id ∈ disabledUpstreams s)) as [Hd|Hd].
  - rewrite map_lookup_filter. by rewrite (sw_disjoint _ Hwf id Hd).
  - rewrite map_lookup_filter. destruct (autoDisabled s !! id) as [a|] eqn:Ha; cbn; [|done].
    by rewrite option_guard_True.
Qed.

Lemma AutoDisabledIDs_status (s : Switch) (id : string) :
  switch_wf s -> id ∈ AutoDisabledIDs s <-> exists a, status_of id s = Auto a.
Proof.
  intros Hwf. unfold AutoDisabledIDs, status_of. rewrite merge_sort_Permutation, elem_of_elements, elem_of_dom.
  destruct (decide (id ∈ disabledUpstreams s)) as [Hd|Hd].
  - rewrite (sw_disjoint _ Hwf id Hd). split; [by intros []|by intros []].
  - destruct (autoDisabled s !! id) as [a|]; split; [by eauto|by eauto|by intros []|by intros []].
Qed.

Lemma AutoDisable_verdict (now : Z) (id why : string) (s : Switch) :
  id ∈ knownUpstreams s ->
  (AutoDisableUpstream now id why s).1 = inl (match status_of id s with Enabled => true | _ => false end).
Proof.
  intros Hid. unfold AutoDisableUpstream, status_of. rewrite decide_False by tauto.
  destruct (decide (id ∈ disabledUpstreams s)); [done|]. by destruct (autoDisabled s !! id).
Qed.

Lemma NewSwitch_wf (ms us : list string) (w : bool) : switch_wf (NewSwitch ms us w).
Proof. split; cbn; [set_solver|]. intros id [H|[a H]]; [set_solver|done]. Qed.

(** *** Collecting *)
Section collect.
Context {U : Type} (uid : U -> string).
Context {B : Type} `{!Breaker B} `{!BreakerLaws B}.

(** Reading [v]'s state leaves the verdict on the remaining upstreams. *)
Lemma eligible_stable (p : @Priority U) (e : env) (b : B) (v : string) (x : @entry U) :
  uid (upstream x) <> v ->
  eligible uid p e (Some (StateOf e v b).1) x = eligible uid p e (Some b) x.
Proof. intros Hne. unfold eligible. by rewrite StateOf_isolated. Qed.

Lemma collect_spec (p : @Priority U) (e : env) (model : string) (es : list (@entry U)) :
  forall br cs n,
  NoDup (map (fun x => uid (upstream x)) es) ->
  let r := collect uid p e model es br cs n in
  r.1.1 = cs ++ map upstream (filter (fun x => serves model x && eligible uid p e br x = true) es) /\
  r.1.2 = (n + length (filter (fun x => serves model x = true) es))%nat.
Proof.
  induction es as [|x es IH]; intros br cs n Hnd; cbn [collect].
  { cbn. rewrite app_nil_r. split; [done|lia]. }
  cbn [map] in Hnd. apply NoDup_cons in Hnd as [Hx Hnd].
  rewrite !filter_bool_cons. destruct (serves model x) eqn:Hs; cbn [negb andb]; [|by apply IH].
  cbn [length]. unfold eligible at 1.
  assert (forall y, y ∈ es -> uid (upstream y) <> uid (upstream x)) as Hne.
  { intros y Hy Heq. apply Hx. rewrite <- Heq. apply list_elem_of_fmap. eauto. }
  destruct (match control p with Some s => negb (UpstreamEnabled (uid (upstream x)) s) | None => false end) eqn:Hc.
  { assert (match control p with Some s => UpstreamEnabled (uid (upstream x)) s | None => true end = false) as ->
      by (destruct (control p); [by apply negb_true_iff|done]).
    rewrite andb_false_l. destruct (IH br cs (S n) Hnd) as [H1 H2]. split; [done|]. rewrite H2. lia. }
  assert (match control p with Some s => UpstreamEnabled (uid (upstream x)) s | None => true end = true) as ->
    by (destruct (control p); [by apply negb_false_iff|done]).
  rewrite andb_true_l. destruct br as [b|].
  2:{ destruct (IH None (cs ++ [upstream x]) (S n) Hnd) as [H1 H2].
      split; [by rewrite H1, <- app_assoc|]. rewrite H2. lia. }
  assert (filter (fun y => serves model y && eligible uid p e (Some (StateOf e (uid (upstream x)) b).1) y = true) es
    = filter (fun y => serves model y && eligible uid p e (Some b) y = true) es) as Hstable.
  { apply filter_bool_ext. intros y Hy. f_equal. apply eligible_stable. by apply Hne. }
  destruct (StateOf e (uid (upstream x)) b) as [b' st] eqn:Hst; cbn [fst snd] in *.
  destruct (decide (st = StateOpen)) as [Ho|Ho].
  - rewrite bool_decide_true by done. cbn [negb]. destruct (IH (Some b') cs (S n) Hnd) as [H1 H2].
    rewrite Hstable in H1. split; [done|]. rewrite H2. lia.
  - rewrite bool_decide_false by done. cbn [negb].
    destruct (IH (Some b') (cs ++ [upstream x]) (S n) Hnd) as [H1 H2]. rewrite Hstable in H1.
    split; [by rewrite H1, <- app_assoc|]. rewrite H2. lia.
Qed.

(** *** Sorting and the near-tie draw *)
Lemma insert_scored_perm (x : U * Q) (l : list (U * Q)) : insert_scored x l ≡ₚ x :: l.
Proof.
  induction l as [|y l IH]; cbn [insert_scored]; [done|].
  destruct (Qle_bool y.2 x.2); [|done]. rewrite IH. apply Permutation_swap.
Qed.

Lemma sort_scored_perm (l : list (U * Q)) : sort_scored l ≡ₚ l.
Proof.
  unfold sort_scored. assert (forall acc, foldl (fun acc x => insert_scored x acc) acc l ≡ₚ acc ++ l) as Hgen.
  { induction l as [|x l IH]; intros acc; cbn [foldl]; [by rewrite app_nil_r|].
    rewrite IH, insert_scored_perm. apply Permutation_middle. }
  apply Hgen.
Qed.

Definition by_score (a b : U * Q) : Prop := (a.2 <= b.2)%Q.

Lemma insert_scored_sorted (x : U * Q) (l : list (U * Q)) :
  Sorted by_score l -> Sorted by_score (insert_scored x l).
Proof.
  induction 1 as [|y l Hl IH Hy]; cbn [insert_scored]; [by repeat constructor|].
  destruct (Qle_bool y.2 x.2) eqn:E.
  - constructor; [done|]. destruct l as [|z l]; cbn [insert_scored].
    + constructor. by apply Qle_bool_iff.
    + destruct (Qle_bool z.2 x.2); constructor; [by inversion Hy|by apply Qle_bool_iff].
  - constructor; [by constructor|]. constructor. unfold by_score.
    apply Qlt_le_weak, Qnot_le_lt. intros H%Qle_bool_iff. congruence.
Qed.

Lemma sort_scored_sorted (l : list (U * Q)) : Sorted by_score (sort_scored l).
Proof.
  unfold sort_scored. assert (forall acc, Sorted by_score acc ->
    Sorted by_score (foldl (fun acc x => insert_scored x acc) acc l)) as Hgen.
  { induction l as [|x l IH]; intros acc Hacc; cbn [foldl]; [done|].
    by apply IH, insert_scored_sorted. }
  apply Hgen. constructor.
Qed.

Lemma tie_loop_spec (limit : Q) (scores : list Q) (i : nat) (q : Q) :
  (i < tie_loop limit scores)%nat -> scores !! i = Some q -> (q <= limit)%Q.
Proof.
  revert i. induction scores as [|s scores IH]; intros i; cbn [tie_loop]; [lia|].
  destruct (Qle_bool s limit) eqn:E; [|lia]. destruct i as [|i]; cbn.
  - intros _ [= <-]. by apply Qle_bool_iff.
  - intros Hi. apply IH. lia.
Qed.

Lemma tie_loop_length (limit : Q) (scores : list Q) : (tie_loop limit scores <= length scores)%nat.
Proof. induction scores as [|s scores IH]; cbn; [done|]. destruct (Qle_bool s limit); lia. Qed.

Lemma swap_first_perm (j : nat) (l : list U) : swap_first j l ≡ₚ l.
Proof.
  unfold swap_first. destruct (l !! 0%nat) as [a|] eqn:H0; [|done].
  destruct (l !! j) as [b|] eqn:Hj; [|done]. by apply Permutation_insert_swap.
Qed.

Lemma swap_first_head (j : nat) (l : list U) (b : U) :
  l !! j = Some b -> swap_first j l !! 0%nat = Some b.
Proof.
  unfold swap_first. intros Hj. destruct l as [|a l]; [done|]. cbn [lookup list_lookup] in *.
  rewrite Hj. destruct j as [|j]; cbn; [by rewrite <- Hj|done].
Qed.

Lemma scored_order (t : Tracker) (cs : list U) :
  let scored := sort_scored (map (fun c => (c, Score (uid c) t)) cs) in
  map fst scored ≡ₚ cs /\ ascending uid t (map fst scored) /\
  (forall x, x ∈ scored -> x.2 = Score (uid x.1) t).
Proof.
  cbv zeta. set (pairs := map _ cs).
  assert (sort_scored pairs ≡ₚ pairs) as Hperm by apply sort_scored_perm.
  assert (forall x, x ∈ sort_scored pairs -> x.2 = Score (uid x.1) t) as Hsc.
  { intros x. rewrite Hperm. unfold pairs. rewrite list_elem_of_fmap. by intros (c & -> & _). }
  split_and!; [|clear -Hsc|done].
  { rewrite Hperm. unfold pairs. rewrite map_map. cbn. by rewrite map_id. }
  pose proof (sort_scored_sorted pairs) as Hsorted. revert Hsorted Hsc.
  generalize (sort_scored pairs). intros l. unfold ascending.
  induction 1 as [|x l Hl IH Hx]; intros Hsc; cbn [map]; [constructor|].
  constructor; [apply IH; set_solver|]. destruct Hx as [|y l Hxy]; constructor.
  unfold by_score in Hxy. by rewrite <- !Hsc by set_solver.
Qed.

Lemma ascending_best (t : Tracker) (best : U) (l : list U) (c : U) :
  ascending uid t (best :: l) -> c ∈ best :: l -> (Score (uid best) t <= Score (uid c) t)%Q.
Proof.
  intros Hasc Hc. apply Sorted_StronglySorted in Hasc; [|intros x y z; apply Qle_trans].
  apply StronglySorted_inv in Hasc as [_ Hall]. rewrite Forall_forall in Hall.
  apply elem_of_cons in Hc as [->|Hc]; [apply Qle_refl|by apply Hall].
Qed.

(** The latency order: a permutation whose leader is the best measured
    candidate, or one within the tie buffer of it. *)
Lemma order_latency_spec (t : Tracker) (pick : nat -> nat) (cs : list U) :
  (forall n, (1 < n)%nat -> (pick n < n)%nat) -> cs <> [] ->
  order_latency uid t pick cs ≡ₚ cs /\
  exists best lead, order_latency uid t pick cs !! 0%nat = Some lead /\
    best ∈ cs /\ (forall c, c ∈ cs -> (Score (uid best) t <= Score (uid c) t)%Q) /\
    (lead = best \/
     (Score (uid lead) t <= fadd (Score (uid best) t) (fmul (Score (uid best) t) latencyTieBuffer))%Q).
Proof.
  intros Hpick Hne. unfold order_latency. destruct (scored_order t cs) as (Hfst & Hasc & Hsc).
  revert Hfst Hasc Hsc. generalize (sort_scored (map (fun c => (c, Score (uid c) t)) cs)).
  intros [|[best q] rest] Hfst Hasc Hsc; [by apply Permutation_nil in Hfst; subst cs|].
  cbn [map fst snd] in *. cbv zeta. set (cut := tieCut (q :: map snd rest)).
  assert (forall c, c ∈ cs -> (Score (uid best) t <= Score (uid c) t)%Q) as Hmin.
  { intros c Hc. rewrite <- Hfst in Hc. by apply (ascending_best t best (map fst rest)). }
  assert (best ∈ cs) as Hbest by (rewrite <- Hfst; set_solver).
  assert (q = Score (uid best) t) as Hq by (apply (Hsc (best, q)); set_solver).
  destruct (Nat.ltb_spec 1 cut) as [Hcut|Hcut]; [|by split; [|exists best, best; auto]].
  specialize (Hpick cut Hcut). destruct (pick cut) as [|j] eqn:Hj; cbn [Nat.eqb].
  { by split; [|exists best, best; auto]. }
  split; [by rewrite swap_first_perm|]. cbn in cut. subst cut.
  pose proof (tie_loop_length (fadd q (fmul q latencyTieBuffer)) (map snd rest)) as Hlen.
  rewrite length_map in Hlen.
  destruct (lookup_lt_is_Some_2 rest j ltac:(lia)) as [[c s] Hc].
  exists best, c. split_and!; [|done|done|right].
  - apply swap_first_head. etransitivity; [apply (list_lookup_fmap fst rest j)|by rewrite Hc].
  - rewrite <- Hq. assert (s = Score (uid c) t) as <-.
    { apply (Hsc (c, s)). apply elem_of_cons. right. by eapply list_elem_of_lookup_2. }
    apply (tie_loop_spec _ (map snd rest) j); [lia|].
    etransitivity; [apply (list_lookup_fmap snd rest j)|by rewrite Hc].
Qed.
End collect.
End RouterFacts.

Module RouterProps.
Import Switch Tracker Priority RouterSpec RouterFacts.

(** C16. The traffic switch refines one small machine per configured name:
    after any sequence of operator toggles, automatic disables and automatic
    recoveries, an upstream is in the position [Enabled], [Manual] or [Auto]
    the machine computes (a manual disable is never lifted or overwritten by
    the automatic channel, an operator's enable clears both), the routing
    check, the admin view, the prober's list and the next automatic
    disable's verdict all agree with that position, and a model is enabled
    exactly when its last toggle says so. *)
Theorem switch_refines (models upstreams : list string) (wildcard : bool) (ops : list op)
    (id model : string) :
  id ∈ upstreams -> model ∈ models \/ wildcard = true ->
  let s := foldl (fun s o => apply_op o s) (NewSwitch models upstreams wildcard) ops in
  let st := foldl (fun st o => next_status id o st) Enabled ops in
  UpstreamEnabled id s = (match st with Enabled => true | _ => false end) /\
  vUpstreams (View s) !! id = Some (match st with Enabled => true | _ => false end) /\
  vAuto (View s) !! id = (match st with Auto a => Some a | _ => None end) /\
  (id ∈ AutoDisabledIDs s <-> exists a, st = Auto a) /\
  (forall now why, (AutoDisableUpstream now id why s).1
                   = inl (match st with Enabled => true | _ => false end)) /\
  ModelEnabled model s = foldl (fun b o => next_model model o b) true ops.
Proof.
  intros Hid Hm s st.
  assert (id ∈ knownUpstreams (NewSwitch models upstreams wildcard)) as Hid' by (cbn; set_solver).
  destruct (run_ops ops _ id (NewSwitch_wf _ _ _) Hid') as (Hwf & Hknown & Hst).
  assert (status_of id s = st) as Hs by exact Hst.
  assert (id ∈ knownUpstreams s) as Hids by (unfold s; rewrite Hknown; done).
  assert (UpstreamEnabled id s = match st with Enabled => true | _ => false end) as Hen.
  { pose proof (UpstreamEnabled_status id s) as Hi. rewrite Hs in Hi.
    destruct st; destruct (UpstreamEnabled id s); try done; [by apply Hi|by destruct Hi as [Hi _]; specialize (Hi eq_refl)..]. }
  split_and!.
  - done.
  - by rewrite vUpstreams_status, Hen.
  - by rewrite vAuto_status, Hs by done.
  - by rewrite AutoDisabledIDs_status, Hs by done.
  - intros now why. by rewrite AutoDisable_verdict, Hs.
  - unfold s. rewrite run_models by (cbn; destruct Hm; [left; set_solver|by right]). done.
Qed.

(** The candidate list: a model an operator disabled is refused, a model
    without a binding is unroutable, a bound model whose upstreams are all
    switched off or open is unavailable, and otherwise the list is exactly
    the eligible upstreams, in binding order under the static strategy, and
    under the latency strategy a permutation led by the lowest score or by
    one within the tie buffer of it.  The breaker is any strategy of the
    port. *)
Theorem candidates_spec {U : Type} (uid : U -> string) {B : Type} `{!Breaker B} `{!BreakerLaws B}
    (p : Priority) (e : env) (pick : nat -> nat) (model : string) (br : option B) :
  NoDup (map (fun x => uid (upstream x)) (entries p)) ->
  (forall n, (1 < n)%nat -> (pick n < n)%nat) ->
  match (Candidates uid p e pick model br).1 with
  | inr ErrDisabled => model_disabled p model = true
  | inr ErrUnavailable => model_disabled p model = false /\
      eligible_candidates uid p e model br = [] /\ exists x, x ∈ entries p /\ serves model x = true
  | inr (NoUpstream m) => model_disabled p model = false /\ m = model /\
      forall x, x ∈ entries p -> serves model x = false
  | inl l => model_disabled p model = false /\ l <> [] /\
      match strategy p, tracker p with
      | StrategyLatency, Some t =>
          l ≡ₚ eligible_candidates uid p e model br /\
          exists best lead, l !! 0%nat = Some lead /\ best ∈ l /\
            (forall c, c ∈ l -> (Score (uid best) t <= Score (uid c) t)%Q) /\
            (lead = best \/
             (Score (uid lead) t <= fadd (Score (uid best) t) (fmul (Score (uid best) t) latencyTieBuffer))%Q)
      | _, _ => l = eligible_candidates uid p e model br
      end
  end.
Proof.
  intros Hnd Hpick. unfold Candidates. fold (model_disabled p model).
  destruct (model_disabled p model) eqn:Hdis; [done|].
  pose proof (collect_spec uid p e model (entries p) br [] 0 Hnd) as [Hcs Hn].
  destruct (collect uid p e model (entries p) br [] 0) as [[cs n] br']. cbn [fst snd app] in *.
  assert (cs = eligible_candidates uid p e model br) as <- by done.
  destruct cs as [|c cs].
  - destruct (Nat.ltb_spec 0 n) as [Hb|Hb]; cbn [fst].
    + split_and!; [done|done|]. destruct (filter _ (entries p)) as [|x l] eqn:Hf in Hn; [cbn in Hn; lia|].
      exists x. assert (x ∈ x :: l) as Hx by set_solver. rewrite <- Hf in Hx.
      apply list_elem_of_filter in Hx. tauto.
    + split_and!; [done|done|]. intros x Hx. apply not_true_is_false. intros Hs.
      destruct (filter _ (entries p)) as [|y l] eqn:Hf in Hn; [|cbn in Hn; lia].
      assert (x ∈ ([] : list (@entry U))) as Hc by (rewrite <- Hf; apply list_elem_of_filter; done).
      by apply elem_of_nil in Hc.
  - destruct (strategy p), (tracker p) as [t|]; cbn [fst]; try done.
    destruct (order_latency_spec uid t pick (c :: cs) Hpick ltac:(done))
      as (Hperm & best & lead & Hl & Hbest & Hmin & Hlead).
    split_and!; [done|by intros H0; rewrite H0 in Hperm; apply Permutation_nil in Hperm|done|].
    exists best, lead. split_and!; [done|by rewrite Hperm|by intros c' Hc'; apply Hmin; rewrite <- Hperm|done].
Qed.

Lemma switch_refines_witness :
  ("b" ∈ ["a"; "b"] /\ "m" ∈ ["m"])%string /\
  let s := foldl (fun s o => apply_op o s) (NewSwitch ["m"] ["a"; "b"] false)
             [OAutoDisable 5 "b" "auth"; OSetModel "m" false] in
  UpstreamEnabled "b" s = false /\ ModelEnabled "m" s = false.
Proof.
  assert ("b" ∈ ["a"; "b"])%string as H1 by (apply (bool_decide_unpack _); vm_compute; exact I).
  assert ("m" ∈ ["m"])%string as H2 by (apply (bool_decide_unpack _); vm_compute; exact I).
  split; [by split|].
  destruct (switch_refines ["m"] ["a"; "b"] false [OAutoDisable 5 "b" "auth"; OSetModel "m" false] "b" "m"
    H1 (or_introl H2)) as (E1 & _ & _ & _ & _ & E2).
  by split.
Defined.

Lemma candidates_spec_witness :
  let p := mkPriority [mkEntry {["m"]} "u1"; mkEntry {["*"]} "u2"]
             (Some (SetUpstream "u1" false (NewSwitch ["m"] ["u1"; "u2"] false)).2) StrategyStatic None in
  let e := mkEnv 0 0 0 in
  NoDup (map (fun x => upstream x) (entries p)) /\
  (Candidates (fun u => u) p e (fun _ => 0%nat) "m" (Some mkNop)).1 = inl ["u2"]%string /\
  eligible_candidates (fun u => u) p e "m" (Some mkNop) = ["u2"]%string.
Proof.
  intros p e.
  assert (NoDup (map (fun x => upstream x) (entries p))) as Hnd
    by (apply (bool_decide_unpack _); vm_compute; exact I).
  pose proof (candidates_spec (fun u => u) p e (fun _ => 0%nat) "m" (Some mkNop) Hnd ltac:(intros n Hn; cbn; lia)) as H.
  assert ((Candidates (fun u => u) p e (fun _ => 0%nat) "m" (Some mkNop)).1 = inl ["u2"]%string) as E
    by (vm_compute; reflexivity).
  rewrite E in H. destruct H as (_ & _ & H). split_and!; [done|done|]. by symmetry.
Defined.
End RouterProps.
