(* ===== verification/Upstream.v ===== *)
(** * The provider adapter (internal/upstream: credential.go, modelmap.go, openai.go)

    [Ring] is the credential ring behind one adapter, [ModelMap] the
    client-to-provider model names, [OpenAI] the adapter that forwards one
    exchange with the next eligible credential.  The HTTP client and the
    JSON codec are arguments of the adapter. *)
From Stdlib Require Import Ascii.
From stdpp Require Import base numbers gmap sets strings list.
From S2P Require Import Prelude Retry.
Import GoInt.
Local Open Scope Z_scope.

(** ** The credential ring (credential.go) *)
Module Ring.
(** [cursor] is a [uint64]. *)
Record credentialRing := mkRing { keys : list string; dead : list bool; cursor : Z }.

Definition newCredentialRing (ks : list string) : credentialRing :=
  mkRing ks (replicate (length ks) false) 0.

Definition set_cursor (c : Z) (r : credentialRing) : credentialRing := mkRing (keys r) (dead r) c.
Definition set_dead (d : list bool) (r : credentialRing) : credentialRing := mkRing (keys r) d (cursor r).

(** [r.dead[idx]]; [None] is the index panic. *)
Definition dead_at (r : credentialRing) (idx : Z) : option bool :=
  if idx <? 0 then None else dead r !! Z.to_nat idx.

Fixpoint containsIndex (excluded : list Z) (index : Z) : bool :=
  match excluded with
  | [] => false
  | got :: excluded => if got =? index then true else containsIndex excluded index
  end.

Inductive scanned := Found (idx : Z) | Nothing | IndexPanic.

(** The scan [for i := 0; i < n; i++] from [start], for the credentials the
    test [skip] leaves; [todo] counts the iterations left. *)
Fixpoint scan (r : credentialRing) (skip : Z -> bool) (start n : Z) (todo : nat) : scanned :=
  match todo with
  | O => Nothing
  | S todo' =>
      let idx := Z.rem (start + (n - Z.of_nat todo)) n in
      match dead_at r idx with
      | None => IndexPanic
      | Some d => if d || skip idx then scan r skip start n todo' else Found idx
      end
  end.

(** The atomic add of [pick], the start it yields, and the two scans; the
    final store is [commit].  Concurrent picks interleave between them. *)
Definition begin_pick (r : credentialRing) : Z * credentialRing :=
  (Z.rem (wrap64 (cursor r)) (Z.of_nat (length (keys r))),
   set_cursor ((cursor r + 1) mod 2 ^ 64) r).

Definition choose (r : credentialRing) (excluded : list Z) (start : Z) : scanned :=
  let n := Z.of_nat (length (keys r)) in
  match scan r (containsIndex excluded) start n (length (keys r)) with
  | Nothing => scan r (fun _ => false) start n (length (keys r))
  | res => res
  end.

Definition commit (idx : Z) (r : credentialRing) : credentialRing := set_cursor (idx + 1) r.

(** [None] is the index panic. *)
Definition pick (excluded : list Z) (r : credentialRing) : option Z * credentialRing :=
  if (length (keys r) =? 0)%nat then (Some (-1), r)
  else
    let (start, r1) := begin_pick r in
    match choose r1 excluded start with
    | Found idx => (Some idx, commit idx r1)
    | Nothing => (Some (-1), r1)
    | IndexPanic => (None, r1)
    end.

Definition retire (index : Z) (r : credentialRing) : bool * credentialRing :=
  if (index <? 0) || (Z.of_nat (length (dead r)) <=? index) then (false, r)
  else match dead r !! Z.to_nat index with
  | Some d => (negb d, set_dead (<[Z.to_nat index := true]> (dead r)) r)
  | None => (false, r)
  end.

Fixpoint count_alive (dead : list bool) : Z :=
  match dead with
  | [] => 0
  | d :: dead => if negb d then count_alive dead + 1 else count_alive dead
  end.
Definition alive (r : credentialRing) : Z := count_alive (dead r).

Definition revive (r : credentialRing) : credentialRing :=
  set_dead (map (fun _ => false) (dead r)) r.
End Ring.

(** ** The model map (modelmap.go) *)
Module ModelMap.
(** [strings.Cut(s, "=")]. *)
Fixpoint cut_eq (s : string) : option (string * string) :=
  match s with
  | EmptyString => None
  | String c s' =>
      if Ascii.eqb c "=" then Some (EmptyString, s')
      else match cut_eq s' with
      | Some (before, after) => Some (String c before, after)
      | None => None
      end
  end.

Definition ParseModelMap (models : list string) : gmap string string :=
  foldl (fun rewrites entry =>
    match cut_eq entry with
    | Some (client, provider) =>
        if String.eqb client "" || String.eqb provider "" || String.eqb client "*" then rewrites
        else <[client := provider]> rewrites
    | None => rewrites
    end) ∅ models.

(** [rewriteModelBody]: [unmarshal] reads the top-level members with their
    raw values, [marshal] quotes a string and [encode] writes the object. *)
Section rewrite.
Variable unmarshal : string -> option (gmap string string).
Variable marshal : string -> option string.
Variable encode : gmap string string -> option string.

Definition rewriteModelBody (body model : string) : option string :=
  match unmarshal body with
  | None => None
  | Some top =>
      match marshal model with
      | None => None
      | Some name => encode (<["model" := name]> top)
      end
  end.
End rewrite.
End ModelMap.

(** ** The adapter (upstream.go, openai.go) *)
Module OpenAI.
Import Errors Ring ModelMap.

Record Request := mkRequest {
  Model : string; BodyModel : string; Stream : bool; Body : string; RequestID : string;
  ExcludedCredentials : list Z
}.

(** A response body is what its reads deliver, and how they end: at EOF
    ([None]) or with an error.  [Header] maps canonical names to their first
    values. *)
Record body := mkBody { chunks : list string; ends : option goerr }.

Record Response := mkResponse {
  StatusCode : Z; Header : gmap string string; RespBody : body; CredentialIndex : Z
}.

Record OpenAI := mkOpenAI {
  id : string; baseURL : string; ring : credentialRing; probe : string; modelMap : gmap string string
}.

Definition NewOpenAI (ID BaseURL : string) (APIKeys : list string) (ProbeURL : string)
    (ModelMap : gmap string string) : option OpenAI :=
  if String.eqb ID "" then None
  else if String.eqb BaseURL "" then None
  else Some (mkOpenAI ID BaseURL (newCredentialRing APIKeys) ProbeURL ModelMap).

Definition with_ring (r : credentialRing) (o : OpenAI) : OpenAI :=
  mkOpenAI (id o) (baseURL o) r (probe o) (modelMap o).

Definition bodyModel (o : OpenAI) (req : Request) : string * bool :=
  let target := default (Model req) (modelMap o !! Model req) in
  let carrier := if String.eqb (BodyModel req) "" then Model req else BodyModel req in
  (target, negb (String.eqb target carrier)).

Definition completionPath : string := "/v1/chat/completions".

(** The outgoing HTTP request: method, URL, headers and body. *)
Record http_request := mkHttp { method : string; url : string; headers : gmap string string; payload : string }.
Record http_response := mkHttpResponse { hStatus : Z; hHeader : gmap string string; hBody : body }.

Inductive forward_result := FErr (err : goerr) | FResponse (resp : Response) | FPanic.

Section forward.
(** [rewrite] is [rewriteModelBody] over the JSON codec, [valid_url] whether
    [NewRequestWithContext] accepts the URL, and [client_do] the HTTP
    client. *)
Variable rewrite : string -> string -> option string.
Variable valid_url : string -> bool.
Variable client_do : http_request -> http_response + goerr.

Definition request_body (o : OpenAI) (req : Request) : option string :=
  let (target, differs) := bodyModel o req in
  if differs then rewrite (Body req) target else Some (Body req).

Definition request_headers (o : OpenAI) (req : Request) (index : Z) : gmap string string :=
  let h : gmap string string := <["Content-Type" := "application/json"]> ∅ in
  let h := if Stream req then <["Accept" := "text/event-stream"]> h else h in
  let h := if 0 <=? index
           then <["Authorization" := "Bearer " +:+ default "" (keys (ring o) !! Z.to_nat index)]> h
           else h in
  if negb (String.eqb (RequestID req) "") then <["X-Request-Id" := RequestID req]> h else h.

(** The exchange past the choice of a credential. *)
Definition exchange_with (o : OpenAI) (req : Request) (b : string) (index : Z) : forward_result :=
  let target := baseURL o +:+ completionPath in
  if negb (valid_url target) then FErr (Transport "build request")
  else match client_do (mkHttp "POST" target (request_headers o req index) b) with
  | inr err => FErr (Wrap (Transport "exchange") err)
  | inl resp => FResponse (mkResponse (hStatus resp) (hHeader resp) (hBody resp) index)
  end.

Definition Forward (req : Request) (o : OpenAI) : forward_result * OpenAI :=
  match request_body o req with
  | None => (FErr (Transport "rewrite model"), o)
  | Some b =>
      if (0 <? length (keys (ring o)))%nat then
        let (index, r) := pick (ExcludedCredentials req) (ring o) in
        let o := with_ring r o in
        match index with
        | None => (FPanic, o)
        | Some index =>
            if index <? 0 then (FErr (Transport "no credential available"), o)
            else (exchange_with o req b index, o)
        end
      else (exchange_with o req b (-1), o)
  end.
End forward.
End OpenAI.

Module UpstreamSpec.
Import Ring.

Definition size (r : credentialRing) : Z := Z.of_nat (length (keys r)).

(** One retirement flag per credential; the cursor stays far below the
    range where its conversion to [int] would turn negative. *)
Record ring_wf (r : credentialRing) : Prop := {
  rw_dead : length (dead r) = length (keys r);
  rw_cursor : 0 <= cursor r < 2 ^ 63;
  rw_size : size r < 2 ^ 63
}.

Definition is_alive (r : credentialRing) (i : Z) : bool :=
  match dead_at r i with Some d => negb d | None => false end.

(** The credentials a test admits, in ring order from position [c] on. *)
Definition from (ok : Z -> bool) (n c : Z) : list Z :=
  filter (fun i => ok i = true) (seqZ c (n - c)) ++ filter (fun i => ok i = true) (seqZ 0 c).

(** Where the next pick starts. *)
Definition start_of (r : credentialRing) : Z := cursor r mod size r.

Definition turn (r : credentialRing) : list Z := from (is_alive r) (size r) (start_of r).

(** [k] consecutive picks of requests that exclude nothing. *)
Fixpoint picks (k : nat) (r : credentialRing) : list (option Z) * credentialRing :=
  match k with
  | O => ([], r)
  | S k => let (i, r1) := pick [] r in let (l, r2) := picks k r1 in (i :: l, r2)
  end.
End UpstreamSpec.

Module UpstreamFacts.
Import Ring UpstreamSpec ListFacts.

Section from.
Variable ok : Z -> bool.
Abbreviation adm := (fun i => ok i = true).

Lemma filter_seqZ_split (m : nat) : forall a i l,
  filter adm (seqZ a (Z.of_nat m)) = i :: l ->
  a <= i < a + Z.of_nat m /\ ok i = true /\ filter adm (seqZ a (i - a)) = [] /\
  l = filter adm (seqZ (i + 1) (a + Z.of_nat m - i - 1)).
Proof.
  induction m as [|m IH]; intros a i l; [done|].
  replace (Z.of_nat (S m)) with (Z.succ (Z.of_nat m)) by lia.
  rewrite seqZ_cons, Z.pred_succ, filter_bool_cons by lia. destruct (ok a) eqn:Ha.
  - intros [= <- <-]. split_and!; [lia|lia|done| |].
    + by replace (a - a) with 0 by lia.
    + f_equal. f_equal; lia.
  - intros (H1 & H2 & H3 & H4)%IH. split_and!; [lia|lia|done| |].
    + replace (i - a) with (Z.succ (i - Z.succ a)) by lia.
      rewrite seqZ_cons, Z.pred_succ, filter_bool_cons, Ha by lia. done.
    + rewrite H4. f_equal. f_equal; lia.
Qed.

(** Handing out the head of a turn and moving just past it rotates the turn. *)
Lemma from_next (n c i : Z) (l : list Z) :
  0 <= c <= n -> from ok n c = i :: l -> from ok n (i + 1) = l ++ [i] /\ 0 <= i < n /\ ok i = true.
Proof.
  intros Hc. unfold from. destruct (filter adm (seqZ c (n - c))) as [|j l1] eqn:H1.
  - cbn [app]. intros H2. replace c with (Z.of_nat (Z.to_nat c)) in H2 at 1 by lia.
    apply filter_seqZ_split in H2 as (Hi & Hok & Hnil & ->).
    replace (n - (i + 1)) with ((c - i - 1) + (n - c)) by lia.
    rewrite seqZ_app, filter_app by lia. replace (i + 1 + (c - i - 1)) with c by lia. rewrite H1, app_nil_r.
    rewrite seqZ_app, filter_app by lia. replace (0 + Z.of_nat (Z.to_nat c) - i - 1) with (c - i - 1) by lia.
    replace (i - 0) with i in Hnil by lia. rewrite Hnil. cbn [app]. split; [|split; [lia|done]].
    f_equal. rewrite Z.add_0_l. replace (seqZ i 1) with [i] by done. by rewrite filter_bool_cons, Hok.
  - intros [= -> <-]. replace (n - c) with (Z.of_nat (Z.to_nat (n - c))) in H1 by lia.
    apply filter_seqZ_split in H1 as (Hi & Hok & Hnil & ->).
    split; [|split; [lia|done]]. rewrite <- app_assoc. f_equal; [f_equal; f_equal; lia|].
    replace (i + 1) with (c + ((i - c) + 1)) by lia.
    rewrite seqZ_app, filter_app by lia. f_equal.
    rewrite seqZ_app, filter_app by lia. rewrite Z.add_0_l, Hnil. cbn [app].
    replace (c + (i - c)) with i by lia. replace (seqZ i 1) with [i] by done. by rewrite filter_bool_cons, Hok.
Qed.

Lemma from_elem (n c i : Z) : 0 <= c <= n -> i ∈ from ok n c <-> 0 <= i < n /\ ok i = true.
Proof.
  intros Hc. unfold from. rewrite elem_of_app, !list_elem_of_filter, !elem_of_seqZ.
  split; [intuition lia|]. intros [Hi Hok]. destruct (decide (i < c)); [right|left]; split; done || lia.
Qed.

Lemma from_NoDup (n c : Z) : 0 <= c <= n -> NoDup (from ok n c).
Proof.
  intros Hc. unfold from. apply NoDup_app. split_and!; [apply NoDup_filter, NoDup_seqZ| |apply NoDup_filter, NoDup_seqZ].
  intros i. rewrite !list_elem_of_filter, !elem_of_seqZ. intros [_ ?] [_ ?]. lia.
Qed.

Lemma from_wrap (n : Z) : 0 < n -> from ok n n = from ok n 0.
Proof. intros Hn. unfold from. rewrite Z.sub_diag, Z.sub_0_r. by rewrite !app_nil_r. Qed.
End from.

(** *** The scan *)
Lemma dead_at_wf (r : credentialRing) (i : Z) :
  ring_wf r -> 0 <= i < size r -> exists d, dead_at r i = Some d /\ is_alive r i = negb d.
Proof.
  intros Hwf Hi. pose proof (rw_dead r Hwf) as Hd. unfold is_alive, dead_at, size in *. destruct (Z.ltb_spec i 0); [lia|].
  destruct (lookup_lt_is_Some_2 (dead r) (Z.to_nat i) ltac:(lia)) as [d ->]. eauto.
Qed.

Lemma scan_loop (r : credentialRing) (skip : Z -> bool) (start : Z) (todo : nat) :
  ring_wf r -> 0 <= start < size r -> Z.of_nat todo <= size r ->
  scan r skip start (size r) todo
  = match filter (fun i => is_alive r i && negb (skip i) = true)
            (map (fun i => (start + i) mod size r) (seqZ (size r - Z.of_nat todo) (Z.of_nat todo))) with
    | [] => Nothing
    | i :: _ => Found i
    end.
Proof.
  intros Hwf Hs. set (n := size r) in *. induction todo as [|todo IH]; intros Ht; [done|].
  cbn [scan]. assert (0 < n) as Hn by lia.
  rewrite Z.rem_mod_nonneg by lia. set (idx := (start + (n - Z.of_nat (S todo))) mod n).
  assert (0 <= idx < n) as Hidx by (apply Z.mod_pos_bound; lia).
  destruct (dead_at_wf r idx Hwf Hidx) as (d & -> & Ha).
  replace (Z.of_nat (S todo)) with (Z.succ (Z.of_nat todo)) by lia.
  rewrite seqZ_cons, Z.pred_succ by lia. cbn [map].
  replace ((start + (n - Z.succ (Z.of_nat todo))) mod n) with idx by (unfold idx; f_equal; lia).
  rewrite filter_bool_cons, Ha, <- negb_orb. destruct (d || skip idx); cbn [negb]; [|done].
  rewrite IH by lia. by replace (Z.succ (n - Z.succ (Z.of_nat todo))) with (n - Z.of_nat todo) by lia.
Qed.

Lemma cyc_split (start n : Z) :
  0 <= start < n -> map (fun i => (start + i) mod n) (seqZ 0 n) = seqZ start (n - start) ++ seqZ 0 start.
Proof.
  intros Hs. assert (seqZ 0 n = seqZ 0 ((n - start) + start)) as -> by (f_equal; lia).
  rewrite seqZ_app, map_app by lia. f_equal.
  - apply list_eq. intros i. destruct (decide (Z.of_nat i < n - start)) as [Hi|Hi].
    + rewrite lookup_seqZ_lt by lia. rewrite (list_lookup_fmap (fun i => (start + i) mod n)).
      rewrite lookup_seqZ_lt by lia. cbn. f_equal. rewrite Z.mod_small; lia.
    + rewrite lookup_seqZ_ge by lia. rewrite (list_lookup_fmap (fun i => (start + i) mod n)).
      by rewrite lookup_seqZ_ge by lia.
  - apply list_eq. intros i. destruct (decide (Z.of_nat i < start)) as [Hi|Hi].
    + rewrite lookup_seqZ_lt by lia. rewrite (list_lookup_fmap (fun i => (start + i) mod n)).
      rewrite lookup_seqZ_lt by lia. cbn. f_equal.
      replace (start + (0 + (n - start) + Z.of_nat i)) with (Z.of_nat i + 1 * n) by lia.
      rewrite Z.mod_add, Z.mod_small by lia. lia.
    + rewrite lookup_seqZ_ge by lia. rewrite (list_lookup_fmap (fun i => (start + i) mod n)).
      by rewrite lookup_seqZ_ge by lia.
Qed.

Lemma scan_from (r : credentialRing) (skip : Z -> bool) (start : Z) :
  ring_wf r -> 0 <= start < size r ->
  scan r skip start (size r) (length (keys r))
  = match from (fun i => is_alive r i && negb (skip i)) (size r) start with
    | [] => Nothing | i :: _ => Found i end.
Proof.
  intros Hwf Hs. rewrite scan_loop by (unfold size in *; done || lia).
  replace (size r - Z.of_nat (length (keys r))) with 0 by (unfold size; lia).
  change (Z.of_nat (length (keys r))) with (size r). rewrite cyc_split by done.
  by rewrite filter_app.
Qed.

Lemma containsIndex_spec (l : list Z) (i : Z) : containsIndex l i = true <-> i ∈ l.
Proof.
  induction l as [|x l IH]; cbn [containsIndex]; [by split; [|intros ?%elem_of_nil]|].
  rewrite elem_of_cons. destruct (Z.eqb_spec x i) as [->|]; [by split; auto|].
  rewrite IH. split; [by right|]. intros [->|]; done.
Qed.

Lemma is_alive_range (r : credentialRing) (i : Z) : ring_wf r -> is_alive r i = true -> 0 <= i < size r.
Proof.
  intros [Hd _ _]. unfold is_alive, dead_at, size. destruct (Z.ltb_spec i 0); [done|].
  destruct (dead r !! Z.to_nat i) eqn:E; [|done]. apply lookup_lt_Some in E. lia.
Qed.

Lemma from_ok (ok : Z -> bool) (n c i : Z) : i ∈ from ok n c -> ok i = true.
Proof. unfold from. rewrite elem_of_app, !list_elem_of_filter. tauto. Qed.

Lemma start_range (r : credentialRing) : 0 < size r -> 0 <= start_of r < size r.
Proof. intros Hn. by apply Z.mod_pos_bound. Qed.

Lemma pick_spec (excluded : list Z) (r : credentialRing) :
  ring_wf r -> 0 < size r ->
  pick excluded r =
    match from (fun i => is_alive r i && negb (containsIndex excluded i)) (size r) (start_of r) with
    | i :: _ => (Some i, set_cursor (i + 1) r)
    | [] =>
        match from (is_alive r) (size r) (start_of r) with
        | i :: _ => (Some i, set_cursor (i + 1) r)
        | [] => (Some (-1), set_cursor (cursor r + 1) r)
        end
    end.
Proof.
  intros Hwf Hn. pose proof (rw_cursor r Hwf) as Hc. unfold pick, begin_pick.
  destruct (Nat.eqb_spec (length (keys r)) 0) as [H0|_]; [unfold size in Hn; lia|].
  rewrite wrap64_id by (unfold in_int64, min_int64, max_int64; lia).
  rewrite Z.rem_mod_nonneg by (unfold size in *; lia). fold (size r). fold (start_of r).
  rewrite (Z.mod_small (cursor r + 1)) by lia. set (r1 := set_cursor (cursor r + 1) r).
  assert (forall skip, scan r1 skip (start_of r) (size r) (length (keys r))
    = scan r skip (start_of r) (size r) (length (keys r))) as Hr1.
  { intros skip. unfold r1. generalize (length (keys r)). intros k.
    induction k as [|k IH]; cbn [scan]; [done|].
    change (dead_at (set_cursor (cursor r + 1) r)) with (dead_at r).
    destruct (dead_at r _) as [d|]; [|done]. by destruct (d || _). }
  unfold choose. change (length (keys r1)) with (length (keys r)). fold (size r).
  rewrite !Hr1, !scan_from by (done || by apply start_range).
  destruct (from _ _ _) as [|i l]; [|done].
  replace (from (fun i => is_alive r i && negb false) (size r) (start_of r))
    with (from (is_alive r) (size r) (start_of r)).
  2:{ unfold from. f_equal; apply filter_bool_ext; intros i _; by rewrite andb_true_r. }
  by destruct (from _ _ _).
Qed.

(** An unrestricted pick hands out the head of the turn and rotates it. *)
Lemma pick_turn (r : credentialRing) (i : Z) (l : list Z) :
  ring_wf r -> turn r = i :: l ->
  exists r', pick [] r = (Some i, r') /\ ring_wf r' /\ turn r' = l ++ [i] /\ 0 <= i /\
    keys r' = keys r /\ dead r' = dead r.
Proof.
  intros Hwf Ht. assert (0 < size r) as Hn.
  { assert (is_alive r i = true) as Hi by (apply (from_ok _ (size r) (start_of r)); fold (turn r); rewrite Ht; set_solver).
    apply is_alive_range in Hi; [lia|done]. }
  pose proof (start_range r Hn) as Hs. unfold turn in Ht.
  destruct (from_next (is_alive r) (size r) (start_of r) i l ltac:(lia) Ht) as (Hnext & Hi & _).
  exists (set_cursor (i + 1) r). rewrite pick_spec by done.
  replace (from (fun j => is_alive r j && negb (containsIndex [] j)) (size r) (start_of r))
    with (from (is_alive r) (size r) (start_of r)).
  2:{ unfold from. f_equal; apply filter_bool_ext; intros j _; by rewrite andb_true_r. }
  rewrite Ht. pose proof (rw_cursor r Hwf). split_and!; [done|split; cbn; [| |apply (rw_size r Hwf)]| |lia|done|done].
  - apply (rw_dead r Hwf).
  - pose proof (rw_size r Hwf). lia.
  - unfold turn. change (size (set_cursor (i + 1) r)) with (size r).
    change (is_alive (set_cursor (i + 1) r)) with (is_alive r). rewrite <- Hnext.
    unfold start_of; cbn [cursor set_cursor]. change (size (set_cursor (i + 1) r)) with (size r).
    destruct (decide (i + 1 = size r)) as [->|Hne]; [|by rewrite Z.mod_small by lia].
    by rewrite Z_mod_same_full, from_wrap.
Qed.
End UpstreamFacts.

Module UpstreamProps.
Import Ring UpstreamSpec UpstreamFacts.

Lemma picks_turn (k : nat) : forall r,
  ring_wf r -> (k <= length (turn r))%nat -> (picks k r).1 = map Some (take k (turn r)).
Proof.
  induction k as [|k IH]; intros r Hwf Hk; [done|].
  destruct (turn r) as [|i l] eqn:Ht; [cbn in Hk; lia|]. cbn [length] in Hk.
  destruct (pick_turn r i l Hwf Ht) as (r' & Hp & Hwf' & Ht' & _).
  cbn [picks]. rewrite Hp. specialize (IH r' Hwf').
  destruct (picks k r') as [ps r2]; cbn [fst] in *.
  rewrite IH by (rewrite Ht', length_app; cbn; lia). rewrite Ht'. cbn [take map].
  by rewrite take_app_le by lia.
Qed.

Lemma count_alive_filter (d : list bool) :
  count_alive d = Z.of_nat (length (filter (fun b => b = false) d)).
Proof.
  induction d as [|b d IH]; [done|]. cbn [count_alive]. rewrite IH.
  destruct b; [by rewrite filter_cons_False|]. rewrite filter_cons_True by done. cbn. lia.
Qed.

Lemma from_nil (ok : Z -> bool) (n c j : Z) :
  0 <= c <= n -> from ok n c = [] -> 0 <= j < n -> ok j = false.
Proof.
  intros Hc Hnil Hj. destruct (ok j) eqn:E; [|done].
  assert (j ∈ from ok n c) as Hin by (by apply from_elem).
  rewrite Hnil in Hin. by apply elem_of_nil in Hin.
Qed.

Lemma from_head (ok : Z -> bool) (n c i : Z) (l : list Z) :
  0 <= c <= n -> from ok n c = i :: l -> 0 <= i < n /\ ok i = true.
Proof. intros Hc Hl. apply (from_elem ok n c); [done|]. rewrite Hl. set_solver. Qed.

Lemma dead_out (r : credentialRing) (j : Z) :
  ring_wf r -> (0 <= j < size r -> is_alive r j = false) -> is_alive r j = false.
Proof.
  intros Hwf H. destruct (is_alive r j) eqn:E; [|done].
  apply H. by apply is_alive_range.
Qed.

Lemma turn_spec (r : credentialRing) :
  ring_wf r -> NoDup (turn r) /\ (forall j, j ∈ turn r <-> is_alive r j = true).
Proof.
  intros Hwf. destruct (decide (0 < size r)) as [Hn|Hn].
  - pose proof (start_range r Hn). split; [apply from_NoDup; lia|]. intros j. unfold turn.
    rewrite from_elem by lia. split; [tauto|]. intros Hj. split; [by apply is_alive_range|done].
  - assert (forall j, is_alive r j = false) as Hdead by (intros j; apply dead_out; [done|lia]).
    assert (turn r = []) as ->; [|split; [constructor|intros j; rewrite Hdead; set_solver]].
    destruct (turn r) as [|i l] eqn:E; [done|]. assert (is_alive r i = true) as Hi.
    { apply (from_ok _ (size r) (start_of r)). fold (turn r). rewrite E. set_solver. }
    by rewrite Hdead in Hi.
Qed.

(** What a pick hands out. *)
Lemma pick_result (excluded : list Z) (r : credentialRing) :
  ring_wf r ->
  exists i r', pick excluded r = (Some i, r') /\ keys r' = keys r /\ dead r' = dead r /\
    0 <= cursor r' <= Z.max (size r) (cursor r + 1) /\
    (i = -1 <-> forall j, is_alive r j = false) /\
    (i <> -1 -> is_alive r i = true /\
       ((exists j, is_alive r j = true /\ j ∉ excluded) -> i ∉ excluded)).
Proof.
  intros Hwf. pose proof (rw_cursor r Hwf) as Hc. destruct (decide (0 < size r)) as [Hn|Hn].
  2:{ exists (-1), r. unfold pick. destruct (Nat.eqb_spec (length (keys r)) 0); [|unfold size in Hn; lia].
      split_and!; try done; [lia..|]. split; [|done]. intros _ j. apply dead_out; [done|lia]. }
  rewrite pick_spec by done. pose proof (start_range r Hn) as Hs.
  set (good := fun i => is_alive r i && negb (containsIndex excluded i)).
  assert (forall i, good i = true <-> is_alive r i = true /\ i ∉ excluded) as Hgood.
  { intros i. unfold good. rewrite andb_true_iff, negb_true_iff, <- containsIndex_spec.
    destruct (containsIndex excluded i); split; intros [? ?]; done. }
  assert (forall i, 0 <= i -> is_alive r i = true -> (i = -1 <-> forall j, is_alive r j = false)) as Hiff.
  { intros i Hi Ha. split; [lia|]. intros H. by rewrite H in Ha. }
  destruct (from good (size r) (start_of r)) as [|i l] eqn:Hgl.
  - destruct (from (is_alive r) (size r) (start_of r)) as [|i l] eqn:Hal.
    + eexists (-1), _. split_and!; [done..|cbn; lia|cbn; lia| |done].
      split; [|done]. intros _ j. apply dead_out; [done|]. intros Hj. by apply (from_nil _ (size r) (start_of r)); [lia|..].
    + apply from_head in Hal as [Hi Ha]; [|lia].
      eexists i, _. split_and!; [done..|cbn; lia|cbn; lia|apply Hiff; lia || done|].
      intros _. split; [done|]. intros (j & Hj & Hx). exfalso.
      pose proof (from_nil good (size r) (start_of r) j ltac:(lia) Hgl (is_alive_range r j Hwf Hj)) as Hg.
      assert (good j = true) by (by apply Hgood). congruence.
  - apply from_head in Hgl as [Hi [Ha Hx]%Hgood]; [|lia].
    eexists i, _. split_and!; [done..|cbn; lia|cbn; lia|apply Hiff; lia || done|done].
Qed.

(** The credential ring.  A pick never panics and changes no flag; it
    reports [-1] exactly when no credential is alive, otherwise it hands out
    a live credential, and one the request has not excluded whenever such a
    credential exists; the cursor never runs ahead.  Unrestricted picks hand
    out every live credential exactly once, in ring order from the cursor,
    before any is repeated. *)
Theorem credential_rotation (excluded : list Z) (r : credentialRing) :
  ring_wf r ->
  (exists i r', pick excluded r = (Some i, r') /\ keys r' = keys r /\ dead r' = dead r /\
    0 <= cursor r' <= Z.max (size r) (cursor r + 1) /\
    (i = -1 <-> forall j, is_alive r j = false) /\
    (i <> -1 -> is_alive r i = true /\
       ((exists j, is_alive r j = true /\ j ∉ excluded) -> i ∉ excluded))) /\
  (picks (length (turn r)) r).1 = map Some (turn r) /\
  NoDup (turn r) /\ (forall j, j ∈ turn r <-> is_alive r j = true).
Proof.
  intros Hwf. split; [by apply pick_result|]. split; [|by apply turn_spec].
  by rewrite picks_turn, take_ge by done.
Qed.

(** Three credentials, the second retired. *)
Definition sample_ring : credentialRing := (retire 1 (newCredentialRing ["a"; "b"; "c"])).2.

Lemma credential_rotation_witness :
  (picks 2 sample_ring).1 = [Some 0; Some 2] /\ (pick [0] sample_ring).1 = Some 2 /\ NoDup (turn sample_ring).
Proof.
  assert (ring_wf sample_ring) as Hwf by (by split).
  destruct (credential_rotation [0] sample_ring Hwf) as (_ & H & Hnd & _).
  split; [exact H|]. split; [by vm_compute|exact Hnd].
Defined.

(** The guarantee is sequential.  Two overlapping picks whose stores land in
    the opposite order of their adds leave the cursor behind the later one:
    the next pick repeats its credential although the third was never
    handed out. *)
Lemma concurrent_picks_repeat :
  let r := newCredentialRing ["a"; "b"; "c"] in
  let (startA, r) := begin_pick r in
  let (startB, r) := begin_pick r in
  choose r [] startA = Found 0 /\ choose r [] startB = Found 1 /\
  (pick [] (commit 0 (commit 1 r))).1 = Some 1.
Proof. by vm_compute. Qed.

Lemma retire_spec (i : Z) (r : credentialRing) :
  ring_wf r ->
  (retire i r).1 = is_alive r i /\ ring_wf (retire i r).2 /\ keys (retire i r).2 = keys r /\
  (forall j, is_alive (retire i r).2 j = is_alive r j && negb (j =? i)).
Proof.
  intros Hwf. destruct (decide (0 <= i < size r)) as [Hi|Hi].
  - destruct (dead_at_wf r i Hwf Hi) as (d & Hd & Ha). pose proof (rw_dead r Hwf) as Hl.
    unfold dead_at in Hd. destruct (Z.ltb_spec i 0) as [|_]; [lia|].
    unfold retire. rewrite (proj2 (Z.ltb_ge i 0)), (proj2 (Z.leb_gt _ i)) by (unfold size in Hi; lia).
    cbn [orb]. rewrite Hd. cbn [fst snd]. split_and!; [done| |done|].
    + destruct Hwf as [_ Hc Hs]. split; cbn; [by rewrite length_insert|done|done].
    + intros j. unfold is_alive, dead_at; cbn [set_dead dead]. destruct (Z.ltb_spec j 0); [done|].
      destruct (Z.eqb_spec j i) as [->|Hne].
      * rewrite list_lookup_insert_eq by (apply lookup_lt_Some in Hd; done). by rewrite andb_false_r.
      * rewrite list_lookup_insert_ne by lia. by rewrite andb_true_r.
  - assert (is_alive r i = false) as Hdead by (apply dead_out; [done|lia]).
    assert (retire i r = (false, r)) as ->.
    { unfold retire. rewrite (rw_dead r Hwf). fold (size r).
      destruct (Z.ltb_spec i 0); [done|]. by rewrite (proj2 (Z.leb_le _ i)) by lia. }
    split_and!; [done|done|done|]. intros j. destruct (Z.eqb_spec j i) as [->|]; cbn;
      [by rewrite Hdead|by rewrite andb_true_r].
Qed.

Lemma alive_pos (r : credentialRing) : ring_wf r -> (0 < alive r <-> exists i, is_alive r i = true).
Proof.
  intros Hwf. unfold alive. rewrite count_alive_filter. split.
  - intros H. destruct (filter _ (dead r)) as [|b l] eqn:E; [cbn in H; lia|].
    assert (b ∈ filter (fun b => b = false) (dead r)) as Hb by (rewrite E; set_solver).
    apply list_elem_of_filter in Hb as [-> [k Hk]%list_elem_of_lookup].
    exists (Z.of_nat k). unfold is_alive, dead_at. rewrite (proj2 (Z.ltb_ge _ 0)) by lia.
    by rewrite Nat2Z.id, Hk.
  - intros [i Hi]. destruct (dead_at_wf r i Hwf (is_alive_range r i Hwf Hi)) as (d & Hd & Ha).
    rewrite Hi in Ha. destruct d; [done|]. unfold dead_at in Hd. destruct (i <? 0); [done|].
    assert (false ∈ filter (fun b => b = false) (dead r)) as Hin
      by (apply list_elem_of_filter; split; [done|by eapply list_elem_of_lookup_2]).
    destruct (filter _ (dead r)); [by apply elem_of_nil in Hin|cbn; lia].
Qed.

Lemma revive_spec (r : credentialRing) :
  ring_wf r -> ring_wf (revive r) /\ forall i, is_alive (revive r) i = bool_decide (0 <= i < size r).
Proof.
  intros Hwf. destruct Hwf as [Hd Hc Hs]. split; [split; cbn; [by rewrite length_map|done|done]|].
  intros i. unfold is_alive, dead_at, revive; cbn [set_dead dead].
  destruct (Z.ltb_spec i 0); [by rewrite bool_decide_false by lia|].
  rewrite (list_lookup_fmap (fun _ => false)). unfold size. destruct (dead r !! Z.to_nat i) eqn:E; cbn.
  - apply lookup_lt_Some in E. by rewrite bool_decide_true by lia.
  - apply lookup_ge_None in E. by rewrite bool_decide_false by lia.
Qed.
End UpstreamProps.

Module ForwardProps.
Import Errors Ring OpenAI UpstreamSpec UpstreamFacts UpstreamProps.

Section forward.
Variable rewrite : string -> string -> option string.
Variable valid_url : string -> bool.
Variable client_do : http_request -> http_response + goerr.

Lemma exchange_response (o : OpenAI) (req : Request) (b : string) (index : Z) (resp : Response) :
  exchange_with valid_url client_do o req b index = FResponse resp ->
  exists hresp, let hreq := mkHttp "POST" (baseURL o +:+ completionPath) (request_headers o req index) b in
    client_do hreq = inl hresp /\
    resp = mkResponse (hStatus hresp) (hHeader hresp) (hBody hresp) index.
Proof.
  unfold exchange_with. destruct (negb _); [done|].
  destruct (client_do _) as [hresp|err] eqn:E; [|done]. intros [= <-]. by exists hresp.
Qed.

Lemma authorization_header (o : OpenAI) (req : Request) (index : Z) :
  request_headers o req index !! "Authorization"
  = if 0 <=? index then Some ("Bearer " +:+ default "" (keys (ring o) !! Z.to_nat index)) else None.
Proof.
  unfold request_headers. destruct (negb _), (0 <=? index), (Stream req);
    rewrite ?lookup_insert_ne by done; by rewrite ?lookup_insert_eq.
Qed.
End forward.

(** One forwarded exchange.  The adapter never panics and only its
    cursor moves; a response comes from exactly one POST to the completion
    endpoint whose body is the request's own bytes when they already name
    the model this provider serves, and the rewritten ones otherwise; the
    reported credential index is the one whose key the request carried, a
    live one, and not one the request excluded while another was live; an
    adapter without credentials sends none and reports [-1]. *)
Theorem forward_exchange (rewrite : string -> string -> option string) (valid_url : string -> bool)
    (client_do : http_request -> http_response + goerr) (req : Request) (o : OpenAI) :
  ring_wf (ring o) ->
  let (res, o') := Forward rewrite valid_url client_do req o in
  res <> FPanic /\ o' = with_ring (ring o') o /\
  keys (ring o') = keys (ring o) /\ dead (ring o') = dead (ring o) /\
  forall resp, res = FResponse resp ->
    let target := default (Model req) (modelMap o !! Model req) in
    let carried := if String.eqb (BodyModel req) "" then Model req else BodyModel req in
    exists h hresp, client_do h = inl hresp /\ method h = "POST" /\
      url h = baseURL o +:+ completionPath /\
      StatusCode resp = hStatus hresp /\ RespBody resp = hBody hresp /\
      Some (payload h) = (if String.eqb target carried then Some (Body req) else rewrite (Body req) target) /\
      match keys (ring o) with
      | [] => CredentialIndex resp = -1 /\ headers h !! "Authorization" = None
      | _ => is_alive (ring o) (CredentialIndex resp) = true /\
          ((exists j, is_alive (ring o) j = true /\ j ∉ ExcludedCredentials req) ->
           CredentialIndex resp ∉ ExcludedCredentials req) /\
          exists key, keys (ring o) !! Z.to_nat (CredentialIndex resp) = Some key /\
            headers h !! "Authorization" = Some ("Bearer " +:+ key)
      end.
Proof.
  intros Hwf. unfold Forward, request_body, bodyModel. cbn zeta.
  set (target := default _ _). set (carried := if String.eqb _ _ then _ else _).
  assert (o = with_ring (ring o) o) as Ho by (by destruct o).
  assert ((if negb (target =? carried)%string then rewrite (Body req) target else Some (Body req))
    = if (target =? carried)%string then Some (Body req) else rewrite (Body req) target) as ->
    by (by destruct (target =? carried)%string).
  destruct (if (target =? carried)%string then _ else _) as [b|] eqn:Hb; [|by split_and!].
  destruct (Nat.ltb_spec 0 (length (keys (ring o)))) as [Hn|Hn].
  2:{ assert (keys (ring o) = []) as Hk by (apply nil_length_inv; lia). split_and!; [|done..|].
      - unfold exchange_with. destruct (negb _); [done|]. by destruct (client_do _).
      - intros resp (hresp & H1 & ->)%exchange_response. rewrite Hk.
        eexists _, hresp. split_and!; [exact H1|done..|]. cbn [headers]. by rewrite authorization_header. }
  destruct (pick_result (ExcludedCredentials req) (ring o) Hwf) as (i & r' & -> & Hk & Hd & _ & H1 & H2).
  destruct (Z.ltb_spec i 0) as [Hi|Hi]; [by split_and!|].
  destruct (H2 ltac:(lia)) as [Ha Hx]. split_and!; [|done..|].
  { unfold exchange_with. destruct (negb _); [done|]. by destruct (client_do _). }
  intros resp (hresp & E & ->)%exchange_response.
  eexists _, hresp. split_and!; [exact E|done..|].
  destruct (keys (ring o)) as [|k ks] eqn:Hkeys; [cbn in Hn; lia|]. rewrite <- Hkeys in *. split_and!; [done|done|].
  pose proof (is_alive_range (ring o) i Hwf Ha) as Hr. unfold size in Hr.
  destruct (lookup_lt_is_Some_2 (keys (ring o)) (Z.to_nat i) ltac:(lia)) as [key Hkey].
  exists key. split; [done|]. cbn [headers CredentialIndex]. rewrite authorization_header.
  rewrite (proj2 (Z.leb_le 0 i)) by lia. cbn [with_ring ring]. by rewrite Hk, Hkey.
Qed.

Lemma forward_exchange_witness :
  let o := mkOpenAI "openai" "https://api" sample_ring "" {[ "gpt" := "gpt-4o" ]} in
  let req := mkRequest "gpt" "" true "{model:gpt}" "r1" [0] in
  let client h := inl (mkHttpResponse 200 ∅ (mkBody [payload h] None)) in
  (Forward (fun _ m => Some m) (fun _ => true) client req o).1
  = FResponse (mkResponse 200 ∅ (mkBody ["gpt-4o"] None) 2) /\
  is_alive sample_ring 2 = true.
Proof.
  intros o req client.
  assert (ring_wf (ring o)) as Hwf by (by split).
  pose proof (forward_exchange (fun _ m => Some m) (fun _ => true) client req o Hwf) as H.
  assert ((Forward (fun _ m => Some m) (fun _ => true) client req o).1
    = FResponse (mkResponse 200 ∅ (mkBody ["gpt-4o"] None) 2)) as E by (by vm_compute).
  destruct (Forward _ _ _ _ _) as [res o']. cbn [fst] in E.
  destruct H as (_ & _ & _ & _ & H). destruct (H _ E) as (h & hresp & _ & _ & _ & _ & _ & _ & Ha & _).
  split; [exact E|exact Ha].
Defined.
End ForwardProps.
