(* ===== verification/Auth.v ===== *)
(** * Identity (internal/auth: auth.go, limits.go, static.go)

    [Limits] is the layered limit model and the model check it feeds,
    [Static] the configured identity set.  Slices are lists (a nil and an empty slice
    admit and deny the same models), the defensive copies of the code are
    what values give.  The keyed digest of a raw API key is an argument. *)
From Stdlib Require Import Ascii.
From stdpp Require Import base numbers sets gmap strings list.
From S2P Require Import Prelude.
Import GoTime.
Local Open Scope Z_scope.

(** ** Limits (limits.go, auth.go) *)
Module Limits.
Record Tier := mkTier {
  ID : string; RPM : Z; TPM : Z; MaxTokens : Z; MonthlyQuota : Z;
  AllowedModels : list string; DeniedModels : list string; ModelQuotas : gmap string Z; Concurrency : Z
}.

(** One layer of deviations; [None] inherits. *)
Record LimitOverride := mkOverride {
  oRPM : option Z; oTPM : option Z; oMaxTokens : option Z; oMonthlyQuota : option Z;
  oConcurrency : option Z; oAllowedModels : option (list string);
  oDeniedModels : list string; oModelQuotas : gmap string Z
}.

Definition no_override : LimitOverride := mkOverride None None None None None None [] ∅.

Definition Empty (o : LimitOverride) : bool :=
  match o with
  | mkOverride None None None None None None [] q => bool_decide (q = ∅)
  | _ => false
  end.

Definition wildcardModel : string := "*".

Definition containsWildcard (models : list string) : bool := existsb (String.eqb wildcardModel) models.

Definition AllowsModel (t : Tier) (model : string) : bool :=
  if existsb (fun denied => String.eqb denied wildcardModel || String.eqb denied model) (DeniedModels t)
  then false
  else existsb (fun allowed => String.eqb allowed wildcardModel || String.eqb allowed model) (AllowedModels t).

(** The child's entries a wildcard parent admits, each once. *)
Fixpoint widen (parentSet : gset string) (child : list string) : list string :=
  match child with
  | [] => []
  | m :: child =>
      if decide (m ∈ parentSet) then widen parentSet child else m :: widen ({[m]} ∪ parentSet) child
  end.

Definition intersect (parent child : list string) : list string :=
  match child with
  | [] => []
  | _ =>
      if containsWildcard child then parent
      else
        let out := base.filter (fun m => m ∈ child) parent in
        if containsWildcard parent then out ++ widen (list_to_set parent) child else out
  end.

(** One layer folded into the merged tier. *)
Definition merge_layer (merged : Tier) (o : LimitOverride) : Tier :=
  mkTier (ID merged) (default (RPM merged) (oRPM o)) (default (TPM merged) (oTPM o))
    (default (MaxTokens merged) (oMaxTokens o)) (default (MonthlyQuota merged) (oMonthlyQuota o))
    (match oAllowedModels o with
     | Some allowed => intersect (AllowedModels merged) allowed
     | None => AllowedModels merged
     end)
    (DeniedModels merged ++ oDeniedModels o) (oModelQuotas o ∪ ModelQuotas merged)
    (default (Concurrency merged) (oConcurrency o)).

Definition MergeTier (t : Tier) (overrides : list LimitOverride) : Tier := foldl merge_layer t overrides.
End Limits.

Module LimitsSpec.
Import Limits.

(** A list entry covers a model by name or as the wildcard. *)
Definition covers (models : list string) (model : string) : bool :=
  existsb (fun m => String.eqb m wildcardModel || String.eqb m model) models.

(** What one layer alone says of a model. *)
Definition layer_admits (model : string) (o : LimitOverride) : bool :=
  negb (covers (oDeniedModels o) model) &&
  match oAllowedModels o with Some allowed => covers allowed model | None => true end.

(** The value of the nearest layer that sets one. *)
Definition nearest {A} (x : A) (layers : list (option A)) : A := default x (last (omap id layers)).
End LimitsSpec.

Module LimitsProps.
Import Limits LimitsSpec.

Lemma covers_elem (models : list string) (model : string) :
  covers models model = true <-> wildcardModel ∈ models \/ model ∈ models.
Proof.
  unfold covers. rewrite existsb_exists. split.
  - intros (m & Hm%list_elem_of_In & [E|E]%orb_true_iff); apply String.eqb_eq in E; subst; auto.
  - intros [H|H]; apply list_elem_of_In in H; (eexists; split; [exact H|]); rewrite String.eqb_refl;
      [done|apply orb_true_r].
Qed.

Lemma containsWildcard_elem (models : list string) : containsWildcard models = true <-> wildcardModel ∈ models.
Proof.
  unfold containsWildcard. rewrite existsb_exists. split.
  - by intros (m & Hm%list_elem_of_In & ->%String.eqb_eq).
  - intros H. exists wildcardModel. by rewrite String.eqb_refl, <- list_elem_of_In.
Qed.

Lemma elem_of_widen (child : list string) (m : string) : forall parentSet,
  m ∈ widen parentSet child <-> m ∈ child /\ m ∉ parentSet.
Proof.
  induction child as [|c child IH]; intros parentSet; cbn [widen]; [set_solver|].
  destruct (decide (c ∈ parentSet)); [rewrite IH; set_solver|].
  rewrite elem_of_cons, IH. destruct (decide (m = c)); set_solver.
Qed.

Lemma elem_of_intersect (parent child : list string) (m : string) :
  m ∈ intersect parent child <->
  child <> [] /\ (if containsWildcard child then m ∈ parent
    else m ∈ child /\ (m ∈ parent \/ wildcardModel ∈ parent)).
Proof.
  unfold intersect. destruct child as [|c child]; [set_solver|]. set (l := c :: child).
  assert (l <> []) as Hne by done. clearbody l. destruct (containsWildcard l) eqn:Hc; [tauto|].
  destruct (containsWildcard parent) eqn:Hp.
  - apply containsWildcard_elem in Hp. rewrite elem_of_app, list_elem_of_filter, elem_of_widen, elem_of_list_to_set.
    destruct (decide (m ∈ parent)); tauto.
  - assert (wildcardModel ∉ parent) as Hp' by (rewrite <- containsWildcard_elem, Hp; done).
    rewrite list_elem_of_filter. tauto.
Qed.

(** The intersection admits what both lists admit. *)
Lemma covers_intersect (parent child : list string) (model : string) :
  covers (intersect parent child) model = covers parent model && covers child model.
Proof.
  apply eq_true_iff_eq. rewrite andb_true_iff, !covers_elem, !elem_of_intersect.
  destruct (containsWildcard child) eqn:Hc.
  - apply containsWildcard_elem in Hc. assert (child <> []) by (by intros ->; apply elem_of_nil in Hc). tauto.
  - assert (wildcardModel ∉ child) as Hc' by (rewrite <- containsWildcard_elem, Hc; done).
    assert (model ∈ child -> child <> []) by (by intros H ->; apply elem_of_nil in H). tauto.
Qed.

Lemma AllowsModel_covers (t : Tier) (model : string) :
  AllowsModel t model = negb (covers (DeniedModels t) model) && covers (AllowedModels t) model.
Proof. unfold AllowsModel, covers. by destruct (existsb _ (DeniedModels t)). Qed.

Lemma AllowsModel_layer (t : Tier) (o : LimitOverride) (model : string) :
  AllowsModel (merge_layer t o) model = AllowsModel t model && layer_admits model o.
Proof.
  rewrite !AllowsModel_covers. unfold layer_admits. cbn [merge_layer DeniedModels AllowedModels].
  assert (covers (DeniedModels t ++ oDeniedModels o) model
    = covers (DeniedModels t) model || covers (oDeniedModels o) model) as -> by apply existsb_app.
  destruct (oAllowedModels o) as [allowed|]; [rewrite covers_intersect|];
    destruct (covers (DeniedModels t) model), (covers (oDeniedModels o) model), (covers (AllowedModels t) model);
    try done; by rewrite ?andb_false_r.
Qed.

Lemma nearest_snoc {A} (x : A) (layers : list (option A)) (y : option A) :
  nearest x (layers ++ [y]) = default (nearest x layers) y.
Proof.
  unfold nearest. rewrite omap_app. destruct y as [y|]; cbn; [by rewrite last_snoc|by rewrite app_nil_r].
Qed.

(** The merged policy.  Whatever the layers, the merged tier admits a
    model exactly when the tier and every single layer admit it - no layer
    can widen what another narrowed, and the wildcard in an allow list adds
    nothing - while every scalar and every per-model quota is the nearest
    layer's that sets it, the tier's own when none does. *)
Theorem merged_policy (t : Tier) (os : list LimitOverride) :
  (forall model, AllowsModel (MergeTier t os) model = AllowsModel t model && forallb (layer_admits model) os) /\
  RPM (MergeTier t os) = nearest (RPM t) (map oRPM os) /\
  TPM (MergeTier t os) = nearest (TPM t) (map oTPM os) /\
  MaxTokens (MergeTier t os) = nearest (MaxTokens t) (map oMaxTokens os) /\
  MonthlyQuota (MergeTier t os) = nearest (MonthlyQuota t) (map oMonthlyQuota os) /\
  Concurrency (MergeTier t os) = nearest (Concurrency t) (map oConcurrency os) /\
  (forall model, ModelQuotas (MergeTier t os) !! model
     = nearest (ModelQuotas t !! model) (map (fun o => option_map Some (oModelQuotas o !! model)) os)) /\
  ID (MergeTier t os) = ID t.
Proof.
  unfold MergeTier. induction os as [|o os IH] using rev_ind.
  { split_and!; try done. intros model. by rewrite andb_true_r. }
  destruct IH as (IHa & IH1 & IH2 & IH3 & IH4 & IH5 & IHq & IHi).
  rewrite foldl_snoc, !map_app. cbn [map]. rewrite !nearest_snoc. split_and!.
  - intros model. rewrite AllowsModel_layer, IHa, forallb_app. cbn [forallb]. by rewrite andb_true_r, andb_assoc.
  - cbn [merge_layer RPM]. by rewrite IH1.
  - cbn [merge_layer TPM]. by rewrite IH2.
  - cbn [merge_layer MaxTokens]. by rewrite IH3.
  - cbn [merge_layer MonthlyQuota]. by rewrite IH4.
  - cbn [merge_layer Concurrency]. by rewrite IH5.
  - intros model. rewrite map_app. cbn [map]. rewrite nearest_snoc, <- IHq. cbn [merge_layer ModelQuotas].
    rewrite lookup_union. by destruct (oModelQuotas o !! model), (ModelQuotas _ !! model).
  - by cbn [merge_layer ID].
Qed.

Example merge_example :
  let tier := mkTier "pro" 60 0 0 0 ["*"] ["o1"] ∅ 4 in
  let user := mkOverride (Some 30) None None None None (Some ["gpt"; "o1"; "*"]) [] ∅ in
  let key := mkOverride None None None None None (Some ["gpt"; "o1"]) ["mini"] {["gpt" := 100]} in
  let m := MergeTier tier [user; key] in
  (RPM m, AllowsModel m "gpt", AllowsModel m "o1", AllowsModel m "mini", AllowedModels m)
  = (30, true, false, false, ["gpt"; "o1"]).
Proof. by vm_compute. Qed.
End LimitsProps.

(** ** The configured identity set (static.go) *)
Module Static.
Import Limits.

Definition RoleUser : string := "user".
Definition RoleAdmin : string := "admin".

Record Tenant := mkTenant { tID : string; tName : string; tRole : string; KeyID : string; tTier : Tier }.

Definition ErrUnauthorized : string := "auth: unknown or revoked api key".

(** A static tier mirrors [Tier] field for field. *)
Record StaticTenant := mkStaticTenant {
  sID : string; sName : string; sTier : string; sRole : string; Overrides : LimitOverride; Keys : list string
}.
Record StaticConfig := mkConfig { Tiers : list Tier; Tenants : list StaticTenant }.

Inductive static_error :=
  | TierWithoutID | TenantWithoutID | InvalidTenantID (id : string) | UnknownTier (id tier : string)
  | UnknownRole (id role : string) | EmptyKey (id : string) | DuplicateKey (id : string).

(** The character class [[A-Za-z0-9._-]], one to 128 times. *)
Definition id_char (c : ascii) : bool :=
  let n := nat_of_ascii c in
  ((65 <=? n) && (n <=? 90) || (97 <=? n) && (n <=? 122) || (48 <=? n) && (n <=? 57)
   || (n =? 46) || (n =? 95) || (n =? 45))%nat.
Definition validTenantID (id : string) : bool :=
  let n := String.length id in
  (1 <=? n)%nat && (n <=? 128)%nat && forallb id_char (String.list_ascii_of_string id).

Section static.
Variable hashKey : string -> string -> string.

Record Static := mkStatic { keyPepper : string; byKey : gmap string Tenant }.

Fixpoint load_tiers (ts : list Tier) (tiers : gmap string Tier) : static_error + gmap string Tier :=
  match ts with
  | [] => inr tiers
  | t :: ts => if String.eqb (ID t) "" then inl TierWithoutID else load_tiers ts (<[ID t := t]> tiers)
  end.

Definition set_tier_id (id : string) (t : Tier) : Tier :=
  mkTier id (RPM t) (TPM t) (MaxTokens t) (MonthlyQuota t) (AllowedModels t) (DeniedModels t) (ModelQuotas t)
    (Concurrency t).

(** The identity every key of [tn] resolves to. *)
Definition identity (tier : Tier) (tn : StaticTenant) : Tenant :=
  mkTenant (sID tn) (sName tn) (if String.eqb (sRole tn) "" then RoleUser else sRole tn) ""
    (set_tier_id (ID tier) (MergeTier tier [Overrides tn])).

Fixpoint load_keys (pepper : string) (tenant : Tenant) (keys : list string) (byKey : gmap string Tenant)
  : static_error + gmap string Tenant :=
  match keys with
  | [] => inr byKey
  | raw :: keys =>
      if String.eqb raw "" then inl (EmptyKey (tID tenant))
      else
        let hash := hashKey pepper raw in
        match byKey !! hash with
        | Some _ => inl (DuplicateKey (tID tenant))
        | None => load_keys pepper tenant keys (<[hash := tenant]> byKey)
        end
  end.

Definition load_tenant (pepper : string) (tiers : gmap string Tier) (tn : StaticTenant)
    (byKey : gmap string Tenant) : static_error + gmap string Tenant :=
  if String.eqb (sID tn) "" then inl TenantWithoutID
  else if negb (validTenantID (sID tn)) then inl (InvalidTenantID (sID tn))
  else match tiers !! sTier tn with
  | None => inl (UnknownTier (sID tn) (sTier tn))
  | Some tier =>
      let role := if String.eqb (sRole tn) "" then RoleUser else sRole tn in
      if negb (String.eqb role RoleUser) && negb (String.eqb role RoleAdmin)
      then inl (UnknownRole (sID tn) role)
      else load_keys pepper (identity tier tn) (Keys tn) byKey
  end.

Fixpoint load_tenants (pepper : string) (tiers : gmap string Tier) (tns : list StaticTenant)
    (byKey : gmap string Tenant) : static_error + gmap string Tenant :=
  match tns with
  | [] => inr byKey
  | tn :: tns =>
      match load_tenant pepper tiers tn byKey with
      | inl e => inl e
      | inr byKey => load_tenants pepper tiers tns byKey
      end
  end.

Definition NewStatic (cfg : StaticConfig) (pepper : string) : static_error + Static :=
  match load_tiers (Tiers cfg) ∅ with
  | inl e => inl e
  | inr tiers =>
      match load_tenants pepper tiers (Tenants cfg) ∅ with
      | inl e => inl e
      | inr byKey => inr (mkStatic pepper byKey)
      end
  end.

Definition Resolve (s : Static) (apiKey : string) : string + Tenant :=
  match byKey s !! hashKey (keyPepper s) apiKey with
  | None => inl ErrUnauthorized
  | Some tenant => inr tenant
  end.
End static.
End Static.

Module StaticSpec.
Import Limits Static.

(** The tier an id names: the last entry with that id. *)
Definition tier_named (ts : list Tier) (id : string) : option Tier :=
  last (base.filter (fun t => ID t = id) ts).

Definition known_role (role : string) : Prop := role = "" \/ role = RoleUser \/ role = RoleAdmin.

Record tenant_ok (ts : list Tier) (tn : StaticTenant) : Prop := {
  ok_id : validTenantID (sID tn) = true;
  ok_tier : is_Some (tier_named ts (sTier tn));
  ok_role : known_role (sRole tn);
  ok_keys : Forall (fun raw => raw <> "") (Keys tn)
}.

(** The keys of the whole set with the tenant each belongs to. *)
Definition owned (tns : list StaticTenant) : list (string * StaticTenant) :=
  flat_map (fun tn => map (fun raw => (raw, tn)) (Keys tn)) tns.

Definition config_ok (hashKey : string -> string -> string) (cfg : StaticConfig) (pepper : string) : Prop :=
  Forall (fun t => ID t <> "") (Tiers cfg) /\ Forall (tenant_ok (Tiers cfg)) (Tenants cfg) /\
  NoDup (map (fun o => hashKey pepper o.1) (owned (Tenants cfg))).
End StaticSpec.

Module StaticProps.
Import Limits Static StaticSpec.

Section props.
Variable hashKey : string -> string -> string.
Variable pepper : string.
Abbreviation load_keys := (load_keys hashKey pepper).
Abbreviation load_tenants := (load_tenants hashKey pepper).

Lemma load_tiers_spec (ts : list Tier) : forall pre tiers,
  (forall id, tiers !! id = tier_named pre id) ->
  match load_tiers ts tiers with
  | inr tiers' => Forall (fun t => ID t <> "") ts /\ forall id, tiers' !! id = tier_named (pre ++ ts) id
  | inl _ => ~ Forall (fun t => ID t <> "") ts
  end.
Proof.
  induction ts as [|t ts IH]; intros pre tiers Ht; cbn [load_tiers]; [by rewrite app_nil_r|].
  destruct (String.eqb_spec (ID t) ""); [by intros [? _]%Forall_cons|].
  specialize (IH (pre ++ [t]) (<[ID t := t]> tiers)).
  destruct (load_tiers ts _) as [e|tiers'].
  - rewrite Forall_cons. intros [_ Hts]. apply IH; [|done]. clear IH Hts. intros id.
    unfold tier_named. rewrite filter_app, filter_cons, filter_nil. destruct (decide (ID t = id)) as [<-|Hne].
    + by rewrite last_snoc, lookup_insert_eq.
    + rewrite app_nil_r, lookup_insert_ne by done. apply Ht.
  - rewrite <- app_assoc in IH. rewrite Forall_cons. destruct IH as [H1 H2]; [|done].
    intros id. unfold tier_named. rewrite filter_app, filter_cons, filter_nil.
    destruct (decide (ID t = id)) as [<-|Hne].
    + by rewrite last_snoc, lookup_insert_eq.
    + rewrite app_nil_r, lookup_insert_ne by done. apply Ht.
Qed.

(** Digests no key of the table has yet, each once. *)
Definition fresh (acc : gmap string Tenant) (hs : list string) : Prop :=
  NoDup hs /\ forall h, h ∈ hs -> acc !! h = None.

Lemma load_keys_spec (tenant : Tenant) (keys : list string) : forall acc,
  match load_keys tenant keys acc with
  | inr m => Forall (fun raw => raw <> "") keys /\ fresh acc (map (hashKey pepper) keys) /\
      forall h, m !! h = if decide (h ∈ map (hashKey pepper) keys) then Some tenant else acc !! h
  | inl _ => ~ (Forall (fun raw => raw <> "") keys /\ fresh acc (map (hashKey pepper) keys))
  end.
Proof.
  induction keys as [|raw keys IH]; intros acc; cbn [Static.load_keys map].
  { split; [constructor|]. split; [split; [constructor|set_solver]|]. intros h. by rewrite decide_False by set_solver. }
  destruct (String.eqb_spec raw ""); [by intros [[? _]%Forall_cons _]|].
  destruct (acc !! hashKey pepper raw) as [t0|] eqn:Hacc.
  { intros [_ [_ Hf]]. specialize (Hf (hashKey pepper raw) ltac:(set_solver)). congruence. }
  specialize (IH (<[hashKey pepper raw := tenant]> acc)). set (hs := map (hashKey pepper) keys) in *.
  assert (fresh acc (hashKey pepper raw :: hs) <-> fresh (<[hashKey pepper raw := tenant]> acc) hs) as Hfresh.
  { unfold fresh. rewrite NoDup_cons. split.
    - intros [[Hni Hnd] Hf]. split; [done|]. intros h Hh. rewrite lookup_insert_ne by (intros <-; done).
      apply Hf. set_solver.
    - intros [Hnd Hf]. split_and!; [|done|].
      + intros Hi. specialize (Hf _ Hi). by rewrite lookup_insert_eq in Hf.
      + intros h [-> |Hh]%elem_of_cons; [done|]. specialize (Hf h Hh). by apply lookup_insert_None in Hf as [? _]. }
  destruct (load_keys tenant keys _) as [e|m]; rewrite Hfresh, Forall_cons; [tauto|].
  destruct IH as (H1 & H2 & Hm). split_and!; [done|done|done|]. intros h. rewrite Hm.
  destruct (decide (h ∈ hs)); [by rewrite decide_True by set_solver|].
  destruct (decide (h = hashKey pepper raw)) as [-> |Hne].
  - rewrite decide_True by set_solver. by rewrite lookup_insert_eq.
  - rewrite decide_False by set_solver. by rewrite lookup_insert_ne by congruence.
Qed.

(** The digest table a list of tenants should give. *)
Definition resolves (ts : list Tier) (tns : list StaticTenant) (acc m : gmap string Tenant) : Prop :=
  forall h tenant, m !! h = Some tenant <->
    acc !! h = Some tenant \/
    exists raw tn tier, (raw, tn) ∈ owned tns /\ hashKey pepper raw = h /\
      tier_named ts (sTier tn) = Some tier /\ tenant = identity tier tn.

Definition digests (tns : list StaticTenant) : list string := map (fun o => hashKey pepper o.1) (owned tns).

Lemma digests_cons (tn : StaticTenant) (tns : list StaticTenant) :
  digests (tn :: tns) = map (hashKey pepper) (Keys tn) ++ digests tns.
Proof. unfold digests, owned. cbn [flat_map]. by rewrite map_app, map_map. Qed.

Lemma load_tenant_spec (ts : list Tier) (tiers : gmap string Tier) (tn : StaticTenant) (acc : gmap string Tenant) :
  (forall id, tiers !! id = tier_named ts id) ->
  match load_tenant hashKey pepper tiers tn acc with
  | inr m => tenant_ok ts tn /\ fresh acc (map (hashKey pepper) (Keys tn)) /\
      exists tier, tier_named ts (sTier tn) = Some tier /\
      forall h, m !! h = if decide (h ∈ map (hashKey pepper) (Keys tn)) then Some (identity tier tn) else acc !! h
  | inl _ => ~ (tenant_ok ts tn /\ fresh acc (map (hashKey pepper) (Keys tn)))
  end.
Proof.
  intros Htiers. unfold load_tenant. destruct (String.eqb_spec (sID tn) "") as [He|_].
  { intros [[Hid _ _ _] _]. by rewrite He in Hid. }
  destruct (validTenantID (sID tn)) eqn:Hid; cbn [negb]; [|intros [[? _ _ _] _]; congruence].
  rewrite Htiers. destruct (tier_named ts (sTier tn)) as [tier|] eqn:Htier.
  2:{ intros [[_ Ht _ _] _]. rewrite Htier in Ht. by destruct Ht. }
  cbv zeta. set (role := if String.eqb (sRole tn) "" then RoleUser else sRole tn).
  assert (known_role (sRole tn) <-> negb (String.eqb role RoleUser) && negb (String.eqb role RoleAdmin) = false) as Hrole.
  { unfold known_role, role. destruct (String.eqb_spec (sRole tn) "") as [-> |He]; [by cbn; naive_solver|].
    destruct (String.eqb_spec (sRole tn) RoleUser), (String.eqb_spec (sRole tn) RoleAdmin); cbn; naive_solver. }
  destruct (negb _ && _) eqn:Hr; [intros [[_ _ H%Hrole _] _]; congruence|].
  pose proof (load_keys_spec (identity tier tn) (Keys tn) acc) as H.
  destruct (load_keys _ _ _) as [e|m]; [intros [[_ _ _ Hk] Hf]; by apply H|].
  destruct H as (Hk & Hf & Hm). split_and!; [|done|by exists tier].
  split; [done|by rewrite Htier|tauto|done].
Qed.

Lemma load_tenants_spec (ts : list Tier) (tiers : gmap string Tier) (tns : list StaticTenant) : forall acc,
  (forall id, tiers !! id = tier_named ts id) ->
  match load_tenants tiers tns acc with
  | inr m => Forall (tenant_ok ts) tns /\ fresh acc (digests tns) /\ resolves ts tns acc m
  | inl _ => ~ (Forall (tenant_ok ts) tns /\ fresh acc (digests tns))
  end.
Proof.
  intros acc Htiers. revert acc. induction tns as [|tn tns IH]; intros acc; cbn [Static.load_tenants].
  { split; [constructor|]. split; [by split; [constructor|set_solver]|]. intros h tenant.
    split; [by left|]. intros [?|(raw & tn & tier & H & _)]; [done|]. by apply elem_of_nil in H. }
  pose proof (load_tenant_spec ts tiers tn acc Htiers) as Ht. set (hs := map (hashKey pepper) (Keys tn)) in *.
  destruct (load_tenant hashKey pepper tiers tn acc) as [e|m1].
  { rewrite Forall_cons, digests_cons. intros [[Hok _] [Hnd Hf]]. apply Ht. split; [done|].
    apply NoDup_app in Hnd as (Hnd & _ & _). split; [done|]. intros h Hh. apply Hf. set_solver. }
  destruct Ht as (Hok & [Hnd Hf] & tier & Htier & Hm1).
  assert (fresh acc (hs ++ digests tns) <-> fresh m1 (digests tns)) as Hfresh.
  { unfold fresh. rewrite NoDup_app. split.
    - intros [(_ & Hdis & Hnd') Hf']. split; [done|]. intros h Hh. rewrite Hm1.
      rewrite decide_False by (intros Hi; by apply (Hdis h)). apply Hf'. set_solver.
    - intros [Hnd' Hf']. split_and!; [done| |done|].
      + intros h Hi Hh. specialize (Hf' h Hh). rewrite Hm1, decide_True in Hf' by done. done.
      + intros h [Hh|Hh]%elem_of_app; [by apply Hf|]. specialize (Hf' h Hh). rewrite Hm1 in Hf'.
        by destruct (decide (h ∈ hs)). }
  specialize (IH m1). destruct (load_tenants tiers tns m1) as [e|m].
  { rewrite Forall_cons, digests_cons. fold hs. rewrite Hfresh. tauto. }
  rewrite Forall_cons, digests_cons. fold hs. rewrite Hfresh. destruct IH as (H1 & H2 & Hm).
  split_and!; [done|done|done|]. intros h tenant. rewrite (Hm h tenant), Hm1. unfold owned. cbn [flat_map].
  setoid_rewrite elem_of_app. fold (owned tns). split.
  - intros [H|(raw & tn' & tr & ? & ? & ?)]; [|right; by exists raw, tn', tr; auto].
    destruct (decide (h ∈ hs)) as [Hh|_]; [|by left]. right. apply list_elem_of_fmap in Hh as (raw & -> & Hraw).
    exists raw, tn, tier. injection H as <-. split_and!; try done. left. apply list_elem_of_fmap. by exists raw.
  - intros [H|(raw & tn' & tr & [Hin|Hin] & Hh & Htr & ->)].
    + left. destruct (decide (h ∈ hs)) as [Hh|_]; [|done]. by rewrite (Hf h Hh) in H.
    + apply list_elem_of_fmap in Hin as (raw' & [= -> ->] & Hraw). left. rewrite decide_True.
      * congruence.
      * rewrite <- Hh. apply list_elem_of_fmap. by exists raw'.
    + right. by exists raw, tn', tr.
Qed.

(** The identity set is served as configured.  Building the store
    succeeds exactly when every tier has an id, every tenant has a valid id,
    an existing tier, a known role and no empty key, and no two keys share a
    digest; then a key resolves to the identity of the tenant that lists a
    key of that digest, with the tenant's overrides merged over the last
    tier of that name, and every other key is unauthorized. *)
Theorem static_served_as_configured (cfg : StaticConfig) :
  match NewStatic hashKey cfg pepper with
  | inl _ => ~ config_ok hashKey cfg pepper
  | inr s => config_ok hashKey cfg pepper /\
      forall apiKey tenant, Resolve hashKey s apiKey = inr tenant <->
        exists raw tn tier, (raw, tn) ∈ owned (Tenants cfg) /\ hashKey pepper raw = hashKey pepper apiKey /\
          tier_named (Tiers cfg) (sTier tn) = Some tier /\ tenant = identity tier tn
  end.
Proof.
  unfold NewStatic, config_ok. pose proof (load_tiers_spec (Tiers cfg) [] ∅ ltac:(done)) as Ht.
  destruct (load_tiers (Tiers cfg) ∅) as [e|tiers]; [tauto|]. destruct Ht as [Htiers Hnamed].
  pose proof (load_tenants_spec (Tiers cfg) tiers (Tenants cfg) ∅ Hnamed) as H.
  assert (fresh ∅ (digests (Tenants cfg)) <-> NoDup (digests (Tenants cfg))) as Hfresh by (unfold fresh; naive_solver).
  fold (digests (Tenants cfg)).
  destruct (load_tenants tiers (Tenants cfg) ∅) as [e|m]; rewrite Hfresh in H; [tauto|]. destruct H as (H1 & H2 & Hm).
  split; [tauto|]. intros apiKey tenant. unfold Resolve. cbn [byKey keyPepper].
  specialize (Hm (hashKey pepper apiKey) tenant). rewrite lookup_empty in Hm.
  destruct (m !! hashKey pepper apiKey) as [t|]; split.
  - intros [= <-]. destruct (proj1 Hm eq_refl); [done|naive_solver].
  - intros H. f_equal. enough (Some t = Some tenant) by congruence. apply Hm. by right.
  - done.
  - intros H. enough (None = Some tenant) by done. apply Hm. by right.
Qed.
End props.
End StaticProps.
