(* ===== verification/AuthCache.v ===== *)
(** * The identity cache (internal/auth/lru.go)

    [Cached] is the process-local LRU with TTL in front of a slower store:
    the lookup map points into a doubly linked list, list elements are
    addresses of a heap, a refreshed entry is overwritten in place.
    [Resolve] takes the lock twice, around the map and around the store of
    the inner answer: [lookup] and [settle] are the two critical sections,
    and a run is any sequence of them.  [CachedSpec] is the reference: a
    list of entries, most recently used first. *)
From stdpp Require Import base numbers sets gmap strings list.
From S2P Require Import Prelude Auth.
Import GoTime.
Local Open Scope Z_scope.

Module Cached.
Import Static.

(** The answers of a store: definitive ones are cached. *)
Inductive resolution := Found (tenant : Tenant) | Denied | Failed (err : string).

Record lruEntry := mkEntry { key : string; answer : resolution; expires : Z }.

Record CachedStore := mkCached {
  items : gmap string nat; order : list nat; elems : gmap nat lruEntry; next : nat;
  max : nat; posTTL : Z; negTTL : Z; indexKey : string
}.

Section cached.
Variable hashKey : string -> string -> string.

(** [WithCacheCapacity] is the optional [n]. *)
Definition NewCachedStore (indexKey : string) (posTTL negTTL : Z) (n : option Z) : CachedStore :=
  let max := match n with Some n => if 1 <=? n then Z.to_nat n else Z.to_nat 4096 | None => Z.to_nat 4096 end in
  mkCached ∅ [] ∅ 0 max posTTL negTTL indexKey.

Definition index (c : CachedStore) (apiKey : string) : string := hashKey (indexKey c) apiKey.

Definition set_order (order : list nat) (c : CachedStore) : CachedStore :=
  mkCached (items c) order (elems c) (next c) (max c) (posTTL c) (negTTL c) (indexKey c).
Definition set_items (items : gmap string nat) (c : CachedStore) : CachedStore :=
  mkCached items (order c) (elems c) (next c) (max c) (posTTL c) (negTTL c) (indexKey c).
Definition set_elem (e : nat) (entry : lruEntry) (c : CachedStore) : CachedStore :=
  mkCached (items c) (order c) (<[e := entry]> (elems c)) (next c) (max c) (posTTL c) (negTTL c) (indexKey c).

Definition remove (e : nat) (c : CachedStore) : CachedStore := set_order (base.filter (fun x => x <> e) (order c)) c.
Definition move_to_front (e : nat) (c : CachedStore) : CachedStore :=
  set_order (e :: base.filter (fun x => x <> e) (order c)) c.
Definition push_front (entry : lruEntry) (c : CachedStore) : CachedStore :=
  mkCached (<[key entry := next c]> (items c)) (next c :: order c) (<[next c := entry]> (elems c)) (S (next c))
    (max c) (posTTL c) (negTTL c) (indexKey c).

Definition lookup (now : Z) (apiKey : string) (c : CachedStore) : option resolution * CachedStore :=
  let k := index c apiKey in
  match items c !! k with
  | None => (None, c)
  | Some e =>
      match elems c !! e with
      | None => (None, c)
      | Some entry =>
          if after now (expires entry) then (None, set_items (delete k (items c)) (remove e c))
          else (Some (answer entry), move_to_front e c)
      end
  end.

(** The eviction loop: at most one turn per element. *)
Fixpoint evict (fuel : nat) (c : CachedStore) : CachedStore :=
  match fuel with
  | O => c
  | S fuel =>
      if (max c <? length (order c))%nat then
        match last (order c) with
        | None => c
        | Some tail =>
            let c' := remove tail c in
            evict fuel (match elems c !! tail with
                        | Some entry => set_items (delete (key entry) (items c')) c'
                        | None => c' end)
        end
      else c
  end.

Definition store (apiKey : string) (a : resolution) (exp : Z) (c : CachedStore) : CachedStore :=
  let k := index c apiKey in
  let entry := mkEntry k a exp in
  match items c !! k with
  | Some e =>
      match elems c !! e with
      | Some cached => move_to_front e (set_elem e (mkEntry (key cached) a exp) c)
      | None => c
      end
  | None => let c := push_front entry c in evict (length (order c)) c
  end.

(** The second critical section of [Resolve], the inner store having said [a]. *)
Definition settle (now : Z) (apiKey : string) (a : resolution) (c : CachedStore) : CachedStore :=
  match a with
  | Found _ => store apiKey a (add now (posTTL c)) c
  | Denied => store apiKey Denied (add now (negTTL c)) c
  | Failed _ => c
  end.

Definition Resolve (now1 now2 : Z) (apiKey : string) (inner : resolution) (c : CachedStore)
  : resolution * CachedStore :=
  match lookup now1 apiKey c with
  | (Some a, c) => (a, c)
  | (None, c) => (inner, settle now2 apiKey inner c)
  end.

(** Concurrent resolutions interleave their critical sections. *)
Inductive op := Lookup (now : Z) (apiKey : string) | Settle (now : Z) (apiKey : string) (a : resolution).

Definition step (o : op) (c : CachedStore) : option resolution * CachedStore :=
  match o with
  | Lookup now apiKey => lookup now apiKey c
  | Settle now apiKey a => (None, settle now apiKey a c)
  end.

Fixpoint run (os : list op) (c : CachedStore) : list (option resolution) * CachedStore :=
  match os with
  | [] => ([], c)
  | o :: os => let (r, c) := step o c in let (rs, c) := run os c in (r :: rs, c)
  end.
End cached.
End Cached.

(** The cache a reader has in mind: a list of entries, most recent first. *)
Module CachedSpec.
Import Static Cached.

Definition drop_key (k : string) (l : list lruEntry) : list lruEntry := base.filter (fun e => key e <> k) l.
Definition entry_of (k : string) (l : list lruEntry) : option lruEntry := head (base.filter (fun e => key e = k) l).

Definition spec_lookup (now : Z) (k : string) (l : list lruEntry) : option resolution * list lruEntry :=
  match entry_of k l with
  | None => (None, l)
  | Some entry =>
      if after now (expires entry) then (None, drop_key k l) else (Some (answer entry), entry :: drop_key k l)
  end.

Definition spec_store (cap : nat) (entry : lruEntry) (l : list lruEntry) : list lruEntry :=
  take cap (entry :: drop_key (key entry) l).

(** A definitive answer and how long it may be served. *)
Definition lifetime (posTTL negTTL : Z) (a : resolution) : option Z :=
  match a with Found _ => Some posTTL | Denied => Some negTTL | Failed _ => None end.

Section spec.
Variable digest : string -> string.
Variables (cap : nat) (posTTL negTTL : Z).

Definition spec_step (o : op) (l : list lruEntry) : option resolution * list lruEntry :=
  match o with
  | Lookup now apiKey => spec_lookup now (digest apiKey) l
  | Settle now apiKey a =>
      (None, match lifetime posTTL negTTL a with
             | Some ttl => spec_store cap (mkEntry (digest apiKey) a (add now ttl)) l
             | None => l end)
  end.

Fixpoint spec_run (os : list op) (l : list lruEntry) : list (option resolution) * list lruEntry :=
  match os with
  | [] => ([], l)
  | o :: os => let (r, l) := spec_step o l in let (rs, l) := spec_run os l in (r :: rs, l)
  end.

(** The last definitive answer settled for a digest, and its expiry. *)
Definition settled_for (k : string) (o : op) : option (resolution * Z) :=
  match o with
  | Lookup _ _ => None
  | Settle now apiKey a =>
      if decide (digest apiKey = k) then (fun ttl => (a, add now ttl)) <$> lifetime posTTL negTTL a else None
  end.
Definition last_settled (k : string) (os : list op) : option (resolution * Z) := last (omap (settled_for k) os).
End spec.
End CachedSpec.

Module CachedFacts.
Import Static Cached CachedSpec.

Lemma omap_filter {A B} (f : A -> option B) (P : A -> Prop) `{!forall x, Decision (P x)}
    (Q : B -> Prop) `{!forall x, Decision (Q x)} (l : list A) :
  (forall x y, x ∈ l -> f x = Some y -> P x <-> Q y) ->
  omap f (base.filter P l) = base.filter Q (omap f l).
Proof.
  induction l as [|x l IH]; intros HPQ; [done|]. cbn [omap list_omap]. rewrite filter_cons.
  assert (omap f (base.filter P l) = base.filter Q (omap f l)) as IH'
    by (apply IH; intros ?? ?; apply HPQ; set_solver).
  specialize (HPQ x). destruct (f x) as [y|] eqn:Hf.
  - rewrite filter_cons. specialize (HPQ y ltac:(set_solver) eq_refl).
    destruct (decide (P x)), (decide (Q y)); cbn; rewrite ?Hf; f_equal; try done; tauto.
  - destruct (decide (P x)); cbn; by rewrite ?Hf.
Qed.

Section facts.
Variable hashKey : string -> string -> string.
Implicit Types c : CachedStore.

(** The structure invariant: the map and the list hold the same elements. *)
Record linked (c : CachedStore) : Prop := {
  l_nodup : NoDup (order c);
  l_item : forall k e, items c !! k = Some e <->
    e ∈ order c /\ exists entry, elems c !! e = Some entry /\ key entry = k;
  l_live : forall e, e ∈ order c -> is_Some (elems c !! e) /\ (e < next c)%nat
}.

Definition content c : list lruEntry := omap (fun e => elems c !! e) (order c).

Lemma length_content c : linked c -> length (content c) = length (order c).
Proof.
  intros [_ _ Hl]. unfold content. induction (order c) as [|e l IH]; [done|]. cbn [omap list_omap].
  destruct (Hl e ltac:(set_solver)) as [[entry ->] _]. cbn [length]. f_equal. apply IH.
  intros e' He'. apply Hl. set_solver.
Qed.

Lemma key_element c (k : string) (e e' : nat) (entry : lruEntry) :
  linked c -> items c !! k = Some e -> e' ∈ order c -> elems c !! e' = Some entry -> key entry = k <-> e' = e.
Proof.
  intros [_ Hi _] Hk He' Hent. split.
  - intros Hkey. assert (items c !! k = Some e') by (apply Hi; eauto). congruence.
  - intros ->. apply Hi in Hk as [_ (entry' & He & Hkey)]. congruence.
Qed.

Lemma content_remove c (k : string) (e : nat) :
  linked c -> items c !! k = Some e ->
  omap (fun x => elems c !! x) (base.filter (fun x => x <> e) (order c)) = drop_key k (content c).
Proof.
  intros Hl Hk. apply omap_filter. intros x entry Hx Hent.
  pose proof (key_element c k e x entry Hl Hk Hx Hent). tauto.
Qed.

Lemma entry_of_hit c (k : string) (e : nat) (entry : lruEntry) :
  linked c -> items c !! k = Some e -> elems c !! e = Some entry -> entry_of k (content c) = Some entry.
Proof.
  intros Hl Hk He. unfold entry_of, content.
  rewrite <- (omap_filter (fun e => elems c !! e) (fun x => x = e)).
  2:{ intros x y Hx Hy. pose proof (key_element c k e x y Hl Hk Hx Hy). tauto. }
  assert (e ∈ base.filter (fun x => x = e) (order c)) as Hin.
  { apply list_elem_of_filter. split; [done|]. by apply (l_item c Hl k e) in Hk as [? _]. }
  assert (forall x, x ∈ base.filter (fun x => x = e) (order c) -> x = e) as Hall
    by (intros x [Hx _]%list_elem_of_filter; done).
  destruct (base.filter (fun x => x = e) (order c)) as [|x l]; [by apply elem_of_nil in Hin|].
  rewrite (Hall x) by set_solver. cbn. by rewrite He.
Qed.

Lemma content_miss c (k : string) :
  linked c -> items c !! k = None -> forall entry, entry ∈ content c -> key entry <> k.
Proof.
  intros Hl Hk entry Hin Hkey. apply list_elem_of_omap in Hin as (e & He & Hent).
  assert (items c !! k = Some e) by (apply (l_item c Hl); eauto). congruence.
Qed.

Lemma drop_key_miss (k : string) (l : list lruEntry) :
  (forall entry, entry ∈ l -> key entry <> k) -> drop_key k l = l /\ entry_of k l = None.
Proof.
  intros H. unfold drop_key, entry_of. induction l as [|x l IH]; [done|]. rewrite !filter_cons.
  rewrite decide_True, decide_False by (try intros E; apply (H x); [set_solver|done]).
  destruct IH as [-> ->]; [|done]. intros entry He. apply H. set_solver.
Qed.

(** *** Preservation of the links *)
Lemma linked_remove c (k : string) (e : nat) :
  linked c -> items c !! k = Some e -> linked (set_items (delete k (items c)) (remove e c)).
Proof.
  intros Hl Hk. pose proof Hl as [Hn Hi Hv]. split; cbn [set_items remove set_order order items elems next].
  - by apply NoDup_filter.
  - intros k' e'. rewrite lookup_delete_Some, list_elem_of_filter, Hi. split.
    + intros (Hne & Hin & entry & He & <-). split_and!; [|done|by eauto]. intros ->.
      apply Hne. symmetry. by apply (key_element c k e e entry Hl Hk Hin He).
    + intros ((Hne & Hin) & entry & He & <-). split_and!; [|done|by eauto]. intros ->.
      by apply Hne, (key_element c _ e e' entry Hl Hk Hin He).
  - intros x [_ Hx]%list_elem_of_filter. by apply Hv.
Qed.

Lemma linked_move c (e : nat) : linked c -> e ∈ order c -> linked (move_to_front e c).
Proof.
  intros [Hn Hi Hv] He. split; cbn [move_to_front set_order order items elems next].
  - constructor; [|by apply NoDup_filter]. rewrite list_elem_of_filter. tauto.
  - intros k x. rewrite Hi, elem_of_cons, list_elem_of_filter. destruct (decide (x = e)); naive_solver.
  - intros x. rewrite elem_of_cons, list_elem_of_filter. intros [-> |[_ Hx]]; by apply Hv.
Qed.

Lemma linked_set_elem c (e : nat) (old new : lruEntry) :
  linked c -> elems c !! e = Some old -> key new = key old -> linked (set_elem e new c).
Proof.
  intros [Hn Hi Hv] Hold Hkey. split; cbn [set_elem order items elems next]; [done| |].
  - intros k x. rewrite Hi. apply and_iff_compat_l. destruct (decide (x = e)) as [-> |Hne].
    + rewrite lookup_insert_eq, Hold. naive_solver.
    + by rewrite lookup_insert_ne.
  - intros x Hx. split; [|by apply Hv]. destruct (decide (x = e)) as [-> |Hne];
      [by rewrite lookup_insert_eq|rewrite lookup_insert_ne by done; by apply Hv].
Qed.

Lemma linked_push c (entry : lruEntry) :
  linked c -> items c !! key entry = None -> linked (push_front entry c).
Proof.
  intros Hl Hk. pose proof Hl as [Hn Hi Hv].
  assert (next c ∉ order c) as Hfresh by (intros H; apply Hv in H as [_ H]; lia).
  split; cbn [push_front order items elems next].
  - by constructor.
  - intros k x. rewrite elem_of_cons. destruct (decide (x = next c)) as [-> |Hne].
    + rewrite lookup_insert_eq. destruct (decide (k = key entry)) as [-> |Hke].
      * rewrite lookup_insert_eq. naive_solver.
      * rewrite lookup_insert_ne by done. rewrite Hi. naive_solver.
    + rewrite (lookup_insert_ne (elems c)) by done. destruct (decide (k = key entry)) as [-> |Hke].
      * rewrite lookup_insert_eq. split; [naive_solver|]. intros ([?|Hx] & en & He & Hkey); [done|].
        assert (items c !! key entry = Some x) by (apply Hi; eauto). congruence.
      * rewrite lookup_insert_ne by done. rewrite Hi. naive_solver.
  - intros x [-> |Hx]%elem_of_cons; [rewrite lookup_insert_eq; split; [done|lia]|].
    destruct (Hv x Hx) as [Hs Hlt]. rewrite lookup_insert_ne by lia. split; [done|lia].
Qed.

(** *** Eviction *)
Definition same_config c c' : Prop :=
  max c' = max c /\ posTTL c' = posTTL c /\ negTTL c' = negTTL c /\ indexKey c' = indexKey c.

Lemma filter_snoc (l : list nat) (x : nat) :
  NoDup (l ++ [x]) -> base.filter (fun y => y <> x) (l ++ [x]) = l.
Proof.
  intros Hnd. apply NoDup_app in Hnd as (_ & Hx & _).
  rewrite filter_app, filter_cons, decide_False, filter_nil, app_nil_r by (by intros []).
  assert (x ∉ l) as Hni by (intros Hi; by apply (Hx x Hi), list_elem_of_singleton). clear Hx.
  induction l as [|y l IH]; [done|]. rewrite filter_cons, decide_True by (intros ->; set_solver).
  f_equal. apply IH. set_solver.
Qed.

Lemma evict_spec (fuel : nat) : forall c,
  linked c -> (length (order c) <= fuel + max c)%nat ->
  linked (evict fuel c) /\ content (evict fuel c) = take (max c) (content c) /\ same_config c (evict fuel c).
Proof.
  induction fuel as [|fuel IH]; intros c Hl Hlen; cbn [evict].
  { rewrite take_ge by (rewrite length_content by done; lia). by split_and!. }
  destruct (Nat.ltb_spec (max c) (length (order c))) as [Hgt|Hle].
  2:{ rewrite take_ge by (rewrite length_content by done; lia). by split_and!. }
  destruct (last (order c)) as [tail|] eqn:Hlast.
  2:{ apply last_None in Hlast. rewrite Hlast in Hgt. cbn in Hgt. lia. }
  apply last_Some in Hlast as [l Hord]. destruct (l_live c Hl tail) as [[entry He] _]; [rewrite Hord; set_solver|].
  cbv zeta. rewrite He. change (items (remove tail c)) with (items c).
  assert (items c !! key entry = Some tail) as Hk by (apply (l_item c Hl); split; [rewrite Hord; set_solver|eauto]).
  set (c2 := set_items (delete (key entry) (items c)) (remove tail c)).
  assert (order c2 = l) as Hc2.
  { cbn [c2 set_items remove set_order order]. rewrite Hord. apply filter_snoc. rewrite <- Hord. apply Hl. }
  assert (linked c2) as Hl2 by (by apply linked_remove).
  assert (content c = content c2 ++ [entry]) as Hcont.
  { unfold content. rewrite Hc2, Hord, omap_app. cbn. by rewrite He. }
  assert (length (content c2) = length l) as Hlen2 by (rewrite length_content by done; by rewrite Hc2).
  rewrite Hord, length_app in Hgt, Hlen. cbn [length] in Hgt, Hlen.
  destruct (IH c2 Hl2) as (H1 & H2 & H3); [rewrite Hc2; change (max c2) with (max c); lia|].
  split_and!; [done| |done]. rewrite H2, Hcont. change (max c2) with (max c). rewrite take_app_le by lia. done.
Qed.

(** *** Each operation refines its specification *)
Definition refines c (l : list lruEntry) : Prop :=
  linked c /\ content c = l /\ (length l <= max c)%nat /\ (1 <= max c)%nat.

Lemma lookup_refines c (l : list lruEntry) (now : Z) (apiKey : string) :
  refines c l ->
  let (r, c') := lookup hashKey now apiKey c in
  let (r', l') := spec_lookup now (index hashKey c apiKey) l in
  r = r' /\ refines c' l' /\ same_config c c'.
Proof.
  intros (Hl & <- & Hlen & Hmax). unfold lookup, spec_lookup. cbv zeta. set (k := index hashKey c apiKey).
  destruct (items c !! k) as [e|] eqn:Hk.
  2:{ destruct (drop_key_miss k (content c) (content_miss c k Hl Hk)) as [_ ->]. by split_and!. }
  destruct (proj1 (l_item c Hl k e) Hk) as (Hin & entry & He & Hkey). rewrite He.
  rewrite (entry_of_hit c k e entry Hl Hk He).
  pose proof (content_remove c k e Hl Hk) as Hrem.
  assert (length (drop_key k (content c)) <= length (content c))%nat as Hdrop by apply length_filter.
  assert (length (drop_key k (content c)) < length (content c))%nat as Hlt.
  { unfold drop_key. apply length_filter_lt with entry; [|by intros []].
    apply list_elem_of_omap. by exists e. }
  unfold refines. destruct (after now (expires entry)).
  - split_and!; try done; [by apply linked_remove|cbn; lia].
  - split_and!; try done; [by apply linked_move| |cbn; lia].
    unfold content. cbn [move_to_front set_order order elems omap list_omap]. by rewrite He, Hrem.
Qed.

Lemma omap_agree {A B} (f g : A -> option B) (l : list A) :
  (forall x, x ∈ l -> f x = g x) -> omap f l = omap g l.
Proof.
  induction l as [|x l IH]; intros Hfg; [done|]. cbn [omap list_omap].
  rewrite (Hfg x) by set_solver. rewrite IH; [done|]. intros y Hy. apply Hfg. set_solver.
Qed.

Lemma stored_entry_refines c (l : list lruEntry) (apiKey : string) (a : resolution) (exp : Z) :
  refines c l ->
  refines (store hashKey apiKey a exp c) (spec_store (max c) (mkEntry (index hashKey c apiKey) a exp) l) /\
  same_config c (store hashKey apiKey a exp c).
Proof.
  intros (Hl & <- & Hlen & Hmax). unfold store, spec_store. cbv zeta. set (k := index hashKey c apiKey). cbn [key].
  destruct (items c !! k) as [e|] eqn:Hk.
  - destruct (proj1 (l_item c Hl k e) Hk) as (Hin & old & He & Hkey). rewrite He, Hkey.
    set (entry := mkEntry k a exp). pose proof (content_remove c k e Hl Hk) as Hrem.
    assert (length (drop_key k (content c)) < length (content c))%nat as Hlt.
    { unfold drop_key. apply length_filter_lt with old; [|by intros []]. apply list_elem_of_omap. by exists e. }
    rewrite take_ge by (cbn; lia). unfold refines. split_and!; try done; [|unfold content at 1|cbn; lia].
    + apply linked_move; [|done]. by apply (linked_set_elem c e old).
    + cbn [move_to_front set_order set_elem order elems omap list_omap]. rewrite lookup_insert_eq. f_equal.
      rewrite <- Hrem. apply omap_agree. intros x [Hx _]%list_elem_of_filter. by apply lookup_insert_ne.
  - destruct (drop_key_miss k (content c) (content_miss c k Hl Hk)) as [-> _]. set (entry := mkEntry k a exp).
    assert (linked (push_front entry c)) as Hp by (by apply linked_push).
    assert (content (push_front entry c) = entry :: content c) as Hc.
    { unfold content. cbn [push_front order elems omap list_omap]. rewrite lookup_insert_eq. f_equal.
      apply omap_agree. intros x Hx. apply (l_live c Hl) in Hx as [_ Hx]. apply lookup_insert_ne. lia. }
    destruct (evict_spec (length (order (push_front entry c))) (push_front entry c) Hp) as (H1 & H2 & H3); [lia|].
    split; [|exact H3]. destruct H3 as (M & _). unfold refines. rewrite M, H2, Hc.
    change (max (push_front entry c)) with (max c). split_and!; try done. rewrite length_take. lia.
Qed.

Lemma step_refines c (l : list lruEntry) (o : op) :
  refines c l ->
  let (r, c') := step hashKey o c in
  let (r', l') := spec_step (index hashKey c) (max c) (posTTL c) (negTTL c) o l in
  r = r' /\ refines c' l' /\ same_config c c'.
Proof.
  intros Hr. destruct o as [now apiKey|now apiKey a]; [by apply lookup_refines|]. cbn [step spec_step].
  split; [done|]. destruct a as [t| |e]; cbn [settle lifetime]; [by apply stored_entry_refines..|].
  split; [done|by split_and!].
Qed.

Lemma run_refines (os : list op) : forall c l,
  refines c l ->
  let (rs, c') := run hashKey os c in
  let (rs', l') := spec_run (index hashKey c) (max c) (posTTL c) (negTTL c) os l in
  rs = rs' /\ refines c' l' /\ same_config c c'.
Proof.
  induction os as [|o os IH]; intros c l Hr; cbn [run spec_run]; [by split_and!|].
  pose proof (step_refines c l o Hr) as Ho. destruct (step hashKey o c) as [r c1].
  destruct (spec_step _ _ _ _ o l) as [r1 l1]. destruct Ho as (-> & Hr1 & S1 & S2 & S3 & S4).
  specialize (IH c1 l1 Hr1). rewrite S1, S2, S3 in IH.
  assert (index hashKey c1 = index hashKey c) as E by (unfold index; by rewrite S4). rewrite E in IH.
  destruct (run hashKey os c1) as [rs c2]. destruct (spec_run _ _ _ _ os l1) as [rs' l2].
  destruct IH as (-> & Hr2 & T1 & T2 & T3 & T4). split_and!; try done; unfold same_config; split_and!; congruence.
Qed.

Lemma new_refines (indexKey : string) (posTTL negTTL : Z) (n : option Z) :
  refines (NewCachedStore indexKey posTTL negTTL n) [].
Proof.
  unfold refines, NewCachedStore, content. cbn [order elems max omap list_omap length]. split_and!; [|done|lia|].
  - split; [constructor|set_solver|set_solver].
  - destruct n as [n|]; [|by apply Nat2Z.inj_le]. destruct (Z.leb_spec 1 n); [lia|by apply Nat2Z.inj_le].
Qed.
End facts.
End CachedFacts.

Module CachedProps.
Import Static Cached CachedSpec CachedFacts.

Section props.
Variable hashKey : string -> string -> string.
Variables (indexKey : string) (posTTL negTTL : Z) (capacity : option Z).
Definition new : CachedStore := NewCachedStore indexKey posTTL negTTL capacity.
Definition reference (os : list op) : list (option resolution) * list lruEntry :=
  spec_run (hashKey indexKey) (max new) posTTL negTTL os [].

(** C40. The cache refines a bounded most-recently-used list.  Over any
    interleaving of resolutions, whatever the inner store answers, every
    lookup answers as the reference list does: a hit moves to the front, an
    expired entry is dropped, a definitive answer replaces the entry of its
    digest, and past the capacity the least recently used entries go.  The
    heap, the list and the map never disagree and never outgrow the
    capacity. *)
Theorem cached_store_refines (os : list op) :
  let (rs, c) := run hashKey os new in
  rs = (reference os).1 /\ content c = (reference os).2 /\
  (length (order c) <= max new)%nat /\
  (forall k e, items c !! k = Some e <->
     e ∈ order c /\ exists entry, elems c !! e = Some entry /\ key entry = k).
Proof.
  pose proof (run_refines hashKey os new [] (new_refines hashKey indexKey posTTL negTTL capacity)) as H.
  change (index hashKey new) with (hashKey indexKey) in H.
  change (Cached.posTTL new) with posTTL in H. change (Cached.negTTL new) with negTTL in H.
  fold (reference os) in H. destruct (run hashKey os new) as [rs c]. destruct (reference os) as [rs' l].
  destruct H as (-> & (Hl & Hc & Hlen & _) & Hm & _). split_and!; [done|done| |by apply Hl].
  rewrite <- (length_content c Hl), Hc, <- Hm. done.
Qed.

Lemma spec_run_snoc (os : list op) (o : op) :
  (reference (os ++ [o])).2 = (spec_step (hashKey indexKey) (max new) posTTL negTTL o (reference os).2).2.
Proof.
  unfold reference. generalize (@nil lruEntry) as l. induction os as [|o' os IH]; intros l; cbn [app spec_run].
  - cbn [snd]. by destruct (spec_step _ _ _ _ o l).
  - destruct (spec_step _ _ _ _ o' l) as [r l']. specialize (IH l').
    destruct (spec_run _ _ _ _ (os ++ [o]) l'), (spec_run _ _ _ _ os l'). exact IH.
Qed.

Lemma last_settled_snoc (k : string) (os : list op) (o : op) :
  last_settled (hashKey indexKey) posTTL negTTL k (os ++ [o])
  = match settled_for (hashKey indexKey) posTTL negTTL k o with
    | Some s => Some s | None => last_settled (hashKey indexKey) posTTL negTTL k os end.
Proof.
  unfold last_settled. rewrite omap_app. cbn [omap list_omap].
  destruct (settled_for _ _ _ k o); [by rewrite last_snoc|by rewrite app_nil_r].
Qed.

Lemma reference_settled (os : list op) (entry : lruEntry) :
  entry ∈ (reference os).2 ->
  last_settled (hashKey indexKey) posTTL negTTL (key entry) os = Some (answer entry, expires entry).
Proof.
  revert entry. induction os as [|o os IH] using rev_ind; intros entry; [by intros ?%elem_of_nil|].
  rewrite spec_run_snoc, last_settled_snoc. destruct o as [now apiKey|now apiKey a]; cbn [spec_step settled_for].
  - unfold spec_lookup. intros Hin. apply IH. destruct (entry_of _ _) as [en|] eqn:Hen; [|done].
    assert (en ∈ (reference os).2) as Hen'.
    { unfold entry_of in Hen. apply head_Some_elem_of in Hen. by apply list_elem_of_filter in Hen as [_ ?]. }
    destruct (after now _); cbn [snd] in Hin; [by apply list_elem_of_filter in Hin as [_ ?]|].
    apply elem_of_cons in Hin as [-> |Hin]; [done|]. by apply list_elem_of_filter in Hin as [_ ?].
  - destruct (lifetime posTTL negTTL a) as [ttl|] eqn:Ha; cbn [snd fmap option_fmap option_map].
    2:{ intros Hin. destruct (decide _); by apply IH. }
    unfold spec_store. intros Hin. apply elem_of_take in Hin as (i & Hi & _).
    apply list_elem_of_lookup_2, elem_of_cons in Hi as [-> |Hi].
    { cbn [key]. by rewrite decide_True by done. }
    apply list_elem_of_filter in Hi as [Hne Hin]. cbn [key] in Hne.
    rewrite decide_False by congruence. by apply IH.
Qed.

(** No answer outlives its time.  After any interleaving of
    resolutions, a hit returns the last definitive answer settled for a key
    of that digest - found or unauthorized, never a transient failure - and
    no later than its time to live after it was settled: once a revoked key
    is denied by the inner store and settled, it is denied. *)
Theorem cached_answers_expire (os : list op) (now : Z) (apiKey : string) :
  match (lookup hashKey now apiKey (run hashKey os new).2).1 with
  | Some a => exists t ttl, lifetime posTTL negTTL a = Some ttl /\ now <= add t ttl /\
      last_settled (hashKey indexKey) posTTL negTTL (hashKey indexKey apiKey) os = Some (a, add t ttl)
  | None => True
  end.
Proof.
  pose proof (run_refines hashKey os new [] (new_refines hashKey indexKey posTTL negTTL capacity)) as H.
  change (index hashKey new) with (hashKey indexKey) in H.
  change (Cached.posTTL new) with posTTL in H. change (Cached.negTTL new) with negTTL in H.
  fold (reference os) in H. destruct (run hashKey os new) as [rs c]. cbn [snd].
  pose proof (reference_settled os) as Hset. destruct (reference os) as [rs' l]. cbn [snd] in Hset.
  destruct H as (_ & Hr & _ & _ & _ & Hkey). pose proof (lookup_refines hashKey c l now apiKey Hr) as Hlk.
  destruct (lookup hashKey now apiKey c) as [r c']. unfold index in Hlk. rewrite Hkey in Hlk.
  change (Cached.indexKey new) with indexKey in Hlk. set (k := hashKey indexKey apiKey) in *.
  unfold spec_lookup in Hlk. destruct (entry_of k l) as [entry|] eqn:He; [|by destruct Hlk as [-> _]].
  unfold entry_of in He. apply head_Some_elem_of, list_elem_of_filter in He as [Hk Hin].
  destruct (after now (expires entry)) eqn:Hafter; destruct Hlk as [-> _]; [done|]. cbn [fst].
  specialize (Hset entry Hin). rewrite Hk in Hset. rewrite Hset. unfold after in Hafter. apply Z.ltb_ge in Hafter.
  apply last_Some in Hset as [os' Hos].
  assert ((answer entry, expires entry) ∈ omap (settled_for (hashKey indexKey) posTTL negTTL k) os) as Hs
    by (rewrite Hos; set_solver).
  apply list_elem_of_omap in Hs as (o & _ & Ho). destruct o as [|t apiKey' a]; [done|]. cbn in Ho.
  destruct (decide _); [|done]. destruct (lifetime posTTL negTTL a) as [ttl|] eqn:Ha; [|done].
  injection Ho as <- Hexp. exists t, ttl. by rewrite Hexp.
Qed.
End props.

Example lru_evicts :
  let hash := fun k raw => k +:+ raw in
  let c := new "s" 60 10 (Some 2) in
  (run hash [Settle 0 "a" Denied; Settle 1 "b" Denied; Lookup 2 "a"; Settle 3 "c" Denied;
             Lookup 4 "a"; Lookup 4 "b"; Lookup 12 "a"] c).1
  = [None; None; Some Denied; None; Some Denied; None; None].
Proof. by vm_compute. Qed.
End CachedProps.
