(* ===== verification/Affinity.v ===== *)
(** * Prompt-prefix affinity (internal/affinity/affinity.go)

    One prefix trie per model: the prompt is cut into fixed chunks, each
    hashed with FNV-1a, and every node holds the upstreams routed through
    its prefix.  Nodes are trees of finite maps; the walks of [match] and
    [record] mutate the nodes on their path, here they return the rebuilt
    tree.  A range over a Go map whose order does not matter is a map
    operation; the clock reading of a pick is an argument. *)
From Stdlib Require Import Ascii.
From stdpp Require Import base numbers sets gmap strings list.
From S2P Require Import Prelude.
Import GoInt GoTime MapSum.
Local Open Scope Z_scope.

Module Affinity.
Definition chunkSize : nat := 128.
Definition maxChunks : nat := 512.
Definition maxNodes : Z := 8192.
Definition maxModels : nat := 512.

(** *** The chunk chain *)

(** FNV-1a over 64 bits. *)
Definition fnv_byte (h : Z) (c : ascii) : Z := (Z.lxor h (Z.of_nat (nat_of_ascii c)) * 1099511628211) mod 2 ^ 64.
Definition fnv1a (bytes : list ascii) : Z := foldl fnv_byte 14695981039346656037 bytes.

Fixpoint chunk_loop (fuel : nat) (rest : list ascii) : list Z :=
  match fuel, rest with
  | O, _ | _, [] => []
  | S fuel, _ => fnv1a (take chunkSize rest) :: chunk_loop fuel (drop chunkSize rest)
  end.

(** The head of the prompt, in at most [maxChunks] chunks. *)
Definition chunkHashes (prompt : string) : list Z :=
  chunk_loop maxChunks (take (maxChunks * chunkSize) (String.list_ascii_of_string prompt)).

(** *** Tries *)
#[warnings="-register-all"]
Inductive node := Node (children_ : gmap Z node) (endpoints_ : gset string) (touched_ : Z).

Definition children (n : node) : gmap Z node := let 'Node cs _ _ := n in cs.
Definition endpoints (n : node) : gset string := let 'Node _ es _ := n in es.
Definition touched (n : node) : Z := let 'Node _ _ t := n in t.
Definition set_child (h : Z) (c n : node) : node := let 'Node cs es t := n in Node (<[h := c]> cs) es t.
Definition touch (now : Z) (n : node) : node := let 'Node cs es _ := n in Node cs es now.
Definition add_endpoint (id : string) (n : node) : node := let 'Node cs es t := n in Node cs ({[id]} ∪ es) t.
Definition leaf (now : Z) : node := Node ∅ ∅ now.

Record trie := mkTrie { root : node; nodes : Z }.

(** The position of each candidate; a repeated one has its last. *)
Fixpoint positions (i : nat) (ids : list string) (pos : gmap string nat) : gmap string nat :=
  match ids with [] => pos | id :: ids => positions (S i) ids (<[id := i]> pos) end.

(** The lowest position among a node's endpoints. *)
Definition hit_step (pos : gmap string nat) (id : string) (hit : option nat) : option nat :=
  match pos !! id, hit with
  | Some i, Some j => if (i <? j)%nat then Some i else hit
  | Some i, None => Some i
  | None, _ => hit
  end.
Definition hit_of (pos : gmap string nat) (es : gset string) : option nat := set_fold (hit_step pos) None es.

Fixpoint match_walk (pos : gmap string nat) (now : Z) (chunks : list Z) (best : option nat) (n : node)
  : option nat * node :=
  match chunks with
  | [] => (best, n)
  | h :: chunks =>
      match children n !! h with
      | None => (best, n)
      | Some child =>
          let child := touch now child in
          match hit_of pos (endpoints child) with
          | None => (best, set_child h child n)
          | Some i =>
              let (best, child) := match_walk pos now chunks (Some i) child in (best, set_child h child n)
          end
      end
  end.

Definition match_ (chunks : list Z) (ids : list string) (now : Z) (t : trie) : option nat * trie :=
  let (best, n) := match_walk (positions 0 ids ∅) now chunks None (root t) in (best, mkTrie n (nodes t)).

Fixpoint record_walk (id : string) (now : Z) (chunks : list Z) (count : Z) (n : node) : node * Z :=
  match chunks with
  | [] => (n, count)
  | h :: chunks =>
      match children n !! h with
      | None =>
          if maxNodes <=? count then (n, count)
          else
            let (child, count) := record_walk id now chunks (count + 1) (touch now (add_endpoint id (leaf now))) in
            (set_child h child n, count)
      | Some child =>
          let (child, count) := record_walk id now chunks count (touch now (add_endpoint id child)) in
          (set_child h child n, count)
      end
  end.

Definition record_ (chunks : list Z) (id : string) (now : Z) (t : trie) : trie :=
  let (n, count) := record_walk id now chunks (nodes t) (touch now (root t)) in mkTrie n count.

(** Pruning a node: what is left, how many nodes went, and whether the node
    itself is now an expired leaf. *)
Fixpoint prune (ttl now : Z) (n : node) : node * Z * bool :=
  let 'Node cs es t := n in
  let kept := omap (fun c => let '(c', _, dead) := prune ttl now c in if dead then None else Some c') cs in
  let gone := map_sum (fun _ c => let '(_, k, dead) := prune ttl now c in if dead then k + 1 else k) cs in
  (Node kept es t, gone, bool_decide (kept = ∅) && (ttl <? sub now t)).

(** *** The index *)
Record Index := mkIndex { models : gmap string trie; ttl : Z; sweptAt : Z }.

Definition NewIndex (ttl : Z) : option Index := if ttl <=? 0 then None else Some (mkIndex ∅ ttl 0).

Definition sweep_trie (ttl now : Z) (t : trie) : option trie :=
  let '(n, gone, _) := prune ttl now (root t) in
  if decide (children n = ∅) then None else Some (mkTrie n (nodes t - gone)).

Definition sweep (now : Z) (x : Index) : Index := mkIndex (omap (sweep_trie (ttl x) now) (models x)) (ttl x) now.

(** Matching and recording in one trie of the index. *)
Definition pick_trie (now : Z) (model : string) (chunks : list Z) (ids : list string) (t : trie) (x : Index)
  : Z * Index :=
  let (best, t) := match_ chunks ids now t in
  let chosen := default 0%nat best in
  let t := record_ chunks (default ""%string (ids !! chosen)) now t in
  (if (chosen =? 0)%nat then -1 else Z.of_nat chosen, mkIndex (<[model := t]> (models x)) (ttl x) (sweptAt x)).

(** The throttled sweep of [Pick]. *)
Definition swept (now : Z) (x : Index) : Index :=
  if is_zero (sweptAt x) || (Z.quot (ttl x) 2 <=? sub now (sweptAt x)) then sweep now x else x.

(** The part of [Pick] under the lock, [x] not nil and [ids] not empty. *)
Definition pick_locked (now : Z) (model : string) (chunks : list Z) (ids : list string) (x : Index) : Z * Index :=
  let x := swept now x in
  match models x !! model with
  | None =>
      if (maxModels <=? size (models x))%nat then (-1, x)
      else pick_trie now model chunks ids (mkTrie (leaf now) 0) x
  | Some t => pick_trie now model chunks ids t x
  end.

Definition Pick (now : Z) (model prompt : string) (ids : list string) (x : option Index) : Z * option Index :=
  match x, ids with
  | None, _ | _, [] => (-1, x)
  | Some x, _ => let (r, x) := pick_locked now model (chunkHashes prompt) ids x in (r, Some x)
  end.
End Affinity.

Module AffinitySpec.
Import Affinity.

(** The nodes of a tree below its root. *)
Fixpoint count (n : node) : Z := let 'Node cs _ _ := n in map_sum (fun _ c => 1 + count c) cs.

(** The hits along the chunk chain, from the first depth on. *)
Fixpoint hits_along (pos : gmap string nat) (chunks : list Z) (n : node) : list nat :=
  match chunks with
  | [] => []
  | h :: chunks =>
      match children n !! h with
      | None => []
      | Some c => match hit_of pos (endpoints c) with Some i => i :: hits_along pos chunks c | None => [] end
      end
  end.

(** The position the deepest hit promotes. *)
Definition verdict (hs : list nat) : Z :=
  let chosen := default 0%nat (last hs) in if (chosen =? 0)%nat then -1 else Z.of_nat chosen.

(** An upstream known at a node is known at every node above it. *)
Inductive coherent : node -> Prop :=
  | Coherent n : (forall h c, children n !! h = Some c -> endpoints c ⊆ endpoints n) ->
      (forall h c, children n !! h = Some c -> coherent c) -> coherent n.

Record trie_ok (t : trie) : Prop := {
  to_count : nodes t = count (root t);
  to_bound : nodes t <= maxNodes;
  to_coherent : forall h c, children (root t) !! h = Some c -> coherent c
}.

Record index_ok (x : Index) : Prop := {
  io_ttl : 0 < ttl x;
  io_models : (size (models x) <= maxModels)%nat;
  io_tries : map_Forall (fun _ t => trie_ok t) (models x)
}.

Definition opt_ok (x : option Index) : Prop := match x with Some x => index_ok x | None => True end.

(** A sequence of picks. *)
Record pick := mkPick { p_now : Z; p_model : string; p_prompt : string; p_ids : list string }.
Definition do_pick (p : pick) (x : option Index) : option Index :=
  (Pick (p_now p) (p_model p) (p_prompt p) (p_ids p) x).2.
Definition picks (ps : list pick) (x : option Index) : option Index := foldl (fun x p => do_pick p x) x ps.
End AffinitySpec.

Module AffinityFacts.
Import Affinity AffinitySpec.

(** *** Induction on tries *)
Fixpoint weight (n : node) : nat := let 'Node cs _ _ := n in map_fold (fun _ c acc => S (weight c) + acc)%nat 0%nat cs.

Lemma weight_child (n : node) (h : Z) (c : node) : children n !! h = Some c -> (weight c < weight n)%nat.
Proof.
  destruct n as [cs es t]. cbn [children weight]. intros Hc.
  rewrite (map_fold_delete_L _ _ h c cs); [lia|intros; lia|done].
Qed.

Lemma node_children_ind (P : node -> Prop) :
  (forall n, (forall h c, children n !! h = Some c -> P c) -> P n) -> forall n, P n.
Proof.
  intros Hstep n. remember (weight n) as w eqn:Hw. revert n Hw.
  induction w as [w IH] using lt_wf_ind. intros n ->. apply Hstep. intros h c Hc.
  apply (IH (weight c)); [by eapply weight_child|done].
Qed.

(** *** Counting *)
Lemma count_children (n : node) : count n = map_sum (fun _ c => 1 + count c) (children n).
Proof. by destruct n. Qed.

Lemma count_nonneg (n : node) : 0 <= count n.
Proof.
  induction n as [n IH] using node_children_ind. rewrite count_children. apply map_sum_nonneg.
  intros h c Hc. specialize (IH h c Hc). lia.
Qed.

Lemma children_set_child (h : Z) (c n : node) : children (set_child h c n) = <[h := c]> (children n).
Proof. by destruct n. Qed.
Lemma endpoints_set_child (h : Z) (c n : node) : endpoints (set_child h c n) = endpoints n.
Proof. by destruct n. Qed.
Lemma touched_set_child (h : Z) (c n : node) : touched (set_child h c n) = touched n.
Proof. by destruct n. Qed.
Lemma children_touch (now : Z) (n : node) : children (touch now n) = children n.
Proof. by destruct n. Qed.
Lemma endpoints_touch (now : Z) (n : node) : endpoints (touch now n) = endpoints n.
Proof. by destruct n. Qed.
Lemma touched_touch (now : Z) (n : node) : touched (touch now n) = now.
Proof. by destruct n. Qed.
Lemma children_add (id : string) (n : node) : children (add_endpoint id n) = children n.
Proof. by destruct n. Qed.
Lemma endpoints_add (id : string) (n : node) : endpoints (add_endpoint id n) = {[id]} ∪ endpoints n.
Proof. by destruct n. Qed.
Create Rewrite HintDb node.
#[export] Hint Rewrite children_set_child endpoints_set_child touched_set_child children_touch endpoints_touch
  touched_touch children_add endpoints_add : node.
Ltac node := autorewrite with node.
Tactic Notation "node" "in" hyp(H) := autorewrite with node in H.

Lemma count_set_child (h : Z) (c n : node) :
  count (set_child h c n) = 1 + count c + count n - from_option (fun c => 1 + count c) 0 (children n !! h).
Proof. rewrite !count_children. node. by rewrite map_sum_insert, <- !count_children. Qed.

Lemma count_same_children (n n' : node) : children n = children n' -> count n = count n'.
Proof. rewrite !count_children. by intros ->. Qed.

Lemma match_count (pos : gmap string nat) (now : Z) (chunks : list Z) : forall best n,
  count (match_walk pos now chunks best n).2 = count n.
Proof.
  induction chunks as [|h chunks IH]; intros best n; cbn [match_walk]; [done|].
  destruct (children n !! h) as [c|] eqn:Hc; [|done]. cbv zeta.
  assert (count (touch now c) = count c) as Ht by (apply count_same_children; by node).
  destruct (hit_of pos _) as [i|].
  - specialize (IH (Some i) (touch now c)). destruct (match_walk pos now chunks _ _) as [b c']. cbn [snd] in *.
    rewrite count_set_child, Hc. cbn [from_option]. lia.
  - cbn [snd]. rewrite count_set_child, Hc. cbn [from_option]. lia.
Qed.

Lemma record_count (id : string) (now : Z) (chunks : list Z) : forall k n,
  k <= maxNodes ->
  let (n', k') := record_walk id now chunks k n in k' - k = count n' - count n /\ k <= k' <= maxNodes.
Proof.
  induction chunks as [|h chunks IH]; intros k n Hk; cbn [record_walk]; [lia|].
  destruct (children n !! h) as [c|] eqn:Hc.
  - specialize (IH k (touch now (add_endpoint id c)) Hk).
    assert (count (touch now (add_endpoint id c)) = count c) as Ht by (apply count_same_children; by node).
    destruct (record_walk _ _ _ _ _) as [c' k']. rewrite count_set_child, Hc. cbn [from_option]. lia.
  - destruct (Z.leb_spec maxNodes k); [lia|].
    specialize (IH (k + 1) (touch now (add_endpoint id (leaf now))) ltac:(lia)).
    assert (count (touch now (add_endpoint id (leaf now))) = 0) as Ht by (rewrite count_children; node; apply map_sum_empty).
    destruct (record_walk _ _ _ _ _) as [c' k']. rewrite count_set_child, Hc. cbn [from_option]. lia.
Qed.

Lemma prune_gone_nonneg (ttl now : Z) (n : node) : 0 <= (prune ttl now n).1.2.
Proof.
  induction n as [n IH] using node_children_ind. destruct n as [cs es t]. cbn [prune fst snd].
  apply map_sum_nonneg. intros h c Hc. specialize (IH h c Hc).
  destruct (prune ttl now c) as [[c' k] []]; cbn [fst snd] in IH; lia.
Qed.

Lemma prune_count (ttl now : Z) (n : node) :
  let '(n', gone, _) := prune ttl now n in gone = count n - count n'.
Proof.
  induction n as [n IH] using node_children_ind. destruct n as [cs es t]. cbn [prune]. cbn [children] in IH.
  rewrite !count_children. cbn [children]. rewrite map_sum_omap.
  apply Z.add_move_r. rewrite <- map_sum_add. apply map_sum_ext. intros h c Hc. specialize (IH h c Hc).
  destruct (prune ttl now c) as [[c' k] []] eqn:Hp; cbn [from_option]; [|lia].
  enough (count c' = 0) by lia. destruct c as [cs0 es0 t0]. cbn [prune] in Hp. injection Hp as <- _ Hdead.
  apply andb_true_iff in Hdead as [->%bool_decide_eq_true _]. rewrite count_children. apply map_sum_empty.
Qed.

(** *** Coherence *)
Definition below (n : node) : Prop := forall h c, children n !! h = Some c -> coherent c.

Lemma coherent_inv (n : node) :
  coherent n -> (forall h c, children n !! h = Some c -> endpoints c ⊆ endpoints n) /\ below n.
Proof. by intros [n' Hsub Hb]. Qed.

Lemma coherent_below (n : node) : coherent n -> below n.
Proof. by intros [_ Hb]%coherent_inv. Qed.

Lemma match_below (pos : gmap string nat) (now : Z) (chunks : list Z) : forall best n,
  below n -> let n' := (match_walk pos now chunks best n).2 in
  below n' /\ endpoints n' = endpoints n /\
  forall h c', children n' !! h = Some c' -> exists c, children n !! h = Some c /\ endpoints c' = endpoints c.
Proof.
  induction chunks as [|h chunks IH]; intros best n Hn; cbn [match_walk]; [by split_and!; eauto|].
  destruct (children n !! h) as [c|] eqn:Hc; [|by split_and!; eauto]. cbv zeta.
  assert (forall c', coherent c' -> endpoints c' = endpoints c -> let n' := set_child h c' n in
    below n' /\ endpoints n' = endpoints n /\
    forall h0 c0', children n' !! h0 = Some c0' -> exists c0, children n !! h0 = Some c0 /\ endpoints c0' = endpoints c0) as Hset.
  { intros c' Hco He. cbv zeta. unfold below. node. split_and!; [|done|].
    - intros h0 c0. rewrite lookup_insert_Some. intros [[_ <-]|[_ H]]; [done|by eapply Hn].
    - intros h0 c0. rewrite lookup_insert_Some. intros [[<- <-]|[_ H]]; eauto. }
  pose proof (Hn h c Hc) as Hco.
  assert (coherent (touch now c)) as Ht by (destruct Hco as [c H1 H2]; constructor; node; done).
  destruct (hit_of pos _) as [i|]; [|apply Hset; [done|by node]].
  specialize (IH (Some i) (touch now c) (coherent_below _ Ht)). destruct (match_walk pos now chunks _ _) as [b c'].
  cbn [snd] in *. destruct IH as (H1 & H2 & H3). node in H2. node in H3. apply Hset; [|done]. constructor; [|exact H1].
  intros h0 c0 Hc0. destruct (H3 h0 c0 Hc0) as (c1 & Hc1 & ->). rewrite H2. destruct Hco as [c Hsub _]. eauto.
Qed.

Lemma record_below (id : string) (now : Z) (chunks : list Z) : forall k n,
  below n -> let n' := (record_walk id now chunks k n).1 in
  below n' /\ endpoints n' = endpoints n /\
  forall h c', children n' !! h = Some c' ->
    endpoints c' ⊆ {[id]} ∪ from_option endpoints ∅ (children n !! h).
Proof.
  induction chunks as [|h chunks IH]; intros k n Hn; cbn [record_walk].
  { cbn [fst]. split_and!; [done|done|]. intros h c' ->. cbn. set_solver. }
  assert (forall c0 k0, below c0 -> (forall h' c', children c0 !! h' = Some c' -> endpoints c' ⊆ endpoints c0) ->
    id ∈ endpoints c0 -> endpoints c0 ⊆ {[id]} ∪ from_option endpoints ∅ (children n !! h) ->
    let n' := set_child h (record_walk id now chunks k0 c0).1 n in
    below n' /\ endpoints n' = endpoints n /\
    forall h0 c', children n' !! h0 = Some c' ->
      endpoints c' ⊆ {[id]} ∪ from_option endpoints ∅ (children n !! h0)) as Hset.
  { intros c0 k0 Hb Hmono Hid Hsub. cbv zeta. destruct (IH k0 c0 Hb) as (H1 & H2 & H3).
    set (c1 := (record_walk id now chunks k0 c0).1) in *. unfold below. node. split_and!; [|done|].
    - intros h0 c'. rewrite lookup_insert_Some. intros [[_ <-]|[_ H]]; [|by eapply Hn].
      constructor; [|exact H1]. intros h1 c2 Hc2. specialize (H3 h1 c2 Hc2). rewrite H2.
      destruct (children c0 !! h1) as [c3|] eqn:Hc3; cbn in H3; [specialize (Hmono h1 c3 Hc3)|]; set_solver.
    - intros h0 c'. rewrite lookup_insert_Some. intros [[<- <-]|[_ ->]]; [by rewrite H2|cbn; set_solver]. }
  destruct (children n !! h) as [c|] eqn:Hc.
  - specialize (Hset (touch now (add_endpoint id c)) k). destruct (record_walk _ _ _ _ _) as [c' k']. cbn [fst] in *.
    pose proof (coherent_inv c (Hn h c Hc)) as [Hsub Hb]. apply Hset; [intros h' c2; node; apply Hb| |node; set_solver|node; cbn; set_solver].
    node. intros h' c2 Hc2. specialize (Hsub h' c2 Hc2). set_solver.
  - destruct (Z.leb_spec maxNodes k) as [|_].
    { cbn [fst]. split_and!; [done|done|]. intros h0 c' ->. cbn. set_solver. }
    specialize (Hset (touch now (add_endpoint id (leaf now))) (k + 1)). destruct (record_walk _ _ _ _ _) as [c' k'].
    cbn [fst] in *. apply Hset; [intros h' c2; by node| |node; set_solver|node; cbn; set_solver].
    intros h' c2. by node.
Qed.

Lemma prune_endpoints (ttl now : Z) (n : node) :
  endpoints (prune ttl now n).1.1 = endpoints n /\ touched (prune ttl now n).1.1 = touched n.
Proof. by destruct n. Qed.

Lemma prune_children (ttl now : Z) (n : node) :
  children (prune ttl now n).1.1
  = omap (fun c => let '(c', _, dead) := prune ttl now c in if dead then None else Some c') (children n).
Proof. by destruct n. Qed.

Lemma prune_child (ttl now : Z) (n : node) (h : Z) :
  children (prune ttl now n).1.1 !! h
  = c ← children n !! h; if (prune ttl now c).2 then None else Some (prune ttl now c).1.1.
Proof.
  rewrite prune_children, lookup_omap. destruct (children n !! h) as [c|]; [|done]. cbn [mbind option_bind].
  by destruct (prune ttl now c) as [[c' k] dead].
Qed.

Lemma prune_coherent (ttl now : Z) (n : node) : coherent n -> coherent (prune ttl now n).1.1.
Proof.
  induction 1 as [n Hsub _ IH]. destruct (prune_endpoints ttl now n) as [He _].
  constructor; intros h c; rewrite prune_child; intros (c0 & Hc0 & Hp)%bind_Some;
    specialize (IH h c0 Hc0); specialize (Hsub h c0 Hc0); destruct (prune_endpoints ttl now c0) as [He0 _];
    destruct (prune ttl now c0).2; try discriminate Hp; injection Hp as <-; [by rewrite He, He0|exact IH].
Qed.

(** *** Hits *)
Definition lowest (pos : gmap string nat) (es : gset string) (r : option nat) : Prop :=
  match r with
  | Some i => (exists id, id ∈ es /\ pos !! id = Some i) /\
      forall id j, id ∈ es -> pos !! id = Some j -> (i <= j)%nat
  | None => forall id, id ∈ es -> pos !! id = None
  end.

Lemma hit_lowest (pos : gmap string nat) (es : gset string) : lowest pos es (hit_of pos es).
Proof.
  unfold hit_of. apply (set_fold_ind_L (fun r es => lowest pos es r)); [by intros id ?%not_elem_of_empty|].
  intros id es' r Hid Hr. unfold hit_step. destruct (pos !! id) as [i|] eqn:Hi.
  - destruct r as [j|].
    + destruct Hr as [(id' & Hid' & Hj) Hmin]. destruct (Nat.ltb_spec i j); cbn.
      * split; [exists id; set_solver|]. intros id1 j1 [->%elem_of_singleton|H1]%elem_of_union E1; [|].
        -- rewrite Hi in E1. injection E1 as <-. lia.
        -- specialize (Hmin id1 j1 H1 E1). lia.
      * split; [exists id'; set_solver|]. intros id1 j1 [->%elem_of_singleton|H1]%elem_of_union E1; [|eauto].
        rewrite Hi in E1. injection E1 as <-. lia.
    + split; [exists id; set_solver|]. intros id1 j1 [->%elem_of_singleton|H1]%elem_of_union E1.
      * rewrite Hi in E1. injection E1 as <-. lia.
      * by rewrite (Hr id1 H1) in E1.
  - destruct r as [j|]; cbn.
    + destruct Hr as [(id' & Hid' & Hj) Hmin]. split; [exists id'; set_solver|].
      intros id1 j1 [->%elem_of_singleton|H1]%elem_of_union E1; [congruence|eauto].
    + intros id1 [->%elem_of_singleton|H1]%elem_of_union; [done|by apply Hr].
Qed.

Lemma lowest_unique (pos : gmap string nat) (es : gset string) (r r' : option nat) :
  lowest pos es r -> lowest pos es r' -> r = r'.
Proof.
  destruct r as [i|], r' as [j|]; cbn.
  - intros [(id & Hid & Hi) Hmin] [(id' & Hid' & Hj) Hmin']. f_equal.
    specialize (Hmin id' j Hid' Hj). specialize (Hmin' id i Hid Hi). lia.
  - intros [(id & Hid & Hi) _] Hn. rewrite (Hn id Hid) in Hi. done.
  - intros Hn [(id & Hid & Hi) _]. rewrite (Hn id Hid) in Hi. done.
  - done.
Qed.

Lemma hit_add (pos : gmap string nat) (es : gset string) (id : string) (c : nat) :
  pos !! id = Some c ->
  hit_of pos ({[id]} ∪ es) = Some (match hit_of pos es with Some i => Nat.min i c | None => c end).
Proof.
  intros Hc. apply (lowest_unique pos ({[id]} ∪ es)); [apply hit_lowest|]. pose proof (hit_lowest pos es) as Hes.
  destruct (hit_of pos es) as [i|]; cbn in Hes |- *.
  - destruct Hes as [(id' & Hid' & Hi) Hmin]. split.
    + destruct (Nat.min_spec i c) as [[_ ->]|[_ ->]]; [exists id'|exists id]; set_solver.
    + intros id1 j [->%elem_of_singleton|H1]%elem_of_union E; [|specialize (Hmin id1 j H1 E); lia].
      rewrite Hc in E. injection E as <-. lia.
  - split; [exists id; set_solver|]. intros id1 j [->%elem_of_singleton|H1]%elem_of_union E.
    + rewrite Hc in E. injection E as <-. lia.
    + by rewrite (Hes id1 H1) in E.
Qed.

Lemma hit_none_sub (pos : gmap string nat) (es es' : gset string) :
  es' ⊆ es -> hit_of pos es = None -> hit_of pos es' = None.
Proof.
  intros Hsub Hes. pose proof (hit_lowest pos es) as H. rewrite Hes in H. cbn in H.
  apply (lowest_unique pos es'); [apply hit_lowest|]. intros id Hid. apply H. set_solver.
Qed.

Lemma match_result (pos : gmap string nat) (now : Z) (chunks : list Z) : forall best n,
  (match_walk pos now chunks best n).1
  = match last (hits_along pos chunks n) with Some i => Some i | None => best end.
Proof.
  induction chunks as [|h chunks IH]; intros best n; cbn [match_walk hits_along]; [done|].
  destruct (children n !! h) as [c|]; [|done]. cbv zeta. rewrite endpoints_touch.
  destruct (hit_of pos (endpoints c)) as [i|]; [|done]. specialize (IH (Some i) (touch now c)).
  assert (hits_along pos chunks (touch now c) = hits_along pos chunks c) as Ht
    by (destruct chunks; [done|cbn [hits_along]; by node]).
  rewrite Ht in IH. destruct (match_walk _ _ _ _ _) as [b c']. cbn [fst] in *. rewrite IH.
  by destruct (hits_along pos chunks c) as [|j l] using rev_ind; [|rewrite app_comm_cons, !last_snoc].
Qed.

(** Replacing a child by one that answers the same changes no hit. *)
Lemma hits_set_child (pos : gmap string nat) (h : Z) (c c' n : node) :
  children n !! h = Some c -> endpoints c' = endpoints c ->
  (forall cs, hits_along pos cs c' = hits_along pos cs c) ->
  forall cs, hits_along pos cs (set_child h c' n) = hits_along pos cs n.
Proof.
  intros Hc He Hh [|h0 cs]; [done|]. cbn [hits_along]. node. destruct (decide (h0 = h)) as [-> |Hne].
  - rewrite lookup_insert_eq, Hc, He. by rewrite Hh.
  - by rewrite lookup_insert_ne.
Qed.

Lemma match_hits (pos : gmap string nat) (now : Z) (chunks : list Z) : forall best n,
  let n' := (match_walk pos now chunks best n).2 in
  endpoints n' = endpoints n /\ forall pos' cs, hits_along pos' cs n' = hits_along pos' cs n.
Proof.
  induction chunks as [|h chunks IH]; intros best n; cbn [match_walk]; [done|].
  destruct (children n !! h) as [c|] eqn:Hc; [|done]. cbv zeta.
  assert (forall pos' cs, hits_along pos' cs (touch now c) = hits_along pos' cs c) as Ht
    by (intros pos' [|]; [done|cbn [hits_along]; by node]).
  destruct (hit_of pos _) as [i|].
  - specialize (IH (Some i) (touch now c)). destruct (match_walk _ _ _ _ _) as [b c']. cbn [snd] in *.
    destruct IH as [He Hh]. node in He. split; [by node|]. intros pos' cs.
    apply (hits_set_child pos' h c); [done|done|]. intros cs'. by rewrite Hh.
  - cbn [snd]. split; [by node|]. intros pos' cs. apply (hits_set_child pos' h c); [done|by node|apply Ht].
Qed.

(** Recording the matched upstream makes it the deepest hit, or leaves the
    chain without one. *)
Lemma record_hits (pos : gmap string nat) (id : string) (c : nat) (now : Z) (chunks : list Z) : forall k n,
  pos !! id = Some c -> below n ->
  (hits_along pos chunks n = [] \/ last (hits_along pos chunks n) = Some c) ->
  let hs := hits_along pos chunks (record_walk id now chunks k n).1 in
  (hs = [] \/ last hs = Some c) /\ (hs = [] -> hits_along pos chunks n = []).
Proof.
  intros k n Hpos. revert k n. induction chunks as [|h chunks IH]; intros k n Hn Hlast; [by split; [left|]|].
  cbn [record_walk]. cbn [hits_along] in Hlast.
  assert (forall c0 k0, below c0 -> (hits_along pos chunks c0 = [] \/ last (hits_along pos chunks c0) = Some c) ->
    hit_of pos (endpoints c0) = Some c \/ hits_along pos chunks c0 <> [] /\ is_Some (hit_of pos (endpoints c0)) ->
    exists hs, hits_along pos (h :: chunks) (set_child h (record_walk id now chunks k0 c0).1 n) = hs /\
      hs <> [] /\ last hs = Some c) as Hset.
  { intros c0 k0 Hb Hl Hhit. eexists. split; [done|]. cbn [hits_along]. node. rewrite lookup_insert_eq.
    destruct (record_below id now chunks k0 c0 Hb) as (_ & -> & _). destruct (IH k0 c0 Hb Hl) as [Hi Hne].
    set (hs := hits_along pos chunks (record_walk id now chunks k0 c0).1) in *.
    destruct Hhit as [-> |[Hne0 [i ->]]].
    - split; [done|]. destruct Hi as [-> |Hi]; [done|]. by rewrite last_cons, Hi.
    - split; [done|]. destruct Hi as [Hi|Hi]; [by apply Hne in Hi|]. by rewrite last_cons, Hi. }
  destruct (children n !! h) as [ch|] eqn:Hch; try rewrite Hch in Hlast.
  - specialize (Hset (touch now (add_endpoint id ch)) k). destruct (record_walk _ _ _ _ _) as [c' k']. cbn [fst] in *.
    pose proof (coherent_inv ch (Hn h ch Hch)) as [Hsub Hb]. node in Hset. rewrite (hit_add pos _ id c Hpos) in Hset.
    assert (hits_along pos chunks (touch now (add_endpoint id ch)) = hits_along pos chunks ch) as Ht
      by (destruct chunks; [done|cbn [hits_along]; by node]). rewrite Ht in Hset.
    assert (below (touch now (add_endpoint id ch))) as Hb' by (intros h' c2; node; apply Hb).
    destruct (hit_of pos (endpoints ch)) as [i|] eqn:Hhit.
    + destruct Hlast as [|Hlast]; [done|]. rewrite last_cons in Hlast.
      destruct (last (hits_along pos chunks ch)) as [j|] eqn:Hj.
      * injection Hlast as ->. destruct (Hset Hb') as (hs & -> & H1 & H2); [by right|right|by split; [right|]].
        split; [by intros E; rewrite E in Hj|done].
      * injection Hlast as ->. apply last_None in Hj.
        destruct (Hset Hb') as (hs & -> & H1 & H2); [by left|left; by rewrite Nat.min_id|by split; [right|]].
    + assert (hits_along pos chunks ch = []) as Hnil.
      { destruct chunks as [|h' chunks]; [done|]. cbn [hits_along]. destruct (children ch !! h') as [c2|] eqn:Hc2; [|done].
        by rewrite (hit_none_sub pos (endpoints ch) (endpoints c2) (Hsub h' c2 Hc2) Hhit). }
      destruct (Hset Hb') as (hs & -> & H1 & H2); [by left|by left|by split; [right|]].
  - destruct (Z.leb_spec maxNodes k) as [|_]; [cbn [fst hits_along]; rewrite Hch; by split; [left|]|].
    specialize (Hset (touch now (add_endpoint id (leaf now))) (k + 1)). destruct (record_walk _ _ _ _ _) as [c' k'].
    cbn [fst] in *. node in Hset. rewrite (hit_add pos _ id c Hpos) in Hset.
    assert (hits_along pos chunks (touch now (add_endpoint id (leaf now))) = []) as Ht
      by (destruct chunks; [done|cbn [hits_along]; node; done]).
    destruct Hset as (hs & -> & H1 & H2); [intros h' c2; by node|by left|left; done|by split; [right|]].
Qed.

(** *** Freshness of a chain *)
Fixpoint fresh_chain (lim : Z) (chunks : list Z) (n : node) : Prop :=
  match chunks with
  | [] => True
  | h :: chunks =>
      match children n !! h with
      | Some c => lim <= touched c /\ fresh_chain lim chunks c
      | None => True
      end
  end.

Lemma record_touched (id : string) (now : Z) (chunks : list Z) (k : Z) (n : node) :
  touched (record_walk id now chunks k n).1 = touched n.
Proof.
  destruct chunks as [|h chunks]; [done|]. cbn [record_walk].
  destruct (children n !! h); [|destruct (maxNodes <=? k); [done|]];
    destruct (record_walk _ _ _ _ _); cbn [fst]; by node.
Qed.

Lemma record_fresh (id : string) (now : Z) (chunks : list Z) : forall k n,
  fresh_chain now chunks (record_walk id now chunks k n).1.
Proof.
  induction chunks as [|h chunks IH]; intros k n; cbn [record_walk]; [done|].
  assert (forall c0 k0, touched c0 = now -> fresh_chain now (h :: chunks) (set_child h (record_walk id now chunks k0 c0).1 n)) as Hset.
  { intros c0 k0 Ht. cbn [fresh_chain]. node. rewrite lookup_insert_eq, record_touched, Ht. split; [lia|apply IH]. }
  destruct (children n !! h) as [c|] eqn:Hc.
  - specialize (Hset (touch now (add_endpoint id c)) k). destruct (record_walk _ _ _ _ _). apply Hset. by node.
  - destruct (maxNodes <=? k); [cbn [fst fresh_chain]; by rewrite Hc|].
    specialize (Hset (touch now (add_endpoint id (leaf now))) (k + 1)). destruct (record_walk _ _ _ _ _).
    apply Hset. by node.
Qed.

Lemma prune_alive (ttl now lim : Z) (c : node) :
  0 < ttl -> now - lim <= ttl -> lim <= touched c -> (prune ttl now c).2 = false.
Proof.
  intros Httl Hnow Hc. destruct c as [cs es t]. cbn [prune snd touched] in *.
  rewrite (proj2 (Z.ltb_ge ttl (sub now t))); [apply andb_false_r|]. unfold sub, min_int64. lia.
Qed.

Lemma prune_fresh (ttl now lim : Z) (pos : gmap string nat) (chunks : list Z) : forall n,
  0 < ttl -> now - lim <= ttl -> fresh_chain lim chunks n ->
  hits_along pos chunks (prune ttl now n).1.1 = hits_along pos chunks n /\
  fresh_chain lim chunks (prune ttl now n).1.1.
Proof.
  induction chunks as [|h chunks IH]; intros n Httl Hnow Hf; [done|]. cbn [hits_along fresh_chain] in *.
  rewrite prune_child. destruct (children n !! h) as [c|]; [|done]. cbn [mbind option_bind].
  destruct Hf as [Hc Hf]. rewrite (prune_alive ttl now lim c) by done.
  destruct (prune_endpoints ttl now c) as [-> ->]. destruct (IH c Httl Hnow Hf) as [-> H]. done.
Qed.

(** *** Positions *)
Lemma positions_notin (ids : list string) (id : string) : forall i pos,
  id ∉ ids -> positions i ids pos !! id = pos !! id.
Proof.
  induction ids as [|x ids IH]; intros i pos Hid; [done|]. cbn [positions].
  rewrite IH by set_solver. apply lookup_insert_ne. set_solver.
Qed.

Lemma positions_lookup (ids : list string) (id : string) (j : nat) : forall i pos,
  NoDup ids -> pos !! id = None -> positions i ids pos !! id = Some j <-> exists k, ids !! k = Some id /\ j = (i + k)%nat.
Proof.
  induction ids as [|x ids IH]; intros i pos Hnd Hpos; cbn [positions].
  { rewrite Hpos. split; [done|]. by intros (k & Hk & _). }
  apply NoDup_cons in Hnd as [Hx Hnd]. destruct (decide (x = id)) as [-> |Hne].
  - rewrite positions_notin, lookup_insert_eq by done. split.
    + intros [= <-]. exists 0%nat. by rewrite Nat.add_0_r.
    + intros ([|k] & Hk & ->); [by rewrite Nat.add_0_r|]. cbn in Hk. by apply list_elem_of_lookup_2 in Hk.
  - rewrite IH; [|done|by rewrite lookup_insert_ne]. split.
    + intros (k & Hk & ->). exists (S k). split; [done|lia].
    + intros ([|k] & Hk & ->); [by injection Hk|]. exists k. split; [done|lia].
Qed.

Lemma hits_positions (pos : gmap string nat) (chunks : list Z) : forall n i,
  i ∈ hits_along pos chunks n -> exists id, pos !! id = Some i.
Proof.
  induction chunks as [|h chunks IH]; intros n i; cbn [hits_along]; [by intros ?%elem_of_nil|].
  destruct (children n !! h) as [c|]; [|by intros ?%elem_of_nil].
  pose proof (hit_lowest pos (endpoints c)) as Hl. destruct (hit_of pos (endpoints c)) as [j|]; [|by intros ?%elem_of_nil].
  intros [-> |Hin]%elem_of_cons; [|by eapply IH]. destruct Hl as [(id & _ & Hid) _]. eauto.
Qed.

(** The chosen candidate exists and its position is the choice. *)
Lemma chosen_position (ids : list string) (chunks : list Z) (n : node) :
  NoDup ids -> ids <> [] ->
  let pos := positions 0 ids ∅ in
  let chosen := default 0%nat (last (hits_along pos chunks n)) in
  (chosen < length ids)%nat /\ pos !! default ""%string (ids !! chosen) = Some chosen.
Proof.
  intros Hnd Hne pos chosen. assert (exists id, ids !! chosen = Some id) as [id Hid].
  { unfold chosen. destruct (last _) as [i|] eqn:Hl; cbn [default].
    - assert (i ∈ hits_along pos chunks n) as Hin by (apply last_Some_elem_of in Hl; done).
      destruct (hits_positions pos chunks n i Hin) as [id Hid].
      apply (positions_lookup ids id i 0 ∅ Hnd) in Hid as (k & Hk & ->); [|done]. by exists id.
    - destruct ids as [|id ids]; [done|]. by exists id. }
  split; [by apply lookup_lt_Some in Hid|]. rewrite Hid. cbn [default].
  apply (positions_lookup ids id chosen 0 ∅ Hnd); [done|]. by exists chosen.
Qed.
End AffinityFacts.

Module AffinityProps.
Import Affinity AffinitySpec AffinityFacts.

(** *** The index invariant *)
Lemma pick_trie_ok (now : Z) (model : string) (chunks : list Z) (ids : list string) (t : trie) :
  trie_ok t ->
  let (best, t') := match_ chunks ids now t in
  trie_ok (record_ chunks (default ""%string (ids !! default 0%nat best)) now t').
Proof.
  intros [Hc Hb Hco]. unfold match_. set (pos := positions 0 ids ∅).
  destruct (match_below pos now chunks None (root t) Hco) as (Hn & _).
  pose proof (match_count pos now chunks None (root t)) as Hm.
  destruct (match_walk pos now chunks None (root t)) as [best n]. cbn [snd] in *. unfold record_. cbn [root nodes].
  set (id := default _ _). assert (below (touch now n)) as Ht by (intros h c; node; apply Hn).
  pose proof (record_count id now chunks (nodes t) (touch now n) Hb) as Hcount.
  destruct (record_below id now chunks (nodes t) (touch now n) Ht) as (Hbelow & _).
  destruct (record_walk id now chunks (nodes t) (touch now n)) as [n' k']. cbn [fst] in *.
  rewrite (count_same_children (touch now n) n) in Hcount by (by node).
  split; cbn [root nodes]; [lia|lia|exact Hbelow].
Qed.

Lemma sweep_trie_ok (ttl now : Z) (t t' : trie) : trie_ok t -> sweep_trie ttl now t = Some t' -> trie_ok t'.
Proof.
  intros [Hc Hb Hco]. unfold sweep_trie. pose proof (prune_count ttl now (root t)) as Hgone.
  pose proof (prune_gone_nonneg ttl now (root t)) as Hpos. pose proof (prune_child ttl now (root t)) as Hch.
  destruct (prune ttl now (root t)) as [[n gone] dead]. cbn [fst snd] in *.
  destruct (decide (children n = ∅)); [done|]. intros [= <-]. split; cbn [nodes root]; [lia|lia|].
  intros h c. rewrite Hch. intros (c0 & Hc0 & Hp)%bind_Some. destruct (prune ttl now c0).2; [done|].
  injection Hp as <-. by eapply prune_coherent, Hco.
Qed.

Lemma swept_ok (now : Z) (x : Index) : index_ok x -> index_ok (swept now x) /\ ttl (swept now x) = ttl x.
Proof.
  intros Hok. unfold swept. destruct (_ || _); [|done]. destruct Hok as [Httl Hsize Htries].
  split; [|done]. split; cbn [sweep ttl models]; [done| |].
  - etrans; [|exact Hsize]. rewrite <- !size_dom. apply subseteq_size.
    intros k (t & Ht)%elem_of_dom. rewrite lookup_omap in Ht. apply bind_Some in Ht as (t0 & H & _). by apply elem_of_dom.
  - intros k t. rewrite lookup_omap. intros (t0 & Ht0 & Ht)%bind_Some.
    eapply sweep_trie_ok; [|exact Ht]. by eapply Htries.
Qed.

Lemma leaf_trie_ok (now : Z) : trie_ok (mkTrie (leaf now) 0).
Proof.
  split; cbn [nodes root]; [rewrite count_children; symmetry; apply map_sum_empty|done|].
  intros h c Hc. cbn [leaf children] in Hc. by rewrite lookup_empty in Hc.
Qed.

Lemma insert_trie_ok (model : string) (t : trie) (x : Index) :
  index_ok x -> trie_ok t -> is_Some (models x !! model) \/ (size (models x) < maxModels)%nat ->
  index_ok (mkIndex (<[model := t]> (models x)) (ttl x) (sweptAt x)).
Proof.
  intros [Httl Hsize Htries] Ht Hroom. split; cbn [ttl models]; [done| |].
  - destruct (models x !! model) as [t0|] eqn:Hm.
    + by rewrite map_size_insert_Some by (by rewrite Hm).
    + rewrite map_size_insert_None by done. destruct Hroom as [[]|]; [done|lia].
  - by apply map_Forall_insert_2.
Qed.

Lemma pick_locked_ok (now : Z) (model : string) (chunks : list Z) (ids : list string) (x : Index) :
  index_ok x -> index_ok (pick_locked now model chunks ids x).2 /\ ttl (pick_locked now model chunks ids x).2 = ttl x.
Proof.
  intros Hok. unfold pick_locked. destruct (swept_ok now x Hok) as [Hok' Httl].
  assert (forall t, trie_ok t -> is_Some (models (swept now x) !! model) \/ (size (models (swept now x)) < maxModels)%nat ->
    index_ok (pick_trie now model chunks ids t (swept now x)).2 /\
    ttl (pick_trie now model chunks ids t (swept now x)).2 = ttl x) as Hpick.
  { intros t Ht Hroom. unfold pick_trie. pose proof (pick_trie_ok now model chunks ids t Ht) as H.
    destruct (match_ chunks ids now t) as [best t']. cbn [snd]. split; [by apply insert_trie_ok|done]. }
  destruct (models (swept now x) !! model) as [t|] eqn:Hm.
  - apply Hpick; [|by left]. by eapply (io_tries _ Hok').
  - destruct (Nat.leb_spec maxModels (size (models (swept now x)))); [done|]. apply Hpick; [apply leaf_trie_ok|by right].
Qed.

Definition has_ttl (ttl0 : Z) (x : option Index) : Prop := match x with Some x => ttl x = ttl0 | None => True end.

Lemma picks_ok (ttl0 : Z) (ps : list pick) : forall x,
  opt_ok x -> has_ttl ttl0 x -> opt_ok (picks ps x) /\ has_ttl ttl0 (picks ps x).
Proof.
  induction ps as [|p ps IH]; intros x Hok Httl; [done|]. cbn [picks foldl]. unfold do_pick, Pick.
  destruct x as [x|]; [|by apply IH]. destruct (p_ids p) as [|id ids]; [by apply IH|].
  destruct (pick_locked_ok (p_now p) (p_model p) (chunkHashes (p_prompt p)) (id :: ids) x Hok) as [H1 H2].
  destruct (pick_locked _ _ _ _ _) as [r x']. apply IH; [exact H1|]. cbn in *. congruence.
Qed.

Lemma new_index_ok (ttl0 : Z) : opt_ok (NewIndex ttl0) /\ has_ttl ttl0 (NewIndex ttl0).
Proof.
  unfold NewIndex. destruct (Z.leb_spec ttl0 0); [done|]. split; [|done]. split; cbn; [done|rewrite map_size_empty; lia|].
  apply map_Forall_empty.
Qed.

(** The index is bounded.  Whatever prompts, models and clocks it is
    given, an index never holds more tries than its model ceiling; the node
    counter of every trie is the number of nodes it has and never passes
    the node ceiling; and an upstream known at a prefix is known at every
    shorter one. *)
Theorem affinity_bounded (ttl0 : Z) (ps : list pick) :
  match picks ps (NewIndex ttl0) with
  | Some x => 0 < ttl0 /\ (size (models x) <= maxModels)%nat /\
      forall model t, models x !! model = Some t ->
        nodes t = count (root t) /\ nodes t <= maxNodes /\
        (forall h c, children (root t) !! h = Some c -> coherent c)
  | None => ttl0 <= 0
  end.
Proof.
  destruct (new_index_ok ttl0) as [Hok Httl]. destruct (picks_ok ttl0 ps _ Hok Httl) as [H1 H2].
  destruct (picks ps (NewIndex ttl0)) as [x|] eqn:Hx.
  - destruct H1 as [H1 H3 H4]. cbn in H2. split_and!; [lia|done|]. intros model t Ht.
    by destruct (H4 model t Ht).
  - unfold NewIndex in Hx. destruct (Z.leb_spec ttl0 0); [done|]. exfalso. clear -Hx.
    revert Hx. generalize (mkIndex ∅ ttl0 0) as x. induction ps as [|p ps IH]; intros x; [done|].
    cbn [picks foldl]. unfold do_pick, Pick. destruct (p_ids p); [apply IH|]. destruct (pick_locked _ _ _ _ _). apply IH.
Qed.

(** *** Stickiness *)

(** The next match for the same chunks and candidates will say [r]; every
    node of the chain was touched at [lim] or later. *)
Definition settled (model : string) (chunks : list Z) (ids : list string) (r lim : Z) (x : Index) : Prop :=
  match models x !! model with
  | Some t => fresh_chain lim chunks (root t) /\ verdict (hits_along (positions 0 ids ∅) chunks (root t)) = r
  | None => r = -1
  end.

Lemma swept_settled (model : string) (chunks : list Z) (ids : list string) (r lim now : Z) (x : Index) :
  0 < ttl x -> now - lim <= ttl x -> settled model chunks ids r lim x -> settled model chunks ids r lim (swept now x).
Proof.
  intros Httl Hnow Hs. unfold swept. destruct (_ || _); [|done]. unfold settled in *. cbn [sweep models].
  rewrite lookup_omap. destruct (models x !! model) as [t|]; [|done]. cbn [mbind option_bind].
  destruct Hs as [Hf Hr]. destruct (prune_fresh (ttl x) now lim (positions 0 ids ∅) chunks (root t) Httl Hnow Hf) as [Hh Hf'].
  unfold sweep_trie. destruct (prune (ttl x) now (root t)) as [[n gone] dead]. cbn [fst] in *.
  destruct (decide (children n = ∅)) as [Hnil|_]; cbn [root]; [|by rewrite Hh].
  rewrite <- Hr, <- Hh. destruct chunks as [|h chunks]; [done|]. cbn [hits_along]. by rewrite Hnil, lookup_empty.
Qed.

Lemma pick_trie_verdict (now : Z) (model : string) (chunks : list Z) (ids : list string) (t : trie) (x : Index) :
  (pick_trie now model chunks ids t x).1 = verdict (hits_along (positions 0 ids ∅) chunks (root t)).
Proof.
  unfold pick_trie, match_, verdict. pose proof (match_result (positions 0 ids ∅) now chunks None (root t)) as Hm.
  destruct (match_walk _ _ _ _ _) as [best n]. cbn [fst] in *. subst best. by destruct (last _).
Qed.

Lemma pick_trie_settled (now : Z) (model : string) (chunks : list Z) (ids : list string) (t : trie) (x : Index) :
  NoDup ids -> ids <> [] -> trie_ok t ->
  settled model chunks ids (pick_trie now model chunks ids t x).1 now (pick_trie now model chunks ids t x).2.
Proof.
  intros Hnd Hne Hok. rewrite pick_trie_verdict. unfold pick_trie, match_. set (pos := positions 0 ids ∅).
  pose proof (match_result pos now chunks None (root t)) as Hm.
  destruct (match_hits pos now chunks None (root t)) as [_ Hh].
  destruct (match_below pos now chunks None (root t) (to_coherent t Hok)) as (Hb & _).
  destruct (chosen_position ids chunks (root t) Hnd Hne) as [_ Hpos]. fold pos in Hpos.
  destruct (match_walk pos now chunks None (root t)) as [best n]. cbn [fst snd] in *.
  assert (default 0%nat best = default 0%nat (last (hits_along pos chunks (root t)))) as ->
    by (rewrite Hm; by destruct (last _)).
  set (chosen := default 0%nat (last (hits_along pos chunks (root t)))) in *.
  unfold settled. cbn [snd models]. rewrite lookup_insert_eq. unfold record_. cbn [root nodes].
  set (id := default ""%string (ids !! chosen)) in *. assert (below (touch now n)) as Ht by (intros h c; node; apply Hb).
  assert (hits_along pos chunks (touch now n) = hits_along pos chunks (root t)) as Hsame.
  { rewrite <- Hh. destruct chunks; [done|]. cbn [hits_along]. by node. }
  pose proof (record_fresh id now chunks (nodes t) (touch now n)) as Hf.
  destruct (record_hits pos id chosen now chunks (nodes t) (touch now n) Hpos Ht) as [Hlast Hnil].
  { rewrite Hsame. unfold chosen. destruct (last (hits_along pos chunks (root t))) as [i|] eqn:Hl; [by right|left].
    by apply last_None in Hl. }
  rewrite Hsame in Hnil. fold pos.
  destruct (record_walk id now chunks (nodes t) (touch now n)) as [n' k']. cbn [fst root] in *. split; [exact Hf|].
  unfold verdict. fold chosen. destruct Hlast as [Hl|Hl].
  - unfold chosen. by rewrite Hl, (Hnil Hl).
  - by rewrite Hl.
Qed.

Lemma pick_settles (now : Z) (model : string) (chunks : list Z) (ids : list string) (x : Index) :
  NoDup ids -> ids <> [] -> index_ok x ->
  let (r, x') := pick_locked now model chunks ids x in settled model chunks ids r now x'.
Proof.
  intros Hnd Hne Hok. unfold pick_locked. destruct (swept_ok now x Hok) as [Hok' _].
  destruct (models (swept now x) !! model) as [t|] eqn:Hm.
  - pose proof (pick_trie_settled now model chunks ids t (swept now x) Hnd Hne (io_tries _ Hok' _ _ Hm)) as H.
    by destruct (pick_trie _ _ _ _ _ _).
  - destruct (maxModels <=? _)%nat; [unfold settled; by rewrite Hm|].
    pose proof (pick_trie_settled now model chunks ids _ (swept now x) Hnd Hne (leaf_trie_ok now)) as H.
    by destruct (pick_trie _ _ _ _ _ _).
Qed.

Lemma settled_verdict (model : string) (chunks : list Z) (ids : list string) (r lim now : Z) (x : Index) :
  0 < ttl x -> now - lim <= ttl x -> settled model chunks ids r lim x -> (pick_locked now model chunks ids x).1 = r.
Proof.
  intros Httl Hnow Hs. apply (swept_settled model chunks ids r lim now x Httl Hnow) in Hs.
  unfold settled in Hs. unfold pick_locked.
  destruct (models (swept now x) !! model) as [t|]; [rewrite pick_trie_verdict; by destruct Hs|].
  destruct (maxModels <=? _)%nat; [done|]. rewrite pick_trie_verdict. rewrite Hs. cbn [root].
  by destruct chunks; cbn [hits_along leaf children]; rewrite ?lookup_empty.
Qed.

Lemma other_settled (model : string) (chunks : list Z) (ids : list string) (r lim : Z) (p : pick) (x : Index) :
  0 < ttl x -> p_now p - lim <= ttl x -> p_model p <> model -> settled model chunks ids r lim x ->
  match do_pick p (Some x) with Some x' => settled model chunks ids r lim x' /\ ttl x' = ttl x | None => False end.
Proof.
  intros Httl Hnow Hne Hs. unfold do_pick, Pick. destruct (p_ids p) as [|id ids']; [done|].
  apply (swept_settled model chunks ids r lim (p_now p) x Httl Hnow) in Hs.
  assert (ttl (swept (p_now p) x) = ttl x) as Ht by (unfold swept; by destruct (_ || _)).
  unfold pick_locked. destruct (models (swept (p_now p) x) !! p_model p) as [t|];
    [|destruct (maxModels <=? _)%nat; [done|]]; unfold pick_trie; destruct (match_ _ _ _ _) as [best t']; cbn [snd];
    (split; [|done]); unfold settled in *; cbn [models]; by rewrite lookup_insert_ne.
Qed.

Lemma others_settled (model : string) (chunks : list Z) (ids : list string) (r lim ttl0 : Z) (others : list pick) : forall x,
  0 < ttl0 -> ttl x = ttl0 -> Forall (fun p => p_model p <> model /\ p_now p <= lim + ttl0) others ->
  settled model chunks ids r lim x ->
  match picks others (Some x) with Some x' => settled model chunks ids r lim x' /\ ttl x' = ttl0 | None => False end.
Proof.
  induction others as [|p others IH]; intros x Hpos Httl Hall Hs; [done|]. cbn [picks foldl].
  apply Forall_cons in Hall as [[Hne Hnow] Hall].
  pose proof (other_settled model chunks ids r lim p x ltac:(lia) ltac:(lia) Hne Hs) as H.
  destruct (do_pick p (Some x)) as [x'|]; [|done]. destruct H as [Hs' Httl']. apply IH; [done|congruence|done|done].
Qed.

Lemma Pick_some (now : Z) (model prompt : string) (ids : list string) (x : Index) :
  ids <> [] ->
  Pick now model prompt ids (Some x) = let (r, x') := pick_locked now model (chunkHashes prompt) ids x in (r, Some x').
Proof. by destruct ids. Qed.

(** Routing sticks to a prefix.  Ask the index the same thing twice - the
    same model, prompt and candidates - with any picks of other models in
    between, all within the time to live of the first: the second answer is
    the first, whatever was recorded before, whichever sweeps ran, and even
    when a node or model ceiling kept the first answer from being recorded
    in full.  The answer names a candidate, or leaves the order alone. *)
Theorem affinity_sticky (ttl0 : Z) (ps others : list pick) (model prompt : string) (ids : list string) (now1 now2 : Z) :
  NoDup ids -> Forall (fun p => p_model p <> model /\ p_now p <= now1 + ttl0) others -> now2 <= now1 + ttl0 ->
  let (r, x1) := Pick now1 model prompt ids (picks ps (NewIndex ttl0)) in
  (Pick now2 model prompt ids (picks others x1)).1 = r /\ (r = -1 \/ 0 < r < Z.of_nat (length ids)).
Proof.
  intros Hnd Hothers Hnow2. destruct (new_index_ok ttl0) as [Hok Httl].
  destruct (picks_ok ttl0 ps _ Hok Httl) as [H1 H2]. destruct (picks ps (NewIndex ttl0)) as [x|].
  2:{ cbn [Pick]. replace (picks others None) with (@None Index); [split; [done|by left]|].
      clear. induction others as [|p others IH]; [done|exact IH]. }
  cbn in H1, H2. pose proof (io_ttl x H1) as Hpos. destruct (decide (ids = [])) as [-> |Hne].
  { split; [|by left]. by destruct (picks others (Some x)). }
  rewrite (Pick_some now1 model prompt ids x Hne). set (chunks := chunkHashes prompt).
  pose proof (pick_settles now1 model chunks ids x Hnd Hne H1) as Hs.
  destruct (pick_locked_ok now1 model chunks ids x H1) as [H1' H2'].
  assert ((pick_locked now1 model chunks ids x).1 = -1 \/ 0 < (pick_locked now1 model chunks ids x).1 < Z.of_nat (length ids)) as Hr.
  { unfold pick_locked. assert (forall t y, (pick_trie now1 model chunks ids t y).1 = -1 \/
      0 < (pick_trie now1 model chunks ids t y).1 < Z.of_nat (length ids)) as Hv.
    { intros t y. rewrite pick_trie_verdict. unfold verdict.
      destruct (chosen_position ids chunks (root t) Hnd Hne) as [Hc _].
      destruct (Nat.eqb_spec (default 0%nat (last (hits_along (positions 0 ids ∅) chunks (root t)))) 0); [by left|right; lia]. }
    destruct (models _ !! model); [apply Hv|]. destruct (maxModels <=? _)%nat; [by left|apply Hv]. }
  destruct (pick_locked now1 model chunks ids x) as [r x1]. cbn [fst snd] in *. split; [|exact Hr].
  pose proof (others_settled model chunks ids r now1 ttl0 others x1 ltac:(lia) ltac:(congruence) Hothers Hs) as Ho.
  destruct (picks others (Some x1)) as [x2|]; [|done]. destruct Ho as [Hs2 Ht2].
  rewrite (Pick_some now2 model prompt ids x2 Hne). fold chunks. pose proof (settled_verdict model chunks ids r now1 now2 x2 ltac:(lia) ltac:(lia) Hs2) as Hfin.
  by destruct (pick_locked now2 model chunks ids x2).
Qed.

(** Two prompts that share their first chunk: the second follows the first
    to the upstream that served it, past the router's own preference. *)
Example affinity_follows :
  let head := String.string_of_list_ascii (repeat "a"%char 128) in
  let x := picks [mkPick 10 "gpt" (head +:+ "tail") ["west"]] (NewIndex 1000) in
  ((Pick 20 "gpt" (head +:+ "other") ["east"; "west"] x).1, (Pick 20 "gpt" "short" ["east"; "west"] x).1) = (1, -1).
Proof. by vm_compute. Qed.

Lemma affinity_sticky_witness :
  let x := picks [mkPick 10 "gpt" "hello" ["west"]] (NewIndex 1000) in
  (Pick 30 "gpt" "hello" ["east"; "west"] (picks [mkPick 25 "mini" "x" ["east"]] (Pick 20 "gpt" "hello" ["east"; "west"] x).2)).1 = 1.
Proof.
  pose proof (affinity_sticky 1000 [mkPick 10 "gpt" "hello" ["west"]] [mkPick 25 "mini" "x" ["east"]] "gpt" "hello"
    ["east"; "west"] 20 30 ltac:(repeat constructor; set_solver) ltac:(by repeat constructor) ltac:(done)) as H.
  cbv zeta. destruct (Pick 20 "gpt" "hello" ["east"; "west"] _) as [r x1] eqn:Hp. destruct H as [H _].
  cbn [snd]. rewrite H. apply (f_equal fst) in Hp. cbn [fst] in Hp. rewrite <- Hp. by vm_compute.
Defined.
End AffinityProps.
