(* ===== verification/Recovery.v ===== *)
(** * Rotation and recovery (cmd/breakwater: serve.go hooks, recovery.go)

    How the routing switch of Router.v, the credential rings of Upstream.v
    and the recovery loop act on one another: a fatal exchange retires a
    credential and, with the last one, the upstream ([fatal], the hook of
    [autoDisableHook]); an upstream coming back restores its ring (the
    callback of [reviveRing]); the recovery pass probes what the system took
    out and lifts its own decisions.  Probe answers and clocks are
    arguments; a pass ranges over the sorted ids of the switch. *)
From Stdlib Require Import QArith.
From stdpp Require Import base numbers sets gmap strings list sorting.
From S2P Require Import Prelude Circuit CircuitPort Router Upstream.
Import GoInt GoTime.
Local Open Scope Z_scope.

Module Recovery.
Import Switch Ring.

(** ** The bookkeeping of the loop *)
Record probeRetry := mkRetry { fails : Z; next : Z }.
Record probeBook := mkBook { passes : gmap string Z; retries : gmap string probeRetry }.

Definition due (now : Z) (r : probeRetry) : bool := negb (after (next r) now).

Fixpoint backoff_loop (todo : nat) (ceiling delay : Z) : Z :=
  match todo with
  | O => delay
  | S todo =>
      if ceiling <=? delay then ceiling
      else
        let doubled := wrap64 (delay * 2) in
        if (ceiling <? doubled) || (doubled <=? 0) then ceiling else backoff_loop todo ceiling doubled
  end.

Definition probeBackoff (base ceiling fails : Z) : Z :=
  let base := if ceiling <? base then ceiling else base in backoff_loop (Z.to_nat (fails - 1)) ceiling base.

(** ** The shared state *)
Record world := mkWorld { routing : Switch; rings : gmap string credentialRing; book : probeBook }.

(** [reviveRing]: an upstream without a ring has nothing to restore. *)
Definition reviveRing (id : string) (rs : gmap string credentialRing) : gmap string credentialRing := alter revive id rs.

(** A switch operation with the calls of its enable callback. *)
Definition with_callback {A} (op : Switch -> A * Switch) (w : world) : A * world :=
  let (a, s) := op (routing w) in
  (a, mkWorld s (foldl (fun rs id => reviveRing id rs) (rings w) (drop (length (enables (routing w))) (enables s)))
        (book w)).

Definition set_ring (id : string) (r : credentialRing) (w : world) : world :=
  mkWorld (routing w) (<[id := r]> (rings w)) (book w).
Definition set_book (b : probeBook) (w : world) : world := mkWorld (routing w) (rings w) b.

(** The upstream-level disable at the end of the hook. *)
Definition disable (now : Z) (id reason : string) (w : world) : world :=
  mkWorld (AutoDisableUpstream now id reason (routing w)).2 (rings w) (book w).

(** The hook of [autoDisableHook]: newly retired or not, a living credential
    keeps the upstream in rotation. *)
Definition fatal (now : Z) (id : string) (credentialIndex : Z) (reason : string) (w : world) : world :=
  match rings w !! id with
  | Some ring =>
      if 0 <=? credentialIndex then
        let (_, ring) := retire credentialIndex ring in
        let w := set_ring id ring w in
        if 0 <? alive ring then w else disable now id reason w
      else disable now id reason w
  | None => disable now id reason w
  end.

(** ** The recovery pass *)
Section pass.
Variables (interval backoff threshold : Z).
(** The probe targets and what each would answer now. *)
Variable probe : string -> option bool.

Definition failed_probe (now : Z) (id : string) (b : probeBook) : probeBook :=
  let r := default (mkRetry 0 0) (retries b !! id) in
  let fails := fails r + 1 in
  mkBook (<[id := 0]> (passes b)) (<[id := mkRetry fails (add now (probeBackoff interval backoff fails))]> (retries b)).

Definition healthy_probe (id : string) (b : probeBook) : probeBook :=
  mkBook (<[id := default 0 (passes b !! id) + 1]> (passes b)) (delete id (retries b)).

(** Whether the pass asks the upstream now. *)
Definition asked (now : Z) (id : string) (b : probeBook) : bool :=
  negb ((0 <? backoff) && match retries b !! id with Some r => negb (due now r) | None => false end).

Definition recover_one (now : Z) (w : world) (id : string) : world :=
  match probe id with
  | None => w
  | Some healthy =>
      if negb (asked now id (book w)) then w
      else if negb healthy then set_book (failed_probe now id (book w)) w
      else
        let b := healthy_probe id (book w) in
        let w := set_book b w in
        if default 0 (passes b !! id) <? threshold then w
        else match with_callback (AutoEnableUpstream id) w with
        | (Some _, w) => w
        | (None, w) => set_book (mkBook (delete id (passes b)) (retries b)) w
        end
  end.

Definition recoverAutoDisabled (now : Z) (w : world) : world :=
  foldl (recover_one now) w (AutoDisabledIDs (routing w)).
End pass.

(** ** Breaker-ejected upstreams *)
Section eject.
Context {B : Type} `{!Breaker B}.

(** One turn of [reviveEjected]; [e] and [e'] are the readings before and
    after the check. *)
Definition revive_one (e e' : env) (id : string) (answer : probe_result) (caller_done : bool) (b : B)
  : B * option bool :=
  let (b, state) := StateOf e id b in
  if decide (state = StateOpen \/ state = StateHalfOpen) then
    let '(b, ran, err) := ActiveProbe e e' id answer caller_done b in
    (b, if ran then Some (match err with Some ProbeOk => true | _ => false end) else None)
  else (b, None).

Fixpoint reviveEjected (turns : list (env * env * string * probe_result * bool)) (b : B) : B :=
  match turns with
  | [] => b
  | (e, e', id, answer, caller_done) :: turns => reviveEjected turns (revive_one e e' id answer caller_done b).1
  end.
End eject.

(** ** Everything that moves the shared state *)
Inductive event :=
  | EFatal (now : Z) (id : string) (credentialIndex : Z) (reason : string)
  | EOperator (id : string) (enabled : bool)
  | EModel (model : string) (enabled : bool)
  | EPick (id : string) (excluded : list Z)
  | EPass (interval backoff threshold now : Z) (probe : string -> option bool).

Definition step (e : event) (w : world) : world :=
  match e with
  | EFatal now id cred reason => fatal now id cred reason w
  | EOperator id enabled => (with_callback (SetUpstream id enabled) w).2
  | EModel m enabled => (with_callback (SetModel m enabled) w).2
  | EPick id excluded => mkWorld (routing w) (alter (fun r => (pick excluded r).2) id (rings w)) (book w)
  | EPass interval backoff threshold now probe => recoverAutoDisabled interval backoff threshold probe now w
  end.

Definition start (models upstreams : list string) (wildcard : bool) (rs : gmap string credentialRing) : world :=
  mkWorld (NewSwitch models upstreams wildcard) rs (mkBook ∅ ∅).
End Recovery.

Module RecoverySpec.
Import Recovery Switch Ring RouterSpec.

(** A recovery tick as the loop sees it. *)
Record tick := mkTick { t_now : Z; t_probe : string -> option bool }.

Section ticks.
Variables (interval backoff threshold : Z) (id : string).

(** The answers of [id] that a run of passes collects, and where it ends. *)
Fixpoint run (ts : list tick) (w : world) : list bool * world :=
  match ts with
  | [] => ([], w)
  | t :: ts =>
      let answers :=
        if bool_decide (id ∈ AutoDisabledIDs (routing w)) && asked backoff (t_now t) id (book w)
        then match t_probe t id with Some h => [h] | None => [] end else [] in
      let (more, w) := run ts (recoverAutoDisabled interval backoff threshold (t_probe t) (t_now t) w) in
      (answers ++ more, w)
  end.
End ticks.

(** Somewhere in [hs], [n] healthy answers in a row. *)
Definition has_run (n : nat) (hs : list bool) : Prop := exists pre post, hs = pre ++ replicate n true ++ post.

(** An upstream with credentials is known to the switch and never serves
    without a living one. *)
Definition rotation_ok (w : world) : Prop :=
  switch_wf (routing w) /\
  forall id ring, rings w !! id = Some ring -> id ∈ knownUpstreams (routing w) /\ dead ring <> [] /\
    (UpstreamEnabled id (routing w) = true -> 0 < alive ring).
End RecoverySpec.

Module RecoveryFacts.
Import Recovery RecoverySpec Switch Ring RouterSpec RouterFacts.

(** *** Callbacks *)
Lemma with_callback_none {A} (op : Switch -> A * Switch) (w : world) :
  enables (op (routing w)).2 = enables (routing w) ->
  with_callback op w = ((op (routing w)).1, mkWorld (op (routing w)).2 (rings w) (book w)).
Proof.
  intros He. unfold with_callback. destruct (op (routing w)) as [a s]. cbn [fst snd] in *. by rewrite He, drop_all.
Qed.

Lemma with_callback_one {A} (op : Switch -> A * Switch) (w : world) (id : string) :
  enables (op (routing w)).2 = enables (routing w) ++ [id] ->
  with_callback op w = ((op (routing w)).1, mkWorld (op (routing w)).2 (reviveRing id (rings w)) (book w)).
Proof.
  intros He. unfold with_callback. destruct (op (routing w)) as [a s]. cbn [fst snd] in *.
  by rewrite He, drop_app_length.
Qed.

Lemma auto_enable_world (id : string) (w : world) :
  with_callback (AutoEnableUpstream id) w
  = if decide (id ∈ knownUpstreams (routing w))
    then (None, mkWorld (AutoEnableUpstream id (routing w)).2 (reviveRing id (rings w)) (book w))
    else (Some (ErrUnknownUpstream id), w).
Proof.
  destruct (decide (id ∈ knownUpstreams (routing w))) as [Hk|Hk].
  - rewrite (with_callback_one _ w id); unfold AutoEnableUpstream; by destruct (decide (id ∉ _)).
  - rewrite with_callback_none; unfold AutoEnableUpstream; destruct (decide (id ∉ _)); try done. by destruct w.
Qed.

Lemma set_upstream_world (id : string) (enabled : bool) (w : world) :
  (with_callback (SetUpstream id enabled) w).2
  = mkWorld (SetUpstream id enabled (routing w)).2
      (if bool_decide (id ∈ knownUpstreams (routing w)) && enabled then reviveRing id (rings w) else rings w) (book w).
Proof.
  destruct (decide (id ∈ knownUpstreams (routing w))) as [Hk|Hk].
  - rewrite bool_decide_true by done. destruct enabled; cbn [andb].
    + rewrite (with_callback_one _ w id); unfold SetUpstream; by destruct (decide (id ∉ _)).
    + rewrite with_callback_none; unfold SetUpstream; by destruct (decide (id ∉ _)).
  - rewrite bool_decide_false by done. rewrite with_callback_none; unfold SetUpstream; by destruct (decide (id ∉ _)).
Qed.

(** *** Rings *)
Lemma count_alive_fresh {A} (l : list A) : count_alive (map (fun _ => false) l) = Z.of_nat (length l).
Proof. induction l as [|b l IH]; [done|]. cbn [map count_alive negb length]. lia. Qed.

Lemma fresh_flags (ks : list string) : map (fun _ => false) ks = replicate (length ks) false.
Proof. induction ks as [|k ks IH]; [done|]. cbn. by rewrite IH. Qed.

Lemma alive_revive (r : credentialRing) : dead r <> [] -> 0 < alive (revive r).
Proof. unfold alive, revive. cbn [dead set_dead]. rewrite count_alive_fresh. destruct (dead r); [done|cbn; lia]. Qed.

Lemma pick_dead (excluded : list Z) (r : credentialRing) : dead (pick excluded r).2 = dead r.
Proof.
  unfold pick, begin_pick. destruct (length (keys r) =? 0)%nat; [done|]. by destruct (choose _ _ _).
Qed.

Lemma retire_dead (i : Z) (r : credentialRing) : dead r <> [] -> dead (retire i r).2 <> [].
Proof.
  intros Hne. unfold retire. destruct (_ || _); [done|]. destruct (dead r !! Z.to_nat i); [|done].
  cbn [snd set_dead dead]. intros H. apply (f_equal length) in H. rewrite length_insert in H. by destruct (dead r).
Qed.

(** *** Keeping the rotation *)
Lemma enabled_apply (o : op) (s : Switch) (id : string) :
  switch_wf s -> id ∈ knownUpstreams s ->
  UpstreamEnabled id (apply_op o s) = true <-> next_status id o (status_of id s) = Enabled.
Proof. intros Hwf Hid. by rewrite UpstreamEnabled_status, apply_op_status. Qed.

(** A switch operation with the callback it makes keeps [rotation_ok] when
    every upstream it enables is revived. *)
Lemma op_rotation (o : op) (revived : string -> bool) (w w' : world) :
  rotation_ok w -> routing w' = apply_op o (routing w) ->
  (forall id, rings w' !! id = (if revived id then revive else fun r => r) <$> rings w !! id) ->
  (forall id, next_status id o (status_of id (routing w)) = Enabled ->
     status_of id (routing w) = Enabled \/ revived id = true) ->
  rotation_ok w'.
Proof.
  intros [Hwf Hr] Hs Hrings Hen. split; [rewrite Hs; by apply apply_op_wf|]. intros id ring.
  rewrite Hrings, Hs, apply_op_known. intros (r0 & Hr0 & ->)%fmap_Some. destruct (Hr id r0 Hr0) as (Hk & Hd & Ha).
  rewrite enabled_apply by done.
  destruct (revived id) eqn:Hrev.
  - split_and!; [done| |intros _; by apply alive_revive]. unfold revive. cbn [dead set_dead]. by destruct (dead r0).
  - split_and!; [done|done|]. intros H. destruct (Hen id H) as [He|He]; [|congruence].
    apply Ha. by apply UpstreamEnabled_status.
Qed.

Lemma reviveRing_lookup (id j : string) (rs : gmap string credentialRing) :
  reviveRing id rs !! j = (if bool_decide (j = id) then revive else fun r => r) <$> rs !! j.
Proof.
  unfold reviveRing. destruct (decide (j = id)) as [-> |Hne].
  - by rewrite lookup_alter_eq, bool_decide_true.
  - rewrite lookup_alter_ne by done. rewrite bool_decide_false by done. by destruct (rs !! j).
Qed.

Lemma same_rings (rs : gmap string credentialRing) (id : string) :
  rs !! id = (if false then revive else fun r => r) <$> rs !! id.
Proof. by destruct (rs !! id). Qed.

Lemma disable_rotation (now : Z) (id reason : string) (w : world) :
  rotation_ok w -> rotation_ok (disable now id reason w).
Proof.
  intros Hw. apply (op_rotation (OAutoDisable now id reason) (fun _ => false) w); [done|done|intros j; apply same_rings|].
  intros j. cbn [next_status]. destruct (decide (id = j)); [|by left]. destruct (status_of j (routing w)); by left.
Qed.

(** A ring that lost its last credential goes out with its upstream. *)
Lemma fatal_rotation (now : Z) (id : string) (cred : Z) (reason : string) (w : world) :
  rotation_ok w -> rotation_ok (fatal now id cred reason w).
Proof.
  intros Hw. unfold fatal. destruct (rings w !! id) as [ring|] eqn:Hring; [|by apply disable_rotation].
  destruct (0 <=? cred); [|by apply disable_rotation]. destruct Hw as [Hwf Hr].
  destruct (Hr id ring Hring) as (Hk & Hd & Ha). pose proof (retire_dead cred ring Hd) as Hd'.
  destruct (retire cred ring) as [newly ring']. cbn [snd] in Hd'. cbv zeta.
  destruct (Z.ltb_spec 0 (alive ring')) as [Halive|Hnone].
  - split; [done|]. intros j r. cbn [set_ring rings routing]. intros [[<- <-]|[_ H]]%lookup_insert_Some; [done|by apply Hr].
  - split; cbn [disable set_ring routing rings].
    + by apply (apply_op_wf (OAutoDisable now id reason)).
    + intros j r Hj. change (AutoDisableUpstream now id reason (routing w)).2 with (apply_op (OAutoDisable now id reason) (routing w)).
      rewrite apply_op_known. apply lookup_insert_Some in Hj as [[<- <-]|[Hne Hj]].
      * split_and!; [done|done|]. intros H. apply enabled_apply in H; [|done|done]. cbn [next_status] in H.
        rewrite decide_True in H by done. by destruct (status_of id (routing w)).
      * destruct (Hr j r Hj) as (Hkj & Hdj & Haj). split_and!; [done|done|]. intros H. apply Haj.
        apply enabled_apply in H; [|done|done]. cbn [next_status] in H. rewrite decide_False in H by done.
        by apply UpstreamEnabled_status.
Qed.

Lemma set_book_rotation (b : probeBook) (w : world) : rotation_ok w -> rotation_ok (set_book b w).
Proof. by destruct w. Qed.

Lemma auto_enable_rotation (id : string) (w : world) :
  rotation_ok w -> rotation_ok (with_callback (AutoEnableUpstream id) w).2.
Proof.
  intros Hw. rewrite auto_enable_world. destruct (decide (id ∈ knownUpstreams (routing w))); [|done]. cbn [snd].
  apply (op_rotation (OAutoEnable id) (fun j => bool_decide (j = id)) w); [done|done|intros j; apply reviveRing_lookup|].
  intros j. cbn [next_status]. destruct (decide (id = j)) as [-> |]; [right; by apply bool_decide_true|by left].
Qed.

Lemma recover_one_rotation (interval backoff threshold : Z) (probe : string -> option bool) (now : Z) (w : world) (id : string) :
  rotation_ok w -> rotation_ok (recover_one interval backoff threshold probe now w id).
Proof.
  intros Hw. unfold recover_one. destruct (probe id) as [healthy|]; [|done].
  destruct (negb (asked _ _ _ _)); [done|]. destruct (negb healthy); [by apply set_book_rotation|]. cbv zeta.
  set (w1 := set_book _ w). assert (rotation_ok w1) as Hw1 by (by apply set_book_rotation).
  destruct (_ <? threshold); [done|]. pose proof (auto_enable_rotation id w1 Hw1) as H.
  destruct (with_callback _ w1) as [[e|] w2]; [done|by apply set_book_rotation].
Qed.

Lemma step_rotation (e : event) (w : world) : rotation_ok w -> rotation_ok (step e w).
Proof.
  intros Hw. destruct e as [now id cred reason|id enabled|m enabled|id excluded|interval backoff threshold now probe]; cbn [step].
  - by apply fatal_rotation.
  - rewrite set_upstream_world.
    apply (op_rotation (OSetUpstream id enabled) (fun j => bool_decide (id ∈ knownUpstreams (routing w)) && enabled && bool_decide (j = id)) w);
      [done|done| |].
    + intros j. cbn [rings]. destruct (_ && enabled); cbn [andb]; [apply reviveRing_lookup|apply same_rings].
    + intros j. cbn [next_status]. destruct (decide (id = j)) as [-> |]; [|by left]. destruct enabled; [|done]. intros _.
      destruct (decide (j ∈ knownUpstreams (routing w))) as [Hk|Hk]; [right; by rewrite !bool_decide_true|left].
      apply UpstreamEnabled_status. unfold UpstreamEnabled. destruct (proj1 Hw) as [_ Hkn].
      rewrite !bool_decide_false; [done| |]; intros H; apply Hk, Hkn; [by right|by left].
  - rewrite with_callback_none by (unfold SetModel; by destruct (_ && _)).
    apply (op_rotation (OSetModel m enabled) (fun _ => false) w); [done|done|intros j; apply same_rings|by left].
  - destruct Hw as [Hwf Hr]. split; [done|]. intros j ring. cbn [rings routing].
    destruct (decide (j = id)) as [-> |Hne].
    + rewrite lookup_alter_eq. intros (r0 & Hr0 & ->)%fmap_Some. destruct (Hr id r0 Hr0) as (Hk & Hd & Ha).
      unfold alive. by rewrite pick_dead.
    + rewrite lookup_alter_ne by done. apply Hr.
  - unfold recoverAutoDisabled. generalize (AutoDisabledIDs (routing w)) as ids. intros ids. revert w Hw.
    induction ids as [|id ids IH]; intros w Hw; [done|]. cbn [foldl]. by apply IH, recover_one_rotation.
Qed.
End RecoveryFacts.

Module RecoveryProps.
Import Recovery RecoverySpec Switch Ring RouterSpec RouterFacts RecoveryFacts.

Definition operator_off (id : string) (e : event) (off : bool) : bool :=
  match e with EOperator i enabled => if decide (i = id) then negb enabled else off | _ => off end.

Lemma disabled_apply (o : op) (s : Switch) (id : string) :
  switch_wf s -> id ∈ knownUpstreams s ->
  bool_decide (id ∈ disabledUpstreams (apply_op o s))
  = match o with OSetUpstream i b => if decide (i = id) then negb b else bool_decide (id ∈ disabledUpstreams s)
    | _ => bool_decide (id ∈ disabledUpstreams s) end.
Proof.
  intros Hwf Hk. assert (forall s, bool_decide (id ∈ disabledUpstreams s)
    = match status_of id s with Manual => true | _ => false end) as Hst.
  { intros s0. unfold status_of. destruct (decide (id ∈ disabledUpstreams s0));
      [by rewrite bool_decide_true|rewrite bool_decide_false by done; by destruct (autoDisabled s0 !! id)]. }
  rewrite !Hst, apply_op_status by done.
  destruct o as [i b|now i why|i|m b]; cbn [next_status]; [| | |done]; destruct (decide (i = id)); try done.
  - by destruct b.
  - by destruct (status_of id s).
  - by destruct (status_of id s).
Qed.

Definition spares_operator (o : op) : Prop := match o with OSetUpstream _ _ => False | _ => True end.

(** Every event acts on the switch through its operations. *)
Lemma step_ops (e : event) (w : world) :
  exists ops, routing (step e w) = foldl (fun s o => apply_op o s) (routing w) ops /\
    match e with EOperator i enabled => ops = [OSetUpstream i enabled] | _ => Forall spares_operator ops end.
Proof.
  destruct e as [now i cred reason|i enabled|m enabled|i excluded|interval backoff threshold now probe]; cbn [step].
  - unfold fatal. assert (exists ops, (AutoDisableUpstream now i reason (routing w)).2
      = foldl (fun s o => apply_op o s) (routing w) ops /\ Forall spares_operator ops) as Hdis
      by (exists [OAutoDisable now i reason]; split; [done|by constructor]).
    destruct (rings w !! i) as [ring|]; [|exact Hdis]. destruct (0 <=? cred); [|exact Hdis].
    destruct (retire cred ring) as [newly ring']. cbv zeta. destruct (0 <? alive ring'); [by exists []|exact Hdis].
  - rewrite set_upstream_world. by exists [OSetUpstream i enabled].
  - rewrite with_callback_none by (unfold SetModel; by destruct (_ && _)).
    exists [OSetModel m enabled]. split; [done|by constructor].
  - by exists [].
  - unfold recoverAutoDisabled. generalize (AutoDisabledIDs (routing w)) as ids. intros ids. revert w.
    induction ids as [|i ids IH]; intros w; [by exists []|]. cbn [foldl].
    destruct (IH (recover_one interval backoff threshold probe now w i)) as (ops & -> & Hops).
    assert (exists pre, routing (recover_one interval backoff threshold probe now w i)
      = foldl (fun s o => apply_op o s) (routing w) pre /\ Forall spares_operator pre) as (pre & -> & Hpre).
    { unfold recover_one. destruct (probe i) as [healthy|]; [|by exists []]. destruct (negb (asked _ _ _ _)); [by exists []|].
      destruct (negb healthy); [by exists []|]. cbv zeta. destruct (_ <? threshold); [by exists []|].
      rewrite auto_enable_world. destruct (decide _); [|by exists []].
      exists [OAutoEnable i]. split; [done|by constructor]. }
    exists (pre ++ ops). rewrite foldl_app. split; [done|by apply Forall_app].
Qed.

Lemma ops_disabled (ops : list op) : forall s id,
  switch_wf s -> id ∈ knownUpstreams s -> Forall spares_operator ops ->
  bool_decide (id ∈ disabledUpstreams (foldl (fun s o => apply_op o s) s ops)) = bool_decide (id ∈ disabledUpstreams s).
Proof.
  induction ops as [|o ops IH]; intros s id Hwf Hk Hops; [done|]. apply Forall_cons in Hops as [Ho Hops]. cbn [foldl].
  rewrite IH; [|by apply apply_op_wf|by rewrite apply_op_known|done]. rewrite disabled_apply by done. by destruct o.
Qed.

(** The operator's own switch-offs, and only they, are left to the operator. *)
Lemma step_operator (e : event) (w : world) (id : string) :
  rotation_ok w -> id ∈ knownUpstreams (routing w) ->
  bool_decide (id ∈ disabledUpstreams (routing (step e w)))
  = operator_off id e (bool_decide (id ∈ disabledUpstreams (routing w))) /\
  id ∈ knownUpstreams (routing (step e w)).
Proof.
  intros [Hwf _] Hk. destruct (step_ops e w) as (ops & -> & Hops). split.
  - destruct e; cbn [operator_off]; try by apply ops_disabled. subst ops. cbn [foldl]. by rewrite disabled_apply.
  - by destruct (run_ops ops (routing w) id Hwf Hk) as (_ & -> & _).
Qed.

(** Rotation and credentials agree.  Whatever the order of fatal
    exchanges, operator toggles, picks and recovery passes: an upstream that
    started with credentials never is in rotation without a living one - the
    fatal exchange that retires the last takes it out, and whatever brings it
    back restores its ring - and an upstream the operator switched off stays
    off until the operator switches it on, whatever recovery does. *)
Theorem rotation_keeps_credentials (models upstreams : list string) (wildcard : bool)
    (rs : gmap string credentialRing) (es : list event) :
  (forall id ring, rs !! id = Some ring -> id ∈ upstreams /\ exists ks, ks <> [] /\ ring = newCredentialRing ks) ->
  let w := foldl (fun w e => step e w) (start models upstreams wildcard rs) es in
  (forall id ring, rings w !! id = Some ring -> UpstreamEnabled id (routing w) = true -> 0 < alive ring) /\
  (forall id, id ∈ upstreams ->
     bool_decide (id ∈ disabledUpstreams (routing w)) = foldl (fun off e => operator_off id e off) false es).
Proof.
  intros Hrs. cbv zeta. set (w0 := start models upstreams wildcard rs).
  assert (rotation_ok w0) as Hw0.
  { split.
    { split; cbn; intros id; [by rewrite lookup_empty|]. intros [H|[x Hx]]; [set_solver|by rewrite lookup_empty in Hx]. }
    intros id ring Hring. destruct (Hrs id ring Hring) as (Hin & ks & Hks & ->).
    split_and!; [cbn; set_solver|by destruct ks|intros _]. unfold alive, newCredentialRing. cbn [dead].
    rewrite <- fresh_flags, count_alive_fresh. destruct ks; [done|cbn; lia]. }
  enough (rotation_ok (foldl (fun w e => step e w) w0 es) /\
    forall id, id ∈ upstreams -> bool_decide (id ∈ disabledUpstreams (routing (foldl (fun w e => step e w) w0 es)))
      = foldl (fun off e => operator_off id e off) false es /\
      id ∈ knownUpstreams (routing (foldl (fun w e => step e w) w0 es))) as ([Hwf Hr] & Hoff).
  { split; [|intros id Hid; by apply Hoff]. intros id ring Hring. by apply (Hr id ring Hring). }
  induction es as [|e es IH] using rev_ind.
  - split; [done|]. intros id Hid. cbn. split; [by rewrite bool_decide_false by set_solver|set_solver].
  - rewrite foldl_snoc. destruct IH as [IH1 IH2]. split; [by apply step_rotation|].
    intros id Hid. rewrite foldl_snoc. destruct (IH2 id Hid) as [<- Hk]. by apply step_operator.
Qed.

Lemma rotation_keeps_credentials_witness :
  let w := foldl (fun w e => step e w)
    (start ["gpt"] ["a"] false {["a" := newCredentialRing ["k1"; "k2"]]})
    [EFatal 1 "a" 0 "upstream_auth_failure"; EFatal 2 "a" 1 "upstream_auth_failure";
     EPass 10 0 1 3 (fun _ => Some true)] in
  UpstreamEnabled "a" (routing w) = true /\ option_map alive (rings w !! "a") = Some 2.
Proof.
  intros w. split; [by vm_compute|].
  destruct (rotation_keeps_credentials ["gpt"] ["a"] false {["a" := newCredentialRing ["k1"; "k2"]]}
    [EFatal 1 "a" 0 "upstream_auth_failure"; EFatal 2 "a" 1 "upstream_auth_failure"; EPass 10 0 1 3 (fun _ => Some true)])
    as [H _].
  { intros id ring [<- <-]%lookup_singleton_Some. split; [set_solver|by exists ["k1"; "k2"]]. }
  destruct (rings w !! "a") as [ring|] eqn:Hring; [|by vm_compute in Hring].
  pose proof (H "a" ring Hring ltac:(by vm_compute)) as Hpos. apply (f_equal (option_map alive)) in Hring.
  cbn [option_map] in *. rewrite <- Hring. by vm_compute.
Defined.

(** *** The failed-probe ladder *)
Lemma backoff_loop_spec (todo : nat) : forall ceiling delay,
  0 < delay <= ceiling -> ceiling <= max_int64 ->
  backoff_loop todo ceiling delay = Z.min ceiling (delay * 2 ^ Z.of_nat todo).
Proof.
  induction todo as [|todo IH]; intros ceiling delay Hd Hc; cbn [backoff_loop]; [lia|].
  rewrite Nat2Z.inj_succ, Z.pow_succ_r by lia. pose proof (Z.pow_pos_nonneg 2 (Z.of_nat todo) ltac:(lia) ltac:(lia)) as Hp.
  destruct (Z.leb_spec ceiling delay); [nia|].
  destruct (Z.le_gt_cases (delay * 2) max_int64) as [Hle|Hgt].
  - rewrite wrap64_id by (unfold in_int64, min_int64, max_int64 in *; lia).
    destruct (Z.ltb_spec ceiling (delay * 2)), (Z.leb_spec (delay * 2) 0); cbn [orb]; try nia.
    rewrite IH by lia. f_equal. lia.
  - assert (wrap64 (delay * 2) <= 0) as Hw.
    { unfold wrap64, max_int64 in *. rewrite <- (Z.mod_add _ (-1)), Z.mod_small by lia. lia. }
    rewrite (proj2 (Z.leb_le _ 0) Hw), orb_true_r. nia.
Qed.

(** The ladder of failed probes.  The wait after the [k]-th consecutive
    failure is the probe interval doubled [k - 1] times, never past the
    ceiling and never wrapped, and until it is over the upstream is not
    asked again. *)
Theorem probe_backoff_ladder (interval ceiling k now : Z) (id : string) (b : probeBook) :
  0 < interval -> 0 < ceiling <= max_int64 -> 1 <= k -> fails (default (mkRetry 0 0) (retries b !! id)) = k - 1 ->
  let wait := Z.min ceiling (interval * 2 ^ (k - 1)) in
  probeBackoff interval ceiling k = wait /\
  forall t, asked ceiling t id (failed_probe interval ceiling now id b) = (now + wait <=? t).
Proof.
  intros Hi Hc Hk Hf wait. assert (probeBackoff interval ceiling k = wait) as Hw.
  { unfold probeBackoff, wait. destruct (Z.ltb_spec ceiling interval) as [Hlt|Hge].
    - rewrite backoff_loop_spec by lia. pose proof (Z.pow_pos_nonneg 2 (k - 1) ltac:(lia) ltac:(lia)).
      rewrite Z2Nat.id by lia. nia.
    - rewrite backoff_loop_spec by lia. by rewrite Z2Nat.id by lia. }
  split; [done|]. intros t. unfold asked, failed_probe. cbn [retries]. rewrite lookup_insert_eq, Hf.
  replace (k - 1 + 1) with k by lia. rewrite Hw. rewrite (proj2 (Z.ltb_lt 0 ceiling)) by lia. cbn [andb].
  unfold due, after, add. cbn [next]. rewrite negb_involutive. destruct (Z.ltb_spec t (now + wait)), (Z.leb_spec (now + wait) t); lia || done.
Qed.

Lemma probe_backoff_ladder_witness :
  probeBackoff (10 * second) (15 * minute) 5 = 160 * second /\ probeBackoff (10 * second) (15 * minute) 40 = 15 * minute.
Proof.
  destruct (probe_backoff_ladder (10 * second) (15 * minute) 5 0 "a" (mkBook ∅ {["a" := mkRetry 4 0]})) as [H5 _];
    [done|by vm_compute|done|by vm_compute|].
  destruct (probe_backoff_ladder (10 * second) (15 * minute) 40 0 "a" (mkBook ∅ {["a" := mkRetry 39 0]})) as [H40 _];
    [done|by vm_compute|done|by vm_compute|]. rewrite H5, H40. by split.
Defined.

(** *** One upstream in a pass *)
Record same_at (j : string) (w w' : world) : Prop := {
  sa_auto : autoDisabled (routing w') !! j = autoDisabled (routing w) !! j;
  sa_passes : passes (book w') !! j = passes (book w) !! j;
  sa_retries : retries (book w') !! j = retries (book w) !! j;
  sa_rings : rings w' !! j = rings w !! j;
  sa_off : disabledUpstreams (routing w') = disabledUpstreams (routing w);
  sa_known : knownUpstreams (routing w') = knownUpstreams (routing w)
}.

Lemma same_at_refl (j : string) (w : world) : same_at j w w.
Proof. by split. Qed.

Lemma same_at_trans (j : string) (w1 w2 w3 : world) : same_at j w1 w2 -> same_at j w2 w3 -> same_at j w1 w3.
Proof. intros [] []. split; congruence. Qed.

Section pass.
Variables (interval backoff threshold : Z).

Lemma recover_one_other (probe : string -> option bool) (now : Z) (id j : string) (w : world) :
  j <> id -> same_at j w (recover_one interval backoff threshold probe now w id).
Proof.
  intros Hne. unfold recover_one. destruct (probe id) as [healthy|]; [|apply same_at_refl].
  destruct (negb (asked _ _ _ _)); [apply same_at_refl|]. destruct (negb healthy).
  { split; cbn [failed_probe set_book book routing rings passes retries]; rewrite ?lookup_insert_ne by done; done. }
  cbv zeta. set (w1 := set_book (healthy_probe id (book w)) w). assert (same_at j w w1) as H1.
  { split; cbn [w1 healthy_probe set_book book routing rings passes retries];
      rewrite ?lookup_insert_ne, ?lookup_delete_ne by done; done. }
  destruct (_ <? threshold); [done|]. apply (same_at_trans j w w1); [done|]. rewrite auto_enable_world.
  destruct (decide (id ∈ knownUpstreams (routing w1))) as [Hk|]; [|apply same_at_refl].
  unfold AutoEnableUpstream. destruct (decide (id ∉ _)) as [|_]; [done|].
  split; cbn [set_book book routing rings passes retries snd autoDisabled disabledUpstreams knownUpstreams];
    rewrite ?lookup_delete_ne by done; try done. rewrite reviveRing_lookup, bool_decide_false by done. by destruct (rings w1 !! j).
Qed.

(** The count of consecutive healthy answers after one more, [None] once it
    has restored the upstream. *)
Definition counted (c : Z) (healthy : bool) : option Z :=
  if healthy then if c + 1 <? threshold then Some (c + 1) else None else Some 0.

(** The upstream is out with [c] healthy answers, or back. *)
Definition standing (id : string) (w w' : world) (c : option Z) : Prop :=
  disabledUpstreams (routing w') = disabledUpstreams (routing w) /\
  knownUpstreams (routing w') = knownUpstreams (routing w) /\
  match c with
  | Some c => autoDisabled (routing w') !! id = autoDisabled (routing w) !! id /\ rings w' !! id = rings w !! id /\
      default 0 (passes (book w') !! id) = c
  | None => autoDisabled (routing w') !! id = None /\ rings w' !! id = revive <$> rings w !! id
  end.

Definition answer_at (probe : string -> option bool) (now : Z) (id : string) (w : world) : option bool :=
  if asked backoff now id (book w) then probe id else None.

Lemma recover_one_self (probe : string -> option bool) (now : Z) (id : string) (w : world) :
  id ∈ knownUpstreams (routing w) ->
  let c := default 0 (passes (book w) !! id) in
  standing id w (recover_one interval backoff threshold probe now w id)
    (match answer_at probe now id w with Some h => counted c h | None => Some c end).
Proof.
  intros Hk c. unfold recover_one, answer_at. destruct (probe id) as [healthy|]; [|by destruct (asked _ _ _ _)].
  destruct (asked backoff now id (book w)); cbn [negb]; [|done].
  destruct healthy; cbn [negb counted].
  2:{ unfold standing. cbn [set_book failed_probe routing rings book passes]. by rewrite lookup_insert_eq. }
  cbv zeta. cbn [healthy_probe passes]. rewrite lookup_insert_eq. cbn [default from_option Datatypes.id]. fold c.
  set (w1 := set_book (healthy_probe id (book w)) w). destruct (c + 1 <? threshold).
  { unfold standing, w1. cbn [set_book healthy_probe routing rings book passes]. by rewrite lookup_insert_eq. }
  rewrite auto_enable_world. rewrite decide_True by done. unfold standing, AutoEnableUpstream.
  rewrite (decide_False (P := id ∉ _)) by (intros H; by apply H).
  cbn [set_book routing rings book snd autoDisabled disabledUpstreams knownUpstreams].
  by rewrite lookup_delete_eq, reviveRing_lookup, bool_decide_true.
Qed.

Lemma pass_others (probe : string -> option bool) (now : Z) (id : string) (ids : list string) : forall w,
  id ∉ ids -> same_at id w (foldl (recover_one interval backoff threshold probe now) w ids).
Proof.
  induction ids as [|i ids IH]; intros w Hid; [apply same_at_refl|]. cbn [foldl].
  apply (same_at_trans id w (recover_one interval backoff threshold probe now w i)).
  - apply recover_one_other. set_solver.
  - apply IH. set_solver.
Qed.

Lemma elem_AutoDisabledIDs (s : Switch) (id : string) : id ∈ AutoDisabledIDs s <-> is_Some (autoDisabled s !! id).
Proof. unfold AutoDisabledIDs. by rewrite merge_sort_Permutation, elem_of_elements, elem_of_dom. Qed.

Lemma NoDup_AutoDisabledIDs (s : Switch) : NoDup (AutoDisabledIDs s).
Proof. unfold AutoDisabledIDs. rewrite merge_sort_Permutation. apply NoDup_elements. Qed.

(** A pass treats an upstream as if it were alone. *)
Lemma pass_self (probe : string -> option bool) (now : Z) (id : string) (w : world) :
  id ∈ knownUpstreams (routing w) ->
  let c := default 0 (passes (book w) !! id) in
  standing id w (recoverAutoDisabled interval backoff threshold probe now w)
    (if bool_decide (id ∈ AutoDisabledIDs (routing w))
     then match answer_at probe now id w with Some h => counted c h | None => Some c end else Some c).
Proof.
  intros Hk c. unfold recoverAutoDisabled. pose proof (NoDup_AutoDisabledIDs (routing w)) as Hnd.
  destruct (decide (id ∈ AutoDisabledIDs (routing w))) as [Hin|Hout].
  2:{ rewrite bool_decide_false by done. destruct (pass_others probe now id _ w Hout) as [H1 H2 H3 H4 H5 H6].
      unfold standing. by rewrite H2. }
  rewrite bool_decide_true by done. apply list_elem_of_split in Hin as (l1 & l2 & Hids). rewrite Hids in *.
  apply NoDup_app in Hnd as (_ & Hdis & Hnd). apply NoDup_cons in Hnd as [Hl2 _].
  assert (id ∉ l1) as Hl1 by (intros H; apply (Hdis id H); set_solver).
  rewrite foldl_app. cbn [foldl]. set (w1 := foldl _ w l1).
  destruct (pass_others probe now id l1 w Hl1) as [A1 A2 A3 A4 A5 A6]. fold w1 in A1, A2, A3, A4, A5, A6.
  set (w2 := recover_one interval backoff threshold probe now w1 id).
  destruct (pass_others probe now id l2 w2 Hl2) as [B1 B2 B3 B4 B5 B6].
  pose proof (recover_one_self probe now id w1 ltac:(by rewrite A6)) as Hself. fold w2 in Hself.
  unfold answer_at, asked in *. rewrite A3, A2 in Hself. fold c in Hself.
  unfold standing in *. rewrite B5, B6, B1, B2, B4.
  rewrite A5, A6, A1, A4 in Hself. exact Hself.
Qed.

(** *** A run of passes *)
Fixpoint count_from (c : Z) (hs : list bool) : option Z :=
  match hs with
  | [] => Some c
  | h :: hs => match counted c h with Some c => count_from c hs | None => None end
  end.

Lemma not_out (s : Switch) (id : string) :
  autoDisabled s !! id = None -> bool_decide (id ∈ AutoDisabledIDs s) = false.
Proof. intros H. apply bool_decide_false. rewrite elem_AutoDisabledIDs, H. by intros [x Hx]. Qed.

(** Once back, passes leave the upstream alone. *)
Lemma run_back (id : string) (ts : list tick) : forall w,
  id ∈ knownUpstreams (routing w) -> autoDisabled (routing w) !! id = None ->
  (run interval backoff threshold id ts w).1 = [] /\
  let w' := (run interval backoff threshold id ts w).2 in
  disabledUpstreams (routing w') = disabledUpstreams (routing w) /\
  autoDisabled (routing w') !! id = None /\ rings w' !! id = rings w !! id.
Proof.
  induction ts as [|t ts IH]; intros w Hk Hout; [done|]. cbn [run].
  pose proof (pass_self (t_probe t) (t_now t) id w Hk) as Hp. rewrite (not_out _ _ Hout) in Hp |- *. cbn [andb].
  set (w1 := recoverAutoDisabled _ _ _ _ _ w) in *. destruct Hp as (Hd & Hk1 & Ha & Hr & _).
  destruct (IH w1) as (IH1 & IH2 & IH3 & IH4); [by rewrite Hk1|by rewrite Ha|].
  destruct (run interval backoff threshold id ts w1) as [more w']. cbn [fst snd app] in *. subst more.
  split; [done|]. by rewrite IH2, IH4.
Qed.

Lemma run_counts (id : string) (ts : list tick) : forall w,
  id ∈ knownUpstreams (routing w) -> is_Some (autoDisabled (routing w) !! id) ->
  let r := run interval backoff threshold id ts w in
  standing id w r.2 (count_from (default 0 (passes (book w) !! id)) r.1).
Proof.
  induction ts as [|t ts IH]; intros w Hk Hout; [done|]. cbn [run].
  pose proof (pass_self (t_probe t) (t_now t) id w Hk) as Hp. cbv zeta in Hp.
  rewrite (bool_decide_true (id ∈ _)) in Hp |- * by (by apply elem_AutoDisabledIDs). cbn [andb].
  unfold answer_at in Hp. set (c := default 0 _) in *. set (w1 := recoverAutoDisabled _ _ _ _ _ w) in *.
  set (answers := if asked backoff (t_now t) id (book w) then match t_probe t id with Some h => [h] | None => [] end else []).
  assert (standing id w w1 (count_from c answers)) as Hp'.
  { unfold answers. destruct (asked _ _ _ _); [|done]. destruct (t_probe t id) as [h|]; [|done].
    cbn [count_from]. by destruct (counted c h). }
  assert (forall more, count_from c (answers ++ more)
    = match count_from c answers with Some c1 => count_from c1 more | None => None end) as Happ.
  { intros more. unfold answers. destruct (asked _ _ _ _); [|done]. destruct (t_probe t id) as [h|]; [|done].
    cbn [app count_from]. by destruct (counted c h). }
  clearbody answers. clear Hp. destruct Hp' as (Hd & Hk1 & Hp'). destruct (count_from c answers) as [c1|] eqn:Hc1.
  - destruct Hp' as (Ha & Hr & Hc). specialize (IH w1 ltac:(by rewrite Hk1) ltac:(by rewrite Ha)). cbv zeta in IH.
    rewrite Hc in IH. destruct (run interval backoff threshold id ts w1) as [more w']. cbn [fst snd] in *.
    rewrite Happ. unfold standing in *. by rewrite Hd, Hk1, Ha, Hr in IH.
  - destruct Hp' as [Ha Hr]. destruct (run_back id ts w1 ltac:(by rewrite Hk1) Ha) as (B1 & B2 & B3 & B4).
    assert (knownUpstreams (routing (run interval backoff threshold id ts w1).2) = knownUpstreams (routing w)) as Bk.
    { rewrite <- Hk1. clear -Hk1 Hk Ha. revert Ha. generalize dependent w1. intros w1 Hk1 _. rewrite <- Hk1 in Hk. clear Hk1.
      revert w1 Hk. induction ts as [|u us IHu]; intros w1 Hk; [done|]. cbn [run].
      destruct (pass_self (t_probe u) (t_now u) id w1 Hk) as (_ & Hku & _).
      specialize (IHu (recoverAutoDisabled interval backoff threshold (t_probe u) (t_now u) w1) ltac:(by rewrite Hku)).
      destruct (run _ _ _ _ us _) as [m w']. cbn [snd] in *. by rewrite IHu. }
    destruct (run interval backoff threshold id ts w1) as [more w']. cbn [fst snd] in *. rewrite Happ.
    unfold standing. by rewrite B2, Bk, B4.
Qed.
End pass.

Lemma has_run_after_false (n c : nat) (hs : list bool) :
  (c < n)%nat -> has_run n (replicate c true ++ false :: hs) <-> has_run n hs.
Proof.
  intros Hc. split.
  - intros (pre & post & Heq). destruct (Nat.le_gt_cases (length pre) c) as [Hle|Hgt].
    + exfalso. assert ((replicate c true ++ false :: hs) !! c = Some false) as Hf
        by (rewrite lookup_app_r, length_replicate, Nat.sub_diag by (rewrite length_replicate; lia); done).
      rewrite Heq, lookup_app_r, lookup_app_l, lookup_replicate_2 in Hf by (rewrite ?length_replicate; lia). done.
    + exists (drop (S c) pre), post. apply (f_equal (drop (S c))) in Heq.
      rewrite (drop_app_le pre) in Heq by lia. rewrite <- Heq. rewrite drop_app_ge by (rewrite length_replicate; lia).
      rewrite length_replicate. by replace (S c - c)%nat with 1%nat by lia.
  - intros (pre & post & ->). exists (replicate c true ++ false :: pre), post. by rewrite <- !app_assoc.
Qed.

Lemma count_from_run (threshold : Z) (hs : list bool) : forall c, 0 <= c < threshold ->
  count_from threshold c hs = None <-> has_run (Z.to_nat threshold) (replicate (Z.to_nat c) true ++ hs).
Proof.
  induction hs as [|[|] hs IH]; intros c Hc; cbn [count_from counted].
  - split; [done|]. intros (pre & post & Heq). apply (f_equal length) in Heq.
    rewrite !length_app, !length_replicate in Heq. cbn in Heq. lia.
  - assert (replicate (Z.to_nat c) true ++ true :: hs = replicate (Z.to_nat (c + 1)) true ++ hs) as ->.
    { replace (Z.to_nat (c + 1)) with (Z.to_nat c + 1)%nat by lia. by rewrite replicate_add, <- app_assoc. }
    destruct (Z.ltb_spec (c + 1) threshold); [by apply IH; lia|]. split; [|done]. intros _. exists [], hs.
    by replace (c + 1) with threshold by lia.
  - rewrite IH by lia. cbn [Z.to_nat replicate app]. by rewrite has_run_after_false by lia.
Qed.

(** The restore threshold.  An upstream the system took out comes back
    at exactly the pass that completes [threshold] healthy answers in a row -
    counting the healthy answers the book already held - whatever the other
    upstreams answer and whichever passes skip it; until then its ring and
    its disable stand, and when it comes back its credentials are restored.
    The operator's own switch-offs are never touched. *)
Theorem recovery_threshold (interval backoff threshold : Z) (id : string) (ts : list tick) (w : world) :
  id ∈ knownUpstreams (routing w) -> is_Some (autoDisabled (routing w) !! id) ->
  0 <= default 0 (passes (book w) !! id) < threshold ->
  let r := run interval backoff threshold id ts w in
  let held := replicate (Z.to_nat (default 0 (passes (book w) !! id))) true in
  (autoDisabled (routing r.2) !! id = None <-> has_run (Z.to_nat threshold) (held ++ r.1)) /\
  rings r.2 !! id = (match autoDisabled (routing r.2) !! id with Some _ => rings w !! id | None => revive <$> rings w !! id end) /\
  disabledUpstreams (routing r.2) = disabledUpstreams (routing w).
Proof.
  intros Hk Hout Hp r held. pose proof (run_counts interval backoff threshold id ts w Hk Hout) as Hrun.
  cbv zeta in Hrun. fold r in Hrun. unfold held. rewrite <- count_from_run by done.
  destruct Hout as [x Hx]. destruct Hrun as (Hd & _ & Hc). destruct (count_from _ _ _) as [c|].
  - destruct Hc as (Ha & Hr & _). rewrite Ha, Hx, Hr. by repeat split.
  - destruct Hc as (Ha & Hr). rewrite Ha, Hr. by repeat split.
Qed.

(** Healthy, failing, then three healthy answers at threshold three: back,
    and not before. *)
Definition out_a : world := fatal 0 "a" (-1) "upstream_auth_failure" (start ["m"] ["a"; "b"] false ∅).
Definition asks (hs : list bool) : list tick := imap (fun i h => mkTick (Z.of_nat i * 100) (fun _ => Some h)) hs.

Lemma recovery_threshold_witness :
  autoDisabled (routing (run 10 0 3 "a" (asks [true; false; true; true; true]) out_a).2) !! "a" = None /\
  autoDisabled (routing (run 10 0 3 "a" (asks [true; true; false; true; true]) out_a).2) !! "a" <> None.
Proof.
  split.
  - destruct (recovery_threshold 10 0 3 "a" (asks [true; false; true; true; true]) out_a) as [H _];
      [vm_compute; tauto|eexists; vm_compute; reflexivity|by vm_compute|]. apply H. exists [true; false], []. by vm_compute.
  - destruct (recovery_threshold 10 0 3 "a" (asks [true; true; false; true; true]) out_a) as [H _];
      [vm_compute; tauto|eexists; vm_compute; reflexivity|by vm_compute|]. rewrite H. vm_compute.
    intros (pre & post & Heq). do 3 (destruct pre as [|? pre]; [by inversion Heq|injection Heq as _ Heq]).
    apply (f_equal length) in Heq. cbn in Heq. rewrite length_app in Heq. cbn in Heq. lia.
Defined.

(** The count outlives the disable it belongs to: two healthy answers, the
    operator brings the upstream back, it fails again, and one more healthy
    answer restores it. *)
Lemma stale_passes :
  let pass := EPass 10 0 3 100 (fun _ => Some true) in
  let out := EFatal 200 "a" (-1) "upstream_auth_failure" in
  UpstreamEnabled "a" (routing (foldl (fun w e => step e w) out_a [pass; pass; EOperator "a" true; out; pass])) = true /\
  UpstreamEnabled "a" (routing (foldl (fun w e => step e w) out_a [pass; pass])) = false.
Proof. by vm_compute. Qed.
End RecoveryProps.
