(* ===== verification/RelayPlan.v ===== *)
(** * The fallback plan and the fatal classification (internal/relay: fallback.go, fatal.go)

    [Plan] is the lazily resolved walk over the candidates of the primary
    model and of its fallback models, [Fatal] the classification of a
    completed error exchange.  An upstream is a value of any type [U]. *)
From Stdlib Require Import Ascii.
From stdpp Require Import base numbers gmap sets strings list.
From S2P Require Import Prelude.
Local Open Scope Z_scope.

(** ** The fallback plan (fallback.go) *)
Module Plan.
Section plan.
Context {U : Type}.

Record batch := mkBatch { model : string; candidates : list U }.

(** The plan fields of [requestRun]. *)
Record plan := mkPlan {
  batches : list batch; batchIndex : nat; batchStart : Z; fallbackIndex : nat;
  attempted : gset string
}.

(** [Resolve] is the Job's resolver: nil, or a function that fails
    ([None]) or lists candidates.  Every model is resolved at most once per
    request, so its answer depends on the model alone. *)
Variable Resolve : option (string -> option (list U)).
Variable Fallbacks : list string.

Definition newPlan (Model : string) (Candidates : list U) : plan :=
  mkPlan [mkBatch Model Candidates] 0 1 0 {[Model]}.

Definition next_fallback (p : plan) : plan :=
  mkPlan (batches p) (batchIndex p) (batchStart p) (S (fallbackIndex p)) (attempted p).
Definition mark (m : string) (p : plan) : plan :=
  mkPlan (batches p) (batchIndex p) (batchStart p) (fallbackIndex p) ({[m]} ∪ attempted p).
Definition push_batch (attempt : Z) (b : batch) (p : plan) : plan :=
  mkPlan (batches p ++ [b]) (length (batches p)) attempt (fallbackIndex p) (attempted p).

(** The loop of [advance] over the chain entries not read yet. *)
Fixpoint advance_loop (resolve : string -> option (list U)) (todo : list string) (attempt : Z)
    (p : plan) : bool * plan :=
  match todo with
  | [] => (false, p)
  | m :: todo =>
      let p := next_fallback p in
      if decide (m ∈ attempted p) then advance_loop resolve todo attempt p
      else
        let p := mark m p in
        match resolve m with
        | None | Some [] => advance_loop resolve todo attempt p
        | Some cands => (true, push_batch attempt (mkBatch m cands) p)
        end
  end.

Definition advance (attempt : Z) (p : plan) : bool * plan :=
  match Resolve with
  | None => (false, p)
  | Some resolve => advance_loop resolve (drop (fallbackIndex p) Fallbacks) attempt p
  end.

(** [r.batches[r.batchIndex]]. *)
Definition current (p : plan) : option batch := batches p !! batchIndex p.

(** [b.candidates[offset]]; [None] is the index panic. *)
Definition candidate_at (b : batch) (offset : Z) : option (U * string) :=
  if offset <? 0 then None
  else match candidates b !! Z.to_nat offset with Some c => Some (c, model b) | None => None end.

(** The loop of [target]; its fuel bounds the advances of one call, and an
    advance that succeeds brings a non-empty batch, so one is enough. *)
Fixpoint target_loop (fuel : nat) (attempt offset : Z) (p : plan) : option (U * string) * plan :=
  match fuel, current p with
  | O, _ | _, None => (None, p)
  | S fuel, Some b =>
      if offset <? Z.of_nat (length (candidates b)) then (candidate_at b offset, p)
      else
        let (ok, p') := advance attempt p in
        if ok then target_loop fuel attempt (attempt - batchStart p') p'
        else (candidate_at b (Z.of_nat (length (candidates b)) - 1), p')
  end.

Definition target (attempt : Z) (p : plan) : option (U * string) * plan :=
  target_loop 2 attempt (attempt - batchStart p) p.
End plan.
End Plan.

(** ** Fatal upstream conditions (fatal.go) *)
Module Fatal.
Definition reasonAuthFailure : string := "upstream_auth_failure".
Definition reasonQuotaExhausted : string := "upstream_quota_exhausted".

(** The decoded envelope: the code as [fmt.Sprint] prints it, and the
    type. *)
Record upstreamErrorBody := mkErrorBody { Code : string; Type_ : string }.

(** [strings.ToLower] on the ASCII letters. *)
Definition lower_ascii (c : ascii) : ascii :=
  let n := nat_of_ascii c in
  if (65 <=? n)%nat && (n <=? 90)%nat then ascii_of_nat (n + 32) else c.
Fixpoint to_lower (s : string) : string :=
  match s with EmptyString => EmptyString | String c s => String (lower_ascii c) (to_lower s) end.

(** The double quote. *)
Definition quote : ascii := "034".

(** [strings.Trim] of double quotes. *)
Fixpoint trim_left (s : string) : string :=
  match s with
  | String c s' => if Ascii.eqb c quote then trim_left s' else s
  | EmptyString => EmptyString
  end.
Fixpoint trim_right (s : string) : string :=
  match s with
  | EmptyString => EmptyString
  | String c s' =>
      match trim_right s' with
      | EmptyString => if Ascii.eqb c quote then EmptyString else String c EmptyString
      | t => String c t
      end
  end.
Definition trim_quotes (s : string) : string := trim_right (trim_left s).

Definition fatalUpstreamReason (status : Z) (env : upstreamErrorBody) : string :=
  let code := to_lower (trim_quotes (Code env)) in
  let typ := to_lower (Type_ env) in
  if String.eqb typ "insufficient_quota" || String.eqb code "insufficient_quota" then reasonQuotaExhausted
  else if status =? 401 then reasonAuthFailure
  else if (status =? 403) && (String.eqb typ "authentication_error" || String.eqb code "invalid_api_key")
  then reasonAuthFailure
  else "".
End Fatal.

Module PlanSpec.
Import Plan.
Section spec.
Context {U : Type}.
Variable Resolve : option (string -> option (list U)).
Variable Fallbacks : list string.

(** The batches the chain yields, each model once. *)
Fixpoint resolved (resolve : string -> option (list U)) (seen : gset string) (todo : list string)
  : list (@batch U) :=
  match todo with
  | [] => []
  | m :: todo =>
      if decide (m ∈ seen) then resolved resolve seen todo
      else match resolve m with
      | None | Some [] => resolved resolve ({[m]} ∪ seen) todo
      | Some cands => mkBatch m cands :: resolved resolve ({[m]} ∪ seen) todo
      end
  end.

Definition remaining (p : @plan U) : list (@batch U) :=
  match Resolve with
  | None => []
  | Some resolve => resolved resolve (attempted p) (drop (fallbackIndex p) Fallbacks)
  end.

Definition flat (bs : list (@batch U)) : list (U * string) :=
  concat (map (fun b => map (fun c => (c, model b)) (candidates b)) bs).

(** The whole walk: the primary candidates, then every fallback that
    resolves. *)
Definition whole (Model : string) (Candidates : list U) : list (U * string) :=
  flat (mkBatch Model Candidates :: remaining (newPlan Model Candidates)).

(** Attempt [n] is served by position [n] of the walk, the last one serving
    every attempt beyond it. *)
Definition walk (l : list (U * string)) (n : Z) : option (U * string) :=
  l !! Nat.min (Z.to_nat (n - 1)) (length l - 1).

(** The plan after the targets up to [hi] were asked for. *)
Record plan_ok (l : list (U * string)) (hi : Z) (p : @plan U) : Prop := {
  po_split : exists pre b, batches p = pre ++ [b] /\ batchIndex p = length pre /\
    batchStart p = 1 + Z.of_nat (length (flat pre)) /\ candidates b <> [];
  po_whole : l = flat (batches p) ++ flat (remaining p);
  po_hi : batchStart p <= hi /\ (hi <= Z.of_nat (length (flat (batches p))) \/ remaining p = [])
}.
End spec.
End PlanSpec.

Module PlanFacts.
Import Plan PlanSpec.
Section facts.
Context {U : Type}.
Variable Resolve : option (string -> option (list U)).
Variable Fallbacks : list string.

Abbreviation advance := (advance Resolve Fallbacks).
Abbreviation remaining := (remaining Resolve Fallbacks).
Abbreviation target := (target Resolve Fallbacks).

Lemma flat_app (bs1 bs2 : list (@batch U)) : flat (bs1 ++ bs2) = flat bs1 ++ flat bs2.
Proof. unfold flat. by rewrite map_app, concat_app. Qed.

Lemma flat_one (b : @batch U) : flat [b] = map (fun c => (c, model b)) (candidates b).
Proof. unfold flat. cbn. by rewrite app_nil_r. Qed.

(** Advancing takes the first remaining batch, or drains the chain. *)
Lemma advance_loop_spec (resolve : string -> option (list U)) (attempt : Z) (todo : list string) :
  forall p, todo = drop (fallbackIndex p) Fallbacks ->
  let '(ok, p') := advance_loop resolve todo attempt p in
  let rest := resolved resolve (attempted p') (drop (fallbackIndex p') Fallbacks) in
  match resolved resolve (attempted p) todo with
  | [] => ok = false /\ rest = [] /\ batches p' = batches p /\ batchIndex p' = batchIndex p /\
          batchStart p' = batchStart p
  | b :: bs => ok = true /\ rest = bs /\ batches p' = batches p ++ [b] /\
          batchIndex p' = length (batches p) /\ batchStart p' = attempt /\ candidates b <> []
  end.
Proof.
  induction todo as [|m todo IH]; intros p Ht; cbn [advance_loop resolved].
  { cbn zeta. rewrite <- Ht. by split_and!. }
  assert (todo = drop (S (fallbackIndex p)) Fallbacks) as Ht'.
  { rewrite <- Nat.add_1_r, <- drop_drop, <- Ht. done. }
  cbn zeta. cbn [next_fallback attempted]. destruct (decide (m ∈ attempted p)).
  { by apply (IH (next_fallback p)). }
  destruct (resolve m) as [[|c cs]|]; [by apply (IH (mark m (next_fallback p)))| |by apply (IH (mark m (next_fallback p)))].
  cbn [push_batch mark next_fallback fallbackIndex attempted batches batchIndex batchStart].
  rewrite <- Ht'. by split_and!.
Qed.

Lemma advance_spec (attempt : Z) (p : @plan U) :
  let (ok, p') := advance attempt p in
  match remaining p with
  | [] => ok = false /\ remaining p' = [] /\ batches p' = batches p /\ batchIndex p' = batchIndex p /\
          batchStart p' = batchStart p
  | b :: bs => ok = true /\ remaining p' = bs /\ batches p' = batches p ++ [b] /\
          batchIndex p' = length (batches p) /\ batchStart p' = attempt /\ candidates b <> []
  end.
Proof.
  unfold Plan.advance, PlanSpec.remaining. destruct Resolve as [resolve|]; [|by split_and!].
  by apply advance_loop_spec.
Qed.

Lemma candidate_at_map (b : @batch U) (i : Z) :
  0 <= i -> candidate_at b i = map (fun c => (c, model b)) (candidates b) !! Z.to_nat i.
Proof.
  intros Hi. unfold candidate_at. rewrite (proj2 (Z.ltb_ge i 0)) by lia.
  rewrite (list_lookup_fmap (fun c => (c, model b))). by destruct (candidates b !! Z.to_nat i).
Qed.

Lemma walk_batch (pre rest : list (U * string)) (b : @batch U) (n : Z) :
  0 <= n - 1 - Z.of_nat (length pre) < Z.of_nat (length (candidates b)) ->
  walk (pre ++ flat [b] ++ rest) n = candidate_at b (n - 1 - Z.of_nat (length pre)).
Proof.
  intros Hn. unfold walk. rewrite flat_one, candidate_at_map by lia.
  rewrite Nat.min_l by (rewrite !length_app, length_map; lia).
  rewrite lookup_app_r by lia. rewrite lookup_app_l by (rewrite length_map; lia). f_equal. lia.
Qed.

Lemma walk_last (pre : list (U * string)) (b : @batch U) (n : Z) :
  candidates b <> [] -> Z.of_nat (length pre + length (candidates b)) <= n - 1 ->
  walk (pre ++ flat [b]) n = candidate_at b (Z.of_nat (length (candidates b)) - 1).
Proof.
  intros Hne Hn. assert (0 < length (candidates b))%nat by (destruct (candidates b); [done|cbn; lia]).
  unfold walk. rewrite flat_one, candidate_at_map by lia.
  rewrite Nat.min_r by (rewrite length_app, length_map; lia).
  rewrite lookup_app_r by (rewrite !length_app, length_map; lia). rewrite length_app, length_map. f_equal. lia.
Qed.

Lemma candidate_at_some (b : @batch U) (i : Z) :
  0 <= i < Z.of_nat (length (candidates b)) -> is_Some (candidate_at b i).
Proof. intros Hi. rewrite candidate_at_map by lia. apply lookup_lt_is_Some_2. rewrite length_map. lia. Qed.

(** The current batch is exhausted: the next one serves, or the last
    candidate does. *)
Lemma target_advance (l : list (U * string)) (hi attempt : Z) (p : @plan U) (pre : list (@batch U)) (b : @batch U) :
  plan_ok Resolve Fallbacks l hi p -> batches p = pre ++ [b] -> batchIndex p = length pre -> candidates b <> [] ->
  batchStart p <= attempt -> attempt <= hi + 1 ->
  Z.of_nat (length (flat (batches p))) <= attempt - 1 ->
  exists p', (let (ok, p') := advance attempt p in
              if ok then target_loop Resolve Fallbacks 1 attempt (attempt - batchStart p') p'
              else (candidate_at b (Z.of_nat (length (candidates b)) - 1), p')) = (walk l attempt, p') /\
    is_Some (walk l attempt) /\ plan_ok Resolve Fallbacks l attempt p'.
Proof.
  intros [(pre1 & b1 & E1 & _ & Hs1 & _) Hl [Hlo Hhi]] Hb Hi Hne Hst Ha Hlen.
  pose proof (advance_spec attempt p) as Hadv. destruct (advance attempt p) as [ok p'].
  assert (0 < length (candidates b))%nat as Hpos by (destruct (candidates b); [done|cbn; lia]).
  destruct (remaining p) as [|b' bs] eqn:Hrem.
  - destruct Hadv as (-> & Hr & Hb' & Hi' & Hs'). exists p'.
    assert (walk l attempt = candidate_at b (Z.of_nat (length (candidates b)) - 1)) as ->.
    { rewrite Hl, app_nil_r, Hb, flat_app. apply walk_last; [done|].
      rewrite Hb, flat_app, length_app, flat_one, length_map in Hlen. lia. }
    split_and!; [done|by apply candidate_at_some; lia|split].
    + exists pre1, b1. rewrite E1 in Hb. apply app_inj_tail in Hb as [-> ->]. rewrite Hb', Hi', Hs'. by rewrite E1.
    + by rewrite Hb', Hr.
    + split; [lia|by right].
  - destruct Hadv as (-> & Hr & Hb' & Hi' & Hs' & Hne').
    destruct Hhi as [Hhi|]; [|done]. exists p'.
    assert (0 < length (candidates b'))%nat as Hpos' by (destruct (candidates b'); [done|cbn; lia]).
    assert (current p' = Some b') as Hcur'.
    { unfold current. rewrite Hb', Hi', lookup_app_r by lia. by rewrite Nat.sub_diag. }
    cbn [target_loop]. rewrite Hcur', Hs', Z.sub_diag. rewrite (proj2 (Z.ltb_lt 0 _)) by lia.
    change (b' :: bs) with ([b'] ++ bs) in Hl. rewrite flat_app in Hl.
    assert (walk l attempt = candidate_at b' 0) as ->.
    { rewrite Hl, walk_batch by lia. f_equal. lia. }
    split_and!; [done|by apply candidate_at_some; lia|split].
    + exists (batches p), b'. rewrite Hb', Hi', Hs'. split_and!; [done..|lia|done].
    + by rewrite Hb', Hr, Hl, flat_app, app_assoc.
    + rewrite Hs', Hb', flat_app, length_app, flat_one, length_map. split; [lia|left; lia].
Qed.

(** One target: position [attempt] of the walk, and the plan stays ready for
    the same or the next attempt. *)
Lemma target_spec (l : list (U * string)) (hi attempt : Z) (p : @plan U) :
  plan_ok Resolve Fallbacks l hi p -> hi <= attempt <= hi + 1 ->
  exists p', target attempt p = (walk l attempt, p') /\ is_Some (walk l attempt) /\
    plan_ok Resolve Fallbacks l attempt p'.
Proof.
  intros Hok Ha. pose proof Hok as [(pre & b & Hb & Hi & Hs & Hne) Hl [Hlo Hhi]].
  assert (current p = Some b) as Hcur.
  { unfold current. rewrite Hb, Hi, lookup_app_r by lia. by rewrite Nat.sub_diag. }
  assert (length (flat (batches p)) = length (flat pre) + length (candidates b))%nat as Hlen
    by (rewrite Hb, flat_app, flat_one, length_app, length_map; done).
  unfold Plan.target. change (target_loop Resolve Fallbacks 2 attempt (attempt - batchStart p) p)
    with (match current p with
          | None => (None, p)
          | Some b =>
              if attempt - batchStart p <? Z.of_nat (length (candidates b))
              then (candidate_at b (attempt - batchStart p), p)
              else
                let (ok, p') := advance attempt p in
                if ok then target_loop Resolve Fallbacks 1 attempt (attempt - batchStart p') p'
                else (candidate_at b (Z.of_nat (length (candidates b)) - 1), p')
          end).
  rewrite Hcur. destruct (Z.ltb_spec (attempt - batchStart p) (Z.of_nat (length (candidates b)))) as [Hlt|Hge].
  - assert (walk l attempt = candidate_at b (attempt - batchStart p)) as Hw.
    { rewrite Hl, Hb, flat_app, <- app_assoc, walk_batch by lia. f_equal. lia. }
    exists p. rewrite Hw. split_and!; [done|apply candidate_at_some; lia|].
    split; [by exists pre, b|done|]. split; [lia|left; lia].
  - by apply (target_advance l hi attempt p pre b); try done; lia.
Qed.

(** A chain never serves the same model twice. *)
Lemma resolved_models (resolve : string -> option (list U)) (todo : list string) : forall seen,
  NoDup (map model (resolved resolve seen todo)) /\
  forall m, m ∈ map model (resolved resolve seen todo) -> (m ∉ seen) /\ m ∈ todo.
Proof.
  induction todo as [|m todo IH]; intros seen; cbn [resolved map]; [split; [constructor|set_solver]|].
  destruct (decide (m ∈ seen)); [destruct (IH seen) as [H1 H2]; split; [done|set_solver]|].
  destruct (IH ({[m]} ∪ seen)) as [H1 H2].
  destruct (resolve m) as [[|c cs]|]; [split; [done|set_solver]| |split; [done|set_solver]].
  cbn [map model]. split; [constructor; [set_solver|done]|set_solver].
Qed.

Lemma newPlan_ok (Model : string) (Candidates : list U) :
  Candidates <> [] ->
  plan_ok Resolve Fallbacks (whole Resolve Fallbacks Model Candidates) 1 (newPlan Model Candidates).
Proof.
  intros Hne. split.
  - by exists [], (mkBatch Model Candidates).
  - unfold whole. change (mkBatch Model Candidates :: ?l) with ([mkBatch Model Candidates] ++ l).
    by rewrite flat_app.
  - split; [done|]. left. cbn [newPlan batches]. rewrite flat_one, length_map.
    destruct Candidates; [done|cbn; lia].
Qed.
End facts.
End PlanFacts.

Module PlanProps.
Import Plan PlanSpec PlanFacts.

(** A run of the attempt loop asks for each target once or twice (the
    Retry-After lookahead), in order. *)
Fixpoint paced (hi : Z) (ns : list Z) : Prop :=
  match ns with
  | [] => True
  | n :: ns => hi <= n <= hi + 1 /\ paced n ns
  end.

Fixpoint targets {U : Type} (Resolve : option (string -> option (list U))) (Fallbacks : list string)
    (ns : list Z) (p : @plan U) : list (option (U * string)) :=
  match ns with
  | [] => []
  | n :: ns => let (c, p) := target Resolve Fallbacks n p in c :: targets Resolve Fallbacks ns p
  end.

(** C15. The failover walk.  Whatever the chain and the resolver, the targets
    of a run of attempts - lookaheads included - are the positions of one
    fixed list: the primary candidates in order, then the candidates of
    every fallback model that resolves, in chain order and each model once;
    attempts past its end stay on its last candidate.  No target ever
    misses. *)
Theorem failover_walk {U : Type} (Resolve : option (string -> option (list U))) (Fallbacks : list string)
    (Model : string) (Candidates : list U) (ns : list Z) :
  Candidates <> [] -> paced 1 ns ->
  let rest := remaining Resolve Fallbacks (newPlan Model Candidates) in
  let l := map (fun c => (c, Model)) Candidates ++ flat rest in
  targets Resolve Fallbacks ns (newPlan Model Candidates) = map (walk l) ns /\
  Forall (fun n => is_Some (walk l n)) ns /\
  NoDup (Model :: map model rest) /\ (forall m, m ∈ map model rest -> m ∈ Fallbacks).
Proof.
  intros Hne Hns rest l.
  pose proof (newPlan_ok Resolve Fallbacks Model Candidates Hne) as Hok.
  assert (whole Resolve Fallbacks Model Candidates = l) as Hl.
  { unfold whole. fold rest. change (mkBatch Model Candidates :: rest) with ([mkBatch Model Candidates] ++ rest).
    by rewrite flat_app, flat_one. }
  rewrite Hl in Hok. assert (NoDup (Model :: map model rest) /\ forall m, m ∈ map model rest -> m ∈ Fallbacks) as Hrest.
  { unfold rest, remaining. destruct Resolve as [resolve|]; cbn; [|split; [repeat constructor; set_solver|set_solver]].
    destruct (resolved_models resolve (drop 0 Fallbacks) {[Model]}) as [H1 H2].
    split; [constructor; [|done]|]; set_solver. }
  enough (targets Resolve Fallbacks ns (newPlan Model Candidates) = map (walk l) ns /\
    Forall (fun n => is_Some (walk l n)) ns) as [H1 H2] by (by destruct Hrest).
  clearbody l. clear Hl Hrest Hne rest.
  revert Hok Hns. generalize (newPlan Model Candidates) as p, 1 as hi.
  induction ns as [|n ns IH]; intros p hi Hok Hns; [split; [done|constructor]|]. destruct Hns as [Hn Hns].
  cbn [targets map]. destruct (target_spec Resolve Fallbacks l hi n p Hok Hn) as (p' & -> & Hw & Hok').
  destruct (IH p' n Hok' Hns) as [-> Hall]. by split; [|constructor].
Qed.

Lemma failover_walk_witness :
  let resolve m := if String.eqb m "down" then None else Some [m +:+ "-1"; m +:+ "-2"] in
  targets (Some resolve) ["down"; "gpt"; "gpt"; "mini"] [1; 2; 2; 3; 4; 5; 6; 7] (newPlan "big" ["big-1"])
  = map Some [("big-1", "big"); ("gpt-1", "gpt"); ("gpt-1", "gpt"); ("gpt-2", "gpt");
              ("mini-1", "mini"); ("mini-2", "mini"); ("mini-2", "mini"); ("mini-2", "mini")].
Proof.
  intros resolve.
  destruct (failover_walk (Some resolve) ["down"; "gpt"; "gpt"; "mini"] "big" ["big-1"] [1; 2; 2; 3; 4; 5; 6; 7])
    as [H _]; [done|by cbn; lia|]. rewrite H. by vm_compute.
Defined.
End PlanProps.
