(* ===== verification/Stream.v ===== *)
(** * The streaming pumps (internal/relay/stream.go, internal/protocol/schema.go)

    A stream body is a list of bytes and how it ends: at EOF ([None]) or
    with a read error, delivered by a read of its own.  [Reader] is the
    buffered line reader, [Pump] the byte passthrough and the transcoded
    relay.  The client's writes can fail at any point. *)
From Stdlib Require Import Ascii.
From stdpp Require Import base numbers sets strings list.
From S2P Require Import Prelude Retry.
Local Open Scope Z_scope.

Definition bytes := list ascii.
Definition bytes_of : string -> bytes := String.list_ascii_of_string.

Definition nl : ascii := "010".
Definition cr : ascii := "013".

#[export] Instance ascii_eq_decision : EqDecision ascii := ascii_dec.

(** ** Reading lines *)
Module Reader.
(** [bufio.NewReader]'s buffer, and the line cap. *)
Definition bufSize : nat := Z.to_nat 4096.
Definition maxStreamLineBytes : Z := Z.shiftl 1 20.

Inductive slice_end := SliceOk | SliceFull | SliceEnd.

(** [ReadSlice('\n')] with [room] bytes of buffer left: the line, what is
    left of the stream, and whether the delimiter, the buffer or the stream
    ended it. *)
Fixpoint readSlice (room : nat) (rem : bytes) : bytes * bytes * slice_end :=
  match room with
  | O => ([], rem, SliceFull)
  | S room =>
      match rem with
      | [] => ([], [], SliceEnd)
      | c :: r =>
          if Ascii.eqb c nl then ([c], r, SliceOk)
          else let '(l, rest, e) := readSlice room r in (c :: l, rest, e)
      end
  end.

(** A line: its bytes, the rest of the stream, and whether the read also
    reported the end. *)
Inductive line_read := Line (line rest : bytes) (at_end : bool) | LineTooLong.

(** The accumulating loop; [None] is out of fuel. *)
Fixpoint accumulate (fuel : nat) (whole rem : bytes) : option line_read :=
  match fuel with
  | O => None
  | S fuel =>
      if maxStreamLineBytes <=? Z.of_nat (length whole) then Some LineTooLong
      else
        let '(l, rest, e) := readSlice bufSize rem in
        match e with
        | SliceFull => accumulate fuel (whole ++ l) rest
        | SliceOk => Some (Line (whole ++ l) rest false)
        | SliceEnd => Some (Line (whole ++ l) rest true)
        end
  end.

Definition readLine (rem : bytes) : option line_read :=
  let '(l, rest, e) := readSlice bufSize rem in
  match e with
  | SliceOk => Some (Line l rest false)
  | SliceEnd => Some (Line l rest true)
  | SliceFull => accumulate (S (length rem)) l rest
  end.

(** Drops the byte [c] from the end. *)
Definition trim_last (c : ascii) (line : bytes) : bytes :=
  match last line with
  | Some d => if Ascii.eqb d c then take (length line - 1) line else line
  | None => line
  end.
Definition trimEOL (line : bytes) : bytes := trim_last cr (trim_last nl line).

Fixpoint cut_prefix (prefix line : bytes) : option bytes :=
  match prefix, line with
  | [], _ => Some line
  | p :: prefix, c :: line => if Ascii.eqb p c then cut_prefix prefix line else None
  | _ :: _, [] => None
  end.

Definition dataPayload (line : bytes) : option bytes :=
  match cut_prefix (bytes_of "data:") line with
  | None => None
  | Some rest => Some (default rest (cut_prefix (bytes_of " ") rest))
  end.

Definition donePayload : bytes := bytes_of "[DONE]".
End Reader.

(** ** Usage (internal/protocol/schema.go) *)
Module UsageCodec.
Record Usage := mkUsage { PromptTokens : Z; CompletionTokens : Z; TotalTokens : Z }.

Fixpoint has_prefix (prefix body : bytes) : bool :=
  match prefix, body with
  | [], _ => true
  | p :: prefix, c :: body => Ascii.eqb p c && has_prefix prefix body
  | _ :: _, [] => false
  end.
Fixpoint contains (needle body : bytes) : bool :=
  has_prefix needle body || match body with [] => false | _ :: body => contains needle body end.

(** The quoted key. *)
Definition usage_key : bytes := "034"%char :: bytes_of "usage" ++ ["034"%char].

(** [unmarshal] decodes the envelope: malformed, or its usage member. *)
Definition ParseUsage (unmarshal : bytes -> option (option Usage)) (body : bytes) : option Usage :=
  if negb (contains usage_key body) then None
  else match unmarshal body with Some (Some u) => Some u | _ => None end.
End UsageCodec.

(** ** The pumps *)
Module Pump.
Import Errors Reader UsageCodec.

Definition errStreamTruncated : goerr := Sentinel "upstream stream ended without the [DONE] terminator".
Definition errStreamLineTooLong : goerr := Sentinel "upstream SSE line exceeded the line cap".

(** What a pump returns ([None]: the stream broke not), and what it wrote
    and flushed. *)
Record pumped := mkPumped {
  usage : option Usage; streamBytes : Z; err : option goerr; written : bytes; flushes : nat
}.

Section pump.
Variable parse_usage : bytes -> option Usage.
(** How the body ends. *)
Variable body_end : option goerr.

(** The state of the loop of [pumpStream]; [writes] counts the writes. *)
Record loop := mkLoop {
  l_usage : option Usage; l_total : Z; l_done : bool; l_data : bool;
  l_out : bytes; l_writes : nat; l_flushes : nat
}.
Definition loop0 : loop := mkLoop None 0 false false [] 0 0.

Definition stop (e : option goerr) (s : loop) : pumped :=
  mkPumped (l_usage s) (l_total s) e (l_out s) (l_flushes s).

(** What a line tells the gateway. *)
Definition note_line (trimmed : bytes) (s : loop) : loop :=
  match dataPayload trimmed with
  | None => s
  | Some payload =>
      mkLoop (match parse_usage payload with Some u => Some u | None => l_usage s end) (l_total s)
        (bool_decide (payload = donePayload) || l_done s) true (l_out s) (l_writes s) (l_flushes s)
  end.

(** [write n] is the error of the [n]-th write to the client. *)
Variable write : nat -> option goerr.

(** One non-empty line: noted, written, counted, flushed when blank. *)
Definition pump_line (line : bytes) (s : loop) : loop + pumped :=
  let trimmed := trimEOL line in
  let s := note_line trimmed s in
  match write (l_writes s) with
  | Some e => inr (stop (Some e) s)
  | None =>
      inl (mkLoop (l_usage s) (l_total s + Z.of_nat (length trimmed) + 1) (l_done s) (l_data s)
        (l_out s ++ trimmed ++ [nl]) (S (l_writes s))
        (if (length trimmed =? 0)%nat then S (l_flushes s) else l_flushes s))
  end.

Fixpoint pump_loop (fuel : nat) (rem : bytes) (s : loop) : option pumped :=
  match fuel with
  | O => None
  | S fuel =>
      match readLine rem with
      | None => None
      | Some LineTooLong => Some (stop (Some errStreamLineTooLong) s)
      | Some (Line line rest at_end) =>
          match (if (0 <? length line)%nat then pump_line line s else inl s) with
          | inr p => Some p
          | inl s =>
              if at_end then
                Some (match body_end with
                  | None => stop (if l_data s && negb (l_done s) then Some errStreamTruncated else None) s
                  | Some e => stop (Some e) s
                  end)
              else pump_loop fuel rest s
          end
      end
  end.

Definition pumpStream (body : bytes) : option pumped := pump_loop (S (length body)) body loop0.
End pump.

(** A stream transcoder renders bytes, and may fail after rendering some. *)
Class StreamTranscoder (T : Type) := {
  Start : string -> T -> T * bytes * option goerr;
  Delta : bytes -> T -> T * bytes * option goerr;
  Finish : option Usage -> T -> T * bytes * option goerr;
  Abort : string -> string -> T -> T * bytes * option goerr
}.

Section transcoded.
Variable parse_usage : bytes -> option Usage.
Variable body_end : option goerr.
Context {T : Type} `{!StreamTranscoder T}.

Record tloop := mkTloop {
  t_state : T; t_usage : option Usage; t_done : bool; t_out : bytes; t_flushes : nat
}.

(** [cw.n]: every rendered byte is counted. *)
Definition tstop (e : option goerr) (s : tloop) : pumped * T :=
  (mkPumped (t_usage s) (Z.of_nat (length (t_out s))) e (t_out s) (t_flushes s), t_state s).

Definition tflush (s : tloop) : tloop :=
  mkTloop (t_state s) (t_usage s) (t_done s) (t_out s) (S (t_flushes s)).

(** One data payload. *)
Definition transcode (payload : bytes) (s : tloop) : tloop + (pumped * T) :=
  if bool_decide (payload = donePayload)
  then inl (tflush (mkTloop (t_state s) (t_usage s) true (t_out s) (t_flushes s)))
  else
    let u := match parse_usage payload with Some u => Some u | None => t_usage s end in
    let '(t, out, e) := Delta payload (t_state s) in
    let s := mkTloop t u (t_done s) (t_out s ++ out) (t_flushes s) in
    match e with Some e => inr (tstop (Some e) s) | None => inl (tflush s) end.

Fixpoint transcoded_loop (fuel : nat) (rem : bytes) (s : tloop) : option (pumped * T) :=
  match fuel with
  | O => None
  | S fuel =>
      match readLine rem with
      | None => None
      | Some LineTooLong => Some (tstop (Some errStreamLineTooLong) s)
      | Some (Line line rest at_end) =>
          match (if (0 <? length line)%nat
                 then match dataPayload (trimEOL line) with Some p => transcode p s | None => inl s end
                 else inl s) with
          | inr p => Some p
          | inl s =>
              if at_end then
                Some (match body_end with
                  | Some e => tstop (Some e) s
                  | None =>
                      if negb (t_done s) then tstop (Some errStreamTruncated) s
                      else
                        let '(t, out, e) := Finish (t_usage s) (t_state s) in
                        tstop e (mkTloop t (t_usage s) (t_done s) (t_out s ++ out) (t_flushes s))
                  end)
              else transcoded_loop fuel rest s
          end
      end
  end.

Definition pumpTranscoded (model : string) (body : bytes) (t : T) : option (pumped * T) :=
  let '(t, out, e) := Start model t in
  let s := mkTloop t None false out 0 in
  match e with
  | Some e => Some (tstop (Some e) s)
  | None => transcoded_loop (S (length body)) body (tflush s)
  end.
End transcoded.
End Pump.

(** ** The event encoder (internal/protocol/sse.go) *)
Module Sse.
Definition doneSentinel : bytes := bytes_of "data: [DONE]" ++ [nl; nl].

(** [writeEventData] past the JSON encoding of the payload. *)
Definition writeEventData (event data : bytes) : bytes :=
  match event with
  | [] => bytes_of "data: " ++ data ++ [nl; nl]
  | _ => bytes_of "event: " ++ event ++ [nl] ++ bytes_of "data: " ++ data ++ [nl; nl]
  end.

Definition WriteData (data : bytes) : bytes := writeEventData [] data.
Definition WriteDone : bytes := doneSentinel.

(** [encode] is the JSON encoding of the error event. *)
Definition WriteAbort (encode : string -> string -> bytes) (code message : string) : bytes :=
  writeEventData (bytes_of "error") (encode code message) ++ WriteDone.
End Sse.

Module StreamSpec.
Import Errors Reader UsageCodec Pump Sse.

(** The lines of a stream, terminators included. *)
Fixpoint split_lines (rem : bytes) : list bytes :=
  match rem with
  | [] => []
  | c :: r =>
      if Ascii.eqb c nl then [c] :: split_lines r
      else match split_lines r with [] => [[c]] | l :: ls => (c :: l) :: ls end
  end.

Definition fits (body : bytes) : Prop :=
  Forall (fun l => Z.of_nat (length l) < maxStreamLineBytes) (split_lines body).

(** What the client receives for a line. *)
Definition normal (line : bytes) : bytes := trimEOL line ++ [nl].

Definition payloads (body : bytes) : list bytes := omap (fun l => dataPayload (trimEOL l)) (split_lines body).

Definition last_usage (parse_usage : bytes -> option Usage) (ps : list bytes) : option Usage :=
  foldl (fun u p => match parse_usage p with Some u => Some u | None => u end) None ps.

(** How a passthrough ends. *)
Definition stream_end (body_end : option goerr) (ps : list bytes) : option goerr :=
  match body_end with
  | Some e => Some e
  | None => if decide (ps = [] \/ donePayload ∈ ps) then None else Some errStreamTruncated
  end.

(** A payload the encoder keeps on one line. *)
Definition one_line (p : bytes) : Prop :=
  (nl ∉ p) /\ last p <> Some cr /\ Z.of_nat (length p) + 8 < maxStreamLineBytes.

Definition encode_stream (ps : list bytes) : bytes := concat (map WriteData ps) ++ WriteDone.
End StreamSpec.

Module StreamFacts.
Import Errors Reader UsageCodec Pump Sse StreamSpec.
#[local] Opaque bufSize maxStreamLineBytes.

Lemma bufSize_pos : (0 < bufSize)%nat.
Proof. by apply Nat.ltb_lt. Qed.

Lemma eqb_nl (c : ascii) : Ascii.eqb c nl = bool_decide (c = nl).
Proof. destruct (Ascii.eqb_spec c nl); [by rewrite bool_decide_true|by rewrite bool_decide_false]. Qed.

(** The first line of a stream, the rest, and whether a terminator ended
    it. *)
Fixpoint first_line (rem : bytes) : bytes * bytes * bool :=
  match rem with
  | [] => ([], [], false)
  | c :: r =>
      if Ascii.eqb c nl then ([c], r, true)
      else let '(l, rest, t) := first_line r in (c :: l, rest, t)
  end.

Lemma first_line_app (rem l rest : bytes) (t : bool) :
  first_line rem = (l, rest, t) ->
  rem = l ++ rest /\ (t = false -> rest = []) /\ (rem <> [] -> l <> []).
Proof.
  revert l. induction rem as [|c r IH]; intros l; cbn [first_line]; [by intros [= <- <- <-]|].
  destruct (Ascii.eqb c nl); [by intros [= <- <- <-]|].
  destruct (first_line r) as [[l' rest'] t'] eqn:E. intros [= <- <- <-].
  destruct (IH l' eq_refl) as (-> & H & _). by split_and!.
Qed.

Lemma split_first (rem l rest : bytes) (t : bool) :
  rem <> [] -> first_line rem = (l, rest, t) -> split_lines rem = l :: split_lines rest.
Proof.
  revert l. induction rem as [|c r IH]; intros l Hne; [done|]. cbn [first_line split_lines].
  destruct (Ascii.eqb c nl); [by intros [= <- <- _]|].
  destruct (first_line r) as [[l' rest'] t'] eqn:E. intros [= <- <- <-].
  destruct r as [|c' r]; [by injection E as <- <- <-|]. by rewrite (IH l').
Qed.

Lemma readSlice_first (room : nat) : forall rem,
  let '(l, rest, e) := readSlice room rem in
  match e with
  | SliceOk => first_line rem = (l, rest, true)
  | SliceEnd => first_line rem = (l, [], false) /\ rest = []
  | SliceFull => length l = room /\ rem = l ++ rest /\
      first_line rem = (let '(l', r', t) := first_line rest in (l ++ l', r', t))
  end.
Proof.
  induction room as [|room IH]; intros rem; cbn [readSlice].
  { split_and!; [done..|]. by destruct (first_line rem) as [[? ?] ?]. }
  destruct rem as [|c r]; [done|]. cbn [first_line].
  destruct (Ascii.eqb c nl); [done|]. specialize (IH r).
  destruct (readSlice room r) as [[l rest] []].
  - by rewrite IH.
  - destruct IH as (<- & -> & ->). split_and!; [done..|]. by destruct (first_line rest) as [[? ?] ?].
  - destruct IH as [-> ->]. done.
Qed.

Lemma readSlice_length (room : nat) (rem : bytes) : (length (readSlice room rem).1.1 <= room)%nat.
Proof.
  revert rem. induction room as [|room IH]; intros rem; cbn [readSlice]; [done|].
  destruct rem as [|c r]; [cbn; lia|]. destruct (Ascii.eqb c nl); [cbn; lia|].
  specialize (IH r). destruct (readSlice room r) as [[l rest] e]. cbn in *. lia.
Qed.

(** A line read: the first line when it fits, and never more than the cap
    and one buffer; the fuel always suffices. *)
Definition reads (rem : bytes) (res : line_read) : Prop :=
  let '(l, rest, t) := first_line rem in
  match res with
  | Line line rest' at_end => line = l /\ rest' = rest /\ at_end = negb t /\
      Z.of_nat (length line) < maxStreamLineBytes + Z.of_nat bufSize
  | LineTooLong => maxStreamLineBytes <= Z.of_nat (length l)
  end.

Lemma accumulate_reads (fuel : nat) : forall whole rem l rest t,
  (length rem < fuel)%nat -> first_line rem = (l, rest, t) ->
  exists res, accumulate fuel whole rem = Some res /\
  match res with
  | Line line rest' at_end => line = whole ++ l /\ rest' = rest /\ at_end = negb t /\
      Z.of_nat (length line) < maxStreamLineBytes + Z.of_nat bufSize
  | LineTooLong => maxStreamLineBytes <= Z.of_nat (length (whole ++ l))
  end.
Proof.
  induction fuel as [|fuel IH]; intros whole rem l rest t Hfuel Hfl; [lia|]. cbn [accumulate].
  destruct (Z.leb_spec maxStreamLineBytes (Z.of_nat (length whole))) as [Hm|Hm].
  { exists LineTooLong. split; [done|]. rewrite length_app. lia. }
  pose proof (readSlice_first bufSize rem) as Hs. pose proof (readSlice_length bufSize rem) as Hlen.
  destruct (readSlice bufSize rem) as [[l1 rest1] []]; cbn [fst] in Hlen.
  - rewrite Hs in Hfl. injection Hfl as <- <- <-. eexists; split; [done|]. cbn. split_and!; [done..|].
    rewrite length_app. lia.
  - destruct Hs as (Hl1 & -> & Hs). rewrite Hs in Hfl.
    destruct (first_line rest1) as [[l2 rest2] t2] eqn:E. injection Hfl as <- <- <-.
    destruct (IH (whole ++ l1) rest1 l2 rest2 t2) as (res & Hres & H); [|done|].
    { rewrite length_app in Hfuel. pose proof bufSize_pos. lia. }
    exists res. rewrite <- app_assoc in H. done.
  - destruct Hs as [Hs ->]. rewrite Hs in Hfl. injection Hfl as <- <- <-. eexists; split; [done|]. cbn.
    split_and!; [done..|]. rewrite length_app. lia.
Qed.

Lemma buf_below_cap : Z.of_nat bufSize < maxStreamLineBytes.
Proof. Transparent bufSize maxStreamLineBytes. by vm_compute. Qed.
#[local] Opaque bufSize maxStreamLineBytes.

Lemma readLine_reads (rem : bytes) : exists res, readLine rem = Some res /\ reads rem res.
Proof.
  unfold readLine, reads. destruct (first_line rem) as [[l rest] t] eqn:Hfl. pose proof buf_below_cap.
  pose proof (readSlice_first bufSize rem) as Hs. pose proof (readSlice_length bufSize rem) as Hlen.
  destruct (readSlice bufSize rem) as [[l1 rest1] []]; cbn [fst] in Hlen.
  - rewrite Hs in Hfl. injection Hfl as <- <- <-. eexists; split; [done|]. cbn. split_and!; [done..|lia].
  - destruct Hs as (Hl1 & -> & Hs). rewrite Hs in Hfl.
    destruct (first_line rest1) as [[l2 rest2] t2] eqn:E. injection Hfl as <- <- <-.
    apply (accumulate_reads _ l1 rest1 l2 rest2 t2); [|done]. rewrite length_app. lia.
  - destruct Hs as [Hs ->]. rewrite Hs in Hfl. injection Hfl as <- <- <-. eexists; split; [done|]. cbn.
    split_and!; [done..|lia].
Qed.
End StreamFacts.

Module PumpFacts.
Import Errors Reader UsageCodec Pump Sse StreamSpec StreamFacts.

Section pump.
Variable parse_usage : bytes -> option Usage.
Variable body_end : option goerr.

Definition no_failure (_ : nat) : option goerr := None.

(** A line whose write succeeds. *)
Definition step (s : loop) (line : bytes) : loop :=
  let trimmed := trimEOL line in
  let s := note_line parse_usage trimmed s in
  mkLoop (l_usage s) (l_total s + Z.of_nat (length trimmed) + 1) (l_done s) (l_data s)
    (l_out s ++ trimmed ++ [nl]) (S (l_writes s))
    (if (length trimmed =? 0)%nat then S (l_flushes s) else l_flushes s).

Definition finish (s : loop) : pumped :=
  match body_end with
  | None => stop (if l_data s && negb (l_done s) then Some errStreamTruncated else None) s
  | Some e => stop (Some e) s
  end.

Lemma pump_loop_lines (fuel : nat) : forall rem s,
  (length rem < fuel)%nat -> fits rem ->
  pump_loop parse_usage body_end no_failure fuel rem s = Some (finish (foldl step s (split_lines rem))).
Proof.
  induction fuel as [|fuel IH]; intros rem s Hfuel Hfit; [lia|]. cbn [pump_loop].
  destruct (readLine_reads rem) as (res & -> & Hr). unfold reads in Hr.
  destruct (first_line rem) as [[l rest] t] eqn:Hfl.
  destruct (first_line_app rem l rest t Hfl) as (Happ & Hend & Hl).
  destruct (decide (rem = [])) as [->|Hne].
  { injection Hfl as <- <- <-. destruct res as [line rest' at_end|]; [|done].
    by destruct Hr as (-> & -> & -> & _). }
  specialize (Hl Hne). pose proof (split_first rem l rest t Hne Hfl) as Hsplit.
  unfold fits in Hfit. rewrite Hsplit in Hfit. apply Forall_cons in Hfit as [Hlen Hfit].
  destruct res as [line rest' at_end|]; [|lia]. destruct Hr as (-> & -> & -> & _).
  destruct (Nat.ltb_spec 0 (length l)); [|destruct l; [done|cbn in *; lia]].
  change (pump_line parse_usage no_failure l s) with (@inl loop pumped (step s l)).
  rewrite Hsplit. cbn [foldl]. destruct t; cbn [negb]; [|by rewrite (Hend eq_refl)].
  apply IH; [|done]. rewrite Happ, length_app in Hfuel. destruct l; [done|cbn in Hfuel; lia].
Qed.

Lemma steps_spec (ls : list bytes) : forall s,
  let ps := omap (fun l => dataPayload (trimEOL l)) ls in
  let s' := foldl step s ls in
  l_out s' = l_out s ++ concat (map normal ls) /\
  l_total s' = l_total s + Z.of_nat (length (concat (map normal ls))) /\
  l_done s' = l_done s || bool_decide (donePayload ∈ ps) /\
  l_data s' = l_data s || bool_decide (ps <> []) /\
  l_usage s' = foldl (fun u p => match parse_usage p with Some u => Some u | None => u end) (l_usage s) ps.
Proof.
  induction ls as [|l ls IH]; intros s; cbn [foldl omap list_omap map concat].
  { cbn. by rewrite app_nil_r, Z.add_0_r, !orb_false_r. }
  destruct (IH (step s l)) as (H1 & H2 & H3 & H4 & H5). cbv zeta in *. rewrite H1, H2, H3, H4, H5. clear.
  rewrite length_app. assert (length (normal l) = S (length (trimEOL l))) as ->
    by (unfold normal; rewrite length_app; cbn; lia).
  unfold step, note_line.
  destruct (dataPayload (trimEOL l)) as [p|]; cbn [l_out l_total l_done l_data l_usage foldl].
  - split_and!; [unfold normal; by rewrite <- !app_assoc|lia| |by rewrite orb_true_r|done].
    set (ps := omap (fun l => dataPayload (trimEOL l)) ls). rewrite (bool_decide_ext (donePayload ∈ p :: ps) (p = donePayload \/ donePayload ∈ ps)).
    2:{ rewrite elem_of_cons. split; intros [H|H]; auto. }
    rewrite bool_decide_or. by destruct (bool_decide (p = donePayload)), (l_done s).
  - split_and!; [unfold normal; by rewrite <- !app_assoc|lia|done..].
Qed.
End pump.

(** *** Trimming *)
Lemma trim_last_snoc (c : ascii) (l : bytes) : trim_last c (l ++ [c]) = l.
Proof.
  unfold trim_last. rewrite last_snoc, Ascii.eqb_refl, length_app. cbn.
  by rewrite Nat.add_sub, take_app_length.
Qed.

Lemma trim_last_other (c : ascii) (l : bytes) : last l <> Some c -> trim_last c l = l.
Proof.
  intros H. unfold trim_last. destruct (last l) as [d|]; [|done].
  destruct (Ascii.eqb_spec d c) as [->|]; done.
Qed.

Lemma trimEOL_line (l : bytes) : last l <> Some cr -> trimEOL (l ++ [nl]) = l.
Proof. intros H. unfold trimEOL. rewrite trim_last_snoc. by apply trim_last_other. Qed.

(** *** Encoding and splitting *)
Lemma split_line (l rest : bytes) : nl ∉ l -> split_lines ((l ++ [nl]) ++ rest) = (l ++ [nl]) :: split_lines rest.
Proof.
  induction l as [|c l IH]; intros Hl; [done|]. cbn [app split_lines].
  destruct (Ascii.eqb_spec c nl) as [->|]; [set_solver|]. by rewrite IH by set_solver.
Qed.

Definition data_line (p : bytes) : bytes := bytes_of "data: " ++ p.

Lemma data_line_payload (p : bytes) : dataPayload (data_line p) = Some p.
Proof. done. Qed.

Lemma last_data_line (p : bytes) : last p <> Some cr -> last (data_line p) <> Some cr.
Proof.
  intros H. unfold data_line. destruct p as [|c p] using rev_ind; [done|].
  rewrite app_assoc, last_snoc. by rewrite last_snoc in H.
Qed.

Lemma WriteData_lines (p rest : bytes) :
  nl ∉ p -> split_lines (WriteData p ++ rest) = (data_line p ++ [nl]) :: [nl] :: split_lines rest.
Proof.
  intros Hp. unfold WriteData, writeEventData.
  replace ((bytes_of "data: " ++ p ++ [nl; nl]) ++ rest) with ((data_line p ++ [nl]) ++ [nl] ++ rest)
    by (unfold data_line; by rewrite <- !app_assoc).
  rewrite split_line; [done|]. unfold data_line. rewrite elem_of_app. intros [H|H]; [|done].
  by apply (bool_decide_pack _) in H.
Qed.
End PumpFacts.

Module StreamProps.
Import Errors Reader UsageCodec Pump Sse StreamSpec StreamFacts PumpFacts.

Lemma pump_loop_returns (parse_usage : bytes -> option Usage) (body_end : option goerr)
    (write : nat -> option goerr) (fuel : nat) : forall rem s,
  (length rem < fuel)%nat -> is_Some (pump_loop parse_usage body_end write fuel rem s).
Proof.
  induction fuel as [|fuel IH]; intros rem s Hfuel; [lia|]. cbn [pump_loop].
  destruct (readLine_reads rem) as (res & -> & Hr). unfold reads in Hr.
  destruct (first_line rem) as [[l rest] t] eqn:Hfl.
  destruct (first_line_app rem l rest t Hfl) as (Happ & Hend & Hl).
  destruct res as [line rest' at_end|]; [|by eauto]. destruct Hr as (-> & -> & -> & _).
  destruct (if (0 <? length l)%nat then _ else _) as [s'|p]; [|by eauto].
  destruct t; cbn [negb]; [|by eauto]. apply IH.
  destruct (decide (rem = [])) as [->|Hne]; [done|]. specialize (Hl Hne).
  rewrite Happ, length_app in Hfuel. destruct l; [done|cbn in Hfuel; lia].
Qed.

(** The byte passthrough.  The pump returns for every body, every body
    end and every client.  While the client accepts the bytes and no line
    reaches the cap, the client receives exactly the upstream's lines, each
    closed by a bare newline, the reported byte count is what it received,
    the usage is the last one a data line carried, and the pump reports the
    body's own error, or a truncated stream exactly when data lines came
    without the [DONE] terminator before EOF. *)
Theorem pump_passthrough (parse_usage : bytes -> option Usage) (body_end : option goerr) (body : bytes) :
  (forall write, is_Some (pumpStream parse_usage body_end write body)) /\
  (fits body -> exists p, pumpStream parse_usage body_end no_failure body = Some p /\
     written p = concat (map normal (split_lines body)) /\
     streamBytes p = Z.of_nat (length (written p)) /\
     usage p = last_usage parse_usage (payloads body) /\
     err p = stream_end body_end (payloads body)).
Proof.
  split; [intros write; apply pump_loop_returns; lia|]. intros Hfit.
  unfold pumpStream. rewrite pump_loop_lines by (done || lia).
  destruct (steps_spec parse_usage (split_lines body) loop0) as (H1 & H2 & H3 & H4 & H5). cbv zeta in *.
  fold (payloads body) in H3, H4, H5. set (s := foldl _ _ _) in *. cbn [loop0 l_out l_total l_done l_data l_usage app orb] in *.
  eexists; split; [done|]. unfold finish, stream_end.
  assert ((if l_data s && negb (l_done s) then Some errStreamTruncated else None)
    = if decide (payloads body = [] \/ donePayload ∈ payloads body) then None else Some errStreamTruncated) as ->.
  { rewrite H3, H4. destruct (decide (payloads body = [])) as [E|E].
    - rewrite bool_decide_false by tauto. by rewrite decide_True by tauto.
    - rewrite bool_decide_true by done. cbn [andb].
      destruct (decide (donePayload ∈ payloads body)) as [D|D].
      + rewrite bool_decide_true, decide_True by tauto. done.
      + rewrite bool_decide_false, decide_False by tauto. done. }
  destruct body_end; cbn [stop written streamBytes usage err]; rewrite H1, H2, H5; by split_and!.
Qed.

Lemma encode_lines (ps : list bytes) :
  Forall one_line ps ->
  split_lines (encode_stream ps)
  = concat (map (fun p => [data_line p ++ [nl]; [nl]]) ps) ++ [data_line donePayload ++ [nl]; [nl]].
Proof.
  unfold encode_stream. induction 1 as [|p ps (Hp & _) _ IH]; [done|].
  cbn [map concat]. rewrite <- app_assoc, WriteData_lines, IH by done. done.
Qed.

Lemma normal_data_line (p : bytes) : last p <> Some cr -> normal (data_line p ++ [nl]) = data_line p ++ [nl].
Proof. intros H. unfold normal. rewrite trimEOL_line; [done|]. by apply last_data_line. Qed.

Lemma encode_concat (ps : list bytes) :
  concat (concat (map (fun p => [data_line p ++ [nl]; [nl]]) ps) ++ [data_line donePayload ++ [nl]; [nl]])
  = encode_stream ps.
Proof.
  unfold encode_stream. induction ps as [|p ps IH]; [done|]. cbn [map concat app]. rewrite IH.
  unfold WriteData, writeEventData, data_line. by rewrite <- !app_assoc.
Qed.

Lemma cap_value : maxStreamLineBytes = 1048576.
Proof. done. Qed.

Lemma encode_fits (ps : list bytes) : Forall one_line ps -> fits (encode_stream ps).
Proof.
  intros Hps. unfold fits. rewrite encode_lines by done. apply Forall_app. split.
  - apply Forall_concat, Forall_map. apply (Forall_impl _ _ _ Hps). intros p (_ & _ & Hl).
    constructor; [|repeat constructor]. unfold data_line. rewrite !length_app. cbn. lia.
  - repeat constructor; rewrite cap_value; cbn; lia.
Qed.

Lemma omap_cons_some {A B : Type} (f : A -> option B) (x : A) (y : B) (l : list A) :
  f x = Some y -> omap f (x :: l) = y :: omap f l.
Proof. intros H. cbn. by rewrite H. Qed.

Lemma omap_cons_none {A B : Type} (f : A -> option B) (x : A) (l : list A) :
  f x = None -> omap f (x :: l) = omap f l.
Proof. intros H. cbn. by rewrite H. Qed.

Lemma data_line_read (p : bytes) : last p <> Some cr -> dataPayload (trimEOL (data_line p ++ [nl])) = Some p.
Proof. intros H. rewrite trimEOL_line by (by apply last_data_line). apply data_line_payload. Qed.

Lemma encode_payloads (ps : list bytes) : Forall one_line ps -> payloads (encode_stream ps) = ps ++ [donePayload].
Proof.
  intros Hps. unfold payloads. rewrite encode_lines by done.
  induction Hps as [|p ps (_ & Hcr & _) _ IH]; [done|]. cbn [map concat app].
  rewrite (omap_cons_some _ _ p) by (by apply data_line_read). rewrite omap_cons_none by done. by rewrite IH.
Qed.

Lemma encode_normal (ps : list bytes) :
  Forall one_line ps -> concat (map normal (split_lines (encode_stream ps))) = encode_stream ps.
Proof.
  intros Hps. rewrite encode_lines by done. rewrite <- encode_concat. f_equal.
  induction Hps as [|p ps (_ & Hcr & _) _ IH]; [done|]. cbn [map concat app].
  by rewrite normal_data_line, IH by done.
Qed.

(** Encoding and relaying events round trip: a stream of one-line
    payloads written by the event encoder and closed by the sentinel decodes
    back to those payloads, and the pump relays it byte for byte, reports
    its exact length and takes it for complete. *)
Theorem sse_roundtrip (parse_usage : bytes -> option Usage) (ps : list bytes) :
  Forall one_line ps ->
  payloads (encode_stream ps) = ps ++ [donePayload] /\
  exists p, pumpStream parse_usage None no_failure (encode_stream ps) = Some p /\
    written p = encode_stream ps /\ streamBytes p = Z.of_nat (length (encode_stream ps)) /\
    err p = None /\ usage p = last_usage parse_usage (ps ++ [donePayload]).
Proof.
  intros Hps. pose proof (encode_payloads ps Hps) as Hpay. split; [done|].
  pose proof (encode_fits ps Hps) as Hfit. unfold pumpStream.
  rewrite pump_loop_lines by (done || lia).
  destruct (steps_spec parse_usage (split_lines (encode_stream ps)) loop0) as (H1 & H2 & H3 & H4 & H5).
  cbv zeta in *. fold (payloads (encode_stream ps)) in H3, H4, H5. rewrite Hpay in H3, H4, H5.
  set (s := foldl _ _ _) in *. cbn [loop0 l_out l_total l_done l_data l_usage app orb] in *.
  rewrite encode_normal in H1, H2 by done. rewrite bool_decide_true in H3 by set_solver.
  eexists; split; [done|]. unfold finish. rewrite H3, andb_false_r.
  cbn [stop written streamBytes usage err]. rewrite H1, H2, H5. by split_and!.
Qed.

Lemma pump_passthrough_witness :
  let body := bytes_of "data: {}" ++ [cr; nl; nl] ++ bytes_of "data: x" in
  pumpStream (fun _ => None) None no_failure body
  = Some (mkPumped None 18 (Some errStreamTruncated) (bytes_of "data: {}" ++ [nl; nl] ++ bytes_of "data: x" ++ [nl]) 1).
Proof.
  intros body. assert (fits body) as Hfit by (repeat constructor; rewrite cap_value; cbn; lia).
  destruct (pump_passthrough (fun _ => None) None body) as [_ H].
  destruct (H Hfit) as (p & Hp & H1 & H2 & H3 & H4). rewrite Hp.
  vm_compute in Hp. injection Hp as <-. by vm_compute.
Defined.

Lemma sse_roundtrip_witness :
  payloads (encode_stream [bytes_of "{1}"; bytes_of "{2}"]) = [bytes_of "{1}"; bytes_of "{2}"; donePayload] /\
  exists p, pumpStream (fun _ => None) None no_failure (encode_stream [bytes_of "{1}"; bytes_of "{2}"]) = Some p /\
    err p = None.
Proof.
  destruct (sse_roundtrip (fun _ => None) [bytes_of "{1}"; bytes_of "{2}"]) as (H & p & Hp & _ & _ & He & _).
  - repeat constructor; try (rewrite cap_value; cbn; lia); try done;
      intros Hin; by apply (bool_decide_pack _) in Hin.
  - split; [exact H|by exists p].
Defined.
End StreamProps.
