(* ===== verification/Text.v ===== *)
(** * Text of the standard library

    The trimming of whitespace, the boolean words and the decimal integers,
    as request headers, environment variables and stored values are read with
    them.  [pretty] prints an integer in decimal, as [strconv.AppendInt]. *)
From Stdlib Require Import Ascii.
From stdpp Require Import base numbers strings pretty list.
From S2P Require Import Prelude Stream.
Import Reader.

Module Text.
(** The encodings of the whitespace runes. *)
Definition space_encodings : list bytes :=
  map (fun b => [ascii_of_nat b]) [9; 10; 11; 12; 13; 32]%nat ++
  map (map ascii_of_nat) ([[194; 133]; [194; 160]; [225; 154; 128]; [226; 128; 168]; [226; 128; 169]; [226; 128; 175];
    [226; 129; 159]; [227; 128; 128]] ++ map (fun b => [226; 128; b]) (seq 128 11))%nat.

(** Drops leading whitespace; [encodings] as they read in this direction. *)
Fixpoint trim_head (fuel : nat) (encodings : list bytes) (s : bytes) : bytes :=
  match fuel with
  | O => s
  | S fuel =>
      match omap (fun e => Reader.cut_prefix e s) encodings with
      | rest :: _ => trim_head fuel encodings rest
      | [] => s
      end
  end.

(** [strings.TrimSpace]. *)
Definition TrimSpace (v : string) : string :=
  let s := bytes_of v in
  let s := trim_head (length s) space_encodings s in
  String.string_of_list_ascii (rev (trim_head (length s) (map (@rev ascii) space_encodings) (rev s))).

(** [strconv.ParseBool]. *)
Definition ParseBool (s : string) : option bool :=
  if existsb (String.eqb s) ["1"; "t"; "T"; "TRUE"; "true"; "True"]%string then Some true
  else if existsb (String.eqb s) ["0"; "f"; "F"; "FALSE"; "false"; "False"]%string then Some false
  else None.

(** [strings.HasPrefix] and [strings.TrimPrefix]. *)
Definition strip_prefix (prefix s : string) : option string :=
  String.string_of_list_ascii <$> cut_prefix (bytes_of prefix) (bytes_of s).

Definition digit (c : ascii) : option N :=
  let n := N_of_ascii c in if (48 <=? n)%N && (n <=? 57)%N then Some (n - 48)%N else None.

Fixpoint digits (acc : N) (s : string) : option N :=
  match s with
  | EmptyString => Some acc
  | String c s => match digit c with Some d => digits (10 * acc + d)%N s | None => None end
  end.

Definition natural (s : string) : option N :=
  match s with EmptyString => None | _ => digits 0 s end.

(** An integer in decimal, with an optional sign. *)
Definition integer (s : string) : option Z :=
  match s with
  | String "+" s => Z.of_N <$> natural s
  | String "-" s => (fun n => Z.opp (Z.of_N n)) <$> natural s
  | _ => Z.of_N <$> natural s
  end.

(** [strconv.ParseInt] in base 10 at 64 bits. *)
Definition ParseInt (s : string) : option Z :=
  match integer s with
  | Some z => if decide (GoInt.in_int64 z) then Some z else None
  | None => None
  end.
End Text.

Module TextFacts.
Import Text.

Lemma digit_char (x : N) : (x < 10)%N -> digit (pretty_N_char x) = Some x.
Proof.
  intros Hx. assert (x = 0 \/ x = 1 \/ x = 2 \/ x = 3 \/ x = 4 \/ x = 5 \/ x = 6 \/ x = 7 \/ x = 8 \/ x = 9)%N as Hc by lia.
  by repeat destruct Hc as [->|Hc]; [..|subst x].
Qed.

Lemma digits_go (x : N) : forall s, digits 0 (pretty_N_go x s) = digits x s.
Proof.
  induction (N.lt_wf_0 x) as [x _ IH]; intros s. destruct (decide (x = 0)%N) as [->|Hx]; [done|].
  rewrite pretty_N_go_step, IH by (try apply N.div_lt; lia). cbn [digits].
  rewrite digit_char by (apply N.mod_lt; done). f_equal. pose proof (N.div_mod x 10). lia.
Qed.

Lemma natural_pretty (n : N) : natural (pretty n) = Some n.
Proof.
  unfold pretty, pretty_N. case_decide as Hn; [by subst|].
  pose proof (digits_go n "") as Hd. cbn [digits] in Hd. destruct (pretty_N_go n "") eqn:E; [|done].
  cbn in Hd. congruence.
Qed.

Lemma integer_pretty (z : Z) : integer (pretty z) = Some z.
Proof.
  assert (forall n : N, integer (pretty n) = Some (Z.of_N n)) as Hn.
  { intros n. pose proof (natural_pretty n) as Hp. destruct (pretty n) as [|c s]; [done|].
    assert (is_Some (digit c)) as [d Hd].
    { revert Hp. unfold natural. cbn [digits]. by destruct (digit c). }
    unfold integer. repeat (case_match; try (by rewrite Hp)); subst; done. }
  destruct z as [|p|p].
  - done.
  - change (pretty (Z.pos p)) with (pretty (N.pos p)). by rewrite Hn.
  - change (pretty (Z.neg p)) with (String "-" (pretty (N.pos p))). cbn [integer].
    by rewrite natural_pretty.
Qed.

Lemma ParseInt_pretty (z : Z) : GoInt.in_int64 z -> ParseInt (pretty z) = Some z.
Proof. intros Hz. unfold ParseInt. by rewrite integer_pretty, decide_True. Qed.

Lemma ParseInt_range (s : string) (z : Z) : ParseInt s = Some z -> GoInt.in_int64 z.
Proof. unfold ParseInt. destruct (integer s); [|done]. case_decide; [|done]. by intros [= <-]. Qed.
End TextFacts.
