(* ===== verification/Protocol.v ===== *)
(** * The relayed response surface (internal/protocol/wire.go)

    Which upstream headers reach a client, under which media type, and the
    rendering of a completed exchange on the canonical wire.  Headers map
    canonical names to first values; [mime.ParseMediaType] is an
    argument. *)
From Stdlib Require Import Ascii.
From stdpp Require Import base numbers gmap sets strings list.
From S2P Require Import Prelude.
Local Open Scope Z_scope.

(** ** The client formats *)
Module Formats.
Definition FormatOpenAIChat : string := "openai-chat".
Definition FormatOpenAIResponses : string := "openai-responses".
Definition FormatAnthropicMessages : string := "anthropic-messages".
End Formats.

Module Wire.
Abbreviation Header := (gmap string string).

(** [header.Get]: the empty string when absent. *)
Definition get (name : string) (h : Header) : string := default ""%string (h !! name).

Definition passthroughHeaderNames : list string := ["Content-Type"; "Retry-After"]%string.

Definition PlainContentType : string := "text/plain; charset=utf-8".

Fixpoint ValidHeaderValue (v : string) : bool :=
  match v with
  | EmptyString => true
  | String c v =>
      let b := nat_of_ascii c in
      if ((b <? 32)%nat && negb (b =? 9)%nat) || (b =? 127)%nat then false else ValidHeaderValue v
  end.

(** [strings.HasSuffix] and the search for a slash. *)
Fixpoint HasSuffix (s suffix : string) : bool :=
  String.eqb s suffix || match s with EmptyString => false | String _ s => HasSuffix s suffix end.
Fixpoint has_slash (s : string) : bool :=
  match s with EmptyString => false | String c s => Ascii.eqb c "/" || has_slash s end.

Definition documentTypes : list string :=
  ["text/html"; "application/xml"; "text/xml"; "multipart/x-mixed-replace";
   "unknown/unknown"; "application/unknown"; "*/*"]%string.

Definition rendersAsDocument (mediaType : string) : bool :=
  if decide (mediaType ∈ documentTypes) then true else HasSuffix mediaType "+xml".

Section forward.
(** The parsed media type, lowercased and free of parameters. *)
Variable ParseMediaType : string -> option string.

Definition ForwardedContentType (v fallback : string) : string :=
  if String.eqb v "" || negb (ValidHeaderValue v) then fallback
  else match ParseMediaType v with
  | None => fallback
  | Some mediaType =>
      if negb (has_slash mediaType) || rendersAsDocument mediaType then fallback else v
  end.

Record rendered := mkRendered { rStatus : Z; rHeader : Header; rBody : string }.

(** The header loop of [renderExchangeBody]. *)
Definition copy_headers (header : Header) (names : list string) : Header :=
  foldl (fun out name =>
    if String.eqb name "Content-Type" then out
    else
      let v := get name header in
      if negb (String.eqb v "") && ValidHeaderValue v then <[name := v]> out else out) ∅ names.

Definition renderExchangeBody (status : Z) (header : Header) (body : string) (names : list string) : rendered :=
  let status := if (status <? 100) || (599 <? status) then 502 else status in
  let out := copy_headers header names in
  mkRendered status
    (<["Content-Type"%string := ForwardedContentType (get "Content-Type" header) PlainContentType]> out) body.

Definition RenderSuccess (status : Z) (header : Header) (body : string) : rendered :=
  renderExchangeBody status header body passthroughHeaderNames.

Definition RenderUpstreamError (status : Z) (header : Header) (body : string) : rendered :=
  renderExchangeBody status header body passthroughHeaderNames.
End forward.
End Wire.

Module WireProps.
Import Wire.

Lemma copy_headers_spec (header : Header) (names : list string) (name v : string) :
  copy_headers header names !! name = Some v ->
  name ∈ names /\ name <> "Content-Type"%string /\ header !! name = Some v /\ v <> ""%string /\ ValidHeaderValue v = true.
Proof.
  unfold copy_headers. enough (forall out : Header, (forall n w, out !! n = Some w ->
      n ∈ names /\ n <> "Content-Type"%string /\ header !! n = Some w /\ w <> ""%string /\ ValidHeaderValue w = true) ->
    forall names', (forall n, n ∈ names' -> n ∈ names) ->
    let out' := foldl (fun out name => if String.eqb name "Content-Type" then out
      else let v := get name header in
        if negb (String.eqb v "") && ValidHeaderValue v then <[name := v]> out else out) out names' in
    forall n w, out' !! n = Some w ->
      n ∈ names /\ n <> "Content-Type"%string /\ header !! n = Some w /\ w <> ""%string /\ ValidHeaderValue w = true) as H.
  { apply (H ∅); [by intros n w; rewrite lookup_empty|done]. }
  intros out Hout names'. revert out Hout. induction names' as [|n names' IH]; intros out Hout Hsub; [done|].
  cbn [foldl]. apply IH; [|set_solver]. destruct (String.eqb_spec n "Content-Type"); [done|]. cbv zeta.
  destruct (String.eqb_spec (get n header) ""); cbn [negb andb]; [done|].
  destruct (ValidHeaderValue (get n header)) eqn:Hv; [|done].
  intros m w [[<- <-]|[_ Hw]]%lookup_insert_Some; [|by apply Hout].
  split_and!; [set_solver|done| |done|done]. unfold get in *. by destruct (header !! n).
Qed.

(** A relayed exchange cannot smuggle anything past its label.  Whatever
    status, headers and body an upstream sends, the client sees a status in
    the renderable range (the upstream's own whenever it is renderable),
    only headers of the passthrough set with the upstream's own values free
    of control bytes, the body unchanged, and always a media type: the
    upstream's, if it parses to a type/subtype no browser renders as a
    document, and plain text otherwise. *)
Theorem exchange_rendered_safely (ParseMediaType : string -> option string) (status : Z)
    (header : Header) (body : string) :
  let r := RenderSuccess ParseMediaType status header body in
  100 <= rStatus r <= 599 /\ (100 <= status <= 599 -> rStatus r = status) /\ rBody r = body /\
  (forall name v, rHeader r !! name = Some v -> name <> "Content-Type"%string ->
     name = "Retry-After"%string /\ header !! name = Some v /\ ValidHeaderValue v = true) /\
  exists ct, rHeader r !! "Content-Type"%string = Some ct /\
    (ct = PlainContentType \/
     header !! "Content-Type"%string = Some ct /\ ValidHeaderValue ct = true /\
     exists m, ParseMediaType ct = Some m /\ has_slash m = true /\ rendersAsDocument m = false).
Proof.
  intros r. unfold r, RenderSuccess, renderExchangeBody. cbn [rStatus rHeader rBody]. split_and!.
  - destruct (Z.ltb_spec status 100), (Z.ltb_spec 599 status); cbn; lia.
  - destruct (Z.ltb_spec status 100), (Z.ltb_spec 599 status); cbn; lia.
  - intros Hs. by rewrite (proj2 (Z.ltb_ge _ _)), (proj2 (Z.ltb_ge 599 _)) by lia.
  - done.
  - intros name v [[<- _]|[_ Hv]]%lookup_insert_Some Hne; [done|].
    apply copy_headers_spec in Hv as (Hin & _ & Hh & _ & Hv).
    unfold passthroughHeaderNames in Hin. split; [|done]. set_solver.
  - eexists. split; [apply lookup_insert_eq|]. unfold ForwardedContentType, get.
    destruct (header !! "Content-Type"%string) as [ct|]; cbn [default from_option id]; [|by left].
    destruct (String.eqb ct ""); [by left|]. destruct (ValidHeaderValue ct) eqn:Hv; cbn [orb negb]; [|by left].
    destruct (ParseMediaType ct) as [m|] eqn:Hm; [|by left].
    destruct (has_slash m) eqn:Hs; cbn [orb negb]; [|by left].
    destruct (rendersAsDocument m) eqn:Hd; [by left|right]. eauto 10.
Qed.
End WireProps.
