(* ===== verification/Tee.v ===== *)
(** * The response tee (internal/httpserver: tee.go)

    [Tee] is the recorder every observing stage wraps around a response
    writer: a header recorded once, every call forwarded, a bounded copy of
    the body.  The downstream writer answers each write with a count and an
    error, which are arguments; the calls it received are recorded in
    order.  The write deadline of [armWriteDeadline] is a transport setting
    and does not change what is written. *)
From stdpp Require Import base numbers strings list.
From S2P Require Import Prelude Stream.
Import GoInt.
Local Open Scope Z_scope.

Module Tee.
(** What the wrapped writer is asked to do. *)
Inductive call := CHeader (status : Z) | CWrite (p : bytes) | CFlush.

Record TeeResponseWriter := mkTee {
  flusher : bool; captureLimit : Z; detached : bool;
  status : Z; wroteHeader : bool; body : bytes; truncated : bool; nbytes : Z; flushed : bool;
  calls : list call
}.

Definition newTee (canFlush : bool) (limit : Z) : TeeResponseWriter :=
  mkTee canFlush limit false 0 false [] false 0 false [].

Definition NewDetachedBufferingTee (canFlush : bool) (limit : Z) : TeeResponseWriter :=
  mkTee canFlush limit true 0 false [] false 0 false [].

Definition NewBufferingTee (canFlush : bool) (limit : Z) : TeeResponseWriter :=
  newTee canFlush (if limit <? 0 then 0 else limit).

Definition NewCountingTee (canFlush : bool) : TeeResponseWriter := newTee canFlush 0.

Definition WriteHeader (st : Z) (t : TeeResponseWriter) : TeeResponseWriter :=
  if wroteHeader t then t
  else mkTee (flusher t) (captureLimit t) (detached t) st true (body t) (truncated t) (nbytes t) (flushed t)
         (calls t ++ [CHeader st]).

(** The mirror of a write into the capture buffer. *)
Definition capture (p : bytes) (t : TeeResponseWriter) : TeeResponseWriter :=
  if 0 <? captureLimit t then
    let room := captureLimit t - Z.of_nat (length (body t)) in
    if 0 <? room then
      let kept := Z.min room (Z.of_nat (length p)) in
      mkTee (flusher t) (captureLimit t) (detached t) (status t) (wroteHeader t)
        (body t ++ take (Z.to_nat kept) p) (kept <? Z.of_nat (length p)) (nbytes t) (flushed t) (calls t)
    else mkTee (flusher t) (captureLimit t) (detached t) (status t) (wroteHeader t)
           (body t) true (nbytes t) (flushed t) (calls t)
  else t.

(** [n] and [failed] are what the wrapped writer answered. *)
Definition Write (n : Z) (failed : bool) (p : bytes) (t : TeeResponseWriter) : (Z * bool) * TeeResponseWriter :=
  let t := if wroteHeader t then t else WriteHeader 200 t in
  let (n, failed) := if detached t && failed then (Z.of_nat (length p), false) else (n, failed) in
  let t := mkTee (flusher t) (captureLimit t) (detached t) (status t) (wroteHeader t) (body t) (truncated t)
             (wrap64 (nbytes t + n)) (flushed t) (calls t ++ [CWrite p]) in
  ((n, failed), capture p t).

Definition Flush (t : TeeResponseWriter) : TeeResponseWriter :=
  mkTee (flusher t) (captureLimit t) (detached t) (status t) (wroteHeader t) (body t) (truncated t) (nbytes t) true
    (if flusher t then calls t ++ [CFlush] else calls t).
End Tee.

Module TeeSpec.
Import Tee.

(** What a handler does with its response writer. *)
Inductive op := OHeader (st : Z) | OWrite (n : Z) (failed : bool) (p : bytes) | OFlush.

Definition step (o : op) (t : TeeResponseWriter) : TeeResponseWriter :=
  match o with
  | OHeader st => WriteHeader st t
  | OWrite n failed p => (Write n failed p t).2
  | OFlush => Flush t
  end.

Definition run (os : list op) (t : TeeResponseWriter) : TeeResponseWriter := foldl (fun t o => step o t) t os.

(** The status the client sees: the first header, 200 at a bare write. *)
Fixpoint sent_status (os : list op) : Z :=
  match os with
  | [] => 0
  | OHeader st :: _ => st
  | OWrite _ _ _ :: _ => 200
  | OFlush :: os => sent_status os
  end.

Definition written (o : op) : option bytes := match o with OWrite _ _ p => Some p | _ => None end.
Definition forwarded (c : call) : option bytes := match c with CWrite p => Some p | _ => None end.
Definition headers (cs : list call) : list Z := omap (fun c => match c with CHeader st => Some st | _ => None end) cs.

(** Every byte the handler handed over. *)
Definition payload (os : list op) : bytes := concat (omap written os).

Definition opened (os : list op) : bool :=
  existsb (fun o => match o with OFlush => false | _ => true end) os.
End TeeSpec.

Module TeeProps.
Import Tee TeeSpec.

Lemma run_snoc (os : list op) (o : op) (t : TeeResponseWriter) : run (os ++ [o]) t = step o (run os t).
Proof. unfold run. by rewrite foldl_snoc. Qed.

Lemma sent_status_snoc (os : list op) (o : op) :
  sent_status (os ++ [o]) = if opened os then sent_status os else sent_status [o].
Proof. induction os as [|[] os IH]; cbn; [done..|exact IH]. Qed.

Lemma opened_snoc (os : list op) (o : op) : opened (os ++ [o]) = opened os || opened [o].
Proof. unfold opened. by rewrite existsb_app. Qed.

Lemma payload_snoc (os : list op) (o : op) : payload (os ++ [o]) = payload os ++ default [] (written o).
Proof. unfold payload. rewrite omap_app, concat_app. f_equal. destruct o; cbn; by rewrite ?app_nil_r. Qed.

(** The capture after one more write. *)
Lemma capture_spec (limit : Z) (seen p : bytes) (t : TeeResponseWriter) :
  captureLimit t = limit -> 0 <= limit -> body t = take (Z.to_nat limit) seen ->
  truncated t = (0 <? limit) && (limit <? Z.of_nat (length seen)) -> p <> [] ->
  body (capture p t) = take (Z.to_nat limit) (seen ++ p) /\
  truncated (capture p t) = (0 <? limit) && (limit <? Z.of_nat (length (seen ++ p))).
Proof.
  intros Hl Hlim Hb Ht Hp. unfold capture. rewrite Hl, Hb.
  assert (0 < length p)%nat as Hpos by (destruct p; [done|cbn; lia]).
  destruct (Z.ltb_spec 0 limit) as [Hpos'|Hzero].
  2:{ rewrite Hb, Ht. replace limit with 0 by lia. done. }
  rewrite length_take, length_app. destruct (Z.ltb_spec 0 (limit - Z.of_nat (Z.to_nat limit `min` length seen))) as [Hr|Hr].
  - cbn [body truncated]. rewrite take_app, (take_ge seen) by lia. split.
    + f_equal. destruct (Z.le_gt_cases (limit - Z.of_nat (length seen)) (Z.of_nat (length p))) as [Hle|Hgt].
      * f_equal. lia.
      * rewrite !take_ge by lia. done.
    + cbn [andb]. destruct (Z.ltb_spec limit (Z.of_nat (length seen + length p)));
        [apply Z.ltb_lt|apply Z.ltb_ge]; lia.
  - cbn [body truncated]. rewrite take_app_le by lia. split; [done|]. cbn [andb]. symmetry. apply Z.ltb_lt. lia.
Qed.

Lemma capture_frame (p : bytes) (t : TeeResponseWriter) :
  captureLimit (capture p t) = captureLimit t /\ status (capture p t) = status t /\
  wroteHeader (capture p t) = wroteHeader t /\ calls (capture p t) = calls t.
Proof. unfold capture. by repeat case_match. Qed.

(** The tee observes and never interferes.  Whatever the handler does
    and the client's connection answers: every write reaches the wrapped
    writer, unchanged and in order, behind exactly one header, the one the
    tee reports as its status; the retained body is the prefix of everything
    written that fits the capture limit, and it is reported truncated
    exactly when something was dropped. *)
Theorem tee_observes (canFlush det : bool) (limit : Z) (os : list op) :
  0 <= limit -> Forall (fun o => written o <> Some []) os ->
  let t := run os (mkTee canFlush limit det 0 false [] false 0 false []) in
  omap forwarded (calls t) = omap written os /\
  headers (calls t) = (if opened os then [status t] else []) /\
  status t = sent_status os /\
  body t = take (Z.to_nat limit) (payload os) /\
  truncated t = (0 <? limit) && (limit <? Z.of_nat (length (payload os))).
Proof.
  intros Hlim Hne. set (t0 := mkTee _ _ _ _ _ _ _ _ _ _).
  enough (let t := run os t0 in captureLimit t = limit /\ wroteHeader t = opened os /\
    omap forwarded (calls t) = omap written os /\ headers (calls t) = (if opened os then [status t] else []) /\
    status t = sent_status os /\ body t = take (Z.to_nat limit) (payload os) /\
    truncated t = (0 <? limit) && (limit <? Z.of_nat (length (payload os)))) as (_ & _ & H) by exact H.
  induction os as [|o os IH] using rev_ind.
  { cbn. rewrite take_nil. split_and!; try done. destruct (Z.ltb_spec 0 limit); [|done]. symmetry. apply Z.ltb_ge. lia. }
  apply Forall_app in Hne as [Hne Ho]. apply Forall_cons in Ho as [Ho _]. specialize (IH Hne). cbv zeta in IH.
  rewrite run_snoc, sent_status_snoc, opened_snoc, payload_snoc, omap_app.
  set (t := run os t0) in *. destruct IH as (Hl & Hw & Hf & Hh & Hs & Hb & Ht).
  destruct o as [st|n failed p|]; cbn [step written opened existsb orb sent_status omap list_omap default].
  - unfold WriteHeader. rewrite Hw, app_nil_r, orb_true_r. destruct (opened os) eqn:Hop; [by rewrite Hf, Hh, Hs, app_nil_r|].
    cbn. unfold headers. rewrite !omap_app, Hf. unfold headers in Hh. rewrite Hh. cbn. rewrite !app_nil_r. done.
  - rewrite orb_true_r. unfold Write. set (t1 := if wroteHeader t then t else WriteHeader 200 t).
    assert (captureLimit t1 = limit /\ omap forwarded (calls t1) = omap written os /\ headers (calls t1) = [status t1] /\
      status t1 = (if opened os then sent_status os else 200) /\ body t1 = body t /\ truncated t1 = truncated t /\
      wroteHeader t1 = true) as (H1 & H2 & H3 & H4 & H5 & H6 & H7).
    { unfold t1, WriteHeader. rewrite Hw. destruct (opened os) eqn:Hop; [by rewrite Hw|].
      cbn. unfold headers in *. by rewrite !omap_app, Hf, Hh, app_nil_r. }
    clearbody t1. destruct (if detached t1 && failed then _ else _) as [n' failed']. cbn [snd].
    set (t2 := mkTee _ _ _ _ _ _ _ _ _ _). destruct (capture_frame p t2) as (C1 & C2 & C3 & C4).
    destruct (capture_spec limit (payload os) p t2) as [C5 C6]; [done|done|cbn; by rewrite H5, Hb|cbn; by rewrite H6, Ht|intros ->; by apply Ho|].
    rewrite C1, C2, C3, C4, C5, C6. cbn [t2 captureLimit status wroteHeader calls from_option].
    unfold headers. rewrite !omap_app. fold (headers (calls t1)). rewrite H2, H3. by rewrite app_nil_r.
  - rewrite !app_nil_r, orb_false_r. cbn [Flush captureLimit wroteHeader status body truncated calls].
    assert (opened os = false -> sent_status os = 0) as Hz.
    { clear. induction os as [|[] os IH]; cbn; try done. }
    split_and!; try done; [destruct (flusher t)..|];
      rewrite ?omap_app; unfold headers in *; rewrite ?omap_app; cbn; rewrite ?app_nil_r; try done.
    rewrite Hs. destruct (opened os); [done|]. by apply Hz.
Qed.

(** An empty write behind a body that exactly fills the buffer is reported
    as a truncation. *)
Lemma empty_write_truncates :
  let t := run [OWrite 2 false (bytes_of "ok"); OWrite 0 false []] (NewBufferingTee true 2) in
  truncated t = true /\ body t = payload [OWrite 2 false (bytes_of "ok"); OWrite 0 false []].
Proof. by vm_compute. Qed.

(** The status, the copy and the cut of a short exchange. *)
Lemma tee_observes_witness :
  let os := [OHeader 502; OWrite 5 false (bytes_of "hello"); OHeader 200; OWrite 0 true (bytes_of "world")] in
  let t := run os (NewDetachedBufferingTee true 7) in
  status t = 502 /\ body t = bytes_of "hellowo" /\ truncated t = true.
Proof.
  intros os t. destruct (tee_observes true true 7 os) as (_ & _ & H1 & H2 & H3); [done|by repeat constructor|].
  change (run os _) with t in H1, H2, H3. rewrite H1, H2, H3. by vm_compute.
Defined.
End TeeProps.
