(* ===== verification/Tokens.v ===== *)
(** * Token estimates (internal/protocol: tokens.go; internal/pipeline: estimate.go, prompttext.go)

    [Tokens] prices one message content: words of a Go string, which [range]
    decodes as UTF-8, floored by its bytes.  [Schema] is the decoded subset
    of a chat request.  [Estimate] is what a request reserves before it is
    forwarded, in [int64] arithmetic. *)
From Stdlib Require Import QArith Ascii.
From stdpp Require Import base numbers strings list.
From S2P Require Import Prelude Stream.
Import GoInt.
Local Open Scope Z_scope.

Module Tokens.
Definition BytesPerToken : Z := 4.

Definition code (c : ascii) : Z := Z.of_nat (nat_of_ascii c).
Definition within (lo hi : Z) (c : ascii) : bool := (lo <=? code c) && (code c <=? hi).
Definition low6 (c : ascii) : Z := Z.land (code c) 63.

Definition RuneError : Z := 65533.

(** The range of the second byte by the first one. *)
Definition second_range (b0 : Z) : Z * Z :=
  if b0 =? 224 then (160, 191) else if b0 =? 237 then (128, 159)
  else if b0 =? 240 then (144, 191) else if b0 =? 244 then (128, 143) else (128, 191).

(** The rune a [range] reads at the head of a string and its width: an
    invalid sequence reads as [RuneError] of width one. *)
Definition decode_rune (c0 : ascii) (rest : bytes) : Z * nat :=
  let b0 := code c0 in
  let '(lo, hi) := second_range b0 in
  if b0 <? 128 then (b0, 1%nat)
  else if (b0 <? 194) || (244 <? b0) then (RuneError, 1%nat)
  else match rest with
  | c1 :: rest =>
      if negb (within lo hi c1) then (RuneError, 1%nat)
      else if b0 <? 224 then (Z.lor (Z.shiftl (Z.land b0 31) 6) (low6 c1), 2%nat)
      else match rest with
      | c2 :: rest =>
          if negb (within 128 191 c2) then (RuneError, 1%nat)
          else if b0 <? 240
          then (Z.lor (Z.shiftl (Z.land b0 15) 12) (Z.lor (Z.shiftl (low6 c1) 6) (low6 c2)), 3%nat)
          else match rest with
          | c3 :: _ =>
              if negb (within 128 191 c3) then (RuneError, 1%nat)
              else (Z.lor (Z.shiftl (Z.land b0 7) 18)
                      (Z.lor (Z.shiftl (low6 c1) 12) (Z.lor (Z.shiftl (low6 c2) 6) (low6 c3))), 4%nat)
          | [] => (RuneError, 1%nat)
          end
      | [] => (RuneError, 1%nat)
      end
  | [] => (RuneError, 1%nat)
  end.

Fixpoint runes (fuel : nat) (s : bytes) : list Z :=
  match fuel, s with
  | S fuel, c :: rest => let (r, n) := decode_rune c rest in r :: runes fuel (drop (n - 1) rest)
  | _, _ => []
  end.

(** [unicode.IsSpace]. *)
Definition IsSpace (r : Z) : bool :=
  ((9 <=? r) && (r <=? 13)) || (r =? 32) || (r =? 133) || (r =? 160) || (r =? 5760) ||
  ((8192 <=? r) && (r <=? 8202)) || (r =? 8232) || (r =? 8233) || (r =? 8239) || (r =? 8287) || (r =? 12288).

Definition word_step (acc : Z * bool) (r : Z) : Z * bool :=
  if IsSpace r then (acc.1, false) else if acc.2 then acc else (acc.1 + 1, true).

Definition countWords (s : bytes) : Z := (foldl word_step (0, false) (runes (length s) s)).1.

Definition EstimateContentTokens (content : string) : Z :=
  let s := bytes_of content in Z.max (countWords s) (Z.quot (Z.of_nat (length s)) BytesPerToken).
End Tokens.

Module Schema.
Record ChatMessage := mkMessage { mRole : string; Content : string }.

(** A pointer field is an option. *)
Record ChatRequest := mkChat {
  Model : string; Stream : bool; Messages : list ChatMessage; MaxTokens : option Z;
  Temperature : option Q; TopP : option Q; N : option Z
}.

Definition MaxBodyBytes : Z := Z.shiftl 4 20.
End Schema.

Module Estimate.
Import Tokens Schema.

Definition DefaultCompletionReserve : Z := 256.

Definition promptEstimate (req : ChatRequest) : Z :=
  let prompt := foldl (fun prompt m => wrap64 (prompt + EstimateContentTokens (Content m))) 0 (Messages req) in
  if prompt =? 0 then 1 else prompt.

Definition completionEstimate (req : ChatRequest) (maxRequestTokens : Z) : Z :=
  let completion := match MaxTokens req with
    | Some n => if 0 <? n then n else DefaultCompletionReserve
    | None => DefaultCompletionReserve end in
  if (1 <=? maxRequestTokens) && (maxRequestTokens <? completion) then maxRequestTokens else completion.

Definition addSaturating (a b : Z) : Z := let sum := wrap64 (a + b) in if sum <? 0 then max_int64 else sum.

Definition EstimateTokens (req : ChatRequest) (maxRequestTokens : Z) : Z :=
  addSaturating (promptEstimate req) (completionEstimate req maxRequestTokens).

(** [Carrier.EstimatePartialTokens] past the cached prompt estimate. *)
Definition partial_tokens (prompt streamBytes : Z) : Z := wrap64 (prompt + Z.quot streamBytes BytesPerToken).

Definition EstimatePartialTokens (req : ChatRequest) (streamBytes : Z) : Z :=
  partial_tokens (promptEstimate req) streamBytes.

(** [strings.Join(parts, nl)]. *)
Fixpoint join (parts : list string) : string :=
  match parts with
  | [] => ""
  | [p] => p
  | p :: parts => p +:+ String nl (join parts)
  end.

Definition PromptText (req : ChatRequest) : string :=
  join (omap (fun m => if String.eqb (Content m) "" then None else Some (Content m)) (Messages req)).
End Estimate.

Module EstimateProps.
Import Tokens Schema Estimate.

Lemma decode_rune_width (c : ascii) (rest : bytes) : (1 <= (decode_rune c rest).2)%nat.
Proof.
  unfold decode_rune. destruct (second_range (code c)) as [lo hi].
  repeat (case_match; cbn [snd]; try lia).
Qed.

Lemma runes_length (fuel : nat) : forall s, (length (runes fuel s) <= length s)%nat.
Proof.
  induction fuel as [|fuel IH]; intros [|c rest]; cbn [runes length]; [lia..|].
  destruct (decode_rune c rest) as [r n]. cbn [length]. specialize (IH (drop (n - 1) rest)).
  rewrite length_drop in IH. lia.
Qed.

Lemma word_fold_bounds (rs : list Z) : forall acc,
  acc.1 <= (foldl word_step acc rs).1 <= acc.1 + Z.of_nat (length rs).
Proof.
  induction rs as [|r rs IH]; intros acc; cbn [foldl length]; [lia|].
  specialize (IH (word_step acc r)). unfold word_step in *. destruct (IsSpace r); [cbn [fst] in IH; lia|].
  destruct acc as [n []]; cbn [fst snd] in *; lia.
Qed.

(** A content prices between a quarter of its bytes and all of them. *)
Lemma content_bounds (content : string) :
  let n := Z.of_nat (length (bytes_of content)) in n / 4 <= EstimateContentTokens content <= n.
Proof.
  intros n. unfold EstimateContentTokens, BytesPerToken. fold n. rewrite Z.quot_div_nonneg by lia.
  pose proof (word_fold_bounds (runes (length (bytes_of content)) (bytes_of content)) (0, false)) as Hw.
  pose proof (runes_length (length (bytes_of content)) (bytes_of content)). cbn [fst] in Hw. unfold countWords.
  pose proof (Z.div_le_upper_bound n 4 n ltac:(lia) ltac:(lia)). lia.
Qed.

(** The bytes of a prompt. *)
Definition prompt_bytes (req : ChatRequest) : Z :=
  foldr (fun m acc => Z.of_nat (length (bytes_of (Content m))) + acc) 0 (Messages req).
(** Its price, content by content. *)
Definition prompt_price (req : ChatRequest) : Z :=
  foldr (fun m acc => EstimateContentTokens (Content m) + acc) 0 (Messages req).

Lemma price_bounds (req : ChatRequest) : 0 <= prompt_price req <= prompt_bytes req.
Proof.
  unfold prompt_price, prompt_bytes. induction (Messages req) as [|m ms IH]; cbn [foldr]; [lia|].
  pose proof (content_bounds (Content m)) as H. cbv zeta in H.
  pose proof (Z.div_pos (Z.of_nat (length (bytes_of (Content m)))) 4 ltac:(lia) ltac:(lia)). lia.
Qed.

Lemma promptEstimate_price (req : ChatRequest) :
  prompt_bytes req <= MaxBodyBytes -> promptEstimate req = Z.max 1 (prompt_price req).
Proof.
  intros Hb. pose proof (price_bounds req) as Hp. unfold promptEstimate.
  assert (forall ms acc, 0 <= acc ->
    acc + foldr (fun m a => EstimateContentTokens (Content m) + a) 0 ms <= MaxBodyBytes ->
    foldl (fun p m => wrap64 (p + EstimateContentTokens (Content m))) acc ms
    = acc + foldr (fun m a => EstimateContentTokens (Content m) + a) 0 ms) as Hfold.
  { clear. induction ms as [|m ms IH]; intros acc Ha Hle; cbn [foldl foldr] in *; [lia|].
    pose proof (content_bounds (Content m)) as H. cbv zeta in H.
    pose proof (Z.div_pos (Z.of_nat (length (bytes_of (Content m)))) 4 ltac:(lia) ltac:(lia)).
    assert (0 <= foldr (fun m a => EstimateContentTokens (Content m) + a) 0 ms)
      by (apply (price_bounds (mkChat "" false ms None None None None))).
    assert (MaxBodyBytes < 2 ^ 62) by done.
    rewrite wrap64_id by (unfold in_int64, min_int64, max_int64; lia). rewrite IH by lia. lia. }
  rewrite Hfold by (unfold prompt_price in *; lia). fold (prompt_price req). rewrite Z.add_0_l.
  destruct (Z.eqb_spec (prompt_price req) 0); lia.
Qed.

Lemma addSaturating_spec (a b : Z) :
  0 <= a <= max_int64 -> 0 <= b <= max_int64 -> addSaturating a b = Z.min max_int64 (a + b).
Proof.
  intros Ha Hb. unfold addSaturating. destruct (Z.le_gt_cases (a + b) max_int64) as [Hle|Hgt].
  - rewrite wrap64_id by (unfold in_int64, min_int64 in *; lia). destruct (Z.ltb_spec (a + b) 0); lia.
  - assert (wrap64 (a + b) < 0) as Hw.
    { unfold wrap64, max_int64 in *. rewrite <- (Z.mod_add _ (-1)), Z.mod_small by lia. lia. }
    rewrite (proj2 (Z.ltb_lt _ 0) Hw). lia.
Qed.

Lemma completion_bounds (req : ChatRequest) (cap : Z) :
  (forall n, MaxTokens req = Some n -> n <= max_int64) ->
  1 <= completionEstimate req cap <= max_int64 /\ (1 <= cap -> completionEstimate req cap <= cap).
Proof.
  intros Hm. unfold completionEstimate, DefaultCompletionReserve.
  assert (1 <= match MaxTokens req with Some n => if 0 <? n then n else 256 | None => 256 end <= max_int64) as Hc.
  { destruct (MaxTokens req) as [n|]; [|by vm_compute]. specialize (Hm n eq_refl).
    destruct (Z.ltb_spec 0 n); [lia|by vm_compute]. }
  destruct (Z.leb_spec 1 cap); cbn [andb]; [|lia]. destruct (Z.ltb_spec cap (match MaxTokens req with Some n => if 0 <? n then n else 256 | None => 256 end)); lia.
Qed.

(** A reservation is never free and never wraps.  For any request that
    fits the accepted body, whatever completion budget it declares: the
    estimate is the price of the prompt - at least one token, at least a
    token per four bytes of every content - plus the completion budget
    clamped to the tier, saturated at the largest [int64]. *)
Theorem reservation_saturates (req : ChatRequest) (cap : Z) :
  prompt_bytes req <= MaxBodyBytes -> (forall n, MaxTokens req = Some n -> n <= max_int64) ->
  EstimateTokens req cap = Z.min max_int64 (Z.max 1 (prompt_price req) + completionEstimate req cap) /\
  2 <= EstimateTokens req cap <= max_int64 /\
  foldr (fun m acc => Z.of_nat (length (bytes_of (Content m))) / 4 + acc) 0 (Messages req) <= promptEstimate req /\
  (1 <= cap -> EstimateTokens req cap <= promptEstimate req + cap).
Proof.
  intros Hb Hm. pose proof (price_bounds req) as Hp. destruct (completion_bounds req cap Hm) as [Hc Hcap].
  assert (MaxBodyBytes <= max_int64) as Hmax by done. unfold EstimateTokens.
  rewrite promptEstimate_price by done. rewrite addSaturating_spec by (unfold MaxBodyBytes in *; lia).
  assert (2 <= max_int64) by done. split_and!; [done|lia..| |lia].
  transitivity (prompt_price req); [|lia]. unfold prompt_price. clear.
  induction (Messages req) as [|m ms IH]; cbn [foldr]; [lia|].
  pose proof (content_bounds (Content m)) as H. cbv zeta in H. lia.
Qed.

Lemma reservation_saturates_witness :
  let req := mkChat "m" false [mkMessage "user" "aaaaaaaabbbbbbbbccccccccdddddddd"] (Some max_int64) None None None in
  EstimateTokens req 0 = max_int64 /\ EstimateTokens req 100 = 108.
Proof.
  intros req. destruct (reservation_saturates req 0) as [-> _]; [by vm_compute|by intros n [= <-]|].
  destruct (reservation_saturates req 100) as [-> _]; [by vm_compute|by intros n [= <-]|]. by vm_compute.
Defined.
End EstimateProps.
