(* ===== verification/Wires.v ===== *)
(** * The translated wires (internal/protocol: anthropic.go, responses.go)

    The Messages and the Responses surfaces over the canonical chat form:
    ingest of a request, the re-rendering of a reply, and the two stream
    transcoders, instances of the class the relay's pump is written against.
    JSON values are trees; the decoders and the encoder of encoding/json are
    arguments, as are the answers of the client's writer. *)
From Stdlib Require Import Ascii QArith.
From stdpp Require Import base numbers gmap strings list.
From S2P Require Import Prelude Retry Stream Protocol Tokens.
Import GoInt Tokens.Tokens Schema.
Local Open Scope Z_scope.
Set Warnings "-register-all".

(** A value handed to the encoder; the fields of an object as written. *)
Inductive json :=
  | JNull | JNum (n : Z) | JStr (s : string) | JArr (items : list json) | JObj (fields : list (string * json)).

(** ** Ingest *)
Module Ingest.
Section ingest.
(** [json.Unmarshal] into a string, and into an array of typed parts. *)
Variable as_string : string -> option string.
Variable as_parts : string -> option (list (string * string)).
(** [json.Marshal] of the canonical request, with or without the usage
    option. *)
Variable marshal_chat : ChatRequest -> bool -> string + string.
(** [%q]: a quoted string. *)
Variable quoted : string -> string.
(** The order in which a range over a map visits its fields. *)
Variable ranged : list (string * string) -> list (string * string).

(** The joined text of the parts; a part of another type is refused. *)
Fixpoint join_parts (accepted : string -> bool) (refusal : string -> string) (parts : list (string * string)) : string + string :=
  match parts with
  | [] => inl ""%string
  | (type, text) :: parts =>
      if negb (accepted type) then inr (refusal type)
      else match join_parts accepted refusal parts with inl rest => inl (text +:+ rest) | inr e => inr e end
  end.

Definition content_text (accepted : string -> bool) (refusal malformed : string -> string) (raw : string) : string + string :=
  match as_string raw with
  | Some text => inl text
  | None =>
      match as_parts raw with
      | None => inr (malformed raw)
      | Some parts => join_parts accepted refusal parts
      end
  end.

Definition anthropicText : string -> string + string :=
  content_text (fun type => String.eqb type "text")
    (fun type => "unsupported content block type " +:+ quoted type +:+ ": text blocks only")
    (fun _ => "content must be a string or a block array"%string).

Definition responsesText : string -> string + string :=
  content_text (fun type => String.eqb type "input_text" || String.eqb type "output_text")
    (fun type => "unsupported input part type " +:+ quoted type +:+ ": text parts only")
    (fun _ => "content must be a string or a part array"%string).

(** The messages of a conversation, up to the first refused content. *)
Fixpoint converse (text : string -> string + string) (entries : list (string * string)) : list ChatMessage + string :=
  match entries with
  | [] => inl []
  | (role, raw) :: entries =>
      match text raw with
      | inr e => inr e
      | inl content =>
          match converse text entries with inl ms => inl (mkMessage role content :: ms) | inr e => inr e end
      end
  end.

(** A declared field the canonical form cannot carry. *)
Definition declared (raw : string) : bool := negb (String.eqb raw "") && negb (String.eqb raw "null").

Definition refused_field (fields : list (string * string)) : option string :=
  match filter (fun '(_, raw) => declared raw = true) (ranged fields) with
  | [] => None
  | (name, _) :: _ => Some (name +:+ " is not supported by this gateway")
  end.

(** The canonical request of a translated wire and its encoding. *)
Definition canonical_body (chat : ChatRequest) : (ChatRequest * string) + string :=
  match marshal_chat chat (Stream chat) with
  | inl upstream => inl (chat, upstream)
  | inr e => inr ("encode canonical request: " +:+ e)
  end.

(** *** Messages *)

(** A raw field is empty when absent. *)
Record anthropicRequest := mkAnthropicRequest {
  aModel : string; aStream : bool; aSystem : string; aMessages : list (string * string); aMaxTokens : option Z;
  aTemperature : option Q; aTopP : option Q; aStopSequences : list string;
  aTools : string; aToolChoice : string; aThinking : string; aTopK : option Z
}.
Variable unmarshal_messages : string -> anthropicRequest + string.

Definition system_messages (raw : string) : list ChatMessage + string :=
  if String.eqb raw "" then inl []
  else match anthropicText raw with
  | inr e => inr e
  | inl system => inl (if String.eqb system "" then [] else [mkMessage "system" system])
  end.

Definition ingestAnthropic (body : string) : (ChatRequest * string) + string :=
  match unmarshal_messages body with
  | inr e => inr ("malformed messages request: " +:+ e)
  | inl req =>
      if String.eqb (aModel req) "" then inr "model is required"%string
      else if negb (match aMaxTokens req with Some n => 0 <? n | None => false end)
      then inr "max_tokens is required and must be positive"%string
      else if negb (bool_decide (aStopSequences req = [])) then inr "stop_sequences is not supported by this gateway"%string
      else match refused_field [("tools", aTools req); ("tool_choice", aToolChoice req); ("thinking", aThinking req)]%string with
      | Some e => inr e
      | None =>
          if bool_decide (is_Some (aTopK req)) then inr "top_k is not supported by this gateway"%string
          else match system_messages (aSystem req) with
          | inr e => inr e
          | inl system =>
              match converse anthropicText (aMessages req) with
              | inr e => inr e
              | inl messages =>
                  canonical_body (mkChat (aModel req) (aStream req) (system ++ messages) (aMaxTokens req)
                    (aTemperature req) (aTopP req) None)
              end
          end
      end
  end.

(** *** Responses *)
Record responsesRequest := mkResponsesRequest {
  rModel : string; rStream : bool; rInput : string; rInstructions : string; rMaxOutputTokens : option Z;
  rTemperature : option Q; rTopP : option Q; rTools : string; rToolChoice : string; rPrevious : string;
  rReasoning : string; rText : string
}.
Variable unmarshal_responses : string -> responsesRequest + string.
(** The input array: roles and raw contents. *)
Variable as_entries : string -> option (list (string * string)).

Definition input_messages (raw : string) : list ChatMessage + string :=
  if String.eqb raw "" then inl []
  else match as_string raw with
  | Some text => inl [mkMessage "user" text]
  | None =>
      match as_entries raw with
      | None => inr "input must be a string or a message array"%string
      | Some entries => converse responsesText entries
      end
  end.

Definition ingestResponses (body : string) : (ChatRequest * string) + string :=
  match unmarshal_responses body with
  | inr e => inr ("malformed responses request: " +:+ e)
  | inl req =>
      if String.eqb (rModel req) "" then inr "model is required"%string
      else if match rMaxOutputTokens req with Some n => n <=? 0 | None => false end
      then inr "max_output_tokens must be positive"%string
      else match refused_field [("tools", rTools req); ("tool_choice", rToolChoice req); ("reasoning", rReasoning req);
                                ("text", rText req)]%string with
      | Some e => inr e
      | None =>
          if negb (String.eqb (rPrevious req) "") then inr "previous_response_id is not supported by this gateway"%string
          else match input_messages (rInput req) with
          | inr e => inr e
          | inl messages =>
              let messages := if String.eqb (rInstructions req) "" then messages
                              else mkMessage "system" (rInstructions req) :: messages in
              canonical_body (mkChat (rModel req) (rStream req) messages (rMaxOutputTokens req)
                (rTemperature req) (rTopP req) None)
          end
      end
  end.
End ingest.
End Ingest.

(** ** The requests a translated wire accepts *)
Module IngestSpec.
Import Ingest.
Section spec.
Variable as_string : string -> option string.
Variable as_parts : string -> option (list (string * string)).

(** A raw content reads as text: a string, or parts of the wire's text
    types, joined. *)
Definition reads_as (types : list string) (raw text : string) : Prop :=
  as_string raw = Some text \/
  as_string raw = None /\ exists parts, as_parts raw = Some parts /\ Forall (fun part => part.1 ∈ types) parts /\
    text = foldr String.append "" parts.*2.

(** The conversation, its roles kept and every content read. *)
Definition conversation (types : list string) : list (string * string) -> list ChatMessage -> Prop :=
  Forall2 (fun entry m => exists text, m = mkMessage entry.1 text /\ reads_as types entry.2 text).

Definition undeclared (raw : string) : Prop := raw = "" \/ raw = "null".

(** The system prompt leads the messages, when it is not empty. *)
Definition led_by (types : list string) (raw : string) (system : list ChatMessage) : Prop :=
  raw = "" /\ system = [] \/
  raw <> "" /\ exists text, reads_as types raw text /\ system = (if decide (text = "") then [] else [mkMessage "system" text]).

Definition messages_request (req : anthropicRequest) (chat : ChatRequest) : Prop :=
  aModel req <> "" /\ (exists n, aMaxTokens req = Some n /\ 0 < n) /\ aStopSequences req = [] /\
  Forall undeclared [aTools req; aToolChoice req; aThinking req] /\ aTopK req = None /\
  exists system messages, led_by ["text"] (aSystem req) system /\ conversation ["text"] (aMessages req) messages /\
    chat = mkChat (aModel req) (aStream req) (system ++ messages) (aMaxTokens req) (aTemperature req) (aTopP req) None.

(** The input of a Responses request: a user's text, or a conversation. *)
Definition input_of (as_entries : string -> option (list (string * string))) (raw : string) (messages : list ChatMessage) : Prop :=
  raw = "" /\ messages = [] \/
  raw <> "" /\ ((exists text, as_string raw = Some text /\ messages = [mkMessage "user" text]) \/
    as_string raw = None /\ exists entries, as_entries raw = Some entries /\
      conversation ["input_text"; "output_text"] entries messages).

Definition responses_request (as_entries : string -> option (list (string * string))) (req : responsesRequest) (chat : ChatRequest) : Prop :=
  rModel req <> "" /\ (forall n, rMaxOutputTokens req = Some n -> 0 < n) /\
  Forall undeclared [rTools req; rToolChoice req; rReasoning req; rText req] /\ rPrevious req = "" /\
  exists messages, input_of as_entries (rInput req) messages /\
    chat = mkChat (rModel req) (rStream req)
      ((if decide (rInstructions req = "") then [] else [mkMessage "system" (rInstructions req)]) ++ messages)
      (rMaxOutputTokens req) (rTemperature req) (rTopP req) None.
End spec.
End IngestSpec.

Module IngestFacts.
Import Ingest IngestSpec.
Section facts.
Variable as_string : string -> option string.
Variable as_parts : string -> option (list (string * string)).
Variable quoted : string -> string.
Variable ranged : list (string * string) -> list (string * string).
Hypothesis ranged_perm : forall fields, ranged fields ≡ₚ fields.

Lemma join_parts_inl accepted refusal parts text :
  join_parts accepted refusal parts = inl text <->
  Forall (fun part => accepted part.1 = true) parts /\ text = foldr String.append "" parts.*2.
Proof.
  revert text. induction parts as [|[type body] parts IH]; intros text; cbn [join_parts].
  { split; [intros [= <-]; by split|by intros [_ ->]]. }
  rewrite Forall_cons. destruct (accepted type) eqn:E; cbn [negb fst].
  2:{ split; [done|]. intros [[? _] _]. cbn in *. congruence. }
  destruct (join_parts accepted refusal parts) as [rest|e].
  - destruct (proj1 (IH rest) eq_refl) as [Hf Hr]. cbn. rewrite <- Hr. split; [by intros [= <-]|by intros [_ ->]].
  - split; [done|]. intros [[_ Hf] _]. pose proof (proj2 (IH _) (conj Hf eq_refl)). done.
Qed.

Lemma content_text_inl accepted types refusal malformed raw text :
  (forall type, accepted type = true <-> type ∈ types) ->
  content_text as_string as_parts accepted refusal malformed raw = inl text <-> reads_as as_string as_parts types raw text.
Proof.
  intros Ht. unfold content_text, reads_as. destruct (as_string raw) as [s|].
  { split; [intros [= <-]; by left|by intros [[= ->]|[? _]]]. }
  destruct (as_parts raw) as [parts|].
  2:{ split; [done|by intros [?|(_ & ? & ? & _)]]. }
  rewrite join_parts_inl. split.
  - intros [Hf ->]. right. split; [done|]. exists parts. split_and!; try done.
    eapply Forall_impl; [exact Hf|]. cbn. intros ? ?. by apply Ht.
  - intros [?|(_ & ? & [= <-] & Hf & ->)]; [done|]. split; [|done].
    eapply Forall_impl; [exact Hf|]. cbn. intros ? ?. by apply Ht.
Qed.

Lemma converse_inl text types entries messages :
  (forall raw t, text raw = inl t <-> reads_as as_string as_parts types raw t) ->
  converse text entries = inl messages <-> conversation as_string as_parts types entries messages.
Proof.
  intros Ht. unfold conversation. revert messages. induction entries as [|[role raw] entries IH]; intros messages; cbn [converse].
  { split; [intros [= <-]; constructor|by intros ->%Forall2_nil_inv_l]. }
  split.
  - intros H. destruct (text raw) as [content|e] eqn:E; [|done].
    destruct (converse text entries) as [ms|e] eqn:Ec; [|done]. injection H as <-. constructor; [|by apply IH].
    exists content. split; [done|]. by apply Ht.
  - intros (m & ms & (content & -> & Hc) & Hms & ->)%Forall2_cons_inv_l. cbn [fst snd] in *. apply Ht in Hc as ->. by apply IH in Hms as ->.
Qed.

Lemma declared_undeclared raw : declared raw = false <-> undeclared raw.
Proof.
  unfold declared, undeclared. destruct (String.eqb_spec raw ""), (String.eqb_spec raw "null"); cbn; intuition congruence.
Qed.

Lemma refused_field_None fields : refused_field ranged fields = None <-> Forall undeclared fields.*2.
Proof.
  unfold refused_field. transitivity (Forall undeclared (ranged fields).*2); [|by rewrite (ranged_perm fields)].
  induction (ranged fields) as [|[name raw] fs IH]; [by split|].
  rewrite fmap_cons, Forall_cons, <- IH. cbn [snd]. rewrite <- declared_undeclared. destruct (declared raw) eqn:E.
  - rewrite filter_cons_True by done. split; [done|by intros []].
  - rewrite filter_cons_False by congruence. tauto.
Qed.

Lemma anthropicText_inl raw text : anthropicText as_string as_parts quoted raw = inl text <-> reads_as as_string as_parts ["text"] raw text.
Proof. apply content_text_inl. intros type. rewrite String.eqb_eq, list_elem_of_singleton. done. Qed.

Lemma responsesText_inl raw text :
  responsesText as_string as_parts quoted raw = inl text <-> reads_as as_string as_parts ["input_text"; "output_text"] raw text.
Proof.
  apply content_text_inl. intros type. rewrite orb_true_iff, !String.eqb_eq, elem_of_cons, list_elem_of_singleton. done.
Qed.

Lemma system_messages_inl raw system :
  system_messages as_string as_parts quoted raw = inl system <-> led_by as_string as_parts ["text"] raw system.
Proof.
  unfold system_messages, led_by. destruct (String.eqb_spec raw "") as [->|Hne].
  { split; [intros [= <-]; by left|]. by intros [[_ ->]|[? _]]. }
  split.
  - intros H. right. split; [done|]. destruct (anthropicText _ _ _ raw) as [text|e] eqn:E; [|done]. injection H as <-.
    exists text. split; [by apply anthropicText_inl|]. by destruct (String.eqb_spec text ""), (decide (text = "")).
  - intros [[? _]|(_ & text & Ht & ->)]; [done|]. apply anthropicText_inl in Ht as ->.
    by destruct (String.eqb_spec text ""), (decide (text = "")).
Qed.

Variable as_entries : string -> option (list (string * string)).

Lemma input_messages_inl raw messages :
  input_messages as_string as_parts quoted as_entries raw = inl messages <-> input_of as_string as_parts as_entries raw messages.
Proof.
  unfold input_messages, input_of. destruct (String.eqb_spec raw "") as [->|Hne].
  { split; [intros [= <-]; by left|]. by intros [[_ ->]|[? _]]. }
  destruct (as_string raw) as [text|].
  { split; [intros [= <-]; right; eauto|]. by intros [[? _]|[_ [(? & [= <-] & ->)|[? _]]]]. }
  destruct (as_entries raw) as [entries|].
  - rewrite (converse_inl _ _ _ _ responsesText_inl). split; [intros H; right; split; [done|right; eauto]|].
    by intros [[? _]|[_ [(? & ? & _)|(_ & ? & [= <-] & ?)]]].
  - split; [done|]. by intros [[? _]|[_ [(? & ? & _)|(_ & ? & ? & _)]]].
Qed.

Lemma canonical_body_inl marshal chat chat' upstream :
  canonical_body marshal chat = inl (chat', upstream) <-> chat' = chat /\ marshal chat (Stream chat) = inl upstream.
Proof.
  unfold canonical_body. destruct (marshal _ _) as [u|e]; [|by split; [|intros [_ ?]]].
  split; [by intros [= -> ->]|by intros [-> [= ->]]].
Qed.
End facts.
End IngestFacts.

(** ** Replies *)
Module Render.
Import Wire UsageCodec.

Section render.
Variable ParseMediaType : string -> option string.
(** [json.NewEncoder(w).Encode] of a value. *)
Variable encode : json -> string.

(** What [parseChatResponse] reads of a reply: its id and model, the first
    choice's text and finish reason, the usage. *)
Record chatResponse := mkChatResponse {
  crID : string; crModel : string; crText : string; crFinish : string; crUsage : option Usage
}.
Variable parse_chat_response : string -> option chatResponse.
(** The decoded message and code of an error body, empty when absent. *)
Variable decode_error : string -> string * string.

Definition writeJSONResponse (status : Z) (header : Header) (body : json) : rendered :=
  mkRendered status (<["Content-Type"%string := "application/json"%string]> header) (encode body).

Definition parseUpstreamError (body : string) : string * string :=
  let (message, code) := decode_error body in
  (if String.eqb message "" then "upstream request failed"%string else message,
   if String.eqb code "" then "upstream_error"%string else code).

Local Open Scope string_scope.

Definition usage_fields (u : Usage) : list (string * json) :=
  [("input_tokens", JNum (PromptTokens u)); ("output_tokens", JNum (CompletionTokens u))].

(** *** Messages *)
Definition anthropicStopReason (finish : string) : string :=
  if String.eqb finish "length" then "max_tokens"
  else if String.eqb finish "tool_calls" then "tool_use" else "end_turn".

Definition anthropicUpstreamErrorType (status : Z) : string :=
  if (status =? 429)%Z then "rate_limit_error" else "api_error".

Definition anthropicErrorType (code : string) : string :=
  if String.eqb code "upstream_timeout" then "timeout_error"
  else if String.eqb code "rate_limit_exceeded" || String.eqb code "concurrency_limit_exceeded" then "rate_limit_error"
  else if String.eqb code "insufficient_quota" then "billing_error" else "api_error".

Definition anthropicErrorBody (errType message : string) : json :=
  JObj [("type", JStr "error"); ("error", JObj [("type", JStr errType); ("message", JStr message)])].

Definition anthropicObject (id model text stopReason : string) (usage : option Usage) : json :=
  JObj ([("id", JStr id); ("type", JStr "message"); ("role", JStr "assistant"); ("model", JStr model);
         ("content", JArr [JObj [("type", JStr "text"); ("text", JStr text)]]);
         ("stop_reason", JStr stopReason); ("stop_sequence", JNull)] ++
        match usage with Some u => [("usage", JObj (usage_fields u))] | None => [] end).

Definition anthropicRenderSuccess (status : Z) (header : Header) (body : string) : rendered :=
  match parse_chat_response body with
  | None => renderExchangeBody ParseMediaType status header body passthroughHeaderNames
  | Some r => writeJSONResponse status ∅ (anthropicObject (crID r) (crModel r) (crText r) (anthropicStopReason (crFinish r)) (crUsage r))
  end.

Definition anthropicRenderUpstreamError (status : Z) (header : Header) (body : string) : rendered :=
  let v := get "Retry-After" header in
  writeJSONResponse status (if negb (String.eqb v "") && ValidHeaderValue v then {["Retry-After" := v]} else ∅)
    (anthropicErrorBody (anthropicUpstreamErrorType status) (parseUpstreamError body).1).

Definition anthropicRenderError (status : Z) (code message : string) : rendered :=
  writeJSONResponse status ∅ (anthropicErrorBody (anthropicErrorType code) message).

(** *** Responses *)
Definition responses_usage (u : Usage) : json := JObj (usage_fields u ++ [("total_tokens", JNum (TotalTokens u))]).

Definition responses_output (text : string) : json :=
  JArr [JObj [("type", JStr "message"); ("role", JStr "assistant"); ("status", JStr "completed");
              ("content", JArr [JObj [("type", JStr "output_text"); ("text", JStr text); ("annotations", JArr [])]])]].

Definition responsesObject (id model text : string) (usage : option Usage) : json :=
  JObj ([("id", JStr id); ("object", JStr "response"); ("status", JStr "completed"); ("model", JStr model);
         ("output", responses_output text)] ++
        match usage with Some u => [("usage", responses_usage u)] | None => [] end).

Definition responsesRenderSuccess (status : Z) (header : Header) (body : string) : rendered :=
  match parse_chat_response body with
  | None => renderExchangeBody ParseMediaType status header body passthroughHeaderNames
  | Some r => writeJSONResponse status ∅ (responsesObject (crID r) (crModel r) (crText r) (crUsage r))
  end.

Definition responsesRenderUpstreamError (status : Z) (header : Header) (body : string) : rendered :=
  renderExchangeBody ParseMediaType status header body passthroughHeaderNames.

(** [WriteError]: the canonical envelope. *)
Definition errorEnvelope (code message : string) : json :=
  JObj [("error", JObj [("message", JStr message); ("type", JStr "gateway_error"); ("code", JStr code)])].

Definition WriteError (status : Z) (code message : string) : rendered :=
  writeJSONResponse status ∅ (errorEnvelope code message).
End render.
End Render.

(** ** Streams *)
Module Transcode.
Import Errors UsageCodec Pump Sse Render.
Local Open Scope string_scope.

Section transcode.
(** [json.Marshal] of a frame, and how the client's writer answers the
    [n]-th write: in full, or an error behind the first bytes. *)
Variable Marshal : json -> bytes.
Variable send : nat -> option (nat * goerr).

(** A step of a transcoder on the count of the writes so far: the new
    count, the bytes that reached the client, the failure. *)
Definition emission := nat -> nat * bytes * option goerr.

Definition silent : emission := fun n => (n, [], None).

(** Two writes, the second behind the success of the first. *)
Definition andThen (a b : emission) : emission := fun n =>
  match a n with
  | (n, out, Some e) => (n, out, Some e)
  | (n, out, None) => let '(n, out', e) := b n in (n, (out ++ out')%list, e)
  end.

Definition WriteEvent (event : string) (payload : json) : emission := fun n =>
  let frame := writeEventData (bytes_of event) (Marshal payload) in
  match send n with
  | None => (S n, frame, None)
  | Some (k, e) => (S n, take k frame, Some (Wrap (Transport ("write " +:+ event +:+ " event")) e))
  end.

(** *** Messages *)
Record anthropicStream := mkAnthropic { a_id : string; a_model : string; a_block : bool; a_stop : string; a_sent : nat }.

(** A transcoder's move: its fields, and the writes it made. *)
Definition anthropic_emit (em : emission) (s : anthropicStream) : anthropicStream * bytes * option goerr :=
  let '(n, out, e) := em (a_sent s) in (mkAnthropic (a_id s) (a_model s) (a_block s) (a_stop s) n, out, e).

Definition zero_usage : Usage := mkUsage 0 0 0.

Definition message_start (id model : string) : json :=
  JObj [("type", JStr "message_start");
        ("message", JObj [("id", JStr id); ("type", JStr "message"); ("role", JStr "assistant"); ("model", JStr model);
                          ("content", JArr []); ("usage", JObj (usage_fields zero_usage))])].
Definition content_block_start : json :=
  JObj [("type", JStr "content_block_start"); ("index", JNum 0);
        ("content_block", JObj [("type", JStr "text"); ("text", JStr "")])].
Definition content_block_delta (text : string) : json :=
  JObj [("type", JStr "content_block_delta"); ("index", JNum 0);
        ("delta", JObj [("type", JStr "text_delta"); ("text", JStr text)])].
Definition content_block_stop : json := JObj [("type", JStr "content_block_stop"); ("index", JNum 0)].
Definition message_delta (stop : string) (u : Usage) : json :=
  JObj [("type", JStr "message_delta"); ("delta", JObj [("stop_reason", JStr stop); ("stop_sequence", JNull)]);
        ("usage", JObj (usage_fields u))].
Definition message_stop : json := JObj [("type", JStr "message_stop")].

(** The choices of a chunk: delta text and finish reason; [None] when the
    payload does not decode. *)
Variable anthropic_chunk : bytes -> option (list (string * option string)).

Definition anthropic_start (model : string) (s : anthropicStream) : anthropicStream * bytes * option goerr :=
  anthropic_emit (WriteEvent "message_start" (message_start (a_id s) model))
    (mkAnthropic (a_id s) model (a_block s) (a_stop s) (a_sent s)).

Definition anthropic_delta (payload : bytes) (s : anthropicStream) : anthropicStream * bytes * option goerr :=
  match anthropic_chunk payload with
  | None | Some [] => (s, [], None)
  | Some ((text, finish) :: _) =>
      let s := match finish with
               | Some f => mkAnthropic (a_id s) (a_model s) (a_block s) (anthropicStopReason f) (a_sent s)
               | None => s end in
      if String.eqb text "" then (s, [], None)
      else
        let opening := if a_block s then silent else WriteEvent "content_block_start" content_block_start in
        anthropic_emit (andThen opening (WriteEvent "content_block_delta" (content_block_delta text)))
          (mkAnthropic (a_id s) (a_model s) true (a_stop s) (a_sent s))
  end.

Definition anthropic_finish (usage : option Usage) (s : anthropicStream) : anthropicStream * bytes * option goerr :=
  match anthropic_emit (if a_block s then WriteEvent "content_block_stop" content_block_stop else silent) s with
  | (s, out, Some e) => (s, out, Some e)
  | (s, out, None) =>
      let stop := if String.eqb (a_stop s) "" then "end_turn" else a_stop s in
      let '(s, out', e) :=
        anthropic_emit
          (andThen (WriteEvent "message_delta" (message_delta stop (default zero_usage usage)))
            (WriteEvent "message_stop" message_stop))
          (mkAnthropic (a_id s) (a_model s) (a_block s) stop (a_sent s)) in
      (s, (out ++ out')%list, e)
  end.

Definition anthropic_abort (code message : string) (s : anthropicStream) : anthropicStream * bytes * option goerr :=
  anthropic_emit (WriteEvent "error" (anthropicErrorBody (anthropicErrorType code) message)) s.

Definition anthropic_transcoder : StreamTranscoder anthropicStream :=
  {| Start := anthropic_start; Delta := anthropic_delta; Finish := anthropic_finish; Abort := anthropic_abort |}.

(** *** Responses *)
Definition maxStreamTextBytes : Z := Z.shiftl 32 20.

Record responsesStream := mkResponses { r_id : string; r_model : string; r_text : string; r_sent : nat }.

Definition responses_emit (em : emission) (s : responsesStream) : responsesStream * bytes * option goerr :=
  let '(n, out, e) := em (r_sent s) in (mkResponses (r_id s) (r_model s) (r_text s) n, out, e).

Definition response_created (id model : string) : json :=
  JObj [("response", JObj [("id", JStr id); ("object", JStr "response"); ("status", JStr "in_progress"); ("model", JStr model);
                           ("output", JArr [])])].
Definition output_text_delta (text : string) : json :=
  JObj [("type", JStr "response.output_text.delta"); ("delta", JStr text)].
Definition response_completed (id model text : string) (usage : option Usage) : json :=
  JObj [("response", JObj ([("id", JStr id); ("object", JStr "response"); ("status", JStr "completed"); ("model", JStr model);
                            ("output", responses_output text)] ++
                           match usage with Some u => [("usage", responses_usage u)] | None => [] end))].
Definition response_failed (id model code message : string) : json :=
  JObj [("response", JObj [("id", JStr id); ("object", JStr "response"); ("status", JStr "failed"); ("model", JStr model);
                           ("error", JObj [("code", JStr code); ("message", JStr message)])])].

Variable responses_chunk : bytes -> option (list string).

Definition responses_start (model : string) (s : responsesStream) : responsesStream * bytes * option goerr :=
  responses_emit (WriteEvent "response.created" (response_created (r_id s) model))
    (mkResponses (r_id s) model (r_text s) (r_sent s)).

Definition text_too_long : goerr := Transport "protocol: responses stream text exceeds 33554432 bytes".

Definition responses_delta (payload : bytes) (s : responsesStream) : responsesStream * bytes * option goerr :=
  match responses_chunk payload with
  | None | Some [] => (s, [], None)
  | Some (text :: _) =>
      if String.eqb text "" then (s, [], None)
      else if (maxStreamTextBytes <? Z.of_nat (String.length (r_text s)) + Z.of_nat (String.length text))%Z
      then (s, [], Some text_too_long)
      else responses_emit (WriteEvent "response.output_text.delta" (output_text_delta text))
             (mkResponses (r_id s) (r_model s) (r_text s +:+ text) (r_sent s))
  end.

Definition responses_finish (usage : option Usage) (s : responsesStream) : responsesStream * bytes * option goerr :=
  responses_emit (WriteEvent "response.completed" (response_completed (r_id s) (r_model s) (r_text s) usage)) s.

Definition responses_abort (code message : string) (s : responsesStream) : responsesStream * bytes * option goerr :=
  responses_emit (WriteEvent "response.failed" (response_failed (r_id s) (r_model s) code message)) s.

Definition responses_transcoder : StreamTranscoder responsesStream :=
  {| Start := responses_start; Delta := responses_delta; Finish := responses_finish; Abort := responses_abort |}.

(** *** Dispatch (wire.go) *)
Definition transcoder := (anthropicStream + responsesStream)%type.

Definition lift_l (r : anthropicStream * bytes * option goerr) : transcoder * bytes * option goerr :=
  let '(s, out, e) := r in (inl s, out, e).
Definition lift_r (r : responsesStream * bytes * option goerr) : transcoder * bytes * option goerr :=
  let '(s, out, e) := r in (inr s, out, e).

#[export] Instance wire_transcoder : StreamTranscoder transcoder := {
  Start model t := match t with inl s => lift_l (anthropic_start model s) | inr s => lift_r (responses_start model s) end;
  Delta payload t := match t with inl s => lift_l (anthropic_delta payload s) | inr s => lift_r (responses_delta payload s) end;
  Finish usage t := match t with inl s => lift_l (anthropic_finish usage s) | inr s => lift_r (responses_finish usage s) end;
  Abort code message t :=
    match t with inl s => lift_l (anthropic_abort code message s) | inr s => lift_r (responses_abort code message s) end
}.

(** [newGatewayID]: [drawn] is what the entropy source delivered. *)
Definition newGatewayID (hex : bytes -> string) (prefix : string) (drawn : option bytes) : string :=
  match drawn with None => prefix +:+ "0" | Some buf => prefix +:+ hex buf end.

End transcode.
End Transcode.

(** ** The wire of a format (wire.go) *)
Module Dispatch.
Import Wire UsageCodec Render Transcode.
Section dispatch.
Variable ParseMediaType : string -> option string.
Variable encode : json -> string.
Variable parse_chat_response : string -> option chatResponse.
Variable decode_error : string -> string * string.

Inductive Wire := chatWire | responsesWire | anthropicWire.
#[global] Instance Wire_eq_dec : EqDecision Wire.
Proof. solve_decision. Defined.

Definition WireFor (format : string) : Wire :=
  if String.eqb format "openai-responses" then responsesWire
  else if String.eqb format "anthropic-messages" then anthropicWire
  else chatWire.

Definition Format (w : Wire) : string :=
  match w with
  | chatWire => "openai-chat" | responsesWire => "openai-responses" | anthropicWire => "anthropic-messages"
  end.

Definition RenderSuccess (w : Wire) (status : Z) (header : Header) (body : string) : rendered :=
  match w with
  | chatWire => Wire.RenderSuccess ParseMediaType status header body
  | responsesWire => responsesRenderSuccess ParseMediaType encode parse_chat_response status header body
  | anthropicWire => anthropicRenderSuccess ParseMediaType encode parse_chat_response status header body
  end.

Definition RenderUpstreamError (w : Wire) (status : Z) (header : Header) (body : string) : rendered :=
  match w with
  | chatWire => Wire.RenderUpstreamError ParseMediaType status header body
  | responsesWire => responsesRenderUpstreamError ParseMediaType status header body
  | anthropicWire => anthropicRenderUpstreamError encode decode_error status header body
  end.

Definition RenderError (w : Wire) (status : Z) (code message : string) : rendered :=
  match w with
  | chatWire | responsesWire => WriteError encode status code message
  | anthropicWire => anthropicRenderError encode status code message
  end.
End dispatch.

Definition StreamOf (hex : bytes -> string) (drawn : option bytes) (w : Wire) : option transcoder :=
  match w with
  | chatWire => None
  | responsesWire => Some (inr (mkResponses (newGatewayID hex "resp_gw_" drawn) "" "" 0))
  | anthropicWire => Some (inl (mkAnthropic (newGatewayID hex "msg_gw_" drawn) "" false "" 0))
  end.
End Dispatch.

(** ** The event streams a translated client sees *)
Module TranscodeSpec.
Import Errors Reader UsageCodec Pump Sse Render Transcode StreamSpec.
Local Open Scope string_scope.

(** Named frames, and their bytes. *)
Definition encode_frames (Marshal : json -> bytes) (fs : list (string * json)) : bytes :=
  concat (map (fun '(event, payload) => writeEventData (bytes_of event) (Marshal payload)) fs).

(** The data payloads before the sentinel's meaning is taken off. *)
Definition frames_of (ps : list bytes) : list bytes := filter (fun p => p <> donePayload) ps.

(** The first choice of every payload that decodes. *)
Definition heads {A : Type} (decode : bytes -> option (list A)) (ps : list bytes) : list A :=
  omap (fun p => decode p ≫= head) (frames_of ps).

Definition nonempty (texts : list string) : list string := filter (fun t => t <> "") texts.

Definition complete (body_end : option goerr) (ps : list bytes) : Prop := body_end = None /\ donePayload ∈ ps.
#[export] Instance complete_dec body_end ps : Decision (complete body_end ps).
Proof. unfold complete. apply _. Defined.

(** *** Messages *)
Definition message_texts (cs : list (string * option string)) : list string := nonempty cs.*1.

Definition next_stop (stop : string) (c : string * option string) : string :=
  match c.2 with Some f => anthropicStopReason f | None => stop end.
Definition last_stop (cs : list (string * option string)) : string := foldl next_stop "" cs.

(** The text block, opened unless [b] says it is. *)
Definition block_from (b : bool) (texts : list string) : list (string * json) :=
  match texts with
  | [] => []
  | _ => (if b then [] else [("content_block_start", content_block_start)]) ++
         map (fun t => ("content_block_delta", content_block_delta t)) texts
  end.

Definition messages_opening (id model : string) (texts : list string) : list (string * json) :=
  ("message_start", message_start id model) :: block_from false texts.

Definition messages_closing (texts : list string) (stop : string) (usage : option Usage) : list (string * json) :=
  (if decide (texts = []) then [] else [("content_block_stop", content_block_stop)]) ++
  [("message_delta", message_delta (if String.eqb stop "" then "end_turn" else stop) (default zero_usage usage));
   ("message_stop", message_stop)].

(** *** Responses *)

(** The texts taken while the whole stays within the bound. *)
Fixpoint taken (used : Z) (texts : list string) : list string :=
  match texts with
  | [] => []
  | t :: texts =>
      let used := (used + Z.of_nat (String.length t))%Z in
      if (maxStreamTextBytes <? used)%Z then [] else t :: taken used texts
  end.

Definition responses_opening (id model : string) (texts : list string) : list (string * json) :=
  ("response.created", response_created id model) ::
  map (fun t => ("response.output_text.delta", output_text_delta t)) texts.

Definition joined (texts : list string) : string := foldr String.append "" texts.
End TranscodeSpec.

Module TranscodeFacts.
Import Errors Reader UsageCodec Pump Sse Render Transcode StreamSpec StreamFacts TranscodeSpec.
#[local] Opaque bufSize maxStreamLineBytes.

Section pump.
Variable parse_usage : bytes -> option Usage.
Variable body_end : option goerr.
Context {T : Type} {tr : StreamTranscoder T}.

Abbreviation transcode := (transcode parse_usage).

Fixpoint transcode_all (ps : list bytes) (s : tloop) : tloop + (pumped * T) :=
  match ps with
  | [] => inl s
  | p :: ps => match transcode p s with inl s => transcode_all ps s | inr r => inr r end
  end.

(** The end of the body behind the last line. *)
Definition ending (s : tloop) : pumped * T :=
  match body_end with
  | Some e => tstop (Some e) s
  | None =>
      if negb (t_done s) then tstop (Some errStreamTruncated) s
      else
        let '(t, out, e) := Finish (t_usage s) (t_state s) in
        tstop e (mkTloop t (t_usage s) (t_done s) (t_out s ++ out) (t_flushes s))
  end.

(** The loop translates the payloads of the lines, whatever the line reads. *)
Lemma transcoded_loop_payloads (fuel : nat) : forall rem s,
  (length rem < fuel)%nat -> fits rem ->
  transcoded_loop parse_usage body_end fuel rem s
  = Some match transcode_all (payloads rem) s with inl s => ending s | inr r => r end.
Proof.
  induction fuel as [|fuel IH]; intros rem s Hfuel Hfit; [lia|]. cbn [transcoded_loop].
  destruct (readLine_reads rem) as (res & -> & Hr). unfold reads in Hr.
  destruct (first_line rem) as [[l rest] t] eqn:Hfl.
  destruct (first_line_app rem l rest t Hfl) as (Happ & Hend & Hl).
  destruct (decide (rem = [])) as [->|Hne].
  { injection Hfl as <- <- <-. destruct res as [line rest' at_end|]; [|done].
    by destruct Hr as (-> & -> & -> & _). }
  specialize (Hl Hne). pose proof (split_first rem l rest t Hne Hfl) as Hsplit.
  unfold fits in Hfit. rewrite Hsplit in Hfit. apply Forall_cons in Hfit as [Hlen Hfit].
  destruct res as [line rest' at_end|]; [|lia]. destruct Hr as (-> & -> & -> & _).
  destruct (Nat.ltb_spec 0 (length l)); [|destruct l; [done|cbn in *; lia]].
  assert (forall s, (if negb t then Some (ending s) else transcoded_loop parse_usage body_end fuel rest s)
    = Some match transcode_all (payloads rest) s with inl s => ending s | inr r => r end) as Hnext.
  { intros s'. destruct t; cbn [negb]; [|by rewrite (Hend eq_refl)]. apply IH; [|done].
    rewrite Happ, length_app in Hfuel. destruct l; [done|cbn in Hfuel; lia]. }
  unfold payloads. rewrite Hsplit. cbn [omap list_omap]. fold (payloads rest).
  destruct (dataPayload (trimEOL l)) as [p|]; [|apply Hnext]. cbn [transcode_all].
  destruct (transcode p s) as [s'|r]; [apply Hnext|done].
Qed.
End pump.

Lemma encode_app (M : json -> bytes) (fs gs : list (string * json)) :
  encode_frames M (fs ++ gs) = encode_frames M fs ++ encode_frames M gs.
Proof. unfold encode_frames. by rewrite map_app, concat_app. Qed.

Definition accepts_all (_ : nat) : option (nat * goerr) := None.

Lemma WriteEvent_sent (M : json -> bytes) (event : string) (payload : json) (n : nat) :
  WriteEvent M accepts_all event payload n = (S n, encode_frames M [(event, payload)], None).
Proof. unfold WriteEvent, encode_frames. cbn [map concat accepts_all]. by rewrite app_nil_r. Qed.

(** *** Messages: the fold of the payloads *)
Section messages.
Variable M : json -> bytes.
Variable chunk : bytes -> option (list (string * option string)).
Variable parse_usage : bytes -> option Usage.

Abbreviation tr := (anthropic_transcoder M accepts_all chunk).
Abbreviation transcode := (@transcode parse_usage anthropicStream tr).
Abbreviation transcode_all := (@transcode_all parse_usage anthropicStream tr).

(** What a translated payload adds to the loop state. *)
Record moved (cs : list (string * option string)) (u : option Usage) (done : bool) (s s' : tloop (T := anthropicStream)) : Prop := {
  mv_out : t_out s' = t_out s ++ encode_frames M (block_from (a_block (t_state s)) (message_texts cs));
  mv_block : a_block (t_state s') = a_block (t_state s) || bool_decide (message_texts cs <> []);
  mv_stop : a_stop (t_state s') = foldl next_stop (a_stop (t_state s)) cs;
  mv_id : a_id (t_state s') = a_id (t_state s) /\ a_model (t_state s') = a_model (t_state s);
  mv_usage : t_usage s' = u;
  mv_done : t_done s' = t_done s || done
}.

Lemma block_from_cons (b : bool) (t : string) (texts : list string) :
  block_from b (t :: texts) = block_from b [t] ++ block_from true texts.
Proof. by destruct b, texts. Qed.

Lemma moved_trans cs1 cs2 u1 u2 d1 d2 s1 s2 s3 :
  moved cs1 u1 d1 s1 s2 -> moved cs2 u2 d2 s2 s3 -> length cs1 = 1%nat \/ cs1 = [] ->
  moved (cs1 ++ cs2) u2 (d1 || d2) s1 s3.
Proof.
  intros [O1 B1 S1 [I1 J1] _ D1] [O2 B2 S2 [I2 J2] U2 D2] Hlen.
  assert (message_texts (cs1 ++ cs2) = message_texts cs1 ++ message_texts cs2) as Hm.
  { unfold message_texts, nonempty. by rewrite fmap_app, filter_app. }
  split.
  - rewrite O2, O1, B1, Hm, <- app_assoc, <- encode_app. f_equal. f_equal.
    destruct (message_texts cs1) as [|t [|t' ts]] eqn:E.
    + rewrite bool_decide_false, orb_false_r by (by intros []). done.
    + rewrite bool_decide_true, orb_true_r by done. symmetry. apply block_from_cons.
    + exfalso. destruct Hlen as [Hlen| ->]; [|done]. destruct cs1 as [|c [|]]; try done.
      unfold message_texts, nonempty in E. cbn in E. by destruct (decide _).
  - rewrite B2, B1, Hm, <- orb_assoc. f_equal. by destruct (message_texts cs1), (message_texts cs2).
  - by rewrite S2, S1, foldl_app.
  - split; congruence.
  - done.
  - by rewrite D2, D1, orb_assoc.
Qed.

Lemma transcode_moved (p : bytes) (s : tloop) :
  exists s', transcode p s = inl s' /\
  moved (heads chunk [p]) (if decide (p = donePayload) then t_usage s
                           else match parse_usage p with Some u => Some u | None => t_usage s end)
    (bool_decide (p = donePayload)) s s'.
Proof.
  unfold Pump.transcode, heads, frames_of. destruct (decide (p = donePayload)) as [->|Hp].
  { rewrite bool_decide_true by done. eexists. split; [done|]. rewrite filter_cons_False by tauto.
    split; cbn; rewrite ?app_nil_r, ?orb_false_r, ?orb_true_r; done. }
  rewrite bool_decide_false by done. rewrite filter_cons_True by done. cbn [filter list_filter omap list_omap].
  cbn [Delta anthropic_transcoder]. unfold anthropic_delta.
  destruct (chunk p) as [[|[text finish] cs]|]; cbn [mbind option_bind head];
    try (eexists; split; [done|]; split; cbn; rewrite ?app_nil_r, ?orb_false_r; done).
  set (s1 := match finish with Some f => _ | None => _ end).
  assert (a_block s1 = a_block (t_state s) /\ a_id s1 = a_id (t_state s) /\ a_model s1 = a_model (t_state s) /\
    a_stop s1 = next_stop (a_stop (t_state s)) (text, finish)) as (Eb & Ei & Em & Es) by (unfold s1; by destruct finish).
  clearbody s1. destruct (String.eqb_spec text "") as [->|Hne].
  - eexists. split; [done|]. unfold tflush. split; cbn; rewrite ?app_nil_r, ?orb_false_r; try done; by rewrite ?Eb.
  - assert (message_texts [(text, finish)] = [text]) as Hm by (unfold message_texts, nonempty; cbn; by rewrite decide_True).
    unfold anthropic_emit, andThen, silent. rewrite Eb. cbn [a_sent].
    destruct (a_block (t_state s)) eqn:Hb; rewrite !WriteEvent_sent; eexists; (split; [done|]); unfold tflush;
      split; cbn [t_out t_state t_usage t_done a_block a_stop a_id a_model]; try done; rewrite ?Hm, ?Hb, ?orb_false_r; try done.
    by rewrite <- encode_app.
Qed.

Lemma transcode_all_moved (ps : list bytes) : forall s,
  exists s', transcode_all ps s = inl s' /\
  moved (heads chunk ps) (foldl (fun u p => match parse_usage p with Some u => Some u | None => u end) (t_usage s) (frames_of ps))
    (bool_decide (donePayload ∈ ps)) s s'.
Proof.
  induction ps as [|p ps IH]; intros s; cbn [TranscodeFacts.transcode_all].
  { exists s. split; [done|]. split; cbn; rewrite ?app_nil_r, ?orb_false_r; done. }
  destruct (transcode_moved p s) as (s1 & -> & H1). destruct (IH s1) as (s2 & Hs2 & H2). exists s2. split; [done|].
  assert (heads chunk (p :: ps) = heads chunk [p] ++ heads chunk ps) as ->.
  { unfold heads, frames_of. change (p :: ps) with ([p] ++ ps). by rewrite filter_app, omap_app. }
  assert (bool_decide (donePayload ∈ p :: ps) = bool_decide (p = donePayload) || bool_decide (donePayload ∈ ps)) as ->.
  { rewrite <- bool_decide_or. apply bool_decide_ext. rewrite elem_of_cons. split; intros [?|?]; auto. }
  pose proof (mv_usage _ _ _ _ _ H1) as Hu.
  assert (foldl (fun u p => match parse_usage p with Some u => Some u | None => u end) (t_usage s) (frames_of (p :: ps))
    = foldl (fun u p => match parse_usage p with Some u => Some u | None => u end) (t_usage s1) (frames_of ps)) as ->.
  { rewrite Hu. unfold frames_of. destruct (decide (p = donePayload)); [by rewrite filter_cons_False by tauto|].
    by rewrite filter_cons_True by done. }
  eapply moved_trans; [exact H1|exact H2|].
  unfold heads, frames_of. destruct (decide (p = donePayload)) as [Hp|Hp].
  - right. by rewrite filter_cons_False by tauto.
  - rewrite filter_cons_True by done. cbn. destruct (chunk p) as [[|]|]; cbn; auto.
Qed.
End messages.

(** *** Responses: the fold of the payloads *)
Section responses.
Variable M : json -> bytes.
Variable chunk : bytes -> option (list string).
Variable parse_usage : bytes -> option Usage.

Abbreviation tr := (responses_transcoder M accepts_all chunk).
Abbreviation transcode := (@transcode parse_usage responsesStream tr).
Abbreviation transcode_all := (@transcode_all parse_usage responsesStream tr).

Definition deltas (texts : list string) : list (string * json) :=
  map (fun t => ("response.output_text.delta"%string, output_text_delta t)) texts.

Definition text_length (s : tloop (T := responsesStream)) : Z := Z.of_nat (String.length (r_text (t_state s))).

(** The loop state behind payloads whose texts were all taken. *)
Record told (texts : list string) (u : option Usage) (done : bool) (s s' : tloop (T := responsesStream)) : Prop := {
  td_out : t_out s' = t_out s ++ encode_frames M (deltas texts);
  td_text : r_text (t_state s') = r_text (t_state s) +:+ joined texts;
  td_id : r_id (t_state s') = r_id (t_state s) /\ r_model (t_state s') = r_model (t_state s);
  td_usage : t_usage s' = u;
  td_done : t_done s' = t_done s || done
}.

Lemma joined_app (xs ys : list string) : joined (xs ++ ys) = joined xs +:+ joined ys.
Proof.
  induction xs as [|x xs IH]; [done|]. change (joined ((x :: xs) ++ ys)) with (x +:+ joined (xs ++ ys)). rewrite IH.
  symmetry. apply string_app_assoc.
Qed.

Lemma told_trans ts1 ts2 u1 u2 d1 d2 s1 s2 s3 :
  told ts1 u1 d1 s1 s2 -> told ts2 u2 d2 s2 s3 -> told (ts1 ++ ts2) u2 (d1 || d2) s1 s3.
Proof.
  intros [O1 T1 [I1 J1] _ D1] [O2 T2 [I2 J2] U2 D2]. split.
  - unfold deltas in *. by rewrite O2, O1, map_app, encode_app, app_assoc.
  - rewrite T2, T1, joined_app. apply string_app_assoc.
  - split; congruence.
  - done.
  - by rewrite D2, D1, orb_assoc.
Qed.

Lemma told_length ts u d s s' : told ts u d s s' -> text_length s' = text_length s + Z.of_nat (String.length (joined ts)).
Proof. intros [_ Ht _ _ _]. unfold text_length. rewrite Ht, string_app_length. lia. Qed.

Definition next_usage (u : option Usage) (p : bytes) : option Usage :=
  match parse_usage p with Some u => Some u | None => u end.

(** One payload: taken, or the stop of the stream. *)
Lemma transcode_told (p : bytes) (s : tloop) :
  let texts := nonempty (heads chunk [p]) in
  match transcode p s with
  | inl s' => taken (text_length s) texts = texts /\
      told texts (if decide (p = donePayload) then t_usage s else next_usage (t_usage s) p) (bool_decide (p = donePayload)) s s'
  | inr (r, t) => taken (text_length s) texts = [] /\ texts <> [] /\ err r = Some text_too_long /\ written r = t_out s /\
      streamBytes r = Z.of_nat (length (written r)) /\ r_id t = r_id (t_state s) /\ r_model t = r_model (t_state s)
  end.
Proof.
  cbv zeta. unfold Pump.transcode, heads, frames_of. destruct (decide (p = donePayload)) as [->|Hp].
  { rewrite bool_decide_true by done. rewrite filter_cons_False by tauto. split; [done|].
    split; cbn; rewrite ?app_nil_r, ?orb_true_r, ?string_app_nil; done. }
  rewrite bool_decide_false by done. rewrite filter_cons_True by done. cbn [filter list_filter omap list_omap].
  cbn [Delta responses_transcoder]. unfold responses_delta.
  destruct (chunk p) as [[|text cs]|]; cbn [mbind option_bind head];
    try (split; [done|]; split; cbn; rewrite ?app_nil_r, ?orb_false_r, ?string_app_nil; done).
  destruct (String.eqb_spec text "") as [->|Hne].
  { split; [done|]. split; cbn; rewrite ?app_nil_r, ?orb_false_r, ?string_app_nil; done. }
  assert (nonempty [text] = [text]) as -> by (unfold nonempty; by rewrite filter_cons_True).
  cbn [taken]. unfold text_length. destruct (_ <? _).
  - cbn. rewrite app_nil_r. by split_and!.
  - unfold responses_emit. rewrite WriteEvent_sent. split; [done|]. unfold tflush.
    split; cbn; rewrite ?app_nil_r, ?orb_false_r, ?string_app_nil; done.
Qed.

Lemma taken_app (xs ys : list string) : forall n,
  taken n (xs ++ ys) = if decide (taken n xs = xs) then xs ++ taken (n + Z.of_nat (String.length (joined xs))) ys else taken n xs.
Proof.
  induction xs as [|x xs IH]; intros n; cbn [app taken joined foldr].
  { rewrite decide_True by done. by rewrite Z.add_0_r. }
  destruct (_ <? _); [by rewrite decide_False|]. rewrite IH, string_app_length.
  destruct (decide (taken _ xs = xs)) as [E|E].
  - rewrite E, decide_True by done. cbn. do 3 f_equal. unfold joined. lia.
  - rewrite decide_False; [done|]. by intros [= ?].
Qed.

Lemma taken_bounded (texts : list string) : forall n,
  n <= maxStreamTextBytes -> n + Z.of_nat (String.length (joined (taken n texts))) <= maxStreamTextBytes.
Proof.
  induction texts as [|t texts IH]; intros n Hn; cbn [taken]; [cbn; lia|].
  destruct (Z.ltb_spec maxStreamTextBytes (n + Z.of_nat (String.length t))) as [?|Hle]; [cbn; lia|].
  specialize (IH _ Hle). change (joined (t :: taken (n + Z.of_nat (String.length t)) texts))
    with (t +:+ joined (taken (n + Z.of_nat (String.length t)) texts)). rewrite string_app_length. lia.
Qed.

Lemma transcode_all_told (ps : list bytes) : forall s,
  let texts := nonempty (heads chunk ps) in
  match transcode_all ps s with
  | inl s' => taken (text_length s) texts = texts /\
      told texts (foldl next_usage (t_usage s) (frames_of ps)) (bool_decide (donePayload ∈ ps)) s s'
  | inr (r, t) => taken (text_length s) texts <> texts /\ err r = Some text_too_long /\
      written r = t_out s ++ encode_frames M (deltas (taken (text_length s) texts)) /\
      streamBytes r = Z.of_nat (length (written r)) /\ r_id t = r_id (t_state s) /\ r_model t = r_model (t_state s)
  end.
Proof.
  cbv zeta. induction ps as [|p ps IH]; intros s; cbn [TranscodeFacts.transcode_all].
  { split; [done|]. split; cbn; rewrite ?app_nil_r, ?orb_false_r, ?string_app_nil; done. }
  assert (nonempty (heads chunk (p :: ps)) = nonempty (heads chunk [p]) ++ nonempty (heads chunk ps)) as ->.
  { unfold nonempty, heads, frames_of. change (p :: ps) with ([p] ++ ps). by rewrite filter_app, omap_app, filter_app. }
  set (t1 := nonempty (heads chunk [p])). rewrite taken_app.
  pose proof (transcode_told p s) as H1. cbv zeta in H1. fold t1 in H1.
  destruct (transcode p s) as [s1|[r t]].
  - destruct H1 as [Ht H1]. rewrite decide_True by done. pose proof (told_length _ _ _ _ _ H1) as Hlen. rewrite <- Hlen.
    specialize (IH s1). destruct (transcode_all ps s1) as [s2|[r t]].
    + destruct IH as [Ht2 H2]. split; [by rewrite Ht2|].
      assert (bool_decide (donePayload ∈ p :: ps) = bool_decide (p = donePayload) || bool_decide (donePayload ∈ ps)) as ->.
      { rewrite <- bool_decide_or. apply bool_decide_ext. rewrite elem_of_cons. split; intros [?|?]; auto. }
      assert (foldl next_usage (t_usage s) (frames_of (p :: ps)) = foldl next_usage (t_usage s1) (frames_of ps)) as ->.
      { rewrite (td_usage _ _ _ _ _ H1). unfold frames_of.
        destruct (decide (p = donePayload)); [by rewrite filter_cons_False by tauto|]. by rewrite filter_cons_True by done. }
      by eapply told_trans.
    + destruct IH as (Hn & He & Hw & Hs & Hi & Hm). destruct (td_id _ _ _ _ _ H1) as [Hi1 Hm1].
      split_and!; [by intros ?%app_inv_head|done| |done|congruence|congruence].
      rewrite Hw, (td_out _ _ _ _ _ H1), <- app_assoc, <- encode_app. unfold deltas. by rewrite map_app.
  - destruct H1 as (Ht & Hne & He & Hw & Hs & Hi & Hm). rewrite Ht. rewrite decide_False by congruence.
    split_and!; try done; [by destruct t1|]. rewrite Hw. cbn. by rewrite app_nil_r.
Qed.
End responses.
End TranscodeFacts.

Module WiresProps.
Import Errors Reader UsageCodec Pump Sse Protocol.Wire Render Transcode StreamSpec TranscodeSpec TranscodeFacts.
Import Ingest IngestSpec IngestFacts.

(** C20. The Messages stream of a translated exchange, whatever the upstream
    sends: message_start first; one text block, opened before the first
    non-empty piece, with one delta per piece in order; and behind a
    complete upstream stream, and only there, the block's stop, a
    message_delta with the last finish reason and the last usage, and
    message_stop.  A stream the upstream cut short ends in one error event.
    The byte count is what was written. *)
Theorem messages_stream (M : json -> bytes) (chunk : bytes -> option (list (string * option string)))
    (parse_usage : bytes -> option Usage) (body_end : option goerr) (body : bytes) (model id : string) :
  fits body ->
  let ps := payloads body in
  let cs := heads chunk ps in
  let u := last_usage parse_usage (frames_of ps) in
  exists p t,
  @pumpTranscoded parse_usage body_end anthropicStream (anthropic_transcoder M accepts_all chunk) model body
    (mkAnthropic id "" false "" 0) = Some (p, t) /\
  usage p = u /\ streamBytes p = Z.of_nat (length (written p)) /\
  written p = encode_frames M (messages_opening id model (message_texts cs) ++
                if decide (complete body_end ps) then messages_closing (message_texts cs) (last_stop cs) u else []) /\
  err p = (if decide (complete body_end ps) then None else Some (default errStreamTruncated body_end)) /\
  forall code message, exists t',
    anthropic_abort M accepts_all code message t
    = (t', encode_frames M [("error"%string, anthropicErrorBody (anthropicErrorType code) message)], None).
Proof.
  intros Hfit ps cs u. unfold pumpTranscoded. cbn [Start anthropic_transcoder]. unfold anthropic_start, anthropic_emit.
  rewrite WriteEvent_sent. cbn [a_id a_model a_block a_stop a_sent].
  rewrite transcoded_loop_payloads by (done || lia). fold ps.
  set (s0 := tflush _). destruct (transcode_all_moved M chunk parse_usage ps s0) as (s & -> & [O B S [I J] Hu Hd]).
  fold cs in O, B, S. cbn [s0 tflush t_out t_state t_usage t_done a_block a_stop orb] in O, B, S, Hu, Hd.
  fold (last_usage parse_usage (frames_of ps)) in Hu. fold u in Hu. fold (last_stop cs) in S.
  assert (forall t code message, exists t', anthropic_abort M accepts_all code message t
    = (t', encode_frames M [("error"%string, anthropicErrorBody (anthropicErrorType code) message)], None)) as Hab.
  { intros t code message. unfold anthropic_abort, anthropic_emit. rewrite WriteEvent_sent. by eexists. }
  assert (t_out s = encode_frames M (messages_opening id model (message_texts cs))) as Ho.
  { rewrite O. unfold messages_opening. by rewrite <- (encode_app M [_]). }
  unfold ending, complete. destruct body_end as [e|].
  { do 2 eexists. split; [done|]. rewrite !decide_False by (by intros []). rewrite app_nil_r. cbn [tstop usage streamBytes written err default]. split_and!; done. }
  rewrite Hd. destruct (decide (donePayload ∈ ps)) as [Hin|Hin].
  2:{ rewrite bool_decide_false by done. cbn [negb]. do 2 eexists. split; [done|]. rewrite !decide_False by (by intros []).
      rewrite app_nil_r. cbn [negb tstop usage streamBytes written err default]. split_and!; done. }
  rewrite bool_decide_true by done. cbn [negb Finish anthropic_transcoder]. unfold anthropic_finish, anthropic_emit, andThen, silent.
  rewrite B, S, Hu. cbn [a_sent a_block a_id a_model a_stop]. rewrite !(decide_True _ _ (conj eq_refl Hin)).
  unfold messages_closing. destruct (decide (message_texts cs = [])) as [E|E].
  - rewrite (bool_decide_false (message_texts cs ≠ [])) by (by intros []). rewrite !WriteEvent_sent. do 2 eexists. split; [done|]. cbn [tstop usage streamBytes written err t_usage t_out].
    split_and!; try done. by rewrite Ho, ?app_nil_l, <- !encode_app.
  - rewrite (bool_decide_true (message_texts cs ≠ [])) by done. rewrite !WriteEvent_sent. do 2 eexists. split; [done|]. cbn [tstop usage streamBytes written err t_usage t_out].
    split_and!; try done. by rewrite Ho, ?app_nil_l, <- !encode_app.
Qed.

(** The Responses stream of a translated exchange: response.created, one
    delta per non-empty piece while the whole text is within
    maxStreamTextBytes, and response.completed with the whole text and the
    last usage exactly when the upstream stream is complete and no piece was
    left out.  The piece that would pass the bound ends the stream in its
    error, and an abort is one response.failed event. *)
Theorem responses_stream (M : json -> bytes) (chunk : bytes -> option (list string))
    (parse_usage : bytes -> option Usage) (body_end : option goerr) (body : bytes) (model id : string) :
  fits body ->
  let ps := payloads body in
  let texts := nonempty (heads chunk ps) in
  let kept := taken 0 texts in
  let u := last_usage parse_usage (frames_of ps) in
  exists p t,
  @pumpTranscoded parse_usage body_end responsesStream (responses_transcoder M accepts_all chunk) model body
    (mkResponses id "" "" 0) = Some (p, t) /\
  streamBytes p = Z.of_nat (length (written p)) /\ (kept = texts -> usage p = u) /\
  written p = encode_frames M (responses_opening id model kept ++
                if decide (kept = texts /\ complete body_end ps)
                then [("response.completed"%string, response_completed id model (joined texts) u)] else []) /\
  err p = (if decide (kept = texts) then if decide (complete body_end ps) then None else Some (default errStreamTruncated body_end)
           else Some text_too_long) /\
  Z.of_nat (String.length (joined kept)) <= maxStreamTextBytes /\
  forall code message, exists t',
    responses_abort M accepts_all code message t
    = (t', encode_frames M [("response.failed"%string, response_failed id model code message)], None).
Proof.
  intros Hfit ps texts kept u. pose proof (taken_bounded texts 0 ltac:(done)) as Hb. fold kept in Hb. rewrite Z.add_0_l in Hb.
  unfold pumpTranscoded. cbn [Start responses_transcoder]. unfold responses_start, responses_emit.
  rewrite WriteEvent_sent. cbn [r_id r_model r_text r_sent].
  rewrite transcoded_loop_payloads by (done || lia). fold ps. set (s0 := tflush _).
  pose proof (transcode_all_told M chunk parse_usage ps s0) as H. cbv zeta in H. fold texts in H.
  change (text_length s0) with 0 in H. fold kept in H.
  assert (forall t code message, r_id t = id -> r_model t = model -> exists t',
    responses_abort M accepts_all code message t
    = (t', encode_frames M [("response.failed"%string, response_failed id model code message)], None)) as Hab.
  { intros t code message <- <-. unfold responses_abort, responses_emit. rewrite WriteEvent_sent. by eexists. }
  destruct (@TranscodeFacts.transcode_all _ _ _ ps s0) as [s|[r t]]; [destruct H as [Hk [O T [I J] U D]]|].
  2:{ destruct H as (Hk & He & Hw & Hs & Hi & Hm). do 2 eexists. split; [done|]. rewrite decide_False by tauto.
      rewrite decide_False by done. rewrite app_nil_r. split_and!; try done; [|by intros; apply Hab].
      rewrite Hw. cbn [s0 tflush t_out]. by rewrite <- encode_app. }
  cbn [s0 tflush t_out t_state t_usage t_done r_id r_model r_text orb] in O, T, I, J, U, D.
  change (t_usage s = u) in U. rewrite <- Hk, <- encode_app in O. rewrite Hk in O, Hb |- *.
  rewrite (decide_True _ _ (eq_refl texts)). unfold ending, complete. destruct body_end as [e|].
  { do 2 eexists. split; [done|]. rewrite !decide_False by (intros H; by repeat destruct H as [? H]). rewrite app_nil_r. split_and!; try done. by intros; apply Hab. }
  rewrite D. destruct (decide (donePayload ∈ ps)) as [Hin|Hin].
  - rewrite bool_decide_true by done. cbn [negb Finish responses_transcoder]. unfold responses_finish, responses_emit.
    rewrite WriteEvent_sent, !decide_True by done. do 2 eexists. split; [done|]. cbn [tstop usage streamBytes written err t_out t_usage].
    split_and!; try done; [|by intros; apply Hab]. rewrite O, I, J, T, U. by rewrite <- encode_app.
  - rewrite bool_decide_false by done. cbn [negb]. do 2 eexists. split; [done|].
    rewrite !decide_False by (intros H; by repeat destruct H as [? H]). rewrite app_nil_r. split_and!; try done. by intros; apply Hab.
Qed.

(** C21. Ingest of the Messages wire accepts exactly the decoded requests
    that name a model, bound their tokens by a positive maximum and declare
    nothing the canonical form cannot carry, with contents that read as
    text; the canonical request has the system prompt first and the
    conversation in order, and its encoding asks for usage exactly when it
    streams.  The order in which the declared fields are visited is
    irrelevant to the verdict. *)
Theorem messages_ingest (as_string : string -> option string) (as_parts : string -> option (list (string * string)))
    (marshal : ChatRequest -> bool -> string + string) (quoted : string -> string)
    (ranged : list (string * string) -> list (string * string))
    (unmarshal : string -> anthropicRequest + string) (body upstream : string) (req : anthropicRequest) (chat : ChatRequest) :
  (forall fields, ranged fields ≡ₚ fields) -> unmarshal body = inl req ->
  ingestAnthropic as_string as_parts marshal quoted ranged unmarshal body = inl (chat, upstream) <->
  messages_request as_string as_parts req chat /\ marshal chat (aStream req) = inl upstream.
Proof.
  intros Hr Hu. unfold ingestAnthropic, messages_request. rewrite Hu.
  destruct (String.eqb_spec (aModel req) ""); [by split; [|intros [[? _] _]]|].
  destruct (aMaxTokens req) as [max|]; [|by split; [|intros [(_ & (? & ? & _) & _) _]]].
  destruct (Z.ltb_spec 0 max); cbn [negb]; [|split; [done|intros [(_ & (? & [= <-] & ?) & _) _]; lia]].
  case_bool_decide as Hs; cbn [negb]; [|by split; [|intros [(_ & _ & ? & _) _]]].
  pose proof (refused_field_None as_string as_parts quoted ranged Hr [("tools", aTools req); ("tool_choice", aToolChoice req); ("thinking", aThinking req)]%string) as Hf.
  cbn [fmap list_fmap snd] in Hf.
  destruct (refused_field _ _); [split; [done|intros [(_ & _ & _ & Hx & _) _]; by apply Hf in Hx]|].
  destruct (aTopK req); [by split; [|intros [(_ & _ & _ & _ & ? & _) _]]|].
  rewrite bool_decide_false by (by intros []). split.
  - intros H'. destruct (system_messages _ _ _ _) as [system|] eqn:Es; [|done]. destruct (converse _ _) as [ms|] eqn:Em; [|done].
    apply canonical_body_inl in H' as [-> Hm]. split; [|done]. split_and!; try done; [eauto|by apply Hf|].
    exists system, ms. split_and!; [by eapply system_messages_inl|by eapply converse_inl; [apply anthropicText_inl|]|done].
  - intros [(_ & _ & _ & _ & _ & system & ms & Hsys & Hms & ->) Hm]. eapply system_messages_inl in Hsys as ->.
    eapply converse_inl in Hms as ->; [|apply anthropicText_inl]. by apply canonical_body_inl.
Qed.

(** Ingest of the Responses wire, likewise: a model, a positive maximum
    if any, none of the unsupported fields, no earlier response to continue;
    the input is a user's text or a conversation of text parts, behind the
    instructions as the system message. *)
Theorem responses_ingest (as_string : string -> option string) (as_parts as_entries : string -> option (list (string * string)))
    (marshal : ChatRequest -> bool -> string + string) (quoted : string -> string)
    (ranged : list (string * string) -> list (string * string))
    (unmarshal : string -> responsesRequest + string) (body upstream : string) (req : responsesRequest) (chat : ChatRequest) :
  (forall fields, ranged fields ≡ₚ fields) -> unmarshal body = inl req ->
  ingestResponses as_string as_parts marshal quoted ranged unmarshal as_entries body = inl (chat, upstream) <->
  responses_request as_string as_parts as_entries req chat /\ marshal chat (rStream req) = inl upstream.
Proof.
  intros Hr Hu. unfold ingestResponses, responses_request. rewrite Hu.
  destruct (String.eqb_spec (rModel req) ""); [by split; [|intros [[? _] _]]|].
  assert ((match rMaxOutputTokens req with Some n => n <=? 0 | None => false end) = false <->
    forall n, rMaxOutputTokens req = Some n -> 0 < n) as Hmax.
  { destruct (rMaxOutputTokens req) as [max|]; [|by split]. rewrite Z.leb_gt. split; [by intros ? ? [= <-]|auto]. }
  destruct (match rMaxOutputTokens req with Some n => n <=? 0 | None => false end);
    [split; [done|intros [(_ & Hx & _) _]; by apply Hmax in Hx]|].
  pose proof (refused_field_None as_string as_parts quoted ranged Hr [("tools", rTools req); ("tool_choice", rToolChoice req);
    ("reasoning", rReasoning req); ("text", rText req)]%string) as Hf. cbn [fmap list_fmap snd] in Hf.
  destruct (refused_field _ _); [split; [done|intros [(_ & _ & Hx & _) _]; by apply Hf in Hx]|].
  destruct (String.eqb_spec (rPrevious req) ""); cbn [negb]; [|by split; [|intros [(_ & _ & _ & ? & _) _]]].
  assert (forall ms : list ChatMessage, (if String.eqb (rInstructions req) "" then ms else mkMessage "system" (rInstructions req) :: ms)
    = (if decide (rInstructions req = ""%string) then [] else [mkMessage "system" (rInstructions req)]) ++ ms) as Hi.
  { intros ms. by destruct (String.eqb_spec (rInstructions req) ""), (decide (rInstructions req = ""%string)). }
  split.
  - intros H'. destruct (input_messages _ _ _ _ _) as [ms|] eqn:Em; [|done]. rewrite Hi in H'.
    apply canonical_body_inl in H' as [-> Hm]. split; [|done]. split_and!; try done; [by apply Hmax|by apply Hf|].
    exists ms. split; [by eapply input_messages_inl|done].
  - intros [(_ & _ & _ & _ & ms & Hms & ->) Hm]. eapply input_messages_inl in Hms as ->. rewrite Hi. by apply canonical_body_inl.
Qed.

(** What a client may be handed: a legal media type that is no document, and
    beside it only a legal Retry-After of the upstream. *)
Definition safe_header (ParseMediaType : string -> option string) (upstream header : Header) : Prop :=
  (forall name v, header !! name = Some v -> name <> "Content-Type"%string ->
     name = "Retry-After"%string /\ upstream !! name = Some v /\ ValidHeaderValue v = true) /\
  exists ct, header !! "Content-Type"%string = Some ct /\
    (ct = "application/json"%string \/ ct = PlainContentType \/
     upstream !! "Content-Type"%string = Some ct /\ ValidHeaderValue ct = true /\
     exists m, ParseMediaType ct = Some m /\ has_slash m = true /\ rendersAsDocument m = false).

Lemma exchange_safe ParseMediaType status header body :
  safe_header ParseMediaType header (rHeader (renderExchangeBody ParseMediaType status header body passthroughHeaderNames)).
Proof.
  destruct (WireProps.exchange_rendered_safely ParseMediaType status header body) as (_ & _ & _ & Hh & ct & Hct & H).
  split; [exact Hh|]. exists ct. split; [exact Hct|by right].
Qed.

Lemma json_safe ParseMediaType encode status header out body :
  (forall name v, out !! name = Some v -> name = "Retry-After"%string /\ header !! name = Some v /\ ValidHeaderValue v = true) ->
  safe_header ParseMediaType header (rHeader (writeJSONResponse encode status out body)).
Proof.
  intros Hout. unfold writeJSONResponse. cbn [rHeader]. split; [|exists "application/json"%string; split; [apply lookup_insert_eq|by left]].
  intros name v [[<- _]|[_ Hv]]%lookup_insert_Some Hne; [done|by apply Hout].
Qed.

(** The Retry-After every wire forwards. *)
Definition forwarded_wait (header : Header) : option string :=
  match header !! "Retry-After"%string with
  | Some v => if negb (String.eqb v "") && ValidHeaderValue v then Some v else None
  | None => None
  end.

Lemma exchange_wait ParseMediaType status header body :
  rHeader (renderExchangeBody ParseMediaType status header body passthroughHeaderNames) !! "Retry-After"%string
  = forwarded_wait header.
Proof.
  unfold renderExchangeBody, passthroughHeaderNames, copy_headers, forwarded_wait. cbn [rHeader foldl].
  rewrite lookup_insert_ne by done. cbn [String.eqb Ascii.eqb Bool.eqb]. unfold get.
  destruct (header !! "Retry-After"%string) as [v|]; cbn [default from_option id]; [|done].
  destruct (negb _ && _) eqn:E; [apply lookup_insert_eq|apply lookup_empty].
Qed.

(** Whatever the format and whatever the upstream sent, the reply of a
    completed exchange carries a legal media type that no browser renders as
    a document, and beside it only the upstream's own legal Retry-After; an
    upstream error hands the client the same Retry-After on every wire.  A
    status in the renderable range is kept on every wire; outside it the
    passthrough answers 502, and the Messages wire alone writes the
    upstream's status as it is. *)
Theorem wire_replies_safe (ParseMediaType : string -> option string) (encode : json -> string)
    (parse : string -> option chatResponse) (decode_error : string -> string * string)
    (w : Dispatch.Wire) (status : Z) (header : Header) (body : string) :
  let success := Dispatch.RenderSuccess ParseMediaType encode parse w status header body in
  let failure := Dispatch.RenderUpstreamError ParseMediaType encode decode_error w status header body in
  safe_header ParseMediaType header (rHeader success) /\ safe_header ParseMediaType header (rHeader failure) /\
  rHeader failure !! "Retry-After"%string = forwarded_wait header /\
  (100 <= status <= 599 -> rStatus success = status /\ rStatus failure = status) /\
  rStatus failure = (if decide (w = Dispatch.anthropicWire) then status else if decide (100 <= status <= 599) then status else 502).
Proof.
  cbv zeta. assert (forall s, rStatus (renderExchangeBody ParseMediaType s header body passthroughHeaderNames)
    = if decide (100 <= s <= 599) then s else 502) as Hst.
  { intros s. unfold renderExchangeBody. cbn [rStatus].
    destruct (Z.ltb_spec s 100), (Z.ltb_spec 599 s), (decide (100 <= s <= 599)); cbn [orb]; lia. }
  assert (forall n v, (∅ : Header) !! n = Some v -> n = "Retry-After"%string /\ header !! n = Some v /\ ValidHeaderValue v = true) as H0 by done.
  destruct w; cbn [Dispatch.RenderSuccess Dispatch.RenderUpstreamError].
  - split; [apply exchange_safe|]. split; [apply exchange_safe|]. split; [apply exchange_wait|].
    unfold Wire.RenderSuccess, Wire.RenderUpstreamError. rewrite !Hst. split; [intros H; by rewrite decide_True|done].
  - unfold responsesRenderSuccess, responsesRenderUpstreamError.
    split; [destruct (parse body); [by apply json_safe|apply exchange_safe]|].
    split; [apply exchange_safe|]. split; [apply exchange_wait|]. rewrite !Hst.
    split; [|done]. intros H. rewrite decide_True by done. split; [|done]. destruct (parse body); [done|]. by rewrite Hst, decide_True.
  - unfold anthropicRenderSuccess, anthropicRenderUpstreamError.
    split; [destruct (parse body); [by apply json_safe|apply exchange_safe]|].
    assert (get "Retry-After" header = default ""%string (header !! "Retry-After"%string)) as Hg by done.
    split; [|split].
    + apply json_safe. intros n v. rewrite Hg. destruct (header !! "Retry-After"%string) as [x|] eqn:Hx; cbn [default from_option id]; [|done].
      destruct (String.eqb x "") eqn:Ex, (ValidHeaderValue x) eqn:Vx; cbn [negb andb]; try done.
      by intros [<- <-]%lookup_singleton_Some.
    + unfold writeJSONResponse. cbn [rHeader]. rewrite lookup_insert_ne by done. rewrite Hg. unfold forwarded_wait.
      destruct (header !! "Retry-After"%string) as [x|]; cbn [default from_option id]; [|done].
      destruct (negb _ && _); [apply lookup_singleton_eq|done].
    + split; [|done]. intros H. split; [|done]. destruct (parse body); [done|]. by rewrite Hst, decide_True.
Qed.

(** *** Concrete exchanges *)
Definition sample_stream : bytes := encode_stream [bytes_of "a"; bytes_of "b"].
Definition sample_json (j : json) : bytes := bytes_of match j with JObj _ => "{}" | _ => "0" end.
Definition sample_string (raw : string) : option string :=
  match raw with String c text => if Ascii.eqb c "'" then Some text else None | EmptyString => None end.
Definition sample_parts (_ : string) : option (list (string * string)) := Some [("text", "a"); ("text", "b")]%string.
Definition sample_marshal (_ : ChatRequest) (usage : bool) : string + string := inl (if usage then "{u}" else "{}")%string.

Lemma sample_fits : fits sample_stream.
Proof.
  apply StreamProps.encode_fits.
  repeat constructor; try (rewrite StreamProps.cap_value; cbn; lia); try done; intros Hin; by apply (bool_decide_pack _) in Hin.
Qed.

Lemma messages_stream_witness :
  exists p t,
  @pumpTranscoded (fun _ => None) None anthropicStream
    (anthropic_transcoder sample_json accepts_all
       (fun p => if decide (p = bytes_of "a") then Some [("Hi", None)] else Some [("", Some "length")]%string))
    "m" sample_stream (mkAnthropic "id" "" false "" 0) = Some (p, t) /\ err p = None /\
  written p = encode_frames sample_json
    [("message_start", message_start "id" "m"); ("content_block_start", content_block_start);
     ("content_block_delta", content_block_delta "Hi"); ("content_block_stop", content_block_stop);
     ("message_delta", message_delta "max_tokens" zero_usage); ("message_stop", message_stop)]%string.
Proof.
  destruct (messages_stream sample_json
    (fun p => if decide (p = bytes_of "a") then Some [("Hi", None)] else Some [("", Some "length")]%string)
    (fun _ => None) None sample_stream "m" "id" sample_fits) as (p & t & Hp & _ & _ & Hw & He & _).
  exists p, t. split; [exact Hp|]. split; [rewrite He|rewrite Hw]; by vm_compute.
Defined.

Lemma responses_stream_witness :
  exists p t,
  @pumpTranscoded (fun _ => None) None responsesStream
    (responses_transcoder sample_json accepts_all (fun _ => Some ["Hi"]%string)) "m" sample_stream (mkResponses "id" "" "" 0)
  = Some (p, t) /\ err p = None /\
  written p = encode_frames sample_json
    [("response.created", response_created "id" "m"); ("response.output_text.delta", output_text_delta "Hi");
     ("response.output_text.delta", output_text_delta "Hi"); ("response.completed", response_completed "id" "m" "HiHi" None)]%string.
Proof.
  destruct (responses_stream sample_json (fun _ => Some ["Hi"]%string) (fun _ => None) None sample_stream "m" "id" sample_fits)
    as (p & t & Hp & _ & _ & Hw & He & _).
  exists p, t. split; [exact Hp|]. split; [rewrite He|rewrite Hw]; by vm_compute.
Defined.

Lemma messages_ingest_witness :
  let req := mkAnthropicRequest "m" true "'be brief" [("user", "[...]")] (Some 9) None None [] "" "null" "" None in
  let chat := mkChat "m" true [mkMessage "system" "be brief"; mkMessage "user" "ab"] (Some 9) None None None in
  ingestAnthropic sample_string sample_parts sample_marshal (fun q => q) (fun fs => fs) (fun _ => inl req) "body" = inl (chat, "{u}") /\
  messages_request sample_string sample_parts req chat.
Proof.
  intros req chat.
  assert (ingestAnthropic sample_string sample_parts sample_marshal (fun q => q) (fun fs => fs) (fun _ => inl req) "body" = inl (chat, "{u}")) as H
    by reflexivity.
  split; [exact H|]. by apply (messages_ingest _ _ _ _ _ _ "body" "{u}" req chat (fun _ => reflexivity _) eq_refl) in H as [Hr _].
Defined.

Lemma responses_ingest_witness :
  let req := mkResponsesRequest "m" false "'hello" "be brief" None None None "" "" "" "" "null" in
  let chat := mkChat "m" false [mkMessage "system" "be brief"; mkMessage "user" "hello"] None None None None in
  ingestResponses sample_string sample_parts sample_marshal (fun q => q) (fun fs => rev fs) (fun _ => inl req) (fun _ => None) "body" = inl (chat, "{}") /\
  responses_request sample_string sample_parts (fun _ => None) req chat.
Proof.
  intros req chat.
  assert (ingestResponses sample_string sample_parts sample_marshal (fun q => q) (fun fs => rev fs) (fun _ => inl req) (fun _ => None) "body"
    = inl (chat, "{}")) as H by reflexivity.
  split; [exact H|].
  by apply (responses_ingest _ _ _ _ _ _ _ "body" "{}" req chat (fun fs => symmetry (Permutation_rev fs)) eq_refl) in H as [Hr _].
Defined.
End WiresProps.
