(* ===== verification/Relay.v ===== *)
(** * The relay engine (internal/relay: executor.go, exchange.go, streamlease.go)

    [Lease] is the timer set of a streaming attempt, [Bounded] the capped
    body reads, [Relay] one attempt against one candidate and the request
    around it: the attempts run inside the loop of Retry.v over the plan of
    RelayPlan.v, and the final error decides the one response.

    The run of a request is explicit state.  What surrounds it - upstream
    replies, breaker and bulkhead verdicts, clocks, timers, the client's
    context and writes - is an [environment] indexed by the attempt, so that
    every theorem holds for all behaviours of the rest of the gateway.  What
    the run does to its surroundings is recorded: [out] lists the calls that
    reach the client's response writer, [effects] the calls on the bulkhead,
    the breaker, the observers and the fatal hook. *)
From stdpp Require Import base numbers gmap sets strings list.
From S2P Require Import Prelude Retry Circuit Upstream RelayPlan Stream Protocol.
Import GoInt GoTime.
Local Open Scope Z_scope.

(** ** The stream lease (streamlease.go) *)
Module Lease.
(** A timer field: nil, armed, or stopped or fired. *)
Inductive timer := NoTimer | Running | Spent.
Inductive which := Ttft | Ceiling | Idle.

Record streamLease := mkLease {
  ttftTimer : timer; ceilingTimer : timer; idleTimer : timer;
  ttftFired : bool; ceilingFired : bool; idleFired : bool; cancelled : bool
}.

Definition beginStream (streamTimeout attemptTimeout : Z) : streamLease :=
  mkLease (if 0 <? attemptTimeout then Running else NoTimer)
    (if 0 <? streamTimeout then Running else NoTimer) NoTimer false false false false.

(** The function of an armed timer runs. *)
Definition fire (w : which) (l : streamLease) : streamLease :=
  match w with
  | Ttft => match ttftTimer l with
      | Running => mkLease Spent (ceilingTimer l) (idleTimer l) true (ceilingFired l) (idleFired l) true
      | _ => l end
  | Ceiling => match ceilingTimer l with
      | Running => mkLease (ttftTimer l) Spent (idleTimer l) (ttftFired l) true (idleFired l) true
      | _ => l end
  | Idle => match idleTimer l with
      | Running => mkLease (ttftTimer l) (ceilingTimer l) Spent (ttftFired l) (ceilingFired l) true true
      | _ => l end
  end.

Definition ttftPassed (l : streamLease) : streamLease :=
  match ttftTimer l with
  | NoTimer => l
  | _ => mkLease Spent (ceilingTimer l) (idleTimer l) (ttftFired l) (ceilingFired l) (idleFired l) (cancelled l)
  end.

Definition armIdle (d : Z) (l : streamLease) : streamLease :=
  if d <=? 0 then l
  else mkLease (ttftTimer l) (ceilingTimer l) Running (ttftFired l) (ceilingFired l) (idleFired l) (cancelled l).

(** A read re-arms the idle watchdog, a fired one included. *)
Definition activity (l : streamLease) : streamLease :=
  match idleTimer l with
  | NoTimer => l
  | _ => mkLease (ttftTimer l) (ceilingTimer l) Running (ttftFired l) (ceilingFired l) (idleFired l) (cancelled l)
  end.

Definition end_lease (l : streamLease) : streamLease :=
  mkLease NoTimer NoTimer NoTimer (ttftFired l) (ceilingFired l) (idleFired l) true.

(** What happens to a lease while the exchange waits. *)
Inductive lease_event := Fired (w : which) | Read_.
Definition lease_step (l : streamLease) (e : lease_event) : streamLease :=
  match e with Fired w => fire w l | Read_ => activity l end.
Definition lease_run (es : list lease_event) (l : streamLease) : streamLease := foldl lease_step l es.
End Lease.

(** ** Bounded reads (executor.go) *)
Module Bounded.
Import Errors OpenAI.

Definition maxResponseBytes : Z := Z.shiftl 32 20.
Definition readSeedHeadroom : Z := 512.
Definition max_int32 : Z := 2 ^ 31 - 1.

Definition body_bytes (b : body) : string := foldr String.append EmptyString (chunks b).

(** [io.Copy] of a [LimitReader]: one byte past the limit ends the read
    before the body's own error can. *)
Definition readBounded (b : body) (limit : Z) : string + goerr :=
  let n := Z.of_nat (String.length (body_bytes b)) in
  if limit + 1 <=? n then inr (Transport "upstream body exceeds the limit")
  else match ends b with
  | Some e => inr e
  | None => inl (body_bytes b)
  end.

Definition growSeed (sizeHint : Z) : Z :=
  if max_int32 - readSeedHeadroom <? sizeHint then 0 else sizeHint + readSeedHeadroom.

(** [parse_int] is [strconv.ParseInt]. *)
Definition contentLengthHint (parse_int : string -> option Z) (header : option Wire.Header) : Z :=
  match header with
  | None => -1
  | Some h => match parse_int (Wire.get "Content-Length" h) with
      | None => -1
      | Some n => if n <? 0 then -1 else n
      end
  end.
End Bounded.

(** ** The request (executor.go, exchange.go)

    The status a wire writes is in [event_status]; a write net/http refuses
    panics out of the execution. *)
Module Relay.
Import Formats Errors Classifier OpenAI Wire Plan Fatal Lease Bounded UsageCodec Pump.

Definition errCircuitOpen : goerr := Sentinel "relay: circuit open".
Definition errUpstreamSaturated : goerr := Sentinel "relay: upstream saturated".

Record AttemptTrace := mkTrace { tUpstream : string; tCredentialIndex : Z; tStatus : Z }.

Record exchangeSnapshot := mkSnapshot { sStatus : Z; sHeader : Header; sBody : string }.

(** What reaches [job.Out]: the calls on the client's wire, the committed
    stream's head, the pumped bytes, the abort frame. *)
Inductive client_event :=
  | RenderSuccess (snap : exchangeSnapshot)
  | RenderUpstreamError (snap : exchangeSnapshot)
  | RenderError (status : Z) (code : string)
  | StreamHead (contentType : string) (cacheControl : option string)
  | StreamData (data : bytes)
  | StreamAbort (code : string).

(** [renderExchangeBody] replaces a status outside the renderable range. *)
Definition clamped (status : Z) : Z := if (status <? 100) || (599 <? status) then 502 else status.

(** The status an event writes: the passthrough clamps, except in the
    Messages format, which renders an upstream error under its own
    status. *)
Definition event_status (format : string) (e : client_event) : Z :=
  match e with
  | RenderSuccess snap => clamped (sStatus snap)
  | RenderUpstreamError snap =>
      if String.eqb format FormatAnthropicMessages then sStatus snap else clamped (sStatus snap)
  | RenderError status _ => status
  | StreamHead _ _ | StreamData _ | StreamAbort _ => 200
  end.

(** The statuses [WriteHeader] of net/http refuses, with a panic. *)
Definition refused (status : Z) : bool := (status <? 100) || (999 <? status).

Inductive effect :=
  | SlotAcquired (id : string) (ok : bool) | SlotReleased (id : string)
  | BreakerAsked (id : string) (ok : bool) | BreakerReported (id : string) (o : Outcome)
  | Observed (id : string) (latency : Z) (failed : bool)
  | FatalReported (id : string) (credential : Z) (reason : string)
  | RetryScheduled (id : string) | Failover (from to : string) | UpstreamSaturated (id : string)
  | TtftObserved (id : string) (d : Z) | RetryBudgetExhausted.

Section relay.
Context {U : Type} (ID : U -> string).
(** Whether an upstream is a [CredentialPool]. *)
Variable pool : U -> bool.
Context {T : Type} `{!StreamTranscoder T}.

Record requestRun := mkRun {
  plan_ : @plan U; attempts : Z; retries : Z; servedBy : string; usage : option Usage;
  streamed : bool; trail : list AttemptTrace; success : option exchangeSnapshot;
  lastFailed : option exchangeSnapshot; lastFailedErr : option nat;
  terminal : option exchangeSnapshot; streamBytes : Z; rotated : option nat; gatewayCode : string;
  lastCand : option U; excluded : gmap string (list Z); responsiveness : Z;
  out : list client_event; effects : list effect
}.

Definition set_plan_ (v : @plan U) (r : requestRun) : requestRun :=
  mkRun v (attempts r) (retries r) (servedBy r) (usage r) (streamed r) (trail r) (success r)
    (lastFailed r) (lastFailedErr r) (terminal r) (streamBytes r) (rotated r) (gatewayCode r)
    (lastCand r) (excluded r) (responsiveness r) (out r) (effects r).
Definition set_attempts (v : Z) (r : requestRun) : requestRun :=
  mkRun (plan_ r) v (retries r) (servedBy r) (usage r) (streamed r) (trail r) (success r)
    (lastFailed r) (lastFailedErr r) (terminal r) (streamBytes r) (rotated r) (gatewayCode r)
    (lastCand r) (excluded r) (responsiveness r) (out r) (effects r).
Definition set_retries (v : Z) (r : requestRun) : requestRun :=
  mkRun (plan_ r) (attempts r) v (servedBy r) (usage r) (streamed r) (trail r) (success r)
    (lastFailed r) (lastFailedErr r) (terminal r) (streamBytes r) (rotated r) (gatewayCode r)
    (lastCand r) (excluded r) (responsiveness r) (out r) (effects r).
Definition set_servedBy (v : string) (r : requestRun) : requestRun :=
  mkRun (plan_ r) (attempts r) (retries r) v (usage r) (streamed r) (trail r) (success r)
    (lastFailed r) (lastFailedErr r) (terminal r) (streamBytes r) (rotated r) (gatewayCode r)
    (lastCand r) (excluded r) (responsiveness r) (out r) (effects r).
Definition set_usage (v : option Usage) (r : requestRun) : requestRun :=
  mkRun (plan_ r) (attempts r) (retries r) (servedBy r) v (streamed r) (trail r) (success r)
    (lastFailed r) (lastFailedErr r) (terminal r) (streamBytes r) (rotated r) (gatewayCode r)
    (lastCand r) (excluded r) (responsiveness r) (out r) (effects r).
Definition set_streamed (v : bool) (r : requestRun) : requestRun :=
  mkRun (plan_ r) (attempts r) (retries r) (servedBy r) (usage r) v (trail r) (success r)
    (lastFailed r) (lastFailedErr r) (terminal r) (streamBytes r) (rotated r) (gatewayCode r)
    (lastCand r) (excluded r) (responsiveness r) (out r) (effects r).
Definition set_trail (v : list AttemptTrace) (r : requestRun) : requestRun :=
  mkRun (plan_ r) (attempts r) (retries r) (servedBy r) (usage r) (streamed r) v (success r)
    (lastFailed r) (lastFailedErr r) (terminal r) (streamBytes r) (rotated r) (gatewayCode r)
    (lastCand r) (excluded r) (responsiveness r) (out r) (effects r).
Definition set_success (v : option exchangeSnapshot) (r : requestRun) : requestRun :=
  mkRun (plan_ r) (attempts r) (retries r) (servedBy r) (usage r) (streamed r) (trail r) v
    (lastFailed r) (lastFailedErr r) (terminal r) (streamBytes r) (rotated r) (gatewayCode r)
    (lastCand r) (excluded r) (responsiveness r) (out r) (effects r).
Definition set_lastFailed (v : option exchangeSnapshot) (r : requestRun) : requestRun :=
  mkRun (plan_ r) (attempts r) (retries r) (servedBy r) (usage r) (streamed r) (trail r)
    (success r) v (lastFailedErr r) (terminal r) (streamBytes r) (rotated r) (gatewayCode r)
    (lastCand r) (excluded r) (responsiveness r) (out r) (effects r).
Definition set_lastFailedErr (v : option nat) (r : requestRun) : requestRun :=
  mkRun (plan_ r) (attempts r) (retries r) (servedBy r) (usage r) (streamed r) (trail r)
    (success r) (lastFailed r) v (terminal r) (streamBytes r) (rotated r) (gatewayCode r)
    (lastCand r) (excluded r) (responsiveness r) (out r) (effects r).
Definition set_terminal (v : option exchangeSnapshot) (r : requestRun) : requestRun :=
  mkRun (plan_ r) (attempts r) (retries r) (servedBy r) (usage r) (streamed r) (trail r)
    (success r) (lastFailed r) (lastFailedErr r) v (streamBytes r) (rotated r) (gatewayCode r)
    (lastCand r) (excluded r) (responsiveness r) (out r) (effects r).
Definition set_streamBytes (v : Z) (r : requestRun) : requestRun :=
  mkRun (plan_ r) (attempts r) (retries r) (servedBy r) (usage r) (streamed r) (trail r)
    (success r) (lastFailed r) (lastFailedErr r) (terminal r) v (rotated r) (gatewayCode r)
    (lastCand r) (excluded r) (responsiveness r) (out r) (effects r).
Definition set_rotated (v : option nat) (r : requestRun) : requestRun :=
  mkRun (plan_ r) (attempts r) (retries r) (servedBy r) (usage r) (streamed r) (trail r)
    (success r) (lastFailed r) (lastFailedErr r) (terminal r) (streamBytes r) v (gatewayCode r)
    (lastCand r) (excluded r) (responsiveness r) (out r) (effects r).
Definition set_gatewayCode (v : string) (r : requestRun) : requestRun :=
  mkRun (plan_ r) (attempts r) (retries r) (servedBy r) (usage r) (streamed r) (trail r)
    (success r) (lastFailed r) (lastFailedErr r) (terminal r) (streamBytes r) (rotated r) v
    (lastCand r) (excluded r) (responsiveness r) (out r) (effects r).
Definition set_lastCand (v : option U) (r : requestRun) : requestRun :=
  mkRun (plan_ r) (attempts r) (retries r) (servedBy r) (usage r) (streamed r) (trail r)
    (success r) (lastFailed r) (lastFailedErr r) (terminal r) (streamBytes r) (rotated r)
    (gatewayCode r) v (excluded r) (responsiveness r) (out r) (effects r).
Definition set_excluded (v : gmap string (list Z)) (r : requestRun) : requestRun :=
  mkRun (plan_ r) (attempts r) (retries r) (servedBy r) (usage r) (streamed r) (trail r)
    (success r) (lastFailed r) (lastFailedErr r) (terminal r) (streamBytes r) (rotated r)
    (gatewayCode r) (lastCand r) v (responsiveness r) (out r) (effects r).
Definition set_responsiveness (v : Z) (r : requestRun) : requestRun :=
  mkRun (plan_ r) (attempts r) (retries r) (servedBy r) (usage r) (streamed r) (trail r)
    (success r) (lastFailed r) (lastFailedErr r) (terminal r) (streamBytes r) (rotated r)
    (gatewayCode r) (lastCand r) (excluded r) v (out r) (effects r).
Definition set_out (v : list client_event) (r : requestRun) : requestRun :=
  mkRun (plan_ r) (attempts r) (retries r) (servedBy r) (usage r) (streamed r) (trail r)
    (success r) (lastFailed r) (lastFailedErr r) (terminal r) (streamBytes r) (rotated r)
    (gatewayCode r) (lastCand r) (excluded r) (responsiveness r) v (effects r).
Definition set_effects (v : list effect) (r : requestRun) : requestRun :=
  mkRun (plan_ r) (attempts r) (retries r) (servedBy r) (usage r) (streamed r) (trail r)
    (success r) (lastFailed r) (lastFailedErr r) (terminal r) (streamBytes r) (rotated r)
    (gatewayCode r) (lastCand r) (excluded r) (responsiveness r) (out r) v.


Record Job := mkJob {
  jModel : string; jStream : bool; jBody : string; jRequestID : string; Candidates : list U;
  Fallbacks : list string; Resolve : option (string -> option (list U));
  (** The format of the client's wire, and what its [Stream] returns. *)
  jWire : string; transcoder : option T
}.

(** The executor's configuration; an absent bulkhead, breaker, observer or
    hook is [None] or [false]. *)
Record Executor := mkExecutor {
  policy : Loop.Policy; classifier : option goerr -> bool; hint : option (goerr -> Z);
  has_breaker : bool; has_observer : bool; has_fatalHook : bool;
  streamTimeout : Z; streamIdleTimeout : Z; slowCallThreshold : Z; bulkhead : bool
}.

(** The moments at which an attempt looks at the client's context. *)
Inductive moment := AfterForward | AfterPump | AtObserve.

(** What surrounds attempt [n]. *)
Record environment := mkEnv {
  slot : Z -> bool; allowed : Z -> bool;
  started : Z -> Z; answered : Z -> Z; settled : Z -> Z;
  forward : Z -> U -> Request -> forward_result;
  while_forward : Z -> list lease_event; 
  before_check : Z -> list lease_event; while_pump : Z -> list lease_event;
  ctx : Z -> moment -> option goerr; ctx_final : option goerr;
  alive : Z -> Z; alive_next : Z -> Z;
  client_write : Z -> nat -> option goerr
}.

(** The decoders of the standard library: the error envelope, the media
    type, the Retry-After value and the usage object. *)
Record decoders := mkDecoders {
  decode_error : string -> upstreamErrorBody; parse_media : string -> option string;
  parse_retry_after : Z -> string -> Z; decode_usage : bytes -> option (option Usage)
}.

Variable exec : Executor.
Variable dec : decoders.
Variable env : environment.
Variable job : Job.

Definition emit (e : client_event) (r : requestRun) : requestRun := set_out (out r ++ [e]) r.
Definition log (e : effect) (r : requestRun) : requestRun := set_effects (effects r ++ [e]) r.
Definition trace (up : string) (credential status : Z) (r : requestRun) : requestRun :=
  set_trail (trail r ++ [mkTrace up credential status]) r.

(** [errors.Is(err, status)] for the status error object [obj]. *)
Fixpoint Is_object (err : goerr) (obj : nat) : bool :=
  match err with
  | StatusError o _ _ => bool_decide (o = obj)
  | Wrap e1 e2 => Is_object e1 obj || Is_object e2 obj
  | _ => false
  end.

Definition is_canceled (e : option goerr) : bool :=
  match e with Some e => Is e Canceled | None => false end.

Definition clientFault (ctx_err : option goerr) (err : goerr) : bool :=
  Is err Canceled && is_canceled ctx_err.

Definition transportOutcome (ctx_err : option goerr) (err : goerr) : Outcome :=
  if clientFault ctx_err err then OutcomeClientFault else OutcomeServerFault.

Definition ttftTimeoutError : goerr := Wrap (Transport "time-to-first-byte exceeded") DeadlineExceeded.
Definition ceilingTimeoutError : goerr :=
  Wrap (Transport "stream ceiling exceeded before the first byte") DeadlineExceeded.

Definition CodeUpstreamReset : string := "upstream_reset".
Definition CodeUpstreamTimeout : string := "upstream_timeout".
Definition abortCode (err : goerr) : string :=
  if Is err DeadlineExceeded then CodeUpstreamTimeout else CodeUpstreamReset.

Definition credentialAlive (n : Z) (cand : U) : Z := if pool cand then alive env n else 0.

Definition excludeCredential (upstreamID : string) (index : Z) (r : requestRun) : requestRun :=
  let burned := default [] (excluded r !! upstreamID) in
  if Ring.containsIndex burned index then r
  else set_excluded (<[upstreamID := burned ++ [index]]> (excluded r)) r.

Definition credentialRotates (n : Z) (cand : U) (r : requestRun) : bool :=
  let burned := default [] (excluded r !! ID cand) in
  if (length burned =? 0)%nat then false
  else if negb (pool cand) then false
  else Z.of_nat (length burned) <? alive_next env n.

(** How an exchange ends: outcome and error, or a panic. *)
Inductive exchanged := Exchanged (o : Outcome) (err : option goerr) | ExchangePanicked.

Definition stashUpstreamError (n : Z) (cand : U) (resp : Response) (body : string) (r : requestRun)
  : exchanged * requestRun :=
  let r := set_servedBy (ID cand) r in
  let r := trace (ID cand) (CredentialIndex resp) (StatusCode resp) r in
  let obj := Z.to_nat n in
  let statusErr := StatusError obj (StatusCode resp)
    (parse_retry_after dec n (get "Retry-After" (OpenAI.Header resp))) in
  let reason := fatalUpstreamReason (StatusCode resp) (decode_error dec body) in
  let r := if negb (String.eqb reason "") && has_fatalHook exec
           then log (FatalReported (ID cand) (CredentialIndex resp) reason) r else r in
  let r := if (0 <=? CredentialIndex resp) && (negb (String.eqb reason "") || (StatusCode resp =? 429))
           then excludeCredential (ID cand) (CredentialIndex resp) r else r in
  let rotate := negb (String.eqb reason "") && (0 <? credentialAlive n cand) in
  let retryable := rotate || classifier exec (Some statusErr) in
  let r := if rotate then set_rotated (Some obj) r else r in
  let snap := mkSnapshot (StatusCode resp) (OpenAI.Header resp) body in
  if retryable then
    (Exchanged OutcomeServerFault (Some statusErr), set_lastFailedErr (Some obj) (set_lastFailed (Some snap) r))
  else (Exchanged OutcomeClientFault (Some statusErr), set_terminal (Some snap) r).

Definition success_status (status : Z) : bool := negb ((status <? 200) || (299 <? status)).

Definition readError (cand : U) (e : goerr) : goerr := Wrap (Transport ("read body " +:+ ID cand)) e.

Definition exchangeBuffered (n : Z) (cand : U) (resp : Response) (r : requestRun)
  : exchanged * requestRun :=
  match readBounded (RespBody resp) maxResponseBytes with
  | inr e =>
      (Exchanged OutcomeServerFault (Some (readError cand e)),
       trace (ID cand) (CredentialIndex resp) (StatusCode resp) r)
  | inl body =>
      if negb (success_status (StatusCode resp)) then stashUpstreamError n cand resp body r
      else
        let r := set_success (Some (mkSnapshot (StatusCode resp) (OpenAI.Header resp) body)) r in
        let r := set_responsiveness (sub (answered env n) (started env n)) r in
        let r := match ParseUsage (decode_usage dec) (bytes_of body) with
                 | Some u => set_usage (Some u) r | None => r end in
        (Exchanged OutcomeSuccess None, trace (ID cand) (CredentialIndex resp) (StatusCode resp) r)
  end.

(** The pump of a committed stream: the transcoder's when the format has
    one, its state kept for the abort. *)
Definition pump (n : Z) (b : body) (model : string) : option (pumped * option T) :=
  let data := bytes_of (body_bytes b) in
  match transcoder job with
  | Some t =>
      match pumpTranscoded (ParseUsage (decode_usage dec)) (ends b) model data t with
      | Some (p, t) => Some (p, Some t)
      | None => None
      end
  | None =>
      match pumpStream (ParseUsage (decode_usage dec)) (ends b) (client_write env n) data with
      | Some p => Some (p, None)
      | None => None
      end
  end.

(** The end of a committed stream whose pump failed with [pumpErr]. *)
Definition abort_stream (n : Z) (lease : streamLease) (pumpErr : goerr) (r : requestRun)
  : exchanged * requestRun :=
  if is_canceled (ctx env n AfterPump)
  then (Exchanged OutcomeClientFault (Some (Wrap ErrCommitted pumpErr)), r)
  else
    let gatewayCut := ceilingFired lease || idleFired lease in
    let code := if gatewayCut then CodeUpstreamTimeout else abortCode pumpErr in
    let r := set_gatewayCode code r in
    let r := emit (StreamAbort code) r in
    (Exchanged (if gatewayCut then OutcomeGatewayTerminated else OutcomeServerFault)
       (Some (Wrap ErrCommitted pumpErr)), r).

Definition exchangeStream (n : Z) (cand : U) (resp : Response) (lease : streamLease) (model : string)
    (r : requestRun) : exchanged * requestRun :=
  let ct := ForwardedContentType (parse_media dec) (get "Content-Type" (OpenAI.Header resp)) "text/event-stream" in
  let cc := get "Cache-Control" (OpenAI.Header resp) in
  let r := emit (StreamHead ct (if negb (String.eqb cc "") && ValidHeaderValue cc then Some cc else None)) r in
  let r := set_streamed true r in
  let r := set_servedBy (ID cand) r in
  let r := trace (ID cand) (CredentialIndex resp) (StatusCode resp) r in
  let lease := armIdle (streamIdleTimeout exec) lease in
  match pump n (RespBody resp) model with
  | None => (ExchangePanicked, r)
  | Some (p, _) =>
      let lease := lease_run (while_pump env n) lease in
      let r := emit (StreamData (written p)) r in
      let r := match Pump.usage p with Some u => set_usage (Some u) r | None => r end in
      let r := set_streamBytes (Pump.streamBytes p) r in
      match err p with
      | None => (Exchanged OutcomeSuccess None, r)
      | Some pumpErr => abort_stream n lease pumpErr r
      end
  end.

(** The request handed to the adapter. *)
Definition forward_request (cand : U) (model : string) (r : requestRun) : Request :=
  mkRequest model (jModel job) (jStream job) (jBody job) (jRequestID job)
    (default [] (excluded r !! ID cand)).

(** A streamed attempt whose forward failed: the timers tell the gateway's
    own cuts apart. *)
Definition stream_forward_failed (n : Z) (cand : U) (lease : streamLease) (e : goerr) (r : requestRun)
  : exchanged * requestRun :=
  let r := trace (ID cand) (-1) 0 r in
  let lease := end_lease lease in
  if ttftFired lease then (Exchanged OutcomeServerFault (Some ttftTimeoutError), r)
  else if ceilingFired lease then (Exchanged OutcomeGatewayTerminated (Some ceilingTimeoutError), r)
  else (Exchanged (transportOutcome (ctx env n AfterForward) e) (Some e), r).

(** A streamed attempt that answered. *)
Definition stream_answered (n : Z) (cand : U) (lease : streamLease) (resp : Response) (model : string)
    (r : requestRun) : exchanged * requestRun :=
  if negb (success_status (StatusCode resp)) then
    match readBounded (RespBody resp) maxResponseBytes with
    | inr e =>
        (Exchanged OutcomeServerFault (Some (readError cand e)),
         trace (ID cand) (CredentialIndex resp) (StatusCode resp) r)
    | inl body => stashUpstreamError n cand resp body r
    end
  else
    let lease := ttftPassed (lease_run (before_check env n) lease) in
    if ttftFired lease then (Exchanged OutcomeServerFault (Some ttftTimeoutError), r)
    else
      let r := set_responsiveness (sub (answered env n) (started env n)) r in
      let r := log (TtftObserved (ID cand) (responsiveness r)) r in
      exchangeStream n cand resp lease model r.

Definition exchange (n : Z) (cand : U) (model : string) (r : requestRun) : exchanged * requestRun :=
  let req := forward_request cand model r in
  if negb (jStream job) then
    match forward env n cand req with
    | FPanic => (ExchangePanicked, r)
    | FErr e => (Exchanged (transportOutcome (ctx env n AfterForward) e) (Some e), trace (ID cand) (-1) 0 r)
    | FResponse resp => exchangeBuffered n cand resp r
    end
  else
    let lease := beginStream (streamTimeout exec) (Loop.AttemptTimeout (policy exec)) in
    let lease := lease_run (while_forward env n) lease in
    match forward env n cand req with
    | FPanic => (ExchangePanicked, r)
    | FErr e => stream_forward_failed n cand lease e r
    | FResponse resp => stream_answered n cand lease resp model r
    end.

(** *** The attempt (executor.go) *)
Definition slow_outcome (o : Outcome) (r : requestRun) : Outcome :=
  match o with
  | OutcomeSuccess =>
      if (0 <? slowCallThreshold exec) && (slowCallThreshold exec <? responsiveness r)
      then OutcomeSlow else o
  | _ => o
  end.

(** The Retry-After hint travels only to a retry of the same credential. *)
Definition strip_hint (n : Z) (cand : U) (e : goerr) (r : requestRun) : Loop.attempt_end * requestRun :=
  if negb (Is e ErrCommitted) && (n <? Loop.MaxAttempts (policy exec)) then
    match target (Resolve job) (Fallbacks job) (n + 1) (plan_ r) with
    | (None, p) => (Loop.AttemptPanicked, set_plan_ p r)
    | (Some (next, _), p) =>
        let r := set_plan_ p r in
        if negb (String.eqb (ID next) (ID cand)) || credentialRotates n cand r
        then (Loop.Ended (Some (StripRetryAfter e)), r) else (Loop.Ended (Some e), r)
    end
  else (Loop.Ended (Some e), r).

(** The attempt past the bulkhead. *)
Definition attempt_body (n : Z) (cand : U) (model : string) (r : requestRun)
  : Loop.attempt_end * requestRun :=
  let r := if has_breaker exec then log (BreakerAsked (ID cand) (allowed env n)) r else r in
  if has_breaker exec && negb (allowed env n) then
    (Loop.Ended (Some (Wrap (Transport "circuit open for upstream") errCircuitOpen)),
     trace (ID cand) (-1) 0 r)
  else
    match exchange n cand model (set_responsiveness 0 r) with
    | (ExchangePanicked, r) => (Loop.AttemptPanicked, r)
    | (Exchanged outcome err, r) =>
        let outcome := slow_outcome outcome r in
        let failed := match err with
          | Some e => negb (clientFault (ctx env n AtObserve) e) | None => false end in
        let r := if has_observer exec
                 then log (Observed (ID cand) (sub (settled env n) (started env n)) failed) r else r in
        let r := if has_breaker exec then log (BreakerReported (ID cand) outcome) r else r in
        match err with
        | None => (Loop.Ended None, set_servedBy (ID cand) r)
        | Some e => strip_hint n cand e r
        end
    end.

(** The bookkeeping of a retry and of a failover. *)
Definition note_attempt (n : Z) (cand : U) (r : requestRun) : requestRun :=
  let r :=
    if 1 <? n then
      let r := log (RetryScheduled (ID cand)) (set_retries (n - 1) r) in
      match lastCand r with
      | Some c => if negb (String.eqb (ID c) (ID cand)) then log (Failover (ID c) (ID cand)) r else r
      | None => r
      end
    else r in
  set_lastCand (Some cand) r.

Definition attempt (n : Z) (r : requestRun) : Loop.attempt_end * requestRun :=
  let r := set_attempts n r in
  match target (Resolve job) (Fallbacks job) n (plan_ r) with
  | (None, p) => (Loop.AttemptPanicked, set_plan_ p r)
  | (Some (cand, model), p) =>
      let r := note_attempt n cand (set_plan_ p r) in
      if bulkhead exec then
        let r := log (SlotAcquired (ID cand) (slot env n)) r in
        if negb (slot env n) then
          (Loop.Ended (Some (Wrap (Transport "upstream is at its in-flight ceiling") errUpstreamSaturated)),
           trace (ID cand) (-1) 0 (log (UpstreamSaturated (ID cand)) r))
        else
          let (e, r) := attempt_body n cand model r in (e, log (SlotReleased (ID cand)) r)
      else attempt_body n cand model r
  end.

(** *** The response *)
Record Result := mkResult {
  Status : Z; UpstreamID : string; Attempts : Z; Retries : Z; Trail : list AttemptTrace;
  rUsage : option Usage; Streamed : bool; StreamBytes : Z; Aborted : bool; ClientGone : bool;
  ErrorCode : string
}.

Definition clientGone : bool := is_canceled (ctx_final env).

Definition is_last_failed (err : goerr) (r : requestRun) : bool :=
  match lastFailedErr r with Some obj => Is_object err obj | None => false end.

Definition intendedStatus (err : goerr) (r : requestRun) : Z :=
  match terminal r with
  | Some snap => sStatus snap
  | None =>
      if Is err errCircuitOpen || Is err errUpstreamSaturated || Is err ErrBudgetExhausted then 503
      else match lastFailed r with
      | Some snap => if is_last_failed err r then sStatus snap else 502
      | None => 502
      end
  end.

(** A failure the gateway renders itself. *)
Definition gateway_error (status : Z) (code : string) (r : requestRun) : Result * requestRun :=
  (mkResult status "" (attempts r) (retries r) (trail r) None false (streamBytes r) false false code,
   emit (RenderError status code) r).

(** The passthrough of a stored upstream error. *)
Definition passthrough (snap : exchangeSnapshot) (r : requestRun) : Result * requestRun :=
  (mkResult (sStatus snap) (servedBy r) (attempts r) (retries r) (trail r) None false (streamBytes r)
     false false "", emit (RenderUpstreamError snap) r).

(** [None] is the nil dereference of a success without a snapshot. *)
Definition finish (err : option goerr) (r : requestRun) : option (Result * requestRun) :=
  match err with
  | None =>
      if jStream job then
        Some (mkResult 200 (servedBy r) (attempts r) (retries r) (trail r) (usage r) true (streamBytes r)
                false false "", r)
      else match success r with
      | None => None
      | Some snap =>
          Some (mkResult (sStatus snap) (servedBy r) (attempts r) (retries r) (trail r) (usage r) false
                  (streamBytes r) false false "", emit (RenderSuccess snap) r)
      end
  | Some err => Some
      (if Is err ErrCommitted then
        (mkResult 200 (servedBy r) (attempts r) (retries r) (trail r) (usage r) true (streamBytes r) true
           clientGone (gatewayCode r), r)
      else if clientGone then
        (mkResult (intendedStatus err r) "" (attempts r) (retries r) (trail r) (usage r) false
           (streamBytes r) false true "", r)
      else match terminal r with
      | Some snap => passthrough snap r
      | None =>
          if Is err errCircuitOpen then gateway_error 503 "circuit_open" r
          else if Is err errUpstreamSaturated then gateway_error 503 "upstream_saturated" r
          else if Is err ErrBudgetExhausted then
            gateway_error 503 "budget_exhausted" (log RetryBudgetExhausted r)
          else match lastFailed r with
          | Some snap => if is_last_failed err r then passthrough snap r
                         else gateway_error 502 "upstream_unreachable" r
          | None => gateway_error 502 "upstream_unreachable" r
          end
      end)
  end.

(** *** The execution *)
Definition newRun : requestRun :=
  mkRun (newPlan (jModel job) (Candidates job)) 0 0 "" None false [] None None None None 0 None "" None
    ∅ 0 [] [].

(** The run after [k] attempts. *)
Fixpoint states (k : nat) : requestRun :=
  match k with O => newRun | S k => (attempt (Z.of_nat (S k)) (states k)).2 end.

Definition run_attempt (n : Z) : Loop.attempt_end := (attempt n (states (Z.to_nat (n - 1)))).1.

(** [runClassifier]: the request's own credential verdicts over the table. *)
Definition run_retryable (n : Z) (err : option goerr) : bool :=
  match err, rotated (states (Z.to_nat n)) with
  | Some e, Some obj => Is_object e obj || classifier exec err
  | _, _ => classifier exec err
  end.

(** What surrounds the retry loop, its attempts being this request's. *)
Definition loop_env (around : Loop.environment) : Loop.environment :=
  Loop.mkEnv run_attempt (Loop.overall around) (Loop.slept around) (Loop.draw around)
    (Loop.traffic around) (Loop.others around) (Loop.during around).

Definition run_hint : option (goerr -> Z) :=
  Some (match hint exec with Some dh => dh | None => fun _ => 0 end).

Inductive execution := Executed (res : Result) (r : requestRun) | ExecutionPanicked (r : requestRun).

(** What [finish] wrote, unless net/http refused it. *)
Definition present (res : Result) (r : requestRun) : execution :=
  if existsb (fun e => refused (event_status (jWire job) e)) (out r) then ExecutionPanicked r else Executed res r.

(** [None] is the loop out of fuel, which never happens. *)
Definition Execute (around : Loop.environment) (budget : option Budget.Budget) : option execution :=
  match Candidates job with
  | [] =>
      let r := emit (RenderError 502 "no_upstream") newRun in
      Some (Executed (mkResult 502 "" 0 0 [] None false 0 false false "no_upstream") r)
  | _ =>
      match Loop.Execute (policy exec) run_retryable run_hint (loop_env around) budget with
      | None => None
      | Some (v, _, tr) =>
          let r := states (length (LoopSpec.runs tr)) in
          match v with
          | Loop.Panicked => Some (ExecutionPanicked r)
          | Loop.Returned err =>
              match finish err r with
              | Some (res, r) => Some (present res r)
              | None => Some (ExecutionPanicked r)
              end
          end
      end
  end.
End relay.
End Relay.
