(* ===== verification/RelayProps.v ===== *)
(** * The relay's contract: one response, paired accounting, the failover walk

    Properties of Relay.v, each for every environment: [ResponseProps] is
    about what reaches the client, [AccountingProps] about the bulkhead and
    the breaker, [WalkProps] about which upstream each attempt asks.
    [Scenario] is a concrete gateway on which they are evaluated. *)
From stdpp Require Import base numbers gmap sets strings list.
From S2P Require Import Prelude Retry Circuit Upstream RelayPlan Stream Protocol Relay.
Import GoInt GoTime.
Local Open Scope Z_scope.

Module RelaySpec.
Import Formats Errors OpenAI Relay.

(** A response starts with exactly one of these. *)
Definition is_head (e : client_event) : bool :=
  match e with
  | RenderSuccess _ | RenderUpstreamError _ | RenderError _ _ | StreamHead _ _ => true
  | StreamData _ | StreamAbort _ => false
  end.

Definition is_stream (e : client_event) : bool :=
  match e with StreamHead _ _ => true | _ => false end.

(** One response on the wire of [format]: a head under the reported status,
    nothing but stream data and the abort frame after it. *)
Definition one_response (format : string) (es : list client_event) (res : Result) : Prop :=
  exists h rest, es = h :: rest /\ is_head h = true /\ event_status format h = Status res /\
    Streamed res = is_stream h /\ Forall (fun e => is_head e = false) rest.

(** Errors from outside the relay never carry its own commit marker. *)
Definition clean_result (f : forward_result) : Prop :=
  match f with
  | FErr e => Is e ErrCommitted = false
  | FResponse resp => match ends (RespBody resp) with Some e => Is e ErrCommitted = false | None => True end
  | FPanic => True
  end.

(** The status of a final response of HTTP. *)
Definition final_status (status : Z) : Prop := 200 <= status <= 599.
Definition final_result (f : forward_result) : Prop :=
  match f with FResponse resp => final_status (StatusCode resp) | _ => True end.

(** An event that goes out under such a status in every format. *)
Definition presentable (e : client_event) : Prop := forall format, final_status (event_status format e).

Definition clean_loop (around : Loop.environment) : Prop :=
  (forall n e, Loop.overall around n = Some e -> Is e ErrCommitted = false) /\
  (forall n d e, Loop.slept around n d = Some e -> Is e ErrCommitted = false).

(** Reading the effects: whose slot and whose permission are held, with
    [gated] for an executor that has a bulkhead.  A slot is taken while
    nothing is held; the breaker is asked by the holder of the slot, without
    a permission outstanding; a granted permission is reported by its owner
    while the slot is held; and the slot is given back behind the report. *)
Record holding := mkHolding { h_slot : option string; h_perm : option string }.
Definition nothing_held : holding := mkHolding None None.

Section holding.
Variable gated : bool.

Definition own_slot (id : string) : option string := if gated then Some id else None.

Definition hold_step (h : option holding) (e : effect) : option holding :=
  match e, h with
  | SlotAcquired id ok, Some (mkHolding None None) => Some (mkHolding (if ok then own_slot id else None) None)
  | BreakerAsked id ok, Some (mkHolding s None) =>
      if decide (s = own_slot id) then Some (mkHolding s (if ok then Some id else None)) else None
  | BreakerReported id _, Some (mkHolding s (Some p)) =>
      if decide (p = id /\ s = own_slot id) then Some (mkHolding s None) else None
  | SlotReleased id, Some (mkHolding (Some s) None) => if decide (s = id) then Some nothing_held else None
  | (SlotAcquired _ _ | SlotReleased _ | BreakerAsked _ _ | BreakerReported _ _), _ => None
  | _, h => h
  end.

Definition holds (es : list effect) (h : holding) : option holding := foldl hold_step (Some h) es.
End holding.

(** The deferred release of a slot. *)
Definition slot_back (slot : option string) : list effect :=
  match slot with Some id => [SlotReleased id] | None => [] end.
End RelaySpec.

(** ** A concrete gateway: a first upstream that answers 503, a second that
    answers, no breaker, a policy of three attempts *)
Module Scenario.
Import Formats Errors Classifier OpenAI Fatal UsageCodec Pump Lease Relay RelaySpec.
Local Open Scope string_scope.

(** The formats whose stream passes through have no transcoder. *)
Definition no_transcoder : StreamTranscoder Empty_set :=
  {| Start _ t := (t, [], None); Delta _ t := (t, [], None); Finish _ t := (t, [], None);
     Abort _ _ t := (t, [], None) |}.
#[global] Existing Instance no_transcoder.

Definition reply (status : Z) (data : string) : Response :=
  mkResponse status {[ "Content-Type" := "application/json" ]} (mkBody [data] None) 0.
Definition answer (n : Z) (c : string) (q : Request) : forward_result :=
  if String.eqb c "first" then FResponse (reply 503 "busy") else FResponse (reply 200 "hello").

Definition gateway (f : Z -> string -> Request -> forward_result) (check : Z -> list lease_event)
    : @environment string :=
  mkEnv (fun _ => true) (fun _ => true) (fun _ => 0) (fun _ => 5) (fun _ => 9) f
    (fun _ => []) check (fun _ => []) (fun _ _ => None) None (fun _ => 1) (fun _ => 1) (fun _ _ => None).

Definition codec : decoders :=
  mkDecoders (fun _ => mkErrorBody "" "") (fun v => Some v) (fun _ _ => 0) (fun _ => None).
Definition executor : Executor :=
  mkExecutor (Loop.mkPolicy 3 7 0 0 0) Retryable None true true true 0 0 0 true.
Definition request (stream : bool) : @Job string Empty_set :=
  mkJob "gpt" stream "{}" "id-1" ["first"; "second"] [] None FormatOpenAIChat None.

Definition calm : Loop.environment :=
  Loop.mkEnv (fun _ => Loop.AttemptPanicked) (fun _ => None) (fun _ _ => None) (fun _ => 0) (fun _ => 0)
    (fun _ b => b) (fun _ b => b).

Definition execution_of (env : environment) (stream : bool) : option execution :=
  Execute (fun u => u) (fun _ => false) executor codec env (request stream) calm None.

Definition result_of (x : option (@execution string)) : option Result :=
  match x with Some (Executed res _) => Some res | _ => None end.
(** The reported status, the attempts, and the statuses of the response
    heads that were written. *)
Definition summary (x : option (@execution string)) : option (Z * Z * list Z) :=
  match x with
  | Some (Executed res r) => Some (Status res, Attempts res, map (event_status FormatOpenAIChat) (filter (fun e => is_head e = true) (out r)))
  | _ => None
  end.

(** The first upstream fails over to the second, whose reply is the one
    response. *)
Example failover_served :
  option_map (fun res => (Status res, UpstreamID res, Attempts res, map tUpstream (Trail res)))
    (result_of (execution_of (gateway answer (fun _ => [])) false))
  = Some (200%Z, "second", 2%Z, ["first"; "second"]).
Proof. by vm_compute. Qed.

(** A stream cut by the first-byte timer as its headers landed leaves no
    trail entry: two attempts, one entry. *)
Lemma ttft_cut_untraced :
  option_map (fun res => (Attempts res, map tUpstream (Trail res)))
    (result_of (execution_of
      (gateway (fun _ _ _ => FResponse (reply 200 "hello"))
        (fun n => if (n =? 1)%Z then [Fired Ttft] else [])) true))
  = Some (2%Z, ["second"]).
Proof. by vm_compute. Qed.

Lemma answer_clean (n : Z) (c : string) (q : Request) : clean_result (answer n c q).
Proof. unfold answer. by destruct (String.eqb c "first"). Qed.
End Scenario.

Module RelayFacts.
Import Errors Classifier OpenAI Wire Plan Fatal Lease Bounded UsageCodec Pump Relay RelaySpec.

Section facts.
Context {U : Type} (ID : U -> string) (pool : U -> bool).
Context {T : Type} `{!StreamTranscoder T}.
Variable exec : Executor.
Variable dec : decoders.
Variable env : @environment U.
Variable job : @Job U T.

Abbreviation run := (@requestRun U).
Abbreviation exchange := (exchange ID pool exec dec env job).
Abbreviation attempt := (attempt ID pool exec dec env job).
Abbreviation attempt_body := (attempt_body ID pool exec dec env job).

(** *** Committed errors *)
Lemma Is_clear_hint (obj : nat) (e : goerr) : Is (clear_hint obj e) ErrCommitted = Is e ErrCommitted.
Proof.
  induction e as [| | | |o c a|w|w|e1 IH1 e2 IH2]; cbn [clear_hint Is]; try done.
  - by case_bool_decide.
  - by rewrite IH1, IH2.
Qed.

Lemma Is_strip (e : goerr) : Is (StripRetryAfter e) ErrCommitted = Is e ErrCommitted.
Proof.
  unfold StripRetryAfter. destruct (As_status e) as [[[obj c] a]|]; [|done].
  destruct (0 <? a); [apply Is_clear_hint|done].
Qed.

(** *** What an exchange writes *)
Definition wrote (r r' : run) (es : list client_event) : Prop := out r' = out r ++ es.

Lemma wrote_nil (r r' : run) : out r' = out r -> wrote r r' [].
Proof. unfold wrote. by rewrite app_nil_r. Qed.

(** The events of a committed stream. *)
Definition stream_events (es : list client_event) : Prop :=
  exists ct cc data, es = [StreamHead ct cc; StreamData data] \/
    exists code, es = [StreamHead ct cc; StreamData data; StreamAbort code].

(** How an attempt that ended with [err] left the response. *)
Definition responded (r r' : run) (err : option goerr) : Prop :=
  match err with
  | None => if jStream job then exists es, wrote r r' es /\ stream_events es
            else wrote r r' [] /\ is_Some (success r')
  | Some e => if Is e ErrCommitted then exists es, wrote r r' es /\ stream_events es else wrote r r' []
  end.

Lemma stash_out (n : Z) (cand : U) (resp : Response) (body : string) (r : run) :
  let (x, r') := stashUpstreamError ID pool exec dec env n cand resp body r in
  out r' = out r /\ exists o e, x = Exchanged o (Some e) /\ Is e ErrCommitted = false.
Proof.
  unfold stashUpstreamError, excludeCredential. cbv zeta.
  repeat match goal with |- context [if ?b then _ else _] => destruct b end;
    (split; [done|eauto]).
Qed.

Lemma readBounded_clean (b : body) (limit : Z) (e : goerr) :
  match ends b with Some e => Is e ErrCommitted = false | None => True end ->
  readBounded b limit = inr e -> Is e ErrCommitted = false.
Proof.
  unfold readBounded. intros Hb. destruct (limit + 1 <=? _); [by intros [= <-]|].
  destruct (ends b); [by intros [= <-]|done].
Qed.

Lemma buffered_out (n : Z) (cand : U) (resp : Response) (r : run) :
  jStream job = false -> clean_result (FResponse resp) ->
  let (x, r') := exchangeBuffered ID pool exec dec env n cand resp r in
  exists o err, x = Exchanged o err /\ responded r r' err.
Proof.
  intros Hs Hclean. unfold exchangeBuffered.
  destruct (readBounded (RespBody resp) maxResponseBytes) as [body|e] eqn:Hb.
  - destruct (negb _).
    + pose proof (stash_out n cand resp body r) as H. destruct (stashUpstreamError _ _ _ _ _ _ _ _ _ _) as [x r'].
      destruct H as (Ho & o & e & -> & He). do 2 eexists. split; [done|]. cbn. rewrite He. by apply wrote_nil.
    + do 2 eexists. split; [done|]. cbn. rewrite Hs.
      destruct (ParseUsage _ _); (split; [by apply wrote_nil|by eauto]).
  - do 2 eexists. split; [done|]. cbn.
    rewrite (readBounded_clean _ _ _ Hclean Hb). by apply wrote_nil.
Qed.

(** The pumps always return. *)
Lemma transcoded_returns (parse : bytes -> option Usage) (body_end : option goerr) (fuel : nat) : forall rem s,
  (length rem < fuel)%nat -> is_Some (@transcoded_loop parse body_end T _ fuel rem s).
Proof.
  induction fuel as [|fuel IH]; intros rem s Hfuel; [lia|]. cbn [transcoded_loop].
  destruct (StreamFacts.readLine_reads rem) as (res & -> & Hr). unfold StreamFacts.reads in Hr.
  destruct (StreamFacts.first_line rem) as [[l rest] t] eqn:Hfl.
  destruct (StreamFacts.first_line_app rem l rest t Hfl) as (Happ & Hend & Hl).
  destruct res as [line rest' at_end|]; [|by eauto]. destruct Hr as (-> & -> & -> & _).
  destruct (if (0 <? length l)%nat then _ else _) as [s'|p]; [|by eauto].
  destruct t; cbn [negb]; [|by eauto]. apply IH.
  destruct (decide (rem = [])) as [->|Hne]; [done|]. specialize (Hl Hne).
  rewrite Happ, length_app in Hfuel. destruct l; [done|cbn in Hfuel; lia].
Qed.

Lemma pump_returns (n : Z) (b : body) (model : string) : is_Some (pump dec env job n b model).
Proof.
  unfold pump. destruct (transcoder job) as [t|].
  - unfold pumpTranscoded. destruct (Start model t) as [[t' o] [e|]]; [by eauto|].
    edestruct transcoded_returns as [[p t2] ->]; [|by eauto]. lia.
  - destruct (StreamProps.pump_loop_returns (ParseUsage (decode_usage dec)) (ends b) (client_write env n)
      (S (length (bytes_of (body_bytes b)))) (bytes_of (body_bytes b)) loop0) as [p Hp]; [lia|].
    unfold pumpStream. rewrite Hp. eauto.
Qed.

Lemma stream_out (n : Z) (cand : U) (resp : Response) (lease : streamLease) (model : string) (r : run) :
  jStream job = true ->
  let (x, r') := exchangeStream ID exec dec env job n cand resp lease model r in
  exists o err, x = Exchanged o err /\ responded r r' err.
Proof.
  intros Hs. unfold exchangeStream.
  destruct (pump_returns n (RespBody resp) model) as [[p t] ->]. cbv zeta.
  destruct (err p) as [pumpErr|].
  - unfold abort_stream. destruct (is_canceled _).
    + do 2 eexists. split; [done|]. cbn. destruct (Pump.usage p); (eexists; split;
        [unfold wrote; cbn; by rewrite <- app_assoc|do 3 eexists; by left]).
    + do 2 eexists. split; [done|]. cbn. destruct (Pump.usage p); (eexists; split;
        [unfold wrote; cbn; by rewrite <- !app_assoc|do 3 eexists; right; by eexists]).
  - do 2 eexists. split; [done|]. cbn. rewrite Hs. destruct (Pump.usage p); (eexists; split;
      [unfold wrote; cbn; by rewrite <- app_assoc|do 3 eexists; by left]).
Qed.

Lemma answered_out (n : Z) (cand : U) (lease : streamLease) (resp : Response) (model : string) (r : run) :
  jStream job = true -> clean_result (FResponse resp) ->
  let (x, r') := stream_answered ID pool exec dec env job n cand lease resp model r in
  exists o err, x = Exchanged o err /\ responded r r' err.
Proof.
  intros Hs Hclean. unfold stream_answered. destruct (negb _).
  - destruct (readBounded (RespBody resp) maxResponseBytes) as [body|e] eqn:Hb.
    + pose proof (stash_out n cand resp body r) as H. destruct (stashUpstreamError _ _ _ _ _ _ _ _ _ _) as [x r'].
      destruct H as (Ho & o & e & -> & He). do 2 eexists. split; [done|]. cbn. rewrite He. by apply wrote_nil.
    + do 2 eexists. split; [done|]. cbn. rewrite (readBounded_clean _ _ _ Hclean Hb). by apply wrote_nil.
  - cbv zeta. destruct (ttftFired _).
    + do 2 eexists. split; [done|]. cbn. by apply wrote_nil.
    + set (r1 := log _ _). pose proof (stream_out n cand resp (ttftPassed (lease_run (before_check env n) lease))
        model r1 Hs) as H. by destruct (exchangeStream _ _ _ _ _ _ _ _ _ _ _).
Qed.

Lemma exchange_out (n : Z) (cand : U) (model : string) (r : run) :
  clean_result (forward env n cand (forward_request ID job cand model r)) ->
  let (x, r') := exchange n cand model r in
  match x with Exchanged _ err => responded r r' err | ExchangePanicked => out r' = out r end.
Proof.
  intros Hclean. unfold Relay.exchange. destruct (jStream job) eqn:Hs; cbn [negb].
  - cbv zeta. destruct (forward env n cand _) as [e|resp|].
    + unfold stream_forward_failed. cbv zeta. destruct (ttftFired _); [|destruct (ceilingFired _)]; cbn.
      1,2: by apply wrote_nil. cbn in Hclean. rewrite Hclean. by apply wrote_nil.
    + pose proof (answered_out n cand (lease_run (while_forward env n)
        (beginStream (streamTimeout exec) (Loop.AttemptTimeout (policy exec)))) resp model r Hs Hclean) as H.
      destruct (stream_answered _ _ _ _ _ _ _ _ _ _ _ _) as [x r']. by destruct H as (o & err & -> & H).
    + done.
  - destruct (forward env n cand _) as [e|resp|].
    + cbn in Hclean |- *. rewrite Hclean. by apply wrote_nil.
    + pose proof (buffered_out n cand resp r Hs Hclean) as H.
      destruct (exchangeBuffered _ _ _ _ _ _ _ _ _) as [x r']. by destruct H as (o & err & -> & H).
    + done.
Qed.

Lemma responded_before (r1 r r' : run) (err : option goerr) :
  out r1 = out r -> responded r1 r' err -> responded r r' err.
Proof. unfold responded, wrote. by intros ->. Qed.

Lemma responded_after (r r1 r' : run) (err : option goerr) :
  out r' = out r1 -> success r' = success r1 -> responded r r1 err -> responded r r' err.
Proof. unfold responded, wrote. by intros -> ->. Qed.

Lemma responded_error (r r' : run) (e e' : goerr) :
  Is e' ErrCommitted = Is e ErrCommitted -> responded r r' (Some e) -> responded r r' (Some e').
Proof. unfold responded. by intros ->. Qed.

Lemma strip_out (n : Z) (cand : U) (e : goerr) (r : run) :
  let (x, r') := strip_hint ID pool exec env job n cand e r in
  out r' = out r /\ success r' = success r /\ effects r' = effects r /\
  match x with
  | Loop.Ended err => exists e', err = Some e' /\ Is e' ErrCommitted = Is e ErrCommitted
  | Loop.AttemptPanicked => Is e ErrCommitted = false
  end.
Proof.
  unfold strip_hint. destruct (negb (Is e ErrCommitted) && _) eqn:Hb; [|by split_and!; [..|eauto]].
  apply andb_true_iff in Hb as [Hc%negb_true_iff _].
  destruct (target _ _ _ _) as [[[next m]|] p]; [|done].
  destruct (_ || _); (split_and!; [done..|]); [eexists; split; [done|apply Is_strip]|by eauto].
Qed.

Lemma attempt_body_out (n : Z) (cand : U) (model : string) (r : run) :
  (forall q, clean_result (forward env n cand q)) ->
  let (x, r') := attempt_body n cand model r in
  match x with Loop.Ended err => responded r r' err | Loop.AttemptPanicked => out r' = out r end.
Proof.
  intros Hclean. unfold Relay.attempt_body. cbv zeta.
  set (r1 := if has_breaker exec then _ else r).
  assert (out r1 = out r) as Hr1 by (unfold r1; by destruct (has_breaker exec)).
  destruct (has_breaker exec && _); [by apply wrote_nil|].
  pose proof (exchange_out n cand model (set_responsiveness 0 r1) (Hclean _)) as Hx.
  destruct (exchange n cand model _) as [[o err|] r2]; [|cbn in *; congruence].
  apply (responded_before _ r) in Hx; [|done].
  match goal with |- context [match err with None => _ | Some e => strip_hint _ _ _ _ _ _ _ _ ?r3' end] => set (r3 := r3') end.
  assert (responded r r3 err) as Hr3.
  { apply (responded_after r r2); [| |done]; unfold r3; by destruct (has_observer exec), (has_breaker exec). }
  destruct err as [e|]; [|by apply (responded_after r r3)].
  pose proof (strip_out n cand e r3) as Hs. destruct (strip_hint _ _ _ _ _ _ _ _ _) as [[err|] r4].
  - destruct Hs as (H1 & H2 & _ & e' & -> & He). apply (responded_after r r3); [done|done|].
    by apply (responded_error r r3 e).
  - destruct Hs as (H1 & _ & _ & He). cbn in Hr3. rewrite He in Hr3.
    unfold wrote in Hr3. by rewrite H1, Hr3, app_nil_r.
Qed.

Lemma note_attempt_out (n : Z) (cand : U) (r : run) : out (note_attempt ID n cand r) = out r.
Proof.
  unfold note_attempt. destruct (1 <? n); [|done]. cbv zeta. destruct (lastCand _); [|done].
  by destruct (negb _).
Qed.

(** *** The statuses of what is kept for the response *)
Definition kept_final (r : run) : Prop :=
  forall snap, success r = Some snap \/ lastFailed r = Some snap \/ terminal r = Some snap -> final_status (sStatus snap).

Lemma kept_same (r r' : run) :
  success r' = success r -> lastFailed r' = lastFailed r -> terminal r' = terminal r -> kept_final r -> kept_final r'.
Proof. unfold kept_final. by intros -> -> ->. Qed.

Lemma stash_final (n : Z) (cand : U) (resp : Response) (body : string) (r : run) :
  final_status (StatusCode resp) -> kept_final r -> kept_final (stashUpstreamError ID pool exec dec env n cand resp body r).2.
Proof.
  intros Hs Hr. unfold stashUpstreamError, excludeCredential. cbv zeta.
  repeat match goal with |- context [if ?b then _ else _] => destruct b end;
    intros snap; cbn; intros [H|[H|H]]; try (apply Hr; tauto); by injection H as <-.
Qed.

Lemma exchange_final (n : Z) (cand : U) (model : string) (r : run) :
  (forall q, final_result (forward env n cand q)) -> kept_final r -> kept_final (exchange n cand model r).2.
Proof.
  intros Hf Hr. unfold Relay.exchange. specialize (Hf (forward_request ID job cand model r)).
  destruct (negb (jStream job)); cbv zeta; destruct (forward _ _ _ _) as [e|resp|]; try done.
  - unfold exchangeBuffered. destruct (readBounded _ _); [|done]. destruct (negb _); [by apply stash_final|].
    intros snap Hsnap. destruct (ParseUsage _ _); cbn in Hsnap;
      destruct Hsnap as [Hsnap|[H|H]]; try (apply Hr; tauto); by injection Hsnap as <-.
  - unfold stream_forward_failed. cbv zeta. destruct (ttftFired _); [done|]. by destruct (ceilingFired _).
  - unfold stream_answered. destruct (negb _); [destruct (readBounded _ _); [by apply stash_final|done]|].
    cbv zeta. destruct (ttftFired _); [done|]. unfold exchangeStream. cbv zeta.
    destruct (pump _ _ _ _ _ _) as [[p t]|]; [|done]. destruct (Pump.usage p);
      (destruct (err p); [|done]); unfold abort_stream; cbv zeta; by destruct (is_canceled _).
Qed.

Lemma attempt_final (n : Z) (r : run) :
  (forall c q, final_result (forward env n c q)) -> kept_final r -> kept_final (attempt n r).2.
Proof.
  intros Hf Hr. unfold Relay.attempt. cbv zeta. destruct (target _ _ _ _) as [[[cand model]|] p]; [|done].
  set (r1 := note_attempt ID n cand _). assert (kept_final r1) as Hr1.
  { unfold r1, note_attempt. destruct (1 <? n); [|done]. cbv zeta. destruct (lastCand _); [|done]. by destruct (negb _). }
  assert (forall r, kept_final r -> kept_final (attempt_body n cand model r).2) as Hbody.
  { clear r Hr r1 Hr1. intros r Hr. unfold Relay.attempt_body. cbv zeta. set (r1 := if has_breaker exec then _ else r).
    assert (kept_final (set_responsiveness 0 r1)) as Hr1 by (unfold r1; by destruct (has_breaker exec)).
    destruct (has_breaker exec && _); [done|]. pose proof (exchange_final n cand model _ (Hf cand) Hr1) as Hx.
    destruct (exchange n cand model _) as [[o err|] r2]; [|done]. cbn [snd] in Hx.
    match goal with |- context [match err with None => _ | Some e => strip_hint _ _ _ _ _ _ _ _ ?r3' end] => set (r3 := r3') end.
    assert (kept_final r3) as Hr3 by (unfold r3; by destruct (has_observer exec), (has_breaker exec)).
    destruct err as [e|]; [|done]. unfold strip_hint. destruct (_ && _); [|done].
    destruct (target _ _ _ _) as [[[next m]|] p']; [|done]. by destruct (_ || _). }
  destruct (bulkhead exec); [|by apply Hbody]. destruct (negb _); [done|].
  specialize (Hbody (log (SlotAcquired (ID cand) (slot env n)) r1) Hr1). by destruct (attempt_body _ _ _ _).
Qed.

Definition attempt_responded (r : run) (res : Loop.attempt_end * run) : Prop :=
  match res.1 with
  | Loop.Ended err => responded r res.2 err
  | Loop.AttemptPanicked => out res.2 = out r
  end.

Lemma attempt_out (n : Z) (r : run) :
  (forall c q, clean_result (forward env n c q)) -> attempt_responded r (attempt n r).
Proof.
  intros Hclean. unfold attempt_responded, Relay.attempt. cbv zeta.
  destruct (target _ _ _ _) as [[[cand model]|] p]; [|done].
  set (r1 := note_attempt ID n cand _). assert (out r1 = out r) as Hr1 by (by unfold r1; rewrite note_attempt_out).
  destruct (bulkhead exec).
  - destruct (negb (slot env n)); [cbn; by apply wrote_nil|].
    pose proof (attempt_body_out n cand model (log (SlotAcquired (ID cand) (slot env n)) r1) (Hclean cand)) as H.
    destruct (attempt_body _ _ _ _) as [[err|] r2]; cbn [fst snd]; [|cbn in *; congruence].
    apply (responded_before _ r) in H; [|done]. by apply (responded_after r r2).
  - pose proof (attempt_body_out n cand model r1 (Hclean cand)) as H.
    destruct (attempt_body _ _ _ _) as [[err|] r2]; cbn [fst snd]; [|cbn in *; congruence].
    by apply (responded_before r1).
Qed.
End facts.
End RelayFacts.

Module ExecutionFacts.
Import Errors OpenAI Pump Relay RelaySpec.

Section facts.
Context {U : Type} (ID : U -> string) (pool : U -> bool).
Context {T : Type} `{!StreamTranscoder T}.
Variable exec : Executor.
Variable dec : decoders.
Variable env : @environment U.
Variable job : @Job U T.

Abbreviation states := (states ID pool exec dec env job).
Abbreviation run_attempt := (run_attempt ID pool exec dec env job).

Lemma states_step (k : Z) :
  1 <= k -> (run_attempt k, states (Z.to_nat k)) = attempt ID pool exec dec env job k (states (Z.to_nat (k - 1))).
Proof.
  intros Hk. unfold run_attempt. replace (Z.to_nat k) with (S (Z.to_nat (k - 1))) by lia. cbn [Relay.states].
  replace (Z.of_nat (S (Z.to_nat (k - 1)))) with k by lia. by destruct (attempt _ _ _ _ _ _ _ _).
Qed.

(** The error the loop returns for a last attempt that ended with [err0]. *)
Definition ends_with (around : Loop.environment) (err0 err : option goerr) : Prop :=
  match err0, err with
  | None, None => True
  | Some e0, Some e =>
      LoopSpec.carries (loop_env ID pool exec dec env job around) e e0 /\
      (Is e0 ErrCommitted = true -> e = e0)
  | _, _ => False
  end.

(** An execution with candidates: attempts 1 to [k], all but the last
    uncommitted failures, and what becomes of the last. *)
Lemma execution_ends (around : Loop.environment) (budget : option Budget.Budget) :
  Candidates job <> [] ->
  exists k, 1 <= k <= Loop.maxAttempts (policy exec) /\
    (forall i, 1 <= i < k -> exists e, run_attempt i = Loop.Ended (Some e) /\ Is e ErrCommitted = false) /\
    exists x, Execute ID pool exec dec env job around budget = Some x /\
    match run_attempt k with
    | Loop.AttemptPanicked => x = ExecutionPanicked (states (Z.to_nat k))
    | Loop.Ended err0 => exists err, ends_with around err0 err /\
        x = match finish env job err (states (Z.to_nat k)) with
            | Some (res, r) => present job res r
            | None => ExecutionPanicked (states (Z.to_nat k))
            end
    end.
Proof.
  intros Hne. unfold Execute. destruct (Candidates job) as [|c0 cs0]; [done|].
  destruct (LoopFacts.loop_ends (policy exec) (run_retryable ID pool exec dec env job) (run_hint exec)
    (loop_env ID pool exec dec env job around) budget) as (v & b' & tr & k & -> & Hk & Hruns & Hgo & Hv).
  rewrite Hruns, length_seqZ. exists k. split; [lia|]. split.
  { intros i Hi. destruct (Hgo i ltac:(lia)) as (e & Hrun & Hc & _). by exists e. }
  cbn [loop_env Loop.run] in Hv. destruct v as [[e|]|].
  - destruct Hv as (err & -> & Hcar & Hsame).
    exists (match finish env job (Some e) (states (Z.to_nat k)) with
            | Some (res, r) => present job res r | None => ExecutionPanicked (states (Z.to_nat k)) end).
    split; [by destruct (finish _ _ _ _) as [[? ?]|]|]. by exists (Some e).
  - rewrite Hv. exists (match finish env job None (states (Z.to_nat k)) with
            | Some (res, r) => present job res r | None => ExecutionPanicked (states (Z.to_nat k)) end).
    split; [by destruct (finish _ _ _ _) as [[? ?]|]|]. by exists None.
  - rewrite Hv. by eexists.
Qed.
End facts.
End ExecutionFacts.

Module ResponseFacts.
Import Formats Errors OpenAI Pump Relay RelaySpec RelayFacts ExecutionFacts.

Section props.
Context {U : Type} (ID : U -> string) (pool : U -> bool).
Context {T : Type} `{!StreamTranscoder T}.
Variable exec : Executor.
Variable dec : decoders.
Variable env : @environment U.
Variable job : @Job U T.
Hypothesis clean_forward : forall n c q, clean_result (forward env n c q).
Hypothesis final_forward : forall n c q, final_result (forward env n c q).

Abbreviation states := (states ID pool exec dec env job).
Abbreviation run_attempt := (run_attempt ID pool exec dec env job).

Lemma states_final (k : nat) : kept_final (states k).
Proof.
  induction k as [|k IH]; [by intros snap [[=]|[[=]|[=]]]|]. cbn [Relay.states]. apply attempt_final; [apply final_forward|exact IH].
Qed.

Lemma states_responded (k : Z) :
  1 <= k ->
  match run_attempt k with
  | Loop.Ended err => responded job (states (Z.to_nat (k - 1))) (states (Z.to_nat k)) err
  | Loop.AttemptPanicked => out (states (Z.to_nat k)) = out (states (Z.to_nat (k - 1)))
  end.
Proof.
  intros Hk. pose proof (attempt_out ID pool exec dec env job k (states (Z.to_nat (k - 1))) (clean_forward k)) as H.
  rewrite <- states_step in H by done. exact H.
Qed.

(** Attempts that go on write nothing. *)
Lemma quiet_until (k : nat) :
  (forall i, 1 <= i <= Z.of_nat k -> exists e, run_attempt i = Loop.Ended (Some e) /\ Is e ErrCommitted = false) ->
  out (states k) = [].
Proof.
  induction k as [|k IH]; intros H; [done|].
  destruct (H (Z.of_nat (S k)) ltac:(lia)) as (e & Hrun & Hc).
  pose proof (states_responded (Z.of_nat (S k)) ltac:(lia)) as Hr. rewrite Hrun in Hr. cbn [responded] in Hr.
  rewrite Hc in Hr. unfold wrote in Hr. rewrite Nat2Z.id in Hr. rewrite Hr.
  replace (Z.to_nat (Z.of_nat (S k) - 1)) with k by lia. rewrite IH; [done|]. intros i Hi. apply H. lia.
Qed.

Lemma stream_presentable (es : list client_event) : stream_events es -> Forall presentable es.
Proof. intros (ct & cc & data & [-> |[code ->]]); repeat constructor; done. Qed.

Lemma snapshot_presentable (snap : exchangeSnapshot) :
  final_status (sStatus snap) ->
  forall format, event_status format (RenderSuccess snap) = sStatus snap /\ event_status format (RenderUpstreamError snap) = sStatus snap.
Proof.
  intros [H1 H2] format. assert (clamped (sStatus snap) = sStatus snap) as Hc.
  { unfold clamped. destruct (Z.ltb_spec (sStatus snap) 100), (Z.ltb_spec 599 (sStatus snap)); cbn; lia. }
  cbn. rewrite Hc. by destruct (String.eqb _ _).
Qed.

(** A presentable response is presented. *)
Lemma present_presentable (res : Result) (r : @requestRun U) : Forall presentable (out r) -> present job res r = Executed res r.
Proof.
  intros H. unfold present. destruct (existsb _ (out r)) eqn:He; [|done]. apply existsb_exists in He as (e & He & Hr).
  apply list_elem_of_In in He. rewrite Forall_forall in H. destruct (H e He (jWire job)) as [H1 H2].
  unfold refused in Hr. apply orb_true_iff in Hr as [Hr%Z.ltb_lt|Hr%Z.ltb_lt]; lia.
Qed.

Lemma finish_presentable (err : option goerr) (r r' : @requestRun U) (res : Result) :
  kept_final r -> Forall presentable (out r) -> finish env job err r = Some (res, r') -> Forall presentable (out r').
Proof.
  intros Hk Ho. assert (forall snap, success r = Some snap \/ lastFailed r = Some snap \/ terminal r = Some snap ->
    presentable (RenderSuccess snap) /\ presentable (RenderUpstreamError snap)) as Hsnap.
  { intros snap Hs. pose proof (snapshot_presentable snap (Hk snap Hs)) as H. unfold presentable.
    split; intros f; destruct (H f) as [H1 H2]; rewrite ?H1, ?H2; by apply Hk. }
  assert (forall status code, final_status status -> Forall presentable (out r ++ [RenderError status code])) as Hgate.
  { intros status code H. apply Forall_app. split; [done|]. constructor; [by intros f|constructor]. }
  assert (forall snap, success r = Some snap \/ lastFailed r = Some snap \/ terminal r = Some snap ->
    Forall presentable (out r ++ [RenderSuccess snap]) /\ Forall presentable (out r ++ [RenderUpstreamError snap])) as Hone.
  { intros snap Hs. destruct (Hsnap snap Hs). split; apply Forall_app; (split; [done|by apply Forall_singleton]). }
  unfold finish, gateway_error, passthrough. destruct err as [e|].
  - destruct (Is e ErrCommitted); [by intros [= <- <-]|]. destruct (clientGone env); [by intros [= <- <-]|].
    destruct (terminal r) eqn:Ht; [intros [= <- <-]; cbn; by apply Hone; auto|].
    destruct (Is e errCircuitOpen); [intros [= <- <-]; by apply Hgate|].
    destruct (Is e errUpstreamSaturated); [intros [= <- <-]; by apply Hgate|].
    destruct (Is e ErrBudgetExhausted); [intros [= <- <-]; by apply Hgate|].
    destruct (lastFailed r) eqn:Hl; [destruct (is_last_failed e r)|]; intros [= <- <-]; cbn; [by apply Hone; auto|by apply Hgate..].
  - destruct (jStream job); [by intros [= <- <-]|]. destruct (success r) eqn:Hs; [|done]. intros [= <- <-]. cbn. by apply Hone; auto.
Qed.

Lemma stream_one_response (format : string) (es : list client_event) (res : Result) :
  stream_events es -> Status res = 200 -> Streamed res = true -> one_response format es res.
Proof.
  intros (ct & cc & data & [-> |[code ->]]) Hst Hs; unfold one_response; do 2 eexists;
    (split_and!; [done|done|cbn; by rewrite Hst|done|by repeat constructor]).
Qed.

Lemma carried_commit (around : Loop.environment) (e err : goerr) :
  clean_loop around -> LoopSpec.carries (loop_env ID pool exec dec env job around) e err ->
  Is err ErrCommitted = false -> Is e ErrCommitted = false.
Proof.
  intros [Ho Hs] [-> |(c & -> & Hc)] He; [done|]. cbn [Is]. rewrite He, orb_false_r.
  destruct Hc as [-> |[[n Hc]|(n & d & Hc)]]; [done|by eapply Ho|by eapply Hs].
Qed.

(** The response to an uncommitted failure. *)
Lemma finish_failed (format : string) (r : @requestRun U) (e : goerr) :
  kept_final r -> out r = [] -> Is e ErrCommitted = false ->
  exists res r', finish env job (Some e) r = Some (res, r') /\
    (out r' = [] /\ ClientGone res = true \/ ClientGone res = false /\ one_response format (out r') res).
Proof.
  intros Hk Hout He. unfold finish. rewrite He.
  assert (forall h, is_head h = true -> is_stream h = false ->
    forall res (r' : @requestRun U), event_status format h = Status res -> Streamed res = false -> ClientGone res = false -> out r' = out r ++ [h] ->
    ClientGone res = false /\ one_response format (out r') res) as Hone.
  { intros h H1 H2 res r' H3 H4 H5 H6. split; [done|]. rewrite H6, Hout. exists h, [].
    split_and!; [done|done|done|congruence|constructor]. }
  assert (forall status code (r1 : @requestRun U), out r1 = out r -> exists res r', Some (gateway_error status code r1) = Some (res, r') /\
    (out r' = [] /\ ClientGone res = true \/ ClientGone res = false /\ one_response format (out r') res)) as Hgate.
  { intros status code r1 Hr1. do 2 eexists. split; [done|]. right.
    apply (Hone (RenderError status code)); try done. cbn. by rewrite Hr1. }
  assert (forall snap, lastFailed r = Some snap \/ terminal r = Some snap -> exists res r', Some (passthrough snap r) = Some (res, r') /\
    (out r' = [] /\ ClientGone res = true \/ ClientGone res = false /\ one_response format (out r') res)) as Hpass.
  { intros snap Hs. do 2 eexists. split; [done|]. right. apply (Hone (RenderUpstreamError snap)); try done.
    apply snapshot_presentable, Hk. tauto. }
  destruct (clientGone env); [do 2 eexists; split; [done|by left]|].
  destruct (terminal r); [apply Hpass; auto|].
  destruct (Is e errCircuitOpen); [by apply Hgate|]. destruct (Is e errUpstreamSaturated); [by apply Hgate|].
  destruct (Is e ErrBudgetExhausted); [by apply Hgate|].
  destruct (lastFailed r); [|by apply Hgate]. destruct (is_last_failed e r); [apply Hpass; auto|by apply Hgate].
Qed.

(** A failure always finishes. *)
Lemma finish_some (r : @requestRun U) (e : goerr) : exists res r', finish env job (Some e) r = Some (res, r').
Proof. unfold finish, passthrough, gateway_error. repeat case_match; eauto. Qed.

(** What the attempts wrote before the last word. *)
Definition prepared (r : @requestRun U) (err : option goerr) : Prop :=
  match err with
  | Some e => if Is e ErrCommitted then stream_events (out r) else out r = []
  | None => if jStream job then stream_events (out r) else out r = [] /\ is_Some (success r)
  end.

Lemma prepared_presentable (r : @requestRun U) (err : option goerr) : prepared r err -> Forall presentable (out r).
Proof.
  unfold prepared. destruct err as [e|]; [destruct (Is e ErrCommitted)|destruct (jStream job)];
    [by apply stream_presentable|by intros ->|by apply stream_presentable|by intros [-> _]].
Qed.

(** An execution that got as far as its last word. *)
Lemma finish_presents (r0 : @requestRun U) (err : option goerr) :
  kept_final r0 -> prepared r0 err ->
  exists res r, finish env job err r0 = Some (res, r) /\ present job res r = Executed res r /\ Forall presentable (out r).
Proof.
  intros Hk Hp. assert (exists res r, finish env job err r0 = Some (res, r)) as (res & r & Hf).
  { destruct err as [e|]; [apply finish_some|]. unfold prepared in Hp. unfold finish. destruct (jStream job); [eauto|].
    destruct Hp as [_ [snap ->]]. eauto. }
  pose proof (finish_presentable err r0 r res Hk (prepared_presentable _ _ Hp) Hf) as Hpr.
  exists res, r. split_and!; [done|by apply present_presentable|done].
Qed.

(** What an execution wrote before its last word, and that word. *)
Lemma execution_finishes (around : Loop.environment) (budget : option Budget.Budget) :
  clean_loop around -> Candidates job <> [] ->
  exists x, Execute ID pool exec dec env job around budget = Some x /\
  match x with
  | ExecutionPanicked r => out r = [] /\ exists k : nat,
      run_attempt (Z.of_nat (S k)) = Loop.AttemptPanicked /\
      forall i, 1 <= i < Z.of_nat (S k) -> exists e, run_attempt i = Loop.Ended (Some e)
  | Executed res r => Forall presentable (out r) /\ exists r0 err, kept_final r0 /\ finish env job err r0 = Some (res, r) /\ prepared r0 err
  end.
Proof.
  intros Hloop Hne. destruct (execution_ends ID pool exec dec env job around budget Hne) as (k & [Hk _] & Hgo & x & -> & Hx).
  exists x. split; [done|]. pose proof (states_responded k Hk) as Hr.
  assert (out (states (Z.to_nat (k - 1))) = []) as Hq by (apply quiet_until; intros i Hi; apply Hgo; lia).
  destruct (run_attempt k) as [err0|] eqn:Hrun.
  2:{ subst x. split; [congruence|]. exists (Z.to_nat (k - 1)). replace (Z.of_nat (S (Z.to_nat (k - 1)))) with k by lia.
      split; [done|]. intros i Hi. destruct (Hgo i Hi) as (e & He & _). by exists e. }
  destruct Hx as (err & Hends & ->).
  assert (prepared (states (Z.to_nat k)) err) as Hp.
  { destruct err0 as [e0|], err as [e|]; cbn [ends_with] in Hends; try done; unfold prepared; cbn [responded] in Hr.
    - destruct Hends as [Hcar Hsame]. destruct (Is e0 ErrCommitted) eqn:Hc.
      + destruct Hr as (es & Hes & Hev). unfold wrote in Hes. rewrite Hq in Hes. rewrite (Hsame eq_refl), Hc, Hes. done.
      + unfold wrote in Hr. rewrite Hq in Hr. by rewrite (carried_commit around e e0 Hloop Hcar Hc).
    - destruct (jStream job).
      + destruct Hr as (es & Hes & Hev). unfold wrote in Hes. by rewrite Hes, Hq.
      + destruct Hr as [Hes Hs]. unfold wrote in Hes. by rewrite Hes, Hq. }
  destruct (finish_presents _ _ (states_final (Z.to_nat k)) Hp) as (res & r & Hf & Hpres & Hout).
  rewrite Hf, Hpres. split; [done|]. exists (states (Z.to_nat k)), err. split_and!; [apply states_final|done|done].
Qed.

(** The response of an execution that got as far as its last word. *)
Lemma finished_response (format : string) (r0 r : @requestRun U) (err : option goerr) (res : Result) :
  kept_final r0 -> prepared r0 err -> finish env job err r0 = Some (res, r) ->
  one_response format (out r) res \/ out r = [] /\ ClientGone res = true.
Proof.
  intros Hk Hp Hf. destruct err as [e|]; unfold prepared in Hp.
  - destruct (Is e ErrCommitted) eqn:Hc.
    + unfold finish in Hf. rewrite Hc in Hf. injection Hf as <- <-. left. by apply stream_one_response.
    + destruct (finish_failed format r0 e Hk Hp Hc) as (res' & r' & Hf' & Hfin). rewrite Hf' in Hf. injection Hf as <- <-.
      destruct Hfin as [H|[_ H]]; auto.
  - unfold finish in Hf. destruct (jStream job).
    + injection Hf as <- <-. left. by apply stream_one_response.
    + destruct Hp as [Hout [snap Hs]]. rewrite Hs in Hf. injection Hf as <- <-.
      left. exists (RenderSuccess snap), []. cbn [Relay.emit set_out out]. rewrite Hout.
      split_and!; [done|done|apply snapshot_presentable, Hk; auto|done|constructor].
Qed.
End props.
End ResponseFacts.

Module AccountingFacts.
Import Errors OpenAI Lease Bounded UsageCodec Pump Plan Relay RelaySpec.

Section facts.
Context {U : Type} (ID : U -> string) (pool : U -> bool).
Context {T : Type} `{!StreamTranscoder T}.
Variable exec : Executor.
Variable dec : decoders.
Variable env : @environment U.
Variable job : @Job U T.
Abbreviation run := (@requestRun U).

Definition neutral (e : effect) : bool :=
  match e with
  | SlotAcquired _ _ | SlotReleased _ | BreakerAsked _ _ | BreakerReported _ _ => false
  | _ => true
  end.

Abbreviation gated := (bulkhead exec).
Abbreviation holds := (holds gated).
Abbreviation hold_step := (hold_step gated).
Abbreviation own_slot := (own_slot gated).

Lemma holds_app (es1 es2 : list effect) (h h' : holding) :
  holds es1 h = Some h' -> holds (es1 ++ es2) h = holds es2 h'.
Proof. unfold RelaySpec.holds. rewrite foldl_app. by intros ->. Qed.

Lemma holds_neutral (es : list effect) (h : holding) :
  Forall (fun e => neutral e = true) es -> holds es h = Some h.
Proof.
  unfold RelaySpec.holds. induction 1 as [|e es He _ IH]; [done|]. cbn [foldl].
  replace (hold_step (Some h) e) with (Some h); [done|]. by destruct e, h as [[] []].
Qed.

(** What a step appended to the effects. *)
Definition grew (r r' : run) (es : list effect) : Prop := effects r' = effects r ++ es.

Lemma grew_trans (r r1 r2 : run) (es1 es2 : list effect) :
  grew r r1 es1 -> grew r1 r2 es2 -> grew r r2 (es1 ++ es2).
Proof. unfold grew. intros H1 H2. by rewrite H2, H1, app_assoc. Qed.

Definition quietly (r r' : run) : Prop := exists es, grew r r' es /\ Forall (fun e => neutral e = true) es.

Lemma quietly_same (r r' : run) : effects r' = effects r -> quietly r r'.
Proof. intros H. exists []. split; [unfold grew; by rewrite app_nil_r|constructor]. Qed.

Lemma quietly_log (r r' : run) (e : effect) : neutral e = true -> effects r' = effects r ++ [e] -> quietly r r'.
Proof. intros He H. exists [e]. by repeat constructor. Qed.

Lemma quietly_trans (r r1 r2 : run) : quietly r r1 -> quietly r1 r2 -> quietly r r2.
Proof.
  intros (es1 & H1 & N1) (es2 & H2 & N2). exists (es1 ++ es2). split; [by eapply grew_trans|by apply Forall_app].
Qed.

Lemma stash_quiet (n : Z) (cand : U) (resp : Response) (body : string) (r : run) :
  quietly r (stashUpstreamError ID pool exec dec env n cand resp body r).2.
Proof.
  unfold stashUpstreamError, excludeCredential. cbv zeta.
  destruct (negb _ && has_fatalHook exec);
    repeat match goal with |- context [if ?b then _ else _] => destruct b end;
    first [by apply quietly_same | by eapply (quietly_log _ _ (FatalReported _ _ _))].
Qed.

Lemma exchange_quiet (n : Z) (cand : U) (model : string) (r : run) :
  quietly r (exchange ID pool exec dec env job n cand model r).2.
Proof.
  unfold exchange. destruct (negb (jStream job)); cbv zeta; destruct (forward _ _ _ _) as [e|resp|];
    try by apply quietly_same.
  - unfold exchangeBuffered. destruct (readBounded _ _); [|by apply quietly_same].
    destruct (negb _); [apply stash_quiet|]. destruct (ParseUsage _ _); by apply quietly_same.
  - unfold stream_forward_failed. cbv zeta. destruct (ttftFired _); [|destruct (ceilingFired _)]; by apply quietly_same.
  - unfold stream_answered. destruct (negb _).
    + destruct (readBounded _ _); [apply stash_quiet|by apply quietly_same].
    + cbv zeta. destruct (ttftFired _); [by apply quietly_same|].
      apply (quietly_trans _ (log (TtftObserved (ID cand) (sub (answered env n) (started env n)))
        (set_responsiveness (sub (answered env n) (started env n)) r)));
        [by eapply (quietly_log _ _ (TtftObserved _ _))|].
      unfold exchangeStream. cbv zeta. destruct (pump _ _ _ _ _ _) as [[p t]|]; [|by apply quietly_same].
      destruct (Pump.usage p); (destruct (err p); [|by apply quietly_same]); unfold abort_stream; cbv zeta;
        destruct (is_canceled _); by apply quietly_same.
Qed.

(** From [h] to [h'], whatever the neutral effects in between. *)
Definition moves (r r' : run) (h h' : holding) : Prop :=
  exists es, grew r r' es /\ holds es h = Some h'.

Lemma moves_trans (r r1 r2 : run) (h h1 h2 : holding) : moves r r1 h h1 -> moves r1 r2 h1 h2 -> moves r r2 h h2.
Proof.
  intros (es1 & H1 & N1) (es2 & H2 & N2). exists (es1 ++ es2). split; [by eapply grew_trans|].
  by rewrite (holds_app _ _ _ _ N1).
Qed.

Lemma moves_quiet (r r' : run) (h : holding) : quietly r r' -> moves r r' h h.
Proof. intros (es & H & N). exists es. split; [done|by apply holds_neutral]. Qed.

Lemma moves_log (r : run) (e : effect) (h h' : holding) : hold_step (Some h) e = Some h' -> moves r (log e r) h h'.
Proof. intros H. exists [e]. by split. Qed.

Lemma moves_same (r r' : run) (h : holding) : effects r' = effects r -> moves r r' h h.
Proof. intros H. by apply moves_quiet, quietly_same. Qed.

(** A bounded step of an attempt whose slot [s] is held: a panic may leave a
    permission behind. *)
Definition attempt_moves (r : run) (res : Loop.attempt_end * run) (s : option string) : Prop :=
  match res.1 with
  | Loop.Ended _ => moves r res.2 (mkHolding s None) (mkHolding s None)
  | Loop.AttemptPanicked => exists p, moves r res.2 (mkHolding s None) (mkHolding s p)
  end.

Lemma attempt_moves_before (r r1 : run) (res : Loop.attempt_end * run) (s : option string) :
  moves r r1 (mkHolding s None) (mkHolding s None) -> attempt_moves r1 res s -> attempt_moves r res s.
Proof.
  unfold attempt_moves. intros H. destruct res.1; [by apply moves_trans|].
  intros [p Hp]. exists p. by eapply moves_trans.
Qed.

Lemma strip_moves (n : Z) (cand : U) (e : goerr) (r : run) (s : option string) :
  attempt_moves r (strip_hint ID pool exec env job n cand e r) s.
Proof.
  unfold attempt_moves, strip_hint. destruct (_ && _); [|by apply moves_same].
  destruct (target _ _ _ _) as [[[next m]|] p]; [|exists None; by apply moves_same].
  destruct (_ || _); by apply moves_same.
Qed.

Lemma own_asked (id : string) (ok : bool) :
  hold_step (Some (mkHolding (own_slot id) None)) (BreakerAsked id ok)
  = Some (mkHolding (own_slot id) (if ok then Some id else None)).
Proof. unfold RelaySpec.own_slot. destruct gated; cbn; by rewrite decide_True. Qed.

Lemma own_reported (id : string) (o : Outcome) :
  hold_step (Some (mkHolding (own_slot id) (Some id))) (BreakerReported id o) = Some (mkHolding (own_slot id) None).
Proof. unfold RelaySpec.own_slot. destruct gated; cbn; by rewrite decide_True. Qed.

Lemma reported_moves (cand : U) (o : Outcome) (d : Z) (failed : bool) (r : run) :
  let s := own_slot (ID cand) in
  let r1 := if has_observer exec then log (Observed (ID cand) d failed) r else r in
  let r2 := if has_breaker exec then log (BreakerReported (ID cand) o) r1 else r1 in
  moves r r2 (mkHolding s (if has_breaker exec then Some (ID cand) else None)) (mkHolding s None).
Proof.
  intros s r1. apply (moves_trans _ r1 _ _ (mkHolding s (if has_breaker exec then Some (ID cand) else None))).
  - unfold r1. destruct (has_observer exec); [|by apply moves_same].
    apply moves_quiet. by eapply (quietly_log _ _ (Observed _ _ _)).
  - cbv zeta. destruct (has_breaker exec); [|by apply moves_same]. apply moves_log, own_reported.
Qed.

Lemma attempt_body_moves (n : Z) (cand : U) (model : string) (r : run) :
  attempt_moves r (attempt_body ID pool exec dec env job n cand model r) (own_slot (ID cand)).
Proof.
  set (s := own_slot (ID cand)). unfold attempt_body. cbv zeta. set (r1 := if has_breaker exec then _ else r).
  set (granted := if has_breaker exec && allowed env n then Some (ID cand) else None).
  assert (moves r r1 (mkHolding s None) (mkHolding s granted)) as H1.
  { unfold r1, granted. destruct (has_breaker exec); [|by apply moves_same]. apply moves_log, own_asked. }
  destruct (has_breaker exec && negb (allowed env n)) eqn:Hden.
  { apply andb_true_iff in Hden as [Hb Ha%negb_true_iff]. unfold granted in H1. rewrite Hb, Ha in H1.
    apply (attempt_moves_before _ r1); [done|]. by apply moves_same. }
  assert (granted = if has_breaker exec then Some (ID cand) else None) as Hg.
  { unfold granted. destruct (has_breaker exec), (allowed env n); done. }
  assert (quietly r1 (exchange ID pool exec dec env job n cand model (set_responsiveness 0 r1)).2) as Hx
    by (apply (quietly_trans _ (set_responsiveness 0 r1)); [by apply quietly_same|apply exchange_quiet]).
  destruct (exchange ID pool exec dec env job n cand model _) as [[o err|] r2]; cbn [snd] in Hx.
  2:{ exists granted. apply (moves_trans _ r1 _ _ _ _ H1). by apply moves_quiet. }
  pose proof (reported_moves cand (slow_outcome exec o r2) (sub (settled env n) (started env n))
    (match err with Some e => negb (clientFault (ctx env n AtObserve) e) | None => false end) r2) as H3.
  cbv zeta in H3. fold s in H3. rewrite <- Hg in H3. match type of H3 with moves _ ?x _ _ => set (r3 := x) in * end.
  assert (moves r r3 (mkHolding s None) (mkHolding s None)) as H.
  { apply (moves_trans _ r1 _ _ _ _ H1), (moves_trans _ r2 _ _ (mkHolding s granted)); [|done]. by apply moves_quiet. }
  destruct err as [e|].
  - apply (attempt_moves_before _ r3); [done|]. apply strip_moves.
  - apply (attempt_moves_before _ r3); [done|]. by apply moves_same.
Qed.

Lemma note_attempt_quiet (n : Z) (cand : U) (r : run) : quietly r (note_attempt ID n cand r).
Proof.
  unfold note_attempt. destruct (1 <? n); [|by apply quietly_same]. cbv zeta.
  set (r1 := log (RetryScheduled (ID cand)) (set_retries (n - 1) r)).
  apply (quietly_trans _ r1); [by apply (quietly_log _ _ (RetryScheduled (ID cand)))|].
  destruct (lastCand r1) as [c|]; [|by apply quietly_same].
  destruct (negb _); [by apply (quietly_log _ _ (Failover (ID c) (ID cand)))|by apply quietly_same].
Qed.

(** What an attempt that found nothing held leaves: nothing, or - behind a
    panic - its own slot, given back as the last effect. *)
Definition attempt_left (r : run) (res : Loop.attempt_end * run) : Prop :=
  match res.1 with
  | Loop.Ended _ => moves r res.2 nothing_held nothing_held
  | Loop.AttemptPanicked =>
      moves r res.2 nothing_held nothing_held \/
      exists id p r1, moves r r1 nothing_held (mkHolding (own_slot id) p) /\ grew r1 res.2 (slot_back (own_slot id))
  end.

Lemma attempt_left_before (r r1 : run) (res : Loop.attempt_end * run) :
  moves r r1 nothing_held nothing_held -> attempt_left r1 res -> attempt_left r res.
Proof.
  unfold attempt_left. intros H. destruct res.1; [by apply moves_trans|].
  intros [Hq|(id & p & r2 & Hp & Hg)]; [left; by eapply moves_trans|].
  right. exists id, p, r2. split; [by eapply moves_trans|done].
Qed.

Lemma attempt_held (n : Z) (r : run) : attempt_left r (attempt ID pool exec dec env job n r).
Proof.
  unfold attempt. cbv zeta. destruct (target _ _ _ _) as [[[cand model]|] p]; [|left; by apply moves_same].
  set (r1 := note_attempt ID n cand _).
  apply (attempt_left_before _ r1); [apply moves_quiet, (quietly_trans _ (set_plan_ p (set_attempts n r)));
    [by apply quietly_same|apply note_attempt_quiet]|].
  pose proof (attempt_body_moves n cand model) as Hbody. unfold attempt_left. destruct gated eqn:Hgate.
  - destruct (slot env n) eqn:Hslot; cbn [negb].
    + set (r2 := log _ r1). specialize (Hbody r2). cbn [RelaySpec.own_slot] in Hbody.
      assert (moves r1 r2 nothing_held (mkHolding (Some (ID cand)) None)) as H2.
      { apply moves_log. unfold RelaySpec.hold_step, nothing_held. by rewrite Hgate. }
      destruct (attempt_body _ _ _ _ _ _ _ _ _ _) as [x r3]. unfold attempt_moves in Hbody; cbn [fst snd] in *.
      destruct x; cbn [fst snd].
      * apply (moves_trans _ r2 _ _ _ _ H2), (moves_trans _ r3 _ _ _ _ Hbody), moves_log.
        cbn. by rewrite decide_True.
      * destruct Hbody as [q Hq]. right. exists (ID cand), q, r3. split; [by eapply moves_trans|by unfold grew].
    + cbn. apply (moves_trans _ (log (SlotAcquired (ID cand) false) r1) _ _ nothing_held); [by apply moves_log|].
      by apply (moves_log _ (UpstreamSaturated (ID cand))).
  - specialize (Hbody r1). unfold attempt_moves in Hbody. destruct (attempt_body _ _ _ _ _ _ _ _ _ _) as [x r3]; cbn [fst snd] in *.
    destruct x; [done|]. destruct Hbody as [q Hq]. right. exists (ID cand), q, r3.
    split; [done|]. unfold grew. by rewrite app_nil_r.
Qed.

Lemma finish_quiet (err : option goerr) (r r' : run) (res : Result) :
  finish env job err r = Some (res, r') -> quietly r r'.
Proof.
  unfold finish, gateway_error, passthrough. destruct err as [e|].
  - destruct (Is e ErrCommitted); [intros [= <- <-]; by apply quietly_same|].
    destruct (clientGone env); [intros [= <- <-]; by apply quietly_same|].
    destruct (terminal r); [intros [= <- <-]; by apply quietly_same|].
    destruct (Is e errCircuitOpen); [intros [= <- <-]; by apply quietly_same|].
    destruct (Is e errUpstreamSaturated); [intros [= <- <-]; by apply quietly_same|].
    destruct (Is e ErrBudgetExhausted); [intros [= <- <-]; by apply (quietly_log _ _ RetryBudgetExhausted)|].
    destruct (lastFailed r); [destruct (is_last_failed e r)|]; intros [= <- <-]; by apply quietly_same.
  - destruct (jStream job); [intros [= <- <-]; by apply quietly_same|].
    destruct (success r); [intros [= <- <-]; by apply quietly_same|done].
Qed.
End facts.
End AccountingFacts.

Module AccountingProps.
Import Errors OpenAI Pump Relay RelaySpec RelayFacts ExecutionFacts AccountingFacts.

(** The effects of a run since its start. *)
Lemma moves_new {U T : Type} (exec : Executor) (job : @Job U T) (r : @requestRun U) (h : holding) :
  moves exec (newRun job) r nothing_held h -> holds (bulkhead exec) (effects r) nothing_held = Some h.
Proof. intros (es & Hes & Hh). unfold grew in Hes. cbn in Hes. by rewrite Hes. Qed.

(** C6. The accounting of a request is balanced and in order.  Reading the
    effects of any execution from its start: a slot is taken while nothing is
    held; the breaker is asked by the upstream whose slot is held, while no
    permission is outstanding; every granted permission is reported exactly
    once, by its own upstream, while its slot is still held, and the slot is
    given back only behind that report; nothing refused is ever reported or
    given back; and at the end nothing is held.  When the execution panics
    inside an attempt, the attempt's own slot is given back as the last
    effect; only the permission is left to the breaker's own deadline. *)
Theorem accounting_balanced {U : Type} (ID : U -> string) (pool : U -> bool) {T : Type} `{!StreamTranscoder T}
    (exec : Executor) (dec : decoders) (env : @environment U) (job : @Job U T)
    (around : Loop.environment) (budget : option Budget.Budget) :
  exists x, Execute ID pool exec dec env job around budget = Some x /\
  match x with
  | Executed res r => holds (bulkhead exec) (effects r) nothing_held = Some nothing_held
  | ExecutionPanicked r =>
      holds (bulkhead exec) (effects r) nothing_held = Some nothing_held \/
      exists id p es, effects r = es ++ slot_back (own_slot (bulkhead exec) id) /\
        holds (bulkhead exec) es nothing_held = Some (mkHolding (own_slot (bulkhead exec) id) p)
  end.
Proof.
  destruct (decide (Candidates job = [])) as [Hnil|Hne]; [unfold Execute; rewrite Hnil; by eexists|].
  destruct (execution_ends ID pool exec dec env job around budget Hne) as (k & [Hk _] & Hgo & x & -> & Hx).
  exists x. split; [done|]. set (ss := states ID pool exec dec env job) in *.
  set (ra := run_attempt ID pool exec dec env job) in *.
  assert (forall m, 1 <= m -> attempt_left exec (ss (Z.to_nat (m - 1))) (ra m, ss (Z.to_nat m))) as Hstep.
  { intros m Hm. unfold ra, ss. rewrite states_step by done. apply attempt_held. }
  assert (forall m : nat, (Z.of_nat m < k) -> moves exec (newRun job) (ss m) nothing_held nothing_held) as Hquiet.
  { induction m as [|m IH]; intros Hm; [by apply moves_same|].
    destruct (Hgo (Z.of_nat (S m)) ltac:(lia)) as (e & Hrun & _).
    specialize (Hstep (Z.of_nat (S m)) ltac:(lia)). unfold attempt_left in Hstep. cbn [fst snd] in Hstep. rewrite Hrun in Hstep.
    replace (Z.to_nat (Z.of_nat (S m) - 1)) with m in Hstep by lia. rewrite Nat2Z.id in Hstep.
    exact (moves_trans _ _ _ _ _ _ _ (IH ltac:(lia)) Hstep). }
  specialize (Hstep k ltac:(lia)). specialize (Hquiet (Z.to_nat (k - 1)) ltac:(lia)). unfold attempt_left in Hstep.
  cbn [fst snd] in *. destruct (ra k) as [err0|].
  - pose proof (moves_trans _ _ _ _ _ _ _ Hquiet Hstep) as Hend. destruct Hx as (err & _ & ->).
    destruct (finish env job err _) as [[res r']|] eqn:Hf; [|left; by apply (moves_new _ job)].
    assert (moves exec (newRun job) r' nothing_held nothing_held) as Hdone.
    { apply (moves_trans _ _ _ _ _ _ _ Hend), moves_quiet. by eapply finish_quiet. }
    unfold present. destruct (existsb _ _); [left|]; by apply (moves_new _ job).
  - subst x. destruct Hstep as [Hq|(id & p & r1 & Hp & Hg)].
    { left. apply (moves_new _ job). by apply (moves_trans _ _ _ _ _ _ _ Hquiet). }
    right. exists id, p, (effects r1). split; [done|]. apply (moves_new _ job). by apply (moves_trans _ _ _ _ _ _ _ Hquiet).
Qed.
End AccountingProps.

Module WalkFacts.
Import Errors OpenAI Lease Bounded UsageCodec Pump Plan PlanSpec PlanFacts Relay RelaySpec RelayFacts ExecutionFacts.

Section facts.
Context {U : Type} (ID : U -> string) (pool : U -> bool).
Context {T : Type} `{!StreamTranscoder T}.
Variable exec : Executor.
Variable dec : decoders.
Variable env : @environment U.
Variable job : @Job U T.
Abbreviation run := (@requestRun U).

(** The fields an exchange leaves alone. *)
Definition keeps (r r' : run) : Prop :=
  plan_ r' = plan_ r /\ attempts r' = attempts r /\ retries r' = retries r /\ lastCand r' = lastCand r.

Definition one_entry (cand : U) (es : list AttemptTrace) : Prop := exists c s, es = [mkTrace (ID cand) c s].

(** An exchange with [cand] adds one entry of its own, except that a stream
    cut as its headers landed adds none. *)
Definition traced (cand : U) (r r' : run) : Prop :=
  keeps r r' /\ exists es, trail r' = trail r ++ es /\ (one_entry cand es \/ es = [] /\ jStream job = true).

Lemma traced_one (cand : U) (r r' : run) (c s : Z) :
  keeps r r' -> trail r' = trail r ++ [mkTrace (ID cand) c s] -> traced cand r r'.
Proof. intros H1 H2. split; [done|]. eexists. split; [exact H2|]. left. unfold one_entry. eauto. Qed.

Lemma stash_traced (n : Z) (cand : U) (resp : Response) (body : string) (r : run) :
  traced cand r (stashUpstreamError ID pool exec dec env n cand resp body r).2.
Proof.
  unfold stashUpstreamError, excludeCredential. cbv zeta.
  repeat match goal with |- context [if ?b then _ else _] => destruct b end; by eapply traced_one.
Qed.

Lemma exchange_traced (n : Z) (cand : U) (model : string) (r : run) :
  let (x, r') := exchange ID pool exec dec env job n cand model r in
  match x with Exchanged _ _ => traced cand r r' | ExchangePanicked => keeps r r' end.
Proof.
  unfold exchange. destruct (jStream job) eqn:Hs; cbn [negb]; cbv zeta; destruct (forward _ _ _ _) as [e|resp|]; try done.
  - unfold stream_forward_failed. cbv zeta. destruct (ttftFired _); [|destruct (ceilingFired _)]; by eapply traced_one.
  - unfold stream_answered. destruct (negb _).
    + destruct (readBounded _ _); [|by eapply traced_one].
      pose proof (stash_traced n cand resp s r) as H. unfold stashUpstreamError in *. cbv zeta in *.
      by destruct (_ || _).
    + cbv zeta. destruct (ttftFired _).
      * split; [done|]. exists []. split; [by rewrite app_nil_r|]. by right.
      * unfold exchangeStream. cbv zeta. destruct (pump _ _ _ _ _ _) as [[p t]|]; [|done].
        destruct (err p) as [e|]; [unfold abort_stream; cbv zeta; destruct (is_canceled _)|];
          destruct (Pump.usage p); by eapply traced_one.
  - by eapply traced_one.
  - unfold exchangeBuffered. destruct (readBounded _ _) as [b|]; [|by eapply traced_one].
    destruct (negb _).
    + pose proof (stash_traced n cand resp b r) as H. unfold stashUpstreamError in *. cbv zeta in *.
      by destruct (_ || _).
    + destruct (ParseUsage _ _); by eapply traced_one.
Qed.

(** *** One attempt on the walk [l] *)
Variable l : list (U * string).
Abbreviation plan_ok := (plan_ok (Resolve job) (Fallbacks job) l).

Lemma strip_walk (n : Z) (cand : U) (e : goerr) (r : run) :
  plan_ok n (plan_ r) ->
  let (x, r') := strip_hint ID pool exec env job n cand e r in
  (exists err, x = Loop.Ended err) /\ (exists hi, n <= hi <= n + 1 /\ plan_ok hi (plan_ r')) /\
  attempts r' = attempts r /\ retries r' = retries r /\ lastCand r' = lastCand r /\ trail r' = trail r.
Proof.
  intros Hok. unfold strip_hint.
  destruct (_ && _); [|split_and!; [by eexists|exists n; split; [lia|done]|done..]].
  destruct (target_spec _ _ l n (n + 1) (plan_ r) Hok ltac:(lia)) as (p' & -> & [[next m] Hw] & Hok').
  rewrite Hw. destruct (_ || _); (split_and!; [by eexists|exists (n + 1); split; [lia|done]|done..]).
Qed.

Lemma note_attempt_keeps (n : Z) (cand : U) (r : run) :
  plan_ (note_attempt ID n cand r) = plan_ r /\ attempts (note_attempt ID n cand r) = attempts r /\
  retries (note_attempt ID n cand r) = (if 1 <? n then n - 1 else retries r) /\
  lastCand (note_attempt ID n cand r) = Some cand /\ trail (note_attempt ID n cand r) = trail r.
Proof.
  unfold note_attempt. destruct (1 <? n); [|done]. cbv zeta. destruct (lastCand _); [|done]. by destruct (negb _).
Qed.

(** What an attempt leaves behind: a plan ready for the next one, and one
    entry of its own target. *)
Definition walked (n : Z) (cand : U) (r : run) (res : Loop.attempt_end * run) : Prop :=
  (exists hi, n <= hi <= n + 1 /\ plan_ok hi (plan_ res.2)) /\
  attempts res.2 = attempts r /\ retries res.2 = retries r /\ lastCand res.2 = lastCand r /\
  match res.1 with
  | Loop.Ended _ => exists es, trail res.2 = trail r ++ es /\ (one_entry cand es \/ es = [] /\ jStream job = true)
  | Loop.AttemptPanicked => True
  end.

Lemma attempt_body_walk (n : Z) (cand : U) (model : string) (r : run) :
  plan_ok n (plan_ r) -> walked n cand r (attempt_body ID pool exec dec env job n cand model r).
Proof.
  intros Hok. unfold attempt_body. cbv zeta. set (r1 := if has_breaker exec then _ else r).
  assert (keeps r r1 /\ trail r1 = trail r) as [(K1 & K2 & K3 & K4) K5] by (unfold r1; by destruct (has_breaker exec)).
  destruct (has_breaker exec && _).
  { unfold walked; cbn [fst snd trace set_trail plan_ attempts retries lastCand trail]. rewrite K1, K2, K3, K4, K5. split_and!; [|done..|].
    - exists n. split; [lia|done].
    - eexists. split; [done|]. left. unfold one_entry. eauto. }
  pose proof (exchange_traced n cand model (set_responsiveness 0 r1)) as Hx.
  destruct (exchange ID pool exec dec env job n cand model _) as [[o err|] r2].
  2:{ destruct Hx as (X1 & X2 & X3 & X4). cbn in X1, X2, X3, X4. unfold walked; cbn [fst snd].
      rewrite X1, X2, X3, X4, K1, K2, K3, K4. split_and!; [|done..]. exists n. split; [lia|done]. }
  destruct Hx as ((X1 & X2 & X3 & X4) & es & X5 & Hes). cbn in X1, X2, X3, X4, X5.
  match goal with |- walked _ _ _ (match err with None => _ | Some e => strip_hint _ _ _ _ _ _ _ _ ?x end) => set (r3 := x) end.
  assert (keeps r2 r3 /\ trail r3 = trail r2) as [(Y1 & Y2 & Y3 & Y4) Y5]
    by (unfold r3; by destruct (has_observer exec), (has_breaker exec)).
  assert (plan_ok n (plan_ r3)) as Hok3 by congruence.
  assert (attempts r3 = attempts r /\ retries r3 = retries r /\ lastCand r3 = lastCand r /\ trail r3 = trail r ++ es)
    as (Z2 & Z3 & Z4 & Z5) by (split_and!; congruence).
  destruct err as [e|].
  - pose proof (strip_walk n cand e r3 Hok3) as H. destruct (strip_hint _ _ _ _ _ _ _ _ _) as [x r4].
    destruct H as ((err' & ->) & Hhi & H1 & H2 & H3 & H4). unfold walked; cbn [fst snd].
    split_and!; [done|congruence..|]. exists es. split; [congruence|done].
  - unfold walked; cbn [fst snd set_servedBy plan_ attempts retries lastCand trail]. split_and!; [|done..|by exists es].
    exists n. split; [lia|done].
Qed.

Lemma attempt_walk (n hi : Z) (r : run) :
  plan_ok hi (plan_ r) -> hi <= n <= hi + 1 ->
  exists c m, walk l n = Some (c, m) /\
  let res := attempt ID pool exec dec env job n r in
  (exists hi', n <= hi' <= n + 1 /\ plan_ok hi' (plan_ res.2)) /\
  attempts res.2 = n /\ retries res.2 = (if 1 <? n then n - 1 else retries r) /\ lastCand res.2 = Some c /\
  match res.1 with
  | Loop.Ended _ => exists es, trail res.2 = trail r ++ es /\ (one_entry c es \/ es = [] /\ jStream job = true)
  | Loop.AttemptPanicked => True
  end.
Proof.
  intros Hok Hn. destruct (target_spec _ _ l hi n (plan_ r) Hok Hn) as (p' & Ht & [[c m] Hw] & Hok').
  exists c, m. split; [done|]. unfold attempt. cbv zeta. cbn [set_attempts plan_]. rewrite Ht, Hw.
  set (r0 := set_plan_ p' (set_attempts n r)).
  destruct (note_attempt_keeps n c r0) as (N1 & N2 & N3 & N4 & N5). set (r1 := note_attempt ID n c r0) in *.
  assert (plan_ok n (plan_ r1)) as Hok1 by (by rewrite N1).
  assert (forall rb, plan_ rb = plan_ r1 -> attempts rb = attempts r1 -> retries rb = retries r1 ->
    lastCand rb = lastCand r1 -> trail rb = trail r1 -> forall res, walked n c rb res ->
    (exists hi', n <= hi' <= n + 1 /\ plan_ok hi' (plan_ res.2)) /\
    attempts res.2 = n /\ retries res.2 = (if 1 <? n then n - 1 else retries r) /\ lastCand res.2 = Some c /\
    match res.1 with
    | Loop.Ended _ => exists es, trail res.2 = trail r ++ es /\ (one_entry c es \/ es = [] /\ jStream job = true)
    | Loop.AttemptPanicked => True
    end) as Hdone.
  { intros rb E1 E2 E3 E4 E5 res (H1 & H2 & H3 & H4 & H5).
    rewrite H2, H3, H4, E2, E3, E4, N2, N3, N4. split_and!; [done..|]. destruct res.1; [|done].
    destruct H5 as (es & -> & Hes). exists es. by rewrite E5, N5. }
  destruct (bulkhead exec); [|by apply (Hdone r1), attempt_body_walk].
  destruct (negb (slot env n)).
  - apply (Hdone r1); try done. split_and!; [exists n; split; [lia|done]|done..|].
    eexists. split; [done|]. left. unfold one_entry. eauto.
  - set (r2 := log _ r1). pose proof (attempt_body_walk n c m r2 Hok1) as Hb.
    destruct (attempt_body _ _ _ _ _ _ _ _ _ _) as [x r3]. by apply (Hdone r2) in Hb.
Qed.

(** *** Panics *)
Lemma exchange_panics (n : Z) (cand : U) (model : string) (r : run) :
  (exchange ID pool exec dec env job n cand model r).1 = ExchangePanicked ->
  forward env n cand (forward_request ID job cand model r) = FPanic.
Proof.
  unfold exchange. destruct (negb (jStream job)); cbv zeta; destruct (forward _ _ _ _) as [e|resp|]; try done.
  - unfold exchangeBuffered. destruct (readBounded _ _); [|done]. destruct (negb _); [|done].
    unfold stashUpstreamError. cbv zeta. by destruct (_ || _).
  - unfold stream_forward_failed. cbv zeta. destruct (ttftFired _); [done|]. by destruct (ceilingFired _).
  - unfold stream_answered. destruct (negb _).
    { destruct (readBounded _ _); [|done]. unfold stashUpstreamError. cbv zeta. by destruct (_ || _). }
    cbv zeta. destruct (ttftFired _); [done|]. unfold exchangeStream.
    destruct (pump_returns dec env job n (RespBody resp) model) as [[p t] ->]. cbv zeta.
    destruct (err p); [|done]. unfold abort_stream. cbv zeta. by destruct (is_canceled _).
Qed.

Lemma attempt_body_panics (n : Z) (cand : U) (model : string) (r : run) :
  plan_ok n (plan_ r) -> (attempt_body ID pool exec dec env job n cand model r).1 = Loop.AttemptPanicked ->
  exists q, forward env n cand q = FPanic.
Proof.
  intros Hok. unfold attempt_body. cbv zeta. set (r1 := if has_breaker exec then _ else r).
  assert (plan_ r1 = plan_ r) as Hp by (unfold r1; by destruct (has_breaker exec)).
  destruct (has_breaker exec && _); [done|].
  pose proof (exchange_panics n cand model (set_responsiveness 0 r1)) as Hpanic.
  pose proof (exchange_traced n cand model (set_responsiveness 0 r1)) as Hx.
  destruct (exchange ID pool exec dec env job n cand model _) as [[o err|] r2]; [|intros _; eexists; by apply Hpanic].
  destruct Hx as ((Hx & _) & _). cbn in Hx. destruct err as [e|]; [|done].
  match goal with |- (strip_hint _ _ _ _ _ _ _ _ ?x).1 = _ -> _ => set (r3 := x) end.
  assert (plan_ r3 = plan_ r2) as Hp3 by (unfold r3; by destruct (has_observer exec), (has_breaker exec)).
  pose proof (strip_walk n cand e r3 ltac:(congruence)) as H. destruct (strip_hint _ _ _ _ _ _ _ _ _) as [x r4].
  by destruct H as ((err' & ->) & _).
Qed.

(** Only an adapter panics inside an attempt. *)
Lemma attempt_panics (n hi : Z) (r : run) :
  plan_ok hi (plan_ r) -> hi <= n <= hi + 1 -> (attempt ID pool exec dec env job n r).1 = Loop.AttemptPanicked ->
  exists c q, forward env n c q = FPanic.
Proof.
  intros Hok Hn. destruct (target_spec _ _ l hi n (plan_ r) Hok Hn) as (p' & Ht & [[c m] Hw] & Hok').
  unfold attempt. cbv zeta. cbn [set_attempts plan_]. rewrite Ht, Hw. set (r1 := note_attempt ID n c _).
  assert (plan_ok n (plan_ r1)) as Hok1.
  { unfold r1. destruct (note_attempt_keeps n c (set_plan_ p' (set_attempts n r))) as (-> & _). exact Hok'. }
  intros H. exists c. destruct (bulkhead exec); [|by eapply attempt_body_panics].
  destruct (negb (slot env n)); [done|]. pose proof (attempt_body_panics n c m (log (SlotAcquired (ID c) (slot env n)) r1) Hok1) as Hb.
  destruct (attempt_body _ _ _ _ _ _ _ _ _ _) as [x r3]. by apply Hb.
Qed.
End facts.
End WalkFacts.

Module WalkProps.
Import Errors OpenAI Pump Plan PlanSpec PlanFacts Relay RelaySpec ExecutionFacts WalkFacts.

Section props.
Context {U : Type} (ID : U -> string) (pool : U -> bool).
Context {T : Type} `{!StreamTranscoder T}.
Variable exec : Executor.
Variable dec : decoders.
Variable env : @environment U.
Variable job : @Job U T.

Abbreviation states := (states ID pool exec dec env job).
Abbreviation run_attempt := (run_attempt ID pool exec dec env job).
(** The candidates of the request and of its fallback chain, in order. *)
Definition the_walk : list (U * string) := whole (Resolve job) (Fallbacks job) (jModel job) (Candidates job).

(** The entries of attempt [n] name the walk's position [n]. *)
Definition entry_of (n : Z) (es : list AttemptTrace) : Prop :=
  exists c m, walk the_walk n = Some (c, m) /\ (one_entry ID c es \/ es = [] /\ jStream job = true).

Definition entries_of (ess : list (list AttemptTrace)) : Prop :=
  forall i es, ess !! i = Some es -> entry_of (Z.of_nat (S i)) es.

Lemma entries_snoc (ess : list (list AttemptTrace)) (es : list AttemptTrace) :
  entries_of ess -> entry_of (Z.of_nat (S (length ess))) es -> entries_of (ess ++ [es]).
Proof.
  intros H He i x Hx. apply lookup_app_Some in Hx as [Hx|[Hi Hx]]; [by apply H|].
  apply list_lookup_singleton_Some in Hx as [Hi' ->]. replace i with (length ess) by lia. done.
Qed.

(** After [k] attempts that all ended. *)
Record walked_to (k : nat) : Prop := {
  wt_plan : exists hi, Z.max 1 (Z.of_nat k) <= hi <= Z.of_nat k + 1 /\
    plan_ok (Resolve job) (Fallbacks job) the_walk hi (plan_ (states k));
  wt_attempts : attempts (states k) = Z.of_nat k;
  wt_retries : retries (states k) = Z.max 0 (Z.of_nat k - 1);
  wt_trail : exists ess, length ess = k /\ trail (states k) = concat ess /\ entries_of ess
}.

Lemma walked_start : Candidates job <> [] -> walked_to 0.
Proof.
  intros Hne. split; [exists 1; split; [done|by apply newPlan_ok]|done..|]. exists []. by split_and!.
Qed.

Lemma walked_step (k : nat) (err : option goerr) :
  walked_to k -> run_attempt (Z.of_nat (S k)) = Loop.Ended err -> walked_to (S k).
Proof.
  intros [(hi & Hhi & Hok) Ha Hr (ess & Hlen & Ht & Hess)] Hend.
  pose proof (attempt_walk ID pool exec dec env job the_walk (Z.of_nat (S k)) hi (states k) Hok ltac:(lia))
    as (c & m & Hw & H). cbv zeta in H.
  pose proof (states_step ID pool exec dec env job (Z.of_nat (S k)) ltac:(lia)) as Hs.
  rewrite Nat2Z.id in Hs. replace (Z.to_nat (Z.of_nat (S k) - 1)) with k in Hs by lia.
  rewrite <- Hs in H. cbn [fst snd] in H. rewrite Hend in H.
  destruct H as ((hi' & Hhi' & Hok') & H1 & H2 & _ & es & H3 & Hes).
  split; [exists hi'; split; [lia|done]|done|rewrite H2, Hr; destruct (Z.ltb_spec 1 (Z.of_nat (S k))); lia|].
  exists (ess ++ [es]). rewrite length_app, concat_app, H3, Ht. cbn [concat length]. rewrite app_nil_r.
  split_and!; [lia|done|]. apply entries_snoc; [done|]. rewrite Hlen. by exists c, m.
Qed.

Lemma finish_reports (err : option goerr) (r r' : @requestRun U) (res : Result) :
  finish env job err r = Some (res, r') ->
  Attempts res = attempts r /\ Retries res = retries r /\ Trail res = trail r.
Proof.
  unfold finish, gateway_error, passthrough. destruct err as [e|].
  - destruct (Is e ErrCommitted); [by intros [= <- <-]|]. destruct (clientGone env); [by intros [= <- <-]|].
    destruct (terminal r); [by intros [= <- <-]|]. destruct (Is e errCircuitOpen); [by intros [= <- <-]|].
    destruct (Is e errUpstreamSaturated); [by intros [= <- <-]|].
    destruct (Is e ErrBudgetExhausted); [by intros [= <- <-]|].
    destruct (lastFailed r); [destruct (is_last_failed e r)|]; by intros [= <- <-].
  - destruct (jStream job); [by intros [= <- <-]|]. destruct (success r); [by intros [= <- <-]|done].
Qed.
End props.

(** C10. The trail follows the failover walk.  An execution that produces a
    result made as many attempts as it reports, at most the policy's; attempt
    [i] asked the upstream at position [i] of the walk - the request's
    candidates, then those of every fallback model, past the end the last -
    and the reported trail is, attempt by attempt and in order, one entry of
    that upstream.  Only a streamed attempt may leave no entry. *)
Theorem execution_walks {U : Type} (ID : U -> string) (pool : U -> bool) {T : Type} `{!StreamTranscoder T}
    (exec : Executor) (dec : decoders) (env : @environment U) (job : @Job U T)
    (around : Loop.environment) (budget : option Budget.Budget) :
  exists x, Execute ID pool exec dec env job around budget = Some x /\
  match x with
  | Executed res r =>
      exists ess, Trail res = concat ess /\ entries_of ID job ess /\
        Attempts res = Z.of_nat (length ess) /\ Retries res = Z.max 0 (Attempts res - 1) /\
        Attempts res <= Loop.maxAttempts (policy exec) /\ (Attempts res = 0 <-> Candidates job = [])
  | ExecutionPanicked _ => Candidates job <> []
  end.
Proof.
  destruct (decide (Candidates job = [])) as [Hnil|Hne].
  { unfold Execute. rewrite Hnil. eexists. split; [done|]. exists []. cbn. split_and!; try done.
    unfold Loop.maxAttempts. case Z.ltb_spec; lia. }
  destruct (execution_ends ID pool exec dec env job around budget Hne) as (k & Hk & Hgo & x & -> & Hx).
  exists x. split; [done|].
  assert (forall m : nat, Z.of_nat m < k -> walked_to ID pool exec dec env job m) as Hwalk.
  { induction m as [|m IH]; intros Hm; [by apply walked_start|].
    destruct (Hgo (Z.of_nat (S m)) ltac:(lia)) as (e & Hrun & _). eapply walked_step; [apply IH; lia|exact Hrun]. }
  specialize (Hwalk (Z.to_nat (k - 1)) ltac:(lia)).
  destruct (run_attempt ID pool exec dec env job k) as [err0|] eqn:Hrun; [|by subst x].
  destruct Hx as (err & _ & ->). replace k with (Z.of_nat (S (Z.to_nat (k - 1)))) in Hrun by lia.
  pose proof (walked_step ID pool exec dec env job _ _ Hwalk Hrun) as Hend.
  replace (S (Z.to_nat (k - 1))) with (Z.to_nat k) in Hend by lia.
  destruct (finish env job err _) as [[res r']|] eqn:Hf; [|done].
  unfold present. destruct (existsb _ _); [done|]. destruct (finish_reports env job err _ r' res Hf) as (-> & -> & ->).
  destruct Hend as [_ -> -> (ess & Hlen & -> & Hess)]. exists ess. split_and!; [done|done|lia|lia|lia|split; [lia|done]].
Qed.
End WalkProps.

Module ResponseProps.
Import Formats Errors OpenAI Pump Relay RelaySpec RelayFacts ExecutionFacts ResponseFacts WalkFacts WalkProps.

Section props.
Context {U : Type} (ID : U -> string) (pool : U -> bool).
Context {T : Type} `{!StreamTranscoder T}.
Variable exec : Executor.
Variable dec : decoders.
Variable env : @environment U.
Variable job : @Job U T.

Abbreviation run_attempt := (run_attempt ID pool exec dec env job).

(** The adapter behind an execution's panic. *)
Lemma panicking_attempt (k : nat) :
  Candidates job <> [] -> (forall i, 1 <= i < Z.of_nat (S k) -> exists e, run_attempt i = Loop.Ended (Some e)) ->
  run_attempt (Z.of_nat (S k)) = Loop.AttemptPanicked -> exists c q, forward env (Z.of_nat (S k)) c q = FPanic.
Proof.
  intros Hne Hgo Hrun. assert (walked_to ID pool exec dec env job k) as [(hi & Hhi & Hok) _ _ _].
  { assert (forall m : nat, (m <= k)%nat -> walked_to ID pool exec dec env job m) as H; [|by apply H].
    induction m as [|m IH]; intros Hm; [by apply walked_start|].
    destruct (Hgo (Z.of_nat (S m)) ltac:(lia)) as [e He]. eapply walked_step; [apply IH; lia|exact He]. }
  pose proof (states_step ID pool exec dec env job (Z.of_nat (S k)) ltac:(lia)) as Hs.
  replace (Z.to_nat (Z.of_nat (S k) - 1)) with k in Hs by lia. apply (f_equal fst) in Hs. cbn [fst] in Hs. rewrite Hrun in Hs.
  symmetry in Hs. by eapply attempt_panics; [exact Hok| |exact Hs]; lia.
Qed.

(** C5. One response per request.  Over upstreams that answer with final HTTP
    statuses (200 to 599), whatever the breaker, the bulkhead, the timers, the
    retry budget and the client do, the execution always ends.  It panics only
    where an adapter did, and nothing is written then; otherwise it wrote
    exactly one response, which reached the client's wire under the status and
    in the streaming mode the result reports, or nothing at all, and then the
    client had gone. *)
Theorem executes_one_response (around : Loop.environment) (budget : option Budget.Budget) :
  (forall n c q, clean_result (forward env n c q)) -> (forall n c q, final_result (forward env n c q)) -> clean_loop around ->
  exists x, Execute ID pool exec dec env job around budget = Some x /\
  match x with
  | ExecutionPanicked r => out r = [] /\ exists n c q, forward env n c q = FPanic
  | Executed res r => one_response (jWire job) (out r) res \/ out r = [] /\ ClientGone res = true
  end.
Proof.
  intros Hclean Hfinal Hloop. destruct (decide (Candidates job = [])) as [Hnil|Hne].
  { unfold Execute. rewrite Hnil. eexists. split; [done|]. left. do 2 eexists. by split_and!. }
  destruct (execution_finishes ID pool exec dec env job Hclean Hfinal around budget Hloop Hne) as (x & Hx & H). exists x. split; [done|].
  destruct x as [res r|r].
  - destruct H as (_ & r0 & err & Hk & Hf & Hp). by eapply finished_response.
  - destruct H as (Hout & k & Hrun & Hgo). split; [done|]. exists (Z.of_nat (S k)). by apply panicking_attempt.
Qed.
End props.

Lemma answer_final (n : Z) (c : string) (q : Request) : final_result (Scenario.answer n c q).
Proof. unfold Scenario.answer, final_result, final_status. destruct (String.eqb c "first"); cbn; lia. Qed.

Lemma executes_one_response_witness :
  exists res r, Scenario.execution_of (Scenario.gateway Scenario.answer (fun _ => [])) false = Some (Executed res r) /\
    Status res = 200 /\ one_response FormatOpenAIChat (out r) res.
Proof.
  destruct (executes_one_response (fun u => u) (fun _ => false) Scenario.executor Scenario.codec
    (Scenario.gateway Scenario.answer (fun _ => [])) (Scenario.request false) Scenario.calm None Scenario.answer_clean answer_final)
    as (x & Hx & H); [by split|].
  assert (Scenario.summary (Some x) = Some (200, 2, [200])) as Hs by (rewrite <- Hx; by vm_compute).
  destruct x as [res r|r]; [|done]. injection Hs as Hst _ Hout. exists res, r.
  split_and!; [exact Hx|done|]. destruct H as [H|[H _]]; [exact H|by rewrite H in Hout].
Defined.

(** An upstream error below 100 on the Messages wire, whose writer does not
    clamp it: net/http refuses the status and the execution panics behind the
    tee that recorded it.  The other wires answer 502. *)
Definition below_hundred (format : string) : option execution :=
  Execute (fun u => u) (fun _ => false) Scenario.executor Scenario.codec
    (Scenario.gateway (fun _ _ _ => FResponse (Scenario.reply 42 "odd")) (fun _ => []))
    (mkJob "gpt" false "{}" "id-1" ["first"%string] [] None format None) Scenario.calm None.

Example messages_status_refused :
  match below_hundred FormatAnthropicMessages with
  | Some (ExecutionPanicked r) => map (event_status FormatAnthropicMessages) (out r) = [42]
  | _ => False
  end.
Proof. by vm_compute. Qed.

Example chat_status_clamped :
  match below_hundred FormatOpenAIChat with
  | Some (Executed res r) => Status res = 42 /\ map (event_status FormatOpenAIChat) (out r) = [502]
  | _ => False
  end.
Proof. by vm_compute. Qed.
End ResponseProps.
