(* ===== verification/Pipeline.v ===== *)
(** * The request chain (internal/pipeline)

    A stage is a function on the state of one request: the shared backends
    ([Sys], left to the stages that use them), the per-request carrier, the
    response headers and writes so far, the access log.  A stage returns or
    panics; a deferred call runs on both ends.  The JSON decoders, the
    identity store's answer and the drawn request id are arguments, as is
    what the client sent. *)
From Stdlib Require Import Ascii QArith.
From stdpp Require Import base numbers gmap strings list.
From S2P Require Import Prelude Stream Text Protocol Tokens Auth AuthCache Relay.
Import GoInt Text.Text Tokens.Tokens Schema Estimate.
Local Open Scope Z_scope.

(** ** The carrier (carrier.go, estimate.go) *)
Module Carrier.
Import Static.

Definition SourceCache : string := "cache".
Definition SourceSharedFetch : string := "shared-fetch".

(** [promptTokens] is [None] until the first use. *)
Record Carrier := mkCarrier {
  cTenant : Tenant; RequestID : string; Format : string; Body : string; Chat : ChatRequest;
  ChatErr : option string; ChatSet : bool; UpstreamBody : string; cTokens : Z; promptTokens : option Z;
  Consumed : Z; CacheHit : bool; ServedBy : string; RejectCode : string; cRelay : option Relay.Result
}.

Definition no_tier : Limits.Tier := Limits.mkTier "" 0 0 0 0 [] [] ∅ 0.
Definition no_tenant : Tenant := mkTenant "" "" "" "" no_tier.
Definition no_chat : ChatRequest := mkChat "" false [] None None None None.

Definition new_carrier : Carrier :=
  mkCarrier no_tenant "" "" "" no_chat None false "" 0 None 0 false "" "" None.

Definition set_tenant (v : Tenant) (c : Carrier) : Carrier :=
  mkCarrier v (RequestID c) (Format c) (Body c) (Chat c) (ChatErr c) (ChatSet c) (UpstreamBody c) (cTokens c)
    (promptTokens c) (Consumed c) (CacheHit c) (ServedBy c) (RejectCode c) (cRelay c).
Definition set_request_id (v : string) (c : Carrier) : Carrier :=
  mkCarrier (cTenant c) v (Format c) (Body c) (Chat c) (ChatErr c) (ChatSet c) (UpstreamBody c) (cTokens c)
    (promptTokens c) (Consumed c) (CacheHit c) (ServedBy c) (RejectCode c) (cRelay c).
Definition set_format (v : string) (c : Carrier) : Carrier :=
  mkCarrier (cTenant c) (RequestID c) v (Body c) (Chat c) (ChatErr c) (ChatSet c) (UpstreamBody c) (cTokens c)
    (promptTokens c) (Consumed c) (CacheHit c) (ServedBy c) (RejectCode c) (cRelay c).
Definition set_tokens (v : Z) (c : Carrier) : Carrier :=
  mkCarrier (cTenant c) (RequestID c) (Format c) (Body c) (Chat c) (ChatErr c) (ChatSet c) (UpstreamBody c) v
    (promptTokens c) (Consumed c) (CacheHit c) (ServedBy c) (RejectCode c) (cRelay c).
Definition set_prompt (v : option Z) (c : Carrier) : Carrier :=
  mkCarrier (cTenant c) (RequestID c) (Format c) (Body c) (Chat c) (ChatErr c) (ChatSet c) (UpstreamBody c)
    (cTokens c) v (Consumed c) (CacheHit c) (ServedBy c) (RejectCode c) (cRelay c).
Definition set_consumed (v : Z) (c : Carrier) : Carrier :=
  mkCarrier (cTenant c) (RequestID c) (Format c) (Body c) (Chat c) (ChatErr c) (ChatSet c) (UpstreamBody c)
    (cTokens c) (promptTokens c) v (CacheHit c) (ServedBy c) (RejectCode c) (cRelay c).
Definition set_reject (v : string) (c : Carrier) : Carrier :=
  mkCarrier (cTenant c) (RequestID c) (Format c) (Body c) (Chat c) (ChatErr c) (ChatSet c) (UpstreamBody c)
    (cTokens c) (promptTokens c) (Consumed c) (CacheHit c) (ServedBy c) v (cRelay c).
Definition set_relay (v : Relay.Result) (c : Carrier) : Carrier :=
  mkCarrier (cTenant c) (RequestID c) (Format c) (Body c) (Chat c) (ChatErr c) (ChatSet c) (UpstreamBody c)
    (cTokens c) (promptTokens c) (Consumed c) (CacheHit c) (ServedBy c) (RejectCode c) (Some v).

(** A reply replayed from [source] consumed nothing. *)
Definition replayed_from (source : string) (c : Carrier) : Carrier :=
  mkCarrier (cTenant c) (RequestID c) (Format c) (Body c) (Chat c) (ChatErr c) (ChatSet c) (UpstreamBody c)
    (cTokens c) (promptTokens c) 0 true source (RejectCode c) (cRelay c).

(** The first reader sets the body, once. *)
Definition SetBody (body : string) (chat : ChatRequest) (upstreamBody : string) (err : option string) (c : Carrier)
  : Carrier :=
  if ChatSet c then c
  else mkCarrier (cTenant c) (RequestID c) (Format c) body chat err true upstreamBody (cTokens c) (promptTokens c)
         (Consumed c) (CacheHit c) (ServedBy c) (RejectCode c) (cRelay c).

Definition PromptTokens (c : Carrier) : Z * Carrier :=
  match promptTokens c with
  | Some n => (n, c)
  | None => let n := promptEstimate (Chat c) in (n, set_prompt (Some n) c)
  end.

Definition ReserveTokens (maxRequestTokens : Z) (c : Carrier) : Z * Carrier :=
  let (n, c) := PromptTokens c in (addSaturating n (completionEstimate (Chat c) maxRequestTokens), c).

Definition EstimatePartialTokens (streamBytes : Z) (c : Carrier) : Z * Carrier :=
  let (n, c) := PromptTokens c in (partial_tokens n streamBytes, c).
End Carrier.

(** ** What the client sees *)
Module Reply.
Import Wire Relay.
Export Formats.

(** A write on the response: an event of a format's wire, or stored bytes. *)
Inductive reply := Rendered (format : string) (e : client_event) | Replayed (r : rendered).

Definition reply_status (r : reply) : Z :=
  match r with Rendered format e => event_status format e | Replayed r => rStatus r end.

(** The [Status] of a tee around these writes: zero before the first.  A
    status net/http refuses is recorded before the write panics. *)
Definition Status (out : list reply) : Z := match out with [] => 0 | r :: _ => reply_status r end.
End Reply.

(** ** Stages *)
Module Chain.
Import Carrier Reply Relay Static Cached.

(** What the client sent: header values, empty when absent, and the body. *)
Inductive body_read := Arrives (body : string) | Unreadable.
Record request := mkRequest {
  authorization : string; x_api_key : string; x_request_id : string; reqBody : body_read
}.

(** One access log line; its instants and the route are left out. *)
Record Entry := mkEntry {
  eTenant : string; eKey : string; eRequestID : string; eModel : string; eUpstream : string; eStatus : Z;
  eCacheHit : bool; eTokens : Z; eStreamed : bool; eErrorCode : string; eAttempts : list AttemptTrace
}.

Inductive exit := Done | Panicked.

Section chain.
Context {Sys : Type}.

Record st := mkSt {
  sys : Sys; car : option Carrier; hdr : gmap string string; out : list reply; access : list Entry; inflight : Z
}.
Definition handler := st -> exit * st.
Definition Middleware := handler -> handler.

Definition set_sys (v : Sys) (s : st) : st := mkSt v (car s) (hdr s) (out s) (access s) (inflight s).
Definition set_car (v : Carrier) (s : st) : st := mkSt (sys s) (Some v) (hdr s) (out s) (access s) (inflight s).
Definition set_header (name v : string) (s : st) : st :=
  mkSt (sys s) (car s) (<[name := v]> (hdr s)) (out s) (access s) (inflight s).
Definition write (r : reply) (s : st) : st := mkSt (sys s) (car s) (hdr s) (out s ++ [r]) (access s) (inflight s).
Definition record (e : Entry) (s : st) : st := mkSt (sys s) (car s) (hdr s) (out s) (access s ++ [e]) (inflight s).
Definition inflight_add (n : Z) (s : st) : st := mkSt (sys s) (car s) (hdr s) (out s) (access s) (inflight s + n).

(** [Chain]: the first listed stage runs outermost. *)
Fixpoint wrap_from (stages : list Middleware) (final : handler) : handler :=
  match stages with [] => final | stage :: stages => wrap_from stages (stage final) end.
Definition Chain (stages : list Middleware) : Middleware := fun final => wrap_from (rev stages) final.

(** [protocol.WriteError] and the wire's [RenderError]. *)
Definition WriteError (status : Z) (code : string) (s : st) : st := write (Rendered "" (RenderError status code)) s.
Definition RenderError (c : Carrier) (status : Z) (code : string) (s : st) : st :=
  write (Rendered (Format c) (Relay.RenderError status code)) s.

(** A governance rejection: the code on the carrier and on the wire. *)
Definition reject (c : Carrier) (status : Z) (code : string) (s : st) : st :=
  RenderError c status code (set_car (set_reject code c) s).

Definition RequireCarrier (k : Carrier -> handler) : handler := fun s =>
  match car s with
  | None => (Done, WriteError 500 "pipeline_misconfigured" s)
  | Some c => k c s
  end.

Definition CarrierStage : Middleware := fun next s => next (set_car new_carrier s).

(** *** Correlation (requestid.go) *)
Definition RequestIDHeader : string := "X-Request-Id".
Definition requestIDPrefix : string := "req-".

Definition matches_id (candidate : string) : bool :=
  let s := bytes_of candidate in
  (8 <=? Z.of_nat (length s)) && (Z.of_nat (length s) <=? 128) && forallb (within 33 126) s.

Definition hex_digit (n : Z) : ascii := ascii_of_nat (Z.to_nat (if n <? 10 then 48 + n else 87 + n)).
Definition EncodeToString (buf : bytes) : string :=
  String.string_of_list_ascii (flat_map (fun c => [hex_digit (Z.shiftr (code c) 4); hex_digit (Z.land (code c) 15)]) buf).

(** [drawn] is what the entropy source delivered. *)
Definition mintRequestID (drawn : option bytes) : string :=
  match drawn with
  | None => requestIDPrefix +:+ "entropy-fallback"
  | Some buf => requestIDPrefix +:+ EncodeToString buf
  end.

Definition adoptRequestID (drawn : option bytes) (candidate : string) : string :=
  if matches_id candidate then candidate else mintRequestID drawn.

Definition RequestIDStage (drawn : option bytes) (req : request) : Middleware := fun next s =>
  let id := adoptRequestID drawn (x_request_id req) in
  let s := set_header RequestIDHeader id s in
  next (match car s with Some c => set_car (set_request_id id c) s | None => s end).

Definition FormatStage (format : string) : Middleware := fun next s =>
  next (match car s with Some c => set_car (set_format format c) s | None => s end).

(** *** The body (body.go) *)
Section body.
(** The three decoders: the canonical request, and the translations. *)
Variable ParseChatRequest : string -> ChatRequest + string.
Variable ingestResponses ingestAnthropic : string -> (ChatRequest * string) + string.
Variable req : request.

(** [protocol.Ingest]: the chat and the bytes to forward. *)
Definition Ingest (format body : string) : (ChatRequest * string) + string :=
  if String.eqb format FormatOpenAIResponses then ingestResponses body
  else if String.eqb format FormatAnthropicMessages then ingestAnthropic body
  else match ParseChatRequest body with inl chat => inl (chat, body) | inr e => inr e end.

(** [false] means the response is already written. *)
Definition EnsureBody (c : Carrier) (s : st) : bool * st :=
  if ChatSet c then
    match ChatErr c with
    | Some _ => (false, RenderError c 400 "invalid_request" s)
    | None => (true, s)
    end
  else match reqBody req with
  | Unreadable => (false, RenderError c 400 "invalid_request" s)
  | Arrives body =>
      if MaxBodyBytes <? Z.of_nat (String.length body)
      then (false, RenderError c 413 "request_too_large" s)
      else match Ingest (Format c) body with
      | inl (chat, upstream) => (true, set_car (SetBody body chat upstream None c) s)
      | inr e => (false, RenderError c 400 "invalid_request" (set_car (SetBody body no_chat "" (Some e) c) s))
      end
  end.

(** *** Identity and model authorisation (authstage.go, authzstage.go) *)
Definition bearerPrefix : string := "Bearer ".

Definition apiKeyOf : option string :=
  match Reader.cut_prefix (bytes_of bearerPrefix) (bytes_of (authorization req)) with
  | Some raw =>
      let key := TrimSpace (String.string_of_list_ascii raw) in
      if String.eqb key "" then None else Some key
  | None =>
      let key := TrimSpace (x_api_key req) in if String.eqb key "" then None else Some key
  end.

(** [renderFor] behind the stamp of [reject]; without a carrier the
    canonical envelope. *)
Definition refuse (status : Z) (code : string) (s : st) : st :=
  match car s with Some c => reject c status code s | None => WriteError status code s end.

(** [answer] is what [store.Resolve] returned for the key. *)
Definition AuthStage (answer : string -> resolution) : Middleware := fun next s =>
  match apiKeyOf with
  | None => (Done, refuse 401 "missing_api_key" s)
  | Some key =>
      match answer key with
      | Denied => (Done, refuse 401 "invalid_api_key" s)
      | Failed _ => (Done, refuse 503 "identity_unavailable" s)
      | Found tenant =>
          match car s with
          | None => (Done, WriteError 500 "pipeline_misconfigured" s)
          | Some c => next (set_car (set_tenant tenant c) s)
          end
      end
  end.

Definition AuthorizeModel (c : Carrier) (s : st) : bool * st :=
  let (ok, s) := EnsureBody c s in
  if negb ok then (false, s)
  else match car s with
  | None => (false, s)
  | Some c =>
      if String.eqb (Model (Chat c)) "" then (false, RenderError c 400 "invalid_request" s)
      else if negb (String.eqb (tID (cTenant c)) "") && negb (Limits.AllowsModel (tTier (cTenant c)) (Model (Chat c)))
      then (false, reject c 403 "model_not_allowed" s)
      else (true, s)
  end.

Definition ModelAuthzStage : Middleware := fun next => RequireCarrier (fun c s =>
  let (ok, s) := AuthorizeModel c s in if negb ok then (Done, s) else next s).
End body.

(** *** Panic containment (recovery.go) *)
Definition RecoveryStage : Middleware := fun next s =>
  match next s with
  | (Done, s) => (Done, s)
  | (Panicked, s) =>
      if negb (Reply.Status (out s) =? 0) then (Done, s)
      else
        let format := match car s with Some c => Format c | None => FormatOpenAIChat end in
        (Done, write (Rendered format (Relay.RenderError 500 "internal_error")) s)
  end.

(** *** Observation (obsmiddleware.go) *)
Definition StatusClientClosedRequest : Z := 499.

Definition failed_result (r : Result) : bool := (Relay.Status r <? 200) || (299 <? Relay.Status r) || Aborted r.

(** The line of a finished request. *)
Definition entry_of (s : st) : Entry :=
  let status := Reply.Status (out s) in
  let status := if status =? 0 then StatusClientClosedRequest else status in
  match car s with
  | None => mkEntry "" "" "" "" "-" status false 0 false "" []
  | Some c =>
      let upstream := if negb (String.eqb (ServedBy c) "") then ServedBy c else "-"%string in
      match cRelay c with
      | None => mkEntry (tID (cTenant c)) (KeyID (cTenant c)) (RequestID c) (Model (Chat c)) upstream status
                  (CacheHit c) 0 false (RejectCode c) []
      | Some r =>
          let upstream := if String.eqb upstream "-" then UpstreamID r else upstream in
          let code := if String.eqb (RejectCode c) "" && failed_result r then ErrorCode r else RejectCode c in
          mkEntry (tID (cTenant c)) (KeyID (cTenant c)) (RequestID c) (Model (Chat c)) upstream status
            (CacheHit c) (Consumed c) (Streamed r) code (Trail r)
      end
  end.

(** The gauge is restored on a panic too; the line is not written then. *)
Definition ObservationStage : Middleware := fun next s =>
  match next (inflight_add 1 s) with
  | (Done, s) => (Done, inflight_add (-1) (record (entry_of s) s))
  | (Panicked, s) => (Panicked, inflight_add (-1) s)
  end.
End chain.
Arguments st : clear implicits.
Arguments handler : clear implicits.
Arguments Middleware : clear implicits.
End Chain.
