(* ===== verification/Governance.v ===== *)
(** * Governance stages (limiter, quota and cache middleware; serve.go)

    The stages that spend and give back: the concurrency slot, the rate
    budget, the quota lease, the cache.  The limiter and the ledger are the
    ports the stages see, with the in-process backends of Limiter.v and
    Quota.v as instances; the gate and the store are the components
    themselves.  [acts] records the calls on the backends in order.
    [inferenceChain] is the chain of the composition root. *)
From Stdlib Require Import Ascii QArith.
From stdpp Require Import base numbers gmap pretty strings list.
From S2P Require Import Prelude Limiter Quota Cache Stream Protocol Tokens Auth AuthCache Relay Pipeline.
Import GoInt Tokens.Tokens Schema Estimate.
Local Open Scope Z_scope.

(** ** The ports (limiter.go, quota.go) *)
Module Ports.
Import Memory.

(** [Allow] answers [None] when the backend is down. *)
Class Limiter (L : Type) := {
  Allow : Z -> string -> Limits -> Z -> L -> option Decision * L;
  Refund : Z -> string -> Limits -> Z -> L -> L
}.

Inductive reserve_error := Refused (e : Ledger.quota_error) | BackendDown.

(** The errors of [Settle] and [Cancel] are only logged. *)
Class LedgerPort (D : Type) := {
  Reserve : Z -> string -> string -> Z -> D -> (Ledger.Lease + reserve_error) * D;
  Settle : Z -> string -> Z -> D -> D;
  Cancel : Z -> string -> D -> D
}.

#[export] Instance memory_limiter : Limiter Memory := {
  Allow now t l want m := let (m, d) := Memory.Allow now t l want m in (Some d, m);
  Refund now t l back m := Memory.Refund now t l back m
}.

#[export] Instance memory_ledger : LedgerPort Ledger.Memory := {
  Reserve now id t amount m :=
    match Ledger.Reserve now id t amount m with
    | (inl l, m) => (inl l, m)
    | (inr e, m) => (inr (Refused e), m)
    end;
  Settle now id used m := (Ledger.Settle now id used m).2;
  Cancel now id m := (Ledger.Cancel now id m).2
}.

(** What a request relies on, in a sound ledger and for an id no lease
    has: an open lease holds its amount, settling gives the unused rest back,
    cancelling gives everything back, and a refusal moves nothing. *)
Class LedgerLaws (D : Type) `{LedgerPort D} := {
  ledger_ok : D -> Prop;
  unused : string -> D -> Prop;
  balance : string -> D -> Z;
  holds : string -> string -> Z -> D -> Prop;
  reserve_holds now id t amount q l q' :
    ledger_ok q -> unused id q -> 0 <= amount -> Reserve now id t amount q = (inl l, q') ->
    Ledger.ID l = id /\ ledger_ok q' /\ balance t q' = balance t q - amount /\ holds id t amount q' /\
    forall u, u <> t -> balance u q' = balance u q;
  reserve_refused now id t amount q e q' :
    ledger_ok q -> unused id q -> 0 <= amount -> Reserve now id t amount q = (inr e, q') -> q' = q;
  settle_holds now id t amount used q :
    ledger_ok q -> 0 <= used -> in_int64 used -> holds id t amount q ->
    balance t (Settle now id used q) = balance t q + Z.max 0 (amount - used) /\
    forall u, u <> t -> balance u (Settle now id used q) = balance u q;
  cancel_holds now id t amount q :
    ledger_ok q -> holds id t amount q ->
    balance t (Cancel now id q) = balance t q + amount /\
    forall u, u <> t -> balance u (Cancel now id q) = balance u q
}.
End Ports.

Module Governance.
Import Wire Relay Ports Carrier Reply Chain Static.

(** The calls a request makes on the backends. *)
Inductive act :=
  | SlotTaken (ok : bool) | SlotGiven
  | Asked (tokens : Z) (verdict : option bool) | Refunded (tokens : Z)
  | Reserved (amount : Z) (lease : option string) | Settled (lease : string) (used : Z) | Cancelled (lease : string)
  | LookedUp (hit : bool) | Stored (key : string) (e : Store.Entry) (ttl : Z)
  | Forwarded.

Section governance.
Context {L D X : Type} `{!Limiter L} `{!LedgerPort D}.

(** [endpoint] is the state of the routing plane behind the chain. *)
Record backends := mkBackends {
  limiter : L; ledger : D; gate : Concurrency.Gate; store : Store.Memory; endpoint : X; acts : list act
}.

Abbreviation st := (st backends).
Abbreviation handler := (handler backends).
Abbreviation Middleware := (Middleware backends).

Definition on_sys (f : backends -> backends) (s : st) : st := set_sys (f (sys s)) s.
Definition set_limiter (v : L) (b : backends) : backends :=
  mkBackends v (ledger b) (gate b) (store b) (endpoint b) (acts b).
Definition set_ledger (v : D) (b : backends) : backends :=
  mkBackends (limiter b) v (gate b) (store b) (endpoint b) (acts b).
Definition set_gate (v : Concurrency.Gate) (b : backends) : backends :=
  mkBackends (limiter b) (ledger b) v (store b) (endpoint b) (acts b).
Definition set_store (v : Store.Memory) (b : backends) : backends :=
  mkBackends (limiter b) (ledger b) (gate b) v (endpoint b) (acts b).
Definition set_endpoint (v : X) (b : backends) : backends :=
  mkBackends (limiter b) (ledger b) (gate b) (store b) v (acts b).
Definition note (a : act) (b : backends) : backends :=
  mkBackends (limiter b) (ledger b) (gate b) (store b) (endpoint b) (acts b ++ [a]).
Definition noted (a : act) (s : st) : st := on_sys (note a) s.

(** How the flight of the request's key ended for it: it runs the fetch
    itself, or it waited on another request's. *)
Inductive flight_role := Starter | Waiter (r : Store.Entry + string).

(** Clock readings, drawn values, what the other requests did. *)
Record surroundings := mkSurroundings {
  allow_at : Z; refund_at : Z; reserve_at : Z; settle_at : Z; lease_id : string;
  get_at : Z; set_at : Z; set_draw : Q; set_order : list string; role : flight_role; gone : bool
}.

(** The decoders, hashes and encoders of the standard library. *)
Record codecs := mkCodecs {
  parse_chat : string -> ChatRequest + string;
  ingest_responses : string -> (ChatRequest * string) + string;
  ingest_anthropic : string -> (ChatRequest * string) + string;
  hash : string -> Z; sha256_hex : string -> string; parse_media : string -> option string;
  encode_error : string -> string; encode_abort : string -> bytes
}.

Variable env : surroundings.
Variable codec : codecs.
Variable req : request.

Abbreviation EnsureBody := (Chain.EnsureBody (parse_chat codec) (ingest_responses codec) (ingest_anthropic codec) req).

(** Reads the carrier again, after a callee wrote it. *)
Definition with_car (k : Carrier -> handler) : handler := fun s =>
  match car s with Some c => k c s | None => (Panicked, s) end.

(** The carrier a deferred call reads. *)
Definition consumed (s : st) : Z := match car s with Some c => Consumed c | None => 0 end.

(** *** Concurrency (concurrencymiddleware.go) *)
Definition concurrencyRetryAfterSeconds : Z := 1.

Definition ConcurrencyMiddleware : Middleware := fun next => RequireCarrier (fun c s =>
  let (g, acquired) := Concurrency.Acquire (tID (cTenant c)) (Limits.Concurrency (tTier (cTenant c))) (gate (sys s)) in
  let s := noted (SlotTaken (bool_decide (is_Some acquired))) (on_sys (set_gate g) s) in
  match acquired with
  | None =>
      let s := set_header "Retry-After" (pretty concurrencyRetryAfterSeconds) s in
      (Done, reject c 429 "concurrency_limit_exceeded" s)
  | Some release =>
      let (x, s) := next s in
      let g := match release with Some id => Concurrency.release id (gate (sys s)) | None => gate (sys s) end in
      (x, noted SlotGiven (on_sys (set_gate g) s))
  end).

(** *** Rate limiting (limiter/middleware.go) *)
Definition LimiterMiddleware : Middleware := fun next => RequireCarrier (fun c s =>
  let (ok, s) := EnsureBody c s in
  if negb ok then (Done, s)
  else with_car (fun c s =>
    let tier := tTier (cTenant c) in
    let limits := Memory.mkLimits (Limits.RPM tier) (Limits.TPM tier) in
    let (tokens, c) := ReserveTokens (Limits.MaxTokens tier) c in
    let s := set_car c s in
    let (decision, l) := Allow (allow_at env) (tID (cTenant c)) limits tokens (limiter (sys s)) in
    let s := noted (Asked tokens (option_map Memory.Allowed decision)) (on_sys (set_limiter l) s) in
    match decision with
    | None => (Done, reject c 503 "governance_unavailable" s)
    | Some d =>
        if negb (Memory.Allowed d) then
          let s := set_header "Retry-After" (pretty (Memory.retryAfterSeconds (Memory.RetryAfter d))) s in
          (Done, reject c 429 "rate_limit_exceeded" s)
        else
          let (x, s) := next (set_car (set_tokens tokens c) s) in
          let refund := wrap64 (tokens - consumed s) in
          (x, if 0 <? refund
              then noted (Refunded refund)
                     (on_sys (fun b => set_limiter (Refund (refund_at env) (tID (cTenant c)) limits refund (limiter b)) b) s)
              else s)
    end) s).

(** *** Quota (quota/middleware.go) *)

(** The deferred settlement of the lease. *)
Definition settle (lease : string) (s : st) : st :=
  if consumed s <=? 0
  then noted (Cancelled lease) (on_sys (fun b => set_ledger (Cancel (settle_at env) lease (ledger b)) b) s)
  else noted (Settled lease (consumed s))
         (on_sys (fun b => set_ledger (Settle (settle_at env) lease (consumed s) (ledger b)) b) s).

Definition QuotaMiddleware : Middleware := fun next => RequireCarrier (fun c s =>
  let (amount, c) :=
    if cTokens c <=? 0
    then let (n, c) := ReserveTokens (Limits.MaxTokens (tTier (cTenant c))) c in (n, set_tokens n c)
    else (cTokens c, c) in
  let s := set_car c s in
  let (lease, q) := Reserve (reserve_at env) (lease_id env) (tID (cTenant c)) amount (ledger (sys s)) in
  let s := noted (Reserved amount (match lease with inl l => Some (Ledger.ID l) | inr _ => None end))
             (on_sys (set_ledger q) s) in
  match lease with
  | inr (Refused Ledger.ErrInsufficientBalance) => (Done, reject c 402 "insufficient_quota" s)
  | inr (Refused Ledger.ErrUnknownTenant) => (Done, reject c 503 "quota_not_provisioned" s)
  | inr _ => (Done, reject c 503 "governance_unavailable" s)
  | inl l => let (x, s) := next s in (x, settle (Ledger.ID l) s)
  end).

(** *** The cache (cache/middleware.go) *)
Definition maxCacheableBytes : Z := Z.shiftl 8 20.

(** What the canonical wire writes for a reply. *)
Definition canonical (r : reply) : rendered :=
  match r with
  | Replayed r => r
  | Rendered _ (RenderSuccess snap) | Rendered _ (RenderUpstreamError snap) =>
      renderExchangeBody (parse_media codec) (sStatus snap) (sHeader snap) (sBody snap) passthroughHeaderNames
  | Rendered _ (Relay.RenderError status code) =>
      mkRendered status {["Content-Type" := "application/json"]} (encode_error codec code)
  | Rendered _ (StreamHead ct cc) =>
      mkRendered 200 (let h := {["Content-Type" := ct]} in match cc with Some v => <["Cache-Control" := v]> h | None => h end) ""
  | Rendered _ (StreamData d) => mkRendered 200 ∅ (String.string_of_list_ascii d)
  | Rendered _ (StreamAbort code) => mkRendered 200 ∅ (String.string_of_list_ascii (encode_abort codec code))
  end.

(** The tee of the stage: the writes behind it. *)
Definition behind (s0 s : st) : list reply := drop (length (out s0)) (out s).

Definition body_of (out : list reply) : string := foldr (fun r acc => rBody (canonical r) +:+ acc) "" out.
Definition Truncated (out : list reply) : bool := maxCacheableBytes <? Z.of_nat (String.length (body_of out)).

Definition capture (s0 s : st) : Store.Entry :=
  let out := behind s0 s in
  let header := foldr (fun r acc => acc ∪ rHeader (canonical r)) (hdr s) out in
  Store.mkEntry (Reply.Status out) ((fun v => [v]) <$> header)
    (if Truncated out then String.substring 0 (Z.to_nat maxCacheableBytes) (body_of out) else body_of out).

Definition replay (e : Store.Entry) (s : st) : st :=
  let h : Header := omap head (Store.Header e) in
  write (Replayed (mkRendered (Store.Status e)
    (<["Content-Type" := ForwardedContentType (parse_media codec) (get "Content-Type" h) PlainContentType]>
      (copy_headers h passthroughHeaderNames)) (Store.Body e))) s.

Definition storeWorthy (s0 s : st) : bool :=
  let status := Reply.Status (behind s0 s) in
  (200 <=? status) && (status <? 300) && negb (Truncated (behind s0 s)).

Definition relayAborted (s : st) : bool :=
  match car s with Some c => match cRelay c with Some r => Aborted r | None => false end | None => false end.

Definition storeWorthyFromEntry (e : Store.Entry) : bool :=
  (200 <=? Store.Status e) && (Store.Status e <? 300) && (Z.of_nat (String.length (Store.Body e)) <=? maxCacheableBytes).

Definition negativelyCacheable (e : Store.Entry) (s : st) : bool :=
  match car s with
  | None => false
  | Some c =>
      match cRelay c with
      | None => false
      | Some r =>
          if negb (String.eqb (ServedBy c) "") || String.eqb (UpstreamID r) "" then false
          else if (400 <=? Store.Status e) && (Store.Status e <=? 507) then true
          else if (200 <=? Store.Status e) && (Store.Status e <? 300) then String.eqb (Store.Body e) "" else false
      end
  end.

Definition sampling_of (chat : ChatRequest) : Eligibility.sampling :=
  Eligibility.mkSampling (Temperature chat) (TopP chat) (N chat).

(** [store.Set]. *)
Definition keep (key : string) (e : Store.Entry) (ttl : Z) (s : st) : st :=
  noted (Stored key e ttl)
    (on_sys (fun b => set_store (Store.Set_ (hash codec) (set_at env) (set_draw env) (set_order env) key e ttl (store b)) b) s).

(** The shared fetch of a starter; [next] already ran from [s0]. *)
Definition shared_fetch (ttl : Z) (key : string) (c : Carrier) (s0 s : st) : st :=
  let status := Reply.Status (behind s0 s) in
  if (status <? 100) || (599 <? status) || Truncated (behind s0 s) then
    if (status <? 100) && negb (gone env) then RenderError c 502 "upstream_unreachable" s else s
  else
    let e := capture s0 s in
    if storeWorthyFromEntry e then keep key e ttl s
    else if negativelyCacheable e s then keep key e (Z.quot ttl 10) s else s.

Definition CacheMiddleware (ttl : Z) : Middleware := fun next => RequireCarrier (fun c s =>
  let (ok, s) := EnsureBody c s in
  if negb ok then (Done, s)
  else with_car (fun c s =>
    if negb (String.eqb (Format c) FormatOpenAIChat) || negb (Eligibility.Eligible (sampling_of (Chat c))) then next s
    else
      let key := sha256_hex codec (Body c) in
      let (hit, m) := Store.Get (hash codec) (get_at env) key (store (sys s)) in
      let s := noted (LookedUp (bool_decide (is_Some hit))) (on_sys (set_store m) s) in
      match hit with
      | Some e => (Done, set_car (replayed_from SourceCache c) (replay e s))
      | None =>
          if Schema.Stream (Chat c) then
            match next s with
            | (Panicked, s') => (Panicked, s')
            | (Done, s') => (Done, if storeWorthy s s' && negb (relayAborted s') then keep key (capture s s') ttl s' else s')
            end
          else match role env with
          | Starter =>
              match next s with
              | (Panicked, s') => (Panicked, s')
              | (Done, s') => (Done, shared_fetch ttl key c s s')
              end
          | Waiter (inr _) => (Done, if gone env then s else RenderError c 502 "upstream_unreachable" s)
          | Waiter (inl e) => (Done, set_car (replayed_from SourceSharedFetch c) (replay e s))
          end
      end) s).

(** ** The chain (cmd/breakwater/serve.go) *)

(** [buildGovernance]: without an identity store only the observation. *)
Definition governance_stages (identity : option (string -> Cached.resolution)) (cache : option Z) : list Middleware :=
  ObservationStage ::
  match identity with
  | None => []
  | Some answer =>
      [AuthStage req answer;
       ModelAuthzStage (parse_chat codec) (ingest_responses codec) (ingest_anthropic codec) req;
       ConcurrencyMiddleware; LimiterMiddleware; QuotaMiddleware] ++
      match cache with Some ttl => [CacheMiddleware ttl] | None => [] end
  end.

Definition inferenceChain (drawn : option bytes) (format : string) (governance : list Middleware) : Middleware :=
  fun endpoint => Chain ([CarrierStage; RequestIDStage drawn req; FormatStage format] ++ governance ++ [RecoveryStage]) endpoint.
End governance.
Arguments backends : clear implicits.
End Governance.
