(* ===== verification/Inference.v ===== *)
(** * The inference endpoint (internal/server: inference.go)

    The handler behind the governance chain: the last authorisation, the
    candidates of Router.v, the context pre-filter, the affinity head of
    Affinity.v, the execution of Relay.v and the settlement of what it
    consumed.  The routing plane is shared with the other requests: each
    look at it (the primary model's, and one per fallback model the relay
    resolves) finds the breakers and the index as they are then. *)
From stdpp Require Import base numbers gmap strings list.
From S2P Require Import Prelude Circuit CircuitPort Router Affinity Retry Stream Tokens Auth Upstream Relay Pipeline Governance.
Import GoInt Tokens.Tokens Schema.
Local Open Scope Z_scope.

Module Inference.
Import Carrier Reply Chain Static Governance Priority.

(** The state of the routing plane a request reads and moves. *)
Record plane (B : Type) := mkPlane { breaker : option B; index : option Affinity.Index }.
Arguments mkPlane {B}.
Arguments breaker {B}.
Arguments index {B}.

Definition overContext (limits : gmap string Z) (model : string) (inputTokens : Z) : bool :=
  match limits !! model with Some limit => (0 <? limit) && (limit <? inputTokens) | None => false end.

(** [candidatesRejection]: the status and the code. *)
Definition candidatesRejection (err : route_error) : Z * string :=
  match err with
  | ErrDisabled => (403, "model_disabled")
  | ErrUnavailable => (503, "circuit_open")
  | NoUpstream _ => (404, "model_not_found")
  end.

(** [settleConsumption]: the consumption ladder of a completed exchange. *)
Definition settleConsumption (result : Relay.Result) (c : Carrier) : Carrier :=
  if (Relay.Status result <? 200) || (299 <? Relay.Status result) then set_consumed 0 c
  else match Relay.rUsage result with
  | Some u =>
      if 0 <? UsageCodec.TotalTokens u then set_consumed (UsageCodec.TotalTokens u) c
      else if Relay.Streamed result
      then let (n, c) := EstimatePartialTokens (Relay.StreamBytes result) c in set_consumed n c
      else set_consumed (cTokens c) c
  | None =>
      if Relay.Streamed result
      then let (n, c) := EstimatePartialTokens (Relay.StreamBytes result) c in set_consumed n c
      else set_consumed (cTokens c) c
  end.

Section inference.
Context {U : Type} (uid : U -> string) (pool : U -> bool).
Context {B : Type} `{!Breaker B}.
Context {T : Type} `{!Pump.StreamTranscoder T}.
Context {L D : Type} `{!Ports.Limiter L} `{!Ports.LedgerPort D}.

Abbreviation sys := (backends L D (plane B)).

(** [Inference] with the relay's executor. *)
Record Inference := mkInference {
  format : string; priority : @Priority U; fallbacks : gmap string (list string); contextLimits : gmap string Z;
  exec : Relay.Executor; transcoder_of : string -> option T
}.

(** One look at the routing plane: clocks, the near-tie draw, and what the
    other requests left there. *)
Record look := mkLook { l_env : CircuitPort.env; l_tie : nat -> nat; l_now : Z; l_plane : plane B }.

(** What surrounds the execution. *)
Record exchange_env := mkExchange {
  fallback_look : string -> look; relay_env : @Relay.environment U; relay_dec : Relay.decoders;
  around : Loop.environment; budget : option Budget.Budget
}.

Definition applyAffinity (now : Z) (model prompt : string) (candidates : list U) (x : option Affinity.Index)
  : list U * option Affinity.Index :=
  match x with
  | None => (candidates, x)
  | Some _ =>
      if (length candidates <? 2)%nat then (candidates, x)
      else
        let (j, x) := Affinity.Pick now model prompt (map uid candidates) x in
        (if 0 <? j then swap_first (Z.to_nat j) candidates else candidates, x)
  end.

(** The resolver of the fallback chain: every gate the primary passed. *)
Definition resolve_fallback (i : Inference) (tenant : Tenant) (inputTokens : Z) (prompt : string)
    (looks : string -> look) (model : string) : option (list U) :=
  if negb (String.eqb (tID tenant) "") && negb (Limits.AllowsModel (tTier tenant) model) then None
  else if overContext (contextLimits i) model inputTokens then None
  else
    let l := looks model in
    match (Candidates uid (priority i) (l_env l) (l_tie l) model (breaker (l_plane l))).1 with
    | inr _ => None
    | inl cands => Some (applyAffinity (l_now l) model prompt cands (index (l_plane l))).1
    end.

Variable i : Inference.
Variable parse_chat : string -> ChatRequest + string.
Variable ingest_responses ingest_anthropic : string -> (ChatRequest * string) + string.
Variable req : request.
(** The primary's look; its plane is the shared state of the moment. *)
Variable primary : CircuitPort.env * (nat -> nat) * Z.
Variable x : exchange_env.

Definition job_of (c : Carrier) (candidates : list U) (chain : list string) (prompt : string) (inputTokens : Z)
  : @Relay.Job U T :=
  Relay.mkJob (Model (Chat c)) (Schema.Stream (Chat c)) (UpstreamBody c) (RequestID c) candidates chain
    (match chain with
     | [] => None
     | _ => Some (resolve_fallback i (cTenant c) inputTokens prompt (fallback_look x))
     end) (Format c) (transcoder_of i (Format c)).

(** The forward and what it settles. *)
Definition forward (c : Carrier) (candidates : list U) (chain : list string) (prompt : string) (inputTokens : Z)
    (s : st sys) : exit * st sys :=
  let s := noted Forwarded s in
  let emitted r s := foldl (fun s e => write (Rendered (Format c) e) s) s (Relay.out r) in
  match Relay.Execute uid pool (exec i) (relay_dec x) (relay_env x) (job_of c candidates chain prompt inputTokens)
          (around x) (budget x) with
  | Some (Relay.Executed result r) => (Done, set_car (set_relay result (settleConsumption result c)) (emitted r s))
  | Some (Relay.ExecutionPanicked r) => (Panicked, emitted r s)
  | None => (Panicked, s)
  end.

Definition route (c : Carrier) (s : st sys) : exit * st sys :=
  let p := endpoint (Chain.sys s) in
  let '(e, tie, now) := primary in
  let model := Model (Chat c) in
  let (verdict, br) := Candidates uid (priority i) e tie model (breaker p) in
  let s := on_sys (set_endpoint (mkPlane br (index p))) s in
  match verdict with
  | inr err => let (status, code) := candidatesRejection err in (Done, reject c status code s)
  | inl candidates =>
      let (inputTokens, c) := PromptTokens c in
      let s := set_car c s in
      if overContext (contextLimits i) model inputTokens then (Done, reject c 413 "context_window_exceeded" s)
      else
        let chain := default [] (fallbacks i !! model) in
        let prompt := match index p with Some _ => Estimate.PromptText (Chat c) | None => ""%string end in
        let (candidates, idx) := applyAffinity now model prompt candidates (index p) in
        let s := on_sys (set_endpoint (mkPlane br idx)) s in
        forward c candidates chain prompt inputTokens s
  end.

Definition ServeHTTP : handler sys := fun s =>
  match car s with
  | None => (Done, write (Rendered (format i) (Relay.RenderError 500 "pipeline_misconfigured")) s)
  | Some c =>
      let (ok, s) := AuthorizeModel parse_chat ingest_responses ingest_anthropic req c s in
      if negb ok then (Done, s) else with_car route s
  end.
End inference.
End Inference.
