(* ===== verification/Gateway.v ===== *)
(** * The gateway as a whole: specification and stage lemmas

    [GatewaySpec] is what a request may do to the shared backends and to its
    client; [GatewayFacts] carries it from the endpoint outwards through
    every stage of Governance.v.  The theorems are in GatewayProps.v. *)
From stdpp Require Import base numbers gmap strings list.
From S2P Require Import Prelude Circuit CircuitPort Router Affinity Retry Quota Limiter Cache Upstream Stream Tokens Auth.
From S2P Require Import AuthCache Relay RelayProps Pipeline Governance Inference.
Import GoInt Tokens.Tokens Schema.
Local Open Scope Z_scope.

Module GatewaySpec.
Import Relay RelaySpec Carrier Reply Chain Static Governance.

(** *** What a request spends, as the calls on the backends in order *)

(** Behind the lease: at most one lookup, one forward, one store, of a reply
    with a final status. *)
Inductive served : list act -> Prop :=
  | served_by (looked fwd kept : list act) :
      (looked = [] \/ exists hit, looked = [LookedUp hit]) ->
      (fwd = [] \/ fwd = [Forwarded] /\ looked <> [LookedUp true]) ->
      (kept = [] \/ (exists k e ttl, kept = [Stored k e ttl] /\ final_status (Store.Status e)) /\ looked = [LookedUp false]) ->
      served (looked ++ fwd ++ kept).

(** [used] is the consumption on the carrier when the request ends. *)
Inductive leased (used amount : Z) : list act -> Prop :=
  | lease_refused : leased used amount [Reserved amount None]
  | lease_closed (id : string) (inner : list act) :
      served inner ->
      leased used amount (Reserved amount (Some id) :: inner ++ [if used <=? 0 then Cancelled id else Settled id used]).

Definition given_back (used tokens : Z) : list act :=
  let refund := wrap64 (tokens - used) in if 0 <? refund then [Refunded refund] else [].

Inductive rated (used : Z) : list act -> Prop :=
  | rate_refused (tokens : Z) (verdict : option bool) : verdict <> Some true -> rated used [Asked tokens verdict]
  | rate_granted (tokens : Z) (lease : list act) :
      0 <= tokens -> leased used tokens lease ->
      rated used (Asked tokens (Some true) :: lease ++ given_back used tokens).

Inductive spent (used : Z) : list act -> Prop :=
  | spent_nothing : spent used []
  | spent_full : spent used [SlotTaken false]
  | spent_slot (rate : list act) : rated used rate -> spent used (SlotTaken true :: rate ++ [SlotGiven]).

(** The amount of the lease a request took. *)
Definition reservation (l : list act) : option Z :=
  head (omap (fun a => match a with Reserved n (Some _) => Some n | _ => None end) l).

(** *** What the client gets *)
Definition head_reply (r : reply) : bool := match r with Replayed _ => true | Rendered _ e => is_head e end.

Definition one_reply (out : list reply) : Prop :=
  exists h rest, out = h :: rest /\ head_reply h = true /\ Forall (fun r => head_reply r = false) rest.

(** A reply under a final status of HTTP, which net/http writes; a replay
    has the status of its entry. *)
Definition accepted (r : reply) : Prop :=
  match r with Rendered format e => final_status (event_status format e) | Replayed _ => True end.

(** The codes rendered without a stamp on the carrier. *)
Definition uncoded : list string := ["invalid_request"; "request_too_large"; "internal_error"; "upstream_unreachable"].

Section state.
Context {Sys : Type}.

(** The code of a gateway envelope is the code of the log line. *)
Definition coded (s : st Sys) : Prop :=
  forall f status code rest, out s = Rendered f (Relay.RenderError status code) :: rest ->
  eErrorCode (entry_of s) = code \/ eErrorCode (entry_of s) = "" /\ code ∈ uncoded.

(** The request of a carrier, as ingested. *)
Record same_request (c c' : Carrier) : Prop := {
  sr_tenant : cTenant c' = cTenant c; sr_id : RequestID c' = RequestID c; sr_format : Format c' = Format c;
  sr_body : Body c' = Body c; sr_chat : Chat c' = Chat c; sr_err : ChatErr c' = ChatErr c; sr_set : ChatSet c' = ChatSet c
}.

(** Before any backend answered for it. *)
Record ready (s : st Sys) (c : Carrier) : Prop := {
  rd_car : car s = Some c; rd_out : out s = []; rd_set : ChatSet c = true; rd_err : ChatErr c = None;
  rd_model : Model (Chat c) <> "";
  rd_allowed : tID (cTenant c) <> "" -> Limits.AllowsModel (tTier (cTenant c)) (Model (Chat c)) = true;
  rd_consumed : Consumed c = 0; rd_reject : RejectCode c = ""; rd_relay : cRelay c = None; rd_served : ServedBy c = ""
}.
End state.
End GatewaySpec.

(** ** The in-process ledger keeps the laws of the port *)
Module MemoryLaws.
Import Ports Ledger LedgerSpec LedgerFacts.

Definition held_by (id t : string) (amount : Z) (m : Memory) : Prop :=
  exists l, leases m !! id = Some l /\ lstate (lease l) = LeaseStateReserved /\ TenantID (lease l) = t /\ Amount (lease l) = amount.

Lemma reserve_opens now id t amount m l m' :
  ledger_wf m -> leases m !! id = None -> 0 <= amount -> Reserve now id t amount m = (inl l, m') ->
  ID l = id /\ ledger_wf m' /\ balance_of m' t = balance_of m t - amount /\ held_by id t amount m' /\
  forall u, u <> t -> balance_of m' u = balance_of m u.
Proof.
  intros Hwf Hid Ha Hres. pose proof (reserve_conserves now amount id t m Hwf Hid Ha) as [Hwf' _]. rewrite Hres in Hwf'.
  pose proof (lw_total m Hwf t) as Htot. pose proof (held_nonneg m t Hwf) as Hh. revert Hres. unfold Reserve.
  destruct (balances m !! t) as [b|] eqn:Hb; [|done]. case_decide; [done|]. intros [= <- <-].
  assert (balance_of m t = b) as Hbt by (unfold balance_of; by rewrite Hb). split_and!; [done|exact Hwf'| | |].
  - unfold balance_of at 1. cbn [balances]. rewrite lookup_insert_eq. cbn. rewrite Hbt. apply wrap64_id.
    unfold in_int64, min_int64, max_int64 in *. lia.
  - eexists. split_and!; [apply lookup_insert_eq|done..].
  - intros u Hu. unfold balance_of. cbn [balances]. by rewrite lookup_insert_ne.
Qed.

Lemma settle_closes now id t amount used m :
  ledger_wf m -> 0 <= used -> in_int64 used -> held_by id t amount m ->
  balance_of (Settle now id used m).2 t = balance_of m t + Z.max 0 (amount - used) /\
  forall u, u <> t -> balance_of (Settle now id used m).2 u = balance_of m u.
Proof.
  intros Hwf Hu Hint (l & Hl & Hst & <- & <-). pose proof (lw_amount m Hwf id l Hl).
  destruct (settle_is_finish now used id l m Hwf Hl Hst Hint) as (m' & -> & _ & _ & Hb). cbn [snd].
  split; [|intros u Hne]; rewrite Hb, finish_balance by (done || lia).
  - rewrite decide_True by done. lia.
  - rewrite decide_False by done. lia.
Qed.

Lemma cancel_closes now id t amount m :
  ledger_wf m -> held_by id t amount m ->
  balance_of (Cancel now id m).2 t = balance_of m t + amount /\
  forall u, u <> t -> balance_of (Cancel now id m).2 u = balance_of m u.
Proof.
  intros Hwf (l & Hl & Hst & <- & <-). pose proof (lw_amount m Hwf id l Hl).
  unfold Cancel. rewrite Hl, decide_False by (rewrite Hst; auto). cbn [snd].
  fold (finish LeaseStateCancelled now (Amount (lease l)) id l m).
  split; [|intros u Hne]; rewrite finish_balance by (done || lia).
  - by rewrite decide_True.
  - rewrite decide_False by done. lia.
Qed.

Lemma reserve_port now id t amount (m : Memory) l m' :
  Ports.Reserve now id t amount m = (inl l, m') -> Reserve now id t amount m = (inl l, m').
Proof. cbn. destruct (Reserve now id t amount m) as [[?|?] ?]; [by intros [= <- <-]|done]. Qed.

Lemma refusal_moves_nothing now id t amount (m : Memory) e m' :
  Ports.Reserve now id t amount m = (inr e, m') -> m' = m.
Proof. cbn. unfold Reserve. destruct (balances m !! t); [case_decide|]; by intros [= <- <-]. Qed.

#[export] Instance memory_laws : LedgerLaws Ledger.Memory := {
  Ports.ledger_ok := ledger_wf;
  Ports.unused id m := leases m !! id = None;
  Ports.balance t m := balance_of m t;
  Ports.holds := held_by;
  Ports.reserve_holds now id t amount q l q' Hwf Hid Ha Hr :=
    reserve_opens now id t amount q l q' Hwf Hid Ha (reserve_port now id t amount q l q' Hr);
  Ports.reserve_refused now id t amount q e q' _ _ _ := refusal_moves_nothing now id t amount q e q';
  Ports.settle_holds := settle_closes;
  Ports.cancel_holds := cancel_closes
}.
End MemoryLaws.

Module GatewayFacts.
Import Relay RelaySpec Carrier Reply Chain Static Governance GatewaySpec.

Lemma same_refl (c : Carrier) : same_request c c.
Proof. by split. Qed.

Lemma same_trans (c1 c2 c3 : Carrier) : same_request c1 c2 -> same_request c2 c3 -> same_request c1 c3.
Proof. intros [] []. split; congruence. Qed.

Lemma PromptTokens_same (c : Carrier) :
  let (n, c') := PromptTokens c in
  same_request c c' /\ promptTokens c' = Some n /\ cTokens c' = cTokens c /\ Consumed c' = Consumed c /\
  RejectCode c' = RejectCode c /\ cRelay c' = cRelay c /\ ServedBy c' = ServedBy c.
Proof. unfold PromptTokens. destruct (promptTokens c) eqn:Hp; by repeat split. Qed.

Lemma ReserveTokens_same (cap : Z) (c : Carrier) :
  let (n, c') := ReserveTokens cap c in
  same_request c c' /\ Consumed c' = Consumed c /\ RejectCode c' = RejectCode c /\ cRelay c' = cRelay c /\
  ServedBy c' = ServedBy c /\ 0 <= n /\ ReserveTokens cap c' = (n, c') /\
  (forall t, ReserveTokens cap (set_tokens t c') = (n, set_tokens t c')).
Proof.
  unfold ReserveTokens. pose proof (PromptTokens_same c) as H. destruct (PromptTokens c) as [n c'].
  destruct H as (Hs & Hp & _ & Hc & Hr & Hrel & Hsb). split_and!; try done.
  - unfold Estimate.addSaturating. cbv zeta. case_match eqn:Hlt; [done|]. by apply Z.ltb_ge.
  - unfold PromptTokens. rewrite Hp. by rewrite (sr_chat _ _ Hs).
  - intros t. unfold PromptTokens. cbn [promptTokens set_tokens Chat]. rewrite Hp. change (Chat (set_tokens t c')) with (Chat c'). by rewrite (sr_chat _ _ Hs).
Qed.

Section stages.
Context {L D X : Type} {HL : Ports.Limiter L} {HD : Ports.LedgerPort D}.
Variable env : surroundings.
Variable codec : codecs.
Variable req : request.
(** The assumptions on the code behind the relay, where a clause needs them. *)
Variable clean : Prop.

Abbreviation sys := (backends L D X).
Abbreviation EnsureBody :=
  (Chain.EnsureBody (Sys := sys) (parse_chat codec) (ingest_responses codec) (ingest_anthropic codec) req).
Abbreviation AuthorizeModel :=
  (Chain.AuthorizeModel (Sys := sys) (parse_chat codec) (ingest_responses codec) (ingest_anthropic codec) req).
Implicit Types (s : st sys) (c : Carrier) (h : handler sys).

(** The client left before it was answered. *)
Definition left_early s : Prop :=
  gone env = true \/ exists c r, car s = Some c /\ cRelay c = Some r /\ ClientGone r = true.

Definition replied s : Prop :=
  (one_reply (out s) \/ out s = [] /\ left_early s /\ eErrorCode (entry_of s) = "") /\ coded s /\
  Forall accepted (out s).

Lemma EnsureBody_ready s c : ready s c -> EnsureBody c s = (true, s).
Proof. intros Hr. unfold Chain.EnsureBody. by rewrite (rd_set _ _ Hr), (rd_err _ _ Hr). Qed.

Lemma AuthorizeModel_ready s c : ready s c -> AuthorizeModel c s = (true, s).
Proof.
  intros Hr. unfold Chain.AuthorizeModel. rewrite EnsureBody_ready by done. cbn [negb]. rewrite (rd_car _ _ Hr).
  destruct (String.eqb_spec (Model (Chat c)) ""); [by destruct (rd_model _ _ Hr)|].
  destruct (String.eqb_spec (tID (cTenant c)) ""); [done|]. by rewrite (rd_allowed _ _ Hr).
Qed.

(** What survives of a state when only its backends or its headers move. *)
Definition same_view s s' : Prop :=
  car s' = car s /\ out s' = out s /\ access s' = access s /\ inflight s' = inflight s.

Lemma ready_view s s' c : ready s c -> same_view s s' -> ready s' c.
Proof. intros [] (H1 & H2 & _). split; try done; congruence. Qed.

Lemma replied_view s s' : replied s -> same_view s s' -> replied s'.
Proof.
  intros (H1 & H2 & H3) (Hc & Ho & _). unfold replied, left_early, coded, entry_of in *. by rewrite Hc, Ho.
Qed.

Lemma view_trans s1 s2 s3 : same_view s1 s2 -> same_view s2 s3 -> same_view s1 s3.
Proof. unfold same_view. intros (?&?&?&?) (?&?&?&?). split_and!; congruence. Qed.

Lemma entry_reject s c code :
  car s = Some c -> RejectCode c = code -> cRelay c = None -> eErrorCode (entry_of s) = code.
Proof. intros Hc <- Hr. unfold entry_of. by rewrite Hc, Hr. Qed.

(** The code depends on the carrier alone. *)
Lemma entry_code s s' : car s' = car s -> eErrorCode (entry_of s') = eErrorCode (entry_of s).
Proof. intros Hc. unfold entry_of. rewrite Hc. destruct (car s) as [c|]; [|done]. by destruct (cRelay c). Qed.

Lemma entry_status s :
  eStatus (entry_of s) = if Reply.Status (out s) =? 0 then StatusClientClosedRequest else Reply.Status (out s).
Proof. unfold entry_of. destruct (car s) as [c|]; [|done]. by destruct (cRelay c). Qed.

(** A gateway envelope on an empty response. *)
Lemma replied_error s f status code :
  final_status status -> out s = [Rendered f (Relay.RenderError status code)] ->
  eErrorCode (entry_of s) = code \/ eErrorCode (entry_of s) = "" /\ code ∈ uncoded -> replied s.
Proof.
  intros Hst Ho He. split_and!.
  - left. rewrite Ho. eexists _, []. split_and!; [done|done|constructor].
  - intros f' st' code' rest Ho'. rewrite Ho in Ho'. by injection Ho' as <- <- <- <-.
  - rewrite Ho. by apply Forall_singleton.
Qed.

Lemma replied_reject s c status code :
  final_status status -> out s = [] -> cRelay c = None -> replied (reject c status code s).
Proof.
  intros Hst Ho Hr. eapply replied_error; [exact Hst|cbn; by rewrite Ho|]. left. by eapply entry_reject.
Qed.

(** *** What a stage leaves behind *)
Record post s c (r : exit * st sys) : Prop := {
  p_done : r.1 = Done;
  p_car : exists c', car r.2 = Some c' /\ same_request c c';
  p_frame : access r.2 = access s /\ inflight r.2 = inflight s;
  p_reply : clean -> replied r.2
}.

Lemma post_view s s1 c r : post s1 c r -> same_view s s1 -> post s c r.
Proof. intros [? ? [? ?] ?] (_ & _ & Ha & Hi). split; try done. split; congruence. Qed.

Lemma post_after s c x s1 s2 : post s c (x, s1) -> same_view s1 s2 -> post s c (x, s2).
Proof.
  intros [Hd (c' & Hc & Hs) [Ha Hi] Hr] Hv. pose proof Hv as (V1 & V2 & V3 & V4). split; cbn [fst snd] in *.
  - done.
  - exists c'. by rewrite V1.
  - rewrite V3, V4. done.
  - intros Hcl. apply (replied_view s1); auto.
Qed.

Lemma post_reject s c c' status code :
  final_status status -> ready s c -> same_request c c' -> cRelay c' = None -> post s c (Done, reject c' status code s).
Proof.
  intros Hst Hr Hs Hrel. split; [done| |done|].
  - exists (set_reject code c'). split; [done|]. by destruct Hs.
  - intros _. apply replied_reject; [done|apply Hr|done].
Qed.

Definition consumed_of (r : exit * st sys) : Z := consumed r.2.

Definition acted s s' (l : list act) : Prop := acts (Chain.sys s') = acts (Chain.sys s) ++ l.

Lemma acted_trans s1 s2 s3 l1 l2 : acted s1 s2 l1 -> acted s2 s3 l2 -> acted s1 s3 (l1 ++ l2).
Proof. unfold acted. intros H1 H2. by rewrite H2, H1, app_assoc. Qed.

(** What the tenant [t] pays: its consumption, at most its reservation. *)
Definition charge (l : list act) (used : Z) : Z :=
  match reservation l with Some amount => Z.min amount (Z.max 0 used) | None => 0 end.

Definition charged (t : string) (n : Z) s s' : Prop :=
  forall laws : Ports.LedgerLaws D,
  Ports.ledger_ok (ledger (Chain.sys s)) -> Ports.unused (lease_id env) (ledger (Chain.sys s)) -> in_int64 (consumed s') ->
  Ports.balance t (ledger (Chain.sys s')) = Ports.balance t (ledger (Chain.sys s)) - n /\
  forall u, u <> t -> Ports.balance u (ledger (Chain.sys s')) = Ports.balance u (ledger (Chain.sys s)).

Lemma charged_same (t : string) s s' : ledger (Chain.sys s') = ledger (Chain.sys s) -> charged t 0 s s'.
Proof. intros Hl laws _ _ _. rewrite Hl. split; [lia|done]. Qed.

Lemma charged_ledger (t : string) (n : Z) s1 s1' s2 s2' :
  charged t n s1 s2 -> ledger (Chain.sys s1') = ledger (Chain.sys s1) -> ledger (Chain.sys s2') = ledger (Chain.sys s2) ->
  consumed s2' = consumed s2 -> charged t n s1' s2'.
Proof. unfold charged. intros Hch -> -> ->. exact Hch. Qed.

(** One layer of the chain: the calls of [r] satisfy [P], nothing is
    consumed without a forward, and the tenant pays for its lease. *)
Record layer (P : Z -> list act -> Prop) s c (r : exit * st sys) : Prop := {
  ly_post : post s c r;
  ly_acts : exists l, acted s r.2 l /\ P (consumed_of r) l /\ (Forwarded ∉ l -> consumed_of r = 0) /\
    charged (tID (cTenant c)) (charge l (consumed_of r)) s r.2
}.

(** *** The endpoint and its panics *)
Record endpoint_ok s c (r : exit * st sys) : Prop := {
  eo_car : exists c', car r.2 = Some c' /\ same_request c c' /\
    (r.1 = Panicked -> RejectCode c' = "" /\ cRelay c' = None);
  eo_frame : access r.2 = access s /\ inflight r.2 = inflight s /\ ledger (Chain.sys r.2) = ledger (Chain.sys s);
  eo_acts : exists l, acted s r.2 l /\ (l = [] \/ l = [Forwarded]) /\ (Forwarded ∉ l -> consumed_of r = 0);
  eo_reply : clean -> if r.1 is Done then replied r.2 else out r.2 = [];
  eo_status : clean -> Format c <> FormatAnthropicMessages -> out r.2 = [] \/ 100 <= Reply.Status (out r.2)
}.

Definition forwards (_ : Z) (l : list act) : Prop := l = [] \/ l = [Forwarded].
Definition sound_status s c (r : exit * st sys) : Prop :=
  clean -> Format c <> FormatAnthropicMessages -> out r.2 = [] \/ 100 <= Reply.Status (out r.2).

Lemma charge_forwards (l : list act) (used : Z) : forwards used l -> charge l used = 0.
Proof. by intros [-> | ->]. Qed.

Lemma recovery_layer s c h :
  endpoint_ok s c (h s) -> layer forwards s c (RecoveryStage h s) /\ sound_status s c (RecoveryStage h s).
Proof.
  intros [(c' & Hc & Hs & Hp) (Ha & Hi & Hl) (l & Hacts & Hfwd & Hfree) Hr Hst]. unfold RecoveryStage.
  destruct (h s) as [x s1]. unfold consumed_of in *. cbn [fst snd] in *.
  assert (forall s2, same_view s1 s2 -> Chain.sys s2 = Chain.sys s1 -> consumed s2 = consumed s1 ->
    exists l, acted s s2 l /\ forwards (consumed s2) l /\ (Forwarded ∉ l -> consumed s2 = 0) /\
      charged (tID (cTenant c)) (charge l (consumed s2)) s s2) as Hly.
  { intros s2 _ Hsys Hcons. exists l. unfold acted. rewrite Hcons, Hsys. split_and!; [done|done|done|].
    rewrite charge_forwards by done. apply charged_same. by rewrite Hsys. }
  destruct x.
  - split; [split; [split; cbn [fst snd]; eauto|by apply Hly]|exact Hst].
  - destruct (Hp eq_refl) as [Hrej Hrel]. destruct (Z.eqb_spec (Reply.Status (out s1)) 0) as [Hz|Hnz]; cbn [negb].
    2:{ split; [split; [split; cbn [fst snd]; eauto|by apply Hly]|exact Hst].
        intros Hcl. exfalso. apply Hnz. by rewrite (Hr Hcl). }
    set (s2 := write _ s1). assert (consumed s2 = consumed s1) as Hcons by done.
    split; [split; [split; cbn [fst snd]; [done|by exists c'|done|]|]|].
    + intros Hcl. apply (replied_error s2 (match car s1 with Some c => Format c | None => FormatOpenAIChat end) 500 "internal_error"); [done| |].
      * unfold s2. cbn. by rewrite (Hr Hcl).
      * right. unfold entry_of. cbn [s2 write car]. rewrite Hc, Hrel. cbn. split; [done|set_solver].
    + exists l. unfold consumed_of. cbn [snd]. rewrite Hcons. split_and!; [done|done|done|].
      rewrite charge_forwards by done. by apply charged_same.
    + intros Hcl _. right. cbn [snd]. unfold s2. cbn. by rewrite (Hr Hcl).
Qed.

(** *** Wrapping a layer *)
Lemma reservation_app (l1 l2 : list act) :
  reservation (l1 ++ l2) = match reservation l1 with Some n => Some n | None => reservation l2 end.
Proof. unfold reservation. rewrite omap_app. by destruct (omap _ l1). Qed.

Lemma charge_wrap (pre l suf : list act) (used : Z) :
  reservation pre = None -> reservation suf = None -> charge (pre ++ l ++ suf) used = charge l used.
Proof.
  intros Hp Hs. unfold charge. rewrite !reservation_app, Hp. destruct (reservation l); [done|]. by rewrite Hs.
Qed.

(** A stage that notes [pre], runs the rest on a prepared state, and notes
    [suf] on the way out. *)
Lemma layer_wrap (P P' : Z -> list act -> Prop) s c s1 c1 x s2 s3 (pre suf : list act) :
  layer P s1 c1 (x, s2) ->
  same_request c c1 -> access s1 = access s /\ inflight s1 = inflight s ->
  acted s s1 pre -> ledger (Chain.sys s1) = ledger (Chain.sys s) ->
  same_view s2 s3 -> acted s2 s3 suf -> ledger (Chain.sys s3) = ledger (Chain.sys s2) ->
  reservation pre = None -> reservation suf = None ->
  (forall l, P (consumed s2) l -> P' (consumed s2) (pre ++ l ++ suf)) ->
  layer P' s c (x, s3).
Proof.
  intros [Hpost (l & Hl & HP & Hfree & Hch)] Hs [Ha Hi] Hpre Hled Hv Hsuf Hled' Hrp Hrs HP'.
  unfold consumed_of in *. cbn [fst snd] in *.
  assert (consumed s3 = consumed s2) as Hc by (unfold consumed; by rewrite (proj1 Hv)).
  split.
  - apply (post_after s c x s2 s3); [|done]. destruct Hpost as [Hd (c' & Hc' & Hs') [Ha' Hi'] Hr]. cbn [fst snd] in *.
    split; cbn [fst snd]; [done| |by rewrite Ha', Hi'|done]. exists c'. split; [done|by apply (same_trans c c1)].
  - exists (pre ++ l ++ suf). unfold consumed_of. cbn [snd]. rewrite Hc. split_and!.
    + apply (acted_trans s s1); [done|]. by apply (acted_trans s1 s2).
    + by apply HP'.
    + intros Hno. apply Hfree. set_solver.
    + rewrite charge_wrap by done. rewrite (sr_tenant _ _ Hs) in Hch. by apply (charged_ledger _ _ s1 s s2 s3).
Qed.

Lemma view_refl s : same_view s s.
Proof. by repeat split. Qed.

Lemma acted_nil s : acted s s [].
Proof. unfold acted. by rewrite app_nil_r. Qed.

Lemma layer_weaken (P P' : Z -> list act -> Prop) s c r :
  layer P s c r -> (forall l, P (consumed_of r) l -> P' (consumed_of r) l) -> layer P' s c r.
Proof. intros [Hp (l & H1 & H2 & H3)] HP. split; [done|]. exists l. split_and!; [done|by apply HP|apply H3..]. Qed.

(** A stage that answers by itself. *)
Lemma layer_answered (P : Z -> list act -> Prop) s c s2 (l : list act) :
  acted s s2 l -> charged (tID (cTenant c)) 0 s s2 ->
  (exists c', car s2 = Some c' /\ same_request c c' /\ Consumed c' = 0) ->
  access s2 = access s /\ inflight s2 = inflight s -> (clean -> replied s2) ->
  reservation l = None -> (forall used, P used l) -> layer P s c (Done, s2).
Proof.
  intros Hl Hch (c' & Hc & Hs & Hz) Hfr Hr Hres HP.
  assert (consumed s2 = 0) as Hcons by (unfold consumed; by rewrite Hc).
  split; [split; cbn [fst snd]; [done|by exists c'|done|done]|]. exists l. unfold consumed_of. cbn [snd]. rewrite Hcons.
  split_and!; [done|done|done|]. unfold charge. by rewrite Hres.
Qed.

(** *** The cache *)
Definition serves (_ : Z) (l : list act) : Prop := served l.

Lemma served_forwards (used : Z) (l : list act) : forwards used l -> serves used l.
Proof.
  intros [-> | ->].
  - apply (served_by [] [] []); by left.
  - apply (served_by [] [Forwarded] []); [by left|by right|by left].
Qed.

Lemma served_behind (fwd kept : list act) (used : Z) :
  forwards used fwd -> kept = [] \/ (exists k e ttl, kept = [Stored k e ttl] /\ final_status (Store.Status e)) ->
  serves used ([LookedUp false] ++ fwd ++ kept).
Proof.
  intros Hf Hk. apply (served_by [LookedUp false] fwd kept); [right; by eexists| |tauto].
  destruct Hf; [by left|right; by split].
Qed.

Definition behind_cache h : Prop := forall s c, ready s c -> layer forwards s c (h s) /\ sound_status s c (h s).

Lemma worthy_final (e : Store.Entry) : storeWorthyFromEntry e = true -> final_status (Store.Status e).
Proof. intros [[H1%Z.leb_le H2%Z.ltb_lt]%andb_true_iff _]%andb_true_iff. split; lia. Qed.

Lemma negative_final (e : Store.Entry) s : negativelyCacheable e s = true -> final_status (Store.Status e).
Proof.
  unfold negativelyCacheable, final_status. destruct (car s) as [c|]; [|done]. destruct (cRelay c); [|done]. destruct (_ || _); [done|].
  destruct (Z.leb_spec 400 (Store.Status e)), (Z.leb_spec (Store.Status e) 507), (Z.leb_spec 200 (Store.Status e)),
    (Z.ltb_spec (Store.Status e) 300); cbn [andb]; (lia || by intros [=]).
Qed.

Lemma stored_final s0 s : storeWorthy codec s0 s = true -> final_status (Store.Status (capture codec s0 s)).
Proof. intros [[H1%Z.leb_le H2%Z.ltb_lt]%andb_true_iff _]%andb_true_iff. split; cbn; lia. Qed.

Lemma shared_fetch_view ttl key c s0 s :
  exists kept, (kept = [] \/ exists k e t, kept = [Stored k e t] /\ final_status (Store.Status e)) /\
  let s' := shared_fetch env codec ttl key c s0 s in
  (same_view s s' /\ acted s s' kept /\ ledger (Chain.sys s') = ledger (Chain.sys s) \/
   kept = [] /\ Reply.Status (behind s0 s) < 100 /\ gone env = false /\ s' = RenderError c 502 "upstream_unreachable" s).
Proof.
  unfold shared_fetch. cbv zeta. set (status := Reply.Status (behind s0 s)).
  destruct ((status <? 100) || (599 <? status) || Truncated codec (behind s0 s)).
  - exists []. split; [by left|]. destruct (Z.ltb_spec status 100), (gone env); cbn [andb negb];
      (by left; split_and!; [apply view_refl|apply acted_nil|]) || by right.
  - destruct (storeWorthyFromEntry _) eqn:Hw; [|destruct (negativelyCacheable _ _) eqn:Hn].
    + eexists [_]. split; [right; eexists _, _, _; split; [reflexivity|by apply worthy_final]|]. left. by repeat split.
    + eexists [_]. split; [right; eexists _, _, _; split; [reflexivity|by eapply negative_final]|]. left. by repeat split.
    + exists []. split; [by left|]. left. split_and!; [apply view_refl|apply acted_nil|done].
Qed.

Lemma replied_replay s c source e s1 :
  out s1 = [] -> replied (set_car (replayed_from source c) (replay codec e s1)).
Proof.
  intros Ho. split_and!.
  - left. cbn. rewrite Ho. eexists _, []. split_and!; [done|done|constructor].
  - intros f st code rest. cbn. by rewrite Ho.
  - cbn. rewrite Ho. by apply Forall_singleton.
Qed.

(** The end of a shared fetch that brought nothing. *)
Lemma layer_unshared s c s1 c1 s2 (pre : list act) :
  layer forwards s1 c1 (Done, s2) -> sound_status s1 c1 (Done, s2) ->
  same_request c c1 -> access s1 = access s /\ inflight s1 = inflight s ->
  acted s s1 pre -> ledger (Chain.sys s1) = ledger (Chain.sys s) -> reservation pre = None -> out s1 = [] ->
  Format c = FormatOpenAIChat -> Reply.Status (behind s1 s2) < 100 ->
  (forall l used, forwards used l -> serves used (pre ++ l)) ->
  layer serves s c (Done, RenderError c 502 "upstream_unreachable" s2).
Proof.
  intros Hly Hst Hs Hfr Hpre Hled Hres Hout Hf Hlow Hserve.
  assert (layer serves s c (Done, s2)) as Hly'.
  { apply (layer_wrap forwards serves s c s1 c1 Done s2 s2 pre []); try done; [apply acted_nil|].
    intros l Hl. rewrite app_nil_r. by apply (Hserve l (consumed s2)). }
  assert (clean -> out s2 = []) as Hnil.
  { intros Hcl. destruct (Hst Hcl) as [|Hge]; [by rewrite (sr_format _ _ Hs), Hf|done|].
    unfold behind in Hlow. rewrite Hout in Hlow. cbn in Hlow, Hge. exfalso. rewrite drop_0 in Hlow. lia. }
  destruct Hly' as [[_ Hcar Hframe Hr] Hacts]. split; [split; cbn [fst snd] in *; try done|].
  - intros Hcl. destruct (Hr Hcl) as [[(h & rest & Ho & _)|(Ho & _ & He)] _]; [by rewrite (Hnil Hcl) in Ho|].
    apply (replied_error _ (Format c) 502 "upstream_unreachable"); [done|cbn; by rewrite Ho|]. right. rewrite (entry_code s2) by done. split; [exact He|set_solver].
  - exact Hacts.
Qed.

Lemma cache_layer (ttl : Z) h :
  behind_cache h -> forall s c, ready s c -> layer serves s c (CacheMiddleware env codec req ttl h s).
Proof.
  intros Hh s c Hr. unfold CacheMiddleware, RequireCarrier, with_car. rewrite (rd_car _ _ Hr), EnsureBody_ready by done.
  cbn [negb]. rewrite (rd_car _ _ Hr). destruct (_ || _) eqn:Hby.
  { apply (layer_weaken forwards serves); [by apply Hh|]. intros l. apply served_forwards. }
  apply orb_false_iff in Hby as [Hf _]. apply negb_false_iff, String.eqb_eq in Hf.
  destruct (Store.Get _ _ _ _) as [hit m]. cbv zeta. set (s1 := noted _ _).
  assert (same_view s s1 /\ acted s s1 [LookedUp (bool_decide (is_Some hit))] /\ ledger (Chain.sys s1) = ledger (Chain.sys s))
    as (Hv & Hact & Hled) by (by repeat split).
  pose proof (ready_view s s1 c Hr Hv) as Hr1. pose proof (rd_out _ _ Hr1) as Ho1.
  assert (access s1 = access s /\ inflight s1 = inflight s) as Hfr by done. clearbody s1.
  destruct hit as [e|].
  { apply (layer_answered _ s c _ [LookedUp true]); try done; try (by apply charged_same).
    - by exists (replayed_from SourceCache c).
    - intros _. by apply (replied_replay s1).
    - intros used. by apply (served_by [LookedUp true] [] []); [right; eexists|left|left]. }
  change (bool_decide (is_Some None)) with false in Hact. destruct (Hh s1 c Hr1) as [Hly Hst].
  destruct (Schema.Stream (Chat c)).
  { destruct (h s1) as [[] s2] eqn:He; [|by destruct Hly as [[? ] _]].
    set (s3 := if _ : bool then _ else s2).
    assert (exists kept, (kept = [] \/ exists k e t, kept = [Stored k e t] /\ final_status (Store.Status e)) /\ same_view s2 s3 /\ acted s2 s3 kept /\
      ledger (Chain.sys s3) = ledger (Chain.sys s2)) as (kept & Hk & V & A & E).
    { unfold s3. destruct (_ && _) eqn:Hkeep.
      { apply andb_true_iff in Hkeep as [Hkeep _]. eexists [_]. split; [right; eexists _, _, _; split; [reflexivity|by apply stored_final]|by repeat split]. }
      exists []. split_and!; [by left|apply view_refl|apply acted_nil|done]. }
    apply (layer_wrap forwards serves s c s1 c Done s2 s3 [LookedUp false] kept); try done.
    - by destruct Hk as [-> |(? & ? & ? & -> & _)].
    - intros l Hl. by apply served_behind. }
  destruct (role env) as [|[e|err]].
  - destruct (h s1) as [[] s2] eqn:He; [|by destruct Hly as [[? ] _]].
    destruct (shared_fetch_view ttl (sha256_hex codec (Body c)) c s1 s2) as (kept & Hk & [(V & A & E)|(-> & Hlow & _ & ->)]).
    + apply (layer_wrap forwards serves s c s1 c Done s2 _ [LookedUp false] kept); try done.
      * by destruct Hk as [-> |(? & ? & ? & -> & _)].
      * intros l Hl. by apply served_behind.
    + apply (layer_unshared s c s1 c s2 [LookedUp false]); try done.
      intros l used Hl. rewrite <- (app_nil_r l). apply (served_behind l [] used); [done|by left].
  - apply (layer_answered _ s c _ [LookedUp false]); try done; try (by apply charged_same).
    + by exists (replayed_from SourceSharedFetch c).
    + intros _. by apply (replied_replay s1).
    + intros used. apply (served_behind [] [] used); by left.
  - apply (layer_answered _ s c _ [LookedUp false]); try done; try (by destruct (gone env));
      try (by apply charged_same; destruct (gone env)).
    + exists c. split_and!; [destruct (gone env); apply (rd_car _ _ Hr1)|apply same_refl|apply Hr].
    + intros _. assert (eErrorCode (entry_of s1) = "") as Hcode by (eapply entry_reject; apply Hr1).
      destruct (gone env) eqn:Hg.
      * split_and!; [right; split_and!; [done|by left|done]| |by rewrite Ho1]. intros f st code rest. by rewrite Ho1.
      * apply (replied_error _ (Format c) 502 "upstream_unreachable"); [done|cbn; by rewrite Ho1|].
        right. rewrite (entry_code s1) by done. split; [exact Hcode|set_solver].
    + intros used. apply (served_behind [] [] used); by left.
Qed.

(** The cache leaves the ledger to the stages around it. *)
Lemma cache_ledger (ttl : Z) h :
  (forall s c, ready s c -> ledger (Chain.sys (h s).2) = ledger (Chain.sys s)) ->
  forall s c, ready s c -> ledger (Chain.sys (CacheMiddleware env codec req ttl h s).2) = ledger (Chain.sys s).
Proof.
  intros Hh s c Hr. unfold CacheMiddleware, RequireCarrier, with_car. rewrite (rd_car _ _ Hr), EnsureBody_ready by done.
  cbn [negb]. rewrite (rd_car _ _ Hr). destruct (_ || _); [by apply (Hh s c)|].
  destruct (Store.Get _ _ _ _) as [hit m]. cbv zeta. set (s1 := noted _ _).
  assert (same_view s s1 /\ ledger (Chain.sys s1) = ledger (Chain.sys s)) as (Hv & <-) by (by repeat split).
  pose proof (Hh s1 c (ready_view s s1 c Hr Hv)) as Hn. clearbody s1. destruct hit as [e|]; [done|].
  destruct (Schema.Stream (Chat c)); [|destruct (role env) as [|[e|err]]].
  - destruct (h s1) as [[] s2]; [|done]. cbn [snd] in *. by destruct (_ && _).
  - destruct (h s1) as [[] s2]; [|done]. cbn [snd] in *.
    by destruct (shared_fetch_view ttl (sha256_hex codec (Body c)) c s1 s2) as (k & _ & [(_ & _ & ->)|(_ & _ & _ & ->)]).
  - done.
  - by destruct (gone env).
Qed.

(** *** The lease *)
Definition behind_quota h : Prop :=
  forall s c, ready s c -> layer serves s c (h s) /\ ledger (Chain.sys (h s).2) = ledger (Chain.sys s).

Lemma served_reservation (l : list act) : served l -> reservation l = None.
Proof. intros [looked fwd kept [-> |[? ->]] [-> |[-> _]] [-> |[(? & ? & ? & -> & _) _]]]; done. Qed.

Definition close (used : Z) (id : string) : act := if used <=? 0 then Cancelled id else Settled id used.

(** A reserved lease, the rest of the chain, and the settlement. *)
Lemma lease_charged (t id : string) (amount : Z) s s1 s2 (lease : Ledger.Lease) q :
  0 <= amount ->
  Ports.Reserve (reserve_at env) (lease_id env) t amount (ledger (Chain.sys s)) = (inl lease, q) ->
  ledger (Chain.sys s2) = q ->
  charged t (Z.min amount (Z.max 0 (consumed s2))) s (settle env (Ledger.ID lease) s2).
Proof.
  intros Ha Hres Hq laws Hok Hid Hint. destruct (Ports.reserve_holds _ _ _ _ _ _ _ Hok Hid Ha Hres) as (-> & Hok' & Hb & Hh & Ho).
  assert (in_int64 (consumed s2)) as Hi.
  { revert Hint. unfold settle. by destruct (consumed s2 <=? 0). }
  unfold settle. destruct (Z.leb_spec (consumed s2) 0).
  - cbn [noted on_sys set_sys Chain.sys note ledger set_ledger]. rewrite Hq.
    destruct (Ports.cancel_holds (settle_at env) _ _ _ _ Hok' Hh) as [-> Ho']. split; [lia|].
    intros u Hu. by rewrite Ho', Ho.
  - cbn [noted on_sys set_sys Chain.sys note ledger set_ledger]. rewrite Hq.
    destruct (Ports.settle_holds (settle_at env) _ _ _ (consumed s2) _ Hok' ltac:(lia) Hi Hh) as [-> Ho']. split; [lia|].
    intros u Hu. by rewrite Ho', Ho.
Qed.

Lemma settle_view (id : string) s : same_view s (settle env id s) /\ acted s (settle env id s) [close (consumed s) id].
Proof. unfold settle, close. destruct (consumed s <=? 0); by repeat split. Qed.

Lemma quota_leased h s c c1 q s1 (amount : Z) (lease : Ledger.Lease) :
  behind_quota h -> ready s1 c1 -> same_request c c1 -> access s1 = access s /\ inflight s1 = inflight s ->
  0 <= amount ->
  Ports.Reserve (reserve_at env) (lease_id env) (tID (cTenant c)) amount (ledger (Chain.sys s)) = (inl lease, q) ->
  ledger (Chain.sys s1) = q -> acted s s1 [Reserved amount (Some (Ledger.ID lease))] ->
  layer (fun used l => leased used amount l) s c (let (x, s) := h s1 in (x, settle env (Ledger.ID lease) s)).
Proof.
  intros Hh Hr1 Hs [Ha Hi] Hpos Hres Hq Hact. destruct (Hh s1 c1 Hr1) as [[Hp (l & Hl & HP & Hfree & _)] Hled].
  destruct (h s1) as [x s2]. unfold consumed_of in *. cbn [fst snd] in *.
  destruct (settle_view (Ledger.ID lease) s2) as [Hv Hclose]. set (s3 := settle _ _ _) in *.
  assert (consumed s3 = consumed s2) as Hc by (unfold consumed; by rewrite (proj1 Hv)).
  split.
  - apply (post_after s c x s2 s3); [|done]. destruct Hp as [Hd (c' & Hc' & Hs') [Ha' Hi'] Hr]. cbn [fst snd] in *.
    split; cbn [fst snd]; [done| |by rewrite Ha', Hi'|done]. exists c'. split; [done|by apply (same_trans c c1)].
  - exists ([Reserved amount (Some (Ledger.ID lease))] ++ l ++ [close (consumed s2) (Ledger.ID lease)]).
    unfold consumed_of. cbn [snd]. rewrite Hc. split_and!.
    + apply (acted_trans s s1); [done|]. by apply (acted_trans s1 s2).
    + by apply lease_closed.
    + intros Hno. apply Hfree. set_solver.
    + unfold charge. cbn. by apply (lease_charged _ "" amount s s1 s2 lease q); [..|congruence].
Qed.

(** The reservation the limiter computed is the one the quota stage uses. *)
Definition reserves c (t : Z) : Prop :=
  0 <= t /\ cTokens c = t /\ ReserveTokens (Limits.MaxTokens (tTier (cTenant c))) c = (t, c).

Lemma quota_layer h s c (t : Z) :
  behind_quota h -> ready s c -> reserves c t ->
  layer (fun used l => leased used t l) s c (QuotaMiddleware env h s).
Proof.
  intros Hh Hr (Hpos & Ht & Hres). unfold QuotaMiddleware, RequireCarrier. rewrite (rd_car _ _ Hr), Ht, Hres.
  assert (exists c1, (if t <=? 0 then (t, set_tokens t c) else (t, c)) = (t, c1) /\ same_request c c1 /\
    forall s1, same_view (set_car c1 s) s1 -> ready s1 c1) as (c1 & -> & Hs & Hr1).
  { exists (if t <=? 0 then set_tokens t c else c). split; [by destruct (t <=? 0)|]. split; [by destruct (t <=? 0)|].
    intros s1 (V1 & V2 & _). destruct Hr. by destruct (t <=? 0); split; rewrite ?V1, ?V2. }
  cbv zeta. cbn [set_car Chain.sys]. change (limiter (Chain.sys (set_car c1 s))) with (limiter (Chain.sys s)).
  rewrite (sr_tenant _ _ Hs). destruct (Ports.Reserve _ _ _ _ _) as [[lease|e] q] eqn:Hq.
  - apply (quota_leased h s c c1 q _ t lease); try done. by apply Hr1.
  - set (s1 := noted _ _).
    assert (forall status code, final_status status -> layer (fun used l => leased used t l) s c (Done, reject c1 status code s1)) as Hrej.
    { intros status code Hst. assert (ready s1 c1) as [R1 R2 R3 R4 R5 R6 R7 R8 R9 R10] by by apply Hr1.
      apply (layer_answered _ s c _ [Reserved t None]); try done.
      - intros laws Hok Hid _. unfold reject. cbn. by rewrite (Ports.reserve_refused _ _ _ _ _ _ _ Hok Hid Hpos Hq), Z.sub_0_r.
      - exists (set_reject code c1). split_and!; [done|by destruct Hs|done].
      - intros _. by apply replied_reject.
      - intros used. apply lease_refused. }
    destruct e as [[]|]; by apply Hrej.
Qed.

(** *** The rate budget and the slot *)
Definition behind_limiter h : Prop :=
  forall s c t, ready s c -> reserves c t -> layer (fun used l => leased used t l) s c (h s).

Lemma given_back_reservation (used t : Z) : reservation (given_back used t) = None.
Proof. unfold given_back. by destruct (0 <? _). Qed.

Lemma limiter_granted h s c c1 s1 (t : Z) (limits : Memory.Limits) :
  behind_limiter h -> ready s1 c1 -> reserves c1 t -> same_request c c1 ->
  access s1 = access s /\ inflight s1 = inflight s -> acted s s1 [Asked t (Some true)] ->
  ledger (Chain.sys s1) = ledger (Chain.sys s) ->
  layer rated s c
    (let (x, s) := h s1 in
     let refund := wrap64 (t - consumed s) in
     (x, if 0 <? refund
         then noted (Refunded refund)
                (on_sys (fun b => set_limiter (Ports.Refund (refund_at env) (tID (cTenant c1)) limits refund (limiter b)) b) s)
         else s)).
Proof.
  intros Hh Hr1 Hres Hs Hfr Hact Hled. pose proof (Hh s1 c1 t Hr1 Hres) as Hly. destruct (h s1) as [x s2]. cbv zeta.
  apply (layer_wrap (fun used l => leased used t l) rated s c s1 c1 x s2 _ [Asked t (Some true)] (given_back (consumed s2) t));
    try done; try (by destruct (0 <? wrap64 (t - consumed s2))).
  - unfold given_back, acted. cbv zeta. destruct (0 <? wrap64 (t - consumed s2)); [done|by rewrite app_nil_r].
  - apply given_back_reservation.
  - intros l Hl. apply rate_granted; [apply Hres|done].
Qed.

Lemma limiter_layer h s c :
  behind_limiter h -> ready s c -> layer rated s c (LimiterMiddleware env codec req h s).
Proof.
  intros Hh Hr. unfold LimiterMiddleware, RequireCarrier, with_car. rewrite (rd_car _ _ Hr), EnsureBody_ready by done.
  cbn [negb]. rewrite (rd_car _ _ Hr). pose proof (ReserveTokens_same (Limits.MaxTokens (tTier (cTenant c))) c) as Hsame.
  destruct (ReserveTokens _ c) as [t c1]. destruct Hsame as (Hs & Hc & Hrej & Hrel & Hsb & Hpos & _ & Hset). cbv zeta.
  change (limiter (Chain.sys (set_car c1 s))) with (limiter (Chain.sys s)).
  destruct (Ports.Allow _ _ _ _ _) as [[d|] lim]; cbn [option_map].
  - destruct (Memory.Allowed d) eqn:Hd; cbn [negb].
    + set (s1 := set_car (set_tokens t c1) _). set (limits := Memory.mkLimits _ _).
      apply (limiter_granted h s c (set_tokens t c1) s1 t limits); try done.
      * destruct Hs as [E1 E2 E3 E4 E5 E6 E7], Hr. by split; cbn; rewrite ?Hc, ?Hrej, ?Hrel, ?Hsb, ?E1, ?E5, ?E6, ?E7.
      * split_and!; [done|done|]. change (cTenant (set_tokens t c1)) with (cTenant c1). by rewrite (sr_tenant _ _ Hs).
      * by destruct Hs.
    + apply (layer_answered _ s c _ [Asked t (Some false)]); try done; [by apply charged_same| | |].
      * exists (set_reject "rate_limit_exceeded" c1). split_and!; [done|by destruct Hs|]. cbn. rewrite Hc. apply Hr.
      * intros _. apply replied_reject; [done|apply Hr|]. rewrite Hrel. apply Hr.
      * intros used. by apply rate_refused.
  - apply (layer_answered _ s c _ [Asked t None]); try done; [by apply charged_same| | |].
    + exists (set_reject "governance_unavailable" c1). split_and!; [done|by destruct Hs|]. cbn. rewrite Hc. apply Hr.
    + intros _. apply replied_reject; [done|apply Hr|]. rewrite Hrel. apply Hr.
    + intros used. by apply rate_refused.
Qed.

Lemma concurrency_layer h s c :
  (forall s c, ready s c -> layer rated s c (h s)) -> ready s c -> layer spent s c (ConcurrencyMiddleware h s).
Proof.
  intros Hh Hr. unfold ConcurrencyMiddleware, RequireCarrier. rewrite (rd_car _ _ Hr).
  destruct (Concurrency.Acquire _ _ _) as [g [rel|]]; cbv zeta.
  - set (s1 := noted _ _). assert (ready s1 c) as Hr1 by (by apply (ready_view s)).
    pose proof (Hh s1 c Hr1) as Hly. destruct (h s1) as [x s2].
    apply (layer_wrap rated spent s c s1 c x s2 _ [SlotTaken true] [SlotGiven]); try done.
    intros l Hl. by apply spent_slot.
  - apply (layer_answered _ s c _ [SlotTaken false]); try done; [by apply charged_same| | |].
    + exists (set_reject "concurrency_limit_exceeded" c). split_and!; [done|by split|apply Hr].
    + intros _. apply replied_reject; [done|apply Hr..].
    + intros used. apply spent_full.
Qed.

(** *** Authorisation, and the whole governed chain *)

(** A carrier at the entry of the governance stages. *)
Record fresh s c : Prop := {
  fr_car : car s = Some c; fr_out : out s = []; fr_set : ChatSet c = false; fr_consumed : Consumed c = 0;
  fr_reject : RejectCode c = ""; fr_relay : cRelay c = None; fr_served : ServedBy c = ""
}.

(** The tenant [t] and the model it was admitted for. *)
Definition admitted (t : Tenant) c : Prop :=
  cTenant c = t /\ (tID t <> "" -> Limits.AllowsModel (tTier t) (Model (Chat c)) = true).

Record governed (who : Tenant -> Prop) s (r : exit * st sys) : Prop := {
  gv_done : r.1 = Done;
  gv_frame : access r.2 = access s /\ inflight r.2 = inflight s;
  gv_reply : clean -> replied r.2;
  gv_acts : exists l, acted s r.2 l /\ spent (consumed_of r) l /\ (Forwarded ∉ l -> consumed_of r = 0) /\
    (l = [] /\ ledger (Chain.sys r.2) = ledger (Chain.sys s) \/
     exists c t, car r.2 = Some c /\ who t /\ admitted t c /\ charged (tID t) (charge l (consumed_of r)) s r.2)
}.

(** A refusal before any backend was called. *)
Lemma governed_refused (who : Tenant -> Prop) s s1 :
  acted s s1 [] -> ledger (Chain.sys s1) = ledger (Chain.sys s) -> consumed s1 = 0 ->
  access s1 = access s /\ inflight s1 = inflight s -> replied s1 -> governed who s (Done, s1).
Proof.
  intros Ha Hl Hc Hf Hr. split; [done|done|done|]. exists []. unfold consumed_of. cbn [snd]. rewrite Hc.
  split_and!; [done|apply spent_nothing|done|by left].
Qed.

Lemma AuthorizeModel_fresh s c :
  fresh s c ->
  let (ok, s1) := AuthorizeModel c s in
  acted s s1 [] /\ Chain.sys s1 = Chain.sys s /\ access s1 = access s /\ inflight s1 = inflight s /\ consumed s1 = 0 /\
  if ok then exists c1, ready s1 c1 /\ cTenant c1 = cTenant c else replied s1.
Proof.
  intros [Hcar Hout Hset Hcons Hrej Hrel Hsb]. unfold Chain.AuthorizeModel, Chain.EnsureBody. rewrite Hset.
  assert (acted s s []) as Hnil by apply acted_nil.
  assert (forall s1 c1 status code, final_status status -> car s1 = Some c1 -> out s1 = [] -> RejectCode c1 = "" -> cRelay c1 = None ->
    code ∈ uncoded -> replied (RenderError c1 status code s1)) as Herr.
  { intros s1 c1 status code Hst H1 H2 H3 H4 Hin. apply (replied_error _ (Format c1) status code); [done|cbn; by rewrite H2|].
    right. split; [by eapply entry_reject|done]. }
  assert (consumed s = 0) as Hz by (unfold consumed; by rewrite Hcar).
  destruct (reqBody req) as [body|]; [|by split_and!; try done; apply Herr; try done; set_solver].
  destruct (MaxBodyBytes <? _); [by split_and!; try done; apply Herr; try done; set_solver|].
  destruct (Ingest _ _ _ _ _) as [[chat upstream]|e]; cbn [negb].
  2:{ split_and!; try done; [cbn; unfold SetBody; by rewrite Hset|].
      apply (replied_error _ (Format c) 400 "invalid_request"); [done|cbn; by rewrite Hout|]. right. split; [|set_solver].
      eapply entry_reject; cbn; [done| |]; unfold SetBody; by rewrite Hset. }
  cbn [set_car car]. unfold SetBody. rewrite Hset. set (c1 := mkCarrier _ _ _ _ _ _ _ _ _ _ _ _ _ _ _).
  destruct (String.eqb_spec (Model (Chat c1)) ""); [split_and!; try done; by apply Herr; try done; set_solver|].
  destruct (negb (String.eqb (tID (cTenant c1)) "") && _) eqn:Hgate.
  - split_and!; try done. by apply replied_reject.
  - split_and!; try done. exists c1. split; [|done]. split; try done. intros Hid.
    apply andb_false_iff in Hgate as [Hgate|Hgate]; apply negb_false_iff in Hgate; [|done].
    by apply String.eqb_eq in Hgate.
Qed.

Lemma authz_governed h s c (who : Tenant -> Prop) :
  (forall s c, ready s c -> layer spent s c (h s)) -> fresh s c -> who (cTenant c) ->
  governed who s (ModelAuthzStage (parse_chat codec) (ingest_responses codec) (ingest_anthropic codec) req h s).
Proof.
  intros Hh Hf Hwho. unfold ModelAuthzStage, RequireCarrier. rewrite (fr_car _ _ Hf).
  pose proof (AuthorizeModel_fresh s c Hf) as Ha. destruct (AuthorizeModel c s) as [ok s1].
  destruct Ha as (Hact & Hsys & Hac & Hin & Hcons & Hok). destruct ok; cbn [negb].
  2:{ apply governed_refused; try done. by rewrite Hsys. }
  destruct Hok as (c1 & Hr1 & Ht). destruct (Hh s1 c1 Hr1) as [[Hd (c2 & Hc2 & Hs2) [F1 F2] Hrep] (l & Hl & Hsp & Hfree & Hch)].
  split; [done|by rewrite F1, F2|done|]. exists l. split_and!; [by apply (acted_trans s s1 _ [] l)|done|done|].
  right. exists c2, (cTenant c). split_and!; try done.
  - split; [by rewrite (sr_tenant _ _ Hs2), Ht|]. rewrite (sr_chat _ _ Hs2), <- Ht. apply Hr1.
  - rewrite <- Ht. by apply (charged_ledger _ _ s1 s (h s1).2 (h s1).2); [|by rewrite Hsys|..].
Qed.

(** Who the request is, by its key. *)
Definition authenticated (answer : string -> Cached.resolution) (t : Tenant) : Prop :=
  exists key, apiKeyOf req = Some key /\ answer key = Cached.Found t.

Lemma governed_frame (who : Tenant -> Prop) s0 s r :
  governed who s r -> access s = access s0 -> inflight s = inflight s0 -> Chain.sys s = Chain.sys s0 -> governed who s0 r.
Proof.
  intros [G1 [G2 G3] G4 (l & Hl & Hsp & Hfree & Hor)] Ha Hi Hs. split; [done|by rewrite G2, G3|done|].
  exists l. unfold acted, charged in *. rewrite <- Hs. done.
Qed.

Lemma auth_governed (answer : string -> Cached.resolution) h s c :
  (forall s c, ready s c -> layer spent s c (h s)) -> fresh s c ->
  governed (authenticated answer) s (AuthStage req answer
    (ModelAuthzStage (parse_chat codec) (ingest_responses codec) (ingest_anthropic codec) req h) s).
Proof.
  intros Hh Hf. assert (consumed s = 0) as Hz by (unfold consumed; rewrite (fr_car _ _ Hf); apply Hf).
  assert (forall status code, final_status status -> governed (authenticated answer) s (Done, refuse status code s)) as Href.
  { intros status code Hst. unfold refuse. rewrite (fr_car _ _ Hf).
    apply governed_refused; [unfold acted; by rewrite app_nil_r|done|apply Hf|done|]. apply replied_reject; [done|apply Hf..]. }
  unfold AuthStage. destruct (apiKeyOf req) as [key|] eqn:Hkey; [|by apply Href].
  destruct (answer key) as [t| |err] eqn:Hans; [|by apply Href..]. rewrite (fr_car _ _ Hf).
  set (s1 := set_car (set_tenant t c) s). apply (governed_frame _ s s1); [|done..].
  apply (authz_governed h s1 (set_tenant t c)); [done| |by exists key]. destruct Hf. by split.
Qed.
End stages.
End GatewayFacts.
