(* ===== verification/Serving.v ===== *)
(** * A request through the chain: the endpoint and the stages together

    [ServeFacts] proves of Inference.v what the stages of Gateway.v assume of
    the handler they wrap; [RequestFacts] composes the chain of the assembly
    and carries a request through all of it. *)
From stdpp Require Import base numbers gmap strings list.
From S2P Require Import Prelude Circuit CircuitPort Router Affinity Retry Quota Limiter Cache Upstream Stream Tokens Auth.
From S2P Require Import AuthCache Relay RelayProps Pipeline Governance Inference Gateway.
Import GoInt Tokens.Tokens Schema.
Local Open Scope Z_scope.

Module ServeFacts.
Import Errors Relay RelaySpec RelayFacts ResponseFacts Carrier Reply Chain Static Governance GatewaySpec GatewayFacts Inference.

(** *** What an execution reports *)
Section execution.
Context {U : Type} (ID : U -> string) (pool : U -> bool).
Context {T : Type} {tr : Pump.StreamTranscoder T}.
Variable exec : Executor.
Variable dec : decoders.
Variable renv : @environment U.
Variable job : @Job U T.

(** Nothing at all for a client that left, or one response: a gateway
    envelope under the reported status and code, or a reply of the
    upstream. *)
Definition reported (es : list client_event) (res : Result) : Prop :=
  es = [] /\ ClientGone res = true /\ ErrorCode res = "" \/
  exists h rest, es = h :: rest /\ is_head h = true /\ Forall (fun e => is_head e = false) rest /\
    match h with
    | Relay.RenderError status code => Relay.Status res = status /\ ErrorCode res = code /\ 400 <= status
    | _ => True
    end.

Lemma reported_one (h : client_event) (res : Result) :
  is_head h = true ->
  match h with Relay.RenderError st code => Relay.Status res = st /\ ErrorCode res = code /\ 400 <= st | _ => True end ->
  reported [h] res.
Proof. intros H1 H2. right. exists h, []. by split_and!. Qed.

Lemma reported_stream (es : list client_event) (res : Result) : stream_events es -> reported es res.
Proof.
  intros (ct & cc & data & [-> |[code ->]]); right; do 2 eexists; (split_and!; [done|done|by repeat constructor|done]).
Qed.

Lemma finish_reported (e : goerr) (r0 r : @requestRun U) (res : Result) :
  finish renv job (Some e) r0 = Some (res, r) ->
  (if Is e ErrCommitted then stream_events (Relay.out r0) else Relay.out r0 = []) -> reported (Relay.out r) res.
Proof.
  unfold finish. destruct (Is e ErrCommitted); [intros [= <- <-]; apply reported_stream|]. intros Hf Ho.
  assert (forall status code (r1 r2 : @requestRun U) res', gateway_error status code r1 = (res', r2) -> Relay.out r1 = [] ->
    400 <= status -> reported (Relay.out r2) res') as Hgate.
  { intros status code r1 r2 res' [= <- <-] H1 H2. cbn. rewrite H1. by apply reported_one. }
  assert (forall snap res' r2, passthrough snap r0 = (res', r2) -> reported (Relay.out r2) res') as Hpass.
  { intros snap res' r2 [= <- <-]. cbn. rewrite Ho. by apply reported_one. }
  injection Hf as Hf. destruct (clientGone renv); [injection Hf as <- <-; left; by rewrite Ho|].
  destruct (terminal r0); [by eapply Hpass|].
  destruct (Is e errCircuitOpen); [by eapply Hgate|]. destruct (Is e errUpstreamSaturated); [by eapply Hgate|].
  destruct (Is e ErrBudgetExhausted); [by eapply Hgate|]. destruct (lastFailed r0); [|by eapply Hgate].
  destruct (is_last_failed e r0); [by eapply Hpass|by eapply Hgate].
Qed.

Lemma execution_reports (around : Loop.environment) (budget : option Budget.Budget) :
  exists x, Execute ID pool exec dec renv job around budget = Some x /\
  ((forall n c q, clean_result (Relay.forward renv n c q)) -> (forall n c q, final_result (Relay.forward renv n c q)) -> clean_loop around ->
   match x with
   | Executed res r => reported (Relay.out r) res /\ Forall presentable (Relay.out r)
   | ExecutionPanicked r => Relay.out r = []
   end).
Proof.
  destruct (decide (Candidates job = [])) as [Hnil|Hne].
  { unfold Execute. rewrite Hnil. eexists. split; [done|]. intros _ _ _. split; [by apply reported_one|].
    by apply Forall_singleton. }
  destruct (ExecutionFacts.execution_ends ID pool exec dec renv job around budget Hne) as (_ & _ & _ & x & Hx & _).
  exists x. split; [done|]. intros Hc Hfin Hl.
  destruct (execution_finishes ID pool exec dec renv job Hc Hfin around budget Hl Hne) as (x' & Hx' & Hw).
  rewrite Hx in Hx'. injection Hx' as <-. destruct x as [res r|r]; [|apply Hw]. destruct Hw as (Hpres & r0 & err & _ & Hf & Hout).
  split; [|exact Hpres]. destruct err as [e|]; [by apply (finish_reported e r0)|].
  unfold finish, prepared in *. destruct (jStream job); [injection Hf as <- <-; by apply reported_stream|].
  destruct Hout as [Hout [snap Hs]]. rewrite Hs in Hf. injection Hf as <- <-. cbn. rewrite Hout. by apply reported_one.
Qed.
End execution.

(** *** The endpoint *)
Section serve.
Context {U : Type} (uid : U -> string) (pool : U -> bool).
Context {B : Type} {brk : Breaker B}.
Context {T : Type} {tr : Pump.StreamTranscoder T}.
Context {L D : Type} {HL : Ports.Limiter L} {HD : Ports.LedgerPort D}.
Variable i : @Inference U T.
Variable env : surroundings.
Variable codec : codecs.
Variable req : request.
Variable primary : CircuitPort.env * (nat -> nat) * Z.
Variable x : @exchange_env U B.

(** The code behind the relay keeps to its own errors, and its upstreams
    answer with final statuses. *)
Definition clean : Prop :=
  (forall n c q, clean_result (Relay.forward (relay_env x) n c q)) /\
  (forall n c q, final_result (Relay.forward (relay_env x) n c q)) /\ clean_loop (around x).

Abbreviation sys := (backends L D (plane B)).
Implicit Types (s : st sys) (c : Carrier).

Lemma emitted_out (f : string) (es : list client_event) : forall s,
  let s' := foldl (fun s e => write (Rendered f e) s) s es in
  Chain.out s' = Chain.out s ++ map (Rendered f) es /\ car s' = car s /\ Chain.sys s' = Chain.sys s /\
  access s' = access s /\ inflight s' = inflight s.
Proof.
  induction es as [|e es IH]; intros s; cbn [foldl map]; [by rewrite app_nil_r|].
  destruct (IH (write (Rendered f e) s)) as (-> & -> & -> & -> & ->).
  change (Chain.out (write (Rendered f e) s)) with (Chain.out s ++ [Rendered f e]). by rewrite <- app_assoc.
Qed.

Lemma settle_same (res : Result) c :
  let c' := settleConsumption res c in
  same_request c c' /\ RejectCode c' = RejectCode c /\ cRelay c' = cRelay c /\ ServedBy c' = ServedBy c.
Proof.
  assert (let (n, c') := EstimatePartialTokens (StreamBytes res) c in
    same_request c (set_consumed n c') /\ RejectCode c' = RejectCode c /\ cRelay c' = cRelay c /\ ServedBy c' = ServedBy c) as Hest.
  { unfold EstimatePartialTokens. pose proof (PromptTokens_same c) as Hp. destruct (PromptTokens c) as [n c'].
    destruct Hp as (Hs & _ & _ & _ & Hr & Hrel & Hsb). split_and!; try done. by destruct Hs. }
  unfold settleConsumption. destruct (_ || _); [by repeat split|].
  destruct (EstimatePartialTokens (StreamBytes res) c) as [n c'].
  destruct (rUsage res) as [u|]; [destruct (0 <? _); [by repeat split|]|]; (destruct (Streamed res); [done|by repeat split]).
Qed.

(** The reply of an execution on an empty response. *)
Lemma reported_replied s c c1 (es : list client_event) (res : Result) :
  Chain.out s = [] -> same_request c c1 -> RejectCode c1 = "" -> ServedBy c1 = "" -> reported es res -> Forall presentable es ->
  let s' := set_car (set_relay res c1) (foldl (fun s e => write (Rendered (Format c) e) s) s es) in
  replied env s' /\ (Format c <> FormatAnthropicMessages -> Chain.out s' = [] \/ 100 <= Reply.Status (Chain.out s')).
Proof.
  intros Ho Hs Hrej Hsb Hrep Hpres s'. destruct (emitted_out (Format c) es s) as (Hout & _).
  assert (Chain.out s' = map (Rendered (Format c)) es) as Hout' by (unfold s'; cbn; by rewrite Hout, Ho).
  assert (eErrorCode (entry_of s') = if failed_result res then ErrorCode res else "") as Hcode.
  { unfold entry_of. cbn. by rewrite Hrej. }
  assert (Forall accepted (Chain.out s')) as Hacc.
  { rewrite Hout'. apply Forall_map. eapply Forall_impl; [exact Hpres|]. intros e He. apply He. }
  destruct Hrep as [(-> & Hg & He)|(h & rest & -> & Hh & Hrest & Hm)].
  - split; [split_and!; [| |exact Hacc]|intros _; left; by rewrite Hout'].
    + right. split_and!; [by rewrite Hout'|right; by do 2 eexists|]. rewrite Hcode, He. by destruct (failed_result res).
    + intros f st code rest. by rewrite Hout'.
  - split; [split_and!; [| |exact Hacc]|intros Hf; right].
    + left. rewrite Hout'. exists (Rendered (Format c) h), (map (Rendered (Format c)) rest).
      split_and!; [done|done|]. apply Forall_map. exact Hrest.
    + intros f st code rest' Hr. rewrite Hout' in Hr. injection Hr as <- -> <-. destruct Hm as (H1 & H2 & H3). left.
      rewrite Hcode. unfold failed_result. rewrite H1. rewrite (proj2 (Z.ltb_lt 299 st)) by lia. by rewrite orb_true_r.
    + rewrite Hout'. cbn [map Reply.Status reply_status].
      apply Forall_cons_1 in Hpres as [Hpres _]. specialize (Hpres (Format c)). unfold final_status in Hpres. lia.
Qed.

Lemma forward_ok s s0 c0 c (candidates : list U) (chain : list string) (prompt : string) (n : Z) :
  same_request c0 c -> car s = Some c -> Chain.out s = [] -> RejectCode c = "" -> cRelay c = None -> ServedBy c = "" ->
  access s = access s0 /\ inflight s = inflight s0 /\ ledger (Chain.sys s) = ledger (Chain.sys s0) -> acted s0 s [] ->
  endpoint_ok env clean s0 c0 (Inference.forward uid pool i x c candidates chain prompt n s).
Proof.
  intros Hs Hcar Ho Hrej Hrel Hsb (Ha & Hi & Hl) Hact. unfold Inference.forward. cbv zeta.
  destruct (execution_reports uid pool (exec i) (relay_dec x) (relay_env x) (job_of uid i x c candidates chain prompt n)
    (around x) (budget x)) as (v & -> & Hv).
  set (s1 := noted Forwarded s). assert (acted s0 s1 [Forwarded]) as Hfwd by (by apply (acted_trans s0 s s1 [] [Forwarded])).
  destruct v as [res r|r].
  - destruct (emitted_out (Format c) (Relay.out r) s1) as (_ & _ & Esys & Eac & Ein).
    destruct (settle_same res c) as (S1 & S2 & S3 & S4).
    assert (clean -> _) as Hrep by (intros (Hc1 & Hc2 & Hc3); destruct (Hv Hc1 Hc2 Hc3) as [Hr1 Hr2];
      exact (reported_replied s1 c (settleConsumption res c) (Relay.out r) res Ho S1 ltac:(congruence) ltac:(congruence) Hr1 Hr2)).
    cbv zeta in Hrep. split; cbn [fst snd].
    + exists (set_relay res (settleConsumption res c)). split_and!; [done| |done].
      apply (same_trans _ c); [done|]. by destruct S1.
    + cbn [set_car access inflight Chain.sys]. by rewrite Esys, Eac, Ein.
    + exists [Forwarded]. unfold acted in *. cbn [set_car Chain.sys]. rewrite Esys.
      split_and!; [done|by right|]. intros Hno. by destruct Hno; left.
    + intros Hc. by apply Hrep.
    + intros Hc Hf. apply Hrep; [done|]. by rewrite (sr_format _ _ Hs).
  - destruct (emitted_out (Format c) (Relay.out r) s1) as (Eout & Ecar & Esys & Eac & Ein).
    assert (clean -> Chain.out (foldl (fun s e => write (Rendered (Format c) e) s) s1 (Relay.out r)) = []) as Hnil.
    { intros (Hc1 & Hc2 & Hc3). rewrite Eout, (Hv Hc1 Hc2 Hc3). cbn. by rewrite Ho. }
    split; cbn [fst snd].
    + exists c. by rewrite Ecar.
    + by rewrite Esys, Eac, Ein.
    + exists [Forwarded]. unfold acted in *. rewrite Esys.
      split_and!; [done|by right|]. intros Hno. by destruct Hno; left.
    + exact Hnil.
    + intros Hc _. left. by apply Hnil.
Qed.

(** A refusal of the endpoint. *)
Lemma refused_ok s s0 c0 c status code :
  same_request c0 c -> Chain.out s = [] -> cRelay c = None -> Consumed c = 0 -> 400 <= status <= 599 ->
  access s = access s0 /\ inflight s = inflight s0 /\ ledger (Chain.sys s) = ledger (Chain.sys s0) -> acted s0 s [] ->
  endpoint_ok env clean s0 c0 (Done, reject c status code s).
Proof.
  intros Hs Ho Hrel Hz Hst Hfr Hact. split; cbn [fst snd].
  - exists (set_reject code c). split_and!; [done|by destruct Hs|done].
  - done.
  - exists []. split_and!; [done|by left|done].
  - intros _. apply replied_reject; [split; lia|done..].
  - intros _ _. right. cbn. rewrite Ho. cbn. lia.
Qed.

Lemma serve_ok s c :
  ready s c ->
  endpoint_ok env clean s c (ServeHTTP uid pool i (parse_chat codec) (ingest_responses codec) (ingest_anthropic codec)
    req primary x s).
Proof.
  intros Hr. unfold ServeHTTP, with_car. rewrite (rd_car _ _ Hr), AuthorizeModel_ready by done. cbn [negb].
  rewrite (rd_car _ _ Hr). unfold route. destruct primary as [[e tie] now].
  destruct (Priority.Candidates _ _ _ _ _ _) as [[candidates|err] br]; cbv zeta.
  2:{ destruct (candidatesRejection err) as [status code] eqn:Herr.
      apply refused_ok; try done; try apply Hr; [|by unfold acted; rewrite app_nil_r].
      by destruct err; injection Herr as <- <-. }
  pose proof (PromptTokens_same c) as Hp. destruct (PromptTokens c) as [n c1].
  destruct Hp as (Hs & _ & _ & Hc & Hrej & Hrel & Hsb). destruct Hr.
  destruct (overContext _ _ _); [apply refused_ok; try done; [congruence..|by unfold acted; rewrite app_nil_r]|].
  destruct (applyAffinity _ _ _ _ _ _) as [cands idx].
  apply forward_ok; try done; [congruence..|by unfold acted; rewrite app_nil_r].
Qed.
End serve.
End ServeFacts.

(** ** The request through the whole chain *)
Module RequestFacts.
Import Relay RelaySpec Carrier Reply Chain Static Governance GatewaySpec GatewayFacts Inference ServeFacts.

Section request.
Context {U : Type} (uid : U -> string) (pool : U -> bool).
Context {B : Type} {brk : Breaker B}.
Context {T : Type} {tr : Pump.StreamTranscoder T}.
Context {L D : Type} {HL : Ports.Limiter L} {HD : Ports.LedgerPort D}.
Variable i : @Inference U T.
Variable env : surroundings.
Variable codec : codecs.
Variable req : request.
Variable primary : CircuitPort.env * (nat -> nat) * Z.
Variable x : @exchange_env U B.
(** The assembly: the route's format, the identity answers, the cache. *)
Variable drawn : option bytes.
Variable format : string.
Variable answer : string -> Cached.resolution.
Variable cache : option Z.

Abbreviation sys := (backends L D (plane B)).
Implicit Types (s : st sys) (b : sys).

Definition endpoint_handler : handler sys :=
  ServeHTTP uid pool i (parse_chat codec) (ingest_responses codec) (ingest_anthropic codec) req primary x.

(** One inference route behind full governance. *)
Definition gateway : handler sys :=
  inferenceChain req drawn format (governance_stages env codec req (Some answer) cache) endpoint_handler.

Definition arriving b (log : list Entry) (n : Z) : st sys := mkSt b None ∅ [] log n.

(** At the entry of the governance stages. *)
Definition id_of : string := adoptRequestID drawn (x_request_id req).
Definition identified b (log : list Entry) (n : Z) : st sys :=
  mkSt b (Some (set_format format (set_request_id id_of new_carrier))) {[RequestIDHeader := id_of]} [] log n.

Definition innermost : handler sys :=
  match cache with
  | Some ttl => CacheMiddleware env codec req ttl (RecoveryStage endpoint_handler)
  | None => RecoveryStage endpoint_handler
  end.

Definition governed_chain : handler sys :=
  AuthStage req answer (ModelAuthzStage (parse_chat codec) (ingest_responses codec) (ingest_anthropic codec) req
    (ConcurrencyMiddleware (LimiterMiddleware env codec req (QuotaMiddleware env innermost)))).

Lemma gateway_unfold b log n :
  gateway (arriving b log n) = ObservationStage governed_chain (identified b log n).
Proof. unfold gateway, inferenceChain, governed_chain, innermost. by destruct cache. Qed.

Lemma identified_fresh b log n : fresh (identified b log (n + 1)) (set_format format (set_request_id id_of new_carrier)).
Proof. by split. Qed.

Lemma behind_recovery : behind_cache env (clean x) (RecoveryStage endpoint_handler).
Proof. intros s c Hr. apply recovery_layer. by apply serve_ok. Qed.

Lemma recovery_ledger s c :
  ready s c -> ledger (Chain.sys (RecoveryStage endpoint_handler s).2) = ledger (Chain.sys s).
Proof.
  intros Hr. destruct (serve_ok uid pool i env codec req primary x s c Hr) as [_ (_ & _ & Hl) _ _ _].
  unfold RecoveryStage, endpoint_handler. destruct (ServeHTTP _ _ _ _ _ _ _ _ _ s) as [[] s1]; [done|].
  cbn [snd] in Hl. by destruct (negb _).
Qed.

Lemma innermost_layer : behind_quota env (clean x) innermost.
Proof.
  intros s c Hr. unfold innermost. destruct cache as [ttl|].
  - split; [by apply cache_layer; [apply behind_recovery|]|]. eapply cache_ledger; [apply recovery_ledger|done].
  - split; [|by eapply recovery_ledger]. eapply layer_weaken; [by apply behind_recovery|]. intros l. apply served_forwards.
Qed.

Lemma stack_layer s c :
  ready s c ->
  layer env (clean x) spent s c (ConcurrencyMiddleware (LimiterMiddleware env codec req (QuotaMiddleware env innermost)) s).
Proof.
  intros Hr. apply concurrency_layer; [|done]. intros s1 c1 Hr1. apply limiter_layer; [|done].
  intros s2 c2 t Hr2 Hres. apply quota_layer; [apply innermost_layer|done..].
Qed.

(** The request, up to its line in the log. *)
Lemma gateway_governed b log n :
  exists s, gateway (arriving b log n) = (Done, inflight_add (-1) (record (entry_of s) s)) /\
  governed env (clean x) (authenticated req answer) (identified b log (n + 1)) (Done, s).
Proof.
  rewrite gateway_unfold. unfold ObservationStage. change (inflight_add 1 (identified b log n)) with (identified b log (n + 1)).
  assert (governed env (clean x) (authenticated req answer) (identified b log (n + 1)) (governed_chain (identified b log (n + 1)))) as Hg
    by (eapply auth_governed; [apply stack_layer|apply identified_fresh]).
  destruct (governed_chain _) as [y s]. exists s. pose proof (gv_done _ _ _ _ _ Hg) as Hd. cbn in Hd. by subst y.
Qed.
End request.
End RequestFacts.

