(* ===== verification/Slots.v ===== *)
(** * The concurrency slot of a request

    Every stage but the concurrency one leaves the gate alone, and that one
    gives back what it took: over a whole request the count of every tenant
    is unchanged. *)
From stdpp Require Import base numbers gmap strings list.
From S2P Require Import Prelude Circuit CircuitPort Router Affinity Retry Quota Limiter Cache Upstream Stream Tokens Auth.
From S2P Require Import AuthCache Relay RelayProps Pipeline Governance Inference Gateway Serving.
Import GoInt Tokens.Tokens Schema.
Local Open Scope Z_scope.

Module SlotFacts.
Import Relay RelaySpec Carrier Reply Chain Static Governance GatewaySpec GatewayFacts Inference ServeFacts RequestFacts.
Import Concurrency ConcurrencyFacts ConcurrencyProps.

Section stages.
Context {L D X : Type} {HL : Ports.Limiter L} {HD : Ports.LedgerPort D}.
Variable env : surroundings.
Variable codec : codecs.
Variable req : request.
Abbreviation sys := (backends L D X).
Implicit Types (s : st sys) (c : Carrier) (h : handler sys).
Abbreviation gate_of s := (Governance.gate (Chain.sys s)).

(** A carrier that was not charged anew. *)
Definition tame c c' : Prop := Consumed c' = Consumed c /\ cRelay c' = cRelay c \/ Consumed c' = 0.

(** A relation between the states around a handler, closed under what the
    stages inside the concurrency stage do themselves. *)
Class StageRelation (R : st sys -> st sys -> Prop) : Prop := {
  sr_preorder :: PreOrder R;
  sr_out s s' : Chain.sys s' = Chain.sys s -> car s' = car s -> R s s';
  sr_sys s f : (forall b, Governance.gate (f b) = Governance.gate b) -> R s (on_sys f s);
  sr_car s c c' : car s = Some c -> tame c c' -> R s (set_car c' s)
}.

Section relation.
Context (R : st sys -> st sys -> Prop) `{!StageRelation R}.

Definition keeps h : Prop := forall s, R s (h s).2.

Lemma R_refl s : R s s.
Proof. reflexivity. Qed.

Lemma R_step s1 s2 s3 : R s1 s2 -> R s2 s3 -> R s1 s3.
Proof. apply transitivity. Qed.

Lemma R_reject c c' status code s : car s = Some c -> tame c c' -> R s (reject c' status code s).
Proof. intros Hc Ht. apply (R_step s (set_car (set_reject code c') s)); [by apply (sr_car s c)|by apply sr_out]. Qed.

Lemma EnsureBody_keeps c s :
  car s = Some c ->
  R s (EnsureBody (Sys := sys) (parse_chat codec) (ingest_responses codec) (ingest_anthropic codec) req c s).2.
Proof.
  intros Hc. unfold EnsureBody. destruct (ChatSet c); [destruct (ChatErr c); by apply sr_out|].
  assert (forall body chat up err, tame c (SetBody body chat up err c)) as Ht.
  { intros. unfold SetBody. destruct (ChatSet c); by left. }
  destruct (reqBody req); [|by apply sr_out]. destruct (_ <? _); [by apply sr_out|].
  destruct (Ingest _ _ _ _ _) as [[chat up]|e]; cbn [snd]; [by apply (sr_car s c)|].
  eapply R_step; [by apply (sr_car s c), (Ht body no_chat ""%string (Some e))|by apply sr_out].
Qed.

Lemma AuthorizeModel_keeps c s :
  car s = Some c ->
  R s (AuthorizeModel (Sys := sys) (parse_chat codec) (ingest_responses codec) (ingest_anthropic codec) req c s).2.
Proof.
  intros Hc. unfold AuthorizeModel. pose proof (EnsureBody_keeps c s Hc) as He.
  destruct (EnsureBody _ _ _ _ _ _) as [[] s1]; [|done]. cbn [negb snd] in *. apply (R_step s s1); [done|].
  destruct (car s1) as [c1|] eqn:Hc1; [|apply R_refl]. destruct (String.eqb _ _); [by apply sr_out|].
  destruct (_ && _); [|apply R_refl]. apply (R_reject c1); [done|by left].
Qed.

Lemma recovery_keeps h : keeps h -> keeps (RecoveryStage h).
Proof.
  intros Hh s. unfold RecoveryStage. specialize (Hh s). destruct (h s) as [[] s1]; [done|].
  destruct (negb _); [done|]. apply (R_step s s1); [done|by apply sr_out].
Qed.

Lemma R_noted a s : R s (noted a s).
Proof. by apply sr_sys. Qed.

Lemma R_keep key e ttl s : R s (keep env codec key e ttl s).
Proof. unfold keep. eapply R_step; [|apply R_noted]. by apply sr_sys. Qed.

Lemma shared_fetch_keeps ttl key c s0 s : R s (shared_fetch env codec ttl key c s0 s).
Proof.
  unfold shared_fetch. cbv zeta. destruct (_ || _); [destruct (_ && _); [by apply sr_out|apply R_refl]|].
  destruct (storeWorthyFromEntry _); [apply R_keep|]. destruct (negativelyCacheable _ _); [apply R_keep|apply R_refl].
Qed.

Lemma R_replay source c e s : car s = Some c -> R s (set_car (replayed_from source c) (replay codec e s)).
Proof.
  intros Hc. apply (R_step s (replay codec e s)); [by apply sr_out|]. apply (sr_car _ c); [done|by right].
Qed.

Lemma cache_keeps ttl h : keeps h -> keeps (CacheMiddleware env codec req ttl h).
Proof.
  intros Hh s. unfold CacheMiddleware, RequireCarrier. destruct (car s) as [c|] eqn:Hc; [|by apply sr_out].
  pose proof (EnsureBody_keeps c s Hc) as He. destruct (EnsureBody _ _ _ _ _ _) as [[] s1]; cbn [negb snd] in *; [|done].
  unfold with_car. apply (R_step s s1); [done|]. destruct (car s1) as [c1|] eqn:Hc1; [|apply R_refl].
  destruct (_ || _); [apply Hh|]. destruct (Store.Get _ _ _ _) as [hit m]. cbv zeta. set (s2 := noted _ _).
  apply (R_step s1 s2); [eapply R_step; [|apply R_noted]; by apply sr_sys|].
  assert (car s2 = Some c1) as Hc2 by done. clearbody s2. destruct hit as [e|]; [by apply R_replay|]. specialize (Hh s2).
  destruct (Schema.Stream (Chat c1)); [|destruct (role env) as [|[e|err]]].
  - destruct (h s2) as [[] s3]; [|done]. destruct (_ && _); [|done]. apply (R_step s2 s3); [done|apply R_keep].
  - destruct (h s2) as [[] s3]; [|done]. apply (R_step s2 s3); [done|apply shared_fetch_keeps].
  - by apply R_replay.
  - cbn [snd]. destruct (gone env); [apply R_refl|by apply sr_out].
Qed.

Lemma settle_keeps lease s : R s (settle env lease s).
Proof. unfold settle. destruct (_ <=? 0); (eapply R_step; [|apply R_noted]; by apply sr_sys). Qed.

Lemma ReserveTokens_tame cap c : tame c (ReserveTokens cap c).2.
Proof.
  pose proof (ReserveTokens_same cap c) as H. destruct (ReserveTokens cap c) as [n c']. left. by destruct H as (_ & ? & _ & ? & _).
Qed.

Lemma quota_keeps h : keeps h -> keeps (QuotaMiddleware env h).
Proof.
  intros Hh s. unfold QuotaMiddleware, RequireCarrier. destruct (car s) as [c|] eqn:Hc; [|by apply sr_out].
  assert (exists amount c1, (if cTokens c <=? 0
    then let (n, c) := ReserveTokens (Limits.MaxTokens (tTier (cTenant c))) c in (n, set_tokens n c)
    else (cTokens c, c)) = (amount, c1) /\ tame c c1) as (amount & c1 & -> & Ht).
  { destruct (_ <=? 0); [|by do 2 eexists; split; [|left]].
    pose proof (ReserveTokens_tame (Limits.MaxTokens (tTier (cTenant c))) c) as Ht.
    destruct (ReserveTokens _ c) as [n c1]. by do 2 eexists. }
  destruct (Ports.Reserve _ _ _ _ _) as [[lease|e] q]; set (s1 := noted _ _);
    assert (R s s1) as H1 by (apply (R_step s (set_car c1 s)); [by apply (sr_car s c)|];
      eapply R_step; [|apply R_noted]; by apply sr_sys).
  - specialize (Hh s1). destruct (h s1) as [y s2]. cbn [snd] in *. apply (R_step s s1); [done|].
    apply (R_step s1 s2); [done|apply settle_keeps].
  - apply (R_step s s1); [done|]. assert (car s1 = Some c1) as Hc1 by done.
    destruct e as [[]|]; (apply (R_reject c1); [done|by left]).
Qed.

Lemma limiter_keeps h : keeps h -> keeps (LimiterMiddleware env codec req h).
Proof.
  intros Hh s. unfold LimiterMiddleware, RequireCarrier. destruct (car s) as [c|] eqn:Hc; [|by apply sr_out].
  pose proof (EnsureBody_keeps c s Hc) as He. destruct (EnsureBody _ _ _ _ _ _) as [[] s1]; cbn [negb snd] in *; [|done].
  unfold with_car. apply (R_step s s1); [done|]. destruct (car s1) as [c1|] eqn:Hc1; [|apply R_refl].
  pose proof (ReserveTokens_tame (Limits.MaxTokens (tTier (cTenant c1))) c1) as Ht. destruct (ReserveTokens _ c1) as [t c2].
  cbn [snd] in Ht. apply (R_step s1 (set_car c2 s1)); [by apply (sr_car s1 c1)|].
  destruct (Ports.Allow _ _ _ _ _) as [d lim]. cbv zeta. set (s2 := noted _ _).
  apply (R_step _ s2); [eapply R_step; [|apply R_noted]; by apply sr_sys|]. assert (car s2 = Some c2) as Hc2 by done.
  destruct d as [d|]; [|by apply (R_reject c2); [|left]]. destruct (negb _).
  - cbn [snd]. eapply R_step; [|apply (R_reject c2); [done|by left]]. by apply sr_out.
  - set (s3 := set_car _ _). apply (R_step s2 s3); [apply (sr_car s2 c2); [done|by left]|].
    specialize (Hh s3). destruct (h s3) as [y s4]. cbn [snd] in *. destruct (0 <? _); [|done].
    apply (R_step s3 s4); [done|]. eapply R_step; [|apply R_noted]. by apply sr_sys.
Qed.
End relation.

(** The gate as it was found. *)
Definition same_gate s s' : Prop := gate_of s' = gate_of s.

#[export] Instance same_gate_relation : StageRelation same_gate.
Proof.
  split.
  - split; [by intros s|]. unfold same_gate. intros s1 s2 s3. congruence.
  - unfold same_gate. by intros s s' ->.
  - unfold same_gate. intros s f Hf. apply Hf.
  - done.
Qed.

(** Nothing is charged without a success of an upstream. *)
Definition billed s : Prop :=
  forall c, car s = Some c -> Consumed c = 0 \/ exists r, cRelay c = Some r /\ 200 <= Relay.Status r <= 299.
Definition billing s s' : Prop := billed s -> billed s'.

#[export] Instance billing_relation : StageRelation billing.
Proof.
  split.
  - split; [intros s Hs; exact Hs|]. intros s1 s2 s3 H1 H2 H. by apply H2, H1.
  - unfold billing, billed. by intros s s' _ ->.
  - intros s f _ Hs. exact Hs.
  - unfold billing, billed. intros s c c' Hc Ht Hb c1 [= <-].
    destruct Ht as [[-> ->]|]; [by apply (Hb c)|by left].
Qed.

(** Taking a slot and giving it back leaves every count as it was. *)
Lemma release_acquired (t u : string) (limit : Z) (g : Gate) (id : nat) :
  gate_ok g -> bounded g -> (Acquire t limit g).2 = Some (Some id) ->
  InFlight (release id (Acquire t limit g).1) u = InFlight g u.
Proof.
  intros Hok Hb. pose proof (go_count g Hok t) as Hcnt. pose proof (Hb t) as Hbt. unfold Acquire.
  case_decide; [done|]. case_decide as Hlim; [done|]. cbn [fst snd]. intros [= <-].
  assert (wrap64 (wrap64 (InFlight g t + 1) - 1) = InFlight g t) as Hw.
  { rewrite <- (wrap64_id 1) at 2 by done. rewrite wrap64_sub, Z.add_simpl_r. apply wrap64_id. unfold in_int64, min_int64. lia. }
  unfold release. cbn [closures]. rewrite lookup_insert_eq. cbn [c_released c_tenant].
  set (g' := mkGate (<[t := _]> _) (<[next g := mkClosure t false]> _) _).
  assert (InFlight g' t = wrap64 (InFlight g t + 1)) as -> by (unfold InFlight at 1; cbn; by rewrite lookup_insert_eq).
  rewrite Hw. case_decide as Hv; unfold InFlight at 1; cbn [inFlight g']; destruct (decide (t = u)) as [<-|Hne].
  - by rewrite lookup_insert_eq.
  - by rewrite !lookup_insert_ne.
  - rewrite lookup_delete_eq. cbn. lia.
  - by rewrite lookup_delete_ne, lookup_insert_ne.
Qed.

Definition counts_kept (g g' : Gate) : Prop := gate_ok g -> bounded g -> forall u, InFlight g' u = InFlight g u.

Lemma concurrency_counts h s : keeps same_gate h -> counts_kept (gate_of s) (gate_of (ConcurrencyMiddleware h s).2).
Proof.
  intros Hh Hok Hb u. unfold ConcurrencyMiddleware, RequireCarrier. destruct (car s) as [c|]; [|done].
  set (t := tID (cTenant c)). set (limit := Limits.Concurrency (tTier (cTenant c))).
  pose proof (release_acquired t u limit (gate_of s)) as Hrel.
  destruct (Acquire t limit (gate_of s)) as [g acquired] eqn:Ha. cbv zeta. cbn [fst snd] in Hrel.
  assert (acquired = None \/ acquired = Some None -> g = gate_of s) as Hsame.
  { revert Ha. unfold Acquire. case_decide; [by intros [= <- <-]|]. case_decide; [by intros [= <- <-]|].
    intros [= <- <-]. by intros [|]. }
  destruct acquired as [rel|]; [|cbn; rewrite Hsame by auto; done].
  set (s1 := noted _ _). specialize (Hh s1). unfold same_gate in Hh. change (gate_of s1) with g in Hh. destruct (h s1) as [y s2].
  cbn [snd noted on_sys set_sys note set_gate Chain.sys Governance.gate] in *.
  destruct rel as [id|]; cbn [Chain.sys set_sys set_gate note Governance.gate]; rewrite Hh.
  - by apply Hrel.
  - by rewrite Hsame by auto.
Qed.

Lemma concurrency_bills h s : keeps billing h -> billing s (ConcurrencyMiddleware h s).2.
Proof.
  intros Hh. unfold ConcurrencyMiddleware, RequireCarrier. destruct (car s) as [c|] eqn:Hc; [|by apply sr_out].
  destruct (Concurrency.Acquire _ _ _) as [g [rel|]]; cbv zeta; set (s1 := noted _ _);
    assert (billing s s1) as H1 by (intros Hb; exact Hb).
  - specialize (Hh s1). destruct (h s1) as [y s2]. cbn [snd] in *. intros Hb. exact (Hh (H1 Hb)).
  - cbn [snd]. intros Hb c' [= <-]. exact (Hb c Hc).
Qed.
End stages.

Section serve.
Context {U : Type} (uid : U -> string) (pool : U -> bool).
Context {B : Type} {brk : Breaker B}.
Context {T : Type} {tr : Pump.StreamTranscoder T}.
Context {L D : Type} {HL : Ports.Limiter L} {HD : Ports.LedgerPort D}.
Variable i : @Inference U T.
Variable env : surroundings.
Variable codec : codecs.
Variable req : request.
Variable primary : CircuitPort.env * (nat -> nat) * Z.
Variable x : @exchange_env U B.
Variable drawn : option bytes.
Variable format : string.
Variable answer : string -> Cached.resolution.
Variable cache : option Z.
Abbreviation sys := (backends L D (plane B)).

Lemma emits (es : list client_event) (f : string) (s : st sys) :
  let s' := foldl (fun s e => write (Rendered f e) s) s es in Chain.sys s' = Chain.sys s /\ car s' = car s.
Proof. destruct (emitted_out f es s) as (_ & ? & ? & _). done. Qed.

Lemma settle_billed (res : Result) c : Consumed (settleConsumption res c) = 0 \/ 200 <= Relay.Status res <= 299.
Proof.
  unfold settleConsumption. destruct (_ || _) eqn:H; [by left|right].
  apply orb_false_iff in H as [H1%Z.ltb_ge H2%Z.ltb_ge]. lia.
Qed.

(** The forward: the gate stays, and the charge comes with its result. *)
Lemma forward_keeps c candidates chain prompt n (s : st sys) :
  let s' := (Inference.forward uid pool i x c candidates chain prompt n s).2 in same_gate s s' /\ billing s s'.
Proof.
  unfold Inference.forward. cbv zeta.
  destruct (Execute _ _ _ _ _ _ _ _) as [[res r|r]|]; cbn [snd]; [..|split; [done|intros Hb; exact Hb]];
    destruct (emits (Relay.out r) (Format c) (noted Forwarded s)) as [He1 He2].
  - split; [unfold same_gate; cbn [set_car Chain.sys]; by rewrite He1|]. intros _ c' [= <-].
    destruct (settle_billed res c); [by left|]. right. by exists res.
  - split; [unfold same_gate; by rewrite He1|]. intros Hb. unfold billed. by rewrite He2.
Qed.

Section relation.
Context (R : st sys -> st sys -> Prop) `{!StageRelation R}.
Hypothesis R_forward : forall c candidates chain prompt n s, R s (Inference.forward uid pool i x c candidates chain prompt n s).2.

Lemma serve_keeps : keeps R (endpoint_handler uid pool i codec req primary x).
Proof.
  intros s. unfold endpoint_handler, ServeHTTP. destruct (car s) as [c|] eqn:Hc; [|by apply sr_out].
  pose proof (AuthorizeModel_keeps codec req R c s Hc) as He.
  destruct (AuthorizeModel _ _ _ _ _ _) as [[] s1]; cbn [negb snd] in *; [|done].
  unfold with_car. apply (R_step R s s1); [done|]. destruct (car s1) as [c1|] eqn:Hc1; [|apply (R_refl R)].
  unfold route. destruct primary as [[e tie] now]. destruct (Priority.Candidates _ _ _ _ _ _) as [[cands|err] br]; cbv zeta;
    set (s2 := on_sys _ s1); apply (R_step R s1 s2); try (by apply sr_sys); assert (car s2 = Some c1) as Hc2 by done.
  - destruct (PromptTokens c1) as [n c2] eqn:Hp.
    assert (tame c1 c2) as Ht.
    { pose proof (PromptTokens_same c1) as H. rewrite Hp in H. left. by destruct H as (_ & _ & _ & ? & _ & ? & _). }
    set (s3 := set_car c2 s2). apply (R_step R s2 s3); [by apply (sr_car s2 c1)|].
    destruct (overContext _ _ _); [apply (R_reject R c2); [done|by left]|].
    destruct (applyAffinity _ _ _ _ _ _) as [cs idx]. set (s4 := on_sys _ s3).
    apply (R_step R s3 s4); [by apply sr_sys|]. apply R_forward.
  - destruct (candidatesRejection err). apply (R_reject R c1); [done|by left].
Qed.

Lemma innermost_keeps : keeps R (innermost uid pool i env codec req primary x cache).
Proof.
  unfold innermost. destruct cache; [apply (cache_keeps _ _ _ R)|]; apply (recovery_keeps R), serve_keeps.
Qed.

Lemma behind_slot_keeps :
  keeps R (LimiterMiddleware env codec req (QuotaMiddleware env (innermost uid pool i env codec req primary x cache))).
Proof. by apply (limiter_keeps _ _ _ R), (quota_keeps _ R), innermost_keeps. Qed.

End relation.

(** The stages in front of the slot: they answer, or hand over. *)
Lemma front_splits h (s : st sys) :
  car s <> None ->
  exists s2, (forall R, StageRelation R -> R s s2) /\
  (AuthStage req answer (ModelAuthzStage (parse_chat codec) (ingest_responses codec) (ingest_anthropic codec) req h) s
   = (Done, s2) \/
   AuthStage req answer (ModelAuthzStage (parse_chat codec) (ingest_responses codec) (ingest_anthropic codec) req h) s = h s2).
Proof.
  intros Hcar. unfold AuthStage. destruct (car s) as [c|] eqn:Hc; [|done].
  assert (forall status code (R : st sys -> st sys -> Prop) (HR : StageRelation R), R s (refuse status code s)) as Href.
  { intros. unfold refuse. rewrite Hc. apply (R_reject R c); [done|by left]. }
  destruct (apiKeyOf req) as [key|]; [|eexists; split; [|by left]; intros R ?; exact (Href _ _ R _)].
  destruct (answer key) as [t| |]; [|eexists; (split; [|by left]); intros R ?; exact (Href _ _ R _)..].
  set (s1 := set_car _ s). unfold ModelAuthzStage, RequireCarrier. change (car s1) with (Some (set_tenant t c)). cbv iota.
  pose proof (fun R (H : StageRelation R) => AuthorizeModel_keeps codec req R (set_tenant t c) s1 eq_refl) as He.
  destruct (AuthorizeModel _ _ _ _ _ _) as [ok s2]; cbn [snd] in *. exists s2. split; [|destruct ok; auto].
  intros R HR. apply (R_step R s s1); [apply (sr_car s c); [done|by left]|by apply He].
Qed.

Abbreviation gateway :=
  (RequestFacts.gateway (L := L) (D := D) uid pool i env codec req primary x drawn format answer cache).

(** The request up to the slot, and past it. *)
Lemma gateway_splits b log n :
  exists s2 s3, (forall R, StageRelation R -> R (identified req drawn format b log (n + 1)) s2) /\
  Chain.sys (gateway (arriving b log n)).2 = Chain.sys s3 /\ car (gateway (arriving b log n)).2 = car s3 /\
  (s3 = s2 \/ s3 = (ConcurrencyMiddleware (LimiterMiddleware env codec req
     (QuotaMiddleware env (innermost uid pool i env codec req primary x cache))) s2).2).
Proof.
  rewrite gateway_unfold. unfold ObservationStage, governed_chain.
  change (inflight_add 1 (identified req drawn format b log n)) with (identified (L := L) (D := D) (B := B) req drawn format b log (n + 1)).
  destruct (front_splits (ConcurrencyMiddleware (LimiterMiddleware env codec req
     (QuotaMiddleware env (innermost uid pool i env codec req primary x cache)))) (identified req drawn format b log (n + 1)))
    as (s2 & HR & [-> | ->]); [done| |].
  - exists s2, s2. split_and!; [done..|by left].
  - exists s2. destruct (ConcurrencyMiddleware _ s2) as [[] s3]; exists s3; (split; [exact HR|split; [done|split; [done|by right]]]).
Qed.

Lemma gateway_counts b log n :
  counts_kept (Governance.gate b) (Governance.gate (Chain.sys (gateway (arriving b log n)).2)).
Proof.
  destruct (gateway_splits b log n) as (s2 & s3 & HR & -> & _ & Hs3).
  pose proof (HR same_gate _) as Hg. unfold same_gate in Hg. cbn [identified Chain.sys] in Hg. rewrite <- Hg.
  destruct Hs3 as [-> | ->]; [done|].
  apply concurrency_counts, (behind_slot_keeps same_gate). intros. apply forward_keeps.
Qed.

Lemma gateway_bills b log n : billed (gateway (arriving b log n)).2.
Proof.
  destruct (gateway_splits b log n) as (s2 & s3 & HR & _ & Hc & Hs3). unfold billed. rewrite Hc.
  assert (billed s2) as Hb by (apply (HR billing _); intros c [= <-]; by left).
  destruct Hs3 as [-> | ->]; [done|].
  apply concurrency_bills; [|done]. apply (behind_slot_keeps billing). intros. apply forward_keeps.
Qed.
End serve.
End SlotFacts.
