(* ===== verification/GatewayProps.v ===== *)
(** * The gateway as a whole: theorems

    The chain of Governance.v around the endpoint of Inference.v, over any
    limiter and any ledger, in any surroundings: what a request spends, what
    its tenant pays, what its client gets and what the access log says of
    it. *)
From stdpp Require Import base numbers gmap strings list.
From S2P Require Import Prelude Circuit CircuitPort Router Affinity Retry Quota Limiter Cache Upstream Stream Tokens Auth.
From S2P Require Import AuthCache Relay RelayProps Pipeline Governance Inference Gateway Serving Slots.
Import GoInt Tokens.Tokens Schema.
Local Open Scope Z_scope.

(** ** The front door: identity, body, model *)
Module FrontDoor.
Import Relay RelaySpec Carrier Reply Chain Static Cached Governance GatewaySpec GatewayFacts Inference ServeFacts RequestFacts.

(** Turned away with a status and a code, and the code of the log line; or
    let in as a tenant, with a decoded request. *)
Inductive verdict :=
  | TurnedAway (status : Z) (code logged : string)
  | LetIn (t : Tenant) (chat : ChatRequest).

Section door.
Variable codec : codecs.
Variable req : request.
Variable format : string.
Variable answer : string -> resolution.

Definition of_model (t : Tenant) (chat : ChatRequest) : verdict :=
  if decide (Model chat = "") then TurnedAway 400 "invalid_request" ""
  else if decide (tID t <> "" /\ Limits.AllowsModel (tTier t) (Model chat) = false)
  then TurnedAway 403 "model_not_allowed" "model_not_allowed"
  else LetIn t chat.

Definition of_body (t : Tenant) : verdict :=
  match reqBody req with
  | Unreadable => TurnedAway 400 "invalid_request" ""
  | Arrives body =>
      if decide (4 * 1024 * 1024 < Z.of_nat (String.length body)) then TurnedAway 413 "request_too_large" ""
      else match Ingest (parse_chat codec) (ingest_responses codec) (ingest_anthropic codec) format body with
      | inr _ => TurnedAway 400 "invalid_request" ""
      | inl (chat, _) => of_model t chat
      end
  end.

Definition front_door : verdict :=
  match apiKeyOf req with
  | None => TurnedAway 401 "missing_api_key" "missing_api_key"
  | Some key =>
      match answer key with
      | Denied => TurnedAway 401 "invalid_api_key" "invalid_api_key"
      | Failed _ => TurnedAway 503 "identity_unavailable" "identity_unavailable"
      | Found t => of_body t
      end
  end.
End door.

Section stages.
Context {L D X : Type} {HL : Ports.Limiter L} {HD : Ports.LedgerPort D}.
Variable env : surroundings.
Variable codec : codecs.
Variable req : request.
Abbreviation sys := (backends L D X).
Implicit Types (s : st sys) (c : Carrier) (h : handler sys).

(** A request turned away: its reply, and nothing moved. *)
Definition turned_away (format : string) s0 (status : Z) (code logged : string) (r : exit * st sys) : Prop :=
  r.1 = Done /\ Chain.sys r.2 = Chain.sys s0 /\ access r.2 = access s0 /\
  out r.2 = [Rendered format (Relay.RenderError status code)] /\ eErrorCode (entry_of r.2) = logged.

(** A request let in asks for its slot first. *)
Definition let_in s0 (t : Tenant) (chat : ChatRequest) (r : exit * st sys) : Prop :=
  (exists ok rest, acts (Chain.sys r.2) = acts (Chain.sys s0) ++ SlotTaken ok :: rest) /\
  exists c, car r.2 = Some c /\ cTenant c = t /\ Chat c = chat.

Definition behaves (format : string) s0 (v : verdict) (r : exit * st sys) : Prop :=
  match v with
  | TurnedAway status code logged => turned_away format s0 status code logged r
  | LetIn t chat => let_in s0 t chat r
  end.

Lemma concurrency_opens (clean : Prop) h s c :
  (forall s c, ready s c -> layer env clean rated s c (h s)) -> ready s c ->
  let_in s (cTenant c) (Chat c) (ConcurrencyMiddleware h s).
Proof.
  intros Hh Hr. split.
  - unfold ConcurrencyMiddleware, RequireCarrier. rewrite (rd_car _ _ Hr).
    destruct (Concurrency.Acquire _ _ _) as [g [rel|]]; cbv zeta.
    + set (s1 := noted _ _). assert (ready s1 c) as Hr1 by (by apply (ready_view s)).
      destruct (Hh s1 c Hr1) as [_ (l & Hl & _)]. unfold acted in Hl. destruct (h s1) as [y s2]. cbn [snd] in *.
      exists true, (l ++ [SlotGiven]). cbn. rewrite Hl. cbn. by rewrite <- !app_assoc.
    + by exists false, [].
  - pose proof (concurrency_layer env clean h s c Hh Hr) as [[_ (c' & Hc & Hs) _ _] _].
    exists c'. split_and!; [done|apply Hs..].
Qed.

Lemma authz_behaves (clean : Prop) h s c :
  (forall s c, ready s c -> layer env clean spent s c (h s)) ->
  (forall s c, ready s c -> let_in s (cTenant c) (Chat c) (h s)) -> fresh s c ->
  behaves (Format c) s (of_body codec req (Format c) (cTenant c))
    (ModelAuthzStage (parse_chat codec) (ingest_responses codec) (ingest_anthropic codec) req h s).
Proof.
  intros Hly Hh [Hcar Hout Hset Hcons Hrej Hrel Hsb]. unfold ModelAuthzStage, RequireCarrier. rewrite Hcar.
  unfold AuthorizeModel, EnsureBody, of_body. rewrite Hset.
  assert (forall s1 c1 c2 status code logged, Chain.sys s1 = Chain.sys s -> access s1 = access s -> out s1 = [] ->
    car s1 = Some c1 -> cRelay c1 = None -> RejectCode c1 = logged -> Format c2 = Format c ->
    behaves (Format c) s (TurnedAway status code logged) (Done, RenderError c2 status code s1)) as Hturn.
  { intros s1 c1 c2 status code logged H1 H2 H3 H4 H5 H6 H7. split_and!; try done; [cbn; by rewrite H3, H7|].
    by eapply entry_reject. }
  destruct (reqBody req) as [body|]; [|by apply (Hturn s c)].
  change MaxBodyBytes with (4 * 1024 * 1024). destruct (Z.ltb_spec (4 * 1024 * 1024) (Z.of_nat (String.length body))) as [Hlt|Hge].
  { rewrite decide_True by done. by apply (Hturn s c). }
  rewrite decide_False by lia. destruct (Ingest _ _ _ _ _) as [[chat up]|e]; cbn [negb].
  2:{ split_and!; try done; [cbn; by rewrite Hout|].
      eapply entry_reject; [done| |]; unfold SetBody; by rewrite Hset. }
  unfold SetBody. rewrite Hset. cbn [set_car car]. set (c1 := mkCarrier _ _ _ _ _ _ _ _ _ _ _ _ _ _ _).
  set (s1 := set_car c1 s). unfold of_model. change (Chat c1) with chat. change (cTenant c1) with (cTenant c).
  destruct (String.eqb_spec (Model chat) ""); [rewrite decide_True by done; by apply (Hturn s1 c1)|].
  rewrite decide_False by done. destruct (negb (String.eqb (tID (cTenant c)) "") && _) eqn:Hgate; cbn [negb].
  - apply andb_true_iff in Hgate as [H1%negb_true_iff%String.eqb_neq H2%negb_true_iff].
    rewrite decide_True by done. by apply (Hturn (set_car (set_reject "model_not_allowed" c1) s1) (set_reject "model_not_allowed" c1)).
  - rewrite decide_False.
    2:{ intros [H1%String.eqb_neq H2]. by rewrite H1, H2 in Hgate. }
    apply (Hh s1 c1). split; try done. intros Hid%String.eqb_neq. change (tID (cTenant c1)) with (tID (cTenant c)) in Hid.
    rewrite Hid in Hgate. by apply negb_false_iff in Hgate.
Qed.
End stages.

Section request.
Context {U : Type} (uid : U -> string) (pool : U -> bool).
Context {B : Type} {brk : Breaker B}.
Context {T : Type} {tr : Pump.StreamTranscoder T}.
Context {L D : Type} {HL : Ports.Limiter L} {HD : Ports.LedgerPort D}.
Variable i : @Inference U T.
Variable env : surroundings.
Variable codec : codecs.
Variable req : request.
Variable primary : CircuitPort.env * (nat -> nat) * Z.
Variable x : @exchange_env U B.
Variable drawn : option bytes.
Variable format : string.
Variable answer : string -> resolution.
Variable cache : option Z.

Lemma governed_behaves (b : backends L D (plane B)) log n :
  behaves format (identified req drawn format b log n) (front_door codec req format answer)
    (governed_chain uid pool i env codec req primary x answer cache (identified req drawn format b log n)).
Proof.
  set (s := identified req drawn format b log n). unfold governed_chain, AuthStage, front_door.
  set (c := set_format format (set_request_id (id_of req drawn) new_carrier)).
  assert (forall status code, behaves format s (TurnedAway status code code) (Done, refuse status code s)) as Href.
  { intros status code. split_and!; done. }
  destruct (apiKeyOf req) as [key|]; [|apply Href]. destruct (answer key) as [t| |err]; [|apply Href..].
  change (car s) with (Some c). cbv iota.
  set (s1 := set_car (set_tenant t c) s).
  refine (authz_behaves env codec req (clean x) _ s1 (set_tenant t c) _ _ _); [apply stack_layer| |by split].
  intros s2 c2 Hr. apply (concurrency_opens env (clean x)); [|done].
  intros s3 c3 Hr3. apply limiter_layer; [|done].
  intros s4 c4 t4 Hr4 Hres. apply quota_layer; [apply innermost_layer|done..].
Qed.
End request.

Lemma turned_away_status codec req format answer status code logged :
  front_door codec req format answer = TurnedAway status code logged -> 400 <= status.
Proof.
  unfold front_door, of_body, of_model. repeat case_match; by intros [= <- _ _].
Qed.
End FrontDoor.

Module GatewayProps.
Import Relay RelaySpec Carrier Reply Chain Static Governance GatewaySpec GatewayFacts Inference ServeFacts RequestFacts SlotFacts FrontDoor.

Section props.
Context {U : Type} (uid : U -> string) (pool : U -> bool).
Context {B : Type} {brk : Breaker B}.
Context {T : Type} {tr : Pump.StreamTranscoder T}.
Context {L D : Type} {HL : Ports.Limiter L} {HD : Ports.LedgerPort D}.
Variable i : @Inference U T.
Variable env : surroundings.
Variable codec : codecs.
Variable req : request.
Variable primary : CircuitPort.env * (nat -> nat) * Z.
Variable x : @exchange_env U B.
Variable drawn : option bytes.
Variable format : string.
Variable answer : string -> Cached.resolution.
Variable cache : option Z.

Abbreviation sys := (backends L D (plane B)).
Abbreviation gateway := (RequestFacts.gateway uid pool i env codec req primary x drawn format answer cache : handler sys).

(** C1. Every request ends, the gauge and every tenant's slot count return, and
    one line is logged.  A slot taken is given back, whatever was asked of the rate budget is refunded up
    to the consumption, a lease is closed exactly once, by the settlement of
    a positive consumption or a cancellation, in the reverse order of their
    taking; at most one forward; nothing is consumed without it; and no
    backend is called but for an authenticated tenant, for a model of its
    tier. *)
Theorem request_accounted (b : sys) (log : list Entry) (n : Z) :
  let (e, s) := gateway (arriving b log n) in
  e = Done /\ inflight s = n /\ (exists line, access s = log ++ [line]) /\
  counts_kept (Governance.gate b) (Governance.gate (Chain.sys s)) /\
  exists l, acts (Chain.sys s) = acts b ++ l /\ spent (consumed s) l /\ (Forwarded ∉ l -> consumed s = 0) /\
    (l = [] \/ exists c t, car s = Some c /\ authenticated req answer t /\ admitted t c).
Proof.
  pose proof (gateway_counts uid pool i env codec req primary x drawn format answer cache b log n) as Hcounts.
  destruct (gateway_governed uid pool i env codec req primary x drawn format answer cache b log n) as (s & Hrun & Hg).
  rewrite Hrun in Hcounts |- *. destruct Hg as [_ [Ha Hi] _ (l & Hl & Hsp & Hfree & Hor)]. unfold consumed_of, acted in *. cbn [snd] in *. split_and!.
  - done.
  - cbn [inflight_add record inflight]. rewrite Hi. cbn. lia.
  - exists (entry_of s). cbn [inflight_add record access]. by rewrite Ha.
  - exact Hcounts.
  - exists l. split_and!; [exact Hl|exact Hsp|exact Hfree|].
    destruct Hor as [[-> _]|(c & t & Hc & Hw & Had & _)]; [by left|right]. by exists c, t.
Qed.

(** C2. The tenant of the key pays what the request consumed, at most the lease
    it reserved, nothing without a lease, and nothing unless an upstream
    answered with a success; every other balance is as before. *)
Theorem request_pays_consumption `{laws : !Ports.LedgerLaws D} (b : sys) (log : list Entry) (n : Z) (t : Tenant) :
  Ports.ledger_ok (ledger b) -> Ports.unused (lease_id env) (ledger b) -> authenticated req answer t ->
  let s := (gateway (arriving b log n)).2 in in_int64 (consumed s) ->
  exists l, acts (Chain.sys s) = acts b ++ l /\
    let paid := match reservation l with Some amount => Z.min amount (Z.max 0 (consumed s)) | None => 0 end in
    Ports.balance (tID t) (ledger (Chain.sys s)) = Ports.balance (tID t) (ledger b) - paid /\
    (paid <= 0 \/ exists c r, car s = Some c /\ cRelay c = Some r /\ 200 <= Relay.Status r <= 299) /\
    forall u, u <> tID t -> Ports.balance u (ledger (Chain.sys s)) = Ports.balance u (ledger b).
Proof.
  intros Hok Hid (key & Hkey & Hans).
  pose proof (gateway_bills (L := L) (D := D) uid pool i env codec req primary x drawn format answer cache b log n) as Hbill.
  destruct (gateway_governed uid pool i env codec req primary x drawn format answer cache b log n) as (s & Hrun & Hg).
  rewrite Hrun in Hbill |- *. destruct Hg as [_ _ _ (l & Hl & _ & _ & Hor)].
  unfold consumed_of, acted in *. cbn [snd] in *. intros Hint. exists l. split; [exact Hl|].
  destruct Hor as [[-> Hled]|(c & t' & Hc & (key' & Hkey' & Hans') & _ & Hch)].
  - cbn [inflight_add record Chain.sys]. rewrite Hled. split_and!; [cbn; lia|by left|done].
  - assert (t' = t) as -> by congruence. destruct (Hch laws Hok Hid Hint) as [H1 H2]. split_and!; [exact H1| |exact H2].
    destruct (Hbill c Hc) as [Hz|(r & Hr & H)]; [left|right; by exists c, r].
    change (consumed _) with (consumed s). unfold consumed. rewrite Hc, Hz. by destruct (reservation l); [apply Z.le_min_r|].
Qed.

(** C3. Over upstreams that answer with final HTTP statuses, the client gets one
    reply, or left before; what the request renders goes out under a final
    status (200 to 599), which net/http accepts, and a replay under that of
    its entry; the log has one line for it, under the status of the reply,
    499 without one; and the code of a gateway envelope is the code of the
    line, which is empty only for the four codes rendered without a stamp. *)
Theorem one_coded_reply (b : sys) (log : list Entry) (n : Z) :
  clean x ->
  let s := (gateway (arriving b log n)).2 in
  exists line, access s = log ++ [line] /\
  eStatus line = (if Reply.Status (out s) =? 0 then StatusClientClosedRequest else Reply.Status (out s)) /\
  (one_reply (out s) \/ out s = [] /\ left_early env s /\ eErrorCode line = "") /\
  Forall accepted (out s) /\
  forall f status code rest, out s = Rendered f (Relay.RenderError status code) :: rest ->
    eErrorCode line = code \/ eErrorCode line = "" /\ code ∈ uncoded.
Proof.
  intros Hcl. destruct (gateway_governed uid pool i env codec req primary x drawn format answer cache b log n) as (s & -> & Hg).
  destruct Hg as [_ [Ha _] Hr _]. cbn [snd] in *. destruct (Hr Hcl) as (Hone & Hcoded & Hacc).
  exists (entry_of s). split_and!; [cbn [inflight_add record access]; by rewrite Ha|exact (entry_status s)|exact Hone|exact Hacc|exact Hcoded].
Qed.

(** C4. The verdict of the front door, by the key, the identity answer, the
    body and the model: a request turned away gets exactly its envelope, in
    the wire of its route, nothing of the backends moves, and its line has
    the status; its code is missing for a body or a model that could not be
    read.  A request let in asks for its slot first, as the tenant of its key
    and with the decoded request. *)
Theorem front_door_verdict (b : sys) (log : list Entry) (n : Z) :
  let s := (gateway (arriving b log n)).2 in
  match front_door codec req format answer with
  | TurnedAway status code logged =>
      Chain.sys s = b /\ out s = [Rendered format (Relay.RenderError status code)] /\
      exists line, access s = log ++ [line] /\ eStatus line = status /\ eErrorCode line = logged
  | LetIn t chat =>
      (exists ok rest, acts (Chain.sys s) = acts b ++ SlotTaken ok :: rest) /\
      exists c, car s = Some c /\ cTenant c = t /\ Chat c = chat
  end.
Proof.
  rewrite gateway_unfold. unfold ObservationStage.
  change (inflight_add 1 (identified req drawn format b log n)) with (identified (D := D) (L := L) (B := B) req drawn format b log (n + 1)).
  pose proof (governed_behaves (L := L) (D := D) uid pool i env codec req primary x drawn format answer cache b log (n + 1)) as Hb.
  destruct (governed_chain _ _ _ _ _ _ _ _ _ _ _) as [y s1].
  destruct (front_door codec req format answer) as [status code logged|t chat] eqn:Hv; cbn [behaves] in Hb.
  - apply turned_away_status in Hv. destruct Hb as (Hy & Hsys & Hac & Hout & Hcode). cbn [fst snd] in *. subst y. split_and!; [exact Hsys|exact Hout|].
    exists (entry_of s1). split_and!; [cbn; by rewrite Hac| |exact Hcode].
    rewrite entry_status, Hout. cbn. by rewrite (proj2 (Z.eqb_neq status 0)) by lia.
  - by destruct y.
Qed.
End props.
End GatewayProps.

(** ** A concrete gateway: the in-process backends, two upstreams *)
Module GatewayScenario.
Import Relay RelaySpec Carrier Reply Chain Static Governance GatewaySpec GatewayFacts MemoryLaws Inference ServeFacts RequestFacts SlotFacts
  FrontDoor GatewayProps.

#[local] Existing Instance Ports.memory_limiter.
#[local] Existing Instance Ports.memory_ledger.

Definition tier : Limits.Tier := Limits.mkTier "pro" 100 100000 0 0 ["gpt"] [] ∅ 2.
Definition acme : Tenant := mkTenant "acme" "Acme" "user" "key-1" tier.
Definition chat : ChatRequest := mkChat "gpt" false [mkMessage "user" "hello there"] (Some 100) None None None.
Definition codec : codecs :=
  mkCodecs (fun _ => inl chat) (fun _ => inr "no") (fun _ => inr "no") (fun _ => 1) (fun s => s) (fun v => Some v)
    (fun c => c) (fun _ => []).
Definition request : request := mkRequest "Bearer secret" "" "req-12345678" (Arrives "{}").
Definition answer (key : string) : Cached.resolution := if String.eqb key "secret" then Cached.Found acme else Cached.Denied.
Definition surrounded : surroundings := mkSurroundings 5 9 5 9 "lease-1" 5 9 (QArith_base.Qmake 1 2) [] Starter false.
Definition inference : @Inference string Empty_set :=
  mkInference FormatOpenAIChat
    (Priority.mkPriority [Priority.mkEntry {["gpt"]} "first"; Priority.mkEntry {["gpt"]} "second"] None Priority.StrategyStatic None)
    ∅ ∅ Scenario.executor (fun _ => None).
Definition look_now : CircuitPort.env * (nat -> nat) * Z := (CircuitPort.mkEnv 5 5 (QArith_base.Qmake 0 1), fun _ => 0%nat, 5).
Definition forwards (f : Z -> string -> OpenAI.Request -> OpenAI.forward_result)
  : @exchange_env string Circuit.Consecutive.Registry :=
  mkExchange (fun _ => mkLook look_now.1.1 (fun _ => 0%nat) 5 (mkPlane None None))
    (Scenario.gateway f (fun _ => [])) Scenario.codec Scenario.calm None.
Definition funded : Ledger.Memory := Ledger.SetBalance "acme" 1000 Ledger.NewMemory.
Definition system : backends Memory.Memory Ledger.Memory (plane Circuit.Consecutive.Registry) :=
  mkBackends Memory.NewMemory funded Concurrency.NewConcurrency (Store.NewMemory (Some 1)) (mkPlane None None) [].

Definition served_request (f : Z -> string -> OpenAI.Request -> OpenAI.forward_result) :=
  (gateway (fun u => u) (fun _ => false) inference surrounded codec request look_now (forwards f) None FormatOpenAIChat answer None
    (arriving system [] 0)).2.

Definition summary (s : st (backends Memory.Memory Ledger.Memory (plane Circuit.Consecutive.Registry)))
  : list act * Z * Z * list (Z * string) :=
  (acts (Chain.sys s), Ledger.balance_of (ledger (Chain.sys s)) "acme", Reply.Status (out s),
   map (fun e => (eStatus e, eErrorCode e)) (access s)).

(** The failover is served and charged; a failure everywhere is free. *)
Example served_and_charged :
  summary (served_request Scenario.answer) =
  ([SlotTaken true; Asked 102 (Some true); Reserved 102 (Some "lease-1"); Forwarded; Settled "lease-1" 102; SlotGiven],
   898, 200, [(200, ""%string)]).
Proof. by vm_compute. Qed.

Example failed_and_free :
  summary (served_request (fun _ _ _ => OpenAI.FResponse (Scenario.reply 503 "busy"))) =
  ([SlotTaken true; Asked 102 (Some true); Reserved 102 (Some "lease-1"); Forwarded; Cancelled "lease-1"; Refunded 102; SlotGiven],
   1000, 503, [(503, ""%string)]).
Proof. by vm_compute. Qed.

Lemma funded_wf : LedgerSpec.ledger_wf funded.
Proof.
  apply (LedgerFacts.set_conserves "acme" 1000 Ledger.NewMemory); [apply LedgerWitnesses.NewMemory_wf|by vm_compute].
Defined.

Lemma request_pays_consumption_witness :
  let s := served_request Scenario.answer in
  Ledger.balance_of (ledger (Chain.sys s)) "acme" = 898 /\
  Ledger.balance_of (ledger (Chain.sys s)) "other" = Ledger.balance_of funded "other".
Proof.
  destruct (request_pays_consumption (fun u => u) (fun _ => false) inference surrounded codec request look_now
    (forwards Scenario.answer) None FormatOpenAIChat answer None system [] 0 acme)
    as (l & Hl & _ & _ & Ho); [exact funded_wf|done|by exists "secret"%string|by vm_compute|].
  cbv zeta. split; [by vm_compute|]. unfold served_request. refine (Ho "other"%string _). done.
Defined.

Lemma one_coded_reply_witness :
  let s := served_request Scenario.answer in
  Reply.Status (out s) = 200 /\ exists line, access s = [line] /\ eStatus line = 200 /\ one_reply (out s).
Proof.
  cbv zeta. assert (Reply.Status (out (served_request Scenario.answer)) = 200) as Hst by by vm_compute.
  unfold served_request in *. split; [exact Hst|].
  pose proof (one_coded_reply (L := Memory.Memory) (D := Ledger.Memory) (fun u => u) (fun _ => false) inference surrounded codec
    request look_now (forwards Scenario.answer) None FormatOpenAIChat answer None system [] 0) as H.
  cbv zeta in H. revert Hst H. generalize (gateway (L := Memory.Memory) (D := Ledger.Memory) (fun u => u) (fun _ => false) inference
    surrounded codec request look_now (forwards Scenario.answer) None FormatOpenAIChat answer None (arriving system [] 0)).2.
  intros s Hst [line (Hl & Hs & [Hone|[Hnil _]] & _)].
  - split_and!; [intros n c q; apply Scenario.answer_clean|intros n c q; apply ResponseProps.answer_final|by split].
  - exists line. rewrite Hst in Hs. by split_and!.
  - by rewrite Hnil in Hst.
Defined.
End GatewayScenario.
