(* ===== verification/Metrics.v ===== *)
(** * The metrics registry (internal/obs/metrics.go)

    Families of counters, gauges and histograms, each a map from the joined
    label values to a leaf, capped at a fixed number of leaves; the recorder
    methods; and the atomic additions of one histogram observation, which
    interleave with those of other requests.  A pointer to a leaf is its key
    in the family: leaves are never replaced. *)
From Stdlib Require Import Ascii QArith.
From stdpp Require Import base numbers gmap strings pretty list.
From S2P Require Import Prelude Float64.
Import GoInt MapSum.
Local Open Scope Z_scope.
Set Warnings "-register-all".

(** ** Leaves and families *)
Module Registry.
Definition nul : ascii := Ascii.zero.

(** [value] is the [float64] held as bits; [count] and the buckets are
    [uint64]. *)
Record child := mkChild { values : list string; value : Q; count : Z; buckets : list Z }.

Record family := mkFamily {
  fname : string; fhelp : string; ftyp : string; flabels : list string; fbuckets : list Q; children : gmap string child
}.
Definition set_children (v : gmap string child) (f : family) : family :=
  mkFamily (fname f) (fhelp f) (ftyp f) (flabels f) (fbuckets f) v.

Definition defaultBuckets : list Q :=
  map rnd [1 # 1000; 25 # 10000; 5 # 1000; 1 # 100; 25 # 1000; 5 # 100; 1 # 10; 25 # 100; 5 # 10; 1; 25 # 10; 5; 10; 30; 60]%Q.

Definition wrapu64 (z : Z) : Z := z mod 2 ^ 64.

(** *** Atomic operations on a leaf *)

(** The compare-and-swap loop of [addFloat] ends in one addition. *)
Definition addFloat (delta : Q) (c : child) : child := mkChild (values c) (fadd (value c) delta) (count c) (buckets c).
Definition addCount (c : child) : child := mkChild (values c) (value c) (wrapu64 (count c + 1)) (buckets c).
Definition addBucket (i : nat) (c : child) : child :=
  mkChild (values c) (value c) (count c) (alter (fun n => wrapu64 (n + 1)) i (buckets c)).
Definition storeFloat (v : Q) (c : child) : child := mkChild (values c) v (count c) (buckets c).

(** *** The leaf of a label tuple *)
Definition maxChildren : nat := Z.to_nat 4096.
Definition labelCapOverflow : string := "*".
Definition overflowKey : string := String nul "overflow".

(** [make([]string, n)]. *)
Definition overflowValues (n : nat) : list string := replicate n ""%string.

Definition is_nul (c : ascii) : bool := Ascii.eqb c nul.
Definition has_nul (s : string) : bool := existsb is_nul (String.list_ascii_of_string s).
Definition without_nul (s : string) : string :=
  String.string_of_list_ascii (List.filter (fun c => negb (is_nul c)) (String.list_ascii_of_string s)).

Definition scrub (vs : list string) : list string := if existsb has_nul vs then map without_nul vs else vs.

(** [strings.Join(values, "\x00")]. *)
Fixpoint Join (vs : list string) : string :=
  match vs with
  | [] => ""
  | [v] => v
  | v :: vs => v +:+ String nul (Join vs)
  end.

Definition new_leaf (vs : list string) (f : family) : child :=
  mkChild vs 0 0 (if String.eqb (ftyp f) "histogram" then replicate (length (fbuckets f)) 0 else []).

(** The key of the leaf and the family with that leaf. *)
Definition childOf (vs : list string) (f : family) : string * family :=
  let vs := scrub vs in
  let key := Join vs in
  match children f !! key with
  | Some _ => (key, f)
  | None =>
      if bool_decide (maxChildren <= size (children f))%nat then
        match children f !! overflowKey with
        | Some _ => (overflowKey, f)
        | None =>
            let ov := new_leaf (map (fun _ => labelCapOverflow) (overflowValues (length (flabels f)))) f in
            (overflowKey, set_children (<[overflowKey := ov]> (children f)) f)
        end
      else (key, set_children (<[key := new_leaf vs f]> (children f)) f)
  end.

Definition on_leaf (k : string) (g : child -> child) (f : family) : family := set_children (alter g k (children f)) f.

(** ** The registry *)
Record Metrics := mkMetrics { families : gmap string family; inflight : Z; logDrops : Z; insightDrops : Z }.
Definition set_families (v : gmap string family) (m : Metrics) : Metrics := mkMetrics v (inflight m) (logDrops m) (insightDrops m).

(** A use of a family that is not there panics: [None]. *)
Definition with_leaf (name : string) (vs : list string) (g : family -> child -> child) (m : Metrics) : option Metrics :=
  match families m !! name with
  | None => None
  | Some f => let '(k, f) := childOf vs f in Some (set_families (<[name := on_leaf k (g f) f]> (families m)) m)
  end.

Definition reg (name help typ : string) (labels : list string) (buckets : list Q) (m : Metrics) : Metrics :=
  set_families (<[name := mkFamily name help typ labels buckets ∅]> (families m)) m.
End Registry.

(** ** The families of the gateway *)
Module Families.
Import Registry.
Local Open Scope string_scope.

Definition family_row : Type := string * string * string * list string * list Q.

(** The declarations in the order of [NewMetrics]. *)
Definition declared : list family_row := [
    ("breakwater_requests_total", "Client requests by outcome.", "counter", ["tenant"; "model"; "upstream"; "status"], []);
    ("breakwater_request_duration_seconds", "End-to-end request duration.", "histogram", ["upstream"], defaultBuckets);
    ("breakwater_rate_limited_total", "Requests rejected by the rate limiter.", "counter", ["tenant"], []);
    ("breakwater_concurrency_limited_total", "Requests rejected by the per-tenant concurrency ceiling.", "counter", ["tenant"], []);
    ("breakwater_quota_reservation_tokens_total", "Tokens reserved by the quota ledger.", "counter", ["tenant"], []);
    ("breakwater_quota_refunded_tokens_total", "Tokens refunded at settlement.", "counter", ["tenant"], []);
    ("breakwater_quota_reservation_expired_total", "Leases reclaimed by the sweeper.", "counter", [], []);
    ("breakwater_quota_reconciliation_error", "Ledger identity drifts detected by the reconcile protocol.", "counter", [], []);
    ("breakwater_cache_hit_total", "Responses served from the cache.", "counter", [], []);
    ("breakwater_cache_miss_total", "Cache lookups that missed.", "counter", [], []);
    ("breakwater_cache_upstream_fetch_total", "Upstream fetches on the cache path.", "counter", ["upstream"], []);
    ("breakwater_cache_shared_fetch_total", "Requests served by a shared singleflight fetch.", "counter", [], []);
    ("breakwater_circuit_open_total", "Breaker open transitions.", "counter", ["upstream"], []);
    ("breakwater_circuit_half_open_total", "Breaker half-open transitions.", "counter", ["upstream"], []);
    ("breakwater_circuit_denied_total", "Calls denied by the ratio-strategy breaker.", "counter", ["upstream"], []);
    ("breakwater_circuit_state", "Breaker state (0 closed, 1 half-open, 2 open).", "gauge", ["upstream"], []);
    ("breakwater_retry_attempts_total", "Retry attempts beyond the first.", "counter", ["upstream"], []);
    ("breakwater_retry_budget_exhausted_total", "Requests denied by the retry budget.", "counter", [], []);
    ("breakwater_upstream_failover_total", "Requests that failed over to another upstream.", "counter", ["from"; "to"], []);
    ("breakwater_upstream_saturated_total", "Attempts refused by the per-upstream in-flight ceiling.", "counter", ["upstream"], []);
    ("breakwater_sse_stream_aborted_total", "Streams terminated through the error event contract.", "counter", ["upstream"], []);
    ("breakwater_upstream_probe_total", "Active health probes by outcome.", "counter", ["upstream"; "result"], []);
    ("breakwater_upstream_auto_disabled_total", "Upstreams taken out of rotation by a fatal upstream condition.", "counter", ["upstream"; "reason"], []);
    ("breakwater_credential_retired_total", "Credentials retired by a fatal credential condition while others kept the upstream serving.", "counter", ["upstream"; "reason"], []);
    ("breakwater_upstream_ttft_seconds", "Time to first byte of streaming replies, per upstream.", "histogram", ["upstream"], defaultBuckets)].

Definition reg_row (m : Metrics) (row : family_row) : Metrics :=
  let '(name, help, typ, labels, buckets) := row in reg name help typ labels buckets m.

Definition touch (name : string) (m : Metrics) : option Metrics := with_leaf name [] (fun _ c => c) m.

(** The drop counters are created with their one leaf. *)
Definition NewMetrics : option Metrics :=
  let m := foldl reg_row (mkMetrics ∅ 0 0 0) declared in
  touch "breakwater_logs_dropped_total" (reg "breakwater_logs_dropped_total" "Access log entries dropped for capacity." "counter" [] [] m) ≫= fun m =>
  touch "breakwater_insights_records_dropped_total"
    (reg "breakwater_insights_records_dropped_total" "Insight records dropped for capacity or after shutdown." "counter" [] [] m).
End Families.

(** ** The recorder methods *)
Module Recorders.
Import Registry.
Local Open Scope string_scope.

(** A method on a registry, [None] where it would panic; every method is a
    no-op on the nil registry. *)
Definition recorder : Type := option Metrics -> option (option Metrics).

Definition guarded (r : Metrics -> option Metrics) : recorder :=
  fun m => match m with None => Some None | Some m => Some <$> r m end.

Definition inc (name : string) (amount : Q) (vs : list string) : Metrics -> option Metrics :=
  with_leaf name vs (fun _ c => addCount (addFloat amount c)).

(** The atomic additions of one observation, in their order. *)
Inductive atom := AddFloat (delta : Q) | AddCount | AddBucket (i : nat).

Definition run_atom (c : child) (a : atom) : child :=
  match a with AddFloat d => addFloat d c | AddCount => addCount c | AddBucket i => addBucket i c end.

Fixpoint bucket_atoms (i : nat) (bounds : list Q) (seconds : Q) : list atom :=
  match bounds with
  | [] => []
  | bound :: bounds => (if Qle_bool seconds bound then [AddBucket i] else []) ++ bucket_atoms (S i) bounds seconds
  end.

Definition observe_atoms (bounds : list Q) (seconds : Q) : list atom :=
  AddFloat seconds :: AddCount :: bucket_atoms 0 bounds seconds.

Definition observeHistogram (name upstream : string) (seconds : Q) : Metrics -> option Metrics :=
  with_leaf name [upstream] (fun f c => foldl run_atom c (observe_atoms (fbuckets f) seconds)).

Definition Request (tenant model upstream : string) (status : Z) : recorder :=
  guarded (inc "breakwater_requests_total" 1 [tenant; model; upstream; pretty status]).
Definition ObserveDuration (upstream : string) (seconds : Q) : recorder :=
  guarded (observeHistogram "breakwater_request_duration_seconds" upstream seconds).
Definition InflightAdd (delta : Z) : recorder :=
  guarded (fun m => Some (mkMetrics (families m) (wrap64 (inflight m + delta)) (logDrops m) (insightDrops m))).
Definition RateLimited (tenant : string) : recorder := guarded (inc "breakwater_rate_limited_total" 1 [tenant]).
Definition ConcurrencyLimited (tenant : string) : recorder := guarded (inc "breakwater_concurrency_limited_total" 1 [tenant]).
Definition QuotaReserved (tenant : string) (tokens : Z) : recorder :=
  guarded (inc "breakwater_quota_reservation_tokens_total" (fof_int tokens) [tenant]).
Definition QuotaRefunded (tenant : string) (tokens : Z) : recorder :=
  guarded (inc "breakwater_quota_refunded_tokens_total" (fof_int tokens) [tenant]).
Definition QuotaReconciliationError : recorder := guarded (inc "breakwater_quota_reconciliation_error" 1 []).
Definition QuotaExpired : recorder := guarded (inc "breakwater_quota_reservation_expired_total" 1 []).
Definition CacheHit : recorder := guarded (inc "breakwater_cache_hit_total" 1 []).
Definition CacheMiss : recorder := guarded (inc "breakwater_cache_miss_total" 1 []).
Definition CacheFetch (upstream : string) : recorder := guarded (inc "breakwater_cache_upstream_fetch_total" 1 [upstream]).
Definition CacheShared : recorder := guarded (inc "breakwater_cache_shared_fetch_total" 1 []).
Definition CircuitOpened (upstream : string) : recorder := guarded (inc "breakwater_circuit_open_total" 1 [upstream]).
Definition CircuitHalfOpen (upstream : string) : recorder := guarded (inc "breakwater_circuit_half_open_total" 1 [upstream]).
Definition CircuitDenied (upstream : string) : recorder := guarded (inc "breakwater_circuit_denied_total" 1 [upstream]).
Definition CircuitState (upstream : string) (stateValue : Q) : recorder :=
  guarded (with_leaf "breakwater_circuit_state" [upstream] (fun _ => storeFloat stateValue)).
Definition RetryScheduled (upstream : string) : recorder := guarded (inc "breakwater_retry_attempts_total" 1 [upstream]).
Definition RetryBudgetExhausted : recorder := guarded (inc "breakwater_retry_budget_exhausted_total" 1 []).
Definition Failover (from to : string) : recorder := guarded (inc "breakwater_upstream_failover_total" 1 [from; to]).
Definition UpstreamSaturated (upstream : string) : recorder := guarded (inc "breakwater_upstream_saturated_total" 1 [upstream]).
Definition StreamAborted (upstream : string) : recorder := guarded (inc "breakwater_sse_stream_aborted_total" 1 [upstream]).
Definition UpstreamProbe (upstream : string) (ok : bool) : recorder :=
  guarded (inc "breakwater_upstream_probe_total" 1 [upstream; if ok then "ok" else "fail"]).
Definition UpstreamAutoDisabled (upstream reason : string) : recorder :=
  guarded (inc "breakwater_upstream_auto_disabled_total" 1 [upstream; reason]).
Definition CredentialRetired (upstream reason : string) : recorder :=
  guarded (inc "breakwater_credential_retired_total" 1 [upstream; reason]).
Definition ObserveTTFT (upstream : string) (seconds : Q) : recorder :=
  guarded (observeHistogram "breakwater_upstream_ttft_seconds" upstream seconds).
Definition SetLogsDropped (n : Z) : recorder :=
  guarded (fun m => Some (mkMetrics (families m) (inflight m) n (insightDrops m))).
Definition SetInsightsDropped (n : Z) : recorder :=
  guarded (fun m => Some (mkMetrics (families m) (inflight m) (logDrops m) n)).

Definition Inflight (m : option Metrics) : Z := match m with None => 0 | Some m => inflight m end.

(** A call of one of them. *)
Inductive event :=
| eRequest (tenant model upstream : string) (status : Z)
| eObserveDuration (upstream : string) (seconds : Q)
| eInflightAdd (delta : Z)
| eRateLimited (tenant : string)
| eConcurrencyLimited (tenant : string)
| eQuotaReserved (tenant : string) (tokens : Z)
| eQuotaRefunded (tenant : string) (tokens : Z)
| eQuotaReconciliationError
| eQuotaExpired
| eCacheHit
| eCacheMiss
| eCacheFetch (upstream : string)
| eCacheShared
| eCircuitOpened (upstream : string)
| eCircuitHalfOpen (upstream : string)
| eCircuitDenied (upstream : string)
| eCircuitState (upstream : string) (stateValue : Q)
| eRetryScheduled (upstream : string)
| eRetryBudgetExhausted
| eFailover (from to : string)
| eUpstreamSaturated (upstream : string)
| eStreamAborted (upstream : string)
| eUpstreamProbe (upstream : string) (ok : bool)
| eUpstreamAutoDisabled (upstream reason : string)
| eCredentialRetired (upstream reason : string)
| eObserveTTFT (upstream : string) (seconds : Q)
| eSetLogsDropped (n : Z)
| eSetInsightsDropped (n : Z).

Definition record (e : event) : recorder :=
  match e with
  | eRequest tenant model upstream status => Request tenant model upstream status
  | eObserveDuration upstream seconds => ObserveDuration upstream seconds
  | eInflightAdd delta => InflightAdd delta
  | eRateLimited tenant => RateLimited tenant
  | eConcurrencyLimited tenant => ConcurrencyLimited tenant
  | eQuotaReserved tenant tokens => QuotaReserved tenant tokens
  | eQuotaRefunded tenant tokens => QuotaRefunded tenant tokens
  | eQuotaReconciliationError => QuotaReconciliationError
  | eQuotaExpired => QuotaExpired
  | eCacheHit => CacheHit
  | eCacheMiss => CacheMiss
  | eCacheFetch upstream => CacheFetch upstream
  | eCacheShared => CacheShared
  | eCircuitOpened upstream => CircuitOpened upstream
  | eCircuitHalfOpen upstream => CircuitHalfOpen upstream
  | eCircuitDenied upstream => CircuitDenied upstream
  | eCircuitState upstream stateValue => CircuitState upstream stateValue
  | eRetryScheduled upstream => RetryScheduled upstream
  | eRetryBudgetExhausted => RetryBudgetExhausted
  | eFailover from to => Failover from to
  | eUpstreamSaturated upstream => UpstreamSaturated upstream
  | eStreamAborted upstream => StreamAborted upstream
  | eUpstreamProbe upstream ok => UpstreamProbe upstream ok
  | eUpstreamAutoDisabled upstream reason => UpstreamAutoDisabled upstream reason
  | eCredentialRetired upstream reason => CredentialRetired upstream reason
  | eObserveTTFT upstream seconds => ObserveTTFT upstream seconds
  | eSetLogsDropped n => SetLogsDropped n
  | eSetInsightsDropped n => SetInsightsDropped n
  end.

(** Calls in their order, up to a panic. *)
Fixpoint record_all (es : list event) (m : option Metrics) : option (option Metrics) :=
  match es with [] => Some m | e :: es => record e m ≫= record_all es end.
End Recorders.

(** ** What the registry promises *)
Module RegistrySpec.
Import Registry Families Recorders.

Definition clean (s : string) : Prop := has_nul s = false.

(** What a family is declared with. *)
Definition shape (f : family) : string * string * string * list string * list Q :=
  (fname f, fhelp f, ftyp f, flabels f, fbuckets f).

Definition bucket_count (f : family) : nat := if String.eqb (ftyp f) "histogram" then length (fbuckets f) else 0%nat.

(** A leaf carries a value for every label, and a histogram leaf a counter
    for every bound. *)
Record leaf_ok (f : family) (k : string) (c : child) : Prop := {
  leaf_arity : length (values c) = length (flabels f);
  leaf_buckets : length (buckets c) = bucket_count f;
  leaf_clean : Forall clean (values c);
  leaf_key : k = Join (values c) \/ k = overflowKey /\ values c = replicate (length (flabels f)) labelCapOverflow
}.

(** The cap: the reserved leaf apart, at most [maxChildren]. *)
Record family_ok (f : family) : Prop := {
  family_leaves : forall k c, children f !! k = Some c -> leaf_ok f k c;
  family_cap : (size (delete overflowKey (children f)) <= maxChildren)%nat
}.

(** The declared families, and the arity of a label tuple. *)
Definition schema : gmap string (string * string * string * list string * list Q) :=
  match NewMetrics with Some m => shape <$> families m | None => ∅ end.
Definition arity (name : string) : option nat := (fun sh => length sh.1.2) <$> schema !! name.

Record registry_ok (m : Metrics) : Prop := {
  registry_schema : shape <$> families m = schema;
  registry_families : forall name f, families m !! name = Some f -> family_ok f
}.

(** The family a call adds one recording to. *)
Definition recorded (e : event) : option string :=
  match e with
  | eRequest _ _ _ _ => Some "breakwater_requests_total"
  | eObserveDuration _ _ => Some "breakwater_request_duration_seconds"
  | eRateLimited _ => Some "breakwater_rate_limited_total"
  | eConcurrencyLimited _ => Some "breakwater_concurrency_limited_total"
  | eQuotaReserved _ _ => Some "breakwater_quota_reservation_tokens_total"
  | eQuotaRefunded _ _ => Some "breakwater_quota_refunded_tokens_total"
  | eQuotaReconciliationError => Some "breakwater_quota_reconciliation_error"
  | eQuotaExpired => Some "breakwater_quota_reservation_expired_total"
  | eCacheHit => Some "breakwater_cache_hit_total"
  | eCacheMiss => Some "breakwater_cache_miss_total"
  | eCacheFetch _ => Some "breakwater_cache_upstream_fetch_total"
  | eCacheShared => Some "breakwater_cache_shared_fetch_total"
  | eCircuitOpened _ => Some "breakwater_circuit_open_total"
  | eCircuitHalfOpen _ => Some "breakwater_circuit_half_open_total"
  | eCircuitDenied _ => Some "breakwater_circuit_denied_total"
  | eRetryScheduled _ => Some "breakwater_retry_attempts_total"
  | eRetryBudgetExhausted => Some "breakwater_retry_budget_exhausted_total"
  | eFailover _ _ => Some "breakwater_upstream_failover_total"
  | eUpstreamSaturated _ => Some "breakwater_upstream_saturated_total"
  | eStreamAborted _ => Some "breakwater_sse_stream_aborted_total"
  | eUpstreamProbe _ _ => Some "breakwater_upstream_probe_total"
  | eUpstreamAutoDisabled _ _ => Some "breakwater_upstream_auto_disabled_total"
  | eCredentialRetired _ _ => Some "breakwater_credential_retired_total"
  | eObserveTTFT _ _ => Some "breakwater_upstream_ttft_seconds"
  | eCircuitState _ _ | eInflightAdd _ | eSetLogsDropped _ | eSetInsightsDropped _ => None
  end%string.

(** The recordings a family holds. *)
Definition total (f : family) : Z := map_sum (fun _ c => count c) (children f).

(** One more recording in the family [o], none in the others. *)
Definition advanced (o : option string) (m m' : Metrics) : Prop :=
  forall name f', families m' !! name = Some f' -> exists f, families m !! name = Some f /\
    total f' mod 2 ^ 64 = (total f + if decide (o = Some name) then 1 else 0) mod 2 ^ 64.
End RegistrySpec.

Module KeyFacts.
Import Registry RegistrySpec.

Lemma has_nul_cons (c : ascii) (s : string) : has_nul (String c s) = is_nul c || has_nul s.
Proof. done. Qed.

Lemma clean_cons (c : ascii) (s : string) : clean (String c s) <-> c <> nul /\ clean s.
Proof.
  unfold clean. rewrite has_nul_cons, orb_false_iff. unfold is_nul. by rewrite Ascii.eqb_neq.
Qed.

Lemma without_nul_clean (s : string) : clean (without_nul s).
Proof.
  unfold without_nul. induction s as [|c s IH]; [done|]. cbn [String.list_ascii_of_string List.filter].
  destruct (is_nul c) eqn:E; cbn [negb]; [exact IH|]. cbn [String.string_of_list_ascii].
  apply clean_cons. split; [|exact IH]. by apply Ascii.eqb_neq.
Qed.

Lemma scrub_clean (vs : list string) : Forall clean (scrub vs).
Proof.
  unfold scrub. destruct (existsb has_nul vs) eqn:E.
  - apply Forall_map, Forall_true. apply without_nul_clean.
  - induction vs as [|v vs IH]; [done|]. cbn in E. apply orb_false_iff in E as [? E]. by constructor; [|apply IH].
Qed.

Lemma scrub_length (vs : list string) : length (scrub vs) = length vs.
Proof. unfold scrub. destruct (existsb _ _); [apply length_map|done]. Qed.

Lemma scrub_id (vs : list string) : Forall clean vs -> scrub vs = vs.
Proof.
  intros H. unfold scrub. destruct (existsb has_nul vs) eqn:E; [exfalso|done].
  apply existsb_exists in E as (v & Hv & Hn). rewrite Forall_forall in H.
  specialize (H v (proj2 (list_elem_of_In _ _) Hv)). unfold clean in H. congruence.
Qed.

(** The separator splits where a clean value ends. *)
Lemma separated (v w a b : string) :
  clean v -> clean w -> v +:+ String nul a = w +:+ String nul b -> v = w /\ a = b.
Proof.
  revert w. induction v as [|c v IH]; intros [|d w] Hv Hw E; cbn in E.
  - by injection E as ->.
  - injection E as E1 E2. apply clean_cons in Hw as [? _]. congruence.
  - injection E as E1 E2. apply clean_cons in Hv as [? _]. congruence.
  - injection E as E1 E2. apply clean_cons in Hv as [_ Hv]. apply clean_cons in Hw as [_ Hw].
    destruct (IH w Hv Hw E2) as [-> ->]. by rewrite E1.
Qed.

Lemma separated_dirty (v a : string) : ~ clean (v +:+ String nul a).
Proof.
  induction v as [|c v IH]; [by intros [? _]%clean_cons|]. by intros [_ ?]%(clean_cons c (v +:+ String nul a)).
Qed.

(** Tuples of one arity share a key only when they are equal. *)
Lemma Join_inj (vs ws : list string) :
  length vs = length ws -> Forall clean vs -> Forall clean ws -> Join vs = Join ws -> vs = ws.
Proof.
  revert ws. induction vs as [|v vs IH]; intros [|w ws] Hl Hv Hw E; try done.
  injection Hl as Hl. apply Forall_cons in Hv as [Hv Hvs]. apply Forall_cons in Hw as [Hw Hws].
  destruct vs as [|v' vs], ws as [|w' ws]; try done; cbn [Join] in E; [by rewrite E|].
  apply separated in E as [-> E]; [|done..]. f_equal. by apply IH.
Qed.

(** The reserved key is the key of exactly one tuple of clean values. *)
Lemma Join_overflow (vs : list string) :
  Forall clean vs -> Join vs = overflowKey <-> vs = [""; "overflow"]%string.
Proof.
  intros Hc. split; [|by intros ->]. intros E. destruct vs as [|v [|w vs]]; [done| |].
  - cbn in E. subst v. apply Forall_cons in Hc as [Hc _]. by apply (separated_dirty "" "overflow") in Hc.
  - apply Forall_cons in Hc as [Hv Hc]. change (v +:+ String nul (Join (w :: vs)) = "" +:+ String nul "overflow") in E.
    apply separated in E as [-> E]; [|done..]. destruct vs as [|w' vs]; [by cbn in E; subst|].
    exfalso. apply (separated_dirty w (Join (w' :: vs))). change (clean (Join (w :: w' :: vs))). by rewrite E.
Qed.
End KeyFacts.

Module RegistryFacts.
Import Registry Families Recorders RegistrySpec KeyFacts.
#[local] Opaque NewMetrics schema maxChildren.

Lemma new_leaf_ok (f : family) (vs : list string) (k : string) :
  length vs = length (flabels f) -> Forall clean vs ->
  k = Join vs \/ k = overflowKey /\ vs = replicate (length (flabels f)) labelCapOverflow -> leaf_ok f k (new_leaf vs f).
Proof.
  intros Hl Hc Hk. split; try done. cbn. unfold bucket_count. destruct (String.eqb _ _); [apply length_replicate|done].
Qed.

Lemma leaf_ok_shape (f f' : family) k c : shape f' = shape f -> leaf_ok f k c -> leaf_ok f' k c.
Proof.
  intros [= _ _ Ht Hl Hb] [H1 H2 H3 H4]. split; [congruence| |done|by rewrite Hl].
  unfold bucket_count in *. by rewrite Ht, Hb.
Qed.

Lemma overflow_values_eq (n : nat) : map (fun _ => labelCapOverflow) (overflowValues n) = replicate n labelCapOverflow.
Proof. unfold overflowValues. induction n as [|n IH]; [done|]. cbn. by rewrite IH. Qed.

Lemma overflow_clean (n : nat) : Forall clean (replicate n labelCapOverflow).
Proof. apply Forall_replicate. done. Qed.

(** What [childOf] changes: at most one new empty leaf, at the key it
    returns. *)
Record found (vs : list string) (f : family) (k : string) (f' : family) : Prop := {
  found_shape : shape f' = shape f;
  found_ok : family_ok f';
  found_leaf : exists c, children f' !! k = Some c /\ (children f !! k = Some c \/ children f !! k = None /\ value c = 0%Q /\ count c = 0);
  found_frame : forall k', k' <> k -> children f' !! k' = children f !! k';
  found_key : k = Join (scrub vs) \/
    k = overflowKey /\ children f !! Join (scrub vs) = None /\ (maxChildren <= size (children f))%nat
}.

Lemma insert_found (vs ws : list string) (f : family) (k : string) :
  family_ok f -> length ws = length (flabels f) -> Forall clean ws -> children f !! k = None ->
  (k = Join ws \/ k = overflowKey /\ ws = replicate (length (flabels f)) labelCapOverflow) ->
  (size (children f) < maxChildren)%nat \/ k = overflowKey ->
  (k = Join (scrub vs) \/ k = overflowKey /\ children f !! Join (scrub vs) = None /\ (maxChildren <= size (children f))%nat) ->
  found vs f k (set_children (<[k := new_leaf ws f]> (children f)) f).
Proof.
  intros [Hleaves Hcap] Hl Hc Hk Hkey Hroom Hfound. split; [done| | |by intros k' ?; apply lookup_insert_ne|done].
  - split; cbn [children set_children].
    + intros k' c [[<- <-]|[_ Hc']]%lookup_insert_Some; apply (leaf_ok_shape f); try done; [by apply new_leaf_ok|by apply Hleaves].
    + destruct Hroom as [Hroom| ->].
      * rewrite map_size_delete, map_size_insert_None by done. destruct (_ !! overflowKey); cbn; lia.
      * by rewrite delete_insert_eq.
  - eexists. split; [apply lookup_insert_eq|]. by right.
Qed.

Lemma childOf_found (vs : list string) (f : family) :
  family_ok f -> length vs = length (flabels f) -> found vs f (childOf vs f).1 (childOf vs f).2.
Proof.
  intros Hok Hl. unfold childOf. cbv zeta. destruct (children f !! Join (scrub vs)) as [c|] eqn:Hk.
  { split; try done; [|by left]. exists c. split; [done|by left]. }
  case_bool_decide as Hsz.
  - destruct (children f !! overflowKey) as [ov|] eqn:Hov; cbn [fst snd].
    { split; try done; [|by right]. exists ov. split; [done|by left]. }
    rewrite overflow_values_eq. apply insert_found; try done; [apply length_replicate|apply overflow_clean|by right|by right|by right].
  - cbn [fst snd]. apply insert_found; try done; [by rewrite scrub_length|apply scrub_clean|by left|left; lia|by left].
Qed.

Lemma on_leaf_ok (k : string) (g : child -> child) (f : family) :
  (forall c, children f !! k = Some c -> values (g c) = values c /\ length (buckets (g c)) = length (buckets c)) ->
  family_ok f -> family_ok (on_leaf k g f).
Proof.
  intros Hg [Hl Hcap]. split; cbn [on_leaf children set_children].
  - intros k' c. rewrite lookup_alter. case_decide as E; [subst k'|by intros H; destruct (Hl _ _ H)].
    intros (c' & Hc & ->)%fmap_Some. destruct (Hg _ Hc) as [Hv Hb]. destruct (Hl _ _ Hc) as [H1 H2 H3 H4].
    split; cbn [flabels]; rewrite ?Hv, ?Hb; done.
  - rewrite <- (size_dom (delete _ _)), dom_delete_L, dom_alter_L, <- dom_delete_L, size_dom. done.
Qed.

Lemma with_leaf_spec (name : string) (vs : list string) (g : family -> child -> child) (m : Metrics) :
  registry_ok m -> arity name = Some (length vs) ->
  (forall f c, values (g f c) = values c /\ length (buckets (g f c)) = length (buckets c)) ->
  exists f k f', families m !! name = Some f /\ found vs f k f' /\
    with_leaf name vs g m = Some (set_families (<[name := on_leaf k (g f') f']> (families m)) m) /\
    registry_ok (set_families (<[name := on_leaf k (g f') f']> (families m)) m).
Proof.
  intros [Hs Hf] Ha Hg. unfold arity in Ha. rewrite <- Hs, lookup_fmap in Ha.
  destruct (families m !! name) as [f|] eqn:Hm; [|done]. cbn in Ha. injection Ha as Ha.
  pose proof (childOf_found vs f (Hf _ _ Hm) (eq_sym Ha)) as Hfound. unfold with_leaf. rewrite Hm.
  destruct (childOf vs f) as [k f'] eqn:E. cbn [fst snd] in Hfound. exists f, k, f'.
  split; [reflexivity|]. split; [exact Hfound|]. split; [reflexivity|].
  assert (shape (on_leaf k (g f') f') = shape f) as Hsh by exact (found_shape _ _ _ _ Hfound).
  split; cbn [set_families families].
  - rewrite fmap_insert, Hs, Hsh. apply insert_id. by rewrite <- Hs, lookup_fmap, Hm.
  - intros name' f2 [[<- <-]|[_ H]]%lookup_insert_Some; [|by eapply Hf].
    apply on_leaf_ok; [intros c _; apply Hg|exact (found_ok _ _ _ _ Hfound)].
Qed.

(** *** Counting the recordings *)
Lemma found_total vs f k f' : found vs f k f' -> total f' = total f.
Proof.
  intros [_ _ (c & Hc' & Hc) Hframe _]. assert (children f' = <[k := c]> (children f)) as E.
  { apply map_eq. intros k'. destruct (decide (k' = k)) as [->|Hne]; [by rewrite lookup_insert_eq|].
    rewrite lookup_insert_ne by done. by apply Hframe. }
  unfold total. rewrite E, map_sum_insert. destruct Hc as [->|(-> & _ & ->)]; cbn; lia.
Qed.

Lemma on_leaf_total (k : string) (g : child -> child) (f : family) (c : child) :
  children f !! k = Some c -> total (on_leaf k g f) = total f + count (g c) - count c.
Proof.
  intros Hc. unfold total, on_leaf. cbn [children set_children].
  assert (alter g k (children f) = <[k := g c]> (children f)) as ->.
  { apply map_eq. intros k'. destruct (decide (k' = k)) as [->|Hne].
    - by rewrite lookup_alter_eq, lookup_insert_eq, Hc.
    - by rewrite lookup_alter_ne, lookup_insert_ne by done. }
  rewrite map_sum_insert, Hc. cbn. lia.
Qed.

Lemma run_atoms (l : list atom) : forall c,
  values (foldl run_atom c l) = values c /\ length (buckets (foldl run_atom c l)) = length (buckets c).
Proof.
  induction l as [|a l IH]; intros c; [done|]. cbn [foldl]. destruct (IH (run_atom c a)) as [-> ->].
  by destruct a; cbn; rewrite ?length_alter.
Qed.

Lemma bucket_atoms_count (bounds : list Q) (seconds : Q) : forall i c,
  count (foldl run_atom c (bucket_atoms i bounds seconds)) = count c.
Proof.
  induction bounds as [|b bounds IH]; intros i c; [done|]. cbn [bucket_atoms]. rewrite foldl_app, IH.
  by destruct (Qle_bool seconds b).
Qed.

Lemma observe_count (bounds : list Q) (seconds : Q) (c : child) :
  count (foldl run_atom c (observe_atoms bounds seconds)) = wrapu64 (count c + 1).
Proof. unfold observe_atoms. cbn [foldl]. by rewrite bucket_atoms_count. Qed.

(** *** The recorders *)
Lemma leaf_call_spec (counts : bool) (name : string) (vs : list string) (g : family -> child -> child) (m : Metrics) :
  registry_ok m -> arity name = Some (length vs) ->
  (forall f c, (values (g f c) = values c /\ length (buckets (g f c)) = length (buckets c)) /\
     count (g f c) = if counts then wrapu64 (count c + 1) else count c) ->
  exists m', guarded (with_leaf name vs g) (Some m) = Some (Some m') /\ registry_ok m' /\
    advanced (if counts then Some name else None) m m'.
Proof.
  intros Hok Ha Hg. destruct (with_leaf_spec name vs g m Hok Ha (fun f c => proj1 (Hg f c))) as (f & k & f' & Hm & Hf & Hw & Hok').
  unfold guarded. rewrite Hw. eexists. split; [reflexivity|]. split; [exact Hok'|].
  intros n f2 H. cbn [set_families families] in H. apply lookup_insert_Some in H as [[<- <-]|[Hne H]].
  - exists f. split; [exact Hm|]. destruct (found_leaf _ _ _ _ Hf) as (c & Hc & _).
    rewrite (on_leaf_total _ _ _ c Hc), (found_total _ _ _ _ Hf). destruct (Hg f' c) as [_ ->]. destruct counts.
    + rewrite decide_True by done. unfold wrapu64. rewrite Zminus_mod, Zplus_mod_idemp_r, <- Zminus_mod. f_equal. lia.
    + rewrite decide_False by done. f_equal. lia.
  - exists f2. split; [exact H|]. rewrite decide_False by (destruct counts; congruence). by rewrite Z.add_0_r.
Qed.

Lemma scalar_call_spec (g : Metrics -> Metrics) (m : Metrics) :
  registry_ok m -> families (g m) = families m ->
  exists m', guarded (fun m => Some (g m)) (Some m) = Some (Some m') /\ registry_ok m' /\ advanced None m m'.
Proof.
  intros [H1 H2] Hg. exists (g m). split; [reflexivity|]. split; [split; rewrite Hg; assumption|].
  intros n f H. rewrite Hg in H. exists f. split; [exact H|]. rewrite decide_False by done. by rewrite Z.add_0_r.
Qed.

Lemma inc_spec (name : string) (amount : Q) (vs : list string) (m : Metrics) :
  registry_ok m -> arity name = Some (length vs) ->
  exists m', guarded (inc name amount vs) (Some m) = Some (Some m') /\ registry_ok m' /\ advanced (Some name) m m'.
Proof.
  intros Hok Ha. apply (leaf_call_spec true); [exact Hok|exact Ha|]. intros f c. split; [split|]; reflexivity.
Qed.

Lemma observe_spec (name upstream : string) (seconds : Q) (m : Metrics) :
  registry_ok m -> arity name = Some 1%nat ->
  exists m', guarded (observeHistogram name upstream seconds) (Some m) = Some (Some m') /\ registry_ok m' /\ advanced (Some name) m m'.
Proof.
  intros Hok Ha. apply (leaf_call_spec true); [exact Hok|exact Ha|]. intros f c. split; [apply run_atoms|apply observe_count].
Qed.

Lemma record_spec (e : event) (m : Metrics) :
  registry_ok m -> exists m', record e (Some m) = Some (Some m') /\ registry_ok m' /\ advanced (recorded e) m m'.
Proof.
  intros Hok. destruct e; cbn [record recorded];
    try (apply inc_spec; [exact Hok|vm_compute; reflexivity]);
    try (apply observe_spec; [exact Hok|vm_compute; reflexivity]);
    try (apply scalar_call_spec; [exact Hok|reflexivity]).
  apply (leaf_call_spec false); [exact Hok|vm_compute; reflexivity|]. intros f c. split; [split|]; reflexivity.
Qed.

Lemma record_nil (e : event) : record e None = Some None.
Proof. by destruct e. Qed.

(** *** The fresh registry *)
Definition fresh (m : Metrics) : Prop := forall name f, families m !! name = Some f ->
  family_ok f /\ total f = 0 /\ forall k c, children f !! k = Some c -> value c = 0%Q /\ count c = 0.

Lemma reg_fresh name help typ labels buckets m : fresh m -> fresh (reg name help typ labels buckets m).
Proof.
  intros Hm n f. unfold reg. cbn [set_families families].
  intros [[<- <-]|[_ H]]%lookup_insert_Some; [|exact (Hm n f H)].
  split; [|split; [apply map_sum_empty|intros k c H; cbn in H; by rewrite lookup_empty in H]].
  split; cbn [children]; [intros k c H; by rewrite lookup_empty in H|]. rewrite delete_empty, map_size_empty. lia.
Qed.

Lemma rows_fresh (rows : list family_row) : forall m, fresh m -> fresh (foldl reg_row m rows).
Proof.
  induction rows as [|[[[[n h] t] l] b] rows IH]; intros m Hm; [exact Hm|]. apply IH. by apply reg_fresh.
Qed.

Lemma touch_fresh (name : string) (m : Metrics) (f : family) :
  fresh m -> families m !! name = Some f -> flabels f = [] -> exists m', touch name m = Some m' /\ fresh m'.
Proof.
  intros Hm Hf Hl. destruct (Hm _ _ Hf) as (Hok & H0 & Hz). pose proof (childOf_found [] f Hok ltac:(by rewrite Hl)) as Hfound.
  unfold touch, with_leaf. rewrite Hf. destruct (childOf [] f) as [k f'] eqn:E. cbn [fst snd] in Hfound.
  eexists. split; [reflexivity|]. intros n f2. cbn [set_families families].
  intros [[<- <-]|[_ H]]%lookup_insert_Some; [|exact (Hm n f2 H)].
  destruct (found_leaf _ _ _ _ Hfound) as (c & Hc & Hor). split; [|split].
  - apply on_leaf_ok; [by intros|exact (found_ok _ _ _ _ Hfound)].
  - rewrite (on_leaf_total _ _ _ c Hc), (found_total _ _ _ _ Hfound). lia.
  - intros k2 c2 H2. unfold on_leaf in H2. cbn [children set_children] in H2. rewrite alter_id in H2 by done.
    destruct (decide (k2 = k)) as [->|Hne]; [|rewrite (found_frame _ _ _ _ Hfound) in H2 by done; by eapply Hz].
    rewrite Hc in H2. injection H2 as <-. destruct Hor as [Hor|(_ & ? & ?)]; [by eapply Hz|done].
Qed.
End RegistryFacts.

Module FreshFacts.
Import Registry Families Recorders RegistrySpec RegistryFacts.

Lemma NewMetrics_defined : exists m, NewMetrics = Some m /\ fresh m.
Proof.
  unfold NewMetrics. cbv zeta. set (m0 := foldl reg_row _ declared).
  assert (fresh m0) as H0 by (apply rows_fresh; intros n f H; cbn [families] in H; by rewrite lookup_empty in H).
  destruct (touch_fresh "breakwater_logs_dropped_total" (reg "breakwater_logs_dropped_total" "Access log entries dropped for capacity."
    "counter" [] [] m0) _ (reg_fresh _ _ _ _ _ _ H0) (lookup_insert_eq _ _ _) eq_refl) as (m1 & -> & H1).
  cbn [mbind option_bind]. apply (touch_fresh _ _ _ (reg_fresh _ _ _ _ _ _ H1) (lookup_insert_eq _ _ _)). reflexivity.
Qed.

#[local] Opaque NewMetrics.
Lemma NewMetrics_ok : exists m, NewMetrics = Some m /\ registry_ok m /\ fresh m.
Proof.
  destruct NewMetrics_defined as (m & Hm & Hf). exists m. split; [exact Hm|]. split; [|exact Hf].
  split; [unfold schema; rewrite Hm; reflexivity|intros n f H; by destruct (Hf n f H)].
Qed.
End FreshFacts.

(** ** The values of the plain counters *)
Module CounterFacts.
Import Registry Families Recorders RegistrySpec RegistryFacts FreshFacts.
#[local] Opaque NewMetrics schema maxChildren.

(** The families whose recordings add one. *)
Definition unit_counter (name : string) : Prop :=
  name ∉ ["breakwater_quota_reservation_tokens_total"; "breakwater_quota_refunded_tokens_total";
          "breakwater_request_duration_seconds"; "breakwater_upstream_ttft_seconds"; "breakwater_circuit_state"]%string.

Definition exact_leaf (n : Z) (c : child) : Prop := 0 <= count c <= n /\ (value c == inject_Z (count c))%Q.

Definition exact_upto (n : Z) (m : Metrics) : Prop :=
  forall name f k c, unit_counter name -> families m !! name = Some f -> children f !! k = Some c -> exact_leaf n c.

Lemma rnd_proper (x y : Q) : (x == y)%Q -> (rnd x == rnd y)%Q.
Proof. intros E. apply Qle_antisym; apply rnd_mono; rewrite E; apply Qle_refl. Qed.

Lemma exact_leaf_mono (n n' : Z) (c : child) : n <= n' -> exact_leaf n c -> exact_leaf n' c.
Proof. intros ? [? ?]. split; [lia|done]. Qed.

Lemma exact_leaf_step (n : Z) (c : child) :
  n + 1 <= 2 ^ 53 -> exact_leaf n c -> exact_leaf (n + 1) (addCount (addFloat 1 c)).
Proof.
  intros Hn [Hc Hv]. unfold exact_leaf. cbn [addCount addFloat count value]. unfold wrapu64.
  rewrite Z.mod_small by lia. split; [lia|]. unfold fadd.
  rewrite (rnd_proper _ (inject_Z (count c + 1))) by (rewrite Hv, inject_Z_plus; reflexivity).
  apply rnd_int. unfold prec. lia.
Qed.

Lemma leaf_call_exact (name : string) (vs : list string) (g : family -> child -> child) (n : Z) (m m' : Metrics) :
  registry_ok m -> arity name = Some (length vs) ->
  (forall f c, values (g f c) = values c /\ length (buckets (g f c)) = length (buckets c)) ->
  (unit_counter name -> forall f c, g f c = addCount (addFloat 1 c)) -> 0 <= n -> n + 1 <= 2 ^ 53 ->
  exact_upto n m -> guarded (with_leaf name vs g) (Some m) = Some (Some m') -> exact_upto (n + 1) m'.
Proof.
  intros Hok Ha Hg Hunit Hn0 Hn Hex E. destruct (with_leaf_spec name vs g m Hok Ha Hg) as (f & k & f' & Hm & Hf & Hw & _).
  unfold guarded in E. rewrite Hw in E. injection E as <-. intros name2 f2 k2 c2 Hu Hf2 Hc2. cbn [set_families families] in Hf2.
  apply lookup_insert_Some in Hf2 as [[<- <-]|[_ Hf2]]; [|by eapply exact_leaf_mono; [|eapply Hex]; [lia|..]].
  assert (forall c, children f' !! k2 = Some c -> exact_leaf n c) as Hold.
  { intros c Hc. destruct (decide (k2 = k)) as [->|Hne].
    - destruct (found_leaf _ _ _ _ Hf) as (c' & Hc' & Hor). rewrite Hc in Hc'. injection Hc' as <-.
      destruct Hor as [Hor|(_ & Hv & Hcount)]; [by eapply Hex|]. split; [|by rewrite Hv, Hcount].
      rewrite Hcount. lia.
    - rewrite (found_frame _ _ _ _ Hf) in Hc by done. by eapply Hex. }
  unfold on_leaf in Hc2. cbn [children set_children] in Hc2. rewrite lookup_alter in Hc2. case_decide as Hk.
  - apply fmap_Some in Hc2 as (c & Hc & ->). rewrite (Hunit Hu). apply exact_leaf_step; [exact Hn|subst k2; exact (Hold c Hc)].
  - eapply exact_leaf_mono; [|exact (Hold _ Hc2)]. lia.
Qed.

Lemma scalar_call_exact (g : Metrics -> Metrics) (n : Z) (m m' : Metrics) :
  families (g m) = families m -> exact_upto n m -> guarded (fun m => Some (g m)) (Some m) = Some (Some m') -> exact_upto (n + 1) m'.
Proof.
  intros Hg Hex [= <-] name f k c Hu Hf Hc. rewrite Hg in Hf. eapply exact_leaf_mono; [|by eapply Hex]. lia.
Qed.

(** A call as the use of its leaf. *)
Ltac unfold_recorders E :=
  cbv beta iota delta [record inc observeHistogram
    Request ObserveDuration InflightAdd RateLimited ConcurrencyLimited QuotaReserved QuotaRefunded
    QuotaReconciliationError QuotaExpired CacheHit CacheMiss CacheFetch CacheShared CircuitOpened
    CircuitHalfOpen CircuitDenied CircuitState RetryScheduled RetryBudgetExhausted Failover UpstreamSaturated
    StreamAborted UpstreamProbe UpstreamAutoDisabled CredentialRetired ObserveTTFT SetLogsDropped
    SetInsightsDropped] in E.

Lemma record_exact (e : event) (n : Z) (m m' : Metrics) :
  registry_ok m -> 0 <= n -> n + 1 <= 2 ^ 53 -> exact_upto n m -> record e (Some m) = Some (Some m') -> exact_upto (n + 1) m'.
Proof.
  intros Hok H0 Hn Hex E.
  destruct e; unfold_recorders E;
    lazymatch type of E with
    | guarded (with_leaf _ _ _) _ = _ => idtac
    | _ => refine (scalar_call_exact _ n m m' _ Hex E); reflexivity
    end;
    (eapply leaf_call_exact in E; [exact E|exact Hok|vm_compute; reflexivity| | |exact H0|exact Hn|exact Hex]);
    try (intros f c; split; reflexivity); try (intros f c; apply run_atoms); try (intros _ f c; reflexivity);
    intros Hun; exfalso; apply Hun; apply (bool_decide_unpack _); exact I.
Qed.
End CounterFacts.

(** ** Concurrent observations of one leaf *)
Module Concurrent.
Import Registry Recorders.

(** The leaf, and what each running observation still has to add. *)
Record config := mkConfig { leaf : child; pending : list (list atom) }.

Inductive step : config -> config -> Prop :=
| step_atom (i : nat) (a : atom) (rest : list atom) (c : child) (ps : list (list atom)) :
    ps !! i = Some (a :: rest) -> step (mkConfig c ps) (mkConfig (run_atom c a) (<[i := rest]> ps)).

(** Observations of [obs] that all begin on an empty leaf. *)
Definition started (bounds : list Q) (vs : list string) (obs : list Q) : config :=
  mkConfig (mkChild vs 0 0 (replicate (length bounds) 0)) (map (observe_atoms bounds) obs).

Definition at_most (bound : Q) (obs : list Q) : Z := Z.of_nat (length (List.filter (fun s => Qle_bool s bound) obs)).

Definition is_count (a : atom) : bool := match a with AddCount => true | _ => false end.
Definition is_bucket (i : nat) (a : atom) : bool := match a with AddBucket j => Nat.eqb i j | _ => false end.
Definition occ (p : atom -> bool) (l : list atom) : Z := Z.of_nat (length (List.filter p l)).

Lemma occ_app p l l' : occ p (l ++ l') = occ p l + occ p l'.
Proof. unfold occ. rewrite List.filter_app, length_app. lia. Qed.

Lemma occ_cons p a l : occ p (a :: l) = (if p a then 1 else 0) + occ p l.
Proof. unfold occ. cbn. destruct (p a); cbn [length]; lia. Qed.

Lemma occ_nonneg p l : 0 <= occ p l.
Proof. unfold occ. lia. Qed.

Lemma occ_bucket_atoms (s : Q) (bounds : list Q) : forall n i,
  occ (is_bucket i) (bucket_atoms n bounds s)
  = if decide (n <= i)%nat then match bounds !! (i - n)%nat with Some b => if Qle_bool s b then 1 else 0 | None => 0 end else 0.
Proof.
  induction bounds as [|b bounds IH]; intros n i; cbn [bucket_atoms]; [by destruct (decide _)|].
  rewrite occ_app, IH. destruct (decide (n <= i)%nat) as [Hle|Hgt].
  - destruct (decide (S n <= i)%nat) as [Hlt|].
    + replace (i - n)%nat with (S (i - S n)) by lia. cbn [lookup list_lookup].
      destruct (Qle_bool s b); [|done]. rewrite occ_cons. cbn [is_bucket]. by rewrite (proj2 (Nat.eqb_neq i n)) by lia.
    + assert (i = n) as -> by lia. rewrite Nat.sub_diag. cbn [lookup list_lookup].
      destruct (Qle_bool s b); [|done]. rewrite occ_cons. cbn [is_bucket]. by rewrite Nat.eqb_refl.
  - rewrite decide_False by lia. destruct (Qle_bool s b); [|done]. rewrite occ_cons. cbn [is_bucket].
    by rewrite (proj2 (Nat.eqb_neq i n)) by lia.
Qed.

Lemma occ_count_atoms (s : Q) (bounds : list Q) : forall n, occ is_count (bucket_atoms n bounds s) = 0.
Proof.
  induction bounds as [|b bounds IH]; intros n; [done|]. cbn [bucket_atoms]. rewrite occ_app, IH. by destruct (Qle_bool s b).
Qed.

Definition lands (bounds : list Q) (i : nat) (s : Q) : Z :=
  match bounds !! i with Some b => if Qle_bool s b then 1 else 0 | None => 0 end.

Lemma observe_occ (bounds : list Q) (s : Q) (i : nat) :
  occ is_count (observe_atoms bounds s) = 1 /\ occ (is_bucket i) (observe_atoms bounds s) = lands bounds i s.
Proof.
  unfold observe_atoms. rewrite !occ_cons, occ_count_atoms, occ_bucket_atoms, decide_True, Nat.sub_0_r by lia. done.
Qed.

(** What an observation has added so far never has a bucket ahead of the
    count. *)
Lemma done_ahead (bounds : list Q) (s : Q) (i : nat) (d r : list atom) :
  observe_atoms bounds s = d ++ r -> occ (is_bucket i) d <= occ is_count d <= 1.
Proof.
  intros E. destruct (observe_occ bounds s i) as [Hc Hb]. pose proof (f_equal (occ is_count) E) as Ec.
  pose proof (f_equal (occ (is_bucket i)) E) as Eb. rewrite Hc, occ_app in Ec. rewrite Hb, occ_app in Eb.
  pose proof (occ_nonneg is_count r). pose proof (occ_nonneg (is_bucket i) r). split; [|lia].
  assert (lands bounds i s <= 1) by (unfold lands; destruct (bounds !! i); [destruct (Qle_bool _ _)|]; lia).
  destruct d as [|a1 [|a2 d]]; [done|injection E as <- _; done|]. injection E as <- <- _.
  rewrite !occ_cons in *. cbn [is_count is_bucket] in *. pose proof (occ_nonneg is_count d). lia.
Qed.

(** The observations with what they did and what they owe. *)
Record run := mkRun { seen : Q; did : list atom; owed : list atom }.

Fixpoint tally (p : atom -> bool) (rs : list run) : Z :=
  match rs with [] => 0 | r :: rs => occ p (did r) + tally p rs end.

Lemma tally_insert p rs i r r' : rs !! i = Some r -> tally p (<[i := r']> rs) = tally p rs + occ p (did r') - occ p (did r).
Proof.
  revert i. induction rs as [|x rs IH]; intros [|i] H; [done..| |].
  - injection H as ->. cbn. lia.
  - change (tally p (<[S i := r']> (x :: rs))) with (occ p (did x) + tally p (<[i := r']> rs)). rewrite (IH i H). cbn [tally]. lia.
Qed.

Record explained (bounds : list Q) (vs : list string) (obs : list Q) (rs : list run) (cfg : config) : Prop := {
  ex_obs : map seen rs = obs;
  ex_pending : pending cfg = map owed rs;
  ex_split : Forall (fun r => observe_atoms bounds (seen r) = did r ++ owed r) rs;
  ex_count : count (leaf cfg) = tally is_count rs;
  ex_length : length (buckets (leaf cfg)) = length bounds;
  ex_bucket : forall i b, buckets (leaf cfg) !! i = Some b -> b = tally (is_bucket i) rs
}.

Lemma tally_bounds (bounds : list Q) (rs : list run) (i : nat) :
  Forall (fun r => observe_atoms bounds (seen r) = did r ++ owed r) rs ->
  0 <= tally (is_bucket i) rs <= tally is_count rs /\ tally is_count rs <= Z.of_nat (length rs).
Proof.
  induction 1 as [|r rs Hr _ IH]; cbn [tally length]; [lia|]. pose proof (done_ahead bounds (seen r) i _ _ Hr).
  pose proof (occ_nonneg (is_bucket i) (did r)). lia.
Qed.

Lemma tally_done (bounds : list Q) (rs : list run) (i : nat) (b : Q) :
  Forall (fun r => observe_atoms bounds (seen r) = did r ++ owed r) rs -> Forall (fun r => owed r = []) rs -> bounds !! i = Some b ->
  tally is_count rs = Z.of_nat (length rs) /\ tally (is_bucket i) rs = at_most b (map seen rs).
Proof.
  intros Hs Ho Hb. induction Hs as [|r rs Hr Hs IH]; [done|]. apply Forall_cons in Ho as [Hor Ho].
  destruct (IH Ho) as [E1 E2]. cbn [tally length map]. rewrite E1, E2. rewrite Hor, app_nil_r in Hr. rewrite <- Hr.
  destruct (observe_occ bounds (seen r) i) as [-> ->]. unfold lands. rewrite Hb. unfold at_most. cbn [List.filter].
  destruct (Qle_bool (seen r) b); cbn [length]; lia.
Qed.

Lemma started_explained (bounds : list Q) (vs : list string) (obs : list Q) :
  explained bounds vs obs (map (fun s => mkRun s [] (observe_atoms bounds s)) obs) (started bounds vs obs).
Proof.
  split; cbn [started pending leaf count buckets].
  - rewrite map_map. apply map_id.
  - by rewrite map_map.
  - by apply Forall_map, Forall_true.
  - induction obs as [|s obs IH]; [done|]. cbn. by rewrite <- IH.
  - apply length_replicate.
  - intros i b [-> _]%lookup_replicate_1. induction obs as [|s obs IH]; [done|]. cbn. by rewrite <- IH.
Qed.

Lemma step_explained bounds vs obs rs cfg cfg' :
  Z.of_nat (length obs) < 2 ^ 64 -> explained bounds vs obs rs cfg -> step cfg cfg' -> exists rs', explained bounds vs obs rs' cfg'.
Proof.
  intros Hn [Eo Ep Es Ec El Eb] Hstep. destruct Hstep as [i a rest c ps Hi]. cbn [pending leaf] in *. subst ps.
  rewrite list_lookup_fmap in Hi. apply fmap_Some in Hi as (r & Hr & Howed). set (r' := mkRun (seen r) (did r ++ [a]) rest).
  assert (Forall (fun r => observe_atoms bounds (seen r) = did r ++ owed r) (<[i := r']> rs)) as Es'.
  { apply Forall_insert; [done|]. cbn. rewrite <- app_assoc. cbn. rewrite Howed. by eapply Forall_lookup_1 in Es. }
  assert (forall p, tally p (<[i := r']> rs) = tally p rs + (if p a then 1 else 0)) as Ht.
  { intros p. rewrite (tally_insert p rs i r r' Hr). change (did r') with (did r ++ [a]).
    rewrite occ_app, occ_cons. change (occ p []) with 0. lia. }
  assert (length rs = length obs) as Hlen by (rewrite <- Eo; symmetry; apply length_map).
  exists (<[i := r']> rs). split; cbn [pending leaf].
  - rewrite <- Eo. change (seen <$> <[i := r']> rs = seen <$> rs). rewrite list_fmap_insert. apply list_insert_id.
    by rewrite list_lookup_fmap, Hr.
  - symmetry. apply list_fmap_insert.
  - exact Es'.
  - destruct (tally_bounds _ _ 0%nat Es') as [[? ?] Hle]. rewrite length_insert, Hlen, Ht in Hle. rewrite Ht.
    destruct (tally_bounds _ _ 0%nat Es) as [? _]. destruct a; cbn [run_atom addFloat addCount addBucket count is_count] in *; try lia.
    unfold wrapu64. rewrite Z.mod_small; lia.
  - destruct a; cbn [run_atom addFloat addCount addBucket buckets]; rewrite ?length_alter; done.
  - intros j b Hb. destruct (tally_bounds _ _ j Es') as [[? Hle1] Hle2]. rewrite length_insert, Hlen in Hle2.
    rewrite !Ht in Hle1. rewrite Ht in Hle2. rewrite Ht. destruct (tally_bounds _ _ j Es) as [? _].
    destruct a as [| |k]; cbn [run_atom addFloat addCount addBucket buckets is_bucket is_count] in *; [rewrite (Eb _ _ Hb); lia..|].
    destruct (Nat.eqb_spec j k) as [->|Hne].
    + rewrite list_lookup_alter_eq in Hb. apply fmap_Some in Hb as (b0 & Hb0 & ->). rewrite (Eb _ _ Hb0). unfold wrapu64.
      rewrite Z.mod_small; lia.
    + rewrite list_lookup_alter_ne in Hb by done. rewrite (Eb _ _ Hb). lia.
Qed.

Lemma owes_one (ps : list (list atom)) : forall i a rest, ps !! i = Some (a :: rest) -> (0 < sum_list_with length ps)%nat.
Proof.
  induction ps as [|x ps IH]; intros [|i] a rest Hi; [done..| |].
  - injection Hi as ->. cbn. lia.
  - cbn. specialize (IH i a rest Hi). lia.
Qed.

Lemma owed_insert (ps : list (list atom)) : forall i a rest, ps !! i = Some (a :: rest) ->
  sum_list_with length (<[i := rest]> ps) = (sum_list_with length ps - 1)%nat.
Proof.
  induction ps as [|x ps IH]; intros [|i] a rest Hi; [done..| |].
  - injection Hi as ->. cbn. lia.
  - change (<[S i := rest]> (x :: ps)) with (x :: <[i := rest]> ps). cbn [sum_list_with].
    rewrite (IH i a rest Hi). pose proof (owes_one ps i a rest Hi). lia.
Qed.
End Concurrent.

(** ** Properties *)
Module MetricsProps.
Import Registry Families Recorders RegistrySpec KeyFacts RegistryFacts FreshFacts CounterFacts.
#[local] Opaque NewMetrics schema maxChildren.

(** C37. The registry is well typed: whatever a recorder method is called
    with, the family it names is declared with as many labels as it passes
    and, for a histogram, one counter per bound, so the call returns, and
    the registry it leaves is well formed again; on a nil registry every
    method does nothing. *)
Theorem recorders_typed (e : event) (m : Metrics) :
  registry_ok m ->
  (exists m', record e (Some m) = Some (Some m') /\ registry_ok m' /\ advanced (recorded e) m m') /\
  record e None = Some None.
Proof. intros Hok. split; [exact (record_spec e m Hok)|exact (record_nil e)]. Qed.

Lemma recorders_typed_witness :
  exists m m', NewMetrics = Some m /\ record (eRequest "t" "gpt" "u" 200) (Some m) = Some (Some m') /\ registry_ok m'.
Proof.
  destruct NewMetrics_ok as (m & Hm & Hok & _).
  destruct (recorders_typed (eRequest "t" "gpt" "u" 200) m Hok) as [(m' & Hr & Hok' & _) _].
  exists m, m'. split; [exact Hm|]. split; [exact Hr|exact Hok'].
Defined.

(** Nothing recorded is lost and nothing grows without bound: after any
    calls on a new registry, in any order and with any label values, every
    family has at most one leaf more than the cap, and the counts of its
    leaves add up to the calls that record in it (modulo the width of a
    counter). *)
Theorem recordings_accounted :
  exists m0, NewMetrics = Some m0 /\ forall es : list event,
  exists m, record_all es (Some m0) = Some (Some m) /\ registry_ok m /\
  forall name f, families m !! name = Some f ->
    (size (children f) <= maxChildren + 1)%nat /\
    total f mod 2 ^ 64 = Z.of_nat (length (filter (fun e => recorded e = Some name) es)) mod 2 ^ 64.
Proof.
  destruct NewMetrics_ok as (m0 & Hm0 & Hok0 & Hfresh). exists m0. split; [exact Hm0|]. intros es.
  assert (forall m, registry_ok m -> exists m', record_all es (Some m) = Some (Some m') /\ registry_ok m' /\
    forall name f', families m' !! name = Some f' -> exists f, families m !! name = Some f /\
      total f' mod 2 ^ 64 = (total f + Z.of_nat (length (filter (fun e => recorded e = Some name) es))) mod 2 ^ 64) as Hall.
  { clear. induction es as [|e es IH]; intros m Hok.
    { exists m. split; [reflexivity|]. split; [exact Hok|]. intros name f H. exists f. split; [exact H|]. by rewrite Z.add_0_r. }
    destruct (record_spec e m Hok) as (m1 & H1 & Hok1 & Hadv). destruct (IH m1 Hok1) as (m2 & H2 & Hok2 & Hsum).
    exists m2. cbn [record_all]. rewrite H1. split; [exact H2|]. split; [exact Hok2|].
    intros name f2 Hf2. destruct (Hsum _ _ Hf2) as (f1 & Hf1 & E2). destruct (Hadv _ _ Hf1) as (f & Hf & E1).
    exists f. split; [exact Hf|]. rewrite E2, <- Zplus_mod_idemp_l, E1, Zplus_mod_idemp_l. f_equal.
    destruct (decide (recorded e = Some name)); [rewrite filter_cons_True by done|rewrite filter_cons_False by done];
      cbn [length]; lia. }
  destruct (Hall m0 Hok0) as (m & Hm & Hok & Hsum). exists m. split; [exact Hm|]. split; [exact Hok|].
  intros name f Hf. destruct (registry_families _ Hok _ _ Hf) as [_ Hcap]. destruct (Hsum _ _ Hf) as (f0 & Hf0 & ->).
  destruct (Hfresh _ _ Hf0) as (_ & -> & _). split; [|done].
  rewrite map_size_delete in Hcap. destruct (children f !! overflowKey); cbn in Hcap; lia.
Qed.

(** A plain counter is exact: within 2^53 calls, the value of every leaf
    of a family whose recordings add one is the number of its recordings,
    though it is kept as a binary64. *)
Theorem counters_exact :
  exists m0, NewMetrics = Some m0 /\ forall (es : list event) (m : Metrics),
  Z.of_nat (length es) <= 2 ^ 53 -> record_all es (Some m0) = Some (Some m) ->
  forall name f k c, unit_counter name -> families m !! name = Some f -> children f !! k = Some c ->
    0 <= count c <= Z.of_nat (length es) /\ (value c == inject_Z (count c))%Q.
Proof.
  destruct NewMetrics_ok as (m0 & Hm0 & Hok0 & Hfresh). exists m0. split; [exact Hm0|]. intros es m Hlen Hm.
  assert (forall n m1, 0 <= n -> n + Z.of_nat (length es) <= 2 ^ 53 -> registry_ok m1 -> exact_upto n m1 ->
    record_all es (Some m1) = Some (Some m) -> exact_upto (n + Z.of_nat (length es)) m) as Hall.
  { clear. induction es as [|e es IH]; intros n m1 Hn Hlen Hok Hex E.
    { injection E as <-. cbn. by rewrite Z.add_0_r. }
    cbn [record_all length] in *. destruct (record_spec e m1 Hok) as (m2 & H2 & Hok2 & _). rewrite H2 in E. cbn in E.
    replace (n + Z.of_nat (S (length es))) with (n + 1 + Z.of_nat (length es)) in * by lia.
    apply (IH (n + 1) m2); [lia|lia|exact Hok2| |exact E]. apply (record_exact e n m1 m2); [exact Hok|lia|lia|exact Hex|exact H2]. }
  apply (Hall 0 m0); [lia|lia|exact Hok0| |exact Hm]. intros name f k c _ Hf Hc.
  destruct (Hfresh _ _ Hf) as (_ & _ & Hz). destruct (Hz _ _ Hc) as [Hv Hcount]. split; [lia|]. by rewrite Hv, Hcount.
Qed.

(** A recording is credited to the leaf that shows its own labels, free
    of NUL bytes, so that two tuples never share a leaf unless they are
    equal; the exceptions are a full family, whose new tuples share the
    reserved leaf, and the one tuple of a two-label family whose key is the
    reserved key. *)
Theorem credited_leaf (f : family) (vs : list string) :
  family_ok f -> length vs = length (flabels f) ->
  let k := (childOf vs f).1 in
  exists c, children (childOf vs f).2 !! k = Some c /\ length (values c) = length (flabels f) /\
    (values c = scrub vs \/
     k = overflowKey /\ ((maxChildren <= size (children f))%nat /\ children f !! Join (scrub vs) = None \/
                        scrub vs = [""; "overflow"]%string)) /\
    (forall ws, length ws = length (flabels f) -> k <> overflowKey -> (childOf ws f).1 = k -> scrub ws = scrub vs).
Proof.
  intros Hok Hl k. pose proof (childOf_found vs f Hok Hl) as [Hsh Hok' (c & Hc & _) _ Hkey]. exists c.
  split; [exact Hc|]. destruct (family_leaves _ Hok' _ _ Hc) as [Ha _ Hclean Hk]. injection Hsh as _ _ _ Hfl _.
  rewrite Hfl in Ha. split; [exact Ha|]. split.
  - destruct Hkey as [Hkey|(Hkey & Hnone & Hfull)]; [|right; split; [exact Hkey|by left]].
    destruct Hk as [Hk|[Hk _]].
    + left. apply Join_inj; [by rewrite scrub_length, Ha|exact Hclean|apply scrub_clean|congruence].
    + right. split; [exact Hk|]. right. apply Join_overflow; [apply scrub_clean|]. congruence.
  - intros ws Hlw Hne Hws. destruct (childOf_found ws f Hok Hlw) as [_ _ _ _ Hkw].
    destruct Hkey as [Hkey|[? _]]; [|done]. rewrite Hws in Hkw. destruct Hkw as [Hkw|[? _]]; [|done].
    apply Join_inj; [by rewrite !scrub_length, Hl, Hlw|apply scrub_clean..|]. unfold k in Hkw. congruence.
Qed.

Definition two_labels : family := mkFamily "breakwater_upstream_failover_total" "" "counter" ["from"; "to"] [] ∅.

Lemma two_labels_ok : family_ok two_labels.
Proof. split; [intros k c H; cbn in H; by rewrite lookup_empty in H|]. cbn. rewrite delete_empty, map_size_empty. lia. Qed.

Lemma credited_leaf_witness :
  exists c, children (childOf ["a"; String nul "b"] two_labels).2 !! ("a" +:+ String nul "b") = Some c /\ values c = ["a"; "b"]%string.
Proof.
  destruct (credited_leaf two_labels ["a"; String nul "b"]%string two_labels_ok eq_refl) as (c & Hc & _ & Hv & _).
  exists c. split; [exact Hc|]. destruct Hv as [Hv|[Hk _]]; [exact Hv|]. by apply (bool_decide_pack _) in Hk.
Defined.

(** The reserved key is a key of label values after all: the failover from
    an upstream without a name to one named overflow. *)
Lemma reserved_key_taken : (childOf [""; "overflow"]%string two_labels).1 = overflowKey.
Proof. reflexivity. Qed.

(** A histogram leaf under concurrent observations, interleaved in any
    order of their atomic additions: no bucket is ever ahead of the count,
    nor the count ahead of the observations; and once all have finished the
    count is their number and every bucket holds exactly the observations at
    most its bound.  A leaf where an observation is unfinished can always
    move on, and every addition shortens what is owed. *)
Theorem histogram_interleaved (bounds : list Q) (vs : list string) (obs : list Q) (cfg : Concurrent.config) :
  Z.of_nat (length obs) < 2 ^ 64 -> rtc Concurrent.step (Concurrent.started bounds vs obs) cfg ->
  let c := Concurrent.leaf cfg in
  let owed := Concurrent.pending cfg in
  (forall i b, buckets c !! i = Some b -> 0 <= b <= count c /\ count c <= Z.of_nat (length obs)) /\
  (Forall (fun l => l = []) owed ->
     forall i bound, bounds !! i = Some bound ->
       count c = Z.of_nat (length obs) /\ buckets c !! i = Some (Concurrent.at_most bound obs)) /\
  (Exists (fun l => l <> []) owed -> exists cfg', Concurrent.step cfg cfg' /\
     sum_list_with length (Concurrent.pending cfg') = (sum_list_with length owed - 1)%nat).
Proof.
  intros Hn Hrtc c owed. assert (exists rs, Concurrent.explained bounds vs obs rs cfg) as (rs & [Eo Ep Es Ec El Eb]).
  { revert Hrtc. refine (rtc_ind_r (fun x => exists rs, Concurrent.explained bounds vs obs rs x) _ _ _ _).
    - eexists. apply Concurrent.started_explained.
    - intros y z _ Hstep [rs Hrs]. by eapply Concurrent.step_explained. }
  assert (length rs = length obs) as Hlen by (rewrite <- Eo; symmetry; apply length_map). split; [|split].
  - intros i b Hb. rewrite (Eb _ _ Hb). unfold c. rewrite Ec, <- Hlen. apply (Concurrent.tally_bounds bounds _ i Es).
  - intros Hdone i bound Hi. unfold owed in Hdone. rewrite Ep, Forall_map in Hdone.
    destruct (Concurrent.tally_done bounds rs i bound Es Hdone Hi) as [E1 E2]. unfold c. rewrite Ec, E1, Hlen. split; [done|].
    destruct (buckets (Concurrent.leaf cfg) !! i) as [b|] eqn:Hb; [by rewrite (Eb _ _ Hb), E2, Eo|].
    apply lookup_ge_None in Hb. apply lookup_lt_Some in Hi. lia.
  - intros (l & Hin & Hl)%Exists_exists. apply list_elem_of_lookup in Hin as [i Hi]. destruct l as [|a rest]; [done|].
    destruct cfg as [leaf ps]. cbn [Concurrent.leaf Concurrent.pending] in *. eexists. split; [by apply (Concurrent.step_atom i a rest)|].
    exact (Concurrent.owed_insert ps i a rest Hi).
Qed.

Lemma histogram_interleaved_witness :
  let bounds := [1#2; 1]%Q in
  let cfg := Concurrent.mkConfig (mkChild ["u"%string] (1#4) 1 [1; 0]) [[AddBucket 1]; [AddFloat 3; AddCount]] in
  rtc Concurrent.step (Concurrent.started bounds ["u"%string] [1#4; 3]%Q) cfg /\
  forall i b, buckets (Concurrent.leaf cfg) !! i = Some b -> 0 <= b <= 1.
Proof.
  intros bounds cfg. assert (rtc Concurrent.step (Concurrent.started bounds ["u"%string] [1#4; 3]%Q) cfg) as H.
  { do 3 (eapply rtc_l; [apply (Concurrent.step_atom 0); reflexivity|]). apply rtc_refl. }
  split; [exact H|]. intros i b Hb.
  destruct (histogram_interleaved bounds ["u"%string] [1#4; 3]%Q cfg ltac:(done) H) as [Hle _].
  destruct (Hle i b Hb) as [Hle1 _]. exact Hle1.
Defined.

(** Between two additions of one observation the cumulative buckets of the
    exposition are not cumulative: the lower is ahead of the higher. *)
Lemma torn_scrape :
  exists cfg, rtc Concurrent.step (Concurrent.started [1#2; 1]%Q ["u"%string] [1#4]%Q) cfg /\
    buckets (Concurrent.leaf cfg) = [1; 0].
Proof.
  eexists. split; [do 3 (eapply rtc_l; [apply (Concurrent.step_atom 0); reflexivity|]); apply rtc_refl|reflexivity].
Qed.
End MetricsProps.
