(* ===== verification/Exposition.v ===== *)
(** * The metrics exposition (internal/obs/metrics.go, Render)

    The Prometheus text a scrape receives, as the writes [Render] makes, and
    a reader of that format: every line parses back to the leaf it came
    from, whatever the label values are.  The [%g] rendering of a number and
    the order of a range over a map are arguments. *)
From Stdlib Require Import Ascii QArith.
From stdpp Require Import base numbers gmap strings pretty sorting list.
From S2P Require Import Prelude Float64 Metrics.
Local Open Scope Z_scope.
Set Warnings "-register-all".

(** ** Rendering *)
Module Render.
Import Registry.

Definition dq : ascii := "034"%char.
Definition backslash : ascii := "092"%char.
Definition nl : ascii := "010"%char.
Definition nl_string : string := String nl "".
Definition quoted (s : string) : string := String dq (s +:+ String dq "").

Section render.
(** [%g] of a finite number. *)
Variable fmt_g : Q -> string.
(** The leaves in the order a range over the map visits them. *)
Variable ranged : gmap string child -> list child.

Definition escape_char (c : ascii) : string :=
  if Ascii.eqb c backslash then String backslash (String backslash "")
  else if Ascii.eqb c dq then String backslash (String dq "")
  else if Ascii.eqb c nl then String backslash "n"
  else String c "".

Fixpoint labelEscaper (s : string) : string :=
  match s with "" => "" | String c s => escape_char c +:+ labelEscaper s end.

(** [values[i]] for every name: a short tuple panics. *)
Fixpoint label_pairs (names values : list string) : option (list string) :=
  match names, values with
  | [], _ => Some []
  | name :: names, v :: values => cons (name +:+ "=" +:+ quoted (labelEscaper v)) <$> label_pairs names values
  | _ :: _, [] => None
  end.

Definition join_pairs (pairs : list string) : string :=
  match pairs with [] => "" | p :: ps => p +:+ foldr (fun q s => "," +:+ q +:+ s) "" ps end.

Definition renderLabels (names values extra : list string) : option string :=
  if bool_decide (names = [] /\ extra = []) then Some ""
  else (fun pairs => "{" +:+ join_pairs (pairs ++ extra) +:+ "}") <$> label_pairs names values.

(** [None] is [math.Inf(1)]. *)
Definition bound_text (bound : option Q) : string := match bound with Some b => fmt_g b | None => "+Inf" end.
Definition lePair (bound : option Q) : string := "le=" +:+ quoted (bound_text bound).

(** One [Fprintf] of a sample. *)
Definition sample_line (name labels text : string) : string := name +:+ labels +:+ " " +:+ text +:+ nl_string.

(** *** A histogram leaf *)
Fixpoint bucket_lines (f : family) (c : child) (i : nat) (bounds : list Q) : option (list string) :=
  match bounds with
  | [] => Some []
  | bound :: bounds =>
      n ← buckets c !! i; labels ← renderLabels (flabels f) (values c) [lePair (Some bound)];
      cons (sample_line (fname f +:+ "_bucket") labels (pretty n)) <$> bucket_lines f c (S i) bounds
  end.

Definition histogram_lines (f : family) (c : child) : option (list string) :=
  labels ← renderLabels (flabels f) (values c) [];
  finite ← bucket_lines f c 0 (fbuckets f);
  infinite ← renderLabels (flabels f) (values c) [lePair None];
  Some (finite ++ [sample_line (fname f +:+ "_bucket") infinite (pretty (count c));
                   sample_line (fname f +:+ "_sum") labels (fmt_g (value c));
                   sample_line (fname f +:+ "_count") labels (pretty (count c))]).

(** *** Any other leaf; the drop counters show their own source *)
Definition shown_value (m : Metrics) (f : family) (c : child) : Q :=
  if String.eqb (fname f) "breakwater_logs_dropped_total" then fof_int (logDrops m)
  else if String.eqb (fname f) "breakwater_insights_records_dropped_total" then fof_int (insightDrops m)
  else value c.

Definition plain_lines (m : Metrics) (f : family) (c : child) : option (list string) :=
  labels ← renderLabels (flabels f) (values c) []; Some [sample_line (fname f) labels (fmt_g (shown_value m f c))].

Definition leaf_lines (m : Metrics) (f : family) (c : child) : option (list string) :=
  if String.eqb (ftyp f) "histogram" then histogram_lines f c else plain_lines m f c.

(** *** The families in the order of their names *)
Definition header (f : family) : string :=
  "# HELP " +:+ fname f +:+ " " +:+ fhelp f +:+ nl_string +:+ "# TYPE " +:+ fname f +:+ " " +:+ ftyp f +:+ nl_string.

Definition family_lines (m : Metrics) (f : family) : option (list string) :=
  (fun lines => header f :: concat lines) <$> mapM (leaf_lines m f) (ranged (children f)).

Definition string_le (a b : string) : Prop := String.leb a b = true.
#[global] Instance string_le_dec a b : Decision (string_le a b).
Proof. unfold string_le. apply _. Defined.

Definition sorted_names (m : Metrics) : list string := merge_sort string_le (map_to_list (families m)).*1.

Definition inflight_lines (m : Metrics) : string :=
  "# HELP breakwater_inflight_requests Requests currently in flight." +:+ nl_string +:+
  "# TYPE breakwater_inflight_requests gauge" +:+ nl_string +:+
  sample_line "breakwater_inflight_requests" "" (pretty (inflight m)).

(** The writes of a scrape, in order; [None] where it would panic. *)
Definition writes (m : Metrics) : option (list string) :=
  (fun blocks => concat blocks ++ [inflight_lines m]) <$>
  mapM (fun name => families m !! name ≫= family_lines m) (sorted_names m).

(** The writer takes a write or fails it behind its first bytes; the first
    failure ends the scrape. *)
Variable send : nat -> option (nat * string).

Fixpoint deliver (n : nat) (chunks : list string) : string * option string :=
  match chunks with
  | [] => ("", None)
  | chunk :: chunks =>
      match send n with
      | Some (k, e) => (String.substring 0 k chunk, Some e)
      | None => let (out, e) := deliver (S n) chunks in (chunk +:+ out, e)
      end
  end.

Definition Render (m : Metrics) : option (string * option string) := deliver 0 <$> writes m.
End render.
End Render.

(** ** Reading the text back *)
Module Scrape.
Import Registry Render.

(** A sample: its name, its labels and the text of its value. *)
Definition sample : Type := string * list (string * string) * string.

Definition among (cs : list ascii) (c : ascii) : bool := existsb (Ascii.eqb c) cs.

(** The text before the first of some characters, and the rest. *)
Fixpoint until (cs : list ascii) (s : string) : string * string :=
  match s with
  | "" => ("", "")
  | String c s' => if among cs c then ("", s) else let (a, b) := until cs s' in (String c a, b)
  end.

(** What a backslash and the character behind it stand for. *)
Definition unescape (c : ascii) : option ascii :=
  if Ascii.eqb c backslash then Some backslash
  else if Ascii.eqb c dq then Some dq
  else if Ascii.eqb c "n" then Some nl
  else None.

Definition cons_value (c : ascii) (r : option (string * string)) : option (string * string) :=
  (fun '(v, rest) => (String c v, rest)) <$> r.

(** A label value up to its closing quote. *)
Fixpoint scan (s : string) : option (string * string) :=
  match s with
  | "" => None
  | String c s =>
      if Ascii.eqb c dq then Some ("", s)
      else if Ascii.eqb c backslash then
        match s with "" => None | String e s => unescape e ≫= fun x => cons_value x (scan s) end
      else cons_value c (scan s)
  end.

Fixpoint parse_pairs (fuel : nat) (s : string) : option (list (string * string) * string) :=
  match fuel with
  | O => None
  | S fuel =>
      match until ["="%char] s with
      | (name, String _ (String q s)) =>
          if negb (Ascii.eqb q dq) then None
          else match scan s with
          | Some (v, String e s) =>
              if Ascii.eqb e "," then (fun '(ps, rest) => ((name, v) :: ps, rest)) <$> parse_pairs fuel s
              else if Ascii.eqb e "}" then Some ([(name, v)], s)
              else None
          | _ => None
          end
      | _ => None
      end
  end.

Definition parse_line (l : string) : option sample :=
  match until ["{"%char; " "%char] l with
  | (name, String c rest) =>
      if Ascii.eqb c " " then Some (name, [], rest)
      else match parse_pairs (String.length rest) rest with
      | Some (labels, String c text) => if Ascii.eqb c " " then Some (name, labels, text) else None
      | _ => None
      end
  | _ => None
  end.

Fixpoint lines (s : string) : list string :=
  match s with
  | "" => []
  | String c s =>
      if Ascii.eqb c nl then "" :: lines s
      else match lines s with [] => [String c ""] | l :: ls => String c l :: ls end
  end.

Definition is_comment (l : string) : bool := match l with String c _ => Ascii.eqb c "#" | "" => false end.

(** The samples of a scraped text, its comments left out. *)
Definition scrape (text : string) : option (list sample) := mapM parse_line (filter (fun l => is_comment l = false) (lines text)).

(** *** The samples of a registry *)
Section samples.
Variable fmt_g : Q -> string.
Variable ranged : gmap string child -> list child.

Definition leaf_labels (f : family) (c : child) : list (string * string) := zip (flabels f) (values c).
Definition bucket_sample (f : family) (c : child) (bound : option Q) (n : Z) : sample :=
  (fname f +:+ "_bucket", leaf_labels f c ++ [("le", bound_text fmt_g bound)], pretty n).

Definition leaf_samples (m : Metrics) (f : family) (c : child) : list sample :=
  if String.eqb (ftyp f) "histogram" then
    zip_with (fun b n => bucket_sample f c (Some b) n) (fbuckets f) (buckets c) ++
    [bucket_sample f c None (count c); (fname f +:+ "_sum", leaf_labels f c, fmt_g (value c));
     (fname f +:+ "_count", leaf_labels f c, pretty (count c))]
  else [(fname f, leaf_labels f c, fmt_g (shown_value m f c))].

Definition samples (m : Metrics) : list sample :=
  concat (map (fun name =>
    match families m !! name with Some f => concat (map (leaf_samples m f) (ranged (children f))) | None => [] end)
    (sorted_names m)) ++
  [("breakwater_inflight_requests", [], pretty (inflight m))].
End samples.

(** Text without some characters. *)
Definition avoids (cs : list ascii) (s : string) : bool := forallb (fun c => negb (among cs c)) (String.list_ascii_of_string s).
End Scrape.

Module TextFacts.
Import Registry Render Scrape.

Lemma avoids_cons cs c s : avoids cs (String c s) = negb (among cs c) && avoids cs s.
Proof. done. Qed.

Lemma avoids_app cs a b : avoids cs (a +:+ b) = avoids cs a && avoids cs b.
Proof.
  induction a as [|c a IH]; [done|]. change (String c a +:+ b) with (String c (a +:+ b)).
  by rewrite !avoids_cons, IH, andb_assoc.
Qed.

Lemma until_stop cs a c b : avoids cs a = true -> among cs c = true -> until cs (a +:+ String c b) = (a, String c b).
Proof.
  intros Ha Hc. induction a as [|x a IH]; [change ("" +:+ String c b) with (String c b); cbn [until]; by rewrite Hc|].
  rewrite avoids_cons in Ha. apply andb_true_iff in Ha as [Hx Ha].
  change (String x a +:+ String c b) with (String x (a +:+ String c b)). cbn [until].
  destruct (among cs x); [done|]. by rewrite (IH Ha).
Qed.

Lemma scan_escape (e : ascii) (s : string) : scan (String backslash (String e s)) = unescape e ≫= fun x => cons_value x (scan s).
Proof. done. Qed.

(** A label value is read back as it was, and stops at its own quote. *)
Lemma scan_escaped (v rest : string) : scan (labelEscaper v +:+ String dq rest) = Some (v, rest).
Proof.
  induction v as [|c v IH]; [done|]. cbn [labelEscaper]. rewrite string_app_assoc.
  set (t := labelEscaper v +:+ String dq rest) in *. clearbody t. unfold escape_char.
  destruct (Ascii.eqb_spec c backslash) as [->|Hb]; [change (scan (String backslash (String backslash t)) = Some (String backslash v, rest)); by rewrite scan_escape, IH|].
  destruct (Ascii.eqb_spec c dq) as [->|Hd]; [change (scan (String backslash (String dq t)) = Some (String dq v, rest)); by rewrite scan_escape, IH|].
  destruct (Ascii.eqb_spec c nl) as [->|Hn]; [change (scan (String backslash (String "n" t)) = Some (String nl v, rest)); by rewrite scan_escape, IH|].
  change (String c "" +:+ t) with (String c t). cbn [scan].
  rewrite (proj2 (Ascii.eqb_neq c dq) Hd), (proj2 (Ascii.eqb_neq c backslash) Hb), IH. done.
Qed.

Lemma escaped_one_line (v : string) : avoids [nl] (labelEscaper v) = true.
Proof.
  induction v as [|c v IH]; [done|]. cbn [labelEscaper]. rewrite avoids_app, IH, andb_true_r. unfold escape_char.
  destruct (Ascii.eqb_spec c backslash); [done|]. destruct (Ascii.eqb_spec c dq); [done|].
  destruct (Ascii.eqb_spec c nl) as [|Hn]; [done|]. rewrite avoids_cons. cbn. by rewrite (proj2 (Ascii.eqb_neq c nl) Hn).
Qed.

Lemma escaped_plain (v : string) : avoids [dq; backslash; nl] v = true -> labelEscaper v = v.
Proof.
  induction v as [|c v IH]; [done|]. rewrite avoids_cons. intros [Hc Hv]%andb_true_iff. cbn [labelEscaper].
  rewrite (IH Hv). unfold escape_char. cbn in Hc. destruct (Ascii.eqb c dq); [done|].
  destruct (Ascii.eqb c backslash); [done|]. by destruct (Ascii.eqb c nl).
Qed.

Lemma pretty_N_go_one_line (x : N) : forall s, avoids [nl] s = true -> avoids [nl] (pretty_N_go x s) = true.
Proof.
  induction (N.lt_wf_0 x) as [x _ IH]; intros s Hs. destruct (decide (x = 0)%N) as [->|Hx]; [done|].
  rewrite pretty_N_go_step by lia. apply IH; [apply N.div_lt; lia|]. rewrite avoids_cons, Hs, andb_true_r.
  unfold pretty_N_char. by repeat case_match.
Qed.

Lemma pretty_one_line (z : Z) : avoids [nl] (pretty z) = true.
Proof.
  assert (forall n : N, avoids [nl] (pretty n) = true) as HN.
  { intros n. unfold pretty, pretty_N. destruct (decide _); [done|]. by apply pretty_N_go_one_line. }
  unfold pretty, pretty_Z. destruct z as [|p|p]; [done|apply HN|]. rewrite avoids_app. cbn. apply HN.
Qed.

(** *** Label blocks *)
Definition pair_text (p : string * string) : string := p.1 +:+ "=" +:+ quoted (labelEscaper p.2).
Definition labels_text (ps : list (string * string)) : string :=
  match ps with [] => "" | _ => "{" +:+ join_pairs (map pair_text ps) +:+ "}" end.

Lemma label_pairs_zip (names values : list string) :
  length values = length names -> label_pairs names values = Some (map pair_text (zip names values)).
Proof.
  revert values. induction names as [|n names IH]; intros [|v values] Hl; [done..|]. cbn. rewrite (IH values) by (cbn in Hl; lia). done.
Qed.

Lemma renderLabels_text (names values : list string) (ps : list (string * string)) :
  length values = length names ->
  renderLabels names values (map pair_text ps) = Some (labels_text (zip names values ++ ps)).
Proof.
  intros Hl. unfold renderLabels. case_bool_decide as E.
  - destruct E as [-> E]. apply map_eq_nil in E as ->. by destruct values.
  - rewrite (label_pairs_zip _ _ Hl). cbn. f_equal. rewrite <- map_app. unfold labels_text.
    destruct (zip names values ++ ps) eqn:Ez; [|done]. apply app_eq_nil in Ez as [Ez ->]. exfalso. apply E.
    split; [|done]. destruct names, values; done.
Qed.

Lemma renderLabels_one (names values : list string) (p : string * string) :
  length values = length names -> renderLabels names values [pair_text p] = Some (labels_text (zip names values ++ [p])).
Proof. intros Hl. exact (renderLabels_text names values [p] Hl). Qed.

Definition names_ok (ps : list (string * string)) : Prop := Forall (fun p => avoids ["="%char] p.1 = true) ps.

Lemma pair_text_app (n v t : string) :
  pair_text (n, v) +:+ t = n +:+ String "=" (String dq (labelEscaper v +:+ String dq t)).
Proof.
  unfold pair_text, quoted. cbn [fst snd]. rewrite string_app_assoc. f_equal.
  change ("=" +:+ String dq (labelEscaper v +:+ String dq "")) with (String "=" (String dq (labelEscaper v +:+ String dq ""))).
  change (String "=" (String dq (labelEscaper v +:+ String dq "")) +:+ t)
    with (String "=" (String dq ((labelEscaper v +:+ String dq "") +:+ t))). by rewrite string_app_assoc.
Qed.

Lemma parse_pair (fuel : nat) (n v : string) (e : ascii) (s : string) :
  avoids ["="%char] n = true ->
  parse_pairs (S fuel) (pair_text (n, v) +:+ String e s) =
  if Ascii.eqb e "," then (fun '(ps, rest) => ((n, v) :: ps, rest)) <$> parse_pairs fuel s
  else if Ascii.eqb e "}" then Some ([(n, v)], s) else None.
Proof.
  intros Hn. rewrite pair_text_app. cbn [parse_pairs]. rewrite until_stop by done. cbn [negb].
  rewrite Ascii.eqb_refl. cbn [negb]. by rewrite scan_escaped.
Qed.

Lemma join_pairs_cons (p q : string) (ps : list string) : join_pairs (p :: q :: ps) = p +:+ String "," (join_pairs (q :: ps)).
Proof. done. Qed.

Lemma parse_pairs_text (ps : list (string * string)) : forall fuel rest p,
  names_ok (p :: ps) -> (length ps < fuel)%nat ->
  parse_pairs fuel (join_pairs (map pair_text (p :: ps)) +:+ String "}" rest) = Some (p :: ps, rest).
Proof.
  induction ps as [|p2 ps IH]; intros [|fuel] rest [n v] Hn Hf; [cbn in Hf; lia| |cbn in Hf; lia|];
    apply Forall_cons in Hn as [Hname Hn]; cbn [fst] in Hname.
  - cbn [map join_pairs foldr]. rewrite string_app_nil. by rewrite parse_pair.
  - cbn [map]. rewrite join_pairs_cons, string_app_assoc.
    change (String "," (join_pairs (pair_text p2 :: map pair_text ps)) +:+ String "}" rest)
      with (String "," (join_pairs (map pair_text (p2 :: ps)) +:+ String "}" rest)).
    rewrite parse_pair by done. rewrite (IH fuel rest p2 Hn) by (cbn in Hf; lia). done.
Qed.

Lemma join_pairs_length (ps : list (string * string)) : (length ps <= String.length (join_pairs (map pair_text ps)))%nat.
Proof.
  destruct ps as [|p ps]; [done|]. revert p. induction ps as [|q ps IH]; intros p; cbn [map].
  - cbn [join_pairs foldr]. rewrite string_app_nil. destruct p. unfold pair_text. rewrite !string_app_length. cbn. lia.
  - rewrite join_pairs_cons, string_app_length. specialize (IH q). cbn [map String.length length] in *. lia.
Qed.

(** *** Sample lines *)
Definition sample_text (x : sample) : string := let '(name, labels, text) := x in name +:+ labels_text labels +:+ " " +:+ text.

Definition sample_ok (x : sample) : Prop :=
  let '(name, labels, text) := x in
  avoids ["{"; " "; "#"; nl]%char name = true /\ names_ok labels /\ Forall (fun p => avoids [nl] p.1 = true) labels /\
  avoids [nl] text = true.

Lemma avoids_sub (cs ds : list ascii) (s : string) : (forall c, among ds c = true -> among cs c = true) -> avoids cs s = true -> avoids ds s = true.
Proof.
  intros Hsub. induction s as [|c s IH]; [done|]. rewrite !avoids_cons, !andb_true_iff, !negb_true_iff. intros [Hc Hs].
  split; [|by apply IH]. destruct (among ds c) eqn:E; [|done]. apply Hsub in E. congruence.
Qed.

Lemma parse_line_text (x : sample) : sample_ok x -> parse_line (sample_text x) = Some x.
Proof.
  destruct x as [[name labels] text]. intros (Hname & Hlabels & _ & _). unfold parse_line, sample_text.
  assert (avoids ["{"%char; " "%char] name = true) as Hn.
  { eapply avoids_sub; [|exact Hname]. intros c. unfold among. cbn. destruct (Ascii.eqb c "{"), (Ascii.eqb c " "); done. }
  destruct labels as [|p ps].
  - change (labels_text [] +:+ " " +:+ text) with (String " " text). rewrite until_stop by done. done.
  - assert (labels_text (p :: ps) +:+ " " +:+ text
      = String "{" (join_pairs (map pair_text (p :: ps)) +:+ String "}" (String " " text))) as ->.
    { unfold labels_text. rewrite !string_app_assoc. reflexivity. }
    rewrite until_stop by done. cbn [Ascii.eqb]. change (Ascii.eqb "{" " ") with false. cbv iota.
    rewrite parse_pairs_text; [done|done|]. rewrite string_app_length. pose proof (join_pairs_length (p :: ps)). cbn [length] in *. lia.
Qed.

Lemma join_pairs_one_line (ps : list (string * string)) :
  Forall (fun p => avoids [nl] p.1 = true) ps -> avoids [nl] (join_pairs (map pair_text ps)) = true.
Proof.
  assert (forall n v, avoids [nl] n = true -> avoids [nl] (pair_text (n, v)) = true) as Hp.
  { intros n v Hn. unfold pair_text, quoted. cbn [fst snd].
    rewrite !avoids_app, Hn.
    change (avoids [nl] (labelEscaper v +:+ String dq "") = true). by rewrite avoids_app, escaped_one_line. }
  destruct ps as [|[n v] ps]; [done|]. revert n v. induction ps as [|[n2 v2] ps IH]; intros n v [Hn H]%Forall_cons; cbn [map].
  - cbn [join_pairs foldr]. rewrite string_app_nil. by apply Hp.
  - rewrite join_pairs_cons, avoids_app, (Hp _ _ Hn), avoids_cons. by apply (IH n2 v2).
Qed.

Lemma sample_one_line (x : sample) : sample_ok x -> avoids [nl] (sample_text x) = true /\ is_comment (sample_text x) = false.
Proof.
  destruct x as [[name labels] text]. intros (Hname & _ & Hl & Ht). split.
  - unfold sample_text. rewrite !avoids_app, Ht, andb_true_r.
    assert (avoids [nl] name = true) as ->.
    { eapply avoids_sub; [|exact Hname]. intros c. unfold among. cbn. destruct (Ascii.eqb c nl); [by rewrite !orb_true_r|done]. }
    destruct labels as [|p ps]; [done|]. unfold labels_text. rewrite !avoids_app, join_pairs_one_line by done. done.
  - unfold sample_text. destruct name as [|c name].
    + by destruct labels.
    + rewrite avoids_cons in Hname. apply andb_true_iff in Hname as [Hc _].
      change (is_comment (String c (name +:+ labels_text labels +:+ " " +:+ text)) = false). cbn [is_comment].
      destruct (Ascii.eqb_spec c "#") as [->|]; [done|done].
Qed.

(** *** Documents *)
Fixpoint joined (chunks : list string) : string := match chunks with [] => "" | c :: cs => c +:+ joined cs end.
Fixpoint unlines (ls : list string) : string := match ls with [] => "" | l :: ls => l +:+ String nl (unlines ls) end.
Definition not_comment (l : string) : Prop := is_comment l = false.
#[global] Instance not_comment_dec l : Decision (not_comment l).
Proof. unfold not_comment. apply _. Defined.

Lemma lines_cons (l s : string) : avoids [nl] l = true -> lines (l +:+ String nl s) = l :: lines s.
Proof.
  induction l as [|c l IH]; [done|]. rewrite avoids_cons. intros [Hc Hl]%andb_true_iff.
  change (String c l +:+ String nl s) with (String c (l +:+ String nl s)). cbn [lines]. rewrite (IH Hl).
  cbn in Hc. destruct (Ascii.eqb c nl); done.
Qed.

Lemma lines_unlines (ls : list string) : Forall (fun l => avoids [nl] l = true) ls -> lines (unlines ls) = ls.
Proof. induction 1 as [|l ls Hl _ IH]; [done|]. cbn [unlines]. rewrite lines_cons by done. by f_equal. Qed.

(** What the writes show to a reader of the whole text. *)
Definition shows (chunks : list string) (xs : list sample) : Prop :=
  exists ls, joined chunks = unlines ls /\ Forall (fun l => avoids [nl] l = true) ls /\
    filter not_comment ls = map sample_text xs /\ Forall sample_ok xs.

Lemma joined_chunks_app a b : joined (a ++ b) = joined a +:+ joined b.
Proof. induction a as [|x a IH]; [done|]. cbn [joined app]. by rewrite IH, string_app_assoc. Qed.

Lemma unlines_app a b : unlines (a ++ b) = unlines a +:+ unlines b.
Proof.
  induction a as [|x a IH]; [done|]. cbn [unlines app]. rewrite string_app_assoc, IH. reflexivity.
Qed.

Lemma shows_nil : shows [] [].
Proof. exists []. done. Qed.

Lemma shows_app a b xs ys : shows a xs -> shows b ys -> shows (a ++ b) (xs ++ ys).
Proof.
  intros (la & Ha1 & Ha2 & Ha3 & Ha4) (lb & Hb1 & Hb2 & Hb3 & Hb4). exists (la ++ lb).
  rewrite joined_chunks_app, unlines_app, filter_app, map_app, Ha1, Hb1, Ha3, Hb3. split_and!; try done; by apply Forall_app.
Qed.

Lemma shows_concat {A} (f : A -> list string) (g : A -> list sample) (l : list A) :
  (forall x, x ∈ l -> shows (f x) (g x)) -> shows (concat (map f l)) (concat (map g l)).
Proof.
  induction l as [|x l IH]; intros H; [apply shows_nil|]. cbn. apply shows_app; [apply H; by left|].
  apply IH. intros y Hy. apply H. by right.
Qed.

Lemma shows_sample (x : sample) : sample_ok x -> shows [sample_text x +:+ nl_string] [x].
Proof.
  intros Hx. destruct (sample_one_line x Hx) as [H1 H2]. exists [sample_text x].
  split; [cbn [joined unlines]; apply string_app_nil|]. split; [by repeat constructor|].
  split; [|by repeat constructor]. by rewrite filter_cons_True.
Qed.

Lemma shows_samples (xs : list sample) : Forall sample_ok xs -> shows (map (fun x => sample_text x +:+ nl_string) xs) xs.
Proof.
  induction 1 as [|x xs Hx _ IH]; [apply shows_nil|]. apply (shows_app [_] _ [x] xs); [by apply shows_sample|done].
Qed.

Lemma shows_comments (a b : string) :
  avoids [nl] a = true -> avoids [nl] b = true -> shows [String "#" a +:+ nl_string +:+ String "#" b +:+ nl_string] [].
Proof.
  intros Ha Hb. exists [String "#" a; String "#" b]. split; [|split; [by repeat constructor; rewrite avoids_cons|split; done]].
  cbn [joined unlines]. by rewrite string_app_nil.
Qed.

Lemma shows_merge (a b : string) (xs : list sample) : shows [a; b] xs -> shows [a +:+ b] xs.
Proof. intros (ls & Hj & H). exists ls. split; [|exact H]. rewrite <- Hj. cbn [joined]. by rewrite !string_app_nil. Qed.

Lemma mapM_all {A B} (f : A -> option B) (g : A -> B) (l : list A) :
  (forall x, x ∈ l -> f x = Some (g x)) -> mapM f l = Some (map g l).
Proof.
  induction l as [|x l IH]; intros H; [done|]. cbn. rewrite (H x) by (by left). cbn.
  rewrite IH by (intros y Hy; apply H; by right). done.
Qed.

Lemma shows_scrape (chunks : list string) (xs : list sample) : shows chunks xs -> scrape (joined chunks) = Some xs.
Proof.
  intros (ls & Hj & Hl & Hf & Hx). unfold scrape. rewrite Hj, (lines_unlines _ Hl).
  change (mapM parse_line (filter not_comment ls) = Some xs). rewrite Hf. clear - Hx.
  induction Hx as [|x xs Hx _ IH]; [done|]. cbn. rewrite (parse_line_text x Hx). cbn. by rewrite IH.
Qed.
End TextFacts.

Module RenderFacts.
Import Registry RegistrySpec Render Scrape TextFacts.

(** A family whose declared words keep the grammar of the format. *)
Definition name_plain (s : string) : bool := avoids ["{"; " "; "#"; nl]%char s.
Definition label_plain (s : string) : bool := avoids ["="%char] s && avoids [nl] s.
Definition shape_plain (sh : string * string * string * list string * list Q) : bool :=
  let '(name, help, typ, labels, _) := sh in
  name_plain name && avoids [nl] help && avoids [nl] typ && forallb label_plain labels.

Lemma schema_plain : map_Forall (fun _ sh => shape_plain sh = true) schema.
Proof. apply (bool_decide_unpack _). vm_compute. exact I. Qed.

Section render.
Variable fmt_g : Q -> string.
Hypothesis fmt_plain : forall q, avoids [dq; backslash; nl] (fmt_g q) = true.
Variable ranged : gmap string child -> list child.
Hypothesis ranged_perm : forall m, ranged m ≡ₚ (map_to_list m).*2.

Lemma fmt_one_line (q : Q) : avoids [nl] (fmt_g q) = true.
Proof.
  eapply avoids_sub; [|exact (fmt_plain q)]. intros c. unfold among. cbn.
  destruct (Ascii.eqb c nl); [by rewrite !orb_true_r|done].
Qed.

Lemma bound_plain (b : option Q) : avoids [dq; backslash; nl] (bound_text fmt_g b) = true.
Proof. destruct b as [q|]; [apply fmt_plain|done]. Qed.

Lemma lePair_text (b : option Q) : lePair fmt_g b = pair_text ("le", bound_text fmt_g b).
Proof. unfold lePair, pair_text. cbn [fst snd]. by rewrite escaped_plain by apply bound_plain. Qed.

Lemma sample_line_text name labels text : sample_line name (labels_text labels) text = sample_text (name, labels, text) +:+ nl_string.
Proof. unfold sample_line, sample_text. by rewrite !string_app_assoc. Qed.

Lemma shape_words (f : family) : shape_plain (shape f) = true ->
  name_plain (fname f) = true /\ avoids [nl] (fhelp f) = true /\ avoids [nl] (ftyp f) = true /\
  Forall (fun l => avoids ["="%char] l = true /\ avoids [nl] l = true) (flabels f).
Proof.
  unfold shape_plain, shape. rewrite !andb_true_iff. intros [[[? ?] ?] Hl]. split_and!; try done.
  rewrite Forall_forall. intros l Hin. rewrite forallb_forall in Hl. apply andb_true_iff, Hl. by apply list_elem_of_In.
Qed.

Lemma zip_labels_ok (names values : list string) :
  Forall (fun l => avoids ["="%char] l = true /\ avoids [nl] l = true) names ->
  names_ok (zip names values) /\ Forall (fun p => avoids [nl] p.1 = true) (zip names values).
Proof.
  intros H. revert values. induction H as [|n names [H1 H2] _ IH]; intros [|v values]; try (split; constructor).
  all: destruct (IH values) as [? ?]; cbn; done.
Qed.

Lemma leaf_samples_ok (m : Metrics) (f : family) (c : child) :
  shape_plain (shape f) = true -> Forall sample_ok (leaf_samples fmt_g m f c).
Proof.
  intros (Hn & _ & _ & Hl)%shape_words. destruct (zip_labels_ok (flabels f) (values c) Hl) as [Hz1 Hz2].
  assert (forall suffix, name_plain suffix = true -> name_plain (fname f +:+ suffix) = true) as Hs.
  { intros suffix H. unfold name_plain in *. by rewrite avoids_app, Hn, H. }
  assert (forall b n, sample_ok (bucket_sample fmt_g f c b n)) as Hb.
  { intros b n. unfold bucket_sample, sample_ok, leaf_labels. split_and!; [by apply Hs| | |apply pretty_one_line].
    - apply Forall_app. split; [done|]. by repeat constructor.
    - apply Forall_app. split; [done|]. by repeat constructor. }
  unfold leaf_samples. destruct (String.eqb (ftyp f) "histogram").
  - apply Forall_app. split.
    + generalize (buckets c). induction (fbuckets f) as [|b bs IH]; intros [|n ns]; cbn; constructor; [apply Hb|apply IH].
    + apply Forall_cons; split; [apply Hb|]. apply Forall_cons; split; [|apply Forall_cons; split; [|done]].
      * split; [by apply Hs|]. split; [done|]. split; [done|apply fmt_one_line].
      * split; [by apply Hs|]. split; [done|]. split; [done|apply pretty_one_line].
  - apply Forall_cons; split; [|done]. split; [done|]. split; [done|]. split; [done|apply fmt_one_line].
Qed.

Lemma bucket_lines_text (f : family) (c : child) (bounds : list Q) : forall i,
  length (values c) = length (flabels f) -> length (drop i (buckets c)) = length bounds ->
  bucket_lines fmt_g f c i bounds
  = Some (map (fun x => sample_text x +:+ nl_string)
      (zip_with (fun b n => bucket_sample fmt_g f c (Some b) n) bounds (drop i (buckets c)))).
Proof.
  induction bounds as [|b bounds IH]; intros i Hl Hd; [done|]. cbn [bucket_lines].
  destruct (buckets c !! i) as [n|] eqn:Hn; [|apply lookup_ge_None in Hn; rewrite length_drop in Hd; cbn in Hd; lia].
  cbn [mbind option_bind]. rewrite lePair_text. rewrite renderLabels_one by done. cbn [mbind option_bind].
  rewrite (drop_S _ n i Hn). rewrite (drop_S _ n i Hn) in Hd. cbn in Hd. rewrite (IH (S i)) by (done || lia).
  cbn [fmap option_fmap option_map zip_with map]. by rewrite sample_line_text.
Qed.

Lemma leaf_lines_text (m : Metrics) (f : family) (k : string) (c : child) :
  leaf_ok f k c -> leaf_lines fmt_g m f c = Some (map (fun x => sample_text x +:+ nl_string) (leaf_samples fmt_g m f c)).
Proof.
  intros [Ha Hb _ _]. unfold bucket_count in Hb. unfold leaf_lines, leaf_samples, leaf_labels.
  pose proof (renderLabels_text (flabels f) (values c) [] Ha) as Hr. cbn [map] in Hr. rewrite app_nil_r in Hr.
  destruct (String.eqb (ftyp f) "histogram").
  - unfold histogram_lines. rewrite Hr. cbn [mbind option_bind]. rewrite bucket_lines_text by done.
    cbn [mbind option_bind]. rewrite lePair_text, renderLabels_one by done. cbn [mbind option_bind].
    by rewrite drop_0, map_app, !sample_line_text.
  - unfold plain_lines. rewrite Hr. cbn [mbind option_bind]. by rewrite sample_line_text.
Qed.

Lemma ranged_leaf (f : family) (c : child) : c ∈ ranged (children f) -> exists k, children f !! k = Some c.
Proof.
  rewrite ranged_perm. intros ([k c'] & -> & H)%list_elem_of_fmap. exists k. by apply elem_of_map_to_list.
Qed.

Lemma header_comment (f : family) :
  shape_plain (shape f) = true -> shows [header f] [].
Proof.
  intros (Hn & Hh & Ht & _)%shape_words.
  assert (avoids [nl] (fname f) = true) as Hname.
  { eapply avoids_sub; [|exact Hn]. intros c. unfold among. cbn. destruct (Ascii.eqb c nl); [by rewrite !orb_true_r|done]. }
  assert (header f = String "#" (" HELP " +:+ fname f +:+ " " +:+ fhelp f) +:+ nl_string +:+
    String "#" (" TYPE " +:+ fname f +:+ " " +:+ ftyp f) +:+ nl_string) as ->.
  { unfold header. change (String "#" (" HELP " +:+ ?x)) with ("# HELP " +:+ x).
    change (String "#" (" TYPE " +:+ ?x)) with ("# TYPE " +:+ x). by rewrite !string_app_assoc. }
  apply shows_comments; rewrite !avoids_app, Hname, ?Hh, ?Ht; done.
Qed.

Lemma family_shows (m : Metrics) (f : family) :
  family_ok f -> shape_plain (shape f) = true ->
  exists block, family_lines fmt_g ranged m f = Some block /\
    shows block (concat (map (leaf_samples fmt_g m f) (ranged (children f)))).
Proof.
  intros Hok Hp. unfold family_lines.
  rewrite (mapM_all _ (fun c => map (fun x => sample_text x +:+ nl_string) (leaf_samples fmt_g m f c))).
  2:{ intros c (k & Hk)%ranged_leaf. eapply leaf_lines_text. by apply (family_leaves _ Hok). }
  cbn. eexists. split; [done|]. apply (shows_app [_] _ [] _); [by apply header_comment|].
  apply shows_concat. intros c _. apply shows_samples. by apply leaf_samples_ok.
Qed.

Lemma writes_show (m : Metrics) :
  registry_ok m -> exists chunks, writes fmt_g ranged m = Some chunks /\ shows chunks (samples fmt_g ranged m).
Proof.
  intros [Hs Hf]. unfold writes.
  assert (forall name f, families m !! name = Some f -> shape_plain (shape f) = true) as Hplain.
  { intros name f H. apply (schema_plain name). by rewrite <- Hs, lookup_fmap, H. }
  assert (forall names, (forall name, name ∈ names -> is_Some (families m !! name)) ->
    exists blocks, mapM (fun name => families m !! name ≫= family_lines fmt_g ranged m) names = Some blocks /\
      shows (concat blocks) (concat (map (fun name => match families m !! name with
        Some f => concat (map (leaf_samples fmt_g m f) (ranged (children f))) | None => [] end) names))) as Hall.
  { induction names as [|name names IH]; intros Hin; [exists []; split; [done|apply shows_nil]|].
    destruct (IH (fun n Hn => Hin n (list_elem_of_further n _ _ Hn))) as (blocks & Hb & Hsh).
    destruct (Hin name (list_elem_of_here name names)) as [f Hfam].
    destruct (family_shows m f (Hf _ _ Hfam) (Hplain _ _ Hfam)) as (block & Hblock & Hshow).
    exists (block :: blocks). cbn. rewrite Hfam. cbn. rewrite Hblock. cbn. rewrite Hb. split; [done|]. by apply shows_app. }
  destruct (Hall (sorted_names m)) as (blocks & -> & Hsh).
  { intros name Hn. unfold sorted_names in Hn. rewrite merge_sort_Permutation in Hn.
    apply list_elem_of_fmap in Hn as ([n f] & -> & Hn). apply elem_of_map_to_list in Hn. by eexists. }
  eexists. split; [done|]. unfold samples. apply shows_app; [exact Hsh|].
  pose proof (pretty_one_line (inflight m)) as Hp. set (x := ("breakwater_inflight_requests", [], pretty (inflight m)) : sample).
  change (inflight_lines m) with ((String "#" " HELP breakwater_inflight_requests Requests currently in flight." +:+ nl_string +:+
    String "#" " TYPE breakwater_inflight_requests gauge" +:+ nl_string) +:+ (sample_text x +:+ nl_string)).
  apply shows_merge. apply (shows_app [_] [_] [] [x]); [by apply shows_comments|]. apply shows_sample.
  split; [done|]. split; [by constructor|]. split; [by constructor|exact Hp].
Qed.
End render.
End RenderFacts.

(** ** Properties *)
Module ExpositionProps.
Import Registry RegistrySpec Families FreshFacts Render Scrape TextFacts RenderFacts.
#[local] Opaque NewMetrics schema maxChildren.

Lemma substring_prefix (k : nat) (s : string) : exists rest, s = String.substring 0 k s +:+ rest.
Proof.
  revert s. induction k as [|k IH]; intros [|c s]; [by exists ""|by exists (String c s)|by exists ""|].
  destruct (IH s) as [rest E]. exists rest. cbn. by rewrite E at 1.
Qed.

Lemma deliver_prefix (send : nat -> option (nat * string)) (chunks : list string) : forall n,
  let (text, e) := deliver send n chunks in
  (exists rest, joined chunks = text +:+ rest) /\ (e = None -> text = joined chunks).
Proof.
  induction chunks as [|c cs IH]; intros n; cbn [deliver joined]; [split; [by exists ""|done]|].
  destruct (send n) as [[k e]|].
  - split; [|done]. destruct (substring_prefix k c) as [rest E]. exists (rest +:+ joined cs).
    rewrite <- string_app_assoc. by rewrite <- E.
  - specialize (IH (S n)). destruct (deliver send (S n) cs) as [text e]. destruct IH as [[rest E] He]. split.
    + exists rest. by rewrite E, string_app_assoc.
    + intros H. by rewrite (He H).
Qed.

(** C22. A scrape can be read back.  Whatever label values the clients chose,
    the text of a well-formed registry parses line by line to exactly the
    samples of its leaves, labels unescaped, none of them missing: no value
    can break a line, close a label block or forge another sample.  A writer
    that fails has received a prefix of that text, and one that does not all
    of it. *)
Theorem scrape_roundtrip (fmt_g : Q -> string) (ranged : gmap string child -> list child) (m : Metrics) :
  (forall q, avoids [dq; backslash; nl] (fmt_g q) = true) -> (forall cs, ranged cs ≡ₚ (map_to_list cs).*2) -> registry_ok m ->
  exists text, scrape text = Some (samples fmt_g ranged m) /\
    (forall name f k c x, families m !! name = Some f -> children f !! k = Some c -> x ∈ leaf_samples fmt_g m f c ->
       x ∈ samples fmt_g ranged m) /\
    forall send, exists sent e, Render fmt_g ranged send m = Some (sent, e) /\
      (exists rest, text = sent +:+ rest) /\ (e = None -> sent = text).
Proof.
  intros Hfmt Hranged Hok. destruct (writes_show fmt_g Hfmt ranged Hranged m Hok) as (chunks & Hw & Hs).
  exists (joined chunks). split; [by apply shows_scrape|]. split.
  - intros name f k c x Hf Hc Hx. unfold samples. apply elem_of_app. left. apply list_elem_of_In, in_concat.
    exists (concat (map (leaf_samples fmt_g m f) (ranged (children f)))). split.
    + apply in_map_iff. exists name. split; [by rewrite Hf|]. apply list_elem_of_In. unfold sorted_names.
      rewrite merge_sort_Permutation. apply list_elem_of_fmap. exists (name, f). split; [done|]. by apply elem_of_map_to_list.
    + apply in_concat. exists (leaf_samples fmt_g m f c). split; [|by apply list_elem_of_In].
      apply in_map, list_elem_of_In. rewrite Hranged. apply list_elem_of_fmap. exists (k, c). split; [done|].
      by apply elem_of_map_to_list.
  - intros send. unfold Render. rewrite Hw. cbn. pose proof (deliver_prefix send chunks 0) as Hd.
    destruct (deliver send 0 chunks) as [sent e]. exists sent, e. split; [reflexivity|exact Hd].
Qed.

Lemma scrape_roundtrip_witness :
  let ranged := fun cs : gmap string child => (map_to_list cs).*2 in
  exists m text, NewMetrics = Some m /\ scrape text = Some (samples (fun _ => "0") ranged m) /\
    Render (fun _ => "0") ranged (fun _ => None) m = Some (text, None).
Proof.
  intros ranged. destruct NewMetrics_ok as (m & Hm & Hok & _).
  destruct (scrape_roundtrip (fun _ => "0") ranged m (fun _ => eq_refl) (fun _ => reflexivity _) Hok) as (text & Hs & _ & Hr).
  exists m, text. split; [exact Hm|]. split; [exact Hs|].
  destruct (Hr (fun _ => None)) as (sent & e & Hrender & _ & Hall).
  assert (e = None) as ->.
  { unfold Render in Hrender. destruct (writes _ _ m) as [chunks|]; [|discriminate]. cbn in Hrender. injection Hrender as Hd.
    revert Hd. generalize 0%nat sent. induction chunks as [|c cs IH]; intros n t Hd; cbn in Hd; [congruence|].
    destruct (deliver _ (S n) cs) as [t' e'] eqn:E. injection Hd as _ <-. exact (IH _ _ E). }
  rewrite Hrender, (Hall eq_refl). reflexivity.
Defined.
End ExpositionProps.
