(* ===== verification/Logger.v ===== *)
(** * The access log (internal/obs/logger.go)

    A bounded ring of entries that drops the oldest under pressure, drained
    by one goroutine into a buffered writer over a sink that may refuse any
    write.  The goroutines interleave at the critical sections of the mutex
    and at the atomics: [Logger.act] is one such action, and a run is a list
    of them.  The record an entry is, and its JSON, are parameters. *)
From Stdlib Require Import Ascii.
From stdpp Require Import base numbers strings pretty list.
From S2P Require Import Prelude Stream.
Import GoInt.
Local Open Scope Z_scope.

(** ** [bufio.Writer] over a sink *)
Module Bufio.
(** A sink takes all of a write, or fails after the first bytes of it. *)
Inductive answer := Took | Failed (n : nat).

(** What the sink has received, and the writes it has answered. *)
Record sink := mkSink { taken : bytes; writes : nat }.
Record Writer := mkWriter { size : Z; held : bytes; err : bool }.

Definition NewWriterSize (n : Z) : Writer := mkWriter n [] false.
Definition Reset (b : Writer) : Writer := mkWriter (size b) [] false.
Definition Available (b : Writer) : Z := size b - Z.of_nat (length (held b)).

Section bufio.
(** The answer to each write, by its number. *)
Variable answers : nat -> answer.

(** The count and the error of one write to the sink. *)
Definition sink_write (p : bytes) (o : sink) : nat * bool * sink :=
  match answers (writes o) with
  | Took => (length p, false, mkSink (taken o ++ p) (S (writes o)))
  | Failed n => let n := Nat.min n (length p) in (n, true, mkSink (taken o ++ take n p) (S (writes o)))
  end.

(** Whether it failed. *)
Definition Flush (b : Writer) (o : sink) : bool * Writer * sink :=
  if err b then (true, b, o)
  else match held b with
       | [] => (false, b, o)
       | h => let '(n, failed, o) := sink_write h o in
              if failed then (true, mkWriter (size b) (drop n h) true, o)
              else (false, mkWriter (size b) [] false, o)
       end.

(** [None] is out of fuel. *)
Fixpoint write_loop (fuel : nat) (p : bytes) (b : Writer) (o : sink) : option (bool * Writer * sink) :=
  if (Available b <? Z.of_nat (length p)) && negb (err b) then
    match fuel with
    | O => None
    | S fuel =>
        match held b with
        | [] => let '(n, failed, o) := sink_write p o in write_loop fuel (drop n p) (mkWriter (size b) [] failed) o
        | h => let n := Z.to_nat (Available b) in
               let '(_, b, o) := Flush (mkWriter (size b) (h ++ take n p) false) o in
               write_loop fuel (drop n p) b o
        end
    end
  else if err b then Some (true, b, o)
  else Some (false, mkWriter (size b) (held b ++ p) false, o).

Definition Write : bytes -> Writer -> sink -> option (bool * Writer * sink) := write_loop 2.
End bufio.
End Bufio.

(** ** The ring *)
Module Ring.
Section ring.
Context {Entry : Type} `{!Inhabited Entry}.

Record Ring := mkRing { slots : list Entry; head : nat; count : nat }.

(** A ring is never empty. *)
Definition make (capacity : Z) : Ring :=
  mkRing (replicate (Z.to_nat (if capacity <? 1 then 1 else capacity)) inhabitant) 0 0.

Definition full (r : Ring) : bool := (count r =? length (slots r))%nat.
Definition evict (r : Ring) : Ring := mkRing (slots r) ((head r + 1) mod length (slots r)) (count r - 1).
Definition put (e : Entry) (r : Ring) : Ring :=
  mkRing (<[((head r + count r) mod length (slots r))%nat := e]> (slots r)) (head r) (count r + 1).

(** The oldest entry leaves. *)
Definition pop (r : Ring) : option (Entry * Ring) :=
  if (count r =? 0)%nat then None
  else Some (slots r !!! head r, mkRing (slots r) ((head r + 1) mod length (slots r)) (count r - 1)).

(** The queued entries, oldest first. *)
Definition contents (r : Ring) : list Entry :=
  map (fun i => slots r !!! ((head r + i) mod length (slots r))%nat) (seq 0 (count r)).
Definition wf (r : Ring) : Prop := (head r < length (slots r))%nat /\ (count r <= length (slots r))%nat.
End ring.
Arguments Ring : clear implicits.
End Ring.

(** ** The logger *)
Module Logger.
Import Bufio.

(** Where the drain goroutine is; [last] is the pass after the close. *)
Inductive position {Entry : Type} :=
  | AtSelect | Entered (last : bool) | AtLock (last : bool) | Holding (last : bool) (e : Entry)
  | Refused (last : bool) | Charging (last : bool) | AtFlush (last : bool) | Leaving (last : bool) | Stopped.
Arguments position : clear implicits.

Definition logWriteBufferSize : Z := Z.shiftl 64 10.

Section logger.
Context {Entry : Type} `{!Inhabited Entry}.
(** [json.Marshal] of an entry. *)
Variable Marshal : Entry -> option bytes.
Variable answers : nat -> answer.

(** [signal] is a channel of one, [done] one that is only closed;
    [recorders] counts the callers of [Record] between its two halves. *)
Record Logger := mkLogger {
  queue : Ring.Ring Entry; drops : Z; written : Z; draining : bool; out : sink; buf : Writer; pending : Z;
  signal : bool; done : bool; at_ : position Entry; recorders : nat
}.

Definition set_queue (q : Ring.Ring Entry) (l : Logger) : Logger :=
  mkLogger q (drops l) (written l) (draining l) (out l) (buf l) (pending l) (signal l) (done l) (at_ l) (recorders l).
Definition add_drops (n : Z) (l : Logger) : Logger :=
  mkLogger (queue l) (wrap64 (drops l + n)) (written l) (draining l) (out l) (buf l) (pending l) (signal l) (done l) (at_ l) (recorders l).
Definition add_written (n : Z) (l : Logger) : Logger :=
  mkLogger (queue l) (drops l) (wrap64 (written l + n)) (draining l) (out l) (buf l) (pending l) (signal l) (done l) (at_ l) (recorders l).
Definition set_draining (v : bool) (l : Logger) : Logger :=
  mkLogger (queue l) (drops l) (written l) v (out l) (buf l) (pending l) (signal l) (done l) (at_ l) (recorders l).
Definition set_buf (b : Writer) (o : sink) (l : Logger) : Logger :=
  mkLogger (queue l) (drops l) (written l) (draining l) o b (pending l) (signal l) (done l) (at_ l) (recorders l).
Definition set_pending (n : Z) (l : Logger) : Logger :=
  mkLogger (queue l) (drops l) (written l) (draining l) (out l) (buf l) n (signal l) (done l) (at_ l) (recorders l).
Definition set_signal (v : bool) (l : Logger) : Logger :=
  mkLogger (queue l) (drops l) (written l) (draining l) (out l) (buf l) (pending l) v (done l) (at_ l) (recorders l).
Definition goto (p : position Entry) (l : Logger) : Logger :=
  mkLogger (queue l) (drops l) (written l) (draining l) (out l) (buf l) (pending l) (signal l) (done l) p (recorders l).
Definition set_recorders (n : nat) (l : Logger) : Logger :=
  mkLogger (queue l) (drops l) (written l) (draining l) (out l) (buf l) (pending l) (signal l) (done l) (at_ l) n.

Definition NewLogger (capacity : Z) : Logger :=
  mkLogger (Ring.make capacity) 0 0 false (mkSink [] 0) (NewWriterSize logWriteBufferSize) 0 false false AtSelect 0.

(** *** [Record]: the critical section, then the send that never blocks *)
Definition enqueue (entry : Entry) (l : Logger) : Logger :=
  let l := if Ring.full (queue l) then add_drops 1 (set_queue (Ring.evict (queue l)) l) else l in
  set_recorders (S (recorders l)) (set_queue (Ring.put entry (queue l)) l).
Definition notify (l : Logger) : option Logger :=
  match recorders l with
  | O => None
  | S n => Some (set_recorders n (set_signal true l))
  end.

(** *** The counters and the flush *)
Definition Dropped (l : Logger) : Z := drops l.
Definition Written (l : Logger) : Z := written l.
Definition Buffered (l : Logger) : nat := Ring.count (queue l).

(** [Flush] returns nil on a length it read and a flag it reads after. *)
Definition flush_settled (pending : nat) (l : Logger) : bool := (pending =? 0)%nat && negb (draining l).

(** [Close] closes the channel once. *)
Definition close_done (l : Logger) : Logger :=
  mkLogger (queue l) (drops l) (written l) (draining l) (out l) (buf l) (pending l) (signal l) true (at_ l) (recorders l).

(** *** The drain goroutine *)
Definition chargePending (landed : bool) (l : Logger) : Logger :=
  let n := pending l in
  let l := set_pending 0 l in
  if n =? 0 then l else if landed then add_written n l else add_drops n l.

Definition flushBuffer (l : Logger) : Logger :=
  if pending l =? 0 then l
  else let '(failed, b, o) := Flush answers (buf l) (out l) in
       let l := set_buf b o l in
       if failed then let l := chargePending false l in set_buf (Reset (buf l)) (out l) l
       else chargePending true l.

(** The marshalling and the buffering of one dequeued entry. *)
Definition write_entry (last : bool) (entry : Entry) (l : Logger) : option Logger :=
  match Marshal entry with
  | None => Some (goto (AtLock last) (add_drops 1 l))
  | Some raw =>
      match Write answers (raw ++ [nl]) (buf l) (out l) with
      | None => None
      | Some (true, b, o) => Some (goto (Refused last) (set_buf b o l))
      | Some (false, b, o) =>
          let l := set_buf b o l in Some (goto (AtLock last) (set_pending (wrap64 (pending l + 1)) l))
      end
  end.

(** One action of the goroutine; where both channels are ready the select
    takes either, so the choice is an argument.  [None] is blocked. *)
Definition turn (take_done : bool) (l : Logger) : option Logger :=
  match at_ l with
  | AtSelect =>
      if take_done then if done l then Some (goto (Entered true) l) else None
      else if signal l then Some (goto (Entered false) (set_signal false l)) else None
  | Entered last => Some (goto (AtLock last) (set_draining true l))
  | AtLock last =>
      match Ring.pop (queue l) with
      | None => Some (goto (AtFlush last) l)
      | Some (e, q) => Some (goto (Holding last e) (set_queue q l))
      end
  | Holding last e => write_entry last e l
  | Refused last => Some (goto (Charging last) (add_drops 1 l))
  | Charging last =>
      let l := chargePending false l in
      Some (goto (Leaving last) (set_buf (Reset (buf l)) (out l) l))
  | AtFlush last => Some (goto (Leaving last) (flushBuffer l))
  | Leaving last => Some (goto (if last then Stopped else AtSelect) (set_draining false l))
  | Stopped => None
  end.

(** *** Runs *)
Inductive action := Enqueue (e : Entry) | Notify | CloseDone | Turn (take_done : bool).
Definition act (a : action) (l : Logger) : option Logger :=
  match a with
  | Enqueue e => Some (enqueue e l)
  | Notify => notify l
  | CloseDone => Some (close_done l)
  | Turn take_done => turn take_done l
  end.

Fixpoint run (tr : list action) (l : Logger) : option Logger :=
  match tr with
  | [] => Some l
  | a :: tr => match act a l with Some l => run tr l | None => None end
  end.

Definition recorded (tr : list action) : list Entry :=
  omap (fun a => match a with Enqueue e => Some e | _ => None end) tr.
End logger.
Arguments Logger : clear implicits.
Arguments action : clear implicits.
End Logger.

(** ** What a logger accounts for *)
Module LogSpec.
Import Bufio Logger.

(** Lines settled together: they all reached the sink, or the sink failed
    after the bytes [w] of them. *)
Inductive batch {Entry : Type} := Landed (es : list Entry) | Torn (es : list Entry) (w : bytes).
Arguments batch : clear implicits.

Section spec.
Context {Entry : Type} `{!Inhabited Entry}.
Variable Marshal : Entry -> option bytes.

Definition marshals (e : Entry) : bool := match Marshal e with Some _ => true | None => false end.
Definition line (e : Entry) : bytes := match Marshal e with Some raw => raw ++ [nl] | None => [] end.
Definition lines (es : list Entry) : bytes := concat (map line es).

Definition batch_entries (b : batch Entry) : list Entry := match b with Landed es | Torn es _ => es end.
Definition batch_bytes (b : batch Entry) : bytes := match b with Landed es => lines es | Torn _ w => w end.
Definition landed_of (b : batch Entry) : list Entry := match b with Landed es => es | Torn _ _ => [] end.
Definition torn_of (b : batch Entry) : list Entry := match b with Landed _ => [] | Torn es _ => es end.
Definition batch_ok (b : batch Entry) : Prop := match b with Landed _ => True | Torn es w => w `prefix_of` lines es end.

(** [gone] is every entry that left the ring, in order, with whether it was
    evicted; [open] are the lines since the last settlement, of which the
    sink has [sent]. *)
Record books := mkBooks { gone : list (bool * Entry); settled : list (batch Entry); open : list Entry; sent : bytes }.

Definition evicted (bk : books) : list Entry := omap (fun p : bool * Entry => if p.1 then Some p.2 else None) (gone bk).
Definition dequeued (bk : books) : list Entry := omap (fun p : bool * Entry => if p.1 then None else Some p.2) (gone bk).
Definition malformed (es : list Entry) : list Entry := List.filter (fun e => negb (marshals e)) es.
Definition landed (bk : books) : list Entry := concat (map landed_of (settled bk)).
Definition torn (bk : books) : list Entry := concat (map torn_of (settled bk)).

Definition in_hand (l : Logger Entry) : list Entry := match at_ l with Holding _ e => [e] | _ => [] end.
Definition failing (l : Logger Entry) : bool := match at_ l with Refused _ | Charging _ => true | _ => false end.
Definition uncounted (l : Logger Entry) : Z :=
  match at_ l with Refused _ => pending l + 1 | Charging _ => pending l | _ => 0 end.
(** Entries the goroutine has taken and not settled. *)
Definition in_progress (l : Logger Entry) : Z :=
  match at_ l with Refused _ | Holding _ _ => pending l + 1 | _ => pending l end.
Definition busy (l : Logger Entry) : bool := match at_ l with AtSelect | Entered _ | Stopped => false | _ => true end.
Definition resting (l : Logger Entry) : bool := match at_ l with AtSelect | Entered _ | Stopped | Leaving _ => true | _ => false end.

(** The books of a logger that was handed [R]. *)
Record accounts (R : list Entry) (bk : books) (l : Logger Entry) : Prop := {
  acc_wf : Ring.wf (queue l);
  acc_order : R = map snd (gone bk) ++ Ring.contents (queue l);
  acc_lines : List.filter marshals (dequeued bk)
              = concat (map batch_entries (settled bk)) ++ open bk ++ List.filter marshals (in_hand l);
  acc_drops : drops l + uncounted l + Z.of_nat (length (malformed (in_hand l)))
              = Z.of_nat (length (evicted bk) + length (malformed (dequeued bk)) + length (torn bk));
  acc_nonneg : 0 <= drops l;
  acc_written : written l = Z.of_nat (length (landed bk));
  acc_out : taken (out l) = concat (map batch_bytes (settled bk)) ++ sent bk;
  acc_torn : Forall batch_ok (settled bk);
  acc_size : size (buf l) = logWriteBufferSize;
  acc_pending : 0 <= pending l /\ (failing l = false -> pending l = Z.of_nat (length (open bk)));
  acc_buf : failing l = false ->
            err (buf l) = false /\ sent bk ++ held (buf l) = lines (open bk) /\ 0 <= Available (buf l);
  acc_rest : failing l = true \/ resting l = true -> open bk = [] /\ sent bk = [];
  acc_draining : draining l = busy l
}.
End spec.
Arguments books : clear implicits.
End LogSpec.

Module RingFacts.
Import Ring.
Section ring.
Context {Entry : Type} `{!Inhabited Entry}.
Implicit Types (r : Ring Entry) (e : Entry).

Lemma contents_length r : length (contents r) = count r.
Proof. unfold contents. by rewrite length_map, length_seq. Qed.

Lemma slot_step (h i n : nat) : (((h + 1) mod n + i) mod n = (h + S i) mod n)%nat.
Proof. destruct n as [|n]; [cbn; lia|]. rewrite Nat.Div0.add_mod_idemp_l. f_equal. lia. Qed.

(** The oldest entry is the first, whether it is taken or evicted. *)
Lemma contents_evict r : count r <> 0%nat -> (head r < length (slots r))%nat -> contents r = slots r !!! head r :: contents (evict r).
Proof.
  intros Hc Hh. unfold contents, evict. cbn [slots head count]. destruct (count r) as [|c]; [done|].
  replace (S c - 1)%nat with c by lia. cbn [seq map]. f_equal.
  { by rewrite Nat.add_0_r, Nat.mod_small. }
  rewrite <- seq_shift, map_map. apply map_ext. intros i. by rewrite slot_step.
Qed.

Lemma evict_wf r : wf r -> wf (evict r).
Proof. intros [Hh Hc]. split; cbn; [apply Nat.mod_upper_bound|]; lia. Qed.

Lemma pop_Some r e q : wf r -> pop r = Some (e, q) -> contents r = e :: contents q /\ wf q.
Proof.
  intros Hwf. unfold pop. destruct (Nat.eqb_spec (count r) 0) as [|Hc]; [done|]. intros [= <- <-].
  split; [apply contents_evict; [done|apply Hwf]|by apply (evict_wf r)].
Qed.

Lemma pop_None r : pop r = None <-> contents r = [].
Proof.
  unfold pop, contents. destruct (Nat.eqb_spec (count r) 0) as [Hc|Hc]; [by rewrite Hc|].
  split; [done|]. by destruct (count r).
Qed.

Lemma put_spec r e : wf r -> (count r < length (slots r))%nat -> contents (put e r) = contents r ++ [e] /\ wf (put e r).
Proof.
  intros [Hh Hc] Hlt. assert (length (slots r) <> 0)%nat as Hn by lia. split.
  - unfold contents, put. cbn [slots head count]. rewrite length_insert.
    replace (count r + 1)%nat with (S (count r)) by lia. rewrite seq_S, map_app. cbn [map Nat.add]. f_equal.
    + apply map_ext_in. intros i Hi%in_seq. apply list_lookup_total_insert_ne. intros E.
      pose proof (Nat.div_mod_eq (head r + count r) (length (slots r))) as E1.
      pose proof (Nat.div_mod_eq (head r + i) (length (slots r))) as E2. rewrite E in E1.
      set (n := length (slots r)) in *. destruct (Nat.le_gt_cases ((head r + count r) / n) ((head r + i) / n)) as [Hq|Hq]; nia.
    + f_equal. apply list_lookup_total_insert_eq. by apply Nat.mod_upper_bound.
  - split; cbn; rewrite length_insert; lia.
Qed.

Lemma make_spec (capacity : Z) : contents (make capacity : Ring Entry) = [] /\ wf (make capacity : Ring Entry).
Proof. split; [done|]. split; cbn; rewrite length_replicate; destruct (Z.ltb_spec capacity 1); lia. Qed.
End ring.
End RingFacts.

Module BufioFacts.
Import Bufio.
Section bufio.
Variable answers : nat -> answer.
Implicit Types (b : Writer) (o : sink) (p : bytes).

(** A write that fails has handed over some first bytes. *)
Lemma sink_write_spec p o n failed o' :
  sink_write answers p o = (n, failed, o') ->
  (n <= length p)%nat /\ taken o' = taken o ++ take n p /\ (failed = false -> n = length p).
Proof.
  unfold sink_write. destruct (answers (writes o)) as [|k]; intros [= <- <- <-]; cbn [taken].
  - by rewrite take_ge.
  - split_and!; [lia|done|done].
Qed.

Lemma Flush_spec b o failed b' o' :
  err b = false -> Flush answers b o = (failed, b', o') ->
  size b' = size b /\ exists w, taken o' = taken o ++ w /\ err b' = failed /\ held b = w ++ held b' /\ (failed = false -> held b' = []).
Proof.
  intros He. unfold Flush. rewrite He. destruct (held b) as [|c h] eqn:Eh.
  { intros [= <- <- <-]. split; [done|]. exists []. by rewrite Eh, app_nil_r. }
  destruct (sink_write answers (c :: h) o) as [[n f] o1] eqn:Hw. apply sink_write_spec in Hw as (Hn & Ht & Hf).
  destruct f; intros [= <- <- <-]; (split; [done|]); exists (take n (c :: h)).
  - split_and!; [done|done|exact (eq_sym (take_drop n (c :: h)))|done].
  - rewrite (Hf eq_refl) in *. rewrite take_ge in Ht |- * by done. by rewrite app_nil_r.
Qed.

Definition fits b : Prop := 0 <= Available b.

(** A write is total, and hands over and keeps what it is given; on an
    error what was handed over is a beginning of it. *)
Definition wrote p b o (r : option (bool * Writer * sink)) : Prop :=
  exists failed b' o' w, r = Some (failed, b', o') /\ taken o' = taken o ++ w /\ size b' = size b /\
    if failed then w `prefix_of` held b ++ p else err b' = false /\ w ++ held b' = held b ++ p /\ fits b'.

Lemma write_stop fuel p b o : fits b -> err b = false -> Z.of_nat (length p) <= Available b -> wrote p b o (write_loop answers fuel p b o).
Proof.
  intros Hb He Hp. assert (write_loop answers fuel p b o = Some (false, mkWriter (size b) (held b ++ p) false, o)) as ->.
  { destruct fuel; cbn [write_loop]; (destruct (Z.ltb_spec (Available b) (Z.of_nat (length p))); [lia|]); cbn [andb]; by rewrite He. }
  exists false, (mkWriter (size b) (held b ++ p) false), o, []. rewrite app_nil_r. split_and!; try done.
  unfold fits, Available in *. cbn [size held]. rewrite length_app. lia.
Qed.

Lemma write_error fuel p b o : err b = true -> write_loop answers fuel p b o = Some (true, b, o).
Proof. intros He. by destruct fuel; cbn [write_loop]; rewrite He, andb_false_r. Qed.

Lemma write_direct fuel p b o : 0 <= size b -> held b = [] -> err b = false -> wrote p b o (write_loop answers (S fuel) p b o).
Proof.
  intros Hs Hh He. destruct (decide (Available b < Z.of_nat (length p))) as [Hlt|Hge].
  2: { apply write_stop; [|done|lia]. unfold fits, Available. rewrite Hh. cbn. lia. }
  cbn [write_loop]. rewrite (proj2 (Z.ltb_lt _ _) Hlt), He, Hh. cbn [andb negb].
  destruct (sink_write answers p o) as [[n failed] o1] eqn:Hw. apply sink_write_spec in Hw as (Hn & Ht & Hf).
  destruct failed.
  - rewrite write_error by done. exists true, (mkWriter (size b) [] true), o1, (take n p).
    split_and!; [done|done|done|]. rewrite Hh. cbn. exists (drop n p). by rewrite take_drop.
  - rewrite (Hf eq_refl), drop_all. destruct (write_stop fuel [] (mkWriter (size b) [] false) o1) as (f' & b' & o' & w & E & E1 & E2 & E3).
    1,3: unfold fits, Available; cbn; lia. 1: done.
    exists f', b', o', (p ++ w). rewrite E. split_and!; [done| |exact E2|].
    + rewrite E1, Ht, (Hf eq_refl), take_ge by done. by rewrite app_assoc.
    + rewrite Hh. cbn [held app] in *. destruct f'.
      * destruct E3 as [k Hk]. destruct w; [|done]. exists []. by rewrite !app_nil_r.
      * destruct E3 as (? & Hk & ?). split_and!; [done| |done]. rewrite <- app_assoc, Hk. by rewrite app_nil_r.
Qed.

(** The buffer is filled and flushed. *)
Lemma write_full fuel p b o :
  Available b < Z.of_nat (length p) -> err b = false -> held b <> [] ->
  write_loop answers (S fuel) p b o
  = let n := Z.to_nat (Available b) in
    let '(_, b, o) := Flush answers (mkWriter (size b) (held b ++ take n p) false) o in
    write_loop answers fuel (drop n p) b o.
Proof. intros Hlt%Z.ltb_lt He Hh. cbn [write_loop]. rewrite Hlt, He. cbn [andb negb]. by destruct (held b). Qed.

Lemma Write_spec p b o : 0 <= size b -> fits b -> err b = false -> wrote p b o (Write answers p b o).
Proof.
  intros Hs Hb He. unfold Write. destruct (held b) as [|c h] eqn:Hh; [by apply write_direct|].
  destruct (decide (Available b < Z.of_nat (length p))) as [Hlt|Hge]; [|apply write_stop; [done|done|lia]].
  rewrite write_full, Hh by (try rewrite Hh; done). cbn zeta. set (n := Z.to_nat (Available b)).
  destruct (Flush answers (mkWriter (size b) ((c :: h) ++ take n p) false) o) as [[f b1] o1] eqn:Hf.
  apply Flush_spec in Hf as (Hs1 & w & Hw & He1 & Hk & Hfree); [|done]. cbn [held size] in *.
  destruct f.
  - rewrite write_error by done. exists true, b1, o1, w. rewrite Hh. split_and!; [done|done|done|].
    exists (held b1 ++ drop n p). rewrite app_assoc, <- Hk, <- app_assoc. by rewrite take_drop.
  - destruct (write_direct 0 (drop n p) b1 o1) as (f' & b' & o' & w' & E & E1 & E2 & E3); [lia|by apply Hfree|done|].
    exists f', b', o', (w ++ w'). rewrite E. rewrite (Hfree eq_refl) in *. cbn [app] in E3. rewrite app_nil_r in Hk. rewrite Hh.
    assert ((c :: h) ++ p = w ++ drop n p) as Hall by (rewrite <- Hk, <- app_assoc; by rewrite take_drop).
    rewrite Hall. split_and!; [done|by rewrite E1, Hw, app_assoc|lia|]. destruct f'; [by apply prefix_app|].
    destruct E3 as (? & <- & ?). by rewrite app_assoc.
Qed.
End bufio.
End BufioFacts.

(** The fields of an updated logger and of updated books. *)
Ltac fields :=
  cbn [Logger.queue Logger.drops Logger.written Logger.draining Logger.out Logger.buf Logger.pending Logger.signal Logger.done
       Logger.at_ Logger.recorders Logger.set_queue Logger.add_drops Logger.add_written Logger.set_draining Logger.set_buf
       Logger.set_pending Logger.set_signal Logger.goto Logger.set_recorders
       LogSpec.gone LogSpec.settled LogSpec.open LogSpec.sent] in *.

Module LogFacts.
Import Bufio BufioFacts Logger LogSpec RingFacts.
Section facts.
Context {Entry : Type} `{!Inhabited Entry}.
Variable Marshal : Entry -> option bytes.
Variable answers : nat -> answer.
Implicit Types (l : Logger Entry) (bk : books Entry) (R es : list Entry) (e : Entry).

Local Abbreviation marshals := (marshals Marshal).
Local Abbreviation malformed := (malformed Marshal).
Local Abbreviation lines := (lines Marshal).
Local Abbreviation accounts := (accounts Marshal).

Lemma lines_app es es' : lines (es ++ es') = lines es ++ lines es'.
Proof. unfold LogSpec.lines. by rewrite map_app, concat_app. Qed.

Lemma malformed_split es : (length (List.filter marshals es) + length (malformed es) = length es)%nat.
Proof. apply List.filter_length. Qed.

Lemma gone_split (g : list (bool * Entry)) :
  (length (omap (fun p : bool * Entry => if p.1 then Some p.2 else None) g)
   + length (omap (fun p : bool * Entry => if p.1 then None else Some p.2) g) = length g)%nat.
Proof. induction g as [|[[] e] g IH]; cbn; unfold omap in *; lia. Qed.

Lemma settled_split (bs : list (batch Entry)) :
  length (concat (map batch_entries bs)) = (length (concat (map landed_of bs)) + length (concat (map torn_of bs)))%nat.
Proof. induction bs as [|[] bs IH]; cbn; [done|rewrite !length_app; cbn; lia..]. Qed.

(** Every entry handed over is in exactly one place. *)
Lemma conservation R bk l :
  accounts R bk l -> drops l + written l + Z.of_nat (Buffered l) + in_progress l = Z.of_nat (length R).
Proof.
  intros []. unfold Buffered. rewrite <- (contents_length (queue l)), acc_order0, length_app, length_map.
  pose proof (gone_split (gone bk)) as Hg. fold (evicted bk) (dequeued bk) in Hg.
  pose proof (malformed_split (dequeued bk)) as Hd. rewrite acc_lines0, !length_app in Hd.
  pose proof (malformed_split (in_hand l)) as Hh. pose proof (settled_split (settled bk)) as Hs.
  fold (landed bk) (torn bk) in Hs. destruct acc_pending0 as [Hp0 Hp].
  unfold in_progress, uncounted, in_hand, failing in *.
  destruct (at_ l) eqn:Ea; cbn [length] in *; try (specialize (Hp eq_refl)); try lia;
  destruct acc_rest0 as [Ho _]; auto; rewrite Ho in *; cbn [length] in *; lia.
Qed.

Lemma in_progress_nonneg R bk l : accounts R bk l -> 0 <= in_progress l.
Proof. intros [? ? ? ? ? ? ? ? ? [Hp _] ? ? ?]. unfold in_progress. destruct (at_ l); lia. Qed.

(** No counter wraps while the entries can be counted. *)
Lemma no_wrap R bk l (n : Z) :
  accounts R bk l -> Z.of_nat (length R) <= max_int64 -> 0 <= n <= in_progress l + Z.of_nat (Buffered l) ->
  wrap64 (drops l + n) = drops l + n /\ wrap64 (written l + n) = written l + n /\
  (in_progress l = pending l + 1 -> wrap64 (pending l + 1) = pending l + 1).
Proof.
  intros Ha HR Hn. pose proof (conservation R bk l Ha). pose proof (in_progress_nonneg R bk l Ha).
  destruct Ha as [? ? ? ? Hd Hw ? ? ? [Hp _] ? ? ?].
  assert (pending l <= in_progress l) by (unfold in_progress; destruct (at_ l); lia).
  unfold max_int64 in *. split_and!; intros; apply wrap64_id; unfold in_int64, min_int64, max_int64; lia.
Qed.

Lemma acct_new (capacity : Z) : accounts [] (mkBooks [] [] [] []) (NewLogger capacity).
Proof. destruct (make_spec (Entry := Entry) capacity) as [Hc Hw]. by split. Qed.

Lemma acct_frame R bk l l' :
  accounts R bk l -> queue l' = queue l -> drops l' = drops l -> written l' = written l -> draining l' = draining l ->
  out l' = out l -> buf l' = buf l -> pending l' = pending l -> at_ l' = at_ l -> accounts R bk l'.
Proof. intros [] Hq Hd Hw Hg Ho Hb Hp Ha. split; unfold uncounted, in_hand, failing, resting, busy in *; rewrite ?Hq, ?Hd, ?Hw, ?Hg, ?Ho, ?Hb, ?Hp, ?Ha; done. Qed.

Lemma acct_put R bk l e :
  accounts R bk l -> (Ring.count (queue l) < length (Ring.slots (queue l)))%nat ->
  accounts (R ++ [e]) bk (set_queue (Ring.put e (queue l)) l).
Proof.
  intros [] Hlt. destruct (put_spec (queue l) e acc_wf0 Hlt) as [Hc Hw].
  split; try done. cbn [queue set_queue]. by rewrite Hc, acc_order0, app_assoc.
Qed.

Lemma acct_evict R bk l :
  accounts R bk l -> Z.of_nat (length R) <= max_int64 -> (0 < Ring.count (queue l))%nat ->
  exists bk', accounts R bk' (add_drops 1 (set_queue (Ring.evict (queue l)) l)).
Proof.
  intros Ha HR Hc. destruct (no_wrap R bk l 1 Ha HR) as (Hwr & _).
  { pose proof (in_progress_nonneg R bk l Ha). unfold Buffered. lia. }
  destruct Ha. set (x := Ring.slots (queue l) !!! Ring.head (queue l)).
  exists (mkBooks (gone bk ++ [(true, x)]) (settled bk) (open bk) (sent bk)).
  assert (evicted (mkBooks (gone bk ++ [(true, x)]) (settled bk) (open bk) (sent bk)) = evicted bk ++ [x]) as He
    by (unfold evicted; cbn [gone]; by rewrite omap_app).
  assert (dequeued (mkBooks (gone bk ++ [(true, x)]) (settled bk) (open bk) (sent bk)) = dequeued bk) as Hd
    by (unfold dequeued; cbn [gone]; rewrite omap_app; cbn; by rewrite app_nil_r).
  split; try done; fields; rewrite ?He, ?Hd; try done.
  - by apply evict_wf.
  - rewrite acc_order0, map_app, <- app_assoc. cbn. f_equal. apply contents_evict; [lia|apply acc_wf0].
  - rewrite Hwr, length_app. cbn [length]. unfold uncounted, in_hand, torn in *. fields. lia.
  - rewrite Hwr. lia.
Qed.

Lemma acct_enqueue R bk l e :
  accounts R bk l -> Z.of_nat (length (R ++ [e])) <= max_int64 -> exists bk', accounts (R ++ [e]) bk' (enqueue e l).
Proof.
  intros Ha HR. rewrite length_app in HR. cbn [length] in HR. unfold enqueue, Ring.full.
  pose proof (acc_wf _ _ _ _ Ha) as [Hh Hc]. destruct (Nat.eqb_spec (Ring.count (queue l)) (length (Ring.slots (queue l)))) as [E|E].
  - destruct (acct_evict R bk l Ha) as [bk' Ha']; [lia..|]. exists bk'.
    eapply acct_frame; [apply (acct_put _ _ _ e Ha')|done..]. cbn. lia.
  - exists bk. eapply acct_frame; [apply (acct_put _ _ _ e Ha)|done..]. lia.
Qed.

(** Moving between positions that hold the same. *)
Lemma acct_move R bk l (b : bool) (p : position Entry) :
  accounts R bk l -> in_hand l = [] -> failing l = false ->
  in_hand (goto p l) = [] -> failing (goto p l) = false -> b = busy (goto p l) ->
  (resting (goto p l) = true -> resting l = true) -> accounts R bk (set_draining b (goto p l)).
Proof.
  intros [] Hh Hf Hh' Hf' Hb Hr. split; try done.
  - change (in_hand (set_draining b (goto p l))) with (in_hand (goto p l)). rewrite Hh'. by rewrite Hh in acc_lines0.
  - change (in_hand (set_draining b (goto p l))) with (in_hand (goto p l)). rewrite Hh'. rewrite Hh in acc_drops0.
    unfold failing, uncounted in *. fields. destruct (at_ l), p; cbn in *; done.
  - fields. split; [apply acc_pending0|]. intros _. by apply acc_pending0.
  - intros _. by apply acc_buf0.
  - intros [H|H]; [unfold failing in *; fields; congruence|]. apply acc_rest0. right. apply Hr. exact H.
Qed.

Lemma acct_goto R bk l (p : position Entry) :
  accounts R bk l -> in_hand l = [] -> failing l = false ->
  in_hand (goto p l) = [] -> failing (goto p l) = false -> busy l = busy (goto p l) ->
  (resting (goto p l) = true -> resting l = true) -> accounts R bk (goto p l).
Proof.
  intros Ha ? ? ? ? Hb ?. pose proof (acct_move R bk l (draining l) p Ha) as Hm.
  rewrite (acc_draining _ _ _ _ Ha) in Hm. specialize (Hm ltac:(done) ltac:(done) ltac:(done) ltac:(done) Hb ltac:(done)).
  eapply acct_frame; [exact Hm|..]; try done. exact (acc_draining _ _ _ _ Ha).
Qed.

Lemma acct_pop R bk l last e q :
  accounts R bk l -> at_ l = AtLock last -> Ring.pop (queue l) = Some (e, q) ->
  exists bk', accounts R bk' (goto (Holding last e) (set_queue q l)).
Proof.
  intros [] Ea [Hc Hw]%pop_Some; [|done].
  exists (mkBooks (gone bk ++ [(false, e)]) (settled bk) (open bk) (sent bk)).
  unfold uncounted, in_hand, failing, resting, busy in *. rewrite Ea in *.
  split; unfold uncounted, in_hand, failing, resting, busy, evicted, dequeued in *; fields; try done; try (by intros [|]).
  - rewrite acc_order0, Hc, map_app, <- app_assoc. done.
  - rewrite omap_app, List.filter_app, acc_lines0. cbn [List.filter]. rewrite app_nil_r, <- app_assoc. done.
  - rewrite !omap_app. unfold LogSpec.malformed in *. rewrite List.filter_app, !length_app. cbn [omap list_omap app length] in *. cbn. cbn in acc_drops0. unfold torn in *. fields. lia.
Qed.

Lemma acct_malformed R bk l last e :
  accounts R bk l -> Z.of_nat (length R) <= max_int64 -> at_ l = Holding last e -> Marshal e = None ->
  accounts R bk (goto (AtLock last) (add_drops 1 l)).
Proof.
  intros Ha HR Ea Hm. destruct (no_wrap R bk l 1 Ha HR) as (Hw & _).
  { unfold in_progress. rewrite Ea. destruct (acc_pending _ _ _ _ Ha). lia. }
  assert (marshals e = false) as Hme by (unfold LogSpec.marshals; by rewrite Hm). destruct Ha.
  unfold uncounted, in_hand, failing, resting, busy, LogSpec.malformed in *. rewrite Ea in *. cbn [List.filter] in *. rewrite Hme in *.
  split; unfold uncounted, in_hand, failing, resting, busy, LogSpec.malformed in *; fields; rewrite ?Hw; try done; try (by intros [|]).
  - cbn [List.filter length negb] in *. lia.
  - lia.
Qed.

Lemma acct_buffered R bk l last e raw b o :
  accounts R bk l -> Z.of_nat (length R) <= max_int64 -> at_ l = Holding last e -> Marshal e = Some raw ->
  Write answers (raw ++ [nl]) (buf l) (out l) = Some (false, b, o) ->
  exists bk', accounts R bk' (goto (AtLock last) (set_pending (wrap64 (pending l + 1)) (set_buf b o l))).
Proof.
  intros Ha HR Ea Hm Hwrite. destruct (no_wrap R bk l 1 Ha HR) as (_ & _ & Hw).
  { unfold in_progress. rewrite Ea. destruct (acc_pending _ _ _ _ Ha). lia. }
  unfold in_progress in Hw. rewrite Ea in Hw. specialize (Hw eq_refl). rewrite Hw.
  assert (marshals e = true) as Hme by (unfold LogSpec.marshals; by rewrite Hm). destruct Ha.
  unfold uncounted, in_hand, failing, resting, busy, LogSpec.malformed in *. rewrite Ea in *. cbn [List.filter] in *. rewrite Hme in *.
  destruct (acc_buf0 eq_refl) as (He & Hsent & Hav). destruct acc_pending0 as [Hp0 Hp]. specialize (Hp eq_refl).
  destruct (Write_spec answers (raw ++ [nl]) (buf l) (out l)) as (f & b' & o' & w & E & Ht & Hs & Hr);
    [by rewrite acc_size0|done|done|]. rewrite E in Hwrite. injection Hwrite as -> -> ->. destruct Hr as (He' & Hk & Hf).
  exists (mkBooks (gone bk) (settled bk) (open bk ++ [e]) (sent bk ++ w)).
  split; unfold uncounted, in_hand, failing, resting, busy, LogSpec.malformed, evicted, dequeued, landed, torn in *; fields; try done; try (by intros [|]).
  - rewrite acc_lines0. cbn. by rewrite app_nil_r.
  - rewrite Ht, acc_out0. by rewrite app_assoc.
  - by rewrite Hs.
  - rewrite length_app. cbn [length]. split; [lia|]. intros _. lia.
  - intros _. split_and!; [done| |done]. rewrite lines_app, <- app_assoc, Hk, app_assoc, Hsent. f_equal.
    unfold LogSpec.lines, line. cbn. by rewrite Hm, app_nil_r.
Qed.

(** A failed batch is torn: some first bytes of it are in the sink. *)
Lemma acct_refused R bk l last e raw b o :
  accounts R bk l -> at_ l = Holding last e -> Marshal e = Some raw ->
  Write answers (raw ++ [nl]) (buf l) (out l) = Some (true, b, o) ->
  exists bk', accounts R bk' (goto (Refused last) (set_buf b o l)).
Proof.
  intros [] Ea Hm Hwrite. assert (marshals e = true) as Hme by (unfold LogSpec.marshals; by rewrite Hm).
  unfold uncounted, in_hand, failing, resting, busy, LogSpec.malformed in *. rewrite Ea in *. cbn [List.filter] in *. rewrite Hme in *.
  destruct (acc_buf0 eq_refl) as (He & Hsent & Hav). destruct acc_pending0 as [Hp0 Hp]. specialize (Hp eq_refl).
  destruct (Write_spec answers (raw ++ [nl]) (buf l) (out l)) as (f & b' & o' & w & E & Ht & Hs & Hr);
    [by rewrite acc_size0|done|done|]. rewrite E in Hwrite. injection Hwrite as -> -> ->.
  assert (line Marshal e = raw ++ [nl]) as Hline by (unfold line; by rewrite Hm).
  exists (mkBooks (gone bk) (settled bk ++ [Torn (open bk ++ [e]) (sent bk ++ w)]) [] []).
  split; unfold uncounted, in_hand, failing, resting, busy, LogSpec.malformed, evicted, dequeued, landed, torn in *; fields;
    rewrite ?map_app, ?concat_app; cbn [map concat batch_entries landed_of torn_of batch_bytes]; rewrite ?app_nil_r; try done.
  - cbn [List.filter length negb] in *. rewrite !length_app. cbn [length] in *. lia.
  - rewrite Ht, acc_out0. by rewrite <- app_assoc.
  - apply Forall_app. split; [done|]. constructor; [|done]. cbn. rewrite lines_app, <- Hsent, <- app_assoc.
    apply prefix_app. unfold LogSpec.lines. cbn. by rewrite Hline, app_nil_r.
  - by rewrite Hs.
Qed.

Lemma acct_counted R bk l last :
  accounts R bk l -> Z.of_nat (length R) <= max_int64 -> at_ l = Refused last ->
  accounts R bk (goto (Charging last) (add_drops 1 l)).
Proof.
  intros Ha HR Ea. destruct (no_wrap R bk l 1 Ha HR) as (Hw & _).
  { unfold in_progress. rewrite Ea. destruct (acc_pending _ _ _ _ Ha). lia. } destruct Ha.
  unfold uncounted, in_hand, failing, resting, busy in *. rewrite Ea in *.
  split; unfold uncounted, in_hand, failing, resting, busy in *; fields; rewrite ?Hw; try done; lia.
Qed.

Lemma settle_no_wrap R bk l :
  accounts R bk l -> Z.of_nat (length R) <= max_int64 ->
  wrap64 (drops l + pending l) = drops l + pending l /\ wrap64 (written l + pending l) = written l + pending l.
Proof.
  intros Ha HR. destruct (no_wrap R bk l (pending l) Ha HR) as (Hd & Hw & _); [|done].
  pose proof (acc_pending _ _ _ _ Ha) as [Hp _]. unfold in_progress. destruct (at_ l); lia.
Qed.

(** A settlement charges all that was pending. *)
Lemma charge_exact l (landed : bool) :
  wrap64 (drops l + pending l) = drops l + pending l -> wrap64 (written l + pending l) = written l + pending l ->
  chargePending landed l
  = mkLogger (queue l) (if landed then drops l else drops l + pending l) (if landed then written l + pending l else written l)
      (draining l) (out l) (buf l) 0 (signal l) (done l) (at_ l) (recorders l).
Proof.
  intros Hd Hw. unfold chargePending, add_written, add_drops. destruct (Z.eqb_spec (pending l) 0) as [E|E]; fields.
  - rewrite E, !Z.add_0_r. unfold set_pending. by destruct landed.
  - rewrite Hd, Hw. by destruct landed.
Qed.

Lemma acct_charged R bk l last :
  accounts R bk l -> Z.of_nat (length R) <= max_int64 -> at_ l = Charging last ->
  accounts R bk (goto (Leaving last) (set_buf (Reset (buf (chargePending false l))) (out (chargePending false l)) (chargePending false l))).
Proof.
  intros Ha HR Ea. destruct (settle_no_wrap R bk l Ha HR) as [Hwd Hww]. rewrite (charge_exact l false Hwd Hww). destruct Ha.
  unfold uncounted, in_hand, failing, resting, busy in *. rewrite Ea in *.
  destruct acc_rest0 as [Ho Hs]; [by left|]. rewrite Ho, Hs in *.
  split; unfold uncounted, in_hand, failing, resting, busy in *; fields; rewrite ?Ho, ?Hs; try done.
  - lia.
  - lia.
  - intros _. split_and!; [done..|]. unfold Available, Reset. cbn. by rewrite acc_size0.
Qed.

Lemma acct_flushed R bk l last :
  accounts R bk l -> Z.of_nat (length R) <= max_int64 -> at_ l = AtFlush last ->
  exists bk', accounts R bk' (goto (Leaving last) (flushBuffer answers l)).
Proof.
  intros Ha HR Ea. destruct (settle_no_wrap R bk l Ha HR) as [Hwd Hww]. destruct Ha.
  unfold uncounted, in_hand, failing, resting, busy in *. rewrite Ea in *.
  destruct (acc_buf0 eq_refl) as (He & Hsent & Hav). destruct acc_pending0 as [Hp0 Hp]. specialize (Hp eq_refl).
  unfold flushBuffer. destruct (Z.eqb_spec (pending l) 0) as [E|E].
  { exists bk. assert (open bk = []) as Ho by (apply length_zero_iff_nil; lia). rewrite Ho in *.
    apply app_eq_nil in Hsent as [Hs _].
    split; unfold uncounted, in_hand, failing, resting, busy in *; fields; rewrite ?Ho, ?Hs in *; try done. }
  destruct (Flush answers (buf l) (out l)) as [[failed b] o] eqn:Hf.
  apply Flush_spec in Hf as (Hsz & w & Ht & He' & Hk & Hfree); [|done].
  exists (mkBooks (gone bk) (settled bk ++ [if failed then Torn (open bk) (sent bk ++ w) else Landed (open bk)]) [] []).
  destruct failed; rewrite (charge_exact (set_buf b o l)) by done;
  (split; unfold uncounted, in_hand, failing, resting, busy, evicted, dequeued, landed, torn in *; fields;
    rewrite ?map_app, ?concat_app, ?length_app; cbn [map concat batch_entries landed_of torn_of batch_bytes]; rewrite ?app_nil_r; try done).
  - rewrite acc_lines0. cbn. by rewrite app_nil_r.
  - lia.
  - lia.
  - cbn. lia.
  - rewrite Ht, acc_out0. by rewrite <- app_assoc.
  - apply Forall_app. split; [done|]. constructor; [|done]. cbn. rewrite <- Hsent, Hk. rewrite app_assoc. by apply prefix_app_r.
  - by rewrite <- Hsz in acc_size0.
  - intros _. split_and!; [done..|]. unfold Available, Reset. cbn. by rewrite Hsz, acc_size0.
  - rewrite acc_lines0. cbn. by rewrite app_nil_r.
  - cbn [length]. lia.
  - lia.
  - rewrite Ht, acc_out0, <- Hsent, Hk, (Hfree eq_refl), app_nil_r. by rewrite <- app_assoc.
  - apply Forall_app. split; [done|]. by constructor.
  - by rewrite Hsz.
  - intros _. rewrite (Hfree eq_refl). split_and!; [done..|]. unfold Available. rewrite (Hfree eq_refl), Hsz, acc_size0. done.
Qed.

Lemma acct_write R bk l last e l' :
  accounts R bk l -> Z.of_nat (length R) <= max_int64 -> at_ l = Holding last e -> write_entry Marshal answers last e l = Some l' ->
  exists bk', accounts R bk' l'.
Proof.
  intros Ha HR Ea. unfold write_entry. destruct (Marshal e) as [raw|] eqn:Hm.
  2: { intros [= <-]. exists bk. eauto using acct_malformed. }
  destruct (Write answers (raw ++ [nl]) (buf l) (out l)) as [[[[] b] o]|] eqn:Hw; [..|done]; intros [= <-];
    eauto using acct_refused, acct_buffered.
Qed.

Lemma acct_turn R bk l d l' :
  accounts R bk l -> Z.of_nat (length R) <= max_int64 -> turn Marshal answers d l = Some l' -> exists bk', accounts R bk' l'.
Proof.
  intros Ha HR. unfold turn. destruct (at_ l) as [|last|last|last e|last|last|last|last|] eqn:Ea.
  - assert (forall p : position Entry, p = Entered true \/ p = Entered false -> accounts R bk (goto p l)) as Hp.
    { intros p Hp. apply acct_goto; unfold in_hand, failing, busy, resting; fields; rewrite ?Ea; try done; by destruct Hp as [->| ->]. }
    destruct d; [destruct (done l)|destruct (signal l)]; intros [= <-]; exists bk; [auto|].
    eapply acct_frame; [apply (Hp (Entered false)); auto|done..].
  - intros [= <-]. exists bk. change (goto (AtLock last) (set_draining true l)) with (set_draining true (goto (AtLock last) l)).
    by apply acct_move; unfold in_hand, failing, resting; fields; rewrite ?Ea.
  - destruct (Ring.pop (queue l)) as [[e q]|] eqn:Hpop; intros [= <-].
    + by apply (acct_pop R bk l).
    + exists bk. by apply acct_goto; unfold in_hand, failing, busy, resting; fields; rewrite ?Ea.
  - exact (acct_write R bk l last e l' Ha HR Ea).
  - intros [= <-]. exists bk. by apply acct_counted.
  - intros [= <-]. exists bk. by apply acct_charged.
  - intros [= <-]. exact (acct_flushed R bk l last Ha HR Ea).
  - intros [= <-]. exists bk.
    change (goto (if last then Stopped else AtSelect) (set_draining false l)) with (set_draining false (goto (if last then Stopped else AtSelect) l)).
    by apply acct_move; unfold in_hand, failing, resting; fields; rewrite ?Ea; destruct last.
  - done.
Qed.

Lemma acct_act R bk l a l' :
  accounts R bk l -> Z.of_nat (length (R ++ recorded [a])) <= max_int64 -> act Marshal answers a l = Some l' ->
  exists bk', accounts (R ++ recorded [a]) bk' l'.
Proof.
  intros Ha HR. destruct a as [e| | |d]; cbn [act recorded omap list_omap] in *; rewrite ?app_nil_r in *.
  - intros [= <-]. exact (acct_enqueue R bk l e Ha HR).
  - unfold notify. destruct (recorders l); [done|]. intros [= <-]. exists bk. by apply (acct_frame R bk l).
  - intros [= <-]. exists bk. by apply (acct_frame R bk l).
  - exact (acct_turn R bk l d l' Ha HR).
Qed.

Lemma recorded_app (tr tr' : list (action Entry)) : recorded (tr ++ tr') = recorded tr ++ recorded tr'.
Proof. apply omap_app. Qed.

Lemma run_app tr tr' l : run Marshal answers (tr ++ tr') l = match run Marshal answers tr l with Some l => run Marshal answers tr' l | None => None end.
Proof. revert l. induction tr as [|a tr IH]; intros l; cbn [app run]; [done|]. by destruct (act Marshal answers a l). Qed.

Lemma acct_run tr R bk l l' :
  accounts R bk l -> Z.of_nat (length (R ++ recorded tr)) <= max_int64 -> run Marshal answers tr l = Some l' ->
  exists bk', accounts (R ++ recorded tr) bk' l'.
Proof.
  revert R bk l. induction tr as [|a tr IH]; intros R bk l Ha HR; cbn [run].
  { intros [= <-]. cbn. rewrite app_nil_r. eauto. }
  change (a :: tr) with ([a] ++ tr) in *. rewrite recorded_app, app_assoc in *.
  destruct (act Marshal answers a l) as [l1|] eqn:Hact; [|done]. intros Hrun.
  destruct (acct_act R bk l a l1) as [bk1 H1]; [done| |done|].
  { rewrite length_app in HR. lia. }
  by apply (IH _ bk1 l1).
Qed.

Lemma acct_reached capacity tr l :
  run Marshal answers tr (NewLogger capacity) = Some l -> Z.of_nat (length (recorded tr)) <= max_int64 ->
  exists bk, accounts (recorded tr) bk l.
Proof. intros Hrun HR. apply (acct_run tr [] _ _ _ (acct_new capacity) HR Hrun). Qed.
End facts.
End LogFacts.
