(* ===== verification/LoggerProps.v ===== *)
(** * What the access log keeps

    The conservation of entries under every interleaving, what a returned
    [Flush] means, and the drain goroutine's progress. *)
From Stdlib Require Import Ascii.
From stdpp Require Import base numbers strings pretty list.
From S2P Require Import Prelude Stream Logger.
Import GoInt.
Local Open Scope Z_scope.

Module LogProgress.
Import Bufio BufioFacts Logger LogSpec RingFacts LogFacts.
Section progress.
Context {Entry : Type} `{!Inhabited Entry}.
Variable Marshal : Entry -> option bytes.
Variable answers : nat -> answer.
Implicit Types (l : Logger Entry) (tr : list (action Entry)).

Local Abbreviation turn := (turn Marshal answers).
Local Abbreviation act := (act Marshal answers).
Local Abbreviation run := (run Marshal answers).

(** The queue grows only by what is recorded. *)
Lemma Buffered_act a l l' : act a l = Some l' -> (Buffered l' <= Buffered l + length (recorded [a]))%nat.
Proof.
  unfold Buffered. destruct a as [e| | |d]; cbn [Logger.act recorded omap list_omap length].
  - intros [= <-]. unfold enqueue. destruct (Ring.full (queue l)); cbn; lia.
  - unfold notify. destruct (recorders l); [done|]. intros [= <-]. cbn. lia.
  - intros [= <-]. cbn. lia.
  - unfold Logger.turn. destruct (at_ l); repeat case_match; intros; simplify_eq; cbn; try lia;
      try (unfold Ring.pop in *; repeat case_match; simplify_eq; cbn; lia);
      try (unfold flushBuffer, chargePending; repeat case_match; cbn; lia);
      unfold write_entry in *; repeat case_match; simplify_eq; cbn; lia.
Qed.

Lemma Buffered_run tr l l' : run tr l = Some l' -> (Buffered l' <= Buffered l + length (recorded tr))%nat.
Proof.
  revert l. induction tr as [|a tr IH]; intros l; cbn [Logger.run]; [intros [= <-]; cbn; lia|].
  destruct (act a l) as [l1|] eqn:Ha; [|done]. intros Hr%IH. apply Buffered_act in Ha.
  change (a :: tr) with ([a] ++ tr). rewrite recorded_app, length_app. lia.
Qed.

(** The ring keeps its size. *)
Lemma slots_act a l l' : act a l = Some l' -> length (Ring.slots (queue l')) = length (Ring.slots (queue l)).
Proof.
  destruct a as [e| | |d]; cbn [Logger.act].
  - intros [= <-]. unfold enqueue. destruct (Ring.full (queue l)); cbn; by rewrite length_insert.
  - unfold notify. destruct (recorders l); [done|]. by intros [= <-].
  - by intros [= <-].
  - unfold Logger.turn, Ring.pop, flushBuffer, chargePending, write_entry. destruct (at_ l); repeat case_match; intros; by simplify_eq.
Qed.

Lemma slots_run tr l l' : run tr l = Some l' -> length (Ring.slots (queue l')) = length (Ring.slots (queue l)).
Proof.
  revert l. induction tr as [|a tr IH]; intros l; cbn [Logger.run]; [by intros [= <-]|].
  destruct (act a l) as [l1|] eqn:Ha; [|done]. intros Hr%IH. by rewrite Hr, (slots_act a l l1 Ha).
Qed.

(** *** The goroutine comes to rest *)
Definition pass (l : Logger Entry) : nat := 2 * Buffered l + 5.
Definition later (l : Logger Entry) : nat := if done l || signal l then pass l else 0.
(** An upper bound of the turns until the goroutine blocks. *)
Definition turns_left (l : Logger Entry) : nat :=
  match at_ l with
  | AtSelect => later l
  | Entered last => 2 * Buffered l + 4 + if last then 0 else later l
  | AtLock last => 2 * Buffered l + 3 + if last then 0 else later l
  | Holding last _ => 2 * Buffered l + 4 + if last then 0 else later l
  | Refused last => 3 + if last then 0 else later l
  | Charging last | AtFlush last => 2 + if last then 0 else later l
  | Leaving last => 1 + if last then 0 else later l
  | Stopped => 0
  end%nat.

Lemma chargePending_frame b l :
  let l' := chargePending b l in queue l' = queue l /\ done l' = done l /\ signal l' = signal l /\ recorders l' = recorders l.
Proof. unfold chargePending. by repeat case_match. Qed.

Lemma flushBuffer_frame l :
  let l' := flushBuffer answers l in queue l' = queue l /\ done l' = done l /\ signal l' = signal l /\ recorders l' = recorders l.
Proof. unfold flushBuffer, chargePending. by repeat case_match. Qed.

Lemma write_entry_frame last e l l' :
  write_entry Marshal answers last e l = Some l' ->
  queue l' = queue l /\ done l' = done l /\ signal l' = signal l /\ recorders l' = recorders l /\
  (at_ l' = AtLock last \/ at_ l' = Refused last).
Proof. unfold write_entry. repeat case_match; intros; simplify_eq; cbn; auto 8. Qed.

Lemma turn_measure l l' : turn (done l) l = Some l' -> (turns_left l' < turns_left l)%nat.
Proof.
  unfold Logger.turn, turns_left, later, pass. destruct (at_ l) as [|last|last|last e|last|last|last|last|] eqn:Ea.
  - destruct (done l) eqn:Ed; [|destruct (signal l) eqn:Es]; intros [= <-]; unfold Buffered; cbn; rewrite ?Ed; cbn; lia.
  - intros [= <-]. unfold Buffered; cbn. lia.
  - unfold Ring.pop. destruct (Nat.eqb_spec (Ring.count (queue l)) 0) as [E|E]; intros [= <-]; unfold Buffered; cbn; [lia|].
    destruct last, (done l || signal l); lia.
  - intros (Hq & Hd & Hs & _ & [-> | ->])%write_entry_frame; unfold Buffered; rewrite Hq, Hd, Hs; lia.
  - intros [= <-]. unfold Buffered; cbn. lia.
  - intros [= <-]. destruct (chargePending_frame false l) as (Hq & Hd & Hs & _). unfold Buffered; fields. rewrite Hq, Hd, Hs. lia.
  - intros [= <-]. destruct (flushBuffer_frame l) as (Hq & Hd & Hs & _). unfold Buffered; fields. rewrite Hq, Hd, Hs. lia.
  - intros [= <-]. destruct last; unfold Buffered; cbn; lia.
  - done.
Qed.

Lemma turn_frame d l l' : turn d l = Some l' -> done l' = done l /\ recorders l' = recorders l.
Proof.
  unfold Logger.turn. destruct (at_ l) as [|last|last|last e|last|last|last|last|].
  - repeat case_match; intros; by simplify_eq.
  - by intros [= <-].
  - repeat case_match; intros; by simplify_eq.
  - by intros (_ & ? & _ & ? & _)%write_entry_frame.
  - by intros [= <-].
  - intros [= <-]. destruct (chargePending_frame false l) as (_ & ? & _ & ?). done.
  - intros [= <-]. destruct (flushBuffer_frame l) as (_ & ? & _ & ?). done.
  - by intros [= <-].
  - done.
Qed.

(** The goroutine is blocked in its select, or has returned. *)
Definition at_rest l : Prop := at_ l = AtSelect /\ done l = false /\ signal l = false \/ at_ l = Stopped.

Lemma turn_blocked R bk l : accounts Marshal R bk l -> turn (done l) l = None -> at_rest l.
Proof.
  intros Ha. unfold Logger.turn, at_rest. destruct (at_ l) as [|last|last|last e|last|last|last|last|] eqn:Ea; try done; [..|by right].
  - destruct (done l) eqn:Ed; [done|]. destruct (signal l) eqn:Es; [done|]. by left.
  - by destruct (Ring.pop (queue l)) as [[]|].
  - unfold write_entry. destruct (Marshal e) as [raw|]; [|done].
    destruct (acc_buf _ _ _ _ Ha) as (He & _ & Hav); [by unfold failing; rewrite Ea|].
    destruct (Write_spec answers (raw ++ [nl]) (buf l) (out l)) as (f & b & o & w & E & _); [by rewrite (acc_size _ _ _ _ Ha)|done|done|].
    rewrite E. by destruct f.
Qed.

Definition turns (n : nat) l : list (action Entry) := replicate n (Turn (done l)).

Lemma recorded_turns n (d : bool) : recorded (replicate n (Turn d) : list (action Entry)) = [].
Proof. induction n; [done|]. exact IHn. Qed.

(** What every turn preserves holds where the goroutine comes to rest. *)
Lemma comes_to_rest (P : Logger Entry -> Prop) R bk l :
  (forall l l' R bk, accounts Marshal R bk l -> turn (done l) l = Some l' -> P l -> P l') ->
  accounts Marshal R bk l -> Z.of_nat (length R) <= max_int64 -> P l ->
  exists n l' bk', (n <= turns_left l)%nat /\ run (turns n l) l = Some l' /\ accounts Marshal R bk' l' /\ at_rest l' /\ P l' /\
    recorders l' = recorders l.
Proof.
  intros HP. remember (turns_left l) as m eqn:Hm. revert l bk Hm.
  induction (lt_wf m) as [m _ IH]; intros l bk -> Ha HR Hl. destruct (turn (done l) l) as [l1|] eqn:Ht.
  - destruct (acct_turn Marshal answers R bk l _ _ Ha HR Ht) as [bk1 Ha1]. destruct (turn_frame _ _ _ Ht) as [Hd Hr].
    destruct (IH _ (turn_measure l l1 Ht) l1 bk1 eq_refl Ha1 HR) as (n & l' & bk' & Hn & Hrun & Ha' & Hrest & HPl & Hr').
    { by apply (HP l l1 R bk). }
    exists (S n), l', bk'. pose proof (turn_measure l l1 Ht). split_and!; try done; [lia| |congruence].
    unfold turns in *. cbn [replicate Logger.run Logger.act]. by rewrite Ht, <- Hd.
  - exists 0%nat, l, bk. split_and!; try done; [lia|]. by apply (turn_blocked R bk).
Qed.

(** An invariant of the actions, given the books, holds wherever a run leads. *)
Lemma run_invariant (P : Logger Entry -> Prop) R bk l tr l' :
  (forall a l l' R bk, accounts Marshal R bk l -> act a l = Some l' -> P l -> P l') ->
  accounts Marshal R bk l -> Z.of_nat (length (R ++ recorded tr)) <= max_int64 -> P l -> run tr l = Some l' -> P l'.
Proof.
  intros HP. revert R bk l. induction tr as [|a tr IH]; intros R bk l Ha HR Hl; cbn [Logger.run]; [by intros [= <-]|].
  destruct (act a l) as [l1|] eqn:Hact; [|done]. change (a :: tr) with ([a] ++ tr) in HR.
  rewrite recorded_app, app_assoc in HR. destruct (acct_act Marshal answers R bk l a l1) as [bk1 H1]; [done| |done|].
  { rewrite length_app in HR. lia. }
  apply (IH _ bk1 l1 H1 HR). by apply (HP a l l1 R bk).
Qed.

(** *** A sink that takes every write *)
Section took.
Hypothesis healthy : forall n, answers n = Took.

Lemma Flush_took b o failed b' o' : err b = false -> Flush answers b o = (failed, b', o') -> failed = false.
Proof.
  unfold Flush, sink_write. intros ->. rewrite healthy. by destruct (held b); intros [= <- _ _].
Qed.

Lemma write_took fuel p b o failed b' o' : err b = false -> write_loop answers fuel p b o = Some (failed, b', o') -> failed = false.
Proof.
  revert p b o. induction fuel as [|fuel IH]; intros p b o He; cbn [write_loop]; rewrite He.
  { destruct (_ && _); [done|]. by intros [= <- _ _]. }
  destruct (_ && _); [|by intros [= <- _ _]]. destruct (held b) as [|c h].
  - unfold sink_write. rewrite healthy. by apply IH.
  - destruct (Flush answers _ o) as [[f b1] o1] eqn:Hf. apply Flush_took in Hf as Hf'; [|done]. subst f.
    apply Flush_spec in Hf as (_ & _ & _ & He1 & _); [|done]. by apply IH.
Qed.

(** Past the point where the last pass found the queue empty. *)
Definition retired l : bool := match at_ l with AtFlush true | Leaving true | Stopped => true | _ => false end.
Definition sweeping l : bool := match at_ l with Entered _ | AtLock _ | Holding _ _ => true | _ => retired l end.

(** A queued entry has a pass, a signal or a recorder on its way. *)
Definition attended l : Prop :=
  failing l = false /\ (Buffered l = 0%nat \/ signal l = true \/ (0 < recorders l)%nat \/ sweeping l = true).

Lemma attended_turn R bk d l l' : accounts Marshal R bk l -> turn d l = Some l' -> attended l -> attended l'.
Proof.
  intros Ha. unfold Logger.turn, attended, failing, sweeping, retired. destruct (at_ l) as [|last|last|last e|last|last|last|last|] eqn:Ea.
  - repeat case_match; intros; simplify_eq; cbn; auto.
  - intros [= <-]. cbn. auto.
  - unfold Ring.pop. destruct (Nat.eqb_spec (Ring.count (queue l)) 0); intros [= <-] _; cbn; auto.
  - unfold write_entry. destruct (Marshal e) as [raw|]; [|intros [= <-]; cbn; auto].
    destruct (Write answers (raw ++ [nl]) (buf l) (out l)) as [[[f b] o]|] eqn:Hw; [|done].
    apply write_took in Hw; [|by destruct (acc_buf _ _ _ _ Ha); [unfold failing; rewrite Ea|]]. subst f. intros [= <-]. cbn. auto.
  - by intros _ [].
  - by intros _ [].
  - intros [= <-] [_ Hl]. destruct (flushBuffer_frame l) as (Hq & _ & Hs & Hr). unfold Buffered in *. fields. rewrite Hq, Hs, Hr. done.
  - intros [= <-] [_ Hl]. split; [by destruct last|]. destruct last; [auto|]. exact Hl.
  - done.
Qed.

Lemma attended_act a l l' R bk : accounts Marshal R bk l -> act a l = Some l' -> attended l -> attended l'.
Proof.
  intros Ha. destruct a as [e| | |d]; cbn [Logger.act].
  - intros [= <-] [Hf _]. unfold enqueue. destruct (Ring.full (queue l)); (split; [exact Hf|]); right; right; left; cbn; lia.
  - unfold notify. destruct (recorders l); [done|]. intros [= <-] [Hf _]. split; [exact Hf|]. right. by left.
  - by intros [= <-].
  - by apply (attended_turn R bk).
Qed.

Lemma attended_reached capacity tr l :
  run tr (NewLogger capacity) = Some l -> Z.of_nat (length (recorded tr)) <= max_int64 -> attended l.
Proof.
  intros Hrun HR. apply (run_invariant attended [] (mkBooks [] [] [] []) (NewLogger capacity) tr); try done.
  - intros a l1 l2 R bk. apply attended_act.
  - apply acct_new.
  - split; [done|]. by left.
Qed.

(** The last pass empties the queue it is left with. *)
Lemma emptied_turn d l l' :
  failing l = false -> turn d l = Some l' -> (retired l = true -> Buffered l = 0%nat) -> retired l' = true -> Buffered l' = 0%nat.
Proof.
  unfold Logger.turn, retired, failing. destruct (at_ l) as [|last|last|last e|last|last|last|last|] eqn:Ea; intros Hf; try done.
  - repeat case_match; intros; by simplify_eq.
  - by intros [= <-].
  - unfold Ring.pop. destruct (Nat.eqb_spec (Ring.count (queue l)) 0); by intros [= <-].
  - by intros (Hq & _ & _ & _ & [-> | ->])%write_entry_frame.
  - intros [= <-]. destruct (flushBuffer_frame l) as (Hq & _). unfold Buffered in *. fields. by rewrite Hq.
  - intros [= <-]. unfold Buffered. cbn. by destruct last.
Qed.

End took.

(** Nothing is in progress where the goroutine rests. *)
Lemma idle_settled R bk l : accounts Marshal R bk l -> draining l = false -> in_progress l = 0 /\ open bk = [] /\ sent bk = [].
Proof.
  intros Ha Hd. rewrite (acc_draining _ _ _ _ Ha) in Hd. destruct (acc_pending _ _ _ _ Ha) as [_ Hp].
  assert (failing l = false /\ resting l = true /\ in_progress l = pending l) as (Hf & Hr & Hi).
  { unfold busy, failing, resting, in_progress in *. by destruct (at_ l). }
  destruct (acc_rest _ _ _ _ Ha (or_intror Hr)) as [Ho Hs]. rewrite Hi, (Hp Hf), Ho. done.
Qed.
End progress.
End LogProgress.

Module LoggerProps.
Import Bufio Logger LogSpec RingFacts LogFacts LogProgress.
Section props.
Context {Entry : Type} `{!Inhabited Entry}.
Variable Marshal : Entry -> option bytes.
Variable answers : nat -> answer.

Lemma omap_sublist {A B : Type} (f : A -> option B) (g : A -> B) (xs : list A) :
  (forall x y, f x = Some y -> y = g x) -> omap f xs `sublist_of` map g xs.
Proof.
  intros Hf. induction xs as [|x xs IH]; [done|]. cbn. destruct (f x) as [y|] eqn:E; [rewrite (Hf x y E)|]; by constructor.
Qed.

Lemma filter_sublist {A : Type} (f : A -> bool) (xs : list A) : List.filter f xs `sublist_of` xs.
Proof. induction xs as [|x xs IH]; [done|]. cbn. destruct (f x); by constructor. Qed.

(** C29. However recorders, a close and the drain goroutine interleave, and
    whatever writes the sink refuses: every entry recorded is dropped,
    written, buffered or in the hands of the goroutine, and in exactly one
    of these; the buffer holds the newest entries, at most the capacity of
    them; and the sink holds batches of lines in the order they were
    recorded, of which the whole ones are those counted as written and a
    torn one is a beginning of its lines. *)
Theorem log_conservation (capacity : Z) (tr : list (action Entry)) (l : Logger Entry) :
  run Marshal answers tr (NewLogger capacity) = Some l -> Z.of_nat (length (recorded tr)) <= max_int64 ->
  Dropped l + Written l + Z.of_nat (Buffered l) + in_progress l = Z.of_nat (length (recorded tr)) /\
  0 <= Dropped l /\ 0 <= Written l /\ 0 <= in_progress l /\ (draining l = false -> in_progress l = 0) /\
  Ring.contents (queue l) `suffix_of` recorded tr /\ Z.of_nat (Buffered l) <= Z.max 1 capacity /\
  exists (bs : list (batch Entry)) (open : list Entry) (sent : bytes),
    taken (out l) = concat (map (batch_bytes Marshal) bs) ++ sent /\ sent `prefix_of` lines Marshal open /\
    Forall (batch_ok Marshal) bs /\ Written l = Z.of_nat (length (concat (map landed_of bs))) /\
    concat (map batch_entries bs) ++ open `sublist_of` recorded tr.
Proof.
  intros Hrun HR. destruct (acct_reached Marshal answers capacity tr l Hrun HR) as [bk Ha].
  pose proof (conservation Marshal _ _ _ Ha) as Hc. pose proof (in_progress_nonneg Marshal _ _ _ Ha).
  split_and!; [exact Hc|exact (acc_nonneg _ _ _ _ Ha)| |done| | | |].
  - unfold Written. rewrite (acc_written _ _ _ _ Ha). lia.
  - intros Hd. by apply (idle_settled Marshal (recorded tr) bk).
  - rewrite (acc_order _ _ _ _ Ha). by apply suffix_app_r.
  - destruct (acc_wf _ _ _ _ Ha) as [_ Hle]. rewrite (slots_run _ _ _ _ _ Hrun) in Hle. cbn in Hle. rewrite length_replicate in Hle.
    unfold Buffered. destruct (Z.ltb_spec capacity 1); lia.
  - exists (settled bk), (open bk), (sent bk). split_and!; [apply Ha| |apply Ha|apply Ha|].
    + destruct (failing l) eqn:Hf; [by destruct (acc_rest _ _ _ _ Ha (or_introl Hf)) as [-> ->]|].
      destruct (acc_buf _ _ _ _ Ha Hf) as (_ & <- & _). by apply prefix_app_r.
    + transitivity (List.filter (marshals Marshal) (dequeued bk)).
      { rewrite (acc_lines _ _ _ _ Ha), app_assoc. apply sublist_inserts_r. done. }
      transitivity (dequeued bk); [apply filter_sublist|]. rewrite (acc_order _ _ _ _ Ha). apply sublist_inserts_r.
      apply omap_sublist. intros [[] e] y; cbn; congruence.
Qed.

(** [Flush]: when it returns nil, the length it read and the flag it
    read after it, with any actions in between, mean that every entry
    recorded before the first read is written or counted as dropped, and no
    line is under way: the sink holds whole settled batches only. *)
Theorem flush_settles (capacity : Z) (tr tr' : list (action Entry)) (l l' : Logger Entry) :
  run Marshal answers tr (NewLogger capacity) = Some l -> run Marshal answers tr' l = Some l' ->
  Z.of_nat (length (recorded (tr ++ tr'))) <= max_int64 -> flush_settled (Buffered l) l' = true ->
  Z.of_nat (length (recorded tr)) <= Written l' + Dropped l' /\ in_progress l' = 0 /\
  exists (gone : list (bool * Entry)) (bs : list (batch Entry)),
    recorded tr `prefix_of` map snd gone /\ Z.of_nat (length gone) = Written l' + Dropped l' /\
    List.filter (marshals Marshal) (omap (fun p : bool * Entry => if p.1 then None else Some p.2) gone) = concat (map batch_entries bs) /\
    taken (out l') = concat (map (batch_bytes Marshal) bs) /\ Forall (batch_ok Marshal) bs /\
    Written l' = Z.of_nat (length (concat (map landed_of bs))).
Proof.
  intros Hrun Hrun' HR [Hb Hd%negb_true_iff]%andb_true_iff. apply Nat.eqb_eq in Hb.
  destruct (acct_reached Marshal answers capacity (tr ++ tr') l') as [bk Ha]; [by rewrite run_app, Hrun|done|].
  destruct (idle_settled Marshal _ _ _ Ha Hd) as (Hi & Ho & Hs). pose proof (conservation Marshal _ _ _ Ha) as Hc.
  pose proof (Buffered_run Marshal answers _ _ _ Hrun') as Hgrow. rewrite Hb in Hgrow. rewrite Hi, recorded_app, length_app in Hc.
  pose proof (acc_order _ _ _ _ Ha) as Hord. assert (length (recorded tr) <= length (gone bk))%nat as Hlen.
  { apply (f_equal length) in Hord. rewrite recorded_app, !length_app, length_map, contents_length in Hord. unfold Buffered in *. lia. }
  unfold Written, Dropped. split_and!; [lia|done|]. exists (gone bk), (settled bk). split_and!.
  - assert (recorded tr `prefix_of` recorded (tr ++ tr')) as Hp by (rewrite recorded_app; by apply prefix_app_r).
    destruct (prefix_weak_total (recorded tr) (map snd (gone bk)) (recorded (tr ++ tr'))) as [|Hq]; [done| |done|].
    { rewrite Hord. by apply prefix_app_r. }
    rewrite (prefix_length_eq _ _ Hq) by (by rewrite length_map). done.
  - apply (f_equal length) in Hord. rewrite recorded_app, !length_app, length_map, contents_length in Hord. unfold Buffered in *. lia.
  - pose proof (acc_lines _ _ _ _ Ha) as Hl. assert (in_hand l' = []) as Hh.
    { pose proof (acc_draining _ _ _ _ Ha) as Hb'. rewrite Hd in Hb'. unfold busy, in_hand in *. by destruct (at_ l'). }
    rewrite Hh, Ho in Hl. cbn [List.filter app] in Hl. by rewrite app_nil_r in Hl.
  - rewrite (acc_out _ _ _ _ Ha), Hs. by rewrite app_nil_r.
  - apply Ha.
  - apply Ha.
Qed.

(** C36. The drain goroutine on its own always comes to rest, within a number
    of turns given by the queue, whatever the sink answers.  With a sink that
    takes every write, and provided that no recorder is between its two
    halves and that the goroutine has not finished its last pass, the queue
    is then empty, every entry recorded so far is written or dropped, and
    [Flush] returns; of an entry recorded behind the last pass of [Close]
    this says nothing. *)
Theorem log_drains (capacity : Z) (tr : list (action Entry)) (l : Logger Entry) :
  run Marshal answers tr (NewLogger capacity) = Some l -> Z.of_nat (length (recorded tr)) <= max_int64 ->
  exists n l', (n <= 4 * Buffered l + 9)%nat /\ run Marshal answers (turns n l) l = Some l' /\ at_rest l' /\ in_progress l' = 0 /\
    ((forall n, answers n = Took) -> recorders l = 0%nat -> retired l = false ->
      Buffered l' = 0%nat /\ Written l' + Dropped l' = Z.of_nat (length (recorded tr)) /\ flush_settled (Buffered l') l' = true).
Proof.
  intros Hrun HR. destruct (acct_reached Marshal answers capacity tr l Hrun HR) as [bk Ha].
  assert (turns_left l <= 4 * Buffered l + 9)%nat as Hbound.
  { unfold turns_left, later, pass. destruct (at_ l) as [|[]|[]|[]|[]|[]|[]|[]|]; destruct (done l || signal l); lia. }
  destruct (comes_to_rest Marshal answers (fun l1 => (forall n, answers n = Took) -> retired l = false ->
    attended l1 /\ (retired l1 = true -> Buffered l1 = 0%nat)) (recorded tr) bk l) as (n & l' & bk' & Hn & Hrun' & Ha' & Hrest & HP & Hr); [|done|done| |].
  { intros l1 l2 R1 bk1 H1 Ht HP Htook Hret. destruct (HP Htook Hret) as [H2 H3].
    split; [by apply (attended_turn Marshal answers Htook R1 bk1 (done l1) l1)|].
    by apply (emptied_turn Marshal answers (done l1) l1 l2 (proj1 H2) Ht). }
  { intros Htook Hret. split; [by apply (attended_reached Marshal answers Htook capacity tr)|congruence]. }
  assert (draining l' = false) as Hd.
  { rewrite (acc_draining _ _ _ _ Ha'). unfold busy. by destruct Hrest as [(-> & _)| ->]. }
  destruct (idle_settled Marshal _ _ _ Ha' Hd) as [Hi _]. pose proof (conservation Marshal _ _ _ Ha') as Hc.
  exists n, l'. split_and!; [lia|done|done|done|]. intros Htook Hr0 Hret. destruct (HP Htook Hret) as [[_ Hatt] Hem].
  assert (Buffered l' = 0%nat) as Hb.
  { destruct Hrest as [(Hat & _ & Hs)|Hat]; [|apply Hem; unfold retired; by rewrite Hat].
    destruct Hatt as [?|[?|[?|Hsw]]]; [done|congruence|lia|]. unfold sweeping, retired in Hsw. by rewrite Hat in Hsw. }
  split_and!; [done|unfold Written, Dropped; lia|]. unfold flush_settled. by rewrite Hb, Hd.
Qed.
End props.
End LoggerProps.

(** ** Concrete runs *)
Module LogScenario.
Import Bufio Logger LogSpec LogProgress LoggerProps.

(** Entries are numbers, written in decimal. *)
Definition text (n : Z) : option bytes := Some (bytes_of (pretty n)).
Definition took (_ : nat) : answer := Took.
Definition go (n : nat) : list (action Z) := replicate n (Turn false).

(** Three entries in a ring of two, one pass, a fourth entry in the pass. *)
Definition busy_run : list (action Z) :=
  [Enqueue 1; Notify; Enqueue 2; Enqueue 3; Notify; Notify] ++ go 3 ++ [Enqueue 4; Notify] ++ go 4.

Local Abbreviation busy_state := (run text took busy_run (NewLogger 2)).

Example busy_view :
  (fun l => (Dropped l, Written l, Buffered l, in_progress l, at_ l)) <$> busy_state = Some (1, 0, 0%nat, 3, Holding false 4).
Proof. vm_compute. reflexivity. Qed.

Lemma log_conservation_witness :
  match busy_state with
  | Some l => Dropped l + Written l + Z.of_nat (Buffered l) + in_progress l = 4
  | None => False
  end.
Proof.
  assert (exists l, busy_state = Some l) as [l E] by (eexists; vm_compute; reflexivity). rewrite E.
  transitivity (Z.of_nat (length (recorded busy_run))); [|reflexivity].
  apply (log_conservation text took 2 busy_run l E). vm_compute. discriminate.
Defined.

Lemma flush_settles_witness :
  match busy_state with
  | Some l => match run text took (go 4) l with
              | Some l' => Z.of_nat (length (recorded busy_run)) <= Written l' + Dropped l'
              | None => False
              end
  | None => False
  end.
Proof.
  assert (exists l, busy_state = Some l /\ Buffered l = 0%nat /\ exists l', run text took (go 4) l = Some l' /\ draining l' = false)
    as (l & E & Hb & l' & E' & Hd).
  { eexists. split; [vm_compute; reflexivity|]. split; [reflexivity|]. eexists. split; [vm_compute; reflexivity|reflexivity]. }
  rewrite E, E'. refine (proj1 (flush_settles text took 2 busy_run (go 4) l l' E E' _ _)).
  - vm_compute. discriminate.
  - unfold flush_settled. rewrite Hb, Hd. reflexivity.
Defined.

Lemma log_drains_witness :
  match busy_state with
  | Some l => exists n l', run text took (turns n l) l = Some l' /\ Written l' + Dropped l' = 4
  | None => False
  end.
Proof.
  assert (exists l, busy_state = Some l /\ recorders l = 0%nat /\ retired l = false) as (l & E & Hr & Ht).
  { eexists. split; [vm_compute; reflexivity|]. split; reflexivity. }
  rewrite E. destruct (log_drains text took 2 busy_run l E ltac:(vm_compute; discriminate)) as (n & l' & _ & Hrun & _ & _ & H).
  exists n, l'. split; [exact Hrun|]. transitivity (Z.of_nat (length (recorded busy_run))); [|reflexivity].
  exact (proj1 (proj2 (H (fun _ => eq_refl) Hr Ht))).
Defined.

(** A sink that fails its first write after one byte. *)
Definition one_byte (n : nat) : answer := match n with O => Failed 1 | _ => Took end.

(** The beginning of the line that failed stays in the sink: the line of the
    next pass is counted as written, and follows it without a newline.  No
    entry was evicted, and one is counted as dropped. *)
Example torn_line :
  (fun l => (Dropped l, Written l, Buffered l, taken (out l)))
  <$> run text one_byte ([Enqueue 42; Notify] ++ go 7 ++ [Enqueue 77; Notify] ++ go 7) (NewLogger 8)
  = Some (1, 1, 0%nat, bytes_of "477" ++ [nl]).
Proof. vm_compute. reflexivity. Qed.

(** Lines longer than the buffer, and a sink that is full. *)
Definition long (n : Z) : option bytes := Some (replicate (Z.to_nat 70000) "120"%char).
Definition full_sink (_ : nat) : answer := Failed 0.

(** An entry recorded behind the last pass stays in the queue, and [Flush]
    does not return before its deadline. *)
Example record_after_close :
  (fun l => (Dropped l, Written l, Buffered l, at_ l, flush_settled (Buffered l) l))
  <$> run text took ([CloseDone] ++ replicate 5 (Turn true) ++ [Enqueue 42; Notify]) (NewLogger 8)
  = Some (0, 0, 1%nat, Stopped, false).
Proof. vm_compute. reflexivity. Qed.

(** The last pass ends at the first failure: what is queued behind it is
    neither written nor counted as dropped, and nothing is left to take it,
    so [Flush] does not return before its deadline. *)
Example close_strands :
  (fun l => (Dropped l, Written l, Buffered l, at_ l, flush_settled (Buffered l) l))
  <$> run long full_sink ([Enqueue 1; Notify; Enqueue 2; Notify; Enqueue 3; Notify; CloseDone; Turn true] ++ replicate 6 (Turn true))
       (NewLogger 8)
  = Some (1, 0, 2%nat, Stopped, false).
Proof. vm_compute. reflexivity. Qed.
End LogScenario.
