(* ===== verification/Config.v ===== *)
(** * Configuration (internal/config: config.go, env.go)

    The configuration a gateway starts with, as [Load] reads it from the
    environment and refuses it.  The variables are a function from names to
    raw values; the decoders of the standard library and of encoding/json,
    the URL parser and the file system are arguments.  A refusal is a value
    naming what was refused; the wording of the messages is left out. *)
From Stdlib Require Import Ascii QArith.
From stdpp Require Import base numbers gmap strings list.
From S2P Require Import Prelude Float64 Retry Stream Text Upstream.
Import GoInt GoTime Text.Text.
Local Open Scope Z_scope.
Set Warnings "-register-all".

(** ** The schema (config.go) *)
Module Schema.
Import Classifier.

Record Server := mkServer { Addr : string; ShutdownGrace : Z }.
Record Redis := mkRedis { rAddr : string; Namespace : string; TLS : bool }.
Record Obs := mkObs { AccessLogQueueSize : Z; AccessLogPath : string; InsightsDSN : string }.
Record Upstream := mkUpstream {
  ID : string; BaseURL : string; APIKey : string; APIKeys : list string; ProbeURL : string; Models : list string
}.
Record Retry := mkRetry {
  MaxAttempts : Z; AttemptTimeout : Z; OverallDeadline : Z; BackoffInitial : Z; BackoffMax : Z;
  BudgetMaxInFlight : Z; BudgetPercent : Z; BudgetMinInFlight : Z; StreamTimeout : Z; StreamIdleTimeout : Z
}.
Record Cache := mkCache { cEnabled : bool; TTL : Z; Capacity : Z }.
Record Circuit := mkCircuit {
  Enabled : bool; Strategy : string; FailThreshold : Z; Cooldown : Z; ProbeTimeout : Z; SlowRatio : float; SlowCallThreshold : Z
}.
Record Security := mkSecurity { AdminToken : string; AllowUnauthenticated : bool }.
Record Probe := mkProbe { Interval : Z; Timeout : Z; Threshold : Z; pBackoffMax : Z }.
Record Routing := mkRouting { rStrategy : string; AffinityTTL : Z }.

(** [LeaseTTL_] is the field of [Quota], [DSN] the one of [Postgres]. *)
Record Config := mkConfig {
  cServer : Server; cRedis : Redis; DSN : string; cObs : Obs; LeaseTTL_ : Z; Upstreams : list Upstream; cRetry : Retry;
  Identity : string; KeyPepper : string; Fallbacks : gmap string (list string); ContextLimits : gmap string Z;
  ReconcileInterval : Z; UpstreamMaxInFlight : Z; cCache : Cache; cCircuit : Circuit; cSecurity : Security;
  cProbe : Probe; cRouting : Routing
}.

(** [Credentials]: the ring order. *)
Definition Credentials (u : Upstream) : list string :=
  (if negb (String.eqb (APIKey u) "") then [APIKey u] else []) ++ APIKeys u.

Definition leaseTTLHeadroom : Z := minute.
Definition unboundedRequestLeaseTTL : Z := 24 * (60 * minute).

(** A sum of durations that stops at the largest. *)
Definition addDuration (a b : Z) : Z := let sum := wrap64 (a + b) in if sum <? 0 then max_int64 else sum.

Definition requestBudget (c : Config) : option Z :=
  if (OverallDeadline (cRetry c) <=? 0) || (StreamTimeout (cRetry c) <=? 0) then None
  else Some (addDuration (OverallDeadline (cRetry c)) (StreamTimeout (cRetry c))).

Definition RequestCeiling (c : Config) : Z :=
  match requestBudget c with Some budget => budget | None => unboundedRequestLeaseTTL end.

Definition LeaseTTL (c : Config) : Z :=
  if 0 <? LeaseTTL_ c then LeaseTTL_ c
  else match requestBudget c with
  | Some budget => addDuration budget leaseTTLHeadroom
  | None => unboundedRequestLeaseTTL
  end.
End Schema.

(** ** Defaults and variables (env.go) *)
Module Env.
Import Classifier.
Definition defaultAddr : string := ":8080".
Definition defaultShutdownGrace : Z := 15 * second.
Definition defaultRedisAddr : string := "".
Definition defaultAccessLogQueue : Z := 4096.
Definition defaultMaxAttempts : Z := 3.
Definition defaultAttemptTimeout : Z := 30 * second.
Definition defaultOverallDeadline : Z := 60 * second.
Definition defaultBackoffInitial : Z := 100 * millisecond.
Definition defaultBackoffMax : Z := 2 * second.
Definition defaultRetryBudgetCap : Z := 64.
Definition defaultRetryBudgetMin : Z := 3.
Definition defaultCacheTTL : Z := 60 * second.
Definition defaultCacheCapacity : Z := 1024.
Definition defaultCircuitThreshold : Z := 5.
Definition defaultCircuitCooldown : Z := 30 * second.
Definition defaultCircuitProbe : Z := 5 * second.
Definition defaultCircuitSlowRatio : float := Finite (1 # 2).
Definition defaultStreamTimeout : Z := 10 * minute.
Definition defaultReconcileEvery : Z := minute.
Definition defaultProbeInterval : Z := 30 * second.
Definition defaultProbeTimeout : Z := 5 * second.
Definition defaultProbeThreshold : Z := 2.
Definition maxCacheCapacity : Z := Z.shiftl 1 18.

Definition envAddr : string := "BREAKWATER_ADDR".
Definition envShutdownGrace : string := "BREAKWATER_SHUTDOWN_GRACE".
Definition envRedisAddr : string := "BREAKWATER_REDIS_ADDR".
Definition envRedisTLS : string := "BREAKWATER_REDIS_TLS".
Definition envPostgresDSN : string := "BREAKWATER_POSTGRES_DSN".
Definition envAccessLogQueue : string := "BREAKWATER_ACCESS_LOG_QUEUE_SIZE".
Definition envUpstreams : string := "BREAKWATER_UPSTREAMS".
Definition envAllowUnauthenticated : string := "BREAKWATER_ALLOW_UNAUTHENTICATED".
Definition EnvRedisNamespace : string := "BREAKWATER_REDIS_NAMESPACE".
Definition envQuotaLeaseTTL : string := "BREAKWATER_QUOTA_LEASE_TTL".
Definition envRetryMaxAttempts : string := "BREAKWATER_RETRY_MAX_ATTEMPTS".
Definition envRetryAttemptTimeout : string := "BREAKWATER_RETRY_ATTEMPT_TIMEOUT".
Definition envRetryOverall : string := "BREAKWATER_RETRY_OVERALL_DEADLINE".
Definition envRetryBackoffInitial : string := "BREAKWATER_RETRY_BACKOFF_INITIAL".
Definition envRetryBackoffMax : string := "BREAKWATER_RETRY_BACKOFF_MAX".
Definition envRetryBudget : string := "BREAKWATER_RETRY_BUDGET_MAX_IN_FLIGHT".
Definition envRetryBudgetPercent : string := "BREAKWATER_RETRY_BUDGET_PERCENT".
Definition envRetryBudgetMin : string := "BREAKWATER_RETRY_BUDGET_MIN_IN_FLIGHT".
Definition envStreamTimeout : string := "BREAKWATER_STREAM_TIMEOUT".
Definition envStreamIdleTimeout : string := "BREAKWATER_STREAM_IDLE_TIMEOUT".
Definition envReconcileInterval : string := "BREAKWATER_RECONCILE_INTERVAL".
Definition envIdentity : string := "BREAKWATER_IDENTITY".
Definition envKeyPepper : string := "BREAKWATER_KEY_PEPPER".
Definition envCacheEnabled : string := "BREAKWATER_CACHE_ENABLED".
Definition envCacheTTL : string := "BREAKWATER_CACHE_TTL".
Definition envCacheCapacity : string := "BREAKWATER_CACHE_CAPACITY".
Definition envCircuitEnabled : string := "BREAKWATER_CIRCUIT_ENABLED".
Definition envCircuitStrategy : string := "BREAKWATER_CIRCUIT_STRATEGY".
Definition envCircuitThreshold : string := "BREAKWATER_CIRCUIT_FAIL_THRESHOLD".
Definition envCircuitCooldown : string := "BREAKWATER_CIRCUIT_COOLDOWN".
Definition envCircuitProbe : string := "BREAKWATER_CIRCUIT_PROBE_TIMEOUT".
Definition envCircuitSlowRatio : string := "BREAKWATER_CIRCUIT_SLOW_RATIO".
Definition envCircuitSlowThresh : string := "BREAKWATER_CIRCUIT_SLOW_THRESHOLD".
Definition envAccessLogPath : string := "BREAKWATER_ACCESS_LOG_PATH".
Definition envAdminToken : string := "BREAKWATER_ADMIN_TOKEN".
Definition envRouting : string := "BREAKWATER_ROUTING_STRATEGY".
Definition envAffinity : string := "BREAKWATER_ROUTING_AFFINITY_TTL".
Definition envInsightsDSN : string := "BREAKWATER_INSIGHTS_DSN".
Definition envProbeInterval : string := "BREAKWATER_PROBE_INTERVAL".
Definition envProbeTimeout : string := "BREAKWATER_PROBE_TIMEOUT".
Definition envProbeThreshold : string := "BREAKWATER_PROBE_THRESHOLD".
Definition envProbeBackoff : string := "BREAKWATER_PROBE_BACKOFF_MAX".
Definition envFallbacks : string := "BREAKWATER_FALLBACKS".
Definition envContextLimits : string := "BREAKWATER_CONTEXT_LIMITS".
Definition envUpstreamMaxInFlight : string := "BREAKWATER_UPSTREAM_MAX_INFLIGHT".
End Env.

(** ** Reading and refusing (env.go) *)
Inductive refusal :=
| Unparsable (key raw : string) | Malformed (key : string) | TrailingData (key : string)
| NamesNoFile (key : string) | Unread (key : string)
| Negative (key : string) | NotPositive (key : string) | TooLarge (key : string) (bound : Z)
| NotAPercentage (key : string) | BelowOne (key : string) | NotARatio (key : string) | UnknownStrategy (key : string)
| ShortLease (ttl budget : Z) | Needs (key other : string)
| EmptyModel (key : string) | LimitNotPositive (model : string) | NoFallbacks (model : string) | EmptyFallback (model : string)
| Incomplete (i : nat) | InvalidID (i : nat) (id : string) | RepeatedID (i : nat) (id : string)
| UnparsableURL (i : nat) (url : string) | NotAnHTTPURL (i : nat) (url : string) | NoModels (i : nat) | InvalidBinding (i : nat) (m : string)
| EmptyCredential (i j : nat) | RepeatedCredential (i : nat)
| OpenProxy | OpenIdentitySurface | OpenAdminSurface.

Definition result (A : Type) : Type := (A + refusal)%type.
Definition bind {A B : Type} (r : result A) (k : A -> result B) : result B :=
  match r with inl a => k a | inr e => inr e end.
Declare Scope config_scope.
Notation "'do!' x := r ; k" := (bind r (fun x => k)) (at level 10, x name, r at level 100, k at level 200) : config_scope.
Notation "'check!' r ; k" := (match r with Some e => inr e | None => k end) (at level 10, r at level 100, k at level 200) : config_scope.

Module Load.
Import Classifier Schema Env.
Local Open Scope config_scope.
Section load.
Variable Getenv : string -> string.
(** [time.ParseDuration], [strconv.Atoi], [strconv.ParseFloat]. *)
Variable ParseDuration Atoi : string -> option Z.
Variable ParseFloat : string -> option float.
(** A JSON document and whether something follows it. *)
Variable decode_upstreams : string -> option (list Upstream * bool).
Variable decode_fallbacks : string -> option (gmap string (list string)).
Variable decode_limits : string -> option (gmap string Z).
Variable ReadFile : string -> option string.
(** [url.Parse]: scheme and host. *)
Variable ParseURL : string -> option (string * string).
(** The orders in which the ranges over the maps visit their entries. *)
Variable ranged_limits : gmap string Z -> list (string * Z).
Variable ranged_chains : gmap string (list string) -> list (string * list string).

Definition trimmed (key : string) : string := TrimSpace (Getenv key).

Definition envString (key fallback : string) : string :=
  if String.eqb (trimmed key) "" then fallback else trimmed key.

Definition env_parsed {A : Type} (parse : string -> option A) (key : string) (fallback : A) : result A :=
  if String.eqb (trimmed key) "" then inl fallback
  else match parse (trimmed key) with Some v => inl v | None => inr (Unparsable key (trimmed key)) end.
Definition envDuration : string -> Z -> result Z := env_parsed ParseDuration.
Definition envInt : string -> Z -> result Z := env_parsed Atoi.
Definition envFloat : string -> float -> result float := env_parsed ParseFloat.
Definition envBool : string -> bool -> result bool := env_parsed ParseBool.

(** [envJSON]: unset is nil. *)
Definition envJSON {A : Type} (decode : string -> option (list A * bool)) (key : string) : result (list A) :=
  if String.eqb (trimmed key) "" then inl []
  else match decode (trimmed key) with
  | None => inr (Malformed key)
  | Some (_, true) => inr (TrailingData key)
  | Some (v, false) => inl v
  end.
Definition envJSONMap {A : Type} (decode : string -> option (gmap string A)) (key : string) : result (gmap string A) :=
  if String.eqb (trimmed key) "" then inl ∅
  else match decode (trimmed key) with None => inr (Malformed key) | Some v => inl v end.

Definition defaultConfig : Config := {|
  cServer := mkServer (envString envAddr defaultAddr) defaultShutdownGrace;
  cRedis := mkRedis (envString envRedisAddr defaultRedisAddr) (trimmed EnvRedisNamespace) false;
  DSN := trimmed envPostgresDSN;
  cObs := mkObs defaultAccessLogQueue (trimmed envAccessLogPath) (trimmed envInsightsDSN);
  LeaseTTL_ := 0; Upstreams := [];
  cRetry := mkRetry defaultMaxAttempts defaultAttemptTimeout defaultOverallDeadline defaultBackoffInitial defaultBackoffMax
              defaultRetryBudgetCap 0 defaultRetryBudgetMin defaultStreamTimeout 0;
  Identity := trimmed envIdentity; KeyPepper := trimmed envKeyPepper; Fallbacks := ∅; ContextLimits := ∅;
  ReconcileInterval := defaultReconcileEvery; UpstreamMaxInFlight := 0;
  cCache := mkCache true defaultCacheTTL defaultCacheCapacity;
  cCircuit := mkCircuit true "consecutive" defaultCircuitThreshold defaultCircuitCooldown defaultCircuitProbe defaultCircuitSlowRatio 0;
  cSecurity := mkSecurity (trimmed envAdminToken) false;
  cProbe := mkProbe defaultProbeInterval defaultProbeTimeout defaultProbeThreshold 0;
  cRouting := mkRouting (envString envRouting "static") 0
|}.

Definition loadIdentitySource (key raw : string) : result string :=
  match strip_prefix "file://" raw with
  | None => inl raw
  | Some path =>
      if String.eqb path "" then inr (NamesNoFile key)
      else match ReadFile path with None => inr (Unread key) | Some data => inl data end
  end.

(** The first negative of some settings. *)
Fixpoint negative (settings : list (string * Z)) : option refusal :=
  match settings with
  | [] => None
  | (key, v) :: settings => if v <? 0 then Some (Negative key) else negative settings
  end.

Definition loadRetry (d : Retry) : result Retry :=
  do! attempts := envInt envRetryMaxAttempts (MaxAttempts d);
  do! attempt := envDuration envRetryAttemptTimeout (AttemptTimeout d);
  do! overall := envDuration envRetryOverall (OverallDeadline d);
  do! initial := envDuration envRetryBackoffInitial (BackoffInitial d);
  do! max := envDuration envRetryBackoffMax (BackoffMax d);
  check! negative [(envRetryAttemptTimeout, attempt); (envRetryOverall, overall); (envRetryBackoffInitial, initial); (envRetryBackoffMax, max)];
  do! budget := envInt envRetryBudget (BudgetMaxInFlight d);
  do! percent := envInt envRetryBudgetPercent (BudgetPercent d);
  do! min := envInt envRetryBudgetMin (BudgetMinInFlight d);
  do! stream := envDuration envStreamTimeout (StreamTimeout d);
  check! negative [(envStreamTimeout, stream)];
  do! idle := envDuration envStreamIdleTimeout (StreamIdleTimeout d);
  check! negative [(envStreamIdleTimeout, idle)];
  inl (mkRetry attempts attempt overall initial max budget percent min stream idle).

(** The reconcile interval and the lease horizon, against the settings
    parsed before. *)
Definition loadQuota (c : Config) : result (Z * Z) :=
  do! reconcile := envDuration envReconcileInterval (ReconcileInterval c);
  check! negative [(envReconcileInterval, reconcile)];
  do! ttl := envDuration envQuotaLeaseTTL (LeaseTTL_ c);
  check! negative [(envQuotaLeaseTTL, ttl)];
  match requestBudget c with
  | Some budget => if (0 <? ttl) && (ttl <=? budget) then inr (ShortLease ttl budget) else inl (reconcile, ttl)
  | None => inl (reconcile, ttl)
  end.

Definition loadCache (d : Cache) : result Cache :=
  do! enabled := envBool envCacheEnabled (cEnabled d);
  do! ttl := envDuration envCacheTTL (TTL d);
  do! capacity := envInt envCacheCapacity (Capacity d);
  inl (mkCache enabled ttl capacity).

Definition loadCircuit (d : Circuit) : result Circuit :=
  do! enabled := envBool envCircuitEnabled (Enabled d);
  let strategy := envString envCircuitStrategy (Strategy d) in
  do! threshold := envInt envCircuitThreshold (FailThreshold d);
  do! cooldown := envDuration envCircuitCooldown (Cooldown d);
  do! probe := envDuration envCircuitProbe (ProbeTimeout d);
  do! ratio := envFloat envCircuitSlowRatio (SlowRatio d);
  do! slow := envDuration envCircuitSlowThresh (SlowCallThreshold d);
  check! negative [(envCircuitSlowThresh, slow)];
  inl (mkCircuit enabled strategy threshold cooldown probe ratio slow).

Definition loadProbe (d : Probe) : result Probe :=
  do! interval := envDuration envProbeInterval (Interval d);
  do! timeout := envDuration envProbeTimeout (Timeout d);
  do! threshold := envInt envProbeThreshold (Threshold d);
  do! backoff := envDuration envProbeBackoff (pBackoffMax d);
  inl (mkProbe interval timeout threshold backoff).

Definition loadModelTables : result (gmap string (list string) * gmap string Z) :=
  do! fallbacks := envJSONMap decode_fallbacks envFallbacks;
  do! limits := envJSONMap decode_limits envContextLimits;
  inl (fallbacks, limits).

Definition loadRouting (d : Routing) (ceiling : Z) : result (Routing * Z) :=
  do! affinity := envDuration envAffinity (AffinityTTL d);
  check! negative [(envAffinity, affinity)];
  do! inflight := envInt envUpstreamMaxInFlight ceiling;
  check! negative [(envUpstreamMaxInFlight, inflight)];
  inl (mkRouting (rStrategy d) affinity, inflight).

Definition loadSecurity (d : Security) : result Security :=
  do! allow := envBool envAllowUnauthenticated false; inl (mkSecurity (AdminToken d) allow).

(** *** The bounds checked after parsing *)
Definition unless (ok : bool) (e : refusal) : option refusal := if ok then None else Some e.

(** The first refusal of two checks. *)
Definition first (a b : option refusal) : option refusal := match a with Some e => Some e | None => b end.
Notation "a <&> b" := (first a b) (at level 60, right associativity).

Fixpoint first_of {A : Type} (f : A -> option refusal) (l : list A) : option refusal :=
  match l with [] => None | x :: l => f x <&> first_of f l end.

Definition validateRetryBudget (r : Retry) : option refusal :=
  unless (0 <? MaxAttempts r) (NotPositive envRetryMaxAttempts) <&>
  unless (0 <=? BudgetMaxInFlight r) (Negative envRetryBudget) <&>
  unless ((0 <=? BudgetPercent r) && (BudgetPercent r <=? 100)) (NotAPercentage envRetryBudgetPercent) <&>
  unless (negb ((0 <? BudgetPercent r) && (BudgetMinInFlight r <? 1))) (BelowOne envRetryBudgetMin).

Definition validateCache (c : Cache) : option refusal :=
  if negb (cEnabled c) then None
  else
    unless (0 <? TTL c) (NotPositive envCacheTTL) <&>
    unless (0 <? Capacity c) (NotPositive envCacheCapacity) <&>
    unless (Capacity c <=? maxCacheCapacity) (TooLarge envCacheCapacity maxCacheCapacity).

(** [f > 0 && f <= 1]: false for NaN. *)
Definition ratio_in_range (f : float) : bool :=
  match f with Finite q => negb (Qle_bool q 0) && Qle_bool q 1 | NaN | PInf | NInf => false end.

Definition validateCircuit (c : Circuit) : option refusal :=
  if negb (Enabled c) then None
  else
    (if String.eqb (Strategy c) "consecutive" || String.eqb (Strategy c) "ratio" then None
     else if String.eqb (Strategy c) "slow-call" then
       unless (ratio_in_range (SlowRatio c)) (NotARatio envCircuitSlowRatio) <&>
       unless (0 <? SlowCallThreshold c) (NotPositive envCircuitSlowThresh)
     else Some (UnknownStrategy envCircuitStrategy)) <&>
    unless (0 <? FailThreshold c) (NotPositive envCircuitThreshold) <&>
    unless (0 <? Cooldown c) (NotPositive envCircuitCooldown) <&>
    unless (0 <? ProbeTimeout c) (NotPositive envCircuitProbe).

Definition validateProbe (p : Probe) : option refusal :=
  unless (0 <=? Interval p) (Negative envProbeInterval) <&>
  unless (0 <=? pBackoffMax p) (Negative envProbeBackoff) <&>
  unless (negb ((0 <? pBackoffMax p) && (Interval p <=? 0))) (Needs envProbeBackoff envProbeInterval) <&>
  unless (negb ((0 <? Interval p) && (Timeout p <=? 0))) (Needs envProbeTimeout envProbeInterval) <&>
  unless (negb ((0 <? Interval p) && (Threshold p <? 1))) (Needs envProbeThreshold envProbeInterval).

Definition validateLimit (entry : string * Z) : option refusal :=
  let (model, limit) := entry in
  unless (negb (String.eqb model "")) (EmptyModel envContextLimits) <&> unless (0 <? limit) (LimitNotPositive model).

Definition validateChain (entry : string * list string) : option refusal :=
  let (model, chain) := entry in
  unless (negb (String.eqb model "")) (EmptyModel envFallbacks) <&>
  unless (negb (bool_decide (chain = []))) (NoFallbacks model) <&>
  first_of (fun f => unless (negb (String.eqb f "")) (EmptyFallback model)) chain.

Definition validateModelTables (c : Config) : option refusal :=
  first_of validateLimit (ranged_limits (ContextLimits c)) <&> first_of validateChain (ranged_chains (Fallbacks c)).

(** [^[A-Za-z0-9._-]{1,128}$]. *)
Definition id_char (c : ascii) : bool :=
  let n := nat_of_ascii c in
  ((65 <=? n) && (n <=? 90) || (97 <=? n) && (n <=? 122) || (48 <=? n) && (n <=? 57))%nat ||
  Ascii.eqb c "." || Ascii.eqb c "_" || Ascii.eqb c "-".
Definition validID (id : string) : bool :=
  ((1 <=? String.length id) && (String.length id <=? 128))%nat && forallb id_char (String.list_ascii_of_string id).

Definition validateBinding (i : nat) (m : string) : option refusal :=
  match Upstream.ModelMap.cut_eq m with
  | Some (client, provider) =>
      unless (negb (String.eqb client "" || String.eqb provider "" || String.eqb client "*")) (InvalidBinding i m)
  | None => None
  end.

(** [seen] holds the ids of the entries before. *)
Definition validateUpstream (u : Upstream) (i : nat) (seen : gset string) : option refusal * gset string :=
  match
    unless (negb (String.eqb (ID u) "" || String.eqb (BaseURL u) "")) (Incomplete i) <&>
    unless (validID (ID u)) (InvalidID i (ID u)) <&>
    unless (negb (bool_decide (ID u ∈ seen))) (RepeatedID i (ID u))
  with
  | Some e => (Some e, seen)
  | None =>
      (match ParseURL (BaseURL u) with
       | None => Some (UnparsableURL i (BaseURL u))
       | Some (scheme, host) =>
           unless ((String.eqb scheme "http" || String.eqb scheme "https") && negb (String.eqb host "")) (NotAnHTTPURL i (BaseURL u))
       end <&>
       unless (negb (bool_decide (Models u = []))) (NoModels i) <&>
       first_of (validateBinding i) (Models u), {[ID u]} ∪ seen)
  end.

Fixpoint validateCredentials (i j : nat) (seen : gset string) (keys : list string) : option refusal :=
  match keys with
  | [] => None
  | key :: keys =>
      unless (negb (String.eqb key "")) (EmptyCredential i j) <&>
      unless (negb (bool_decide (key ∈ seen))) (RepeatedCredential i) <&>
      validateCredentials i (S j) ({[key]} ∪ seen) keys
  end.
Definition validateCredentialRing (u : Upstream) (i : nat) : option refusal := validateCredentials i 0 ∅ (Credentials u).

Fixpoint validateUpstreams (i : nat) (seen : gset string) (us : list Upstream) : option refusal :=
  match us with
  | [] => None
  | u :: us =>
      let (e, seen) := validateUpstream u i seen in
      e <&> validateCredentialRing u i <&> validateUpstreams (S i) seen us
  end.

Definition validate (c : Config) : option refusal :=
  unless (0 <? ShutdownGrace (cServer c)) (NotPositive envShutdownGrace) <&>
  unless (existsb (String.eqb (rStrategy (cRouting c))) [""; "static"; "latency"]) (UnknownStrategy envRouting) <&>
  unless (0 <? AccessLogQueueSize (cObs c)) (NotPositive envAccessLogQueue) <&>
  validateRetryBudget (cRetry c) <&> validateCache (cCache c) <&> validateCircuit (cCircuit c) <&>
  validateProbe (cProbe c) <&> validateModelTables c <&> validateUpstreams 0 ∅ (Upstreams c).

(** *** Deployment posture *)
Definition adminSurfaceArmed (c : Config) : bool :=
  (0 <? length (Upstreams c))%nat || negb (String.eqb (Identity c) "") || negb (String.eqb (InsightsDSN (cObs c)) "").

Definition guardDeploymentPosture (c : Config) : option refusal :=
  if AllowUnauthenticated (cSecurity c) then None
  else
    unless (negb ((0 <? length (Upstreams c))%nat && String.eqb (Identity c) "" && String.eqb (DSN c) "")) OpenProxy <&>
    unless (negb (negb (String.eqb (DSN c) "") && String.eqb (AdminToken (cSecurity c)) "")) OpenIdentitySurface <&>
    unless (negb (String.eqb (AdminToken (cSecurity c)) "" && adminSurfaceArmed c)) OpenAdminSurface.

Definition Load : result Config :=
  let d := defaultConfig in
  do! identity := loadIdentitySource envIdentity (Identity d);
  do! tls := envBool envRedisTLS false;
  do! grace := envDuration envShutdownGrace (ShutdownGrace (cServer d));
  do! queue := envInt envAccessLogQueue (AccessLogQueueSize (cObs d));
  do! upstreams := envJSON decode_upstreams envUpstreams;
  do! retry := loadRetry (cRetry d);
  let c := mkConfig (mkServer (Addr (cServer d)) grace) (mkRedis (rAddr (cRedis d)) (Namespace (cRedis d)) tls) (DSN d)
             (mkObs queue (AccessLogPath (cObs d)) (InsightsDSN (cObs d))) (LeaseTTL_ d) upstreams retry identity (KeyPepper d)
             (Fallbacks d) (ContextLimits d) (ReconcileInterval d) (UpstreamMaxInFlight d) (cCache d) (cCircuit d)
             (cSecurity d) (cProbe d) (cRouting d) in
  do! quota := loadQuota c;
  do! cache := loadCache (cCache c);
  do! circuit := loadCircuit (cCircuit c);
  do! probe := loadProbe (cProbe c);
  do! tables := loadModelTables;
  do! routing := loadRouting (cRouting c) (UpstreamMaxInFlight c);
  do! security := loadSecurity (cSecurity c);
  let c := mkConfig (cServer c) (cRedis c) (DSN c) (cObs c) quota.2 (Upstreams c) (cRetry c) (Identity c) (KeyPepper c)
             tables.1 tables.2 quota.1 routing.2 cache circuit security probe routing.1 in
  check! validate c;
  check! guardDeploymentPosture c;
  inl c.
End load.
End Load.

(** ** What a configuration promises *)
Module ConfigSpec.
Import Classifier Schema Env Load.
Local Open Scope string_scope.

Definition retry_ok (r : Retry) : Prop :=
  0 < MaxAttempts r /\ 0 <= BudgetMaxInFlight r /\ 0 <= BudgetPercent r <= 100 /\ (0 < BudgetPercent r -> 1 <= BudgetMinInFlight r).

Definition cache_ok (c : Cache) : Prop := cEnabled c = true -> 0 < TTL c /\ 0 < Capacity c <= maxCacheCapacity.

Definition ratio_ok (f : float) : Prop := exists q, f = Finite q /\ (0 < q <= 1)%Q.

Definition circuit_ok (c : Circuit) : Prop :=
  Enabled c = true ->
  (Strategy c = "consecutive" \/ Strategy c = "ratio" \/
   Strategy c = "slow-call" /\ ratio_ok (SlowRatio c) /\ 0 < SlowCallThreshold c) /\
  0 < FailThreshold c /\ 0 < Cooldown c /\ 0 < ProbeTimeout c.

Definition probe_ok (p : Probe) : Prop :=
  0 <= Interval p /\ 0 <= pBackoffMax p /\ (0 < pBackoffMax p -> 0 < Interval p) /\
  (0 < Interval p -> 0 < Timeout p /\ 1 <= Threshold p).

Definition tables_ok (c : Config) : Prop :=
  map_Forall (fun model limit => model <> "" /\ 0 < limit) (ContextLimits c) /\
  map_Forall (fun model chain => model <> "" /\ chain <> [] /\ "" ∉ chain) (Fallbacks c).

Definition id_ok (id : string) : Prop :=
  (1 <= String.length id <= 128)%nat /\ Forall (fun c => id_char c = true) (String.list_ascii_of_string id).

(** A model entry: a plain name, or a client name bound to a real one. *)
Definition binding_ok (m : string) : Prop :=
  forall client provider, Upstream.ModelMap.cut_eq m = Some (client, provider) -> client <> "" /\ provider <> "" /\ client <> "*".

(** The ring of an upstream: no empty credential, none twice. *)
Definition ring_ok (u : Upstream) : Prop := ("" ∉ Credentials u) /\ NoDup (Credentials u).

Definition upstream_ok (ParseURL : string -> option (string * string)) (u : Upstream) : Prop :=
  ID u <> "" /\ BaseURL u <> "" /\ id_ok (ID u) /\
  (exists scheme host, ParseURL (BaseURL u) = Some (scheme, host) /\ (scheme = "http" \/ scheme = "https") /\ host <> "") /\
  Models u <> [] /\ Forall binding_ok (Models u) /\ ring_ok u.

Definition upstreams_ok (ParseURL : string -> option (string * string)) (us : list Upstream) : Prop :=
  Forall (upstream_ok ParseURL) us /\ NoDup (map ID us).

(** The bounds [validate] enforces. *)
Record valid (ParseURL : string -> option (string * string)) (c : Config) : Prop := {
  valid_grace : 0 < ShutdownGrace (cServer c);
  valid_strategy : rStrategy (cRouting c) ∈ [""; "static"; "latency"];
  valid_queue : 0 < AccessLogQueueSize (cObs c);
  valid_retry : retry_ok (cRetry c);
  valid_cache : cache_ok (cCache c);
  valid_circuit : circuit_ok (cCircuit c);
  valid_probe : probe_ok (cProbe c);
  valid_tables : tables_ok c;
  valid_upstreams : upstreams_ok ParseURL (Upstreams c)
}.

(** The bounds the loaders enforce. *)
Record bounded (c : Config) : Prop := {
  bounded_retry : 0 <= AttemptTimeout (cRetry c) /\ 0 <= OverallDeadline (cRetry c) /\ 0 <= BackoffInitial (cRetry c) /\
    0 <= BackoffMax (cRetry c) /\ 0 <= StreamTimeout (cRetry c) /\ 0 <= StreamIdleTimeout (cRetry c);
  bounded_quota : 0 <= ReconcileInterval c /\ 0 <= LeaseTTL_ c;
  bounded_lease : forall budget, requestBudget c = Some budget -> 0 < LeaseTTL_ c -> budget < LeaseTTL_ c;
  bounded_rest : 0 <= SlowCallThreshold (cCircuit c) /\ 0 <= AffinityTTL (cRouting c) /\ 0 <= UpstreamMaxInFlight c
}.

(** The settings the bound on the horizon speaks of: a configured horizon
    comes with a request that has a bound. *)
Definition comparable (c : Config) : Prop := LeaseTTL_ c <= 0 \/ is_Some (requestBudget c).

(** A horizon that is set covers the longest request. *)
Definition covers (c : Config) : Prop := 0 < LeaseTTL_ c -> RequestCeiling c < LeaseTTL_ c.

Lemma bounded_covers (c : Config) : comparable c -> bounded c -> covers c.
Proof.
  intros [Hl|[budget Hb]] H Hpos; [lia|]. unfold RequestCeiling. rewrite Hb. by apply (bounded_lease _ H).
Qed.

(** Nothing is served to callers nobody authenticated, unless the operator
    said so. *)
Definition posture_ok (c : Config) : Prop :=
  AllowUnauthenticated (cSecurity c) = true \/
  (Upstreams c <> [] -> Identity c <> "" \/ DSN c <> "") /\
  (DSN c <> "" \/ Upstreams c <> [] \/ Identity c <> "" \/ InsightsDSN (cObs c) <> "" -> AdminToken (cSecurity c) <> "").
End ConfigSpec.

Module ConfigFacts.
Import Classifier Schema Env Load ConfigSpec.

Lemma bind_inl {A B} (r : result A) (k : A -> result B) (b : B) : bind r k = inl b <-> exists a, r = inl a /\ k a = inl b.
Proof. destruct r as [a|e]; cbn; [|by split; [|intros (? & ? & _)]]. split; [eauto|by intros (? & [= <-] & ?)]. Qed.

Lemma check_inl {A} (o : option refusal) (k : result A) (a : A) :
  match o with Some e => inr e | None => k end = inl a <-> o = None /\ k = inl a.
Proof. destruct o; [by split; [|intros [? _]]|]. split; [done|by intros [_ ?]]. Qed.

Lemma negative_None (l : list (string * Z)) : negative l = None <-> Forall (fun s => 0 <= s.2) l.
Proof.
  induction l as [|[key v] l IH]; [by split|]. cbn. rewrite Forall_cons, <- IH. cbn.
  destruct (Z.ltb_spec v 0); [|tauto]. split; [done|]. intros [? _]. lia.
Qed.

Lemma unless_None (b : bool) (e : refusal) : unless b e = None <-> b = true.
Proof. by destruct b. Qed.

Lemma first_None (a b : option refusal) : first a b = None <-> a = None /\ b = None.
Proof. destruct a; [by split; [|intros [? _]]|]. split; [done|by intros [_ ?]]. Qed.

Lemma first_of_None {A} (f : A -> option refusal) (l : list A) : first_of f l = None <-> Forall (fun x => f x = None) l.
Proof. induction l as [|x l IH]; [by split|]. cbn. by rewrite first_None, Forall_cons, IH. Qed.

Lemma eqb_neq (a b : string) : negb (String.eqb a b) = true <-> a <> b.
Proof. by rewrite negb_true_iff, String.eqb_neq. Qed.

Lemma retry_None (r : Retry) : validateRetryBudget r = None <-> retry_ok r.
Proof.
  unfold validateRetryBudget, retry_ok. rewrite !first_None, !unless_None, negb_true_iff, andb_true_iff, andb_false_iff.
  rewrite !Z.ltb_lt, !Z.leb_le, !Z.ltb_ge. intuition lia.
Qed.

Lemma cache_None (c : Cache) : validateCache c = None <-> cache_ok c.
Proof.
  unfold validateCache, cache_ok. destruct (cEnabled c); cbn [negb]; [|by split].
  rewrite !first_None, !unless_None, !Z.ltb_lt, !Z.leb_le. intuition lia.
Qed.

Lemma ratio_range (f : float) : ratio_in_range f = true <-> ratio_ok f.
Proof.
  unfold ratio_ok. destruct f as [| | |q]; try (split; [done|by intros (? & ? & _)]). cbn [ratio_in_range].
  rewrite andb_true_iff, negb_true_iff, Qle_bool_iff. split.
  - intros [H0 H1]. exists q. split; [done|]. split; [|done]. apply Qnot_le_lt. intros H. apply Qle_bool_iff in H. congruence.
  - intros (? & [= <-] & H0 & H1). split; [|done]. destruct (Qle_bool q 0) eqn:E; [|done].
    apply Qle_bool_iff in E. by apply Qle_not_lt in E.
Qed.

Lemma circuit_None (c : Circuit) : validateCircuit c = None <-> circuit_ok c.
Proof.
  unfold validateCircuit, circuit_ok. destruct (Enabled c); cbn [negb]; [|by split].
  rewrite !first_None, !unless_None, !Z.ltb_lt.
  assert ((if String.eqb (Strategy c) "consecutive" || String.eqb (Strategy c) "ratio" then None
     else if String.eqb (Strategy c) "slow-call" then
       first (unless (ratio_in_range (SlowRatio c)) (NotARatio envCircuitSlowRatio))
         (unless (0 <? SlowCallThreshold c) (NotPositive envCircuitSlowThresh))
     else Some (UnknownStrategy envCircuitStrategy)) = None <->
    (Strategy c = "consecutive" \/ Strategy c = "ratio" \/
     Strategy c = "slow-call" /\ ratio_ok (SlowRatio c) /\ 0 < SlowCallThreshold c)%string) as E; [|tauto].
  destruct (String.eqb_spec (Strategy c) "consecutive"), (String.eqb_spec (Strategy c) "ratio"); cbn [orb]; [tauto..|].
  destruct (String.eqb_spec (Strategy c) "slow-call"); [|split; [done|tauto]].
  rewrite first_None, !unless_None, ratio_range, Z.ltb_lt. tauto.
Qed.

Lemma probe_None (p : Probe) : validateProbe p = None <-> probe_ok p.
Proof.
  unfold validateProbe, probe_ok. rewrite !first_None, !unless_None, !negb_true_iff, !andb_false_iff.
  rewrite !Z.leb_le, !Z.ltb_ge, !Z.leb_gt. intuition lia.
Qed.

Lemma tables_None ranged_limits ranged_chains (c : Config) :
  (forall m, ranged_limits m ≡ₚ map_to_list m) -> (forall m, ranged_chains m ≡ₚ map_to_list m) ->
  validateModelTables ranged_limits ranged_chains c = None <-> tables_ok c.
Proof.
  intros Hl Hc. unfold validateModelTables, tables_ok. rewrite first_None, !first_of_None, Hl, Hc, !map_Forall_to_list.
  assert (forall f chain, first_of (fun f0 => unless (negb (String.eqb f0 "")) (EmptyFallback f)) chain = None <-> ""%string ∉ chain) as He.
  { intros f chain. rewrite first_of_None, Forall_forall. split.
    - intros H Hin. by apply H in Hin.
    - intros H x Hx. apply unless_None, eqb_neq. by intros ->. }
  split; intros [H1 H2]; split; eapply Forall_impl; try eassumption; intros [k v]; cbn;
    rewrite ?first_None, !unless_None, ?eqb_neq, ?Z.ltb_lt, ?He, ?negb_true_iff, ?bool_decide_eq_false; tauto.
Qed.

Lemma validID_ok (id : string) : validID id = true <-> id_ok id.
Proof.
  unfold validID, id_ok. rewrite !andb_true_iff, !Nat.leb_le, forallb_forall, Forall_forall.
  setoid_rewrite list_elem_of_In. tauto.
Qed.

Lemma binding_None (i : nat) (m : string) : validateBinding i m = None <-> binding_ok m.
Proof.
  unfold validateBinding, binding_ok. destruct (Upstream.ModelMap.cut_eq m) as [[client provider]|]; [|by split].
  rewrite unless_None, negb_true_iff, !orb_false_iff, !String.eqb_neq. split.
  - intros [[? ?] ?] ? ? [= <- <-]. done.
  - intros H. destruct (H _ _ eq_refl) as (? & ? & ?). done.
Qed.

Lemma credentials_None (i : nat) (keys : list string) : forall j seen,
  validateCredentials i j seen keys = None <-> (""%string ∉ keys) /\ NoDup keys /\ (forall key, key ∈ keys -> key ∉ seen).
Proof.
  induction keys as [|key keys IH]; intros j seen; cbn [validateCredentials].
  { split; [|done]. intros _. split_and!; [set_solver|constructor|set_solver]. }
  rewrite !first_None, !unless_None, IH, eqb_neq, negb_true_iff, bool_decide_eq_false, NoDup_cons. split.
  - intros (H1 & H2 & H3 & H4 & H5). split_and!; [set_solver..|done|set_solver].
  - intros (H1 & [H2 H3] & H4). split_and!; [set_solver..|done|set_solver].
Qed.

Lemma ring_None (u : Upstream) (i : nat) : validateCredentialRing u i = None <-> ring_ok u.
Proof. unfold validateCredentialRing, ring_ok. rewrite credentials_None. set_solver. Qed.

Lemma upstream_None ParseURL (u : Upstream) (i : nat) (seen : gset string) :
  validateUpstream ParseURL u i seen = (None, {[ID u]} ∪ seen) /\ ring_ok u <-> upstream_ok ParseURL u /\ ID u ∉ seen.
Proof.
  unfold validateUpstream, upstream_ok.
  assert (first (unless (negb (String.eqb (ID u) "" || String.eqb (BaseURL u) "")) (Incomplete i))
    (first (unless (validID (ID u)) (InvalidID i (ID u))) (unless (negb (bool_decide (ID u ∈ seen))) (RepeatedID i (ID u)))) = None
    <-> (ID u <> "" /\ BaseURL u <> "")%string /\ id_ok (ID u) /\ ID u ∉ seen) as E1.
  { rewrite !first_None, !unless_None, !negb_true_iff, orb_false_iff, !String.eqb_neq, validID_ok, bool_decide_eq_false. done. }
  destruct (first _ _) as [e|]; [split; [by intros [[= ?] _]|intros H; discriminate (proj2 E1 ltac:(tauto))]|].
  destruct (proj1 E1 eq_refl) as ([H1 H2] & H3 & H4).
  assert (first match ParseURL (BaseURL u) with
      | Some (scheme, host) => unless ((String.eqb scheme "http" || String.eqb scheme "https") && negb (String.eqb host "")) (NotAnHTTPURL i (BaseURL u))
      | None => Some (UnparsableURL i (BaseURL u)) end
    (first (unless (negb (bool_decide (Models u = []))) (NoModels i)) (first_of (validateBinding i) (Models u))) = None
    <-> (exists scheme host, ParseURL (BaseURL u) = Some (scheme, host) /\ (scheme = "http" \/ scheme = "https")%string /\ host <> ""%string) /\
        Models u <> [] /\ Forall binding_ok (Models u)) as E2.
  { rewrite !first_None, unless_None, negb_true_iff, bool_decide_eq_false, first_of_None.
    assert (Forall (fun x => validateBinding i x = None) (Models u) <-> Forall binding_ok (Models u)) as ->.
    { rewrite !Forall_forall. by setoid_rewrite binding_None. }
    destruct (ParseURL (BaseURL u)) as [[scheme host]|]; [|split; [by intros [? _]|by intros [(? & ? & ? & _) _]]].
    rewrite unless_None, andb_true_iff, orb_true_iff, !String.eqb_eq, eqb_neq. split.
    - intros ([? ?] & ? & ?). split; [by exists scheme, host|done].
    - intros ((? & ? & [= <- <-] & ? & ?) & ? & ?). done. }
  match goal with |- context [(first ?a ?b, _)] => destruct (first a b) as [e|] end.
  - split; [by intros [[= ?] _]|intros H; discriminate (proj2 E2 ltac:(tauto))].
  - pose proof (proj1 E2 eq_refl). tauto.
Qed.

Lemma upstreams_None ParseURL (us : list Upstream) : forall i seen,
  validateUpstreams ParseURL i seen us = None <-> upstreams_ok ParseURL us /\ (forall u, u ∈ us -> ID u ∉ seen).
Proof.
  unfold upstreams_ok. induction us as [|u us IH]; intros i seen; cbn [validateUpstreams map].
  { split; [|done]. intros _. split; [split; constructor|set_solver]. }
  pose proof (upstream_None ParseURL u i seen) as Hu. rewrite Forall_cons, NoDup_cons.
  assert (ID u ∉ map ID us <-> forall u', u' ∈ us -> ID u' <> ID u) as Hnew.
  { rewrite list_elem_of_In, in_map_iff. split.
    - intros H u' Hin E. apply H. exists u'. split; [done|]. by apply list_elem_of_In.
    - intros H (u' & E & Hin). apply (H u'); [by apply list_elem_of_In|done]. }
  destruct (validateUpstream ParseURL u i seen) as [[e|] seen'] eqn:E.
  { cbn [first]. split; [done|]. intros ([[H1 _] _] & H2). exfalso.
    destruct (proj2 Hu (conj H1 (H2 u (list_elem_of_here _ _)))) as [[= ?] _]. }
  assert (seen' = {[ID u]} ∪ seen) as ->.
  { unfold validateUpstream in E. destruct (first _ _); [done|]. by injection E. }
  cbn [first]. rewrite first_None, ring_None, IH. split.
  - intros (Hr & [H1 H2] & H3). destruct (proj1 Hu (conj eq_refl Hr)) as [Hok Hn].
    split; [|intros u' [->|Hin]%elem_of_cons; [done|]; specialize (H3 u' Hin); set_solver].
    split; [done|]. split; [|done]. apply Hnew. intros u' Hin. specialize (H3 u' Hin). set_solver.
  - intros ([[Hok H1] [Hn H2]] & H3). destruct (proj2 Hu (conj Hok (H3 u (list_elem_of_here _ _)))) as [_ Hr].
    split; [done|]. split; [done|]. intros u' Hin. pose proof (proj1 Hnew Hn u' Hin).
    specialize (H3 u' (list_elem_of_further _ _ _ Hin)). set_solver.
Qed.

Lemma validate_None ParseURL ranged_limits ranged_chains (c : Config) :
  (forall m, ranged_limits m ≡ₚ map_to_list m) -> (forall m, ranged_chains m ≡ₚ map_to_list m) ->
  validate ParseURL ranged_limits ranged_chains c = None <-> valid ParseURL c.
Proof.
  intros Hl Hc. unfold validate.
  rewrite !first_None, !unless_None, retry_None, cache_None, circuit_None, probe_None, upstreams_None, !Z.ltb_lt.
  rewrite (tables_None _ _ c Hl Hc).
  assert (existsb (String.eqb (rStrategy (cRouting c))) [""; "static"; "latency"]%string = true <->
    rStrategy (cRouting c) ∈ [""; "static"; "latency"]%string) as ->.
  { cbn [existsb]. rewrite !orb_true_iff, !String.eqb_eq. set_solver. }
  split.
  - intros (? & ? & ? & ? & ? & ? & ? & ? & ? & _). by constructor.
  - intros [? ? ? ? ? ? ? ? ?]. split_and!; done.
Qed.

Lemma posture_None (c : Config) : guardDeploymentPosture c = None <-> posture_ok c.
Proof.
  unfold guardDeploymentPosture, posture_ok, adminSurfaceArmed. destruct (AllowUnauthenticated (cSecurity c)); [by split; [left|]|].
  rewrite !first_None, !unless_None, !negb_true_iff, !andb_false_iff, !orb_false_iff, !negb_false_iff, !String.eqb_neq, !String.eqb_eq.
  assert ((0 <? length (Upstreams c))%nat = false <-> Upstreams c = []) as -> by (destruct (Upstreams c); by split).
  generalize (Upstreams c = []), (Identity c = ""%string), (DSN c = ""%string), (AdminToken (cSecurity c) = ""%string),
    (InsightsDSN (cObs c) = ""%string), (decide (Upstreams c = [])), (decide (Identity c = ""%string)),
    (decide (DSN c = ""%string)), (decide (AdminToken (cSecurity c) = ""%string)), (decide (InsightsDSN (cObs c) = ""%string)).
  clear. intros U I D T S HU HI HD HT HS. split.
  - intros (H1 & H2 & H3). right. split; [tauto|]. intros Hor Ht. destruct H2 as [H2|H2]; [tauto|]. destruct H3 as [H3|[[H3 H4] H5]]; [tauto|]. tauto.
  - intros [H|[H1 H2]]; [done|]. split_and!.
    + destruct HU as [u|u]; [by left; left|]. destruct (H1 u); [by left; right|by right].
    + destruct HD as [d|d]; [by left|right]. apply H2. by left.
    + destruct HT as [t|]; [|by left]. right.
      destruct HU; [|exfalso; by apply H2; [right; left|]]. destruct HI; [|exfalso; by apply H2; [right; right; left|]].
      destruct HS; [done|exfalso; by apply H2; [right; right; right|]].
Qed.
End ConfigFacts.

(** ** Properties *)
Module ConfigProps.
Import Classifier Schema Env Load ConfigSpec ConfigFacts.
Section load.
Variable Getenv : string -> string.
Variable ParseDuration Atoi : string -> option Z.
Variable ParseFloat : string -> option float.
Variable decode_upstreams : string -> option (list Upstream * bool).
Variable decode_fallbacks : string -> option (gmap string (list string)).
Variable decode_limits : string -> option (gmap string Z).
Variable ReadFile : string -> option string.
Variable ParseURL : string -> option (string * string).
Variable ranged_limits : gmap string Z -> list (string * Z).
Variable ranged_chains : gmap string (list string) -> list (string * list string).

Abbreviation trimmed := (trimmed Getenv).
Abbreviation envString := (envString Getenv).
Abbreviation envDuration := (envDuration Getenv ParseDuration).
Abbreviation envInt := (envInt Getenv Atoi).
Abbreviation envFloat := (envFloat Getenv ParseFloat).
Abbreviation envBool := (envBool Getenv).
Abbreviation Load := (Load Getenv ParseDuration Atoi ParseFloat decode_upstreams decode_fallbacks decode_limits ReadFile
  ParseURL ranged_limits ranged_chains).
Abbreviation defaultConfig := (defaultConfig Getenv).

(** Every setting is the reading of its own variable, or its default. *)
Definition retry_read (d r : Retry) : Prop :=
  envInt envRetryMaxAttempts (MaxAttempts d) = inl (MaxAttempts r) /\
  envDuration envRetryAttemptTimeout (AttemptTimeout d) = inl (AttemptTimeout r) /\
  envDuration envRetryOverall (OverallDeadline d) = inl (OverallDeadline r) /\
  envDuration envRetryBackoffInitial (BackoffInitial d) = inl (BackoffInitial r) /\
  envDuration envRetryBackoffMax (BackoffMax d) = inl (BackoffMax r) /\
  envInt envRetryBudget (BudgetMaxInFlight d) = inl (BudgetMaxInFlight r) /\
  envInt envRetryBudgetPercent (BudgetPercent d) = inl (BudgetPercent r) /\
  envInt envRetryBudgetMin (BudgetMinInFlight d) = inl (BudgetMinInFlight r) /\
  envDuration envStreamTimeout (StreamTimeout d) = inl (StreamTimeout r) /\
  envDuration envStreamIdleTimeout (StreamIdleTimeout d) = inl (StreamIdleTimeout r).

Definition cache_read (d c : Cache) : Prop :=
  envBool envCacheEnabled (cEnabled d) = inl (cEnabled c) /\ envDuration envCacheTTL (TTL d) = inl (TTL c) /\
  envInt envCacheCapacity (Capacity d) = inl (Capacity c).

Definition circuit_read (d c : Circuit) : Prop :=
  envBool envCircuitEnabled (Enabled d) = inl (Enabled c) /\ Strategy c = envString envCircuitStrategy (Strategy d) /\
  envInt envCircuitThreshold (FailThreshold d) = inl (FailThreshold c) /\
  envDuration envCircuitCooldown (Cooldown d) = inl (Cooldown c) /\
  envDuration envCircuitProbe (ProbeTimeout d) = inl (ProbeTimeout c) /\
  envFloat envCircuitSlowRatio (SlowRatio d) = inl (SlowRatio c) /\
  envDuration envCircuitSlowThresh (SlowCallThreshold d) = inl (SlowCallThreshold c).

Definition probe_read (d p : Probe) : Prop :=
  envDuration envProbeInterval (Interval d) = inl (Interval p) /\
  envDuration envProbeTimeout (Timeout d) = inl (Timeout p) /\
  envInt envProbeThreshold (Threshold d) = inl (Threshold p) /\ envDuration envProbeBackoff (pBackoffMax d) = inl (pBackoffMax p).

Record read (c : Config) : Prop := {
  read_server : Addr (cServer c) = envString envAddr defaultAddr /\
    envDuration envShutdownGrace defaultShutdownGrace = inl (ShutdownGrace (cServer c));
  read_redis : rAddr (cRedis c) = envString envRedisAddr defaultRedisAddr /\ Namespace (cRedis c) = trimmed EnvRedisNamespace /\
    envBool envRedisTLS false = inl (TLS (cRedis c));
  read_stores : DSN c = trimmed envPostgresDSN /\ InsightsDSN (cObs c) = trimmed envInsightsDSN;
  read_obs : AccessLogPath (cObs c) = trimmed envAccessLogPath /\
    envInt envAccessLogQueue defaultAccessLogQueue = inl (AccessLogQueueSize (cObs c));
  read_identity : loadIdentitySource ReadFile envIdentity (trimmed envIdentity) = inl (Identity c) /\ KeyPepper c = trimmed envKeyPepper;
  read_upstreams : envJSON Getenv decode_upstreams envUpstreams = inl (Upstreams c);
  read_retry : retry_read (cRetry defaultConfig) (cRetry c);
  read_quota : envDuration envReconcileInterval defaultReconcileEvery = inl (ReconcileInterval c) /\
    envDuration envQuotaLeaseTTL 0 = inl (LeaseTTL_ c);
  read_cache : cache_read (cCache defaultConfig) (cCache c);
  read_circuit : circuit_read (cCircuit defaultConfig) (cCircuit c);
  read_probe : probe_read (cProbe defaultConfig) (cProbe c);
  read_tables : envJSONMap Getenv decode_fallbacks envFallbacks = inl (Fallbacks c) /\
    envJSONMap Getenv decode_limits envContextLimits = inl (ContextLimits c);
  read_routing : rStrategy (cRouting c) = envString envRouting "static" /\
    envDuration envAffinity 0 = inl (AffinityTTL (cRouting c)) /\ envInt envUpstreamMaxInFlight 0 = inl (UpstreamMaxInFlight c);
  read_security : AdminToken (cSecurity c) = trimmed envAdminToken /\
    envBool envAllowUnauthenticated false = inl (AllowUnauthenticated (cSecurity c))
}.

(** The steps of a loader that succeeded, and their replay. *)
Ltac loaded H := repeat first [apply bind_inl in H as (? & ? & H) | apply check_inl in H as [? H]].
Ltac replay := repeat match goal with H : ?r = inl _ |- context [bind ?r _] => rewrite H; cbn [bind] end.

Ltac passed := rewrite (proj2 (negative_None _)) by (repeat (constructor; [assumption|]); constructor).

Lemma loadRetry_iff (d r : Retry) :
  loadRetry Getenv ParseDuration Atoi d = inl r <->
  retry_read d r /\ 0 <= AttemptTimeout r /\ 0 <= OverallDeadline r /\ 0 <= BackoffInitial r /\ 0 <= BackoffMax r /\
  0 <= StreamTimeout r /\ 0 <= StreamIdleTimeout r.
Proof.
  unfold loadRetry, retry_read. split.
  - intros H. loaded H. injection H as <-. rewrite !negative_None, !Forall_cons in *. cbn in *. tauto.
  - intros ((? & ? & ? & ? & ? & ? & ? & ? & ? & ?) & ? & ? & ? & ? & ? & ?).
    replay. passed. replay. passed. replay. passed. by destruct r.
Qed.

Lemma loadQuota_iff (c : Config) (reconcile ttl : Z) :
  loadQuota Getenv ParseDuration c = inl (reconcile, ttl) <->
  envDuration envReconcileInterval (ReconcileInterval c) = inl reconcile /\ envDuration envQuotaLeaseTTL (LeaseTTL_ c) = inl ttl /\
  0 <= reconcile /\ 0 <= ttl /\ forall budget, requestBudget c = Some budget -> 0 < ttl -> budget < ttl.
Proof.
  unfold loadQuota. split.
  - intros H. loaded H. rewrite !negative_None, !Forall_cons in *. cbn [snd] in *.
    destruct (requestBudget c) as [budget|].
    + destruct (Z.ltb_spec 0 x0), (Z.leb_spec x0 budget); cbn [andb] in H; try done; injection H as <- <-; split_and!; try tauto;
        intros b [= <-] ?; lia.
    + injection H as <- <-. split_and!; try tauto. done.
  - intros (? & ? & ? & ? & Hl). replay. passed. replay. passed. destruct (requestBudget c) as [budget|]; [|done].
    specialize (Hl _ eq_refl). destruct (Z.ltb_spec 0 ttl), (Z.leb_spec ttl budget); cbn [andb]; try done. lia.
Qed.

Lemma loadCache_iff (d c : Cache) : loadCache Getenv ParseDuration Atoi d = inl c <-> cache_read d c.
Proof.
  unfold loadCache, cache_read. split.
  - intros H. loaded H. injection H as <-. tauto.
  - intros (? & ? & ?). replay. by destruct c.
Qed.

Lemma loadCircuit_iff (d c : Circuit) :
  loadCircuit Getenv ParseDuration Atoi ParseFloat d = inl c <-> circuit_read d c /\ 0 <= SlowCallThreshold c.
Proof.
  unfold loadCircuit, circuit_read. split.
  - intros H. loaded H. injection H as <-. rewrite negative_None, Forall_cons in *. cbn [snd] in *. cbn. tauto.
  - intros ((? & Hs & ? & ? & ? & ? & ?) & ?). replay. passed. rewrite <- Hs. by destruct c.
Qed.

Lemma loadProbe_iff (d p : Probe) : loadProbe Getenv ParseDuration Atoi d = inl p <-> probe_read d p.
Proof.
  unfold loadProbe, probe_read. split.
  - intros H. loaded H. injection H as <-. tauto.
  - intros (? & ? & ? & ?). replay. by destruct p.
Qed.

Lemma loadRouting_iff (d r : Routing) (ceiling n : Z) :
  loadRouting Getenv ParseDuration Atoi d ceiling = inl (r, n) <->
  rStrategy r = rStrategy d /\ envDuration envAffinity (AffinityTTL d) = inl (AffinityTTL r) /\
  envInt envUpstreamMaxInFlight ceiling = inl n /\ 0 <= AffinityTTL r /\ 0 <= n.
Proof.
  unfold loadRouting. split.
  - intros H. loaded H. injection H as <- <-. rewrite !negative_None, !Forall_cons in *. cbn in *. tauto.
  - intros (Hs & ? & ? & ? & ?). replay. passed. replay. passed. rewrite <- Hs. by destruct r.
Qed.

Hypothesis limits_visited : forall m, ranged_limits m ≡ₚ map_to_list m.
Hypothesis chains_visited : forall m, ranged_chains m ≡ₚ map_to_list m.

Lemma load_reads (c : Config) : Load = inl c -> read c /\ bounded c /\ valid ParseURL c /\ posture_ok c.
Proof.
  unfold Load. cbv zeta. intros H. loaded H. injection H as <-.
  repeat match goal with p : (_ * _)%type |- _ => destruct p end. cbn [fst snd] in *.
  match goal with H : loadRetry _ _ _ _ = _ |- _ => apply loadRetry_iff in H as [? Hretry] end.
  match goal with H : loadQuota _ _ _ = _ |- _ => apply loadQuota_iff in H as (? & ? & ? & ? & Hlease) end.
  match goal with H : loadCache _ _ _ _ = _ |- _ => apply loadCache_iff in H end.
  match goal with H : loadCircuit _ _ _ _ _ = _ |- _ => apply loadCircuit_iff in H as [? ?] end.
  match goal with H : loadProbe _ _ _ _ = _ |- _ => apply loadProbe_iff in H end.
  match goal with H : loadRouting _ _ _ _ _ = _ |- _ => apply loadRouting_iff in H as (Hs & ? & ? & ? & ?) end.
  match goal with H : loadModelTables _ _ _ = _ |- _ => unfold loadModelTables in H; loaded H; injection H as <- <- end.
  match goal with H : loadSecurity _ _ = _ |- _ => unfold loadSecurity in H; loaded H; injection H as <- end.
  match goal with H : validate _ _ _ _ = _ |- _ => apply validate_None in H; [|exact limits_visited|exact chains_visited] end.
  match goal with H : guardDeploymentPosture _ = _ |- _ => apply posture_None in H end.
  split; [|split; [|split; assumption]].
  - constructor; cbn; try (repeat split; assumption); try assumption.
  - constructor; cbn; [exact Hretry|by split|exact Hlease|split_and!; assumption].
Qed.

Lemma load_accepts (c : Config) : read c -> bounded c -> valid ParseURL c -> posture_ok c -> Load = inl c.
Proof.
  intros [[R1 R2] (R3 & R4 & R5) [R6 R7] [R8 R9] [R10 R11] R12 R13 [R14 R15] R16 R17 R18 [R19 R20] (R21 & R22 & R23) [R24 R25]].
  intros [B1 [B2 B3] B4 (B5 & B6 & B7)] Hv Hp. unfold Load. cbv zeta.
  change (Identity defaultConfig) with (trimmed envIdentity). rewrite R10. cbn [bind]. rewrite R5. cbn [bind].
  change (ShutdownGrace (cServer defaultConfig)) with defaultShutdownGrace. rewrite R2. cbn [bind].
  change (AccessLogQueueSize (cObs defaultConfig)) with defaultAccessLogQueue. rewrite R9. cbn [bind]. rewrite R12. cbn [bind].
  rewrite (proj2 (loadRetry_iff _ (cRetry c)) (conj R13 B1)). cbn [bind].
  erewrite (proj2 (loadQuota_iff _ (ReconcileInterval c) (LeaseTTL_ c))); [|split; [exact R14|split; [exact R15|by split]]].
  cbn [bind cCache cCircuit cProbe cRouting cSecurity UpstreamMaxInFlight].
  rewrite (proj2 (loadCache_iff _ (cCache c)) R16). cbn [bind].
  rewrite (proj2 (loadCircuit_iff _ (cCircuit c)) (conj R17 B5)). cbn [bind].
  rewrite (proj2 (loadProbe_iff _ (cProbe c)) R18). cbn [bind].
  unfold loadModelTables. rewrite R19. cbn [bind]. rewrite R20. cbn [bind].
  rewrite (proj2 (loadRouting_iff _ (cRouting c) _ (UpstreamMaxInFlight c))) by (split_and!; assumption). cbn [bind].
  unfold loadSecurity. rewrite R25. cbn [bind].
  match goal with |- context [validate _ _ _ ?c'] => assert (c' = c) as -> end.
  2:{ by rewrite (proj2 (validate_None _ _ _ c limits_visited chains_visited) Hv), (proj2 (posture_None c) Hp). }
  cbn. rewrite <- R1, <- R3, <- R4, <- R6, <- R7, <- R8, <- R11, <- R24.
  by destruct c as [[] [] ? [] ? ? ? ? ? ? ? ? ? ? ? [] ? []].
Qed.

(** C38. A configuration whose quota horizon is derived, or is set beside a
    request that has a bound, is what [Load] returns exactly when each
    setting is the reading of its own variable or its default, is within the
    bounds of its subsystem (checked only while the subsystem is on), a
    horizon that is set covers the longest request, and it is safe to deploy;
    the order of the checks and of the ranges over the model tables only
    decides which refusal is reported.  A horizon set beside a request
    without a bound is outside this claim. *)
Theorem load_iff (c : Config) : comparable c ->
  Load = inl c <-> read c /\ bounded c /\ covers c /\ valid ParseURL c /\ posture_ok c.
Proof.
  intros Hc. split; [|by intros (? & ? & _ & ? & ?); apply load_accepts].
  intros (Hr & Hb & Hv & Hp)%load_reads. split_and!; try done. by apply bounded_covers.
Qed.

(** What a parsed duration can be. *)
Hypothesis durations : forall s d, ParseDuration s = Some d -> in_int64 d.

Lemma envDuration_range (key : string) (fallback d : Z) : in_int64 fallback -> envDuration key fallback = inl d -> in_int64 d.
Proof.
  intros Hf. unfold Load.envDuration, env_parsed. destruct (String.eqb _ _); [by intros [= <-]|].
  destruct (ParseDuration _) as [v|] eqn:E; [|done]. intros [= <-]. by apply durations in E.
Qed.

Lemma addDuration_spec (a b : Z) : 0 <= a <= max_int64 -> 0 <= b <= max_int64 -> addDuration a b = Z.min max_int64 (a + b).
Proof.
  intros Ha Hb. unfold addDuration. cbv zeta. destruct (decide (a + b <= max_int64)) as [H|H].
  - rewrite wrap64_id by (unfold in_int64, min_int64; lia). destruct (Z.ltb_spec (a + b) 0); lia.
  - assert (wrap64 (a + b) = a + b - 2 ^ 64) as ->.
    { unfold wrap64. unfold max_int64 in *. rewrite (Z.mod_eq (a + b + 2 ^ 63)) by lia.
      assert ((a + b + 2 ^ 63) / 2 ^ 64 = 1) as -> by (symmetry; apply (Z.div_unique _ _ 1 (a + b - 2 ^ 63)); lia). lia. }
    unfold max_int64 in *. destruct (Z.ltb_spec (a + b - 2 ^ 64) 0); lia.
Qed.

(** C39. The reclaim horizon covers the longest request: in a configuration
    [Load] accepts, a bounded request ends strictly before its lease may be
    reclaimed, unless both are the largest duration; without a bound and
    without a configured horizon both are the same day.  Neither is ever
    negative, whatever the sums. *)
Theorem lease_outlives_request (c : Config) :
  Load = inl c ->
  0 < RequestCeiling c <= max_int64 /\ 0 < LeaseTTL c <= max_int64 /\
  (forall budget, requestBudget c = Some budget ->
     RequestCeiling c = Z.min max_int64 (OverallDeadline (cRetry c) + StreamTimeout (cRetry c)) /\
     (RequestCeiling c < LeaseTTL c \/ LeaseTTL c = max_int64)) /\
  (requestBudget c = None -> LeaseTTL_ c = 0 -> LeaseTTL c = RequestCeiling c).
Proof.
  intros (Hread & [(_ & B1 & _ & _ & B2 & _) [_ B3] B4 _] & _)%load_reads.
  assert (forall z, 0 <= z < 2 ^ 62 -> in_int64 z) as Hsmall by (unfold in_int64, min_int64, max_int64; lia).
  destruct (read_retry _ Hread) as (_ & _ & R1 & _ & _ & _ & _ & _ & R2 & _).
  destruct (read_quota _ Hread) as [_ R3].
  apply envDuration_range in R1 as [_ R1]; [|by apply Hsmall]. apply envDuration_range in R2 as [_ R2]; [|by apply Hsmall].
  apply envDuration_range in R3 as [_ R3]; [|by apply Hsmall].
  unfold RequestCeiling, LeaseTTL, requestBudget in *.
  set (o := OverallDeadline (cRetry c)) in *. set (st := StreamTimeout (cRetry c)) in *. set (l := LeaseTTL_ c) in *.
  unfold max_int64 in *. pose proof (addDuration_spec o st ltac:(unfold max_int64; lia) ltac:(unfold max_int64; lia)) as Ha. unfold max_int64 in Ha.
  assert (unboundedRequestLeaseTTL = 86400000000000 /\ leaseTTLHeadroom = 60000000000) as [-> ->] by done.
  destruct (Z.leb_spec o 0), (Z.leb_spec st 0); cbn [orb] in *;
    try (destruct (Z.ltb_spec 0 l); split_and!; try lia; try done; by intros ? [= <-]).
  rewrite Ha in *. specialize (B4 _ eq_refl).
  pose proof (addDuration_spec (Z.min (2 ^ 63 - 1) (o + st)) 60000000000 ltac:(unfold max_int64; lia) ltac:(unfold max_int64; lia)) as Hh.
  unfold max_int64 in Hh. rewrite Hh. destruct (Z.ltb_spec 0 l); (split; [lia|]; split; [lia|]; split; [|done]); intros b [= <-]; lia.
Qed.
End load.

(** *** Concrete environments *)
#[local] Open Scope string_scope.
#[local] Open Scope Z_scope.
Definition sample_upstream : Upstream := mkUpstream "openai" "https://api" "k1" ["k2"] "" ["gpt"; "fast=gpt-mini"].
Definition sample_env (key : string) : string :=
  if String.eqb key envUpstreams then "[u]"
  else if String.eqb key envIdentity then " {} "
  else if String.eqb key envAdminToken then "s3cret "
  else if String.eqb key envCircuitEnabled then "f"
  else "".

Definition sample_load (env : string -> string) (duration : string -> option Z) : result Config :=
  Load env duration (fun _ => None) (fun _ => None) (fun _ => Some ([sample_upstream], false)) (fun _ => None) (fun _ => None)
    (fun _ => None) (fun _ => Some ("https", "api")) map_to_list map_to_list.

Definition sample_budget_env (key : string) : string := if String.eqb key envQuotaLeaseTTL then "1h" else sample_env key.
Definition sample_duration (s : string) : option Z := if String.eqb s "1h" then Some (60 * minute) else None.

Lemma load_iff_witness :
  exists c, sample_load sample_budget_env sample_duration = inl c /\ LeaseTTL_ c = 60 * minute /\ RequestCeiling c < LeaseTTL_ c /\
    upstreams_ok (fun _ => Some ("https", "api")) (Upstreams c).
Proof.
  assert (exists c, sample_load sample_budget_env sample_duration = inl c /\ LeaseTTL_ c = 60 * minute /\ requestBudget c = Some (660 * second))
    as (c & Hc & Hl & Hb).
  { eexists. split; [vm_compute; reflexivity|]. by split. }
  exists c. split; [exact Hc|]. split; [exact Hl|]. unfold sample_load in Hc.
  destruct (proj1 (load_iff sample_budget_env sample_duration (fun _ => None) (fun _ => None) (fun _ => Some ([sample_upstream], false))
    (fun _ => None) (fun _ => None) (fun _ => None) (fun _ => Some ("https", "api")) map_to_list map_to_list
    (fun _ => reflexivity _) (fun _ => reflexivity _) c (or_intror (ex_intro _ _ Hb))) Hc) as (_ & _ & Hcov & Hv & _).
  split; [apply Hcov; rewrite Hl; reflexivity|]. exact (valid_upstreams _ _ Hv).
Defined.

Lemma lease_outlives_request_witness :
  exists c, sample_load sample_env (fun _ => None) = inl c /\ RequestCeiling c < LeaseTTL c.
Proof.
  assert (exists c, sample_load sample_env (fun _ => None) = inl c /\ requestBudget c = Some (660 * second) /\ LeaseTTL c = 720 * second)
    as (c & Hc & Hb & Hl).
  { eexists. split; [vm_compute; reflexivity|]. by split. }
  exists c. split; [exact Hc|]. unfold sample_load in Hc.
  destruct (lease_outlives_request sample_env (fun _ => None) (fun _ => None) (fun _ => None) (fun _ => Some ([sample_upstream], false))
    (fun _ => None) (fun _ => None) (fun _ => None) (fun _ => Some ("https", "api")) map_to_list map_to_list
    (fun _ => reflexivity _) (fun _ => reflexivity _) ltac:(by intros) c Hc) as (_ & _ & Hbudget & _).
  destruct (Hbudget _ Hb) as [_ [Hlt|Hmax]]; [exact Hlt|]. rewrite Hl in Hmax. discriminate Hmax.
Defined.

(** A configured horizon is not held against an unbounded request: without
    a stream timeout, a horizon of one second loads. *)
Lemma unbounded_lease_short :
  exists c, sample_load (fun key => if String.eqb key envStreamTimeout then "0s" else if String.eqb key envQuotaLeaseTTL then "1s" else sample_env key)
    (fun s => if String.eqb s "1s" then Some second else if String.eqb s "0s" then Some 0 else None) = inl c /\
  LeaseTTL c < RequestCeiling c.
Proof. eexists. split; [vm_compute; reflexivity|done]. Qed.

(** The gateway starts with no configuration at all: on the empty
    environment [Load] returns the defaults. *)
Theorem zero_configuration (ParseDuration Atoi : string -> option Z) (ParseFloat : string -> option float)
    (decode_upstreams : string -> option (list Upstream * bool)) (decode_fallbacks : string -> option (gmap string (list string)))
    (decode_limits : string -> option (gmap string Z)) (ReadFile : string -> option string)
    (ParseURL : string -> option (string * string)) :
  let c := defaultConfig (fun _ => "") in
  Load (fun _ => "") ParseDuration Atoi ParseFloat decode_upstreams decode_fallbacks decode_limits ReadFile ParseURL map_to_list map_to_list
  = inl c /\ Addr (cServer c) = ":8080" /\ Upstreams c = [] /\ LeaseTTL c = 720 * second.
Proof. split; [vm_compute; reflexivity|by split_and!]. Qed.
End ConfigProps.
