(* ===== verification/Redis.v ===== *)
(** * The hot store (quota/redis.go, limiter/redis.go and their scripts)

    The distributed backends keep their state in a Redis server and move it
    with Lua scripts.  The server is not part of the program: [Server] is the
    data it stores and the commands the program sends, and what a command
    answers is a parameter, with the documented effect of the commands as the
    laws of [Documented].  [Lua] is the scripting language of the scripts
    under src/: numbers are binary64 (Float64.v), a failed command raises and
    keeps what was written before it.  [Link] is one exchange with the
    server, which may be lost on either way.  [Reference] is a server that
    keeps the laws. *)
From Stdlib Require Import QArith.
From stdpp Require Import base numbers gmap strings pretty sorting list.
From S2P Require Import Prelude Float64 Stream Text.
Import GoInt.
Local Open Scope Z_scope.

Module Server.
(** The scores of a sorted set are binary64. *)
Inductive value := VString (s : string) | VHash (h : gmap string string) | VZSet (z : gmap string Q).

(** [volatile]: the keys with a time to live. *)
Record db := mkDb { keys : gmap string value; volatile : gset string }.

Inductive reply := Nil | Status | Bulk (s : string) | Int (z : Z) | Members (ids : list string) | Err (e : string).

Inductive command :=
  | GET (k : string) | SET (k v : string) | SETNX (k v : string) | INCR (k : string) | INCRBY (k n : string)
  | HGET (k f : string) | HSET (k : string) (fields : list (string * string))
  | ZADD (k : string) (score : Q) (m : string) | ZREM (k m : string) | ZRANGEBYSCORE (k : string) (stop count : Z)
  | PEXPIRE (k : string) (ms : Q).

Definition put (k : string) (v : value) (d : db) : db := mkDb (<[k := v]> (keys d)) (volatile d).
Definition drop (k : string) (d : db) : db := mkDb (delete k (keys d)) (volatile d ∖ {[k]}).

(** An empty sorted set is no key. *)
Definition put_zset (k : string) (z : gmap string Q) (d : db) : db :=
  if decide (z = ∅) then drop k d else put k (VZSet z) d.

(** The time to live of a key runs out. *)
Definition expire (k : string) (d : db) : db := if decide (k ∈ volatile d) then drop k d else d.

Definition set_fields (fields : list (string * string)) (h : gmap string string) : gmap string string :=
  foldl (fun h f => <[f.1 := f.2]> h) h fields.

(** What a key of each type holds; a missing key is empty. *)
Definition hash_at (d : db) (k : string) (h : gmap string string) : Prop :=
  keys d !! k = None /\ h = ∅ \/ keys d !! k = Some (VHash h).
Definition zset_at (d : db) (k : string) (z : gmap string Q) : Prop :=
  keys d !! k = None /\ z = ∅ \/ keys d !! k = Some (VZSet z).
Definition counter_at (d : db) (k : string) (n : Z) : Prop :=
  keys d !! k = None /\ n = 0 \/ keys d !! k = Some (VString (pretty n)).

Definition bulk (s : option string) : reply := match s with Some s => Bulk s | None => Nil end.

(** Members up to a score, in the order of the server. *)
Definition up_to (stop : Z) (z : gmap string Q) : list (string * Q) :=
  filter (fun e => Qle_bool e.2 (fof_int stop) = true) (map_to_list z).
Definition by_score (a b : string * Q) : Prop := Qle_bool a.2 b.2 = true.

(** The documented commands, on keys of the type they expect. *)
Class Documented (exec : command -> db -> reply * db) : Prop := {
  doc_get_none k d : keys d !! k = None -> exec (GET k) d = (Nil, d);
  doc_get_some k s d : keys d !! k = Some (VString s) -> exec (GET k) d = (Bulk s, d);
  doc_set k s d : exec (SET k s) d = (Status, mkDb (<[k := VString s]> (keys d)) (volatile d ∖ {[k]}));
  doc_setnx_none k s d : keys d !! k = None -> exec (SETNX k s) d = (Int 1, put k (VString s) d);
  doc_setnx_some k s v d : keys d !! k = Some v -> exec (SETNX k s) d = (Int 0, d);
  doc_incrby k n old d :
    in_int64 n -> in_int64 old -> counter_at d k old -> in_int64 (old + n) ->
    exec (INCRBY k (pretty n)) d = (Int (old + n), put k (VString (pretty (old + n))) d);
  doc_incrby_over k n old d :
    in_int64 n -> in_int64 old -> counter_at d k old -> ~ in_int64 (old + n) ->
    exists e, exec (INCRBY k (pretty n)) d = (Err e, d);
  doc_incr k d : exec (INCR k) d = exec (INCRBY k "1") d;
  doc_hget k f h d : hash_at d k h -> exec (HGET k f) d = (bulk (h !! f), d);
  doc_hset k fields h d :
    hash_at d k h -> fields <> [] -> exists n, exec (HSET k fields) d = (Int n, put k (VHash (set_fields fields h)) d);
  doc_zadd k score m z d :
    zset_at d k z -> exists n, exec (ZADD k score m) d = (Int n, put k (VZSet (<[m := score]> z)) d);
  doc_zrem k m z d : zset_at d k z -> exists n, exec (ZREM k m) d = (Int n, put_zset k (delete m z) d);
  doc_zrange k stop count z d :
    zset_at d k z -> 0 < count ->
    exists l, l ≡ₚ up_to stop z /\ Sorted by_score l /\
      exec (ZRANGEBYSCORE k stop count) d = (Members (take (Z.to_nat count) l.*1), d);
  doc_pexpire k v ms d :
    keys d !! k = Some v -> (0 < ms)%Q -> exists n, exec (PEXPIRE k ms) d = (Int n, mkDb (keys d) ({[k]} ∪ volatile d))
}.
End Server.

(** ** The language of the scripts *)
Module Lua.
Import Server.

(** What the C library under the interpreter does with a number: [strtod]
    and the cast of a double to a [long]. *)
Class Numbers := { tonumber : string -> option Q; long_of : Q -> Z }.

Class NumberLaws `{Numbers} : Prop := {
  tonumber_integer z : tonumber (pretty z) = Some (fof_int z);
  long_exact (q : Q) z : (q == inject_Z z)%Q -> in_int64 z -> long_of q = z;
  long_range q : in_int64 (long_of q)
}.

(** A script returns or raises; its writes stay. *)
Definition script (A : Type) : Type := db -> (A + string) * db.

Section script.
Context `{Numbers} (exec : command -> db -> reply * db).

Definition ret {A} (a : A) : script A := fun d => (inl a, d).
Definition raise {A} (e : string) : script A := fun d => (inr e, d).
Definition bind {A B} (m : script A) (k : A -> script B) : script B :=
  fun d => match m d with (inl a, d') => k a d' | (inr e, d') => (inr e, d') end.

(** [redis.call]. *)
Definition call (c : command) : script reply :=
  fun d => match exec c d with (Err e, d') => (inr e, d') | (r, d') => (inl r, d') end.

(** [tonumber] of a reply: nil for a missing key. *)
Definition to_number (r : reply) : option Q :=
  match r with Bulk s => tonumber s | Int z => Some (fof_int z) | _ => None end.

(** Arithmetic on nil raises. *)
Definition arith (n : option Q) : script Q :=
  match n with Some q => ret q | None => raise "attempt to perform arithmetic on a nil value" end.

(** [string.format('%d', n)]. *)
Definition format_d (q : Q) : string := pretty (long_of q).

Definition lt (x y : Q) : bool := negb (Qle_bool y x).
End script.
End Lua.

(** ** One exchange with the server *)
Module Link.
Import Server.

(** The exchange works, the call does not arrive, or its answer is lost. *)
Inductive link := Up | Unsent | Unanswered.

Record conn := mkConn { links : list link; srv : db }.

Inductive error := Unreachable | Raised (e : string).

Definition next (c : conn) : link * list link :=
  match links c with [] => (Up, []) | l :: ls => (l, ls) end.

(** [f] is what the server does with the call. *)
Definition exchange {A} (f : db -> (A + string) * db) (c : conn) : (A + error) * conn :=
  let (l, ls) := next c in
  match l with
  | Unsent => (inr Unreachable, mkConn ls (srv c))
  | Unanswered => (inr Unreachable, mkConn ls (f (srv c)).2)
  | Up => match f (srv c) with
          | (inl a, d) => (inl a, mkConn ls d)
          | (inr e, d) => (inr (Raised e), mkConn ls d)
          end
  end.
End Link.

(** ** A server that keeps the laws *)
Module Reference.
Import Server.

Definition wrongtype : string := "WRONGTYPE".

Definition with_hash (k : string) (d : db) (f : gmap string string -> reply * db) : reply * db :=
  match keys d !! k with
  | None => f ∅
  | Some (VHash h) => f h
  | Some _ => (Err wrongtype, d)
  end.

Definition with_zset (k : string) (d : db) (f : gmap string Q -> reply * db) : reply * db :=
  match keys d !! k with
  | None => f ∅
  | Some (VZSet z) => f z
  | Some _ => (Err wrongtype, d)
  end.

Definition increment (k n : string) (d : db) : reply * db :=
  let add old :=
    match Text.ParseInt old, Text.ParseInt n with
    | Some x, Some y =>
        if decide (in_int64 (x + y)) then (Int (x + y), put k (VString (pretty (x + y))) d) else (Err "overflow", d)
    | _, _ => (Err "not an integer", d)
    end in
  match keys d !! k with
  | None => add "0"
  | Some (VString s) => add s
  | Some _ => (Err wrongtype, d)
  end.

#[export] Instance by_score_dec a b : Decision (by_score a b) := decide (Qle_bool a.2 b.2 = true).

Definition exec (c : command) (d : db) : reply * db :=
  match c with
  | GET k => match keys d !! k with None => (Nil, d) | Some (VString s) => (Bulk s, d) | Some _ => (Err wrongtype, d) end
  | SET k v => (Status, mkDb (<[k := VString v]> (keys d)) (volatile d ∖ {[k]}))
  | SETNX k v => match keys d !! k with None => (Int 1, put k (VString v) d) | Some _ => (Int 0, d) end
  | INCR k => increment k "1" d
  | INCRBY k n => increment k n d
  | HGET k f => with_hash k d (fun h => (bulk (h !! f), d))
  | HSET k fields => with_hash k d (fun h => (Int (Z.of_nat (length fields)), put k (VHash (set_fields fields h)) d))
  | ZADD k score m => with_zset k d (fun z => (Int 1, put k (VZSet (<[m := score]> z)) d))
  | ZREM k m => with_zset k d (fun z => (Int 1, put_zset k (delete m z) d))
  | ZRANGEBYSCORE k stop count =>
      with_zset k d (fun z => (Members (take (Z.to_nat count) (merge_sort by_score (up_to stop z)).*1), d))
  | PEXPIRE k _ =>
      match keys d !! k with None => (Int 0, d) | Some _ => (Int 1, mkDb (keys d) ({[k]} ∪ volatile d)) end
  end.

Lemma increment_counter (k : string) (n old : Z) (d : db) :
  in_int64 n -> in_int64 old -> counter_at d k old ->
  increment k (pretty n) d =
  if decide (in_int64 (old + n)) then (Int (old + n), put k (VString (pretty (old + n))) d) else (Err "overflow", d).
Proof.
  intros Hn Ho Hc. unfold increment.
  destruct Hc as [[-> ->] | ->]; rewrite ?(TextFacts.ParseInt_pretty n), ?(TextFacts.ParseInt_pretty old) by done;
    [change (Text.ParseInt "0") with (Some 0)|]; done.
Qed.

#[export] Instance by_score_total : Total by_score.
Proof.
  intros a b. unfold by_score. rewrite !Qle_bool_iff. destruct (Qlt_le_dec a.2 b.2) as [H|H]; [left|by right].
  by apply Qlt_le_weak.
Qed.
#[export] Instance by_score_trans : Transitive by_score.
Proof. intros a b c. unfold by_score. rewrite !Qle_bool_iff. apply Qle_trans. Qed.

#[export] Instance reference_documented : Documented exec.
Proof.
  split; intros *.
  - cbn. by intros ->.
  - cbn. by intros ->.
  - done.
  - cbn. by intros ->.
  - cbn. by intros ->.
  - intros Hn Ho Hc Hs. cbn. rewrite (increment_counter k n old d) by done. by rewrite decide_True.
  - intros Hn Ho Hc Hs. exists "overflow". cbn. rewrite (increment_counter k n old d) by done. by rewrite decide_False.
  - done.
  - intros [[Hk ->]|Hk]; cbn; unfold with_hash; by rewrite Hk.
  - intros [[Hk ->]|Hk] _; cbn; unfold with_hash; rewrite Hk; by eexists.
  - intros [[Hk ->]|Hk]; cbn; unfold with_zset; rewrite Hk; by eexists.
  - intros [[Hk ->]|Hk]; cbn; unfold with_zset; rewrite Hk; by eexists.
  - intros Hz _. exists (merge_sort by_score (up_to stop z)). split_and!.
    + apply merge_sort_Permutation.
    + apply (Sorted_merge_sort by_score).
    + destruct Hz as [[Hk ->]|Hk]; cbn; unfold with_zset; by rewrite Hk.
  - intros Hk _. cbn. rewrite Hk. by eexists.
Qed.

(** Numbers as the scripts meet them: integers in decimal.  A cast out of
    range gives the least integer, as on x86-64. *)
#[export] Instance numbers : Lua.Numbers := {
  Lua.tonumber s := fof_int <$> Text.integer s;
  Lua.long_of q := let z := to_int q in if decide (in_int64 z) then z else min_int64
}.

Lemma to_int_integer (q : Q) (z : Z) : (q == inject_Z z)%Q -> to_int q = z.
Proof.
  destruct q as [n p]. unfold Qeq, to_int. cbn [Qnum Qden inject_Z]. rewrite Z.mul_1_r. intros ->. by apply Z.quot_mul.
Qed.

#[export] Instance number_laws : Lua.NumberLaws.
Proof.
  split.
  - intros z. cbn. by rewrite TextFacts.integer_pretty.
  - intros q z Hq Hz. cbn. by rewrite (to_int_integer q z), decide_True.
  - intros q. cbn. by case_decide.
Qed.
End Reference.
