(* ===== verification/RedisLedger.v ===== *)
(** * The Redis ledger (quota/redis.go, reserve.lua, settle.lua, release.lua)

    [Scripts] is the three scripts, statement by statement, over the commands
    and numbers of Redis.v.  [Ledger] is the Go side: the keys, the exchanges
    with the server and what it makes of their answers.  [Rep] relates what
    the server stores to the ledger of Quota.v and the lifetime counters. *)
From Stdlib Require Import QArith Lqa.
From stdpp Require Import base numbers gmap strings pretty list.
From S2P Require Import Prelude Float64 Text Quota Redis.
Import GoInt GoTime.
Local Open Scope Z_scope.

Module Scripts.
Import Server Lua.

Section scripts.
Context `{Numbers} (exec : command -> db -> reply * db).

#[local] Notation "x <- m ;; k" := (bind m (fun x => k)) (at level 100, m at next level, right associativity).
#[local] Notation "m ;; k" := (bind m (fun _ => k)) (at level 100, right associativity).
Abbreviation call := (call exec).

(** reserve.lua: the answer is {ok, balance}. *)
Definition reserve (balance lease sweep debited : string) (now_ms amount ttl_ms id tenant : string) : script (Z * Z) :=
  stored <- call (GET balance);;
  match to_number stored with
  | None => ret (0, -1)
  | Some bal =>
      amount <- arith (tonumber amount);;
      if lt bal amount then ret (0, long_of bal)
      else
        let bal := fsub bal amount in
        call (SET balance (format_d bal));;
        call (INCRBY debited (format_d amount));;
        call (HSET lease [("tenant", tenant); ("amount", format_d amount); ("state", "RESERVED"); ("created", now_ms)]);;
        now <- arith (tonumber now_ms);;
        ttl <- arith (tonumber ttl_ms);;
        call (ZADD sweep (fadd now ttl) id);;
        ret (1, long_of bal)
  end.

(** What settle.lua answers beside the flag. *)
Inductive settled := Moved (refund : Z) | Stood (state : string).

Definition settle (balance lease sweep consumed refunded : string) (used id ttl_ms : string) : script (Z * settled) :=
  state <- call (HGET lease "state");;
  match state with
  | Bulk "RESERVED" =>
      stored <- call (HGET lease "amount");;
      amount <- arith (to_number stored);;
      used <- arith (tonumber used);;
      let used := fmax used 0 in
      let refund := fsub amount used in
      (if lt 0 refund then call (INCRBY balance (format_d refund));; ret tt else ret tt);;
      call (HSET lease [("state", "SETTLED")]);;
      call (INCRBY consumed (format_d used));;
      (if lt 0 refund then call (INCRBY refunded (format_d refund));; ret tt else ret tt);;
      ttl <- arith (tonumber ttl_ms);;
      call (PEXPIRE lease ttl);;
      call (ZREM sweep id);;
      ret (1, Moved (long_of (fmax refund 0)))
  | Bulk state => ret (0, Stood state)
  | _ => ret (0, Stood "missing")
  end.

Definition release (balance lease sweep refunded : string) (id target ttl_ms : string) : script Z :=
  state <- call (HGET lease "state");;
  call (ZREM sweep id);;
  match state with
  | Bulk "RESERVED" =>
      stored <- call (HGET lease "amount");;
      amount <- arith (to_number stored);;
      call (INCRBY balance (format_d amount));;
      call (HSET lease [("state", target)]);;
      call (INCRBY refunded (format_d amount));;
      ttl <- arith (tonumber ttl_ms);;
      call (PEXPIRE lease ttl);;
      ret 1
  | _ => ret 0
  end.
End scripts.
End Scripts.

Module RedisLedger.
Import Server Lua Link Ledger.

Definition neverProvisioned : Z := -1.
Definition defaultKeyPrefix : string := "bw:quota:".

Definition namespacedKeyPrefix (namespace : string) : string :=
  if String.eqb namespace "" then defaultKeyPrefix else namespace +:+ ":" +:+ defaultKeyPrefix.

(** The start of 1970; [Time.UnixMilli] and [Duration.Milliseconds]. *)
Definition unixEpoch : Z := 62135596800 * second.
Definition UnixMilli (t : Z) : Z := (t - unixEpoch) / millisecond.
Definition Milliseconds (d : Z) : Z := Z.quot d millisecond.

Definition state_text (s : LeaseState) : string :=
  match s with
  | LeaseStateReserved => "RESERVED" | LeaseStateSettled => "SETTLED"
  | LeaseStateExpired => "EXPIRED" | LeaseStateCancelled => "CANCELLED"
  end.

Inductive failure := Denied (e : quota_error) | Backend (e : Link.error) | Malformed.

Section redis.
Context `{Numbers} (exec : command -> db -> reply * db).
(** The fields of [Redis]. *)
Variables (keyPrefix : string) (leaseTTL : Z).

Definition balanceKey (tenantID : string) : string := keyPrefix +:+ "bal:" +:+ tenantID.
Definition leaseKey (leaseID : string) : string := keyPrefix +:+ "lease:" +:+ leaseID.
Definition consumedKey (tenantID : string) : string := keyPrefix +:+ "consumed:" +:+ tenantID.
Definition refundedKey (tenantID : string) : string := keyPrefix +:+ "refunded:" +:+ tenantID.
Definition debitedKey (tenantID : string) : string := keyPrefix +:+ "debited:" +:+ tenantID.
Definition epochKey (tenantID : string) : string := keyPrefix +:+ "epoch:" +:+ tenantID.
Definition sweepKey : string := keyPrefix +:+ "sweep".

(** A single command as the client sends it. *)
Definition command_of (c : command) (d : db) : (reply + string) * db := call exec c d.

(** MULTI/EXEC: both commands run, the first error is reported. *)
Definition transaction (c1 c2 : command) (d : db) : (unit + string) * db :=
  let (r1, d1) := exec c1 d in
  let (r2, d2) := exec c2 d1 in
  (match r1, r2 with Err e, _ => inr e | _, Err e => inr e | _, _ => inl tt end, d2).

Definition SetBalance (tenantID : string) (balance : Z) (c : conn) : option failure * conn :=
  match exchange (transaction (SET (balanceKey tenantID) (pretty balance)) (INCR (epochKey tenantID))) c with
  | (inl _, c) => (None, c)
  | (inr e, c) => (Some (Backend e), c)
  end.

Definition EnsureBalance (tenantID : string) (initial : Z) (c : conn) : (bool + failure) * conn :=
  match exchange (command_of (SETNX (balanceKey tenantID) (pretty initial))) c with
  | (inl r, c) => (inl (match r with Int 1 => true | _ => false end), c)
  | (inr e, c) => (inr (Backend e), c)
  end.

Definition reserve_script (now : Z) (newID tenantID : string) (amount : Z) : script (Z * Z) :=
  Scripts.reserve exec (balanceKey tenantID) (leaseKey newID) sweepKey (debitedKey tenantID)
    (pretty (UnixMilli now)) (pretty amount) (pretty (Milliseconds leaseTTL)) newID tenantID.

Definition Reserve (now : Z) (newID tenantID : string) (amount : Z) (c : conn) : (Lease + failure) * conn :=
  match exchange (reserve_script now newID tenantID amount) c with
  | (inr e, c) => (inr (Backend e), c)
  | (inl (ok, bal), c) =>
      if negb (ok =? 1) then
        (inr (Denied (if bal =? neverProvisioned then ErrUnknownTenant else ErrInsufficientBalance)), c)
      else (inl (mkLease newID tenantID amount LeaseStateReserved now), c)
  end.

Definition settle_script (tenantID leaseID : string) (usedTokens : Z) : script (Z * Scripts.settled) :=
  Scripts.settle exec (balanceKey tenantID) (leaseKey leaseID) sweepKey (consumedKey tenantID) (refundedKey tenantID)
    (pretty usedTokens) leaseID (pretty (Milliseconds leaseAuditTTL)).

(** The log line of a late settlement is left out. *)
Definition Settle (leaseID : string) (usedTokens : Z) (c : conn) : option failure * conn :=
  match exchange (command_of (HGET (leaseKey leaseID) "tenant")) c with
  | (inr e, c) => (Some (Backend e), c)
  | (inl (Bulk tenant), c) =>
      match exchange (settle_script tenant leaseID usedTokens) c with
      | (inr e, c) => (Some (Backend e), c)
      | (inl _, c) => (None, c)
      end
  | (inl _, c) => (None, c)
  end.

Definition release_script (tenantID leaseID : string) (state : LeaseState) : script Z :=
  Scripts.release exec (balanceKey tenantID) (leaseKey leaseID) sweepKey (refundedKey tenantID)
    leaseID (state_text state) (pretty (Milliseconds leaseAuditTTL)).

Definition release (leaseID : string) (state : LeaseState) (c : conn) : (bool + failure) * conn :=
  match exchange (command_of (HGET (leaseKey leaseID) "tenant")) c with
  | (inr e, c) => (inr (Backend e), c)
  | (inl (Bulk tenant), c) =>
      match exchange (release_script tenant leaseID state) c with
      | (inr e, c) => (inr (Backend e), c)
      | (inl res, c) => (inl (res =? 1), c)
      end
  | (inl _, c) =>
      match exchange (command_of (ZREM sweepKey leaseID)) c with
      | (inr e, c) => (inr (Backend e), c)
      | (inl _, c) => (inl false, c)
      end
  end.

Definition Cancel (leaseID : string) (c : conn) : option failure * conn :=
  match release leaseID LeaseStateCancelled c with
  | (inr e, c) => (Some e, c)
  | (inl _, c) => (None, c)
  end.

Definition Balance (tenantID : string) (c : conn) : (Z + failure) * conn :=
  match exchange (command_of (GET (balanceKey tenantID))) c with
  | (inr e, c) => (inr (Backend e), c)
  | (inl (Bulk s), c) => (match Text.ParseInt s with Some z => inl z | None => inr Malformed end, c)
  | (inl _, c) => (inr (Denied ErrUnknownTenant), c)
  end.

Definition counterValue (r : reply) : Z :=
  match r with Bulk s => default 0 (Text.ParseInt s) | _ => 0 end.

(** The error [pipe.Exec] reports: that of the first failing command. *)
Fixpoint first_error (replies : list reply) : option string :=
  match replies with
  | [] => None
  | Nil :: _ => None
  | Err e :: _ => Some e
  | _ :: replies => first_error replies
  end.

(** The pipeline is not a transaction: the five reads see the database as
    other clients leave it in between. *)
Definition TenantSnapshot (l : link) (seen : nat -> db) (tenantID : string) (takenAt : Z)
  : option Reconcile.Snapshot + failure :=
  let read i k := (exec (GET k) (seen i)).1 in
  let balance := read 0%nat (balanceKey tenantID) in
  let consumed := read 1%nat (consumedKey tenantID) in
  let refunded := read 2%nat (refundedKey tenantID) in
  let debited := read 3%nat (debitedKey tenantID) in
  let epoch := read 4%nat (epochKey tenantID) in
  match l with
  | Up =>
      match first_error [balance; consumed; refunded; debited; epoch] with
      | Some e => inr (Backend (Raised e))
      | None =>
          match balance with
          | Bulk s =>
              match Text.ParseInt s with
              | Some b => inl (Some (Reconcile.mkSnapshot tenantID b (counterValue consumed) (counterValue refunded)
                                       (counterValue debited) (counterValue epoch) takenAt))
              | None => inr Malformed
              end
          | Nil => inl None
          | _ => inr Malformed
          end
      end
  | _ => inr (Backend Unreachable)
  end.

(** The loop of [SweepOnce]: it stops at the first failure. *)
Fixpoint sweep_ids (ids : list string) (expired : Z) (c : conn) : (Z + Z * failure) * conn :=
  match ids with
  | [] => (inl expired, c)
  | id :: ids =>
      match release id LeaseStateExpired c with
      | (inr e, c) => (inr (expired, e), c)
      | (inl moved, c) => sweep_ids ids (if moved then expired + 1 else expired) c
      end
  end.

Definition SweepOnce (now limit : Z) (c : conn) : (Z + Z * failure) * conn :=
  match exchange (command_of (ZRANGEBYSCORE sweepKey (UnixMilli now) limit)) c with
  | (inr e, c) => (inr (0, Backend e), c)
  | (inl (Members ids), c) => sweep_ids ids 0 c
  | (inl _, c) => (inr (0, Malformed), c)
  end.
End redis.
End RedisLedger.

(** ** What the server stores, read as a ledger *)
Module RedisSpec.
Import Server Lua Ledger RedisLedger.

Inductive counter := Consumed | Refunded | Debited | Epoch.
#[export] Instance counter_eq_dec : EqDecision counter.
Proof. solve_decision. Defined.

(** The ledger of Quota.v beside the lifetime counters and the sweep index. *)
Record books := mkBooks { memory : Memory; counters : counter -> gmap string Z; sweep : gmap string Q }.

Definition count (c : counter) (t : string) (b : books) : Z := default 0 (counters b c !! t).

Definition with_memory (m : Memory) (b : books) : books := mkBooks m (counters b) (sweep b).
Definition with_sweep (z : gmap string Q) (b : books) : books := mkBooks (memory b) (counters b) z.
Definition bump (c : counter) (t : string) (n : Z) (b : books) : books :=
  mkBooks (memory b)
    (fun c' => if decide (c' = c) then <[t := count c t b + n]> (counters b c) else counters b c') (sweep b).
Definition set_balance (t : string) (v : Z) (b : books) : books := with_memory (Ledger.SetBalance t v (memory b)) b.
Definition set_lease (id : string) (l : memLease) (b : books) : books := with_memory (put_lease id l (memory b)) b.
Definition forget (id : string) (b : books) : books :=
  with_memory (mkMemory (balances (memory b)) (delete id (leases (memory b))) (leaseTTL (memory b))) b.

(** The hash of a lease; an audit time is not stored. *)
Definition encode (l : memLease) : gmap string string :=
  set_fields [("tenant", TenantID (lease l)); ("amount", pretty (Amount (lease l)));
              ("state", state_text (lstate (lease l))); ("created", pretty (UnixMilli (CreatedAt (lease l))))] ∅.

Inductive slot := SBalance (t : string) | SLease (id : string) | SCounter (c : counter) (t : string).
#[export] Instance slot_eq_dec : EqDecision slot.
Proof. solve_decision. Defined.

Definition content (b : books) (s : slot) : option value :=
  match s with
  | SBalance t => (fun n => VString (pretty n)) <$> balances (memory b) !! t
  | SLease id => (fun l => VHash (encode l)) <$> leases (memory b) !! id
  | SCounter c t => (fun n => VString (pretty n)) <$> counters b c !! t
  end.

Section rep.
Variable keyPrefix : string.

Definition key_of (s : slot) : string :=
  match s with
  | SBalance t => balanceKey keyPrefix t
  | SLease id => leaseKey keyPrefix id
  | SCounter Consumed t => consumedKey keyPrefix t
  | SCounter Refunded t => refundedKey keyPrefix t
  | SCounter Debited t => debitedKey keyPrefix t
  | SCounter Epoch t => epochKey keyPrefix t
  end.

Record Rep (b : books) (d : db) : Prop := {
  rep_content s : keys d !! key_of s = content b s;
  rep_sweep : zset_at d (sweepKey keyPrefix) (sweep b);
  rep_volatile k : k ∈ volatile d ->
    exists id l, k = leaseKey keyPrefix id /\ leases (memory b) !! id = Some l /\ lstate (lease l) <> LeaseStateReserved
}.
End rep.

(** The score of a lease in the sweep index. *)
Definition deadline (l : memLease) (ttl : Z) : Q := fadd (fof_int (UnixMilli (CreatedAt (lease l)))) (fof_int (Milliseconds ttl)).

(** Largest integer below which every integer is a binary64. *)
Definition exact : Z := 9007199254740992.

(** A sound ledger, with what the tenants own below [exact]; counters fit,
    every live lease is in the sweep index. *)
Record sound (b : books) : Prop := {
  so_wf : LedgerSpec.ledger_wf (memory b);
  so_exact t : balance_of (memory b) t + LedgerSpec.held (memory b) t < exact;
  so_counters c t : in_int64 (count c t b);
  so_refunds t : 0 <= count Refunded t b /\ count Refunded t b + LedgerSpec.held (memory b) t <= max_int64;
  so_live id l : leases (memory b) !! id = Some l -> lstate (lease l) = LeaseStateReserved ->
    sweep b !! id = Some (deadline l (leaseTTL (memory b)))
}.


Definition new_lease (now : Z) (id t : string) (a : Z) : memLease := mkMemLease (mkLease id t a LeaseStateReserved now) 0.

(** The books after a granted reservation. *)
Definition granted (ttl now : Z) (id t : string) (a : Z) (b : books) : books :=
  with_sweep (<[id := deadline (new_lease now id t a) ttl]> (sweep b))
    (set_lease id (new_lease now id t a) (bump Debited t a (set_balance t (balance_of (memory b) t - a) b))).

(** The books once the lease [l] moved to [st] with [r] given back. *)
Definition given_back (st : LeaseState) (at_ r : Z) (id : string) (l : memLease) (b : books) : books :=
  let b := if decide (0 < r) then set_balance (TenantID (lease l)) (balance_of (memory b) (TenantID (lease l)) + r) b else b in
  set_lease id (terminate st at_ l) b.

(** The books after a settlement. *)
Definition settled_books (at_ u : Z) (id : string) (l : memLease) (b : books) : books :=
  let t := TenantID (lease l) in
  let r := Amount (lease l) - Z.max u 0 in
  let b := bump Consumed t (Z.max u 0) (given_back LeaseStateSettled at_ r id l b) in
  let b := if decide (0 < r) then bump Refunded t r b else b in
  with_sweep (delete id (sweep b)) b.

(** The books once the lease [l] is out of the index and fully refunded. *)
Definition refunded_all (st : LeaseState) (at_ : Z) (id : string) (l : memLease) (b : books) : books :=
  set_lease id (terminate st at_ l)
    (set_balance (TenantID (lease l)) (balance_of (memory b) (TenantID (lease l)) + Amount (lease l))
       (with_sweep (delete id (sweep b)) b)).

Definition released_books (st : LeaseState) (at_ : Z) (id : string) (l : memLease) (b : books) : books :=
  bump Refunded (TenantID (lease l)) (Amount (lease l)) (refunded_all st at_ id l b).

(** *** The operations of any number of gateways, as the server runs them *)
Inductive op :=
  | OReserve (now : Z) (id t : string) (amount : Z)
  | OSettle (t id : string) (used : Z)
  | ORelease (t id : string) (st : LeaseState)
  | OUnindex (id : string)
  | OSetBalance (t : string) (v : Z)
  | OEnsure (t : string) (v : Z)
  | OExpire (id : string).

(** On the books.  The audit time is not stored: zero. *)
Definition book_step (o : op) (b : books) : books :=
  match o with
  | OReserve now id t a =>
      match (Ledger.Reserve now id t a (memory b)).1 with
      | inl _ => granted (leaseTTL (memory b)) now id t a b
      | inr _ => b
      end
  | OSettle _ id u =>
      match leases (memory b) !! id with
      | Some l => if decide (lstate (lease l) = LeaseStateReserved) then settled_books 0 u id l b else b
      | None => b
      end
  | ORelease _ id st =>
      match leases (memory b) !! id with
      | Some l => if decide (lstate (lease l) = LeaseStateReserved) then released_books st 0 id l b
                  else with_sweep (delete id (sweep b)) b
      | None => with_sweep (delete id (sweep b)) b
      end
  | OUnindex id => with_sweep (delete id (sweep b)) b
  | OSetBalance t v => bump Epoch t 1 (set_balance t v b)
  | OEnsure t v => match balances (memory b) !! t with Some _ => b | None => set_balance t v b end
  | OExpire id => forget id b
  end.

Section ops.
Context `{Numbers} (exec : command -> db -> reply * db) (p : string) (ttl : Z).

(** On the server. *)
Definition serve (o : op) (d : db) : db :=
  match o with
  | OReserve now id t a => (reserve_script exec p ttl now id t a d).2
  | OSettle t id u => (settle_script exec p t id u d).2
  | ORelease t id st => (release_script exec p t id st d).2
  | OUnindex id => (command_of exec (ZREM (sweepKey p) id) d).2
  | OSetBalance t v => (transaction exec (SET (balanceKey p t) (pretty v)) (INCR (epochKey p t)) d).2
  | OEnsure t v => (command_of exec (SETNX (balanceKey p t) (pretty v)) d).2
  | OExpire id => expire (leaseKey p id) d
  end.

(** What the callers keep to: fresh ids and non-negative amounts, the tenant
    of the lease, balances that leave room, counters that do not overflow. *)
Definition legal (o : op) (b : books) (d : db) : Prop :=
  let held := LedgerSpec.held (memory b) in
  match o with
  | OReserve now id t a =>
      leases (memory b) !! id = None /\ 0 <= a /\
      in_int64 (count Debited t b + a) /\ count Refunded t b + held t + a <= max_int64
  | OSettle t id u =>
      in_int64 u /\ Z.max u 0 < exact /\
      forall l, leases (memory b) !! id = Some l -> lstate (lease l) = LeaseStateReserved ->
        TenantID (lease l) = t /\ in_int64 (count Consumed t b + Z.max u 0)
  | ORelease t id st =>
      st <> LeaseStateReserved /\
      forall l, leases (memory b) !! id = Some l -> lstate (lease l) = LeaseStateReserved -> TenantID (lease l) = t
  | OUnindex id => leases (memory b) !! id = None
  | OSetBalance t v => 0 <= v /\ v + held t < exact /\ in_int64 (count Epoch t b + 1)
  | OEnsure t v => 0 <= v /\ v + held t < exact
  | OExpire id => leaseKey p id ∈ volatile d
  end.

Fixpoint served (os : list op) (d : db) : db :=
  match os with [] => d | o :: os => served os (serve o d) end.

Fixpoint booked (os : list op) (b : books) : books :=
  match os with [] => b | o :: os => booked os (book_step o b) end.

Fixpoint legal_run (os : list op) (b : books) (d : db) : Prop :=
  match os with [] => True | o :: os => legal o b d /\ legal_run os (book_step o b) (serve o d) end.
End ops.

(** The reconcile identity: balance plus debits minus refunds. *)
Definition identity (t : string) (b : books) : Z := balance_of (memory b) t + count Debited t b - count Refunded t b.
Definition owned (t : string) (b : books) : Z := balance_of (memory b) t + LedgerSpec.held (memory b) t.

(** Within an epoch a provisioned tenant keeps the identity, and loses at
    most what the counter of consumption shows. *)
Definition accounted (b b' : books) : Prop :=
  forall t, count Epoch t b <= count Epoch t b' /\ count Consumed t b <= count Consumed t b' /\
  (is_Some (balances (memory b) !! t) ->
   is_Some (balances (memory b') !! t) /\
   (count Epoch t b' = count Epoch t b ->
    identity t b' = identity t b /\ owned t b' <= owned t b /\
    owned t b - owned t b' <= count Consumed t b' - count Consumed t b)).
End RedisSpec.

Module RedisFacts.
Import Server Lua Ledger RedisLedger RedisSpec.

(** *** The keys of the ledger are apart *)
Lemma string_app_inj_l (p s t : string) : p +:+ s = p +:+ t -> s = t.
Proof. induction p as [|c p IH]; [done|]. intros [= E]. by apply IH. Qed.

Lemma key_of_inj (p : string) (s s' : slot) : key_of p s = key_of p s' -> s = s'.
Proof.
  destruct s as [t|id|[] t], s' as [t'|id'|[] t']; intros E%string_app_inj_l; try discriminate E;
    apply string_app_inj_l in E as ->; done.
Qed.

Lemma sweepKey_apart (p : string) (s : slot) : key_of p s <> sweepKey p.
Proof. destruct s as [t|id|[] t]; intros E%string_app_inj_l; discriminate E. Qed.

Lemma encode_state (l : memLease) (st : LeaseState) (at_ : Z) :
  set_fields [("state", state_text st)] (encode l) = encode (terminate st at_ l).
Proof.
  unfold set_fields, encode. cbn. apply map_eq. intros k. rewrite !lookup_insert, lookup_empty.
  by repeat case_decide; simplify_eq.
Qed.

Lemma encode_lookup (l : memLease) :
  encode l !! "tenant" = Some (TenantID (lease l)) /\ encode l !! "amount" = Some (pretty (Amount (lease l))) /\
  encode l !! "state" = Some (state_text (lstate (lease l))).
Proof. done. Qed.

Lemma state_text_reserved (s : LeaseState) : state_text s = "RESERVED" <-> s = LeaseStateReserved.
Proof. by destruct s. Qed.

Lemma terminate_state (st : LeaseState) (at_ : Z) (l : memLease) : lstate (lease (terminate st at_ l)) = st.
Proof. done. Qed.

(** *** Numbers *)
Section numbers.
Context `{NumberLaws}.

Lemma format_integer (q : Q) (z : Z) : (q == inject_Z z)%Q -> in_int64 z -> format_d q = pretty z.
Proof. intros Hq Hz. unfold format_d. by rewrite (long_exact q z). Qed.

Lemma arith_integer (z : Z) (d : db) : arith (tonumber (pretty z)) d = (inl (fof_int z), d).
Proof. by rewrite tonumber_integer. Qed.
End numbers.

Lemma exact_prec : exact = 2 ^ prec.
Proof. done. Qed.

Lemma fof_exact (z : Z) : Z.abs z <= exact -> (fof_int z == inject_Z z)%Q.
Proof. intros Hz. by apply fof_int_exact. Qed.

Lemma fof_large (z : Z) : exact <= z -> (inject_Z exact <= fof_int z)%Q.
Proof. intros Hz. rewrite <- (fof_exact exact) by done. by apply fof_int_mono. Qed.

Lemma lt_iff (x y : Q) : lt x y = true <-> (x < y)%Q.
Proof.
  unfold lt. rewrite negb_true_iff. split.
  - intros Hf. apply Qnot_le_lt. intros Hle. apply Qle_bool_iff in Hle. congruence.
  - intros Hlt. apply not_true_is_false. rewrite Qle_bool_iff. by apply Qlt_not_le.
Qed.

Lemma lt_integers (x y : Z) : Z.abs x < exact -> 0 <= y -> lt (fof_int x) (fof_int y) = bool_decide (x < y).
Proof.
  intros Hx Hy. apply eq_true_iff_eq. rewrite lt_iff, bool_decide_eq_true, fof_exact by lia.
  destruct (Z.le_gt_cases exact y) as [Hl|Hl].
  - split; [lia|]. intros _. apply Qlt_le_trans with (inject_Z exact); [rewrite <- Zlt_Qlt; lia|by apply fof_large].
  - rewrite (fof_exact y) by lia. by rewrite <- Zlt_Qlt.
Qed.

Lemma fsub_integers (x y : Z) :
  Z.abs x <= exact -> Z.abs y <= exact -> Z.abs (x - y) <= exact -> (fsub (fof_int x) (fof_int y) == inject_Z (x - y))%Q.
Proof.
  intros Hx Hy Hd. unfold fsub. rewrite (fof_exact x), (fof_exact y) by done.
  assert (inject_Z x - inject_Z y == inject_Z (x - y))%Q as -> by (unfold Qminus; by rewrite <- inject_Z_opp, <- inject_Z_plus).
  by apply rnd_int.
Qed.

Lemma clamped (u : Z) : (fmax (fof_int u) 0 == fof_int (Z.max u 0))%Q.
Proof.
  unfold fmax. destruct (Qle_bool (fof_int u) 0) eqn:E.
  - apply Qle_bool_iff in E. destruct (Z.le_gt_cases u 0) as [Hu|Hu]; [by rewrite Z.max_r by lia|].
    exfalso. assert (fof_int 1 <= fof_int u)%Q as H1 by (apply fof_int_mono; lia).
    apply (Qlt_not_le 0 1); [done|]. apply Qle_trans with (fof_int u); [exact H1|exact E].
  - rewrite Z.max_l; [done|]. destruct (Z.le_gt_cases u 0) as [Hu|Hu]; [|lia]. exfalso.
    assert (fof_int u <= fof_int 0)%Q as H1 by (apply fof_int_mono; lia).
    apply Qle_bool_iff in H1. change (fof_int 0) with 0%Q in H1. congruence.
Qed.

(** The refund of settle.lua: exact when positive. *)
Lemma refund_of (a u : Z) :
  0 <= a < exact ->
  let r := fsub (fof_int a) (fmax (fof_int u) 0) in
  lt 0 r = bool_decide (Z.max u 0 < a) /\ (Z.max u 0 < a -> (r == inject_Z (a - Z.max u 0))%Q).
Proof.
  intros Ha r. assert (r == fsub (fof_int a) (fof_int (Z.max u 0)))%Q as Hr.
  { unfold r, fsub. rewrite clamped. done. }
  assert (Z.max u 0 < a -> (r == inject_Z (a - Z.max u 0))%Q) as Hx.
  { intros Hu. rewrite Hr. apply fsub_integers; lia. }
  split; [|exact Hx]. apply eq_true_iff_eq. rewrite lt_iff, bool_decide_eq_true. split.
  - intros Hlt. apply Z.nle_gt. intros Hle. apply (Qlt_not_le _ _ Hlt). rewrite Hr. unfold fsub.
    apply Qle_trans with (rnd 0); [|done]. apply rnd_mono.
    assert (fof_int a <= fof_int (Z.max u 0))%Q as Hm by (apply fof_int_mono; lia). lra.
  - intros Hu. rewrite (Hx Hu). rewrite <- (Zlt_Qlt 0). lia.
Qed.

(** *** One command *)
Section commands.
Context {N : Numbers} {NL : NumberLaws} (exec : command -> db -> reply * db) {Doc : Documented exec} (p : string).
Implicit Types (b : books) (d : db).
Abbreviation Rep := (Rep p).

Lemma run_bind {A B} (m : script A) (k : A -> script B) d a d' : m d = (inl a, d') -> bind m k d = k a d'.
Proof. unfold bind. by intros ->. Qed.

Lemma run_call c d r d' : exec c d = (r, d') -> (forall e, r <> Err e) -> call exec c d = (inl r, d').
Proof. unfold call. intros ->. by destruct r as [| | | | |e]; [..|intros []%(fun H => H e eq_refl)]. Qed.

(** Leases that are over stay so from [b] to [b']. *)
Definition ended_kept b b' : Prop :=
  forall id l, leases (memory b) !! id = Some l -> lstate (lease l) <> LeaseStateReserved ->
  exists l', leases (memory b') !! id = Some l' /\ lstate (lease l') <> LeaseStateReserved.

Lemma rep_put b b' d s v (w : gset string) :
  Rep b d -> content b' s = Some v -> (forall s', s' <> s -> content b' s' = content b s') -> sweep b' = sweep b ->
  ended_kept b b' -> w ⊆ volatile d -> Rep b' (mkDb (<[key_of p s := v]> (keys d)) w).
Proof.
  intros [Hc Hs Hv] Hnew Hold Hsw Hend Hw. split; cbn [keys volatile].
  - intros s'. rewrite lookup_insert. case_decide as E.
    + apply key_of_inj in E as <-. by rewrite Hnew.
    + rewrite Hc. symmetry. apply Hold. by intros ->.
  - unfold zset_at in *. cbn [keys]. rewrite Hsw, lookup_insert_ne by apply sweepKey_apart. exact Hs.
  - intros k Hk. destruct (Hv k (Hw k Hk)) as (id & l & -> & Hl & Ht). destruct (Hend id l Hl Ht) as (l' & Hl' & Ht').
    by exists id, l'.
Qed.

Lemma ended_same b b' : leases (memory b') = leases (memory b) -> ended_kept b b'.
Proof. intros E id l Hl Ht. exists l. by rewrite E. Qed.

Lemma ended_put b id l :
  (forall l0, leases (memory b) !! id = Some l0 -> lstate (lease l0) <> LeaseStateReserved ->
   lstate (lease l) <> LeaseStateReserved) -> ended_kept b (set_lease id l b).
Proof.
  intros H id' l' Hl Ht. destruct (decide (id' = id)) as [->|Hne].
  - exists l. split; [apply lookup_insert_eq|by apply (H l')].
  - exists l'. split; [|done]. cbn. by rewrite lookup_insert_ne.
Qed.

Lemma call_get_balance b d t :
  Rep b d -> call exec (GET (balanceKey p t)) d = (inl (bulk (pretty <$> balances (memory b) !! t)), d).
Proof.
  intros HR. pose proof (rep_content p b d HR (SBalance t)) as Hk. cbn in Hk.
  destruct (balances (memory b) !! t) as [v|]; cbn in *.
  - apply run_call; [apply doc_get_some; exact Hk|done].
  - apply run_call; [apply doc_get_none; exact Hk|done].
Qed.

Lemma set_balance_rep b d t v (w : gset string) :
  Rep b d -> w ⊆ volatile d -> Rep (set_balance t v b) (mkDb (<[balanceKey p t := VString (pretty v)]> (keys d)) w).
Proof.
  intros HR Hw. apply (rep_put b _ d (SBalance t)); try done.
  - cbn. by rewrite lookup_insert_eq.
  - intros [u|id|c u] Hne; cbn; [|done..]. rewrite lookup_insert_ne; [done|congruence].
  - by apply ended_same.
Qed.

Lemma call_set_balance b d t v :
  Rep b d -> exists d', call exec (SET (balanceKey p t) (pretty v)) d = (inl Status, d') /\ Rep (set_balance t v b) d'.
Proof.
  intros HR. eexists. split; [apply run_call; [apply doc_set|done]|]. apply set_balance_rep; [done|set_solver].
Qed.

Lemma call_incr_balance b d t n :
  Rep b d -> in_int64 n -> in_int64 (balance_of (memory b) t) -> in_int64 (balance_of (memory b) t + n) ->
  exists r d', call exec (INCRBY (balanceKey p t) (pretty n)) d = (inl r, d') /\
    Rep (set_balance t (balance_of (memory b) t + n) b) d'.
Proof.
  intros HR Hn Hb Hs. do 2 eexists. split.
  - apply run_call; [apply (doc_incrby _ n (balance_of (memory b) t)); [done..| |done]|done].
    pose proof (rep_content p b d HR (SBalance t)) as Hk. cbn in Hk. unfold counter_at, balance_of.
    destruct (balances (memory b) !! t); [by right|by left].
  - by apply set_balance_rep.
Qed.

(** A counter moves, or the command fails and nothing does. *)
Lemma call_bump b d c t n :
  Rep b d -> in_int64 n -> in_int64 (count c t b) ->
  (in_int64 (count c t b + n) /\
   exists r d', call exec (INCRBY (key_of p (SCounter c t)) (pretty n)) d = (inl r, d') /\ Rep (bump c t n b) d') \/
  (~ in_int64 (count c t b + n) /\ exists e, call exec (INCRBY (key_of p (SCounter c t)) (pretty n)) d = (inr e, d)).
Proof.
  intros HR Hn Hc. assert (counter_at d (key_of p (SCounter c t)) (count c t b)) as Hat.
  { pose proof (rep_content p b d HR (SCounter c t)) as Hk. unfold counter_at, count. cbn [content] in Hk.
    destruct (counters b c !! t); cbn in *; [by right|by left]. }
  destruct (decide (in_int64 (count c t b + n))) as [Hs|Hs]; [left|right]; (split; [done|]).
  - do 2 eexists. split; [apply run_call; [exact (doc_incrby _ n (count c t b) d Hn Hc Hat Hs)|done]|]. apply (rep_put b _ d (SCounter c t)); try done.
    + cbn. by rewrite decide_True, lookup_insert_eq.
    + intros [u|id|c' u] Hne; cbn; [done..|]. case_decide as E; [subst c'|done].
      rewrite lookup_insert_ne; [done|congruence].
    + by apply ended_same.
  - destruct (doc_incrby_over (key_of p (SCounter c t)) n (count c t b) d) as [e He]; try done. exists e. unfold call. by rewrite He.
Qed.

Lemma hash_of_lease b d id :
  Rep b d -> hash_at d (leaseKey p id) (default ∅ (encode <$> leases (memory b) !! id)).
Proof.
  intros HR. pose proof (rep_content p b d HR (SLease id)) as Hk. cbn in Hk. unfold hash_at.
  destruct (leases (memory b) !! id); [by right|by left].
Qed.

Lemma call_hget b d id f :
  Rep b d ->
  call exec (HGET (leaseKey p id) f) d = (inl (bulk (default ∅ (encode <$> leases (memory b) !! id) !! f)), d).
Proof.
  intros HR. apply run_call; [apply doc_hget; by apply hash_of_lease|]. by destruct (_ !! f).
Qed.

Lemma call_hset b d id fields l :
  Rep b d -> fields <> [] -> set_fields fields (default ∅ (encode <$> leases (memory b) !! id)) = encode l ->
  (forall l0, leases (memory b) !! id = Some l0 -> lstate (lease l0) <> LeaseStateReserved ->
   lstate (lease l) <> LeaseStateReserved) ->
  exists r d', call exec (HSET (leaseKey p id) fields) d = (inl r, d') /\ Rep (set_lease id l b) d'.
Proof.
  intros HR Hf He Hend. destruct (doc_hset (leaseKey p id) fields _ d (hash_of_lease b d id HR) Hf) as [n Hn].
  do 2 eexists. split; [apply run_call; [exact Hn|done]|]. rewrite He. apply (rep_put b _ d (SLease id)); try done.
  - cbn. by rewrite lookup_insert_eq.
  - intros [u|id'|c u] Hne; cbn; [done| |done]. rewrite lookup_insert_ne; [done|congruence].
  - by apply ended_put.
Qed.

Lemma rep_sweep_put b d z :
  Rep b d -> Rep (with_sweep z b) (put (sweepKey p) (VZSet z) d).
Proof.
  intros [Hc Hs Hv]. split; cbn [keys volatile put with_sweep sweep memory].
  - intros s. rewrite lookup_insert_ne by (intros E; by apply (sweepKey_apart p s)). apply Hc.
  - right. cbn. apply lookup_insert_eq.
  - exact Hv.
Qed.

Lemma rep_sweep_drop b d z : Rep b d -> Rep (with_sweep z b) (put_zset (sweepKey p) z d).
Proof.
  intros HR. unfold put_zset. case_decide as Hz; [|by apply rep_sweep_put]. destruct HR as [Hc Hs Hv].
  split; cbn [keys volatile drop with_sweep sweep memory].
  - intros s. rewrite lookup_delete_ne by (intros E; by apply (sweepKey_apart p s)). apply Hc.
  - left. split; [apply lookup_delete_eq|done].
  - intros k Hk. apply Hv. set_solver.
Qed.

Lemma call_zadd b d score id :
  Rep b d -> exists r d', call exec (ZADD (sweepKey p) score id) d = (inl r, d') /\ Rep (with_sweep (<[id := score]> (sweep b)) b) d'.
Proof.
  intros HR. destruct (doc_zadd (sweepKey p) score id (sweep b) d (rep_sweep p b d HR)) as [n Hn].
  do 2 eexists. split; [apply run_call; [exact Hn|done]|]. by apply rep_sweep_put.
Qed.

Lemma call_zrem b d id :
  Rep b d -> exists r d', call exec (ZREM (sweepKey p) id) d = (inl r, d') /\ Rep (with_sweep (delete id (sweep b)) b) d'.
Proof.
  intros HR. destruct (doc_zrem (sweepKey p) id (sweep b) d (rep_sweep p b d HR)) as [n Hn].
  do 2 eexists. split; [apply run_call; [exact Hn|done]|]. by apply rep_sweep_drop.
Qed.

Lemma call_pexpire b d id l ms :
  Rep b d -> leases (memory b) !! id = Some l -> lstate (lease l) <> LeaseStateReserved -> (0 < ms)%Q ->
  exists r d', call exec (PEXPIRE (leaseKey p id) ms) d = (inl r, d') /\ Rep b d'.
Proof.
  intros HR Hl Ht Hms. pose proof (rep_content p b d HR (SLease id)) as Hk. cbn in Hk. rewrite Hl in Hk. cbn in Hk.
  destruct (doc_pexpire (leaseKey p id) _ ms d Hk Hms) as [n Hn].
  do 2 eexists. split; [apply run_call; [exact Hn|done]|]. destruct HR as [Hc Hs Hv]. split; cbn [keys volatile]; [done|exact Hs|].
  intros k [->%elem_of_singleton|Hin]%elem_of_union; [by exists id, l|by apply Hv].
Qed.

(** *** The scripts *)
Lemma sound_balance b t : sound b -> 0 <= balance_of (memory b) t < exact.
Proof.
  intros Hs. pose proof (LedgerSpec.lw_balance _ (so_wf b Hs) t). pose proof (so_exact b Hs t).
  pose proof (LedgerFacts.held_nonneg _ t (so_wf b Hs)). lia.
Qed.

(** A live lease and the balance it came from stay below [exact] together. *)
Lemma sound_live b id l :
  sound b -> leases (memory b) !! id = Some l -> lstate (lease l) = LeaseStateReserved ->
  0 <= Amount (lease l) /\ balance_of (memory b) (TenantID (lease l)) + Amount (lease l) < exact.
Proof.
  intros Hs Hl Hr. pose proof (LedgerSpec.lw_amount _ (so_wf b Hs) id l Hl).
  pose proof (LedgerFacts.held_ge _ (TenantID (lease l)) id l (so_wf b Hs) Hl) as Hge.
  rewrite LedgerFacts.hold_reserved, decide_True in Hge by done. pose proof (so_exact b Hs (TenantID (lease l))). lia.
Qed.

Lemma small_int64 (z : Z) : Z.abs z <= exact -> in_int64 z.
Proof. unfold exact, in_int64, min_int64, max_int64. lia. Qed.

Lemma reserve_refuses ttl now id t a b d e :
  Rep b d -> sound b -> 0 <= a -> (Ledger.Reserve now id t a (memory b)).1 = inr e ->
  exists bal, reserve_script exec p ttl now id t a d = (inl (0, bal), d) /\
    (if bal =? neverProvisioned then ErrUnknownTenant else ErrInsufficientBalance) = e.
Proof.
  intros HR Hs Ha Hres. pose proof (sound_balance b t Hs) as Hb. unfold balance_of in Hb. revert Hres.
  unfold reserve_script, Scripts.reserve, Ledger.Reserve. rewrite (run_bind _ _ _ _ _ (call_get_balance b d t HR)).
  destruct (balances (memory b) !! t) as [v|]; cbn [fmap option_fmap option_map bulk to_number from_option] in *; unfold Datatypes.id in *.
  - case_decide as Hlt; [|done]. intros [= <-]. rewrite (tonumber_integer v).
    rewrite (run_bind _ _ _ _ _ (arith_integer a d)), lt_integers, bool_decide_true by lia.
    exists v. unfold ret. rewrite (long_exact _ v) by (first [apply fof_exact; lia|apply small_int64; lia]).
    split; [done|]. destruct (Z.eqb_spec v neverProvisioned); [unfold neverProvisioned in *; lia|done].
  - intros [= <-]. by exists (-1).
Qed.

Lemma reserve_grants ttl now id t a b d l m' :
  Rep b d -> sound b -> 0 <= a -> leases (memory b) !! id = None ->
  Ledger.Reserve now id t a (memory b) = (inl l, m') ->
  exists r d', reserve_script exec p ttl now id t a d = (r, d') /\
    if decide (in_int64 (count Debited t b + a))
    then r = inl (1, balance_of (memory b) t - a) /\ Rep (granted ttl now id t a b) d'
    else (exists e, r = inr e) /\ Rep (set_balance t (balance_of (memory b) t - a) b) d'.
Proof.
  intros HR Hs Ha Hid Hres. pose proof (sound_balance b t Hs) as Hb. revert Hres.
  unfold reserve_script, Scripts.reserve, Ledger.Reserve. rewrite (run_bind _ _ _ _ _ (call_get_balance b d t HR)).
  assert (Hbal : forall v, balances (memory b) !! t = Some v -> balance_of (memory b) t = v) by (intros v Hv; unfold balance_of; by rewrite Hv).
  destruct (balances (memory b) !! t) as [v|] eqn:Hv; [|done]. pose proof (Hbal v eq_refl) as Hbv. rewrite Hbv in Hb |- *. clear Hbal.
  cbn [fmap option_fmap option_map bulk to_number]. case_decide as Hlt; [done|]. intros _.
  assert (in_int64 a) as Hi by (apply small_int64; lia).
  rewrite (tonumber_integer v).
  rewrite (run_bind _ _ _ _ _ (arith_integer a d)), lt_integers by lia. rewrite bool_decide_false by lia.
  assert (fsub (fof_int v) (fof_int a) == inject_Z (v - a))%Q as Hsub by (apply fsub_integers; lia).
  rewrite (format_integer _ (v - a) Hsub) by (apply small_int64; lia).
  rewrite (format_integer _ a) by (done || (apply fof_exact; lia)).
  destruct (call_set_balance b d t (v - a) HR) as (d1 & E & R1). rewrite (run_bind _ _ _ _ _ E). clear E.
  pose proof (call_bump _ d1 Debited t a R1 Hi (so_counters b Hs Debited t)) as Hbump.
  change (count Debited t (set_balance t (v - a) b)) with (count Debited t b) in Hbump.
  destruct Hbump as [(Hin & r & d2 & E & R2)|(Hin & e & E)].
  2:{ exists (inr e), d1. unfold bind. cbn [key_of] in E. rewrite E, decide_False by done. split; [done|]. split; [by exists e|done]. }
  cbn [key_of] in E. rewrite (run_bind _ _ _ _ _ E). clear E.
  destruct (call_hset _ d2 id [("tenant", t); ("amount", pretty a); ("state", "RESERVED"); ("created", pretty (UnixMilli now))]
    (new_lease now id t a) R2) as (r3 & d3 & E & R3); [done|cbn; by rewrite Hid|cbn; by rewrite Hid|].
  rewrite (run_bind _ _ _ _ _ E). clear E.
  rewrite (run_bind _ _ _ _ _ (arith_integer (UnixMilli now) d3)).
  rewrite (run_bind _ _ _ _ _ (arith_integer (Milliseconds ttl) d3)).
  destruct (call_zadd _ d3 (deadline (new_lease now id t a) ttl) id R3) as (r4 & d4 & E & R4).
  change (fadd (fof_int (UnixMilli now)) (fof_int (Milliseconds ttl))) with (deadline (new_lease now id t a) ttl).
  rewrite (run_bind _ _ _ _ _ E). clear E. exists (inl (1, v - a)), d4. unfold ret.
  rewrite (long_exact _ (v - a) Hsub) by (apply small_int64; lia). rewrite decide_True by done. split; [done|]. split; [done|].
  unfold granted. rewrite Hbv. exact R4.
Qed.

(** What holds after a script whether it returns or raises. *)
Definition keeps (P : db -> Prop) {A} (m : script A) : Prop := forall d, P d -> P (m d).2.

Lemma keeps_bind (P : db -> Prop) {A B} (m : script A) (k : A -> script B) :
  keeps P m -> (forall a, keeps P (k a)) -> keeps P (bind m k).
Proof.
  intros Hm Hk d Hd. specialize (Hm d Hd). unfold bind. destruct (m d) as [[a|e] d']; [by apply Hk|exact Hm].
Qed.

Lemma keeps_ret (P : db -> Prop) {A} (a : A) : keeps P (ret a).
Proof. by intros d Hd. Qed.

Lemma keeps_arith (P : db -> Prop) (q : option Q) : keeps P (arith q).
Proof. intros d Hd. by destruct q. Qed.

(** The database stands for some books over the ledger [m]. *)
Definition stands (m : Memory) d : Prop := exists b, Rep b d /\ memory b = m /\ forall c t, in_int64 (count c t b).

Lemma count_bump c t n c' t' b :
  count c' t' (bump c t n b) = count c' t' b + if decide (c' = c /\ t' = t) then n else 0.
Proof.
  unfold count at 1. cbn [bump counters]. case_decide as Hc; subst.
  - rewrite lookup_insert. repeat case_decide; subst; cbn; try (unfold count; lia); naive_solver.
  - rewrite decide_False by naive_solver. unfold count. lia.
Qed.

Lemma keeps_bump (m : Memory) c t n : in_int64 n -> keeps (stands m) (call exec (INCRBY (key_of p (SCounter c t)) (pretty n))).
Proof.
  intros Hn d (b & HR & Hm & Hc). destruct (call_bump b d c t n HR Hn (Hc c t)) as [(Hin & r & d' & -> & HR')|(_ & e & ->)].
  - exists (bump c t n b). split_and!; [done|done|]. intros c' t'. rewrite count_bump.
    case_decide as Heq; [destruct Heq as [-> ->]; exact Hin|rewrite Z.add_0_r; apply Hc].
  - by exists b.
Qed.

Lemma keeps_zrem (m : Memory) id : keeps (stands m) (call exec (ZREM (sweepKey p) id)).
Proof.
  intros d (b & HR & Hm & Hc). destruct (call_zrem b d id HR) as (r & d' & -> & HR').
  by exists (with_sweep (delete id (sweep b)) b).
Qed.

Lemma keeps_pexpire (m : Memory) id l ms :
  leases m !! id = Some l -> lstate (lease l) <> LeaseStateReserved -> (0 < ms)%Q ->
  keeps (stands m) (call exec (PEXPIRE (leaseKey p id) ms)).
Proof.
  intros Hl Ht Hms d (b & HR & <- & Hc). destruct (call_pexpire b d id l ms HR Hl Ht Hms) as (r & d' & -> & HR').
  by exists b.
Qed.

Lemma given_back_counts (st : LeaseState) (at_ r : Z) (id : string) (l : memLease) b c t :
  count c t (given_back st at_ r id l b) = count c t b.
Proof. unfold given_back. by case_decide. Qed.

(** The terminal transition of the ledger, as the scripts write it. *)
Lemma call_end b d (st : LeaseState) (at_ : Z) id l :
  Rep b d -> leases (memory b) !! id = Some l -> st <> LeaseStateReserved ->
  exists r d', call exec (HSET (leaseKey p id) [("state", state_text st)]) d = (inl r, d') /\
    Rep (set_lease id (terminate st at_ l) b) d'.
Proof.
  intros HR Hl Hst. apply call_hset; [done|done| |by intros]. rewrite Hl. cbn [fmap option_fmap option_map default from_option].
  apply encode_state.
Qed.

Lemma auditTTL_number d : exists q : Q, arith (tonumber (pretty (Milliseconds leaseAuditTTL))) d = (inl q, d) /\ (0 < q)%Q.
Proof.
  exists (fof_int (Milliseconds leaseAuditTTL)). split; [apply arith_integer|]. by vm_compute.
Qed.

(** What settle.lua does past the lease record. *)
Definition settle_rest (used refund : Q) t id : script (Z * Scripts.settled) :=
  bind (call exec (INCRBY (consumedKey p t) (format_d used))) (fun _ =>
  bind (if lt 0 refund then bind (call exec (INCRBY (refundedKey p t) (format_d refund))) (fun _ => ret tt) else ret tt) (fun _ =>
  bind (arith (tonumber (pretty (Milliseconds leaseAuditTTL)))) (fun ttl =>
  bind (call exec (PEXPIRE (leaseKey p id) ttl)) (fun _ =>
  bind (call exec (ZREM (sweepKey p) id)) (fun _ => ret (1, Scripts.Moved (long_of (fmax refund 0)))))))).

Lemma settle_begins (at_ u : Z) id l b d :
  Rep b d -> sound b -> in_int64 u -> leases (memory b) !! id = Some l -> lstate (lease l) = LeaseStateReserved ->
  let used := fmax (fof_int u) 0 in
  exists d', settle_script exec p (TenantID (lease l)) id u d =
    settle_rest used (fsub (fof_int (Amount (lease l))) used) (TenantID (lease l)) id d' /\
    Rep (given_back LeaseStateSettled at_ (Amount (lease l) - Z.max u 0) id l b) d'.
Proof.
  intros HR Hs Hu Hl Hr used. destruct (sound_live b id l Hs Hl Hr) as [Ha Hb].
  pose proof (sound_balance b (TenantID (lease l)) Hs) as Hb0.
  unfold settle_script, Scripts.settle. rewrite (run_bind _ _ _ _ _ (call_hget b d id "state" HR)), Hl.
  cbn [fmap option_fmap option_map default from_option]. destruct (encode_lookup l) as (_ & Ham & Hst).
  unfold Datatypes.id at 1. rewrite Hst, Hr. cbn [bulk state_text].
  rewrite (run_bind _ _ _ _ _ (call_hget b d id "amount" HR)), Hl. cbn [fmap option_fmap option_map default from_option].
  unfold Datatypes.id at 1. rewrite Ham. cbn [bulk to_number].
  rewrite (run_bind _ _ _ _ _ (arith_integer (Amount (lease l)) d)).
  rewrite (run_bind _ _ _ _ _ (arith_integer u d)). fold used.
  destruct (refund_of (Amount (lease l)) u ltac:(lia)) as [Hlt Hx]. fold used in Hlt, Hx.
  set (refund := fsub (fof_int (Amount (lease l))) used) in *. unfold given_back, settle_rest. rewrite Hlt.
  case_bool_decide as Hd; [rewrite decide_True by lia|rewrite decide_False by lia].
  - rewrite (format_integer refund _ (Hx Hd)) by (apply small_int64; lia).
    destruct (call_incr_balance b d (TenantID (lease l)) (Amount (lease l) - Z.max u 0) HR) as (r1 & d1 & E & R1);
      [apply small_int64; lia..|].
    rewrite (run_bind _ _ d tt d1) by (rewrite (run_bind _ _ _ _ _ E); done).
    destruct (call_end _ d1 LeaseStateSettled at_ id l R1 Hl) as (r2 & d2 & E2 & R2); [done|].
    cbn [state_text] in E2. rewrite (run_bind _ _ _ _ _ E2). by exists d2.
  - rewrite (run_bind _ _ d tt d) by done.
    destruct (call_end _ d LeaseStateSettled at_ id l HR Hl) as (r2 & d2 & E2 & R2); [done|].
    cbn [state_text] in E2. rewrite (run_bind _ _ _ _ _ E2). by exists d2.
Qed.

Lemma settle_rest_keeps (used refund : Q) t id l m :
  leases m !! id = Some l -> lstate (lease l) <> LeaseStateReserved -> keeps (stands m) (settle_rest used refund t id).
Proof.
  intros Hl Ht. unfold settle_rest, format_d. apply keeps_bind; [apply (keeps_bump m Consumed), long_range|intros _].
  apply keeps_bind; [|intros _].
  { destruct (lt 0 refund); [|apply keeps_ret]. apply keeps_bind; [apply (keeps_bump m Refunded), long_range|intros _; apply keeps_ret]. }
  intros d Hd. destruct (auditTTL_number d) as (q & E & Hq). rewrite (run_bind _ _ _ _ _ E).
  revert d Hd E. intros d Hd _. revert d Hd. apply keeps_bind; [by apply (keeps_pexpire m id l)|intros _].
  apply keeps_bind; [apply keeps_zrem|intros _; apply keeps_ret].
Qed.

(** The counters have room for a settlement of [used] that gives back [r]. *)
Definition room (t : string) (used r : Z) b : Prop :=
  0 <= used < exact /\ in_int64 (count Consumed t b + used) /\ in_int64 (count Refunded t b + Z.max 0 r).

Lemma settle_runs (at_ u : Z) id l b d :
  Rep b d -> sound b -> in_int64 u -> leases (memory b) !! id = Some l -> lstate (lease l) = LeaseStateReserved ->
  room (TenantID (lease l)) (Z.max u 0) (Amount (lease l) - Z.max u 0) b ->
  exists a d', settle_script exec p (TenantID (lease l)) id u d = (inl a, d') /\ Rep (settled_books at_ u id l b) d'.
Proof.
  intros HR Hs Hu Hl Hr (Hused & Hc & Hf). destruct (sound_live b id l Hs Hl Hr) as [Ha Hb].
  pose proof (sound_balance b (TenantID (lease l)) Hs) as Hb0.
  destruct (settle_begins at_ u id l b d HR Hs Hu Hl Hr) as (d1 & -> & R1).
  destruct (refund_of (Amount (lease l)) u ltac:(lia)) as [Hlt Hx].
  set (refund := fsub (fof_int (Amount (lease l))) (fmax (fof_int u) 0)) in *.
  unfold settle_rest, settled_books. set (t := TenantID (lease l)) in *. rewrite Hlt.
  rewrite (format_integer _ (Z.max u 0)) by (first [rewrite clamped; apply fof_exact; lia|apply small_int64; lia]).
  destruct (call_bump _ d1 Consumed t (Z.max u 0) R1) as [(_ & r2 & d2 & E & R2)|[Hno _]];
    [apply small_int64; lia|rewrite given_back_counts; apply (so_counters b Hs)| |by rewrite given_back_counts in Hno].
  cbn [key_of] in E. rewrite (run_bind _ _ _ _ _ E). clear E.
  set (b2 := bump Consumed t (Z.max u 0) _) in *.
  assert (exists d3, (if bool_decide (Z.max u 0 < Amount (lease l))
      then bind (call exec (INCRBY (refundedKey p t) (format_d refund))) (fun _ => ret tt) else ret tt) d2 = (inl tt, d3) /\
    Rep (if decide (0 < Amount (lease l) - Z.max u 0) then bump Refunded t (Amount (lease l) - Z.max u 0) b2 else b2) d3)
    as (d3 & E & R3).
  { case_bool_decide as Hd; [rewrite decide_True by lia|rewrite decide_False by lia; by exists d2].
    rewrite (format_integer refund _ (Hx Hd)) by (apply small_int64; lia).
    destruct (call_bump b2 d2 Refunded t (Amount (lease l) - Z.max u 0) R2) as [(_ & r3 & d3 & E & R3)|[Hno _]].
    - apply small_int64; lia.
    - unfold b2. rewrite count_bump, decide_False, given_back_counts, Z.add_0_r by (by intros [? _]). apply (so_counters b Hs).
    - cbn [key_of] in E. exists d3. by rewrite (run_bind _ _ _ _ _ E).
    - exfalso. apply Hno. unfold b2. rewrite count_bump, decide_False, given_back_counts, Z.add_0_r by (by intros [? _]).
      by rewrite Z.max_r in Hf by lia. }
  rewrite (run_bind _ _ _ _ _ E). clear E. destruct (auditTTL_number d3) as (q & E & Hq). rewrite (run_bind _ _ _ _ _ E). clear E.
  set (b3 := if decide _ then _ else _) in *.
  assert (leases (memory b3) !! id = Some (terminate LeaseStateSettled at_ l)) as Hl3.
  { unfold b3, b2, given_back. repeat case_decide; cbn; apply lookup_insert_eq. }
  destruct (call_pexpire b3 d3 id _ q R3 Hl3) as (r4 & d4 & E & R4); [done|done|]. rewrite (run_bind _ _ _ _ _ E). clear E.
  destruct (call_zrem b3 d4 id R4) as (r5 & d5 & E & R5). rewrite (run_bind _ _ _ _ _ E). clear E.
  do 2 eexists. split; [done|exact R5].
Qed.

(** A lease that is over, or unknown, stays. *)
Lemma settle_stands t (u : Z) id b d :
  Rep b d -> (forall l, leases (memory b) !! id = Some l -> lstate (lease l) <> LeaseStateReserved) ->
  exists a, settle_script exec p t id u d = (inl (0, a), d).
Proof.
  intros HR Ht. unfold settle_script, Scripts.settle. rewrite (run_bind _ _ _ _ _ (call_hget b d id "state" HR)).
  destruct (leases (memory b) !! id) as [l|]; cbn [fmap option_fmap option_map default from_option].
  - unfold Datatypes.id at 1. destruct (encode_lookup l) as (_ & _ & ->). specialize (Ht l eq_refl). cbn [bulk].
    destruct (lstate (lease l)); [done|by eexists..].
  - simpl. rewrite lookup_empty. by eexists.
Qed.

Definition release_rest t id (amount : Q) : script Z :=
  bind (call exec (INCRBY (refundedKey p t) (format_d amount))) (fun _ =>
  bind (arith (tonumber (pretty (Milliseconds leaseAuditTTL)))) (fun ttl =>
  bind (call exec (PEXPIRE (leaseKey p id) ttl)) (fun _ => ret 1))).

Lemma release_begins (st : LeaseState) (at_ : Z) id l b d :
  Rep b d -> sound b -> st <> LeaseStateReserved -> leases (memory b) !! id = Some l -> lstate (lease l) = LeaseStateReserved ->
  exists d', release_script exec p (TenantID (lease l)) id st d =
    release_rest (TenantID (lease l)) id (fof_int (Amount (lease l))) d' /\ Rep (refunded_all st at_ id l b) d'.
Proof.
  intros HR Hs Hst Hl Hr. destruct (sound_live b id l Hs Hl Hr) as [Ha Hb].
  pose proof (sound_balance b (TenantID (lease l)) Hs) as Hb0. destruct (encode_lookup l) as (_ & Ham & Hst').
  unfold release_script, Scripts.release. rewrite (run_bind _ _ _ _ _ (call_hget b d id "state" HR)), Hl.
  destruct (call_zrem b d id HR) as (r1 & d1 & E & R1). rewrite (run_bind _ _ _ _ _ E). clear E.
  simpl. rewrite Hst', Hr. cbn [bulk state_text].
  rewrite (run_bind _ _ _ _ _ (call_hget _ d1 id "amount" R1)). cbn [with_sweep memory]. rewrite Hl. simpl. rewrite Ham. cbn [bulk to_number].
  rewrite (run_bind _ _ _ _ _ (arith_integer (Amount (lease l)) d1)).
  rewrite (format_integer (fof_int (Amount (lease l))) (Amount (lease l))) by (first [apply fof_exact; lia|apply small_int64; lia]).
  destruct (call_incr_balance _ d1 (TenantID (lease l)) (Amount (lease l)) R1) as (r2 & d2 & E & R2);
    [apply small_int64; cbn; lia..|]. rewrite (run_bind _ _ _ _ _ E). clear E.
  destruct (call_end _ d2 st at_ id l R2 Hl Hst) as (r3 & d3 & E & R3). rewrite (run_bind _ _ _ _ _ E). clear E.
  exists d3. split; [|exact R3]. unfold release_rest.
  by rewrite (format_integer (fof_int (Amount (lease l))) (Amount (lease l))) by (first [apply fof_exact; lia|apply small_int64; lia]).
Qed.

Lemma release_rest_keeps t id (amount : Q) l m :
  leases m !! id = Some l -> lstate (lease l) <> LeaseStateReserved -> keeps (stands m) (release_rest t id amount).
Proof.
  intros Hl Ht. unfold release_rest, format_d. apply keeps_bind; [apply (keeps_bump m Refunded), long_range|intros _].
  intros d Hd. destruct (auditTTL_number d) as (q & E & Hq). rewrite (run_bind _ _ _ _ _ E). clear E. revert d Hd.
  apply keeps_bind; [by apply (keeps_pexpire m id l)|intros _; apply keeps_ret].
Qed.

Lemma release_runs (st : LeaseState) (at_ : Z) id l b d :
  Rep b d -> sound b -> st <> LeaseStateReserved -> leases (memory b) !! id = Some l -> lstate (lease l) = LeaseStateReserved ->
  in_int64 (count Refunded (TenantID (lease l)) b + Amount (lease l)) ->
  exists d', release_script exec p (TenantID (lease l)) id st d = (inl 1, d') /\ Rep (released_books st at_ id l b) d'.
Proof.
  intros HR Hs Hst Hl Hr Hc. destruct (sound_live b id l Hs Hl Hr) as [Ha Hb].
  pose proof (sound_balance b (TenantID (lease l)) Hs) as Hb0.
  destruct (release_begins st at_ id l b d HR Hs Hst Hl Hr) as (d1 & -> & R1). unfold release_rest.
  rewrite (format_integer (fof_int (Amount (lease l))) (Amount (lease l))) by (first [apply fof_exact; lia|apply small_int64; lia]).
  destruct (call_bump _ d1 Refunded (TenantID (lease l)) (Amount (lease l)) R1) as [(_ & r2 & d2 & E & R2)|[Hno _]];
    [apply small_int64; lia|apply (so_counters b Hs)| |by destruct Hno].
  cbn [key_of] in E. rewrite (run_bind _ _ _ _ _ E). clear E.
  destruct (auditTTL_number d2) as (q & E & Hq). rewrite (run_bind _ _ _ _ _ E). clear E.
  destruct (call_pexpire _ d2 id (terminate st at_ l) q R2) as (r3 & d3 & E & R3); [cbn; apply lookup_insert_eq|done|done|].
  rewrite (run_bind _ _ _ _ _ E). by exists d3.
Qed.

(** A lease that is over, or unknown, leaves the index. *)
Lemma release_stands t (st : LeaseState) id b d :
  Rep b d -> (forall l, leases (memory b) !! id = Some l -> lstate (lease l) <> LeaseStateReserved) ->
  exists d', release_script exec p t id st d = (inl 0, d') /\ Rep (with_sweep (delete id (sweep b)) b) d'.
Proof.
  intros HR Ht. unfold release_script, Scripts.release. rewrite (run_bind _ _ _ _ _ (call_hget b d id "state" HR)).
  destruct (call_zrem b d id HR) as (r1 & d1 & E & R1). rewrite (run_bind _ _ _ _ _ E). clear E. exists d1.
  destruct (leases (memory b) !! id) as [l|].
  - simpl. destruct (encode_lookup l) as (_ & _ & ->). specialize (Ht l eq_refl). cbn [bulk]. by destruct (lstate (lease l)).
  - simpl. by rewrite lookup_empty.
Qed.

(** *** One step of the server is one step of the books *)
Lemma command_of_call c : command_of exec c = call exec c.
Proof. done. Qed.

Lemma serve_set t v b d :
  Rep b d -> in_int64 (count Epoch t b) -> in_int64 (count Epoch t b + 1) ->
  transaction exec (SET (balanceKey p t) (pretty v)) (INCR (epochKey p t)) d =
    (inl tt, (transaction exec (SET (balanceKey p t) (pretty v)) (INCR (epochKey p t)) d).2) /\
  Rep (book_step (OSetBalance t v) b) (transaction exec (SET (balanceKey p t) (pretty v)) (INCR (epochKey p t)) d).2.
Proof.
  intros HR Hc Hin. unfold transaction. destruct (call_set_balance b d t v HR) as (d1 & E & R1).
  unfold call in E. destruct (exec (SET _ _) d) as [r1 d1']. destruct r1; simplify_eq/=.
  rewrite doc_incr. destruct (call_bump _ d1 Epoch t 1 R1) as [(_ & r2 & d2 & E2 & R2)|[Hno _]]; [done|exact Hc| |by destruct Hno].
  unfold call in E2. cbn [key_of] in E2. change (pretty 1) with "1" in E2.
  destruct (exec (INCRBY (epochKey p t) "1") d1) as [r d']. destruct r; simplify_eq/=; by split.
Qed.

Lemma serve_books (o : op) b d :
  Rep b d -> sound b -> legal p o b d -> Rep (book_step o b) (serve exec p (leaseTTL (memory b)) o d).
Proof.
  intros HR Hs Hleg. destruct o as [now id t a|t id u|t id st|id|t v|t v|id]; cbn [legal book_step serve] in *.
  - destruct Hleg as (Hid & Ha & Hd & Hf). destruct (Ledger.Reserve now id t a (memory b)) as [[l|e] m'] eqn:Hres; cbn [fst].
    + destruct (reserve_grants (leaseTTL (memory b)) now id t a b d l m' HR Hs Ha Hid Hres) as (r & d' & -> & H).
      rewrite decide_True in H by done. apply H.
    + destruct (reserve_refuses (leaseTTL (memory b)) now id t a b d e HR Hs Ha) as (bal & -> & _); [by rewrite Hres|done].
  - destruct Hleg as (Hu & Hex & Hl). destruct (leases (memory b) !! id) as [l|] eqn:E; [case_decide as Hst|].
    + destruct (Hl l eq_refl Hst) as [<- Hc]. pose proof (sound_live b id l Hs E Hst) as [Ha Hb].
      destruct (settle_runs 0 u id l b d HR Hs Hu E Hst) as (a & d' & -> & R); [|exact R]. split_and!; [lia|lia|done|].
      pose proof (so_refunds b Hs (TenantID (lease l))) as [H0 H1].
      pose proof (LedgerFacts.held_ge _ (TenantID (lease l)) id l (so_wf b Hs) E) as Hge.
      rewrite LedgerFacts.hold_reserved, decide_True in Hge by done. unfold in_int64, min_int64 in *. lia.
    + destruct (settle_stands t u id b d HR) as (a & ->); [intros l'; by rewrite E; intros [= <-]|done].
    + destruct (settle_stands t u id b d HR) as (a & ->); [intros l'; by rewrite E|done].
  - destruct Hleg as (Hst & Hl). destruct (leases (memory b) !! id) as [l|] eqn:E; [case_decide as Hr|].
    + pose proof (Hl l eq_refl Hr) as <-. pose proof (sound_live b id l Hs E Hr) as [Ha Hb].
      destruct (release_runs st 0 id l b d HR Hs Hst E Hr) as (d' & -> & R); [|exact R].
      pose proof (so_refunds b Hs (TenantID (lease l))) as [H0 H1].
      pose proof (LedgerFacts.held_ge _ (TenantID (lease l)) id l (so_wf b Hs) E) as Hge.
      rewrite LedgerFacts.hold_reserved, decide_True in Hge by done. unfold in_int64, min_int64 in *. lia.
    + destruct (release_stands t st id b d HR) as (d' & -> & R); [intros l'; by rewrite E; intros [= <-]|exact R].
    + destruct (release_stands t st id b d HR) as (d' & -> & R); [intros l'; by rewrite E|exact R].
  - destruct (call_zrem b d id HR) as (r & d' & E & R). rewrite command_of_call, E. exact R.
  - apply serve_set; [done|apply (so_counters b Hs)|apply Hleg].
  - pose proof (rep_content p b d HR (SBalance t)) as Hk. cbn in Hk. unfold command_of, call.
    destruct (balances (memory b) !! t) as [w|]; cbn in Hk.
    + by rewrite (doc_setnx_some _ _ _ _ Hk).
    + rewrite (doc_setnx_none _ _ _ Hk). by apply set_balance_rep.
  - unfold expire. rewrite decide_True by done. destruct HR as [Hc Hsw Hv]. split; cbn [drop keys volatile forget with_memory memory sweep].
    + intros s. rewrite lookup_delete. case_decide as E.
      * change (leaseKey p id) with (key_of p (SLease id)) in E. apply key_of_inj in E as <-. cbn. by rewrite lookup_delete_eq.
      * rewrite Hc. destruct s as [t|id'|c t]; cbn; [done| |done]. rewrite lookup_delete_ne; [done|]. intros ->. by apply E.
    + unfold zset_at in *. cbn [drop keys] in *. rewrite lookup_delete_ne; [exact Hsw|].
      intros E. exact (sweepKey_apart p (SLease id) E).
    + intros k [Hk Hne]%elem_of_difference. destruct (Hv k Hk) as (id' & l & -> & Hl & Ht). exists id', l.
      split_and!; [done| |done]. cbn. rewrite lookup_delete_ne; [done|]. intros ->. set_solver.
Qed.
End commands.

(** *** One step of the books *)
Section books.
Implicit Types b : books.
Import LedgerSpec.

Lemma balance_set b t v u : balance_of (memory (set_balance t v b)) u = if decide (t = u) then v else balance_of (memory b) u.
Proof. unfold balance_of. cbn. rewrite lookup_insert. by case_decide. Qed.

(** A live lease ends with [r] of its amount given back. *)
Definition ends b b' (r : Z) (id : string) (l : memLease) : Prop :=
  (exists st at_, st <> LeaseStateReserved /\ leases (memory b') = <[id := terminate st at_ l]> (leases (memory b))) /\
  leaseTTL (memory b') = leaseTTL (memory b) /\
  (forall t, balance_of (memory b') t = balance_of (memory b) t + if decide (TenantID (lease l) = t) then r else 0) /\
  (forall t, is_Some (balances (memory b) !! t) -> is_Some (balances (memory b') !! t)) /\
  sweep b' = delete id (sweep b).

Lemma ends_holds b b' r id l :
  sound b -> leases (memory b) !! id = Some l -> lstate (lease l) = LeaseStateReserved -> 0 <= r <= Amount (lease l) ->
  ends b b' r id l ->
  ledger_wf (memory b') /\
  forall t, held (memory b') t = held (memory b) t - if decide (TenantID (lease l) = t) then Amount (lease l) else 0.
Proof.
  intros Hs Hl Hr Hle ((st & at_ & Hst & Hls) & Httl & Hbal & _).
  destruct (LedgerFacts.finish_conserves st at_ r id l (memory b) (so_wf b Hs) Hl Hr Hst Hle) as [Hwf Hsum].
  pose proof (fun t => LedgerFacts.finish_balance st at_ r id l (memory b) t (so_wf b Hs) Hl Hr Hle) as Hfb.
  destruct (LedgerFacts.ledger_wf_same (LedgerFacts.finish st at_ r id l (memory b)) (memory b')) as [Hiff Hh].
  - by rewrite Hls.
  - intros t. by rewrite Hfb, Hbal.
  - split; [by apply Hiff|]. intros t. rewrite Hh. specialize (Hsum t). rewrite Hfb in Hsum. case_decide; lia.
Qed.

Lemma settled_ends (at_ u : Z) id l b : sound b -> ends b (settled_books at_ u id l b) (Z.max 0 (Amount (lease l) - Z.max u 0)) id l.
Proof.
  intros Hs. unfold settled_books, given_back. split_and!.
  - exists LeaseStateSettled, at_. split; [done|]. by repeat case_decide.
  - by repeat case_decide.
  - intros t. assert (balance_of (memory (settled_books at_ u id l b)) t =
      balance_of (memory (if decide (0 < Amount (lease l) - Z.max u 0) then set_balance (TenantID (lease l))
        (balance_of (memory b) (TenantID (lease l)) + (Amount (lease l) - Z.max u 0)) b else b)) t) as Hm
      by (unfold settled_books, given_back; by repeat case_decide).
    unfold settled_books, given_back in Hm. rewrite Hm. destruct (decide (0 < _)) as [Hr|Hr].
    + rewrite (Z.max_r 0), balance_set by lia. case_decide; subst; lia.
    + rewrite (Z.max_l 0) by lia. case_decide; lia.
  - intros t Ht. repeat case_decide; cbn; [|exact Ht]. rewrite lookup_insert. by case_decide.
  - by repeat case_decide.
Qed.

Lemma released_ends (st : LeaseState) (at_ : Z) id l b :
  st <> LeaseStateReserved -> ends b (released_books st at_ id l b) (Amount (lease l)) id l.
Proof.
  intros Hst. unfold released_books, refunded_all. split_and!; [by exists st, at_|done| | |done].
  - intros t. transitivity (balance_of (memory (set_balance (TenantID (lease l))
      (balance_of (memory b) (TenantID (lease l)) + Amount (lease l)) b)) t); [done|].
    rewrite balance_set. case_decide; subst; lia.
  - intros t Ht. cbn. rewrite lookup_insert. by case_decide.
Qed.

(** The counters of one tenant moved by [dc] and [dr]. *)
Definition counted b b' (t0 : string) (dc dr : Z) : Prop :=
  forall c t, count c t b' = count c t b +
    if decide (t = t0) then match c with Consumed => dc | Refunded => dr | _ => 0 end else 0.

Lemma settled_counted (at_ u : Z) id l b :
  counted b (settled_books at_ u id l b) (TenantID (lease l)) (Z.max u 0) (Z.max 0 (Amount (lease l) - Z.max u 0)).
Proof.
  intros c t. unfold settled_books. change (count c t (with_sweep ?z ?x)) with (count c t x).
  destruct (decide (0 < Amount (lease l) - Z.max u 0)); rewrite ?count_bump; unfold given_back.
  - rewrite decide_True by done. change (count c t (set_lease ?i ?x (set_balance ?a ?v b))) with (count c t b).
    destruct c; repeat case_decide; try lia; naive_solver lia.
  - rewrite decide_False by done. change (count c t (set_lease ?i ?x b)) with (count c t b).
    destruct c; repeat case_decide; try lia; naive_solver lia.
Qed.

Lemma released_counted (st : LeaseState) (at_ : Z) id l b :
  counted b (released_books st at_ id l b) (TenantID (lease l)) 0 (Amount (lease l)).
Proof.
  intros c t. unfold released_books. rewrite count_bump. unfold refunded_all.
  change (count c t (set_lease ?i ?x (set_balance ?a ?v (with_sweep ?z b)))) with (count c t b).
  destruct c; repeat case_decide; try lia; naive_solver lia.
Qed.

Lemma ended_sound b b' dc r id l :
  sound b -> leases (memory b) !! id = Some l -> lstate (lease l) = LeaseStateReserved -> 0 <= r <= Amount (lease l) ->
  ends b b' r id l -> counted b b' (TenantID (lease l)) dc r -> 0 <= dc -> in_int64 (count Consumed (TenantID (lease l)) b + dc) ->
  sound b'.
Proof.
  intros Hs Hl Hr Hle He Hc Hdc Hin. destruct (ends_holds b b' r id l Hs Hl Hr Hle He) as [Hwf Hh].
  destruct He as ((st & at_ & Hst & Hls) & Httl & Hbal & _ & Hsw). split.
  - exact Hwf.
  - intros t. rewrite Hbal, Hh. pose proof (so_exact b Hs t). case_decide; lia.
  - intros c t. rewrite Hc. pose proof (so_counters b Hs c t). case_decide; [subst t|by rewrite Z.add_0_r].
    pose proof (so_refunds b Hs (TenantID (lease l))) as [H0 H1].
    pose proof (LedgerFacts.held_ge _ (TenantID (lease l)) id l (so_wf b Hs) Hl) as Hge.
    rewrite LedgerFacts.hold_reserved, decide_True in Hge by done.
    destruct c; [done| |by rewrite Z.add_0_r..]. unfold in_int64, min_int64 in *. lia.
  - intros t. rewrite Hc, Hh. pose proof (so_refunds b Hs t). repeat case_decide; subst; (lia || done).
  - intros i x. rewrite Hls, Hsw, Httl, lookup_insert. case_decide as E; [intros [= <-]; by rewrite terminate_state|].
    intros Hx Hlive. rewrite lookup_delete_ne by done. by apply (so_live b Hs).
Qed.

Lemma granted_memory ttl now id t a b l m' :
  sound b -> 0 <= a -> Ledger.Reserve now id t a (memory b) = (inl l, m') ->
  memory (granted ttl now id t a b) = m' /\ l = lease (new_lease now id t a) /\ a <= balance_of (memory b) t < exact /\
  is_Some (balances (memory b) !! t).
Proof.
  intros Hs Ha. pose proof (sound_balance b t Hs) as Hb. unfold Ledger.Reserve, granted, balance_of in *.
  destruct (balances (memory b) !! t) as [v|]; [|done]. case_decide as Hlt; [done|]. intros [= <- <-]. cbn in Hb |- *.
  split_and!; [|done|lia|lia|done]. unfold put_lease, Ledger.SetBalance. cbn. f_equal. f_equal. symmetry.
  apply wrap64_id. apply small_int64. lia.
Qed.

Lemma granted_counts ttl now id t a b c u :
  count c u (granted ttl now id t a b) = count c u b + if decide (c = Debited /\ u = t) then a else 0.
Proof.
  unfold granted. change (count c u (with_sweep ?z (set_lease ?i ?x ?y))) with (count c u y). by rewrite count_bump.
Qed.

Lemma reserve_sound ttl now id t a b l m' :
  sound b -> leaseTTL (memory b) = ttl -> leases (memory b) !! id = None -> 0 <= a ->
  in_int64 (count Debited t b + a) -> count Refunded t b + held (memory b) t + a <= max_int64 ->
  Ledger.Reserve now id t a (memory b) = (inl l, m') ->
  sound (granted ttl now id t a b) /\
  (forall u, balance_of m' u = balance_of (memory b) u - if decide (u = t) then a else 0) /\
  (forall u, balance_of m' u + held m' u = balance_of (memory b) u + held (memory b) u).
Proof.
  intros Hs Httl Hid Ha Hd Hf Hres. destruct (granted_memory ttl now id t a b l m' Hs Ha Hres) as (Hm & Hlease & Hbt & _).
  pose proof (LedgerFacts.reserve_conserves now a id t (memory b) (so_wf b Hs) Hid Ha) as [Hwf Hsum]. rewrite Hres in Hwf, Hsum. cbn [snd] in *.
  assert (forall u, balance_of m' u = balance_of (memory b) u - if decide (u = t) then a else 0) as Hbal.
  { intros u. rewrite <- Hm. transitivity (balance_of (memory (set_balance t (balance_of (memory b) t - a) b)) u); [done|].
    rewrite balance_set. repeat case_decide; subst; (lia || congruence). }
  split_and!; [|exact Hbal|exact Hsum]. split.
  - by rewrite Hm.
  - intros u. rewrite Hm, Hsum. apply (so_exact b Hs).
  - intros c u. rewrite granted_counts. case_decide as E; [destruct E as [-> ->]; exact Hd|].
    rewrite Z.add_0_r. apply (so_counters b Hs).
  - intros u. rewrite Hm, granted_counts, decide_False by naive_solver. pose proof (so_refunds b Hs u) as [H0 H1].
    specialize (Hsum u). rewrite Hbal in Hsum. case_decide; subst; lia.
  - intros i x. unfold granted at 1. cbn [with_sweep set_lease with_memory memory put_lease leases set_balance bump Ledger.SetBalance].
    change (sweep (granted ttl now id t a b)) with (<[id := deadline (new_lease now id t a) ttl]> (sweep b)).
    change (leaseTTL (memory (granted ttl now id t a b))) with (leaseTTL (memory b)). rewrite !lookup_insert, Httl.
    case_decide; [intros [= <-]; done|]. rewrite <- Httl. apply (so_live b Hs).
Qed.

Lemma set_sound t v b : sound b -> 0 <= v -> v + held (memory b) t < exact -> sound (set_balance t v b).
Proof.
  intros Hs Hv Hsum. destruct (LedgerFacts.set_conserves t v (memory b) (so_wf b Hs)) as [Hwf _]; [unfold exact, max_int64 in *; lia|].
  split; try apply Hs; [exact Hwf|]. intros u. rewrite balance_set. pose proof (so_exact b Hs u). change (held (memory (set_balance t v b)) u) with (held (memory b) u).
  case_decide; subst; lia.
Qed.

Lemma bump_epoch_sound t b : sound b -> in_int64 (count Epoch t b + 1) -> sound (bump Epoch t 1 b).
Proof.
  intros Hs Hin. split; try apply Hs.
  intros c u. rewrite count_bump. case_decide as E; [destruct E as [-> ->]; exact Hin|]. rewrite Z.add_0_r. apply (so_counters b Hs).
Qed.

(** What leaves the books of money as they are. *)
Lemma unindex_sound id b :
  sound b -> (forall l, leases (memory b) !! id = Some l -> lstate (lease l) <> LeaseStateReserved) ->
  sound (with_sweep (delete id (sweep b)) b).
Proof.
  intros Hs Hl. split; try apply Hs. intros i l Hi Hr. cbn in *. rewrite lookup_delete_ne; [by apply (so_live b Hs)|].
  intros ->. by apply (Hl l).
Qed.

Lemma forget_sound id l b :
  sound b -> leases (memory b) !! id = Some l -> lstate (lease l) <> LeaseStateReserved ->
  sound (forget id b) /\ forall t, held (memory (forget id b)) t = held (memory b) t.
Proof.
  intros Hs Hl Ht. destruct (LedgerFacts.purge_conserves id l (memory b) (so_wf b Hs) Hl Ht) as [Hwf Hp].
  assert (forall t, held (memory (forget id b)) t = held (memory b) t) as Hh by (intros t; apply Hp).
  split; [|exact Hh]. split; try apply Hs.
  - exact Hwf.
  - intros t. rewrite Hh. apply (so_exact b Hs).
  - intros t. rewrite Hh. apply (so_refunds b Hs).
  - intros i x. cbn. rewrite lookup_delete. case_decide; [done|]. apply (so_live b Hs).
Qed.

(** A step keeps the balances of [t] provisioned, and the account of [t]. *)
Definition keeps_account (t : string) b b' : Prop :=
  count Epoch t b <= count Epoch t b' /\ count Consumed t b <= count Consumed t b' /\
  (is_Some (balances (memory b) !! t) ->
   is_Some (balances (memory b') !! t) /\
   (count Epoch t b' = count Epoch t b ->
    identity t b' = identity t b /\ owned t b' <= owned t b /\
    owned t b - owned t b' <= count Consumed t b' - count Consumed t b)).

Lemma keeps_account_refl t b : keeps_account t b b.
Proof. split_and!; [lia|lia|]. intros H. split; [done|]. intros _. split_and!; lia. Qed.

Lemma ended_accounted b b' dc r id l :
  sound b -> leases (memory b) !! id = Some l -> lstate (lease l) = LeaseStateReserved -> 0 <= r <= Amount (lease l) ->
  ends b b' r id l -> counted b b' (TenantID (lease l)) dc r -> Amount (lease l) - r <= dc -> accounted b b'.
Proof.
  intros Hs Hl Hr Hle He Hc Hdc t. destruct (ends_holds b b' r id l Hs Hl Hr Hle He) as [_ Hh].
  destruct He as (_ & _ & Hbal & Hprov & _). unfold identity, owned. rewrite !Hc, Hbal, Hh.
  split_and!; [repeat case_decide; lia|repeat case_decide; lia|]. intros Hp. split; [by apply Hprov|]. intros _.
  repeat case_decide; subst; try done; split_and!; lia.
Qed.


Lemma bump_other c c' t n u b : c' <> c -> count c' u (bump c t n b) = count c' u b.
Proof. intros Hc. rewrite count_bump, decide_False by (by intros [? _]). lia. Qed.

Lemma bump_elsewhere c c' t n u b : u <> t -> count c' u (bump c t n b) = count c' u b.
Proof. intros Hu. rewrite count_bump, decide_False by (by intros [_ ?]). lia. Qed.

Lemma same_account t b b' :
  (forall c, count c t b' = count c t b) -> balance_of (memory b') t = balance_of (memory b) t ->
  held (memory b') t = held (memory b) t ->
  (is_Some (balances (memory b) !! t) -> is_Some (balances (memory b') !! t)) -> keeps_account t b b'.
Proof. intros Hc Hb Hh Hp. unfold keeps_account, identity, owned. rewrite !Hc, Hb, Hh. split_and!; [lia|lia|]. intros H. split; [auto|]. lia. Qed.

Lemma reserve_step now id t a b :
  sound b -> leases (memory b) !! id = None -> 0 <= a ->
  in_int64 (count Debited t b + a) -> count Refunded t b + held (memory b) t + a <= max_int64 ->
  sound (book_step (OReserve now id t a) b) /\ accounted b (book_step (OReserve now id t a) b).
Proof.
  intros Hs Hid Ha Hd Hf. cbn. destruct (Ledger.Reserve now id t a (memory b)) as [[l|e] m'] eqn:Hres; cbn [fst];
    [|split; [done|intros u; apply keeps_account_refl]].
  destruct (reserve_sound (leaseTTL (memory b)) now id t a b l m' Hs eq_refl Hid Ha Hd Hf Hres) as (Hs' & Hbal & Hsum).
  destruct (granted_memory (leaseTTL (memory b)) now id t a b l m' Hs Ha Hres) as (Hm & _ & _ & Hp).
  split; [done|]. intros u.
  assert (forall c, c <> Debited -> count c u (granted (leaseTTL (memory b)) now id t a b) = count c u b) as Hc.
  { intros c Hne. rewrite granted_counts, decide_False by (by intros [? _]). lia. }
  unfold identity, owned. rewrite (Hc Epoch), (Hc Consumed), (Hc Refunded), granted_counts, Hm, Hsum, Hbal by done. split_and!; [lia|lia|]. intros Hpu. split.
  - rewrite <- Hm. cbn. rewrite lookup_insert. by case_decide.
  - intros _. split_and!; [|lia|lia]. destruct (decide (u = t)) as [->|Hne]; [rewrite !decide_True by done; lia|].
    rewrite (decide_False (P := Debited = Debited /\ u = t)) by (by intros [_ ?]). lia.
Qed.

Lemma set_step t v b :
  sound b -> 0 <= v -> v + held (memory b) t < exact -> in_int64 (count Epoch t b + 1) ->
  sound (book_step (OSetBalance t v) b) /\ accounted b (book_step (OSetBalance t v) b).
Proof.
  intros Hs Hv Hsum Hin. cbn [book_step]. split; [by apply bump_epoch_sound; [apply set_sound|]|]. intros u.
  destruct (decide (u = t)) as [->|Hne].
  - rewrite count_bump, decide_True, (bump_other Epoch Consumed) by done.
    change (count ?c t (set_balance t v b)) with (count c t b). split_and!; [lia|lia|]. intros Hp. split; [|lia].
    cbn. rewrite lookup_insert. by case_decide.
  - apply same_account; [intros c; by rewrite bump_elsewhere| |done|].
    + change (balance_of (memory (bump Epoch t 1 ?x)) u) with (balance_of (memory x) u). by rewrite balance_set, decide_False.
    + intros Hp. cbn. by rewrite lookup_insert_ne.
Qed.

Lemma ensure_step t v b :
  sound b -> 0 <= v -> v + held (memory b) t < exact ->
  sound (book_step (OEnsure t v) b) /\ accounted b (book_step (OEnsure t v) b).
Proof.
  intros Hs Hv Hsum. cbn [book_step]. destruct (balances (memory b) !! t) as [w|] eqn:E; [split; [done|intros u; apply keeps_account_refl]|].
  split; [by apply set_sound|]. intros u. destruct (decide (u = t)) as [->|Hne].
  - change (count ?c t (set_balance t v b)) with (count c t b). split_and!; [lia|lia|]. rewrite E. by intros [].
  - apply same_account; [done|by rewrite balance_set, decide_False|done|]. intros Hp. cbn. by rewrite lookup_insert_ne.
Qed.

Lemma release_step t id st b :
  sound b -> st <> LeaseStateReserved ->
  (forall l, leases (memory b) !! id = Some l -> lstate (lease l) = LeaseStateReserved -> TenantID (lease l) = t) ->
  sound (book_step (ORelease t id st) b) /\ leaseTTL (memory (book_step (ORelease t id st) b)) = leaseTTL (memory b) /\
  accounted b (book_step (ORelease t id st) b).
Proof.
  intros Hs Hst Hl. cbn [book_step]. destruct (leases (memory b) !! id) as [l|] eqn:E; [case_decide as Hr|].
  - pose proof (sound_live b id l Hs E Hr) as [Ha Hb].
    pose proof (released_ends st 0 id l b Hst) as He. pose proof (released_counted st 0 id l b) as Hct. split_and!.
    + apply (ended_sound b _ 0 _ id l Hs E Hr) in Hct; try (lia || done). rewrite Z.add_0_r. apply (so_counters b Hs).
    + apply He.
    + apply (ended_accounted b _ 0 _ id l Hs E Hr) in Hct; (lia || done).
  - split_and!; [|done|intros u; by apply same_account]. apply unindex_sound; [done|]. intros l'. rewrite E. by intros [= <-].
  - split_and!; [|done|intros u; by apply same_account]. apply unindex_sound; [done|]. intros l'. by rewrite E.
Qed.

Lemma settle_step t id u b :
  sound b -> in_int64 u ->
  (forall l, leases (memory b) !! id = Some l -> lstate (lease l) = LeaseStateReserved ->
    TenantID (lease l) = t /\ in_int64 (count Consumed t b + Z.max u 0)) ->
  sound (book_step (OSettle t id u) b) /\ leaseTTL (memory (book_step (OSettle t id u) b)) = leaseTTL (memory b) /\
  accounted b (book_step (OSettle t id u) b).
Proof.
  intros Hs Hu Hl. cbn [book_step]. assert (accounted b b) as Hrefl by (intros v; apply keeps_account_refl).
  destruct (leases (memory b) !! id) as [l|] eqn:E; [|done]. case_decide as Hst; [|done].
  destruct (Hl l eq_refl Hst) as [<- Hc]. pose proof (sound_live b id l Hs E Hst) as [Ha Hb].
  pose proof (settled_ends 0 u id l b Hs) as He. pose proof (settled_counted 0 u id l b) as Hct. split_and!.
  - apply (ended_sound b _ (Z.max u 0) _ id l Hs E Hst) in Hct; (lia || done).
  - apply He.
  - apply (ended_accounted b _ (Z.max u 0) _ id l Hs E Hst) in Hct; (lia || done).
Qed.

Lemma step_sound p (o : op) b d :
  Rep p b d -> sound b -> RedisSpec.legal p o b d ->
  sound (book_step o b) /\ leaseTTL (memory (book_step o b)) = leaseTTL (memory b) /\ accounted b (book_step o b).
Proof.
  intros HR Hs Hleg. destruct o as [now id t a|t id u|t id st|id|t v|t v|id]; cbn [RedisSpec.legal] in *.
  - destruct Hleg as (Hid & Ha & Hd & Hf). destruct (reserve_step now id t a b Hs Hid Ha Hd Hf) as [H1 H2].
    split_and!; [done| |done]. cbn. by destruct (Ledger.Reserve now id t a (memory b)).1.
  - by apply settle_step; try apply Hleg.
  - by apply release_step; try apply Hleg.
  - split_and!; [|done|intros u; by apply same_account]. apply unindex_sound; [done|]. intros l'. by rewrite Hleg.
  - destruct Hleg as (Hv & Hsum & Hin). destruct (set_step t v b Hs Hv Hsum Hin). by split_and!.
  - destruct Hleg as (Hv & Hsum). destruct (ensure_step t v b Hs Hv Hsum). split_and!; [done| |done].
    cbn. by destruct (balances (memory b) !! t).
  - destruct (rep_volatile p b d HR _ Hleg) as (id' & l & Hk & Hl & Ht).
    change (leaseKey p id) with (key_of p (SLease id)) in Hk. change (leaseKey p id') with (key_of p (SLease id')) in Hk.
    apply key_of_inj in Hk as [= <-]. destruct (forget_sound id l b Hs Hl Ht) as [Hs' Hh]. split_and!; [done|done|].
    intros u. by apply same_account.
Qed.
End books.
End RedisFacts.
