(* ===== verification/RedisProps.v ===== *)
(** * The Redis ledger: what holds of it

    Theorems on RedisLedger.v over every server that keeps the documented
    laws.  Calls of any number of gateways interleave at the granularity of
    the exchanges: a run is a list of [op].  [Client] relates a Go call, with
    whatever exchanges get lost, to the operations the server runs for it. *)
From Stdlib Require Import QArith.
From stdpp Require Import base numbers gmap strings pretty sorting list.
From S2P Require Import Prelude Float64 Text Quota Redis RedisLedger.
Import GoInt GoTime.
Local Open Scope Z_scope.

Module RedisRuns.
Import Server Lua Ledger RedisLedger RedisSpec RedisFacts.

(** What an operation is on the in-process ledger; a time to live that runs
    out purges the record. *)
Definition ledger_step (o : op) (m : Memory) : Memory :=
  match o with
  | OReserve now id t a => (Ledger.Reserve now id t a m).2
  | OSettle _ id u => (Ledger.Settle 0 id u m).2
  | ORelease _ id st =>
      match leases m !! id with
      | Some l => if decide (lstate (lease l) = LeaseStateReserved)
                  then put_lease id (terminate st 0 l) (credit (TenantID (lease l)) (Amount (lease l)) m) else m
      | None => m
      end
  | OUnindex _ => m
  | OSetBalance t v => Ledger.SetBalance t v m
  | OEnsure t v => (Ledger.EnsureBalance t v m).2
  | OExpire id => mkMemory (balances m) (delete id (leases m)) (leaseTTL m)
  end.

Fixpoint ledger_run (os : list op) (m : Memory) : Memory :=
  match os with [] => m | o :: os => ledger_run os (ledger_step o m) end.

Lemma credit_exact (t : string) (r : Z) (m : Memory) :
  in_int64 (balance_of m t + r) -> credit t r m = Ledger.SetBalance t (balance_of m t + r) m.
Proof. intros H. unfold credit, Ledger.SetBalance. by rewrite wrap64_id. Qed.

Lemma book_step_memory (o : op) (b : books) :
  sound b -> (match o with OReserve _ _ _ a => 0 <= a | OSettle _ _ u => in_int64 u | _ => True end) ->
  memory (book_step o b) = ledger_step o (memory b).
Proof.
  intros Hs Ho. destruct o as [now id t a|t id u|t id st|id|t v|t v|id]; cbn [book_step ledger_step]; try done.
  - destruct (Ledger.Reserve now id t a (memory b)) as [[l|e] m'] eqn:E; cbn [fst snd].
    + by destruct (granted_memory (leaseTTL (memory b)) now id t a b l m' Hs Ho E) as [-> _].
    + revert E. unfold Ledger.Reserve. destruct (balances (memory b) !! t); [case_decide|]; by intros [= _ <-].
  - unfold Ledger.Settle. destruct (leases (memory b) !! id) as [l|] eqn:E; [|done].
    case_decide as Hr; [rewrite decide_False by (rewrite Hr; auto)|by rewrite decide_True].
    destruct (sound_live b id l Hs E Hr) as [Ha Hb]. pose proof (sound_balance b (TenantID (lease l)) Hs). cbn [snd].
    rewrite LedgerFacts.settle_refund by (first [done|unfold exact, max_int64 in *; lia]). unfold settled_books, given_back.
    repeat case_decide; try done. rewrite credit_exact by (apply small_int64; lia). done.
  - destruct (leases (memory b) !! id) as [l|] eqn:E; [|done]. case_decide as Hr; [|done].
    destruct (sound_live b id l Hs E Hr) as [Ha Hb]. pose proof (sound_balance b (TenantID (lease l)) Hs).
    rewrite credit_exact by (apply small_int64; lia). done.
  - unfold Ledger.EnsureBalance. by destruct (balances (memory b) !! t).
Qed.

Lemma accounted_trans (b1 b2 b3 : books) : accounted b1 b2 -> accounted b2 b3 -> accounted b1 b3.
Proof.
  intros H12 H23 t. destruct (H12 t) as (He & Hc & Hp), (H23 t) as (He' & Hc' & Hp').
  split_and!; [lia|lia|]. intros Hb. destruct (Hp Hb) as [Hb' Hi]. destruct (Hp' Hb') as [Hb'' Hi']. split; [done|].
  intros Heq. destruct (Hi ltac:(lia)) as (I1 & I2 & I3). destruct (Hi' ltac:(lia)) as (J1 & J2 & J3).
  split_and!; [congruence|lia|lia].
Qed.

Section runs.
Context {N : Numbers} {NL : NumberLaws} (exec : command -> db -> reply * db) {Doc : Documented exec} (p : string).

Lemma run_books (os : list op) : forall b d,
  Rep p b d -> sound b -> legal_run exec p (leaseTTL (memory b)) os b d ->
  Rep p (booked os b) (served exec p (leaseTTL (memory b)) os d) /\ sound (booked os b) /\
  leaseTTL (memory (booked os b)) = leaseTTL (memory b) /\
  memory (booked os b) = ledger_run os (memory b) /\ accounted b (booked os b).
Proof.
  induction os as [|o os IH]; intros b d HR Hs Hleg.
  { split_and!; [done..|]. intros t. apply keeps_account_refl. }
  cbn [legal_run served booked ledger_run] in *. destruct Hleg as [Ho Hleg].
  destruct (step_sound p o b d HR Hs Ho) as (Hs' & Httl & Hacc). pose proof (serve_books exec p o b d HR Hs Ho) as HR'.
  rewrite <- Httl in HR', Hleg |- *. destruct (IH _ _ HR' Hs' Hleg) as (H1 & H2 & H3 & H4 & H5).
  split_and!; [done|done|done| |by apply (accounted_trans b (book_step o b))].
  rewrite H4. f_equal. apply book_step_memory; [done|]. destruct o; cbn in Ho; try done; apply Ho.
Qed.
End runs.
End RedisRuns.

Module Client.
Import Server Lua Link Ledger RedisLedger RedisSpec RedisFacts RedisRuns.

(** The calls of the Go ledger that move it. *)
Inductive gcall :=
  | CReserve (now : Z) (newID tenantID : string) (amount : Z)
  | CSettle (leaseID : string) (usedTokens : Z)
  | CCancel (leaseID : string)
  | CSweepOnce (now limit : Z)
  | CSetBalance (tenantID : string) (balance : Z)
  | CEnsureBalance (tenantID : string) (initial : Z).

Section client.
Context {N : Numbers} {NL : NumberLaws} (exec : command -> db -> reply * db) {Doc : Documented exec} (p : string).
Implicit Types (b : books) (d : db) (c : conn).

Definition invoke (ttl : Z) (g : gcall) c : conn :=
  match g with
  | CReserve now id t a => (RedisLedger.Reserve exec p ttl now id t a c).2
  | CSettle id u => (RedisLedger.Settle exec p id u c).2
  | CCancel id => (RedisLedger.Cancel exec p id c).2
  | CSweepOnce now limit => (RedisLedger.SweepOnce exec p now limit c).2
  | CSetBalance t v => (RedisLedger.SetBalance exec p t v c).2
  | CEnsureBalance t v => (RedisLedger.EnsureBalance exec p t v c).2
  end.

(** What a caller keeps to. *)
Definition legal_call (g : gcall) b : Prop :=
  match g with
  | CReserve now id t a =>
      leases (memory b) !! id = None /\ 0 <= a /\
      in_int64 (count Debited t b + a) /\ count Refunded t b + LedgerSpec.held (memory b) t + a <= max_int64
  | CSettle id u =>
      in_int64 u /\ Z.max u 0 < exact /\
      forall l, leases (memory b) !! id = Some l -> lstate (lease l) = LeaseStateReserved ->
        in_int64 (count Consumed (TenantID (lease l)) b + Z.max u 0)
  | CCancel _ => True
  | CSweepOnce _ limit => 0 < limit
  | CSetBalance t v => 0 <= v /\ v + LedgerSpec.held (memory b) t < exact /\ in_int64 (count Epoch t b + 1)
  | CEnsureBalance t v => 0 <= v /\ v + LedgerSpec.held (memory b) t < exact
  end.

(** The server after one exchange: as [f] leaves it, unless nothing was sent. *)
Lemma exchange_srv {A} (f : db -> (A + string) * db) c :
  srv (exchange f c).2 = match (next c).1 with Unsent => srv c | _ => (f (srv c)).2 end.
Proof. unfold exchange. destruct (next c) as [[| |] ls]; [|done..]. by destruct (f (srv c)) as [[a|e] d]. Qed.

Lemma exchange_inl {A} (f : db -> (A + string) * db) c a c' :
  exchange f c = (inl a, c') -> f (srv c) = (inl a, srv c') /\ links c' = (next c).2.
Proof.
  unfold exchange. destruct (next c) as [[| |] ls]; [|done..]. destruct (f (srv c)) as [[x|e] d]; [|done]. by intros [= -> <-].
Qed.

Lemma exchange_up {A} (f : db -> (A + string) * db) d a d' :
  f d = (inl a, d') -> exchange f (mkConn [] d) = (inl a, mkConn [] d').
Proof. unfold exchange. cbn. by intros ->. Qed.

(** The server ran some legal operations. *)
Definition ran (ttl : Z) b d b' d' : Prop :=
  exists os, legal_run exec p ttl os b d /\ b' = booked os b /\ d' = served exec p ttl os d.

Lemma ran_nothing ttl b d : ran ttl b d b d.
Proof. by exists []. Qed.

Lemma ran_one ttl (o : op) b d : legal p o b d -> ran ttl b d (book_step o b) (serve exec p ttl o d).
Proof. intros Ho. by exists [o]. Qed.

Lemma ran_trans ttl b1 d1 b2 d2 b3 d3 : ran ttl b1 d1 b2 d2 -> ran ttl b2 d2 b3 d3 -> ran ttl b1 d1 b3 d3.
Proof.
  intros (os & Hl & -> & ->) (os' & Hl' & -> & ->). exists (os ++ os'). revert b1 d1 Hl Hl'.
  induction os as [|o os IH]; intros b d Hl Hl'; [done|]. cbn in *. destruct Hl as [Ho Hl].
  destruct (IH _ _ Hl Hl') as (H1 & H2 & H3). by split_and!.
Qed.

Lemma exchange_ran {A} ttl (f : db -> (A + string) * db) (o : op) b c :
  (f (srv c)).2 = serve exec p ttl o (srv c) -> legal p o b (srv c) -> exists b', ran ttl b (srv c) b' (srv (exchange f c).2).
Proof.
  intros Hf Ho. rewrite exchange_srv, Hf. destruct (next c).1; [|exists b; apply ran_nothing|]; eexists; by apply ran_one.
Qed.

(** Reading the tenant of a lease moves nothing. *)
Lemma lookup_tenant b c id :
  Rep p b (srv c) ->
  exists r ls, exchange (command_of exec (HGET (leaseKey p id) "tenant")) c = (r, mkConn ls (srv c)) /\
  match r with
  | inl (Bulk t) => exists l, leases (memory b) !! id = Some l /\ t = TenantID (lease l)
  | inl _ => leases (memory b) !! id = None
  | inr e => (next c).1 <> Up /\ e = Unreachable
  end.
Proof.
  intros HR. pose proof (call_hget exec p b (srv c) id "tenant" HR) as E. unfold exchange, command_of. rewrite E.
  destruct (next c) as [[| |] ls]; do 2 eexists; (split; [done|]); cbn; [|done..].
  destruct (leases (memory b) !! id) as [l|]; simpl.
  - destruct (encode_lookup l) as (-> & _ & _). cbn. by exists l.
  - by rewrite lookup_empty.
Qed.

Lemma release_ran ttl (st : LeaseState) id b c :
  Rep p b (srv c) -> st <> LeaseStateReserved -> exists b', ran ttl b (srv c) b' (srv (release exec p id st c).2).
Proof.
  intros HR Hst. unfold release. destruct (lookup_tenant b c id HR) as (r & ls & -> & Hr).
  assert (leases (memory b) !! id = None -> exists b',
    ran ttl b (srv c) b' (srv (exchange (command_of exec (ZREM (sweepKey p) id)) (mkConn ls (srv c))).2)) as Hz.
  { intros Hnone. by apply (exchange_ran ttl _ (OUnindex id) b (mkConn ls (srv c))). }
  destruct r as [[| |t| | |x]|x]; cbn [snd srv]; [..|exists b; apply ran_nothing].
  3:{ destruct Hr as (l & Hl & ->).
      assert (exists b', ran ttl b (srv c) b' (srv (exchange (release_script exec p (TenantID (lease l)) id st) (mkConn ls (srv c))).2)) as Hran.
      { apply (exchange_ran ttl _ (ORelease (TenantID (lease l)) id st) b (mkConn ls (srv c))); [done|].
        split; [done|]. intros l'. rewrite Hl. by intros [= <-]. }
      clear Hz. revert Hran. by destruct (exchange _ _) as [[y|y] c']. }
  all: specialize (Hz Hr); revert Hz; by destruct (exchange _ _) as [[y|y] c'].
Qed.

Lemma settle_ran ttl id u b c :
  Rep p b (srv c) -> legal_call (CSettle id u) b -> exists b', ran ttl b (srv c) b' (srv (RedisLedger.Settle exec p id u c).2).
Proof.
  intros HR (Hu & Hex & Hl). unfold RedisLedger.Settle. destruct (lookup_tenant b c id HR) as (r & ls & -> & Hr).
  destruct r as [[| |t| | |x]|x]; cbn [snd srv]; try (exists b; apply ran_nothing). destruct Hr as (l & El & ->).
  assert (exists b', ran ttl b (srv c) b' (srv (exchange (settle_script exec p (TenantID (lease l)) id u) (mkConn ls (srv c))).2)) as Hran.
  { apply (exchange_ran ttl _ (OSettle (TenantID (lease l)) id u) b (mkConn ls (srv c))); [done|]. split_and!; [done|done|].
    intros l'. rewrite El. intros [= <-] Hst. split; [done|by apply Hl]. }
  revert Hran. by destruct (exchange _ _) as [[y|y] c'].
Qed.

Lemma ran_holds ttl b d b' d' :
  Rep p b d -> sound b -> leaseTTL (memory b) = ttl -> ran ttl b d b' d' ->
  Rep p b' d' /\ sound b' /\ leaseTTL (memory b') = ttl /\ accounted b b'.
Proof.
  intros HR Hs <- (os & Hl & -> & ->). destruct (run_books exec p os b d HR Hs Hl) as (H1 & H2 & H3 & _ & H5). by split_and!.
Qed.

Lemma sweep_ids_ran ttl (ids : list string) : forall n b c,
  Rep p b (srv c) -> sound b -> leaseTTL (memory b) = ttl ->
  exists b', ran ttl b (srv c) b' (srv (sweep_ids exec p ids n c).2).
Proof.
  induction ids as [|id ids IH]; intros n b c HR Hs Httl; cbn [sweep_ids snd]; [exists b; apply ran_nothing|].
  destruct (release_ran ttl LeaseStateExpired id b c HR) as [b1 Hran]; [done|].
  destruct (ran_holds ttl b (srv c) b1 _ HR Hs Httl Hran) as (HR1 & Hs1 & Httl1 & _).
  destruct (release exec p id LeaseStateExpired c) as [[moved|x] c1]; cbn [snd] in *; [|by exists b1].
  destruct (IH (if moved then n + 1 else n) b1 c1 HR1 Hs1 Httl1) as [b2 Hran2]. exists b2. by apply (ran_trans ttl b (srv c) b1 (srv c1)).
Qed.

(** Whatever is lost on the way, the server ran legal operations for a call. *)
Lemma invoke_ran ttl (g : gcall) b c :
  Rep p b (srv c) -> sound b -> leaseTTL (memory b) = ttl -> legal_call g b ->
  exists b', ran ttl b (srv c) b' (srv (invoke ttl g c)).
Proof.
  intros HR Hs Httl Hg. destruct g as [now id t a|id u|id|now limit|t v|t v]; cbn [invoke].
  - unfold RedisLedger.Reserve. destruct (exchange_ran ttl (reserve_script exec p ttl now id t a) (OReserve now id t a) b c eq_refl Hg) as [b' Hran].
    exists b'. revert Hran. by destruct (exchange _ _) as [[[ok bal]|x] c']; cbn [snd]; [destruct (negb _)|].
  - by apply settle_ran.
  - unfold RedisLedger.Cancel. destruct (release_ran ttl LeaseStateCancelled id b c HR) as [b' Hran]; [done|].
    exists b'. revert Hran. by destruct (release _ _ _ _ _) as [[m|x] c'].
  - unfold RedisLedger.SweepOnce. set (f := command_of exec _).
    destruct (doc_zrange (sweepKey p) (UnixMilli now) limit (sweep b) (srv c) (rep_sweep p b _ HR) Hg) as (l & _ & _ & E).
    assert (f (srv c) = (inl (Members (take (Z.to_nat limit) l.*1)), srv c)) as Ef by (unfold f, command_of, call; by rewrite E).
    unfold exchange. rewrite Ef. destruct (next c) as [[| |] ls]; cbn [snd srv]; [|exists b; apply ran_nothing..].
    by apply (sweep_ids_ran ttl _ 0 b (mkConn ls (srv c))).
  - unfold RedisLedger.SetBalance.
    destruct (exchange_ran ttl (transaction exec (SET (balanceKey p t) (pretty v)) (INCR (epochKey p t))) (OSetBalance t v) b c eq_refl Hg) as [b' Hran].
    exists b'. revert Hran. by destruct (exchange _ _) as [[m|x] c'].
  - unfold RedisLedger.EnsureBalance.
    destruct (exchange_ran ttl (command_of exec (SETNX (balanceKey p t) (pretty v))) (OEnsure t v) b c eq_refl Hg) as [b' Hran].
    exists b'. revert Hran. by destruct (exchange _ _) as [[m|x] c'].
Qed.
End client.
End Client.

Module SweepFacts.
Import Server Lua Link Ledger RedisLedger RedisSpec RedisFacts RedisRuns Client.

Section sweep.
Context (st : LeaseState) (Hst : st <> LeaseStateReserved).
Implicit Types (b : books) (d : db).

Definition live b (id : string) : bool :=
  match leases (memory b) !! id with Some l => bool_decide (lstate (lease l) = LeaseStateReserved) | None => false end.

(** The books once the lease at [id], if it is live, moved to [st]. *)
Definition expire_lease b (id : string) : books :=
  match leases (memory b) !! id with
  | Some l => book_step (ORelease (TenantID (lease l)) id st) b
  | None => book_step (OUnindex id) b
  end.

Lemma expire_leases b id i :
  leases (memory (expire_lease b id)) !! i =
  if decide (i = id /\ live b id = true) then terminate st 0 <$> leases (memory b) !! i else leases (memory b) !! i.
Proof.
  unfold expire_lease, live. destruct (leases (memory b) !! id) as [l|] eqn:El; [|by rewrite decide_False by (by intros [_ ?])].
  cbn [book_step]. rewrite El. case_decide as Hr.
  - rewrite bool_decide_true by done. cbn. rewrite lookup_insert. repeat case_decide; subst; rewrite ?El; (done || naive_solver).
  - rewrite bool_decide_false by done. by rewrite decide_False by (by intros [_ ?]).
Qed.

Lemma expire_sweep b id : sweep (expire_lease b id) = delete id (sweep b).
Proof.
  unfold expire_lease. destruct (leases (memory b) !! id) as [l|] eqn:El; [|done]. cbn [book_step]. rewrite El. by case_decide.
Qed.

Lemma expire_owned b id t : sound b -> owned t (expire_lease b id) = owned t b.
Proof.
  intros Hs. unfold expire_lease. destruct (leases (memory b) !! id) as [l|] eqn:El; [|done]. cbn [book_step]. rewrite El.
  case_decide as Hr; [|done]. destruct (sound_live b id l Hs El Hr) as [Ha Hb].
  pose proof (released_ends st 0 id l b Hst) as He. unfold owned.
  destruct (ends_holds b _ (Amount (lease l)) id l Hs El Hr ltac:(lia) He) as [_ Hh]. destruct He as (_ & _ & Hbal & _).
  rewrite Hbal, Hh. case_decide; lia.
Qed.

Lemma expire_sound b id : sound b -> sound (expire_lease b id) /\ leaseTTL (memory (expire_lease b id)) = leaseTTL (memory b).
Proof.
  intros Hs. unfold expire_lease. destruct (leases (memory b) !! id) as [l|] eqn:El.
  - destruct (release_step (TenantID (lease l)) id st b Hs) as (H1 & H2 & _); [done| |done].
    intros l'. rewrite El. by intros [= <-].
  - split; [|done]. apply unindex_sound; [done|]. intros l'. by rewrite El.
Qed.

Lemma expire_live b id i : i <> id -> live (expire_lease b id) i = live b i.
Proof. intros Hne. unfold live. by rewrite expire_leases, decide_False by (by intros [? _]). Qed.

Fixpoint expire_all (ids : list string) b : books := match ids with [] => b | id :: ids => expire_all ids (expire_lease b id) end.

Definition live_count (ids : list string) b : Z := Z.of_nat (length (filter (fun id => live b id = true) ids)).

Lemma expire_all_effect (ids : list string) : forall b, NoDup ids -> sound b ->
  (forall i, leases (memory (expire_all ids b)) !! i =
     if decide (i ∈ ids /\ live b i = true) then terminate st 0 <$> leases (memory b) !! i else leases (memory b) !! i) /\
  (forall i, sweep (expire_all ids b) !! i = if decide (i ∈ ids) then None else sweep b !! i) /\
  (forall t, owned t (expire_all ids b) = owned t b).
Proof.
  induction ids as [|id ids IH]; intros b Hnd Hs; cbn [expire_all].
  { split_and!; [..|done]; intros i; by rewrite decide_False by set_solver. }
  apply NoDup_cons in Hnd as [Hid Hnd]. destruct (IH (expire_lease b id) Hnd (proj1 (expire_sound b id Hs))) as (H1 & H2 & H3).
  split_and!; [intros i; rewrite H1|intros i; rewrite H2|intros t; rewrite H3; by apply expire_owned].
  - rewrite expire_leases. destruct (decide (i = id)) as [->|Hne].
    + rewrite decide_False by set_solver. destruct (live b id); [rewrite !decide_True by set_solver|rewrite !decide_False by naive_solver]; done.
    + rewrite (expire_live b id i Hne), (decide_False (P := i = id /\ _)) by (by intros [? _]).
      apply decide_ext. set_solver.
  - rewrite expire_sweep, lookup_delete. repeat case_decide; try done; set_solver.
Qed.

End sweep.

Section sweep_ids.
Context {N : Numbers} {NL : NumberLaws} (exec : command -> db -> reply * db) {Doc : Documented exec} (p : string).

Lemma release_up (st : LeaseState) id (b : books) (d : db) :
  st <> LeaseStateReserved ->
  Rep p b d -> sound b ->
  exists d', release exec p id st (mkConn [] d) = (inl (live b id), mkConn [] d') /\
    Rep p (expire_lease st b id) d' /\ sound (expire_lease st b id) /\
    leaseTTL (memory (expire_lease st b id)) = leaseTTL (memory b) /\ accounted b (expire_lease st b id).
Proof.
  intros Hst HR Hs. assert (exists o, expire_lease st b id = book_step o b /\ legal p o b d) as (o & Ho & Hleg).
  { unfold expire_lease. destruct (leases (memory b) !! id) as [l|] eqn:E; eexists; (split; [done|]); [|done].
    split; [done|]. intros l'. rewrite E. by intros [= <-]. }
  destruct (step_sound p o b d HR Hs Hleg) as (Hs' & Httl & Hacc). rewrite <- Ho in *. clear o Ho Hleg.
  unfold release. rewrite !(command_of_call exec). pose proof (call_hget exec p b d id "tenant" HR) as E. unfold live, expire_lease in *.
  destruct (leases (memory b) !! id) as [l|] eqn:El; simpl in E.
  - rewrite (proj1 (encode_lookup l)) in E. rewrite (exchange_up _ _ _ _ E). cbn [bulk book_step] in *. rewrite El in *.
    case_decide as Hr; [rewrite bool_decide_true by done|rewrite bool_decide_false by done].
    + destruct (sound_live b id l Hs El Hr) as [Ha Hb].
      destruct (release_runs exec p st 0 id l b d HR Hs) as (d' & E' & HR'); [done..| |].
      { pose proof (so_refunds b Hs (TenantID (lease l))) as [H0 H1].
        pose proof (LedgerFacts.held_ge _ (TenantID (lease l)) id l (so_wf b Hs) El) as Hge.
        rewrite LedgerFacts.hold_reserved, decide_True in Hge by done. unfold in_int64, min_int64 in *. lia. }
      exists d'. rewrite (exchange_up _ _ _ _ E'). by split_and!.
    + destruct (release_stands exec p (TenantID (lease l)) st id b d HR) as (d' & E' & HR').
      { intros l'. rewrite El. by intros [= <-]. }
      exists d'. rewrite (exchange_up _ _ _ _ E'). by split_and!.
  - rewrite lookup_empty in E. rewrite (exchange_up _ _ _ _ E). cbn [bulk].
    destruct (call_zrem exec p b d id HR) as (r & d' & E' & HR'). exists d'. rewrite ?(command_of_call exec), (exchange_up _ _ _ _ E'). by split_and!.
Qed.

Lemma sweep_ids_up (ids : list string) : forall n (b : books) (d : db), NoDup ids -> Rep p b d -> sound b ->
  exists d', sweep_ids exec p ids n (mkConn [] d) = (inl (n + live_count ids b), mkConn [] d') /\
    Rep p (expire_all LeaseStateExpired ids b) d' /\ sound (expire_all LeaseStateExpired ids b).
Proof.
  induction ids as [|id ids IH]; intros n b d Hnd HR Hs; cbn [sweep_ids expire_all].
  { exists d. unfold live_count. cbn. by rewrite Z.add_0_r. }
  apply NoDup_cons in Hnd as [Hid Hnd]. destruct (release_up LeaseStateExpired id b d ltac:(done) HR Hs) as (d1 & -> & HR1 & Hs1 & _).
  destruct (IH (if live b id then n + 1 else n) (expire_lease LeaseStateExpired b id) d1 Hnd HR1 Hs1) as (d2 & E & H). exists d2. split; [|done].
  rewrite E. do 2 f_equal. unfold live_count. rewrite ListFacts.filter_bool_cons.
  rewrite (ListFacts.filter_bool_ext (live (expire_lease LeaseStateExpired b id)) (live b)) by (intros x Hx; apply (expire_live LeaseStateExpired); set_solver).
  destruct (live b id); cbn [length]; lia.
Qed.
End sweep_ids.
End SweepFacts.

Module RedisQuota.
Import Server Lua Link Ledger RedisLedger RedisSpec RedisFacts RedisRuns Client SweepFacts.

Section props.
Context {N : Numbers} {NL : NumberLaws} (exec : command -> db -> reply * db) {Doc : Documented exec} (p : string).
Implicit Types (b : books) (d : db).

Lemma read_counter b d c t : Rep p b d -> sound b -> counterValue (exec (GET (key_of p (SCounter c t))) d).1 = count c t b.
Proof.
  intros HR Hs. pose proof (rep_content p b d HR (SCounter c t)) as Hk. cbn [content] in Hk.
  pose proof (so_counters b Hs c t) as Hc. unfold count in *. destruct (counters b c !! t) as [v|]; cbn in *.
  - rewrite (doc_get_some _ _ _ Hk). cbn. by rewrite TextFacts.ParseInt_pretty.
  - by rewrite (doc_get_none _ _ Hk).
Qed.

Lemma reads_clean b d t (cs : list counter) :
  Rep p b d -> first_error (map (fun c => (exec (GET (key_of p (SCounter c t))) d).1) cs) = None.
Proof.
  intros HR. induction cs as [|c cs IH]; [done|]. pose proof (rep_content p b d HR (SCounter c t)) as Hk. cbn [content] in Hk. cbn [map].
  destruct (counters b c !! t) as [v|]; cbn in Hk.
  - rewrite (doc_get_some _ _ _ Hk). exact IH.
  - by rewrite (doc_get_none _ _ Hk).
Qed.

Lemma balance_int64 b t v : sound b -> balances (memory b) !! t = Some v -> in_int64 v /\ balance_of (memory b) t = v.
Proof.
  intros Hs Hv. pose proof (sound_balance b t Hs) as Hb. unfold balance_of in *. rewrite Hv in *. cbn in *.
  split; [apply small_int64; unfold Datatypes.id in *; lia|done].
Qed.

(** A snapshot that nothing interleaves shows the books. *)
Lemma snapshot_reads b d t at_ : Rep p b d -> sound b ->
  TenantSnapshot exec p Up (fun _ => d) t at_ = inl
    ((fun v => Reconcile.mkSnapshot t v (count Consumed t b) (count Refunded t b) (count Debited t b) (count Epoch t b) at_)
       <$> balances (memory b) !! t).
Proof.
  intros HR Hs. unfold TenantSnapshot. pose proof (rep_content p b d HR (SBalance t)) as Hk. cbn in Hk.
  pose proof (fun c => read_counter b d c t HR Hs) as Hc.
  pose proof (Hc Consumed) as H1. pose proof (Hc Refunded) as H2. pose proof (Hc Debited) as H3. pose proof (Hc Epoch) as H4. cbn in H1, H2, H3, H4.
  destruct (balances (memory b) !! t) as [v|] eqn:Hv; cbn in Hk.
  - rewrite (doc_get_some _ _ _ Hk). cbn [fst]. rewrite H1, H2, H3, H4, TextFacts.ParseInt_pretty by (by apply (balance_int64 b t)).
    pose proof (reads_clean b d t [Consumed; Refunded; Debited; Epoch] HR) as E. cbn [map key_of] in E.
    change (first_error (Bulk ?x :: ?l)) with (first_error l). by rewrite E.
  - by rewrite (doc_get_none _ _ Hk).
Qed.

(** C8. Whatever calls any number of gateways and sweepers make and however
    their exchanges interleave, the Redis ledger is the in-process ledger:
    the server stores the balances and leases the operations of memory.go
    leave, no balance is negative, what a tenant owns stays within the exact
    integers of a binary64, and every live lease is in the sweep index. *)
Theorem redis_refines (os : list op) b d :
  Rep p b d -> sound b -> legal_run exec p (leaseTTL (memory b)) os b d ->
  let b' := booked os b in
  Rep p b' (served exec p (leaseTTL (memory b)) os d) /\ memory b' = ledger_run os (memory b) /\
  (forall t, 0 <= balance_of (memory b') t /\ owned t b' < exact) /\
  forall id l, leases (memory b') !! id = Some l -> lstate (lease l) = LeaseStateReserved ->
    sweep b' !! id = Some (deadline l (leaseTTL (memory b))).
Proof.
  intros HR Hs Hleg b'. destruct (run_books exec p os b d HR Hs Hleg) as (HR' & Hs' & Httl & Hm & _).
  split_and!; [done|done| |].
  - intros t. split; [apply (LedgerSpec.lw_balance _ (so_wf _ Hs') t)|apply (so_exact _ Hs')].
  - rewrite <- Httl. apply (so_live _ Hs').
Qed.

(** C9. Between two snapshots of one epoch that nothing interleaves, whatever
    the gateways did, the reconciler finds no drift; and the tenant lost at
    most what its counter of consumption shows. *)
Theorem reconcile_quiet (os : list op) b d t at1 at2 s1 s2 :
  Rep p b d -> sound b -> legal_run exec p (leaseTTL (memory b)) os b d ->
  TenantSnapshot exec p Up (fun _ => d) t at1 = inl (Some s1) ->
  TenantSnapshot exec p Up (fun _ => served exec p (leaseTTL (memory b)) os d) t at2 = inl (Some s2) ->
  Reconcile.sEpoch s1 = Reconcile.sEpoch s2 ->
  Reconcile.drift_of s1 s2 = 0 /\
  0 <= owned t b - owned t (booked os b) <= Reconcile.sConsumed s2 - Reconcile.sConsumed s1.
Proof.
  intros HR Hs Hleg. destruct (run_books exec p os b d HR Hs Hleg) as (HR' & Hs' & _ & _ & Hacc).
  rewrite (snapshot_reads b d t at1 HR Hs), (snapshot_reads _ _ t at2 HR' Hs').
  destruct (balances (memory b) !! t) as [v|] eqn:Hv; [|done].
  destruct (balances (memory (booked os b)) !! t) as [v'|] eqn:Hv'; [|done]. intros [= <-] [= <-]. cbn. intros He.
  destruct (Hacc t) as (_ & _ & Hp). destruct (Hp (ltac:(rewrite Hv; done))) as [_ Hid]. destruct (Hid (eq_sym He)) as (I1 & I2 & I3).
  split; [|lia]. rewrite Reconcile.drift_of_exact. cbn. unfold identity in I1.
  rewrite (proj2 (balance_int64 b t v Hs Hv)), (proj2 (balance_int64 _ t v' Hs' Hv')) in I1.
  by match goal with |- wrap64 ?x = 0 => replace x with 0 by lia end.
Qed.

Lemma settle_up id u b d :
  Rep p b d -> sound b -> legal_call (CSettle id u) b -> (RedisLedger.Settle exec p id u (mkConn [] d)).1 = None.
Proof.
  intros HR Hs (Hu & Hex & Hl). unfold RedisLedger.Settle. rewrite (command_of_call exec).
  pose proof (call_hget exec p b d id "tenant" HR) as E. destruct (leases (memory b) !! id) as [l|] eqn:El; simpl in E.
  - rewrite (proj1 (encode_lookup l)) in E. rewrite (exchange_up _ _ _ _ E). cbn [bulk].
    destruct (decide (lstate (lease l) = LeaseStateReserved)) as [Hr|Hr].
    + destruct (sound_live b id l Hs El Hr) as [Ha Hb].
      destruct (settle_runs exec p 0 u id l b d HR Hs Hu El Hr) as (a & d' & E' & _).
      { split; [lia|]. split; [by apply (Hl l)|]. pose proof (so_refunds b Hs (TenantID (lease l))) as [H0 H1].
        pose proof (LedgerFacts.held_ge _ (TenantID (lease l)) id l (so_wf b Hs) El) as Hge.
        rewrite LedgerFacts.hold_reserved, decide_True in Hge by done. unfold in_int64, min_int64 in *. lia. }
      by rewrite (exchange_up _ _ _ _ E').
    + destruct (settle_stands exec p (TenantID (lease l)) u id b d HR) as (a & E'); [intros l'; rewrite El; by intros [= <-]|].
      by rewrite (exchange_up _ _ _ _ E').
  - rewrite lookup_empty in E. by rewrite (exchange_up _ _ _ _ E).
Qed.

Lemma cancel_up id b d : Rep p b d -> sound b -> (RedisLedger.Cancel exec p id (mkConn [] d)).1 = None.
Proof.
  intros HR Hs. unfold RedisLedger.Cancel. pose proof (lookup_tenant exec p b (mkConn [] d) id HR) as (r & ls & E & Hr).
  unfold release. rewrite E. cbn [srv] in *.
  assert (ls = []) as -> by (unfold exchange in E; destruct (command_of _ _ _) as [[x|x] y]; by injection E as _ <-).
  destruct r as [[| |t| | |x]|x]; try by destruct Hr.
  3:{ destruct Hr as (l & El & ->). destruct (decide (lstate (lease l) = LeaseStateReserved)) as [Hl|Hl].
      - destruct (sound_live b id l Hs El Hl) as [Ha Hb].
        destruct (release_runs exec p LeaseStateCancelled 0 id l b d HR Hs) as (d' & E' & _); [done..| |by rewrite (exchange_up _ _ _ _ E')].
        pose proof (so_refunds b Hs (TenantID (lease l))) as [H0 H1].
        pose proof (LedgerFacts.held_ge _ (TenantID (lease l)) id l (so_wf b Hs) El) as Hge.
        rewrite LedgerFacts.hold_reserved, decide_True in Hge by done. unfold in_int64, min_int64 in *. lia.
      - destruct (release_stands exec p (TenantID (lease l)) LeaseStateCancelled id b d HR) as (d' & E' & _);
          [intros l'; rewrite El; by intros [= <-]|]. by rewrite (exchange_up _ _ _ _ E'). }
  all: destruct (call_zrem exec p b d id HR) as (y & d' & E' & _); rewrite (command_of_call exec); by rewrite (exchange_up _ _ _ _ E').
Qed.

(** With the server answering, a call answers what the in-process ledger
    answers: the same lease or the same refusal, the same balance, the same
    verdict on provisioning; but settling or cancelling an id without a
    record is no error here, where memory.go reports it. *)
Theorem redis_answers b d :
  Rep p b d -> sound b ->
  (forall now id t a, legal p (OReserve now id t a) b d ->
     (RedisLedger.Reserve exec p (leaseTTL (memory b)) now id t a (mkConn [] d)).1 =
     match (Ledger.Reserve now id t a (memory b)).1 with inl l => inl l | inr e => inr (Denied e) end) /\
  (forall t, RedisLedger.Balance exec p t (mkConn [] d) =
     (match Ledger.Balance t (memory b) with inl v => inl v | inr e => inr (Denied e) end, mkConn [] d)) /\
  (forall t v, (RedisLedger.EnsureBalance exec p t v (mkConn [] d)).1 = inl (Ledger.EnsureBalance t v (memory b)).1) /\
  (forall id u, legal_call (CSettle id u) b -> (RedisLedger.Settle exec p id u (mkConn [] d)).1 = None) /\
  (forall id, (RedisLedger.Cancel exec p id (mkConn [] d)).1 = None).
Proof.
  intros HR Hs. split_and!.
  - intros now id t a (Hid & Ha & Hd & Hf). unfold RedisLedger.Reserve.
    destruct (Ledger.Reserve now id t a (memory b)) as [[l|e] m'] eqn:Hres; cbn [fst].
    + destruct (reserve_grants exec p (leaseTTL (memory b)) now id t a b d l m' HR Hs Ha Hid Hres) as (r & d' & E & H).
      rewrite decide_True in H by done. destruct H as [-> _]. rewrite (exchange_up _ _ _ _ E). cbn.
      by destruct (granted_memory (leaseTTL (memory b)) now id t a b l m' Hs Ha Hres) as (_ & -> & _).
    + destruct (reserve_refuses exec p (leaseTTL (memory b)) now id t a b d e HR Hs Ha) as (bal & E & Hbal); [by rewrite Hres|].
      rewrite (exchange_up _ _ _ _ E). cbn [negb Z.eqb]. by rewrite <- Hbal.
  - intros t. unfold RedisLedger.Balance, Ledger.Balance. pose proof (call_get_balance exec p b d t HR) as E.
    rewrite (command_of_call exec), (exchange_up _ _ _ _ E).
    destruct (balances (memory b) !! t) as [v|] eqn:Hv; cbn; [|done].
    by rewrite TextFacts.ParseInt_pretty by (by apply (balance_int64 b t)).
  - intros t v. unfold RedisLedger.EnsureBalance, Ledger.EnsureBalance, exchange, command_of, call. cbn [next links srv].
    pose proof (rep_content p b d HR (SBalance t)) as Hk. cbn in Hk. destruct (balances (memory b) !! t) as [w|]; cbn in Hk.
    + by rewrite (doc_setnx_some _ _ _ _ Hk).
    + by rewrite (doc_setnx_none _ _ _ Hk).
  - intros id u. by apply settle_up.
  - intros id. by apply (cancel_up id b d).
Qed.

(** C17. A Go call whose exchanges are lost, before the server or on the way
    back, leaves a sound ledger: no balance is negative, every balance
    movement has its counter movement, and a lease the caller never heard of
    is in the sweep index. *)
Theorem lost_exchanges_are_safe (g : gcall) b c :
  Rep p b (srv c) -> sound b -> legal_call g b ->
  exists b', Rep p b' (srv (invoke exec p (leaseTTL (memory b)) g c)) /\ accounted b b' /\
    (forall t, 0 <= balance_of (memory b') t /\ owned t b' < exact) /\
    forall id l, leases (memory b') !! id = Some l -> lstate (lease l) = LeaseStateReserved ->
      sweep b' !! id = Some (deadline l (leaseTTL (memory b))).
Proof.
  intros HR Hs Hg. destruct (invoke_ran exec p _ g b c HR Hs eq_refl Hg) as [b' Hran].
  destruct (ran_holds exec p _ b _ b' _ HR Hs eq_refl Hran) as (HR' & Hs' & Httl & Hacc). exists b'.
  split_and!; [done|done| |].
  - intros t. split; [apply (LedgerSpec.lw_balance _ (so_wf _ Hs') t)|apply (so_exact _ Hs')].
  - rewrite <- Httl. apply (so_live _ Hs').
Qed.

(** One sweep reclaims the live leases among the first [limit] entries of
    the index that are due, in the order of their deadlines, and counts them;
    it refunds each in full, so what a tenant owns does not move; the entries
    it visited leave the index; nothing that is not due is touched. *)
Theorem redis_sweep now limit b d :
  Rep p b d -> sound b -> 0 < limit ->
  exists d' b' l, l ≡ₚ up_to (UnixMilli now) (sweep b) /\ Sorted by_score l /\
  let ids := take (Z.to_nat limit) l.*1 in
  RedisLedger.SweepOnce exec p now limit (mkConn [] d) = (inl (live_count ids b), mkConn [] d') /\ Rep p b' d' /\ sound b' /\
  (forall i, leases (memory b') !! i =
     if decide (i ∈ ids /\ live b i = true) then terminate LeaseStateExpired 0 <$> leases (memory b) !! i
     else leases (memory b) !! i) /\
  (forall i, sweep b' !! i = if decide (i ∈ ids) then None else sweep b !! i) /\
  (forall t, owned t b' = owned t b) /\
  (forall i, i ∈ ids -> exists s, sweep b !! i = Some s /\ (s <= fof_int (UnixMilli now))%Q) /\
  (Z.of_nat (length l) <= limit -> forall i s, sweep b !! i = Some s -> (s <= fof_int (UnixMilli now))%Q -> i ∈ ids).
Proof.
  intros HR Hs Hlim.
  destruct (doc_zrange (sweepKey p) (UnixMilli now) limit (sweep b) d (rep_sweep p b d HR) Hlim) as (l & Hperm & Hsort & E).
  set (ids := take (Z.to_nat limit) l.*1).
  assert (forall i s, (i, s) ∈ l <-> sweep b !! i = Some s /\ (s <= fof_int (UnixMilli now))%Q) as Hin.
  { intros i s. rewrite Hperm. unfold up_to. rewrite list_elem_of_filter, elem_of_map_to_list. cbn. rewrite Qle_bool_iff. tauto. }
  assert (NoDup ids) as Hnd.
  { apply (sublist_NoDup _ l.*1); [|apply sublist_take]. rewrite Hperm. unfold up_to.
    apply (sublist_NoDup _ (map_to_list (sweep b)).*1); [apply NoDup_fst_map_to_list|]. apply fmap_sublist, sublist_filter. }
  destruct (sweep_ids_up exec p ids 0 b d Hnd HR Hs) as (d' & Eids & HR' & Hs').
  destruct (expire_all_effect LeaseStateExpired ltac:(done) ids b Hnd Hs) as (H1 & H2 & H3).
  exists d', (expire_all LeaseStateExpired ids b), l.
  split; [exact Hperm|]. split; [exact Hsort|]. fold ids. split_and!; [|exact HR'|exact Hs'|exact H1|exact H2|exact H3| |].
  - unfold RedisLedger.SweepOnce. rewrite (command_of_call exec).
    assert (call exec (ZRANGEBYSCORE (sweepKey p) (UnixMilli now) limit) d = (inl (Members ids), d)) as Ec by (unfold call; by rewrite E).
    by rewrite (exchange_up _ _ _ _ Ec), Eids.
  - intros i Hi. apply elem_of_take in Hi as (k & Hk & _). apply list_elem_of_lookup_2 in Hk.
    apply list_elem_of_fmap in Hk as ([i' s] & -> & Hs0). exists s. by apply Hin.
  - intros Hlen i s Hi Hle. unfold ids. rewrite take_ge by (rewrite length_fmap; lia). apply list_elem_of_fmap.
    exists (i, s). split; [done|by apply Hin].
Qed.
End props.
End RedisQuota.

(** ** A concrete ledger *)
Module RedisScenario.
Import Server Lua Link Ledger RedisLedger RedisSpec RedisFacts RedisRuns Client SweepFacts RedisQuota.
#[local] Existing Instance Reference.numbers.
#[local] Existing Instance Reference.number_laws.
#[local] Existing Instance Reference.reference_documented.

Definition prefix : string := namespacedKeyPrefix "staging".
Definition at_second (n : Z) : Z := unixEpoch + n * second.
Definition no_books : books := mkBooks NewMemory (fun _ => ∅) ∅.
Definition no_keys : db := mkDb ∅ ∅.

Lemma rep_empty (p : string) : Rep p no_books no_keys.
Proof.
  split.
  - intros [t|id|c t]; done.
  - by left.
  - intros k Hk. cbn in Hk. set_solver.
Qed.

Lemma sound_empty : sound no_books.
Proof.
  by split; [split|..].
Qed.

Abbreviation ttl := defaultLeaseTTL.
Abbreviation serve := (serve Reference.exec prefix ttl).
Abbreviation served := (served Reference.exec prefix ttl).

(** A tenant with 1000 tokens and a live lease of 100. *)
Definition opening : list op := [OSetBalance "acme" 1000; OReserve (at_second 5) "lease-1" "acme" 100].
Definition books1 : books := booked opening no_books.
Definition db1 : db := served opening no_keys.

Lemma opening_legal : legal_run Reference.exec prefix ttl opening no_books no_keys.
Proof. split; [split_and!; by vm_compute|]. split; [|done]. split_and!; by vm_compute. Qed.

Lemma opened : Rep prefix books1 db1 /\ sound books1.
Proof.
  destruct (run_books Reference.exec prefix opening no_books no_keys (rep_empty prefix) sound_empty opening_legal) as (H1 & H2 & _).
  by split.
Qed.

(** What a tenant's account shows: balance, debits, refunds, consumption. *)
Definition account (d : db) : Z * Z * Z * Z :=
  let read k := counterValue (Reference.exec (GET k) d).1 in
  (read (balanceKey prefix "acme"), read (debitedKey prefix "acme"), read (refundedKey prefix "acme"), read (consumedKey prefix "acme")).

Example lease_settled : account (serve (OSettle "acme" "lease-1" 30) db1) = (970, 100, 70, 30).
Proof. by vm_compute. Qed.

Example lease_swept :
  let (r, c) := SweepOnce Reference.exec prefix (at_second 606) 10 (mkConn [] db1) in
  r = inl 1 /\ account (srv c) = (1000, 100, 100, 0) /\
  account (serve (OSettle "acme" "lease-1" 30) (srv c)) = (1000, 100, 100, 0).
Proof. by vm_compute. Qed.

(** A reply that is lost: the caller hears of a failure, the lease is there. *)
Example reply_lost :
  let (r, c) := Reserve Reference.exec prefix ttl (at_second 6) "lease-2" "acme" 50 (mkConn [Unanswered] db1) in
  r = inr (Backend Unreachable) /\ account (srv c) = (850, 150, 0, 0) /\
  (SweepOnce Reference.exec prefix (at_second 700) 10 (mkConn [] (srv c))).1 = inl 2.
Proof. by vm_compute. Qed.

(** The five reads of a snapshot are no transaction: a reservation between
    the first and the rest reads as drift. *)
Example torn_snapshot :
  let d0 := served [OSetBalance "acme" 1000] no_keys in
  let snapshot seen := TenantSnapshot Reference.exec prefix Up seen "acme" 0 in
  match snapshot (fun _ => d0), snapshot (fun i => match i with O => d0 | _ => db1 end) with
  | inl (Some s1), inl (Some s2) => Reconcile.sEpoch s1 = Reconcile.sEpoch s2 /\ Reconcile.drift_of s1 s2 = 100
  | _, _ => False
  end.
Proof. by vm_compute. Qed.

(** Above 2^53 the script computes with a rounded balance: one token is
    reserved, two are gone. *)
Example above_exact :
  let d := served [OSetBalance "acme" (exact + 1); OReserve (at_second 5) "lease-1" "acme" 1] no_keys in
  account d = (exact - 1, 1, 0, 0).
Proof. by vm_compute. Qed.

(** A debit counter at its limit: the script fails after it took the balance,
    and there is no lease to give it back. *)
Example debit_overflow :
  let d := put (debitedKey prefix "acme") (VString (pretty max_int64)) (served [OSetBalance "acme" 1000] no_keys) in
  let (r, c) := Reserve Reference.exec prefix ttl (at_second 5) "lease-1" "acme" 100 (mkConn [] d) in
  r = inr (Backend (Raised "overflow")) /\ account (srv c) = (900, max_int64, 0, 0) /\
  keys (srv c) !! leaseKey prefix "lease-1" = None.
Proof. by vm_compute. Qed.

Lemma redis_refines_witness :
  memory books1 = ledger_run opening NewMemory /\ Rep prefix books1 db1 /\ balance_of (memory books1) "acme" = 900 /\
  sweep books1 !! "lease-1" = Some (fadd (fof_int 5000) (fof_int 600000)).
Proof.
  destruct (redis_refines Reference.exec prefix opening no_books no_keys (rep_empty prefix) sound_empty opening_legal)
    as (HR & Hm & _ & Hl).
  split; [exact Hm|]. split; [exact HR|]. split; [by vm_compute|].
  exact (Hl "lease-1" (new_lease (at_second 5) "lease-1" "acme" 100) ltac:(by vm_compute) eq_refl).
Defined.

Lemma settle_legal : legal_run Reference.exec prefix ttl [OSettle "acme" "lease-1" 30] books1 db1.
Proof.
  split; [|done]. split; [by vm_compute|]. split; [by vm_compute|]. intros l Hl _. vm_compute in Hl. injection Hl as <-.
  by vm_compute.
Qed.

Lemma reconcile_quiet_witness :
  let s1 := Reconcile.mkSnapshot "acme" 900 0 0 100 1 7 in
  let s2 := Reconcile.mkSnapshot "acme" 970 30 70 100 1 8 in
  TenantSnapshot Reference.exec prefix Up (fun _ => db1) "acme" 7 = inl (Some s1) /\
  TenantSnapshot Reference.exec prefix Up (fun _ => served [OSettle "acme" "lease-1" 30] db1) "acme" 8 = inl (Some s2) /\
  Reconcile.drift_of s1 s2 = 0.
Proof.
  intros s1 s2. assert (H1 : TenantSnapshot Reference.exec prefix Up (fun _ => db1) "acme" 7 = inl (Some s1)) by (by vm_compute).
  assert (H2 : TenantSnapshot Reference.exec prefix Up (fun _ => served [OSettle "acme" "lease-1" 30] db1) "acme" 8 = inl (Some s2))
    by (by vm_compute).
  split; [exact H1|]. split; [exact H2|].
  exact (proj1 (reconcile_quiet Reference.exec prefix [OSettle "acme" "lease-1" 30] books1 db1 "acme" 7 8 s1 s2
    (proj1 opened) (proj2 opened) settle_legal H1 H2 eq_refl)).
Defined.

Lemma redis_answers_witness :
  (Reserve Reference.exec prefix ttl (at_second 6) "lease-2" "acme" 5000 (mkConn [] db1)).1 = inr (Denied ErrInsufficientBalance) /\
  Balance Reference.exec prefix "acme" (mkConn [] db1) = (inl 900, mkConn [] db1) /\
  (Settle Reference.exec prefix "lease-9" 5 (mkConn [] db1)).1 = None.
Proof.
  destruct (redis_answers Reference.exec prefix books1 db1 (proj1 opened) (proj2 opened)) as (H1 & H2 & _ & H4 & _).
  split; [|split; [exact (H2 "acme")|apply H4]].
  - apply (H1 (at_second 6) "lease-2" "acme" 5000). split_and!; by vm_compute.
  - split; [by vm_compute|]. split; [by vm_compute|]. intros l Hl. by vm_compute in Hl.
Defined.

Lemma lost_exchanges_are_safe_witness :
  exists b', Rep prefix b' (srv (invoke Reference.exec prefix ttl (CReserve (at_second 6) "lease-2" "acme" 50) (mkConn [Unanswered] db1))) /\
  accounted books1 b'.
Proof.
  destruct (lost_exchanges_are_safe Reference.exec prefix (CReserve (at_second 6) "lease-2" "acme" 50) books1
    (mkConn [Unanswered] db1) (proj1 opened) (proj2 opened)) as (b' & HR & Ha & _).
  - split_and!; by vm_compute.
  - exists b'. split; [exact HR|exact Ha].
Defined.

Lemma redis_sweep_witness :
  exists d', SweepOnce Reference.exec prefix (at_second 606) 10 (mkConn [] db1) = (inl 1, mkConn [] d') /\
  account d' = (1000, 100, 100, 0).
Proof.
  destruct (redis_sweep Reference.exec prefix (at_second 606) 10 books1 db1 (proj1 opened) (proj2 opened) eq_refl)
    as (d' & b' & l & _ & _ & E & _).
  assert (E' : SweepOnce Reference.exec prefix (at_second 606) 10 (mkConn [] db1)
    = (inl 1, (SweepOnce Reference.exec prefix (at_second 606) 10 (mkConn [] db1)).2)) by (by vm_compute).
  exists d'. rewrite E in E' |- *. injection E' as Hn. split; [by rewrite Hn|].
  assert (mkConn [] d' = (SweepOnce Reference.exec prefix (at_second 606) 10 (mkConn [] db1)).2) as Hc by (by rewrite E).
  transitivity (account (srv (SweepOnce Reference.exec prefix (at_second 606) 10 (mkConn [] db1)).2)); [by rewrite <- Hc|by vm_compute].
Defined.
End RedisScenario.
