(* ===== verification/RedisLimiter.v ===== *)
(** * The Redis token buckets (limiter/redis.go, tokenbucket.lua, refund.lua)

    The scripts over the server and the language of Redis.v, the methods of
    the Go backend over one exchange, and what a bucket under a key means.
    TIME is read once per script and is an argument; numbers are written
    with [tostring] (fourteen digits) or as a command argument, which is what
    [Printer] stands for. *)
From Stdlib Require Import QArith Qround Lqa.
From stdpp Require Import base numbers gmap strings pretty list.
From S2P Require Import Prelude Float64 Limiter Stream Text Redis RedisLedger.
Import GoInt GoTime.
Local Open Scope Z_scope.

(** ** The scripts *)
Module BucketScripts.
Import Server Lua.

(** How the interpreter writes a number: [tostring], and the argument of a
    command. *)
Class Printer := { tostring : Q -> string; argument : Q -> string }.

(** What is written reads back: fourteen digits keep the integers up to
    10^14 and the order, an argument keeps an integral number. *)
Class PrinterLaws `{Numbers} `{Printer} : Prop := {
  tostring_reads q : is_float q -> exists p, tonumber (tostring q) = Some p /\ is_float p /\ ((0 <= q)%Q -> (0 <= p)%Q) /\
    forall z, 0 <= z <= 10 ^ 14 -> (q <= inject_Z z)%Q -> (p <= inject_Z z)%Q;
  argument_reads q z : is_float q -> (q == inject_Z z)%Q -> tonumber (argument q) = Some q
}.

Section scripts.
Context `{Numbers} `{!Printer} (exec : command -> db -> reply * db).

#[local] Notation "x <- m ;; k" := (bind m (fun x => k)) (at level 100, m at next level, right associativity).
#[local] Notation "m ;; k" := (bind m (fun _ => k)) (at level 100, right associativity).
Local Abbreviation call := (call exec).

(** The two strings TIME answers, as milliseconds. *)
Definition now_of (time : string * string) : script Q :=
  s <- arith (tonumber time.1);;
  us <- arith (tonumber time.2);;
  ret (fadd (fmul s (fof_int 1000)) (fof_int (Qfloor (fdiv us (fof_int 1000))))).

Definition disabled : Q := fof_int (-1).

(** The tokens of a bucket brought up to [now]; -1 without a ceiling. *)
Definition refill (now idle_ms : Q) (key : string) (cap : Q) : script Q :=
  if Qle_bool cap 0 then ret disabled
  else
    tokens <- call (HGET key "tokens");;
    ts <- call (HGET key "ts");;
    match to_number tokens with
    | None =>
        call (HSET key [("tokens", tostring cap); ("ts", argument now)]);;
        call (PEXPIRE key idle_ms);;
        ret cap
    | Some tokens =>
        let rate := fdiv cap (fof_int 60000) in
        ts <- arith (to_number ts);;
        let tokens := fmin cap (fadd tokens (fmul (fsub now ts) rate)) in
        call (HSET key [("tokens", tostring tokens); ("ts", argument now)]);;
        call (PEXPIRE key idle_ms);;
        ret tokens
    end.

Definition ceil (q : Q) : Q := fof_int (Qceiling q).

(** The wait of one dimension. *)
Definition wait_of (deficit cap : Q) : Q := fmul (fdiv deficit (fdiv cap (fof_int 60000))) (fof_int 1000).

(** tokenbucket.lua: {allowed, retry_after_ms}. *)
Definition tokenbucket (rpm_key tpm_key : string) (time : string * string) (rpm_arg tpm_arg want_arg idle_arg : string) : script (Z * Z) :=
  now <- now_of time;;
  rpm_cap <- arith (tonumber rpm_arg);;
  tpm_cap <- arith (tonumber tpm_arg);;
  want <- arith (tonumber want_arg);;
  idle_ms <- arith (tonumber idle_arg);;
  rpm <- refill now idle_ms rpm_key rpm_cap;;
  tpm <- refill now idle_ms tpm_key tpm_cap;;
  let rpm_off := Qeq_bool rpm disabled in
  let tpm_off := Qeq_bool tpm disabled in
  let rpm_ok := rpm_off || Qle_bool 1 rpm in
  let tpm_ok := tpm_off || Qle_bool want tpm in
  if rpm_ok && tpm_ok then
    (if negb rpm_off then call (HSET rpm_key [("tokens", tostring (fsub rpm 1))]);; ret tt else ret tt);;
    (if negb tpm_off then call (HSET tpm_key [("tokens", tostring (fsub tpm want))]);; ret tt else ret tt);;
    ret (1, 0)
  else
    let wait := if negb rpm_off && negb rpm_ok then fmax 0 (wait_of (fsub 1 rpm) rpm_cap) else 0%Q in
    let wait := if negb tpm_off && negb tpm_ok then fmax wait (wait_of (fsub want tpm) tpm_cap) else wait in
    let wait := if lt wait 1 then 1%Q else wait in
    ret (0, long_of (ceil wait)).

(** refund.lua. *)
Definition refund (key : string) (time : string * string) (cap_arg refund_arg idle_arg : string) : script Z :=
  now <- now_of time;;
  cap <- arith (tonumber cap_arg);;
  back <- arith (tonumber refund_arg);;
  idle_ms <- arith (tonumber idle_arg);;
  if Qle_bool cap 0 || Qle_bool back 0 then ret 0
  else
    stored <- call (HGET key "tokens");;
    stamp <- call (HGET key "ts");;
    let '(tokens, ts) := match to_number stored with None => (cap, Some now) | Some tokens => (tokens, to_number stamp) end in
    ts <- arith ts;;
    let rate := fdiv cap (fof_int 60000) in
    let tokens := fmin cap (fadd (fadd tokens (fmul (fsub now ts) rate)) back) in
    call (HSET key [("tokens", tostring tokens); ("ts", argument now)]);;
    call (PEXPIRE key idle_ms);;
    ret 1.
End scripts.
End BucketScripts.

(** ** The backend (redis.go) *)
Module RedisLimiter.
Import Server Lua Link BucketScripts Memory.

Definition defaultKeyPrefix : string := "bw:limiter:".
Definition namespacedKeyPrefix (namespace : string) : string :=
  if String.eqb namespace "" then defaultKeyPrefix else namespace +:+ ":" +:+ defaultKeyPrefix.

Definition retryAfterDuration (retryMs : Z) : Z :=
  if (retryMs <? 0) || (Z.quot max_int64 millisecond <? retryMs) then max_int64 else wrap64 (retryMs * millisecond).

Section redis.
Context `{Numbers} `{!Printer} (exec : command -> db -> reply * db).
Variable keyPrefix : string.

Definition rpmKey (tenantID : string) : string := keyPrefix +:+ tenantID +:+ ":rpm".
Definition tpmKey (tenantID : string) : string := keyPrefix +:+ tenantID +:+ ":tpm".

(** [time] is what TIME answers on the server. *)
Definition Allow (time : string * string) (tenantID : string) (limits : Limits) (tokens : Z) (c : conn) : (Decision + Link.error) * conn :=
  let run := tokenbucket exec (rpmKey tenantID) (tpmKey tenantID) time (pretty (RPM limits)) (pretty (TPM limits)) (pretty tokens)
               (pretty (Z.quot bucketIdleTTL millisecond)) in
  match exchange run c with
  | (inr e, c) => (inr e, c)
  | (inl (allowed, retryMs), c) => (inl (mkDecision (allowed =? 1) (retryAfterDuration retryMs)), c)
  end.

Definition Refund (time : string * string) (tenantID : string) (limits : Limits) (tokens : Z) (c : conn) : option Link.error * conn :=
  if (tokens <=? 0) || (TPM limits <=? 0) then (None, c)
  else
    let run := refund exec (tpmKey tenantID) time (pretty (TPM limits)) (pretty tokens) (pretty (Z.quot bucketIdleTTL millisecond)) in
    match exchange run c with
    | (inr e, c) => (Some e, c)
    | (inl _, c) => (None, c)
    end.
End redis.
End RedisLimiter.

(** ** What the buckets mean *)
Module BucketSpec.
Import Server Lua BucketScripts.
Section spec.
Context `{Numbers} `{!Printer}.

(** The tokens and the time a key holds; [None] is no key. *)
Definition bucket_at (d : db) (key : string) (b : option (Q * Q)) : Prop :=
  match b with
  | None => keys d !! key = None
  | Some (tokens, ts) => exists h s s', keys d !! key = Some (VHash h) /\ h !! "tokens" = Some s /\ tonumber s = Some tokens /\
      h !! "ts" = Some s' /\ tonumber s' = Some ts
  end.

(** A bucket the scripts left before [now]. *)
Definition bucket_ok (now : Q) (b : option (Q * Q)) : Prop :=
  match b with None => True | Some (tokens, ts) => is_float tokens /\ (0 <= tokens)%Q /\ (ts <= now)%Q end.

(** The bucket at [now]: full where there is none, and refilled at a
    sixty-thousandth of the ceiling per millisecond. *)
Definition level (cap : Z) (now : Q) (b : option (Q * Q)) : Q :=
  match b with
  | None => fof_int cap
  | Some (tokens, ts) => fmin (fof_int cap) (fadd tokens (fmul (fsub now ts) (fdiv (fof_int cap) (fof_int 60000))))
  end.

(** The strings the scripts write for [q] tokens at [now]. *)
Definition written (d : db) (key : string) (q now : Q) : Prop :=
  exists h, keys d !! key = Some (VHash h) /\ h !! "tokens" = Some (tostring q) /\ h !! "ts" = Some (argument now).

(** What a script leaves of one dimension: [q] tokens at [now], or the key
    as it was where the dimension has no ceiling. *)
Definition dimension (d d' : db) (key : string) (cap : Z) (now q : Q) : Prop :=
  if decide (0 < cap) then written d' key q now else keys d' !! key = keys d !! key.
End spec.
End BucketSpec.

Module BucketFacts.
Import Server Lua Link BucketScripts Memory RedisLimiter BucketSpec.
Section facts.
Context {N : Numbers} {NL : NumberLaws} {Pr : Printer} {PL : PrinterLaws} (exec : command -> db -> reply * db) {Doc : Documented exec}.
Implicit Types (d : db).

Lemma bind_run {A B} (m : script A) (k : A -> script B) d a d' : m d = (inl a, d') -> bind m k d = k a d'.
Proof. unfold bind. by intros ->. Qed.

Lemma call_run c d r d' : exec c d = (r, d') -> (forall e, r <> Err e) -> call exec c d = (inl r, d').
Proof. unfold call. intros ->. by destruct r as [| | | | |e]; [..|intros []%(fun H => H e eq_refl)]. Qed.

Lemma arith_int z d : arith (tonumber (pretty z)) d = (inl (fof_int z), d).
Proof. by rewrite tonumber_integer. Qed.

(** *** TIME *)
Definition time_ms (s us : Z) : Q := fadd (fmul (fof_int s) (fof_int 1000)) (fof_int (Qfloor (fdiv (fof_int us) (fof_int 1000)))).

Lemma now_run s us d : now_of (pretty s, pretty us) d = (inl (time_ms s us), d).
Proof. unfold now_of. by erewrite bind_run by apply arith_int; erewrite bind_run by apply arith_int. Qed.

(** An instant of the next hundred thousand years. *)
Definition time_ok (s us : Z) : Prop := 0 <= s < 2 ^ 42 /\ 0 <= us < 10 ^ 6.

Lemma fof_int_small z : Z.abs z <= 2 ^ 53 -> (fof_int z == inject_Z z)%Q.
Proof. intros. by apply rnd_int. Qed.

Lemma time_integer s us : time_ok s us -> exists z, (time_ms s us == inject_Z z)%Q.
Proof.
  intros [Hs Hus]. unfold time_ms. set (k := Qfloor (fdiv (fof_int us) (fof_int 1000))).
  assert (0 <= k <= 1000) as Hk.
  { assert (0 <= fof_int us)%Q as H0 by (rewrite fof_int_small by lia; change 0%Q with (inject_Z 0); rewrite <- Zle_Qle; lia).
    assert (0 <= fdiv (fof_int us) (fof_int 1000) <= 1000)%Q as [H1 H2].
    { split; [by apply fdiv_nonneg|]. apply rnd_le_float; [reflexivity|]. rewrite !fof_int_small by lia.
      apply Qle_shift_div_r; [reflexivity|]. change (1000 * inject_Z 1000)%Q with (inject_Z (10 ^ 6)). rewrite <- Zle_Qle. lia. }
    split; [by apply (Qfloor_resp_le 0)|]. by apply (Qfloor_resp_le _ 1000). }
  assert (fmul (fof_int s) (fof_int 1000) == inject_Z (s * 1000))%Q as Hm.
  { unfold fmul. rewrite !fof_int_small by lia. rewrite <- inject_Z_mult. apply rnd_int. unfold prec. lia. }
  exists (s * 1000 + k). unfold fadd. rewrite Hm, (fof_int_small k) by lia. rewrite <- inject_Z_plus. apply rnd_int. unfold prec. lia.
Qed.

Lemma time_float s us : is_float (time_ms s us).
Proof. apply rnd_is_float. Qed.

(** *** Levels *)
Lemma fmin_le_l x y : (fmin x y <= x)%Q.
Proof. unfold fmin. destruct (Qle_bool x y) eqn:E; [apply Qle_refl|]. apply Qlt_le_weak, Qnot_le_lt. rewrite <- Qle_bool_iff, E. done. Qed.

Lemma level_bounds cap now b :
  0 <= cap -> bucket_ok now b -> is_float (level cap now b) /\ (0 <= level cap now b)%Q /\ (level cap now b <= fof_int cap)%Q.
Proof.
  intros Hcap Hb. assert (0 <= fof_int cap)%Q as Hc by (apply rnd_nonneg; change 0%Q with (inject_Z 0); by rewrite <- Zle_Qle).
  destruct b as [[tokens ts]|]; cbn; [|split_and!; [apply rnd_is_float|done|apply Qle_refl]].
  destruct Hb as (Hf & H0 & Hts). set (x := fadd _ _). assert (0 <= x)%Q as Hx.
  { apply rnd_nonneg. assert (0 <= fmul (fsub now ts) (fdiv (fof_int cap) (fof_int 60000)))%Q; [|lra].
    apply fmul_nonneg; [apply rnd_nonneg; lra|]. by apply fdiv_nonneg. }
  split_and!; [|unfold fmin; by destruct (Qle_bool _ _)|apply fmin_le_l].
  unfold fmin. destruct (Qle_bool _ _); apply rnd_is_float.
Qed.

(** *** One bucket on the server *)
(** Only [key] differs. *)
Definition elsewhere (key : string) d d' : Prop := forall k, k <> key -> keys d' !! k = keys d !! k.

Lemma elsewhere_trans key d d1 d2 : elsewhere key d d1 -> elsewhere key d1 d2 -> elsewhere key d d2.
Proof. intros H1 H2 k Hk. rewrite H2, H1 by done. done. Qed.

Lemma hget_run d key b :
  bucket_at d key b ->
  exists r r', call exec (HGET key "tokens") d = (inl r, d) /\ call exec (HGET key "ts") d = (inl r', d) /\
    to_number r = (fst <$> b) /\ (is_Some b -> to_number r' = (snd <$> b)).
Proof.
  destruct b as [[tokens ts]|]; cbn.
  - intros (h & s & s' & Hk & Hs & Ht & Hs' & Ht'). exists (Bulk s), (Bulk s'). split_and!.
    + apply call_run; [|done]. rewrite (doc_hget key "tokens" h d) by (by right). by rewrite Hs.
    + apply call_run; [|done]. rewrite (doc_hget key "ts" h d) by (by right). by rewrite Hs'.
    + done.
    + by intros _.
  - intros Hk. exists Nil, Nil. split_and!; [| |done|by intros []].
    + apply call_run; [|done]. by rewrite (doc_hget key "tokens" ∅ d) by (by left).
    + apply call_run; [|done]. by rewrite (doc_hget key "ts" ∅ d) by (by left).
Qed.

Lemma hash_of_bucket d key b : bucket_at d key b -> exists h, hash_at d key h.
Proof.
  destruct b as [[tokens ts]|]; cbn; [|intros Hk; exists ∅; by left].
  intros (h & s & s' & Hk & _). exists h. by right.
Qed.

(** The write of both fields and of the horizon. *)
Lemma save_run d key h q now idle :
  hash_at d key h -> (0 < idle)%Q ->
  exists r r' d1 d2, call exec (HSET key [("tokens", tostring q); ("ts", argument now)]) d = (inl r, d1) /\
    call exec (PEXPIRE key idle) d1 = (inl r', d2) /\ written d2 key q now /\ elsewhere key d d2.
Proof.
  intros Hh Hidle. destruct (doc_hset key [("tokens", tostring q); ("ts", argument now)] h d Hh) as [n Hn]; [done|].
  set (d1 := put _ _ _) in Hn. assert (keys d1 !! key = Some (VHash (<["ts" := argument now]> (<["tokens" := tostring q]> h)))) as Hk
    by (cbn; by rewrite lookup_insert_eq).
  destruct (doc_pexpire key _ idle d1 Hk Hidle) as [n' Hn'].
  exists (Int n), (Int n'), d1, (mkDb (keys d1) ({[key]} ∪ volatile d1)). split_and!.
  - by apply call_run.
  - by apply call_run.
  - eexists. split; [exact Hk|]. rewrite lookup_insert_ne, !lookup_insert_eq by done. done.
  - intros k Hne. cbn. by rewrite lookup_insert_ne.
Qed.

(** The write of the tokens alone. *)
Lemma deduct_run d key q q' now :
  written d key q now ->
  exists r d1, call exec (HSET key [("tokens", tostring q')]) d = (inl r, d1) /\ written d1 key q' now /\ elsewhere key d d1.
Proof.
  intros (h & Hk & _ & Hts). destruct (doc_hset key [("tokens", tostring q')] h d) as [n Hn]; [by right|done|].
  exists (Int n), (put key (VHash (<["tokens" := tostring q']> h)) d). split_and!.
  - by apply call_run.
  - eexists. cbn. rewrite lookup_insert_eq. split; [done|]. rewrite lookup_insert_eq, lookup_insert_ne by done. done.
  - intros k Hne. cbn. by rewrite lookup_insert_ne.
Qed.

(** What is written reads back as a bucket, on the same side of zero and of
    the ceiling. *)
Lemma written_left d key cap now q z :
  written d key q now -> is_float q -> is_float now -> (now == inject_Z z)%Q -> 0 <= cap ->
  exists p, bucket_at d key (Some (p, now)) /\ is_float p /\ ((0 <= q)%Q -> (0 <= p)%Q) /\
    (cap <= 10 ^ 14 -> (q <= inject_Z cap)%Q -> (p <= inject_Z cap)%Q).
Proof.
  intros (h & Hk & Ht & Hts) Hq Hn Hz Hcap. destruct (tostring_reads q Hq) as (p & Hp & Hf & H0 & Hle).
  exists p. split_and!; [|done|done|intros Hc; apply Hle; lia].
  exists h, (tostring q), (argument now). split_and!; [done..|]. by apply (argument_reads now z).
Qed.

Lemma refill_run d key b now idle cap :
  bucket_at d key b -> (0 < idle)%Q -> 0 < cap -> Qle_bool (fof_int cap) 0 = false ->
  exists d', refill exec now idle key (fof_int cap) d = (inl (level cap now b), d') /\ written d' key (level cap now b) now /\ elsewhere key d d'.
Proof.
  intros Hb Hidle Hcap Hpos. unfold refill. rewrite Hpos. destruct (hget_run d key b Hb) as (r & r' & Hr & Hr' & Hn & Hn').
  destruct (hash_of_bucket d key b Hb) as [h Hh].
  destruct (save_run d key h (level cap now b) now idle Hh Hidle) as (a1 & a2 & d1 & d2 & H1 & H2 & Hw & He).
  exists d2. erewrite bind_run by exact Hr. erewrite bind_run by exact Hr'. rewrite Hn.
  destruct b as [[tokens ts]|]; cbn [fmap option_fmap option_map fst level] in *.
  - erewrite bind_run by (rewrite Hn' by done; reflexivity). cbn zeta.
    erewrite bind_run by exact H1. by erewrite bind_run by exact H2.
  - erewrite bind_run by exact H1. by erewrite bind_run by exact H2.
Qed.

Lemma ceiling_sign cap : (0 < cap -> Qle_bool (fof_int cap) 0 = false) /\ (cap <= 0 -> Qle_bool (fof_int cap) 0 = true).
Proof.
  split; intros Hc.
  - apply not_true_is_false. rewrite Qle_bool_iff. apply Qlt_not_le. apply rnd_pos_strict.
    change 0%Q with (inject_Z 0). by rewrite <- Zlt_Qlt.
  - apply Qle_bool_iff. rewrite <- rnd_0. apply rnd_mono. change 0%Q with (inject_Z 0). by rewrite <- Zle_Qle.
Qed.

(** One dimension of the script: what it works with and what it leaves. *)
Lemma dimension_run d key b now idle cap :
  bucket_at d key b -> (0 < idle)%Q ->
  exists d' q, refill exec now idle key (fof_int cap) d = (inl q, d') /\ elsewhere key d d' /\
    q = (if decide (0 < cap) then level cap now b else disabled) /\ dimension d d' key cap now q.
Proof.
  intros Hb Hidle. unfold dimension. case_decide as Hc.
  - destruct (refill_run d key b now idle cap Hb Hidle Hc) as (d' & H1 & H2 & H3); [by apply ceiling_sign|]. eauto 8.
  - exists d, disabled. unfold refill. rewrite (proj2 (ceiling_sign cap)) by lia. split_and!; done.
Qed.

Lemma bucket_at_same d d' key b : keys d' !! key = keys d !! key -> bucket_at d key b -> bucket_at d' key b.
Proof. intros E. unfold bucket_at. destruct b as [[tokens ts]|]; by rewrite E. Qed.

(** A dimension is off exactly where it has no ceiling. *)
Lemma off_iff (cap : Z) now b q :
  bucket_ok now b -> q = (if decide (0 < cap) then level cap now b else disabled) ->
  Qeq_bool q disabled = bool_decide (cap <= 0).
Proof.
  intros Hb ->. case_decide as Hc.
  - rewrite bool_decide_false by lia. apply not_true_is_false. rewrite Qeq_bool_iff. intros E.
    destruct (level_bounds cap now b) as (_ & H0 & _); [lia|done|]. rewrite E in H0. by vm_compute in H0.
  - by rewrite bool_decide_true by lia.
Qed.

(** The deduction of an admitted request in one dimension. *)
Lemma charge_run d d0 key cap now q q' b :
  bucket_ok now b -> q = (if decide (0 < cap) then level cap now b else disabled) -> dimension d0 d key cap now q ->
  exists d', (if negb (Qeq_bool q disabled) then bind (call exec (HSET key [("tokens", tostring q')])) (fun _ => ret tt) else ret tt) d
      = (inl tt, d') /\ elsewhere key d d' /\ dimension d0 d' key cap now q'.
Proof.
  intros Hb Hq. rewrite (off_iff cap now b q Hb Hq). unfold dimension. case_decide as Hc.
  - rewrite bool_decide_false by lia. intros Hw. destruct (deduct_run d key q q' now Hw) as (r & d1 & H1 & H2 & H3).
    exists d1. split_and!; [|done..]. cbn [negb]. by erewrite bind_run by exact H1.
  - rewrite bool_decide_true by lia. intros Hk. by exists d.
Qed.

(** What the script answers and leaves of both buckets. *)
Definition decided d d' (kr kt : string) (l : Limits) (want : Z) (now qr qt : Q) (ans : Z * Z) : Prop :=
  let admits := (0 < RPM l -> (1 <= qr)%Q) /\ (0 < TPM l -> (fof_int want <= qt)%Q) in
  (ans = (1, 0) /\ admits /\ dimension d d' kr (RPM l) now (fsub qr 1) /\ dimension d d' kt (TPM l) now (fsub qt (fof_int want))) \/
  (ans.1 = 0 /\ in_int64 ans.2 /\ ~ admits /\ dimension d d' kr (RPM l) now qr /\ dimension d d' kt (TPM l) now qt).

Lemma affords_iff (cap : Z) now b q (cost : Q) :
  bucket_ok now b -> q = (if decide (0 < cap) then level cap now b else disabled) ->
  Qeq_bool q disabled || Qle_bool cost q = true <-> (0 < cap -> (cost <= level cap now b)%Q).
Proof.
  intros Hb Hq. rewrite (off_iff cap now b q Hb Hq), orb_true_iff, bool_decide_eq_true, Qle_bool_iff, Hq.
  case_decide as Hc.
  - split; [by intros [?|?]; [lia|]|intros Hle; right; by apply Hle].
  - split; [intros _ ?; lia|intros _; left; lia].
Qed.

Lemma dimension_same d0 d d' key cap now q : keys d' !! key = keys d !! key -> dimension d0 d key cap now q -> dimension d0 d' key cap now q.
Proof. intros E. unfold dimension, written. by rewrite E. Qed.

Lemma dimension_from d0 d1 d key cap now q : keys d1 !! key = keys d0 !! key -> dimension d1 d key cap now q -> dimension d0 d key cap now q.
Proof. intros E. unfold dimension. by rewrite E. Qed.

Lemma tokenbucket_run d kr kt br bt (l : Limits) want idle s us :
  kr <> kt -> bucket_at d kr br -> bucket_at d kt bt -> bucket_ok (time_ms s us) br -> bucket_ok (time_ms s us) bt -> 0 < idle ->
  exists ans d', tokenbucket exec kr kt (pretty s, pretty us) (pretty (RPM l)) (pretty (TPM l)) (pretty want) (pretty idle) d = (inl ans, d') /\
    decided d d' kr kt l want (time_ms s us) (level (RPM l) (time_ms s us) br) (level (TPM l) (time_ms s us) bt) ans /\
    (forall k, k <> kr -> k <> kt -> keys d' !! k = keys d !! k).
Proof.
  intros Hne Hr Ht Hor Hot Hidle. set (now := time_ms s us) in *. unfold tokenbucket.
  assert (0 < fof_int idle)%Q as Hi by (apply rnd_pos_strict; change 0%Q with (inject_Z 0); by rewrite <- Zlt_Qlt).
  erewrite bind_run by apply now_run. do 4 (erewrite bind_run by apply arith_int).
  destruct (dimension_run d kr br now (fof_int idle) (RPM l) Hr Hi) as (d1 & qr & Hrun1 & He1 & Hqr & Hd1).
  erewrite bind_run by exact Hrun1. apply (bucket_at_same d d1) in Ht; [|by apply He1].
  destruct (dimension_run d1 kt bt now (fof_int idle) (TPM l) Ht Hi) as (d2 & qt & Hrun2 & He2 & Hqt & Hd2).
  erewrite bind_run by exact Hrun2. cbn zeta.
  apply (dimension_from d) in Hd2; [|by apply He1]. apply (dimension_same d d1 d2) in Hd1; [|by apply He2].
  assert (forall k, k <> kr -> k <> kt -> keys d2 !! k = keys d !! k) as Hframe by (intros; rewrite He2, He1 by done; done).
  pose proof (affords_iff (RPM l) now br qr 1 Hor Hqr) as Har. pose proof (affords_iff (TPM l) now bt qt (fof_int want) Hot Hqt) as Hat.
  destruct ((Qeq_bool qr disabled || Qle_bool 1 qr) && (Qeq_bool qt disabled || Qle_bool (fof_int want) qt)) eqn:Hadm.
  - apply andb_true_iff in Hadm as [H1 H2]. pose proof (proj1 Har H1) as Ha1. pose proof (proj1 Hat H2) as Ha2.
    destruct (charge_run d2 d kr (RPM l) now qr (fsub qr 1) br Hor Hqr Hd1) as (d3 & Hrun3 & He3 & Hd3).
    erewrite bind_run by exact Hrun3. apply (dimension_same d d2 d3) in Hd2; [|by apply He3].
    destruct (charge_run d3 d kt (TPM l) now qt (fsub qt (fof_int want)) bt Hot Hqt Hd2) as (d4 & Hrun4 & He4 & Hd4).
    erewrite bind_run by exact Hrun4. apply (dimension_same d d3 d4) in Hd3; [|by apply He4].
    exists (1, 0), d4. split; [done|]. split; [left|by intros; rewrite He4, He3, Hframe].
    split; [done|]. split; [by split|]. split; unfold dimension in *; subst; by repeat case_decide.
  - eexists (0, _), d2. split; [reflexivity|]. split; [right|done].
    split; [done|]. split; [apply long_range|]. split; [intros [H1 H2]; apply (proj2 Har) in H1; apply (proj2 Hat) in H2; by rewrite H1, H2 in Hadm|].
    split; unfold dimension in *; subst; by repeat case_decide.
Qed.

(** *** A refund *)
Definition refunded (cap back : Z) (now : Q) (b : option (Q * Q)) : Q :=
  let '(tokens, ts) := match b with None => (fof_int cap, now) | Some x => x end in
  fmin (fof_int cap) (fadd (fadd tokens (fmul (fsub now ts) (fdiv (fof_int cap) (fof_int 60000)))) (fof_int back)).

Lemma refunded_bounds cap back now b :
  0 <= cap -> 0 <= back -> bucket_ok now b ->
  is_float (refunded cap back now b) /\ (0 <= refunded cap back now b)%Q /\ (refunded cap back now b <= fof_int cap)%Q.
Proof.
  intros Hcap Hback Hb. assert (0 <= fof_int cap)%Q as Hc by (apply rnd_nonneg; change 0%Q with (inject_Z 0); by rewrite <- Zle_Qle).
  assert (0 <= fof_int back)%Q as Hbk by (apply rnd_nonneg; change 0%Q with (inject_Z 0); by rewrite <- Zle_Qle).
  unfold refunded. set (x := match b with None => _ | Some x => x end).
  assert ((0 <= x.1)%Q /\ (x.2 <= now)%Q) as [Hx1 Hx2].
  { unfold x. destruct b as [[tokens ts]|]; cbn in *; [by destruct Hb as (_ & ? & ?)|]. split; [done|apply Qle_refl]. }
  destruct x as [tokens ts]; cbn [fst snd] in *.
  assert (0 <= fmul (fsub now ts) (fdiv (fof_int cap) (fof_int 60000)))%Q as Hm.
  { apply fmul_nonneg; [apply rnd_nonneg; lra|]. by apply fdiv_nonneg. }
  set (y := fadd (fadd _ _) _). assert (0 <= y)%Q as Hy.
  { apply rnd_nonneg. assert (0 <= fadd tokens (fmul (fsub now ts) (fdiv (fof_int cap) (fof_int 60000))))%Q; [apply rnd_nonneg; lra|lra]. }
  split_and!; [|unfold fmin; by destruct (Qle_bool _ _)|apply fmin_le_l]. unfold fmin. destruct (Qle_bool _ _); apply rnd_is_float.
Qed.

Lemma refund_run d key b cap back idle s us :
  bucket_at d key b -> 0 < cap -> 0 < back -> 0 < idle ->
  exists d', refund exec key (pretty s, pretty us) (pretty cap) (pretty back) (pretty idle) d = (inl 1, d') /\
    written d' key (refunded cap back (time_ms s us) b) (time_ms s us) /\ elsewhere key d d'.
Proof.
  intros Hb Hcap Hback Hidle. unfold refund. erewrite bind_run by apply now_run. do 3 (erewrite bind_run by apply arith_int).
  rewrite (proj1 (ceiling_sign cap)), (proj1 (ceiling_sign back)) by done. cbn [orb].
  assert (0 < fof_int idle)%Q as Hi by (apply rnd_pos_strict; change 0%Q with (inject_Z 0); by rewrite <- Zlt_Qlt).
  destruct (hget_run d key b Hb) as (r & r' & Hr & Hr' & Hn & Hn'). destruct (hash_of_bucket d key b Hb) as [h Hh].
  destruct (save_run d key h (refunded cap back (time_ms s us) b) (time_ms s us) (fof_int idle) Hh Hi) as (a1 & a2 & d1 & d2 & H1 & H2 & Hw & He).
  exists d2. erewrite bind_run by exact Hr. erewrite bind_run by exact Hr'. rewrite Hn.
  destruct b as [[tokens ts]|]; cbn [fmap option_fmap option_map fst snd refunded] in *.
  - erewrite bind_run by (rewrite Hn' by done; reflexivity). cbn zeta. erewrite bind_run by exact H1. by erewrite bind_run by exact H2.
  - erewrite bind_run by reflexivity. cbn zeta. erewrite bind_run by exact H1. by erewrite bind_run by exact H2.
Qed.

(** *** Keys *)
Variable p : string.

Lemma last_char (x y : string) (a b : Ascii.ascii) : x +:+ String a "" = y +:+ String b "" -> a = b.
Proof.
  revert y. induction x as [|c x IH]; intros [|c' y] E.
  - by injection E.
  - injection E as _ E. apply (f_equal String.length) in E. rewrite string_app_length in E. cbn in E. lia.
  - injection E as _ E. apply (f_equal String.length) in E. rewrite string_app_length in E. cbn in E. lia.
  - injection E as _ E. by apply (IH y).
Qed.

Lemma rpm_tpm_apart id id' : rpmKey p id <> tpmKey p id'.
Proof.
  unfold rpmKey, tpmKey. intros E%RedisFacts.string_app_inj_l.
  change ":rpm" with (":r" +:+ "pm") in E. change ":tpm" with (":t" +:+ "pm") in E. rewrite <- !string_app_assoc in E.
  apply string_app_inj_r in E. change ":r" with (":" +:+ "r") in E. change ":t" with (":" +:+ "t") in E. rewrite <- !string_app_assoc in E.
  by apply last_char in E.
Qed.
Lemma rpm_inj id id' : rpmKey p id = rpmKey p id' -> id = id'.
Proof. intros E%RedisFacts.string_app_inj_l. by apply string_app_inj_r in E. Qed.
Lemma tpm_inj id id' : tpmKey p id = tpmKey p id' -> id = id'.
Proof. intros E%RedisFacts.string_app_inj_l. by apply string_app_inj_r in E. Qed.
End facts.
End BucketFacts.

(** ** Any number of gateways on one server *)
Module BucketRuns.
Import Server Lua Link BucketScripts Memory RedisLimiter BucketSpec BucketFacts.

(** A call of one gateway, or a key whose horizon ran out. *)
Inductive op := OAllow (id : string) (want : Z) | ORefund (id : string) (back : Z) | OExpire (key : string).

Section runs.
Context {N : Numbers} {Pr : Printer} (exec : command -> db -> reply * db) (p : string) (limits : string -> Limits).

(** The op at the instant [s], [us] of the server. *)
Definition apply (s us : Z) (o : op) (c : conn) : conn :=
  match o with
  | OAllow id want => (Allow exec p (pretty s, pretty us) id (limits id) want c).2
  | ORefund id back => (Refund exec p (pretty s, pretty us) id (limits id) back c).2
  | OExpire key => mkConn (links c) (expire key (srv c))
  end.

Fixpoint run (evs : list (Z * Z * op)) (c : conn) : conn :=
  match evs with [] => c | (s, us, o) :: evs => run evs (apply s us o c) end.

Definition asks (o : op) : Prop := match o with OAllow _ want => 0 <= want | _ => True end.

(** The server's clock does not go back, and no request asks for less than
    nothing. *)
Fixpoint ordered (now : Q) (evs : list (Z * Z * op)) : Prop :=
  match evs with
  | [] => True
  | (s, us, o) :: evs => time_ok s us /\ (now <= time_ms s us)%Q /\ asks o /\ ordered (time_ms s us) evs
  end.
Fixpoint finish (now : Q) (evs : list (Z * Z * op)) : Q :=
  match evs with [] => now | (s, us, _) :: evs => finish (time_ms s us) evs end.

Definition within (cap : Z) (b : option (Q * Q)) : Prop :=
  match b with Some (tokens, _) => (0 <= tokens <= inject_Z cap)%Q | None => True end.

(** A key holds a bucket that is readable and within its ceiling. *)
Definition sound_key (now : Q) (cap : Z) (d : db) (key : string) : Prop :=
  exists b, bucket_at d key b /\ bucket_ok now b /\ within cap b.
Definition sound (now : Q) (d : db) : Prop :=
  forall id, sound_key now (RPM (limits id)) d (rpmKey p id) /\ sound_key now (TPM (limits id)) d (tpmKey p id).
Definition limits_bounded : Prop := forall id, 0 <= RPM (limits id) <= 10 ^ 14 /\ 0 <= TPM (limits id) <= 10 ^ 14.
End runs.
End BucketRuns.

Module BucketProps.
Import Server Lua Link BucketScripts Memory RedisLimiter BucketSpec BucketFacts BucketRuns.
Section props.
Context {N : Numbers} {NL : NumberLaws} {Pr : Printer} {PL : PrinterLaws} (exec : command -> db -> reply * db) {Doc : Documented exec}.
Variables (p : string) (limits : string -> Limits).
Implicit Types (d : db) (c : conn).

Lemma sound_key_later now now' cap d key : (now <= now')%Q -> sound_key now cap d key -> sound_key now' cap d key.
Proof.
  intros Hle (b & H1 & H2 & H3). exists b. split_and!; [done| |done]. destruct b as [[tokens ts]|]; [|done]. cbn in *.
  destruct H2 as (? & ? & ?). split_and!; [done..|]. by eapply Qle_trans.
Qed.

Lemma sound_key_same now cap d d' key : keys d' !! key = keys d !! key -> sound_key now cap d key -> sound_key now cap d' key.
Proof. intros E (b & H1 & H2 & H3). exists b. split_and!; [by apply (bucket_at_same d)|done..]. Qed.

Lemma sound_key_written now cap d key q z :
  written d key q now -> is_float q -> (0 <= q)%Q -> (q <= fof_int cap)%Q -> is_float now -> (now == inject_Z z)%Q ->
  0 <= cap <= 10 ^ 14 -> sound_key now cap d key.
Proof.
  intros Hw Hq H0 Hle Hn Hz Hcap. destruct (written_left d key cap now q z Hw Hq Hn Hz ltac:(lia)) as (t & Hb & Hf & Hp0 & Hpc).
  exists (Some (t, now)). cbn. split_and!; [done|done|auto|apply Qle_refl|auto|]. apply Hpc; [lia|].
  rewrite <- (fof_int_small cap) by lia. done.
Qed.

Lemma dimension_sound now0 s us cap d d' key b q :
  time_ok s us -> 0 <= cap <= 10 ^ 14 -> (now0 <= time_ms s us)%Q -> bucket_at d key b -> bucket_ok now0 b -> within cap b ->
  (0 < cap -> is_float q /\ (0 <= q)%Q /\ (q <= fof_int cap)%Q) ->
  dimension d d' key cap (time_ms s us) q -> sound_key (time_ms s us) cap d' key.
Proof.
  intros Ht Hcap Hle Hb Hok Hw Hq. unfold dimension. case_decide as Hc.
  - intros Hwr. destruct (time_integer s us Ht) as [z Hz]. destruct (Hq Hc) as (? & ? & ?).
    apply (sound_key_written _ cap d' key q z); auto using time_float.
  - intros E. apply (sound_key_same _ cap d d' key E). apply (sound_key_later now0); [done|]. by exists b.
Qed.

Lemma bucket_exchange_srv {A} (f : db -> (A + string) * db) c :
  srv (exchange f c).2 = srv c \/ srv (exchange f c).2 = (f (srv c)).2.
Proof.
  unfold exchange. destruct (next c) as [[] ls]; cbn; [|by left|by right]. right. by destruct (f (srv c)) as [[a|e] d].
Qed.

Lemma ok_later now now' b : (now <= now')%Q -> bucket_ok now b -> bucket_ok now' b.
Proof. intros Hle. destruct b as [[tokens ts]|]; [|done]. cbn. intros (? & ? & ?). split_and!; [done..|]. by eapply Qle_trans. Qed.

Lemma allow_sound now0 s us id want d :
  limits_bounded limits -> time_ok s us -> (now0 <= time_ms s us)%Q -> 0 <= want -> sound p limits now0 d ->
  exists ans d', tokenbucket exec (rpmKey p id) (tpmKey p id) (pretty s, pretty us) (pretty (RPM (limits id))) (pretty (TPM (limits id)))
    (pretty want) (pretty (Z.quot bucketIdleTTL millisecond)) d = (inl ans, d') /\ sound p limits (time_ms s us) d'.
Proof.
  intros Hlim Ht Hle Hwant Hs. destruct (Hs id) as [(br & Hr & Hor & Hwr) (bt & Hbt & Hot & Hwt)]. destruct (Hlim id) as [HR HT].
  destruct (tokenbucket_run exec d (rpmKey p id) (tpmKey p id) br bt (limits id) want (Z.quot bucketIdleTTL millisecond) s us)
    as (ans & d' & Hrun & Hdec & Hframe); eauto using rpm_tpm_apart, ok_later; [done|].
  exists ans, d'. split; [exact Hrun|]. set (now := time_ms s us) in *.
  destruct (level_bounds (RPM (limits id)) now br) as (Lr1 & Lr2 & Lr3); [lia|by eapply ok_later|].
  destruct (level_bounds (TPM (limits id)) now bt) as (Lt1 & Lt2 & Lt3); [lia|by eapply ok_later|].
  assert (0 <= fof_int want)%Q as Hw0 by (apply rnd_nonneg; change 0%Q with (inject_Z 0); by rewrite <- Zle_Qle).
  assert (sound_key now (RPM (limits id)) d' (rpmKey p id) /\ sound_key now (TPM (limits id)) d' (tpmKey p id)) as [H1 H2].
  { destruct Hdec as [(_ & [Ha1 Ha2] & D1 & D2)|(_ & _ & _ & D1 & D2)]; split.
    - eapply dimension_sound; try exact D1; eauto. intros Hc. split_and!; [apply rnd_is_float|apply rnd_nonneg; specialize (Ha1 Hc); lra|].
      eapply Qle_trans; [apply fsub_le; [done|lra]|done].
    - eapply dimension_sound; try exact D2; eauto. intros Hc. split_and!; [apply rnd_is_float|apply rnd_nonneg; specialize (Ha2 Hc); lra|].
      eapply Qle_trans; [apply fsub_le; [done|lra]|done].
    - eapply dimension_sound; try exact D1; eauto.
    - eapply dimension_sound; try exact D2; eauto. }
  intros id'. destruct (decide (id' = id)) as [->|Hne]; [done|]. destruct (Hs id') as [Hs1 Hs2].
  split; (eapply sound_key_same; [|eapply sound_key_later; [exact Hle|done]]); apply Hframe;
    intros E; try (by apply rpm_tpm_apart in E); try (by symmetry in E; apply rpm_tpm_apart in E);
    [apply rpm_inj in E|apply tpm_inj in E]; done.
Qed.

Lemma refund_sound now0 s us id back d :
  limits_bounded limits -> time_ok s us -> (now0 <= time_ms s us)%Q -> 0 < back -> 0 < TPM (limits id) -> sound p limits now0 d ->
  exists d', refund exec (tpmKey p id) (pretty s, pretty us) (pretty (TPM (limits id))) (pretty back)
    (pretty (Z.quot bucketIdleTTL millisecond)) d = (inl 1, d') /\ sound p limits (time_ms s us) d'.
Proof.
  intros Hlim Ht Hle Hback Hcap Hs. destruct (Hs id) as [_ (b & Hb & Hok & Hw)].
  destruct (refund_run exec d (tpmKey p id) b (TPM (limits id)) back (Z.quot bucketIdleTTL millisecond) s us Hb Hcap Hback) as (d' & Hrun & Hwr & He);
    [done|].
  exists d'. split; [exact Hrun|]. destruct (Hlim id) as [_ HT]. destruct (time_integer s us Ht) as [z Hz].
  destruct (refunded_bounds (TPM (limits id)) back (time_ms s us) b) as (R1 & R2 & R3); [lia..|by eapply ok_later|].
  intros id'. destruct (Hs id') as [Hs1 Hs2]. split.
  - eapply sound_key_same; [|by eapply sound_key_later]. apply He. apply rpm_tpm_apart.
  - destruct (decide (id' = id)) as [->|Hne]; [by eapply sound_key_written; eauto using time_float|].
    eapply sound_key_same; [|by eapply sound_key_later]. apply He. by intros E%tpm_inj.
Qed.
Lemma bucket_expire_sound now now' key d : (now <= now')%Q -> sound p limits now d -> sound p limits now' (expire key d).
Proof.
  intros Hle Hs id. assert (forall cap k, sound_key now cap d k -> sound_key now' cap (expire key d) k) as Hk.
  { intros cap k Hk. unfold expire. case_decide; [|by eapply sound_key_later]. destruct (decide (k = key)) as [->|Hne].
    - exists None. cbn. split; [by rewrite lookup_delete_eq|done].
    - eapply sound_key_same; [|by eapply sound_key_later]. cbn. by rewrite lookup_delete_ne. }
  destruct (Hs id). split; by apply Hk.
Qed.

Lemma later_sound now now' d : (now <= now')%Q -> sound p limits now d -> sound p limits now' d.
Proof. intros Hle Hs id. destruct (Hs id). split; by eapply sound_key_later. Qed.

(** Whichever side of the call the exchange is lost on. *)
Lemma exchange_sound {A} now0 now (f : db -> (A + string) * db) c a d' :
  (now0 <= now)%Q -> sound p limits now0 (srv c) -> f (srv c) = (inl a, d') -> sound p limits now d' ->
  sound p limits now (srv (exchange f c).2).
Proof. intros Hle H0 Hf Hd. destruct (bucket_exchange_srv f c) as [->| ->]; [by eapply later_sound|by rewrite Hf]. Qed.

Lemma apply_sound now s us o c :
  limits_bounded limits -> time_ok s us -> (now <= time_ms s us)%Q -> asks o -> sound p limits now (srv c) ->
  sound p limits (time_ms s us) (srv (apply exec p limits s us o c)).
Proof.
  intros Hlim Ht Hle Ha Hs. destruct o as [id want|id back|key]; cbn.
  - destruct (allow_sound now s us id want (srv c) Hlim Ht Hle Ha Hs) as (ans & d' & Hrun & Hd).
    pose proof (exchange_sound now _ _ c ans d' Hle Hs Hrun Hd) as Hx. unfold Allow.
    by destruct (exchange _ c) as [[[? ?]|e] c'].
  - unfold Refund. destruct ((back <=? 0) || (TPM (limits id) <=? 0)) eqn:E; [by eapply later_sound|].
    apply orb_false_iff in E as [E1 E2]. apply Z.leb_gt in E1, E2.
    destruct (refund_sound now s us id back (srv c) Hlim Ht Hle E1 E2 Hs) as (d' & Hrun & Hd).
    pose proof (exchange_sound now _ _ c 1 d' Hle Hs Hrun Hd) as Hx.
    by destruct (exchange _ c) as [[?|e] c'].
  - by eapply bucket_expire_sound.
Qed.

Lemma run_sound evs now c :
  limits_bounded limits -> ordered now evs -> sound p limits now (srv c) -> sound p limits (finish now evs) (srv (run exec p limits evs c)).
Proof.
  intros Hlim. revert now c. induction evs as [|[[s us] o] evs IH]; intros now c Ho Hs; [done|].
  destruct Ho as (Ht & Hle & Ha & Ho). cbn. apply IH; [done|]. by eapply apply_sound.
Qed.
End props.
End BucketProps.
