(* ===== verification/RedisLimiterProps.v ===== *)
(** * Properties of the Redis token buckets

    What one call of the backend decides and leaves, what any number of
    gateways on one server keep, and the two backends side by side. *)
From Stdlib Require Import QArith Qround.
From stdpp Require Import base numbers gmap strings pretty list.
From S2P Require Import Prelude Float64 Limiter Stream Text Redis RedisLedger RedisLimiter.
Import GoInt GoTime Server Lua Link BucketScripts Memory RedisLimiter BucketSpec BucketFacts BucketRuns BucketProps.
Local Open Scope Z_scope.

Section redis_limiter.
Context {N : Numbers} {NL : NumberLaws} {Pr : Printer} {PL : PrinterLaws} (exec : command -> db -> reply * db) {Doc : Documented exec}.
Variables (p : string) (limits : string -> Limits).
Implicit Types (d : db) (c : conn).

(** C19. Over a reachable server [Allow] always answers, and admits a request
    exactly when each enabled dimension holds enough: one request for RPM,
    [want] tokens for TPM, both at the level the bucket refilled to.  An
    admitted request leaves the level less one request in the one bucket and
    less [want] tokens in the other, a refused one leaves both levels as they
    refilled, in the strings the script writes and at its time; a dimension
    without a ceiling keeps its key, and no other key is touched.  An
    admitted request waits for nothing. *)
Theorem redis_allow_decides d id br bt want s us :
  let l := limits id in let now := time_ms s us in
  time_ok s us -> 0 <= RPM l -> 0 <= TPM l ->
  bucket_at d (rpmKey p id) br -> bucket_at d (tpmKey p id) bt -> bucket_ok now br -> bucket_ok now bt ->
  exists dec d', Allow exec p (pretty s, pretty us) id l want (mkConn [] d) = (inl dec, mkConn [] d') /\
    (Allowed dec = true <-> (0 < RPM l -> (1 <= level (RPM l) now br)%Q) /\ (0 < TPM l -> (fof_int want <= level (TPM l) now bt)%Q)) /\
    dimension d d' (rpmKey p id) (RPM l) now (if Allowed dec then fsub (level (RPM l) now br) 1 else level (RPM l) now br) /\
    dimension d d' (tpmKey p id) (TPM l) now (if Allowed dec then fsub (level (TPM l) now bt) (fof_int want) else level (TPM l) now bt) /\
    (forall k, k <> rpmKey p id -> k <> tpmKey p id -> keys d' !! k = keys d !! k) /\
    (Allowed dec = true -> RetryAfter dec = 0).
Proof.
  intros l now Ht HR HT Hr Hb Hor Hot.
  destruct (tokenbucket_run exec d (rpmKey p id) (tpmKey p id) br bt l want (Z.quot bucketIdleTTL millisecond) s us)
    as (ans & d' & Hrun & Hdec & Hframe); auto using rpm_tpm_apart; [done|].
  exists (mkDecision (ans.1 =? 1) (retryAfterDuration ans.2)), d'.
  split; [unfold Allow, exchange; cbn [next links srv]; rewrite Hrun; by destruct ans|].
  destruct Hdec as [(-> & Hadm & D1 & D2)|(Hans & _ & Hno & D1 & D2)]; cbn [Allowed RetryAfter fst snd]; [change (1 =? 1) with true|rewrite Hans; change (0 =? 1) with false];
    by split_and!.
Qed.

(** C18. However many gateways share the server, whichever exchanges are lost
    and whenever the idle horizon drops a key, every bucket is readable,
    holds between nothing and its tenant's ceiling, and is stamped with no
    time the server's clock has not reached. *)
Theorem redis_buckets_bounded evs now c :
  limits_bounded limits -> ordered now evs -> sound p limits now (srv c) ->
  sound p limits (finish now evs) (srv (run exec p limits evs c)).
Proof. apply run_sound; assumption. Qed.

(** A tenant the server has not seen. *)
Lemma fresh_agree d id want s us m now :
  time_ok s us -> 0 <= RPM (limits id) -> 0 <= TPM (limits id) ->
  keys d !! rpmKey p id = None -> keys d !! tpmKey p id = None ->
  rpm m !! Memory.rpmKey id = None -> tpm m !! Memory.tpmKey id = None ->
  exists dec c', Allow exec p (pretty s, pretty us) id (limits id) want (mkConn [] d) = (inl dec, c') /\
    Allowed dec = Allowed (allowLocked now id (limits id) want m).2.
Proof.
  intros Ht HR HT Hr Hb Hmr Hmt.
  destruct (tokenbucket_run exec d (rpmKey p id) (tpmKey p id) None None (limits id) want (Z.quot bucketIdleTTL millisecond) s us)
    as (ans & d' & Hrun & Hdec & _); [apply rpm_tpm_apart|exact Hr|exact Hb|done..|].
  exists (mkDecision (ans.1 =? 1) (retryAfterDuration ans.2)), (mkConn [] d'). split; [unfold Allow, exchange; cbn [next links srv]; rewrite Hrun; by destruct ans|]. cbn [Allowed].
  unfold allowLocked, refilled, refillOne. rewrite Hmr, Hmt. cbn [tokens].
  assert (((RPM (limits id) <=? 0) || Qle_bool 1 (fof_int (RPM (limits id)))) && ((TPM (limits id) <=? 0) || Qle_bool (fof_int want) (fof_int (TPM (limits id))))
    = true <-> (0 < RPM (limits id) -> (1 <= fof_int (RPM (limits id)))%Q) /\ (0 < TPM (limits id) -> (fof_int want <= fof_int (TPM (limits id)))%Q)) as Hiff.
  { rewrite andb_true_iff, !orb_true_iff, !Z.leb_le, !Qle_bool_iff. split.
    - intros [[?|?] [?|?]]; split; intros; try lia; done.
    - intros [H1 H2]. split.
      + destruct (decide (0 < RPM (limits id))); [right; auto|left; lia].
      + destruct (decide (0 < TPM (limits id))); [right; auto|left; lia]. }
  destruct Hdec as [(-> & Hadm & _)|(Hans & _ & Hno & _)].
  - cbn. by rewrite (proj2 Hiff Hadm).
  - rewrite Hans. destruct (_ && _); [|done]. destruct Hno. by apply Hiff.
Qed.
End redis_limiter.

(** ** A server and a clock *)
Module Printing.
(** A printer of integers: numbers lose their fraction. *)
#[export] Instance printer : Printer := { tostring q := pretty (Qfloor q); argument q := pretty (Qfloor q) }.

#[export] Instance printer_laws : @PrinterLaws Reference.numbers printer.
Proof.
  split.
  - intros q Hq. exists (fof_int (Qfloor q)). cbn. rewrite TextFacts.integer_pretty. split; [done|]. split; [apply rnd_is_float|]. split.
    + intros H0. apply fof_int_nonneg. by apply (Qfloor_resp_le 0).
    + intros z Hz Hle. apply (Qle_trans _ (fof_int z)); [|rewrite fof_int_exact by (unfold prec; lia); apply Qle_refl].
      apply fof_int_mono. apply Qfloor_resp_le in Hle. by rewrite Qfloor_Z in Hle.
  - intros q z Hq Hz. cbn. rewrite TextFacts.integer_pretty. cbn. f_equal.
    assert (Qfloor q = z) as -> by (rewrite <- (Qfloor_Z z); by apply Qfloor_comp).
    transitivity (rnd q); [|exact Hq]. by apply rnd_proper, Qeq_sym.
Qed.
End Printing.

Module BucketScenario.
#[local] Existing Instance Reference.numbers.
#[local] Existing Instance Reference.number_laws.
#[local] Existing Instance Reference.reference_documented.
#[local] Existing Instance Printing.printer.
#[local] Existing Instance Printing.printer_laws.

Definition prefix : string := "bw:limiter:".
Definition limits (_ : string) : Limits := mkLimits 60 1000.
Local Abbreviation exec := Reference.exec.
Definition no_keys : db := mkDb ∅ ∅.
Definition evs : list (Z * Z * op) :=
  [(100, 0, OAllow "acme" 400); (100, 500000, OAllow "acme" 500); (101, 0, OAllow "acme" 900);
   (102, 0, ORefund "acme" 300); (102, 7, OAllow "zenith" 1000); (300, 0, OExpire (tpmKey prefix "acme"))].
Local Abbreviation after_all := (run exec prefix limits evs (mkConn [Up; Unanswered; Up; Up; Unsent] no_keys)).

Lemma empty_sound now : sound prefix limits now no_keys.
Proof. intros id. split; exists None; by cbn. Qed.

Lemma limits_small : limits_bounded limits.
Proof. intros id. cbn. lia. Qed.

Example bucket_of_acme :
  keys (srv (run exec prefix limits (take 4 evs) (mkConn [Up; Unanswered] no_keys))) !! tpmKey prefix "acme"
  = Some (VHash {["tokens" := "432"; "ts" := "102000"]}).
Proof. by vm_compute. Qed.

Lemma redis_buckets_bounded_witness :
  ordered 0 evs /\ sound prefix limits (finish 0 evs) (srv after_all) /\
  keys (srv after_all) !! tpmKey prefix "acme" = None /\ keys (srv after_all) !! rpmKey prefix "zenith" = None.
Proof.
  split; [|split; [|split; by vm_compute]].
  - cbn. unfold time_ok. split_and!; try lia; by vm_compute.
  - apply (redis_buckets_bounded exec prefix limits evs 0 (mkConn [Up; Unanswered; Up; Up; Unsent] no_keys)).
    + exact limits_small.
    + cbn. unfold time_ok. split_and!; try lia; by vm_compute.
    + apply empty_sound.
Defined.

Lemma redis_allow_decides_witness :
  exists dec d', Allow exec prefix (pretty 100, pretty 0) "acme" (limits "acme") 400 (mkConn [] no_keys) = (inl dec, mkConn [] d') /\
    Allowed dec = true /\ written d' (tpmKey prefix "acme") (fsub (fof_int 1000) (fof_int 400)) (time_ms 100 0).
Proof.
  destruct (redis_allow_decides exec prefix limits no_keys "acme" None None 400 100 0) as (dec & d' & Hrun & Hiff & _ & Ht & _);
    [unfold time_ok; lia|by vm_compute|by vm_compute|done..|].
  exists dec, d'. split; [exact Hrun|]. assert (Allowed dec = true) as Ha by (apply Hiff; split; intros _; by vm_compute).
  split; [exact Ha|]. rewrite Ha in Ht. exact Ht.
Defined.

(** The same empty bucket of sixty requests a minute: the next request fits
    in a second. *)
Definition drained : db := mkDb {[rpmKey prefix "acme" := VHash {["tokens" := "0"; "ts" := "100000"]}]} ∅.
Definition drained_memory : Memory := mkMemory {[Memory.rpmKey "acme" := mkBucket 0 (100 * second)]} ∅ 0.

(** The in-process backend says one second; the script divides by a rate per
    millisecond and multiplies by a thousand, and says a thousand. *)
Example wait_thousandfold :
  let l := mkLimits 60 0 in
  (allowLocked (100 * second) "acme" l 0 drained_memory).2 = mkDecision false second /\
  (Allow exec prefix (pretty 100, pretty 0) "acme" l 0 (mkConn [] drained)).1 = inl (mkDecision false (1000 * second)).
Proof. split; by vm_compute. Qed.

(** A second later the bucket holds the request that was told to wait a
    thousand. *)
Example wait_too_long :
  exists d', Allow exec prefix (pretty 101, pretty 0) "acme" (mkLimits 60 0) 0 (mkConn [] drained) = (inl (mkDecision true 0), mkConn [] d').
Proof. eexists. by vm_compute. Qed.
End BucketScenario.
