(* ===== verification/RedisGateway.v ===== *)
(** * The gateway over the Redis ledger

    The port of quota.go with the ledger of redis.go behind it, and the laws
    a request relies on: the theorems of GatewayProps.v hold for this
    deployment as they do for the in-process one.  The laws hold whatever the
    lifetime counters do: the scripts move the balance first. *)
From Stdlib Require Import QArith.
From stdpp Require Import base numbers gmap strings pretty list.
From S2P Require Import Prelude Circuit CircuitPort Router Affinity Retry Quota Limiter Cache Upstream Stream Tokens Auth.
From S2P Require Import AuthCache Relay RelayProps Pipeline Governance Inference Gateway Serving Slots GatewayProps.
From S2P Require Import Float64 Text Redis RedisLedger RedisProps.
Import GoInt GoTime.
Local Open Scope Z_scope.

Module RedisPort.
Import Server Lua Link Ledger RedisLedger RedisSpec RedisFacts RedisRuns Client RedisQuota.

Section port.
Context {N : Numbers} {NL : NumberLaws} (exec : command -> db -> reply * db) {Doc : Documented exec} (p : string) (ttl : Z).
Implicit Types (b : books) (c : conn).

Definition port_reserve (now : Z) (id t : string) (amount : Z) c : (Lease + Ports.reserve_error) * conn :=
  match RedisLedger.Reserve exec p ttl now id t amount c with
  | (inl l, c) => (inl l, c)
  | (inr (Denied e), c) => (inr (Ports.Refused e), c)
  | (inr _, c) => (inr Ports.BackendDown, c)
  end.

#[export] Instance redis_ledger : Ports.LedgerPort conn := {
  Ports.Reserve := port_reserve;
  Ports.Settle _ id used c := (RedisLedger.Settle exec p id used c).2;
  Ports.Cancel _ id c := (RedisLedger.Cancel exec p id c).2
}.

Definition connected c : Prop :=
  links c = [] /\ exists b, Rep p b (srv c) /\ sound b /\ leaseTTL (memory b) = ttl.

(** No record under [id], and room in the counters. *)
Definition free (id : string) c : Prop :=
  keys (srv c) !! leaseKey p id = None /\
  forall b t, Rep p b (srv c) -> in_int64 (count Debited t b + exact) /\
    count Refunded t b + LedgerSpec.held (memory b) t + exact <= max_int64.

Definition read_balance (t : string) c : Z := counterValue (exec (GET (balanceKey p t)) (srv c)).1.

Definition holds_lease (id t : string) (amount : Z) c : Prop :=
  exists h, keys (srv c) !! leaseKey p id = Some (VHash h) /\ h !! "state" = Some "RESERVED" /\
    h !! "tenant" = Some t /\ h !! "amount" = Some (pretty amount).

Lemma read_exact b d t : Rep p b d -> in_int64 (balance_of (memory b) t) ->
  counterValue (exec (GET (balanceKey p t)) d).1 = balance_of (memory b) t.
Proof.
  intros HR Hi. pose proof (rep_content p b d HR (SBalance t)) as Hk. cbn in Hk. unfold balance_of in *.
  destruct (balances (memory b) !! t) as [v|]; cbn in *.
  - rewrite (doc_get_some _ _ _ Hk). cbn. by rewrite TextFacts.ParseInt_pretty.
  - by rewrite (doc_get_none _ _ Hk).
Qed.

Lemma read_sound b d t : Rep p b d -> sound b -> counterValue (exec (GET (balanceKey p t)) d).1 = balance_of (memory b) t.
Proof. intros HR Hs. apply read_exact; [done|]. pose proof (sound_balance b t Hs). apply small_int64. lia. Qed.

Lemma lease_absent b d id : Rep p b d -> keys d !! leaseKey p id = None -> leases (memory b) !! id = None.
Proof.
  intros HR Hn. pose proof (rep_content p b d HR (SLease id)) as Hk. cbn in Hk. rewrite Hn in Hk.
  by destruct (leases (memory b) !! id).
Qed.

Lemma lease_held b c id t amount :
  Rep p b (srv c) -> holds_lease id t amount c ->
  exists l, leases (memory b) !! id = Some l /\ lstate (lease l) = LeaseStateReserved /\ TenantID (lease l) = t /\ Amount (lease l) = amount.
Proof.
  intros HR (h & Hh & Hst & Ht & Ha). pose proof (rep_content p b _ HR (SLease id)) as Hk. cbn in Hk. rewrite Hh in Hk.
  destruct (leases (memory b) !! id) as [l|]; [|done]. injection Hk as Hk. change (h = encode l) in Hk. subst h. exists l.
  destruct (encode_lookup l) as (E1 & E2 & E3). rewrite E1 in Ht. rewrite E2 in Ha. rewrite E3 in Hst.
  split_and!; [done|by apply state_text_reserved; congruence|congruence|]. injection Ha as Ha. by apply (inj pretty) in Ha.
Qed.

Lemma redis_reserve_holds now id t amount c l c' :
  connected c -> free id c -> 0 <= amount -> port_reserve now id t amount c = (inl l, c') ->
  ID l = id /\ connected c' /\ read_balance t c' = read_balance t c - amount /\ holds_lease id t amount c' /\
  forall u, u <> t -> read_balance u c' = read_balance u c.
Proof.
  intros [Hlinks (b & HR & Hs & Httl)] [Hfree Hroom] Ha. destruct c as [ls d]. cbn in Hlinks, HR, Hfree, Hroom. subst ls.
  pose proof (lease_absent b d id HR Hfree) as Hid. destruct (Hroom b t HR) as [Hd Hf]. unfold port_reserve, RedisLedger.Reserve.
  destruct (Ledger.Reserve now id t amount (memory b)) as [[l0|e] m'] eqn:Hres.
  2:{ destruct (reserve_refuses exec p ttl now id t amount b d e HR Hs Ha) as (bal & E & _); [by rewrite Hres|].
      by rewrite (exchange_up _ _ _ _ E). }
  destruct (granted_memory ttl now id t amount b l0 m' Hs Ha Hres) as (Hm & _ & Hbt & _).
  assert (in_int64 (count Debited t b + amount)) as Hin by (pose proof (so_counters b Hs Debited t); unfold in_int64, min_int64 in *; lia).
  destruct (reserve_grants exec p ttl now id t amount b d l0 m' HR Hs Ha Hid Hres) as (r & d' & E & H).
  rewrite decide_True in H by done. destruct H as [-> HR']. rewrite (exchange_up _ _ _ _ E). cbn. intros [= <- <-].
  destruct (reserve_sound ttl now id t amount b l0 m' Hs Httl Hid Ha Hin ltac:(lia) Hres) as (Hs' & Hbal & _).
  unfold read_balance; cbn [srv]. split_and!; [done| | | |].
  - split; [done|]. exists (granted ttl now id t amount b). split_and!; [done|done|exact Httl].
  - rewrite (read_sound _ _ t HR' Hs'), (read_sound b d t HR Hs), Hm, Hbal. by rewrite decide_True.
  - exists (encode (new_lease now id t amount)). split; [|done].
    etransitivity; [exact (rep_content p _ _ HR' (SLease id))|]. cbn. by rewrite lookup_insert_eq.
  - intros u Hu. rewrite (read_sound _ _ u HR' Hs'), (read_sound b d u HR Hs), Hm, Hbal, decide_False by done. lia.
Qed.

Lemma redis_reserve_refused now id t amount c e c' :
  connected c -> free id c -> 0 <= amount -> port_reserve now id t amount c = (inr e, c') -> c' = c.
Proof.
  intros [Hlinks (b & HR & Hs & Httl)] [Hfree Hroom] Ha. destruct c as [ls d]. cbn in Hlinks, HR, Hfree, Hroom. subst ls.
  pose proof (lease_absent b d id HR Hfree) as Hid. destruct (Hroom b t HR) as [Hd Hf]. unfold port_reserve, RedisLedger.Reserve.
  destruct (Ledger.Reserve now id t amount (memory b)) as [[l0|e0] m'] eqn:Hres.
  - destruct (granted_memory ttl now id t amount b l0 m' Hs Ha Hres) as (Hm & _ & Hbt & _).
    destruct (reserve_grants exec p ttl now id t amount b d l0 m' HR Hs Ha Hid Hres) as (r & d' & E & H).
    rewrite decide_True in H by (pose proof (so_counters b Hs Debited t); unfold in_int64, min_int64 in *; lia).
    destruct H as [-> _]. by rewrite (exchange_up _ _ _ _ E).
  - destruct (reserve_refuses exec p ttl now id t amount b d e0 HR Hs Ha) as (bal & E & _); [by rewrite Hres|].
    rewrite (exchange_up _ _ _ _ E). cbn. by intros [= _ <-].
Qed.

(** The balance of a ledger in which a lease ended with [r] given back. *)
Lemma stands_balance b b' (r : Z) id l d u :
  sound b -> leases (memory b) !! id = Some l -> lstate (lease l) = LeaseStateReserved -> 0 <= r <= Amount (lease l) ->
  (forall t, balance_of (memory b') t = balance_of (memory b) t + if decide (TenantID (lease l) = t) then r else 0) ->
  stands p (memory b') d ->
  counterValue (exec (GET (balanceKey p u)) d).1 = balance_of (memory b) u + if decide (TenantID (lease l) = u) then r else 0.
Proof.
  intros Hs Hl Hr Hle Hbal (b2 & HR & Hm & _). destruct (sound_live b id l Hs Hl Hr) as [Ha Hb].
  pose proof (sound_balance b u Hs). rewrite (read_exact b2 d u HR); rewrite Hm, Hbal; [done|].
  apply small_int64. case_decide; subst; lia.
Qed.

Lemma memory_of_settled (at_ u : Z) id l b :
  memory (settled_books at_ u id l b) = memory (given_back LeaseStateSettled at_ (Amount (lease l) - Z.max u 0) id l b).
Proof. unfold settled_books. by case_decide. Qed.

Lemma redis_settle_holds (now : Z) id t amount used c :
  connected c -> 0 <= used -> in_int64 used -> holds_lease id t amount c ->
  let c' := (RedisLedger.Settle exec p id used c).2 in
  read_balance t c' = read_balance t c + Z.max 0 (amount - used) /\ forall u, u <> t -> read_balance u c' = read_balance u c.
Proof.
  intros [Hlinks (b & HR & Hs & Httl)] Hu Hi Hh. destruct (lease_held b c id t amount HR Hh) as (l & Hl & Hr & <- & <-).
  destruct c as [ls d]. cbn in Hlinks, HR. subst ls. cbv zeta. unfold RedisLedger.Settle. rewrite (command_of_call exec).
  pose proof (call_hget exec p b d id "tenant" HR) as E. rewrite Hl in E. simpl in E. rewrite (proj1 (encode_lookup l)) in E.
  rewrite (exchange_up _ _ _ _ E). cbn [bulk]. destruct (settle_begins exec p now used id l b d HR Hs Hi Hl Hr) as (d1 & E1 & R1).
  assert (stands p (memory (settled_books now used id l b)) (settle_script exec p (TenantID (lease l)) id used d).2) as Hst.
  { rewrite E1, memory_of_settled. apply (settle_rest_keeps exec p _ _ _ id (terminate LeaseStateSettled now l)); [|done|].
    - unfold given_back. case_decide; cbn; apply lookup_insert_eq.
    - eexists. split; [exact R1|]. split; [done|]. intros cn u. rewrite given_back_counts. apply (so_counters b Hs). }
  destruct (settled_ends now used id l b Hs) as (_ & _ & Hbal & _). destruct (sound_live b id l Hs Hl Hr) as [Ha Hb].
  pose proof (fun u => stands_balance b _ (Z.max 0 (Amount (lease l) - Z.max used 0)) id l _ u Hs Hl Hr ltac:(lia) Hbal Hst) as Hread.
  unfold exchange. cbn [next links srv]. unfold read_balance. destruct (settle_script _ _ _ _ _ _) as [[x|x] d2]; cbn [snd srv] in *.
  all: split; [|intros u Hne]; rewrite Hread, (read_sound b d _ HR Hs);
    [rewrite decide_True by done; lia|rewrite decide_False by done; lia].
Qed.

Lemma redis_cancel_holds (now : Z) id t amount c :
  connected c -> holds_lease id t amount c ->
  let c' := (RedisLedger.Cancel exec p id c).2 in
  read_balance t c' = read_balance t c + amount /\ forall u, u <> t -> read_balance u c' = read_balance u c.
Proof.
  intros [Hlinks (b & HR & Hs & Httl)] Hh. destruct (lease_held b c id t amount HR Hh) as (l & Hl & Hr & <- & <-).
  destruct c as [ls d]. cbn in Hlinks, HR. subst ls. cbv zeta. unfold RedisLedger.Cancel, release. rewrite (command_of_call exec).
  pose proof (call_hget exec p b d id "tenant" HR) as E. rewrite Hl in E. simpl in E. rewrite (proj1 (encode_lookup l)) in E.
  rewrite (exchange_up _ _ _ _ E). cbn [bulk]. pose proof (released_ends LeaseStateCancelled now id l b ltac:(done)) as (_ & _ & Hbal & _).
  destruct (release_begins exec p LeaseStateCancelled now id l b d HR Hs ltac:(done) Hl Hr) as (d1 & E1 & R1).
  assert (stands p (memory (released_books LeaseStateCancelled now id l b))
    (release_script exec p (TenantID (lease l)) id LeaseStateCancelled d).2) as Hst.
  { rewrite E1. apply (release_rest_keeps exec p _ id _ (terminate LeaseStateCancelled now l)); [cbn; apply lookup_insert_eq|done|].
    eexists. split; [exact R1|]. split; [done|]. intros cn u. apply (so_counters b Hs). }
  destruct (sound_live b id l Hs Hl Hr) as [Ha Hb].
  pose proof (fun u => stands_balance b _ (Amount (lease l)) id l _ u Hs Hl Hr ltac:(lia) Hbal Hst) as Hread.
  unfold exchange. cbn [next links srv]. unfold read_balance. destruct (release_script _ _ _ _ _ _) as [[x|x] d2]; cbn [snd srv] in *.
  all: split; [|intros u Hne]; rewrite Hread, (read_sound b d _ HR Hs);
    [rewrite decide_True by done; lia|rewrite decide_False by done; lia].
Qed.

#[export] Instance redis_laws : Ports.LedgerLaws conn := {
  Ports.ledger_ok := connected;
  Ports.unused := free;
  Ports.balance := read_balance;
  Ports.holds := holds_lease;
  Ports.reserve_holds := redis_reserve_holds;
  Ports.reserve_refused := redis_reserve_refused;
  Ports.settle_holds := redis_settle_holds;
  Ports.cancel_holds := redis_cancel_holds
}.
End port.
End RedisPort.

(** ** The scenario of GatewayProps.v over Redis *)
Module RedisGatewayScenario.
Import Relay RelaySpec Carrier Reply Chain Static Governance GatewaySpec GatewayFacts Inference ServeFacts RequestFacts GatewayScenario.
Import Server Link RedisLedger RedisPort.

#[local] Existing Instance Ports.memory_limiter.
#[local] Existing Instance Reference.numbers.
#[local] Instance ledger_port : Ports.LedgerPort conn :=
  redis_ledger Reference.exec RedisScenario.prefix Ledger.defaultLeaseTTL.

(** The account of "acme" with 1000 tokens, and the exchanges to come. *)
Definition funded_server (ls : list link) : conn :=
  mkConn ls (RedisSpec.served Reference.exec RedisScenario.prefix Ledger.defaultLeaseTTL [RedisSpec.OSetBalance "acme" 1000] RedisScenario.no_keys).

Definition redis_request (ls : list link) (f : Z -> string -> OpenAI.Request -> OpenAI.forward_result) :=
  (gateway (D := conn) (fun u => u) (fun _ => false) inference surrounded codec request look_now (forwards f) None FormatOpenAIChat answer None
    (arriving (mkBackends Memory.NewMemory (funded_server ls) Concurrency.NewConcurrency (Store.NewMemory (Some 1)) (mkPlane None None) []) [] 0)).2.

Definition redis_summary (s : st (backends Memory.Memory conn (plane Circuit.Consecutive.Registry)))
  : list act * Z * Z * list (Z * string) :=
  (acts (Chain.sys s), read_balance Reference.exec RedisScenario.prefix "acme" (ledger (Chain.sys s)), Reply.Status (out s),
   map (fun e => (eStatus e, eErrorCode e)) (access s)).

(** The calls, the charge and the replies of the in-process deployment. *)
Example redis_served_and_charged :
  redis_summary (redis_request [] Scenario.answer) =
  ([SlotTaken true; Asked 102 (Some true); Reserved 102 (Some "lease-1"); Forwarded; Settled "lease-1" 102; SlotGiven],
   898, 200, [(200, ""%string)]).
Proof. by vm_compute. Qed.

(** A server that does not answer refuses the request before it is forwarded. *)
Example redis_down_refuses :
  redis_summary (redis_request [Unsent] Scenario.answer) =
  ([SlotTaken true; Asked 102 (Some true); Reserved 102 None; Refunded 102; SlotGiven],
   1000, 503, [(503, "governance_unavailable"%string)]).
Proof. by vm_compute. Qed.

(** The settlement is lost: the lease stays, for the sweep. *)
Example redis_settlement_lost :
  let s := redis_request [Up; Unsent] Scenario.answer in
  redis_summary s =
  ([SlotTaken true; Asked 102 (Some true); Reserved 102 (Some "lease-1"); Forwarded; Settled "lease-1" 102; SlotGiven],
   898, 200, [(200, ""%string)]) /\
  (SweepOnce Reference.exec RedisScenario.prefix (RedisScenario.at_second 1000) 10 (mkConn [] (srv (ledger (Chain.sys s))))).1 = inl 1.
Proof. by vm_compute. Qed.
End RedisGatewayScenario.
