(* ===== verification/Admin.v ===== *)
(** * The admin surface (internal/server: admin.go, identityadmin.go; cmd/breakwater/adminassembly.go)

    The bearer guard, the dispatch on method and path, the strict body
    decoder and every endpoint.  The ports a handler calls are the fields
    of [Admin]; a nil one is [None].  [buildAdmin] binds them to the ledger,
    the breaker, the switch and the probes.  A handler appends its answers
    to the response, so that it answers once is something to prove.  The
    digest of the token, the JSON decoder and the reports are arguments;
    the messages of errors are left out. *)
From Stdlib Require Import Ascii QArith.
From stdpp Require Import base numbers gmap strings list.
From S2P Require Import Prelude Float64 Circuit CircuitPort Quota Router Stream Text Auth.
Import GoInt GoTime Limits.
Local Open Scope Z_scope.

(** ** Prefixes and suffixes of paths ([strings]) *)
Module Paths.
Fixpoint cut_prefix (p s : string) : option string :=
  match p, s with
  | EmptyString, _ => Some s
  | String a p, String b s => if Ascii.eqb a b then cut_prefix p s else None
  | _, EmptyString => None
  end.
Fixpoint cut_suffix (q s : string) : option string :=
  if String.eqb s q then Some ""%string
  else match s with EmptyString => None | String c s => String c <$> cut_suffix q s end.

Definition found (r : option string) : bool := match r with Some _ => true | None => false end.
Definition HasPrefix (s p : string) : bool := found (cut_prefix p s).
Definition HasSuffix (s q : string) : bool := found (cut_suffix q s).
Definition TrimPrefix (s p : string) : string := default s (cut_prefix p s).
Definition TrimSuffix (s q : string) : string := default s (cut_suffix q s).
End Paths.

(** ** Identity administration (internal/auth/admin.go) *)
Module Identity.
Inductive admin_error :=
  | ErrUnknownTenant | ErrUnknownUpstream | RouterUnknownUpstream (id : string) | RouterUnknownModel (model : string)
  | ErrProbeUnconfigured | ErrUnknownUser | ErrUnknownKey | ErrUnknownTier | ErrTooManyKeys | Failure (what : string).

Record UserView := mkUser { uID : string; uName : string; uRole : string; uTier : string; uOverrides : LimitOverride; uCreatedAt : Z }.
Record KeyView := mkKey { kID : string; kName : string; kActive : bool; kOverrides : LimitOverride; kCreatedAt : Z }.
Record IssuedKey := mkIssued { iView : KeyView; iRaw : string }.

(** The port; a store is a state [I]. *)
Class AdminStore (I : Type) := {
  CreateUser : string -> string -> string -> I -> (string + admin_error) * I;
  Users : I -> list UserView + admin_error;
  SetUserLimits : string -> LimitOverride -> I -> option admin_error * I;
  CreateKey : string -> string -> I -> (IssuedKey + admin_error) * I;
  ListKeys : string -> I -> list KeyView + admin_error;
  SetKeyLimits : string -> LimitOverride -> I -> option admin_error * I;
  SetKeyStatus : string -> bool -> I -> option admin_error * I
}.
End Identity.

(** ** The handlers *)
Module Admin.
Import Paths Switch Identity.

(** A request body ends, or fails after what arrived of it. *)
Record request := mkRequest {
  Method : string; Path : string; Authorization : string; hours : string; body : string; body_fails : bool
}.

(** What [json.Decoder.Decode] finds: nothing, a document that does not fit,
    or a value and whether anything but whitespace follows it. *)
Inductive decoded (A : Type) := DecodeEOF | DecodeBad | Decoded (v : A) (more : bool).
Arguments DecodeEOF {A}. Arguments DecodeBad {A}. Arguments Decoded {A} v more.

Record userBody := mkUserBody { bName : string; bRole : string; bTier : string }.
Definition no_user : userBody := mkUserBody "" "" "".

(** The decoders of the body types; an absent member is [None] or empty. *)
Record decoders := mkDecoders {
  balance_body : string -> decoded (option Z); enabled_body : string -> decoded (option bool);
  user_body : string -> decoded userBody; name_body : string -> decoded string;
  override_body : string -> decoded LimitOverride
}.

Record BreakerView := mkBreakerView { bvUpstream : string; bvState : State }.

(** The documents of [writeJSON]; [R] is a report. *)
Inductive payload {R : Type} :=
  | QuotaOf (tenant : string) (balance : Z) | Breakers (views : list BreakerView) | BreakerClosed (id : string)
  | Probed (id : string) | Insights (r : R) | Routing (v : SwitchView) | Switched (label id : string) (enabled : bool)
  | UserCreated (id name role tier : string) | UserList (us : list UserView) | OverridesSet (kind id : string) (o : LimitOverride)
  | KeyIssued (k : IssuedKey) | KeyList (ks : list KeyView) | KeyStatus (id : string) (active : bool).
Arguments payload : clear implicits.

(** A response: [http.NotFound], a bare 405 with its Allow header, the 401
    with its challenge, an error envelope, or a document. *)
Inductive answer {R : Type} :=
  | NotFound | MethodNotAllowed (allow : string) | Challenge | WriteError (status : Z) (code : string)
  | WriteJSON (status : Z) (p : payload R).
Arguments answer : clear implicits.

Definition maxAdminBodyBytes : Z := Z.shiftl 1 12.
Definition validTenantID : string -> bool := Static.validTenantID.

Section admin.
Context {S R : Type}.
Context {I : Type} `{!AdminStore I}.
Context {Digest : Type} `{!EqDecision Digest}.
(** [sha256.Sum256]. *)
Variable Sum256 : string -> Digest.
Variable dec : decoders.
(** [time.Now] of the insights endpoint. *)
Variable now : Z.

(** The ports, over the state [S] of the system behind them.  [routing] and
    [identity] reach into that state. *)
Record Admin := mkAdmin {
  token : string;
  balances : option (string -> S -> Z + admin_error);
  setBalance : option (string -> Z -> S -> option admin_error * S);
  breakers : option (S -> list BreakerView * S);
  breakerReset : option (string -> S -> option admin_error * S);
  upstreamProbe : option (string -> S -> option admin_error * S);
  routing : option ((S -> Switch) * (Switch -> S -> S));
  identity : option ((S -> I) * (I -> S -> S));
  insights : option (Z -> Z -> R + string)
}.

(** The system and the response so far. *)
Record st := mkSt { sys : S; out : list (answer R) }.
Definition write (a : answer R) (s : st) : st := mkSt (sys s) (out s ++ [a]).
Definition on_sys (v : S) (s : st) : st := mkSt v (out s).

Variable a : Admin.
Variable r : request.

(** *** The shared machinery *)
Definition bearer : string := "Bearer ".

Definition authorized : bool :=
  if String.eqb (token a) "" then true
  else if negb (HasPrefix (Authorization r) bearer) then false
  else let presented := Text.TrimSpace (TrimPrefix (Authorization r) bearer) in
       bool_decide (Sum256 presented = Sum256 (token a)).

Definition guarded (method : string) (fn : st -> st) (s : st) : st :=
  if negb (String.eqb (Method r) method) then write (MethodNotAllowed method) s else fn s.

Definition guardedPair (writeMethod : string) (read wr : st -> st) (s : st) : st :=
  if String.eqb (Method r) "GET" then read s
  else if String.eqb (Method r) writeMethod then wr s
  else write (MethodNotAllowed ("GET" +:+ ", " +:+ writeMethod)) s.

(** [zero] is the value before decoding. *)
Definition decodeAdminBody {A : Type} (decode : string -> decoded A) (zero : A) (optional : bool) (s : st) : option A * st :=
  let bad s := (None, write (WriteError 400 "invalid_request") s) in
  let size := Z.of_nat (String.length (body r)) in
  if body_fails r && (size <=? maxAdminBodyBytes) then bad s
  else if maxAdminBodyBytes <? size then bad s
  else match decode (body r) with
       | DecodeEOF => if optional then (Some zero, s) else bad s
       | DecodeBad => bad s
       | Decoded v more => if more then bad s else (Some v, s)
       end.

Definition decodeAdminJSON {A : Type} (decode : string -> decoded A) (zero : A) : st -> option A * st :=
  decodeAdminBody decode zero false.
Definition decodeAdminJSONOptional {A : Type} (decode : string -> decoded A) (zero : A) : st -> option A * st :=
  decodeAdminBody decode zero true.

Definition decodeEnabled (s : st) : option bool * st :=
  let '(v, s) := decodeAdminJSON (enabled_body dec) None s in
  match v with
  | None => (None, s)
  | Some None => (None, write (WriteError 400 "invalid_request") s)
  | Some (Some b) => (Some b, s)
  end.

(** *** Quota *)
Definition renderQuotaError (err : admin_error) (s : st) : st :=
  match err with
  | ErrUnknownTenant => write (WriteError 404 "tenant_unknown") s
  | _ => write (WriteError 503 "balance_unavailable") s
  end.

Definition serveQuota (tenantID : string) (s : st) : st :=
  match balances a with
  | None => write NotFound s
  | Some lookup =>
      match lookup tenantID (sys s) with
      | inr err => renderQuotaError err s
      | inl balance => write (WriteJSON 200 (QuotaOf tenantID balance)) s
      end
  end.

Definition serveQuotaTopUp (tenantID : string) (s : st) : st :=
  match setBalance a with
  | None => write NotFound s
  | Some set =>
      match decodeAdminJSON (balance_body dec) None s with
      | (None, s) => s
      | (Some None, s) => write (WriteError 400 "invalid_request") s
      | (Some (Some balance), s) =>
          if balance <? 0 then write (WriteError 400 "invalid_request") s
          else let '(err, v) := set tenantID balance (sys s) in
               let s := on_sys v s in
               match err with
               | Some err => renderQuotaError err s
               | None => write (WriteJSON 200 (QuotaOf tenantID balance)) s
               end
      end
  end.

Definition serveTenants (tenantID : string) (s : st) : st :=
  if String.eqb tenantID "" then write NotFound s
  else if negb (validTenantID tenantID) then write (WriteError 400 "invalid_request") s
  else guardedPair "PUT" (serveQuota tenantID) (serveQuotaTopUp tenantID) s.

(** *** Breakers and probes *)
Definition serveBreakers (s : st) : st :=
  match breakers a with
  | None => write NotFound s
  | Some states => let '(views, v) := states (sys s) in write (WriteJSON 200 (Breakers views)) (on_sys v s)
  end.

Definition isUnknownUpstreamErr (err : admin_error) : bool :=
  match err with ErrUnknownUpstream | RouterUnknownUpstream _ => true | _ => false end.

Definition serveBreakerReset (id : string) (s : st) : st :=
  match breakerReset a with
  | None => write NotFound s
  | Some reset =>
      if String.eqb id "" then write NotFound s
      else let '(err, v) := reset id (sys s) in
           let s := on_sys v s in
           match err with
           | None => write (WriteJSON 200 (BreakerClosed id)) s
           | Some err => if isUnknownUpstreamErr err then write (WriteError 404 "upstream_unknown") s
                         else write (WriteError 500 "breaker_reset_failed") s
           end
  end.

Definition serveUpstreamProbe (id : string) (s : st) : st :=
  match upstreamProbe a with
  | None => write NotFound s
  | Some probe =>
      if String.eqb id "" then write NotFound s
      else let '(err, v) := probe id (sys s) in
           let s := on_sys v s in
           match err with
           | None => write (WriteJSON 200 (Probed id)) s
           | Some err =>
               if isUnknownUpstreamErr err then write (WriteError 404 "upstream_unknown") s
               else match err with
                    | ErrProbeUnconfigured => write (WriteError 409 "probe_unconfigured") s
                    | _ => write (WriteError 502 "probe_failed") s
                    end
           end
  end.

(** *** Insights *)
Definition hour : Z := 60 * minute.

(** [None] is a refused window. *)
Definition window : option Z :=
  if String.eqb (hours r) "" then Some 24
  else match Text.ParseInt (hours r) with
       | None => None
       | Some parsed => if (parsed <? 1) || (24 * 30 <? parsed) then None else Some parsed
       end.

Definition serveInsights (s : st) : st :=
  match insights a with
  | None => write NotFound s
  | Some report =>
      match window with
      | None => write (WriteError 400 "invalid_request") s
      | Some h =>
          match report (add now (wrap64 (wrap64 (- h) * hour))) now with
          | inr _ => write (WriteError 503 "insights_unavailable") s
          | inl rep => write (WriteJSON 200 (Insights rep)) s
          end
      end
  end.

(** *** Routing switches *)
Definition serveRouting (s : st) : st :=
  match routing a with
  | None => write NotFound s
  | Some (get, _) => write (WriteJSON 200 (Routing (View (get (sys s))))) s
  end.

(** A subject of the switches: its label, its sentinel and its code, and the
    call. *)
Record switchTarget := mkTarget {
  label : string; unknown : switch_error -> bool; code : string; set : string -> bool -> Switch -> option switch_error * Switch
}.
Definition modelSwitch : switchTarget :=
  mkTarget "model" (fun e => match e with ErrUnknownModel _ => true | _ => false end) "model_unknown" SetModel.
Definition upstreamSwitch : switchTarget :=
  mkTarget "upstream" (fun e => match e with Switch.ErrUnknownUpstream _ => true | _ => false end) "upstream_unknown" SetUpstream.

Definition serveRoutingSwitch (t : switchTarget) (id : string) (s : st) : st :=
  match routing a with
  | None => write NotFound s
  | Some (get, put) =>
      if String.eqb id "" then write NotFound s
      else match decodeEnabled s with
           | (None, s) => s
           | (Some enabled, s) =>
               let '(err, sw) := set t id enabled (get (sys s)) in
               let s := on_sys (put sw (sys s)) s in
               match err with
               | Some e => if unknown t e then write (WriteError 404 (code t)) s
                           else write (WriteError 500 "routing_switch_failed") s
               | None => write (WriteJSON 200 (Switched (label t) id enabled)) s
               end
           end
  end.

(** *** Identities (identityadmin.go) *)
Definition renderIdentityError (err : admin_error) (s : st) : st :=
  match err with
  | ErrUnknownUser | ErrUnknownKey | ErrUnknownTier => write (WriteError 404 "identity_unknown") s
  | ErrTooManyKeys => write (WriteError 409 "key_limit_reached") s
  | _ => write (WriteError 503 "identity_store_unavailable") s
  end.

(** A call that changes the store. *)
Definition store {A : Type} (port : (S -> I) * (I -> S -> S)) (call : I -> A * I) (s : st) : A * st :=
  let '(x, i) := call (port.1 (sys s)) in (x, on_sys (port.2 i (sys s)) s).

(** The role of a creation; [None] is refused. *)
Definition role_of (role : string) : option string :=
  if String.eqb role "" then Some Static.RoleUser
  else if String.eqb role Static.RoleUser || String.eqb role Static.RoleAdmin then Some role else None.

Definition serveCreateUser (s : st) : st :=
  match identity a with
  | None => write NotFound s
  | Some port =>
      match decodeAdminJSON (user_body dec) no_user s with
      | (None, s) => s
      | (Some b, s) =>
          if String.eqb (bName b) "" || String.eqb (bTier b) "" then write (WriteError 400 "invalid_request") s
          else match role_of (bRole b) with
               | None => write (WriteError 400 "invalid_request") s
               | Some role =>
                   match store port (CreateUser (bName b) role (bTier b)) s with
                   | (inr err, s) => renderIdentityError err s
                   | (inl id, s) => write (WriteJSON 201 (UserCreated id (bName b) role (bTier b))) s
                   end
               end
      end
  end.

Definition serveListUsers (s : st) : st :=
  match identity a with
  | None => write NotFound s
  | Some port =>
      match Users (port.1 (sys s)) with
      | inr err => renderIdentityError err s
      | inl users => write (WriteJSON 200 (UserList users)) s
      end
  end.

Definition serveLimitsReplace (kind id : string) (s : st) : st :=
  match identity a with
  | None => write NotFound s
  | Some port =>
      if String.eqb id "" then write NotFound s
      else match decodeAdminJSON (override_body dec) no_override s with
           | (None, s) => s
           | (Some o, s) =>
               let '(err, s) := if String.eqb kind "user" then store port (SetUserLimits id o) s
                                else if String.eqb kind "key" then store port (SetKeyLimits id o) s else (None, s) in
               match err with
               | Some err => renderIdentityError err s
               | None => write (WriteJSON 200 (OverridesSet kind id o)) s
               end
           end
  end.

Definition serveCreateKey (userID : string) (s : st) : st :=
  match identity a with
  | None => write NotFound s
  | Some port =>
      if String.eqb userID "" then write NotFound s
      else match decodeAdminJSONOptional (name_body dec) ""%string s with
           | (None, s) => s
           | (Some name, s) =>
               match store port (CreateKey userID name) s with
               | (inr err, s) => renderIdentityError err s
               | (inl issued, s) => write (WriteJSON 201 (KeyIssued issued)) s
               end
           end
  end.

Definition serveListKeys (userID : string) (s : st) : st :=
  match identity a with
  | None => write NotFound s
  | Some port =>
      if String.eqb userID "" then write NotFound s
      else match ListKeys userID (port.1 (sys s)) with
           | inr err => renderIdentityError err s
           | inl keys => write (WriteJSON 200 (KeyList keys)) s
           end
  end.

Definition serveKeyStatus (keyID : string) (s : st) : st :=
  match identity a with
  | None => write NotFound s
  | Some port =>
      if String.eqb keyID "" then write NotFound s
      else match decodeEnabled s with
           | (None, s) => s
           | (Some active, s) =>
               match store port (SetKeyStatus keyID active) s with
               | (Some err, s) => renderIdentityError err s
               | (None, s) => write (WriteJSON 200 (KeyStatus keyID active)) s
               end
           end
  end.

Definition serveIdentity (s : st) : st :=
  if String.eqb (Path r) "/admin/users" then guardedPair "POST" serveListUsers serveCreateUser s
  else if HasPrefix (Path r) "/admin/users/" then
    let rest := TrimPrefix (Path r) "/admin/users/" in
    if HasSuffix rest "/limits" then guarded "PUT" (serveLimitsReplace "user" (TrimSuffix rest "/limits")) s
    else if HasSuffix rest "/keys" then
      let id := TrimSuffix rest "/keys" in guardedPair "POST" (serveListKeys id) (serveCreateKey id) s
    else write NotFound s
  else if HasPrefix (Path r) "/admin/keys/" then
    let rest := TrimPrefix (Path r) "/admin/keys/" in
    if HasSuffix rest "/limits" then guarded "PUT" (serveLimitsReplace "key" (TrimSuffix rest "/limits")) s
    else if HasSuffix rest "/status" then guarded "PUT" (serveKeyStatus (TrimSuffix rest "/status")) s
    else write NotFound s
  else write NotFound s.

(** *** The dispatch *)
Definition ServeHTTP (s : st) : st :=
  if negb authorized then write Challenge s
  else if String.eqb (Path r) "/admin/breakers" then guarded "GET" serveBreakers s
  else if HasPrefix (Path r) "/admin/breakers/" && HasSuffix (Path r) "/reset" then
    guarded "POST" (serveBreakerReset (TrimSuffix (TrimPrefix (Path r) "/admin/breakers/") "/reset")) s
  else if String.eqb (Path r) "/admin/routing" then guarded "GET" serveRouting s
  else if String.eqb (Path r) "/admin/insights" then guarded "GET" serveInsights s
  else if String.eqb (Path r) "/admin/users" || HasPrefix (Path r) "/admin/users/" || HasPrefix (Path r) "/admin/keys/" then
    serveIdentity s
  else if HasPrefix (Path r) "/admin/upstreams/" && HasSuffix (Path r) "/probe" then
    guarded "POST" (serveUpstreamProbe (TrimSuffix (TrimPrefix (Path r) "/admin/upstreams/") "/probe")) s
  else if HasPrefix (Path r) "/admin/models/" then
    guarded "PUT" (serveRoutingSwitch modelSwitch (TrimPrefix (Path r) "/admin/models/")) s
  else if HasPrefix (Path r) "/admin/upstreams/" then
    guarded "PUT" (serveRoutingSwitch upstreamSwitch (TrimPrefix (Path r) "/admin/upstreams/")) s
  else if HasPrefix (Path r) "/admin/tenants/" && HasSuffix (Path r) "/quota" then
    serveTenants (TrimSuffix (TrimPrefix (Path r) "/admin/tenants/") "/quota") s
  else write NotFound s.
End admin.
Arguments st : clear implicits.
Arguments Admin : clear implicits.
End Admin.

(** ** The live bindings (cmd/breakwater/adminassembly.go) *)
Module Assembly.
Import Identity Admin.

(** A balance port: what [quota.Ledger] promises the admin surface. *)
Class Balances (L : Type) := {
  Balance : string -> L -> Z + admin_error;
  SetBalance : string -> Z -> L -> option admin_error * L
}.
Class BalanceLaws (L : Type) `{!Balances L} : Prop := {
  SetBalance_ok t n (l : L) : (SetBalance t n l).1 = None -> Balance t (SetBalance t n l).2 = inl n;
  SetBalance_refused t n (l : L) : (SetBalance t n l).1 <> None -> (SetBalance t n l).2 = l;
  SetBalance_other t t' n (l : L) : t' <> t -> Balance t' (SetBalance t n l).2 = Balance t' l
}.

Definition ledger_error (e : Ledger.quota_error) : admin_error :=
  match e with
  | Ledger.ErrUnknownTenant => ErrUnknownTenant
  | Ledger.ErrInsufficientBalance => Failure "quota: insufficient balance"
  | Ledger.ErrUnknownLease id => Failure ("quota: unknown lease " +:+ id)
  end.

#[export] Instance memory_balances : Balances Ledger.Memory := {
  Balance t m := match Ledger.Balance t m with inl z => inl z | inr e => inr (ledger_error e) end;
  SetBalance t n m := (None, Ledger.SetBalance t n m)
}.

#[export] Instance memory_balance_laws : BalanceLaws Ledger.Memory.
Proof.
  split.
  - intros t n l _. cbn. unfold Ledger.Balance, Ledger.SetBalance. cbn [Ledger.balances]. by rewrite lookup_insert_eq.
  - intros t n l []. done.
  - intros t t' n l Hne. cbn. unfold Ledger.Balance, Ledger.SetBalance. cbn [Ledger.balances]. by rewrite lookup_insert_ne.
Qed.

Section assembly.
Context {L B I R : Type} `{!Balances L} `{!Breaker B} `{!AdminStore I}.

(** The live backends; [probed] are the outcomes [Metrics.UpstreamProbe]
    counted, newest last. *)
Record system := mkSystem { ledger : L; breaker : B; switch : Switch.Switch; identities : I; probed : list (string * bool) }.
Definition set_ledger (v : L) (s : system) : system := mkSystem v (breaker s) (switch s) (identities s) (probed s).
Definition set_breaker (v : B) (s : system) : system := mkSystem (ledger s) v (switch s) (identities s) (probed s).
Definition set_switch (v : Switch.Switch) (s : system) : system := mkSystem (ledger s) (breaker s) v (identities s) (probed s).
Definition set_identities (v : I) (s : system) : system := mkSystem (ledger s) (breaker s) (switch s) v (probed s).
Definition count_probe (id : string) (ok : bool) (s : system) : system :=
  mkSystem (ledger s) (breaker s) (switch s) (identities s) (probed s ++ [(id, ok)]).

Record adminBindings := mkBindings { upstreamIDs : list string; adapters : gset string; probes : gset string }.

(** The options [buildAdmin] forwards, and the identity store and reports
    only where they are configured. *)
Record options := mkOptions { withRouting : bool; withIdentity : bool; withInsights : option (Z -> Z -> R + string) }.

(** The views in the order of the configuration: a read may move a state
    machine. *)
Fixpoint states (e : env) (ids : list string) (b : B) : list BreakerView * B :=
  match ids with
  | [] => ([], b)
  | id :: ids =>
      let '(b, st) := StateOf e id b in
      let '(views, b) := states e ids b in (mkBreakerView id st :: views, b)
  end.

Section build.
Variables (adminToken : string) (allowUnauthenticated : bool).
Variable b : adminBindings.
Variable opts : options.
Variable e : env.
(** What the health exchange of an upstream returns. *)
Variable exchange : string -> option admin_error.

Definition reset (id : string) (s : system) : option admin_error * system :=
  if bool_decide (id ∈ adapters b) then (None, set_breaker (Reset e id (breaker s)) s) else (Some ErrUnknownUpstream, s).

Definition probe (id : string) (s : system) : option admin_error * system :=
  if bool_decide (id ∈ probes b) then
    let err := exchange id in (err, count_probe id (match err with None => true | _ => false end) s)
  else if bool_decide (id ∈ adapters b) then (Some ErrProbeUnconfigured, s) else (Some ErrUnknownUpstream, s).

Definition buildAdmin : Admin system R I :=
  let open := negb (String.eqb adminToken "") || allowUnauthenticated in
  mkAdmin adminToken
    (if open then Some (fun t s => Balance t (ledger s)) else None)
    (if open then Some (fun t n s => let '(err, l) := SetBalance t n (ledger s) in (err, set_ledger l s)) else None)
    (Some (fun s => let '(views, br) := states e (upstreamIDs b) (breaker s) in (views, set_breaker br s)))
    (Some reset) (Some probe)
    (if withRouting opts then Some (switch, set_switch) else None)
    (if withIdentity opts then Some (identities, set_identities) else None)
    (withInsights opts).
End build.
End assembly.
Arguments system : clear implicits.
End Assembly.
