(* ===== verification/AdminProps.v ===== *)
(** * What the admin surface does

    Which requests ask for which write, that nothing else moves the system,
    that every request is answered once and a success answered only for a
    write that was done; and the effects over the live bindings. *)
From Stdlib Require Import Ascii QArith.
From stdpp Require Import base numbers gmap strings list.
From S2P Require Import Prelude Float64 Circuit CircuitRatio CircuitPort Quota Router Stream Text Auth Admin.
Import GoInt GoTime Limits.
Local Open Scope Z_scope.

Module PathFacts.
Import Paths.

Lemma cut_prefix_Some (p s rest : string) : cut_prefix p s = Some rest <-> s = p +:+ rest.
Proof.
  revert s. induction p as [|c p IH]; intros s; [change ("" +:+ rest) with rest; cbn; split; congruence|]. destruct s as [|d s]; [by split|].
  cbn [cut_prefix]. change (String c p +:+ rest) with (String c (p +:+ rest)).
  destruct (Ascii.eqb_spec c d) as [->|Hne]; [rewrite IH|]; split; congruence.
Qed.

Lemma cut_suffix_app (q x : string) : cut_suffix q (x +:+ q) = Some x.
Proof.
  induction x as [|c x IH].
  - change ("" +:+ q) with q. destruct q; cbn [cut_suffix]; by rewrite String.eqb_refl.
  - change (String c x +:+ q) with (String c (x +:+ q)). cbn [cut_suffix].
    destruct (String.eqb_spec (String c (x +:+ q)) q) as [E|_]; [|by rewrite IH].
    apply (f_equal String.length) in E. cbn in E. rewrite string_app_length in E. lia.
Qed.

Lemma cut_suffix_Some (q s x : string) : cut_suffix q s = Some x <-> s = x +:+ q.
Proof.
  split; [|intros ->; apply cut_suffix_app]. revert x. induction s as [|c s IH]; intros x; cbn [cut_suffix].
  - destruct (String.eqb_spec "" q) as [<-|]; [|done]. by intros [= <-].
  - destruct (String.eqb_spec (String c s) q) as [<-|]; [by intros [= <-]|].
    destruct (cut_suffix q s) as [y|]; [|done]. intros [= <-]. exact (f_equal (String c) (IH y eq_refl)).
Qed.

Lemma HasPrefix_true (s p : string) : HasPrefix s p = true -> s = p +:+ TrimPrefix s p.
Proof. unfold HasPrefix, TrimPrefix. destruct (cut_prefix p s) eqn:E; [|done]. intros _. by apply cut_prefix_Some. Qed.
Lemma HasPrefix_app (p x : string) : HasPrefix (p +:+ x) p = true /\ TrimPrefix (p +:+ x) p = x.
Proof. unfold HasPrefix, TrimPrefix. by rewrite (proj2 (cut_prefix_Some p _ x) eq_refl). Qed.
Lemma HasSuffix_true (s q : string) : HasSuffix s q = true -> s = TrimSuffix s q +:+ q.
Proof. unfold HasSuffix, TrimSuffix. destruct (cut_suffix q s) eqn:E; [|done]. intros _. by apply cut_suffix_Some. Qed.
Lemma HasSuffix_app (x q : string) : HasSuffix (x +:+ q) q = true /\ TrimSuffix (x +:+ q) q = x.
Proof. unfold HasSuffix, TrimSuffix. by rewrite cut_suffix_app. Qed.
Lemma HasSuffix_false (s q : string) : HasSuffix s q = false -> TrimSuffix s q = s.
Proof. unfold HasSuffix, TrimSuffix. by destruct (cut_suffix q s). Qed.

(** The shorter of two suffixes ends the longer one. *)
Lemma suffix_of_suffix (x y p q : string) : x +:+ p = y +:+ q -> (String.length q <= String.length p)%nat -> exists z, p = z +:+ q.
Proof.
  revert y. induction x as [|c x IH]; intros y E Hl; [by exists y|]. destruct y as [|d y].
  - apply (f_equal String.length) in E. rewrite !string_app_length in E. cbn in E. lia.
  - change (String c (x +:+ p) = String d (y +:+ q)) in E. injection E as _ E. by apply (IH y).
Qed.

Lemma suffix_clash (s p q : string) :
  HasSuffix s p = true -> HasSuffix s q = true -> (String.length q <= String.length p)%nat -> HasSuffix p q = true.
Proof.
  intros Hp%HasSuffix_true Hq%HasSuffix_true Hl. rewrite Hp in Hq at 1.
  destruct (suffix_of_suffix _ _ _ _ Hq Hl) as [z ->]. apply HasSuffix_app.
Qed.

(** A suffix of a whole path that does not end what follows a prefix shares
    some [z] with the prefix. *)
Lemma overlap (pre rest suf : string) :
  HasSuffix (pre +:+ rest) suf = true -> HasSuffix rest suf = false ->
  exists z, suf = z +:+ rest /\ HasSuffix (pre +:+ rest) (z +:+ rest) = true /\ (String.length rest < String.length suf)%nat.
Proof.
  intros Hs Hr. pose proof (HasSuffix_true _ _ Hs) as E. set (y := TrimSuffix _ _) in E.
  destruct (Nat.le_gt_cases (String.length suf) (String.length rest)) as [Hl|Hl].
  - destruct (suffix_of_suffix _ _ _ _ E Hl) as [z ->]. destruct (HasSuffix_app z suf) as [H _]. congruence.
  - destruct (suffix_of_suffix _ _ _ _ (eq_sym E) ltac:(lia)) as [z ->]. by exists z.
Qed.
End PathFacts.

Module AdminSpec.
Import Paths Identity Admin.

(** The writes of the surface. *)
Inductive write_op :=
  | WBalance (tenant : string) (n : Z) | WReset (id : string) | WProbe (id : string)
  | WModel (model : string) (enabled : bool) | WUpstream (id : string) (enabled : bool)
  | WCreateUser (name role tier : string) | WUserLimits (id : string) (o : LimitOverride)
  | WCreateKey (user name : string) | WKeyLimits (id : string) (o : LimitOverride) | WKeyStatus (id : string) (active : bool).

(** The endpoint [pre{id}suf] of a path, as the surface documents it. *)
Definition endpoint (pre suf path id : string) : Prop := path = pre +:+ (id +:+ suf).

(** The identifier the dispatch cuts out: the prefix and the suffix may
    share a slash, and then it is all that follows the prefix. *)
Definition addresses (pre suf path id : string) : Prop :=
  exists rest, path = pre +:+ rest /\
    (rest = id +:+ suf \/ id = rest /\ HasSuffix path suf = true /\ HasSuffix rest suf = false).

Section spec.
Context {S R I : Type} `{!AdminStore I}.
Variable dec : decoders.
Variable a : Admin S R I.
Variable r : request.

(** The document a body carries: whole, alone and within the cap. *)
Definition sent {A : Type} (decode : string -> decoded A) (absent : option A) : option A :=
  if (Z.of_nat (String.length (body r)) <=? maxAdminBodyBytes) && negb (body_fails r)
  then match decode (body r) with DecodeEOF => absent | Decoded v false => Some v | _ => None end
  else None.

Definition enabled_sent : option bool := mjoin (sent (enabled_body dec) None).

(** The write of a request whose identifiers are [found] in its path; the
    probe of an upstream is no switch of it. *)
Section requests.
Variable found : string -> string -> string -> string -> Prop.

Inductive requests : write_op -> Prop :=
  | ask_balance t n : found "/admin/tenants/" "/quota" (Path r) t -> Method r = "PUT"%string -> validTenantID t = true ->
      sent (balance_body dec) None = Some (Some n) -> 0 <= n -> requests (WBalance t n)
  | ask_reset id : found "/admin/breakers/" "/reset" (Path r) id -> Method r = "POST"%string -> id <> ""%string -> requests (WReset id)
  | ask_probe id : found "/admin/upstreams/" "/probe" (Path r) id -> Method r = "POST"%string -> id <> ""%string -> requests (WProbe id)
  | ask_model m b : Path r = "/admin/models/" +:+ m -> Method r = "PUT"%string -> m <> ""%string ->
      enabled_sent = Some b -> requests (WModel m b)
  | ask_upstream u b : Path r = "/admin/upstreams/" +:+ u -> (forall id, ~ found "/admin/upstreams/" "/probe" (Path r) id) -> Method r = "PUT"%string ->
      u <> ""%string -> enabled_sent = Some b -> requests (WUpstream u b)
  | ask_user b role : Path r = "/admin/users"%string -> Method r = "POST"%string -> sent (user_body dec) None = Some b ->
      bName b <> ""%string -> bTier b <> ""%string -> role_of (bRole b) = Some role -> requests (WCreateUser (bName b) role (bTier b))
  | ask_user_limits id o : Path r = "/admin/users/" +:+ (id +:+ "/limits") -> Method r = "PUT"%string -> id <> ""%string ->
      sent (override_body dec) None = Some o -> requests (WUserLimits id o)
  | ask_key id name : Path r = "/admin/users/" +:+ (id +:+ "/keys") -> Method r = "POST"%string -> id <> ""%string ->
      sent (name_body dec) (Some ""%string) = Some name -> requests (WCreateKey id name)
  | ask_key_limits id o : Path r = "/admin/keys/" +:+ (id +:+ "/limits") -> Method r = "PUT"%string -> id <> ""%string ->
      sent (override_body dec) None = Some o -> requests (WKeyLimits id o)
  | ask_key_status id b : Path r = "/admin/keys/" +:+ (id +:+ "/status") -> Method r = "PUT"%string -> id <> ""%string ->
      enabled_sent = Some b -> requests (WKeyStatus id b).
End requests.

(** What a request asks for, and what the dispatch takes it for. *)
Definition asks : write_op -> Prop := requests endpoint.
Definition takes : write_op -> Prop := requests addresses.

(** The paths on which the two differ: the suffix of an action directly
    behind its section. *)
Definition bare_actions : list string := ["/admin/tenants/quota"; "/admin/breakers/reset"; "/admin/upstreams/probe"].

Definition ok {E : Type} (e : option E) : bool := match e with None => true | _ => false end.
Definition port_ok {E : Type} (p : option E * S) : bool * S := (ok p.1, p.2).
Definition switched (p : (S -> Switch.Switch) * (Switch.Switch -> S -> S)) (x : option Switch.switch_error * Switch.Switch) (s : S) : bool * S :=
  (ok x.1, p.2 x.2 s).
Definition stored (p : (S -> I) * (I -> S -> S)) (x : option admin_error * I) (s : S) : bool * S := (ok x.1, p.2 x.2 s).
Definition created {A : Type} (p : (S -> I) * (I -> S -> S)) (x : (A + admin_error) * I) (s : S) : bool * S :=
  (match x.1 with inl _ => true | inr _ => false end, p.2 x.2 s).

(** The call of a write: whether it succeeded and what it leaves; [None]
    where the surface has no port for it. *)
Definition perform (w : write_op) (s : S) : option (bool * S) :=
  match w with
  | WBalance t n => (fun f => port_ok (f t n s)) <$> setBalance a
  | WReset id => (fun f => port_ok (f id s)) <$> breakerReset a
  | WProbe id => (fun f => port_ok (f id s)) <$> upstreamProbe a
  | WModel m b => (fun p => switched p (Switch.SetModel m b (p.1 s)) s) <$> routing a
  | WUpstream u b => (fun p => switched p (Switch.SetUpstream u b (p.1 s)) s) <$> routing a
  | WCreateUser name role tier => (fun p => created p (CreateUser name role tier (p.1 s)) s) <$> identity a
  | WUserLimits id o => (fun p => stored p (SetUserLimits id o (p.1 s)) s) <$> identity a
  | WCreateKey id name => (fun p => created p (CreateKey id name (p.1 s)) s) <$> identity a
  | WKeyLimits id o => (fun p => stored p (SetKeyLimits id o (p.1 s)) s) <$> identity a
  | WKeyStatus id b => (fun p => stored p (SetKeyStatus id b (p.1 s)) s) <$> identity a
  end.

Definition success (x : answer R) : bool := match x with WriteJSON _ _ => true | _ => false end.

(** One answer; the write of [P] was done and its outcome answered, or
    nothing moved and [P] has no write the surface can do. *)
Definition outcome (P : write_op -> Prop) (s t : st S R) : Prop :=
  exists x, out t = out s ++ [x] /\
    ((exists w, P w /\ (forall w', P w' -> w' = w) /\ perform w (sys s) = Some (success x, sys t)) \/
     (sys t = sys s /\ forall w, P w -> perform w (sys s) = None)).
End spec.
End AdminSpec.

Module AdminFacts.
Import Paths PathFacts Identity Admin AdminSpec.
Section facts.
Context {S R I : Type} `{!AdminStore I}.
Context {Digest : Type} `{!EqDecision Digest}.
Variable Sum256 : string -> Digest.
Variable dec : decoders.
Variable now : Z.
Variable a : Admin S R I.
Variable r : request.
Implicit Types (s : st S R) (P : write_op -> Prop).

Local Abbreviation outcome := (outcome (R := R) a).
Local Abbreviation takes := (takes dec r).

(** *** One answer, and nothing moved *)
Lemma outcome_quiet P s (x : answer R) : (forall w, P w -> perform a w (sys s) = None) -> outcome P s (write x s).
Proof. intros HP. exists x. split; [done|]. by right. Qed.

Lemma outcome_none P s (x : answer R) : (forall w, ~ P w) -> outcome P s (write x s).
Proof. intros HP. apply outcome_quiet. intros w Hw. by destruct (HP w). Qed.

Lemma outcome_ext P Q s (t : st S R) : (forall w, P w <-> Q w) -> outcome P s t -> outcome Q s t.
Proof.
  intros HPQ (x & Hx & [(w & Hw & Huniq & Hp)|[Hs Hn]]); exists x; (split; [done|]).
  - left. exists w. split_and!; [by apply HPQ|intros w' Hw'; by apply Huniq, HPQ|done].
  - right. split; [done|]. intros w Hw. by apply Hn, HPQ.
Qed.

(** The write [w] was done, and its outcome answered. *)
Lemma outcome_done P w (o : bool) (v : S) s (x : answer R) :
  P w -> (forall w', P w' -> w' = w) -> perform a w (sys s) = Some (o, v) -> success x = o -> outcome P s (write x (on_sys v s)).
Proof. intros Hw Hu Hp Hx. exists x. split; [done|]. left. exists w. rewrite Hx. split_and!; done. Qed.

(** *** Bodies *)
Lemma decode_spec {A : Type} (decode : string -> decoded A) zero optional s :
  decodeAdminBody r decode zero optional s
  = match sent r decode (if optional then Some zero else None) with
    | Some v => (Some v, s)
    | None => (None, write (WriteError 400 "invalid_request") s)
    end.
Proof.
  unfold decodeAdminBody, sent. destruct (Z.leb_spec (Z.of_nat (String.length (body r))) maxAdminBodyBytes) as [Hle|Hgt].
  - rewrite (proj2 (Z.ltb_ge _ _)) by lia. destruct (body_fails r); cbn [andb negb]; [done|].
    destruct (decode (body r)) as [| |v more]; [by destruct optional|done|by destruct more].
  - rewrite (proj2 (Z.ltb_lt _ _)) by lia. by rewrite andb_false_r.
Qed.

Lemma enabled_spec s :
  decodeEnabled dec r s
  = match enabled_sent dec r with Some b => (Some b, s) | None => (None, write (WriteError 400 "invalid_request") s) end.
Proof.
  unfold decodeEnabled, enabled_sent, decodeAdminJSON. rewrite decode_spec. by destruct (sent r (enabled_body dec) None) as [[b|]|].
Qed.

(** *** The writing handlers *)
Definition one (c : Prop) (w : write_op) : write_op -> Prop := fun w' => c /\ w' = w.

Lemma one_unique (c : Prop) w w' : one c w w' -> w' = w.
Proof. by intros [_ ?]. Qed.

Lemma topup_outcome t s :
  outcome (fun w => exists n, sent r (balance_body dec) None = Some (Some n) /\ 0 <= n /\ w = WBalance t n) s (serveQuotaTopUp dec a r t s).
Proof.
  unfold serveQuotaTopUp, decodeAdminJSON. destruct (setBalance a) as [set|] eqn:Hset.
  2: { apply outcome_quiet. intros w (n & _ & _ & ->). cbn. by rewrite Hset. }
  rewrite decode_spec. destruct (sent r (balance_body dec) None) as [[n|]|]; try (apply outcome_none; intros w (n & ? & _); congruence).
  destruct (Z.ltb_spec n 0) as [Hn|Hn]; [apply outcome_none; intros w (m & ? & ? & _); simplify_eq; lia|].
  destruct (set t n (sys s)) as [err v] eqn:E.
  assert (perform a (WBalance t n) (sys s) = Some (ok err, v)) as Hp by (cbn; rewrite Hset; cbn; by rewrite E).
  destruct err as [err|]; [unfold renderQuotaError; destruct err|]; eapply (outcome_done _ (WBalance t n)); try exact Hp; eauto;
    intros w (m & ? & _ & ->); by simplify_eq.
Qed.

Lemma reset_outcome id s : outcome (one (id <> ""%string) (WReset id)) s (serveBreakerReset a id s).
Proof.
  unfold serveBreakerReset. destruct (breakerReset a) as [f|] eqn:Hf.
  2: { apply outcome_quiet. intros w [_ ->]. cbn. by rewrite Hf. }
  destruct (String.eqb_spec id "") as [->|Hid]; [apply outcome_none; by intros w [? _]|].
  destruct (f id (sys s)) as [err v] eqn:E.
  assert (perform a (WReset id) (sys s) = Some (ok err, v)) as Hp by (cbn; rewrite Hf; cbn; by rewrite E).
  destruct err as [err|]; [destruct (isUnknownUpstreamErr err)|]; by eapply outcome_done; [by split|intros w'; apply one_unique|exact Hp|].
Qed.

Lemma probe_outcome id s : outcome (one (id <> ""%string) (WProbe id)) s (serveUpstreamProbe a id s).
Proof.
  unfold serveUpstreamProbe. destruct (upstreamProbe a) as [f|] eqn:Hf.
  2: { apply outcome_quiet. intros w [_ ->]. cbn. by rewrite Hf. }
  destruct (String.eqb_spec id "") as [->|Hid]; [apply outcome_none; by intros w [? _]|].
  destruct (f id (sys s)) as [err v] eqn:E.
  assert (perform a (WProbe id) (sys s) = Some (ok err, v)) as Hp by (cbn; rewrite Hf; cbn; by rewrite E).
  destruct err as [err|]; [destruct (isUnknownUpstreamErr err); [|destruct err]|];
    by eapply outcome_done; [by split|intros w'; apply one_unique|exact Hp|].
Qed.

(** The write [mk x] for the value [x] a request carries, behind an
    identifier. *)
Definition carried {A : Type} (v : option A) (id : string) (mk : A -> write_op) : write_op -> Prop :=
  fun w => exists x, v = Some x /\ id <> ""%string /\ w = mk x.

Lemma carried_none {A : Type} id (mk : A -> write_op) w : ~ carried None id mk w.
Proof. by intros (x & ? & _). Qed.
Lemma carried_empty {A : Type} v (mk : A -> write_op) w : ~ carried v "" mk w.
Proof. by intros (x & _ & ? & _). Qed.
Lemma carried_one {A : Type} (x : A) id (mk : A -> write_op) : id <> ""%string -> carried (Some x) id mk (mk x) /\ forall w, carried (Some x) id mk w -> w = mk x.
Proof. intros Hid. split; [by exists x|]. intros w (y & [= <-] & _ & ->). done. Qed.

Lemma switch_outcome (tg : switchTarget) (mk : string -> bool -> write_op) id s :
  (forall b v, perform a (mk id b) v = (fun p => switched p (set tg id b (p.1 v)) v) <$> routing a) ->
  outcome (carried (enabled_sent dec r) id (mk id)) s (serveRoutingSwitch dec a r tg id s).
Proof.
  intros Hmk. unfold serveRoutingSwitch. destruct (routing a) as [[get put]|].
  2: { apply outcome_quiet. intros w (b & _ & _ & ->). apply Hmk. }
  destruct (String.eqb_spec id "") as [->|Hid]; [apply outcome_none, carried_empty|]. rewrite enabled_spec.
  destruct (enabled_sent dec r) as [b|]; [|apply outcome_none, carried_none]. destruct (carried_one b id (mk id) Hid) as [Hc Hu].
  specialize (Hmk b (sys s)). cbn in Hmk. destruct (set tg id b (get (sys s))) as [err sw]. unfold switched in Hmk; cbn in Hmk.
  destruct err as [err|]; [destruct (unknown tg err)|]; by eapply outcome_done; [exact Hc|exact Hu|exact Hmk|].
Qed.

Lemma store_spec {A : Type} port (call : I -> A * I) s :
  store port call s = ((call (port.1 (sys s))).1, on_sys (port.2 (call (port.1 (sys s))).2 (sys s)) s).
Proof. unfold store. by destruct (call (port.1 (sys s))). Qed.

(** An error is not a success. *)
Lemma render_done P w v s err :
  P w -> (forall w', P w' -> w' = w) -> perform a w (sys s) = Some (false, v) -> outcome P s (renderIdentityError err (on_sys v s)).
Proof. intros Hw Hu Hp. unfold renderIdentityError. by destruct err; eapply outcome_done. Qed.

Lemma user_outcome s :
  outcome (fun w => exists b role, sent r (user_body dec) None = Some b /\ bName b <> ""%string /\ bTier b <> ""%string /\
    role_of (bRole b) = Some role /\ w = WCreateUser (bName b) role (bTier b)) s (serveCreateUser dec a r s).
Proof.
  unfold serveCreateUser, decodeAdminJSON. destruct (identity a) as [port|] eqn:Hid.
  2: { apply outcome_quiet. intros w (b & role & _ & _ & _ & _ & ->). cbn. by rewrite Hid. }
  rewrite decode_spec. destruct (sent r (user_body dec) None) as [b|]; [|apply outcome_none; by intros w (b & role & ? & _)].
  destruct (String.eqb_spec (bName b) "") as [Hn|Hn]; [apply outcome_none; intros w (b' & role & [= <-] & ? & _); done|].
  destruct (String.eqb_spec (bTier b) "") as [Ht|Ht]; [apply outcome_none; intros w (b' & role & [= <-] & _ & ? & _); done|].
  cbn [orb]. destruct (role_of (bRole b)) as [role|] eqn:Hr; [|apply outcome_none; intros w (b' & role & [= <-] & _ & _ & ? & _); congruence].
  rewrite store_spec. set (c := CreateUser _ _ _ _).
  assert (perform a (WCreateUser (bName b) role (bTier b)) (sys s) = Some (created port c (sys s))) as Hp by (cbn; by rewrite Hid).
  unfold created in Hp. destruct c.1 as [id|err]; [eapply outcome_done|eapply render_done]; try exact Hp; try done; try (by exists b, role);
    intros w (b' & role' & [= <-] & _ & _ & Hr' & ->); congruence.
Qed.

Lemma limits_outcome (user : bool) id s :
  outcome (carried (sent r (override_body dec) None) id (fun o => if user then WUserLimits id o else WKeyLimits id o)) s
    (serveLimitsReplace dec a r (if user then "user" else "key") id s).
Proof.
  unfold serveLimitsReplace, decodeAdminJSON. destruct (identity a) as [port|] eqn:Hi.
  2: { apply outcome_quiet. intros w (o & _ & _ & ->). destruct user; cbn; by rewrite Hi. }
  destruct (String.eqb_spec id "") as [->|Hid]; [apply outcome_none, carried_empty|]. rewrite decode_spec.
  destruct (sent r (override_body dec) None) as [o|]; [|apply outcome_none, carried_none].
  destruct (carried_one o id (fun o => if user then WUserLimits id o else WKeyLimits id o) Hid) as [Hc Hu].
  destruct user; cbn [String.eqb Ascii.eqb Bool.eqb]; rewrite store_spec;
    [set (c := SetUserLimits _ _ _)|set (c := SetKeyLimits _ _ _)];
    [assert (perform a (WUserLimits id o) (sys s) = Some (stored port c (sys s))) as Hp by (cbn; by rewrite Hi)
    |assert (perform a (WKeyLimits id o) (sys s) = Some (stored port c (sys s))) as Hp by (cbn; by rewrite Hi)];
    unfold stored in Hp; cbn [fst snd]; (destruct c.1 as [err|]; [eapply render_done|eapply outcome_done]); try exact Hp; done.
Qed.

Lemma key_outcome id s :
  outcome (carried (sent r (name_body dec) (Some ""%string)) id (WCreateKey id)) s (serveCreateKey dec a r id s).
Proof.
  unfold serveCreateKey, decodeAdminJSONOptional. destruct (identity a) as [port|] eqn:Hi.
  2: { apply outcome_quiet. intros w (o & _ & _ & ->). cbn; by rewrite Hi. }
  destruct (String.eqb_spec id "") as [->|Hid]; [apply outcome_none, carried_empty|]. rewrite decode_spec.
  destruct (sent r (name_body dec) (Some ""%string)) as [o|]; [|apply outcome_none, carried_none].
  destruct (carried_one o id (WCreateKey id) Hid) as [Hc Hu]. rewrite store_spec. set (c := CreateKey _ _ _).
  assert (perform a (WCreateKey id o) (sys s) = Some (created port c (sys s))) as Hp by (cbn; by rewrite Hi).
  unfold created in Hp. destruct c.1 as [k|err]; [eapply outcome_done|eapply render_done]; try exact Hp; done.
Qed.

Lemma status_outcome id s : outcome (carried (enabled_sent dec r) id (WKeyStatus id)) s (serveKeyStatus dec a r id s).
Proof.
  unfold serveKeyStatus. destruct (identity a) as [port|] eqn:Hi.
  2: { apply outcome_quiet. intros w (o & _ & _ & ->). cbn; by rewrite Hi. }
  destruct (String.eqb_spec id "") as [->|Hid]; [apply outcome_none, carried_empty|]. rewrite enabled_spec.
  destruct (enabled_sent dec r) as [o|]; [|apply outcome_none, carried_none].
  destruct (carried_one o id (WKeyStatus id) Hid) as [Hc Hu]. rewrite store_spec. set (c := SetKeyStatus _ _ _).
  assert (perform a (WKeyStatus id o) (sys s) = Some (stored port c (sys s))) as Hp by (cbn; by rewrite Hi).
  unfold stored in Hp. destruct c.1 as [err|]; [eapply render_done|eapply outcome_done]; try exact Hp; done.
Qed.

(** *** The reading handlers write one answer and move nothing *)
Definition reading (fn : st S R -> st S R) : Prop := forall s, exists x, fn s = write x s.

Lemma quota_reading t : reading (serveQuota a t).
Proof. intros s. unfold serveQuota, renderQuotaError. repeat case_match; eauto. Qed.
Lemma insights_reading : reading (serveInsights now a r).
Proof. intros s. unfold serveInsights. repeat case_match; eauto. Qed.
Lemma routing_reading : reading (serveRouting a).
Proof. intros s. unfold serveRouting. repeat case_match; eauto. Qed.
Lemma identity_error_reading err : reading (renderIdentityError err).
Proof. intros s. unfold renderIdentityError. destruct err; eauto. Qed.
Lemma users_reading : reading (serveListUsers a).
Proof. intros s. unfold serveListUsers. repeat case_match; try apply identity_error_reading; eauto. Qed.
Lemma keys_reading id : reading (serveListKeys a id).
Proof. intros s. unfold serveListKeys. repeat case_match; try apply identity_error_reading; eauto. Qed.

(** *** Guards and dispatch *)
Lemma guarded_outcome m (fn : st S R -> st S R) P s :
  outcome P s (fn s) -> outcome (fun w => Method r = m /\ P w) s (guarded r m fn s).
Proof.
  intros Hfn. unfold guarded. destruct (String.eqb_spec (Method r) m) as [Hm|Hm]; cbn [negb].
  - revert Hfn. apply outcome_ext. by intuition.
  - apply outcome_none. by intros w [? _].
Qed.

Lemma guarded_reading m (fn : st S R -> st S R) : reading fn -> reading (guarded r m fn).
Proof. intros Hfn s. unfold guarded. destruct (negb _); eauto. Qed.

Lemma pair_outcome m (read wr : st S R -> st S R) P s :
  m <> "GET"%string -> reading read -> outcome P s (wr s) -> outcome (fun w => Method r = m /\ P w) s (guardedPair r m read wr s).
Proof.
  intros Hget Hread Hwr. unfold guardedPair. destruct (String.eqb_spec (Method r) "GET") as [Hg|Hg].
  - destruct (Hread s) as [x ->]. apply outcome_none. intros w [? _]. congruence.
  - destruct (String.eqb_spec (Method r) m) as [Hm|Hm].
    + revert Hwr. apply outcome_ext. by intuition.
    + apply outcome_none. by intros w [? _].
Qed.

(** Where the prefix and the suffix of a path are found. *)
Lemma addresses_iff pre suf path id :
  addresses pre suf path id <-> HasPrefix path pre = true /\ HasSuffix path suf = true /\ id = TrimSuffix (TrimPrefix path pre) suf.
Proof.
  split.
  - intros (rest & -> & [-> |(-> & Hs & Hr)]).
    + destruct (HasPrefix_app pre (id +:+ suf)) as [-> ->]. destruct (HasSuffix_app id suf) as [_ ->].
      rewrite <- string_app_assoc. by destruct (HasSuffix_app (pre +:+ id) suf) as [-> _].
    + destruct (HasPrefix_app pre rest) as [H1 H2]. rewrite H1, H2, Hs. split_and!; [done..|]. by rewrite HasSuffix_false.
  - intros (Hp & Hs & ->). exists (TrimPrefix path pre). split; [by apply HasPrefix_true|].
    destruct (HasSuffix (TrimPrefix path pre) suf) eqn:E; [left; by apply HasSuffix_true|right].
    by rewrite HasSuffix_false.
Qed.

(** The answer to [GET /admin/breakers]: reading a state may move it. *)
Definition breakers_read (s s' : st S R) : Prop :=
  Path r = "/admin/breakers"%string /\ Method r = "GET"%string /\
  exists f, breakers a = Some f /\ sys s' = (f (sys s)).2 /\ out s' = out s ++ [WriteJSON 200 (Breakers (f (sys s)).1)].

Lemma reading_outcome fn s P : reading fn -> (forall w, ~ P w) -> outcome P s (fn s).
Proof. intros Hfn HP. destruct (Hfn s) as [x ->]. by apply outcome_none. Qed.

Lemma tenants_outcome t s :
  outcome (fun w => Method r = "PUT"%string /\ validTenantID t = true /\
    exists n, sent r (balance_body dec) None = Some (Some n) /\ 0 <= n /\ w = WBalance t n) s (serveTenants dec a r t s).
Proof.
  unfold serveTenants. destruct (String.eqb_spec t "") as [->|_]; [apply outcome_none; by intros w (_ & ? & _)|].
  destruct (validTenantID t); cbn [negb]; [|apply outcome_none; by intros w (_ & ? & _)].
  eapply outcome_ext; [|apply pair_outcome; [done|apply quota_reading|apply topup_outcome]]. by intuition.
Qed.

(** A path is in one section only. *)
Ltac foreign :=
  exfalso;
  repeat match goal with H : addresses _ _ (Path r) _ |- _ => destruct H as (? & H & _) end;
  match goal with H : Path r = _, H' : Path r = _ |- _ => rewrite H in H'; discriminate H' end.

(** Only on the bare actions does a suffix share a slash with its section. *)
Lemma overlapping (pre suf path id : string) :
  (pre, suf) ∈ [("/admin/tenants/", "/quota"); ("/admin/breakers/", "/reset"); ("/admin/upstreams/", "/probe")]%string ->
  path ∉ bare_actions -> addresses pre suf path id <-> endpoint pre suf path id.
Proof.
  intros Hin Hpath. split; [|by intros E; exists (id +:+ suf); auto].
  intros (rest & -> & [-> |(-> & Hs & Hr)]); [done|]. exfalso. destruct (overlap _ _ _ Hs Hr) as (z & Hz & Hend & Hl).
  apply Hpath. clear Hs Hr Hpath. unfold bare_actions. rewrite !elem_of_cons, elem_of_nil. rewrite !elem_of_cons, elem_of_nil in Hin.
  destruct Hin as [[= -> ->]|[[= -> ->]|[[= -> ->]|[]]]];
    repeat (destruct z as [|? z];
      [change (""%string +:+ rest) with rest in Hz; subst rest;
       first [exfalso; cbn in Hl; lia|exfalso; by vm_compute in Hend|vm_compute; auto]
      |injection Hz as <- Hz; try discriminate Hz]).
  all: try (destruct z; [change (""%string +:+ rest) with rest in Hz; subst rest; by vm_compute in Hend|discriminate Hz]).
Qed.

(** Elsewhere the dispatch takes a request for what it asks for. *)
Lemma asks_takes (w : write_op) : Path r ∉ bare_actions -> asks dec r w <-> takes w.
Proof.
  intros Hpath. assert (forall id, addresses "/admin/tenants/" "/quota" (Path r) id <-> endpoint "/admin/tenants/" "/quota" (Path r) id) as H1
    by (intros id; apply overlapping; [set_solver|done]).
  assert (forall id, addresses "/admin/breakers/" "/reset" (Path r) id <-> endpoint "/admin/breakers/" "/reset" (Path r) id) as H2
    by (intros id; apply overlapping; [set_solver|done]).
  assert (forall id, addresses "/admin/upstreams/" "/probe" (Path r) id <-> endpoint "/admin/upstreams/" "/probe" (Path r) id) as H3
    by (intros id; apply overlapping; [set_solver|done]).
  split; destruct 1; constructor; try done; try (by apply H1); try (by apply H2); try (by apply H3);
    intros id Hid; match goal with Hno : forall id, ~ _ |- _ => apply (Hno id), H3, Hid end.
Qed.

(** The identifier behind a prefix. *)
Lemma after_prefix pre id : HasPrefix (Path r) pre = true -> Path r = pre +:+ id <-> id = TrimPrefix (Path r) pre.
Proof.
  intros Hp%HasPrefix_true. split; [|by intros ->]. intros ->. by destruct (HasPrefix_app pre id) as [_ ->].
Qed.

Lemma reset_leaf w id :
  HasPrefix (Path r) "/admin/breakers/" = true -> HasSuffix (Path r) "/reset" = true ->
  id = TrimSuffix (TrimPrefix (Path r) "/admin/breakers/") "/reset" ->
  (Method r = "POST"%string /\ one (id <> ""%string) (WReset id) w) <-> takes w.
Proof.
  intros Hp Hs Hid. split.
  - intros (Hm & Hne & ->). constructor; [|done..]. apply addresses_iff. by rewrite Hid.
  - intros Hw. pose proof (HasPrefix_true _ _ Hp). destruct Hw; try foreign.
    match goal with H : addresses _ _ _ _ |- _ => apply addresses_iff in H as (_ & _ & ->) end. by rewrite <- Hid in *.
Qed.

Lemma probe_leaf w id :
  HasPrefix (Path r) "/admin/upstreams/" = true -> HasSuffix (Path r) "/probe" = true ->
  id = TrimSuffix (TrimPrefix (Path r) "/admin/upstreams/") "/probe" ->
  (Method r = "POST"%string /\ one (id <> ""%string) (WProbe id) w) <-> takes w.
Proof.
  intros Hp Hs Hid. split.
  - intros (Hm & Hne & ->). constructor; [|done..]. apply addresses_iff. by rewrite Hid.
  - intros Hw. pose proof (HasPrefix_true _ _ Hp). destruct Hw as [| | | |u b Hu Hno| | | | | ]; try foreign.
    2: { destruct (Hno id). by apply addresses_iff. }
    match goal with H : addresses _ _ _ _ |- _ => apply addresses_iff in H as (_ & _ & ->) end. by rewrite <- Hid in *.
Qed.

Lemma tenants_leaf w t :
  HasPrefix (Path r) "/admin/tenants/" = true -> HasSuffix (Path r) "/quota" = true ->
  t = TrimSuffix (TrimPrefix (Path r) "/admin/tenants/") "/quota" ->
  (Method r = "PUT"%string /\ validTenantID t = true /\
    exists n, sent r (balance_body dec) None = Some (Some n) /\ 0 <= n /\ w = WBalance t n) <-> takes w.
Proof.
  intros Hp Hs Ht. split.
  - intros (Hm & Hv & n & Hn & H0 & ->). constructor; try done. apply addresses_iff. by rewrite Ht.
  - intros Hw. pose proof (HasPrefix_true _ _ Hp). destruct Hw; try foreign.
    match goal with H : addresses _ _ _ _ |- _ => apply addresses_iff in H as (_ & _ & ->) end. rewrite <- Ht in *. eauto 8.
Qed.

Lemma model_leaf w m :
  HasPrefix (Path r) "/admin/models/" = true -> m = TrimPrefix (Path r) "/admin/models/" ->
  (Method r = "PUT"%string /\ carried (enabled_sent dec r) m (WModel m) w) <-> takes w.
Proof.
  intros Hp Hm. split.
  - intros (Hm' & b & Hb & Hne & ->). constructor; try done. by apply after_prefix.
  - intros Hw. pose proof (HasPrefix_true _ _ Hp). destruct Hw as [| | |m' b Hm' | | | | | | ]; try foreign.
    apply (after_prefix _ _ Hp) in Hm'. subst m'. rewrite <- Hm in *. split; [done|]. by exists b.
Qed.

Lemma upstream_leaf w u :
  HasPrefix (Path r) "/admin/upstreams/" = true -> HasSuffix (Path r) "/probe" = false -> u = TrimPrefix (Path r) "/admin/upstreams/" ->
  (Method r = "PUT"%string /\ carried (enabled_sent dec r) u (WUpstream u) w) <-> takes w.
Proof.
  intros Hp Hs Hu. split.
  - intros (Hm' & b & Hb & Hne & ->). constructor; try done; [by apply after_prefix|].
    intros id (_ & H & _)%addresses_iff. congruence.
  - intros Hw. pose proof (HasPrefix_true _ _ Hp).
    destruct Hw as [| |id Hid| |u' b Hu' Hno| | | | | ]; try foreign.
    { apply addresses_iff in Hid as (_ & ? & _). congruence. }
    apply (after_prefix _ _ Hp) in Hu'. subst u'. rewrite <- Hu in *. split; [done|]. by exists b.
Qed.

(** The identifier between a prefix and a suffix of the rest. *)
Lemma between pre suf id :
  HasPrefix (Path r) pre = true -> HasSuffix (TrimPrefix (Path r) pre) suf = true ->
  Path r = pre +:+ (id +:+ suf) <-> id = TrimSuffix (TrimPrefix (Path r) pre) suf.
Proof.
  intros Hp Hs. rewrite after_prefix by done. split.
  - intros E. rewrite <- E. by destruct (HasSuffix_app id suf) as [_ ->].
  - intros ->. symmetry. by apply HasSuffix_true.
Qed.

(** Only one of the suffixes of a section ends a path. *)
Lemma other_suffix pre id p q :
  Path r = pre +:+ (id +:+ p) -> HasSuffix (TrimPrefix (Path r) pre) q = true ->
  (String.length q <= String.length p)%nat /\ HasSuffix p q = true \/ (String.length p <= String.length q)%nat /\ HasSuffix q p = true.
Proof.
  intros -> Hq. destruct (HasPrefix_app pre (id +:+ p)) as [_ E]. rewrite E in Hq. destruct (HasSuffix_app id p) as [Hp _].
  destruct (Nat.le_ge_cases (String.length q) (String.length p)); [left|right]; (split; [done|]); by eapply suffix_clash.
Qed.

Ltac clash :=
  exfalso;
  match goal with H : Path r = ?pre +:+ (_ +:+ ?p), H' : HasSuffix (TrimPrefix (Path r) ?pre) ?q = true |- _ =>
    destruct (other_suffix _ _ p q H H') as [[_ E]|[_ E]]; discriminate E end.

Lemma user_limits_leaf w id :
  HasPrefix (Path r) "/admin/users/" = true -> HasSuffix (TrimPrefix (Path r) "/admin/users/") "/limits" = true ->
  id = TrimSuffix (TrimPrefix (Path r) "/admin/users/") "/limits" ->
  (Method r = "PUT"%string /\ carried (sent r (override_body dec) None) id (WUserLimits id) w) <-> takes w.
Proof.
  intros Hp Hs Hid. split.
  - intros (Hm & o & Ho & Hne & ->). constructor; try done. by apply between.
  - intros Hw. pose proof (HasPrefix_true _ _ Hp). destruct Hw as [| | | | | |id' o Hid'| | | ]; try foreign; try clash.
    apply between in Hid'; [|done..]. subst id'. rewrite <- Hid in *. split; [done|]. by exists o.
Qed.

Lemma user_keys_leaf w id :
  HasPrefix (Path r) "/admin/users/" = true -> HasSuffix (TrimPrefix (Path r) "/admin/users/") "/keys" = true ->
  id = TrimSuffix (TrimPrefix (Path r) "/admin/users/") "/keys" ->
  (Method r = "POST"%string /\ carried (sent r (name_body dec) (Some ""%string)) id (WCreateKey id) w) <-> takes w.
Proof.
  intros Hp Hs Hid. split.
  - intros (Hm & o & Ho & Hne & ->). constructor; try done. by apply between.
  - intros Hw. pose proof (HasPrefix_true _ _ Hp). destruct Hw as [| | | | | | |id' o Hid'| | ]; try foreign; try clash.
    apply between in Hid'; [|done..]. subst id'. rewrite <- Hid in *. split; [done|]. by exists o.
Qed.

Lemma key_limits_leaf w id :
  HasPrefix (Path r) "/admin/keys/" = true -> HasSuffix (TrimPrefix (Path r) "/admin/keys/") "/limits" = true ->
  id = TrimSuffix (TrimPrefix (Path r) "/admin/keys/") "/limits" ->
  (Method r = "PUT"%string /\ carried (sent r (override_body dec) None) id (WKeyLimits id) w) <-> takes w.
Proof.
  intros Hp Hs Hid. split.
  - intros (Hm & o & Ho & Hne & ->). constructor; try done. by apply between.
  - intros Hw. pose proof (HasPrefix_true _ _ Hp). destruct Hw as [| | | | | | | |id' o Hid'| ]; try foreign; try clash.
    apply between in Hid'; [|done..]. subst id'. rewrite <- Hid in *. split; [done|]. by exists o.
Qed.

Lemma key_status_leaf w id :
  HasPrefix (Path r) "/admin/keys/" = true -> HasSuffix (TrimPrefix (Path r) "/admin/keys/") "/status" = true ->
  id = TrimSuffix (TrimPrefix (Path r) "/admin/keys/") "/status" ->
  (Method r = "PUT"%string /\ carried (enabled_sent dec r) id (WKeyStatus id) w) <-> takes w.
Proof.
  intros Hp Hs Hid. split.
  - intros (Hm & o & Ho & Hne & ->). constructor; try done. by apply between.
  - intros Hw. pose proof (HasPrefix_true _ _ Hp). destruct Hw as [| | | | | | | | |id' o Hid']; try foreign; try clash.
    apply between in Hid'; [|done..]. subst id'. rewrite <- Hid in *. split; [done|]. by exists o.
Qed.

Lemma users_leaf w :
  Path r = "/admin/users"%string ->
  (Method r = "POST"%string /\ exists b role, sent r (user_body dec) None = Some b /\ bName b <> ""%string /\ bTier b <> ""%string /\
    role_of (bRole b) = Some role /\ w = WCreateUser (bName b) role (bTier b)) <-> takes w.
Proof.
  intros Hp. split.
  - intros (Hm & b & role & Hb & Hn & Ht & Hr & ->). by constructor.
  - intros Hw. destruct Hw; try foreign. split; [done|]. eauto 10.
Qed.

(** What ends in no suffix of its section, or lies in none, asks for nothing. *)
Lemma takes_nothing :
  (HasPrefix (Path r) "/admin/users/" = true /\ HasSuffix (TrimPrefix (Path r) "/admin/users/") "/limits" = false /\
     HasSuffix (TrimPrefix (Path r) "/admin/users/") "/keys" = false) \/
  (HasPrefix (Path r) "/admin/keys/" = true /\ HasSuffix (TrimPrefix (Path r) "/admin/keys/") "/limits" = false /\
     HasSuffix (TrimPrefix (Path r) "/admin/keys/") "/status" = false) ->
  forall w, ~ takes w.
Proof.
  assert (forall pre id suf, HasSuffix (TrimPrefix (pre +:+ (id +:+ suf)) pre) suf = true) as Hend.
  { intros pre id suf. destruct (HasPrefix_app pre (id +:+ suf)) as [_ ->]. by destruct (HasSuffix_app id suf). }
  intros [(Hp & H1 & H2)|(Hp & H1 & H2)] w Hw; pose proof (HasPrefix_true _ _ Hp);
    destruct Hw as [| | | | | |id o E|id o E|id o E|id o E]; try foreign; rewrite E, Hend in *; congruence.
Qed.

Lemma identity_outcome s :
  Path r = "/admin/users"%string \/ HasPrefix (Path r) "/admin/users/" = true \/ HasPrefix (Path r) "/admin/keys/" = true ->
  outcome takes s (serveIdentity dec a r s).
Proof.
  intros Hin. unfold serveIdentity. destruct (String.eqb_spec (Path r) "/admin/users") as [Hu|Hu].
  { eapply outcome_ext; [intros w; by apply users_leaf|]. apply pair_outcome; [done|apply users_reading|apply user_outcome]. }
  destruct (HasPrefix (Path r) "/admin/users/") eqn:Hp; [|destruct (HasPrefix (Path r) "/admin/keys/") eqn:Hk].
  - destruct (HasSuffix _ "/limits") eqn:Hl; [|destruct (HasSuffix _ "/keys") eqn:Hs].
    + eapply outcome_ext; [intros w; by apply user_limits_leaf|]. apply guarded_outcome, (limits_outcome true).
    + eapply outcome_ext; [intros w; by apply user_keys_leaf|]. apply pair_outcome; [done|apply keys_reading|apply key_outcome].
    + apply outcome_none, takes_nothing. by left.
  - destruct (HasSuffix _ "/limits") eqn:Hl; [|destruct (HasSuffix _ "/status") eqn:Hs].
    + eapply outcome_ext; [intros w; by apply key_limits_leaf|]. apply guarded_outcome, (limits_outcome false).
    + eapply outcome_ext; [intros w; by apply key_status_leaf|]. apply guarded_outcome, status_outcome.
    + apply outcome_none, takes_nothing. by right.
  - naive_solver.
Qed.

(** A read-only path asks for no write. *)
Lemma read_path p w : Path r = p -> p ∈ ["/admin/breakers"; "/admin/routing"; "/admin/insights"]%string -> ~ takes w.
Proof.
  intros Hp Hin Hw. assert (p = "/admin/breakers" \/ p = "/admin/routing" \/ p = "/admin/insights")%string as Hp' by set_solver.
  destruct Hp' as [->|[->| ->]]; destruct Hw; foreign.
Qed.

(** A write is asked for on a path the dispatch knows. *)
Lemma takes_known w :
  takes w ->
  HasPrefix (Path r) "/admin/breakers/" && HasSuffix (Path r) "/reset" = true \/
  (Path r = "/admin/users"%string \/ HasPrefix (Path r) "/admin/users/" = true \/ HasPrefix (Path r) "/admin/keys/" = true) \/
  HasPrefix (Path r) "/admin/models/" = true \/ HasPrefix (Path r) "/admin/upstreams/" = true \/
  HasPrefix (Path r) "/admin/tenants/" && HasSuffix (Path r) "/quota" = true.
Proof.
  destruct 1 as [t n (Hp & Hs & _)%addresses_iff|id (Hp & Hs & _)%addresses_iff|id (Hp & _)%addresses_iff|m b E|u b E|b role E
    |id o E|id name E|id o E|id b E]; try (rewrite Hp, ?Hs; by auto 8); rewrite E;
    (right; first [left; left; done|left; right; left; apply HasPrefix_app|left; right; right; apply HasPrefix_app
      |right; left; apply HasPrefix_app|right; right; left; apply HasPrefix_app]).
Qed.

(** *** A request that is let in *)
Lemma dispatch_outcome s :
  authorized Sum256 a r = true ->
  breakers_read s (ServeHTTP Sum256 dec now a r s) /\ (forall w, ~ takes w) \/ outcome takes s (ServeHTTP Sum256 dec now a r s).
Proof.
  intros Hauth. unfold ServeHTTP. rewrite Hauth. cbn [negb].
  destruct (String.eqb_spec (Path r) "/admin/breakers") as [Hb|Hb].
  { assert (forall w, ~ takes w) as Hno by (intros w; eapply read_path; [exact Hb|set_solver]).
    unfold guarded, serveBreakers. destruct (String.eqb_spec (Method r) "GET") as [Hg|Hg]; cbn [negb]; [|right; by apply outcome_none].
    destruct (breakers a) as [f|] eqn:Hf; [|right; by apply outcome_none]. left. split; [|done]. split_and!; [done..|].
    exists f. split; [done|]. by destruct (f (sys s)). }
  destruct (_ && HasSuffix (Path r) "/reset") eqn:Hr; [apply andb_true_iff in Hr as [Hp Hs]|].
  { right. eapply outcome_ext; [intros w; by apply reset_leaf|]. apply guarded_outcome, reset_outcome. }
  destruct (String.eqb_spec (Path r) "/admin/routing") as [Ho|Ho].
  { right. apply reading_outcome; [apply guarded_reading, routing_reading|]. intros w. eapply read_path; [exact Ho|set_solver]. }
  destruct (String.eqb_spec (Path r) "/admin/insights") as [Hi|Hi].
  { right. apply reading_outcome; [apply guarded_reading, insights_reading|]. intros w. eapply read_path; [exact Hi|set_solver]. }
  right. destruct (_ || HasPrefix (Path r) "/admin/keys/") eqn:Hid.
  { apply identity_outcome. apply orb_true_iff in Hid as [[?%String.eqb_eq| ?]%orb_true_iff|?]; auto. }
  destruct (_ && HasSuffix (Path r) "/probe") eqn:Hpr; [apply andb_true_iff in Hpr as [Hp Hs]|].
  { eapply outcome_ext; [intros w; by apply probe_leaf|]. apply guarded_outcome, probe_outcome. }
  destruct (HasPrefix (Path r) "/admin/models/") eqn:Hm.
  { eapply outcome_ext; [intros w; by apply model_leaf|]. apply guarded_outcome, (switch_outcome _ WModel). done. }
  destruct (HasPrefix (Path r) "/admin/upstreams/") eqn:Hu.
  { eapply outcome_ext; [intros w; by apply upstream_leaf|]. apply guarded_outcome, (switch_outcome _ WUpstream). done. }
  destruct (_ && HasSuffix (Path r) "/quota") eqn:Hq; [apply andb_true_iff in Hq as [Hp Hs]|].
  { eapply outcome_ext; [intros w; by apply tenants_leaf|]. apply tenants_outcome. }
  apply outcome_none. intros w Hw. apply orb_false_iff in Hid as [[Hid1 Hid2]%orb_false_iff Hid3].
  destruct (takes_known w Hw) as [?|[[E|[?|?]]|[?|[?|?]]]]; try congruence. by rewrite E in Hid1.
Qed.

Lemma dispatch_refused s : authorized Sum256 a r = false -> ServeHTTP Sum256 dec now a r s = write Challenge s.
Proof. intros Hauth. unfold ServeHTTP. by rewrite Hauth. Qed.

(** A write asked for, with a port, is done. *)
Lemma write_done s w (o : bool) v :
  authorized Sum256 a r = true -> takes w -> perform a w (sys s) = Some (o, v) ->
  exists x, out (ServeHTTP Sum256 dec now a r s) = out s ++ [x] /\ sys (ServeHTTP Sum256 dec now a r s) = v /\ success x = o.
Proof.
  intros Hauth Hw Hp. destruct (dispatch_outcome s Hauth) as [[_ Hno]|(x & Hx & [(w' & _ & Hu & Hp')|[_ Hn]])].
  - by destruct (Hno w).
  - exists x. rewrite <- (Hu w Hw) in Hp'. rewrite Hp in Hp'. injection Hp' as -> ->. done.
  - specialize (Hn w Hw). congruence.
Qed.

(** The quota path reaches its handler. *)
Lemma serve_quota_path s t :
  authorized Sum256 a r = true -> addresses "/admin/tenants/" "/quota" (Path r) t ->
  ServeHTTP Sum256 dec now a r s = serveTenants dec a r t s.
Proof.
  intros Hauth (Hp & Hs & Ht)%addresses_iff. unfold ServeHTTP. rewrite Hauth, Hp, Hs, <- Ht. cbn [negb andb].
  apply HasPrefix_true in Hp. rewrite Hp. reflexivity.
Qed.
End facts.
End AdminFacts.

Module AdminProps.
Import Paths PathFacts Identity Admin AdminSpec AdminFacts.

(** C27. Every request to the admin surface is answered exactly once.  A
    request the guard refuses gets the challenge and moves nothing; reading
    the breakers moves at most their state machines; any other request
    either asks, on an endpoint the surface documents, for a write it has a
    port for - that one write is then done, once, and a document is answered
    exactly if its port reported no error - or moves nothing.  Three paths
    are left out: an action's suffix directly behind its section, where the
    dispatch takes a missing identifier for the name of the action. *)
Theorem admin_writes {S R I Digest : Type} `{!AdminStore I} `{!EqDecision Digest} (Sum256 : string -> Digest) (dec : decoders)
    (now : Z) (a : Admin S R I) (r : request) (s : st S R) :
  Path r ∉ bare_actions ->
  let t := ServeHTTP Sum256 dec now a r s in
  exists x, out t = out s ++ [x] /\
    (authorized Sum256 a r = false -> x = Challenge /\ sys t = sys s) /\
    (authorized Sum256 a r = true ->
      breakers_read a r s t \/
      (exists w, asks dec r w /\ (forall w', asks dec r w' -> w' = w) /\ perform a w (sys s) = Some (success x, sys t)) \/
      sys t = sys s /\ forall w, asks dec r w -> perform a w (sys s) = None).
Proof.
  intros Hpath. cbn zeta. assert (forall w, asks dec r w <-> takes dec r w) as Hsame by (intros w; by eapply asks_takes). destruct (authorized Sum256 a r) eqn:Hauth.
  - destruct (dispatch_outcome Sum256 dec now a r s Hauth) as [[Hb _]|Hw].
    + pose proof Hb as (_ & _ & f & _ & _ & Hout). eexists. split; [exact Hout|]. split; [done|]. by left.
    + apply (outcome_ext a _ (asks dec r)) in Hw as (x & Hx & Hw); [|intros w; by rewrite Hsame].
      exists x. split; [done|]. split; [done|]. intros _. by right.
  - exists Challenge. unfold ServeHTTP. by rewrite Hauth.
Qed.

(** ** Over the live bindings *)
Import Assembly.
Section live.
Context {L B I R Digest : Type} `{!Balances L} `{!BalanceLaws L} `{!Breaker B} `{!BreakerLaws B} `{!AdminStore I} `{!EqDecision Digest}.
Variable Sum256 : string -> Digest.
Variable dec : decoders.
Variable now : Z.
Variables (adminToken : string) (allowUnauthenticated : bool).
Variable b : adminBindings.
Variable opts : options (R := R).
Variable exchange : string -> option admin_error.
Implicit Types (r : request) (s : st (system L B I) R).

Local Abbreviation admin e := (buildAdmin (L := L) (B := B) (I := I) adminToken allowUnauthenticated b opts e exchange).
Local Abbreviation serve e r s := (ServeHTTP Sum256 dec now (admin e) r s).

Lemma set_model_known m on (sw : Switch.Switch) :
  m ∈ Switch.knownModels sw \/ Switch.wildcardModels sw = true ->
  (Switch.SetModel m on sw).1 = None /\ Switch.ModelEnabled m (Switch.SetModel m on sw).2 = on.
Proof.
  intros Hk. unfold Switch.SetModel. assert (bool_decide (m ∉ Switch.knownModels sw) && negb (Switch.wildcardModels sw) = false) as ->.
  { destruct Hk as [Hk| ->]; [by rewrite bool_decide_false by auto|apply andb_false_r]. }
  split; [done|]. unfold Switch.ModelEnabled. destruct on; cbn; case_bool_decide; set_solver.
Qed.

Lemma set_model_unknown m on (sw : Switch.Switch) :
  ~ (m ∈ Switch.knownModels sw \/ Switch.wildcardModels sw = true) ->
  Switch.SetModel m on sw = (Some (Switch.ErrUnknownModel m), sw).
Proof.
  intros Hk. unfold Switch.SetModel. rewrite bool_decide_true by tauto. by destruct (Switch.wildcardModels sw); [tauto|].
Qed.

Lemma set_upstream_known u on (sw : Switch.Switch) :
  u ∈ Switch.knownUpstreams sw ->
  (Switch.SetUpstream u on sw).1 = None /\ Switch.UpstreamEnabled u (Switch.SetUpstream u on sw).2 = on.
Proof.
  intros Hk. unfold Switch.SetUpstream. rewrite decide_False by auto. split; [done|]. unfold Switch.UpstreamEnabled.
  cbn. rewrite lookup_delete_eq. destruct on; cbn; repeat case_bool_decide; try set_solver.
  all: by match goal with H : is_Some None |- _ => destruct H end.
Qed.

Lemma states_frame e ids (br : B) : breaker_inv br -> breaker_inv (states e ids br).2.
Proof.
  revert br. induction ids as [|id ids IH]; intros br Hbr; [done|]. cbn [states]. pose proof (StateOf_inv e id br Hbr) as H1.
  destruct (StateOf e id br) as [b1 st1]. specialize (IH b1 H1). by destruct (states e ids b1).
Qed.

Lemma reset_frame e id (v : system L B I) : ledger (reset b e id v).2 = ledger v.
Proof. unfold reset. by case_bool_decide. Qed.
Lemma probe_frame id (v : system L B I) : ledger (probe b exchange id v).2 = ledger v.
Proof. unfold probe. by repeat case_bool_decide. Qed.

(** What a write does to each part of the system. *)
Lemma perform_ledger e w (v : system L B I) (o : bool) v' :
  perform (admin e) w v = Some (o, v') ->
  ledger v' = ledger v \/ exists t n, w = WBalance t n /\ (adminToken <> ""%string \/ allowUnauthenticated = true) /\
    ledger v' = (SetBalance t n (ledger v)).2.
Proof.
  destruct w as [t n|id|id|m en|u en|n' ro ti|id o'|id n'|id o'|id en]; cbn;
    try (match goal with |- context [if ?c then Some (_, _) else None] => destruct c end; cbn); unfold port_ok, switched, stored, created;
    intros; simplify_eq; try (by left).
  - destruct (String.eqb_spec adminToken "") as [->|Hne]; cbn [negb orb] in *.
    + destruct allowUnauthenticated; [|done]. right. exists t, n. cbn in *. destruct (SetBalance t n (ledger v)) as [err l].
      unfold port_ok in *. simplify_eq. auto.
    + right. exists t, n. cbn in *. destruct (SetBalance t n (ledger v)) as [err l]. unfold port_ok in *. simplify_eq. auto.
  - left. apply reset_frame.
  - left. apply probe_frame.
Qed.

(** C28. Money moves only on the word of the operator: whatever a request
    to the admin surface is, the ledger stays as it is unless the request
    passed the guard - under a token, by presenting a credential of its
    digest - on a deployment with a token or one opened explicitly, and is
    the top-up of one valid tenant to one balance that is not negative. *)
Theorem money_guarded e r s :
  let t := serve e r s in
  ledger (sys t) = ledger (sys s) \/
  exists tenant n, takes dec r (WBalance tenant n) /\ validTenantID tenant = true /\ 0 <= n /\
    ledger (sys t) = (SetBalance tenant n (ledger (sys s))).2 /\
    (adminToken = ""%string /\ allowUnauthenticated = true \/
     adminToken <> ""%string /\ exists raw, Authorization r = "Bearer " +:+ raw /\ Sum256 (Text.TrimSpace raw) = Sum256 adminToken).
Proof.
  cbn zeta. destruct (authorized Sum256 (admin e) r) eqn:Hauth; [|left; by rewrite dispatch_refused].
  destruct (dispatch_outcome Sum256 dec now (admin e) r s Hauth) as [[(_ & _ & f & Hf & -> & _) _]|(x & _ & [(w & Hw & _ & Hp)|[-> _]])]; [| |by left].
  { left. cbn in Hf. injection Hf as <-. by destruct (states e (upstreamIDs b) (breaker (sys s))). }
  destruct (perform_ledger e w _ _ _ Hp) as [?|(t & n & -> & Hopen & Hl)]; [by left|right]. exists t, n.
  split; [done|]. inversion Hw; subst. split_and!; [done..|].
  revert Hauth. unfold authorized. cbn [token buildAdmin]. destruct (String.eqb_spec adminToken "") as [He|Hne].
  - left. split; [done|]. by destruct Hopen.
  - destruct (HasPrefix (Authorization r) bearer) eqn:Hb; [|done]. cbn [negb]. intros Hd%bool_decide_eq_true. right. split; [done|].
    exists (TrimPrefix (Authorization r) bearer). split; [by apply HasPrefix_true|done].
Qed.

(** A top-up is read back: where the balances are mounted and the
    ledger accepts the write, an authorised PUT is answered with a document,
    and the next authorised GET of that tenant answers the new balance and
    of any other tenant what it answered before. *)
Theorem topup_read_back e e' r r' s tenant tenant' n :
  authorized Sum256 (admin e) r = true -> takes dec r (WBalance tenant n) ->
  adminToken <> ""%string \/ allowUnauthenticated = true -> (SetBalance tenant n (ledger (sys s))).1 = None ->
  authorized Sum256 (admin e') r' = true -> Method r' = "GET"%string ->
  addresses "/admin/tenants/" "/quota" (Path r') tenant' -> validTenantID tenant' = true ->
  let t := serve e r s in
  (exists x, out t = out s ++ [x] /\ success x = true) /\
  exists y, out (serve e' r' t) = out t ++ [y] /\
    (tenant' = tenant -> y = WriteJSON 200 (QuotaOf tenant n)) /\
    (tenant' <> tenant -> out (serve e' r' s) = out s ++ [y]).
Proof.
  intros Hauth Hw Hopen Hset Hauth' Hget Hpath Hvalid. cbn zeta.
  assert (negb (String.eqb adminToken "") || allowUnauthenticated = true) as Hmount.
  { destruct (String.eqb_spec adminToken ""); destruct Hopen; subst; cbn; try done; by rewrite ?orb_true_r. }
  destruct (write_done Sum256 dec now (admin e) r s (WBalance tenant n) true (set_ledger (SetBalance tenant n (ledger (sys s))).2 (sys s)))
    as (x & Hx & Hsys & Hok); [done|done| |].
  { cbn. rewrite Hmount. cbn. unfold port_ok. destruct (SetBalance tenant n (ledger (sys s))) as [err l]. cbn in *. by rewrite Hset. }
  split; [by exists x|]. rewrite !(serve_quota_path Sum256 dec now (admin e') r' _ tenant') by done.
  assert (tenant' <> ""%string) as Hne by (by intros ->). unfold serveTenants, guardedPair, serveQuota.
  rewrite (proj2 (String.eqb_neq _ _) Hne), Hvalid, Hget, Hsys. cbn. rewrite Hmount. cbn.
  destruct (decide (tenant' = tenant)) as [->|Hother].
  - rewrite SetBalance_ok by done. eexists. split; [done|]. done.
  - rewrite SetBalance_other by done. destruct (Balance tenant' (ledger (sys s))) as [z|err]; [|destruct err]; eexists; split; try done.
Qed.

(** The operator's controls take effect at once: a switch of a known
    model or upstream leaves it exactly as enabled as the request says, a
    reset leaves the breaker of a configured upstream closed for every
    reader and open to the next call, whatever the strategy, and what is
    not known is refused and changes nothing. *)
Theorem controls_take_effect e r s :
  authorized Sum256 (admin e) r = true -> withRouting opts = true -> breaker_inv (breaker (sys s)) ->
  let t := serve e r s in
  let known_model := fun m => m ∈ Switch.knownModels (switch (sys s)) \/ Switch.wildcardModels (switch (sys s)) = true in
  (forall m on, takes dec r (WModel m on) -> known_model m ->
     (exists x, out t = out s ++ [x] /\ success x = true) /\ Switch.ModelEnabled m (switch (sys t)) = on) /\
  (forall u on, takes dec r (WUpstream u on) -> u ∈ Switch.knownUpstreams (switch (sys s)) ->
     (exists x, out t = out s ++ [x] /\ success x = true) /\ Switch.UpstreamEnabled u (switch (sys t)) = on) /\
  (forall id, takes dec r (WReset id) -> id ∈ adapters b ->
     (exists x, out t = out s ++ [x] /\ success x = true) /\
     forall e', (StateOf e' id (breaker (sys t))).2 = StateClosed /\ is_Some (Allow e' id (breaker (sys t))).2) /\
  (forall w, takes dec r w ->
     (match w with
     | WModel m _ => ~ known_model m
     | WUpstream u _ => u ∉ Switch.knownUpstreams (switch (sys s))
     | WReset id | WProbe id => (id ∉ adapters b) /\ (id ∉ probes b)
     | _ => False
     end) -> (exists x, out t = out s ++ [x] /\ success x = false) /\ sys t = sys s).
Proof.
  intros Hauth Hrt Hbr. cbn zeta.
  pose proof (write_done Sum256 dec now (admin e) r s) as Hdone. split_and!.
  - intros m on Hw Hk. destruct (set_model_known m on (switch (sys s)) Hk) as [H1 H2].
    destruct (Hdone (WModel m on) true (set_switch (Switch.SetModel m on (switch (sys s))).2 (sys s)) Hauth Hw) as (x & Hx & -> & Hok); [|eauto].
    cbn. rewrite Hrt. cbn. unfold switched. cbn. by rewrite H1.
  - intros u on Hw Hk. destruct (set_upstream_known u on (switch (sys s)) Hk) as [H1 H2].
    destruct (Hdone (WUpstream u on) true (set_switch (Switch.SetUpstream u on (switch (sys s))).2 (sys s)) Hauth Hw) as (x & Hx & -> & Hok); [|eauto].
    cbn. rewrite Hrt. cbn. unfold switched. cbn. by rewrite H1.
  - intros id Hw Hk. destruct (Hdone (WReset id) true (set_breaker (Reset e id (breaker (sys s))) (sys s)) Hauth Hw) as (x & Hx & -> & Hok).
    { cbn. unfold reset. by rewrite bool_decide_true. }
    split; [by exists x|]. intros e'. split; [by apply Reset_closed|by apply Reset_admits].
  - intros w Hw Hno. destruct (Hdone w false (sys s) Hauth Hw) as (x & Hx & Hs & Hok); [|split; [by exists x|done]].
    destruct w as [ | id|id|m on|u on| | | | | ]; try done; cbn; rewrite ?Hrt; cbn.
    + unfold port_ok, reset. by rewrite bool_decide_false by apply Hno.
    + unfold port_ok, probe. rewrite !bool_decide_false by apply Hno. done.
    + unfold switched; cbn. rewrite set_model_unknown by done. by destruct (sys s).
    + unfold switched, Switch.SetUpstream; cbn. rewrite decide_True by done. by destruct (sys s).
Qed.
End live.
End AdminProps.

(** ** A concrete surface *)
Module AdminScenario.
Import Paths Identity Admin AdminSpec Assembly AdminProps.
Local Open Scope string_scope.
Local Open Scope list_scope.

(** A store that is down. *)
#[local] Instance no_store : AdminStore unit := {
  CreateUser _ _ _ i := (inr (Failure "down"), i); Users _ := inr (Failure "down");
  SetUserLimits _ _ i := (Some (Failure "down"), i); CreateKey _ _ i := (inr (Failure "down"), i);
  ListKeys _ _ := inr (Failure "down"); SetKeyLimits _ _ i := (Some (Failure "down"), i);
  SetKeyStatus _ _ i := (Some (Failure "down"), i)
}.

(** Bodies in the notation of the scenario: a number, or on and off. *)
Definition read_body : decoders :=
  mkDecoders
    (fun s => if String.eqb s "" then DecodeEOF else match Text.ParseInt s with Some z => Decoded (Some z) false | None => DecodeBad end)
    (fun s => if String.eqb s "on" then Decoded (Some true) false else if String.eqb s "off" then Decoded (Some false) false else DecodeBad)
    (fun _ => DecodeBad) (fun _ => DecodeEOF) (fun _ => DecodeBad).

Definition bindings : adminBindings := mkBindings ["a"; "probe"] {["a"; "probe"]} {["a"]}.
Definition mounted : options (R := unit) := mkOptions true false None.
Definition at0 : env := mkEnv 0 0 0.
Definition the_system : system Ledger.Memory Ratio.RatioRegistry unit :=
  mkSystem Ledger.NewMemory Ratio.NewRatioRegistry (Switch.NewSwitch ["m"] ["a"; "probe"] false) tt [].
Definition start : st (system Ledger.Memory Ratio.RatioRegistry unit) unit := mkSt the_system [].
Definition surface : Admin (system Ledger.Memory Ratio.RatioRegistry unit) unit unit :=
  buildAdmin "token" false bindings mounted at0 (fun _ => None).
Definition serve_with (r : request) (s : st (system Ledger.Memory Ratio.RatioRegistry unit) unit) :=
  ServeHTTP Datatypes.id read_body 0 surface r s.

Definition ask (method path body : string) : request := mkRequest method path "Bearer  token " "" body false.
Definition top_up : request := ask "PUT" "/admin/tenants/t1/quota" "500".

Lemma takes_top_up : takes read_body top_up (WBalance "t1" 500).
Proof.
  constructor; try (vm_compute; reflexivity); [|vm_compute; discriminate].
  exists "t1/quota". split; [reflexivity|]. left. reflexivity.
Qed.

Lemma admin_writes_witness :
  exists x, out (serve_with top_up start) = [x] /\ success x = true /\
    Ledger.balance_of (ledger (sys (serve_with top_up start))) "t1" = 500%Z.
Proof.
  destruct (admin_writes Datatypes.id read_body 0 surface top_up start) as (x & Hx & _ & Hdone); [vm_compute; set_solver|].
  exists x. split; [exact Hx|]. split; [|vm_compute; reflexivity].
  assert (out (serve_with top_up start) = [WriteJSON 200 (QuotaOf "t1" 500)]) as E by (vm_compute; reflexivity).
  unfold serve_with in E. rewrite E in Hx. injection Hx as <-. reflexivity.
Defined.

Lemma topup_read_back_witness :
  exists y, out (serve_with (ask "GET" "/admin/tenants/t1/quota" "") (serve_with top_up start))
    = out (serve_with top_up start) ++ [y] /\ y = WriteJSON 200 (QuotaOf "t1" 500).
Proof.
  destruct (topup_read_back Datatypes.id read_body 0 "token" false bindings mounted (fun _ => None) at0 at0 top_up
    (ask "GET" "/admin/tenants/t1/quota" "") start "t1" "t1" 500) as [_ (y & Hy & Hval & _)].
  - vm_compute. reflexivity.
  - exact takes_top_up.
  - left. discriminate.
  - reflexivity.
  - vm_compute. reflexivity.
  - reflexivity.
  - exists "t1/quota". split; [reflexivity|]. left. reflexivity.
  - vm_compute. reflexivity.
  - exists y. split; [exact Hy|exact (Hval eq_refl)].
Defined.

Lemma controls_take_effect_witness :
  Switch.UpstreamEnabled "a" (switch (sys (serve_with (ask "PUT" "/admin/upstreams/a" "off") start))) = false.
Proof.
  refine (proj2 (proj1 (proj2 (controls_take_effect Datatypes.id read_body 0 "token" false bindings mounted (fun _ => None) at0
    (ask "PUT" "/admin/upstreams/a" "off") start _ _ _)) "a" false _ _)).
  - vm_compute. reflexivity.
  - reflexivity.
  - exact I.
  - constructor; try (vm_compute; reflexivity); [|discriminate].
    intros id (_ & H & _)%AdminFacts.addresses_iff. vm_compute in H. discriminate H.
  - vm_compute. set_solver.
Defined.

(** The operator cannot switch an upstream whose id is the name of an
    action: the PUT is taken for a probe with the wrong method, and the
    path of the upstream probes it. *)
Example upstream_named_probe :
  out (serve_with (ask "PUT" "/admin/upstreams/probe" "off") start) = [MethodNotAllowed "POST"] /\
  out (serve_with (ask "POST" "/admin/upstreams/probe" "") start) = [WriteError 409 "probe_unconfigured"] /\
  Static.validTenantID "probe" = true.
Proof. vm_compute. split_and!; reflexivity. Qed.

(** A path without an identifier addresses the tenant named after the
    action. *)
Example tenant_named_quota :
  out (serve_with (ask "PUT" "/admin/tenants/quota" "7") start) = [WriteJSON 200 (QuotaOf "quota" 7)].
Proof. vm_compute. reflexivity. Qed.
End AdminScenario.
