(* ===== verification/Insights.v ===== *)
(** * The assessment records (internal/insights/pgstore.go; cmd/breakwater/obsassembly.go)

    What one finished request leaves behind, the projection of an access
    entry onto it, and the batched writer: recorders append to a bounded
    queue, one goroutine copies it to the [request_log] table, [Close] stops
    it.  The goroutines interleave at the critical sections of the mutex, at
    the channels and at the calls of the database, whose outcomes are
    arguments. *)
From stdpp Require Import base numbers strings list.
From S2P Require Import Prelude Pipeline.
Import GoInt.
Local Open Scope Z_scope.

(** ** Records and their sinks (insights.go, obsassembly.go) *)
Module Records.
Record Row := mkRow {
  Time : Z; TenantID : string; KeyID : string; RequestID : string; Model : string; Upstream : string; Path : string;
  Status : Z; DurationMS : Z; Tokens : Z; CacheHit : bool; Streamed : bool; ErrorCode : string
}.

#[export] Instance Row_eq_dec : EqDecision Row.
Proof. solve_decision. Defined.

(** An access entry: the line of the pipeline, with the instants and the
    route it leaves out there. *)
Record Entry := mkEntry { eTime : Z; eMethod : string; ePath : string; eDuration : Z; line : Chain.Entry }.

(** [Duration.Milliseconds] *)
Definition Milliseconds (d : Z) : Z := Z.quot d 1000000.

Definition insightsRecord (entry : Entry) : Row :=
  let l := line entry in
  mkRow (eTime entry) (Chain.eTenant l) (Chain.eKey l) (Chain.eRequestID l) (Chain.eModel l)
    (Chain.eUpstream l) (ePath entry) (Chain.eStatus l) (Milliseconds (eDuration entry)) (Chain.eTokens l)
    (Chain.eCacheHit l) (Chain.eStreamed l) (Chain.eErrorCode l).

(** The consumers of the fan-out; each is optional. *)
Section sink.
Context {F I : Type}.
Variable fileRecord : Entry -> F -> F.
Variable storeRecord : Row -> I -> I.
Record combinedSink := mkSink { file : option F; insights : option I }.
Definition Record_ (entry : Entry) (c : combinedSink) : combinedSink :=
  mkSink (fileRecord entry <$> file c) (storeRecord (insightsRecord entry) <$> insights c).
End sink.

(** Where the store connects, and the variable that says so. *)
Definition insightsDSN (insights postgres : string) : string * string :=
  if negb (String.eqb insights "") then (insights, "BREAKWATER_INSIGHTS_DSN"%string)
  else if negb (String.eqb postgres "") then (postgres, "BREAKWATER_POSTGRES_DSN"%string)
  else (""%string, ""%string).
End Records.

(** ** The batched writer *)
Module Writer.
Import Records.

Definition batchSize : nat := 200.
Definition maxQueuedBatches : nat := 8.

(** Where the writer is: in its select, about to swap the queue, in the
    insert with a batch, about to count a failed batch, or returned.  [last]
    is the flush of a stop. *)
Inductive position :=
  | AtSelect | Flushing (last : bool) | Inserting (last : bool) (batch : list Row) | Counting (last : bool) (batch : list Row)
  | Stopped.

(** Where the [Close] that found the store open is. *)
Inductive closer := Unclosed | Flipped | Waiting | Returned.

(** [senders] counts recorders between their critical section and the send
    on [wake]. *)
Record PGStore := mkStore {
  queue : list Row; drops : Z; wake : bool; stop : bool; closed : bool; at_ : position; senders : nat; closing : closer
}.

Definition NewPGStore : PGStore := mkStore [] 0 false false false AtSelect 0 Unclosed.

Definition set_queue (q : list Row) (s : PGStore) : PGStore :=
  mkStore q (drops s) (wake s) (stop s) (closed s) (at_ s) (senders s) (closing s).
Definition add_drops (n : nat) (s : PGStore) : PGStore :=
  mkStore (queue s) (wrap64 (drops s + Z.of_nat n)) (wake s) (stop s) (closed s) (at_ s) (senders s) (closing s).
Definition goto (p : position) (s : PGStore) : PGStore :=
  mkStore (queue s) (drops s) (wake s) (stop s) (closed s) p (senders s) (closing s).
Definition set_wake (w : bool) (s : PGStore) : PGStore :=
  mkStore (queue s) (drops s) w (stop s) (closed s) (at_ s) (senders s) (closing s).
Definition set_senders (n : nat) (s : PGStore) : PGStore :=
  mkStore (queue s) (drops s) (wake s) (stop s) (closed s) (at_ s) n (closing s).
Definition set_closing (c : closer) (st cl : bool) (s : PGStore) : PGStore :=
  mkStore (queue s) (drops s) (wake s) st cl (at_ s) (senders s) c.

(** The critical section of [Record]. *)
Definition Record_ (rec : Row) (s : PGStore) : PGStore :=
  if closed s || (batchSize * maxQueuedBatches <=? length (queue s))%nat then add_drops 1 s
  else
    let s := set_queue (queue s ++ [rec]) s in
    if (batchSize <=? length (queue s))%nat then set_senders (S (senders s)) s else s.

(** Its send: a full channel has the signal already. *)
Definition signal (s : PGStore) : option PGStore :=
  match senders s with O => None | S n => Some (set_wake true (set_senders n s)) end.

Definition Dropped (s : PGStore) : Z := drops s.

(** [Close]: a store that was closed has nothing left to do. *)
Definition close_flip (s : PGStore) : PGStore := if closed s then s else set_closing Flipped (stop s) true s.
Definition close_stop (s : PGStore) : option PGStore :=
  match closing s with Flipped => Some (set_closing Waiting true (closed s) s) | _ => None end.
Definition close_settle (s : PGStore) : option PGStore :=
  match closing s, at_ s with
  | Waiting, Stopped => Some (set_closing Returned (stop s) (closed s) (set_queue [] (add_drops (length (queue s)) s)))
  | _, _ => None
  end.

(** The cases of the select, and how a copy ends: with the rows in the table
    or not, and an error or not; an error may hide rows that arrived. *)
Inductive choice := ByWake | ByTick | ByStop.
Inductive copied := Copied | Refused | Unacknowledged.

(** The table, and the rows of it whose copy reported an error. *)
Record Database := mkDatabase { request_log : list Row; unacknowledged : list Row }.

Definition leave (last : bool) : position := if last then Stopped else AtSelect.

(** The error of [CopyFrom]. *)
Definition CopyFrom (o : copied) (batch : list Row) (d : Database) : bool * Database :=
  match o with
  | Copied => (false, mkDatabase (request_log d ++ batch) (unacknowledged d))
  | Refused => (true, d)
  | Unacknowledged => (true, mkDatabase (request_log d ++ batch) (unacknowledged d ++ batch))
  end.

(** One step of the writer's goroutine: [writeLoop], [flush] and
    [copyInto]. *)
Definition turn (c : choice) (o : copied) (s : PGStore) (d : Database) : option (PGStore * Database) :=
  match at_ s with
  | AtSelect =>
      match c with
      | ByWake => if wake s then Some (goto (Flushing false) (set_wake false s), d) else None
      | ByTick => Some (goto (Flushing false) s, d)
      | ByStop => if stop s then Some (goto (Flushing true) s, d) else None
      end
  | Flushing last =>
      let batch := queue s in
      let s := set_queue [] s in
      Some (goto (match batch with [] => leave last | _ => Inserting last batch end) s, d)
  | Inserting last batch =>
      let (failed, d) := CopyFrom o batch d in
      Some (goto (if failed then Counting last batch else leave last) s, d)
  | Counting last batch => Some (goto (leave last) (add_drops (length batch) s), d)
  | Stopped => None
  end.

Inductive action := ARecord (rec : Row) | ASignal | AFlip | AStop | ASettle | ATurn (c : choice) (o : copied).

Definition act (a : action) (w : PGStore * Database) : option (PGStore * Database) :=
  let (s, d) := w in
  match a with
  | ARecord rec => Some (Record_ rec s, d)
  | ASignal => (., d) <$> signal s
  | AFlip => Some (close_flip s, d)
  | AStop => (., d) <$> close_stop s
  | ASettle => (., d) <$> close_settle s
  | ATurn c o => turn c o s d
  end.

Fixpoint run (tr : list action) (w : PGStore * Database) : option (PGStore * Database) :=
  match tr with [] => Some w | a :: tr => act a w ≫= run tr end.

Definition recorded (tr : list action) : list Row := omap (fun a => match a with ARecord r => Some r | _ => None end) tr.
Definition start (table : list Row) : PGStore * Database := (NewPGStore, mkDatabase table []).
End Writer.
