(* ===== verification/InsightsProps.v ===== *)
(** * What the assessment records keep

    The conservation of records under every interleaving of recorders, a
    close and the writer, and the end of the writer. *)
From stdpp Require Import base numbers strings list.
From S2P Require Import Prelude Pipeline Insights.
Import GoInt.
Local Open Scope Z_scope.

Module WriterProps.
Import Records Writer.

Definition in_hand (s : PGStore) : list Row := match at_ s with Inserting _ b => b | _ => [] end.
Definition uncounted (s : PGStore) : nat := match at_ s with Counting _ b => length b | _ => 0 end.

(** The goroutine took the stop; it has swapped the queue for the last
    time. *)
Definition leaving (s : PGStore) : bool :=
  match at_ s with Flushing true | Inserting true _ | Counting true _ | Stopped => true | _ => false end.
Definition drained (s : PGStore) : bool :=
  match at_ s with Inserting true _ | Counting true _ | Stopped => true | _ => false end.

(** The books of a store that was handed [R], over a table that held
    [table]. *)
Record accounts (table R : list Row) (s : PGStore) (d : Database) : Prop := {
  acc_rows : exists copied, request_log d = table ++ copied /\ unacknowledged d `sublist_of` copied /\
    copied ++ in_hand s ++ queue s `sublist_of` R;
  acc_count : Z.of_nat (length R + length (unacknowledged d) + length table)
    = Z.of_nat (length (request_log d) + length (in_hand s) + uncounted s + length (queue s)) + drops s;
  acc_nonneg : 0 <= drops s;
  acc_bound : (length (queue s) <= batchSize * maxQueuedBatches)%nat;
  acc_closed : closed s = match closing s with Unclosed => false | _ => true end;
  acc_stop : stop s = match closing s with Waiting | Returned => true | _ => false end;
  acc_leaving : leaving s = true -> stop s = true;
  acc_drained : drained s = true -> queue s = [];
  acc_wake : (batchSize <= length (queue s))%nat -> wake s = true \/ senders s <> O \/ exists last, at_ s = Flushing last
}.

Lemma accounts_start table : accounts table [] NewPGStore (mkDatabase table []).
Proof.
  split; cbn; try done; try (unfold batchSize; lia). exists []. by rewrite app_nil_r.
Qed.

(** Drops never pass the number of records. *)
Lemma drops_bound table R s d : accounts table R s d -> drops s + Z.of_nat (uncounted s) <= Z.of_nat (length R).
Proof.
  intros [(c & Hl & Hu & Hs) Hc _ _ _ _ _ _ _]. apply sublist_length in Hu, Hs. rewrite Hl, !length_app in *. lia.
Qed.

Lemma wrap_drops (x : Z) (n m : nat) : 0 <= x -> x + Z.of_nat n <= Z.of_nat m -> Z.of_nat m <= max_int64 -> wrap64 (x + Z.of_nat n) = x + Z.of_nat n.
Proof. intros ???. apply wrap64_id. unfold in_int64, min_int64, max_int64 in *. lia. Qed.

Lemma accounts_record table R s d rec :
  Z.of_nat (length (R ++ [rec])) <= max_int64 -> accounts table R s d -> accounts table (R ++ [rec]) (Record_ rec s) d.
Proof.
  intros HR Ha. pose proof (drops_bound _ _ _ _ Ha) as Hd. destruct Ha as [(c & Hl & Hu & Hs) Hc Hn Hb Hcl Hst Hle Hdr Hw].
  unfold Record_. rewrite length_app in HR. cbn [length] in HR.
  destruct (closed s || _) eqn:Hfull; [|apply orb_false_iff in Hfull as [Hopen Hroom%Nat.leb_gt]].
  - assert (wrap64 (drops s + Z.of_nat 1) = drops s + 1) as Hx by (rewrite (wrap_drops _ 1 (length R + 1)); lia).
    split; unfold add_drops; cbn [drops queue closing closed stop senders wake at_]; rewrite ?Hx; try done; try lia.
    + exists c. split_and!; try done. by apply sublist_inserts_r.
    + unfold in_hand, uncounted in *; cbn [at_] in *. rewrite !length_app in *. cbn [length]. lia.
  - assert (copied_ok : forall s', queue s' = queue s ++ [rec] -> in_hand s' = in_hand s ->
      c ++ in_hand s' ++ queue s' `sublist_of` R ++ [rec]).
    { intros s' -> ->. rewrite !app_assoc. apply sublist_app; [by rewrite <- app_assoc|done]. }
    assert (Hdr' : drained s = true -> queue s ++ [rec] = []).
    { intros Hx. destruct (drained s) eqn:E; [|done]. rewrite Hst in Hle. rewrite Hcl in Hopen.
      assert (leaving s = true) as Hy%Hle by (unfold leaving, drained in *; by repeat case_match). by destruct (closing s). }
    destruct (batchSize <=? _)%nat eqn:Hfl; split; cbn [drops queue closing closed stop senders wake at_ set_queue set_senders] in *; try done;
      try exact Hdr'; try (exists c; split_and!; try done; by apply copied_ok);
      try (unfold in_hand, uncounted in *; cbn [at_ set_queue set_senders] in *; rewrite !length_app in *; cbn [length] in *; lia).
    intros Hge. apply Nat.leb_gt in Hfl. lia.
Qed.

Local Ltac ledger := unfold in_hand, uncounted, leaving, drained, leave in *; cbn [drops queue closing closed stop senders wake at_ goto set_queue set_wake set_senders set_closing add_drops request_log unacknowledged length] in *.

Lemma accounts_turn table R s d c o s' d' :
  Z.of_nat (length R) <= max_int64 -> accounts table R s d -> turn c o s d = Some (s', d') -> accounts table R s' d'.
Proof.
  intros HR Ha. pose proof (drops_bound _ _ _ _ Ha) as Hd. destruct Ha as [(cp & Hl & Hu & Hs) Hc Hn Hb Hcl Hst Hle Hdr Hw].
  unfold turn. destruct (at_ s) as [|last|last batch|last batch|] eqn:Hat; [| | | |done].
  - assert (Hgo : forall b w, (b = true -> stop s = true) -> accounts table R (goto (Flushing b) (set_wake w s)) d).
    { intros b w Hb'. split; ledger; rewrite ?Hat in *; try done; try lia.
      - by exists cp.
      - destruct b; auto.
      - intros _. right. right. by exists b. }
    assert (goto (Flushing false) s = goto (Flushing false) (set_wake (wake s) s)) as Htick by done.
    assert (goto (Flushing true) s = goto (Flushing true) (set_wake (wake s) s)) as Hstop by done.
    destruct c; [destruct (wake s)| |destruct (stop s)]; intros; simplify_eq; rewrite ?Htick, ?Hstop; by apply Hgo.
  - intros [= <- <-]. destruct (queue s) as [|r q] eqn:Hq, last; split; ledger; rewrite ?Hat, ?Hq in *; ledger; try done;
      try (by auto); try (unfold batchSize; lia); try (by exists cp); exists cp; by rewrite app_nil_r.
  - assert (in_hand s = batch) as Hh by (unfold in_hand; by rewrite Hat). rewrite Hh in Hs, Hc.
    assert (exists c, request_log d ++ batch = table ++ c /\ unacknowledged d `sublist_of` c /\
      unacknowledged d ++ batch `sublist_of` c /\ c ++ [] ++ queue s `sublist_of` R) as (c1 & Hk).
    { exists (cp ++ batch). rewrite Hl, <- !app_assoc. split_and!; try done; [by apply sublist_inserts_r|by apply sublist_app]. }
    assert (cp ++ [] ++ queue s `sublist_of` R) as Hlose.
    { etrans; [|exact Hs]. apply sublist_app; [done|]. by apply sublist_inserts_l. }
    destruct o, last; cbn [CopyFrom]; intros [= <- <-]; split; ledger; rewrite ?Hat in *; ledger; try done; try lia; try (by auto);
      try (intros Hx; destruct (Hw Hx) as [?|[?|[? ?]]]; by auto); try (exists c1; destruct Hk as (?&?&?&?); by split_and!); try (by exists cp);
      rewrite !length_app in *; lia.
  - intros [= <- <-]. assert (wrap64 (drops s + Z.of_nat (length batch)) = drops s + Z.of_nat (length batch)) as Hx.
    { apply (wrap_drops _ _ (length R)); ledger; rewrite ?Hat in *; lia. }
    destruct last; split; ledger; rewrite ?Hat, ?Hx in *; ledger; try done; try lia; try (by exists cp); try (by auto);
      intros Hy; destruct (Hw Hy) as [?|[?|[? ?]]]; by auto.
Qed.

Lemma accounts_act table R a s d s' d' :
  Z.of_nat (length (R ++ recorded [a])) <= max_int64 -> accounts table R s d -> act a (s, d) = Some (s', d') ->
  accounts table (R ++ recorded [a]) s' d'.
Proof.
  intros HR Ha. destruct a as [rec| | | | |c o]; cbn [recorded omap list_omap] in *; rewrite ?app_nil_r in *; cbn [act].
  - intros [= <- <-]. by apply accounts_record.
  - unfold signal. destruct (senders s) as [|n] eqn:Hn; [done|]. intros [= <- <-].
    destruct Ha; split; ledger; try done; try lia; auto.
  - intros [= <- <-]. unfold close_flip. destruct (closed s) eqn:Hc; [done|].
    destruct Ha as [???? Hcl Hst ???]. rewrite Hc in Hcl. by destruct (closing s).
  - unfold close_stop. destruct (closing s) eqn:Hc; try done. intros [= <- <-].
    destruct Ha as [???? Hcl Hst]. rewrite Hc in Hcl. by split; ledger.
  - unfold close_settle. destruct (closing s) eqn:Hc; try done. destruct (at_ s) eqn:Hat; try done. intros [= <- <-].
    assert (queue s = []) as Hq by (apply (acc_drained _ _ _ _ Ha); unfold drained; by rewrite Hat).
    pose proof (drops_bound _ _ _ _ Ha) as Hd.
    destruct Ha as [(cp & Hrows) Hcount Hn Hb Hcl Hst Hle Hdr Hw].
    assert (wrap64 (drops s + 0) = drops s) as Hx by (rewrite (wrap_drops _ 0 (length R)); lia).
    assert (wrap64 (drops s + Z.of_nat 0) = drops s) as Hx' by done.
    rewrite Hc in Hcl, Hst. split; ledger; rewrite ?Hat, ?Hq in *; ledger; rewrite ?Hx'; try done; try lia. by exists cp.
  - by apply accounts_turn.
Qed.

Lemma recorded_cons a tr : recorded (a :: tr) = recorded [a] ++ recorded tr.
Proof. unfold recorded. cbn [omap list_omap]. by destruct a. Qed.

Lemma accounts_run table tr R s d s' d' :
  Z.of_nat (length (R ++ recorded tr)) <= max_int64 -> accounts table R s d -> run tr (s, d) = Some (s', d') ->
  accounts table (R ++ recorded tr) s' d'.
Proof.
  revert R s d. induction tr as [|a tr IH]; intros R s d HR Ha.
  - cbn. rewrite app_nil_r. by intros [= <- <-].
  - cbn [run]. rewrite recorded_cons in *. rewrite app_assoc in *. destruct (act a (s, d)) as [[s1 d1]|] eqn:Hact; [|done].
    cbn [mbind option_bind]. apply IH; [done|]. apply (accounts_act _ _ _ s d); [|done..].
    rewrite length_app in HR. lia.
Qed.

(** *** The writer ends *)
Definition stopping (o : nat -> copied) (n : nat) : list action := map (fun i => ATurn ByStop (o i)) (seq 0 n).

(** The turns until the goroutine returns when its select takes the stop. *)
Definition turns_left (s : PGStore) : nat :=
  match at_ s with
  | Flushing false => 7 | Inserting false _ => 6 | Counting false _ => 5 | AtSelect => 4
  | Flushing true => 3 | Inserting true _ => 2 | Counting true _ => 1 | Stopped => 0
  end.

Lemma turn_ends o s d : stop s = true -> at_ s <> Stopped ->
  exists s' d', turn ByStop o s d = Some (s', d') /\ stop s' = true /\ (turns_left s' < turns_left s)%nat.
Proof.
  intros Hs. unfold turn, turns_left. rewrite Hs. destruct (at_ s) as [|[]|[] batch|[] batch|]; intros ?; try done;
    try (destruct (queue s)); try (destruct o; cbn [CopyFrom]); do 2 eexists; split_and!; try reflexivity; try done; cbn; lia.
Qed.

Lemma writer_ends n k o s d : stop s = true -> (turns_left s <= n)%nat ->
  exists m s' d', (m <= n)%nat /\ run (map (fun i => ATurn ByStop (o i)) (seq k m)) (s, d) = Some (s', d') /\ at_ s' = Stopped.
Proof.
  revert k s d. induction n as [|n IH]; intros k s d Hs Hn.
  - exists O, s, d. split_and!; [done|done|]. unfold turns_left in Hn. destruct (at_ s) as [|[]|[] ?|[] ?|]; (lia || done).
  - destruct (decide (turns_left s = O)) as [E|E].
    { exists O, s, d. split_and!; [lia|done|]. unfold turns_left in E. by destruct (at_ s) as [|[]|[] ?|[] ?|]. }
    destruct (turn_ends (o k) s d Hs) as (s1 & d1 & Ht & Hs1 & Hlt).
    { intros Hx. apply E. unfold turns_left. by rewrite Hx. }
    destruct (IH (S k) s1 d1 Hs1) as (m & s' & d' & Hm & Hrun & Hend); [lia|].
    exists (S m), s', d'. split_and!; [lia| |done]. cbn [seq map run act]. by rewrite Ht.
Qed.

(** Behind the stop the writer ends whatever its schedule: its select is not
    asked again. *)
Definition turns (c : nat -> choice) (o : nat -> copied) (n : nat) : list action := map (fun i => ATurn (c i) (o i)) (seq 0 n).

Lemma leaving_ends n k c o s d : leaving s = true -> (turns_left s <= n)%nat ->
  exists m s' d', (m <= n)%nat /\ run (map (fun i => ATurn (c i) (o i)) (seq k m)) (s, d) = Some (s', d') /\ at_ s' = Stopped.
Proof.
  revert k s d. induction n as [|n IH]; intros k s d Hs Hn.
  - exists O, s, d. split_and!; [done|done|]. unfold turns_left, leaving in *. destruct (at_ s) as [|[]|[] ?|[] ?|]; (lia || done).
  - destruct (decide (turns_left s = O)) as [E|E].
    { exists O, s, d. split_and!; [lia|done|]. unfold turns_left, leaving in *. by destruct (at_ s) as [|[]|[] ?|[] ?|]. }
    assert (exists s1 d1, turn (c k) (o k) s d = Some (s1, d1) /\ leaving s1 = true /\ (turns_left s1 < turns_left s)%nat) as (s1 & d1 & Ht & Hl & Hlt).
    { unfold turn, turns_left, leaving in *. destruct (at_ s) as [|[]|[] batch|[] batch|]; try done;
        try (destruct (queue s)); try (destruct (o k); cbn [CopyFrom]); do 2 eexists; split_and!; try reflexivity; try done; cbn; lia. }
    destruct (IH (S k) s1 d1 Hl) as (m & s' & d' & Hm & Hrun & Hend); [lia|].
    exists (S m), s', d'. split_and!; [lia| |done]. cbn [seq map run act]. by rewrite Ht.
Qed.

(** C30. Whatever recorders, a close, the writer and the database do in
    whatever order, every record handed in is accounted for: it is in the
    table, in the queue, in the hand of the writer, or in the drop count,
    and in one of them only, except that the rows of a copy which arrived
    without an acknowledgement are both in the table and in the count.  Rows
    arrive in the order of their requests, the queue stays within its
    headroom, and a full batch never waits for the ticker.  A store that is
    being closed stops accepting; its writer ends within three turns of
    taking the stop, whatever else is ready, and within seven when its
    select always prefers the stop; and then nothing is left over for
    [Close] to count. *)
Theorem records_conserved table tr s d :
  run tr (start table) = Some (s, d) -> Z.of_nat (length (recorded tr)) <= max_int64 ->
  (exists copied, request_log d = table ++ copied /\ unacknowledged d `sublist_of` copied /\
     copied ++ in_hand s ++ queue s `sublist_of` recorded tr) /\
  Z.of_nat (length (recorded tr) + length (unacknowledged d) + length table)
    = Z.of_nat (length (request_log d) + length (in_hand s) + uncounted s + length (queue s)) + Dropped s /\
  (length (queue s) <= 1600)%nat /\
  ((batchSize <= length (queue s))%nat -> at_ s = AtSelect -> wake s = true \/ senders s <> O) /\
  (at_ s = Stopped -> closed s = true /\ queue s = [] /\ in_hand s = [] /\ uncounted s = O) /\
  (stop s = true -> forall o, exists n s' d', (n <= 7)%nat /\ run (stopping o n) (s, d) = Some (s', d') /\ at_ s' = Stopped) /\
  (leaving s = true -> forall c o, exists n s' d', (n <= 3)%nat /\ run (turns c o n) (s, d) = Some (s', d') /\ at_ s' = Stopped).
Proof.
  intros Hrun HR. pose proof (accounts_run table tr [] _ _ s d HR (accounts_start table) Hrun) as Ha.
  rewrite app_nil_l in Ha. split_and!; try apply Ha.
  - intros Hq Hat. destruct (acc_wake _ _ _ _ Ha Hq) as [?|[?|[l E]]]; [by left|by right|congruence].
  - intros Hat. unfold in_hand, uncounted. rewrite Hat. split_and!; try done.
    + rewrite (acc_closed _ _ _ _ Ha). assert (stop s = true) as Hs by (apply (acc_leaving _ _ _ _ Ha); unfold leaving; by rewrite Hat).
      rewrite (acc_stop _ _ _ _ Ha) in Hs. by destruct (closing s).
    + apply (acc_drained _ _ _ _ Ha). unfold drained. by rewrite Hat.
  - intros Hs o. apply writer_ends; [done|]. unfold turns_left. destruct (at_ s) as [|[]|[] ?|[] ?|]; lia.
  - intros Hs c o. apply leaving_ends; [done|]. unfold turns_left, leaving in *. destruct (at_ s) as [|[]|[] ?|[] ?|]; (lia || done).
Qed.

Definition sample (id : string) : Row := mkRow 0 "acme" "" id "gpt" "east" "/v1/chat/completions" 200 12 7 false false "".
(** Two records are copied, a third is refused, a fourth comes after the
    close. *)
Definition sample_run : list action :=
  [ARecord (sample "a"); ARecord (sample "b"); ATurn ByTick Copied; ATurn ByTick Copied; ARecord (sample "c"); ATurn ByTick Copied;
   AFlip; ARecord (sample "d"); AStop] ++ stopping (fun _ => Refused) 4 ++ [ASettle].

Definition sample_end : PGStore * Database :=
  (mkStore [] 2 false true true Stopped 0 Returned, mkDatabase [sample "a"; sample "b"] []).

Lemma sample_runs : run sample_run (start []) = Some sample_end.
Proof. vm_compute. reflexivity. Qed.

Lemma records_conserved_witness :
  Dropped sample_end.1 = 2 /\ Z.of_nat (length (recorded sample_run) + 0 + 0) = Z.of_nat (2 + 0 + 0 + 0) + Dropped sample_end.1.
Proof.
  split; [done|]. apply (records_conserved [] sample_run sample_end.1 sample_end.2 sample_runs). vm_compute. discriminate.
Defined.
End WriterProps.
