(* ===== verification/Reports.v ===== *)
(** * The assessment report (internal/insights: insights.go, report.go)

    [Report] is the code: which queries are sent, how their rows are folded,
    and what an error leaves.  [Queries] gives the meaning of the SQL of each
    query over the rows of [request_log].  The connection that answers is an
    argument, and so is PostgreSQL's [percentile_cont]. *)
From Stdlib Require Import QArith.
From stdpp Require Import base numbers strings list sorting.
From S2P Require Import Prelude Float64 Pipeline Insights.
Import GoInt.
Local Open Scope Z_scope.

(** ** The report *)
Module Report.

Record windowSummaryRow := mkSummaryRow {
  requests : Z; failed : Z; p50 : Q; p95 : Q; p99 : Q; tokens : Z; cacheHits : Z
}.
Record Failure := mkFailure { Code : string; Count : Z }.
Record SeriesPoint := mkPoint { Bucket : Z; pRequests : Z; pFailures : Z; pP50MS : Q; pP95MS : Q }.
Record Dimension := mkDimension { Name : string; dRequests : Z; dFailures : Z; dTokens : Z; dP95MS : Q }.

(** A slice; [None] is nil. *)
Definition slice (A : Type) : Type := option (list A).
Definition append {A} (s : slice A) (x : A) : slice A := Some (default [] s ++ [x]).
Definition nonNil {A} (s : slice A) : slice A := match s with None => Some [] | _ => s end.

Record Summary := mkSummary {
  From : Z; To : Z; Requests : Z; Failures : Z; SuccessRate : Q; P50MS : Q; P95MS : Q; P99MS : Q; Tokens : Z;
  CacheHits : Z; FailureMix : slice Failure
}.
Record Report := mkReport {
  summary : Summary; Timeline : slice SeriesPoint; ByTenant : slice Dimension; ByKey : slice Dimension;
  ByModel : slice Dimension; ByUpstream : slice Dimension
}.

Section report.
Context {E : Type}.

(** The rows of a query: what each [Scan] reads, and [Err] at the end. *)
Record Rows {A : Type} := mkRows { scans : list (A + E); Err : option E }.
Arguments Rows : clear implicits.

Record queryer := mkQueryer {
  summaryQuery : Z -> Z -> windowSummaryRow + E;
  failuresQuery : Z -> Z -> Rows Failure + E;
  timelineQuery : Z -> Z -> Z -> Rows SeriesPoint + E;
  dimensionQuery : Z -> Z -> string -> Rows Dimension + E
}.

(** The loop over the rows. *)
Fixpoint scan_loop {A} (l : list (A + E)) (out : slice A) : slice A + E :=
  match l with
  | [] => inl out
  | inr e :: _ => inr e
  | inl x :: l => scan_loop l (append out x)
  end.

Definition scanRows {A} (rows : Rows A) : slice A + E :=
  match scan_loop (scans rows) None with
  | inr e => inr e
  | inl out => match Err rows with Some e => inr e | None => inl out end
  end.

Definition query {A} (r : Rows A + E) : slice A + E := match r with inr e => inr e | inl rows => scanRows rows end.

Definition failures (q : queryer) (from to : Z) : slice Failure + E := query (failuresQuery q from to).
Definition timeline (q : queryer) (from to : Z) : slice SeriesPoint + E := query (timelineQuery q from to from).
Definition dimension (q : queryer) (from to : Z) (column : string) : slice Dimension + E := query (dimensionQuery q from to column).

Definition successRate (requests failed : Z) : Q :=
  if 0 <? requests then fdiv (fof_int (wrap64 (requests - failed))) (fof_int requests) else 0%Q.

Definition bindE {A B} (r : A + E) (k : A -> B + E) : B + E := match r with inl x => k x | inr e => inr e end.
Local Notation "'let!' x := r ; k" := (bindE r (fun x => k)) (at level 10, x name, r at level 100, k at level 200).

Definition report (q : queryer) (from to : Z) : Report + E :=
  let! row := summaryQuery q from to;
  let! mix := (if 0 <? failed row then failures q from to else inl None);
  let! series := timeline q from to;
  let! tenants := dimension q from to "tenant_id";
  let! keys := dimension q from to "key_id";
  let! models := dimension q from to "model";
  let! upstreams := dimension q from to "upstream";
  inl (mkReport
    (mkSummary from to (requests row) (failed row) (successRate (requests row) (failed row)) (p50 row) (p95 row) (p99 row)
       (tokens row) (cacheHits row) (nonNil mix))
    (nonNil series) (nonNil tenants) (nonNil keys) (nonNil models) (nonNil upstreams)).
End report.
Arguments Rows : clear implicits.
Arguments queryer : clear implicits.
End Report.

(** ** The queries *)
Module Queries.
Import Records Report.

(** A TIMESTAMPTZ keeps microseconds, and so do the parameters of a query:
    the driver drops the nanoseconds below. *)
Definition micros (t : Z) : Z := t / 1000 * 1000.
(** The [time] column of a row. *)
Definition time (r : Row) : Z := micros (Time r).

(** [time >= $1 AND time < $2] *)
Definition in_window (from to : Z) (r : Row) : bool := (micros from <=? time r) && (time r <? micros to).
Definition window (from to : Z) (l : list Row) : list Row := List.filter (in_window from to) l.

(** [status < 200 OR (status > 299 AND status <> 499)] *)
Definition failing (r : Row) : bool := (Status r <? 200) || (299 <? Status r) && negb (Status r =? 499).

(** The [cause] of a failing row. *)
Definition cause (r : Row) : string :=
  if String.eqb (ErrorCode r) "" then (if 500 <=? Status r then "upstream_5xx"%string else "upstream_4xx"%string) else ErrorCode r.

(** [date_bin('5 minutes', time, $3)] *)
Definition slot : Z := 5 * 60 * 1000000000.
Definition date_bin (origin : Z) (r : Row) : Z := micros origin + (time r - micros origin) / slot * slot.

(** The [name] of a slice: the column, or a dash where it is empty or not one
    of the four. *)
Definition column_of (column : string) (r : Row) : string :=
  let v := (if String.eqb column "tenant_id" then TenantID r
            else if String.eqb column "key_id" then KeyID r
            else if String.eqb column "model" then Records.Model r
            else if String.eqb column "upstream" then Records.Upstream r
            else "")%string in
  if String.eqb v "" then "-"%string else v.

(** [GROUP BY] *)
Definition group {K} `{EqDecision K} (key : Row -> K) (l : list Row) : list (K * list Row) :=
  map (fun k => (k, List.filter (fun r => bool_decide (key r = k)) l)) (remove_dups (map key l)).

Definition count (l : list Row) : Z := Z.of_nat (length l).
Definition sum_tokens (l : list Row) : Z := foldr (fun r n => Records.Tokens r + n) 0 l.

Section queries.
Variable percentile_cont : Q -> list Z -> Q.
Definition percentile (p : Q) (l : list Row) : Q := percentile_cont p (map DurationMS l).
(** [COALESCE(percentile_cont, 0)] *)
Definition percentile_or_zero (p : Q) (l : list Row) : Q := match l with [] => 0%Q | _ => percentile p l end.

Definition summary_row (from to : Z) (table : list Row) : windowSummaryRow :=
  let w := window from to table in
  mkSummaryRow (count w) (count (List.filter failing w)) (percentile_or_zero (1 # 2) w) (percentile_or_zero (19 # 20) w)
    (percentile_or_zero (99 # 100) w) (sum_tokens w) (count (List.filter CacheHit w)).

Definition failure_of (g : string * list Row) : Failure := mkFailure g.1 (count g.2).
Definition failure_groups (from to : Z) (table : list Row) : list Failure :=
  map failure_of (group cause (List.filter failing (window from to table))).

Definition point_of (g : Z * list Row) : SeriesPoint :=
  mkPoint g.1 (count g.2) (count (List.filter failing g.2)) (percentile (1 # 2) g.2) (percentile (19 # 20) g.2).
Definition series_groups (from to origin : Z) (table : list Row) : list SeriesPoint :=
  map point_of (group (date_bin origin) (window from to table)).

Definition dimension_of (g : string * list Row) : Dimension :=
  mkDimension g.1 (count g.2) (count (List.filter failing g.2)) (sum_tokens g.2) (percentile (19 # 20) g.2).
Definition dimension_groups (from to : Z) (column : string) (table : list Row) : list Dimension :=
  map dimension_of (group (column_of column) (window from to table)).

(** [ORDER BY count DESC] leaves the order of ties open; [LIMIT 20]. *)
Definition busiest {A} (n : A -> Z) (x y : A) : Prop := n y <= n x.
Definition limit : nat := 20.

(** What a query sends when it completes. *)
Definition delivers {A E} (r : Rows E A + E) (P : list A -> Prop) : Prop :=
  forall rows l, r = inl rows -> Err rows = None -> scans rows = map inl l -> P l.

(** The breakdowns in the order of their queries. *)
Definition columns : list string := ["tenant_id"; "key_id"; "model"; "upstream"]%string.

(** A connection to the database: [tables i] is what the [i]th query of a
    report reads.  The queries share no transaction, and rows only arrive. *)
Record reads {E : Type} (tables : nat -> list Row) (q : queryer E) : Prop := {
  rd_grows : forall i, tables i `prefix_of` tables (S i);
  rd_summary : forall from to row, summaryQuery q from to = inl row ->
    row = summary_row from to (tables O) /\ in_int64 (tokens row) /\ in_int64 (requests row);
  rd_failures : forall from to, delivers (failuresQuery q from to) (fun l =>
    l ≡ₚ failure_groups from to (tables 1%nat) /\ StronglySorted (busiest Count) l);
  rd_timeline : forall from to origin, delivers (timelineQuery q from to origin) (fun l =>
    l ≡ₚ series_groups from to origin (tables 2%nat) /\ StronglySorted (fun x y => Bucket x <= Bucket y) l);
  rd_dimension : forall from to i column, columns !! i = Some column -> delivers (dimensionQuery q from to column) (fun l =>
    exists all, all ≡ₚ dimension_groups from to column (tables (3 + i)%nat) /\ StronglySorted (busiest dRequests) all /\ l = take limit all)
}.
End queries.
End Queries.
