(* ===== verification/ReportsProps.v ===== *)
(** * What a report says of the table

    The lists of a report against the rows of [request_log]: groups lose no
    row, and an error leaves no report. *)
From Stdlib Require Import QArith.
From stdpp Require Import base numbers strings list sorting pretty.
From S2P Require Import Prelude Float64 Pipeline Insights Reports.
Import GoInt.
Local Open Scope Z_scope.

Module ReportProps.
Import Records Report Queries.

Definition total {A} (n : A -> Z) (l : list A) : Z := foldr (fun x s => n x + s) 0 l.

Lemma total_app {A} (n : A -> Z) l k : total n (l ++ k) = total n l + total n k.
Proof. unfold total. induction l as [|x l IH]; cbn; lia. Qed.

Lemma total_perm {A} (n : A -> Z) l k : l ≡ₚ k -> total n l = total n k.
Proof. unfold total. induction 1; cbn; lia. Qed.

Lemma total_map {A B} (f : A -> B) (n : B -> Z) l : total n (map f l) = total (fun x => n (f x)) l.
Proof. unfold total. induction l as [|x l IH]; cbn; [done|by rewrite IH]. Qed.

Lemma total_nonneg {A} (n : A -> Z) l : (forall x, x ∈ l -> 0 <= n x) -> 0 <= total n l.
Proof.
  induction l as [|x l IH]; intros H; [done|]. unfold total in *; cbn.
  assert (0 <= n x) by (apply H; left). assert (0 <= foldr (fun x s => n x + s) 0 l) by (apply IH; intros; apply H; by right). lia.
Qed.

Lemma count_app l k : count (l ++ k) = count l + count k.
Proof. unfold count. rewrite length_app. lia. Qed.

Lemma count_filter (f : Row -> bool) l : 0 <= count (List.filter f l) <= count l.
Proof. unfold count. induction l as [|r l IH]; cbn -[Z.of_nat]; [lia|]. destruct (f r); cbn -[Z.of_nat]; lia. Qed.

Lemma elem_filter (f : Row -> bool) l r : r ∈ List.filter f l <-> r ∈ l /\ f r = true.
Proof. rewrite !list_elem_of_In. apply filter_In. Qed.

Lemma prefix_filter (f : Row -> bool) l k : l `prefix_of` k -> count (List.filter f l) <= count (List.filter f k).
Proof. intros [m ->]. rewrite List.filter_app, count_app. pose proof (count_filter f (List.filter f m)). unfold count in *. lia. Qed.

(** ** Groups *)
Section group.
Context {K : Type} `{EqDecision K}.
Variable key : Row -> K.
Implicit Types (l : list Row) (k : K) (g : list Row).

Definition of_key k l : list Row := List.filter (fun r => bool_decide (key r = k)) l.

Lemma of_key_cons k r l : count (of_key k (r :: l)) = (if decide (key r = k) then 1 else 0) + count (of_key k l).
Proof. unfold of_key, count. cbn [List.filter]. destruct (decide (key r = k)); [rewrite bool_decide_true|rewrite bool_decide_false]; cbn [length]; (done || lia). Qed.

(** One row is counted under one of the keys. *)
Lemma one_key (ks : list K) r l : NoDup ks ->
  total (fun k => count (of_key k (r :: l))) ks = (if decide (key r ∈ ks) then 1 else 0) + total (fun k => count (of_key k l)) ks.
Proof.
  induction 1 as [|k ks Hk Hnd IH]; [by destruct (decide _) as [Hin%not_elem_of_nil|]|].
  unfold total in *. cbn [foldr]. rewrite IH, of_key_cons. 
  destruct (decide (key r = k)) as [E|], (decide (key r ∈ ks)), (decide (key r ∈ k :: ks)) as [Hd|Hd]; rewrite elem_of_cons in Hd;
    try lia; naive_solver.
Qed.

Lemma keys_count (ks : list K) l : NoDup ks -> (forall r, r ∈ l -> key r ∈ ks) -> total (fun k => count (of_key k l)) ks = count l.
Proof.
  intros Hnd. induction l as [|r l IH]; intros Hin.
  - clear. unfold total. by induction ks.
  - rewrite one_key by done. rewrite decide_True by (apply Hin; left). rewrite IH by (intros; apply Hin; by right).
    unfold count. cbn [length]. lia.
Qed.

(** No row is lost, and none is counted twice. *)
Lemma group_total l : total (fun p => count p.2) (group key l) = count l.
Proof.
  unfold group. rewrite total_map. cbn [snd]. apply keys_count; [apply NoDup_remove_dups|].
  intros r Hr. apply elem_of_remove_dups, list_elem_of_fmap. by exists r.
Qed.

Lemma group_keys l : (group key l).*1 = remove_dups (map key l).
Proof. unfold group. rewrite <- list_fmap_compose. apply list_fmap_id. Qed.

Lemma group_elem l k g : (k, g) ∈ group key l <-> g = of_key k l /\ exists r, r ∈ l /\ key r = k.
Proof.
  unfold group. rewrite list_elem_of_fmap. split.
  - intros (k' & [= -> ->] & Hk). split; [done|]. apply elem_of_remove_dups, list_elem_of_fmap in Hk as (r & -> & ?). by exists r.
  - intros [-> (r & Hr & <-)]. exists (key r). split; [done|]. apply elem_of_remove_dups, list_elem_of_fmap. by exists r.
Qed.

Lemma group_nonempty l k g : (k, g) ∈ group key l -> 0 < count g.
Proof.
  intros [-> (r & Hr & Hk)]%group_elem. assert (r ∈ of_key k l) as Hin by (apply elem_filter; by rewrite bool_decide_true).
  unfold count. destruct (of_key k l); [by apply not_elem_of_nil in Hin|cbn; lia].
Qed.
End group.

(** ** Rows of a query *)
Lemma scan_loop_inl {A E} (l : list (A + E)) out res :
  scan_loop l out = inl res -> exists xs, l = map inl xs /\ nonNil res = Some (default [] out ++ xs).
Proof.
  revert out. induction l as [|[x|e] l IH]; intros out; cbn [scan_loop].
  - intros [= ->]. exists []. rewrite app_nil_r. by destruct res.
  - intros (xs & -> & ->)%IH. exists (x :: xs). split; [done|]. cbn. by rewrite <- app_assoc.
  - done.
Qed.

Lemma query_inl {A E} (r : Rows E A + E) out :
  query r = inl out -> exists rows xs, r = inl rows /\ Err rows = None /\ scans rows = map inl xs /\ nonNil out = Some xs.
Proof.
  destruct r as [rows|e]; [|done]. cbn [query]. unfold scanRows. destruct (scan_loop (scans rows) None) as [res|e] eqn:Hs; [|done].
  destruct (Err rows) eqn:He; [done|]. intros [= <-]. apply scan_loop_inl in Hs as (xs & Hl & Hr). by exists rows, xs.
Qed.

Lemma query_delivers {A E} (r : Rows E A + E) P out : query r = inl out -> delivers r P -> exists xs, nonNil out = Some xs /\ P xs.
Proof. intros (rows & xs & -> & He & Hs & Hn)%query_inl Hd. exists xs. split; [done|]. by apply (Hd rows). Qed.

Section report.
Context {E : Type}.
Variable percentile_cont : Q -> list Z -> Q.
Variable tables : nat -> list Row.
Variable q : queryer E.
Hypothesis Hreads : reads percentile_cont tables q.
Variable from to : Z.

(** The rows of the window when the [i]th query runs, and the failures among
    them. *)
Definition at_query (i : nat) : list Row := window from to (tables i).
Definition failures_at (i : nat) : list Row := List.filter failing (at_query i).

(** The cause as the report documents it: the recorded code, or the class of
    the status. *)
Definition documented_cause (r : Row) : string :=
  if String.eqb (ErrorCode r) "" then "upstream_" +:+ pretty (Status r / 100) +:+ "xx" else ErrorCode r.

(** A failure without a code passed an upstream's error through. *)
Definition classed (w : list Row) : Prop := forall r, r ∈ w -> failing r = true -> ErrorCode r = ""%string -> 400 <= Status r <= 599.

(** A cause per entry, the most frequent first. *)
Definition mix_of (w : list Row) (l : list Failure) : Prop :=
  NoDup (map Code l) /\ StronglySorted (busiest Count) l /\
  (forall f, f ∈ l -> Count f = count (of_key documented_cause (Code f) w) /\ 0 < Count f) /\ total Count l = count w.

(** Disjoint slots of the window in order. *)
Definition series_of (w : list Row) (l : list SeriesPoint) : Prop :=
  StronglySorted (fun x y => Bucket x < Bucket y) l /\
  (forall p, p ∈ l -> micros from <= Bucket p < micros to /\ (Bucket p - micros from) mod slot = 0 /\
     pRequests p = count (List.filter (fun r => (Bucket p <=? time r) && (time r <? Bucket p + slot)) w) /\
     0 <= pFailures p <= pRequests p) /\
  total pRequests l = count w.

(** The busiest slices of a column. *)
Definition slices_of (column : string) (w : list Row) (l : list Dimension) : Prop :=
  (length l <= limit)%nat /\ NoDup (map Name l) /\ StronglySorted (busiest dRequests) l /\
  (forall d, d ∈ l -> d = dimension_of percentile_cont (Name d, of_key (column_of column) (Name d) w) /\ 0 <= dFailures d <= dRequests d) /\
  (forall d name, d ∈ l -> name ∉ map Name l -> count (of_key (column_of column) name w) <= dRequests d) /\
  total dRequests l <= count w /\ ((length l < limit)%nat -> total dRequests l = count w).

Lemma StronglySorted_le_lt {A} (f : A -> Z) l : NoDup (map f l) -> StronglySorted (fun x y => f x <= f y) l -> StronglySorted (fun x y => f x < f y) l.
Proof.
  intros Hnd. induction 1 as [|x l Hs IH Hx]; [constructor|]. apply NoDup_cons in Hnd as [Hni Hnd]. constructor; [by apply IH|].
  rewrite Forall_forall in *. intros y Hy. specialize (Hx y Hy). assert (f x <> f y); [|lia].
  intros Heq. apply Hni. rewrite Heq. by apply list_elem_of_fmap_2.
Qed.

Lemma cause_documented w r : classed w -> r ∈ w -> failing r = true -> cause r = documented_cause r.
Proof.
  intros Hw Hr Hf. unfold cause, documented_cause. destruct (String.eqb_spec (ErrorCode r) "") as [He|]; [|done].
  specialize (Hw r Hr Hf He). destruct (Z.leb_spec 500 (Status r)).
  - assert (Status r / 100 = 5) as -> by (symmetry; apply (Z.div_unique _ _ _ (Status r - 500)); lia). by vm_compute.
  - assert (Status r / 100 = 4) as -> by (symmetry; apply (Z.div_unique _ _ _ (Status r - 400)); lia). by vm_compute.
Qed.

Lemma mix_ok l table : classed (window from to table) -> l ≡ₚ failure_groups from to table -> StronglySorted (busiest Count) l ->
  mix_of (List.filter failing (window from to table)) l.
Proof.
  intros Hclass Hp Hs. set (w := List.filter failing (window from to table)).
  assert (map Code (failure_groups from to table) = (group cause w).*1) as Hk by (unfold failure_groups; by rewrite map_map).
  split_and!; [|done| |].
  - rewrite Hp, Hk, group_keys. apply NoDup_remove_dups.
  - intros f Hf. rewrite Hp in Hf. unfold failure_groups in Hf. apply list_elem_of_fmap in Hf as ([k g] & -> & Hg).
    split; [|by apply group_nonempty in Hg]. apply group_elem in Hg as [-> _]. cbn [failure_of fst snd Code Count].
    unfold of_key. f_equal. apply filter_ext_in. intros r Hr%list_elem_of_In.
    apply elem_filter in Hr as [Hr Hf]. by rewrite (cause_documented _ r Hclass Hr Hf).
  - rewrite (total_perm _ _ _ Hp). unfold failure_groups. rewrite total_map. apply group_total.
Qed.

(** A row is in the slot of its bin. *)
Lemma date_bin_slot r : date_bin from r <= time r < date_bin from r + slot /\ (date_bin from r - micros from) mod slot = 0.
Proof.
  unfold date_bin. set (o := micros from). pose proof (Z.mod_pos_bound (time r - o) slot ltac:(done)). pose proof (Z.div_mod (time r - o) slot ltac:(done)).
  split; [lia|]. replace (o + (time r - o) / slot * slot - o) with ((time r - o) / slot * slot) by lia. by apply Z.mod_mul.
Qed.

Lemma same_slot r s : (date_bin from s <=? time r) && (time r <? date_bin from s + slot) = bool_decide (date_bin from r = date_bin from s).
Proof.
  destruct (date_bin_slot r) as [Hr _], (date_bin_slot s) as [Hs _].
  apply eq_bool_prop_intro. rewrite bool_decide_spec, andb_True, !Is_true_true, Z.leb_le, Z.ltb_lt. split; [|lia].
  intros H. unfold date_bin in *. set (o := micros from) in *. assert ((time r - o) / slot = (time s - o) / slot) as ->; [|done].
  unfold slot in *. set (a := (time r - o) / (5 * 60 * 1000000000)) in *. set (b := (time s - o) / (5 * 60 * 1000000000)) in *. lia.
Qed.

Lemma series_ok l table : l ≡ₚ series_groups percentile_cont from to from table -> StronglySorted (fun x y => Bucket x <= Bucket y) l ->
  series_of (window from to table) l.
Proof.
  intros Hp Hs. set (w := window from to table).
  assert (map Bucket (series_groups percentile_cont from to from table) = (group (date_bin from) w).*1) as Hk by (unfold series_groups; by rewrite map_map).
  split_and!.
  - apply StronglySorted_le_lt; [|done]. rewrite Hp, Hk, group_keys. apply NoDup_remove_dups.
  - intros p Hin. rewrite Hp in Hin. unfold series_groups in Hin. apply list_elem_of_fmap in Hin as ([k g] & -> & Hg).
    apply group_elem in Hg as [-> (r & Hr & <-)]. cbn [point_of fst snd Bucket pRequests pFailures].
    destruct (date_bin_slot r) as [Hb Hm]. apply elem_filter in Hr as [_ Hw]. unfold in_window in Hw.
    apply andb_prop in Hw as [Hf%Z.leb_le Ht%Z.ltb_lt]. split_and!; try done; try lia; try apply count_filter.
    + unfold date_bin. set (o := micros from) in *. assert (0 <= (time r - o) / slot) by (apply Z.div_pos; [lia|done]). unfold slot in *. lia.
    + unfold of_key. f_equal. apply filter_ext. intros s. by rewrite same_slot.
  - rewrite (total_perm _ _ _ Hp). unfold series_groups. rewrite total_map. apply group_total.
Qed.

Lemma dimension_elem column table d : d ∈ dimension_groups percentile_cont from to column table <->
  exists name, d = dimension_of percentile_cont (name, of_key (column_of column) name (window from to table)) /\
    exists r, r ∈ window from to table /\ column_of column r = name.
Proof.
  unfold dimension_groups. rewrite list_elem_of_fmap. split.
  - intros ([name g] & -> & Hg). apply group_elem in Hg as [-> Hr]. by exists name.
  - intros (name & -> & Hr). eexists. split; [done|]. by apply group_elem.
Qed.

Lemma StronglySorted_app_le {A} (R : A -> A -> Prop) l k x y : StronglySorted R (l ++ k) -> x ∈ l -> y ∈ k -> R x y.
Proof.
  induction l as [|z l IH]; [by intros _ ?%not_elem_of_nil|]. intros Hs [->|Hx]%elem_of_cons Hy.
  - apply StronglySorted_inv in Hs as [_ Hf]. rewrite Forall_forall in Hf. apply Hf, elem_of_app. by right.
  - apply IH; [|done..]. by apply StronglySorted_inv in Hs as [].
Qed.

Lemma StronglySorted_take {A} (R : A -> A -> Prop) n l : StronglySorted R l -> StronglySorted R (take n l).
Proof.
  intros Hs. revert n. induction Hs as [|x l Hs IH Hf]; intros [|n]; try constructor; [apply IH|].
  by apply Forall_take.
Qed.

Lemma slices_ok column table l all :
  all ≡ₚ dimension_groups percentile_cont from to column table -> StronglySorted (busiest dRequests) all -> l = take limit all ->
  slices_of column (window from to table) l.
Proof.
  intros Hp Hs ->. set (w := window from to table). pose proof (take_drop limit all) as Hsplit.
  assert (map Name (dimension_groups percentile_cont from to column table) = (group (column_of column) w).*1) as Hk
    by (unfold dimension_groups; by rewrite map_map).
  assert (NoDup (map Name all)) as Hnd by (rewrite Hp, Hk, group_keys; apply NoDup_remove_dups).
  assert (Htot : total dRequests all = count w).
  { rewrite (total_perm _ _ _ Hp). unfold dimension_groups. rewrite total_map. apply group_total. }
  assert (Hin : forall d, d ∈ all -> d = dimension_of percentile_cont (Name d, of_key (column_of column) (Name d) w)).
  { intros d Hd. rewrite Hp in Hd. by apply dimension_elem in Hd as (name & -> & _). }
  assert (Hle : forall d, d ∈ all -> 0 <= dFailures d <= dRequests d) by (intros d Hd; rewrite (Hin d Hd); apply count_filter).
  assert (Htake : forall d, d ∈ take limit all -> d ∈ all) by (intros d; rewrite <- Hsplit at 2; rewrite elem_of_app; auto).
  split_and!.
  - rewrite length_take. lia.
  - change (map Name) with (fmap Name : list Dimension -> list string) in *. rewrite fmap_take. by eapply sublist_NoDup, sublist_take.
  - by apply StronglySorted_take.
  - intros d Hd%Htake. auto.
  - intros d name Hd Hn. destruct (decide (name ∈ map Name all)) as [Hname|Hname].
    + apply list_elem_of_fmap in Hname as (d' & -> & Hd'). rewrite <- Hsplit in Hd', Hs.
      apply elem_of_app in Hd' as [Hd'|Hd']; [by destruct Hn; apply list_elem_of_fmap_2|].
      pose proof (StronglySorted_app_le _ _ _ _ _ Hs Hd Hd') as Hb. unfold busiest in Hb.
      assert (d' ∈ all) as Ha by (rewrite <- Hsplit; apply elem_of_app; by right). rewrite (Hin d' Ha) in Hb at 1. done.
    + assert (of_key (column_of column) name w = []) as ->; [|apply Htake in Hd; specialize (Hle d Hd); unfold count; cbn; lia].
      destruct (of_key _ name w) as [|r g] eqn:Hg; [done|]. destruct Hname.
      assert (r ∈ of_key (column_of column) name w) as Hr by (rewrite Hg; left).
      apply elem_filter in Hr as [Hr Hc%bool_decide_eq_true]. change (name ∈ Name <$> all). rewrite Hp. apply list_elem_of_fmap.
      eexists. split; [|apply dimension_elem; exists name; split; [reflexivity|by exists r]]. done.
  - rewrite <- Htot. rewrite <- Hsplit at 2. rewrite total_app.
    assert (0 <= total dRequests (drop limit all)); [|lia]. apply total_nonneg. intros d Hd.
    specialize (Hle d). rewrite <- Hsplit, elem_of_app in Hle. specialize (Hle ltac:(by right)). lia.
  - intros Hlen. rewrite length_take in Hlen. rewrite take_ge by lia. done.
Qed.

Lemma successRate_bounds n f : in_int64 n -> 0 <= f <= n -> (0 <= successRate n f <= 1)%Q.
Proof.
  intros Hn Hf. unfold successRate. destruct (Z.ltb_spec 0 n) as [Hpos|]; [|by split].
  rewrite wrap64_id by (unfold in_int64, min_int64, max_int64 in *; lia).
  assert (0 < fof_int n)%Q as Hd.
  { apply Qlt_le_trans with (fof_int 1); [done|]. apply fof_int_mono. lia. }
  pose proof (fof_int_mono (n - f) n ltac:(lia)) as Hmono. pose proof (fof_int_nonneg (n - f) ltac:(lia)) as Hnn. unfold fdiv. split.
  - apply rnd_nonneg. apply Qle_shift_div_l; [done|]. by rewrite Qmult_0_l.
  - change 1%Q with (rnd 1). apply rnd_mono. apply Qle_shift_div_r; [done|]. by rewrite Qmult_1_l.
Qed.

Lemma at_query_grows i : count (at_query i) <= count (at_query (S i)).
Proof. apply prefix_filter, (rd_grows _ _ _ Hreads). Qed.

Lemma dimension_ok i column r : columns !! i = Some column -> dimension q from to column = inl r ->
  exists l, nonNil r = Some l /\ slices_of column (at_query (3 + i)) l.
Proof.
  intros Hi Hq. destruct (query_delivers _ _ _ Hq (rd_dimension _ _ _ Hreads from to i column Hi)) as (l & Hl & all & Hp & Hs & Ht).
  exists l. split; [done|]. by apply (slices_ok _ _ l all).
Qed.

(** What was sent, and failed with [e]. *)
Definition query_failed (e : E) : Prop :=
  summaryQuery q from to = inr e \/ failures q from to = inr e \/ timeline q from to = inr e \/
  exists column, column ∈ columns /\ dimension q from to column = inr e.

(** C31. A report is complete or an error of one of its queries.  Its summary
    counts the rows of the window, the failures among them and the tokens,
    with a success rate between nothing and one; where every failure without
    a code has a status of 4xx or 5xx, the failure mix has every documented
    cause once, most frequent first, and loses no failure; the timeline puts
    every row in exactly one five-minute slot of the window; each breakdown
    has the at most twenty busiest slices, and with fewer than twenty it
    loses no row.  Instants count in the microseconds of the column.  The
    queries see the table as it grows, so a later list counts at least the
    rows of the summary.  No list is null. *)
Theorem report_of_table :
  classed (at_query 1) ->
  match report q from to with
  | inr e => query_failed e
  | inl rep =>
      let s := summary rep in
      (From s = from /\ To s = to /\ Requests s = count (at_query 0) /\ Failures s = count (failures_at 0) /\
       Report.Tokens s = sum_tokens (at_query 0) /\ CacheHits s = count (List.filter CacheHit (at_query 0)) /\
       (0 <= SuccessRate s <= 1)%Q) /\
      (exists l, FailureMix s = Some l /\ if 0 <? Failures s then mix_of (failures_at 1) l else l = []) /\
      (exists l, Timeline rep = Some l /\ series_of (at_query 2) l /\ Requests s <= total pRequests l) /\
      (exists l, ByTenant rep = Some l /\ slices_of "tenant_id" (at_query 3) l) /\
      (exists l, ByKey rep = Some l /\ slices_of "key_id" (at_query 4) l) /\
      (exists l, ByModel rep = Some l /\ slices_of "model" (at_query 5) l) /\
      (exists l, ByUpstream rep = Some l /\ slices_of "upstream" (at_query 6) l)
  end.
Proof.
  intros Hclass. unfold report, bindE. destruct (summaryQuery q from to) as [row|e] eqn:Hsum; [|by left].
  apply (rd_summary _ _ _ Hreads) in Hsum as (-> & _ & Hint). cbn [failed requests summary_row].
  fold (at_query 0) (failures_at 0).
  destruct (if 0 <? count (failures_at 0) then _ else _) as [mix|e] eqn:Hmix; [|by right; left; destruct (0 <? _)].
  destruct (timeline q from to) as [series|e] eqn:Hser; [|by right; right; left].
  assert (Hcol : forall column e, column ∈ columns -> dimension q from to column = inr e -> query_failed e).
  { intros column e Hc Hd. do 3 right. by exists column. }
  destruct (dimension q from to "tenant_id") as [d0|e] eqn:H0; [|apply (Hcol _ _ (list_elem_of_lookup_2 columns 0 _ eq_refl) H0)].
  destruct (dimension q from to "key_id") as [d1|e] eqn:H1; [|apply (Hcol _ _ (list_elem_of_lookup_2 columns 1 _ eq_refl) H1)].
  destruct (dimension q from to "model") as [d2|e] eqn:H2; [|apply (Hcol _ _ (list_elem_of_lookup_2 columns 2 _ eq_refl) H2)].
  destruct (dimension q from to "upstream") as [d3|e] eqn:H3; [|apply (Hcol _ _ (list_elem_of_lookup_2 columns 3 _ eq_refl) H3)].
  cbn [summary From To Requests Failures SuccessRate FailureMix Timeline ByTenant ByKey ByModel ByUpstream Report.Tokens CacheHits].
  split_and!; try done.
  - apply successRate_bounds; [done|apply count_filter].
  - apply successRate_bounds; [done|apply count_filter].
  - destruct (0 <? _); [|injection Hmix as <-; by exists []].
    destruct (query_delivers _ _ _ Hmix (rd_failures _ _ _ Hreads from to)) as (l & Hl & Hp & Hs). exists l. split; [done|]. by apply mix_ok.
  - destruct (query_delivers _ _ _ Hser (rd_timeline _ _ _ Hreads from to from)) as (l & Hl & Hp & Hs). pose proof (series_ok l _ Hp Hs) as Hok.
    exists l. split_and!; [done|done|]. destruct Hok as (_ & _ & ->). pose proof (at_query_grows 0). pose proof (at_query_grows 1).
    unfold at_query in *. lia.
  - by apply (dimension_ok 0).
  - by apply (dimension_ok 1).
  - by apply (dimension_ok 2).
  - by apply (dimension_ok 3).
Qed.
End report.

(** ** A connection over a table at rest *)
Section rest.
Variable percentile_cont : Q -> list Z -> Q.

#[local] Instance busiest_dec {A} (n : A -> Z) : RelDecision (busiest n) := fun x y => Z_le_dec (n y) (n x).
#[local] Instance busiest_total {A} (n : A -> Z) : Total (busiest n).
Proof. intros x y. unfold busiest. lia. Qed.
#[local] Instance busiest_trans {A} (n : A -> Z) : Transitive (busiest n).
Proof. intros x y z. unfold busiest. lia. Qed.
Definition earlier (x y : SeriesPoint) : Prop := Bucket x <= Bucket y.
#[local] Instance earlier_dec : RelDecision earlier := fun x y => Z_le_dec (Bucket x) (Bucket y).
#[local] Instance earlier_total : Total earlier.
Proof. intros x y. unfold earlier. lia. Qed.
#[local] Instance earlier_trans : Transitive earlier.
Proof. intros x y z. unfold earlier. lia. Qed.

Definition all_rows {A} (l : list A) : Rows string A + string := inl (mkRows _ (map inl l) None).

Definition at_rest (table : list Row) : queryer string := {|
  summaryQuery from to :=
    let row := summary_row percentile_cont from to table in
    if bool_decide (in_int64 (tokens row) /\ in_int64 (requests row)) then inl row else inr "out of range"%string;
  failuresQuery from to := all_rows (merge_sort (busiest Count) (failure_groups from to table));
  timelineQuery from to origin := all_rows (merge_sort earlier (series_groups percentile_cont from to origin table));
  dimensionQuery from to column := all_rows (take limit (merge_sort (busiest dRequests) (dimension_groups percentile_cont from to column table)))
|}.

Lemma all_rows_delivers {A} (l : list A) (P : list A -> Prop) : P l -> delivers (all_rows l) P.
Proof. intros HP rows k [= <-] _ Hk. cbn in Hk. by apply (inj (map inl)) in Hk as ->. Qed.

Lemma at_rest_reads table : reads percentile_cont (fun _ => table) (at_rest table).
Proof.
  split.
  - done.
  - intros from to row. cbn. case_bool_decide as H; [|done]. intros [= <-]. tauto.
  - intros from to. apply all_rows_delivers. split; [apply merge_sort_Permutation|apply (StronglySorted_merge_sort (busiest Count) _)].
  - intros from to origin. apply all_rows_delivers. split; [apply merge_sort_Permutation|apply (StronglySorted_merge_sort earlier _)].
  - intros from to i column _. apply all_rows_delivers. exists (merge_sort (busiest dRequests) (dimension_groups percentile_cont from to column table)).
    split_and!; [apply merge_sort_Permutation|apply (StronglySorted_merge_sort (busiest dRequests) _)|done].
Qed.
End rest.

(** Three requests of one window: a success, a failure passed through and a
    client that left. *)
Definition sample (time status : Z) (tenant code : string) : Row :=
  mkRow time tenant "" "r" "gpt" "east" "/v1/chat/completions" status 12 7 false false code.
Definition sample_table : list Row :=
  [sample 1000 200 "acme" ""; sample 400000000000 503 "acme" ""; sample 2000 499 "zeta" ""; sample 700000000000 200 "acme" ""].
Definition no_percentile (p : Q) (l : list Z) : Q := 0%Q.

Lemma report_of_table_witness :
  exists rep, report (at_rest no_percentile sample_table) 0 600000000000 = inl rep /\
    Requests (summary rep) = 3 /\ Failures (summary rep) = 1 /\ FailureMix (summary rep) = Some [mkFailure "upstream_5xx" 1] /\
    exists l, Timeline rep = Some l /\ series_of 0 600000000000 (window 0 600000000000 sample_table) l /\ 3 <= total pRequests l.
Proof.
  pose proof (report_of_table no_percentile (fun _ => sample_table) (at_rest no_percentile sample_table)
                (at_rest_reads no_percentile sample_table) 0 600000000000) as H.
  assert (classed (at_query (fun _ => sample_table) 0 600000000000 1)) as Hclass.
  { assert (at_query (fun _ => sample_table) 0 600000000000 1 = take 3 sample_table) as -> by (vm_compute; reflexivity).
    intros r Hr Hf _. unfold sample_table in Hr. cbn [take] in Hr. rewrite !elem_of_cons, elem_of_nil in Hr.
    destruct Hr as [->|[->|[->|[]]]]; vm_compute in Hf; (discriminate Hf || (split; vm_compute; discriminate)). }
  specialize (H Hclass).
  destruct (report (at_rest no_percentile sample_table) 0 600000000000) as [rep|e] eqn:Hr; [|vm_compute in Hr; discriminate Hr].
  exists rep. split; [reflexivity|].
  assert (Requests (summary rep) = 3) as H3 by (vm_compute in Hr; injection Hr as <-; reflexivity).
  split; [exact H3|]. split; [vm_compute in Hr; injection Hr as <-; reflexivity|].
  split; [vm_compute in Hr; injection Hr as <-; reflexivity|].
  destruct H as (_ & _ & Ht & _). rewrite H3 in Ht. exact Ht.
Defined.
End ReportProps.
