(* ===== verification/Identities.v ===== *)
(** * The identity database (internal/auth: pg.go, pgadmin.go, admin.go; deploy/schema.sql)

    [Sql] is the schema and the effect of each statement the store sends, a
    transaction being a session with rows of its own and row locks.
    [PGStore] is the code: every method is a program of statements and random
    draws.  A program runs [alone], which makes the store an [AdminStore] and
    answers resolutions, or its statements interleave with those of other
    programs on one server ([Sessions]); either way an exchange may be lost.
    JSON, the keyed hash and randomness are arguments. *)
From Stdlib Require Import Ascii.
From stdpp Require Import base numbers gmap strings list sorting.
From S2P Require Import Prelude Auth AuthCache Admin.
Local Open Scope Z_scope.

(** ** Tables and statements *)
Module Sql.

Record tier_row := mkTier { rpm : Z; tpm : Z; monthly_quota : Z; per_request_max_tokens : Z; allowed_models : list string }.
Record tenant_row := mkTenant { t_name : string; t_tier_id : string; t_role : string; t_overrides : string; t_created_at : Z }.
Record key_row := mkKey {
  k_tenant_id : string; k_key_hash : string; k_name : string; k_status : string; k_overrides : string; k_created_at : Z
}.

Record database := mkDatabase { tiers : gmap string tier_row; tenants : gmap string tenant_row; api_keys : gmap string key_row }.

Definition set_tenants (m : gmap string tenant_row) (d : database) : database := mkDatabase (tiers d) m (api_keys d).
Definition set_keys (m : gmap string key_row) (d : database) : database := mkDatabase (tiers d) (tenants d) m.

(** A refused write, by its SQLSTATE, or no answer. *)
Inductive sql_error := Violation (code : string) | Offline.
Definition unique_violation : sql_error := Violation "23505".
Definition foreign_key_violation : sql_error := Violation "23503".

Inductive stmt :=
  | InsertTenant (id name role tier_id : string)
  | SelectTenants
  | UpdateTenantOverrides (doc id : string)
  | LockTenant (id : string)
  | CountActive (tenant_id : string)
  | InsertKey (id tenant_id key_hash name : string)
  | SelectKeys (tenant_id : string)
  | UpdateKeyOverrides (doc id : string)
  | UpdateKeyStatus (status id : string)
  | SelectIdentity (key_hash : string)
  | Begin | Commit | Rollback.

Record identity_row := mkIdentity {
  i_tenant : string; i_name : string; i_role : string; i_key : string; i_tier : string; i_limits : tier_row;
  i_user_overrides : string; i_key_overrides : string
}.

Inductive reply :=
  | Affected (n : Z) | NoRows | Id (id : string) | Count (n : Z) | CreatedAt (at_ : Z)
  | TenantRows (rows : list (string * tenant_row)) | KeyRows (rows : list (string * key_row)) | IdentityRow (row : identity_row).

(** Open transactions with the keys they inserted, and who holds the lock of
    a tenant's row. *)
Record server := mkServer { db : database; txs : gmap nat (gmap string key_row); locks : gmap string nat }.

Definition set_db (d : database) (v : server) : server := mkServer d (txs v) (locks v).

Definition active (r : key_row) : bool := String.eqb (k_status r) "active".

(** What session [s] sees: what is committed and its own rows. *)
Definition own (s : nat) (v : server) : gmap string key_row := default ∅ (txs v !! s).
Definition visible (s : nat) (v : server) : gmap string key_row := own s v ∪ api_keys (db v).

Definition active_keys (m : gmap string key_row) (tenant : string) : nat :=
  size (filter (fun p : string * key_row => k_tenant_id p.2 = tenant /\ active p.2 = true) m).

(** [ORDER BY created_at, id] *)
Definition older {R} (created : R -> Z) (x y : string * R) : Prop :=
  created x.2 < created y.2 \/ created x.2 = created y.2 /\ String.le x.1 y.1.
#[export] Instance older_dec {R} (created : R -> Z) : RelDecision (older created).
Proof. intros x y. unfold older. apply _. Defined.
Definition listed {R} (created : R -> Z) (m : gmap string R) : list (string * R) := merge_sort (older created) (map_to_list m).

(** The join of a key with its tenant and tier. *)
Definition join (d : database) (k : string * key_row) : option identity_row :=
  match tenants d !! k_tenant_id k.2 with
  | None => None
  | Some t =>
      match tiers d !! t_tier_id t with
      | None => None
      | Some limits =>
          Some (mkIdentity (k_tenant_id k.2) (t_name t) (t_role t) k.1 (t_tier_id t) limits (t_overrides t) (k_overrides k.2))
      end
  end.
Definition with_hash (hash : string) (m : gmap string key_row) : gmap string key_row := filter (fun p => k_key_hash p.2 = hash) m.
Definition identities (hash : string) (d : database) : list identity_row :=
  omap (join d) (List.filter (fun p => active p.2) (map_to_list (with_hash hash (api_keys d)))).

(** The session is over: its rows are gone, its locks free. *)
Definition forget (s : nat) (v : server) : server :=
  mkServer (db v) (delete s (txs v)) (filter (fun p => p.2 <> s) (locks v)).

(** A lock on the row of [id] that another session holds. *)
Definition blocked (s : nat) (id : string) (v : server) : bool :=
  match locks v !! id with Some s' => negb (s' =? s)%nat | None => false end.

(** Another session has a row that would violate a unique column. *)
Definition contended (s : nat) (id hash : string) (v : server) : bool :=
  bool_decide (map_Exists (fun s' m => s' <> s /\ (id ∈ dom m \/ with_hash hash m <> ∅)) (txs v)).

Definition put_key (s : nat) (id : string) (r : key_row) (v : server) : server :=
  match txs v !! s with
  | Some m => mkServer (db v) (<[s := <[id := r]> m]> (txs v)) (locks v)
  | None => set_db (set_keys (<[id := r]> (api_keys (db v))) (db v)) v
  end.

Definition update_key (id : string) (f : key_row -> key_row) (v : server) : (reply + sql_error) * server :=
  match api_keys (db v) !! id with
  | Some r => (inl (Affected 1), set_db (set_keys (<[id := f r]> (api_keys (db v))) (db v)) v)
  | None => (inl (Affected 0), v)
  end.

(** One statement of session [s] at the time [now]; [None] waits for another
    session. *)
Definition exec (s : nat) (now : Z) (q : stmt) (v : server) : option ((reply + sql_error) * server) :=
  let d := db v in
  match q with
  | InsertTenant id name role tier =>
      Some (if decide (is_Some (tenants d !! id)) then (inr unique_violation, v)
            else if decide (is_Some (tiers d !! tier))
            then (inl (Affected 1), set_db (set_tenants (<[id := mkTenant name tier role "{}" now]> (tenants d)) d) v)
            else (inr foreign_key_violation, v))
  | SelectTenants => Some (inl (TenantRows (listed t_created_at (tenants d))), v)
  | UpdateTenantOverrides doc id =>
      match tenants d !! id with
      | None => Some (inl (Affected 0), v)
      | Some t =>
          if blocked s id v then None
          else Some (inl (Affected 1),
                 set_db (set_tenants (<[id := mkTenant (t_name t) (t_tier_id t) (t_role t) doc (t_created_at t)]> (tenants d)) d) v)
      end
  | LockTenant id =>
      match tenants d !! id with
      | None => Some (inl NoRows, v)
      | Some _ => if blocked s id v then None else Some (inl (Id id), mkServer d (txs v) (<[id := s]> (locks v)))
      end
  | CountActive tenant => Some (inl (Count (Z.of_nat (active_keys (visible s v) tenant))), v)
  | InsertKey id tenant hash name =>
      if contended s id hash v || blocked s tenant v then None
      else Some (if decide (is_Some (visible s v !! id) \/ with_hash hash (visible s v) <> ∅) then (inr unique_violation, v)
                 else if decide (is_Some (tenants d !! tenant))
                 then (inl (CreatedAt now), put_key s id (mkKey tenant hash name "active" "{}" now) v)
                 else (inr foreign_key_violation, v))
  | SelectKeys tenant => Some (inl (KeyRows (listed k_created_at (filter (fun p => k_tenant_id p.2 = tenant) (visible s v)))), v)
  | UpdateKeyOverrides doc id =>
      Some (update_key id (fun r => mkKey (k_tenant_id r) (k_key_hash r) (k_name r) (k_status r) doc (k_created_at r)) v)
  | UpdateKeyStatus status id =>
      Some (update_key id (fun r => mkKey (k_tenant_id r) (k_key_hash r) (k_name r) status (k_overrides r) (k_created_at r)) v)
  | SelectIdentity hash => Some (match identities hash d with [] => inl NoRows | r :: _ => inl (IdentityRow r) end, v)
  | Begin => Some (inl (Affected 0), mkServer d (<[s := ∅]> (txs v)) (locks v))
  | Commit => Some (inl (Affected 0), forget s (set_db (set_keys (visible s v) d) v))
  | Rollback => Some (inl (Affected 0), forget s v)
  end.

(** How an exchange goes: a connection that is lost, before the statement ran
    or after, takes its transaction with it. *)
Inductive link := Up | Unsent | Unanswered.
Definition exchange (l : link) (s : nat) (now : Z) (q : stmt) (v : server) : option ((reply + sql_error) * server) :=
  match l with
  | Up => match exec s now q v with
          | Some (inr e, v') => Some (inr e, forget s v')
          | r => r
          end
  | Unsent => Some (inr Offline, forget s v)
  | Unanswered => match exec s now q v with Some (_, v') => Some (inr Offline, forget s v') | None => Some (inr Offline, forget s v) end
  end.
End Sql.

(** ** The store *)
Module PGStore.
Import Sql Limits Static Cached Identity.

(** A method: statements on its own session, and bytes drawn from
    crypto/rand, which may fail. *)
Inductive prog {A : Type} :=
  | Ret (a : A)
  | Exec (q : stmt) (k : reply + sql_error -> prog)
  | Draw (n : nat) (k : option (list Z) -> prog).
Arguments prog : clear implicits.

Fixpoint bind {A B} (p : prog A) (f : A -> prog B) : prog B :=
  match p with
  | Ret a => f a
  | Exec q k => Exec q (fun r => bind (k r) f)
  | Draw n k => Draw n (fun r => bind (k r) f)
  end.

Definition userIDPrefix : string := "u_".
Definition keyIDPrefix : string := "k_".
Definition MaxKeysPerUser : Z := 5.

Definition hexDigits : list ascii := String.list_ascii_of_string "0123456789abcdef".
Definition hexDigit (n : Z) : ascii := nth (Z.to_nat n) hexDigits "0"%char.
Fixpoint hexEncode (b : list Z) : string :=
  match b with
  | [] => ""
  | v :: b => String (hexDigit (Z.shiftr v 4)) (String (hexDigit (Z.land v 15)) (hexEncode b))
  end.

Definition randomID (prefix : string) : prog (string + admin_error) :=
  Draw 12 (fun buf => Ret (match buf with Some b => inl (prefix +:+ hexEncode b) | None => inr (Failure "generate id") end)).
Definition GenerateKey : prog (string + admin_error) :=
  Draw 24 (fun buf => Ret (match buf with Some b => inl ("bw-" +:+ hexEncode b) | None => inr (Failure "generate key") end)).

Section store.
Variable hashKey : string -> string -> string.
(** [json.Marshal] into a column, and [json.Unmarshal] of what it holds. *)
Variable encode : LimitOverride -> option string.
Variable decode : string -> option LimitOverride.
Variable keyPepper : string.

Definition ParseOverride (raw : string) : option LimitOverride := if String.eqb raw "" then Some no_override else decode raw.

Definition CreateUser (name role tierID : string) : prog (string + admin_error) :=
  if negb (String.eqb role RoleUser) && negb (String.eqb role RoleAdmin) then Ret (inr (Failure "unknown role"))
  else bind (randomID userIDPrefix) (fun r =>
    match r with
    | inr e => Ret (inr e)
    | inl id =>
        Exec (InsertTenant id name role tierID) (fun r => Ret (
          match r with
          | inr (Violation code) => if String.eqb code "23503" then inr ErrUnknownTier else inr (Failure "create user")
          | inr Offline => inr (Failure "create user")
          | inl _ => inl id
          end))
    end).

(** The loops over rows: a document that does not parse fails the listing. *)
Fixpoint scanUsers (rows : list (string * tenant_row)) : list UserView + admin_error :=
  match rows with
  | [] => inl []
  | (id, t) :: rows =>
      match ParseOverride (t_overrides t) with
      | None => inr (Failure "user overrides")
      | Some o =>
          match scanUsers rows with
          | inr e => inr e
          | inl out => inl (mkUser id (t_name t) (t_role t) (t_tier_id t) o (t_created_at t) :: out)
          end
      end
  end.
Fixpoint scanKeys (rows : list (string * key_row)) : list KeyView + admin_error :=
  match rows with
  | [] => inl []
  | (id, k) :: rows =>
      match ParseOverride (k_overrides k) with
      | None => inr (Failure "key overrides")
      | Some o =>
          match scanKeys rows with
          | inr e => inr e
          | inl out => inl (Identity.mkKey id (k_name k) (active k) o (k_created_at k) :: out)
          end
      end
  end.

Definition Users : prog (list UserView + admin_error) :=
  Exec SelectTenants (fun r => Ret (match r with inl (TenantRows rows) => scanUsers rows | _ => inr (Failure "list users") end)).
Definition Keys (userID : string) : prog (list KeyView + admin_error) :=
  Exec (SelectKeys userID) (fun r => Ret (match r with inl (KeyRows rows) => scanKeys rows | _ => inr (Failure "list keys") end)).

(** A write to one row, and the sentinel when there is none. *)
Definition touch (q : stmt) (unknown : admin_error) : prog (option admin_error) :=
  Exec q (fun r => Ret (
    match r with
    | inl (Affected n) => if n =? 0 then Some unknown else None
    | _ => Some (Failure "write")
    end)).
Definition setOverrides (query : string -> stmt) (o : LimitOverride) (unknown : admin_error) : prog (option admin_error) :=
  match encode o with
  | None => Ret (Some (Failure "encode overrides"))
  | Some raw => touch (query raw) unknown
  end.

Definition SetUserLimits (userID : string) (o : LimitOverride) : prog (option admin_error) :=
  setOverrides (fun doc => UpdateTenantOverrides doc userID) o ErrUnknownUser.
Definition SetKeyLimits (keyID : string) (o : LimitOverride) : prog (option admin_error) :=
  setOverrides (fun doc => UpdateKeyOverrides doc keyID) o ErrUnknownKey.
Definition SetKeyStatus (keyID : string) (active : bool) : prog (option admin_error) :=
  touch (UpdateKeyStatus (if active then "active" else "disabled") keyID) ErrUnknownKey.

(** *** Issuing a key *)
Definition insertKey (userID name raw id : string) : prog (IssuedKey + admin_error) :=
  Exec (InsertKey id userID (hashKey keyPepper raw) name) (fun r =>
    match r with
    | inl (CreatedAt createdAt) =>
        Exec Commit (fun r => Ret (
          match r with
          | inl _ => inl (mkIssued (Identity.mkKey id name true no_override createdAt) raw)
          | inr _ => inr (Failure "create key")
          end))
    | _ => Ret (inr (Failure "create key"))
    end).

Definition mintKey (userID name : string) : prog (IssuedKey + admin_error) :=
  bind GenerateKey (fun r =>
    match r with
    | inr e => Ret (inr e)
    | inl raw => bind (randomID keyIDPrefix) (fun r => match r with inr e => Ret (inr e) | inl id => insertKey userID name raw id end)
    end).

Definition countKeys (userID name : string) : prog (IssuedKey + admin_error) :=
  Exec (CountActive userID) (fun r =>
    match r with
    | inl (Count count) => if MaxKeysPerUser <=? count then Ret (inr ErrTooManyKeys) else mintKey userID name
    | _ => Ret (inr (Failure "count keys"))
    end).

Definition createKeyTx (userID name : string) : prog (IssuedKey + admin_error) :=
  Exec (LockTenant userID) (fun r =>
    match r with
    | inl NoRows => Ret (inr ErrUnknownUser)
    | inl _ => countKeys userID name
    | inr _ => Ret (inr (Failure "lock user"))
    end).

(** The deferred rollback: nothing is left to roll back behind a commit. *)
Definition rollback {A} (a : A) : prog A := Exec Rollback (fun _ => Ret a).

Definition CreateKey (userID name : string) : prog (IssuedKey + admin_error) :=
  Exec Begin (fun r =>
    match r with
    | inl _ => bind (createKeyTx userID name) rollback
    | inr _ => Ret (inr (Failure "begin create key"))
    end).

(** *** Resolution *)
Definition resolveTenantRow (r : reply + sql_error) : resolution :=
  match r with
  | inl (IdentityRow row) =>
      match ParseOverride (i_user_overrides row) with
      | None => Failed "tenant overrides"
      | Some userOverride =>
          match ParseOverride (i_key_overrides row) with
          | None => Failed "key overrides"
          | Some keyOverride =>
              let l := i_limits row in
              let tier := Limits.mkTier (i_tier row) (rpm l) (tpm l) (per_request_max_tokens l) (monthly_quota l)
                            (allowed_models l) [] ∅ 0 in
              Found (Static.mkTenant (i_tenant row) (i_name row) (i_role row) (i_key row) (MergeTier tier [userOverride; keyOverride]))
          end
      end
  | inl NoRows => Denied
  | _ => Failed "resolve key"
  end.

Definition Resolve (apiKey : string) : prog resolution :=
  Exec (SelectIdentity (hashKey keyPepper apiKey)) (fun r => Ret (resolveTenantRow r)).

(** ** A program on its own *)
Record world := mkWorld { srv : server; links : list link; entropy : list (list Z); clock : Z }.
Definition set_srv (v : server) (w : world) : world := mkWorld v (links w) (entropy w) (clock w).

(** Once the outcomes run out every exchange succeeds; a statement that
    waits is given up. *)
Definition send (q : stmt) (w : world) : (reply + sql_error) * world :=
  let l := match links w with [] => Up | l :: _ => l end in
  let w := mkWorld (srv w) (tail (links w)) (entropy w) (clock w) in
  match exchange l 0 (clock w) q (srv w) with
  | Some (r, v) => (r, set_srv v w)
  | None => (inr Offline, set_srv (forget 0 (srv w)) w)
  end.
Definition draw (w : world) : option (list Z) * world :=
  match entropy w with
  | [] => (None, w)
  | b :: e => (Some b, mkWorld (srv w) (links w) e (clock w))
  end.

Fixpoint alone {A} (p : prog A) (w : world) : A * world :=
  match p with
  | Ret a => (a, w)
  | Exec q k => let (r, w) := send q w in alone (k r) w
  | Draw n k => let (b, w) := draw w in alone (k b) w
  end.

#[export] Instance store : AdminStore world := {|
  Identity.CreateUser name role tier := alone (CreateUser name role tier);
  Identity.Users w := (alone Users w).1;
  Identity.SetUserLimits id o := alone (SetUserLimits id o);
  Identity.CreateKey id name := alone (CreateKey id name);
  Identity.ListKeys id w := (alone (Keys id) w).1;
  Identity.SetKeyLimits id o := alone (SetKeyLimits id o);
  Identity.SetKeyStatus id b := alone (SetKeyStatus id b)
|}.
End store.
End PGStore.

(** ** Programs that share a server *)
Module Sessions.
Import Sql PGStore.
Section sessions.
Context {A : Type}.
(** What may be started. *)
Variable method : prog A -> Prop.

(** What every session has left to do. *)
Record system := mkSystem { shared : server; running : gmap nat (prog A) }.

(** A session takes its next step, at a time and with an outcome of the
    exchange, or a new one starts. *)
Inductive step : system -> system -> Prop :=
  | step_exec y s q k l now r v :
      running y !! s = Some (Exec q k) -> exchange l s now q (shared y) = Some (r, v) ->
      step y (mkSystem v (<[s := k r]> (running y)))
  | step_draw y s n k b :
      running y !! s = Some (Draw n k) -> step y (mkSystem (shared y) (<[s := k b]> (running y)))
  | step_end y s a : running y !! s = Some (Ret a) -> step y (mkSystem (shared y) (delete s (running y)))
  | step_start y s p : method p -> running y !! s = None -> step y (mkSystem (shared y) (<[s := p]> (running y))).
End sessions.
Arguments system : clear implicits.

(** A session that forgets what its method returns. *)
Definition forgetting {A} (p : prog A) : prog unit := bind p (fun _ => Ret tt).

(** The methods of a store, and resolutions; [enabling] says whether keys may
    be enabled. *)
Inductive method (hashKey : string -> string -> string) (encode : Limits.LimitOverride -> option string)
    (decode : string -> option Limits.LimitOverride) (keyPepper : string) (enabling : bool) : prog unit -> Prop :=
  | m_create_user name role tier : method hashKey encode decode keyPepper enabling (forgetting (CreateUser name role tier))
  | m_users : method hashKey encode decode keyPepper enabling (forgetting (Users decode))
  | m_user_limits id o : method hashKey encode decode keyPepper enabling (forgetting (SetUserLimits encode id o))
  | m_create_key id name : method hashKey encode decode keyPepper enabling (forgetting (CreateKey hashKey keyPepper id name))
  | m_keys id : method hashKey encode decode keyPepper enabling (forgetting (Keys decode id))
  | m_key_limits id o : method hashKey encode decode keyPepper enabling (forgetting (SetKeyLimits encode id o))
  | m_key_status id b : (b = true -> enabling = true) -> method hashKey encode decode keyPepper enabling (forgetting (SetKeyStatus id b))
  | m_resolve key : method hashKey encode decode keyPepper enabling (forgetting (Resolve hashKey decode keyPepper key)).
End Sessions.

(** ** The directory an operator has in mind *)
Module Directory.
Import Sql PGStore Limits Static Cached Identity.

Record user := mkUser { name : string; role : string; tier : string; limits : LimitOverride }.
Record key := mkKey { owner : string; digest : string; label : string; enabled : bool; key_limits : LimitOverride }.
Record directory := mkDirectory { plans : gmap string tier_row; users : gmap string user; keys : gmap string key }.

Inductive request :=
  | RCreateUser (name role tier : string) | RUserLimits (id : string) (o : LimitOverride) | RCreateKey (user label : string)
  | RKeyLimits (id : string) (o : LimitOverride) | RKeyStatus (id : string) (b : bool).

(** What a write answers: the identity it made, with the raw key, or nothing
    more than that it is done, or an error. *)
Inductive answer := Made (id raw : string) | Written | Refused (e : admin_error).

Section directory.
Variable hashKey : string -> string -> string.
Variable keyPepper : string.

Definition set_users (m : gmap string user) (d : directory) : directory := mkDirectory (plans d) m (keys d).
Definition set_keys (m : gmap string key) (d : directory) : directory := mkDirectory (plans d) (users d) m.

(** The directory behind a write that made [id] and [raw]. *)
Definition effect (q : request) (id raw : string) (d : directory) : directory :=
  match q with
  | RCreateUser n r t => set_users (<[id := mkUser n r t no_override]> (users d)) d
  | RUserLimits u o => set_users (alter (fun x => mkUser (name x) (role x) (tier x) o) u (users d)) d
  | RCreateKey u l => set_keys (<[id := mkKey u (hashKey keyPepper raw) l true no_override]> (keys d)) d
  | RKeyLimits k o => set_keys (alter (fun x => mkKey (owner x) (digest x) (label x) (enabled x) o) k (keys d)) d
  | RKeyStatus k b => set_keys (alter (fun x => mkKey (owner x) (digest x) (label x) b (key_limits x)) k (keys d)) d
  end.

Definition active_of (d : directory) (u : string) : nat :=
  size (filter (fun p : string * key => owner p.2 = u /\ enabled p.2 = true) (keys d)).

Definition used (h : string) (d : directory) : Prop := exists id k, keys d !! id = Some k /\ digest k = h.

(** When a write is possible. *)
Definition possible (q : request) (d : directory) : Prop :=
  match q with
  | RCreateUser _ r t => (r = RoleUser \/ r = RoleAdmin) /\ is_Some (plans d !! t)
  | RUserLimits u _ => is_Some (users d !! u)
  | RCreateKey u _ => is_Some (users d !! u) /\ Z.of_nat (active_of d u) < MaxKeysPerUser
  | RKeyLimits k _ | RKeyStatus k _ => is_Some (keys d !! k)
  end.
Definition fresh (q : request) (id raw : string) (d : directory) : Prop :=
  match q with
  | RCreateUser _ _ _ => users d !! id = None
  | RCreateKey _ _ => keys d !! id = None /\ ~ used (hashKey keyPepper raw) d
  | _ => True
  end.

(** The relation between a write, its answer and the directories around
    it. *)
Definition outcome (q : request) (a : answer) (d d' : directory) : Prop :=
  match a with
  | Made id raw => possible q d /\ fresh q id raw d /\ d' = effect q id raw d
  | Written => possible q d /\ d' = effect q "" "" d
  | Refused ErrUnknownTier => d' = d /\ exists n r t, q = RCreateUser n r t /\ plans d !! t = None
  | Refused ErrUnknownUser =>
      d' = d /\ exists u, users d !! u = None /\ ((exists o, q = RUserLimits u o) \/ exists l, q = RCreateKey u l)
  | Refused ErrUnknownKey =>
      d' = d /\ exists k, keys d !! k = None /\ ((exists o, q = RKeyLimits k o) \/ exists b, q = RKeyStatus k b)
  | Refused ErrTooManyKeys => d' = d /\ exists u l, q = RCreateKey u l /\ is_Some (users d !! u) /\ MaxKeysPerUser <= Z.of_nat (active_of d u)
  | Refused (Failure _) => d' = d \/ exists id raw, possible q d /\ fresh q id raw d /\ d' = effect q id raw d
  | Refused _ => False
  end.

(** Whom a key admits. *)
Definition grant (d : directory) (id : string) (k : key) : option Tenant :=
  match users d !! owner k with
  | None => None
  | Some u =>
      match plans d !! tier u with
      | None => None
      | Some l =>
          Some (Static.mkTenant (owner k) (name u) (role u) id
            (MergeTier (Limits.mkTier (tier u) (rpm l) (tpm l) (per_request_max_tokens l) (monthly_quota l) (allowed_models l) [] ∅ 0)
               [limits u; key_limits k]))
      end
  end.

(** The answer to a raw key: its enabled holder, or a denial. *)
Definition answers (d : directory) (raw : string) (a : resolution) : Prop :=
  (exists id k t, keys d !! id = Some k /\ digest k = hashKey keyPepper raw /\ enabled k = true /\ grant d id k = Some t /\ a = Found t) \/
  (forall id k, keys d !! id = Some k -> digest k = hashKey keyPepper raw -> enabled k = false) /\ a = Denied.

(** The constraints of the schema. *)
Record legal (d : directory) : Prop := {
  lg_tier : forall u x, users d !! u = Some x -> is_Some (plans d !! tier x);
  lg_owner : forall i k, keys d !! i = Some k -> is_Some (users d !! owner k);
  lg_digest : forall i j k k', keys d !! i = Some k -> keys d !! j = Some k' -> digest k = digest k' -> i = j
}.
End directory.

(** A write of the store. *)
Section perform.
Variable hashKey : string -> string -> string.
Variable encode : LimitOverride -> option string.
Variable keyPepper : string.

Definition written (r : option admin_error) : answer := match r with None => Written | Some e => Refused e end.
Definition perform (q : request) : prog answer :=
  match q with
  | RCreateUser n r t => bind (PGStore.CreateUser n r t) (fun r => Ret (match r with inl id => Made id "" | inr e => Refused e end))
  | RUserLimits u o => bind (PGStore.SetUserLimits encode u o) (fun r => Ret (written r))
  | RCreateKey u l =>
      bind (PGStore.CreateKey hashKey keyPepper u l) (fun r => Ret (match r with inl k => Made (kID (iView k)) (iRaw k) | inr e => Refused e end))
  | RKeyLimits k o => bind (PGStore.SetKeyLimits encode k o) (fun r => Ret (written r))
  | RKeyStatus k b => bind (PGStore.SetKeyStatus k b) (fun r => Ret (written r))
  end.
End perform.
End Directory.
