(* ===== verification/IdentitiesProps.v ===== *)
(** * What the identity database keeps

    The ceiling of active keys under concurrent issuance, and the way a
    written identity resolves. *)
From Stdlib Require Import Ascii.
From stdpp Require Import base numbers gmap strings list sorting relations.
From S2P Require Import Prelude Auth AuthCache Admin Identities.
Local Open Scope Z_scope.

(** ** The ceiling of active keys *)
Module Ceiling.
Import Sql PGStore Sessions.

(** How far a session is in issuing a key: outside of a transaction, in one,
    with the lock of a user, having counted room for a key, with the row. *)
Inductive stage := Out | Open | Locked (u : string) | Room (u : string) | Inserted (u : string).

#[export] Instance stage_eq_dec : EqDecision stage.
Proof. solve_decision. Defined.

Definition next (g : stage) (q : stmt) (r : reply) : stage :=
  match q, r with
  | Begin, _ => Open
  | LockTenant id, Id _ => match g with Open => Locked id | _ => g end
  | CountActive u, Count n => match g with Locked u' => if decide (u = u' /\ n < MaxKeysPerUser) then Room u else g | _ => g end
  | InsertKey _ u _ _, CreatedAt _ => Inserted u
  | Commit, _ | Rollback, _ => Out
  | _, _ => g
  end.

(** What a statement may answer, and when a session may send it. *)
Definition answers (q : stmt) (r : reply) : Prop :=
  match q with
  | LockTenant id => r = NoRows \/ r = Id id
  | CountActive _ => exists n, r = Count n
  | InsertKey _ _ _ _ => exists at_, r = CreatedAt at_
  | _ => True
  end.
Definition may (g : stage) (q : stmt) : Prop :=
  match q with
  | Begin => g = Out
  | InsertKey _ u _ _ => g = Room u
  | UpdateKeyStatus status _ => status <> "active"%string
  | _ => True
  end.

Fixpoint safe {A} (g : stage) (p : prog A) : Prop :=
  match p with
  | Ret _ => g = Out
  | Draw _ k => forall b, safe g (k b)
  | Exec q k => may g q /\ (forall r, answers q r -> safe (next g q r) (k (inl r))) /\ forall e, safe Out (k (inr e))
  end.

Definition count (v : server) (u : string) : nat := active_keys (api_keys (db v)) u.
Definition ceiling : nat := Z.to_nat MaxKeysPerUser.

Definition holds (v : server) (s : nat) (g : stage) : Prop :=
  match g with
  | Out => txs v !! s = None
  | Open => txs v !! s = Some ∅
  | Locked u => txs v !! s = Some ∅ /\ locks v !! u = Some s
  | Room u => txs v !! s = Some ∅ /\ locks v !! u = Some s /\ (count v u < ceiling)%nat
  | Inserted u => (exists id r, txs v !! s = Some {[id := r]} /\ k_tenant_id r = u) /\ locks v !! u = Some s /\ (count v u < ceiling)%nat
  end.

Definition bounded (v : server) : Prop := forall u, (count v u <= ceiling)%nat.

(** *** Counting active keys *)
Definition counts (u : string) (r : key_row) : bool := bool_decide (k_tenant_id r = u /\ active r = true).

Lemma active_keys_insert m id r u :
  (active_keys (<[id := r]> m) u <= active_keys m u + (if counts u r then 1 else 0))%nat.
Proof.
  unfold active_keys, counts. case_bool_decide as H.
  - rewrite map_filter_insert_True by done. rewrite map_size_insert. destruct (_ !! id); cbn; lia.
  - rewrite map_filter_insert_False by done. rewrite Nat.add_0_r. apply map_subseteq_size. apply map_filter_subseteq_mono, delete_subseteq.
Qed.

(** A row that changes without becoming active. *)
Lemma active_keys_update m id r r' u :
  m !! id = Some r -> (counts u r' = true -> counts u r = true) -> (active_keys (<[id := r']> m) u <= active_keys m u)%nat.
Proof.
  intros Hr Hc. unfold active_keys. unfold counts in Hc. rewrite !bool_decide_eq_true in Hc. destruct (decide (k_tenant_id r' = u /\ active r' = true)) as [H|H].
  - rewrite map_filter_insert_True by done. rewrite map_size_insert_Some; [done|]. exists r. apply map_lookup_filter_Some. auto.
  - rewrite map_filter_insert_False by done. apply map_subseteq_size. apply map_filter_subseteq_mono, delete_subseteq.
Qed.

Lemma active_keys_union_one m id r u :
  (active_keys ({[id := r]} ∪ m) u <= active_keys m u + (if bool_decide (k_tenant_id r = u) then 1 else 0))%nat.
Proof.
  rewrite <- insert_union_singleton_l. etrans; [apply active_keys_insert|]. unfold counts.
  repeat case_bool_decide; try lia. naive_solver.
Qed.

(** *** One exchange *)
Lemma forget_other s s' v : s <> s' -> txs (forget s v) !! s' = txs v !! s'.
Proof. intros. cbn. by rewrite lookup_delete_ne. Qed.

Lemma forget_locks s s' u v : s <> s' -> locks v !! u = Some s' -> locks (forget s v) !! u = Some s'.
Proof. intros ? H. cbn. apply map_lookup_filter_Some. auto. Qed.

(** What is known of a session stays true when another one moves: its locks
    and rows are its own, and the users it holds gain no key. *)
Lemma holds_frame s v v' g :
  txs v' !! s = txs v !! s -> (forall u, locks v !! u = Some s -> locks v' !! u = Some s) ->
  (forall u, locks v !! u = Some s -> (count v' u <= count v u)%nat) -> holds v s g -> holds v' s g.
Proof.
  intros Ht Hl Hc. destruct g; cbn [holds]; rewrite ?Ht; try done.
  - intros [? ?]. auto.
  - intros (? & Hu & ?). specialize (Hc _ Hu). split_and!; auto. lia.
  - intros (? & Hu & ?). specialize (Hc _ Hu). split_and!; auto. lia.
Qed.

(** The effect of a served statement of session [s] on the others. *)
Record quiet (s : nat) (v v' : server) : Prop := {
  q_txs : forall s', s' <> s -> txs v' !! s' = txs v !! s';
  q_locks : forall s' u, s' <> s -> locks v !! u = Some s' -> locks v' !! u = Some s';
  q_count : forall s' u, s' <> s -> locks v !! u = Some s' -> (count v' u <= count v u)%nat;
  q_bound : bounded v -> bounded v'
}.

Lemma quiet_refl s v : quiet s v v.
Proof. by split. Qed.

Lemma quiet_forget s v v' : quiet s v v' -> quiet s v (forget s v').
Proof.
  intros [Ht Hl Hc Hb]. split; [| |done..].
  - intros s' Hne. rewrite forget_other by done. auto.
  - intros s' u Hne H. apply forget_locks; auto.
Qed.

Lemma quiet_tables s v d : api_keys d = api_keys (db v) -> quiet s v (set_db d v).
Proof. intros Hd. split; try done; intros *; unfold count; cbn; rewrite ?Hd; try done. intros H u. by rewrite <- (H u); unfold count; cbn; rewrite Hd. Qed.

Lemma quiet_update s v id f r v' :
  (forall k, counts (k_tenant_id k) (f k) = true -> counts (k_tenant_id k) k = true) -> (forall k, k_tenant_id (f k) = k_tenant_id k) ->
  update_key id f v = (r, v') -> quiet s v v' /\ txs v' = txs v /\ locks v' = locks v /\ forall u, (count v' u <= count v u)%nat.
Proof.
  intros Hf Ht. unfold update_key. destruct (api_keys (db v) !! id) as [k|] eqn:Hk; intros [= <- <-].
  - assert (forall u, (count (set_db (set_keys (<[id := f k]> (api_keys (db v))) (db v)) v) u <= count v u)%nat) as Hc.
    { intros u. unfold count; cbn. apply (active_keys_update _ _ k); [done|]. specialize (Hf k). specialize (Ht k).
      unfold counts in *. rewrite !bool_decide_eq_true in *. naive_solver. }
    split_and!; try done. split; try done. intros Hb u. etrans; [apply Hc|apply Hb].
  - split_and!; try done.
Qed.

(** What a commit of the session adds. *)
Lemma commit_count s v g u :
  holds v s g -> (active_keys (visible s v) u <= count v u + (if decide (g = Inserted u) then 1 else 0))%nat.
Proof.
  unfold visible, own, count. destruct g as [| | | |w]; cbn [holds].
  1: intros Ht.
  2: intros Ht.
  3: intros [Ht _].
  4: intros [Ht _].
  1-4: rewrite Ht; cbn; rewrite (left_id_L ∅ _); lia.
  intros ((id & r & -> & <-) & _). cbn. etrans; [apply active_keys_union_one|].
  repeat case_bool_decide; repeat case_decide; simplify_eq; lia.
Qed.

Lemma exec_quiet s now q v r v' g :
  may g q -> holds v s g -> exec s now q v = Some (r, v') -> quiet s v v'.
Proof.
  intros Hmay Hg. destruct q as [id name role tier| |doc id|id|u|id u hash name|u|doc id|st id|hash| | |]; cbn [exec]; intros He;
    try (by simplify_eq; apply quiet_refl).
  - repeat case_decide; simplify_eq; try apply quiet_refl. by apply quiet_tables.
  - repeat case_match; simplify_eq; try apply quiet_refl. by apply quiet_tables.
  - destruct (tenants (db v) !! id); [|simplify_eq; apply quiet_refl]. destruct (blocked s id v) eqn:Hb; [done|]. simplify_eq.
    split; try done. intros s' u Hne Hu. cbn. destruct (decide (u = id)) as [->|]; [|by rewrite lookup_insert_ne].
    unfold blocked in Hb. rewrite Hu in Hb. apply negb_false_iff, Nat.eqb_eq in Hb. done.
  - destruct (_ || _); [done|]. repeat case_decide; simplify_eq; try apply quiet_refl.
    cbn in Hmay; subst g. destruct Hg as [Ht _]. unfold put_key. rewrite Ht. split; try done. intros s' Hne. cbn. by rewrite lookup_insert_ne.
  - injection He as He. apply (quiet_update s) in He as [? _]; [done|done|done].
  - injection He as He. apply (quiet_update s) in He as [? _]; [done| |done].
    intros k. unfold counts. rewrite !bool_decide_eq_true. cbn. unfold active; cbn. rewrite String.eqb_eq. intros [_ ?]. by destruct Hmay.
  - simplify_eq. split; try done. intros s' Hne. cbn. by rewrite lookup_insert_ne.
  - simplify_eq. apply quiet_forget. pose proof (fun u => commit_count s v g u Hg) as Hc. split; try done.
    + intros s' u Hne Hu. unfold count at 1; cbn. specialize (Hc u). case_decide as Hgu; [|lia]. subst g.
      destruct Hg as (_ & Hu' & _). congruence.
    + intros Hb u. unfold count; cbn. specialize (Hc u). specialize (Hb u). case_decide as Hgu; [|unfold count in *; lia]. subst g.
      destruct Hg as (_ & _ & ?). unfold count in *. lia.
  - simplify_eq. apply quiet_forget, quiet_refl.
Qed.

Lemma exec_holds s now q v r v' g :
  may g q -> holds v s g -> exec s now q v = Some (inl r, v') -> answers q r /\ holds v' s (next g q r).
Proof.
  intros Hmay Hg. destruct q as [id name role tier| |doc id|id|u|id u hash name|u|doc id|st id|hash| | |]; cbn [exec answers next]; intros He;
    try (by simplify_eq); try (by case_match; simplify_eq).
  - split; [done|]. repeat case_decide; simplify_eq. by destruct g.
  - split; [done|]. repeat case_match; simplify_eq; by destruct g.
  - destruct (tenants (db v) !! id); [|simplify_eq; auto]. destruct (blocked s id v) eqn:Hb; [done|]. simplify_eq.
    split; [by right|]. destruct g; cbn in *; rewrite ?lookup_insert_eq; auto.
    + destruct Hg as [? ?]. split; [done|]. by destruct (decide (u = id)) as [->|]; rewrite ?lookup_insert_eq, ?lookup_insert_ne.
    + destruct Hg as (? & ? & ?). split_and!; try done. by destruct (decide (u = id)) as [->|]; rewrite ?lookup_insert_eq, ?lookup_insert_ne.
    + destruct Hg as (? & ? & ?). split_and!; try done. by destruct (decide (u = id)) as [->|]; rewrite ?lookup_insert_eq, ?lookup_insert_ne.
  - simplify_eq. split; [by eexists|]. destruct g as [| |w| |]; try done. case_decide as Hc; [|done]. destruct Hc as [-> Hlt].
    destruct Hg as [Ht Hl]. cbn [holds]. split_and!; try done. unfold visible, own in Hlt. rewrite Ht in Hlt. cbn in Hlt.
    rewrite (left_id_L ∅ _) in Hlt. unfold count, ceiling. lia.
  - destruct (_ || _); [done|]. repeat case_decide; simplify_eq. split; [by eexists|]. cbn in Hmay; subst g.
    destruct Hg as (Ht & Hl & Hlt). unfold put_key. rewrite Ht. cbn [holds txs locks]. split_and!; try done.
    eexists _, _. rewrite lookup_insert_eq. done.
  - split; [done|]. injection He as He. apply (quiet_update s) in He as (_ & Ht & Hl & Hc); [|done..].
    destruct g; cbn [holds next] in *; rewrite ?Ht, ?Hl; try done; destruct Hg as (? & ? & ?); split_and!; try done; specialize (Hc u); lia.
  - split; [done|]. injection He as He. apply (quiet_update s) in He as (_ & Ht & Hl & Hc); [| |done].
    2: { intros k. unfold counts. rewrite !bool_decide_eq_true. cbn. unfold active; cbn. rewrite String.eqb_eq. intros [_ ?]. by destruct Hmay. }
    destruct g; cbn [holds next] in *; rewrite ?Ht, ?Hl; try done; destruct Hg as (? & ? & ?); split_and!; try done; specialize (Hc u); lia.
  - simplify_eq. split; [done|]. cbn. by rewrite lookup_insert_eq.
  - simplify_eq. split; [done|]. cbn. by rewrite lookup_delete_eq.
  - simplify_eq. split; [done|]. cbn. by rewrite lookup_delete_eq.
Qed.

Lemma exchange_holds l s now q v r v' g :
  may g q -> holds v s g -> exchange l s now q v = Some (r, v') ->
  quiet s v v' /\ match r with inl r => answers q r /\ holds v' s (next g q r) | inr _ => holds v' s Out end.
Proof.
  intros Hmay Hg. assert (forall w, holds (forget s w) s Out) as Hout by (intros w; cbn; by rewrite lookup_delete_eq).
  pose proof (quiet_forget s v v (quiet_refl s v)) as Hq.
  destruct l; cbn [exchange]; [|by intros [= <- <-]|].
  - destruct (exec s now q v) as [[[r1|e] v1]|] eqn:He; [| |done]; intros [= <- <-].
    + split; [by apply (exec_quiet s now q v _ _ g) in He|]. by apply (exec_holds s now q v _ _ g) in He.
    + split; [|done]. apply quiet_forget. by apply (exec_quiet s now q v _ _ g) in He.
  - destruct (exec s now q v) as [[r1 v1]|] eqn:He; intros [= <- <-]; [|done].
    split; [|done]. apply quiet_forget. by apply (exec_quiet s now q v _ _ g) in He.
Qed.

(** *** The methods *)
Lemma safe_forgetting {A} g (p : prog A) : safe g p -> safe g (forgetting p).
Proof.
  revert g. induction p as [a|q k IH|n k IH]; intros g; cbn; [done| |].
  - intros (? & Hr & He). split_and!; [done| |]; intros; apply IH; auto.
  - intros Hk b. apply IH, Hk.
Qed.

Section methods.
Variable hashKey : string -> string -> string.
Variable encode : Limits.LimitOverride -> option string.
Variable decode : string -> option Limits.LimitOverride.
Variable keyPepper : string.

Lemma safe_rollback {A} g (a : A) : safe g (rollback a).
Proof. by cbn. Qed.

Lemma create_key_safe id name : safe Out (CreateKey hashKey keyPepper id name).
Proof.
  cbn. split_and!; [done| |done]. intros _ _. split_and!; [done| |done].
  intros r [-> | ->]; cbn; [done|]. split_and!; [done| |done].
  intros r [n ->]. destruct (Z.leb_spec MaxKeysPerUser n) as [Hn|Hn]; [by cbn|]. cbn.
  rewrite decide_True by done. intros [raw|]; cbn; [|done]. intros [b|]; cbn; [|done].
  split_and!; [done| |done]. intros r [at_ ->]. cbn. done.
Qed.

Lemma methods_safe p : method hashKey encode decode keyPepper false p -> safe Out p.
Proof.
  intros H. destruct H as [name role tier| |id o|id name|id|id o|id b Hb|key]; apply safe_forgetting.
  - unfold CreateUser. destruct (_ && _); [done|]. cbn. intros [b|]; cbn; [|done]. split_and!; try done.
  - cbn. done.
  - unfold SetUserLimits, setOverrides. destruct (encode o); cbn; done.
  - apply create_key_safe.
  - cbn. done.
  - unfold SetKeyLimits, setOverrides. destruct (encode o); cbn; done.
  - destruct b; [by specialize (Hb eq_refl)|]. cbn. done.
  - cbn. done.
Qed.

Definition sys_inv (y : system unit) : Prop :=
  bounded (shared y) /\
  (forall s p, running y !! s = Some p -> exists g, safe g p /\ holds (shared y) s g) /\
  (forall s, running y !! s = None -> txs (shared y) !! s = None).

Lemma step_inv y y' : sys_inv y -> step (method hashKey encode decode keyPepper false) y y' -> sys_inv y'.
Proof.
  intros (Hb & Hr & Hn) Hstep. destruct Hstep as [y s q k l now r v Hs Hx|y s n k b Hs|y s a Hs|y s p Hm Hs]; cbn [shared running].
  - destruct (Hr _ _ Hs) as (g & Hsafe & Hg). destruct Hsafe as (Hmay & Hok & Herr).
    destruct (exchange_holds l s now q (shared y) r v g Hmay Hg Hx) as [[Ht Hl Hc Hbd] Hv]. split_and!; [auto| |].
    + intros s' p. cbn. destruct (decide (s' = s)) as [->|Hne].
      * rewrite lookup_insert_eq. intros [= <-]. destruct r as [r|e]; [destruct Hv as [Hans Hv]|]; eauto.
      * rewrite lookup_insert_ne by done. intros (g' & Hs' & Hg')%Hr. exists g'. split; [done|].
        apply (holds_frame s' (shared y)); eauto.
    + intros s'. cbn. destruct (decide (s' = s)) as [->|Hne]; [by rewrite lookup_insert_eq|].
      rewrite lookup_insert_ne, Ht by done. auto.
  - split_and!; [done| |].
    + intros s' p. cbn. destruct (decide (s' = s)) as [->|Hne]; [|rewrite lookup_insert_ne by done; auto].
      rewrite lookup_insert_eq. intros [= <-]. destruct (Hr _ _ Hs) as (g & Hsafe & Hg). exists g. split; [apply Hsafe|done].
    + intros s'. cbn. destruct (decide (s' = s)) as [->|Hne]; [by rewrite lookup_insert_eq|rewrite lookup_insert_ne by done; auto].
  - split_and!; [done| |].
    + cbn. intros s' p [Hne Hp]%lookup_delete_Some. auto.
    + cbn. intros s' [<-|H]%lookup_delete_None; [|auto]. destruct (Hr _ _ Hs) as (g & Hsafe & Hg). cbn in Hsafe. by subst g.
  - split_and!; [done| |].
    + intros s' p'. cbn. destruct (decide (s' = s)) as [->|Hne]; [|rewrite lookup_insert_ne by done; auto].
      rewrite lookup_insert_eq. intros [= <-]. exists Out. split; [by apply methods_safe|]. cbn. auto.
    + intros s'. cbn. destruct (decide (s' = s)) as [->|Hne]; [by rewrite lookup_insert_eq|rewrite lookup_insert_ne by done; auto].
Qed.
End methods.

(** *** Schedules that compute *)
Inductive move := MStart (s : nat) (p : prog unit) | MExec (s : nat) (l : link) (now : Z) | MDraw (s : nat) (b : option (list Z)) | MEnd (s : nat).

Definition turn (m : move) (y : system unit) : option (system unit) :=
  match m with
  | MStart s p => match running y !! s with None => Some (mkSystem (shared y) (<[s := p]> (running y))) | Some _ => None end
  | MExec s l now =>
      match running y !! s with
      | Some (Exec q k) =>
          match exchange l s now q (shared y) with Some (r, v) => Some (mkSystem v (<[s := k r]> (running y))) | None => None end
      | _ => None
      end
  | MDraw s b => match running y !! s with Some (Draw _ k) => Some (mkSystem (shared y) (<[s := k b]> (running y))) | _ => None end
  | MEnd s => match running y !! s with Some (Ret _) => Some (mkSystem (shared y) (delete s (running y))) | _ => None end
  end.
Fixpoint play (ms : list move) (y : system unit) : option (system unit) :=
  match ms with [] => Some y | m :: ms => turn m y ≫= play ms end.
Definition started (ms : list move) : list (prog unit) := omap (fun m => match m with MStart _ p => Some p | _ => None end) ms.

Lemma play_steps (method : prog unit -> Prop) ms y y' : Forall method (started ms) -> play ms y = Some y' -> rtc (step method) y y'.
Proof.
  revert y. induction ms as [|m ms IH]; intros y Hm; cbn [play]; [intros [= <-]; constructor|].
  destruct (turn m y) as [y1|] eqn:Ht; [|done]. cbn [mbind option_bind]. intros Hp.
  assert (Forall method (started ms)) as Hms by (destruct m; [by apply Forall_cons in Hm as []|done..]).
  eapply rtc_l; [|by apply IH]. destruct m as [s p|s l now|s b|s]; cbn [turn] in Ht.
  - destruct (running y !! s) eqn:Hs; [done|]. injection Ht as <-. apply step_start; [|done]. by apply Forall_cons in Hm as [].
  - destruct (running y !! s) as [[|q k|]|] eqn:Hs; try done. destruct (exchange l s now q (shared y)) as [[r v]|] eqn:Hx; [|done].
    injection Ht as <-. by apply (step_exec _ _ s q k l now r v).
  - destruct (running y !! s) as [[| |n k]|] eqn:Hs; try done. injection Ht as <-. by apply (step_draw _ _ s n k b).
  - destruct (running y !! s) as [[a| |]|] eqn:Hs; try done. injection Ht as <-. by apply (step_end _ _ s a).
Qed.

(** C33. However many sessions of however many gateways issue keys, change
    limits, disable keys and resolve on one database, however their
    statements interleave and whichever connections are lost, a user never
    holds more than five active keys. *)
Theorem key_ceiling hashKey encode decode keyPepper d y :
  (forall u, (active_keys (api_keys d) u <= 5)%nat) ->
  rtc (step (method hashKey encode decode keyPepper false)) (mkSystem (mkServer d ∅ ∅) ∅) y ->
  forall u, (active_keys (api_keys (db (shared y))) u <= 5)%nat.
Proof.
  intros Hd Hrun. assert (sys_inv y) as [Hb _]; [|exact Hb].
  assert (sys_inv (mkSystem (mkServer d ∅ ∅) ∅)) as Hinit by (split_and!; done).
  revert Hinit. induction Hrun as [|y1 y2 y3 Hs _ IH]; [done|]. intros Hi. apply IH. by apply (step_inv _ _ _ _ _ _ Hi Hs).
Qed.

(** *** A race for the fifth key *)
Definition plain (pepper raw : string) : string := raw.
Definition no_doc (o : Limits.LimitOverride) : option string := Some "{}"%string.
Definition any_doc (s : string) : option Limits.LimitOverride := Some Limits.no_override.

Definition sample_key (hash : string) : key_row := Sql.mkKey "u_1" hash "" "active" "{}" 0.
Definition four_keys : database :=
  mkDatabase {["free" := Sql.mkTier 60 1000 5000 0 ["gpt"]]} {["u_1" := Sql.mkTenant "Ada" "free" "user" "{}" 0]}
    (list_to_map [("k_1", sample_key "a"); ("k_2", sample_key "b"); ("k_3", sample_key "c"); ("k_4", sample_key "d")]).
Definition at_start : system unit := mkSystem (mkServer four_keys ∅ ∅) ∅.

Definition issue : prog unit := forgetting (CreateKey plain "" "u_1" "laptop").
Definition execs (s n : nat) : list move := replicate n (MExec s Up 9).
(** Begin, lock, count; the two draws; insert, commit, rollback. *)
Definition issuing (s : nat) (b : Z) : list move :=
  execs s 3 ++ [MDraw s (Some [b]); MDraw s (Some [b])] ++ execs s 3 ++ [MEnd s].
Definition refused (s : nat) : list move := execs s 3 ++ [MEnd s].

(** Both begin; the second waits for the lock of the first. *)
Definition race : list move :=
  [MStart 1 issue; MStart 2 issue; MExec 1 Up 9; MExec 2 Up 9; MExec 1 Up 9; MExec 1 Up 9;
   MDraw 1 (Some [7]); MDraw 1 (Some [7])] ++ execs 1 3 ++ [MEnd 1] ++ execs 2 3 ++ [MEnd 2].
Definition after (ms : list move) : system unit := default at_start (play ms at_start).

Lemma key_ceiling_witness :
  turn (MExec 2 Up 9) (after (take 5 race)) = None /\ running (after race) = ∅ /\
  (active_keys (api_keys (db (shared (after race)))) "u_1" <= 5)%nat /\ size (api_keys (db (shared (after race)))) = 5%nat.
Proof.
  split; [by vm_compute|]. split; [by vm_compute|]. split; [|by vm_compute].
  apply (key_ceiling plain no_doc any_doc "" four_keys).
  - intros u. unfold active_keys. etrans; [apply map_subseteq_size, map_filter_subseteq|]. vm_compute. lia.
  - apply (play_steps _ race); [repeat constructor|]. by vm_compute.
Defined.

(** A key that is enabled again is not counted: five keys, one disabled, one
    issued in its place, and the first enabled. *)
Definition reenable : list move :=
  [MStart 1 issue] ++ issuing 1 7 ++
  [MStart 1 (forgetting (SetKeyStatus "k_1" false)); MExec 1 Up 9; MEnd 1; MStart 1 issue] ++ issuing 1 8 ++
  [MStart 1 (forgetting (SetKeyStatus "k_1" true)); MExec 1 Up 9; MEnd 1].

Lemma ceiling_passed :
  rtc (step (method plain no_doc any_doc "" true)) at_start (after reenable) /\
  active_keys (api_keys (db (shared (after reenable)))) "u_1" = 6%nat.
Proof.
  split; [|by vm_compute]. apply (play_steps _ reenable); [repeat constructor|]. by vm_compute.
Qed.
End Ceiling.

(** ** The store is the directory *)
Module Lifecycle.
Import Sql PGStore Directory.

(** Two maps with related entries. *)
Section maps.
Context {A B : Type} (R : A -> B -> Prop).
Definition same (m : gmap string A) (n : gmap string B) : Prop := map_Forall2 (fun _ => R) m n.

Lemma same_l m n i x : same m n -> m !! i = Some x -> exists y, n !! i = Some y /\ R x y.
Proof. intros H Hi. specialize (H i). rewrite Hi in H. inversion H; subst. eauto. Qed.
Lemma same_r m n i y : same m n -> n !! i = Some y -> exists x, m !! i = Some x /\ R x y.
Proof. intros H Hi. specialize (H i). rewrite Hi in H. inversion H; subst. eauto. Qed.
Lemma same_None m n i : same m n -> m !! i = None <-> n !! i = None.
Proof. intros H. specialize (H i). inversion H; subst; naive_solver. Qed.
Lemma same_is_Some m n i : same m n -> is_Some (m !! i) <-> is_Some (n !! i).
Proof. intros H. specialize (H i). inversion H; subst; split; eauto; intros [? ?]; discriminate. Qed.
Lemma same_insert m n i x y : same m n -> R x y -> same (<[i := x]> m) (<[i := y]> n).
Proof. intros. by apply map_Forall2_insert_2. Qed.
Lemma same_alter m n i x x' f : same m n -> m !! i = Some x -> (forall y, R x y -> R x' (f y)) -> same (<[i := x']> m) (alter f i n).
Proof.
  intros H Hi Hf. destruct (same_l m n i x H Hi) as (y & Hy & Hr).
  replace (alter f i n) with (<[i := f y]> n); [by apply same_insert; auto|]. apply map_eq. intros j.
  destruct (decide (j = i)) as [->|]; [by rewrite lookup_alter_eq, lookup_insert_eq, Hy|by rewrite lookup_alter_ne, lookup_insert_ne].
Qed.
Lemma same_size (P : string * A -> Prop) (Q : string * B -> Prop) `{!forall x, Decision (P x)} `{!forall x, Decision (Q x)} m n :
  same m n -> (forall i x y, R x y -> P (i, x) <-> Q (i, y)) -> size (filter P m) = size (filter Q n).
Proof.
  intros Hs HPQ. rewrite <- !(size_dom (D := gset string)). f_equal. apply set_eq. intros i. rewrite !elem_of_dom. split.
  - intros [x [Hx HP]%map_lookup_filter_Some]. destruct (same_l m n i x Hs Hx) as (y & Hy & Hr). exists y.
    apply map_lookup_filter_Some. split; [done|]. by apply (HPQ i x y Hr).
  - intros [y [Hy HQ]%map_lookup_filter_Some]. destruct (same_r m n i y Hs Hy) as (x & Hx & Hr). exists x.
    apply map_lookup_filter_Some. split; [done|]. by apply (HPQ i x y Hr).
Qed.
End maps.

Section store.
Variable hashKey : string -> string -> string.
Variable encode : Limits.LimitOverride -> option string.
Variable decode : string -> option Limits.LimitOverride.
Variable keyPepper : string.
(** What is written parses back, and so does the default of a column. *)
Hypothesis encode_parses : forall o doc, encode o = Some doc -> ParseOverride decode doc = Some o.
Hypothesis default_parses : decode "{}" = Some Limits.no_override.

Definition user_of (t : tenant_row) (u : user) : Prop :=
  t_name t = name u /\ t_role t = role u /\ t_tier_id t = tier u /\ ParseOverride decode (t_overrides t) = Some (limits u).
Definition key_of (r : key_row) (k : key) : Prop :=
  k_tenant_id r = owner k /\ k_key_hash r = digest k /\ k_name r = label k /\ active r = enabled k /\
  ParseOverride decode (k_overrides r) = Some (key_limits k).

(** A database stores a directory, and no session is open on the server. *)
Record stores (v : server) (d : directory) : Prop := {
  st_plans : tiers (db v) = plans d;
  st_users : same user_of (tenants (db v)) (users d);
  st_keys : same key_of (api_keys (db v)) (keys d);
  st_legal : legal d;
  st_rest : txs v = ∅ /\ locks v = ∅
}.

Lemma active_of_count v d u : stores v d -> active_keys (api_keys (db v)) u = active_of d u.
Proof. intros H. apply (same_size key_of); [apply H|]. intros i x y (Ho & _ & _ & He & _). cbn. by rewrite Ho, He. Qed.

Lemma used_hash v d h : stores v d -> with_hash h (api_keys (db v)) <> ∅ <-> used h d.
Proof.
  intros H. split.
  - intros (i & r & Hi)%map_choose. apply map_lookup_filter_Some in Hi as [Hi Hh].
    destruct (same_l _ _ _ _ _ (st_keys _ _ H) Hi) as (k & Hk & Hr). exists i, k. split; [done|]. destruct Hr as (_ & <- & _). done.
  - intros (i & k & Hi & <-) He. destruct (same_r _ _ _ _ _ (st_keys _ _ H) Hi) as (r & Hr & Hk).
    apply (f_equal (lookup i)) in He. rewrite lookup_empty in He. apply map_lookup_filter_None in He as [He|He]; [congruence|].
    apply (He r Hr). by destruct Hk as (_ & ? & _).
Qed.

(** *** One statement of the only session *)
Inductive sent (now : Z) (q : stmt) (v : server) : reply + sql_error -> server -> Prop :=
  | sent_done r v' : exec 0 now q v = Some (inl r, v') -> sent now q v (inl r) v'
  | sent_refused e v' : exec 0 now q v = Some (inr e, v') -> sent now q v (inr e) (forget 0 v')
  | sent_lost : sent now q v (inr Offline) (forget 0 v)
  | sent_unanswered r v' : exec 0 now q v = Some (r, v') -> sent now q v (inr Offline) (forget 0 v').

Lemma send_sent q w r w' : send q w = (r, w') -> sent (clock w) q (srv w) r (srv w') /\ clock w' = clock w /\ entropy w' = entropy w.
Proof.
  unfold send. destruct (match links w with [] => Up | l :: _ => l end); cbn [exchange srv clock].
  - destruct (exec 0 (clock w) q (srv w)) as [[[r1|e] v]|] eqn:He; intros [= <- <-]; (split; [|done]); cbn;
      [by apply sent_done|by apply sent_refused|apply sent_lost].
  - intros [= <- <-]. split; [|done]. apply sent_lost.
  - destruct (exec 0 (clock w) q (srv w)) as [[r1 v]|] eqn:He; intros [= <- <-]; (split; [|done]); cbn;
      [by apply (sent_unanswered _ _ _ r1)|apply sent_lost].
Qed.

Lemma forget_rest v : txs v = ∅ -> locks v = ∅ -> forget 0 v = v.
Proof.
  destruct v as [d t l]. cbn. intros -> ->. unfold forget; cbn. by rewrite delete_empty, map_filter_empty.
Qed.

Lemma legal_effect q id raw d : legal d -> possible q d -> fresh hashKey keyPepper q id raw d -> legal (effect hashKey keyPepper q id raw d).
Proof.
  intros [Ht Ho Hd] Hp Hf. destruct q as [n r t|u o|u l|k o|k b]; cbn in Hp, Hf |- *; split; cbn; try done.
  - intros u x [[<- <-]|[_ Hx]]%lookup_insert_Some; [apply Hp|eauto].
  - intros i k Hk. apply lookup_insert_is_Some'. right. eauto.
  - intros v x [[-> (y & Hy & ->)]|[_ Hx]]%lookup_alter_Some; cbn; eauto.
  - intros i k Hk. rewrite lookup_alter_is_Some. eauto.
  - intros i k [[<- <-]|[_ Hx]]%lookup_insert_Some; [apply Hp|eauto].
  - intros i j k k' [[<- <-]|[Hi Hk]]%lookup_insert_Some [[<- <-]|[Hj Hk']]%lookup_insert_Some He; [done| | |by eauto]; destruct Hf as [_ []].
    + exists j, k'. split; [done|]. by rewrite <- He.
    + exists i, k. by split.
  - intros i x [[-> (y & Hy & ->)]|[_ Hx]]%lookup_alter_Some; cbn; eauto.
  - intros i j x x' Hi Hj He. apply lookup_alter_Some in Hi as [[-> (y & Hy & ->)]|[? Hi]], Hj as [[-> (y' & Hy' & ->)]|[? Hj]]; cbn in *; eauto.
  - intros i x [[-> (y & Hy & ->)]|[_ Hx]]%lookup_alter_Some; cbn; eauto.
  - intros i j x x' Hi Hj He. apply lookup_alter_Some in Hi as [[-> (y & Hy & ->)]|[? Hi]], Hj as [[-> (y' & Hy' & ->)]|[? Hj]]; cbn in *; eauto.
Qed.

Local Abbreviation effect := (effect hashKey keyPepper).
Local Abbreviation outcome := (outcome hashKey keyPepper).

Lemma stores_forget v d : stores v d -> forget 0 v = v.
Proof. intros H. apply forget_rest; apply H. Qed.

Lemma blocked_rest v d s id : stores v d -> blocked s id v = false.
Proof. intros H. unfold blocked. by rewrite (proj2 (st_rest _ _ H)), lookup_empty. Qed.

(** Writes of one row. *)
Lemma touch_refines q sql unknown w d a w' :
  stores (srv w) d ->
  (possible q d /\ exists v, exec 0 (clock w) sql (srv w) = Some (inl (Affected 1), v) /\ stores v (effect q "" "" d)) \/
  (exec 0 (clock w) sql (srv w) = Some (inl (Affected 0), srv w) /\ outcome q (Refused unknown) d d) ->
  fresh hashKey keyPepper q "" "" d ->
  alone (bind (touch sql unknown) (fun r => Ret (written r))) w = (a, w') -> exists d', stores (srv w') d' /\ outcome q a d d'.
Proof.
  intros Hs Hx Hfr. unfold touch. cbn. destruct (send sql w) as [r w1] eqn:Hsend. apply send_sent in Hsend as (Hr & _).
  intros [= <- <-]. assert (Hlost : outcome q (Refused (Identity.Failure "write")) d d) by (by left).
  assert (Hmaybe : possible q d -> outcome q (Refused (Identity.Failure "write")) d (effect q "" "" d)) by (intros; right; by exists ""%string, ""%string).
  revert Hr. generalize (srv w1). intros v1 Hr.
  destruct Hx as [(Hp & v & Hv & Hst)|(Hv & Hout)]; destruct Hr as [r v' He|e v' He| |r v' He]; cbn; simplify_eq;
    rewrite ?(stores_forget _ _ Hs).
  - by exists (effect q "" "" d).
  - exists d. split; [done|]. exact Hlost.
  - exists (effect q "" "" d). rewrite (stores_forget _ _ Hst). split; [done|]. by apply Hmaybe.
  - by exists d.
  - exists d. split; [done|]. exact Hlost.
  - exists d. split; [done|]. exact Hlost.
Qed.

Local Abbreviation perform := (perform hashKey encode keyPepper).

Lemma user_limits_refines u o w d a w' :
  stores (srv w) d -> alone (perform (RUserLimits u o)) w = (a, w') -> exists d', stores (srv w') d' /\ outcome (RUserLimits u o) a d d'.
Proof.
  intros Hs. cbn [Directory.perform]. unfold SetUserLimits, setOverrides. destruct (encode o) as [doc|] eqn:He.
  - apply (touch_refines (RUserLimits u o)); [done| |done]. cbn [exec]. destruct (tenants (db (srv w)) !! u) as [t|] eqn:Ht.
    + left. assert (is_Some (users d !! u)) as Hp by (rewrite <- (same_is_Some _ _ _ _ (st_users _ _ Hs)); eauto).
      split; [done|]. eexists. rewrite (blocked_rest _ _ _ _ Hs). split; [done|].
      destruct Hs as [Hpl Hu Hk Hl Hr]. split; try done; [|by apply legal_effect].
      apply (same_alter _ _ _ _ t); [done..|]. intros x (? & ? & ? & ?). split_and!; try done. by apply encode_parses.
    + right. split; [done|]. split; [done|]. exists u. split; [by apply (same_None _ _ _ _ (st_users _ _ Hs))|]. left. by exists o.
  - intros [= <- <-]. exists d. split; [done|]. by left.
Qed.

(** The update of a key row, and of the key it stands for. *)
Lemma update_key_stores q k f g v d :
  stores v d -> legal (effect q "" "" d) -> effect q "" "" d = set_keys (alter g k (keys d)) d ->
  (forall r x, key_of r x -> key_of (f r) (g x)) -> is_Some (keys d !! k) ->
  exists v', update_key k f v = (inl (Affected 1), v') /\ stores v' (effect q "" "" d).
Proof.
  intros [Hpl Hu Hk Hl Hr] Hleg Heq Hf [x Hx]. destruct (same_r _ _ _ _ _ Hk Hx) as (r & Hr' & Hkr).
  unfold update_key. rewrite Hr'. eexists. split; [done|]. rewrite Heq in *. split; try done.
  apply (same_alter _ _ _ _ r); [done..|]. auto.
Qed.

Lemma update_key_None k f v d : stores v d -> keys d !! k = None -> update_key k f v = (inl (Affected 0), v).
Proof. intros Hs Hk. unfold update_key. by rewrite (proj2 (same_None _ _ _ _ (st_keys _ _ Hs)) Hk). Qed.

Lemma key_limits_refines k o w d a w' :
  stores (srv w) d -> alone (perform (RKeyLimits k o)) w = (a, w') -> exists d', stores (srv w') d' /\ outcome (RKeyLimits k o) a d d'.
Proof.
  intros Hs. cbn [Directory.perform]. unfold SetKeyLimits, setOverrides. destruct (encode o) as [doc|] eqn:He.
  - apply (touch_refines (RKeyLimits k o)); [done| |done]. cbn [exec]. destruct (keys d !! k) as [x|] eqn:Hx.
    + left. split; [by eexists|]. edestruct (update_key_stores (RKeyLimits k o) k) as (v & Hv & Hst);
        [exact Hs|apply legal_effect; [apply Hs|by eexists|done]|reflexivity| |by eexists|exists v; split; [f_equal; exact Hv|done]].
      intros r y (? & ? & ? & ? & ?). split_and!; try done. by apply encode_parses.
    + right. rewrite (update_key_None _ _ _ _ Hs Hx). split; [done|]. split; [done|]. exists k. split; [done|]. left. by exists o.
  - intros [= <- <-]. exists d. split; [done|]. by left.
Qed.

Lemma key_status_refines k b w d a w' :
  stores (srv w) d -> alone (perform (RKeyStatus k b)) w = (a, w') -> exists d', stores (srv w') d' /\ outcome (RKeyStatus k b) a d d'.
Proof.
  intros Hs. apply (touch_refines (RKeyStatus k b)); [done| |done]. cbn [exec]. destruct (keys d !! k) as [x|] eqn:Hx.
  - left. split; [by eexists|]. edestruct (update_key_stores (RKeyStatus k b) k) as (v & Hv & Hst);
      [exact Hs|apply legal_effect; [apply Hs|by eexists|done]|reflexivity| |by eexists|exists v; split; [f_equal; exact Hv|done]].
    intros r y (? & ? & ? & ? & ?). split_and!; try done. by destruct b.
  - right. rewrite (update_key_None _ _ _ _ Hs Hx). split; [done|]. split; [done|]. exists k. split; [done|]. right. by exists b.
Qed.

Lemma role_checked r : negb (String.eqb r Static.RoleUser) && negb (String.eqb r Static.RoleAdmin) = false -> r = Static.RoleUser \/ r = Static.RoleAdmin.
Proof. intros H. apply andb_false_iff in H as [H%negb_false_iff%String.eqb_eq|H%negb_false_iff%String.eqb_eq]; auto. Qed.

(** Two databases with one directory stay one when a user is made. *)
Lemma insert_tenant_stores n r t id now v d :
  stores v d -> possible (RCreateUser n r t) d -> users d !! id = None ->
  stores (set_db (set_tenants (<[id := Sql.mkTenant n t r "{}" now]> (tenants (db v))) (db v)) v) (effect (RCreateUser n r t) id "" d).
Proof.
  intros Hs Hp Hf. pose proof (legal_effect (RCreateUser n r t) id "" d (st_legal _ _ Hs) Hp Hf) as Hl.
  destruct Hs as [Hpl Hu Hk _ Hr]. split; try done. apply same_insert; done.
Qed.

Lemma create_user_refines n r t w d a w' :
  stores (srv w) d -> alone (perform (RCreateUser n r t)) w = (a, w') -> exists d', stores (srv w') d' /\ outcome (RCreateUser n r t) a d d'.
Proof.
  intros Hs. cbn [Directory.perform]. unfold CreateUser. destruct (_ && _) eqn:Hrole.
  { intros [= <- <-]. exists d. split; [done|]. by left. }
  apply role_checked in Hrole. cbn. unfold draw. destruct (entropy w) as [|b e]; cbn.
  { intros [= <- <-]. exists d. split; [done|]. by left. }
  set (id := _ +:+ hexEncode b). destruct (send _ _) as [x w1] eqn:Hsend. apply send_sent in Hsend as (Hx & _). intros [= <- <-].
  revert Hx. generalize (srv w1). cbn [srv clock]. intros v1 Hx.
  assert (Hun : tenants (db (srv w)) !! id = None <-> users d !! id = None) by (by apply (same_None user_of), Hs).
  assert (Hti : is_Some (tiers (db (srv w)) !! t) <-> is_Some (plans d !! t)) by (by rewrite (st_plans _ _ Hs)).
  pose proof (stores_forget _ _ Hs) as Hfg. destruct Hx as [r1 v' He|e1 v' He| |r1 v' He]; cbn [exec] in *.
  - injection He as He. case_decide as Hid; [done|]. case_decide as Htier; [|done]. simplify_eq. cbn. eexists.
    rewrite <- eq_None_not_Some, Hun in Hid. rewrite Hti in Htier. split; [by apply insert_tenant_stores|]. done.
  - injection He as He. exists d. case_decide as Hid; [simplify_eq; rewrite Hfg; split; [done|by left]|].
    case_decide as Htier; [done|]. simplify_eq. rewrite Hfg. split; [done|]. split; [done|]. exists n, r, t. split; [done|].
    rewrite Hti in Htier. by apply eq_None_not_Some.
  - exists d. rewrite Hfg. split; [done|]. by left.
  - injection He as He. case_decide as Hid; [simplify_eq; rewrite Hfg; exists d; split; [done|by left]|].
    case_decide as Htier; [|simplify_eq; rewrite Hfg; exists d; split; [done|by left]]. simplify_eq.
    rewrite <- eq_None_not_Some, Hun in Hid. rewrite Hti in Htier.
    pose proof (insert_tenant_stores n r t id (clock w) (srv w) d Hs (conj Hrole Htier) Hid) as Hst.
    eexists. rewrite (stores_forget _ _ Hst). split; [done|]. right. by exists id, ""%string.
Qed.

(** *** Issuing a key *)
Lemma alone_bind {A B} (p : prog A) (f : A -> prog B) w : alone (bind p f) w = let (a, w1) := alone p w in alone (f a) w1.
Proof.
  revert w. induction p as [a|q k IH|n k IH]; intros w; cbn [bind alone]; [done| |].
  - destruct (send q w) as [r w1]. apply IH.
  - destruct (draw w) as [b w1]. apply IH.
Qed.

(** Only the session itself has a transaction or a lock. *)
Definition in_tx (D : database) (v : server) : Prop :=
  db v = D /\ (forall s, s <> O -> txs v !! s = None) /\ forall u s, locks v !! u = Some s -> s = O.

Definition open_server (D : database) (ls : gmap string nat) : server := mkServer D {[0%nat := ∅]} ls.

Lemma in_tx_open D ls : (forall u s, ls !! u = Some s -> s = O) -> in_tx D (open_server D ls).
Proof. intros H. split_and!; [done| |done]. intros s Hs. cbn. by rewrite lookup_singleton_ne. Qed.

Lemma forget_in_tx D v : in_tx D v -> forget 0 v = mkServer D ∅ ∅.
Proof.
  intros (<- & Ht & Hl). unfold forget. f_equal.
  - apply map_eq. intros s. rewrite lookup_empty. destruct (decide (s = 0)%nat) as [->|]; [by rewrite lookup_delete_eq|].
    rewrite lookup_delete_ne by done. auto.
  - apply map_empty. intros u. apply map_lookup_filter_None. right. intros s Hs. cbn. naive_solver.
Qed.

Lemma rest_in_tx D : in_tx D (mkServer D ∅ ∅).
Proof. split_and!; [done|done|]. intros u s H. cbn in H. by rewrite lookup_empty in H. Qed.

Lemma forget_twice D v : in_tx D v -> in_tx D (forget 0 v).
Proof. intros H. rewrite (forget_in_tx _ _ H). apply rest_in_tx. Qed.

Lemma rollback_rest {A} (a : A) D w : in_tx D (srv w) -> (alone (rollback a) w).1 = a /\ srv (alone (rollback a) w).2 = mkServer D ∅ ∅.
Proof.
  intros H. unfold rollback. cbn [alone]. destruct (send Rollback w) as [r w1] eqn:Hs. split; [done|]. cbn [alone snd].
  apply send_sent in Hs as (Hs & _). revert Hs. generalize (srv w1). intros v1 Hs.
  destruct Hs as [r1 v' He|e v' He| |r1 v' He]; try (injection He as <- <-); try discriminate He;
    rewrite ?(forget_in_tx _ _ (forget_twice _ _ H)); (done || by apply forget_in_tx).
Qed.

Lemma stores_rest v d : stores v d -> v = mkServer (db v) ∅ ∅.
Proof. destruct v as [D t l]. intros [_ _ _ _ [Ht Hl]]. cbn in *. by subst. Qed.

(** What the body of the transaction leaves: nothing but an error, or the
    committed key with an answer that may be lost. *)
Definition tx_result (u l : string) (d : directory) (D : database) (r : Identity.IssuedKey + Identity.admin_error) (v : server) : Prop :=
  exists D', in_tx D' v /\
  ((D' = D /\ exists e, r = inr e /\ outcome (RCreateKey u l) (Refused e) d d) \/
   exists id raw, possible (RCreateKey u l) d /\ fresh hashKey keyPepper (RCreateKey u l) id raw d /\
     stores (mkServer D' ∅ ∅) (effect (RCreateKey u l) id raw d) /\
     ((exists k, r = inl k /\ Identity.kID (Identity.iView k) = id /\ Identity.iRaw k = raw) \/ exists f, r = inr (Identity.Failure f))).

Lemma tx_failed u l d D f v : in_tx D v -> tx_result u l d D (inr (Identity.Failure f)) v.
Proof. intros H. exists D. split; [done|]. left. split; [done|]. eexists. split; [done|]. by left. Qed.

(** The exchange was refused or lost inside the transaction. *)
Lemma sent_error D now q v e v' :
  in_tx D v -> (forall x w, exec 0 now q v = Some (x, w) -> in_tx D w) -> sent now q v (inr e) v' -> in_tx D v'.
Proof.
  intros Hv Hx Hs. inversion Hs; subst; try (apply forget_twice; eauto).
Qed.

Lemma insert_key_row D d u l raw id now :
  stores (mkServer D ∅ ∅) d -> possible (RCreateKey u l) d -> keys d !! id = None -> ~ used (hashKey keyPepper raw) d ->
  stores (mkServer (Sql.set_keys (<[id := Sql.mkKey u (hashKey keyPepper raw) l "active" "{}" now]> (api_keys D)) D) ∅ ∅)
    (effect (RCreateKey u l) id raw d).
Proof.
  intros Hs Hp Hid Hh. pose proof (legal_effect (RCreateKey u l) id raw d (st_legal _ _ Hs) Hp (conj Hid Hh)) as Hleg.
  destruct Hs as [Hpl Hu Hk _ _]. split; try done. apply same_insert; done.
Qed.

Lemma commit_spec D id row ls v' now x : exec 0 now Commit (mkServer D {[0%nat := {[id := row]}]} ls) = Some (x, v') ->
  (forall u s, ls !! u = Some s -> s = O) -> (exists n, x = inl (Affected n)) /\ v' = mkServer (Sql.set_keys (<[id := row]> (api_keys D)) D) ∅ ∅.
Proof.
  cbn [exec]. intros [= <- <-] Hl. split; [by eexists|]. unfold visible, own. cbn. rewrite lookup_singleton_eq. cbn.
  rewrite <- insert_union_singleton_l. unfold set_db. apply forget_in_tx. split_and!; [done| |done].
  intros s Hs. cbn. by rewrite lookup_singleton_ne.
Qed.

Local Abbreviation locked u := {[u := 0%nat]}.

Lemma locked_fine (u v : string) s : (locked u : gmap string nat) !! v = Some s -> s = O.
Proof. intros H. by apply lookup_singleton_Some in H as [_ <-]. Qed.

Lemma none_fine (v : string) s : (∅ : gmap string nat) !! v = Some s -> s = O.
Proof. by rewrite lookup_empty. Qed.

Lemma visible_open D ls : visible 0 (open_server D ls) = api_keys D.
Proof. unfold visible, own, open_server. cbn. rewrite lookup_singleton_eq. cbn. by rewrite (left_id_L ∅ _). Qed.

Lemma insert_spec D u l h id now :
  exec 0 now (InsertKey id u h l) (open_server D (locked u)) =
  Some (if decide (is_Some (api_keys D !! id) \/ with_hash h (api_keys D) <> ∅) then (inr unique_violation, open_server D (locked u))
        else if decide (is_Some (tenants D !! u))
        then (inl (CreatedAt now), mkServer D {[0%nat := {[id := Sql.mkKey u h l "active" "{}" now]}]} (locked u))
        else (inr foreign_key_violation, open_server D (locked u))).
Proof.
  cbn [exec]. assert (contended 0 id h (open_server D (locked u)) = false) as ->.
  { unfold contended. apply bool_decide_eq_false. intros (s & m & Hs & Hne & _). cbn in Hs. by apply lookup_singleton_Some in Hs as [<- _]. }
  unfold blocked, open_server at 1. cbn [locks]. rewrite lookup_singleton_eq. cbn [Nat.eqb negb orb]. rewrite visible_open.
  unfold put_key, open_server. cbn [txs db locks]. rewrite lookup_singleton_eq, insert_empty, insert_singleton_eq. done.
Qed.

Lemma in_tx_row D ls id row : (forall u s, ls !! u = Some s -> s = O) -> in_tx D (mkServer D {[0%nat := {[id := row]}]} ls).
Proof. intros H. split_and!; [done| |done]. intros s Hs. cbn. by rewrite lookup_singleton_ne. Qed.

Lemma insert_stage u l d D raw id w r w' :
  stores (mkServer D ∅ ∅) d -> possible (RCreateKey u l) d -> srv w = open_server D (locked u) ->
  alone (insertKey hashKey keyPepper u l raw id) w = (r, w') -> tx_result u l d D r (srv w').
Proof.
  intros Hs Hp Hw. unfold insertKey. cbn [alone]. destruct (send _ w) as [x w1] eqn:Hx. apply send_sent in Hx as (Hx & _).
  rewrite Hw in Hx. pose proof (in_tx_open D (locked u) (locked_fine u)) as Hopen.
  destruct x as [x|e].
  2: { intros [= <- <-]. apply tx_failed. apply (sent_error _ _ _ _ _ _ Hopen) in Hx; [done|]. intros y v. rewrite insert_spec.
       intros [= He]. repeat case_decide; simplify_eq; try done. apply in_tx_row, locked_fine. }
  inversion Hx as [r1 v' He E1 E2| | |]; subst; clear Hx. rewrite insert_spec in He. injection He as He.
  case_decide as Hdup; [done|]. case_decide as Ht; [|done]. injection He as Hr Hsrv. subst x. cbn [alone].
  assert (keys d !! id = None) as Hid.
  { apply (same_None _ _ _ _ (st_keys _ _ Hs)). apply eq_None_not_Some. naive_solver. }
  assert (~ used (hashKey keyPepper raw) d) as Hh by (intros Hu; apply Hdup; right; by apply (used_hash _ _ _ Hs)).
  destruct (send Commit w1) as [y w2] eqn:Hc. apply send_sent in Hc as (Hc & _). rewrite <- Hsrv in Hc.
  pose proof (in_tx_row D (locked u) id (Sql.mkKey u (hashKey keyPepper raw) l "active" "{}" (clock w)) (locked_fine u)) as Hrow.
  pose proof (insert_key_row D d u l raw id (clock w) Hs Hp Hid Hh) as Hst.
  destruct y as [y|e]; intros [= <- <-].
  - inversion Hc as [r1 v' He E1 E2| | |]; subst. apply commit_spec in He as [_ ->]; [|apply locked_fine].
    eexists. split; [apply rest_in_tx|]. right. exists id, raw. split_and!; try done. left. by eexists.
  - inversion Hc as [|e1 v' He E1 E2|E1 E2|r1 v' He E1 E2]; subst.
    + apply commit_spec in He as [[? Hn] _]; [discriminate Hn|apply locked_fine].
    + apply tx_failed. by apply forget_twice.
    + apply commit_spec in He as [_ ->]; [|apply locked_fine]. eexists. split; [apply forget_twice, rest_in_tx|].
      right. exists id, raw. split_and!; try done. right. by eexists.
Qed.

Lemma draw_srv w b w' : draw w = (b, w') -> srv w' = srv w.
Proof. unfold draw. destruct (entropy w); by intros [= _ <-]. Qed.

Lemma mint_stage u l d D w r w' :
  stores (mkServer D ∅ ∅) d -> possible (RCreateKey u l) d -> srv w = open_server D (locked u) ->
  alone (mintKey hashKey keyPepper u l) w = (r, w') -> tx_result u l d D r (srv w').
Proof.
  intros Hs Hp Hw. unfold mintKey, GenerateKey, randomID. cbn [bind alone]. destruct (draw w) as [b w1] eqn:Hd. apply draw_srv in Hd.
  pose proof (in_tx_open D (locked u) (locked_fine u)) as Hopen. rewrite <- Hw in Hopen.
  destruct b as [b|]; [|intros [= <- <-]; apply tx_failed; by rewrite Hd]. cbn [bind alone].
  destruct (draw w1) as [c w2] eqn:Hc. apply draw_srv in Hc.
  destruct c as [c|]; [|intros [= <- <-]; apply tx_failed; by rewrite Hc, Hd]. cbn [bind].
  apply insert_stage; [done..|]. by rewrite Hc, Hd.
Qed.

(** A statement that only reads leaves the transaction open. *)
Lemma read_stage {A} (p : prog A) q k now w r w' D ls (P : A -> server -> Prop) :
  p = Exec q k -> clock w = now -> srv w = open_server D ls -> (forall u s, ls !! u = Some s -> s = O) ->
  (forall v, in_tx D v -> forall e w1, srv w1 = v -> forall a w2, alone (k (inr e)) w1 = (a, w2) -> P a (srv w2)) ->
  (exists x, exec 0 now q (open_server D ls) = Some (inl x, open_server D ls) /\
     forall w1, srv w1 = open_server D ls -> forall a w2, alone (k (inl x)) w1 = (a, w2) -> P a (srv w2)) ->
  alone p w = (r, w') -> P r (srv w').
Proof.
  intros -> <- Hw Hls Herr (x & Hx & Hok). cbn [alone]. destruct (send q w) as [y w1] eqn:Hy. apply send_sent in Hy as (Hy & _).
  rewrite Hw in Hy. pose proof (in_tx_open D ls Hls) as Hopen. intros Ha. destruct y as [y|e].
  - inversion Hy as [r1 v' He E1 E2| | |]; subst. rewrite Hx in He. injection He as -> Hv. by apply (Hok w1 (eq_sym Hv)).
  - apply (Herr (srv w1)) with e w1; [|done..]. apply (sent_error _ _ _ _ _ _ Hopen) in Hy; [done|]. intros z v. rewrite Hx. by intros [= _ <-].
Qed.

Lemma count_stage u l d D w r w' :
  stores (mkServer D ∅ ∅) d -> is_Some (users d !! u) -> srv w = open_server D (locked u) ->
  alone (countKeys hashKey keyPepper u l) w = (r, w') -> tx_result u l d D r (srv w').
Proof.
  intros Hs Hu Hw. apply (read_stage _ _ _ _ w r w' D (locked u) (tx_result u l d D) eq_refl eq_refl Hw (locked_fine u)).
  { intros v Hv e w1 <- a w2 [= <- <-]. by apply tx_failed. }
  eexists. split; [cbn [exec]; by rewrite visible_open|]. cbn beta iota. intros w1 Hw1 a w2.
  pose proof (active_of_count _ _ u Hs) as Hn. cbn in Hn. rewrite Hn. case_match eqn:Hle.
  - intros [= <- <-]. exists D. rewrite Hw1. split; [apply in_tx_open, locked_fine|]. left. split; [done|]. eexists. split; [done|].
    split; [done|]. exists u, l. split_and!; try done. by apply Z.leb_le.
  - apply mint_stage; [done| |done]. split; [done|]. apply Z.leb_gt in Hle. lia.
Qed.

Lemma body_stage u l d D w r w' :
  stores (mkServer D ∅ ∅) d -> srv w = open_server D ∅ ->
  alone (createKeyTx hashKey keyPepper u l) w = (r, w') -> tx_result u l d D r (srv w').
Proof.
  intros Hs Hw. pose proof (in_tx_open D ∅ none_fine) as Hopen. unfold createKeyTx. cbn [alone].
  destruct (send _ w) as [x w1] eqn:Hx. apply send_sent in Hx as (Hx & _). rewrite Hw in Hx.
  assert (Hexec : exec 0 (clock w) (LockTenant u) (open_server D ∅) =
    Some (inl (match tenants D !! u with Some _ => Id u | None => NoRows end), open_server D (match tenants D !! u with Some _ => locked u | None => ∅ end))).
  { cbn. by destruct (tenants D !! u). }
  assert (Hls : forall v s, (match tenants D !! u with Some _ => locked u | None => ∅ end : gmap string nat) !! v = Some s -> s = O).
  { intros v s. destruct (tenants D !! u); [apply locked_fine|apply none_fine]. }
  destruct x as [x|e].
  - inversion Hx as [r1 v' He E1 E2| | |]; subst. rewrite Hexec in He. injection He as <- Hv. destruct (tenants D !! u) as [t|] eqn:Ht.
    + apply count_stage; [done| |done]. rewrite <- (same_is_Some _ _ _ _ (st_users _ _ Hs)). cbn. eauto.
    + intros [= <- <-]. exists D. rewrite <- Hv. split; [done|]. left. split; [done|]. eexists. split; [done|]. split; [done|].
      exists u. split; [by apply (same_None _ _ _ _ (st_users _ _ Hs))|]. right. by exists l.
  - intros [= <- <-]. apply tx_failed. apply (sent_error _ _ _ _ _ _ Hopen) in Hx; [done|]. intros y v. rewrite Hexec.
    intros [= _ <-]. by apply in_tx_open.
Qed.

Lemma create_key_refines u l w d a w' :
  stores (srv w) d -> alone (perform (RCreateKey u l)) w = (a, w') -> exists d', stores (srv w') d' /\ outcome (RCreateKey u l) a d d'.
Proof.
  intros Hs. pose proof (stores_rest _ _ Hs) as Hrest. set (D := db (srv w)) in *. cbn [Directory.perform]. unfold CreateKey. cbn [bind alone].
  destruct (send Begin w) as [x w1] eqn:Hx. apply send_sent in Hx as (Hx & _). rewrite Hrest in Hx, Hs.
  assert (Hexec : exec 0 (clock w) Begin (mkServer D ∅ ∅) = Some (inl (Affected 0), open_server D ∅)) by done.
  destruct x as [x|e].
  - inversion Hx as [r1 v' He E1 E2| | |]; subst. rewrite Hexec in He. injection He as <- Hv. rewrite !alone_bind.
    destruct (alone (createKeyTx hashKey keyPepper u l) w1) as [r w2] eqn:Hb.
    apply (body_stage u l d D) in Hb as (D' & Htx & Hres); [|done..]. destruct (rollback_rest r D' w2 Htx) as [Hr Hd'].
    destruct (alone (rollback r) w2) as [r' w3]. cbn in Hr, Hd'. subst r'. cbn [alone]. intros [= <- <-]. rewrite Hd'.
    destruct Hres as [(-> & e & -> & Ho)|(id & raw & Hp & Hf & Hst & [(k & -> & <- & <-)|[f ->]])].
    + by exists d.
    + eexists. split; [exact Hst|]. done.
    + eexists. split; [exact Hst|]. right. eauto.
  - cbn [bind alone]. intros [= <- <-]. exists d. split; [|by left].
    apply (sent_error D _ _ _ _ _ (rest_in_tx D)) in Hx as Htx; [|intros y v; rewrite Hexec; intros [= _ <-]; apply in_tx_open, none_fine].
    inversion Hx as [|e1 v' He E1 E2|E1 E2|r1 v' He E1 E2]; subst; rewrite ?(forget_in_tx _ _ (rest_in_tx D)); try done.
    rewrite Hexec in He. injection He as _ <-. by rewrite (forget_in_tx D) by apply in_tx_open, none_fine.
Qed.

(** *** Resolving a key *)
Lemma with_hash_unique v d i r : stores v d -> api_keys (db v) !! i = Some r -> with_hash (k_key_hash r) (api_keys (db v)) = {[i := r]}.
Proof.
  intros Hs Hi. destruct (same_l _ _ _ _ _ (st_keys _ _ Hs) Hi) as (k & Hk & _ & Hd & _). apply map_eq. intros j.
  destruct (decide (j = i)) as [->|Hne].
  - rewrite lookup_singleton_eq. by apply map_lookup_filter_Some.
  - rewrite lookup_singleton_ne by done. apply map_lookup_filter_None. right. intros r' Hj. cbn. intros Heq. apply Hne.
    destruct (same_l _ _ _ _ _ (st_keys _ _ Hs) Hj) as (k' & Hk' & _ & Hd' & _).
    apply (lg_digest _ (st_legal _ _ Hs) j i k' k Hk' Hk). congruence.
Qed.

Lemma join_grant v d i r k : stores v d -> key_of r k -> keys d !! i = Some k ->
  exists row t, join (db v) (i, r) = Some row /\ grant d i k = Some t /\ resolveTenantRow decode (inl (IdentityRow row)) = Cached.Found t.
Proof.
  intros Hs (Ho & Hd & Hl & He & Hp) Hk. destruct (lg_owner _ (st_legal _ _ Hs) _ _ Hk) as [u Hu].
  destruct (lg_tier _ (st_legal _ _ Hs) _ _ Hu) as [pl Hpl]. destruct (same_r _ _ _ _ _ (st_users _ _ Hs) Hu) as (t & Ht & Hn & Hr & Hti & Hpt).
  unfold join, grant. cbn [fst snd]. rewrite Ho, Ht, Hti, Hu, (st_plans _ _ Hs), Hpl. do 2 eexists. split_and!; [done..|].
  cbn. by rewrite Hpt, Hp, Hn, Hr.
Qed.

Lemma identities_answers v d raw : stores v d ->
  answers hashKey keyPepper d raw
    (resolveTenantRow decode (match identities (hashKey keyPepper raw) (db v) with [] => inl NoRows | r :: _ => inl (IdentityRow r) end)).
Proof.
  intros Hs. unfold identities. destruct (decide (with_hash (hashKey keyPepper raw) (api_keys (db v)) = ∅)) as [He|He].
  - rewrite He, map_to_list_empty. right. split; [|done]. intros i k Hk Hd. exfalso. apply (used_hash v d (hashKey keyPepper raw) Hs); [|done]. by exists i, k.
  - apply map_choose in He as (i & r & Hi). apply map_lookup_filter_Some in Hi as [Hi Hh]. cbn in Hh.
    rewrite <- Hh, (with_hash_unique v d i r Hs Hi), map_to_list_singleton. cbn [List.filter snd].
    destruct (same_l _ _ _ _ _ (st_keys _ _ Hs) Hi) as (k & Hk & Hkr). pose proof Hkr as (_ & Hd & _ & Hact & _). rewrite Hact.
    destruct (enabled k) eqn:He.
    + destruct (join_grant v d i r k Hs Hkr Hk) as (row & t & Hj & Hg & Hres). cbn [omap list_omap]. rewrite Hj, Hres.
      left. exists i, k, t. split_and!; try done. congruence.
    + right. split; [|done]. intros j k' Hk' Hd'. replace k' with k; [done|]. assert (j = i) as ->; [|congruence].
      apply (lg_digest _ (st_legal _ _ Hs) j i k' k Hk' Hk). congruence.
Qed.

Lemma resolve_answers w d raw a w' :
  stores (srv w) d -> alone (Resolve hashKey decode keyPepper raw) w = (a, w') ->
  srv w' = srv w /\ (answers hashKey keyPepper d raw a \/ a = Cached.Failed "resolve key" /\ exists l ls, links w = l :: ls /\ l <> Up).
Proof.
  intros Hs. unfold Resolve, send. cbn [alone]. unfold send. cbn [exec db]. pose proof (identities_answers (srv w) d raw Hs) as Hans.
  assert (Hrow : exists r, match identities (hashKey keyPepper raw) (db (srv w)) with [] => inl NoRows | r :: _ => inl (IdentityRow r) end = (inl r : reply + sql_error)).
  { destruct (identities _ _); by eexists. }
  destruct Hrow as [row Hrow]. rewrite Hrow in Hans.
  destruct (links w) as [|l ls]; [|destruct l]; cbn [exchange exec srv clock]; rewrite ?Hrow; intros [= <- <-]; cbn [set_srv srv];
    rewrite ?(stores_forget _ _ Hs); (split; [done|]); auto; right; (split; [done|]); by eexists _, _.
Qed.

(** C32. The identity store is the directory an operator has in mind.  On a
    database that stores a legal directory every write answers, and leaves a
    database that stores the directory its answer says: a user of a known
    tier, a key of a known user below the ceiling under a new id and a new
    digest, a replaced layer, a flipped status; an unknown subject or a full
    hand of keys is reported exactly there and changes nothing; a failure,
    the loss of the connection at any statement included, leaves the
    directory of before or that of the completed write.  A raw key then
    resolves to the tenant of its enabled key with the limits of tier, user
    and key merged, and to a denial when there is no such key; only a lost
    exchange makes it an error. *)
Theorem store_refines w d :
  stores (srv w) d ->
  (forall q, exists d', stores (srv (alone (perform q) w).2) d' /\ outcome q (alone (perform q) w).1 d d') /\
  forall raw, srv (alone (Resolve hashKey decode keyPepper raw) w).2 = srv w /\
    (answers hashKey keyPepper d raw (alone (Resolve hashKey decode keyPepper raw) w).1 \/
     (alone (Resolve hashKey decode keyPepper raw) w).1 = Cached.Failed "resolve key" /\ exists l ls, links w = l :: ls /\ l <> Up).
Proof.
  intros Hs. split.
  - intros q. destruct (alone (perform q) w) as [a w'] eqn:Ha. cbn [fst snd]. destruct q as [n r t|u o|u l|k o|k b].
    + by apply (create_user_refines n r t w).
    + by apply (user_limits_refines u o w).
    + by apply (create_key_refines u l w).
    + by apply (key_limits_refines k o w).
    + by apply (key_status_refines k b w).
  - intros raw. destruct (alone (Resolve hashKey decode keyPepper raw) w) as [a w'] eqn:Ha. by apply (resolve_answers w d raw a w').
Qed.
End store.

(** *** One user asks for a key *)
Definition pepper_raw (pepper raw : string) : string := pepper +:+ raw.
Definition write_empty (o : Limits.LimitOverride) : option string := if Limits.Empty o then Some "{}"%string else None.
Definition read_empty (s : string) : option Limits.LimitOverride := if String.eqb s "{}" then Some Limits.no_override else None.

Lemma write_empty_parses o doc : write_empty o = Some doc -> ParseOverride read_empty doc = Some o.
Proof.
  unfold write_empty. destruct (Limits.Empty o) eqn:He; [|done]. intros [= <-]. destruct o as [[] [] [] [] [] [] [] q]; try done.
  cbn in He. apply bool_decide_eq_true in He as ->. done.
Qed.

Definition free : tier_row := Sql.mkTier 60 1000 5000 0 ["gpt"%string].
Definition ada_db : database := mkDatabase {["free" := free]} {["u_1" := Sql.mkTenant "Ada" "free" "user" "{}" 0]} ∅.
Definition ada : directory := mkDirectory {["free" := free]} {["u_1" := Directory.mkUser "Ada" "user" "free" Limits.no_override]} ∅.
Definition ada_world (ls : list link) : world := mkWorld (mkServer ada_db ∅ ∅) ls [[1; 2]; [3; 4]] 9.

Lemma ada_stored ls : stores read_empty (srv (ada_world ls)) ada.
Proof.
  split; [done| |apply map_Forall2_empty| |done].
  - apply map_Forall2_singleton. by split_and!.
  - split.
    + intros u x Hx. cbn in Hx. apply lookup_singleton_Some in Hx as [_ <-]. by eexists.
    + intros i k Hk. cbn in Hk. by rewrite lookup_empty in Hk.
    + intros i j k k' Hk. cbn in Hk. by rewrite lookup_empty in Hk.
Qed.

(** The commit is lost on its way back: the key exists though the answer is
    an error, and its raw form resolves. *)
Definition after_lost_commit : world := (alone (perform pepper_raw write_empty "p" (RCreateKey "u_1" "laptop")) (ada_world [Up; Up; Up; Up; Unanswered])).2.

Lemma store_refines_witness :
  (alone (perform pepper_raw write_empty "p" (RCreateKey "u_1" "laptop")) (ada_world [])).1 = Made "k_0304" "bw-0102" /\
  size (api_keys (db (srv after_lost_commit))) = 1%nat /\
  exists d', stores read_empty (srv after_lost_commit) d' /\
    outcome pepper_raw "p" (RCreateKey "u_1" "laptop") (Refused (Identity.Failure "create key")) ada d'.
Proof.
  split; [by vm_compute|]. split; [by vm_compute|].
  pose proof (proj1 (store_refines pepper_raw write_empty read_empty "p" write_empty_parses eq_refl
    (ada_world [Up; Up; Up; Up; Unanswered]) ada (ada_stored _)) (RCreateKey "u_1" "laptop")) as (d' & Hs & Ho).
  exists d'. split; [exact Hs|].
  assert ((alone (perform pepper_raw write_empty "p" (RCreateKey "u_1" "laptop")) (ada_world [Up; Up; Up; Up; Unanswered])).1
    = Refused (Identity.Failure "create key")) as Hr by (vm_compute; reflexivity).
  rewrite Hr in Ho. exact Ho.
Defined.
End Lifecycle.
