(* ===== verification/Startup.v ===== *)
(** * The composition root (cmd/breakwater: serve.go, governance.go)

    What the gateway decides once, when it starts: [Names] the model names
    and the bindings a configuration lists, [Plane] the routing plane built
    of them, [Strategy] the breaker of the configured strategy with the hooks
    that publish it, [Seeding] the opening balances, [Readiness] the merged
    probe, [Lifecycle] the order in which resources are taken and given
    back. *)
From Stdlib Require Import QArith.
From stdpp Require Import base numbers gmap strings sorting list.
From S2P Require Import Prelude Float64 Circuit CircuitSlow CircuitRatio CircuitPort Retry Quota Router Upstream Auth Metrics.
From S2P Require Import Text Config Stream Protocol Tokens Cache Limiter AuthCache Affinity Relay Pipeline Governance Inference.
Import GoInt GoTime.
Local Open Scope Z_scope.

(** ** The names of a configuration *)
Module Names.
Import Config.Schema.

Definition client_name (m : string) : string :=
  match ModelMap.cut_eq m with
  | Some (client, _) => if String.eqb client "" then m else client
  | None => m
  end.
Definition clientModels (models : list string) : list string := map client_name models.

(** All the client names, in the order of the configuration. *)
Definition all_names (cfgs : list Upstream) : list string := flat_map (fun c => clientModels (Models c)) cfgs.

Fixpoint known_from (seen : gset string) (ms : list string) : list string :=
  match ms with
  | [] => []
  | m :: ms => if String.eqb m "*" || bool_decide (m ∈ seen) then known_from seen ms else m :: known_from ({[m]} ∪ seen) ms
  end.
Definition knownModels (cfgs : list Upstream) : list string := known_from ∅ (all_names cfgs).

Definition wildcardServed (cfgs : list Upstream) : bool :=
  existsb (fun c => existsb (fun m => String.eqb m "*") (clientModels (Models c))) cfgs.

Definition discoverableModels (cfgs : list Upstream) : list string :=
  knownModels cfgs ++ (if wildcardServed cfgs then ["*"] else []).

Definition servesModel (cfgs : list Upstream) (model : string) : bool :=
  negb (String.eqb model "*") &&
  existsb (fun c => existsb (fun m => String.eqb m model || String.eqb m "*") (clientModels (Models c))) cfgs.

Inductive unserved := FallbackKey (m : string) | FallbackTarget (m : string) | ContextLimit (m : string).

Definition check (cfgs : list Upstream) (model : string) (e : unserved) : option unserved :=
  if servesModel cfgs model then None else Some e.

Fixpoint first_unserved {A} (f : A -> option unserved) (l : list A) : option unserved :=
  match l with [] => None | x :: l => match f x with Some e => Some e | None => first_unserved f l end end.

Definition check_chain (cfgs : list Upstream) (kv : string * list string) : option unserved :=
  match check cfgs kv.1 (FallbackKey kv.1) with
  | Some e => Some e
  | None => first_unserved (fun f => check cfgs f (FallbackTarget f)) kv.2
  end.

(** The maps in the orders the loops visit them. *)
Definition validateModelNames (cfgs : list Upstream) (fallbacks : list (string * list string)) (limits : list (string * Z)) : option unserved :=
  match first_unserved (check_chain cfgs) fallbacks with
  | Some e => Some e
  | None => first_unserved (fun l => check cfgs l.1 (ContextLimit l.1)) limits
  end.

Definition upstreamIDs (cfgs : list Upstream) : list string := map ID cfgs.

(** The adapter of one entry, and the bindings with the rings by id. *)
Definition adapter_of (c : Upstream) : option OpenAI.OpenAI :=
  OpenAI.NewOpenAI (ID c) (BaseURL c) (Credentials c) (ProbeURL c) (ModelMap.ParseModelMap (Models c)).

Fixpoint buildBindings (cfgs : list Upstream) : option (list (@Priority.Binding OpenAI.OpenAI) * gmap string OpenAI.OpenAI) :=
  match cfgs with
  | [] => Some ([], ∅)
  | c :: cfgs =>
      match adapter_of c with
      | None => None
      | Some adapter =>
          match buildBindings cfgs with
          | None => None
          | Some (bindings, rings) =>
              Some (Priority.mkBinding (clientModels (Models c)) (Some adapter) :: bindings,
                    match rings !! ID c with Some _ => rings | None => <[ID c := adapter]> rings end)
          end
      end
  end.
End Names.

(** ** The routing plane *)
Module Plane.
Import Config.Schema Names.

Inductive startup_error := BadUpstream | BadStrategy (s : string) | Unserved (e : unserved) | BadBinding | BadBudget.

(** The budget of [newRequest]s: a fixed cap, or a share of the traffic. *)
Definition retryBudget (r : Retry) : option Budget.Budget :=
  if 0 <? BudgetPercent r then Budget.NewShareBudget (BudgetPercent r) (BudgetMinInFlight r) true
  else Some (Budget.NewBudget (BudgetMaxInFlight r)).

Definition relayer (cfg : Config) : Relay.Executor :=
  let r := cRetry cfg in
  Relay.mkExecutor
    (Loop.mkPolicy (MaxAttempts r) (AttemptTimeout r) (OverallDeadline r) (BackoffInitial r) (BackoffMax r))
    Classifier.Retryable (Some Classifier.DelayHint) true true true
    (StreamTimeout r) (StreamIdleTimeout r) (SlowCallThreshold (cCircuit cfg)) (0 <? UpstreamMaxInFlight cfg).

Section plane.
Context {T : Type} (transcoder_of : string -> option T).

(** The formats, in the order of the list [formats]. *)
Definition formats : list string := [Formats.FormatOpenAIChat; Formats.FormatOpenAIResponses; Formats.FormatAnthropicMessages].

Record routingPlane := mkPlane {
  routeSwitch : Switch.Switch; rings : gmap string OpenAI.OpenAI; budget : Budget.Budget;
  affinityIndex : option Affinity.Index;
  endpoints : list (string * @Inference.Inference OpenAI.OpenAI T);
  adapters : gmap string OpenAI.OpenAI; probes : gset string
}.

(** The adapters by id: the last binding of an id. *)
Definition adapters_of (bindings : list (@Priority.Binding OpenAI.OpenAI)) : gmap string OpenAI.OpenAI :=
  foldl (fun m b => match Priority.Upstream b with Some a => <[OpenAI.id a := a]> m | None => m end) ∅ bindings.

Definition probes_of (cfgs : list Upstream) (adapters : gmap string OpenAI.OpenAI) : gset string :=
  list_to_set (map ID (filter (fun c => ProbeURL c <> "" /\ is_Some (adapters !! ID c)) cfgs)).

(** [ranged_chains] and [ranged_limits] are the orders in which the loops
    of the name check visit the two maps. *)
Variable ranged_chains : gmap string (list string) -> list (string * list string).
Variable ranged_limits : gmap string Z -> list (string * Z).

Definition assembleRoutingPlane (cfg : Config) : routingPlane + startup_error :=
  match buildBindings (Upstreams cfg) with
  | None => inr BadUpstream
  | Some (bindings, rings) =>
      match Priority.ParseStrategy (rStrategy (cRouting cfg)) with
      | None => inr (BadStrategy (rStrategy (cRouting cfg)))
      | Some strategy =>
          let switch := Switch.NewSwitch (knownModels (Upstreams cfg)) (upstreamIDs (Upstreams cfg)) (wildcardServed (Upstreams cfg)) in
          match validateModelNames (Upstreams cfg) (ranged_chains (Fallbacks cfg)) (ranged_limits (ContextLimits cfg)) with
          | Some e => inr (Unserved e)
          | None =>
              match Priority.NewPriority bindings with
              | None => inr BadBinding
              | Some entries =>
                  match retryBudget (cRetry cfg) with
                  | None => inr BadBudget
                  | Some budget =>
                      let priority := Priority.mkPriority entries (Some switch) strategy (Some ∅) in
                      let endpoint f := (f, Inference.mkInference f priority (Fallbacks cfg) (ContextLimits cfg) (relayer cfg) transcoder_of) in
                      let adapters := adapters_of bindings in
                      inl (mkPlane switch rings budget (Affinity.NewIndex (AffinityTTL (cRouting cfg)))
                             (map endpoint formats) adapters (probes_of (Upstreams cfg) adapters))
                  end
              end
          end
      end
  end.
End plane.
End Plane.

(** ** The breaker of the configured strategy *)
Module Strategy.
Import Recorders.

(** The four implementations [buildBreaker] chooses among. *)
Inductive built :=
  | NoBreaker (b : NopBreaker) | RatioGuard (b : Ratio.RatioRegistry) | SlowCalls (b : Slow.SlowRegistry) | Consecutives (b : Consecutive.Registry).

(** The configured slow ratio as the registry reads it: an infinity is
    outside of (0, 1] and falls back; the loader refuses a ratio that is no
    number. *)
Definition slow_ratio (f : Classifier.float) : option Q :=
  match f with Classifier.Finite q => Some q | Classifier.PInf => Some 2%Q | Classifier.NInf => Some (-1)%Q | Classifier.NaN => None end.

Definition buildBreaker (cfg : Config.Schema.Circuit) : option built :=
  if negb (Config.Schema.Enabled cfg) then Some (NoBreaker (mkNop))
  else if String.eqb (Config.Schema.Strategy cfg) "ratio" then Some (RatioGuard Ratio.NewRatioRegistry)
  else if String.eqb (Config.Schema.Strategy cfg) "slow-call" then
    (fun ratio => SlowCalls (Slow.NewSlowRegistry (Config.Schema.Cooldown cfg) (Config.Schema.ProbeTimeout cfg) ratio))
      <$> slow_ratio (Config.Schema.SlowRatio cfg)
  else Some (Consecutives (Consecutive.NewRegistry
         (Consecutive.mkConfig (Config.Schema.FailThreshold cfg) (Config.Schema.Cooldown cfg) (Config.Schema.ProbeTimeout cfg)))).

(** *** The port over whichever was built *)
Definition built_Allow (e : env) (u : string) (b : built) : built * option nat :=
  match b with
  | NoBreaker b => let (b, p) := Allow e u b in (NoBreaker b, p)
  | RatioGuard b => let (b, p) := Allow e u b in (RatioGuard b, p)
  | SlowCalls b => let (b, p) := Allow e u b in (SlowCalls b, p)
  | Consecutives b => let (b, p) := Allow e u b in (Consecutives b, p)
  end.
Definition built_StateOf (e : env) (u : string) (b : built) : built * State :=
  match b with
  | NoBreaker b => let (b, s) := StateOf e u b in (NoBreaker b, s)
  | RatioGuard b => let (b, s) := StateOf e u b in (RatioGuard b, s)
  | SlowCalls b => let (b, s) := StateOf e u b in (SlowCalls b, s)
  | Consecutives b => let (b, s) := StateOf e u b in (Consecutives b, s)
  end.
Definition built_Reset (e : env) (u : string) (b : built) : built :=
  match b with
  | NoBreaker b => NoBreaker (Reset e u b) | RatioGuard b => RatioGuard (Reset e u b)
  | SlowCalls b => SlowCalls (Reset e u b) | Consecutives b => Consecutives (Reset e u b)
  end.
Definition built_Report (e : env) (p : nat) (o : Outcome) (b : built) : built :=
  match b with
  | NoBreaker b => NoBreaker (Report e p o b) | RatioGuard b => RatioGuard (Report e p o b)
  | SlowCalls b => SlowCalls (Report e p o b) | Consecutives b => Consecutives (Report e p o b)
  end.
Definition built_inv (b : built) : Prop :=
  match b with NoBreaker b => breaker_inv b | RatioGuard b => breaker_inv b | SlowCalls b => breaker_inv b | Consecutives b => breaker_inv b end.

#[export] Instance built_breaker : Breaker built := {
  breaker_inv := built_inv; Allow := built_Allow; StateOf := built_StateOf; Reset := built_Reset; Report := built_Report
}.

(** *** What it publishes *)
Definition stateValue (s : State) : Q := match s with StateOpen => 2 | StateHalfOpen => 1 | StateClosed => 0 end.

(** The transition hook. *)
Definition on_transition (t : Machine.transition) : list event :=
  let '(id, _, to) := t in
  match to with StateOpen => [eCircuitOpened id] | StateHalfOpen => [eCircuitHalfOpen id] | StateClosed => [] end
  ++ [eCircuitState id (stateValue to)].

(** The calls of the hooks so far, in their order. *)
Definition published (b : built) : list event :=
  match b with
  | NoBreaker _ => []
  | RatioGuard b => map eCircuitDenied (Ratio.denials b)
  | SlowCalls b => flat_map on_transition (Slow.observed b)
  | Consecutives b => flat_map on_transition (Consecutive.observed b)
  end.

(** The position the machine of [u] stands in. *)
Definition position (b : built) (u : string) : State :=
  match b with
  | NoBreaker _ | RatioGuard _ => StateClosed
  | SlowCalls b => from_option (fun s => Machine.name (Slow.mach s)) StateClosed (Slow.byUpstream b !! u)
  | Consecutives b => from_option (fun s => Machine.name (Consecutive.mach s)) StateClosed (Consecutive.byUpstream b !! u)
  end.

(** A use of the breaker. *)
Inductive use := UAllow (e : env) (u : string) | UStateOf (e : env) (u : string) | UReset (e : env) (u : string)
  | UReport (e : env) (p : nat) (o : Outcome).
Definition apply (b : built) (x : use) : built :=
  match x with
  | UAllow e u => (Allow e u b).1 | UStateOf e u => (StateOf e u b).1 | UReset e u => Reset e u b | UReport e p o => Report e p o b
  end.
End Strategy.


(** ** The opening balances *)
Module Seeding.
Import Limits Static.

(** [balanceSeeder]: what a ledger offers that can be provisioned. *)
Class Seeder (L : Type) := { EnsureBalance : string -> Z -> L -> (bool + string) * L }.

(** Its promise: a record appears where there was none, or nothing happens;
    a call that answers has left a record. *)
Class SeederLaws (L : Type) `{!Seeder L} := {
  record : Type;
  opening : Z -> record;
  stored : L -> string -> option record;
  ensure_outcome t n l :
    (forall u, stored (EnsureBalance t n l).2 u = stored l u) \/
    stored l t = None /\ forall u, stored (EnsureBalance t n l).2 u = if decide (u = t) then Some (opening n) else stored l u;
  ensure_answer t n l b : (EnsureBalance t n l).1 = inl b -> is_Some (stored (EnsureBalance t n l).2 t)
}.

Definition Tenants (s : Static) : list string :=
  merge_sort String.le (elements (list_to_set (map (fun kv => tID kv.2) (map_to_list (byKey s))) : gset string)).

(** [ranged] is the order in which the loop visits the map. *)
Definition TenantByID (ranged : list (string * Tenant)) (id : string) : option Tenant :=
  (fun r => r.2.2) <$> list_find (fun kv => tID kv.2 = id) ranged.

Section seed.
Context {L : Type} `{!Seeder L}.
Variable ranged : string -> gmap string Tenant -> list (string * Tenant).

(** The loop with its log: who was asked for, and the answer. *)
Fixpoint seed_loop (s : Static) (ids : list string) (l : L) : list (string * (bool + string)) * L :=
  match ids with
  | [] => ([], l)
  | id :: ids =>
      match TenantByID (ranged id (byKey s)) id with
      | None => seed_loop s ids l
      | Some tenant =>
          let (answer, l) := EnsureBalance id (MonthlyQuota (tTier tenant)) l in
          let (log, l) := seed_loop s ids l in
          ((id, answer) :: log, l)
      end
  end.

Definition seedBalances (identity : Static) (ledger : L) : list (string * (bool + string)) * L := seed_loop identity (Tenants identity) ledger.
End seed.
End Seeding.

(** ** Readiness *)
Module Readiness.
Section readiness.
Context {W : Type}.

(** A probe answers an error or nothing, in the world it is asked in. *)
Definition probe : Type := W -> option string.

Fixpoint first_error (live : list probe) (w : W) : option string :=
  match live with
  | [] => None
  | p :: live => match p w with Some err => Some err | None => first_error live w end
  end.

Definition mergeReadiness (probes : list (option probe)) : option probe :=
  match omap id probes with [] => None | live => Some (first_error live) end.
End readiness.
Arguments probe : clear implicits.
End Readiness.

(** ** The HTTP surface (server: routes.go, health.go, models.go) *)
Module Root.
Import Readiness Reply.

Local Abbreviation nl := (Ascii.Ascii false true false true false false false false).
Record response := mkResponse { status : Z; contentType : string; body : string }.

Definition handleLiveness : response := mkResponse 200 "text/plain; charset=utf-8" ("ok" +:+ String nl "").
Definition makeReadiness {W} (p : option (probe W)) (w : W) : response :=
  let ready := mkResponse 200 "text/plain; charset=utf-8" ("ok" +:+ String nl "") in
  match p with
  | None => ready
  | Some p => match p w with
              | Some _ => mkResponse 503 "text/plain; charset=utf-8" ("not ready" +:+ String nl "")
              | None => ready
              end
  end.

(** The list form of the discovery endpoint. *)
Record listedModel := mkListed { lID : string; lObject : string; lCreated : Z; lOwnedBy : string }.
Definition modelsOwnedBy : string := "breakwater".
Definition makeModelsHandler (created : Z) (names : list string) : list listedModel :=
  map (fun name => mkListed name "model" created modelsOwnedBy) (merge_sort String.le names).

(** *** The routing table *)
Inductive handler := Liveness | Version | Ready | Metrics | Admin | Models | Inference (format : string).

(** A pattern of [http.ServeMux]: a method or any, and a path or all of its
    subtree. *)
Record pattern := mkPattern { method : option string; path : string; subtree : bool }.

Definition routeOfFormat (format : string) : pattern :=
  if String.eqb format FormatOpenAIResponses then mkPattern (Some "POST") "/v1/responses" false
  else if String.eqb format FormatAnthropicMessages then mkPattern (Some "POST") "/v1/messages" false
  else mkPattern (Some "POST") "/v1/chat/completions" false.

Definition newRootHandler (inference : list string) (metrics admin : bool) (models : list string) : list (pattern * handler) :=
  [(mkPattern (Some "GET") "/healthz" false, Liveness); (mkPattern (Some "GET") "/version" false, Version);
   (mkPattern (Some "GET") "/readyz" false, Ready)] ++
  (if metrics then [(mkPattern (Some "GET") "/metrics" false, Metrics)] else []) ++
  (if admin then [(mkPattern None "/admin/" true, Admin)] else []) ++
  (if (0 <? length models)%nat then [(mkPattern (Some "GET") "/v1/models" false, Models)] else []) ++
  map (fun f => (routeOfFormat f, Inference f)) inference.

(** How [ServeMux] serves a clean path: a pattern without a method takes
    any, one for GET also takes HEAD; a path that only lacks the final slash
    of a subtree is redirected there. *)
Definition takes_path (p : pattern) (path' : string) : bool :=
  if subtree p then String.prefix (path p) path' else String.eqb (path p) path'.
Definition takes_method (p : pattern) (m : string) : bool :=
  match method p with None => true | Some m' => String.eqb m' m || (String.eqb m' "GET" && String.eqb m "HEAD") end.

Inductive routed := Handled (h : handler) | Redirected | MethodNotAllowed | NotFound.

Definition dispatch (routes : list (pattern * handler)) (m path' : string) : routed :=
  match filter (fun r => takes_path r.1 path' && takes_method r.1 m = true) routes with
  | r :: _ => Handled r.2
  | [] =>
      if existsb (fun r => subtree r.1 && String.eqb (path r.1) (path' +:+ "/") && takes_method r.1 m) routes then Redirected
      else if existsb (fun r => takes_path r.1 path') routes then MethodNotAllowed else NotFound
  end.
End Root.

(** ** The lifecycle of the process (serve.go, obsassembly.go, httpserver.go) *)
Module Lifecycle.
(** The bundles of [serve], and the pool of the reconciler's snapshots. *)
Inductive resource := Logs | Recorder | Backends | Identities | Snapshots.
#[export] Instance resource_eq_dec : EqDecision resource.
Proof. solve_decision. Defined.

(** How [httpserver.Run] ends. *)
Inductive served := ListenFailed (e : string) | ServeFailed (e : string) | DrainTimeout | DrainFailed (e : string) | Drained.

(** [Run]: a listener of the caller is served as it is; [serve] is what
    [Serve] returned before the context ended, [shutdown] what [Shutdown]
    answered, with its deadline told apart. *)
Definition Run (given_listener : bool) (listen : option string) (serve : option string) (shutdown : option (bool * string)) : served :=
  match (if given_listener then None else listen) with
  | Some e => ListenFailed e
  | None =>
      match serve with
      | Some e => ServeFailed e
      | None => match shutdown with None => Drained | Some (true, _) => DrainTimeout | Some (false, e) => DrainFailed e end
      end
  end.

(** Background loops, which end with the context. *)
Inductive worker := Sweeper | Reconciler | DropPublisher | Prober.

(** [Guard r]: a goroutine waits for the context and then closes [r].
    [Cancel] is the deferred [stop]: it ends the context, if no signal has. *)
Inductive act := Open (r : resource) | Close (r : resource) | Guard (r : resource) | Start (w : worker) | Serving | Cancel.
#[export] Instance worker_eq_dec : EqDecision worker.
Proof. solve_decision. Defined.
#[export] Instance act_eq_dec : EqDecision act.
Proof. solve_decision. Defined.

(** A start: the bundles the configuration enables and what each step
    answers; [tenants] is the error of listing the tenants to reconcile. *)
Record start := mkStart {
  configured : resource -> bool; opens : resource -> option string; has_identity : bool; reconciles : bool;
  tenants : option string; routing : option string; publishes : bool; probes : bool; run : served
}.

Section serve.
Variable s : start.

(** Snapshots are opened for an armed reconciler. *)
Definition enabled (r : resource) : bool :=
  match r with Snapshots => has_identity s && reconciles s | _ => configured s r end.

Definition opened (r : resource) : list act := if enabled r then [Open r] else [].

(** [close] of a bundle runs once; a disabled one has nothing to close. *)
Definition close (r : resource) (tr : list act) : list act :=
  if enabled r && negb (bool_decide (Close r ∈ tr)) then tr ++ [Close r] else tr.

(** The deferred calls, last first; the context is cancelled last. *)
Definition unwind (deferred : list resource) (tr : list act) : list act := foldl (fun tr r => close r tr) tr deferred ++ [Cancel].

(** [buildGovernance]'s workers; [startReconciler] leaves its pool to a
    goroutine. *)
Definition sweeper : list act := if has_identity s then [Start Sweeper] else [].
Definition reconciler : list act := if enabled Snapshots then [Guard Snapshots; Start Reconciler] else [].

(** The workers [serve] starts itself. *)
Definition own_workers : list act := (if publishes s then [Start DropPublisher] else []) ++ (if probes s then [Start Prober] else []).

(** Opening one bundle, with what runs if it fails and if it does not. *)
Definition step (r : resource) (deferred : list resource) (tr : list act) (k : list act -> list act * option string) : list act * option string :=
  match (if enabled r then opens s r else None) with
  | Some e => (unwind deferred tr, Some e)
  | None => k (tr ++ opened r)
  end.

(** [serve]: the acts in their order, and the error it returns.
    [assembleObservation] opens the log and then the record store; the
    deferred calls are registered when both are there. *)
Definition serve : list act * option string :=
  step Logs [] [] (fun tr =>
  step Recorder [] tr (fun tr =>
  step Backends [Recorder; Logs] tr (fun tr =>
  step Identities [Backends; Recorder; Logs] tr (fun tr =>
  let deferred := [Identities; Backends; Recorder; Logs] in
  let tr := tr ++ sweeper in
  match (if enabled Snapshots then tenants s else None) with
  | Some e => (unwind deferred tr, Some e)
  | None =>
      step Snapshots deferred tr (fun tr =>
      let tr := tr ++ reconciler in
      match routing s with
      | Some e => (unwind deferred tr, Some e)
      | None =>
          let tr := tr ++ own_workers in
          match run s with
          | ListenFailed e => (unwind deferred (close Logs tr), Some e)
          | Drained => (unwind deferred (tr ++ [Serving]), None)
          | DrainTimeout => (unwind deferred (close Logs (tr ++ [Serving])), None)
          | ServeFailed e | DrainFailed e => (unwind deferred (close Logs (tr ++ [Serving])), Some e)
          end
      end)
  end)))).
End serve.
End Lifecycle.
