(* ===== verification/StartupProps.v ===== *)
(** * Properties of the composition root *)
From Stdlib Require Import QArith.
From stdpp Require Import base numbers gmap strings pretty sorting list.
From S2P Require Import Prelude Float64 Circuit CircuitSlow CircuitRatio CircuitPort Retry Quota Router Upstream Auth Metrics.
From S2P Require Import Text Config Stream Protocol Tokens Cache Limiter AuthCache Affinity Relay Pipeline Governance Inference Redis RedisLedger Startup.
Import GoInt GoTime.
Local Open Scope Z_scope.

Module NameFacts.
Import Config.Schema Names.

Lemma all_names_spec (cfgs : list Upstream) m : m ∈ all_names cfgs <-> exists c, c ∈ cfgs /\ m ∈ clientModels (Models c).
Proof. unfold all_names. rewrite list_elem_of_In, in_flat_map. setoid_rewrite list_elem_of_In. done. Qed.

Lemma known_from_spec ms : forall seen m, m ∈ known_from seen ms <-> m ∈ ms /\ m <> "*" /\ m ∉ seen.
Proof.
  induction ms as [|x ms IH]; intros seen m; cbn [known_from]; [set_solver|].
  destruct (String.eqb_spec x "*") as [->|Hx]; cbn [orb]; [rewrite IH; set_solver|].
  case_bool_decide; [rewrite IH; set_solver|]. rewrite elem_of_cons, IH. destruct (decide (m = x)); set_solver.
Qed.

Lemma known_from_NoDup ms : forall seen, NoDup (known_from seen ms).
Proof.
  induction ms as [|x ms IH]; intros seen; cbn [known_from]; [constructor|].
  destruct (_ || _); [apply IH|]. constructor; [|apply IH]. rewrite known_from_spec. set_solver.
Qed.

Lemma knownModels_spec cfgs m : m ∈ knownModels cfgs <-> m ∈ all_names cfgs /\ m <> "*".
Proof. unfold knownModels. rewrite known_from_spec. set_solver. Qed.

Lemma existsb_names (P : string -> bool) cfgs :
  existsb (fun c => existsb P (clientModels (Models c))) cfgs = true <-> exists m, m ∈ all_names cfgs /\ P m = true.
Proof.
  rewrite existsb_exists. setoid_rewrite all_names_spec. setoid_rewrite existsb_exists. setoid_rewrite list_elem_of_In. naive_solver.
Qed.

Lemma wildcardServed_spec cfgs : wildcardServed cfgs = true <-> "*"%string ∈ all_names cfgs.
Proof.
  unfold wildcardServed. rewrite (existsb_names (fun m => String.eqb m "*")). setoid_rewrite String.eqb_eq. naive_solver.
Qed.

Lemma servesModel_spec cfgs m : servesModel cfgs m = true <-> m <> "*" /\ (m ∈ all_names cfgs \/ "*"%string ∈ all_names cfgs).
Proof.
  unfold servesModel. rewrite andb_true_iff, negb_true_iff, String.eqb_neq, (existsb_names (fun x => String.eqb x m || String.eqb x "*")).
  setoid_rewrite orb_true_iff. setoid_rewrite String.eqb_eq. naive_solver.
Qed.

Lemma check_None cfgs m e : check cfgs m e = None <-> servesModel cfgs m = true.
Proof. unfold check. by destruct (servesModel cfgs m). Qed.

Lemma first_unserved_None {A} (f : A -> option unserved) l : first_unserved f l = None <-> Forall (fun x => f x = None) l.
Proof. induction l as [|x l IH]; cbn; [by split; [constructor|]|]. rewrite Forall_cons, <- IH. destruct (f x); naive_solver. Qed.

Lemma first_unserved_Some {A} (f : A -> option unserved) l e : first_unserved f l = Some e -> exists x, x ∈ l /\ f x = Some e.
Proof.
  induction l as [|x l IH]; cbn; [done|]. destruct (f x) eqn:E; [intros [= <-]; exists x; split; [left|done]|].
  intros (y & ? & ?)%IH. exists y. split; [by right|done].
Qed.

(** A name the tables mention. *)
Definition mentioned (chains : list (string * list string)) (limits : list (string * Z)) (m : string) : Prop :=
  (exists kv, kv ∈ chains /\ (m = kv.1 \/ m ∈ kv.2)) \/ (exists kv, kv ∈ limits /\ m = kv.1).

Definition name_of (e : unserved) : string := match e with FallbackKey m | FallbackTarget m | ContextLimit m => m end.

Lemma names_None cfgs chains limits :
  validateModelNames cfgs chains limits = None <-> forall m, mentioned chains limits m -> servesModel cfgs m = true.
Proof.
  assert (validateModelNames cfgs chains limits = None <->
    Forall (fun kv => servesModel cfgs kv.1 = true /\ Forall (fun f => servesModel cfgs f = true) kv.2) chains /\
    Forall (fun kv => servesModel cfgs kv.1 = true) limits) as ->.
  { unfold validateModelNames. destruct (first_unserved (check_chain cfgs) chains) as [e|] eqn:E.
    - split; [done|]. intros [H _]. apply first_unserved_Some in E as (kv & Hin & Hc). rewrite Forall_forall in H.
      destruct (H _ Hin) as [Hk Hf]. unfold check_chain in Hc. rewrite (proj2 (check_None _ _ _) Hk) in Hc.
      apply first_unserved_Some in Hc as (f & Hf' & Hc). rewrite Forall_forall in Hf. by rewrite (proj2 (check_None _ _ _) (Hf _ Hf')) in Hc.
    - rewrite first_unserved_None. setoid_rewrite check_None. apply first_unserved_None in E.
      split; [|tauto]. intros Hl. split; [|done]. eapply Forall_impl; [exact E|]. intros [k fs]. unfold check_chain. cbn.
      destruct (check cfgs k _) eqn:Ek; [done|]. apply check_None in Ek. rewrite first_unserved_None.
      intros Hfs. split; [done|]. eapply Forall_impl; [exact Hfs|]. intros f. apply check_None. }
  rewrite !Forall_forall. unfold mentioned. split.
  - intros [H1 H2] m [(kv & Hin & [-> |Hf])|(kv & Hin & ->)]; [by apply H1| |by apply H2].
    destruct (H1 _ Hin) as [_ H3]. rewrite Forall_forall in H3. auto.
  - intros H. split; intros kv Hin; [split|apply H; right; eauto].
    + apply H. left. eauto.
    + apply Forall_forall. intros f Hf. apply H. left. eauto.
Qed.

Lemma names_Some cfgs chains limits e :
  validateModelNames cfgs chains limits = Some e -> mentioned chains limits (name_of e) /\ servesModel cfgs (name_of e) = false.
Proof.
  assert (forall m x y, check cfgs m x = Some y -> y = x /\ servesModel cfgs m = false) as Hc
    by (unfold check; intros m x y; destruct (servesModel cfgs m); naive_solver).
  unfold validateModelNames, mentioned. destruct (first_unserved (check_chain cfgs) chains) as [e'|] eqn:E.
  - intros [= <-]. apply first_unserved_Some in E as ([k fs] & Hin & E). unfold check_chain in E. cbn [fst snd] in E.
    destruct (check cfgs k _) eqn:Ek.
    + injection E as ->. apply Hc in Ek as [-> ?]. split; [|done]. left. exists (k, fs). cbn. auto.
    + apply first_unserved_Some in E as (f & Hf & [-> ?]%Hc). split; [|done]. left. exists (k, fs). cbn. auto.
  - intros (kv & Hin & [-> ?]%Hc)%first_unserved_Some. split; [|done]. right. by exists kv.
Qed.
End NameFacts.

Module PlaneFacts.
Import Config.Schema ConfigSpec Names Plane NameFacts.

(** *** The bindings *)
Lemma adapter_ok (c : Upstream) a : adapter_of c = Some a -> OpenAI.id a = ID c /\ OpenAI.ring a = Ring.newCredentialRing (Credentials c).
Proof. unfold adapter_of, OpenAI.NewOpenAI. destruct (String.eqb (ID c) ""), (String.eqb (BaseURL c) ""); naive_solver. Qed.

Lemma buildBindings_spec cfgs : forall bindings rings, buildBindings cfgs = Some (bindings, rings) ->
  Forall2 (fun c b => Priority.Models b = clientModels (Models c) /\ exists a, adapter_of c = Some a /\ Priority.Upstream b = Some a) cfgs bindings /\
  (forall id, is_Some (rings !! id) <-> id ∈ upstreamIDs cfgs) /\
  (forall id a, rings !! id = Some a -> exists c, c ∈ cfgs /\ ID c = id /\ adapter_of c = Some a).
Proof.
  induction cfgs as [|c cfgs IH]; cbn [buildBindings].
  { intros ? ? [= <- <-]. split; [constructor|]. split; [intros id; rewrite lookup_empty; split; [by intros []|set_solver]|by intros ? ? ?%lookup_empty_Some]. }
  intros bindings rings. destruct (adapter_of c) as [a|] eqn:Ha; [|done]. destruct (buildBindings cfgs) as [[bs rs]|]; [|done].
  destruct (IH _ _ eq_refl) as (H1 & H2 & H3). intros [= <- <-]. split; [|split].
  - constructor; [|done]. cbn. split; [done|]. eauto.
  - intros id. unfold upstreamIDs. cbn [map]. rewrite elem_of_cons. fold (upstreamIDs cfgs). rewrite <- H2.
    destruct (rs !! ID c) as [x|] eqn:Hx; [naive_solver|]. destruct (decide (id = ID c)) as [->|Hne].
    + rewrite lookup_insert_eq. naive_solver.
    + rewrite lookup_insert_ne by done. naive_solver.
  - intros id x. destruct (rs !! ID c) eqn:Hx; [intros (c' & ? & ?)%H3; exists c'; split; [by right|done]|].
    intros [[<- <-]|[_ H]]%lookup_insert_Some; [exists c; split; [left|done]|].
    destruct (H3 _ _ H) as (c' & ? & ?). exists c'. split; [by right|done].
Qed.

Lemma buildBindings_total cfgs : Forall (fun c => is_Some (adapter_of c)) cfgs -> is_Some (buildBindings cfgs).
Proof.
  induction 1 as [|c cfgs [a Ha] _ IH]; cbn [buildBindings]; [eauto|]. rewrite Ha. destruct IH as [[bs rs] ->]. eauto.
Qed.

Lemma entries_spec {U} (bs : list (@Priority.Binding U)) : forall es, Priority.NewPriority bs = Some es ->
  Forall2 (fun b e => Priority.Upstream b = Some (Priority.upstream e) /\ Priority.models e = list_to_set (Priority.Models b)) bs es.
Proof.
  induction bs as [|[ms [u|]] bs IH]; intros es; cbn [Priority.NewPriority Priority.Upstream Priority.Models]; [by intros [= <-]| |done].
  destruct ms as [|m ms]; [done|]. destruct (Priority.NewPriority bs) as [es'|]; [|done]. intros [= <-]. constructor; auto.
Qed.

Lemma entries_total {U} (bs : list (@Priority.Binding U)) :
  Forall (fun b => is_Some (Priority.Upstream b) /\ Priority.Models b <> []) bs -> is_Some (Priority.NewPriority bs).
Proof.
  induction 1 as [|[ms u] bs [[u' Hu] Hm] _ IH]; cbn [Priority.NewPriority Priority.Upstream Priority.Models] in *; [eauto|].
  subst u. destruct IH as [es ->]. destruct ms; [done|]. eauto.
Qed.

(** What the router serves is what the configuration lists. *)
Lemma entries_serve cfgs bindings rings es m :
  buildBindings cfgs = Some (bindings, rings) -> Priority.NewPriority bindings = Some es ->
  (exists e, e ∈ es /\ Priority.serves m e = true) <-> m ∈ all_names cfgs \/ "*"%string ∈ all_names cfgs.
Proof.
  intros (H1 & _ & _)%buildBindings_spec H2%entries_spec. revert es H2.
  induction H1 as [|c b cfgs bs [Hm (a & Ha & Hu)] _ IH]; intros es H2; inversion H2 as [|? e ? es' [Hu' Hms] H2' E1 E2]; subst.
  { cbn. split; [intros (e & He & _); by apply elem_of_nil in He|set_solver]. }
  specialize (IH _ H2'). assert (Priority.serves m e = true <-> m ∈ clientModels (Models c) \/ "*"%string ∈ clientModels (Models c)) as Hs.
  { unfold Priority.serves. rewrite orb_true_iff, !bool_decide_eq_true, Hms, Hm, !elem_of_list_to_set. done. }
  change (all_names (c :: cfgs)) with (clientModels (Models c) ++ all_names cfgs). rewrite !elem_of_app. split.
  - intros (x & [->|Hx]%elem_of_cons & Hsx); [tauto|]. assert (m ∈ all_names cfgs \/ "*"%string ∈ all_names cfgs) by (apply IH; eauto). tauto.
  - intros H. destruct (decide (Priority.serves m e = true)) as [E|E]; [exists e; split; [left|done]|].
    destruct (proj2 IH) as (x & Hx & Hsx); [tauto|]. exists x. split; [by right|done].
Qed.

Lemma entries_ids cfgs bindings rings es :
  buildBindings cfgs = Some (bindings, rings) -> Priority.NewPriority bindings = Some es ->
  map (fun e => OpenAI.id (Priority.upstream e)) es = upstreamIDs cfgs.
Proof.
  intros (H1 & _ & _)%buildBindings_spec H2%entries_spec. revert es H2.
  induction H1 as [|c b cfgs bs [Hm (a & Ha & Hu)] _ IH]; intros es H2; inversion H2 as [|? e ? es' [Hu' Hms] H2' E1 E2]; subst; [done|].
  cbn. rewrite (IH _ H2'). f_equal. rewrite Hu in Hu'. injection Hu' as <-. by apply adapter_ok in Ha as [-> _].
Qed.

Lemma adapters_dom cfgs bindings rings id :
  buildBindings cfgs = Some (bindings, rings) -> is_Some (adapters_of bindings !! id) <-> id ∈ upstreamIDs cfgs.
Proof.
  intros (H1 & _ & _)%buildBindings_spec. unfold adapters_of.
  assert (forall m : gmap string OpenAI.OpenAI, is_Some (foldl (fun m b => match Priority.Upstream b with Some a => <[OpenAI.id a := a]> m | None => m end) m bindings !! id)
    <-> is_Some (m !! id) \/ id ∈ upstreamIDs cfgs) as Hg; [|rewrite Hg, lookup_empty; split; [intros [[? [=]]|?]; done|by right]].
  induction H1 as [|c b cfgs bs [Hm (a & Ha & Hu)] _ IH]; intros m; cbn [foldl]; [set_solver|].
  rewrite IH, Hu. apply adapter_ok in Ha as [Hid _]. rewrite Hid. unfold upstreamIDs. cbn [map]. rewrite elem_of_cons.
  destruct (decide (id = ID c)) as [->|Hne]; [rewrite lookup_insert_eq; naive_solver|]. rewrite lookup_insert_ne by done. naive_solver.
Qed.

Lemma set_model_accepted m enabled (s : Switch.Switch) :
  (Switch.SetModel m enabled s).1 = None <-> m ∈ Switch.knownModels s \/ Switch.wildcardModels s = true.
Proof.
  unfold Switch.SetModel. case_bool_decide; destruct (Switch.wildcardModels s); cbn; try tauto.
  split; [done|]. intros [?|?]; done.
Qed.

(** *** A bound model is never unroutable *)
Lemma collect_bound {U B} (uid : U -> string) `{!Breaker B} (p : @Priority.Priority U) e m es : forall br cs n,
  let bound := (Priority.collect uid p e m es br cs n).1.2 in
  (n <= bound)%nat /\ ((exists x, x ∈ es /\ Priority.serves m x = true) -> (n < bound)%nat).
Proof.
  induction es as [|x es IH]; intros br cs n; cbn [Priority.collect]; [split; [done|]; intros (x & Hx & _); by apply elem_of_nil in Hx|].
  destruct (Priority.serves m x) eqn:Hs; cbn [negb].
  - assert (forall br cs, (n < (Priority.collect uid p e m es br cs (S n)).1.2)%nat) as H
      by (intros br' cs'; destruct (IH br' cs' (S n)); lia).
    assert (forall r : list U * nat * option B, (n < r.1.2)%nat -> (n <= r.1.2)%nat /\
      ((exists x0, x0 ∈ x :: es /\ Priority.serves m x0 = true) -> (n < r.1.2)%nat)) as Hr by (intros r ?; split; [lia|done]).
    apply Hr. repeat case_match; apply H.
  - destruct (IH br cs n) as [H1 H2]. split; [done|]. intros (y & [->|Hy]%elem_of_cons & Hsy); [congruence|]. eauto.
Qed.

Lemma bound_routable {U B} (uid : U -> string) `{!Breaker B} (p : @Priority.Priority U) e pick m br m' :
  (exists x, x ∈ Priority.entries p /\ Priority.serves m x = true) -> (Priority.Candidates uid p e pick m br).1 <> inr (Priority.NoUpstream m').
Proof.
  intros Hx. unfold Priority.Candidates. destruct (match Priority.control p with Some s => _ | None => _ end); [done|].
  pose proof (collect_bound uid p e m (Priority.entries p) br [] 0) as [_ Hb]. specialize (Hb Hx).
  destruct (Priority.collect _ _ _ _ _ _ _ _) as [[cs bound] br']. cbn [fst snd] in Hb.
  destruct cs; [destruct (Nat.ltb_spec 0 bound); [done|lia]|]. by repeat case_match.
Qed.

(** *** A valid configuration *)
Lemma valid_adapters ParseURL us : upstreams_ok ParseURL us -> Forall (fun c => is_Some (adapter_of c)) us.
Proof.
  intros [H _]. eapply Forall_impl; [exact H|]. intros c (H1 & H2 & _). unfold adapter_of, OpenAI.NewOpenAI.
  apply String.eqb_neq in H1, H2. rewrite H1, H2. eauto.
Qed.

Lemma valid_assembles ParseURL cfg : valid ParseURL cfg ->
  exists bindings rs es strategy b, buildBindings (Upstreams cfg) = Some (bindings, rs) /\
    Priority.ParseStrategy (rStrategy (cRouting cfg)) = Some strategy /\ Priority.NewPriority bindings = Some es /\ retryBudget (cRetry cfg) = Some b.
Proof.
  intros Hv. destruct (buildBindings_total (Upstreams cfg)) as [[bindings rs] Hb]; [by eapply valid_adapters, valid_upstreams|].
  assert (exists strategy, Priority.ParseStrategy (rStrategy (cRouting cfg)) = Some strategy) as [strategy Hs].
  { pose proof (valid_strategy _ _ Hv) as H. rewrite !elem_of_cons in H. unfold Priority.ParseStrategy.
    destruct H as [->|[->|[->|H]]]; [by eexists..|by apply elem_of_nil in H]. }
  destruct (entries_total bindings) as [es He].
  { destruct (buildBindings_spec _ _ _ Hb) as (H2 & _). destruct (valid_upstreams _ _ Hv) as [Hu _]. clear Hb. revert Hu.
    induction H2 as [|c bd cfgs bs [Hm (a & _ & Ha)] _ IH]; [constructor|]. intros [(_ & _ & _ & _ & Hne & _) ?]%Forall_cons.
    constructor; [|by apply IH]. rewrite Ha, Hm. split; [by eexists|]. unfold clientModels. by destruct (Models c). }
  assert (exists b, retryBudget (cRetry cfg) = Some b) as [b Hbu].
  { unfold retryBudget, Budget.NewShareBudget. destruct (valid_retry _ _ Hv) as (_ & _ & H1 & H2). case_match eqn:E; [|eauto].
    apply Z.ltb_lt in E. specialize (H2 E). cbn [negb]. destruct (Z.leb_spec (BudgetPercent (cRetry cfg)) 0); [lia|].
    destruct (Z.ltb_spec 100 (BudgetPercent (cRetry cfg))); [lia|]. destruct (Z.ltb_spec (BudgetMinInFlight (cRetry cfg)) 1); [lia|]. eauto. }
  exists bindings, rs, es, strategy, b. done.
Qed.

Lemma same_id (us : list Upstream) c c' : NoDup (map ID us) -> c ∈ us -> c' ∈ us -> ID c = ID c' -> c = c'.
Proof.
  induction us as [|x us IH]; cbn; [set_solver|]. intros [Hx Hnd]%NoDup_cons [->|Hc]%elem_of_cons [->|Hc']%elem_of_cons E; auto; destruct Hx.
  - rewrite E. apply list_elem_of_In, in_map. by apply list_elem_of_In.
  - rewrite <- E. apply list_elem_of_In, in_map. by apply list_elem_of_In.
Qed.

Lemma rings_configured ParseURL us bindings rs :
  upstreams_ok ParseURL us -> buildBindings us = Some (bindings, rs) ->
  forall c, c ∈ us -> exists a, rs !! ID c = Some a /\ OpenAI.ring a = Ring.newCredentialRing (Credentials c).
Proof.
  intros [_ Hnd] (_ & Hd & Hs)%buildBindings_spec c Hc. destruct (proj2 (Hd (ID c))) as [a Ha].
  { unfold upstreamIDs. apply list_elem_of_In, in_map. by apply list_elem_of_In. }
  exists a. split; [done|]. destruct (Hs _ _ Ha) as (c' & Hc' & E & Had). rewrite (same_id us c c') by auto. by apply adapter_ok in Had as [_ ->].
Qed.

Lemma probes_spec ParseURL us (adapters : gmap string OpenAI.OpenAI) :
  upstreams_ok ParseURL us -> (forall id, is_Some (adapters !! id) <-> id ∈ upstreamIDs us) ->
  forall c, c ∈ us -> ID c ∈ probes_of us adapters <-> ProbeURL c <> "".
Proof.
  intros [_ Hnd] Hd c Hc. unfold probes_of. rewrite elem_of_list_to_set, list_elem_of_In, in_map_iff. setoid_rewrite <- list_elem_of_In.
  setoid_rewrite list_elem_of_filter. split.
  - intros (c' & E & [Hp _] & Hc'). by rewrite (same_id us c c') by auto.
  - intros Hp. exists c. split; [done|]. split; [|done]. split; [done|]. apply Hd. unfold upstreamIDs. apply list_elem_of_In, in_map. by apply list_elem_of_In.
Qed.
End PlaneFacts.

Module PlaneProps.
Import Config.Schema ConfigSpec Names Plane NameFacts PlaneFacts.
Section plane.
Context {T : Type} (transcoder_of : string -> option T).
Variables (ranged_chains : gmap string (list string) -> list (string * list string)) (ranged_limits : gmap string Z -> list (string * Z)).
Hypothesis chains_ranged : forall m, ranged_chains m ≡ₚ map_to_list m.
Hypothesis limits_ranged : forall m, ranged_limits m ≡ₚ map_to_list m.
Abbreviation assemble := (assembleRoutingPlane transcoder_of ranged_chains ranged_limits).

(** A name of the fallback table or of the ceilings. *)
Definition named (cfg : Config) (m : string) : Prop :=
  (exists k fs, Fallbacks cfg !! k = Some fs /\ (m = k \/ m ∈ fs)) \/ is_Some (ContextLimits cfg !! m).

Lemma mentioned_named cfg m : mentioned (ranged_chains (Fallbacks cfg)) (ranged_limits (ContextLimits cfg)) m <-> named cfg m.
Proof.
  unfold mentioned, named, is_Some. setoid_rewrite chains_ranged. setoid_rewrite limits_ranged. split.
  - intros [([k fs] & Hin & H)|([k l] & Hin & ->)]; apply elem_of_map_to_list in Hin; [left|right]; eauto.
  - intros [(k & fs & Hk & H)|[l Hl]]; [left; exists (k, fs)|right; exists (m, l)]; by rewrite elem_of_map_to_list.
Qed.

(** What an assembled plane is made of. *)
Lemma assemble_inl cfg plane : assemble cfg = inl plane ->
  exists bindings es, buildBindings (Upstreams cfg) = Some (bindings, rings plane) /\ Priority.NewPriority bindings = Some es /\
    validateModelNames (Upstreams cfg) (ranged_chains (Fallbacks cfg)) (ranged_limits (ContextLimits cfg)) = None /\
    routeSwitch plane = Switch.NewSwitch (knownModels (Upstreams cfg)) (upstreamIDs (Upstreams cfg)) (wildcardServed (Upstreams cfg)) /\
    adapters plane = adapters_of bindings /\ probes plane = probes_of (Upstreams cfg) (adapters plane) /\
    map fst (endpoints plane) = formats /\
    forall f i, (f, i) ∈ endpoints plane -> Inference.format i = f /\ Priority.entries (Inference.priority i) = es /\
      Priority.control (Inference.priority i) = Some (routeSwitch plane) /\ Inference.fallbacks i = Fallbacks cfg.
Proof.
  unfold assembleRoutingPlane. destruct (buildBindings (Upstreams cfg)) as [[bindings rs]|] eqn:Hb; [|done].
  destruct (Priority.ParseStrategy _) as [strategy|]; [|done]. destruct (validateModelNames _ _ _) eqn:Hv; [done|].
  destruct (Priority.NewPriority bindings) as [es|] eqn:He; [|done]. destruct (retryBudget (cRetry cfg)); [|done].
  intros [= <-]. exists bindings, es. cbn [rings routeSwitch adapters probes endpoints]. split_and!; try done.
  intros f i Hin. repeat (apply elem_of_cons in Hin as [[= -> ->]|Hin]; [done|]). by apply elem_of_nil in Hin.
Qed.

(** Every part of the gateway agrees on which models are served.  For a
    requestable name the startup check of the fallback and ceiling tables
    says served exactly when the router has an upstream for it, when the
    operator may switch it, and when discovery lists it or lists the
    wildcard; the tables of a gateway that started name served models only,
    so no request is ever sent on to a name the router does not know. *)
Theorem names_agree cfg plane f i :
  assemble cfg = inl plane -> (f, i) ∈ endpoints plane ->
  (forall m, m <> "*" ->
    (servesModel (Upstreams cfg) m = true <-> exists e, e ∈ Priority.entries (Inference.priority i) /\ Priority.serves m e = true) /\
    (servesModel (Upstreams cfg) m = true <-> forall enabled, (Switch.SetModel m enabled (routeSwitch plane)).1 = None) /\
    (servesModel (Upstreams cfg) m = true <-> m ∈ discoverableModels (Upstreams cfg) \/ "*"%string ∈ discoverableModels (Upstreams cfg))) /\
  (forall m, named cfg m -> servesModel (Upstreams cfg) m = true /\
    forall {B} `{!Breaker B} (uid : OpenAI.OpenAI -> string) control strategy tracker e pick br m',
      (Priority.Candidates uid (Priority.mkPriority (Priority.entries (Inference.priority i)) control strategy tracker) e pick m br).1
      <> inr (Priority.NoUpstream m')).
Proof.
  intros Hp Hi. destruct (assemble_inl cfg plane Hp) as (bindings & es & Hb & He & Hv & Hsw & _ & _ & _ & Hend).
  destruct (Hend f i Hi) as (_ & Hes & _). rewrite Hes.
  pose proof (fun m => entries_serve _ _ _ _ m Hb He) as Hserve. pose proof (servesModel_spec (Upstreams cfg)) as Hs. split.
  - intros m Hm. rewrite Hs, Hserve. split; [tauto|]. split.
    + assert (forall P Q : Prop, (Q <-> P) -> (P <-> (bool -> Q))) as Hall by (intros P Q H; split; [intros; tauto|intros Hq; specialize (Hq true); tauto]).
      rewrite (forall_proper _ _ (fun b => set_model_accepted m b (routeSwitch plane))). apply Hall. rewrite Hsw. cbn [Switch.knownModels Switch.wildcardModels Switch.NewSwitch].
      rewrite elem_of_list_to_set, knownModels_spec, wildcardServed_spec. tauto.
    + unfold discoverableModels. rewrite !elem_of_app, !knownModels_spec. pose proof (wildcardServed_spec (Upstreams cfg)) as Hw.
      destruct (wildcardServed (Upstreams cfg)); [rewrite !list_elem_of_singleton; tauto|].
      assert ("*"%string ∉ all_names (Upstreams cfg)) by (by intros ?%Hw). pose proof (not_elem_of_nil m). pose proof (not_elem_of_nil "*"%string). tauto.
  - intros m Hm. assert (servesModel (Upstreams cfg) m = true) as Hsm by (eapply names_None; [exact Hv|by apply mentioned_named]).
    split; [done|]. intros. apply bound_routable. cbn [Priority.entries]. apply Hserve. by apply Hs in Hsm as [_ ?].
Qed.

(** C24. A configuration the loader accepted always assembles, unless its
    tables name a model no upstream serves, and then that name is reported.
    The plane has one endpoint per client format; the switch, the adapters
    and the credential rings cover exactly the configured upstreams, each
    ring holds the configured credentials, all alive, and the upstreams that
    can be probed are those with a probe URL. *)
Theorem configuration_assembles ParseURL cfg :
  valid ParseURL cfg ->
  match assemble cfg with
  | inl plane =>
      (forall m, named cfg m -> servesModel (Upstreams cfg) m = true) /\
      map fst (endpoints plane) = formats /\
      Switch.knownUpstreams (routeSwitch plane) = list_to_set (upstreamIDs (Upstreams cfg)) /\
      dom (adapters plane) = list_to_set (upstreamIDs (Upstreams cfg)) /\ dom (rings plane) = list_to_set (upstreamIDs (Upstreams cfg)) /\
      (forall c, c ∈ Upstreams cfg -> exists a, rings plane !! ID c = Some a /\ OpenAI.ring a = Ring.newCredentialRing (Credentials c)) /\
      (forall c, c ∈ Upstreams cfg -> ID c ∈ probes plane <-> ProbeURL c <> "")
  | inr (Unserved e) => named cfg (name_of e) /\ servesModel (Upstreams cfg) (name_of e) = false
  | inr _ => False
  end.
Proof.
  intros Hv. destruct (assemble cfg) as [plane|e] eqn:Ha.
  - destruct (assemble_inl cfg plane Ha) as (bindings & es & Hb & He & Hn & Hsw & Had & Hpr & Hf & _).
    pose proof (fun id => adapters_dom _ _ _ id Hb) as Hdom. destruct (buildBindings_spec _ _ _ Hb) as (_ & Hrd & Hrs).
    split; [intros m Hm; eapply names_None; [exact Hn|by apply mentioned_named]|]. split; [done|]. split; [by rewrite Hsw|].
    split; [apply set_eq; intros id; rewrite elem_of_dom, Had, Hdom, elem_of_list_to_set; done|].
    split; [apply set_eq; intros id; rewrite elem_of_dom, Hrd, elem_of_list_to_set; done|]. split.
    + exact (rings_configured ParseURL _ _ _ (valid_upstreams _ _ Hv) Hb).
    + intros c Hc. rewrite Hpr, Had. exact (probes_spec ParseURL _ _ (valid_upstreams _ _ Hv) Hdom c Hc).
  - destruct (valid_assembles ParseURL cfg Hv) as (bindings & rs & es & strategy & b & Hb & Hstr & He & Hbu).
    unfold assembleRoutingPlane in Ha. rewrite Hb, Hstr, He, Hbu in Ha. destruct (validateModelNames _ _ _) as [u|] eqn:Hu; [|done].
    injection Ha as <-. apply names_Some in Hu as [Hm Hs]. split; [by apply mentioned_named|done].
Qed.
End plane.
End PlaneProps.

(** ** Seeding *)
Module SeedingProps.
Import Limits Static Seeding.

(** *** The two ledgers *)
#[export] Instance memory_seeder : Seeder Ledger.Memory := {
  EnsureBalance t n l := let (b, l) := Ledger.EnsureBalance t n l in (inl b, l)
}.
#[export] Instance memory_seeder_laws : SeederLaws Ledger.Memory.
Proof.
  refine {| record := Z; opening := id; stored l t := Ledger.balances l !! t |}.
  - intros t n l. cbn. unfold Ledger.EnsureBalance. destruct (Ledger.balances l !! t) as [v|] eqn:E; [by left|right]. split; [done|].
    intros u. cbn. rewrite lookup_insert. case_decide; [subst; by rewrite decide_True|by rewrite decide_False].
  - intros t n l b. cbn. unfold Ledger.EnsureBalance. destruct (Ledger.balances l !! t) as [v|] eqn:E; cbn; [by rewrite E|].
    rewrite lookup_insert_eq. eauto.
Defined.

Section redis.
Context (exec : Server.command -> Server.db -> Server.reply * Server.db) {Doc : Server.Documented exec} (p : string).

#[export] Instance redis_seeder : Seeder Link.conn := {
  EnsureBalance t n c := match RedisLedger.RedisLedger.EnsureBalance exec p t n c with
                         | (inl b, c) => (inl b, c) | (inr _, c) => (inr "unreachable"%string, c) end
}.

Lemma setnx_stored (t : string) (n : Z) (d : Server.db) : let (r, d') := exec (Server.SETNX (RedisLedger.RedisLedger.balanceKey p t) (pretty n)) d in
  (forall e, r <> Server.Err e) /\ is_Some (Server.keys d' !! RedisLedger.RedisLedger.balanceKey p t) /\
  (d' = d \/ Server.keys d !! RedisLedger.RedisLedger.balanceKey p t = None /\
     Server.keys d' = <[RedisLedger.RedisLedger.balanceKey p t := Server.VString (pretty n)]> (Server.keys d)).
Proof.
  destruct (Server.keys d !! RedisLedger.RedisLedger.balanceKey p t) as [v|] eqn:E.
  - rewrite (Server.doc_setnx_some _ _ v d E). split; [done|]. split; [by rewrite E|by left].
  - rewrite (Server.doc_setnx_none _ _ d E). split; [done|]. split; [cbn; rewrite lookup_insert_eq; by eexists|by right].
Qed.

#[export] Instance redis_seeder_laws : SeederLaws Link.conn.
Proof.
  refine {| record := Server.value; opening n := Server.VString (pretty n);
            stored c t := Server.keys (Link.srv c) !! RedisLedger.RedisLedger.balanceKey p t |}.
  - intros t n c. cbn. unfold RedisLedger.RedisLedger.EnsureBalance, Link.exchange, RedisLedger.RedisLedger.command_of, Lua.call.
    pose proof (setnx_stored t n (Link.srv c)) as H. destruct (Link.next c) as [[] ls]; cbn [snd fst]; try (left; done);
      destruct (exec _ (Link.srv c)) as [r d']; destruct H as (Hr & _ & [-> |[Hn Hd]]);
      destruct r; try (by destruct (Hr _ eq_refl)); cbn; try (left; done); right; (split; [done|]); intros u; rewrite Hd; case_decide as Eu;
      try (by subst; rewrite lookup_insert_eq);
      (rewrite lookup_insert_ne; [done|]; intros Ek; apply RedisFacts.string_app_inj_l, RedisFacts.string_app_inj_l in Ek; congruence).
  - intros t n c b. cbn. unfold RedisLedger.RedisLedger.EnsureBalance, Link.exchange, RedisLedger.RedisLedger.command_of, Lua.call.
    pose proof (setnx_stored t n (Link.srv c)) as H. destruct (Link.next c) as [[] ls]; cbn [snd fst]; try done.
    destruct (exec _ (Link.srv c)) as [r d']. destruct H as (Hr & Hs & _). destruct r; try (by destruct (Hr _ eq_refl)); cbn; done.
Defined.
End redis.

Section seed.
Context {L : Type} `{!Seeder L} `{!SeederLaws L}.
Variable ranged : string -> gmap string Tenant -> list (string * Tenant).
Hypothesis all_ranged : forall id m, ranged id m ≡ₚ map_to_list m.
Variable s : Static.

(** The budgets of a tenant: one per identity it has. *)
Definition budget_of (id : string) (n : Z) : Prop := exists k tn, byKey s !! k = Some tn /\ tID tn = id /\ n = MonthlyQuota (tTier tn).

Lemma TenantByID_Some id tn : TenantByID (ranged id (byKey s)) id = Some tn -> budget_of id (MonthlyQuota (tTier tn)).
Proof.
  unfold TenantByID. intros ([i [k t]] & Hf & ->)%fmap_Some. apply list_find_Some in Hf as (Hl & Hid & _). cbn in *.
  apply list_elem_of_lookup_2 in Hl. rewrite all_ranged in Hl. apply elem_of_map_to_list in Hl. by exists k, t.
Qed.

Lemma Tenants_spec id : id ∈ Tenants s <-> exists k tn, byKey s !! k = Some tn /\ tID tn = id.
Proof.
  unfold Tenants. rewrite merge_sort_Permutation, elem_of_elements, elem_of_list_to_set, list_elem_of_In, in_map_iff.
  setoid_rewrite <- list_elem_of_In. split.
  - intros ([k tn] & <- & H%elem_of_map_to_list). by exists k, tn.
  - intros (k & tn & Hk & <-). exists (k, tn). split; [done|]. by apply elem_of_map_to_list.
Qed.

Lemma TenantByID_total id : id ∈ Tenants s -> is_Some (TenantByID (ranged id (byKey s)) id).
Proof.
  intros (k & tn & Hk & Hid)%Tenants_spec. unfold TenantByID. apply fmap_is_Some.
  destruct (list_find _ _) as [r|] eqn:E; [eauto|]. apply list_find_None in E. rewrite Forall_forall in E.
  exfalso. apply (E (k, tn)); [|done]. rewrite all_ranged. by apply elem_of_map_to_list.
Qed.

Lemma seed_loop_spec ids : forall l, Forall (fun id => id ∈ Tenants s) ids ->
  let r := seed_loop ranged s ids l in
  (forall u, stored r.2 u = stored l u \/ stored l u = None /\ u ∈ ids /\ exists n, stored r.2 u = Some (opening n) /\ budget_of u n) /\
  map fst r.1 = ids /\
  (forall u b, (u, inl b) ∈ r.1 -> is_Some (stored r.2 u)).
Proof.
  induction ids as [|id ids IH]; intros l Hids; cbn [seed_loop].
  { split; [by left|]. split; [done|]. intros u b H. by apply elem_of_nil in H. }
  apply Forall_cons in Hids as [Hid Hids]. destruct (TenantByID_total id Hid) as [tn Htn]. rewrite Htn.
  pose proof (TenantByID_Some id tn Htn) as Hbud. set (n := MonthlyQuota (tTier tn)) in *.
  pose proof (ensure_outcome id n l) as Hout. pose proof (ensure_answer id n l) as Hans.
  destruct (EnsureBalance id n l) as [answer l1]. cbn [fst snd] in *.
  destruct (IH l1 Hids) as (I1 & I2 & I3). destruct (seed_loop ranged s ids l1) as [log l2]. cbn [fst snd] in *.
  split; [|split; [cbn; by f_equal|]].
  - intros u. destruct (I1 u) as [E|(E0 & Hin & m & E & Hb)].
    + destruct Hout as [Ho|[Ho1 Ho2]]; [left; by rewrite E, Ho|]. rewrite Ho2 in E. case_decide as Eu; [|by left]. subst u.
      right. split; [done|]. split; [left|]. eauto.
    + assert (stored l u = None) as Hl.
      { destruct Hout as [Ho|[Ho1 Ho2]]; [by rewrite <- Ho|]. rewrite Ho2 in E0. by case_decide; [|]. }
      right. split; [done|]. split; [by right|]. eauto.
  - intros u b [[= -> Hb]|H]%elem_of_cons; [|by eapply I3]. assert (is_Some (stored l1 id)) as [v Hv] by (eapply Hans; by rewrite <- Hb).
    destruct (I1 id) as [->|(E0 & _)]; [by rewrite Hv|congruence].
Qed.
End seed.

(** C25. Seeding never moves an account.  A balance that exists is kept,
    whatever the static tiers say now; one that appears belongs to a tenant
    of the identity set and is the monthly budget of its tier; every tenant
    is asked for once, and each call the ledger answered has left a balance.
    A second start after a complete one changes nothing. *)
Theorem seeding_never_resets {L} `{!Seeder L} `{!SeederLaws L} ranged (s : Static) (l : L) :
  (forall id m, ranged id m ≡ₚ map_to_list m) ->
  let r := seedBalances ranged s l in
  (forall u v, stored l u = Some v -> stored r.2 u = Some v) /\
  (forall u v, stored l u = None -> stored r.2 u = Some v -> exists n, v = opening n /\ budget_of s u n) /\
  map fst r.1 = Tenants s /\
  (forall u b, (u, inl b) ∈ r.1 -> is_Some (stored r.2 u)) /\
  (Forall (fun x => exists b, x.2 = inl b) r.1 -> forall u, stored (seedBalances ranged s r.2).2 u = stored r.2 u).
Proof.
  intros Hr r. assert (Forall (fun id => id ∈ Tenants s) (Tenants s)) as Hall by (by apply Forall_forall).
  destruct (seed_loop_spec ranged Hr s (Tenants s) l Hall) as (H1 & H2 & H3). split; [|split; [|split; [exact H2|split; [exact H3|]]]].
  - intros u v Hv. destruct (H1 u) as [E|(E & _)]; [by rewrite <- Hv|congruence].
  - intros u v Hn Hv. destruct (H1 u) as [E|(_ & _ & n & E & Hb)]; [unfold r, seedBalances in Hv; congruence|].
    exists n. split; [|done]. unfold r, seedBalances in Hv. congruence.
  - intros Hok u. destruct (seed_loop_spec ranged Hr s (Tenants s) r.2 Hall) as (K1 & _). destruct (K1 u) as [E|(E & Hin & _)]; [exact E|].
    exfalso. rewrite <- H2 in Hin. apply list_elem_of_In, in_map_iff in Hin as ([u' a] & E' & Hin). cbn in E'. subst u'.
    apply list_elem_of_In in Hin. rewrite Forall_forall in Hok. destruct (Hok _ Hin) as [b Hb]. cbn in Hb. subst a.
    destruct (H3 u b Hin) as [v Hv]. unfold r, seedBalances in E. congruence.
Qed.
End SeedingProps.

(** ** The HTTP surface *)
Module RootProps.
Import Readiness Root Reply.

Lemma first_error_None {W} (live : list (probe W)) w : first_error live w = None <-> Forall (fun p => p w = None) live.
Proof. induction live as [|p live IH]; cbn; [by split; [constructor|]|]. rewrite Forall_cons, <- IH. destruct (p w); naive_solver. Qed.

Lemma first_error_Some {W} (live : list (probe W)) w e : first_error live w = Some e ->
  exists pre p post, live = pre ++ p :: post /\ Forall (fun q => q w = None) pre /\ p w = Some e.
Proof.
  induction live as [|p live IH]; cbn; [done|]. destruct (p w) as [x|] eqn:Hp; [intros [= <-]; by exists [], p, live|].
  intros (pre & q & post & -> & Hpre & Hq)%IH. exists (p :: pre), q, post. split; [done|]. split; [by constructor|done].
Qed.

Lemma merge_None {W} (probes : list (option (probe W))) w :
  (match mergeReadiness probes with None => None | Some p => p w end) = None <-> forall p, Some p ∈ probes -> p w = None.
Proof.
  assert ((match mergeReadiness probes with None => None | Some p => p w end) = first_error (omap id probes) w) as ->.
  { unfold mergeReadiness. by destruct (omap id probes). }
  rewrite first_error_None, Forall_forall. setoid_rewrite list_elem_of_omap. naive_solver.
Qed.

(** Readiness does not lie and does not leak: /readyz answers 200 exactly
    when every dependency the deployment has answers, 503 otherwise, and the
    body is one of two fixed lines whatever the errors say.  With no
    dependency it is always ready. *)
Theorem readiness_honest {W} (probes : list (option (probe W))) (w : W) :
  let r := makeReadiness (mergeReadiness probes) w in
  (status r = 200 <-> forall p, Some p ∈ probes -> p w = None) /\
  (status r = 200 \/ status r = 503) /\
  body r = (if decide (status r = 200) then body handleLiveness else "not ready" +:+ String (Ascii.ascii_of_nat 10) "") /\
  forall (probes' : list (option (probe W))) (w' : W), status (makeReadiness (mergeReadiness probes') w') = status r -> makeReadiness (mergeReadiness probes') w' = r.
Proof.
  assert (forall (probes : list (option (probe W))) (w : W), makeReadiness (mergeReadiness probes) w =
    match (match mergeReadiness probes with None => None | Some p => p w end) with Some _ => makeReadiness (Some (fun _ : unit => Some ""%string)) tt | None => handleLiveness end) as E.
  { intros ps v. unfold makeReadiness. destruct (mergeReadiness ps) as [p|]; [|done]. by destruct (p v). }
  intros r. unfold r. rewrite <- merge_None. rewrite E.
  set (o := match mergeReadiness probes with None => None | Some p => p w end). split; [by destruct o|]. split; [destruct o; [by right|by left]|].
  split; [by destruct o|]. intros ps v. rewrite E. by destruct (match mergeReadiness ps with None => None | Some p => p v end), o.
Qed.

(** *** The routing table *)
Definition formats : list string := [FormatOpenAIChat; FormatOpenAIResponses; FormatAnthropicMessages].
Definition inference_path (f : string) : string := path (routeOfFormat f).

(** Two patterns no request can match together. *)
Definition apart (p q : pattern) : bool :=
  match subtree p, subtree q with
  | false, false => negb (String.eqb (path p) (path q))
  | true, false => negb (String.prefix (path p) (path q))
  | false, true => negb (String.prefix (path q) (path p))
  | true, true => false
  end.
Lemma apart_sound p q m x : apart p q = true -> takes_path p x && takes_method p m = true -> takes_path q x && takes_method q m = true -> False.
Proof.
  unfold apart, takes_path. rewrite !andb_true_iff. intros Ha [Hp _] [Hq _]. destruct (subtree p), (subtree q); try done;
    apply negb_true_iff in Ha; repeat match goal with H : String.eqb _ _ = true |- _ => apply String.eqb_eq in H end; subst; try congruence.
  apply String.eqb_neq in Ha. congruence.
Qed.

#[local] Instance pattern_eq_dec : EqDecision pattern.
Proof. solve_decision. Defined.
#[local] Instance handler_eq_dec : EqDecision handler.
Proof. solve_decision. Defined.

(** Everything that can be registered. *)
Definition all_routes : list (pattern * handler) := newRootHandler formats true true ["m"].

Lemma registered_routes fs metrics admin models r :
  (forall f, f ∈ fs -> f ∈ formats) -> r ∈ newRootHandler fs metrics admin models -> r ∈ all_routes.
Proof.
  intros Hfs. unfold all_routes, newRootHandler. rewrite !elem_of_app. intros [H|[H|[H|[H|H]]]].
  - by left.
  - right; left. by destruct metrics; [|apply elem_of_nil in H].
  - do 2 right; left. by destruct admin; [|apply elem_of_nil in H].
  - do 3 right; left. by destruct (0 <? length models)%nat; [|apply elem_of_nil in H].
  - do 4 right. apply list_elem_of_In, in_map_iff in H as (f & <- & Hf). apply list_elem_of_In, in_map_iff. exists f. split; [done|].
    apply list_elem_of_In, Hfs. by apply list_elem_of_In.
Qed.

Lemma routes_apart r1 r2 : r1 ∈ all_routes -> r2 ∈ all_routes -> r1 = r2 \/ apart r1.1 r2.1 = true.
Proof.
  assert (forallb (fun r1 => forallb (fun r2 => bool_decide (r1 = r2) || apart r1.1 r2.1) all_routes) all_routes = true) as H by (by vm_compute).
  rewrite forallb_forall in H. intros H1%list_elem_of_In H2%list_elem_of_In. specialize (H _ H1). rewrite forallb_forall in H.
  specialize (H _ H2). apply orb_true_iff in H as [H|H]; [left|by right]. by apply bool_decide_eq_true in H.
Qed.

Lemma routes_unredirected r r' : r ∈ all_routes -> r' ∈ all_routes -> subtree r'.1 = true -> path r'.1 <> path r.1 +:+ "/".
Proof.
  assert (forallb (fun r => forallb (fun r' => negb (subtree r'.1 && String.eqb (path r'.1) (path r.1 +:+ "/"))) all_routes) all_routes = true) as H by (by vm_compute).
  rewrite forallb_forall in H. intros H1%list_elem_of_In H2%list_elem_of_In Hs Hp. specialize (H _ H1). rewrite forallb_forall in H.
  specialize (H _ H2). rewrite Hs, Hp, String.eqb_refl in H. done.
Qed.

Section table.
Variables (fs : list string) (metrics admin : bool) (models : list string).
Hypothesis same_formats : fs ≡ₚ formats.
Abbreviation routes := (newRootHandler fs metrics admin models).

Lemma routes_known r : r ∈ routes -> r ∈ all_routes.
Proof. apply registered_routes. intros f. by rewrite same_formats. Qed.

Lemma dispatch_handled r m x : r ∈ routes -> takes_path r.1 x && takes_method r.1 m = true -> dispatch routes m x = Handled r.2.
Proof.
  intros Hr Ht. unfold dispatch. set (hits := filter _ routes).
  assert (forall r', r' ∈ hits -> r' = r) as Hone.
  { intros r' [Ht' Hr']%list_elem_of_filter. destruct (routes_apart r' r) as [?|Ha]; [by apply routes_known..|done|].
    destruct (apart_sound _ _ m x Ha); done. }
  assert (r ∈ hits) as Hin by (by apply list_elem_of_filter). destruct hits as [|r' l]; [by apply elem_of_nil in Hin|].
  by rewrite (Hone r') by left.
Qed.

Lemma dispatch_missing m x : (forall r, r ∈ routes -> takes_path r.1 x = false) ->
  (forall r, r ∈ routes -> subtree r.1 = true -> path r.1 <> x +:+ "/") -> dispatch routes m x = NotFound.
Proof.
  intros H1 H2. unfold dispatch. destruct (filter _ routes) as [|r l] eqn:E.
  - destruct (existsb _ routes) eqn:Ex.
    { apply existsb_exists in Ex as (r & Hr & [[Hs Hp%String.eqb_eq]%andb_true_iff _]%andb_true_iff). apply list_elem_of_In in Hr. by destruct (H2 r Hr Hs). }
    destruct (existsb (fun r => takes_path r.1 x) routes) eqn:Ey; [|done].
    apply existsb_exists in Ey as (r & Hr & Ht). apply list_elem_of_In in Hr. by rewrite H1 in Ht.
  - assert (r ∈ r :: l) as Hin by left. rewrite <- E in Hin. apply list_elem_of_filter in Hin as [Ht Hr]. by rewrite H1 in Ht.
Qed.

Lemma route_refused r m x : r ∈ routes -> subtree r.1 = false -> path r.1 = x -> takes_method r.1 m = false -> dispatch routes m x = MethodNotAllowed.
Proof.
  intros Hr Hs Hp Hm. unfold dispatch.
  assert (takes_path r.1 x = true) as Ht by (unfold takes_path; rewrite Hs, Hp; apply String.eqb_refl).
  assert (forall r', r' ∈ routes -> takes_path r'.1 x = true -> r' = r) as Hone.
  { intros r' Hr' Ht'. destruct (routes_apart r' r) as [?|Ha]; [by apply routes_known..|done|].
    assert (takes_method (mkPattern None (path r'.1) (subtree r'.1)) "" = true) as Hany by done.
    destruct (apart_sound (mkPattern None (path r'.1) (subtree r'.1)) (mkPattern None (path r.1) (subtree r.1)) "" x Ha);
      unfold takes_path in *; cbn [path subtree]; by rewrite ?Ht, ?Ht'. }
  destruct (filter _ routes) as [|r' l] eqn:E.
  - destruct (existsb _ routes) eqn:Ex.
    { exfalso. apply existsb_exists in Ex as (r' & Hr' & [[Hs' Hp'%String.eqb_eq]%andb_true_iff Hm']%andb_true_iff). apply list_elem_of_In in Hr'.
      apply (routes_unredirected r r'); auto using routes_known. by rewrite Hp. }
    destruct (existsb (fun r => takes_path r.1 x) routes) eqn:Ey; [done|].
    assert (existsb (fun r => takes_path r.1 x) routes = true); [|congruence]. apply existsb_exists. exists r. split; [by apply list_elem_of_In|done].
  - assert (r' ∈ r' :: l) as Hin by left. rewrite <- E in Hin. apply list_elem_of_filter in Hin as [Ht' Hr'].
    apply andb_true_iff in Ht' as [Ht' Hm']. rewrite (Hone r' Hr' Ht') in Hm'. congruence.
Qed.

(** Which handlers are registered. *)
Lemma registered h :
  (exists p, (p, h) ∈ routes) <->
  match h with
  | Liveness | Version | Ready => True
  | Metrics => metrics = true | Admin => admin = true | Models => models <> [] | Inference f => f ∈ formats
  end.
Proof.
  assert (forall (b : bool) (r y : pattern * handler), r ∈ (if b then [y] else []) <-> b = true /\ r = y) as Hif.
  { intros [] r y; rewrite ?list_elem_of_singleton; [tauto|]. split; [by intros ?%elem_of_nil|by intros [? _]]. }
  assert (forall r, r ∈ map (fun f => (routeOfFormat f, Inference f)) fs <-> exists f, r = (routeOfFormat f, Inference f) /\ f ∈ formats) as Hm.
  { intros r. rewrite list_elem_of_In, in_map_iff. setoid_rewrite <- list_elem_of_In. setoid_rewrite <- same_formats. naive_solver. }
  assert ((0 <? length models)%nat = true <-> models <> []) as Hmd by (destruct models; naive_solver).
  assert (forall r, r ∈ routes <-> r ∈ [(mkPattern (Some "GET") "/healthz" false, Liveness); (mkPattern (Some "GET") "/version" false, Version);
     (mkPattern (Some "GET") "/readyz" false, Ready)] \/ (metrics = true /\ r = (mkPattern (Some "GET") "/metrics" false, Metrics)) \/
     (admin = true /\ r = (mkPattern None "/admin/" true, Admin)) \/ (models <> [] /\ r = (mkPattern (Some "GET") "/v1/models" false, Models)) \/
     exists f, r = (routeOfFormat f, Inference f) /\ f ∈ formats) as Hr.
  { intros r. unfold newRootHandler. rewrite !elem_of_app, !Hif, Hm, Hmd. done. }
  setoid_rewrite Hr. clear Hr Hif Hm Hmd. repeat setoid_rewrite elem_of_cons. setoid_rewrite elem_of_nil. split.
  - intros [p H]. decompose [or and ex] H; simplify_eq; try done; by repeat constructor.
  - destruct h as [| | | | | |f]; intros H; eexists; try tauto. right; right; right; right. exists f. split; [done|]. by repeat (apply elem_of_cons in H as [->|H]; [tauto|]); apply elem_of_nil in H.
Qed.

Lemma dispatch_absent h m x : (forall r, r ∈ all_routes -> takes_path r.1 x = true -> r.2 = h) ->
  (forall r, r ∈ all_routes -> subtree r.1 = true -> path r.1 <> x +:+ "/") -> ~ (exists p, (p, h) ∈ routes) -> dispatch routes m x = NotFound.
Proof.
  intros H1 H2 H3. apply dispatch_missing; [|by intros r Hr; apply H2, routes_known].
  intros r Hr. destruct (takes_path r.1 x) eqn:E; [|done]. destruct H3. specialize (H1 r (routes_known r Hr) E). destruct r as [p h']. cbn in H1. subst. by exists p.
Qed.

(** The one path of a handler. *)
Lemma known_pattern p h : (p, h) ∈ all_routes -> p = match h with
  | Liveness => mkPattern (Some "GET") "/healthz" false | Version => mkPattern (Some "GET") "/version" false
  | Ready => mkPattern (Some "GET") "/readyz" false | Metrics => mkPattern (Some "GET") "/metrics" false
  | Admin => mkPattern None "/admin/" true | Models => mkPattern (Some "GET") "/v1/models" false | Inference f => routeOfFormat f end.
Proof.
  unfold all_routes, newRootHandler. intros H. repeat (apply elem_of_cons in H as [[= -> ->]|H]; [done|]). by apply elem_of_nil in H.
Qed.

Lemma handled h m x : (exists p, (p, h) ∈ routes) ->
  (forall p, (p, h) ∈ all_routes -> takes_path p x && takes_method p m = true) -> dispatch routes m x = Handled h.
Proof. intros [p Hp] H. apply (dispatch_handled (p, h)); [done|]. apply (H p). by apply (routes_known (p, h)). Qed.
End table.

Lemma format_pattern f : method (routeOfFormat f) = Some "POST" /\ subtree (routeOfFormat f) = false.
Proof. unfold routeOfFormat. by repeat case_match. Qed.

Ltac each_route H := repeat (apply elem_of_cons in H as [->|H]; [|]); [..|by apply elem_of_nil in H].

(** The routing table means one thing.  Whatever order the formats are
    registered in, no two routes compete for a request: each client format
    has its own path, which takes POST and refuses every other method; the
    admin surface, where there is one, sees every method on every path below
    /admin/, so its own guards decide; the probes answer GET; the discovery
    and metrics routes exist exactly when there is something to serve; and a
    path nobody registered is not found. *)
Theorem routes_served fs metrics admin models m x :
  fs ≡ₚ formats ->
  let serve := dispatch (newRootHandler fs metrics admin models) in
  (forall f, f ∈ formats -> serve "POST" (inference_path f) = Handled (Inference f) /\
     (m <> "POST" -> serve m (inference_path f) = MethodNotAllowed)) /\
  (String.prefix "/admin/" x = true -> serve m x = if admin then Handled Admin else NotFound) /\
  (serve "GET" "/readyz" = Handled Ready /\ serve "GET" "/healthz" = Handled Liveness /\ serve "GET" "/version" = Handled Version) /\
  serve "GET" "/metrics" = (if metrics then Handled Metrics else NotFound) /\
  serve "GET" "/v1/models" = (match models with [] => NotFound | _ => Handled Models end) /\
  (String.prefix "/admin/" x = false -> x <> "/admin" -> x ∉ map (fun r => path r.1) all_routes -> serve m x = NotFound).
Proof.
  intros Hfs serve.
  assert (forall h m x, (exists p, (p, h) ∈ newRootHandler fs metrics admin models) ->
    (forall p, (p, h) ∈ all_routes -> takes_path p x && takes_method p m = true) -> serve m x = Handled h) as Hd
    by (intros; by apply handled).
  pose proof (registered fs metrics admin models Hfs) as Hreg. split; [|split; [|split; [|split; [|split]]]].
  - intros f Hf. split; [apply Hd; [by apply Hreg|]; intros p ->%known_pattern; repeat (apply elem_of_cons in Hf as [->|Hf]; [by vm_compute|]); by apply elem_of_nil in Hf|].
    intros Hm. destruct (proj2 (Hreg (Inference f)) Hf) as [p Hp]. pose proof (known_pattern _ _ (routes_known _ _ _ _ Hfs _ Hp)) as ->.
    destruct (format_pattern f) as [Hme Hs]. apply (route_refused _ _ _ _ Hfs (routeOfFormat f, Inference f)); [done..|].
    unfold takes_method. cbn [fst]. rewrite Hme, (proj2 (String.eqb_neq _ _) (not_eq_sym Hm)). done.
  - intros Hx. destruct admin.
    + apply Hd; [by apply Hreg|]. intros p ->%known_pattern. unfold takes_path. cbn [subtree path takes_method method]. by rewrite Hx.
    + apply (dispatch_absent _ _ _ _ Hfs Admin); [| |by rewrite Hreg].
      * intros r Hr; each_route Hr; intros E; try done; apply String.eqb_eq in E; by subst x.
      * intros r Hr; each_route Hr; try done. intros _ E. change "/admin/" with ("/admin" +:+ "/") in E. apply string_app_inj_r in E. by subst x.
  - split; [|split]; (apply Hd; [by apply Hreg|intros p ->%known_pattern; by vm_compute]).
  - destruct metrics; [apply Hd; [by apply Hreg|intros p ->%known_pattern; by vm_compute]|].
    apply (dispatch_absent _ _ _ _ Hfs Metrics); [intros r Hr; each_route Hr; vm_compute; first [done|congruence]..|by rewrite Hreg].
  - destruct models as [|md mds]; [|apply Hd; [by apply Hreg|intros p ->%known_pattern; by vm_compute]].
    apply (dispatch_absent _ _ _ _ Hfs Models); [intros r Hr; each_route Hr; vm_compute; first [done|congruence]..|rewrite Hreg; by intros []].
  - intros Hp Hne Hx. apply (dispatch_missing _ _ _ _); intros r Hr; apply (routes_known _ _ _ _ Hfs) in Hr.
    + unfold takes_path. destruct (subtree r.1) eqn:Es.
      * assert (path r.1 = "/admin/") as -> by (revert Es; each_route Hr; done). done.
      * apply String.eqb_neq. intros E. destruct Hx. apply list_elem_of_In, in_map_iff. exists r. split; [done|]. by apply list_elem_of_In.
    + intros Es. assert (path r.1 = "/admin/") as -> by (revert Es; each_route Hr; done). intros E. apply Hne.
      apply (string_app_inj_r "/"). by rewrite <- E.
Qed.
End RootProps.

(** ** The lifecycle *)
Module LifecycleProps.
Import Lifecycle.

Section moves.
Variable s : start.

Lemma close_in a r tr : a ∈ close s r tr <-> a ∈ tr \/ (enabled s r = true /\ a = Close r).
Proof.
  unfold close. destruct (enabled s r); cbn [andb]; [|split; [auto|by intros [?|[? _]]]].
  case_bool_decide as Hc; cbn [negb].
  - split; [auto|]. by intros [?|[_ ->]].
  - rewrite elem_of_app, list_elem_of_singleton. tauto.
Qed.

Lemma unwind_in a deferred : forall tr,
  a ∈ unwind s deferred tr <-> a ∈ tr \/ (exists r, r ∈ deferred /\ enabled s r = true /\ a = Close r) \/ a = Cancel.
Proof.
  unfold unwind. induction deferred as [|r rs IH]; intros tr; cbn [foldl].
  - rewrite elem_of_app, list_elem_of_singleton. split; [tauto|]. intros [?|[(r & H & _)|?]]; [auto|by apply elem_of_nil in H|auto].
  - rewrite IH, close_in. setoid_rewrite elem_of_cons. naive_solver.
Qed.

(** Nothing is closed twice. *)
Definition closes (tr : list act) : list resource := omap (fun a => match a with Close r => Some r | _ => None end) tr.

Lemma closes_app l l' : closes (l ++ l') = closes l ++ closes l'.
Proof. apply omap_app. Qed.
Lemma closes_in r tr : r ∈ closes tr <-> Close r ∈ tr.
Proof. unfold closes. rewrite list_elem_of_omap. split; [intros ([] & H & [=]); by subst|]. intros H. by exists (Close r). Qed.

Lemma close_once r tr : NoDup (closes tr) -> NoDup (closes (close s r tr)).
Proof.
  unfold close. destruct (enabled s r); cbn [andb]; [|done]. case_bool_decide as Hc; cbn [negb]; [done|]. intros H.
  rewrite closes_app. cbn. apply NoDup_app. split; [done|]. split; [|by apply NoDup_singleton].
  intros r' H' [->|?%elem_of_nil]%elem_of_cons; [|done]. by apply Hc, closes_in.
Qed.

Lemma unwind_once deferred : forall tr, NoDup (closes tr) -> NoDup (closes (unwind s deferred tr)).
Proof.
  unfold unwind. induction deferred as [|r rs IH]; intros tr H; cbn [foldl]; [by rewrite closes_app; cbn; rewrite app_nil_r|].
  apply IH. by apply close_once.
Qed.

Lemma opened_in a r : a ∈ opened s r <-> enabled s r = true /\ a = Open r.
Proof. unfold opened. destruct (enabled s r); [rewrite list_elem_of_singleton; tauto|]. split; [by intros ?%elem_of_nil|by intros [? _]]. Qed.

End moves.

(** An act of one kind in a list of others. *)
Ltac not_serving := rewrite ?elem_of_app, ?opened_in, ?elem_of_nil, ?list_elem_of_singleton; naive_solver.

Section serve.
Variable s : start.

Lemma no_closes_opened r : closes (opened s r) = [].
Proof. unfold opened. by destruct (enabled s r). Qed.
(** A step answered. *)
Definition answered (r : resource) : Prop := enabled s r = true -> opens s r = None.
Definition assembled : Prop :=
  (forall r, answered r) /\ (enabled s Snapshots = true -> tenants s = None) /\ routing s = None.
(** The listener was there: the gateway served. *)
Definition listened : Prop := forall e, run s <> ListenFailed e.

Lemma step_cases r deferred tr k :
  (exists e, enabled s r = true /\ opens s r = Some e /\ step s r deferred tr k = (unwind s deferred tr, Some e)) \/
  (answered r /\ step s r deferred tr k = k (tr ++ opened s r)).
Proof.
  unfold step, answered. destruct (enabled s r); [|right; by split]. destruct (opens s r) as [e|]; [left; by exists e|right; by split].
Qed.

(** The acts of the way in. *)
Inductive entered : list resource -> list act -> Prop :=
  | En_nil : entered [] []
  | En_open r rs tr : entered rs tr -> entered (r :: rs) (tr ++ opened s r)
  | En_act a rs tr : (forall r, a <> Open r /\ a <> Close r) -> a <> Cancel -> entered rs tr -> entered rs (tr ++ [a]).

Lemma entered_started l rs tr : (forall a, a ∈ l -> exists w, a = Start w) -> entered rs tr -> entered rs (tr ++ l).
Proof.
  revert tr. induction l as [|a l IH]; intros tr Hw He; [by rewrite app_nil_r|]. destruct (Hw a) as [w ->]; [left|].
  change (Start w :: l) with ([Start w] ++ l). rewrite app_assoc. apply IH; [intros b ?; apply Hw; by right|]. by constructor.
Qed.

Lemma entered_reconciler rs tr : entered rs tr -> entered rs (tr ++ reconciler s).
Proof.
  intros He. unfold reconciler. destruct (enabled s Snapshots); [|by rewrite app_nil_r].
  change [Guard Snapshots; Start Reconciler] with ([Guard Snapshots] ++ [Start Reconciler]). rewrite app_assoc. by repeat constructor.
Qed.

Lemma workers_start a : a ∈ sweeper s \/ a ∈ own_workers s -> exists w, a = Start w.
Proof.
  unfold sweeper, own_workers. intros [H|H]; revert H; destruct (has_identity s), (publishes s), (probes s); cbn;
    rewrite ?elem_of_cons, ?elem_of_nil; naive_solver.
Qed.

Lemma entered_spec rs tr : entered rs tr ->
  closes tr = [] /\ (Cancel ∉ tr) /\ (forall r, Open r ∈ tr <-> r ∈ rs /\ enabled s r = true).
Proof.
  induction 1 as [|r rs tr _ (I1 & I2 & I3)|a rs tr Ha Hc _ (I1 & I2 & I3)].
  - split; [done|]. split; [by intros ?%elem_of_nil|]. intros r. rewrite !elem_of_nil. tauto.
  - split; [by rewrite closes_app, I1, no_closes_opened|]. split; [rewrite elem_of_app, opened_in; naive_solver|].
    intros r'. rewrite elem_of_app, opened_in, I3, elem_of_cons. naive_solver.
  - split; [rewrite closes_app, I1; destruct a as [| r| | | |]; try done; by destruct (Ha r)|].
    split; [rewrite elem_of_app, list_elem_of_singleton; naive_solver|].
    intros r'. rewrite elem_of_app, list_elem_of_singleton, I3. destruct (Ha r'). naive_solver.
Qed.

(** Every way out of [serve]: what was opened and is not deferred leaks; an
    explicit close of the log before changes nothing of this. *)
Lemma unwound (leak : resource -> Prop) (early : bool) rs deferred tr :
  entered rs tr -> (forall r, r ∈ deferred -> r ∈ rs) -> (forall r, r ∈ rs -> r ∈ deferred \/ leak r) -> (early = true -> Logs ∈ rs) ->
  let tr' := unwind s deferred (if early then close s Logs tr else tr) in
  (forall r, Close r ∈ tr' -> Open r ∈ tr') /\ NoDup (closes tr') /\
  (forall r, Open r ∈ tr' -> Close r ∈ tr' \/ (leak r /\ enabled s r = true)) /\
  (exists tr0, tr' = tr0 ++ [Cancel] /\ Cancel ∉ tr0) /\ (Serving ∈ tr' <-> Serving ∈ tr) /\
  (forall r, Guard r ∈ tr -> Guard r ∈ tr').
Proof.
  intros (H1 & H2 & H3)%entered_spec Hd Hrs Hl. set (tr1 := if early then _ else _).
  assert (forall a, a ∈ tr1 <-> a ∈ tr \/ (early = true /\ enabled s Logs = true /\ a = Close Logs)) as Hin.
  { intros a. unfold tr1. destruct early; [rewrite close_in|]; naive_solver. }
  assert (NoDup (closes tr1)) as Hnd by (unfold tr1; destruct early; [apply close_once|]; rewrite H1; constructor).
  assert (forall r, Close r ∉ tr) as Hno by (intros r Hr%closes_in; rewrite H1 in Hr; by apply elem_of_nil in Hr).
  intros tr'. pose proof (fun a => unwind_in s a deferred tr1) as Hout. fold tr' in Hout.
  split; [|split; [by apply unwind_once|split; [|split; [|split]]]].
  - intros r [Hr|[(r' & Hr & He & [= ->])|[=]]]%Hout; apply Hout; left; apply Hin; left; apply H3.
    + apply Hin in Hr as [Hr|(He & Hen & [= ->])]; [by apply Hno in Hr|]. auto.
    + auto.
  - intros r [Hr|[(r' & _ & _ & [=])|[=]]]%Hout. apply Hin in Hr as [Hr|(_ & _ & [=])]. apply H3 in Hr as [Hr He].
    destruct (Hrs r Hr); [left|by right]. apply Hout. right; left. by exists r.
  - eexists. split; [unfold tr', unwind; reflexivity|]. intros H.
    assert (forall ds t, Cancel ∈ foldl (fun tr r => close s r tr) t ds -> Cancel ∈ t) as Hf.
    { clear. induction ds as [|d ds IH]; intros t; cbn [foldl]; [done|]. intros [?|[_ [=]]]%IH%close_in. done. }
    apply Hf, Hin in H as [?|(_ & _ & [=])]. done.
  - rewrite Hout, Hin. split; [intros [[?|(_ & _ & [=])]|[(? & _ & _ & [=])|[=]]]; done|by left; left].
  - intros r Hr. apply Hout. left. apply Hin. by left.
Qed.

(** A bundle open at the end: the log when the record store behind it did not
    open, and the snapshots, which a goroutine closes behind the context. *)
Definition left_open (tr : list act) (r : resource) : Prop :=
  r = Logs /\ ~ answered Recorder \/ r = Snapshots /\ Guard Snapshots ∈ tr.

Definition success : Prop := assembled /\ (run s = Drained \/ run s = DrainTimeout).

(** A run of [serve] that gives back what it took. *)
Definition orderly (r : list act * option string) : Prop :=
  let (tr, err) := r in
  (forall r, Close r ∈ tr -> Open r ∈ tr) /\ NoDup (closes tr) /\
  (forall r, Open r ∈ tr -> Close r ∈ tr \/ left_open tr r) /\
  (exists tr', tr = tr' ++ [Cancel] /\ Cancel ∉ tr') /\
  (Serving ∈ tr <-> assembled /\ listened) /\ (err = None <-> success).

Lemma way_out (leak : resource -> Prop) (early : bool) rs deferred tr (err : option string) :
  entered rs tr -> (forall r, r ∈ deferred -> r ∈ rs) -> (forall r, r ∈ rs -> r ∈ deferred \/ leak r) -> (early = true -> Logs ∈ rs) ->
  (forall r, leak r -> enabled s r = true -> left_open tr r) ->
  (Serving ∈ tr <-> assembled /\ listened) -> (err = None <-> success) ->
  orderly (unwind s deferred (if early then close s Logs tr else tr), err).
Proof.
  intros He H1 H2 H3 H4 H5 H6. destruct (unwound leak early rs deferred tr He H1 H2 H3) as (W1 & W2 & W3 & W4 & W5 & W6).
  split; [done|]. split; [done|]. split; [|split; [done|]; split; [by rewrite W5|done]].
  intros r Hr. destruct (W3 r Hr) as [?|[Hl Hen]]; [by left|right]. destruct (H4 r Hl Hen) as [?|[-> Hg]]; [by left|right]. split; [done|by apply W6].
Qed.

(** A step that fails, with what was deferred by then. *)
Lemma failed_out (leak : resource -> Prop) rs deferred tr (e : string) :
  entered rs tr -> Serving ∉ tr -> ~ assembled -> (forall r, r ∈ deferred -> r ∈ rs) -> (forall r, r ∈ rs -> r ∈ deferred \/ leak r) ->
  (forall r, leak r -> enabled s r = true -> left_open tr r) -> orderly (unwind s deferred tr, Some e).
Proof.
  intros He Hs Ha H1 H2 H3. apply (way_out leak false rs deferred tr (Some e)); auto; [done|split; [done|by intros [?%Ha _]]|split; [done|by intros [?%Ha _]]].
Qed.

Lemma failing r e : enabled s r = true -> opens s r = Some e -> ~ answered r /\ ~ assembled.
Proof.
  intros He Ho. assert (~ answered r) as Hn by (intros H; specialize (H He); congruence). split; [done|]. intros [H _]. by apply Hn.
Qed.

Lemma not_serving_started (l : list act) : (forall a, a ∈ l -> exists w, a = Start w) -> Serving ∉ l.
Proof. intros H Hs. by destruct (H _ Hs) as [? [=]]. Qed.

(** The run behind a complete assembly. *)
Lemma run_out tr : let rs := [Identities; Backends; Recorder; Logs] in
  entered (Snapshots :: rs) tr -> Serving ∉ tr -> assembled -> (enabled s Snapshots = true -> Guard Snapshots ∈ tr) ->
  orderly (match run s with
    | ListenFailed e => (unwind s rs (close s Logs tr), Some e)
    | Drained => (unwind s rs (tr ++ [Serving]), None)
    | DrainTimeout => (unwind s rs (close s Logs (tr ++ [Serving])), None)
    | ServeFailed e | DrainFailed e => (unwind s rs (close s Logs (tr ++ [Serving])), Some e)
    end).
Proof.
  intros rs Hent Hns Has Hg.
  assert (forall (early up : bool) (err : option string), (up = true <-> listened) -> (err = None <-> run s = Drained \/ run s = DrainTimeout) ->
    orderly (unwind s rs (if early then close s Logs (if up then tr ++ [Serving] else tr) else if up then tr ++ [Serving] else tr), err)) as Hw.
  { intros early up err Hup Herr. apply (way_out (fun r => r = Snapshots) early (Snapshots :: rs)).
    - destruct up; [by constructor|done].
    - intros r Hr. by right.
    - intros r [-> |Hr]%elem_of_cons; [by right|by left].
    - intros _. unfold rs. set_solver.
    - intros r -> Hen. right. split; [done|]. specialize (Hg Hen). destruct up; [apply elem_of_app; by left|done].
    - destruct up; [|split; [done|by intros [_ H%Hup]]]. assert listened by (by apply Hup).
      rewrite elem_of_app, list_elem_of_singleton. tauto.
    - unfold success. tauto. }
  assert (forall v, run s = v -> (forall e, v <> ListenFailed e) -> listened) as Hlis by (intros v <- H; exact H).
  destruct (run s) as [e|e| |e|] eqn:Hrun.
  - apply (Hw true false (Some e)); split; try done; [intros H; by destruct (H e)|by intros [?|?]].
  - apply (Hw true true (Some e)); split; try done; [intros _; by apply (Hlis _ eq_refl)|by intros [?|?]].
  - apply (Hw true true None); split; auto. intros _. by apply (Hlis _ eq_refl).
  - apply (Hw true true (Some e)); split; try done; [intros _; by apply (Hlis _ eq_refl)|by intros [?|?]].
  - apply (Hw false true None); split; auto. intros _. by apply (Hlis _ eq_refl).
Qed.

(** Once every bundle is open. *)
Lemma opened_out tr : let rs := [Identities; Backends; Recorder; Logs] in
  entered rs tr -> Serving ∉ tr -> (forall r, r <> Snapshots -> answered r) ->
  orderly (let tr := tr ++ sweeper s in
    match (if enabled s Snapshots then tenants s else None) with
    | Some e => (unwind s rs tr, Some e)
    | None => step s Snapshots rs tr (fun tr =>
        let tr := tr ++ reconciler s in
        match routing s with
        | Some e => (unwind s rs tr, Some e)
        | None =>
            let tr := tr ++ own_workers s in
            match run s with
            | ListenFailed e => (unwind s rs (close s Logs tr), Some e)
            | Drained => (unwind s rs (tr ++ [Serving]), None)
            | DrainTimeout => (unwind s rs (close s Logs (tr ++ [Serving])), None)
            | ServeFailed e | DrainFailed e => (unwind s rs (close s Logs (tr ++ [Serving])), Some e)
            end
        end)
    end).
Proof.
  intros rs Hent Hns Hans. cbv zeta. set (t1 := tr ++ sweeper s).
  assert (entered rs t1) as He1 by (apply entered_started; [intros a ?; apply workers_start; by left|done]).
  assert (Serving ∉ t1) as Hs1.
  { unfold t1. rewrite elem_of_app. intros [?|H]; [done|]. revert H. apply not_serving_started. intros a ?. apply workers_start. by left. }
  destruct (if enabled s Snapshots then tenants s else None) as [e|] eqn:Hg.
  { apply (failed_out (fun _ => False) rs); auto; [|done]. intros (_ & H & _). destruct (enabled s Snapshots); [|done].
    rewrite H in Hg by done. done. }
  match goal with |- context [step s Snapshots ?d ?t ?k] => destruct (step_cases Snapshots d t k) as [(e & He & Ho & ->)|[A5 ->]] end.
  { destruct (failing _ _ He Ho). by apply (failed_out (fun _ => False) rs); auto. }
  set (t2 := (t1 ++ opened s Snapshots) ++ reconciler s).
  assert (entered (Snapshots :: rs) t2) as He2 by (apply entered_reconciler; by constructor).
  assert (Serving ∉ t2) as Hs2.
  { unfold t2, reconciler. rewrite !elem_of_app, opened_in. destruct (enabled s Snapshots); rewrite ?elem_of_cons, elem_of_nil; naive_solver. }
  assert (enabled s Snapshots = true -> Guard Snapshots ∈ t2) as Hguard.
  { intros H. unfold t2, reconciler. rewrite H. apply elem_of_app. right. by left. }
  destruct (routing s) as [e|] eqn:Hr.
  { apply (failed_out (fun r => r = Snapshots) (Snapshots :: rs)); auto.
    - intros (_ & _ & H). congruence.
    - intros r H. by right.
    - intros r [-> |?]%elem_of_cons; auto.
    - intros r -> H. right. auto. }
  apply run_out; [apply entered_started; [intros a ?; apply workers_start; by right|done]| | |].
  - rewrite elem_of_app. intros [?|H]; [done|]. revert H. apply not_serving_started. intros a ?. apply workers_start. by right.
  - split; [intros []; try done; by apply Hans|]. split; [intros H; by rewrite H in Hg|done].
  - intros H. apply elem_of_app. left. auto.
Qed.
End serve.

(** C26. A start gives back what it takes.  Whatever step fails and however
    serving ends, nothing is closed that was not opened, nothing is closed
    twice, the deferred stop that ends the context runs last, and everything
    opened is closed, but for two: the access log when the record store
    behind it cannot be opened, and the reconciler's snapshot pool, which is
    left to a goroutine that waits for the context and closes it.  The
    gateway serves exactly when every step answered and the listener was
    there, and the process reports success exactly when it then drained, or
    ran past its grace with stragglers. *)
Theorem serve_releases (s : start) :
  let (tr, err) := serve s in
  (forall r, Close r ∈ tr -> Open r ∈ tr) /\ NoDup (closes tr) /\
  (forall r, Open r ∈ tr -> Close r ∈ tr \/ r = Logs /\ ~ answered s Recorder \/ r = Snapshots /\ Guard Snapshots ∈ tr) /\
  (exists tr', tr = tr' ++ [Cancel] /\ Cancel ∉ tr') /\
  (Serving ∈ tr <-> assembled s /\ listened s) /\
  (err = None <-> assembled s /\ (run s = Drained \/ run s = DrainTimeout)).
Proof.
  change (orderly s (serve s)). unfold serve.
  match goal with |- context [step s Logs ?d ?t ?k] => destruct (step_cases s Logs d t k) as [(e & He & Ho & ->)|[A1 ->]] end.
  { destruct (failing s _ _ He Ho). apply (failed_out s (fun _ => False) []); auto; [constructor|not_serving|done]. }
  match goal with |- context [step s Recorder ?d ?t ?k] => destruct (step_cases s Recorder d t k) as [(e & He & Ho & ->)|[A2 ->]] end.
  { destruct (failing s _ _ He Ho). apply (failed_out s (fun r => r = Logs) [Logs]); auto; [repeat constructor|not_serving|set_solver|set_solver|].
    intros r -> _. by left. }
  match goal with |- context [step s Backends ?d ?t ?k] => destruct (step_cases s Backends d t k) as [(e & He & Ho & ->)|[A3 ->]] end.
  { destruct (failing s _ _ He Ho). apply (failed_out s (fun _ => False) [Recorder; Logs]); auto; [repeat constructor|not_serving|done]. }
  match goal with |- context [step s Identities ?d ?t ?k] => destruct (step_cases s Identities d t k) as [(e & He & Ho & ->)|[A4 ->]] end.
  { destruct (failing s _ _ He Ho). apply (failed_out s (fun _ => False) [Backends; Recorder; Logs]); auto; [repeat constructor|not_serving|done]. }
  cbv zeta. apply opened_out; [repeat constructor|not_serving|by intros []].
Qed.
End LifecycleProps.

(** ** A deployment of two upstreams *)
Module StartupScenario.
Import Config.Schema ConfigSpec Names Plane NameFacts PlaneProps.

Definition ParseURL (_ : string) : option (string * string) := Some ("http", "host").
Definition upstreams : list Upstream :=
  [mkUpstream "eu" "http://eu" "k1" ["k2"] "http://eu/up" ["fast=small-1"; "large"]; mkUpstream "us" "http://us" "k3" [] "" ["large"; "slow"]].
Definition config (chain : list string) : Config :=
  mkConfig (mkServer ":8080" second) (mkRedis "" "" false) "" (mkObs 16 "" "") 0 upstreams
    (mkRetry 3 second second second second 8 0 3 0 0) "" "" {["large" := chain]} {["slow" := 4096]} 0 0 (mkCache false 0 0)
    (mkCircuit true "consecutive" 5 second second (Classifier.Finite (1 # 2)) 0) (mkSecurity "token" false) (mkProbe 0 0 0 0) (mkRouting "latency" 0).

Local Abbreviation assemble := (assembleRoutingPlane (fun _ : string => None : option unit) map_to_list map_to_list).

Lemma config_valid chain : chain = ["fast"; "slow"] \/ chain = ["fast"; "slwo"] -> valid ParseURL (config chain).
Proof. intros [->| ->]; (apply (ConfigFacts.validate_None ParseURL map_to_list map_to_list); [done..|by vm_compute]). Qed.

(** A misspelt fallback target stops the start. *)
Example misspelt : assemble (config ["fast"; "slwo"]) = inr (Unserved (FallbackTarget "slwo")).
Proof. by vm_compute. Qed.

(** A wildcard deployment lets the operator switch the wildcard itself off,
    which no request for a concrete name notices. *)
Example wildcard_switched_off :
  let us := [mkUpstream "eu" "http://eu" "k1" [] "" ["*"]] in
  let (err, s) := Switch.SetModel "*" false (Switch.NewSwitch (knownModels us) (upstreamIDs us) (wildcardServed us)) in
  err = None /\ Switch.disabledModels s = {["*"]} /\ Switch.ModelEnabled "large" s = true.
Proof. by vm_compute. Qed.

Lemma configuration_assembles_witness :
  (exists plane, assemble (config ["fast"; "slow"]) = inl plane /\ dom (adapters plane) = {["eu"; "us"]} /\
     "eu" ∈ probes plane /\ "us" ∉ probes plane) /\
  servesModel upstreams "slwo" = false.
Proof.
  split.
  - pose proof (configuration_assembles (fun _ : string => None : option unit) map_to_list map_to_list ltac:(done) ltac:(done) ParseURL
      (config ["fast"; "slow"]) (config_valid _ (or_introl eq_refl))) as H.
    destruct (assemble (config ["fast"; "slow"])) as [plane|e] eqn:E; [|by vm_compute in E]. exists plane. split; [done|].
    clear E. destruct H as (_ & _ & _ & Hd & _ & _ & Hp). split; [exact Hd|].
    pose proof (Hp _ (list_elem_of_here _ _)) as He. pose proof (Hp _ (list_elem_of_further _ _ _ (list_elem_of_here _ _))) as Hu.
    cbn [ID ProbeURL] in He, Hu. split; [by apply He|]. intros H. by apply Hu in H.
  - pose proof (configuration_assembles (fun _ : string => None : option unit) map_to_list map_to_list ltac:(done) ltac:(done) ParseURL
      (config ["fast"; "slwo"]) (config_valid _ (or_intror eq_refl))) as H. rewrite misspelt in H. apply H.
Defined.

Lemma names_agree_witness :
  exists plane i, assemble (config ["fast"; "slow"]) = inl plane /\ (Formats.FormatOpenAIChat, i) ∈ endpoints plane /\
    (exists e, e ∈ Priority.entries (Inference.priority i) /\ Priority.serves "fast" e = true) /\
    ~ (exists e, e ∈ Priority.entries (Inference.priority i) /\ Priority.serves "small-1" e = true) /\
    (Switch.SetModel "slow" false (routeSwitch plane)).1 = None /\ (Switch.SetModel "slwo" false (routeSwitch plane)).1 <> None.
Proof.
  destruct (assemble (config ["fast"; "slow"])) as [plane|e] eqn:E; [|by vm_compute in E].
  destruct (assemble_inl (fun _ : string => None : option unit) map_to_list map_to_list _ _ E) as (_ & es & _ & _ & _ & _ & _ & _ & Hf & _).
  destruct (endpoints plane) as [|[f i] l] eqn:Hends; [done|]. injection Hf as -> _.
  assert ((Formats.FormatOpenAIChat, i) ∈ endpoints plane) as Hi by (rewrite Hends; left).
  destruct (names_agree (fun _ : string => None : option unit) map_to_list map_to_list ltac:(done) ltac:(done) _ _ _ _ E Hi) as [H _].
  exists plane, i. split; [done|]. split; [first [done | rewrite Hends; left]|].
  split; [apply (H "fast"); [done|by vm_compute]|]. split; [intros Hs; by apply (H "small-1") in Hs|].
  split; [by apply (proj1 (proj2 (H "slow" ltac:(done))))|]. intros Hn.
  assert (servesModel upstreams "slwo" = true) as Hs; [|by vm_compute in Hs].
  apply (proj1 (proj2 (H "slwo" ltac:(done)))). intros []; [|exact Hn].
  destruct (assemble_inl (fun _ : string => None : option unit) map_to_list map_to_list _ _ E) as (_ & _ & _ & _ & _ & Hsw & _).
  rewrite Hsw. rewrite Hsw in Hn. by vm_compute in Hn.
Defined.
End StartupScenario.

Module SeedingScenario.
Import Limits Static Seeding SeedingProps.

Definition tier (budget : Z) : Tier := mkTier "gold" 60 1000 0 budget [] [] ∅ 0.
Definition identities : Static :=
  mkStatic "" {["h1" := mkTenant "acme" "Acme" "user" "" (tier 500); "h2" := mkTenant "acme" "Acme" "user" "" (tier 500);
                "h3" := mkTenant "zenith" "Zenith" "user" "" (tier 0)]}.
Definition ledger : Ledger.Memory := Ledger.SetBalance "acme" 7 (Ledger.NewMemory).
Local Abbreviation seeded := (seedBalances (fun _ => map_to_list) identities ledger).

(** Two entries of one tenant under different tiers: the budget is the one
    the map iteration meets first. *)
Definition shared : Static :=
  mkStatic "" {["h1" := mkTenant "acme" "Acme" "user" "" (tier 500); "h2" := mkTenant "acme" "Acme" "user" "" (tier 9)]}.
Example shared_id_budget :
  let opening ranged := Ledger.balances (seedBalances (fun _ m => ranged (map_to_list m)) shared Ledger.NewMemory).2 !! "acme" in
  opening id <> opening (@reverse _).
Proof. by vm_compute. Qed.

Lemma seeding_never_resets_witness :
  Ledger.balances seeded.2 !! "acme" = Some 7 /\ Ledger.balances seeded.2 !! "zenith" = Some 0 /\ map fst seeded.1 = ["acme"; "zenith"] /\
  forall u, Ledger.balances (seedBalances (fun _ => map_to_list) identities seeded.2).2 !! u = Ledger.balances seeded.2 !! u.
Proof.
  destruct (seeding_never_resets (fun _ => map_to_list) identities ledger ltac:(done)) as (H1 & _ & H3 & _ & H5).
  split; [by apply (H1 "acme" 7)|]. split; [by vm_compute|]. split; [rewrite H3; by vm_compute|].
  apply H5. vm_compute. repeat constructor; by eexists.
Defined.
End SeedingScenario.

Module LifecycleScenario.
Import Lifecycle LifecycleProps.

Definition deployment (recorder : option string) (ending : served) : start :=
  mkStart (fun _ => true) (fun r => match r with Recorder => recorder | _ => None end) true true None None true true ending.

Example whole_run : serve (deployment None DrainTimeout) =
  ([Open Logs; Open Recorder; Open Backends; Open Identities; Start Sweeper; Open Snapshots; Guard Snapshots; Start Reconciler;
    Start DropPublisher; Start Prober; Serving;
    Close Logs; Close Identities; Close Backends; Close Recorder; Cancel], None).
Proof. by vm_compute. Qed.

(** The record store does not open: the log is left open. *)
Example log_left_open : serve (deployment (Some "no route") Drained) = ([Open Logs; Cancel], Some "no route").
Proof. by vm_compute. Qed.
End LifecycleScenario.
