(* ===== verification/Published.v ===== *)
(** * What the breaker publishes

    The transition hooks of [buildBreaker] write the state gauge of the
    registry; the gauge shows where every breaker stands. *)
From Stdlib Require Import QArith.
From stdpp Require Import base numbers gmap strings list.
From S2P Require Import Prelude Float64 Circuit CircuitSlow CircuitRatio CircuitPort Metrics Startup.
Import GoInt GoTime.
Local Open Scope Z_scope.

(** ** The moves of one machine *)
Module MoveFacts.
Import Machine.

(** Where a log leaves a machine. *)
Definition last_to (s : State) (l : list transition) : State := foldl (fun _ t => t.2) s l.

Lemma last_to_app s l l' : last_to s (l ++ l') = last_to (last_to s l) l'.
Proof. apply foldl_app. Qed.

(** The reported moves lead from [m] to [m']. *)
Record leads (m m' : machine) (tr : list transition) : Prop := {
  ld_id : id m' = id m; ld_ids : Forall (fun t => t.1.1 = id m) tr; ld_last : last_to (name m) tr = name m'
}.

Ltac leads := split; cbn in *; repeat (case_decide; simplify_eq/=); try done; repeat constructor; done.

Lemma leads_refl m : leads m m [].
Proof. by split. Qed.
Lemma leads_from m m0 m' tr : id m0 = id m -> name m0 = name m -> leads m0 m' tr -> leads m m' tr.
Proof. intros Hi Hn [H1 H2 H3]. split; [by rewrite H1|by rewrite <- Hi|by rewrite <- Hn]. Qed.

Lemma enter_leads {E} clock m (ev : E) to f : let '(m', _, tr) := enter clock m ev to f in leads m m' tr.
Proof. destruct m as [i [] t p], to; unfold enter; leads. Qed.
Lemma reclaim_leads clock m now : let '(m', tr) := reclaim clock m now in leads m m' tr.
Proof. destruct m as [i [] t p]; unfold reclaim, enter; leads. Qed.
Lemma observe_leads g now m : let '(m', _, tr) := observe g now m in leads m m' tr.
Proof.
  destruct m as [i [] t [pr|]]; unfold observe, reclaim, enter; cbn; try apply leads_refl; try (case_decide; leads).
  destruct (after now (deadline pr)); leads.
Qed.
Lemma allow_leads g now ptr m : let '(m', _, tr) := allow g now ptr m in leads m m' tr.
Proof.
  destruct m as [i [] t [pr|]]; unfold allow, reclaim, enter; cbn; try apply leads_refl; try (case_decide; leads); try leads.
  destruct (after now (deadline pr)); leads.
Qed.

Lemma consecutive_report_leads thr now clock g o (s : Consecutive.state) :
  let '(s', tr) := Consecutive.report_state thr now clock g o s in leads (Consecutive.mach s) (Consecutive.mach s') tr.
Proof.
  destruct s as [[i [] t p] f]; unfold Consecutive.report_state, reclaim, enter; cbn; try apply leads_refl.
  - destruct o; cbn; try apply leads_refl. case_decide; leads.
  - match goal with |- context [Consecutive.owns_probe ?m ?gr] => destruct (Consecutive.owns_probe m gr) as [pr|] end; [|apply leads_refl]. case_decide; [leads|].
    destruct (after now (deadline pr)); [leads|]. destruct o; leads.
Qed.

Lemma slow_report_leads ratio now clock g o (s : Slow.slowState) :
  let '(s', tr) := Slow.report_state ratio now clock g o s in leads (Slow.mach s) (Slow.mach s') tr.
Proof.
  destruct s as [[i [] t p] w]; unfold Slow.report_state; cbn [Slow.mach name]; try apply leads_refl.
  - destruct o; try apply leads_refl;
      (match goal with |- context [Slow.opens ?a ?b] => destruct (Slow.opens a b) end; [unfold enter, Slow.record; leads|apply leads_refl]).
  - match goal with |- context [Consecutive.owns_probe ?m ?gr] => destruct (Consecutive.owns_probe m gr) as [pr|] end; [|apply leads_refl]. case_decide; [unfold reclaim, enter; leads|].
    destruct (after now (deadline pr) && _); [unfold reclaim, enter; leads|]. case_decide; unfold enter; leads.
Qed.

(** *** A registry of machines and its log *)
Section registry.
Context {S : Type} (mach : S -> machine).

Definition standing (states : gmap string S) (u : string) : State := from_option (fun s => name (mach s)) StateClosed (states !! u).

Record followed (states : gmap string S) (log : list transition) : Prop := {
  fo_id u s : states !! u = Some s -> id (mach s) = u;
  fo_last u : last_to StateClosed (log_of u log) = standing states u
}.

Lemma followed_empty : followed ∅ [].
Proof. split; [by intros u s ?%lookup_empty_Some|]. intros u. unfold standing. by rewrite lookup_empty. Qed.

(** One operation on the machine of [u]. *)
Lemma followed_put states log u s0 s tr :
  followed states log -> id (mach s0) = u -> name (mach s0) = standing states u -> leads (mach s0) (mach s) tr ->
  followed (<[u := s]> states) (log ++ tr).
Proof.
  intros [H1 H2] Hi Hn [Li Lids Ll]. split.
  - intros v s' [[<- <-]|[_ H]]%lookup_insert_Some; [by rewrite Li|eauto].
  - intros v. rewrite MachineFacts.log_of_app, last_to_app, H2. unfold standing. destruct (decide (v = u)) as [->|Hne].
    + rewrite lookup_insert_eq. cbn. rewrite ConsecutiveFacts.log_of_self by (by rewrite <- Hi). fold (standing states u). by rewrite <- Hn.
    + rewrite lookup_insert_ne by done. rewrite (ConsecutiveFacts.log_of_other u v tr); [done|by rewrite <- Hi|done].
Qed.
End registry.
End MoveFacts.

Module BuiltFacts.
Import Machine MoveFacts Strategy.

#[export] Instance built_laws : BreakerLaws built.
Proof.
  split; intros *.
  - destruct b as [b|b|b|b]; cbn [built_breaker breaker_inv Allow built_Allow built_inv]; intros Hb; pose proof (Allow_inv e u b Hb) as H;
      by destruct (Allow e u b).
  - destruct b as [b|b|b|b]; cbn [built_breaker breaker_inv StateOf built_StateOf built_inv]; intros Hb; pose proof (StateOf_inv e u b Hb) as H;
      by destruct (StateOf e u b).
  - destruct b as [b|b|b|b]; intros Hb; exact (Reset_inv e u b Hb).
  - destruct b as [b|b|b|b]; intros Hb; exact (Report_inv e p o b Hb).
  - destruct b as [b|b|b|b]; cbn [built_breaker breaker_inv StateOf Reset built_StateOf built_Reset built_inv]; intros Hb;
      pose proof (Reset_closed e e' u b Hb) as H; by destruct (StateOf e' u (Reset e u b)).
  - destruct b as [b|b|b|b]; cbn [built_breaker breaker_inv Allow Reset built_Allow built_Reset built_inv]; intros Hb;
      pose proof (Reset_admits e e' u b Hb) as H; by destruct (Allow e' u (Reset e u b)).
  - destruct b as [b|b|b|b]; cbn [built_breaker StateOf built_StateOf]; intros Hne; pose proof (StateOf_isolated e e' u v b Hne) as H;
      destruct (StateOf e v b) as [b1 s1] eqn:E1; cbn [fst built_StateOf] in *;
      destruct (StateOf e' u b1) as [b2 s2] eqn:E2; destruct (StateOf e' u b) as [b3 s3] eqn:E3; cbn [snd] in *; exact H.
  - destruct b as [b|b|b|b]; cbn [built_breaker Report built_Report]; f_equal; apply Report_once.
Qed.

(** The machines and their log. *)
Definition moves (b : built) : list transition :=
  match b with NoBreaker _ | RatioGuard _ => [] | SlowCalls b => Slow.observed b | Consecutives b => Consecutive.observed b end.
Definition sound (b : built) : Prop :=
  match b with
  | NoBreaker _ | RatioGuard _ => True
  | SlowCalls b => followed Slow.mach (Slow.byUpstream b) (Slow.observed b)
  | Consecutives b => followed Consecutive.mach (Consecutive.byUpstream b) (Consecutive.observed b)
  end.

Lemma consecutive_stateOf b u : followed Consecutive.mach (Consecutive.byUpstream b) (Consecutive.observed b) ->
  id (Consecutive.mach (Consecutive.stateOf b u)) = u /\
  name (Consecutive.mach (Consecutive.stateOf b u)) = standing Consecutive.mach (Consecutive.byUpstream b) u.
Proof.
  intros [Hid _]. unfold Consecutive.stateOf, standing. destruct (Consecutive.byUpstream b !! u) as [s|] eqn:E; [|done]. cbn. eauto.
Qed.

Lemma slow_stateOf clock b u : followed Slow.mach (Slow.byUpstream b) (Slow.observed b) ->
  id (Slow.mach (Slow.stateOf clock u b)) = u /\
  name (Slow.mach (Slow.stateOf clock u b)) = standing Slow.mach (Slow.byUpstream b) u.
Proof.
  intros [Hid _]. unfold Slow.stateOf, standing. destruct (Slow.byUpstream b !! u) as [s|] eqn:E; [|done]. cbn. eauto.
Qed.

Lemma consecutive_put b u s tr : followed Consecutive.mach (Consecutive.byUpstream b) (Consecutive.observed b) ->
  leads (Consecutive.mach (Consecutive.stateOf b u)) (Consecutive.mach s) tr ->
  followed Consecutive.mach (Consecutive.byUpstream (Consecutive.put b u s tr)) (Consecutive.observed (Consecutive.put b u s tr)).
Proof. intros Hb Hl. destruct (consecutive_stateOf b u Hb). by eapply followed_put. Qed.

Lemma slow_put clock b u s tr : followed Slow.mach (Slow.byUpstream b) (Slow.observed b) ->
  leads (Slow.mach (Slow.stateOf clock u b)) (Slow.mach s) tr ->
  followed Slow.mach (Slow.byUpstream (Slow.put b u s tr)) (Slow.observed (Slow.put b u s tr)).
Proof. intros Hb Hl. destruct (slow_stateOf clock b u Hb). by eapply followed_put. Qed.

Lemma consecutive_step b x : sound (Consecutives b) -> sound (apply (Consecutives b) x).
Proof.
  intros Hb. destruct x as [e u|e u|e u|e p o]; cbn -[Consecutive.put].
  - unfold Consecutive.Allow. pose proof (allow_leads (Consecutive.gov b) (now e) (Consecutive.next b) (Consecutive.mach (Consecutive.stateOf b u))) as Hl.
    destruct (allow _ _ _ _) as [[m g] tr]. destruct g; by apply consecutive_put.
  - unfold Consecutive.StateOf. pose proof (observe_leads (Consecutive.gov b) (now e) (Consecutive.mach (Consecutive.stateOf b u))) as Hl.
    destruct (observe _ _ _) as [[m g] tr]. by apply consecutive_put.
  - unfold Consecutive.Reset. pose proof (enter_leads (clock e) (set_probe None (Consecutive.mach (Consecutive.stateOf b u))) 0 StateClosed None) as Hl.
    destruct (enter _ _ _ _ _) as [[m f] tr]. apply consecutive_put; [done|]. by eapply leads_from; [..|exact Hl].
  - unfold Consecutive.Report. destruct (Consecutive.perms b !! p) as [g|]; [|done]. destruct (Consecutive.g_reported g); [done|].
    pose proof (consecutive_report_leads (Consecutive.failThreshold b) (now e) (clock e) (Consecutive.g_grant g) o (Consecutive.stateOf b (Consecutive.g_s g))) as Hl.
    destruct (Consecutive.report_state _ _ _ _ _ _) as [s tr]. by apply consecutive_put.
Qed.

Lemma slow_step b x : sound (SlowCalls b) -> sound (apply (SlowCalls b) x).
Proof.
  intros Hb. destruct x as [e u|e u|e u|e p o]; cbn -[Slow.put].
  - unfold Slow.Allow. pose proof (allow_leads (Slow.gov b) (now e) (Slow.next b) (Slow.mach (Slow.stateOf (clock e) u b))) as Hl.
    destruct (allow _ _ _ _) as [[m g] tr]. destruct g; by eapply slow_put.
  - unfold Slow.StateOf. pose proof (observe_leads (Slow.gov b) (now e) (Slow.mach (Slow.stateOf (clock e) u b))) as Hl.
    destruct (observe _ _ _) as [[m g] tr]. by eapply slow_put.
  - unfold Slow.Reset. pose proof (enter_leads (now e) (Slow.mach (Slow.stateOf (clock e) u b)) (Slow.stateOf (clock e) u b) StateClosed (Some Slow.clearWindow)) as Hl.
    destruct (enter _ _ _ _ _) as [[m f] tr]. by eapply slow_put.
  - unfold Slow.Report. destruct (Slow.perms b !! p) as [g|]; [|done]. destruct (Slow.p_reported g); [done|].
    pose proof (slow_report_leads (Slow.slowRatio b) (now e) (clock e) (Slow.p_grant g) o (Slow.stateOf (now e) (Slow.p_st g) b)) as Hl.
    destruct (Slow.report_state _ _ _ _ _ _) as [s tr]. by eapply slow_put.
Qed.

Lemma use_sound b x : sound b -> sound (apply b x).
Proof.
  destruct b as [b|b|b|b]; intros Hb; [| |by apply slow_step|by apply consecutive_step];
    (destruct x as [e u|e u|e u|e p o]; cbn; repeat case_match; done).
Qed.

Lemma build_sound cfg b : buildBreaker cfg = Some b -> sound b.
Proof.
  unfold buildBreaker. repeat case_match; try (intros [= <-]; try done; apply followed_empty).
  destruct (slow_ratio _); [|done]. intros [= <-]. apply followed_empty.
Qed.

Lemma uses_sound xs : forall b, sound b -> sound (foldl apply b xs).
Proof. induction xs as [|x xs IH]; intros b Hb; [done|]. apply IH. by apply use_sound. Qed.

Lemma sound_position b u : sound b -> last_to StateClosed (log_of u (moves b)) = position b u.
Proof. destruct b as [b|b|b|b]; [done|done|intros [_ H]; exact (H u)..]. Qed.
End BuiltFacts.

(** ** The gauge *)
Module GaugeFacts.
Import Machine MoveFacts Strategy BuiltFacts Registry Families Recorders RegistrySpec KeyFacts RegistryFacts FreshFacts.

Definition gauge : string := "breakwater_circuit_state".
Definition is_state (e : event) : bool := match e with eCircuitState _ _ => true | _ => false end.

(** The leaf of one upstream. *)
Definition shows (m : Metrics) (u : string) (v : Q) : Prop :=
  exists f c, families m !! gauge = Some f /\ children f !! u = Some c /\ value c = v.

(** Calls of other recorders leave the gauge alone. *)
Lemma leaf_other name vs g m m' : name <> gauge -> with_leaf name vs g m = Some m' -> families m' !! gauge = families m !! gauge.
Proof.
  intros Hne. unfold with_leaf. destruct (families m !! name) as [f|]; [|done]. destruct (childOf vs f) as [k f'].
  intros [= <-]. cbn. by rewrite lookup_insert_ne.
Qed.

Lemma guarded_inv r m m' : guarded r (Some m) = Some (Some m') -> r m = Some m'.
Proof. unfold guarded. destruct (r m); naive_solver. Qed.

Lemma record_other e m m' : is_state e = false -> record e (Some m) = Some (Some m') -> families m' !! gauge = families m !! gauge.
Proof.
  destruct e; intros Hs Hr; try done; try apply guarded_inv in Hr;
    first [by eapply leaf_other; [|exact Hr] | by injection Hr as <-].
Qed.

(** The upstreams of a deployment fit the registry. *)
Section ids.
Variable ids : list string.
Hypothesis ids_clean : Forall clean ids.
Hypothesis ids_few : (length ids < maxChildren)%nat.

Definition within (m : Metrics) : Prop := forall f u c, families m !! gauge = Some f -> children f !! u = Some c -> u ∈ ids.

Lemma within_room m f : within m -> families m !! gauge = Some f -> (size (children f) < maxChildren)%nat.
Proof.
  intros Hw Hf. rewrite <- size_dom. assert (size (dom (children f)) <= size (list_to_set ids : gset string))%nat as H1.
  { apply subseteq_size. intros u Hu. apply elem_of_dom in Hu as [c Hc]. apply elem_of_list_to_set. eauto. }
  assert (size (list_to_set ids : gset string) <= length ids)%nat; [|lia]. clear. induction ids as [|x l IH]; cbn; [done|].
  rewrite size_union_alt, size_singleton. assert (size (list_to_set l ∖ {[x]} : gset string) <= size (list_to_set l : gset string))%nat; [|lia].
  apply subseteq_size. set_solver.
Qed.

Lemma record_state u v m : registry_ok m -> within m -> u ∈ ids ->
  exists m', record (eCircuitState u v) (Some m) = Some (Some m') /\ registry_ok m' /\ within m' /\ shows m' u v /\
    forall w, w <> u -> forall x, shows m' w x <-> shows m w x.
Proof.
  intros Hok Hw Hu. assert (clean u) as Hc by (rewrite Forall_forall in ids_clean; auto).
  destruct (with_leaf_spec gauge [u] (fun _ => storeFloat v) m Hok) as (f & k & f' & Hf & Hfound & Hrun & Hok'); [by vm_compute|done|].
  assert (k = u) as ->.
  { pose proof (within_room m f Hw Hf). destruct (found_key _ _ _ _ Hfound) as [-> |(_ & _ & ?)]; [|lia].
    rewrite scrub_id by (by constructor). done. }
  eexists. split; [cbn; unfold CircuitState, guarded; fold gauge; rewrite Hrun; reflexivity|]. split; [exact Hok'|].
  destruct (found_leaf _ _ _ _ Hfound) as (c & Hcl & _). assert (forall w, children (on_leaf u (storeFloat v) f') !! w =
    if decide (w = u) then Some (storeFloat v c) else children f !! w) as Hch.
  { intros w. cbn [on_leaf children set_children]. rewrite lookup_alter. destruct (decide (w = u)) as [->|Hne].
    - rewrite decide_True by done. by rewrite Hcl.
    - rewrite decide_False by done. by apply (found_frame _ _ _ _ Hfound). }
  split; [|split].
  - intros f2 w c2. cbn [families set_families]. rewrite lookup_insert_eq. intros [= <-]. rewrite Hch. case_decide as E; [by subst|]. by eapply Hw.
  - exists (on_leaf u (storeFloat v) f'), (storeFloat v c). cbn [families set_families]. rewrite lookup_insert_eq, Hch, decide_True by done. done.
  - intros w Hne x. unfold shows. cbn [families set_families]. rewrite lookup_insert_eq. split.
    + intros (f2 & c2 & [= <-] & H & E). rewrite Hch, decide_False in H by done. eauto.
    + intros (f2 & c2 & Hf2 & H & E). rewrite Hf in Hf2. injection Hf2 as <-. exists (on_leaf u (storeFloat v) f'), c2. by rewrite Hch, decide_False.
Qed.

(** The gauge against the moves behind it. *)
Definition holds (m : Metrics) (log : list transition) : Prop :=
  forall u x, shows m u x <-> log_of u log <> [] /\ x = stateValue (last_to StateClosed (log_of u log)).

Definition state_event (t : transition) : event := eCircuitState t.1.1 (stateValue t.2).

Lemma log_of_snoc log t u : log_of u (log ++ [t]) = log_of u log ++ (if decide (t.1.1 = u) then [t] else []).
Proof. rewrite MachineFacts.log_of_app. unfold log_of at 2. rewrite filter_cons, filter_nil. done. Qed.

Lemma holds_step m log t : registry_ok m -> within m -> holds m log -> t.1.1 ∈ ids ->
  exists m', record (state_event t) (Some m) = Some (Some m') /\ registry_ok m' /\ within m' /\ holds m' (log ++ [t]).
Proof.
  intros Hok Hw Hh Hid. destruct (record_state t.1.1 (stateValue t.2) m Hok Hw Hid) as (m' & Hr & Hok' & Hw' & Hsh & Hother).
  exists m'. split; [exact Hr|]. split; [done|]. split; [done|]. intros u x. rewrite log_of_snoc. case_decide as E.
  - subst u. rewrite last_to_app. cbn. split; [|intros [_ ->]; exact Hsh]. destruct Hsh as (f & c & Hf & Hc & Hv).
    intros (f2 & c2 & Hf2 & Hc2 & Hx). split; [by destruct (log_of _ log)|]. congruence.
  - rewrite app_nil_r, Hother by done. apply Hh.
Qed.

Lemma run_holds es : forall m log tr, registry_ok m -> within m -> holds m log ->
  filter (fun e => is_state e = true) es = map state_event tr -> Forall (fun t => t.1.1 ∈ ids) tr ->
  exists m', record_all es (Some m) = Some (Some m') /\ holds m' (log ++ tr).
Proof.
  induction es as [|e es IH]; intros m log tr Hok Hw Hh Hes Hids; cbn [record_all].
  { rewrite filter_nil in Hes. symmetry in Hes. apply map_eq_nil in Hes as ->. rewrite app_nil_r. eauto. }
  destruct (is_state e) eqn:He.
  - rewrite filter_cons_True in Hes by done. destruct tr as [|t tr]; [done|]. injection Hes as -> Hes. apply Forall_cons in Hids as [Hid Hids].
    destruct (holds_step m log t Hok Hw Hh Hid) as (m1 & Hr & Hok1 & Hw1 & Hh1). rewrite Hr. cbn.
    destruct (IH m1 (log ++ [t]) tr) as (m' & Hrun & Hh'); try done. exists m'. split; [done|]. by rewrite <- app_assoc in Hh'.
  - rewrite filter_cons_False in Hes by (by rewrite He). destruct (record_spec e m Hok) as (m1 & Hr & Hok1 & _). rewrite Hr. cbn.
    pose proof (record_other e m m1 He Hr) as Hsame. apply (IH m1 log tr); try done.
    + intros f u c. rewrite Hsame. apply Hw.
    + intros u x. unfold shows. rewrite Hsame. apply Hh.
Qed.
End ids.

Lemma published_states b : filter (fun e => is_state e = true) (published b) = map state_event (moves b).
Proof.
  assert (forall l, filter (fun e => is_state e = true) (flat_map on_transition l) = map state_event l) as Hl.
  { induction l as [|[[u x] y] l IH]; [done|]. cbn [flat_map]. rewrite filter_app, IH. by destruct y. }
  destruct b as [b|b|b|b]; [done| |apply Hl..]. cbn. induction (Ratio.denials b) as [|u l IH]; [done|]. by rewrite map_cons, filter_cons_False.
Qed.

(** A new registry has no series of the gauge. *)
Lemma fresh_gauge : (NewMetrics ≫= fun m => (fun f => Z.of_nat (size (children f))) <$> families m !! gauge) = Some 0.
Proof. vm_compute. reflexivity. Qed.

(** The names the breaker's moves carry. *)
Definition moved_ids (b : built) : list string := map (fun t => t.1.1) (moves b).
End GaugeFacts.

Module GaugeProps.
Import Machine MoveFacts Strategy BuiltFacts Registry Families Recorders RegistrySpec FreshFacts GaugeFacts.
#[local] Opaque NewMetrics.

(** C23. The state gauge tells the truth.  Take any strategy the
    configuration can name, any calls on the breaker, and the registry that
    records the hooks among whatever else the gateway records: the gauge has
    a series for an upstream exactly when its breaker has ever moved, and the
    value is the position the breaker stands in now; an upstream without a
    series stands closed.  No label is lost to the cap on label values while
    the deployment has fewer upstreams than that. *)
Theorem breaker_gauge cfg b0 (uses : list use) (es : list event) ids m0 :
  buildBreaker cfg = Some b0 -> NewMetrics = Some m0 ->
  let b := foldl apply b0 uses in
  Forall clean ids -> (length ids < maxChildren)%nat -> Forall (fun u => u ∈ ids) (moved_ids b) ->
  filter (fun e => is_state e = true) es = filter (fun e => is_state e = true) (published b) ->
  exists m, record_all es (Some m0) = Some (Some m) /\
    (forall u x, shows m u x <-> u ∈ moved_ids b /\ x = stateValue (position b u)) /\
    forall u, u ∉ moved_ids b -> position b u = StateClosed.
Proof.
  intros Hb Hm0 b Hclean Hfew Hids Hes. rewrite published_states in Hes.
  assert (sound b) as Hs by (by eapply uses_sound, build_sound).
  destruct NewMetrics_ok as (m1 & Hm1 & Hok & Hfresh). rewrite Hm0 in Hm1. injection Hm1 as <-.
  assert (forall f, families m0 !! gauge = Some f -> children f = ∅) as Hempty.
  { intros f Hf. pose proof fresh_gauge as H. rewrite Hm0 in H. cbn [mbind option_bind] in H. rewrite Hf in H. cbn in H. injection H as H.
    apply map_size_empty_iff. lia. }
  clear Hm0 Hfresh Hb.
  destruct (run_holds ids Hclean Hfew es m0 [] (moves b) Hok) as (m & Hrun & Hh); [| |exact Hes| |].
  - intros f u c Hf. by rewrite (Hempty f Hf), lookup_empty.
  - intros u x. split; [|by intros [? _]]. intros (f & c & Hf & Hc & _). by rewrite (Hempty f Hf), lookup_empty in Hc.
  - unfold moved_ids in Hids. by apply Forall_map in Hids.
  - cbn [app] in Hh. assert (forall u, log_of u (moves b) <> [] <-> u ∈ moved_ids b) as Hlog.
    { intros u. unfold moved_ids, log_of. clear. induction (moves b) as [|t l IH]; [set_solver|].
      rewrite filter_cons. cbn [map]. rewrite elem_of_cons. case_decide; naive_solver. }
    exists m. split; [exact Hrun|]. split; [intros u x; pose proof (Hh u x) as H; rewrite Hlog, (sound_position b u Hs) in H; exact H|].
    intros u Hu. rewrite <- (sound_position b u Hs). pose proof (proj1 (Hlog u)) as H. destruct (log_of u (moves b)); [done|]. by destruct Hu; apply H.
Qed.
End GaugeProps.

(** ** Two faults against a threshold of two *)
Module GaugeScenario.
Import Machine Strategy Registry Families Recorders RegistrySpec GaugeFacts GaugeProps.
Definition cfg : Config.Schema.Circuit :=
  Config.Schema.mkCircuit true "consecutive" 2 (10 * second) (5 * second) (Retry.Classifier.Finite (1 # 2)) 0.
Definition e (t : Z) : env := mkEnv t t 0.
Definition uses : list use :=
  [UAllow (e 1) "a"; UReport (e 1) 0%nat OutcomeServerFault; UAllow (e 2) "a"; UAllow (e 2) "b"; UReport (e 3) 1%nat OutcomeServerFault;
   UReport (e 3) 2%nat OutcomeSuccess; UStateOf (e (20 * second)) "a"].
Local Abbreviation b0 := (Consecutives (Consecutive.NewRegistry (Consecutive.mkConfig 2 (10 * second) (5 * second)))).
Definition recorded : list event :=
  [eRequest "t" "m" "a" 502; eCircuitOpened "a"; eCircuitState "a" 2; eCacheMiss; eCircuitHalfOpen "a"; eCircuitState "a" 1].

Lemma breaker_gauge_witness :
  exists m0 m, NewMetrics = Some m0 /\ record_all recorded (Some m0) = Some (Some m) /\ shows m "a" 1 /\ ~ shows m "b" 0 /\
    position (foldl apply b0 uses) "a" = StateHalfOpen /\ position (foldl apply b0 uses) "b" = StateClosed.
Proof.
  destruct FreshFacts.NewMetrics_ok as (m0 & Hm0 & _).
  destruct (breaker_gauge cfg b0 uses recorded ["a"; "b"] m0) as (m & Hrun & Hshow & Hpos);
    [reflexivity|exact Hm0|by repeat constructor|vm_compute; lia|vm_compute; repeat constructor|vm_compute; reflexivity|].
  exists m0, m. split; [exact Hm0|]. split; [exact Hrun|]. split; [|split; [|split; by vm_compute]].
  - apply Hshow. split; [vm_compute; constructor|by vm_compute].
  - intros H. apply Hshow in H as [H _]. vm_compute in H. repeat (apply elem_of_cons in H as [H|H]; [done|]). by apply elem_of_nil in H.
Defined.
End GaugeScenario.
