(* ===== verification/Mock.v ===== *)
(** * The mock upstream (internal/mockllm)

    Fault directives, the responses and the handler of the fault-injecting
    stand-in for a provider.  A response is what the handler sends; the
    writes of a stream that fail and the waits a client leaves are arguments,
    and so are JSON, the request body, the random draw, the completion
    number and the clock. *)
From Stdlib Require Import Ascii QArith.
From stdpp Require Import base numbers gmap strings pretty list.
From S2P Require Import Prelude Stream Text Tokens.
Import GoInt.
Local Open Scope Z_scope.

(** ** Words (strings.Join and strings.Split at a space) *)
Module Words.
Fixpoint Join (ws : list string) : string :=
  match ws with [] => "" | [w] => w | w :: ws => w +:+ " " +:+ Join ws end.
Fixpoint Split (s : string) : list string :=
  match s with
  | EmptyString => [""]
  | String c s =>
      if Ascii.eqb c " " then "" :: Split s
      else match Split s with w :: ws => String c w :: ws | [] => [String c ""] end
  end.
Definition plain (w : string) : Prop := (" "%char ∉ bytes_of w).
End Words.

(** ** Fault directives (faults.go) *)
Module Faults.
Import Text.

Inductive StreamMode := StreamModeNormal | StreamModeSlow | StreamModeAbort.
Record Faults := mkFaults {
  Delay : Z; Status : Z; Mode : StreamMode; ChunkDelay : Z; OmitUsage : bool; CompletionTokens : Z
}.

Definition headerDelay : string := "X-Mockllm-Delay-Ms".
Definition headerStatus : string := "X-Mockllm-Status".
Definition headerStreamMode : string := "X-Mockllm-Stream-Mode".
Definition headerChunkDelay : string := "X-Mockllm-Chunk-Delay-Ms".
Definition headerOmitUsage : string := "X-Mockllm-Omit-Usage".
Definition headerCompletionTok : string := "X-Mockllm-Completion-Tokens".

Definition millisecond : Z := 1000000.
Definition defaultChunkDelay : Z := 100 * millisecond.
Definition defaultCompletionTokens : Z := 32.
Definition maxCompletionTokens : Z := 100000.

Definition completionTokens (f : Faults) : Z := if 0 <? CompletionTokens f then CompletionTokens f else defaultCompletionTokens.

Definition abortChunkIndex (f : Faults) (total : Z) : Z :=
  match Mode f with
  | StreamModeAbort => if total <=? 0 then -1 else Z.min 2 total - 1
  | _ => -1
  end.

(** The header a directive fails at. *)
Definition result (A : Type) : Type := A + string.
Definition bind {A B} (r : result A) (k : A -> result B) : result B := match r with inl x => k x | inr e => inr e end.
Local Notation "'let!' x := r ; k" := (bind r (fun x => k)) (at level 10, x name, r at level 100, k at level 200).

Section parse.
(** [header.Get]: empty where absent. *)
Variable header : string -> string.

Definition raw (name : string) : string := TrimSpace (header name).

Definition headerDuration (name : string) : result Z :=
  if String.eqb (raw name) "" then inl 0
  else match ParseInt (raw name) with
       | None => inr name
       | Some ms => if ms <? 0 then inr name else inl (wrap64 (ms * millisecond))
       end.
Definition headerBool (name : string) : result bool :=
  if String.eqb (raw name) "" then inl false
  else match ParseBool (raw name) with None => inr name | Some b => inl b end.

(** A number within bounds, or zero where the header is absent. *)
Definition headerStatusCode : result Z :=
  if String.eqb (raw headerStatus) "" then inl 0
  else match ParseInt (raw headerStatus) with
       | None => inr headerStatus
       | Some status => if (status <? 400) || (599 <? status) then inr headerStatus else inl status
       end.
Definition headerMode : result StreamMode :=
  if String.eqb (raw headerStreamMode) "" then inl StreamModeNormal
  else if String.eqb (raw headerStreamMode) "normal" then inl StreamModeNormal
  else if String.eqb (raw headerStreamMode) "slow" then inl StreamModeSlow
  else if String.eqb (raw headerStreamMode) "abort" then inl StreamModeAbort
  else inr headerStreamMode.
Definition headerTokens : result Z :=
  if String.eqb (raw headerCompletionTok) "" then inl 0
  else match ParseInt (raw headerCompletionTok) with
       | None => inr headerCompletionTok
       | Some tokens => if (tokens <=? 0) || (maxCompletionTokens <? tokens) then inr headerCompletionTok else inl tokens
       end.

Definition parseFaults : result Faults :=
  let! delay := headerDuration headerDelay;
  let! chunkDelay := headerDuration headerChunkDelay;
  let! status := headerStatusCode;
  let! mode := headerMode;
  let! omit := headerBool headerOmitUsage;
  let! tokens := headerTokens;
  inl (mkFaults delay status mode
         (match mode with StreamModeSlow => if chunkDelay =? 0 then defaultChunkDelay else chunkDelay | _ => chunkDelay end)
         omit tokens).
End parse.
End Faults.

(** ** Responses (completion.go) *)
Module Completion.
Import Words Faults Schema UsageCodec.

(** The subset of the chat schema the mock reads. *)
Record completionRequest := mkRequest { model : string; stream : bool; messages : list ChatMessage }.

Inductive delta := mkDelta (role content : string).
Record chatChunk := mkChunk { cID : string; cCreated : Z; cModel : string; choices : list (delta * option string); cUsage : option Usage }.
Record completionResponse := mkResponse {
  rID : string; rCreated : Z; rModel : string; rContent : string; rFinish : string; rUsage : option Usage
}.
Record errorBody := mkError { eType : string; eCode : string }.

Definition mockWords : list string := ["the"; "quick"; "brown"; "fox"; "jumps"; "over"; "the"; "lazy"; "dog"].

Definition promptTokens (req : completionRequest) : Z :=
  let n := foldl (fun n m => wrap64 (n + Tokens.EstimateContentTokens (Content m))) 0 (messages req) in
  if n =? 0 then 1 else n.

Definition word (i : nat) : string := nth (i mod length mockWords) mockWords "".
Definition buildContent (tokens : Z) : string := Join (map word (seq 0 (Z.to_nat tokens))).

(** [%06d] of the next number. *)
Definition nextCompletionID (seq : Z) : string :=
  let digits := pretty seq in
  "chatcmpl-mock-" +:+ String.concat "" (replicate (6 - String.length digits) "0"%string) +:+ digits.

(** A response of one body. *)
Inductive body := ErrorBody (e : errorBody) | JsonBody (r : completionResponse) | TextBody (s : string).
Record response := mkReply { status : Z; contentType : string; content : body }.

Definition writeError (st : Z) (code : string) : response :=
  mkReply st "application/json"
    (ErrorBody (mkError (if (400 <=? st) && (st <? 500) then "invalid_request_error" else "mock_error") code)).

Definition writeCompletion (id : string) (created : Z) (req : completionRequest) (f : Faults) : response :=
  let prompt := promptTokens req in
  let tokens := completionTokens f in
  mkReply 200 "application/json"
    (JsonBody (mkResponse id created (model req) (buildContent tokens) "stop" (Some (mkUsage prompt tokens (wrap64 (prompt + tokens)))))).

(** *** The event stream *)
Section stream.
Variable Marshal : chatChunk -> option bytes.
(** Whether a write succeeds, and whether a wait ends before the client
    leaves, by their numbers. *)
Variable writes : nat -> bool.
Variable waits : nat -> bool.

Record st := mkSt { sent : bytes; written : nat; waited : list Z }.

(** How the handler ends: it returns, or kills the connection. *)
Inductive ended := Finished | Failed | AbortHandler.

Definition write (b : bytes) (s : st) : bool * st :=
  if writes (written s) then (true, mkSt (sent s ++ b) (S (written s)) (waited s)) else (false, mkSt (sent s) (S (written s)) (waited s)).

Definition emit (c : chatChunk) (s : st) : bool * st :=
  match Marshal c with None => (false, s) | Some data => write (Sse.WriteData data) s end.

(** A duration that is not positive is no wait. *)
Definition sleepContext (d : Z) (s : st) : bool * st :=
  if d <=? 0 then (true, s) else (waits (length (waited s)), mkSt (sent s) (written s) (waited s ++ [d])).

Section response.
Variable id : string.
Variable created : Z.
Variable req : completionRequest.
Variable f : Faults.

Definition chunkWithDelta (d : delta) (finish : option string) : chatChunk := mkChunk id created (model req) [(d, finish)] None.

(** The loop over the words from the [i]th of [n] on. *)
Fixpoint content_loop (n i : nat) (words : list string) (s : st) : option ended * st :=
  match words with
  | [] => (None, s)
  | word :: words =>
      let (ok, s) := sleepContext (ChunkDelay f) s in
      if negb ok then (Some Failed, s)
      else
        let text := if (i <? n - 1)%nat then word +:+ " " else word in
        let (ok, s) := emit (chunkWithDelta (mkDelta "" text) None) s in
        if negb ok then (Some Failed, s)
        else if Z.of_nat i =? abortChunkIndex f (completionTokens f) then (Some AbortHandler, s)
        else content_loop n (S i) words s
  end.

Definition usage_chunk : chatChunk :=
  mkChunk id created (model req) []
    (Some (mkUsage (promptTokens req) (completionTokens f) (wrap64 (promptTokens req + completionTokens f)))).

Definition writeStream : ended * st :=
  let (ok, s) := emit (chunkWithDelta (mkDelta "assistant" "") None) (mkSt [] 0 []) in
  if negb ok then (Failed, s)
  else
    let words := Split (buildContent (completionTokens f)) in
    match content_loop (length words) 0 words s with
    | (Some e, s) => (e, s)
    | (None, s) =>
        let (ok, s) := emit (chunkWithDelta (mkDelta "" "") (Some "stop"%string)) s in
        if negb ok then (Failed, s)
        else
          let (ok, s) := if OmitUsage f then (true, s) else emit usage_chunk s in
          if negb ok then (Failed, s)
          else let (ok, s) := write Sse.doneSentinel s in (if ok then Finished else Failed, s)
    end.
End response.
End stream.
End Completion.

(** ** The handler (handler.go, health.go) *)
Module Handler.
Import Faults Completion Schema.

Record Options := mkOptions { DefaultDelay : Z; ErrorRate : Q }.
(** [New]: values out of range are clamped. *)
Definition New (o : Options) : Options :=
  let rate := if Qle_bool 0 (ErrorRate o) then ErrorRate o else 0%Q in
  mkOptions (if DefaultDelay o <? 0 then 0 else DefaultDelay o) (if Qle_bool rate 1 then rate else 1%Q).

(** The request body, as the decoder sees it. *)
Inductive decoded := TooLarge | Malformed | Decoded (r : completionRequest).
Record httpRequest := mkHttp { path : string; method : string; header : string -> string; payload : decoded }.

Inductive outcome :=
  | Replied (r : response)
  | Streamed (e : ended) (s : st)
  | Gone.

Section handler.
Variable Marshal : chatChunk -> option bytes.
Variable writes waits : nat -> bool.
(** Whether the injected delay is waited out; the random draw; the number of
    the completion; the clock. *)
Variable patient : bool.
Variable draw : Q.
Variable number created : Z.
Variable h : Options.

Definition shouldFail : bool := negb (Qle_bool (ErrorRate h) 0) && negb (Qle_bool (ErrorRate h) draw).

Definition handleCompletion (r : httpRequest) : outcome :=
  match parseFaults (header r) with
  | inr _ => Replied (writeError 400 "invalid_fault_directive")
  | inl f =>
      if (0 <? wrap64 (DefaultDelay h + Delay f)) && negb patient then Gone
      else if shouldFail then Replied (writeError 500 "injected_failure")
      else if negb (Status f =? 0) then Replied (writeError (Status f) "injected_status")
      else match payload r with
           | TooLarge => Replied (writeError 413 "request_too_large")
           | Malformed => Replied (writeError 400 "invalid_request")
           | Decoded req =>
               if String.eqb (model req) "" || match messages req with [] => true | _ => false end
               then Replied (writeError 400 "invalid_request")
               else
                 let id := nextCompletionID number in
                 if stream req then let (e, s) := writeStream Marshal writes waits id created req f in Streamed e s
                 else Replied (writeCompletion id created req f)
           end
  end.

Definition handleHealth : response := mkReply 200 "text/plain; charset=utf-8" (TextBody ("ok" +:+ String nl "")).

Definition ServeHTTP (r : httpRequest) : outcome :=
  if String.eqb (path r) "/healthz" then
    if negb (String.eqb (method r) "GET") then Replied (writeError 405 "method_not_allowed") else Replied handleHealth
  else if String.eqb (path r) "/v1/chat/completions" then
    if negb (String.eqb (method r) "POST") then Replied (writeError 405 "method_not_allowed") else handleCompletion r
  else Replied (writeError 404 "not_found").
End handler.
End Handler.
