(* ===== verification/MockProps.v ===== *)
(** * What an experiment against the mock upstream measures

    The event stream of the mock as the gateway's pump reads it, and the
    directives it accepts. *)
From Stdlib Require Import Ascii QArith.
From stdpp Require Import base numbers gmap strings pretty list.
From S2P Require Import Prelude Retry Stream Text Tokens Mock.
Import GoInt.
Local Open Scope Z_scope.

Module WordFacts.
Import Words.

Lemma Split_nonempty s : Split s <> [].
Proof. destruct s as [|c s]; cbn; [done|]. repeat case_match; done. Qed.

Lemma Split_word w rest : plain w -> Split (w +:+ String " " rest) = w :: Split rest.
Proof.
  unfold plain. induction w as [|c w IH]; [done|]. cbn [bytes_of String.list_ascii_of_string]. intros [Hc Hw]%not_elem_of_cons.
  change (String c w +:+ String " " rest) with (String c (w +:+ String " " rest)). cbn [Split].
  destruct (Ascii.eqb_spec c " "); [congruence|]. by rewrite IH.
Qed.

Lemma Split_last w : plain w -> Split w = [w].
Proof.
  unfold plain. induction w as [|c w IH]; cbn; [done|]. intros [Hc Hw]%not_elem_of_cons.
  destruct (Ascii.eqb_spec c " "); [congruence|]. by rewrite IH.
Qed.

(** Splitting undoes joining. *)
Lemma Split_Join ws : ws <> [] -> Forall plain ws -> Split (Join ws) = ws.
Proof.
  induction ws as [|w ws IH]; [done|]. intros _ [Hw Hws]%Forall_cons. destruct ws as [|v ws]; [by apply Split_last|].
  change (Join (w :: v :: ws)) with (w +:+ String " " (Join (v :: ws))). by rewrite Split_word, IH.
Qed.
End WordFacts.

Module EventFacts.
Import Errors Reader UsageCodec Pump Sse StreamSpec PumpFacts StreamProps.

(** Events without the sentinel. *)
Definition events (ps : list bytes) : bytes := concat (map WriteData ps).

Lemma events_app ps qs : events (ps ++ qs) = events ps ++ events qs.
Proof. unfold events. by rewrite map_app, concat_app. Qed.

Lemma events_lines ps : Forall one_line ps -> split_lines (events ps) = concat (map (fun p => [data_line p ++ [nl]; [nl]]) ps).
Proof. unfold events. induction 1 as [|p ps (Hp & _) _ IH]; [done|]. cbn [map concat]. by rewrite WriteData_lines, IH. Qed.

Lemma events_fit ps : Forall one_line ps -> fits (events ps).
Proof.
  intros Hps. unfold fits. rewrite events_lines by done. apply Forall_concat, Forall_map. apply (Forall_impl _ _ _ Hps).
  intros p (_ & _ & Hl). constructor; [|repeat constructor]. unfold data_line. rewrite !length_app. cbn. lia.
Qed.

Lemma events_payloads ps : Forall one_line ps -> payloads (events ps) = ps.
Proof.
  intros Hps. unfold payloads. rewrite events_lines by done. induction Hps as [|p ps (_ & Hcr & _) _ IH]; [done|]. cbn [map concat app].
  rewrite (omap_cons_some _ _ p) by (by apply data_line_read). rewrite omap_cons_none by done. by rewrite IH.
Qed.

(** The pump over a stream whose connection dies between events: the body
    read fails, and that is what the pump returns. *)
Lemma pump_killed (parse_usage : bytes -> option Usage) (broken : goerr) ps : Forall one_line ps ->
  exists p, pumpStream parse_usage (Some broken) no_failure (events ps) = Some p /\ err p = Some broken /\ usage p = last_usage parse_usage ps.
Proof.
  intros Hps. destruct (pump_passthrough parse_usage (Some broken) (events ps)) as [_ H].
  destruct (H (events_fit _ Hps)) as (p & Hp & _ & _ & Hu & He). rewrite events_payloads in Hu, He by done. by exists p.
Qed.
End EventFacts.

Module MockProps.
Import Errors Reader UsageCodec Pump Sse StreamSpec PumpFacts StreamProps EventFacts Schema Words WordFacts Faults Completion Handler.

Section stream.
(** The JSON of a chunk, and the usage the gateway reads from a payload. *)
Variable data : chatChunk -> bytes.
Variable parse_usage : bytes -> option Usage.

Definition Marshal (c : chatChunk) : option bytes := Some (data c).
Definition always (_ : nat) : bool := true.

(** What a read of the body fails with once the connection is killed. *)
Variable broken : goerr.

Variable id : string.
Variable created : Z.
Variable req : completionRequest.
Variable f : Faults.

Local Abbreviation chunk := (chunkWithDelta id created req).

(** The chunks of the words from the [i]th of [n] on. *)
Definition text (n i : nat) (w : string) : string := if (i <? n - 1)%nat then w +:+ " " else w.
Fixpoint content_chunks (n i : nat) (ws : list string) : list chatChunk :=
  match ws with [] => [] | w :: ws => chunk (mkDelta "" (text n i w)) None :: content_chunks n (S i) ws end.

(** What a chunk says, and what a run of chunks does. *)
Definition said (c : chatChunk) : string := match choices c with [(mkDelta _ t, _)] => t | _ => "" end.
Definition saying (cs : list chatChunk) : string := foldr (fun c t => said c +:+ t) "" cs.

Lemma emit_ok c s : emit Marshal always c s = (true, mkSt (sent s ++ WriteData (data c)) (S (written s)) (waited s)).
Proof. done. Qed.

Lemma sleep_ok d s : exists l, sleepContext always d s = (true, mkSt (sent s) (written s) l).
Proof. unfold sleepContext. destruct (d <=? 0); [exists (waited s); by destruct s|by eexists]. Qed.

(** The loop runs to the end, or to the chunk it aborts at. *)
Lemma content_loop_runs n ws i s :
  let a := abortChunkIndex f (completionTokens f) in
  exists s', content_loop Marshal always always id created req f n i ws s =
    (if decide (Z.of_nat i <= a < Z.of_nat (i + length ws)) then Some AbortHandler else None, s') /\
    sent s' = sent s ++ events (map data (if decide (Z.of_nat i <= a < Z.of_nat (i + length ws))
                                          then take (Z.to_nat a + 1 - i) (content_chunks n i ws) else content_chunks n i ws)).
Proof.
  intros a. revert i s. induction ws as [|w ws IH]; intros i s; cbn [content_loop content_chunks length].
  - exists s. rewrite !decide_False by lia. unfold events. cbn. by rewrite app_nil_r.
  - destruct (sleep_ok (ChunkDelay f) s) as [l ->]. cbn [negb]. rewrite emit_ok. cbn [negb sent written waited]. fold a. fold (text n i w).
    destruct (Z.eqb_spec (Z.of_nat i) a) as [Ha|Ha].
    + rewrite !decide_True by lia. replace (Z.to_nat a + 1 - i)%nat with 1%nat by lia. eexists. split; [done|].
      cbn [take map sent]. unfold events. cbn. by rewrite app_nil_r.
    + destruct (IH (S i) (mkSt (sent s ++ WriteData (data (chunk (mkDelta "" (text n i w)) None))) (S (written s)) l)) as (s' & -> & Hs').
      exists s'. rewrite Hs'. cbn [sent]. clear IH Hs'. destruct (decide (Z.of_nat (S i) <= a < Z.of_nat (S i + length ws))) as [H|H].
      * rewrite !decide_True by lia. split; [done|]. replace (Z.to_nat a + 1 - i)%nat with (S (Z.to_nat a + 1 - S i)) by lia.
        cbn [take map]. unfold events. cbn [map concat]. by rewrite <- app_assoc.
      * rewrite !decide_False by lia. split; [done|]. cbn [map]. unfold events. cbn [map concat]. by rewrite <- app_assoc.
Qed.

Lemma words_plain n : Forall plain (map word (seq 0 n)).
Proof.
  apply Forall_map, Forall_forall. intros i _. unfold word.
  assert (Forall plain mockWords) as Hp by (unfold plain; by apply (bool_decide_unpack _)).
  rewrite Forall_forall in Hp. apply Hp, list_elem_of_In, nth_In. apply Nat.mod_upper_bound. done.
Qed.

Lemma completion_positive : 0 < completionTokens f.
Proof. unfold completionTokens. destruct (Z.ltb_spec 0 (CompletionTokens f)); [done|]. by vm_compute. Qed.

Definition tokens : nat := Z.to_nat (completionTokens f).
Definition the_words : list string := map word (seq 0 tokens).

Lemma split_content : Split (buildContent (completionTokens f)) = the_words.
Proof.
  apply Split_Join; [|apply words_plain]. pose proof completion_positive. unfold the_words, tokens.
  destruct (Z.to_nat (completionTokens f)) eqn:E; [lia|done].
Qed.

Lemma the_words_length : length the_words = tokens.
Proof. unfold the_words. by rewrite length_map, length_seq. Qed.

Lemma app_empty t : t +:+ "" = t.
Proof. induction t as [|c t IH]; [done|]. change (String c (t +:+ "") = String c t). by rewrite IH. Qed.
Lemma app_assoc_string (t u v : string) : (t +:+ u) +:+ v = t +:+ (u +:+ v).
Proof. induction t as [|c t IH]; [done|]. change (String c ((t +:+ u) +:+ v) = String c (t +:+ (u +:+ v))). by rewrite IH. Qed.

Lemma saying_words n i ws : ws <> [] -> (i + length ws = n)%nat -> saying (content_chunks n i ws) = Join ws.
Proof.
  revert i. induction ws as [|w ws IH]; intros i; [done|]. intros _ Hn. cbn [content_chunks saying foldr]. fold (saying (content_chunks n (S i) ws)).
  unfold text. destruct ws as [|v ws].
  - cbn in Hn. destruct (Nat.ltb_spec i (n - 1)); [lia|]. apply app_empty.
  - rewrite IH by (done || cbn in *; lia). cbn [length] in Hn. destruct (Nat.ltb_spec i (n - 1)); [|lia].
    change (said _) with (w +:+ " "). change (Join (w :: v :: ws)) with (w +:+ " " +:+ Join (v :: ws)). apply app_assoc_string.
Qed.

Lemma content_chunks_length n i ws : length (content_chunks n i ws) = length ws.
Proof. revert i. induction ws as [|w ws IH]; intros i; cbn; [done|by rewrite IH]. Qed.

Lemma content_no_usage n i ws c : c ∈ content_chunks n i ws -> cUsage c = None.
Proof. revert i. induction ws as [|w ws IH]; intros i; cbn; [by intros ?%not_elem_of_nil|]. intros [->|Hc]%elem_of_cons; [done|by apply (IH (S i))]. Qed.

Lemma last_usage_app ps qs u : foldl (fun u p => match parse_usage p with Some u => Some u | None => u end) u (ps ++ qs)
  = foldl (fun u p => match parse_usage p with Some u => Some u | None => u end)
      (foldl (fun u p => match parse_usage p with Some u => Some u | None => u end) u ps) qs.
Proof. apply foldl_app. Qed.

Definition role : chatChunk := chunk (mkDelta "assistant" "") None.
Definition final : chatChunk := chunk (mkDelta "" "") (Some "stop"%string).
Definition contents : list chatChunk := content_chunks tokens 0 the_words.
Definition accounting : list chatChunk := if OmitUsage f then [] else [usage_chunk id created req f].

(** The chunks of a stream that is sent whole. *)
Definition chunks : list chatChunk := role :: contents ++ final :: accounting.

Definition stated : option Usage :=
  if OmitUsage f then None
  else Some (mkUsage (promptTokens req) (completionTokens f) (wrap64 (promptTokens req + completionTokens f))).

(** The JSON of each of them is one line that is not the terminator, and the
    gateway reads from it the usage the chunk states. *)
Hypothesis data_line : forall c, c ∈ chunks -> one_line (data c).
Hypothesis data_usage : forall c, c ∈ chunks -> parse_usage (data c) = cUsage c.
Hypothesis data_done : forall c, c ∈ chunks -> data c <> donePayload.
Hypothesis done_usage : parse_usage donePayload = None.

Lemma no_usage cs u : (forall c, c ∈ cs -> c ∈ chunks /\ cUsage c = None) ->
  foldl (fun u p => match parse_usage p with Some u => Some u | None => u end) u (map data cs) = u.
Proof.
  induction cs as [|c cs IH]; intros H; [done|]. cbn. destruct (H c) as [Hc Hu]; [by left|]. rewrite data_usage, Hu by done.
  apply IH. intros c' Hc'. apply H. by right.
Qed.

Lemma one_lines cs : cs ⊆ chunks -> Forall one_line (map data cs).
Proof. intros H. apply Forall_map, Forall_forall. intros c Hc. by apply data_line, H. Qed.

Lemma dead_in n : role :: take n contents ⊆ chunks.
Proof.
  intros c [->|Hc]%elem_of_cons; [by left|]. right. apply elem_of_app. left. rewrite <- (take_drop n contents). apply elem_of_app. by left.
Qed.

Lemma contents_no_usage c : c ∈ contents -> cUsage c = None.
Proof. apply content_no_usage. Qed.

Lemma mock_contents_length : length contents = tokens.
Proof. unfold contents. by rewrite content_chunks_length, the_words_length. Qed.

Lemma contents_say : saying contents = buildContent (completionTokens f).
Proof.
  apply saying_words; [|by rewrite the_words_length]. pose proof the_words_length as Hw. pose proof completion_positive.
  unfold tokens in Hw. destruct the_words; [cbn in Hw; lia|done].
Qed.

(** Nothing before the accounting states usage. *)
Lemma spoken_no_usage n : forall c, c ∈ role :: take n contents -> c ∈ chunks /\ cUsage c = None.
Proof.
  intros c Hc. split; [by apply (dead_in n)|]. apply elem_of_cons in Hc as [->|Hc]; [done|]. apply contents_no_usage.
  rewrite <- (take_drop n contents). apply elem_of_app. by left.
Qed.

(** A whole stream through the pump. *)
Lemma whole_stream b : b = events (map data chunks) ++ doneSentinel ->
  payloads b = map data chunks ++ [donePayload] /\
  exists p, pumpStream parse_usage None no_failure b = Some p /\ err p = None /\ usage p = stated.
Proof.
  intros ->. change (events ?ps ++ doneSentinel) with (encode_stream ps).
  destruct (sse_roundtrip parse_usage _ (one_lines chunks (fun c H => H))) as (Hp & p & Hpump & _ & _ & He & Hu).
  split; [done|]. exists p. split_and!; try done. rewrite Hu. unfold last_usage. rewrite last_usage_app. cbn [foldl]. rewrite done_usage.
  unfold chunks at 1. change (role :: contents ++ final :: accounting) with ((role :: contents) ++ final :: accounting).
  rewrite map_app, last_usage_app, (no_usage (role :: contents)).
  - cbn [map foldl]. rewrite data_usage by (right; apply elem_of_app; right; left). cbn [cUsage final chunkWithDelta].
    pose proof (data_usage (usage_chunk id created req f)) as Hd. unfold chunks in Hd. unfold accounting, stated in *.
    destruct (OmitUsage f); [done|]. cbn [map foldl]. rewrite Hd; [reflexivity|]. right. apply elem_of_app. right. right. left.
  - intros c Hc. apply (spoken_no_usage tokens). by rewrite <- mock_contents_length, firstn_all.
Qed.

(** A stream killed behind [n] words. *)
Lemma killed_stream n b : b = events (map data (role :: take n contents)) ->
  payloads b = map data (role :: take n contents) /\ donePayload ∉ payloads b /\
  exists p, pumpStream parse_usage (Some broken) no_failure b = Some p /\ err p = Some broken /\ usage p = None.
Proof.
  intros ->. pose proof (one_lines _ (dead_in n)) as Hl. rewrite events_payloads by done. split_and!; [done| |].
  - intros (c & Hc & Hin)%list_elem_of_fmap. by apply (data_done c), eq_sym; [apply (dead_in n)|].
  - destruct (pump_killed parse_usage broken _ Hl) as (p & Hp & He & Hu). exists p. split_and!; try done. rewrite Hu.
    by apply (no_usage (role :: take n contents)), spoken_no_usage.
Qed.

Lemma abort_index : abortChunkIndex f (completionTokens f) = match Mode f with StreamModeAbort => Z.min 2 (completionTokens f) - 1 | _ => -1 end.
Proof. unfold abortChunkIndex. pose proof completion_positive. destruct (Mode f); try done. destruct (Z.leb_spec (completionTokens f) 0); [lia|done]. Qed.

(** C35. With a client that stays, the stream of the mock is a role chunk, a
    chunk per word that together say the whole completion, a stop, the usage
    unless it is to be omitted, and the terminator; the gateway's pump takes
    it for complete and settles the usage the mock states, whose prompt is the
    measure the gateway reserved against.  In abort mode the handler kills the
    connection behind at most two words and without a terminator: the events
    delivered stay delivered, and the pump returns the error of the failed
    body read, without usage. *)
Theorem mock_stream :
  let (e, s) := writeStream Marshal always always id created req f in
  promptTokens req = Estimate.promptEstimate (mkChat (model req) (stream req) (messages req) None None None None) /\
  saying contents = buildContent (completionTokens f) /\ length contents = tokens /\
  match Mode f with
  | StreamModeAbort =>
      e = AbortHandler /\ payloads (sent s) = map data (role :: take (Nat.min 2 tokens) contents) /\ donePayload ∉ payloads (sent s) /\
      exists p, pumpStream parse_usage (Some broken) no_failure (sent s) = Some p /\ err p = Some broken /\ usage p = None
  | _ =>
      e = Finished /\ payloads (sent s) = map data (chunks) ++ [donePayload] /\
      exists p, pumpStream parse_usage None no_failure (sent s) = Some p /\ err p = None /\ usage p = stated
  end.
Proof.
  unfold writeStream. rewrite emit_ok. cbn [negb]. rewrite split_content. set (s0 := mkSt _ _ _).
  destruct (content_loop_runs (length the_words) the_words 0 s0) as (s1 & -> & Hs1). rewrite the_words_length in *. fold contents in Hs1.
  assert (Hn : Z.of_nat tokens = completionTokens f) by (unfold tokens; pose proof completion_positive; lia).
  pose proof completion_positive as Hpos. cbn [Nat.add] in *. rewrite abort_index in *.
  assert (Hgo : sent s1 = events (map data (role :: contents)) -> exists s2,
    (let (ok, s) := emit Marshal always (chunk (mkDelta "" "") (Some "stop"%string)) s1 in
     if negb ok then (Failed, s)
     else let (ok, s) := if OmitUsage f then (true, s) else emit Marshal always (usage_chunk id created req f) s in
          if negb ok then (Failed, s) else let (ok, s) := write always doneSentinel s in (if ok then Finished else Failed, s)) = (Finished, s2) /\
    sent s2 = events (map data (chunks)) ++ doneSentinel).
  { intros H1. unfold chunks. change (role :: contents ++ final :: accounting) with ((role :: contents) ++ final :: accounting).
    rewrite map_app, events_app, <- H1. unfold accounting, events. destruct (OmitUsage f); cbn -[doneSentinel WriteData]; eexists;
      (split; [reflexivity|]); cbn -[doneSentinel WriteData]; by rewrite ?app_nil_r, ?app_assoc. }
  destruct (Mode f) eqn:Hm.
  1, 2: rewrite decide_False in * by lia; destruct (Hgo Hs1) as (s2 & -> & Hs2); split_and!; try done; [apply contents_say|apply mock_contents_length|..];
    by apply whole_stream.
  rewrite decide_True by lia. rewrite decide_True in Hs1 by lia. replace (Z.to_nat (Z.min 2 (completionTokens f) - 1) + 1 - 0)%nat with (Nat.min 2 tokens) in Hs1 by lia.
  destruct (killed_stream (Nat.min 2 tokens) (sent s1)) as (H1 & H2 & H3); [by rewrite Hs1|].
  split_and!; [done|apply contents_say|apply mock_contents_length|done..].
Qed.
End stream.

(** A rendering that tells the usage chunk from the others. *)
Definition demo_data (c : chatChunk) : bytes := bytes_of match cUsage c with Some _ => "usage" | None => "{}" end.
Definition demo_parse (b : bytes) : option Usage := if bool_decide (b = bytes_of "usage") then Some (mkUsage 1 2 3) else None.
Definition demo_request : completionRequest := mkRequest "mock" true [].
Definition demo_faults (mode : StreamMode) : Faults := mkFaults 0 0 mode 0 false 2.

Lemma demo_line mode c : c ∈ chunks "id" 0 demo_request (demo_faults mode) ->
  one_line (demo_data c) /\ demo_parse (demo_data c) = cUsage c /\ demo_data c <> donePayload.
Proof.
  intros Hc. unfold one_line.
  assert (Forall (fun c => cUsage c = None \/ cUsage c = Some (mkUsage 1 2 3)) (chunks "id" 0 demo_request (demo_faults mode))) as H
    by (repeat constructor; (by left) || (by right)).
  rewrite Forall_forall in H. unfold demo_data, demo_parse.
  destruct (H c Hc) as [->| ->]; (split_and!; try done; by apply (bool_decide_unpack _)).
Qed.

Definition demo_broken : goerr := Transport "unexpected EOF".

Lemma mock_stream_witness : exists s p,
  writeStream (Marshal demo_data) always always "id" 0 demo_request (demo_faults StreamModeNormal) = (Finished, s) /\
  pumpStream demo_parse None no_failure (sent s) = Some p /\ err p = None /\ usage p = Some (mkUsage 1 2 3).
Proof.
  pose proof (mock_stream demo_data demo_parse demo_broken "id" 0 demo_request (demo_faults StreamModeNormal)
    (fun c H => proj1 (demo_line _ c H)) (fun c H => proj1 (proj2 (demo_line _ c H))) (fun c H => proj2 (proj2 (demo_line _ c H))) eq_refl) as H.
  destruct (writeStream _ _ _ _ _ _ _) as [e s]. destruct H as (_ & _ & _ & -> & _ & p & Hp & He & Hu). by exists s, p.
Defined.
End MockProps.
